(* ===== verification/_CoqProject ===== *)
-Q . S2P
Prelude.v
Calls.v
Actors.v
StoragePaths.v
Snapshots.v
ReplicaStore.v
Samples.v
ReplicaDurability.v
ReplicaServer.v
RuntimeStorage.v
StreamNames.v
Interleaving.v
ActivationSafety.v
StorageProtocol.v
Recovery.v
SocketEffects.v
ActorRuntime.v
ActorCommits.v
HostStorage.v
LeaseSafety.v
ReplicatedTransport.v
FileBucket.v
HostRequests.v
HostDispatcher.v
Admission.v
AdmissionSafety.v
HostService.v
ActorReplication.v
ReplicationSafety.v
Deployments.v
SparePool.v
SparePoolSafety.v
Contracts.v
Tokens.v
ControlPlane.v
ControlPlaneSafety.v
ReplicaFleet.v
ReplicaFleetSafety.v
LeaseMaintenance.v
RequestTraces.v
TraceHistory.v
TracePaging.v
TraceStores.v
SocketRegistry.v
SocketSessions.v
ExecutorConnection.v
ExecutorSafety.v
HostProcess.v
HostLifecycle.v
StorageAccess.v
PublicApi.v
Inspection.v
LocalHosts.v
ControlPlaneProcess.v
GoogleBucket.v
PostgresRegistry.v
PostgresTraces.v
TraceMetrics.v
ProviderProcess.v
LocalMode.v
HostHttp.v
ControlPlaneClient.v
PeerTransport.v
