(* ===== verification/Prelude.v ===== *)
(** * Durable Actors: a model of its durable core and the proofs about it

    The program runs actors: user code with a JSON state, addressed by project,
    name and identifier.  One host process at a time owns an actor.  It holds a
    lease in an object bucket, executes invocations and socket events, and makes
    each new state durable, in the bucket or on a set of replicas, before it
    answers.  When its lease expires another host takes the actor over, seals
    the replicas of the previous session and goes on from the newest state.

    ** Parts and files

    - [Prelude] (this file): results, machine integers, strings, numerals, with
      their lemmas and the tactics [res_inv], [bools], [snorm].
    - [Actors]: identities, invocations, socket data, leases
      (actor/protocol.rs, actor_state.rs, actor/executor_connection.rs,
      host_leases.rs, placement.rs).
    - [StoragePaths]: names of objects and their parsers (storage_paths.rs,
      storage.rs, [snapshot_position] of bucket/runtime.rs).
    - [Snapshots]: durable snapshots, streams, tickets (state_log.rs,
      replication/stream.rs, replication/mod.rs).
    - [ReplicaStore], [ReplicaDurability]: the on-disk store of a replica
      (replication/store.rs) and what it guarantees.
    - [ReplicaServer]: capabilities, request handlers, assignment and wire
      format of a replica (replication/access.rs, server.rs, spare.rs, wire.rs).
    - [RuntimeStorage]: ownership, sessions, recovery, writing, repair and
      history over the bucket (bucket.rs, bucket/peers.rs, bucket/runtime.rs and
      bucket/runtime/*.rs).
    - [StreamNames]: the names of replica streams.
    - [Interleaving], [ActivationSafety], [StorageProtocol]: the requests of
      [RuntimeStorage] issued by any number of hosts at once.
    - [Recovery]: a takeover loads what replicas had acknowledged.
    - [SocketEffects]: validation of socket effects (actor/socket.rs).
    - [ActorRuntime], [ActorCommits]: the commit protocol of one actor
      (host/actor_runtime.rs).
    - [HostStorage], [LeaseSafety]: the lease fence (control_plane/client.rs)
      and the host's view of storage (host/storage.rs), in time.
    - [ReplicatedTransport]: bucket and replica writes at once
      (replication/transport.rs).
    - [FileBucket]: the bucket on a directory (bucket/file.rs).
    - [HostRequests], [HostDispatcher]: requests, the waiting inventory and the
      dispatcher of a host (host/queues.rs, host/actor_host.rs).
    - [Admission], [AdmissionSafety]: the actor task that runs invocations
      concurrently (host/actor_host/admission.rs).
    - [HostService]: dispatcher and actor task together.  [ActorTask] states what
      the dispatcher expects of a task; the serial task of host/actor_host.rs and
      the mailbox of [Admission] are its instances.
    - [ActorReplication], [ReplicationSafety]: writer and repair of the replicas
      of a running actor (host/replication.rs).
    - [Calls]: programs over requests and the traces of their runs, for the
      control plane.
    - [Deployments]: launch specifications, the registry of deployments and
      regions (control_plane/admin.rs, regions.rs).
    - [SparePool], [SparePoolSafety]: the pool of sandboxes in the database
      (sandbox.rs, sandbox/pool.rs, sandbox/pool/*.rs).
    - [Contracts]: public actor contracts (control_plane/contracts.rs).
    - [Tokens]: actor tokens and socket tickets, and their checks by a host
      (control_plane/auth.rs, issuer.rs, socket_ticket.rs, host/http.rs).
    - [ControlPlane], [ControlPlaneSafety]: routing, launching, commands and
      deployments (control_plane/service.rs, protocol.rs).
    - [ReplicaFleet], [ReplicaFleetSafety]: groups of replicas and their cleanup
      (control_plane/replication.rs, replication/*.rs).
    - [LeaseMaintenance]: renewing the lease, and the fence of the process
      (host/lease_maintenance.rs).
    - [RequestTraces]: traces of requests, their spans and the task that reports
      them (request_traces.rs).
    - [TraceHistory], [TracePaging], [TraceStores]: the tables of traces in SQLite,
      their queries and cursors, and the store that writes them
      (request_traces/*.rs, request_traces/persistence/cursor.rs, sqlite.rs,
      sqlite/*.rs, [TraceStore] of request_traces.rs).
    - [SocketRegistry]: the registry of connections and their output channels
      (sockets/mod.rs).
    - [SocketSessions]: sessions of browsers, and what a host does with socket
      events and effects (sockets/browser.rs, host/sockets.rs).
    - [ExecutorConnection], [ExecutorSafety]: the connection to the process that
      runs user code: framing, handshakes, and the driver that multiplexes commands
      (actor/executor_connection.rs).
    - [HostProcess], [HostLifecycle]: configuration and life of a host process, spare
      processes and their assignment, the first replicas of an actor
      (host/process.rs, assignment.rs, spare.rs, replication/startup.rs).
    - [StorageAccess]: tokens for the bucket and their boundary, initial replicas
      (bucket/access.rs, host/replica_provisioner.rs).
    - [HostHttp]: the HTTP handlers of a host and its handle on the dispatcher
      (host/http.rs, [ActorHost] of host/actor_host.rs).
    - [PublicApi], [Inspection]: the HTTP handlers of the control plane
      (control_plane/public_api.rs, contract_api.rs, inspection.rs).
    - [ControlPlaneProcess]: its configuration, keys and event sink
      (control_plane/process.rs, event_sink.rs).
    - [ControlPlaneClient]: the hosts' client of the control plane, the gRPC service
      that answers it and the renewal of credentials (control_plane/client.rs,
      [execute] of service.rs, [HostCredentials] of host/storage.rs).
    - [PeerTransport]: capability addresses, channels and the calls of a host to its
      replicas (grpc/transport.rs, state_transport.rs, bucket/peers.rs).
    - [LocalHosts]: hosts as processes of a developer's machine
      (sandbox/local.rs, local_store.rs).
    - [LocalMode]: builds of local code and the local server
      (control_plane/local_build.rs, local.rs, main.rs).
    - [ProviderProcess]: the worker process of a sandbox provider
      (sandbox/command_process.rs, [CommandSandboxProvider] of sandbox.rs).
    - [GoogleBucket]: the bucket in Google Cloud Storage (bucket/gcs.rs).
    - [PostgresRegistry]: the interface [AdminRegistry] of registries of deployments,
      which the registry in memory and the one in PostgreSQL implement
      (control_plane/admin.rs, postgres.rs).
    - [PostgresTraces], [TraceMetrics]: the tables of traces in PostgreSQL, and the
      aggregates over traces in both databases (request_traces/metrics.rs,
      request_traces/persistence/postgres.rs, postgres/*.rs, sqlite/metrics.rs).
    - [Samples]: concrete serializers for the examples.

    ** How the code is represented

    Pure functions are functions; [anyhow::Result] is [Result].  Integers are
    [Z], with the checked, saturating and converting operations written out
    where the code uses them.  Strings and byte vectors are [string].

    The replica store is a state monad in which an error keeps the changes made
    before it and every file operation may fail ([ReplicaStore.io]).  Code that
    waits for others between steps is a program over requests: [prog] for
    [RuntimeStorage], [hprog] for [ActorRuntime], [sprog] for [HostStorage],
    [rprog] for [ActorReplication], and [Calls.calls] for the pool, the control
    plane, the fleet of replicas, the lease maintainer, socket sessions, HTTP
    handlers, clients and processes.  A reply is an
    argument of the continuation, so a theorem about all replies is one about all
    behaviours of storage, network, user code and clocks, and the requests of
    several tasks can be interleaved.  SQL statements are functions on tables;
    tasks that run side by side without sharing anything but databases are
    listed one after the other.  A PostgreSQL transaction holds the row of its
    project and is one step; each of its trips may fail, and a commit may be applied
    although it is reported as failed.  A listing of the bucket need not be a
    snapshot: the protocol assumes only that it has the objects that existed when it
    started ([Interleaving.lists]).  A listing of a directory is a walk that other
    writers may interleave with; one of Google Cloud Storage is a step of the protocol
    when the bucket does not change between its pages.

    Other crates are parameters with the laws the code relies on: base64
    ([StoragePaths.Base64Url], [SocketEffects.Base64Std]), SHA-256, HMAC, URL
    parsing ([ReplicaServer]), signed tokens ([Tokens.Jwt]) and serde_json
    ([Snapshots.Json]; [ExecutorSafety.JsonFrameLaws] for messages without
    line breaks).  The order of a hash map ([SocketRegistry.HashIter]) and what
    SQLite does with JSON and with positions ([TraceHistory.SqliteJson],
    [TraceHistory.SqliteRowids], [TraceMetrics.SqliteColumns]) are parameters too, as
    are floating-point arithmetic ([TraceMetrics.F64Arithmetic]), the payload of compact
    tokens ([ControlPlaneClient.JwtCompact]) and the addresses of origins
    ([PeerTransport.OriginLaws]).  [Samples] and the examples
    instantiate them.

    Event loops are step relations over the state that the loop keeps
    ([Admission.loop_step], [HostService.host_step]), or functions of the branch
    that [select!] takes next ([ExecutorConnection.driver_step],
    [RequestTraces.report_step], [SocketRegistry.registry_step]): a run is a list of
    inputs in any order, and a session that waits on several things takes the turns
    of its [select!] from the replies.

    The unbounded retry loops of session recovery and of repair take fuel;
    running out is the program [Spin] ([RSpin]), which never returns, so the
    safety theorems hold for every fuel.  [release_activation] tries three times,
    as the code does; loops with a time limit ([wait_ready], [acquire_replica])
    and the renewal task take the number of their turns, which is arbitrary.
    Schemas are checked with their depth as fuel, which is always enough
    ([Contracts.schema_validation_terminates]).

    ** What is proved

    - Exclusive ownership.  In every interleaving of storage operations by any
      number of hosts, with compare-and-swaps that may be applied although they
      are reported as failed, no two sessions share an epoch of an actor, owner
      records only move forward, snapshots never change, and sealed sessions
      stay sealed ([StorageProtocol]).  A host's fence stops granting authority
      before another host can take over, provided the other's wall clock is at most
      4.999 seconds ahead; instants are nanoseconds and wall clocks are read in whole
      milliseconds, so at five seconds the two may overlap by less than a millisecond
      ([LeaseSafety], with [truncation_overlaps] and [distant_clock_overlaps]).
    - Durability.  An invocation is answered with a result only if its state was
      acknowledged by the snapshot writer, each version has one content, and no
      answer leaves without authority ([ActorCommits]); a replicated write is
      proved by the bucket or by every replica ([ReplicatedTransport]); a write
      reported by the bucket is stored ([StorageProtocol]); a replica keeps what
      it acknowledged, through any file errors and restarts of its process
      ([ReplicaDurability]); an undisturbed takeover of an existing actor, whose
      session is not sealed and has replicas, loads at least what complete replicas
      hold, and is refused if none answers ([Recovery]).
    - Serving.  However executions interleave, an actor task answers only with
      durable results and commits them in the order of their sequence numbers;
      it stays responsive ([AdmissionSafety]).  Every request that a host accepts
      is answered at most once and never lost while its task lives; drains and
      evictions wait for answers; the backlog is bounded and what is published
      about it is true ([HostService]).
    - Repair.  However writes and repairs interleave and fail, an acknowledged
      version is in the bucket or on all recorded replicas, and replicas are used
      again only after they have caught up ([ReplicationSafety]).
    - Routing.  A route leads to the ready owner of an actor under a running lease
      or to a host just launched for it; failed launches give their sandbox back;
      commands act for the credential's own actor, host and session, and all but the
      two that prepare a host's first replicas only for the owner; deployments are
      replaced in order ([ControlPlaneSafety]).  An invocation token is worth exactly what it was
      issued for, and socket tickets round-trip ([Tokens]).
    - Resources.  A sandbox serves one host, limits on spares hold and rows follow
      their lifecycle ([SparePoolSafety]); a replica in use keeps its slot, is
      retired only when no session needs it, and provisioning fills every slot
      ([ReplicaFleetSafety]); a process goes on only within its lease, up to the delay
      of its timers ([LeaseMaintenance]).
    - Processes.  An accepted configuration suits all parts of a host; its life keeps
      its order, ends only for a reason, and gives the lease back once the maintainer
      has started ([HostLifecycle]);
      the credentials of a host fit the objects it uses ([StorageAccess]).
    - Sockets.  In every interleaving the registry stays consistent, a browser receives
      the accepted messages in order, a refused message closes its connection, and
      effects reach exactly the connections they are for ([SocketRegistry]); messages of
      a browser are handled one at a time, in order, or discarded visibly, and nothing
      is shown that was not validated, or without authority ([SocketSessions]).
    - User code.  Every command is answered once, by the reply to its own message;
      state is left out of a command only for an actor that the executor still
      holds; frames are read back as they were written ([ExecutorSafety]).
    - Traces.  Every trace is reported or counted ([RequestTraces]) and, once
      accepted, kept or reported as lost ([TraceStores]); retention keeps the newest
      ones, paging shows each matching trace once while others arrive, or says to start
      over after pruning, and a reader that follows them misses none without being told
      ([TracePaging]).
      In PostgreSQL too a reader misses nothing, and retention deletes what expired
      ([PostgresTraces]); the overviews of both databases agree ([TraceMetrics]).
    - Interfaces.  Nothing is asked of a host without a token for exactly that request,
      and a client never takes an invocation that completed for one that did not
      ([HostHttp]); addresses of sockets fit their routes ([PublicApi]); a browser that
      follows requests misses none, and waits with one unsent only while its writer is
      about to announce it ([Inspection]); a host that renews its credentials stays known under its identity, in time ([ControlPlaneClient]); what a host asks
      of a replica through the network is what the replica's store does
      ([PeerTransport]).
    - Deployments.  Both registries implement one specification of deployments and
      contracts, however PostgreSQL fails ([PostgresRegistry]); in local mode an actor has
      one process per configuration and region ([LocalHosts]) and the code of a registered deployment stays on disk
      ([LocalMode]); a provider has one worker process at a time ([ProviderProcess]).
    - Contracts.  Checking a schema ends and accepts exactly the well-formed ones;
      the hash ignores the order of fields ([Contracts]).
    - Isolation and names.  A replica serves only the activation it is bound to,
      for good; capabilities and wire messages round-trip ([ReplicaServer]);
      object names identify actor, epoch and version, and stream prefixes do not
      nest ([StoragePaths], [StreamNames]).
    - The file bucket and the one in Google Cloud Storage implement the bucket that the
      protocol assumes ([FileBucket], [GoogleBucket]); socket validation is exact ([SocketEffects]).

    ** What is not modelled

    The wiring of the parts into processes and routers, binding and serving of
    listeners, TLS and limits of messages, connection pools, migrations of databases,
    the process of a replica, the polling of ready files and what the local server
    prints.  Logging and timing fields are left out everywhere.

    Power failures: what was written to a file is there when the process restarts.  An
    [fsync] may fail, but has no other effect ([ReplicaStore.sync_directory],
    [FileBucket]), so the theorems do not show that the calls to it are needed. *)

From Stdlib Require Export ZArith Lia Ascii String.
From stdpp Require Export base decidable option list gmap strings sorting.
#[global] Set Default Goal Selector "!".
Local Open Scope string_scope.
Local Open Scope Z_scope.

(** * Results

    [anyhow::Result]: a value, or an error carrying its message. *)
Inductive Result (A : Type) : Type :=
| Ok (a : A)
| Err (e : string).
Arguments Ok {A} a.
Arguments Err {A} e.

#[global] Instance Result_ret : MRet Result := fun A a => Ok a.
#[global] Instance Result_bind : MBind Result := fun A B f m =>
  match m with Ok a => f a | Err e => Err e end.
#[global] Instance Result_fmap : FMap Result := fun A B f m =>
  match m with Ok a => Ok (f a) | Err e => Err e end.
#[global] Instance Result_eq_dec `{EqDecision A} : EqDecision (Result A).
Proof. solve_decision. Defined.

(** [ensure!(b, msg)] *)
Definition ensure (b : bool) (msg : string) : Result unit :=
  if b then Ok () else Err msg.

(** [option.context(msg)?] *)
Definition with_context {A} (o : option A) (msg : string) : Result A :=
  match o with Some a => Ok a | None => Err msg end.

Definition is_ok {A} (r : Result A) : bool :=
  match r with Ok _ => true | Err _ => false end.

(** [iter.map(f).collect::<Result<Vec<_>>>()]: the first error wins. *)
Fixpoint collect {A B} (f : A -> Result B) (l : list A) : Result (list B) :=
  match l with
  | [] => Ok []
  | x :: l' => y ← f x; ys ← collect f l'; Ok (y :: ys)
  end.

Definition is_nil {A} (l : list A) : bool := match l with [] => true | _ => false end.

(** * [BTreeSet<String>] *)
Fixpoint set_insert (h : string) (s : list string) : list string :=
  match s with
  | [] => [h]
  | x :: s' =>
      match String.compare h x with
      | Lt => h :: s
      | Eq => s
      | Gt => x :: set_insert h s'
      end
  end.
Definition set_extend (hs : list string) (s : list string) : list string :=
  fold_left (fun s h => set_insert h s) hs s.

(** * Machine integers: [u64] and [i64] as [Z] with their bounds *)
Definition U64_MAX : Z := 18446744073709551615.
Definition U32_MAX : Z := 4294967295.
Definition I64_MAX : Z := 9223372036854775807.

Definition u64_ok (n : Z) : Prop := 0 <= n <= U64_MAX.
#[global] Instance u64_ok_dec n : Decision (u64_ok n).
Proof. unfold u64_ok. apply _. Defined.

Definition checked_add (a b : Z) : option Z :=
  if a + b <=? U64_MAX then Some (a + b) else None.
Definition saturating_add (a b : Z) : Z := Z.min (a + b) U64_MAX.
Definition saturating_sub (a b : Z) : Z := Z.max (a - b) 0.
(** Nanoseconds to a millisecond; instants and durations count nanoseconds. *)
Definition NS : Z := 1000000.
Definition i64_checked_add (a b : Z) : option Z :=
  if a + b <=? I64_MAX then Some (a + b) else None.
(** [i64::try_from(n : u64)] *)
Definition i64_try_from (n : Z) : Result Z :=
  if n <=? I64_MAX then Ok n else Err "out of range integral type conversion attempted".

(** * Strings: Rust's byte strings as [string] (a list of bytes) *)
Definition len (s : string) : Z := Z.of_nat (String.length s).
Definition is_empty (s : string) : bool :=
  match s with EmptyString => true | String _ _ => false end.
Definition byte (c : ascii) : Z := Z.of_nat (nat_of_ascii c).

Fixpoint all_bytes (f : ascii -> bool) (s : string) : bool :=
  match s with EmptyString => true | String c s' => f c && all_bytes f s' end.
Definition any_byte (f : ascii -> bool) (s : string) : bool :=
  negb (all_bytes (fun c => negb (f c)) s).

(** [str::contains(c)] for a character *)
Definition contains_char (c : ascii) (s : string) : bool :=
  any_byte (fun d => if ascii_dec d c then true else false) s.

(** [str::strip_prefix], [str::starts_with] *)
Fixpoint strip_prefix (p s : string) : option string :=
  match p with
  | EmptyString => Some s
  | String c p' =>
      match s with
      | EmptyString => None
      | String d s' => if ascii_dec c d then strip_prefix p' s' else None
      end
  end.
Definition starts_with (p s : string) : bool :=
  match strip_prefix p s with Some _ => true | None => false end.

(** [str::strip_suffix]: the head before a final [suffix] *)
Fixpoint strip_suffix (suffix s : string) : option string :=
  if String.eqb s suffix then Some "" else
  match s with
  | EmptyString => None
  | String c s' => String c <$> strip_suffix suffix s'
  end.

(** [str::split(c)]: always at least one part *)
Fixpoint split_on (c : ascii) (s : string) : list string :=
  match s with
  | EmptyString => [""]
  | String d s' =>
      if ascii_dec d c then "" :: split_on c s'
      else match split_on c s' with
           | [] => [String d ""]
           | p :: ps => String d p :: ps
           end
  end.

(** [str::split_once(c)] *)
Fixpoint split_once (c : ascii) (s : string) : option (string * string) :=
  match s with
  | EmptyString => None
  | String d s' =>
      if ascii_dec d c then Some ("", s')
      else '(a, b) ← split_once c s'; Some (String d a, b)
  end.

(** [str::rsplit_once(c)] *)
Fixpoint rsplit_once (c : ascii) (s : string) : option (string * string) :=
  match s with
  | EmptyString => None
  | String d s' =>
      match rsplit_once c s' with
      | Some (a, b) => Some (String d a, b)
      | None => if ascii_dec d c then Some ("", s') else None
      end
  end.

(** Byte classes *)
Definition between (lo hi : Z) (c : ascii) : bool := (lo <=? byte c) && (byte c <=? hi).
Definition is_ascii_digit (c : ascii) : bool := between 48 57 c.
Definition is_ascii_lowercase (c : ascii) : bool := between 97 122 c.
Definition is_ascii_uppercase (c : ascii) : bool := between 65 90 c.
Definition is_ascii_alphanumeric (c : ascii) : bool :=
  is_ascii_digit c || is_ascii_lowercase c || is_ascii_uppercase c.
Definition is_ascii_hexdigit (c : ascii) : bool :=
  is_ascii_digit c || between 97 102 c || between 65 70 c.

(** [s.chars().any(char::is_control)] on UTF-8 bytes: the C0 controls and
    DEL are single bytes, the C1 controls U+0080..U+009F are the two-byte
    sequences C2 80 .. C2 9F, and C2 is only ever a lead byte. *)
Fixpoint any_control (s : string) : bool :=
  match s with
  | EmptyString => false
  | String c s' =>
      (byte c <? 32) || (byte c =? 127)
      || ((byte c =? 194) && match s' with
                             | String d _ => between 128 159 d
                             | EmptyString => false
                             end)
      || any_control s'
  end.

(** * Numerals *)
Fixpoint digits_rev (fuel : nat) (b n : Z) : list Z :=
  match fuel with
  | O => []
  | S f => if n <? b then [n] else n mod b :: digits_rev f b (n / b)
  end.

Definition digit_char (d : Z) : ascii :=
  ascii_of_nat (Z.to_nat (if d <? 10 then 48 + d else 87 + d)).

Fixpoint string_of (l : list ascii) : string :=
  match l with [] => "" | c :: l' => String c (string_of l') end.

(** [format!("{n}")] and [format!("{n:x}")] for a [u64]; 64 digits are
    enough for every base. *)
Definition show_radix (b n : Z) : string :=
  string_of (rev (digit_char <$> digits_rev 64 b n)).
Definition show_u64 (n : Z) : string := show_radix 10 n.

Fixpoint zeros (k : nat) : string :=
  match k with O => "" | S k' => String "0" (zeros k') end.

(** [format!("{n:032x}")] *)
Definition hex32 (n : Z) : string :=
  let s := show_radix 16 n in zeros (32 - String.length s) +:+ s.

(** [char::to_digit(radix)] *)
Definition to_digit (b : Z) (c : ascii) : option Z :=
  let d := if is_ascii_digit c then byte c - 48
           else if between 97 122 c then byte c - 87
           else if between 65 90 c then byte c - 55
           else b in
  if d <? b then Some d else None.

Fixpoint parse_digits (b acc : Z) (s : string) : option Z :=
  match s with
  | EmptyString => Some acc
  | String c s' =>
      match to_digit b c with
      | Some d => if acc * b + d <=? U64_MAX then parse_digits b (acc * b + d) s' else None
      | None => None
      end
  end.

(** [u64::from_str_radix(s, radix).ok()]; [s.parse::<u64>().ok()] is radix 10.
    One leading plus sign is accepted, an empty number is not. *)
Definition from_str_radix (b : Z) (s : string) : option Z :=
  let t := match s with String "+" s' => s' | _ => s end in
  match t with EmptyString => None | _ => parse_digits b 0 t end.
Definition parse_u64 (s : string) : option Z := from_str_radix 10 s.

(** * Automation *)
Create HintDb actors.

(** Splits a [Result] computation in a hypothesis: every bound step succeeded. *)
Ltac res_step :=
  match goal with
  | H : mbind _ ?m = Ok _ |- _ =>
      let E := fresh "E" in
      destruct m eqn:E; cbn [mbind Result_bind] in H; [|discriminate H]
  | H : fmap _ ?m = Ok _ |- _ =>
      let E := fresh "E" in
      destruct m eqn:E; cbn [fmap Result_fmap] in H; [|discriminate H]
  | H : ensure ?b _ = Ok _ |- _ =>
      unfold ensure in H; destruct b eqn:?; [clear H|discriminate H]
  | H : with_context ?o _ = Ok _ |- _ =>
      unfold with_context in H; destruct o eqn:?; [|discriminate H]; simplify_eq
  | H : Ok _ = Ok _ |- _ => injection H as H; subst
  | H : Err _ = Ok _ |- _ => discriminate H
  | u : unit |- _ => destruct u
  end.
Ltac res_inv := repeat res_step; simplify_eq/=.

(** Turns boolean tests in the context into propositions. *)
Ltac bools :=
  repeat match goal with
  | H : _ && _ = true |- _ => apply andb_true_iff in H; destruct H
  | H : _ || _ = false |- _ => apply orb_false_iff in H; destruct H
  | H : negb _ = true |- _ => apply negb_true_iff in H
  | H : negb _ = false |- _ => apply negb_false_iff in H
  | H : bool_decide _ = true |- _ => apply bool_decide_eq_true in H
  | H : bool_decide _ = false |- _ => apply bool_decide_eq_false in H
  | H : (_ <? _) = true |- _ => apply Z.ltb_lt in H
  | H : (_ <? _) = false |- _ => apply Z.ltb_ge in H
  | H : (_ <=? _) = true |- _ => apply Z.leb_le in H
  | H : (_ <=? _) = false |- _ => apply Z.leb_gt in H
  | H : (_ =? _) = true |- _ => apply Z.eqb_eq in H
  | H : (_ =? _) = false |- _ => apply Z.eqb_neq in H
  | H : String.eqb _ _ = true |- _ => apply String.eqb_eq in H
  | H : String.eqb _ _ = false |- _ => apply String.eqb_neq in H
  end.

(** * Results: shared lemmas *)
Lemma ensure_ok b msg u : ensure b msg = Ok u <-> b = true.
Proof. destruct u. unfold ensure. destruct b; split; congruence. Qed.

Lemma bind_ok {A B} (m : Result A) (f : A -> Result B) b :
  (m ≫= f) = Ok b <-> exists a, m = Ok a /\ f a = Ok b.
Proof. destruct m; cbn; naive_solver. Qed.

Lemma collect_ok_total {A B} (f : A -> Result B) (g : A -> B) l :
  (forall x, x ∈ l -> f x = Ok (g x)) -> collect f l = Ok (map g l).
Proof.
  induction l as [|x l IH]; intros H; [done|].
  cbn. rewrite (H x) by set_solver. cbn.
  rewrite IH by (intros; apply H; set_solver). done.
Qed.

Lemma collect_length {A B} (f : A -> Result B) l r :
  collect f l = Ok r -> length r = length l.
Proof.
  revert r. induction l as [|x l IH]; intros r H; cbn in H; res_inv; [done|].
  cbn. f_equal. by apply IH.
Qed.

Lemma omap_same {A B} (f g : A -> option B) (l : list A) :
  (forall x, x ∈ l -> f x = g x) -> omap f l = omap g l.
Proof.
  induction l as [|x l IH]; intros E; [done|]. cbn. rewrite (E x) by constructor.
  rewrite IH; [done|]. intros y Hy. apply E. by constructor.
Qed.

(** * Strings: shared lemmas *)
#[global] Arguments String.append !_ _ : simpl nomatch.

Lemma sapp_cons c a b : String c a +:+ b = String c (a +:+ b).
Proof. done. Qed.

Lemma sapp_nil_r s : s +:+ "" = s.
Proof. induction s as [|c s IH]; [done|]. cbn. by rewrite IH. Qed.

Lemma sapp_assoc (a b c : string) : a +:+ (b +:+ c) = (a +:+ b) +:+ c.
Proof. induction a as [|x a IH]; [done|]. cbn. by rewrite IH. Qed.

Lemma sapp_nil_l s : "" +:+ s = s.
Proof. done. Qed.

(** Normal form of concatenations: to the right, literals as constructors. *)
Ltac snorm :=
  repeat (rewrite <-sapp_assoc || rewrite sapp_cons || rewrite sapp_nil_l).
Ltac snorm_in H :=
  repeat (rewrite <-sapp_assoc in H || rewrite sapp_cons in H || rewrite sapp_nil_l in H).

Lemma slen_app (a b : string) :
  String.length (a +:+ b) = (String.length a + String.length b)%nat.
Proof. induction a as [|x a IH]; [done|]. cbn. by rewrite IH. Qed.

Lemma len_app (a b : string) : len (a +:+ b) = len a + len b.
Proof. unfold len. rewrite slen_app. lia. Qed.

Lemma sapp_inj_l (a b c : string) : a +:+ b = a +:+ c -> b = c.
Proof. induction a as [|x a IH]; [done|]. cbn. intros [= ?]. auto. Qed.

Lemma sapp_eq_length (a b c d : string) :
  a +:+ b = c +:+ d -> String.length a = String.length c -> a = c /\ b = d.
Proof.
  revert c. induction a as [|x a IH]; intros [|y c] H L; cbn in *; try done.
  injection H as -> H. destruct (IH c H) as [-> ->]; [lia|done].
Qed.

Lemma strip_prefix_app p t : strip_prefix p (p +:+ t) = Some t.
Proof. induction p as [|c p IH]; [done|]. cbn. by destruct (ascii_dec c c). Qed.

Lemma strip_prefix_Some p s t : strip_prefix p s = Some t <-> s = p +:+ t.
Proof.
  split; [|by intros ->; apply strip_prefix_app].
  revert s. induction p as [|c p IH]; intros s H; cbn in H; [by simplify_eq|].
  destruct s as [|d s]; [done|]. destruct (ascii_dec c d) as [->|]; [|done].
  cbn. f_equal. auto.
Qed.

Lemma starts_with_true p s : starts_with p s = true <-> exists t, s = p +:+ t.
Proof.
  unfold starts_with. destruct (strip_prefix p s) eqn:E.
  - apply strip_prefix_Some in E. naive_solver.
  - split; [done|]. intros [t ->]. by rewrite strip_prefix_app in E.
Qed.

Lemma starts_with_app p t : starts_with p (p +:+ t) = true.
Proof. apply starts_with_true. eauto. Qed.

Lemma starts_with_trans p q s :
  starts_with p q = true -> starts_with q s = true -> starts_with p s = true.
Proof.
  rewrite !starts_with_true. intros [a ->] [b ->]. exists (a +:+ b).
  by rewrite sapp_assoc.
Qed.

Lemma starts_with_comparable p q s :
  starts_with p s = true -> starts_with q s = true ->
  starts_with p q = true \/ starts_with q p = true.
Proof.
  revert q s. induction p as [|c p IH]; intros q s Hp Hq; [by left|].
  destruct q as [|d q]; [by right|].
  destruct s as [|e s]; [done|].
  unfold starts_with in *. cbn in *.
  destruct (ascii_dec c e) as [->|]; [|done].
  destruct (ascii_dec d e) as [->|]; [|done].
  destruct (ascii_dec e e) as [_|]; [|done].
  apply (IH q s); done.
Qed.

Lemma strip_suffix_app suf s : strip_suffix suf (s +:+ suf) = Some s.
Proof.
  induction s as [|c s IH].
  - cbn. destruct suf; cbn; [done|]. by rewrite Ascii.eqb_refl, String.eqb_refl.
  - change (String c s +:+ suf) with (String c (s +:+ suf)). cbn [strip_suffix].
    destruct (String.eqb (String c (s +:+ suf)) suf) eqn:E.
    + apply String.eqb_eq in E. apply (f_equal String.length) in E.
      cbn in E. rewrite slen_app in E. lia.
    + by rewrite IH.
Qed.

Lemma all_bytes_app f a b : all_bytes f (a +:+ b) = all_bytes f a && all_bytes f b.
Proof. induction a as [|c a IH]; [done|]. cbn. by rewrite IH, andb_assoc. Qed.

Lemma all_bytes_impl (f g : ascii -> bool) s :
  (forall c, f c = true -> g c = true) -> all_bytes f s = true -> all_bytes g s = true.
Proof.
  intros H. induction s as [|c s IH]; [done|]. cbn. rewrite !andb_true_iff. naive_solver.
Qed.

Lemma contains_char_false c s :
  contains_char c s = false <-> all_bytes (fun d => negb (bool_decide (d = c))) s = true.
Proof.
  unfold contains_char, any_byte. rewrite negb_false_iff.
  induction s as [|d s IH]; [done|]. cbn. rewrite !andb_true_iff, IH.
  destruct (ascii_dec d c); case_bool_decide; naive_solver.
Qed.

Lemma contains_char_app c a b :
  contains_char c (a +:+ b) = contains_char c a || contains_char c b.
Proof.
  unfold contains_char, any_byte. by rewrite all_bytes_app, negb_andb.
Qed.

Lemma contains_char_class c f s :
  f c = false -> all_bytes f s = true -> contains_char c s = false.
Proof.
  intros Hc Hs. apply contains_char_false. revert Hs. apply all_bytes_impl.
  intros d Hd. case_bool_decide; [|done]. by subst; congruence.
Qed.

Lemma split_on_nosep c s : contains_char c s = false -> split_on c s = [s].
Proof.
  rewrite contains_char_false. induction s as [|d s IH]; [done|].
  cbn. rewrite andb_true_iff. intros [Hd Hs]. rewrite (IH Hs).
  destruct (ascii_dec d c); [|done]. subst. by rewrite bool_decide_eq_true_2 in Hd.
Qed.

Lemma split_on_app c a b :
  contains_char c a = false -> split_on c (a +:+ String c b) = a :: split_on c b.
Proof.
  rewrite contains_char_false. induction a as [|d a IH]; intros H.
  - cbn. by destruct (ascii_dec c c).
  - cbn in *. apply andb_true_iff in H as [Hd Ha]. rewrite (IH Ha).
    destruct (ascii_dec d c); [|done]. subst. by rewrite bool_decide_eq_true_2 in Hd.
Qed.

Lemma split_once_app c a b :
  contains_char c a = false -> split_once c (a +:+ String c b) = Some (a, b).
Proof.
  rewrite contains_char_false. induction a as [|d a IH]; intros H.
  - cbn. by destruct (ascii_dec c c).
  - cbn in *. apply andb_true_iff in H as [Hd Ha].
    destruct (ascii_dec d c).
    + subst. by rewrite bool_decide_eq_true_2 in Hd.
    + change (a ++ String c b)%string with (a +:+ String c b). by rewrite (IH Ha).
Qed.

Lemma split_on_nonempty c s : split_on c s <> [].
Proof.
  destruct s as [|d s]; cbn; [done|].
  destruct (ascii_dec d c); [done|]. destruct (split_on c s); done.
Qed.

(** Whatever comes before a separator only adds parts in front. *)
Lemma split_on_dir c d rest :
  exists l, split_on c (d +:+ String c rest) = (l ++ split_on c rest)%list /\ l <> [].
Proof.
  induction d as [|x d (l & IH & Hl)].
  - exists [""]. cbn. by destruct (ascii_dec c c).
  - rewrite sapp_cons. cbn [split_on]. rewrite IH.
    destruct (ascii_dec x c); [by exists ("" :: l)|].
    destruct l as [|y l]; [done|]. by exists (String x y :: l).
Qed.

(** * Numerals: shared lemmas *)
Fixpoint value_rev (b : Z) (ds : list Z) : Z :=
  match ds with [] => 0 | d :: ds' => d + b * value_rev b ds' end.

Lemma digits_rev_value fuel b n :
  1 < b -> 0 <= n < b ^ Z.of_nat fuel -> value_rev b (digits_rev fuel b n) = n.
Proof.
  intros Hb. revert n. induction fuel as [|f IH]; intros n Hn; [cbn in *; lia|].
  cbn [digits_rev]. destruct (n <? b) eqn:E; [cbn; lia|].
  cbn [value_rev]. rewrite IH.
  - pose proof (Z.div_mod n b). lia.
  - rewrite Nat2Z.inj_succ, Z.pow_succ_r in Hn by lia. split.
    + apply Z.div_pos; lia.
    + apply Z.div_lt_upper_bound; lia.
Qed.

Lemma digits_rev_bounds fuel b n :
  1 < b -> 0 <= n -> Forall (fun d => 0 <= d < b) (digits_rev fuel b n).
Proof.
  intros Hb. revert n. induction fuel as [|f IH]; intros n Hn; [constructor|].
  cbn [digits_rev]. destruct (n <? b) eqn:E; bools.
  - repeat constructor; lia.
  - constructor; [apply Z.mod_pos_bound; lia|]. apply IH. apply Z.div_pos; lia.
Qed.

Lemma digits_rev_nonempty fuel b n : digits_rev (S fuel) b n <> [].
Proof. cbn. by destruct (n <? b). Qed.

Lemma digits_rev_length fuel b n k :
  1 < b -> 0 <= n < b ^ Z.of_nat (S k) -> (length (digits_rev fuel b n) <= S k)%nat.
Proof.
  intros Hb. revert n k. induction fuel as [|f IH]; intros n k Hn; [cbn; lia|].
  cbn [digits_rev]. destruct (n <? b) eqn:E; bools; [cbn; lia|].
  cbn [length]. destruct k as [|k].
  - cbn in Hn. lia.
  - apply le_n_S. apply IH.
    rewrite Nat2Z.inj_succ, Z.pow_succ_r in Hn by lia. split.
    + apply Z.div_pos; lia.
    + apply Z.div_lt_upper_bound; lia.
Qed.

Lemma byte_digit_char d : 0 <= d < 36 ->
  byte (digit_char d) = if d <? 10 then 48 + d else 87 + d.
Proof.
  intros H. unfold byte, digit_char.
  rewrite nat_ascii_embedding by (destruct (d <? 10) eqn:E; bools; lia).
  destruct (d <? 10) eqn:E; bools; lia.
Qed.

Lemma to_digit_char b d : 0 <= d < b -> b <= 36 -> to_digit b (digit_char d) = Some d.
Proof.
  intros Hd Hb. unfold to_digit, is_ascii_digit, between.
  rewrite byte_digit_char by lia.
  destruct (d <? 10) eqn:E; bools;
    repeat case_match; bools; try lia; f_equal; lia.
Qed.

Lemma digit_char_hex d : 0 <= d < 16 -> is_ascii_hexdigit (digit_char d) = true.
Proof.
  intros H. unfold is_ascii_hexdigit, is_ascii_digit, between.
  rewrite byte_digit_char by lia. destruct (d <? 10) eqn:E; bools; lia.
Qed.

Lemma digit_char_digit d : 0 <= d < 10 -> is_ascii_digit (digit_char d) = true.
Proof.
  intros H. unfold is_ascii_digit, between.
  rewrite byte_digit_char by lia. destruct (d <? 10) eqn:E; bools; lia.
Qed.

Lemma string_of_app l k : string_of (l ++ k) = string_of l +:+ string_of k.
Proof. induction l as [|c l IH]; [done|]. cbn. by rewrite IH. Qed.

Lemma string_of_length l : String.length (string_of l) = length l.
Proof. induction l as [|c l IH]; [done|]. cbn. by rewrite IH. Qed.

Lemma all_bytes_string_of f l :
  Forall (fun c => f c = true) l -> all_bytes f (string_of l) = true.
Proof. induction 1 as [|c l Hc Hl IH]; [done|]. cbn. by rewrite Hc, IH. Qed.

(** Reading digits most significant first computes the value of the
    reversed digit list, as long as it stays in range. *)
Lemma parse_digits_spec b ds acc :
  1 < b <= 36 -> 0 <= acc -> Forall (fun d => 0 <= d < b) ds ->
  acc * b ^ Z.of_nat (length ds) + value_rev b ds <= U64_MAX ->
  parse_digits b acc (string_of (rev (digit_char <$> ds)))
  = Some (acc * b ^ Z.of_nat (length ds) + value_rev b ds).
Proof.
  intros Hb. revert acc. induction ds as [|d ds IH] using rev_ind; intros acc Ha Hds Hmax.
  - cbn in *. f_equal. lia.
  - apply Forall_app in Hds as [Hds Hd]. apply Forall_inv in Hd.
    rewrite fmap_app, rev_app_distr. cbn [fmap list_fmap rev app string_of parse_digits].
    rewrite (to_digit_char b d Hd) by lia.
    assert (Hv : forall l, value_rev b (l ++ [d])
                           = value_rev b l + b ^ Z.of_nat (length l) * d).
    { clear. intros l. induction l as [|x l IHl]; cbn [app value_rev length].
      - change (b ^ Z.of_nat 0) with 1. lia.
      - rewrite IHl, Nat2Z.inj_succ, Z.pow_succ_r by lia. lia. }
    assert (Hpos : 0 <= value_rev b ds).
    { clear -Hds Hb. induction Hds; cbn [value_rev]; [lia|]. nia. }
    rewrite Hv, length_app in *. cbn [length] in *.
    replace (Z.of_nat (length ds + 1)) with (Z.succ (Z.of_nat (length ds))) in * by lia.
    rewrite Z.pow_succ_r in * by lia.
    assert (Hp : 1 <= b ^ Z.of_nat (length ds)).
    { pose proof (Z.pow_pos_nonneg b (Z.of_nat (length ds))). lia. }
    destruct (acc * b + d <=? U64_MAX) eqn:E; bools.
    + rewrite IH by (try done; nia). f_equal. nia.
    + exfalso. nia.
Qed.

Lemma show_radix_parse b n :
  1 < b <= 36 -> u64_ok n -> parse_digits b 0 (show_radix b n) = Some n.
Proof.
  intros Hb [Hn Hmax]. unfold show_radix.
  assert (Hv : value_rev b (digits_rev 64 b n) = n).
  { apply digits_rev_value; [lia|]. split; [done|].
    apply Z.le_lt_trans with U64_MAX; [done|].
    apply Z.lt_le_trans with (2 ^ Z.of_nat 64); [done|].
    apply Z.pow_le_mono_l. lia. }
  rewrite parse_digits_spec.
  - by rewrite Hv.
  - done.
  - lia.
  - apply digits_rev_bounds; lia.
  - rewrite Hv. lia.
Qed.

Lemma parse_digits_zeros b k s : 1 < b <= 36 ->
  parse_digits b 0 (zeros k +:+ s) = parse_digits b 0 s.
Proof.
  intros Hb. induction k as [|k IH]; [done|]. cbn [zeros]. rewrite sapp_cons.
  cbn [parse_digits]. change "0"%char with (digit_char 0).
  rewrite to_digit_char by lia. cbn. exact IH.
Qed.

Lemma from_str_radix_digits b s :
  s <> "" -> all_bytes is_ascii_hexdigit s = true ->
  from_str_radix b s = parse_digits b 0 s.
Proof.
  intros Hne Hs. unfold from_str_radix. destruct s as [|c s]; [done|].
  cbn in Hs. apply andb_true_iff in Hs as [Hc _].
  destruct c as [[] [] [] [] [] [] [] []]; try reflexivity; discriminate Hc.
Qed.

Lemma show_radix_digits b n : 1 < b <= 16 -> 0 <= n ->
  all_bytes is_ascii_hexdigit (show_radix b n) = true.
Proof.
  intros Hb Hn. unfold show_radix. apply all_bytes_string_of.
  apply Forall_rev, Forall_fmap.
  eapply Forall_impl; [apply (digits_rev_bounds 64 b n); lia|].
  intros d [Hd1 Hd2]. cbn. apply digit_char_hex. lia.
Qed.

Lemma show_radix_nonempty b n : show_radix b n <> "".
Proof.
  unfold show_radix. intros H. apply (f_equal String.length) in H.
  rewrite string_of_length, length_rev, length_fmap in H.
  destruct (digits_rev 64 b n) eqn:E; [by apply digits_rev_nonempty in E|done].
Qed.

(** Decimal numerals print and parse back. *)
Lemma parse_show_u64 n : u64_ok n -> parse_u64 (show_u64 n) = Some n.
Proof.
  intros Hn. unfold parse_u64, show_u64. destruct Hn as [H0 H1].
  rewrite from_str_radix_digits.
  - by apply show_radix_parse.
  - apply show_radix_nonempty.
  - by apply show_radix_digits.
Qed.

Lemma show_u64_inj n m : u64_ok n -> u64_ok m -> show_u64 n = show_u64 m -> n = m.
Proof.
  intros Hn Hm E. apply parse_show_u64 in Hn, Hm. rewrite E in Hn. congruence.
Qed.

Lemma zeros_length k : String.length (zeros k) = k.
Proof. induction k as [|k IH]; [done|]. cbn. by rewrite IH. Qed.

Lemma zeros_hex k : all_bytes is_ascii_hexdigit (zeros k) = true.
Proof. induction k as [|k IH]; [done|]. cbn. by rewrite IH. Qed.

Lemma hex32_hex n : 0 <= n -> all_bytes is_ascii_hexdigit (hex32 n) = true.
Proof.
  intros H. unfold hex32. rewrite all_bytes_app, zeros_hex. cbn.
  by apply show_radix_digits.
Qed.

Lemma hex32_length n : u64_ok n -> String.length (hex32 n) = 32%nat.
Proof.
  intros [H0 H1]. unfold hex32. rewrite slen_app, zeros_length.
  assert (String.length (show_radix 16 n) <= 32)%nat; [|lia].
  unfold show_radix. rewrite string_of_length, length_rev, length_fmap.
  apply (digits_rev_length 64 16 n 31); [lia|]. split; [done|].
  by apply Z.le_lt_trans with U64_MAX.
Qed.

(** A zero-padded hexadecimal epoch reads back. *)
Lemma parse_hex32 n : u64_ok n -> from_str_radix 16 (hex32 n) = Some n.
Proof.
  intros Hn. pose proof Hn as [H0 H1]. rewrite from_str_radix_digits.
  - unfold hex32. rewrite parse_digits_zeros by lia. by apply show_radix_parse.
  - intros E. apply (f_equal String.length) in E. by rewrite hex32_length in E.
  - by apply hex32_hex.
Qed.

Lemma hex32_inj n m : u64_ok n -> u64_ok m -> hex32 n = hex32 m -> n = m.
Proof. intros Hn Hm E. apply parse_hex32 in Hn, Hm. rewrite E in Hn. congruence. Qed.

(** * The last separator of a string *)
Lemma rsplit_once_app c a b :
  contains_char c b = false -> rsplit_once c (a +:+ String c b) = Some (a, b).
Proof.
  intros Hb. induction a as [|x a IH].
  - rewrite sapp_nil_l. cbn [rsplit_once].
    assert (Hn : rsplit_once c b = None).
    { clear -Hb. apply contains_char_false in Hb. induction b as [|y b IH]; [done|].
      cbn in *. apply andb_true_iff in Hb as [Hy Hb]. rewrite (IH Hb).
      destruct (ascii_dec y c); [|done]. subst. by rewrite bool_decide_eq_true_2 in Hy. }
    rewrite Hn. by destruct (ascii_dec c c).
  - rewrite sapp_cons. cbn [rsplit_once]. by rewrite IH.
Qed.

(** The common facts about names, for [auto with actors] *)
#[export] Hint Resolve starts_with_app : actors.
