(* ===== verification/Calls.v ===== *)
(** Programs over requests, for any type of requests.

    The control plane waits for databases, providers and storage between its
    steps.  Such code is a tree: it ends with a result, or makes a request and
    continues with the reply.  A run is a trace of the
    requests with their replies; [guarded] reasons about what precedes a request. *)

From S2P Require Import Prelude.
Local Open Scope string_scope.

(** Programs known to make harmless requests only *)
Create HintDb calls.

Section calls.
Context {E : Type -> Type}.

Inductive calls (A : Type) : Type :=
| CRet (r : Result A)
| CVis {X : Type} (e : E X) (k : X -> calls A).
Arguments CRet {A} r.
Arguments CVis {A X} e k.

#[global] Instance calls_ret : MRet calls := fun A a => CRet (Ok a).
#[global] Instance calls_bind : MBind calls := fun A B f =>
  fix go (p : calls A) : calls B :=
    match p with
    | CRet (Ok a) => f a
    | CRet (Err e) => CRet (Err e)
    | CVis e k => CVis e (fun x => go (k x))
    end.

(** [e.await], [e.await?], [result?], [ensure!], and a result that is inspected *)
Definition await {X} (e : E X) : calls X := CVis e (fun x => CRet (Ok x)).
Definition await_ok {X} (e : E (Result X)) : calls X := CVis e (fun r => CRet r).
Definition try {A} (r : Result A) : calls A := CRet r.
Definition check_that (b : bool) (msg : string) : calls unit := CRet (ensure b msg).
Fixpoint outcome {A} (p : calls A) : calls (Result A) :=
  match p with
  | CRet r => CRet (Ok r)
  | CVis e k => CVis e (fun x => outcome (k x))
  end.

(** [for x in l { f(x)?; }], collecting what each turn returns *)
Fixpoint each {A B} (f : A -> calls B) (l : list A) : calls (list B) :=
  match l with
  | [] => CRet (Ok [])
  | x :: l' => y ← f x; ys ← each f l'; mret (y :: ys)
  end.

(** * Traces *)
Inductive event : Type :=
| Ev {X : Type} (e : E X) (x : X).

Inductive runs {A} : calls A -> list event -> Result A -> Prop :=
| runs_ret r : runs (CRet r) [] r
| runs_vis {X} (e : E X) k x t r : runs (k x) t r -> runs (CVis e k) (Ev e x :: t) r.

(** The run in which every request is answered by [answer] *)
Fixpoint follow (answer : forall X, E X -> X) {A} (p : calls A) : list event * Result A :=
  match p with
  | CRet r => ([], r)
  | CVis e k => let run := follow answer (k (answer _ e)) in (Ev e (answer _ e) :: run.1, run.2)
  end.
Lemma follow_runs answer {A} (p : calls A) : runs p (follow answer p).1 (follow answer p).2.
Proof. induction p as [r|X e k IH]; cbn; by constructor. Qed.

(** What a run of a composed program is made of *)
Lemma runs_inv {A} (p : calls A) t r : runs p t r ->
  match p with
  | CRet r' => t = [] /\ r' = r
  | CVis e k => exists x t', t = Ev e x :: t' /\ runs (k x) t' r
  end.
Proof. destruct 1; eauto. Qed.
Lemma runs_bind {A B} (p : calls A) (f : A -> calls B) t r : runs (p ≫= f) t r ->
  (exists a t1 t2, t = (t1 ++ t2)%list /\ runs p t1 (Ok a) /\ runs (f a) t2 r) \/
  (exists e, runs p t (Err e) /\ r = Err e).
Proof.
  revert t. induction p as [[a|e]|X e k IH]; intros t Hr.
  - left. exists a, [], t. split_and!; [done|constructor|done].
  - apply runs_inv in Hr as [-> <-]. right. exists e. split; [constructor|done].
  - apply runs_inv in Hr as (x & t' & -> & Hr). apply IH in Hr as [(a & t1 & t2 & -> & H1 & H2)|(e' & H1 & ->)].
    + left. exists a, (Ev e x :: t1), t2. split_and!; [done|by constructor|done].
    + right. exists e'. split; [by constructor|done].
Qed.
Lemma runs_bind_ok {A B} (p : calls A) (f : A -> calls B) t b : runs (p ≫= f) t (Ok b) ->
  exists a t1 t2, t = (t1 ++ t2)%list /\ runs p t1 (Ok a) /\ runs (f a) t2 (Ok b).
Proof. intros [H|(e & _ & ?)]%runs_bind; done. Qed.
Lemma runs_outcome {A} (p : calls A) t r : runs (outcome p) t r ->
  exists r', r = Ok r' /\ runs p t r'.
Proof.
  revert t. induction p as [r'|X e k IH]; intros t Hr.
  - apply runs_inv in Hr as [-> <-]. eexists. split; [done|constructor].
  - apply runs_inv in Hr as (x & t' & -> & Hr). apply IH in Hr as (r' & -> & Hr).
    eexists. split; [done|]. by constructor.
Qed.
Lemma runs_await {X} (e : E X) t r : runs (await e) t r -> exists x, t = [Ev e x] /\ r = Ok x.
Proof. intros (x & t' & -> & Hr)%runs_inv. apply runs_inv in Hr as [-> <-]. eauto. Qed.
Lemma runs_await_ok {X} (e : E (Result X)) t r : runs (await_ok e) t r -> t = [Ev e r].
Proof. intros (x & t' & -> & Hr)%runs_inv. by apply runs_inv in Hr as [-> ->]. Qed.
Lemma runs_try {A} (x : Result A) t r : runs (try x) t r -> t = [] /\ r = x.
Proof. by intros [-> ->]%runs_inv. Qed.
Lemma runs_check b msg t r : runs (check_that b msg) t r ->
  t = [] /\ (b = true /\ r = Ok () \/ b = false /\ r = Err msg).
Proof. intros [-> <-]%runs_inv. destruct b; auto. Qed.

(** Every request of [p] satisfies [P] with the events before it. *)
Fixpoint guarded (P : forall X, E X -> list event -> Prop) {A} (p : calls A) (t : list event) : Prop :=
  match p with
  | CRet _ => True
  | CVis e k => P _ e t /\ forall x, guarded P (k x) (t ++ [Ev e x])
  end.
Lemma guarded_runs P {A} (p : calls A) t0 t r : guarded P p t0 -> runs p t r ->
  forall t1 X (e : E X) x t2, t = (t1 ++ Ev e x :: t2)%list -> P X e (t0 ++ t1)%list.
Proof.
  intros Hg Hr. revert t0 Hg. induction Hr as [r|Y e' k y t r Hr IH]; intros t0 Hg t1 X e x t2 Ht.
  - by destruct t1.
  - destruct Hg as [Hp Hg]. destruct t1 as [|ev t1].
    + assert (Ev e' y = Ev e x) as E' by (cbn in Ht; congruence).
      rewrite app_nil_r. change (match Ev e x with @Ev X e _ => P X e t0 end). by rewrite <-E'.
    + cbn in Ht. assert (ev = Ev e' y) as -> by congruence.
      replace (t0 ++ Ev e' y :: t1)%list with ((t0 ++ [Ev e' y]) ++ t1)%list by by rewrite <-app_assoc.
      eapply IH; [done|]. exact (f_equal tail Ht).
Qed.
(** A step is followed by [f] only when it succeeds. *)
Lemma guarded_bind P {A B} (p : calls A) (f : A -> calls B) t :
  guarded P p t -> (forall t' a, runs p t' (Ok a) -> guarded P (f a) (t ++ t')%list) ->
  guarded P (p ≫= f) t.
Proof.
  revert t. induction p as [[a|e]|X e k IH]; intros t; cbn.
  - intros _ Hf. specialize (Hf [] a). rewrite app_nil_r in Hf. apply Hf. constructor.
  - done.
  - intros [He Hg] Hf. split; [done|]. intros x. apply IH; [done|]. intros t' a Hr.
    rewrite <-app_assoc. apply Hf. by constructor.
Qed.
Lemma guarded_outcome P {A} (p : calls A) t : guarded P p t -> guarded P (outcome p) t.
Proof. revert t. induction p as [r|X e k IH]; intros t; cbn; [done|]. intros []. auto. Qed.
Lemma guarded_each P {A B} (f : A -> calls B) l t :
  (forall a t', a ∈ l -> t ⊆ t' -> guarded P (f a) t') -> guarded P (each f l) t.
Proof.
  revert t. induction l as [|a l IH]; intros t Hf; cbn [each]; [done|].
  apply guarded_bind; [apply Hf; [left|done]|]. intros t1 b _.
  apply guarded_bind; [|done]. apply IH. intros a' t' Ha Hsub. apply Hf; [by right|]. set_solver.
Qed.

(** The turns of a loop that ends *)
Lemma runs_each {A B} (f : A -> calls B) l t ys : runs (each f l) t (Ok ys) ->
  Forall2 (fun a y => exists t', runs (f a) t' (Ok y) /\ t' ⊆ t) l ys.
Proof.
  revert t ys. induction l as [|a l IH]; intros t ys Hr; cbn [each] in Hr.
  - apply runs_inv in Hr as [_ [= <-]]. constructor.
  - apply runs_bind_ok in Hr as (y & t1 & t2 & -> & Hy & Hr).
    apply runs_bind_ok in Hr as (ys' & t3 & t4 & -> & Hys & Hr). apply runs_inv in Hr as [-> [= <-]].
    constructor; [exists t1; set_solver|]. eapply Forall2_impl; [by apply IH|]. cbn.
    intros a' y' (t' & Ht & Hsub). exists t'. set_solver.
Qed.

(** Every request of [p] satisfies [P]. *)
Fixpoint all_calls (P : forall X, E X -> Prop) {A} (p : calls A) : Prop :=
  match p with
  | CRet _ => True
  | CVis e k => P _ e /\ forall x, all_calls P (k x)
  end.
Lemma all_calls_bind P {A B} (p : calls A) (f : A -> calls B) :
  all_calls P p -> (forall a, all_calls P (f a)) -> all_calls P (p ≫= f).
Proof. intros Hp Hf. induction p as [[a|e]|X e k IH]; cbn in *; [done|done|]. destruct Hp. auto. Qed.
Lemma all_calls_outcome P {A} (p : calls A) : all_calls P p -> all_calls P (outcome p).
Proof. induction p as [r|X e k IH]; cbn; [done|]. intros []. auto. Qed.
Lemma all_calls_each P {A B} (f : A -> calls B) l :
  (forall a, all_calls P (f a)) -> all_calls P (each f l).
Proof.
  intros Hf. induction l as [|a l IH]; cbn [each]; [done|]. apply all_calls_bind; [done|]. intros b.
  apply all_calls_bind; [done|]. done.
Qed.
Lemma all_calls_runs P {A} (p : calls A) t r : all_calls P p -> runs p t r ->
  Forall (fun ev => match ev with @Ev X e _ => P X e end) t.
Proof.
  intros Hp Hr. induction Hr as [r|X e k x t r Hr IH]; [done|]. destruct Hp as [He Hp]. constructor; [done|]. by apply IH.
Qed.
Lemma all_calls_guarded (Q : forall X, E X -> Prop) P {A} (p : calls A) t :
  (forall X (e : E X) t', Q X e -> P X e t') -> all_calls Q p -> guarded P p t.
Proof. intros HQ. revert t. induction p as [r|X e k IH]; intros t; cbn; [done|]. intros []. auto. Qed.
End calls.
Arguments calls E A : clear implicits.
Arguments event E : clear implicits.
Arguments CRet {E A} r.
Arguments CVis {E A X} e k.
Arguments Ev {E X} e x.

(** Takes a run apart into the runs of its steps. *)
Ltac run_step :=
  match goal with
  | H : runs (_ ≫= _) _ (Ok _) |- _ =>
      let a := fresh "a" in let t1 := fresh "t" in let t2 := fresh "t" in
      apply runs_bind_ok in H as (a & t1 & t2 & ? & ? & H); cbn beta in H; subst
  | H : runs (await _) _ _ |- _ => apply runs_await in H as (? & ? & ?); simplify_eq
  | H : runs (await_ok _) _ _ |- _ => apply runs_await_ok in H; subst
  | H : runs (try _) _ _ |- _ => apply runs_try in H as [? H]; subst; try discriminate H
  | H : runs (check_that _ _) _ _ |- _ => apply runs_check in H as [? [[? ?]|[? ?]]]; simplify_eq
  | H : runs (mret _) _ _ |- _ => apply runs_inv in H as [? ?]; simplify_eq
  | H : runs (outcome _) _ _ |- _ => apply runs_outcome in H as (? & ? & H); simplify_eq
  end.
Ltac run_inv := repeat run_step.
Ltac in_trace := rewrite ?elem_of_app, ?elem_of_cons; tauto.

(** Shows that every request of a program has a property. *)
Ltac each_call :=
  repeat first
    [ done
    | solve [auto with calls]
    | apply all_calls_outcome
    | apply all_calls_bind; intros
    | case_match
    | split; [done|]; intros ].
