(* ===== verification/Actors.v ===== *)
(** Actor identities and the data exchanged with actors: [actor_state.rs],
    [actor/protocol.rs], the data types of [actor/executor_connection.rs],
    [host.rs] and [host_leases.rs], and the validation rules they carry.
    Shows that a valid identity has a valid storage key that parses back to
    it, so storage keys never alias two actors. *)

From S2P Require Import Prelude.
Local Open Scope string_scope.
Local Open Scope Z_scope.
Local Set Warnings "-register-all".

(** * JSON values ([serde_json::Value]); object fields in key order *)
Inductive Value : Type :=
| Null
| Bool (b : bool)
| Number (repr : string)
| Str (s : string)
| Array (l : list Value)
| Object (fields : list (string * Value)).

Fixpoint Value_eqb (a b : Value) {struct a} : bool :=
  match a, b with
  | Null, Null => true
  | Bool x, Bool y => Bool.eqb x y
  | Number x, Number y => String.eqb x y
  | Str x, Str y => String.eqb x y
  | Array l, Array k =>
      (fix go (l k : list Value) : bool :=
         match l, k with
         | [], [] => true
         | x :: l', y :: k' => Value_eqb x y && go l' k'
         | _, _ => false
         end) l k
  | Object l, Object k =>
      (fix go (l k : list (string * Value)) : bool :=
         match l, k with
         | [], [] => true
         | (f, x) :: l', (g, y) :: k' => String.eqb f g && Value_eqb x y && go l' k'
         | _, _ => false
         end) l k
  | _, _ => false
  end.

(** [value.is_object()], [value.get(field)] *)
Definition is_object (v : Value) : bool := match v with Object _ => true | _ => false end.
Definition get_field (v : Value) (field : string) : option Value :=
  match v with
  | Object fields => snd <$> find (fun kv => String.eqb kv.1 field) fields
  | _ => None
  end.

(** * Identities *)
Abbreviation ActorStorageKey := string (only parsing).
Abbreviation HostId := string (only parsing).

Record ActorKey := {
  project_id : string;
  actor_name : string;
  actor_id : string }.
#[global] Instance ActorKey_eq_dec : EqDecision ActorKey.
Proof. solve_decision. Defined.
#[global] Instance ActorKey_countable : Countable ActorKey.
Proof.
  refine (inj_countable' (fun a => (project_id a, actor_name a, actor_id a))
            (fun '(p, n, i) => Build_ActorKey p n i) _).
  by intros [].
Defined.

Definition MAX_ACTOR_NAME_BYTES : Z := 48.
Definition MAX_ACTOR_ID_BYTES : Z := 128.
Definition MAX_METHOD_BYTES : Z := 128.

Definition component_byte (c : ascii) : bool :=
  is_ascii_alphanumeric c || (byte c =? 45) || (byte c =? 95) || (byte c =? 46).

Definition validate_component (name value : string) (max_bytes : Z) : Result unit :=
  ensure (negb (is_empty value)) (name +:+ " must not be empty");;
  ensure (len value <=? max_bytes) (name +:+ " must be at most " +:+ show_u64 max_bytes +:+ " bytes");;
  ensure (all_bytes component_byte value)
    (name +:+ " may contain only ASCII letters, digits, '.', '-', and '_'").

(** [ActorStorageKey::validate] *)
Definition ActorStorageKey_validate (key : ActorStorageKey) : Result unit :=
  ensure (negb (is_empty key)) "actor storage key must not be empty";;
  ensure (len key <=? 255) "actor storage key must be at most 255 bytes";;
  ensure (negb (String.eqb key ".") && negb (String.eqb key ".."))
    "actor storage key must not be a relative path component";;
  ensure (negb (any_byte (fun c => (byte c =? 47) || (byte c =? 92)) key || any_control key))
    "actor storage key must not contain path separators or control characters".

Definition storage_key (a : ActorKey) : ActorStorageKey :=
  "object.v4." +:+ project_id a +:+ ":" +:+ actor_name a +:+ ":" +:+ actor_id a.

Definition ActorKey_validate (a : ActorKey) : Result unit :=
  validate_component "project ID" (project_id a) 64;;
  validate_component "actor name" (actor_name a) MAX_ACTOR_NAME_BYTES;;
  validate_component "actor ID" (actor_id a) MAX_ACTOR_ID_BYTES;;
  ActorStorageKey_validate (storage_key a).

(** [storage_paths::actor_from_key] *)
Definition actor_from_key (key : ActorStorageKey) : Result ActorKey :=
  rest ← with_context (strip_prefix "object.v4." key) "invalid actor key";
  match split_on ":" rest with
  | [p; n; i] =>
      let actor := {| project_id := p; actor_name := n; actor_id := i |} in
      ActorKey_validate actor;; Ok actor
  | _ => Err "invalid actor identity"
  end.

(** * Invocations and their results *)
Record ActorInvocation := {
  request_id : string;
  inv_actor : ActorKey;
  method : string;
  args : list Value }.

Definition ActorInvocation_validate (i : ActorInvocation) : Result unit :=
  ensure (negb (is_empty (request_id i))) "request ID must not be empty";;
  ensure (len (request_id i) <=? 255) "request ID must be at most 255 bytes";;
  ActorKey_validate (inv_actor i);;
  validate_component "actor method" (method i) MAX_METHOD_BYTES.

Record ActorInvocationFailure := { code : string; message : string }.

Definition outcome_unknown_after_execution : ActorInvocationFailure :=
  {| code := "outcome_unknown";
     message := "actor execution completed, but its durable publication outcome could not be confirmed" |}.

(** * Sockets: what actors see and what they ask for *)
Record ActorSocketConnection := {
  conn_id : string;
  conn_metadata : Value;
  conn_tags : list string }.

Inductive ActorSocketMessage :=
| Text (data : string)
| Binary (data : string).

Inductive ActorSocketEvent :=
| Connect (connection : ActorSocketConnection)
| Message (connection_id : string) (message : ActorSocketMessage)
| Disconnect (connection : ActorSocketConnection) (code : Z) (reason : string) (was_clean : bool).

Record ActorSocketInvocation := {
  sock_request_id : string;
  sock_actor : ActorKey;
  sock_event : ActorSocketEvent;
  sock_connections : list ActorSocketConnection }.

Inductive ActorSocketTagMatch := All | Any.

Inductive ActorSocketEffect :=
| StateSnapshotEffect (connection_id : string) (state : Value) (version : option Z)
| StateUpdateEffect (changes : Value) (removed except_connection_ids : list string)
    (version : option Z)
| SendEffect (connection_id : string) (message : ActorSocketMessage)
| BroadcastEffect (message : ActorSocketMessage) (except_connection_ids tags : list string)
    (tag_match : ActorSocketTagMatch)
| CloseEffect (connection_id : string) (code : Z) (reason : string)
| RejectEffect (connection_id : string) (code : Z) (reason : string)
| SetMetadataEffect (connection_id : string) (metadata : Value)
| SetTagsEffect (connection_id : string) (tags : list string).

Record ActorInterleavedOutcome := {
  sequence : Z;
  il_result : Value;
  il_state : Value;
  il_effects : list ActorSocketEffect }.

Inductive ActorMethodOutcome :=
| MethodInterleaved (outcome : ActorInterleavedOutcome)
| MethodCompleted (result state : Value) (effects : list ActorSocketEffect)
| MethodFailed (failure : ActorInvocationFailure).

Inductive ActorSocketOutcome :=
| SocketInterleaved (outcome : ActorInterleavedOutcome)
| SocketHandled (state : Value) (effects : list ActorSocketEffect)
| SocketFailed (failure : ActorInvocationFailure).

Inductive ActorExecutionResult :=
| Completed (result : Value) (effects : list ActorSocketEffect)
| Failed (failure : ActorInvocationFailure)
| Reroute
| HostUnavailable.

(** * Leases ([host_leases.rs]) *)
Definition MAX_HOST_LEASE_DURATION_MS : Z := 60000.

Record HostLease := {
  lease_id : HostId;
  lease_session_id : string;
  lease_route : string;
  expires_at_ms : Z }.
#[global] Instance HostLease_eq_dec : EqDecision HostLease.
Proof. solve_decision. Defined.

Record HostLeaseRequest := {
  req_id : HostId;
  req_session_id : string;
  req_route : string;
  duration_ms : Z }.

Definition validate_duration (r : HostLeaseRequest) : Result unit :=
  ensure (0 <? duration_ms r) "host lease duration must be positive";;
  ensure (duration_ms r <=? MAX_HOST_LEASE_DURATION_MS)
    "host lease duration must not exceed the maximum".

Record WaitingOperation := { op_id : string; operation : string }.

Record ActivationInventory := {
  inv_resident : option bool;
  inv_connections : list ActorSocketConnection;
  inv_waiting : option (list WaitingOperation) }.
Definition ActivationInventory_default : ActivationInventory :=
  {| inv_resident := None; inv_connections := []; inv_waiting := None |}.

Record ActorSocketInventory := {
  si_actor : ActorKey;
  si_connections : list ActorSocketConnection }.
Record ActorQueueInventory := {
  qi_actor : ActorKey;
  qi_waiting : list WaitingOperation }.

(** [placement::validate_region] *)
Definition region_byte (c : ascii) : bool :=
  is_ascii_lowercase c || is_ascii_digit c || (byte c =? 46) || (byte c =? 95) || (byte c =? 45).
Definition validate_region (region : string) : Result unit :=
  ensure (negb (is_empty region) && (len region <=? 64) && all_bytes region_byte region)
    "sandbox region is invalid".

(** * Decidable equality of JSON values *)
Section value_induction.
  Context (P : Value -> Prop).
  Hypothesis HNull : P Null.
  Hypothesis HBool : forall b, P (Bool b).
  Hypothesis HNumber : forall r, P (Number r).
  Hypothesis HStr : forall s, P (Str s).
  Hypothesis HArray : forall l, Forall P l -> P (Array l).
  Hypothesis HObject : forall l, Forall (fun kv => P kv.2) l -> P (Object l).

Fixpoint Value_nested_ind (v : Value) : P v :=
  match v with
  | Null => HNull
  | Bool b => HBool b
  | Number r => HNumber r
  | Str s => HStr s
  | Array l => HArray l
      ((fix go (l : list Value) : Forall P l :=
          match l with
          | [] => List.Forall_nil P
          | x :: l' => Forall_cons_2 P x l' (Value_nested_ind x) (go l')
          end) l)
  | Object l => HObject l
      ((fix go (l : list (string * Value)) : Forall (fun kv => P kv.2) l :=
          match l with
          | [] => List.Forall_nil _
          | kv :: l' => Forall_cons_2 _ kv l' (Value_nested_ind kv.2) (go l')
          end) l)
  end.
End value_induction.

Lemma Value_eqb_spec a b : Value_eqb a b = true <-> a = b.
Proof.
  revert b. induction a as [|x|x|x|l IH|l IH] using Value_nested_ind;
    intros [|y|y|y|k|k]; cbn; try (split; congruence).
  - rewrite Bool.eqb_true_iff. split; congruence.
  - rewrite String.eqb_eq. split; congruence.
  - rewrite String.eqb_eq. split; congruence.
  - revert k. induction IH as [|x l Hx Hl IHl]; intros [|y k]; try (split; congruence).
    rewrite andb_true_iff, Hx, IHl. split; [intros [-> [= ->]]|intros [= -> ->]]; done.
  - revert k. induction IH as [|[f x] l Hx Hl IHl]; intros [|[g y] k]; try (split; congruence).
    cbn in Hx. rewrite !andb_true_iff, String.eqb_eq, Hx, IHl.
    split; [intros [[-> ->] [= ->]]|intros [= -> -> ->]]; done.
Qed.

#[global] Instance Value_eq_dec : EqDecision Value.
Proof.
  intros a b. destruct (Value_eqb a b) eqn:E.
  - left. by apply Value_eqb_spec.
  - right. intros H%Value_eqb_spec. congruence.
Defined.
#[global] Instance ActorInvocationFailure_eq_dec : EqDecision ActorInvocationFailure.
Proof. solve_decision. Defined.
#[global] Instance ActorSocketConnection_eq_dec : EqDecision ActorSocketConnection.
Proof. solve_decision. Defined.
#[global] Instance ActorSocketMessage_eq_dec : EqDecision ActorSocketMessage.
Proof. solve_decision. Defined.
#[global] Instance ActorSocketTagMatch_eq_dec : EqDecision ActorSocketTagMatch.
Proof. solve_decision. Defined.
#[global] Instance ActorSocketEffect_eq_dec : EqDecision ActorSocketEffect.
Proof. solve_decision. Defined.
#[global] Instance ActorExecutionResult_eq_dec : EqDecision ActorExecutionResult.
Proof. solve_decision. Defined.

(** * Identities: lemmas *)

(** A component that passed validation: short, non-empty, restricted bytes. *)
Lemma validate_component_ok name value max :
  validate_component name value max = Ok () <->
  value <> "" /\ len value <= max /\ all_bytes component_byte value = true.
Proof.
  unfold validate_component. split.
  - intros H. res_inv. bools. split; [by destruct value|done].
  - intros (H1 & H2 & H3). destruct value; [done|].
    apply Z.leb_le in H2. cbn [is_empty negb]. rewrite H2, H3. done.
Qed.

(** Bytes outside the component alphabet never occur in a valid component. *)
Lemma component_excludes c value :
  component_byte c = false -> all_bytes component_byte value = true ->
  contains_char c value = false.
Proof. apply contains_char_class. Qed.

Lemma component_printable c :
  component_byte c = true -> 32 <= byte c < 127 /\ byte c <> 47 /\ byte c <> 92.
Proof.
  unfold component_byte, is_ascii_alphanumeric, is_ascii_digit, is_ascii_lowercase,
    is_ascii_uppercase, between. lia.
Qed.

(** A byte that may occur in a storage key. *)
Definition key_byte (c : ascii) : bool := component_byte c || (byte c =? 58).

Lemma key_bytes_path_safe s :
  all_bytes key_byte s = true ->
  any_byte (fun c => (byte c =? 47) || (byte c =? 92)) s = false /\ any_control s = false.
Proof.
  unfold any_byte. induction s as [|c s IH]; [done|]. cbn. intros H. bools.
  destruct IH as [IH1 IH2]; [done|]. apply negb_false_iff in IH1.
  assert (Hc : 32 <= byte c < 127 /\ byte c <> 47 /\ byte c <> 92).
  { unfold key_byte in *. destruct (component_byte c) eqn:E; [by apply component_printable|].
    cbn in *. bools. lia. }
  rewrite IH1, IH2. split; lia.
Qed.

Lemma storage_key_bytes a :
  all_bytes component_byte (project_id a) = true ->
  all_bytes component_byte (actor_name a) = true ->
  all_bytes component_byte (actor_id a) = true ->
  all_bytes key_byte (storage_key a) = true.
Proof.
  intros H1 H2 H3. unfold storage_key. rewrite !all_bytes_app, !andb_true_iff.
  assert (Hi : forall s, all_bytes component_byte s = true -> all_bytes key_byte s = true).
  { intros s. apply all_bytes_impl. intros c. unfold key_byte. by intros ->. }
  repeat split; auto.
Qed.

(** The storage-key check of [ActorKey::validate] never fails: the component
    limits already keep the key within 252 of its 255 bytes. *)
Lemma ActorKey_validate_ok a :
  ActorKey_validate a = Ok () <->
  validate_component "project ID" (project_id a) 64 = Ok () /\
  validate_component "actor name" (actor_name a) MAX_ACTOR_NAME_BYTES = Ok () /\
  validate_component "actor ID" (actor_id a) MAX_ACTOR_ID_BYTES = Ok ().
Proof.
  unfold ActorKey_validate. split.
  - intros H. res_inv. done.
  - intros (Hp & Hn & Hi). rewrite Hp, Hn, Hi. cbn [mbind Result_bind].
    apply validate_component_ok in Hp as (_ & Lp & Bp), Hn as (_ & Ln & Bn), Hi as (_ & Li & Bi).
    unfold MAX_ACTOR_NAME_BYTES, MAX_ACTOR_ID_BYTES in *.
    destruct (key_bytes_path_safe (storage_key a)) as [S1 S2].
    { by apply storage_key_bytes. }
    assert (Hl : len (storage_key a) <= 255).
    { unfold storage_key. rewrite !len_app. change (len "object.v4.") with 10.
      change (len ":") with 1. lia. }
    unfold ActorStorageKey_validate. rewrite S1, S2. apply Z.leb_le in Hl. rewrite Hl. done.
Qed.

Lemma valid_components a : ActorKey_validate a = Ok () ->
  all_bytes component_byte (project_id a) = true /\
  all_bytes component_byte (actor_name a) = true /\
  all_bytes component_byte (actor_id a) = true.
Proof.
  intros (Hp & Hn & Hi)%ActorKey_validate_ok.
  by apply validate_component_ok in Hp as (_ & _ & ?), Hn as (_ & _ & ?), Hi as (_ & _ & ?).
Qed.

Lemma actor_key_roundtrip a :
  ActorKey_validate a = Ok () -> actor_from_key (storage_key a) = Ok a.
Proof.
  intros Hv. pose proof (valid_components a Hv) as (Bp & Bn & Bi).
  unfold actor_from_key, storage_key. rewrite strip_prefix_app. cbn [with_context mbind Result_bind].
  rewrite !sapp_cons. change ("" +:+ ?x) with x.
  rewrite split_on_app by (by eapply component_excludes).
  rewrite split_on_app by (by eapply component_excludes).
  rewrite split_on_nosep by (by eapply component_excludes).
  destruct a. cbn in *. by rewrite Hv.
Qed.

Lemma storage_key_inj a b :
  ActorKey_validate a = Ok () -> ActorKey_validate b = Ok () ->
  storage_key a = storage_key b -> a = b.
Proof.
  intros Ha Hb E. apply actor_key_roundtrip in Ha, Hb. rewrite E in Ha. congruence.
Qed.
