(* ===== verification/StoragePaths.v ===== *)
(** Object names in the durable bucket: [storage_paths.rs], the naming part of
    [storage.rs] and [snapshot_position] of [bucket/runtime.rs].  Base64 and
    SHA-256 come from other crates: they are the operations of the classes
    [Base64Url] and [Sha256], with the laws the names rely on in
    [Base64UrlLaws].  Shows that every name the program builds is accepted by
    its own validators, identifies its actor, epoch and version, and that
    names of different actors never collide. *)

From S2P Require Import Prelude.
From S2P Require Import Actors.
Local Open Scope string_scope.
Local Open Scope Z_scope.

(** [base64::engine::general_purpose::URL_SAFE_NO_PAD] *)
Class Base64Url := {
  b64_encode : string -> string;
  b64_decode : string -> Result string }.

Definition b64_byte (c : ascii) : bool :=
  is_ascii_alphanumeric c || (byte c =? 45) || (byte c =? 95).

Class Base64UrlLaws `{Base64Url} : Prop := {
  b64_roundtrip : forall s, b64_decode (b64_encode s) = Ok s;
  b64_alphabet : forall s, all_bytes b64_byte (b64_encode s) = true;
  b64_length : forall s, len (b64_encode s) <= 2 * len s }.

(** [aws_lc_rs::digest::digest(&SHA256, _)] *)
Class Sha256 := { sha256 : string -> string }.
(** A digest is not empty, and no two inputs collide. *)
Class Sha256Laws `{Sha256} : Prop := {
  sha256_nonempty : forall s, sha256 s <> "";
  sha256_collision_free : forall a b, sha256 a = sha256 b -> a = b }.

(** [String::from_utf8]: the well-formed sequences of the UTF-8 standard. *)
Fixpoint utf8_from (fuel : nat) (s : string) : bool :=
  match fuel with
  | O => true
  | S f =>
    let cont c := between 128 191 c in
    match s with
    | EmptyString => true
    | String a s1 =>
      if byte a <? 128 then utf8_from f s1
      else match s1 with
      | EmptyString => false
      | String b s2 =>
        if between 194 223 a then cont b && utf8_from f s2
        else match s2 with
        | EmptyString => false
        | String c s3 =>
          if between 224 239 a then
            (if byte a =? 224 then between 160 191 b
             else if byte a =? 237 then between 128 159 b else cont b)
            && cont c && utf8_from f s3
          else match s3 with
          | EmptyString => false
          | String d s4 =>
            between 240 244 a
            && (if byte a =? 240 then between 144 191 b
                else if byte a =? 244 then between 128 143 b else cont b)
            && cont c && cont d && utf8_from f s4
          end
        end
      end
    end
  end.
Definition from_utf8 (s : string) : Result string :=
  if utf8_from (String.length s) s then Ok s else Err "invalid utf-8 sequence".

Definition ROOT : string := "durable-actors/v3/".

(** [format!("{:02x}", byte)] *)
Definition hex2 (n : Z) : string :=
  let s := show_radix 16 n in zeros (2 - String.length s) +:+ s.
Definition first_byte (s : string) : Z :=
  match s with EmptyString => 0 | String c _ => byte c end.

(** [bucket/runtime.rs: snapshot_position]: epoch and version from the last
    two path components. *)
Definition snapshot_position (object : string) : option (Z * Z) :=
  match rev (split_on "/" object) with
  | file :: dir :: _ =>
      stem ← strip_suffix ".json" file;
      version ← parse_u64 stem;
      epoch ← from_str_radix 16 dir;
      Some (epoch, version)
  | _ => None
  end.

Section paths.
Context `{Base64Url, Sha256}.

Definition component (value : string) : string := b64_encode value.
Definition decode (value : string) : Result string :=
  bytes ← b64_decode value; from_utf8 bytes.

Definition actor_path (a : ActorKey) : string :=
  hex2 (first_byte (sha256 (storage_key a))) +:+ "/" +:+ component (project_id a) +:+ "/"
  +:+ component (actor_name a) +:+ "/" +:+ component (actor_id a).

Definition snapshots (a : ActorKey) : Result string :=
  ActorKey_validate a;;
  Ok (ROOT +:+ "snapshots/" +:+ actor_path a +:+ "/").

Definition owner (object : ActorStorageKey) : Result string :=
  a ← actor_from_key object;
  Ok (ROOT +:+ "owners/" +:+ actor_path a +:+ ".json").

Definition host (h : HostId) : string := ROOT +:+ "hosts/" +:+ component h +:+ "/".
Definition session (h : HostId) (s : string) : string :=
  host h +:+ "sessions/" +:+ component s.

Definition actor_from_snapshot (object : string) : Result ActorKey :=
  rest ← with_context (strip_prefix ROOT object) "invalid snapshot root";
  match split_on "/" rest with
  | [p0; p1; p2; p3; p4; p5; p6] =>
      ensure (String.eqb p0 "snapshots") "invalid snapshot path";;
      p ← decode p2; n ← decode p3; i ← decode p4;
      let a := {| project_id := p; actor_name := n; actor_id := i |} in
      ActorKey_validate a;;
      prefix ← snapshots a;
      ensure (starts_with prefix object) "snapshot shard mismatch";;
      Ok a
  | _ => Err "invalid snapshot path"
  end.

(** [storage.rs] *)
Definition nonce_ok (nonce : string) : bool :=
  (len nonce =? 32) && all_bytes is_ascii_hexdigit nonce.

Definition snapshot_prefix (a : ActorKey) : Result string := snapshots a.

Definition snapshot_object_name (a : ActorKey) (state_version : Z) (nonce : string)
  : Result string :=
  ActorKey_validate a;;
  ensure (0 <? state_version) "actor state version must be positive";;
  ensure (nonce_ok nonce) "actor state object nonce is invalid";;
  prefix ← snapshot_prefix a;
  Ok (prefix +:+ nonce +:+ "/" +:+ show_u64 state_version +:+ ".json").

Definition validate_object_name (object_name : string) : Result unit :=
  ensure (starts_with ROOT object_name && (len object_name <=? 1024)
          && negb (any_control object_name))
    "actor state object name is invalid".

Definition validate_snapshot_object_name (a : ActorKey) (state_version : Z)
  (object_name : string) : Result unit :=
  validate_object_name object_name;;
  prefix ← snapshot_prefix a;
  ensure
    match split_on "/" (default "" (strip_prefix prefix object_name)) with
    | [nonce; file] =>
        nonce_ok nonce && String.eqb file (show_u64 state_version +:+ ".json")
    | _ => false
    end
    "actor state object name does not match its commit".
End paths.

(** * Lemmas on names *)
Definition printable (c : ascii) : bool := between 32 126 c.

Lemma printable_no_control s : all_bytes printable s = true -> any_control s = false.
Proof.
  induction s as [|c s IH]; [done|]. cbn. intros H. bools. rewrite IH by done.
  unfold printable, between in *. lia.
Qed.

Lemma hexdigit_class c : is_ascii_hexdigit c = true ->
  printable c = true /\ byte c <> 47 /\ byte c <> 46.
Proof. unfold is_ascii_hexdigit, is_ascii_digit, printable, between. lia. Qed.

Lemma b64_class c : b64_byte c = true -> printable c = true /\ byte c <> 47 /\ byte c <> 46.
Proof.
  unfold b64_byte, is_ascii_alphanumeric, is_ascii_digit, is_ascii_lowercase,
    is_ascii_uppercase, printable, between. lia.
Qed.

Lemma hexdigits_noslash s : all_bytes is_ascii_hexdigit s = true ->
  contains_char "/" s = false /\ all_bytes printable s = true.
Proof.
  intros H. split; [revert H; by apply contains_char_class|].
  eapply all_bytes_impl; [|exact H]. intros c Hc. by apply hexdigit_class.
Qed.

Lemma b64_noslash s : all_bytes b64_byte s = true ->
  contains_char "/" s = false /\ all_bytes printable s = true.
Proof.
  intros H. split; [revert H; by apply contains_char_class|].
  eapply all_bytes_impl; [|exact H]. intros c Hc. by apply b64_class.
Qed.

Lemma first_byte_range s : 0 <= first_byte s <= 255.
Proof.
  destruct s as [|c s]; cbn; [lia|]. unfold byte.
  pose proof (nat_ascii_bounded c). lia.
Qed.

Lemma hex2_hex n : 0 <= n -> all_bytes is_ascii_hexdigit (hex2 n) = true.
Proof.
  intros H. unfold hex2. rewrite all_bytes_app, zeros_hex. by apply show_radix_digits.
Qed.

Lemma hex2_length n : 0 <= n <= 255 -> String.length (hex2 n) = 2%nat.
Proof.
  intros H. unfold hex2. rewrite slen_app, zeros_length.
  assert (String.length (show_radix 16 n) <= 2)%nat; [|lia].
  unfold show_radix. rewrite string_of_length, length_rev, length_fmap.
  apply (digits_rev_length 64 16 n 1); [lia|]. lia.
Qed.

Lemma show_u64_length n : u64_ok n -> (String.length (show_u64 n) <= 20)%nat.
Proof.
  intros [H0 H1]. unfold show_u64, show_radix.
  rewrite string_of_length, length_rev, length_fmap.
  apply (digits_rev_length 64 10 n 19); [lia|]. split; [done|].
  by apply Z.le_lt_trans with U64_MAX.
Qed.

Lemma show_u64_bytes n : 0 <= n ->
  contains_char "/" (show_u64 n) = false /\ all_bytes printable (show_u64 n) = true.
Proof. intros H. apply hexdigits_noslash. by apply show_radix_digits. Qed.

Lemma ascii_utf8_valid f s : all_bytes printable s = true -> utf8_from f s = true.
Proof.
  revert s. induction f as [|f IH]; intros s H; [done|]. destruct s as [|c s]; [done|].
  cbn in *. bools. unfold printable, between in *. bools.
  destruct (byte c <? 128) eqn:E; bools; [auto|lia].
Qed.

Lemma component_byte_printable s :
  all_bytes component_byte s = true -> all_bytes printable s = true.
Proof.
  apply all_bytes_impl. intros c Hc. apply component_printable in Hc.
  unfold printable, between. lia.
Qed.

Lemma split_slash a b :
  contains_char "/" a = false -> split_on "/" (a +:+ "/" +:+ b) = a :: split_on "/" b.
Proof. apply split_on_app. Qed.

(** The last two components of a path decide its position. *)
Lemma snapshot_position_name dir epoch version :
  u64_ok epoch -> u64_ok version ->
  snapshot_position (dir +:+ "/" +:+ hex32 epoch +:+ "/" +:+ show_u64 version +:+ ".json")
  = Some (epoch, version).
Proof.
  intros He Hv. unfold snapshot_position.
  destruct (split_on_dir "/" dir (hex32 epoch +:+ "/" +:+ show_u64 version +:+ ".json"))
    as (l & Hl & _).
  snorm. snorm_in Hl. rewrite Hl.
  rewrite (split_on_app "/" (hex32 epoch)).
  2: { apply hexdigits_noslash, hex32_hex. by destruct He. }
  rewrite split_on_nosep.
  2: { rewrite contains_char_app. destruct Hv as [Hv _].
       by destruct (show_u64_bytes version Hv) as [-> _]. }
  rewrite rev_app_distr. cbn [rev app].
  rewrite strip_suffix_app. cbn [mbind option_bind].
  rewrite parse_show_u64 by done. cbn. by rewrite parse_hex32.
Qed.

Section path_lemmas.
Context `{Base64Url, Sha256, !Base64UrlLaws}.

Lemma b64_inj s t : b64_encode s = b64_encode t -> s = t.
Proof.
  intros E. pose proof (b64_roundtrip s) as Hs. rewrite E, b64_roundtrip in Hs. congruence.
Qed.

Lemma component_noslash v : contains_char "/" (component v) = false.
Proof. apply b64_noslash, b64_alphabet. Qed.

Lemma shard_noslash a :
  contains_char "/" (hex2 (first_byte (sha256 (storage_key a)))) = false.
Proof. apply hexdigits_noslash, hex2_hex, first_byte_range. Qed.

Lemma decode_component v : all_bytes component_byte v = true -> decode (component v) = Ok v.
Proof.
  intros Hv. unfold decode, component. rewrite b64_roundtrip. cbn. unfold from_utf8.
  by rewrite ascii_utf8_valid by (by apply component_byte_printable).
Qed.

(** An actor path splits into its shard and three encoded components. *)
Lemma split_actor_path a rest :
  split_on "/" (actor_path a +:+ "/" +:+ rest) =
  hex2 (first_byte (sha256 (storage_key a))) :: component (project_id a)
  :: component (actor_name a) :: component (actor_id a) :: split_on "/" rest.
Proof.
  unfold actor_path. snorm.
  rewrite !split_on_app; auto using component_noslash, shard_noslash.
Qed.

Lemma path_parts_inj {A} (a a' b b' c c' d d' : A) l l' :
  a :: b :: c :: d :: l = a' :: b' :: c' :: d' :: l' -> b = b' /\ c = c' /\ d = d'.
Proof. intros [= _ -> -> -> _]. done. Qed.

Lemma snapshots_ok a p : snapshots a = Ok p ->
  ActorKey_validate a = Ok () /\ p = ROOT +:+ "snapshots/" +:+ actor_path a +:+ "/".
Proof. unfold snapshots. intros Hp. res_inv. done. Qed.

Lemma snapshot_name_split a rest :
  ROOT +:+ "snapshots/" +:+ actor_path a +:+ "/" +:+ rest
  = (ROOT +:+ "snapshots/" +:+ actor_path a +:+ "/") +:+ rest.
Proof. by rewrite <-!sapp_assoc. Qed.

(** Two actors never share a snapshot directory: any object below both
    prefixes belongs to one actor. *)
Lemma snapshots_disjoint a b p q s :
  snapshots a = Ok p -> snapshots b = Ok q ->
  starts_with p s = true -> starts_with q s = true -> a = b.
Proof.
  intros [_ ->]%snapshots_ok [_ ->]%snapshots_ok [t ->]%starts_with_true [u E]%starts_with_true.
  rewrite <-!sapp_assoc in E. apply sapp_inj_l, sapp_inj_l in E.
  apply (f_equal (split_on "/")) in E. rewrite !split_actor_path in E.
  apply path_parts_inj in E as (E1 & E2 & E3). apply b64_inj in E1, E2, E3.
  destruct a, b. cbn in *. congruence.
Qed.

(** Ownership records of different actors are different objects. *)
Lemma owner_inj a b k :
  ActorKey_validate a = Ok () -> ActorKey_validate b = Ok () ->
  owner (storage_key a) = Ok k -> owner (storage_key b) = Ok k -> a = b.
Proof.
  intros Ha Hb. unfold owner. rewrite !actor_key_roundtrip by done. cbn [mbind Result_bind].
  intros Hk E. rewrite <-Hk in E.
  apply (f_equal (fun r => match r with Ok k => k | Err e => e end)) in E. cbn beta iota in E. apply sapp_inj_l, sapp_inj_l in E. symmetry in E.
  apply (f_equal (split_on "/")) in E. unfold actor_path in E. snorm_in E.
  rewrite !split_on_app in E by auto using component_noslash, shard_noslash.
  assert (Hj : forall v, contains_char "/" (component v +:+ ".json") = false).
  { intros v. rewrite contains_char_app. by rewrite component_noslash. }
  rewrite !(split_on_nosep "/" _ (Hj _)) in E. apply path_parts_inj in E as (E1 & E2 & E3).
  apply (f_equal (strip_suffix ".json")) in E3. rewrite !strip_suffix_app in E3.
  injection E3 as E3. apply b64_inj in E1, E2, E3. destruct a, b. cbn in *. congruence.
Qed.

Lemma snapshot_name_shape a version nonce name :
  snapshot_object_name a version nonce = Ok name ->
  ActorKey_validate a = Ok () /\ 0 < version /\ nonce_ok nonce = true /\
  name = ROOT +:+ "snapshots/" +:+ actor_path a +:+ "/" +:+ nonce +:+ "/"
         +:+ show_u64 version +:+ ".json".
Proof.
  unfold snapshot_object_name, snapshot_prefix. intros Hn. res_inv.
  match goal with H : snapshots a = Ok _ |- _ => apply snapshots_ok in H as [? ->] end.
  bools. rewrite <-!sapp_assoc. done.
Qed.
End path_lemmas.

(** * A concrete encoding that satisfies the laws (hexadecimal), and a
    concrete digest, for evaluating the definitions *)
Module Hex.
Definition hex_char (n : nat) : ascii := digit_char (Z.of_nat n).

Fixpoint encode (s : string) : string :=
  match s with
  | EmptyString => ""
  | String c s' =>
      let n := nat_of_ascii c in
      String (hex_char (n / 16)) (String (hex_char (n mod 16)) (encode s'))
  end.

Fixpoint decode (s : string) : Result string :=
  match s with
  | EmptyString => Ok ""
  | String a (String b s') =>
      match to_digit 16 a, to_digit 16 b with
      | Some x, Some y =>
          String (ascii_of_nat (Z.to_nat (16 * x + y))) <$> decode s'
      | _, _ => Err "invalid symbol"
      end
  | _ => Err "invalid length"
  end.

#[export] Instance hex_base64 : Base64Url :=
  {| b64_encode := encode; b64_decode := decode |}.
#[export] Instance tag_sha256 : Sha256 := {| sha256 := fun s => "#" +:+ s |}.
#[export] Instance tag_sha256_laws : Sha256Laws.
Proof. split; cbn; [done|]. by intros a b [= ->]. Qed.

#[export] Instance hex_base64_laws : Base64UrlLaws.
Proof.
  split; cbn [b64_encode b64_decode hex_base64].
  - induction s as [|c s IH]; [done|]. cbn [encode decode].
    assert (Hc : to_digit 16 (hex_char (nat_of_ascii c / 16)) = Some (Z.of_nat (nat_of_ascii c / 16))
              /\ to_digit 16 (hex_char (nat_of_ascii c mod 16)) = Some (Z.of_nat (nat_of_ascii c mod 16))
              /\ ascii_of_nat (Z.to_nat (16 * Z.of_nat (nat_of_ascii c / 16)
                                         + Z.of_nat (nat_of_ascii c mod 16))) = c).
    { destruct c as [[] [] [] [] [] [] [] []]; done. }
    destruct Hc as (-> & -> & ->). by rewrite IH.
  - induction s as [|c s IH]; [done|]. cbn [encode all_bytes]. rewrite IH.
    by destruct c as [[] [] [] [] [] [] [] []].
  - induction s as [|c s IH]; [done|]. unfold len in *. cbn [encode String.length]. lia.
Qed.
End Hex.

(** * Properties *)
Section properties.
Context `{Base64Url, Sha256, !Base64UrlLaws}.

Lemma snapshot_name_printable a version nonce :
  nonce_ok nonce = true -> 0 <= version ->
  all_bytes printable (ROOT +:+ "snapshots/" +:+ actor_path a +:+ "/" +:+ nonce +:+ "/"
                       +:+ show_u64 version +:+ ".json") = true.
Proof.
  intros Hn Hv. unfold nonce_ok in Hn. bools. unfold actor_path, component.
  rewrite !all_bytes_app.
  destruct (hexdigits_noslash nonce) as [_ ->]; [done|].
  destruct (show_u64_bytes version Hv) as [_ ->].
  rewrite !(proj2 (b64_noslash _ (b64_alphabet _))).
  by rewrite (proj2 (hexdigits_noslash _ (hex2_hex _ (proj1 (first_byte_range _))))).
Qed.

Lemma snapshot_name_short a version nonce :
  ActorKey_validate a = Ok () -> nonce_ok nonce = true -> u64_ok version ->
  len (ROOT +:+ "snapshots/" +:+ actor_path a +:+ "/" +:+ nonce +:+ "/"
       +:+ show_u64 version +:+ ".json") <= 1024.
Proof.
  intros (Hp & Hn & Hi)%ActorKey_validate_ok Hno Hv. unfold nonce_ok in Hno. bools.
  apply validate_component_ok in Hp as (_ & Lp & _), Hn as (_ & Ln & _), Hi as (_ & Li & _).
  unfold MAX_ACTOR_NAME_BYTES, MAX_ACTOR_ID_BYTES in *. unfold actor_path, component.
  rewrite !len_app.
  pose proof (b64_length (project_id a)). pose proof (b64_length (actor_name a)).
  pose proof (b64_length (actor_id a)).
  assert (len (hex2 (first_byte (sha256 (storage_key a)))) = 2).
  { unfold len. by rewrite hex2_length by apply first_byte_range. }
  assert (len (show_u64 version) <= 20).
  { unfold len. pose proof (show_u64_length version Hv). lia. }
  change (len ROOT) with 18. change (len "snapshots/") with 10.
  change (len "/") with 1. change (len ".json") with 5. lia.
Qed.

Lemma actor_from_snapshot_name a version nonce name :
  snapshot_object_name a version nonce = Ok name -> actor_from_snapshot name = Ok a.
Proof.
  intros Hname. apply snapshot_name_shape in Hname as (Ha & Hv & Hn & ->).
  unfold actor_from_snapshot. rewrite strip_prefix_app. cbn [with_context mbind Result_bind].
  change ("snapshots/" +:+ ?x) with ("snapshots" +:+ String "/" x).
  rewrite (split_on_app "/" "snapshots") by done.
  rewrite split_actor_path, split_slash by (unfold nonce_ok in Hn; bools; by apply hexdigits_noslash).
  rewrite split_on_nosep.
  2: { rewrite contains_char_app. by destruct (show_u64_bytes version) as [-> _]; [lia|]. }
  destruct (valid_components a Ha) as (Bp & Bn & Bi).
  cbn [String.eqb Ascii.eqb ensure mbind Result_bind].
  rewrite !decode_component by done. cbn [mbind Result_bind].
  destruct a as [p n i]. cbn [project_id actor_name actor_id] in *. rewrite Ha.
  unfold snapshots. rewrite Ha. cbn [mbind Result_bind].
  change ("snapshots" +:+ String "/" ?x) with ("snapshots/" +:+ x).
  by rewrite snapshot_name_split, starts_with_app.
Qed.

(** A snapshot name built for an actor, version and epoch passes the
    program's own validation for that actor and version, parses back to the
    same actor, and its position is the epoch and version it was built from. *)
Theorem snapshot_name_identifies a version epoch name :
  u64_ok version -> u64_ok epoch ->
  snapshot_object_name a version (hex32 epoch) = Ok name ->
  validate_snapshot_object_name a version name = Ok () /\
  actor_from_snapshot name = Ok a /\
  snapshot_position name = Some (epoch, version).
Proof.
  intros Hv He Hname. split_and!.
  2: by eapply actor_from_snapshot_name.
  2: { apply snapshot_name_shape in Hname as (_ & _ & _ & ->).
       rewrite (sapp_assoc ROOT), (sapp_assoc (ROOT +:+ _)). by apply snapshot_position_name. }
  apply snapshot_name_shape in Hname as (Ha & Hv0 & Hn & ->).
  unfold validate_snapshot_object_name, validate_object_name, snapshot_prefix.
  rewrite starts_with_app, printable_no_control by (apply snapshot_name_printable; [done|lia]).
  pose proof (snapshot_name_short a version _ Ha Hn Hv) as Hl. apply Z.leb_le in Hl. rewrite Hl.
  cbn [andb negb ensure mbind Result_bind]. unfold snapshots. rewrite Ha.
  cbn [mbind Result_bind].
  rewrite snapshot_name_split, strip_prefix_app. cbn [from_option id].
  rewrite split_slash by (unfold nonce_ok in Hn; bools; by apply hexdigits_noslash).
  rewrite split_on_nosep.
  2: { rewrite contains_char_app. by destruct (show_u64_bytes version) as [-> _]; [lia|]. }
  rewrite Hn, String.eqb_refl. done.
Qed.
End properties.

Import Hex.

Definition sample_actor : ActorKey :=
  {| project_id := "proj"; actor_name := "Chat"; actor_id := "lobby" |}.

Lemma snapshot_name_identifies_witness :
  exists name,
    snapshot_object_name sample_actor 7 (hex32 3) = Ok name /\
    snapshot_position name = Some (3, 7).
Proof.
  eexists. split; [vm_compute; reflexivity|].
  eapply (snapshot_name_identifies sample_actor 7 3); vm_compute; [split; discriminate..|reflexivity].
Defined.
