(* ===== verification/Snapshots.v ===== *)
(** Durable snapshots and the streams they belong to: [state_log.rs],
    [replication/stream.rs], the data of [replication/mod.rs] and of
    [storage.rs].  [serde_json] is another crate: serialization is the class
    [Json] with its round-trip law [JsonLaws]. *)

From S2P Require Import Prelude.
From S2P Require Import Actors.
From S2P Require Import StoragePaths.
Local Open Scope string_scope.
Local Open Scope Z_scope.

(** [serde_json::to_vec] and [serde_json::from_slice] at one type *)
Class Json (A : Type) := {
  to_vec : A -> string;
  from_slice : string -> Result A }.
Class JsonLaws (A : Type) `{Json A} : Prop :=
  json_roundtrip : forall a : A, from_slice (to_vec a) = Ok a.

(** The text of a JSON object starts with a brace. *)
Class JsonObjectLaw `{Json Value} : Prop :=
  json_object_text : forall fields, starts_with "{" (to_vec (Object fields)) = true.

(** * [state_log.rs] *)
Definition MAX_ACTOR_STATE_BYTES : Z := 16 * 1024 * 1024.

Record StateAttribution := {
  at_operation : string;
  at_connection_id : option string;
  at_committed_at_ms : Z;
  at_interleaved : bool }.

(** [state] is the raw JSON text of the actor's state. *)
Record StateSnapshot := {
  attribution : option StateAttribution;
  state_version : Z;
  owner_epoch : Z;
  snap_request_id : string;
  state : string;
  result : Value }.

Definition StateSnapshot_validate (s : StateSnapshot) : Result unit :=
  ensure (0 <? state_version s) "actor state version must be positive";;
  ensure (0 <? owner_epoch s) "owner epoch must be positive";;
  ensure (negb (is_empty (snap_request_id s)) && (len (snap_request_id s) <=? 255))
    "actor state request ID is invalid";;
  ensure (starts_with "{" (state s)) "actor state must be a JSON object";;
  ensure (len (state s) <=? MAX_ACTOR_STATE_BYTES) "actor state exceeds the byte limit".

Section snapshots.
Context `{Json StateSnapshot, Json Value}.

Definition StateSnapshot_new (version epoch : Z) (request_id : string) (st res : Value)
  : Result StateSnapshot :=
  let snapshot := {| attribution := None; state_version := version; owner_epoch := epoch;
                     snap_request_id := request_id; state := to_vec st; result := res |} in
  StateSnapshot_validate snapshot;;
  Ok snapshot.

Definition StateSnapshot_decode (bytes : string) : Result StateSnapshot :=
  snapshot ← from_slice bytes;
  StateSnapshot_validate snapshot;;
  Ok snapshot.

Definition StateSnapshot_encode (s : StateSnapshot) : Result string :=
  StateSnapshot_validate s;;
  Ok (to_vec s).
End snapshots.

Definition with_attribution (s : StateSnapshot) (a : StateAttribution) : StateSnapshot :=
  {| attribution := Some a; state_version := state_version s; owner_epoch := owner_epoch s;
     snap_request_id := snap_request_id s; state := state s; result := result s |}.

(** * [replication/stream.rs] *)
Record ReplicaStream := {
  rs_session : string;
  prefix : string;
  rs_owner_epoch : Z;
  base_version : Z }.

Record SnapshotRef := {
  object : string;
  ref_state_version : Z;
  ref_request_id : string;
  digest : string }.

Record StreamHead := {
  head_stream : ReplicaStream;
  latest : option SnapshotRef }.

Record SessionHead := {
  head_session : string;
  initialized : bool;
  sealed : bool;
  streams : list StreamHead }.

#[global] Instance ReplicaStream_eq_dec : EqDecision ReplicaStream.
Proof. solve_decision. Defined.
#[global] Instance SnapshotRef_eq_dec : EqDecision SnapshotRef.
Proof. solve_decision. Defined.
#[global] Instance StreamHead_eq_dec : EqDecision StreamHead.
Proof. solve_decision. Defined.
#[global] Instance SessionHead_eq_dec : EqDecision SessionHead.
Proof. solve_decision. Defined.

Definition stream_object (s : ReplicaStream) (version : Z) : string :=
  prefix s +:+ show_u64 version +:+ ".json".

Section streams.
Context `{Base64Url, Sha256, Json StateSnapshot}.

Definition checksum (bytes : string) : string := b64_encode (sha256 bytes).

Definition SnapshotRef_new (obj : string) (snapshot : StateSnapshot) (bytes : string)
  : SnapshotRef :=
  {| object := obj; ref_state_version := state_version snapshot;
     ref_request_id := snap_request_id snapshot; digest := checksum bytes |}.

Definition SnapshotRef_verify (r : SnapshotRef) (bytes : string) : Result unit :=
  ensure (String.eqb (checksum bytes) (digest r)) "snapshot checksum mismatch".

Definition stream_snapshot (s : ReplicaStream) (bytes : string) : Result SnapshotRef :=
  snapshot ← StateSnapshot_decode bytes;
  ensure ((owner_epoch snapshot =? rs_owner_epoch s) && (base_version s <? state_version snapshot))
    "snapshot belongs to another stream";;
  Ok (SnapshotRef_new (stream_object s (state_version snapshot)) snapshot bytes).
End streams.

(** * [replication/mod.rs] *)
Definition MAX_REPLICAS : nat := 8.

Record ReplicaScope := {
  scope_actor : ActorKey;
  scope_host : HostId;
  scope_session : string;
  scope_region : string }.

Record ReplicaTarget := {
  host_id : string;
  url : string;
  target_region : string }.

Record ReplicationTicket := { replicas : list ReplicaTarget }.

#[global] Instance ReplicaScope_eq_dec : EqDecision ReplicaScope.
Proof. solve_decision. Defined.
#[global] Instance ReplicaTarget_eq_dec : EqDecision ReplicaTarget.
Proof. solve_decision. Defined.
#[global] Instance ReplicationTicket_eq_dec : EqDecision ReplicationTicket.
Proof. solve_decision. Defined.

(** [ReplicaScope::identity] *)
Definition identity `{Base64Url} (scope : ReplicaScope) : string :=
  session (scope_host scope) (scope_session scope) +:+ "/".

(** [ReplicationTicket::validate]: a set of hosts (and of addresses) as large
    as the list means no repetition. *)
Definition ReplicationTicket_validate (t : ReplicationTicket) : Result unit :=
  let count := length (replicas t) in
  ensure ((1 <=? count)%nat && (count <=? MAX_REPLICAS)%nat) "invalid replica count";;
  ensure ((size (list_to_set (host_id <$> replicas t) : gset string) =? count)%nat
          && (size (list_to_set (url <$> replicas t) : gset string) =? count)%nat)
    "replica hosts must be distinct".

(** [replica_regions]: the configured regions, from the environment *)
Definition replica_regions `{Json (list string)} (get : string -> option string)
  : Result (list string) :=
  regions ← from_slice (default "[]" (get "DURABLE_ACTORS_REPLICA_REGIONS"));
  ensure (length regions <=? MAX_REPLICAS)%nat "at most 8 replicas are supported";;
  collect validate_region regions;;
  Ok regions.

(** * [storage.rs]: where the next snapshot goes *)
Record WritePlan := {
  plan_stream : ReplicaStream;
  plan_state_version : Z;
  object_name : string;
  plan_expires_at_ms : Z;
  replication : option ReplicationTicket }.
#[global] Instance WritePlan_eq_dec : EqDecision WritePlan.
Proof. solve_decision. Defined.

(** [placement.rs] *)
Record ObjectPlacement := {
  pl_lease : HostLease;
  pl_object : ActorStorageKey;
  pl_owner : HostId;
  pl_owner_epoch : Z;
  home_region : string;
  pl_state_version : Z;
  state_object : option string;
  last_request_id : option string }.

(** * Lemmas *)
Lemma ticket_validate_ok t :
  ReplicationTicket_validate t = Ok () <->
  (1 <= length (replicas t) <= MAX_REPLICAS)%nat /\
  NoDup (host_id <$> replicas t) /\ NoDup (url <$> replicas t).
Proof.
  assert (Hd : forall (f : ReplicaTarget -> string) l,
             (size (list_to_set (f <$> l) : gset string) =? length l)%nat = true
             <-> NoDup (f <$> l)).
  { intros f l. rewrite Nat.eqb_eq. split.
    - intros E. assert (Hg : forall k : list string,
        size (list_to_set k : gset string) = length k -> NoDup k).
      { induction k as [|x k IH]; [constructor|]. cbn.
        assert (Hle : forall k : list string, (size (list_to_set k : gset string) <= length k)%nat).
        { induction k0 as [|z k0 IHk]; cbn; [by rewrite size_empty|].
          rewrite size_union_alt. pose proof (size_singleton (C := gset string) z).
          assert (size (list_to_set k0 ∖ {[z]} : gset string) <= size (list_to_set k0 : gset string))%nat
            by (apply subseteq_size; set_solver). lia. }
        destruct (decide (x ∈ k)) as [Hin|Hin].
        - rewrite (subseteq_union_1_L {[x]} (list_to_set k)) by set_solver.
          specialize (Hle k). lia.
        - rewrite size_union by set_solver. rewrite size_singleton. intros E'.
          constructor; [done|]. apply IH. lia. }
      apply Hg. by rewrite length_fmap.
    - intros E. rewrite size_list_to_set by done. by rewrite length_fmap. }
  unfold ReplicationTicket_validate. rewrite bind_ok. split.
  - intros (u & H1 & H2). apply ensure_ok in H1, H2. rewrite !andb_true_iff in *.
    rewrite !Hd in H2. destruct H1 as [?%Nat.leb_le ?%Nat.leb_le]. done.
  - intros (H1 & H2 & H3). exists (). rewrite !ensure_ok, !andb_true_iff, !Hd, !Nat.leb_le. done.
Qed.

Section snapshot_lemmas.
Context `{Base64Url, Sha256, Json StateSnapshot, Json Value}.

Lemma encode_decode `{!JsonLaws StateSnapshot} s bytes :
  StateSnapshot_encode s = Ok bytes -> StateSnapshot_decode bytes = Ok s.
Proof.
  unfold StateSnapshot_encode, StateSnapshot_decode. intros E. res_inv.
  rewrite json_roundtrip. cbn. by rewrite E0.
Qed.

Lemma decode_valid bytes s :
  StateSnapshot_decode bytes = Ok s -> StateSnapshot_validate s = Ok ().
Proof. unfold StateSnapshot_decode. intros E. by res_inv. Qed.

Lemma valid_positive s : StateSnapshot_validate s = Ok () -> 0 < state_version s /\ 0 < owner_epoch s.
Proof. unfold StateSnapshot_validate. intros E. res_inv. bools. done. Qed.

(** What a replica learns from the bytes of a snapshot. *)
Lemma stream_snapshot_ok s bytes r :
  stream_snapshot s bytes = Ok r ->
  exists snap, StateSnapshot_decode bytes = Ok snap /\
    owner_epoch snap = rs_owner_epoch s /\ base_version s < state_version snap /\
    r = SnapshotRef_new (stream_object s (state_version snap)) snap bytes.
Proof.
  unfold stream_snapshot. intros E. res_inv. bools. eauto 10.
Qed.

(** The reference names the object of its version and its checksum verifies. *)
Lemma stream_snapshot_ref s bytes r :
  stream_snapshot s bytes = Ok r ->
  object r = stream_object s (ref_state_version r) /\ digest r = checksum bytes /\
  SnapshotRef_verify r bytes = Ok () /\ base_version s < ref_state_version r.
Proof.
  intros (snap & Hd & He & Hv & ->)%stream_snapshot_ok. cbn. split_and!; try done.
  unfold SnapshotRef_verify. cbn. by rewrite String.eqb_refl.
Qed.
End snapshot_lemmas.
