(* ===== verification/ReplicaStore.v ===== *)
(** The on-disk replica store: [replication/store.rs].

    The directory is a map from file names to contents; the in-memory index
    (snapshots, streams, sessions, bytes used) sits beside it, as in
    [StoreState].  Every file operation may fail: the state carries a schedule
    of faults and [io] consumes one entry, so a theorem about all states is a
    theorem about every pattern of I/O errors.  An error keeps the state
    reached so far, as [?] does after a partial mutation.  A write that succeeded is
    there after a restart: power failures are not modelled, and syncing a file or the
    directory has no effect but that it may fail.

    Shows: the index and the directory always agree, whatever fails; accounting
    is exact and never exceeds the capacity; an acknowledged append stays
    readable and only moves forward; a sealed session accepts nothing more; and
    reopening a directory rebuilds the same index. *)

From S2P Require Import Prelude.
From S2P Require Import Actors.
From S2P Require Import StoragePaths.
From S2P Require Import Snapshots.
Local Open Scope string_scope.
Local Open Scope Z_scope.

Record Metadata := { md_object : string; md_size : Z }.
#[global] Instance Metadata_eq_dec : EqDecision Metadata.
Proof. solve_decision. Defined.

Definition newline : string := String (ascii_of_nat 10) "".

(** What the blob header relies on: compact JSON is one line of UTF-8 and a
    trailing newline is insignificant. *)
Class JsonLineLaws (A : Type) `{Json A} : Prop := {
  json_one_line : forall a : A, contains_char (ascii_of_nat 10) (to_vec a) = false;
  json_utf8 : forall a : A, from_utf8 (to_vec a +:+ newline) = Ok (to_vec a +:+ newline);
  json_trailing_newline : forall a : A, from_slice (to_vec a +:+ newline) = Ok a }.

Record StoreState := {
  directory : gmap string string;
  capacity : Z;
  used : Z;
  snapshots : gmap string Metadata;
  streams : gmap string StreamHead;
  sessions : gmap string SessionHead;
  faults : list bool }.

(** * The effect: state, errors that keep the state, file faults *)
Definition Store (A : Type) : Type := StoreState -> Result A * StoreState.
#[global] Instance Store_ret : MRet Store := fun A a st => (Ok a, st).
#[global] Instance Store_bind : MBind Store := fun A B f m st =>
  match m st with
  | (Ok a, st') => f a st'
  | (Err e, st') => (Err e, st')
  end.

Definition lift {A} (r : Result A) : Store A := fun st => (r, st).
Definition get_state : Store StoreState := fun st => (Ok st, st).
Definition modify (f : StoreState -> StoreState) : Store unit := fun st => (Ok (), f st).

Definition set_faults (f : list bool) (st : StoreState) : StoreState :=
  {| directory := directory st; capacity := capacity st; used := used st;
     snapshots := snapshots st; streams := streams st; sessions := sessions st; faults := f |}.
Definition set_directory (d : gmap string string) (st : StoreState) : StoreState :=
  {| directory := d; capacity := capacity st; used := used st;
     snapshots := snapshots st; streams := streams st; sessions := sessions st;
     faults := faults st |}.
Definition set_blobs (u : Z) (s : gmap string Metadata) (st : StoreState) : StoreState :=
  {| directory := directory st; capacity := capacity st; used := u;
     snapshots := s; streams := streams st; sessions := sessions st; faults := faults st |}.
Definition set_streams (s : gmap string StreamHead) (st : StoreState) : StoreState :=
  {| directory := directory st; capacity := capacity st; used := used st;
     snapshots := snapshots st; streams := s; sessions := sessions st; faults := faults st |}.
Definition set_sessions (s : gmap string SessionHead) (st : StoreState) : StoreState :=
  {| directory := directory st; capacity := capacity st; used := used st;
     snapshots := snapshots st; streams := streams st; sessions := s; faults := faults st |}.

(** One file operation: it fails when the schedule says so. *)
Definition io : Store unit := fun st =>
  match faults st with
  | true :: f => (Err "I/O error", set_faults f st)
  | false :: f => (Ok (), set_faults f st)
  | [] => (Ok (), st)
  end.

(** [File::open(&self.directory)?.sync_all()] *)
Definition sync_directory : Store unit := io.

(** [fs::remove_file] *)
Definition remove_file (path : string) : Store unit :=
  io;;
  st ← get_state;
  match directory st !! path with
  | Some _ => modify (set_directory (delete path (directory st)))
  | None => lift (Err "No such file or directory")
  end.

(** A temporary file written, synced and renamed into place:
    [persist] replaces, [persist_noclobber] refuses an existing target. *)
Definition persist (path content : string) : Store unit :=
  io;;
  modify (fun st => set_directory (<[path := content]> (directory st)) st).
Definition persist_noclobber (path content : string) : Store unit :=
  io;;
  st ← get_state;
  match directory st !! path with
  | Some _ => lift (Err "File exists")
  | None => modify (set_directory (<[path := content]> (directory st)))
  end.

(** [Path::extension], [Path::with_extension] on a file name *)
Definition extension (name : string) : option string :=
  match rsplit_once "." name with
  | Some (EmptyString, _) | None => None
  | Some (_, e) => Some e
  end.
Definition with_extension (name e : string) : string :=
  match rsplit_once "." name with
  | Some (EmptyString, _) | None => name +:+ "." +:+ e
  | Some (stem, _) => stem +:+ "." +:+ e
  end.

(** [BufRead::read_line] and the bytes after it *)
Definition read_line (content : string) : string * string :=
  match split_once (ascii_of_nat 10) content with
  | Some (line, rest) => (line +:+ newline, rest)
  | None => (content, "")
  end.
Definition ends_with_newline (s : string) : bool :=
  match strip_suffix newline s with Some _ => true | None => false end.

Definition string_leb (a b : StreamHead) : Prop :=
  String.leb (prefix (head_stream a)) (prefix (head_stream b)) = true.
#[global] Instance string_leb_dec : RelDecision string_leb.
Proof. intros a b. unfold string_leb. apply _. Defined.

Section store.
Context `{Base64Url, Sha256, Json StateSnapshot, Json Metadata, Json StreamHead, Json SessionHead}.

Definition file_stem (object : string) : string := b64_encode (sha256 object).
(** [StoreState::path] and the two names derived from it *)
Definition path (object : string) : string := file_stem object +:+ ".blob".
Definition session_path (s : string) : string := with_extension (path s) "session".
Definition stream_path (p : string) : string := with_extension (path p) "stream".

Definition blob_text (md : Metadata) (bytes : string) : string :=
  to_vec md +:+ newline +:+ bytes.

Definition read_blob (p : string) (size : Z) : Store string :=
  io;;
  st ← get_state;
  match directory st !! p with
  | None => lift (Err "No such file or directory")
  | Some content =>
      let bytes := (read_line content).2 in
      lift (ensure (len bytes =? size) "incomplete replica blob");;
      mret bytes
  end.

Definition session_head (s : string) (st : StoreState) : SessionHead :=
  default {| head_session := s; initialized := false; sealed := false; Snapshots.streams := [] |}
    (sessions st !! s).

Definition save_session (head : SessionHead) : Store unit :=
  io;;
  persist (session_path (head_session head)) (to_vec head);;
  modify (fun st => set_sessions (<[head_session head := head]> (sessions st)) st);;
  sync_directory.

Definition save_head (head : StreamHead) : Store unit :=
  io;;
  persist (stream_path (prefix (head_stream head))) (to_vec head);;
  modify (fun st => set_streams (<[prefix (head_stream head) := head]> (streams st)) st);;
  sync_directory.

Definition put (md : Metadata) (bytes : string) : Store unit :=
  st ← get_state;
  match snapshots st !! md_object md with
  | Some existing =>
      stored ← read_blob (path (md_object md)) (md_size existing);
      lift (ensure (String.eqb stored bytes) "conflicting immutable snapshot");;
      sync_directory
  | None =>
      total ← lift (with_context (checked_add (used st) (md_size md)) "replica size overflow");
      lift (ensure (total <=? capacity st) "replica storage is full");;
      io;;
      persist_noclobber (path (md_object md)) (blob_text md bytes);;
      modify (fun st => set_blobs total (<[md_object md := md]> (snapshots st)) st);;
      sync_directory
  end.

Definition head (s : ReplicaStream) (st : StoreState) : Result StreamHead :=
  match streams st !! prefix s with
  | Some h =>
      ensure (bool_decide (head_stream h = s)) "replica stream identity mismatch";;
      Ok h
  | None => Ok {| head_stream := s; latest := None |}
  end.

(** The loop of [prune_stream] over the obsolete objects *)
Fixpoint remove_blobs (objects : list string) : Store unit :=
  match objects with
  | [] => mret ()
  | o :: rest =>
      (remove_file (path o);;
       modify (fun st =>
         set_blobs (used st - from_option md_size 0 (snapshots st !! o))
                   (delete o (snapshots st)) st));;
      remove_blobs rest
  end.

Definition obsolete (h : StreamHead) (r : SnapshotRef) (st : StoreState) : list string :=
  filter (fun o => starts_with (prefix (head_stream h)) o = true /\ o <> object r)
    (map_to_list (snapshots st)).*1.

Definition prune_stream (h : StreamHead) : Store unit :=
  match latest h with
  | None => mret ()
  | Some r =>
      st ← get_state;
      match obsolete h r st with
      | [] => mret ()
      | objects => remove_blobs objects;; sync_directory
      end
  end.

Definition with_latest (h : StreamHead) (r : SnapshotRef) : StreamHead :=
  {| head_stream := head_stream h; latest := Some r |}.

Definition append (s : ReplicaStream) (bytes : string) : Store unit :=
  st ← get_state;
  h ← lift (head s st);
  let ses := session_head (rs_session s) st in
  lift (ensure (initialized ses && negb (sealed ses)) "replica session is absent or sealed");;
  snapshot ← lift (stream_snapshot s bytes);
  let write :=
    (* Full snapshots include intervening writes that used the bucket fallback. *)
    put {| md_object := object snapshot; md_size := len bytes |} bytes;;
    save_head (with_latest h snapshot);;
    prune_stream (with_latest h snapshot) in
  match latest h with
  | Some last =>
      lift (ensure (ref_state_version last <=? ref_state_version snapshot)
              "replica write is out of order");;
      if ref_state_version snapshot =? ref_state_version last then
        lift (ensure (bool_decide (snapshot = last)) "conflicting immutable snapshot");;
        sync_directory;;
        prune_stream h
      else write
  | None => write
  end.

(** * The operations of the [ReplicaStore] trait *)
Definition initialize_session (s : string) : Store unit :=
  st ← get_state;
  let h := session_head s st in
  lift (ensure (negb (sealed h)) "replica session is sealed");;
  save_session {| head_session := head_session h; initialized := true; sealed := sealed h;
                  Snapshots.streams := Snapshots.streams h |}.

Definition stream_head (s : ReplicaStream) : Store StreamHead :=
  st ← get_state;
  lift (ensure (initialized (session_head (rs_session s) st)) "replica session is absent");;
  lift (head s st).

Definition seal_session (s : string) : Store SessionHead :=
  st ← get_state;
  let h := session_head s st in
  let h := {| head_session := head_session h; initialized := initialized h; sealed := true;
              Snapshots.streams := Snapshots.streams h |} in
  save_session h;;
  st ← get_state;
  mret {| head_session := head_session h; initialized := initialized h; sealed := true;
          Snapshots.streams :=
            merge_sort string_leb
              (filter (fun sh => rs_session (head_stream sh) = s) (map_to_list (streams st)).*2) |}.

Definition put_object (object : string) (bytes : string) : Store unit :=
  put {| md_object := object; md_size := len bytes |} bytes.

Definition read (object : string) : Store (option string) :=
  st ← get_state;
  match snapshots st !! object with
  | None => mret None
  | Some md => bytes ← read_blob (path object) (md_size md); mret (Some bytes)
  end.

(** * Opening a directory *)
Definition restore_entry (name : string) : Store unit :=
  if starts_with ".pending-" name then remove_file name
  else
    io;;
    st ← get_state;
    match directory st !! name with
    | None => lift (Err "No such file or directory")
    | Some content =>
        if bool_decide (extension name = Some "session") then
          h ← lift (from_slice content);
          lift (ensure (String.eqb name (session_path (head_session h))) "invalid session metadata");;
          modify (fun st => set_sessions (<[head_session h := h]> (sessions st)) st)
        else if bool_decide (extension name = Some "stream") then
          h ← lift (from_slice content);
          lift (ensure (String.eqb name (stream_path (prefix (head_stream h)))) "invalid stream metadata");;
          modify (fun st => set_streams (<[prefix (head_stream h) := h]> (streams st)) st)
        else if bool_decide (extension name = Some "blob") then
          let '(line, bytes) := read_line content in
          lift (from_utf8 line);;
          md ← lift (from_slice line);
          lift (ensure (ends_with_newline line && String.eqb name (path (md_object md)))
                  "invalid replica blob metadata");;
          lift (ensure (len content =? len line + md_size md) "incomplete replica blob");;
          total ← lift (with_context (checked_add (used st) (md_size md)) "replica size overflow");
          modify (fun st => set_blobs total (<[md_object md := md]> (snapshots st)) st)
        else mret ()
    end.

Fixpoint restore_entries (names : list string) : Store unit :=
  match names with
  | [] => mret ()
  | n :: rest => restore_entry n;; restore_entries rest
  end.

Fixpoint prune_streams (heads : list StreamHead) : Store unit :=
  match heads with
  | [] => mret ()
  | h :: rest => prune_stream h;; prune_streams rest
  end.

Definition restore : Store unit :=
  io;;
  st ← get_state;
  restore_entries (map_to_list (directory st)).*1;;
  st ← get_state;
  prune_streams (map_to_list (streams st)).*2.

(** [FileReplicaStore::open] on an existing directory *)
Definition open (dir : gmap string string) (cap : Z) (schedule : list bool)
  : Result StoreState :=
  ensure (0 <? cap) "replica storage capacity must be positive";;
  let st := {| directory := dir; capacity := cap; used := 0; snapshots := ∅;
               streams := ∅; sessions := ∅; faults := schedule |} in
  match restore st with
  | (Ok _, st') => Ok st'
  | (Err e, _) => Err e
  end.
End store.

(** * Accounting of a blob index *)
Definition total_size (m : gmap string Metadata) : Z :=
  map_fold (fun _ md acc => md_size md + acc) 0 m.

Lemma total_size_insert m o md :
  m !! o = None -> total_size (<[o := md]> m) = md_size md + total_size m.
Proof.
  intros Ho. unfold total_size. rewrite map_fold_insert_L; [done|lia|done].
Qed.

Lemma total_size_delete m o md :
  m !! o = Some md -> total_size (delete o m) = total_size m - md_size md.
Proof.
  intros Ho. unfold total_size.
  rewrite (map_fold_delete_L _ _ o md m); [lia|lia|done].
Qed.

(** * File names *)
Section names.
Context `{Base64Url, Sha256, !Base64UrlLaws, !Sha256Laws}.

Lemma file_stem_inj a b : file_stem a = file_stem b -> a = b.
Proof. intros E%b64_inj. by apply sha256_collision_free. Qed.

Lemma file_stem_nonempty a : file_stem a <> "".
Proof.
  unfold file_stem. intros E.
  assert (Hz : b64_encode "" = "").
  { pose proof (b64_length "") as Hl. unfold len in Hl. cbn in Hl.
    destruct (b64_encode ""); [done|]. cbn in Hl. lia. }
  rewrite <-Hz in E. by apply b64_inj, sha256_nonempty in E.
Qed.

Lemma file_stem_plain a : contains_char "." (file_stem a) = false.
Proof.
  unfold file_stem. generalize (b64_alphabet (sha256 a)). by apply contains_char_class.
Qed.

Lemma derived_name o e : with_extension (path o) e = file_stem o +:+ "." +:+ e.
Proof.
  unfold with_extension, path. change ".blob" with (String "." "blob").
  rewrite rsplit_once_app by done.
  destruct (file_stem o) eqn:E; [by apply file_stem_nonempty in E|done].
Qed.

Lemma extension_of o e : contains_char "." e = false ->
  extension (file_stem o +:+ "." +:+ e) = Some e.
Proof.
  intros He. unfold extension. rewrite sapp_cons, sapp_nil_l, rsplit_once_app by done.
  destruct (file_stem o) eqn:E; [by apply file_stem_nonempty in E|done].
Qed.

Lemma path_extension o : extension (path o) = Some "blob".
Proof. apply (extension_of o "blob"). done. Qed.
Lemma session_path_extension s : extension (session_path s) = Some "session".
Proof. unfold session_path. rewrite derived_name. by apply extension_of. Qed.
Lemma stream_path_extension s : extension (stream_path s) = Some "stream".
Proof. unfold stream_path. rewrite derived_name. by apply extension_of. Qed.

Lemma path_inj a b : path a = path b -> a = b.
Proof.
  unfold path. intros E. apply file_stem_inj.
  apply (f_equal (strip_suffix ".blob")) in E. rewrite !strip_suffix_app in E. congruence.
Qed.
Lemma session_path_inj a b : session_path a = session_path b -> a = b.
Proof.
  unfold session_path. rewrite !derived_name. intros E. apply file_stem_inj.
  apply (f_equal (strip_suffix ("." +:+ "session"))) in E. rewrite !strip_suffix_app in E. congruence.
Qed.
Lemma stream_path_inj a b : stream_path a = stream_path b -> a = b.
Proof.
  unfold stream_path. rewrite !derived_name. intros E. apply file_stem_inj.
  apply (f_equal (strip_suffix ("." +:+ "stream"))) in E. rewrite !strip_suffix_app in E. congruence.
Qed.

Lemma stem_not_pending o e : starts_with ".pending-" (file_stem o +:+ e) = false.
Proof.
  pose proof (file_stem_nonempty o) as Hn. pose proof (file_stem_plain o) as Hp.
  destruct (file_stem o) as [|c s]; [done|]. rewrite sapp_cons.
  unfold starts_with. cbn [strip_prefix]. destruct (ascii_dec "." c) as [<-|]; [|done].
  exfalso. revert Hp. rewrite contains_char_false. done.
Qed.

(** Names of different kinds differ: their extensions do. *)
Lemma path_ne_session a b : path a <> session_path b.
Proof. intros E. apply (f_equal extension) in E. by rewrite path_extension, session_path_extension in E. Qed.
Lemma path_ne_stream a b : path a <> stream_path b.
Proof. intros E. apply (f_equal extension) in E. by rewrite path_extension, stream_path_extension in E. Qed.
Lemma stream_ne_session a b : stream_path a <> session_path b.
Proof. intros E. apply (f_equal extension) in E. by rewrite stream_path_extension, session_path_extension in E. Qed.
End names.

(** * The invariant *)
Section invariant.
Context `{Base64Url, Sha256, Json StateSnapshot, Json Metadata, Json StreamHead, Json SessionHead,
          !Base64UrlLaws, !Sha256Laws, !JsonLineLaws Metadata}.

(** The stream prefixes in use: none is a proper prefix of another.  Prefixes
    built by [Ownership::stream] have this property. *)
Context (Pfx : string -> Prop).
Hypothesis prefix_free :
  forall p q, Pfx p -> Pfx q -> starts_with p q = true -> p = q.

Definition ignored (name : string) : Prop :=
  starts_with ".pending-" name = true \/
  (extension name <> Some "blob" /\ extension name <> Some "stream" /\
   extension name <> Some "session").

Definition blob_at (st : StoreState) (o : string) (bytes : string) : Prop :=
  snapshots st !! o = Some {| md_object := o; md_size := len bytes |} /\
  directory st !! path o = Some (blob_text {| md_object := o; md_size := len bytes |} bytes).

Record inv (st : StoreState) : Prop := {
  inv_used : used st = total_size (snapshots st);
  inv_capacity : used st <= capacity st;
  inv_blobs : forall o md, snapshots st !! o = Some md -> exists bytes, blob_at st o bytes;
  inv_streams : forall p h, streams st !! p = Some h ->
    prefix (head_stream h) = p /\ Pfx p /\ directory st !! stream_path p = Some (to_vec h);
  inv_sessions : forall s h, sessions st !! s = Some h ->
    head_session h = s /\ directory st !! session_path s = Some (to_vec h);
  inv_files : forall name content, directory st !! name = Some content ->
    (exists o, name = path o /\ is_Some (snapshots st !! o)) \/
    (exists p, name = stream_path p /\ is_Some (streams st !! p)) \/
    (exists s, name = session_path s /\ is_Some (sessions st !! s)) \/
    ignored name;
  inv_acked : forall p h r, streams st !! p = Some h -> latest h = Some r ->
    exists bytes, blob_at st (object r) bytes /\ stream_snapshot (head_stream h) bytes = Ok r }.

(** How one state follows another: sessions only gain flags, heads only move
    forward, and the streams of a sealed session do not change at all. *)
Record advances (st st' : StoreState) : Prop := {
  adv_capacity : capacity st' = capacity st;
  adv_sessions : forall s,
    (initialized (session_head s st) = true -> initialized (session_head s st') = true) /\
    (sealed (session_head s st) = true -> sealed (session_head s st') = true);
  adv_streams : forall p h, streams st !! p = Some h -> exists h',
    streams st' !! p = Some h' /\ head_stream h' = head_stream h /\
    forall r, latest h = Some r -> exists r', latest h' = Some r' /\
      ref_state_version r <= ref_state_version r' /\
      (ref_state_version r' = ref_state_version r -> r' = r);
  adv_sealed : forall s p h', sealed (session_head s st) = true ->
    streams st' !! p = Some h' -> rs_session (head_stream h') = s ->
    streams st !! p = Some h' }.

Lemma advances_same st st' :
  capacity st' = capacity st -> streams st' = streams st -> sessions st' = sessions st ->
  advances st st'.
Proof.
  intros Hc Hs Hss. split; [done|..]; unfold session_head; rewrite ?Hs, ?Hss.
  - intros s. done.
  - intros p h Hp. exists h. split_and!; try done. intros r Hr. exists r. split_and!; [done|lia|done].
  - intros. done.
Qed.

#[global] Instance advances_refl : Reflexive advances.
Proof. intros st. by apply advances_same. Qed.

#[global] Instance advances_trans : Transitive advances.
Proof.
  intros a b c [C1 S1 T1 F1] [C2 S2 T2 F2]. split.
  - congruence.
  - intros s. destruct (S1 s), (S2 s). auto.
  - intros p h Hp. destruct (T1 p h Hp) as (h1 & Hp1 & E1 & A1).
    destruct (T2 p h1 Hp1) as (h2 & Hp2 & E2 & A2). exists h2. split_and!; [done|congruence|].
    intros r Hr. destruct (A1 r Hr) as (r1 & Hr1 & L1 & Q1).
    destruct (A2 r1 Hr1) as (r2 & Hr2 & L2 & Q2). exists r2. split_and!; [done|lia|].
    intros E. assert (ref_state_version r1 = ref_state_version r) by lia.
    rewrite Q2 by lia. by apply Q1.
  - intros s p h' Hs Hp Hses. apply F1 with s; [done| |done].
    apply F2 with s; [by apply S1|done|done].
Qed.

(** * Triples: from a good state every outcome is a good state that follows *)
Definition triple {A} (P : StoreState -> Prop) (m : Store A) (Q : A -> StoreState -> Prop) : Prop :=
  forall st, inv st -> P st ->
    inv (m st).2 /\ advances st (m st).2 /\
    (forall a, (m st).1 = Ok a -> Q a (m st).2).

Lemma triple_bind {A B} P (m : Store A) Q (f : A -> Store B) R :
  triple P m Q -> (forall a, triple (Q a) (f a) R) -> triple P (m ≫= f) R.
Proof.
  intros Hm Hf st Hi HP. destruct (Hm st Hi HP) as (I1 & A1 & Q1).
  unfold mbind, Store_bind. destruct (m st) as [[a|e] st1] eqn:E; cbn in *.
  - destruct (Hf a st1 I1 (Q1 a eq_refl)) as (I2 & A2 & Q2).
    split_and!; [done|by etrans|done].
  - split_and!; [done|done|]. intros ? [=].
Qed.

Lemma triple_ret {A} (P : StoreState -> Prop) (a : A) : triple P (mret a) (fun b st => b = a /\ P st).
Proof. intros st Hi HP. cbn. split_and!; [done|reflexivity|]. by intros b [= <-]. Qed.

Lemma triple_skip {A} (P : StoreState -> Prop) (a : A) : triple P (mret a) (fun _ st => P st).
Proof. intros st Hi HP. cbn. split_and!; [done|reflexivity|done]. Qed.

Lemma triple_weaken {A} (P P' : StoreState -> Prop) (m : Store A) (Q Q' : A -> StoreState -> Prop) :
  triple P m Q -> (forall st, P' st -> P st) -> (forall a st, Q a st -> Q' a st) ->
  triple P' m Q'.
Proof.
  intros Hm HP HQ st Hi HP'. destruct (Hm st Hi (HP _ HP')) as (I & A1 & Q1).
  split_and!; auto.
Qed.

Lemma triple_pre {A} (P P' : StoreState -> Prop) (m : Store A) Q :
  triple P m Q -> (forall st, P' st -> P st) -> triple P' m Q.
Proof. intros Hm HP. by eapply triple_weaken. Qed.

Lemma triple_lift {A} (P : StoreState -> Prop) (r : Result A) :
  triple P (lift r) (fun a st => r = Ok a /\ P st).
Proof. intros st Hi HP. cbn. split_and!; [done|reflexivity|done]. Qed.

Lemma triple_get (P : StoreState -> Prop) :
  triple P get_state (fun s st => s = st /\ P st).
Proof. intros st Hi HP. cbn. split_and!; [done|reflexivity|]. by intros a [= <-]. Qed.

(** Faults touch nothing but the schedule. *)
Lemma inv_set_faults st f : inv st -> inv (set_faults f st).
Proof. intros [? ? Hb ? ? ? ?]. split; try done. Qed.

Definition fault_blind (P : StoreState -> Prop) : Prop :=
  forall st f, P st -> P (set_faults f st).

Lemma triple_io P : fault_blind P -> triple P io (fun _ st => P st).
Proof.
  intros HP st Hi Hst. unfold io. destruct (faults st) as [|[] f]; cbn.
  - split_and!; [done|reflexivity|done].
  - split_and!; [by apply inv_set_faults|by apply advances_same|done].
  - split_and!; [by apply inv_set_faults|by apply advances_same|auto].
Qed.

Lemma io_cases st : exists f,
  io st = (Ok (), set_faults f st) \/ io st = (Err "I/O error", set_faults f st).
Proof.
  unfold io. destruct (faults st) as [|[] f] eqn:E.
  - exists []. left. destruct st. cbn in *. by subst.
  - exists f. by right.
  - exists f. by left.
Qed.

(** * The four ways the index and the directory change together *)
Lemma inv_remove_blob st o md :
  inv st -> snapshots st !! o = Some md ->
  (forall p h r, streams st !! p = Some h -> latest h = Some r -> object r <> o) ->
  inv (set_blobs (used st - md_size md) (delete o (snapshots st))
        (set_directory (delete (path o) (directory st)) st)).
Proof.
  intros [Hu Hc Hb Hst Hse Hf Ha] Ho Hun.
  assert (Hkeep : forall o' bytes, o' <> o -> blob_at st o' bytes ->
    blob_at (set_blobs (used st - md_size md) (delete o (snapshots st))
        (set_directory (delete (path o) (directory st)) st)) o' bytes).
  { intros o' bytes Hne [B1 B2]. split; cbn.
    - by rewrite lookup_delete_ne.
    - rewrite lookup_delete_ne; [done|]. intros E%path_inj. congruence. }
  split; cbn.
  - rewrite (total_size_delete _ _ _ Ho). lia.
  - destruct (Hb o md Ho) as (bytes & Hbl & _). rewrite Ho in Hbl. simplify_eq/=.
    unfold len. lia.
  - intros o' md' Ho'. destruct (decide (o' = o)) as [->|Hne]; [by rewrite lookup_delete_eq in Ho'|].
    rewrite lookup_delete_ne in Ho' by done. destruct (Hb _ _ Ho') as [bytes Hbytes].
    exists bytes. auto.
  - intros p h Hp. destruct (Hst p h Hp) as (? & ? & ?). split_and!; try done.
    rewrite lookup_delete_ne; [done|]. apply path_ne_stream.
  - intros s h Hs. destruct (Hse s h Hs) as (? & ?). split; [done|].
    rewrite lookup_delete_ne; [done|]. apply path_ne_session.
  - intros name content Hn. apply lookup_delete_Some in Hn as [Hne Hn].
    destruct (Hf _ _ Hn) as [(o' & -> & Ho')|Hrest]; [|by right].
    left. exists o'. split; [done|]. rewrite lookup_delete_ne; [done|]. congruence.
  - intros p h r Hp Hr. destruct (Ha p h r Hp Hr) as (bytes & Hbytes & Hsnap).
    exists bytes. split; [|done]. apply Hkeep; [|done]. by eapply Hun.
Qed.

Lemma inv_insert_blob st o bytes :
  inv st -> snapshots st !! o = None -> directory st !! path o = None ->
  used st + len bytes <= capacity st ->
  let md := {| md_object := o; md_size := len bytes |} in
  inv (set_blobs (used st + len bytes) (<[o := md]> (snapshots st))
        (set_directory (<[path o := blob_text md bytes]> (directory st)) st)).
Proof.
  intros [Hu Hc Hb Hst Hse Hf Ha] Ho Hd Hcap md.
  assert (Hkeep : forall o' bytes', blob_at st o' bytes' ->
    blob_at (set_blobs (used st + len bytes) (<[o := md]> (snapshots st))
        (set_directory (<[path o := blob_text md bytes]> (directory st)) st)) o' bytes').
  { intros o' bytes' [B1 B2]. assert (o' <> o) by congruence. split; cbn.
    - by rewrite lookup_insert_ne.
    - rewrite lookup_insert_ne; [done|]. congruence. }
  split; cbn.
  - rewrite total_size_insert by done. cbn. lia.
  - done.
  - intros o' md' Ho'. destruct (decide (o' = o)) as [->|Hne].
    + exists bytes. split; cbn; by rewrite lookup_insert_eq.
    + rewrite lookup_insert_ne in Ho' by done. destruct (Hb _ _ Ho') as [bytes' Hbytes].
      exists bytes'. auto.
  - intros p h Hp. destruct (Hst p h Hp) as (? & ? & ?). split_and!; try done.
    rewrite lookup_insert_ne; [done|]. apply path_ne_stream.
  - intros s h Hs. destruct (Hse s h Hs) as (? & ?). split; [done|].
    rewrite lookup_insert_ne; [done|]. apply path_ne_session.
  - intros name content Hn. destruct (decide (name = path o)) as [->|Hne].
    + left. exists o. split; [done|]. by rewrite lookup_insert_eq.
    + rewrite lookup_insert_ne in Hn by done.
      destruct (Hf _ _ Hn) as [(o' & -> & Ho')|Hrest]; [|by right].
      left. exists o'. split; [done|]. rewrite lookup_insert_ne; [done|]. congruence.
  - intros p h r Hp Hr. destruct (Ha p h r Hp Hr) as (bytes' & Hbytes & Hsnap).
    exists bytes'. auto.
Qed.

Lemma inv_insert_session st h :
  inv st ->
  inv (set_sessions (<[head_session h := h]> (sessions st))
        (set_directory (<[session_path (head_session h) := to_vec h]> (directory st)) st)).
Proof.
  intros [Hu Hc Hb Hst Hse Hf Ha].
  assert (Hkeep : forall o' bytes', blob_at st o' bytes' ->
    blob_at (set_sessions (<[head_session h := h]> (sessions st))
        (set_directory (<[session_path (head_session h) := to_vec h]> (directory st)) st)) o' bytes').
  { intros o' bytes' [B1 B2]. split; cbn; [done|].
    rewrite lookup_insert_ne; [done|]. apply not_eq_sym, path_ne_session. }
  split; cbn; try done.
  - intros o' md' Ho'. destruct (Hb _ _ Ho') as [bytes' Hbytes]. exists bytes'. auto.
  - intros p h' Hp. destruct (Hst p h' Hp) as (? & ? & ?). split_and!; try done.
    rewrite lookup_insert_ne; [done|]. apply not_eq_sym, stream_ne_session.
  - intros s h' Hs. destruct (decide (head_session h = s)) as [<-|Hne].
    + rewrite lookup_insert_eq in Hs. simplify_eq. by rewrite lookup_insert_eq.
    + rewrite lookup_insert_ne in Hs by done. destruct (Hse s h' Hs) as (? & ?). split; [done|].
      rewrite lookup_insert_ne; [done|]. by intros E%session_path_inj.
  - intros name content Hn. destruct (decide (name = session_path (head_session h))) as [->|Hne].
    + right; right; left. eexists. split; [done|]. by rewrite lookup_insert_eq.
    + rewrite lookup_insert_ne in Hn by done.
      destruct (Hf _ _ Hn) as [?|[?|[(s & -> & Hs)|?]]]; [by left|by right; left| |by do 3 right].
      right; right; left. exists s. split; [done|]. rewrite lookup_insert_ne; [done|]. congruence.
  - intros p h' r Hp Hr. destruct (Ha p h' r Hp Hr) as (bytes' & Hbytes & Hsnap).
    exists bytes'. auto.
Qed.

Lemma inv_insert_head st h r bytes :
  inv st -> Pfx (prefix (head_stream h)) -> latest h = Some r ->
  blob_at st (object r) bytes -> stream_snapshot (head_stream h) bytes = Ok r ->
  inv (set_streams (<[prefix (head_stream h) := h]> (streams st))
        (set_directory (<[stream_path (prefix (head_stream h)) := to_vec h]> (directory st)) st)).
Proof.
  intros [Hu Hc Hb Hst Hse Hf Ha] HP Hl Hblob Hsnap.
  assert (Hkeep : forall o' bytes', blob_at st o' bytes' ->
    blob_at (set_streams (<[prefix (head_stream h) := h]> (streams st))
        (set_directory (<[stream_path (prefix (head_stream h)) := to_vec h]> (directory st)) st))
      o' bytes').
  { intros o' bytes' [B1 B2]. split; cbn; [done|].
    rewrite lookup_insert_ne; [done|]. apply not_eq_sym, path_ne_stream. }
  split; cbn; try done.
  - intros o' md' Ho'. destruct (Hb _ _ Ho') as [bytes' Hbytes]. exists bytes'. auto.
  - intros p h' Hp. destruct (decide (prefix (head_stream h) = p)) as [<-|Hne].
    + rewrite lookup_insert_eq in Hp. simplify_eq. by rewrite lookup_insert_eq.
    + rewrite lookup_insert_ne in Hp by done. destruct (Hst p h' Hp) as (? & ? & ?).
      split_and!; try done. rewrite lookup_insert_ne; [done|]. by intros E%stream_path_inj.
  - intros s h' Hs. destruct (Hse s h' Hs) as (? & ?). split; [done|].
    rewrite lookup_insert_ne; [done|]. apply stream_ne_session.
  - intros name content Hn.
    destruct (decide (name = stream_path (prefix (head_stream h)))) as [->|Hne].
    + right; left. eexists. split; [done|]. by rewrite lookup_insert_eq.
    + rewrite lookup_insert_ne in Hn by done.
      destruct (Hf _ _ Hn) as [?|[(p & -> & Hp)|?]]; [by left| |by right; right].
      right; left. exists p. split; [done|]. rewrite lookup_insert_ne; [done|]. congruence.
  - intros p h' r' Hp Hr. destruct (decide (prefix (head_stream h) = p)) as [<-|Hne].
    + rewrite lookup_insert_eq in Hp. simplify_eq. exists bytes. auto.
    + rewrite lookup_insert_ne in Hp by done.
      destruct (Ha p h' r' Hp Hr) as (bytes' & Hbytes & Hsn). exists bytes'. auto.
Qed.

(** * Triples of the operations *)
Lemma triple_assoc {A B C} P (m : Store A) (f : A -> Store B) (g : B -> Store C) R :
  triple P ((m ≫= f) ≫= g) R -> triple P (m ≫= fun x => f x ≫= g) R.
Proof.
  intros Ht st Hi HP. specialize (Ht st Hi HP). revert Ht.
  unfold mbind, Store_bind. by destruct (m st) as [[a|e] st1].
Qed.

(** What an operation that only touches blobs leaves alone. *)
Definition frame (S : gmap string StreamHead) (T : gmap string SessionHead) (st : StoreState)
  : Prop := streams st = S /\ sessions st = T.

Lemma frame_fault_blind S T : fault_blind (frame S T).
Proof. intros st f [? ?]. done. Qed.

Lemma advances_frame st st' :
  capacity st' = capacity st -> frame (streams st) (sessions st) st' -> advances st st'.
Proof. intros ? [? ?]. by apply advances_same. Qed.

(** An atomic step: a file operation that may fail, then a pure change. *)
Lemma triple_io_then {A} P (m : Store A) (Q : A -> StoreState -> Prop) :
  fault_blind P -> triple P m Q -> triple P (io;; m) Q.
Proof. intros HP Hm. eapply triple_bind; [by apply triple_io|]. intros ?. exact Hm. Qed.

Lemma triple_bind_ret {A B} P (m : Store A) (f : A -> Store B) R :
  (forall st, inv st -> P st -> forall a, m st = (Ok a, st) -> triple (fun s => s = st) (f a) R) ->
  (forall st, (m st).2 = st) ->
  triple P (m ≫= f) R.
Proof.
  intros Hf Hm st Hi HP. specialize (Hm st). unfold mbind, Store_bind.
  destruct (m st) as [[a|e] st1] eqn:E; cbn in *; subst st1.
  - destruct (Hf st Hi HP a E st Hi eq_refl) as (? & ? & ?). done.
  - split_and!; [done|reflexivity|]. intros ? [=].
Qed.

Lemma triple_get_then {A} P (f : StoreState -> Store A) R :
  (forall s, inv s -> P s -> triple (fun st => st = s) (f s) R) ->
  triple P (get_state ≫= f) R.
Proof.
  intros Hf. apply triple_bind_ret; [|done]. intros st Hi HP a E.
  assert (a = st) as -> by (unfold get_state in E; congruence). auto.
Qed.

Lemma triple_lift_then {A B} P (r : Result A) (f : A -> Store B) R :
  (forall a, r = Ok a -> triple P (f a) R) -> triple P (lift r ≫= f) R.
Proof.
  intros Hf. apply triple_bind_ret; [|done]. intros st Hi HP a E.
  assert (Hr : r = Ok a) by (unfold lift in E; congruence).
  eapply triple_weaken; [by apply Hf| |done]. by intros ? ->.
Qed.

Lemma triple_sync P : fault_blind P -> triple P sync_directory (fun _ st => P st).
Proof. apply triple_io. Qed.

Lemma triple_remove_step S T M o md :
  M !! o = Some md ->
  (forall p h r, S !! p = Some h -> latest h = Some r -> object r <> o) ->
  triple (fun st => frame S T st /\ snapshots st = M)
    (remove_file (path o);;
     modify (fun st => set_blobs (used st - from_option md_size 0 (snapshots st !! o))
                         (delete o (snapshots st)) st))
    (fun _ st => frame S T st /\ snapshots st = delete o M).
Proof.
  intros Ho Hun st Hi ((HS & HT) & <-). unfold remove_file, mbind, Store_bind.
  destruct (io_cases st) as (f & [-> | ->]); cbn.
  2: { split_and!; [by apply inv_set_faults|by apply advances_same|]. by intros ? [=]. }
  destruct (inv_blobs st Hi o md Ho) as (bytes & _ & Hd). rewrite Hd. cbn.
  rewrite Ho. cbn. split_and!.
  - apply (inv_remove_blob (set_faults f st)); [by apply inv_set_faults|done|]. cbn. by rewrite HS.
  - by apply advances_same.
  - intros a _. done.
Qed.

Lemma triple_remove_blobs S T objects : forall M,
  NoDup objects ->
  (forall o, o ∈ objects -> is_Some (M !! o)) ->
  (forall p h r, S !! p = Some h -> latest h = Some r -> object r ∉ objects) ->
  triple (fun st => frame S T st /\ snapshots st = M) (remove_blobs objects)
    (fun _ st => frame S T st).
Proof.
  induction objects as [|o objects IH]; intros M Hnd HM Hun; cbn [remove_blobs].
  - eapply triple_weaken; [apply (triple_skip (frame S T))|by intros ? []|done].
  - apply NoDup_cons in Hnd as [Hno Hnd]. destruct (HM o) as [md Hmd]; [set_solver|].
    eapply triple_bind; [apply (triple_remove_step S T M o md Hmd)|].
    { intros p h r Hp Hr. specialize (Hun p h r Hp Hr). set_solver. }
    intros ?. apply IH; [done| |].
    + intros o' Ho'. rewrite lookup_delete_ne by set_solver. apply HM. set_solver.
    + intros p h r Hp Hr. specialize (Hun p h r Hp Hr). set_solver.
Qed.

Lemma obsolete_spec h r st o :
  o ∈ obsolete h r st <->
  starts_with (prefix (head_stream h)) o = true /\ o <> object r /\ is_Some (snapshots st !! o).
Proof.
  unfold obsolete. rewrite list_elem_of_filter, list_elem_of_fmap. split.
  - intros ((? & ?) & ([o' md] & -> & Hin%elem_of_map_to_list)). cbn. eauto.
  - intros (? & ? & [md Hmd]). split; [done|]. exists (o, md).
    split; [done|]. by apply elem_of_map_to_list.
Qed.

Lemma obsolete_nodup h r st : NoDup (obsolete h r st).
Proof. apply NoDup_filter, NoDup_fst_map_to_list. Qed.

(** Pruning a stream never removes the head of any stream. *)
Lemma obsolete_unlinked st h r p h' r' :
  inv st -> streams st !! prefix (head_stream h) = Some h -> latest h = Some r ->
  streams st !! p = Some h' -> latest h' = Some r' -> object r' ∉ obsolete h r st.
Proof.
  intros Hi Hh Hr Hp Hr' (Hpre & Hne & _)%obsolete_spec.
  destruct (inv_streams st Hi _ _ Hh) as (_ & HP & _).
  destruct (inv_streams st Hi _ _ Hp) as (E & HP' & _).
  destruct (inv_acked st Hi _ _ _ Hp Hr') as (bytes & _ & Hs).
  apply stream_snapshot_ref in Hs as (Ho & _). unfold stream_object in Ho. rewrite E in Ho.
  assert (Hpre' : starts_with p (object r') = true) by (rewrite Ho; apply starts_with_app).
  assert (prefix (head_stream h) = p).
  { destruct (starts_with_comparable _ _ _ Hpre Hpre') as [C|C]; [|symmetry]; auto. }
  subst p. congruence.
Qed.

Lemma triple_prune S T h :
  S !! prefix (head_stream h) = Some h ->
  triple (frame S T) (prune_stream h) (fun _ st => frame S T st).
Proof.
  intros Hh. unfold prune_stream. destruct (latest h) as [r|] eqn:Hr.
  2: by apply triple_skip.
  apply triple_get_then. intros s Hi [HS HT].
  assert (Hrem : triple (fun st => st = s) (remove_blobs (obsolete h r s);; sync_directory)
                   (fun _ st => frame S T st)).
  { eapply triple_bind with (Q := fun _ st => frame S T st).
    - eapply triple_weaken; [apply (triple_remove_blobs S T _ (snapshots s))| |done].
      + apply obsolete_nodup.
      + by intros o (_ & _ & ?)%obsolete_spec.
      + intros p h' r' Hp Hr'. subst S. eapply obsolete_unlinked; eauto.
      + intros st ->. done.
    - intros ?. apply triple_sync, frame_fault_blind. }
  destruct (obsolete h r s) as [|o os]; [|exact Hrem].
  eapply triple_weaken; [apply (triple_skip (frame S T))| |done]. by intros st ->.
Qed.

Lemma read_line_blob md bytes : read_line (blob_text md bytes) = (to_vec md +:+ newline, bytes).
Proof.
  unfold read_line, blob_text, newline. snorm.
  rewrite split_once_app by apply json_one_line. done.
Qed.

(** Reading a blob that is in the store changes nothing and yields its bytes. *)
Lemma read_blob_spec st o bytes :
  blob_at st o bytes ->
  exists f, read_blob (path o) (len bytes) st = (Ok bytes, set_faults f st) \/
            read_blob (path o) (len bytes) st = (Err "I/O error", set_faults f st).
Proof.
  intros [_ Hd]. unfold read_blob, mbind, Store_bind.
  destruct (io_cases st) as (f & [-> | ->]); exists f; [left|by right].
  cbn. rewrite Hd, read_line_blob. by rewrite Z.eqb_refl.
Qed.

Lemma blob_fault_blind o bytes : fault_blind (fun st => blob_at st o bytes).
Proof. intros st f [? ?]. done. Qed.

Lemma triple_read_blob S T o bytes :
  triple (fun st => frame S T st /\ blob_at st o bytes) (read_blob (path o) (len bytes))
    (fun b st => b = bytes /\ frame S T st /\ blob_at st o bytes).
Proof.
  intros st Hi (HF & HB). destruct (read_blob_spec st o bytes HB) as (f & [-> | ->]); cbn;
    (split_and!; [by apply inv_set_faults|by apply advances_same|]).
  - by intros ? [= <-].
  - by intros ? [=].
Qed.

(** A file absent from the index is absent from the directory. *)
Lemma path_absent st o : inv st -> snapshots st !! o = None -> directory st !! path o = None.
Proof.
  intros Hi Ho. destruct (directory st !! path o) as [c|] eqn:E; [|done]. exfalso.
  destruct (inv_files st Hi _ _ E)
    as [(o' & Ep & Hs)|[(q & Ep & _)|[(q & Ep & _)|[Ep|(Ep & _)]]]].
  - apply path_inj in Ep. subst o'. rewrite Ho in Hs. by destruct Hs.
  - by apply path_ne_stream in Ep.
  - by apply path_ne_session in Ep.
  - unfold path in Ep. by rewrite stem_not_pending in Ep.
  - by rewrite path_extension in Ep.
Qed.

Lemma triple_put_new S T o bytes total :
  let md := {| md_object := o; md_size := len bytes |} in
  total <= U64_MAX ->
  triple (fun st => frame S T st /\ snapshots st !! o = None /\
                    total = used st + len bytes /\ total <= capacity st)
    (persist_noclobber (path o) (blob_text md bytes);;
     modify (fun st => set_blobs total (<[md_object md := md]> (snapshots st)) st))
    (fun _ st => frame S T st /\ blob_at st o bytes).
Proof.
  intros md _ st Hi ([HS HT] & Ho & Htot & Hcap).
  unfold persist_noclobber, mbind, Store_bind.
  destruct (io_cases st) as (f & [-> | ->]); cbn.
  2: { split_and!; [by apply inv_set_faults|by apply advances_same|]. by intros ? [=]. }
  rewrite path_absent by done. cbn. split_and!.
  - subst total. apply (inv_insert_blob (set_faults f st)); try done.
    + by apply inv_set_faults.
    + cbn. by apply path_absent.
  - by apply advances_same.
  - intros ? _. split; [done|]. split; cbn; apply lookup_insert_eq.
Qed.

Lemma triple_put S T o bytes :
  triple (frame S T) (put {| md_object := o; md_size := len bytes |} bytes)
    (fun _ st => frame S T st /\ blob_at st o bytes).
Proof.
  unfold put. apply triple_get_then. intros s Hi HF. cbn [md_object md_size].
  destruct (snapshots s !! o) as [md|] eqn:Ho.
  - destruct (inv_blobs s Hi _ _ Ho) as (stored & HB). pose proof HB as [Hmd _].
    rewrite Ho in Hmd. injection Hmd as ->. cbn [md_size].
    eapply triple_bind.
    { eapply triple_weaken; [apply (triple_read_blob S T o stored)| |done]. by intros ? ->. }
    intros b. apply triple_lift_then. intros ? E. apply ensure_ok in E. bools. subst b.
    eapply triple_weaken; [apply (triple_sync (fun st => frame S T st /\ blob_at st o bytes))| |done].
    + intros st f [? ?]. done.
    + intros st (E & ? & ?). by subst stored.
  - apply triple_lift_then. intros total Et. apply triple_lift_then. intros ? Ec.
    apply ensure_ok in Ec. bools. unfold checked_add in Et.
    destruct (used s + len bytes <=? U64_MAX) eqn:Eu; [|done]. cbn in Et. injection Et as <-. bools.
    eapply triple_pre with
      (P := fun st => frame S T st /\ snapshots st !! o = None /\
              used s + len bytes = used st + len bytes /\ used s + len bytes <= capacity st);
      [|by intros ? ->].
    apply triple_io_then; [by intros ? ? (? & ? & ? & ?)|].
    apply triple_assoc. eapply triple_bind; [by apply triple_put_new|].
    intros ?. apply triple_sync. intros st f [? ?]. done.
Qed.

Lemma triple_save_session S T h :
  (forall s, s = head_session h -> let h0 := default {| head_session := s; initialized := false;
       sealed := false; Snapshots.streams := [] |} (T !! s) in
     (initialized h0 = true -> initialized h = true) /\ (sealed h0 = true -> sealed h = true)) ->
  triple (frame S T) (save_session h) (fun _ st => frame S (<[head_session h := h]> T) st).
Proof.
  intros Hmono. unfold save_session. apply triple_io_then; [apply frame_fault_blind|].
  apply triple_assoc. eapply triple_bind with
    (Q := fun _ st => frame S (<[head_session h := h]> T) st);
    [|intros ?; apply triple_sync, frame_fault_blind].
  intros st Hi [HS HT]. unfold persist, mbind, Store_bind.
  destruct (io_cases st) as (f & [-> | ->]); cbn.
  2: { split_and!; [by apply inv_set_faults|by apply advances_same|]. by intros ? [=]. }
  split_and!.
  - apply (inv_insert_session (set_faults f st)). by apply inv_set_faults.
  - split; cbn; [done| |intros p h' Hp; exists h'; split_and!; try done|done].
    + intros s. unfold session_head. cbn. destruct (decide (head_session h = s)) as [<-|Hne].
      * rewrite lookup_insert_eq, HT. by apply (Hmono _ eq_refl).
      * by rewrite lookup_insert_ne.
    + intros r Hr. exists r. split_and!; [done|lia|done].
  - intros ? _. split; cbn; by rewrite ?HS, ?HT.
Qed.

Lemma triple_save_head S T h r bytes :
  Pfx (prefix (head_stream h)) -> latest h = Some r ->
  stream_snapshot (head_stream h) bytes = Ok r ->
  (forall h0, T !! rs_session (head_stream h) = Some h0 -> sealed h0 = false) ->
  (forall h0, S !! prefix (head_stream h) = Some h0 -> head_stream h0 = head_stream h /\
     forall r0, latest h0 = Some r0 -> ref_state_version r0 < ref_state_version r) ->
  triple (fun st => frame S T st /\ blob_at st (object r) bytes) (save_head h)
    (fun _ st => frame (<[prefix (head_stream h) := h]> S) T st).
Proof.
  intros HP Hl Hsn Hunsealed Hold. unfold save_head.
  apply triple_io_then; [by intros ? ? [? ?]|].
  apply triple_assoc. eapply triple_bind with
    (Q := fun _ st => frame (<[prefix (head_stream h) := h]> S) T st);
    [|intros ?; apply triple_sync, frame_fault_blind].
  intros st Hi [[HS HT] HB]. unfold persist, mbind, Store_bind.
  destruct (io_cases st) as (f & [-> | ->]); cbn.
  2: { split_and!; [by apply inv_set_faults|by apply advances_same|]. by intros ? [=]. }
  split_and!.
  - apply (inv_insert_head (set_faults f st) h r bytes); try done. by apply inv_set_faults.
  - split; cbn; [done|done|..].
    + intros p h0 Hp. destruct (decide (prefix (head_stream h) = p)) as [<-|Hne].
      * rewrite HS in Hp. destruct (Hold _ Hp) as [E Hr]. exists h.
        rewrite lookup_insert_eq. split_and!; [done|done|]. intros r0 Hr0.
        specialize (Hr r0 Hr0). exists r. split_and!; [done|lia|lia].
      * exists h0. rewrite lookup_insert_ne by done. split_and!; try done.
        intros r0 Hr0. exists r0. split_and!; [done|lia|done].
    + intros s p h' Hs Hp <-. destruct (decide (prefix (head_stream h) = p)) as [<-|Hne].
      * rewrite lookup_insert_eq in Hp. injection Hp as <-. exfalso.
        unfold session_head in Hs. cbn in Hs. rewrite HT in Hs.
        destruct (T !! _) as [h0|] eqn:E; [|done]. cbn in Hs. by rewrite Hunsealed in Hs.
      * by rewrite lookup_insert_ne in Hp.
  - intros ? _. split; cbn; by rewrite ?HS, ?HT.
Qed.

(** The head of a stream names an acknowledged snapshot of these bytes. *)
Definition head_is (s : ReplicaStream) (r : SnapshotRef) (st : StoreState) : Prop :=
  streams st !! prefix s = Some {| head_stream := s; latest := Some r |}.

Lemma head_spec s st h : head s st = Ok h ->
  head_stream h = s /\
  (streams st !! prefix s = Some h \/ streams st !! prefix s = None /\ latest h = None).
Proof.
  unfold head. intros E. destruct (streams st !! prefix s) eqn:Es; res_inv; bools; eauto.
Qed.

Lemma triple_append_write S T s h r bytes :
  Pfx (prefix s) -> head_stream h = s -> stream_snapshot s bytes = Ok r ->
  (forall h0, T !! rs_session s = Some h0 -> sealed h0 = false) ->
  (S !! prefix s = Some h /\ (forall r0, latest h = Some r0 -> ref_state_version r0 < ref_state_version r)
   \/ S !! prefix s = None) ->
  triple (frame S T)
    (put {| md_object := object r; md_size := len bytes |} bytes;;
     save_head (with_latest h r);; prune_stream (with_latest h r))
    (fun _ st => head_is s r st).
Proof.
  intros HP <- Hsn Hun Hold. eapply triple_bind; [apply triple_put|]. intros ?.
  eapply triple_bind.
  { apply (triple_save_head S T (with_latest h r) r bytes); try done.
    intros h0 Hh0. cbn in Hh0. destruct Hold as [[E Hr]|E]; [|congruence].
    rewrite E in Hh0. injection Hh0 as <-. done. }
  intros ?. eapply triple_weaken; [apply triple_prune|done|].
  - apply lookup_insert_eq.
  - intros ? st [HS _]. unfold head_is. rewrite HS. apply lookup_insert_eq.
Qed.

Lemma triple_append s bytes :
  Pfx (prefix s) ->
  triple (fun _ => True) (append s bytes)
    (fun _ st => exists r, stream_snapshot s bytes = Ok r /\ head_is s r st).
Proof.
  intros HP. unfold append. apply triple_get_then. intros st0 Hi _.
  apply triple_lift_then. intros h Hh. apply head_spec in Hh as [Hst Hcur].
  apply triple_lift_then. intros ? Eses. apply ensure_ok, andb_true_iff in Eses as [_ Eses].
  apply negb_true_iff in Eses. apply triple_lift_then. intros r Hr.
  assert (Hun : forall h0, sessions st0 !! rs_session s = Some h0 -> sealed h0 = false).
  { intros h0 E0. unfold session_head in Eses. by rewrite E0 in Eses. }
  assert (Hwrite : (forall r0, latest h = Some r0 -> ref_state_version r0 < ref_state_version r) ->
    triple (fun st => st = st0)
      (put {| md_object := object r; md_size := len bytes |} bytes;;
       save_head (with_latest h r);; prune_stream (with_latest h r))
      (fun _ st => exists r, stream_snapshot s bytes = Ok r /\ head_is s r st)).
  { intros Hlt. eapply triple_weaken;
      [apply (triple_append_write (streams st0) (sessions st0) s h r bytes)|by intros ? ->|eauto];
      try done. destruct Hcur as [E|[E _]]; [by left|by right]. }
  cbn zeta. destruct (latest h) as [r0|] eqn:Hl; [|by apply Hwrite].
  apply triple_lift_then. intros ? Ele. apply ensure_ok, Z.leb_le in Ele.
  destruct (ref_state_version r =? ref_state_version r0) eqn:Eq; bools.
  2: { apply Hwrite. intros ? [= <-]. lia. }
  apply triple_lift_then. intros ? Esame. apply ensure_ok in Esame. bools. subst r0.
  assert (Hcur' : streams st0 !! prefix s = Some h) by (destruct Hcur as [?|[_ ?]]; congruence).
  eapply triple_pre with (P := frame (streams st0) (sessions st0)); [|by intros ? ->].
  eapply triple_bind; [apply triple_sync, frame_fault_blind|]. intros ?.
  eapply triple_weaken; [apply triple_prune; by rewrite Hst|done|].
  intros ? st [HS _]. exists r. split; [done|]. unfold head_is. rewrite HS, Hcur'.
  destruct h. cbn in *. congruence.
Qed.

Lemma session_head_name s st : inv st -> head_session (session_head s st) = s.
Proof.
  intros Hi. unfold session_head. destruct (sessions st !! s) eqn:E; [|done].
  by destruct (inv_sessions st Hi _ _ E).
Qed.

Lemma triple_initialize s :
  triple (fun _ => True) (initialize_session s)
    (fun _ st => initialized (session_head s st) = true /\ sealed (session_head s st) = false).
Proof.
  unfold initialize_session. apply triple_get_then. intros st0 Hi _.
  pose proof (session_head_name s st0 Hi) as Hn.
  apply triple_lift_then. intros ? Eses. apply ensure_ok, negb_true_iff in Eses.
  eapply triple_weaken; [apply (triple_save_session (streams st0) (sessions st0))|by intros ? ->|].
  - cbn. intros ? ->. rewrite Hn. split; [done|]. exact id.
  - cbn. intros ? st [_ HT]. rewrite Hn in HT. unfold session_head at 1 2.
    by rewrite HT, lookup_insert_eq.
Qed.

(** The streams of a session, in prefix order. *)
Definition session_streams (s : string) (st : StoreState) : list StreamHead :=
  merge_sort string_leb
    (filter (fun sh => rs_session (head_stream sh) = s) (map_to_list (streams st)).*2).

Lemma triple_seal s :
  triple (fun _ => True) (seal_session s)
    (fun h st => sealed (session_head s st) = true /\ head_session h = s /\ sealed h = true /\
       Snapshots.streams h = session_streams s st /\
       initialized h = initialized (session_head s st)).
Proof.
  unfold seal_session. apply triple_get_then. intros st0 Hi _.
  pose proof (session_head_name s st0 Hi) as Hn. cbn zeta.
  eapply triple_bind.
  { eapply triple_pre; [apply (triple_save_session (streams st0) (sessions st0))|by intros ? ->].
    cbn. intros ? ->. rewrite Hn. split; [exact id|done]. }
  intros ?. apply triple_get_then. intros st1 Hi1 [HS HT]. cbn in HT. rewrite Hn in HT.
  eapply triple_weaken; [apply (triple_ret (fun st => st = st1))|done|].
  intros h st [-> ->]. cbn. unfold session_head at 1 4. rewrite HT, lookup_insert_eq. done.
Qed.

Lemma triple_read o :
  triple (fun _ => True) (read o)
    (fun b st => match b with
                 | Some bytes => blob_at st o bytes
                 | None => snapshots st !! o = None
                 end).
Proof.
  unfold read. apply triple_get_then. intros st0 Hi _.
  destruct (snapshots st0 !! o) as [md|] eqn:Ho.
  - destruct (inv_blobs st0 Hi _ _ Ho) as (bytes & HB). pose proof HB as [Hmd _].
    rewrite Ho in Hmd. injection Hmd as ->. cbn [md_size]. eapply triple_bind.
    { eapply triple_pre; [apply (triple_read_blob (streams st0) (sessions st0) o bytes)|by intros ? ->]. }
    intros b. eapply triple_weaken;
      [apply (triple_ret (fun st => b = bytes /\ blob_at st o bytes))|by intros ? (? & _ & ?)|].
    by intros ? st (-> & -> & ?).
  - eapply triple_weaken; [apply (triple_ret (fun st => st = st0))|done|]. by intros ? st [-> ->].
Qed.

Lemma triple_stream_head s :
  triple (fun _ => True) (stream_head s) (fun h st => head s st = Ok h).
Proof.
  unfold stream_head. apply triple_get_then. intros st0 Hi _.
  apply triple_lift_then. intros ? _.
  eapply triple_weaken; [apply (triple_lift (fun st => st = st0))|done|]. by intros ? ? [? ->].
Qed.
End invariant.
