(* ===== verification/Samples.v ===== *)
(** A concrete serializer for the examples: a value is printed field by
    field as self-delimiting text, and read back by a parser that returns the
    rest of the input.  Shows that the laws assumed of [serde_json]
    ([JsonLaws], [JsonObjectLaw], [JsonLineLaws]) hold together, and lets the
    definitions be evaluated on closed inputs. *)

From stdpp Require Import countable.
From S2P Require Import Prelude.
From S2P Require Import Actors.
From S2P Require Import StoragePaths.
From S2P Require Import Snapshots.
From S2P Require Import ReplicaStore.
Local Open Scope string_scope.
Local Open Scope Z_scope.

(** * JSON values as trees *)
Fixpoint value_tree (v : Value) : gen_tree (bool + string) :=
  match v with
  | Null => GenNode 0 []
  | Bool b => GenNode 1 [GenLeaf (inl b)]
  | Number s => GenNode 2 [GenLeaf (inr s)]
  | Str s => GenNode 3 [GenLeaf (inr s)]
  | Array l => GenNode 4 (map value_tree l)
  | Object l => GenNode 5 (map (fun kv => GenNode 6 [GenLeaf (inr kv.1); value_tree kv.2]) l)
  end.

Fixpoint tree_value (t : gen_tree (bool + string)) : Value :=
  match t with
  | GenNode 1 [GenLeaf (inl b)] => Bool b
  | GenNode 2 [GenLeaf (inr s)] => Number s
  | GenNode 3 [GenLeaf (inr s)] => Str s
  | GenNode 4 l => Array (map tree_value l)
  | GenNode 5 l =>
      Object (map (fun t => match t with
                            | GenNode 6 [GenLeaf (inr k); v] => (k, tree_value v)
                            | _ => ("", Null)
                            end) l)
  | _ => Null
  end.

#[global] Instance Value_countable : Countable Value.
Proof.
  refine (inj_countable' value_tree tree_value _).
  intros v. induction v as [|b|s|s|l IH|l IH] using Value_nested_ind; try done; cbn.
  - f_equal. induction IH as [|x l Hx Hl IHl]; [done|]. cbn. by rewrite Hx, IHl.
  - f_equal. induction IH as [|[k x] l Hx Hl IHl]; [done|]. cbn in *. by rewrite Hx, IHl.
Defined.


(** * Self-delimiting text *)
Class Text (A : Type) := {
  put_text : A -> string -> string;
  get_text : string -> option (A * string);
  text_roundtrip : forall a s, get_text (put_text a s) = Some (a, s);
  text_printable : forall a s,
    all_bytes printable s = true -> all_bytes printable (put_text a s) = true;
  text_app : forall a s t, put_text a s +:+ t = put_text a (s +:+ t) }.

Fixpoint put_bits (p : positive) (s : string) : string :=
  match p with
  | xH => String "." s
  | xO p' => String "0" (put_bits p' s)
  | xI p' => String "1" (put_bits p' s)
  end.
Fixpoint get_bits (s : string) : option (positive * string) :=
  match s with
  | String "." s' => Some (xH, s')
  | String "0" s' => '(p, t) ← get_bits s'; Some (xO p, t)
  | String "1" s' => '(p, t) ← get_bits s'; Some (xI p, t)
  | _ => None
  end.

#[global] Program Instance positive_text : Text positive :=
  {| put_text := put_bits; get_text := get_bits |}.
Next Obligation. induction a as [p IH|p IH|]; intros s; cbn; rewrite ?IH; done. Qed.
Next Obligation.
  induction a as [p IH|p IH|]; intros s Hs; cbn [put_bits all_bytes]; by rewrite ?IH, ?Hs.
Qed.
Next Obligation. induction a as [p IH|p IH|]; intros s t; cbn; by rewrite ?IH. Qed.

(** A type that embeds in one with a textual form *)
Program Definition via {A B} `{Text B} (f : A -> B) (g : B -> option A)
  (Hfg : forall a, g (f a) = Some a) : Text A :=
  {| put_text a s := put_text (f a) s;
     get_text s := '(b, t) ← get_text s; a ← g b; Some (a, t) |}.
Next Obligation. intros A B HB f g Hfg a s. cbn. rewrite text_roundtrip. cbn. by rewrite Hfg. Qed.
Next Obligation. intros A B HB f g Hfg a s Hs. by apply text_printable. Qed.
Next Obligation. intros A B HB f g Hfg a s t. apply text_app. Qed.

#[global] Program Instance pair_text `{Text A, Text B} : Text (A * B) :=
  {| put_text ab s := put_text ab.1 (put_text ab.2 s);
     get_text s := '(a, t) ← get_text s; '(b, u) ← get_text t; Some ((a, b), u) |}.
Next Obligation. intros A HA B HB [a b] s. cbn. rewrite text_roundtrip. cbn. by rewrite text_roundtrip. Qed.
Next Obligation. intros A HA B HB [a b] s Hs. by repeat apply text_printable. Qed.
Next Obligation. intros A HA B HB [a b] s t. cbn. by rewrite !text_app. Qed.

Definition code_text `{Countable A} : Text A := via countable.encode countable.decode decode_encode.
#[global] Instance bool_text : Text bool := code_text.
#[global] Instance Z_text : Text Z := code_text.
#[global] Instance Value_text : Text Value := code_text.

Fixpoint get_many {A} (get : string -> option (A * string)) (n : nat) (s : string)
  : option (list A * string) :=
  match n with
  | O => Some ([], s)
  | S n' => '(a, t) ← get s; '(l, u) ← get_many get n' t; Some (a :: l, u)
  end.
#[global] Program Instance list_text `{Text A} : Text (list A) :=
  {| put_text l s := put_text (Z.of_nat (length l)) (foldr put_text s l);
     get_text s := '(n, t) ← get_text s; get_many get_text (Z.to_nat n) t |}.
Next Obligation.
  intros A HA l s. cbn beta. rewrite text_roundtrip. cbn [mbind option_bind]. rewrite Nat2Z.id.
  induction l as [|a l IH]; [done|]. cbn. rewrite text_roundtrip. cbn. by rewrite IH.
Qed.
Next Obligation.
  intros A HA l s Hs. apply text_printable. induction l as [|a l IH]; [done|].
  by apply text_printable.
Qed.
Next Obligation.
  intros A HA l s t. cbn beta. rewrite text_app. f_equal. induction l as [|a l IH]; [done|].
  cbn. by rewrite text_app, IH.
Qed.

#[global] Instance option_text `{Text A} : Text (option A) :=
  via (fun o => match o with Some a => [a] | None => [] end)
      (fun l => Some (List.hd_error l)) (fun o => match o with Some a => eq_refl | None => eq_refl end).

(** Strings: a length, then the bytes in hexadecimal *)
Fixpoint to_hex (s t : string) : string :=
  match s with
  | EmptyString => t
  | String c s' =>
      String (digit_char (byte c / 16)) (String (digit_char (byte c mod 16)) (to_hex s' t))
  end.
Fixpoint of_hex (n : nat) (s : string) : option (string * string) :=
  match n, s with
  | O, _ => Some ("", s)
  | S n', String a (String b s') =>
      x ← to_digit 16 a; y ← to_digit 16 b; '(t, u) ← of_hex n' s';
      Some (String (ascii_of_nat (Z.to_nat (16 * x + y))) t, u)
  | _, _ => None
  end.

Lemma byte_range c : 0 <= byte c < 256.
Proof. unfold byte. pose proof (nat_ascii_bounded c). lia. Qed.

Lemma of_to_hex s t : of_hex (String.length s) (to_hex s t) = Some (s, t).
Proof.
  induction s as [|c s IH]; [done|]. cbn [String.length to_hex of_hex].
  pose proof (byte_range c).
  pose proof (Z.div_mod (byte c) 16). pose proof (Z.mod_pos_bound (byte c) 16).
  assert (0 <= byte c / 16 < 16).
  { split; [apply Z.div_pos; lia|apply Z.div_lt_upper_bound; lia]. }
  rewrite !to_digit_char by lia. cbn [mbind option_bind]. rewrite IH. cbn [mbind option_bind].
  replace (16 * (byte c / 16) + byte c mod 16) with (byte c) by lia.
  unfold byte. by rewrite Nat2Z.id, ascii_nat_embedding.
Qed.

#[global] Program Instance string_text : Text string :=
  {| put_text s t := put_text (Z.of_nat (String.length s)) (to_hex s t);
     get_text t := '(n, u) ← get_text t; of_hex (Z.to_nat n) u |}.
Next Obligation.
  intros s t. cbn beta. rewrite text_roundtrip. cbn [mbind option_bind].
  by rewrite Nat2Z.id, of_to_hex.
Qed.
Next Obligation.
  intros s t Ht. apply text_printable. induction s as [|c s IH]; [done|].
  cbn [to_hex all_bytes]. rewrite IH.
  pose proof (byte_range c). pose proof (Z.mod_pos_bound (byte c) 16).
  assert (0 <= byte c / 16 < 16).
  { split; [apply Z.div_pos; lia|apply Z.div_lt_upper_bound; lia]. }
  unfold printable, between. rewrite !byte_digit_char by lia.
  destruct (_ <? 10) eqn:E1, (byte c mod 16 <? 10) eqn:E2; bools; lia.
Qed.
Next Obligation.
  intros s t u. cbn beta. rewrite text_app. f_equal. induction s as [|c s IH]; [done|].
  cbn. by rewrite IH.
Qed.

(** * The records *)
#[global] Instance StateAttribution_text : Text StateAttribution.
Proof.
  refine (via
    (fun a => (at_operation a, (at_connection_id a, (at_committed_at_ms a, at_interleaved a))))
    (fun '(a, (b, (c, d))) => Some (Build_StateAttribution a b c d)) _). by intros [].
Defined.
#[global] Instance StateSnapshot_text : Text StateSnapshot.
Proof.
  refine (via
    (fun s => (attribution s, (state_version s, (owner_epoch s, (snap_request_id s,
               (state s, result s))))))
    (fun '(a, (b, (c, (d, (e, f))))) => Some (Build_StateSnapshot a b c d e f)) _). by intros [].
Defined.
#[global] Instance ReplicaStream_text : Text ReplicaStream.
Proof.
  refine (via (fun s => (rs_session s, (prefix s, (rs_owner_epoch s, base_version s))))
    (fun '(a, (b, (c, d))) => Some (Build_ReplicaStream a b c d)) _). by intros [].
Defined.
#[global] Instance SnapshotRef_text : Text SnapshotRef.
Proof.
  refine (via (fun r => (object r, (ref_state_version r, (ref_request_id r, digest r))))
    (fun '(a, (b, (c, d))) => Some (Build_SnapshotRef a b c d)) _). by intros [].
Defined.
#[global] Instance StreamHead_text : Text StreamHead.
Proof.
  refine (via (fun h => (head_stream h, latest h))
    (fun '(a, b) => Some (Build_StreamHead a b)) _). by intros [].
Defined.
#[global] Instance SessionHead_text : Text SessionHead.
Proof.
  refine (via
    (fun h => (head_session h, (initialized h, (sealed h, Snapshots.streams h))))
    (fun '(a, (b, (c, d))) => Some (Build_SessionHead a b c d)) _). by intros [].
Defined.
#[global] Instance Metadata_text : Text Metadata.
Proof.
  refine (via (fun m => (md_object m, md_size m)) (fun '(a, b) => Some (Build_Metadata a b)) _).
  by intros [].
Defined.

(** * The serializer *)
Section codes.
Context `{Text A}.

#[global] Instance text_json : Json A := {|
  to_vec a := String "{" (put_text a "");
  from_slice s :=
    with_context (t ← strip_prefix "{" s; '(a, u) ← get_text t;
                  if String.eqb u "" || String.eqb u newline then Some a else None)
      "invalid text" |}.

Lemma text_json_app (a : A) t : t = "" \/ t = newline -> from_slice (to_vec a +:+ t) = Ok a.
Proof.
  intros Ht. cbn [to_vec from_slice text_json]. rewrite sapp_cons, text_app. cbn.
  rewrite text_roundtrip. cbn. by destruct Ht as [-> | ->].
Qed.

#[global] Instance text_json_laws : JsonLaws A.
Proof. intros a. rewrite <-(sapp_nil_r (to_vec a)). apply text_json_app. by left. Qed.

Lemma json_printable (a : A) : all_bytes printable (to_vec a) = true.
Proof. cbn [to_vec text_json all_bytes]. by rewrite text_printable. Qed.

Lemma utf8_line f s : all_bytes printable s = true -> utf8_from f (s +:+ newline) = true.
Proof.
  revert f. induction s as [|c s IH]; intros f Hs.
  - destruct f as [|[|f]]; done.
  - destruct f as [|f]; [done|]. rewrite sapp_cons. cbn in *. bools.
    unfold printable, between in *. bools. destruct (byte c <? 128) eqn:E; bools; [auto|lia].
Qed.

#[global] Instance text_line_laws : JsonLineLaws A.
Proof.
  split.
  - intros a. apply (contains_char_class _ printable); [done|apply json_printable].
  - intros a. unfold from_utf8. by rewrite utf8_line by apply json_printable.
  - intros a. apply text_json_app. by right.
Qed.
End codes.

#[global] Instance text_object_law : JsonObjectLaw.
Proof. intros fields. done. Qed.
