(* ===== verification/ReplicaDurability.v ===== *)
(** What a replica promises its clients: theorems about every sequence of
    requests served by the store of [ReplicaStore], under every pattern of
    I/O errors, and about reopening its directory. *)

From S2P Require Import Prelude.
From S2P Require Import Actors.
From S2P Require Import StoragePaths.
From S2P Require Import Snapshots.
From S2P Require Import ReplicaStore.
From S2P Require Import Samples.
Local Open Scope string_scope.
Local Open Scope Z_scope.
Local Set Warnings "-clear-no-such-hyp".

(** One request to the store; the reply is dropped, the effects are kept. *)
Inductive Op :=
| OpInitialize (s : string)
| OpAppend (s : ReplicaStream) (bytes : string)
| OpStreamHead (s : ReplicaStream)
| OpSeal (s : string)
| OpPut (o : string) (bytes : string)
| OpRead (o : string).

Section durability.
Context `{Base64Url, Sha256, Json StateSnapshot, Json Metadata, Json StreamHead, Json SessionHead,
          !Base64UrlLaws, !Sha256Laws, !JsonLineLaws Metadata,
          !JsonLaws StreamHead, !JsonLaws SessionHead}.

Definition run_op (op : Op) (st : StoreState) : StoreState :=
  match op with
  | OpInitialize s => (initialize_session s st).2
  | OpAppend s bytes => (append s bytes st).2
  | OpStreamHead s => (stream_head s st).2
  | OpSeal s => (seal_session s st).2
  | OpPut o bytes => (put_object o bytes st).2
  | OpRead o => (read o st).2
  end.

Fixpoint run_ops (ops : list Op) (st : StoreState) : StoreState :=
  match ops with [] => st | op :: rest => run_ops rest (run_op op st) end.

Context (Pfx : string -> Prop).
Hypothesis prefix_free :
  forall p q, Pfx p -> Pfx q -> starts_with p q = true -> p = q.

Definition op_ok (op : Op) : Prop :=
  match op with OpAppend s _ => Pfx (prefix s) | _ => True end.

Lemma run_op_spec op st :
  op_ok op -> inv Pfx st -> inv Pfx (run_op op st) /\ advances st (run_op op st).
Proof.
  intros Hop Hi.
  assert (Ht : forall A (m : Store A) P Q, triple Pfx P m Q -> P st ->
            inv Pfx (m st).2 /\ advances st (m st).2).
  { intros A m P Q Hm HP. destruct (Hm st Hi HP) as (? & ? & _). done. }
  destruct op; cbn [run_op op_ok] in *.
  - by eapply Ht; [apply triple_initialize|].
  - by eapply Ht; [apply triple_append|].
  - by eapply Ht; [apply triple_stream_head|].
  - by eapply Ht; [apply triple_seal|].
  - by eapply Ht; [apply (triple_put Pfx (streams st) (sessions st))|].
  - by eapply Ht; [apply triple_read|].
Qed.

Lemma run_ops_spec ops st :
  Forall op_ok ops -> inv Pfx st -> inv Pfx (run_ops ops st) /\ advances st (run_ops ops st).
Proof.
  intros Hops. revert st. induction Hops as [|op ops Hop Hops IH]; intros st Hi; cbn [run_ops].
  - split; [done|reflexivity].
  - destruct (run_op_spec op st Hop Hi) as [Hi1 Ha1]. destruct (IH _ Hi1) as [Hi2 Ha2].
    split; [done|by etrans].
Qed.

(** The empty store satisfies the invariant. *)
Lemma inv_empty cap f : 0 <= cap ->
  inv Pfx {| directory := ∅; capacity := cap; used := 0; snapshots := ∅; streams := ∅;
             sessions := ∅; faults := f |}.
Proof. intros Hc. split; cbn; try done; intros *; by rewrite lookup_empty. Qed.

Lemma checksum_inj a b : checksum a = checksum b -> a = b.
Proof. unfold checksum. intros E%b64_inj. by apply sha256_collision_free. Qed.

Lemma io_free st : faults st = [] -> io st = (Ok (), st).
Proof. intros E. unfold io. by rewrite E. Qed.

Lemma read_free st o bytes :
  faults st = [] -> blob_at st o bytes -> read o st = (Ok (Some bytes), st).
Proof.
  intros Hf [Hs Hd]. unfold read, read_blob, mbind, Store_bind. cbn. rewrite Hs. cbn.
  rewrite io_free by done. cbn. rewrite Hd, read_line_blob, Z.eqb_refl. done.
Qed.

(** * Without I/O errors *)
Lemma remove_blobs_free objects : forall st,
  faults st = [] -> NoDup objects ->
  (forall o, o ∈ objects -> is_Some (directory st !! path o)) ->
  exists st', remove_blobs objects st = (Ok (), st') /\ faults st' = [].
Proof.
  induction objects as [|o objects IH]; intros st Hf Hnd Hd; [by exists st|].
  apply NoDup_cons in Hnd as [Hno Hnd]. destruct (Hd o) as [c Hc]; [set_solver|].
  cbn [remove_blobs]. unfold remove_file, mbind, Store_bind. rewrite io_free by done.
  cbn. rewrite Hc. cbn. apply IH; [done|done|]. intros o' Ho'. cbn.
  rewrite lookup_delete_ne; [apply Hd; set_solver|]. intros E%path_inj. set_solver.
Qed.

Lemma prune_free h st :
  inv Pfx st -> faults st = [] ->
  exists st', prune_stream h st = (Ok (), st') /\ faults st' = [].
Proof.
  intros Hi Hf. unfold prune_stream. destruct (latest h) as [r|]; [|by exists st].
  unfold mbind, Store_bind. cbn [get_state].
  destruct (remove_blobs_free (obsolete h r st) st Hf (obsolete_nodup h r st)) as (st' & E & Hf').
  { intros o (_ & _ & [md Hmd])%obsolete_spec.
    destruct (inv_blobs _ _ Hi _ _ Hmd) as (bytes & _ & Hd). by eexists. }
  destruct (obsolete h r st); [by exists st|]. rewrite E. exists st'.
  unfold sync_directory. by rewrite io_free.
Qed.

Lemma put_free st o bytes :
  inv Pfx st -> faults st = [] -> snapshots st !! o = None ->
  used st + len bytes <= capacity st -> capacity st <= U64_MAX ->
  exists st', put {| md_object := o; md_size := len bytes |} bytes st = (Ok (), st') /\ faults st' = [].
Proof.
  intros Hi Hf Ho Hcap Hmax. unfold put, mbind, Store_bind. cbn. rewrite Ho. cbn.
  unfold checked_add. rewrite (proj2 (Z.leb_le _ U64_MAX)) by lia. cbn.
  rewrite (proj2 (Z.leb_le _ (capacity st))) by done. cbn.
  unfold persist_noclobber, mbind, Store_bind. rewrite io_free by done. cbn.
  rewrite io_free by done. cbn. rewrite (path_absent _ _ _ Hi Ho). cbn.
  eexists. unfold sync_directory. by rewrite io_free.
Qed.

Lemma save_head_free st h : faults st = [] ->
  exists st', save_head h st = (Ok (), st') /\ faults st' = [].
Proof.
  intros Hf. unfold save_head, persist, mbind, Store_bind.
  rewrite io_free by done. rewrite io_free by done. cbn.
  eexists. unfold sync_directory. by rewrite io_free.
Qed.

(** * Reopening a directory *)
Definition pending (name : string) : Prop := starts_with ".pending-" name = true.

(** The state of [restore] after the names in [D]: what it has read back of
    the store [st0] whose directory it opens. *)
Record restored (st0 : StoreState) (D : gset string) (st : StoreState) : Prop := {
  re_faults : faults st = [];
  re_capacity : capacity st = capacity st0;
  re_directory : forall n, directory st !! n =
    if decide (n ∈ D /\ pending n) then None else directory st0 !! n;
  re_snapshots : forall o, ReplicaStore.snapshots st !! o =
    if decide (path o ∈ D) then ReplicaStore.snapshots st0 !! o else None;
  re_streams : forall p, streams st !! p =
    if decide (stream_path p ∈ D) then streams st0 !! p else None;
  re_sessions : forall s, sessions st !! s =
    if decide (session_path s ∈ D) then sessions st0 !! s else None;
  re_used : used st = total_size (ReplicaStore.snapshots st) }.

Lemma total_size_mono m1 m2 :
  (forall o md, m2 !! o = Some md -> 0 <= md_size md) -> m1 ⊆ m2 -> total_size m1 <= total_size m2.
Proof.
  revert m2. induction m1 as [|o md m1 Ho IH] using map_ind; intros m2 Hpos Hsub.
  - unfold total_size at 1. rewrite map_fold_empty. clear Hsub.
    induction m2 as [|o md m2 Ho IH] using map_ind; [done|].
    rewrite total_size_insert by done. assert (0 <= md_size md).
    { apply (Hpos o). apply lookup_insert_eq. }
    enough (0 <= total_size m2) by lia. apply IH. intros o' md' Ho'. apply (Hpos o').
    rewrite lookup_insert_ne; [done|congruence].
  - assert (Hm2 : m2 !! o = Some md).
    { eapply lookup_weaken; [apply lookup_insert_eq|done]. }
    rewrite total_size_insert by done.
    rewrite <-(insert_delete_id m2 o md Hm2), total_size_insert by apply lookup_delete_eq.
    enough (total_size m1 <= total_size (delete o m2)) by lia. apply IH.
    + intros o' md' [_ Ho']%lookup_delete_Some. by eapply Hpos.
    + apply map_subseteq_spec. intros o' md' Ho'.
      assert (o' <> o) by congruence. rewrite lookup_delete_ne by done.
      eapply lookup_weaken; [|done]. by rewrite lookup_insert_ne.
Qed.

Lemma decide_union_ne {A} (n m : string) (D : gset string) (x y : A) :
  m <> n -> (if decide (m ∈ D ∪ {[n]}) then x else y) = if decide (m ∈ D) then x else y.
Proof. intros Hne. repeat case_decide; set_solver. Qed.

Lemma decide_union_eq {A} (n : string) (D : gset string) (x y : A) :
  (if decide (n ∈ D ∪ {[n]}) then x else y) = x.
Proof. case_decide; set_solver. Qed.

Lemma decide_not_pending {A} (n m : string) (D : gset string) (x y : A) :
  starts_with ".pending-" n = false ->
  (if decide (m ∈ D ∪ {[n]} /\ pending m) then x else y) =
  if decide (m ∈ D /\ pending m) then x else y.
Proof.
  intros Hn. destruct (decide (m = n)) as [->|Hne].
  - rewrite !decide_False; [done|..]; unfold pending; intros [_ E]; congruence.
  - destruct (decide (m ∈ D /\ pending m)) as [[? ?]|Hno].
    + rewrite decide_True; [done|]. split; [set_solver|done].
    + rewrite decide_False; [done|]. intros [? ?]. apply Hno. split; [set_solver|done].
Qed.

Ltac other_kind := rewrite ?decide_union_ne;
  auto using path_ne_stream, path_ne_session, stream_ne_session, not_eq_sym.

Lemma restore_entry_blob st0 D st o :
  inv Pfx st0 -> capacity st0 <= U64_MAX -> restored st0 D st -> path o ∉ D ->
  is_Some (ReplicaStore.snapshots st0 !! o) ->
  exists st', restore_entry (path o) st = (Ok (), st') /\ restored st0 (D ∪ {[path o]}) st'.
Proof.
  intros Hi Hmax [Rf Rc Rd Rs Rst Rse Ru] Hn [md Hmd].
  destruct (inv_blobs _ _ Hi _ _ Hmd) as (bytes & Hb & Hd). rewrite Hmd in Hb. injection Hb as ->.
  assert (Hpos : forall o' md', ReplicaStore.snapshots st0 !! o' = Some md' -> 0 <= md_size md').
  { intros o' md' Ho'. destruct (inv_blobs _ _ Hi _ _ Ho') as (b & Hb & _).
    rewrite Ho' in Hb. injection Hb as ->. cbn. unfold len. lia. }
  assert (Hnone : ReplicaStore.snapshots st !! o = None).
  { rewrite Rs. by case_decide. }
  assert (Htot : used st + len bytes <= U64_MAX).
  { pose proof (inv_used _ _ Hi) as Hu0. pose proof (inv_capacity _ _ Hi).
    assert (total_size (<[o := {| md_object := o; md_size := len bytes |}]> (ReplicaStore.snapshots st))
            <= total_size (ReplicaStore.snapshots st0)).
    { apply total_size_mono; [done|]. apply map_subseteq_spec. intros o' md' Ho'.
      apply lookup_insert_Some in Ho' as [[<- <-]|[_ Ho']]; [done|].
      rewrite Rs in Ho'. by case_decide. }
    rewrite total_size_insert in * by done. cbn in *. lia. }
  assert (Hp : starts_with ".pending-" (path o) = false) by apply stem_not_pending.
  unfold restore_entry. rewrite Hp. unfold mbind, Store_bind. rewrite io_free by done.
  cbn [get_state].
  rewrite Rd. rewrite decide_False by (unfold pending; intros [? E]; congruence).
  rewrite Hd. rewrite path_extension. cbn [bool_decide decide_rel].
  rewrite !bool_decide_eq_false_2, bool_decide_eq_true_2 by done.
  rewrite read_line_blob. unfold lift.
  rewrite json_utf8, json_trailing_newline. unfold ends_with_newline.
  rewrite strip_suffix_app. cbn [md_object]. rewrite String.eqb_refl. cbn [ensure andb].
  unfold blob_text. rewrite sapp_assoc, (len_app (_ +:+ newline)), Z.eqb_refl. cbn [ensure md_size].
  unfold checked_add. rewrite (proj2 (Z.leb_le _ _)) by done. cbn [with_context].
  eexists. split; [done|]. split; cbn; try done.
  - intros n. rewrite Rd. by rewrite decide_not_pending.
  - intros o'. destruct (decide (o' = o)) as [->|Hne].
    + by rewrite decide_union_eq, lookup_insert_eq.
    + rewrite lookup_insert_ne by done. rewrite decide_union_ne; [done|]. by intros E%path_inj.
  - intros p. rewrite Rst. by other_kind.
  - intros p. rewrite Rse. by other_kind.
  - rewrite total_size_insert by done. cbn. lia.
Qed.

Lemma restore_entry_stream st0 D st p :
  inv Pfx st0 -> restored st0 D st -> stream_path p ∉ D -> is_Some (streams st0 !! p) ->
  exists st', restore_entry (stream_path p) st = (Ok (), st') /\ restored st0 (D ∪ {[stream_path p]}) st'.
Proof.
  intros Hi [Rf Rc Rd Rs Rst Rse Ru] Hn [h Hh].
  destruct (inv_streams _ _ Hi _ _ Hh) as (Ep & _ & Hd).
  assert (Hp : starts_with ".pending-" (stream_path p) = false)
    by (unfold stream_path; rewrite derived_name; apply stem_not_pending).
  unfold restore_entry. rewrite Hp. unfold mbind, Store_bind. rewrite io_free by done.
  cbn [get_state].
  rewrite Rd. rewrite decide_False by (unfold pending; intros [? E]; congruence).
  rewrite Hd, stream_path_extension.
  rewrite bool_decide_eq_false_2, bool_decide_eq_true_2 by done. unfold lift.
  rewrite json_roundtrip, Ep, String.eqb_refl. cbn [ensure]. eexists. split; [done|].
  split; cbn; try done.
  - intros n. rewrite Rd. by rewrite decide_not_pending.
  - intros o. rewrite Rs. by other_kind.
  - intros p'. destruct (decide (p' = p)) as [->|Hne].
    + rewrite decide_union_eq, lookup_insert_eq; done.
    + rewrite lookup_insert_ne by done. rewrite decide_union_ne; [done|]. by intros E%stream_path_inj.
  - intros q. rewrite Rse. by other_kind.
Qed.

Lemma restore_entry_session st0 D st s :
  inv Pfx st0 -> restored st0 D st -> session_path s ∉ D -> is_Some (sessions st0 !! s) ->
  exists st', restore_entry (session_path s) st = (Ok (), st') /\
    restored st0 (D ∪ {[session_path s]}) st'.
Proof.
  intros Hi [Rf Rc Rd Rs Rst Rse Ru] Hn [h Hh].
  destruct (inv_sessions _ _ Hi _ _ Hh) as (Ep & Hd).
  assert (Hp : starts_with ".pending-" (session_path s) = false)
    by (unfold session_path; rewrite derived_name; apply stem_not_pending).
  unfold restore_entry. rewrite Hp. unfold mbind, Store_bind. rewrite io_free by done.
  cbn [get_state].
  rewrite Rd. rewrite decide_False by (unfold pending; intros [? E]; congruence).
  rewrite Hd, session_path_extension.
  rewrite bool_decide_eq_true_2 by done. unfold lift.
  rewrite json_roundtrip, Ep, String.eqb_refl. cbn [ensure]. eexists. split; [done|].
  split; cbn; try done.
  - intros n. rewrite Rd. by rewrite decide_not_pending.
  - intros o. rewrite Rs. by other_kind.
  - intros p. rewrite Rst. by other_kind.
  - intros s'. destruct (decide (s' = s)) as [->|Hne].
    + rewrite decide_union_eq, lookup_insert_eq; done.
    + rewrite lookup_insert_ne by done. rewrite decide_union_ne; [done|]. by intros E%session_path_inj.
Qed.

Lemma restore_entry_ignored st0 D st name :
  restored st0 D st -> ignored name -> is_Some (directory st0 !! name) -> name ∉ D ->
  (forall o, name <> path o) -> (forall p, name <> stream_path p) ->
  (forall s, name <> session_path s) ->
  exists st', restore_entry name st = (Ok (), st') /\ restored st0 (D ∪ {[name]}) st'.
Proof.
  intros [Rf Rc Rd Rs Rst Rse Ru] Hig [c Hc] Hn Hb Hs Hss. unfold restore_entry.
  assert (Hcur : directory st !! name = Some c).
  { rewrite Rd, decide_False; [done|]. by intros [? _]. }
  assert (Hrest : forall d,
    (forall n, d !! n = if decide (n ∈ D ∪ {[name]} /\ pending n) then None else directory st0 !! n) ->
    restored st0 (D ∪ {[name]}) (set_directory d st)).
  { intros d Hd. split; cbn; try done; intros q; rewrite decide_union_ne; auto. }
  destruct (starts_with ".pending-" name) eqn:Hp.
  - unfold remove_file, mbind, Store_bind. rewrite io_free by done. cbn. rewrite Hcur.
    eexists. split; [done|]. apply Hrest. intros n.
    destruct (decide (n = name)) as [->|Hne].
    + rewrite lookup_delete_eq, decide_True; [done|]. split; [set_solver|done].
    + rewrite lookup_delete_ne by done. rewrite Rd. repeat case_decide; try done; set_solver.
  - unfold mbind, Store_bind. rewrite io_free by done. cbn [get_state]. rewrite Hcur.
    destruct Hig as [?|(H1' & H2' & H3')]; [congruence|].
    rewrite !bool_decide_eq_false_2 by done. eexists. split; [done|].
    split; cbn; try done; intros q; rewrite ?decide_union_ne, ?decide_not_pending; auto.
Qed.

Lemma restore_entry_spec st0 D st name :
  inv Pfx st0 -> capacity st0 <= U64_MAX -> restored st0 D st ->
  is_Some (directory st0 !! name) -> name ∉ D ->
  exists st', restore_entry name st = (Ok (), st') /\ restored st0 (D ∪ {[name]}) st'.
Proof.
  intros Hi Hmax Hr [c Hc] Hn.
  destruct (inv_files _ _ Hi _ _ Hc) as [(o & -> & Ho)|[(p & -> & Hp)|[(q & -> & Hq)|Hig]]].
  - by apply restore_entry_blob.
  - by apply restore_entry_stream.
  - by apply restore_entry_session.
  - apply restore_entry_ignored; [done|done|by eexists|done|..]; intros q ->;
      destruct Hig as [Hp|(? & ? & ?)].
    + unfold path in Hp. by rewrite stem_not_pending in Hp.
    + by rewrite path_extension in *.
    + unfold stream_path in Hp. by rewrite derived_name, stem_not_pending in Hp.
    + by rewrite stream_path_extension in *.
    + unfold session_path in Hp. by rewrite derived_name, stem_not_pending in Hp.
    + by rewrite session_path_extension in *.
Qed.

Lemma restore_entries_spec st0 names : forall D st,
  inv Pfx st0 -> capacity st0 <= U64_MAX -> restored st0 D st ->
  NoDup names -> (forall n, n ∈ names -> is_Some (directory st0 !! n) /\ n ∉ D) ->
  exists st', restore_entries names st = (Ok (), st') /\
    restored st0 (D ∪ list_to_set names) st'.
Proof.
  induction names as [|n names IH]; intros D st Hi Hmax Hr Hnd Hin; cbn [restore_entries].
  - exists st. split; [done|]. by rewrite list_to_set_nil, union_empty_r_L.
  - apply NoDup_cons in Hnd as [Hno Hnd]. destruct (Hin n) as [Hn HD]; [set_solver|].
    destruct (restore_entry_spec st0 D st n Hi Hmax Hr Hn HD) as (st1 & E1 & R1).
    destruct (IH (D ∪ {[n]}) st1 Hi Hmax R1 Hnd) as (st2 & E2 & R2).
    { intros m Hm. destruct (Hin m) as [? ?]; [set_solver|]. split; [done|]. set_solver. }
    exists st2. unfold mbind, Store_bind. rewrite E1, E2. split; [done|].
    rewrite list_to_set_cons, union_assoc_L. done.
Qed.

Lemma prune_streams_free st0 heads : forall st,
  inv Pfx st -> faults st = [] -> frame (streams st0) (sessions st0) st ->
  (forall h, h ∈ heads -> streams st0 !! prefix (head_stream h) = Some h) ->
  exists st', prune_streams heads st = (Ok (), st') /\ inv Pfx st' /\
    faults st' = [] /\ frame (streams st0) (sessions st0) st'.
Proof.
  induction heads as [|h heads IH]; intros st Hi Hf HF Hh; cbn [prune_streams].
  - by exists st.
  - destruct (prune_free h st Hi Hf) as (st1 & E1 & Hf1).
    destruct (triple_prune Pfx prefix_free (streams st0) (sessions st0) h) with (st := st)
      as (Hi1 & _ & HQ); [apply Hh; set_solver|done|done|].
    rewrite E1 in Hi1, HQ. cbn in Hi1, HQ.
    destruct (IH st1 Hi1 Hf1 (HQ () eq_refl)) as (st2 & E2 & ? & ? & ?); [set_solver|].
    exists st2. unfold mbind, Store_bind. by rewrite E1, E2.
Qed.

(** Every file of a store has been read back: the index is the old one. *)
Lemma restored_all st0 st :
  inv Pfx st0 -> restored st0 (dom (directory st0)) st ->
  ReplicaStore.snapshots st = ReplicaStore.snapshots st0 /\ streams st = streams st0 /\
  sessions st = sessions st0 /\ inv Pfx st.
Proof.
  intros Hi [Rf Rc Rd Rs Rst Rse Ru].
  assert (Es : ReplicaStore.snapshots st = ReplicaStore.snapshots st0).
  { apply map_eq. intros o. rewrite Rs. case_decide as Hd; [done|].
    destruct (ReplicaStore.snapshots st0 !! o) eqn:E; [|done].
    destruct (inv_blobs _ _ Hi _ _ E) as (b & _ & Hb). by apply elem_of_dom_2 in Hb. }
  assert (Est : streams st = streams st0).
  { apply map_eq. intros o. rewrite Rst. case_decide as Hd; [done|].
    destruct (streams st0 !! o) eqn:E; [|done].
    destruct (inv_streams _ _ Hi _ _ E) as (_ & _ & Hb). by apply elem_of_dom_2 in Hb. }
  assert (Ese : sessions st = sessions st0).
  { apply map_eq. intros o. rewrite Rse. case_decide as Hd; [done|].
    destruct (sessions st0 !! o) eqn:E; [|done].
    destruct (inv_sessions _ _ Hi _ _ E) as (_ & Hb). by apply elem_of_dom_2 in Hb. }
  assert (Hkeep : forall n c, starts_with ".pending-" n = false ->
            directory st0 !! n = Some c -> directory st !! n = Some c).
  { intros n c Hp Hc. rewrite Rd, decide_False; [done|]. unfold pending. intros [_ ?]. congruence. }
  assert (Hblob : forall o b, blob_at st0 o b -> blob_at st o b).
  { intros o b [B1 B2]. split; [congruence|]. apply Hkeep; [apply stem_not_pending|done]. }
  split_and!; [done..|]. destruct Hi as [Iu Ic Ib Ist Ise If Ia]. split.
  - done.
  - rewrite Ru, Es, Rc. lia.
  - intros o md. rewrite Es. intros E. destruct (Ib _ _ E) as [b Hb]. eauto.
  - intros p h. rewrite Est. intros E. destruct (Ist _ _ E) as (? & ? & ?). split_and!; try done.
    apply Hkeep; [|done]. unfold stream_path. rewrite derived_name. apply stem_not_pending.
  - intros q h. rewrite Ese. intros E. destruct (Ise _ _ E) as (? & ?). split_and!; try done.
    apply Hkeep; [|done]. unfold session_path. rewrite derived_name. apply stem_not_pending.
  - intros n c. rewrite Rd, Es, Est, Ese. case_decide; [done|]. apply If.
  - intros p h r. rewrite Est. intros E El. destruct (Ia _ _ _ E El) as (b & ? & ?). eauto.
Qed.

(** Whatever requests a replica serves and whichever of its file
    operations fail, the in-memory index and the directory agree, the bytes
    used are exactly the sizes of the indexed blobs and stay within capacity,
    and every stream head names a blob whose content verifies. *)
Theorem store_keeps_invariant ops st :
  Forall op_ok ops -> inv Pfx st -> inv Pfx (run_ops ops st).
Proof. intros Hops Hi. by apply run_ops_spec. Qed.

(** C22: an append that a replica acknowledged stays readable.  After any
    further requests and any further I/O errors the stream still has a head,
    the head is at least as new as the acknowledged snapshot (and is that very
    snapshot if it has the same version), and reading the object it names
    returns bytes that verify against it. *)
Theorem acknowledged_append_survives ops s bytes st st' :
  inv Pfx st -> Pfx (prefix s) -> Forall op_ok ops ->
  append s bytes st = (Ok (), st') ->
  let st'' := run_ops ops st' in
  exists r r' bytes',
    stream_snapshot s bytes = Ok r /\
    head s st'' = Ok {| head_stream := s; latest := Some r' |} /\
    ref_state_version r <= ref_state_version r' /\
    (ref_state_version r' = ref_state_version r -> r' = r /\ bytes' = bytes) /\
    SnapshotRef_verify r' bytes' = Ok () /\
    (faults st'' = [] -> read (object r') st'' = (Ok (Some bytes'), st'')).
Proof.
  intros Hi HP Hops E st''.
  destruct (triple_append Pfx prefix_free s bytes HP st Hi I) as (Hi' & _ & HQ).
  rewrite E in Hi', HQ. cbn in Hi', HQ. destruct (HQ () eq_refl) as (r & Hr & Hh).
  destruct (run_ops_spec ops st' Hops Hi') as (Hi'' & Ha). fold st'' in Hi'', Ha.
  destruct (adv_streams _ _ Ha _ _ Hh) as (h' & Hh' & Est & Hnext).
  destruct (Hnext r eq_refl) as (r' & Hr' & Hle & Hsame).
  destruct (inv_acked _ _ Hi'' _ _ _ Hh' Hr') as (bytes' & HB & Hsn). cbn in Est.
  rewrite Est in Hsn. exists r, r', bytes'.
  pose proof (stream_snapshot_ref _ _ _ Hsn) as (_ & Hd' & Hv & _).
  pose proof (stream_snapshot_ref _ _ _ Hr) as (_ & Hd & _ & _).
  split_and!; try done.
  - unfold head. rewrite Hh', Est, bool_decide_true by done. cbn. destruct h'. cbn in *. congruence.
  - intros Ev. specialize (Hsame Ev). subst r'. split; [done|]. apply checksum_inj. congruence.
  - intros Hf. by apply read_free.
Qed.

(** Sealing a session freezes it.  After an acknowledged seal, whatever
    else the replica serves, every append to the session is refused without
    touching the store, the session stays sealed, and its streams are exactly
    the ones the seal reported. *)
Theorem sealed_session_is_frozen ops s hd st st' :
  inv Pfx st -> Forall op_ok ops ->
  seal_session s st = (Ok hd, st') ->
  let st'' := run_ops ops st' in
  (forall stream bytes, rs_session stream = s ->
     exists e, append stream bytes st'' = (Err e, st'')) /\
  sealed (session_head s st'') = true /\
  (forall sh, sh ∈ Snapshots.streams hd <->
     streams st'' !! prefix (head_stream sh) = Some sh /\ rs_session (head_stream sh) = s).
Proof.
  intros Hi Hops E st''.
  destruct (triple_seal Pfx s st Hi I) as (Hi' & _ & HQ). rewrite E in Hi', HQ. cbn in Hi', HQ.
  destruct (HQ hd eq_refl) as (Hs & _ & _ & Hst & _).
  destruct (run_ops_spec ops st' Hops Hi') as (Hi'' & Ha). fold st'' in Hi'', Ha.
  assert (Hs'' : sealed (session_head s st'') = true) by (by apply (adv_sessions _ _ Ha s)).
  split_and!; [|done|].
  - intros stream bytes <-. unfold append, mbind, Store_bind. cbn.
    destruct (head stream st'') as [h|e]; cbn; [|by eexists].
    rewrite Hs'', andb_false_r. cbn. by eexists.
  - intros sh. rewrite Hst. unfold session_streams.
    rewrite (merge_sort_Permutation string_leb), list_elem_of_filter, list_elem_of_fmap.
    split.
    + intros (Hses & [p h] & -> & Hin%elem_of_map_to_list). cbn in *.
      destruct (adv_streams _ _ Ha _ _ Hin) as (h' & Hh' & Est & _).
      pose proof (adv_sealed _ _ Ha s p h' Hs Hh' ltac:(congruence)) as Hback.
      rewrite Hback in Hin. injection Hin as ->.
      destruct (inv_streams _ _ Hi'' _ _ Hh') as (-> & _). done.
    + intros [Hsh Hses]. pose proof (adv_sealed _ _ Ha s _ _ Hs Hsh Hses) as Hback.
      split; [done|]. exists (prefix (head_stream sh), sh). split; [done|].
      by apply elem_of_map_to_list.
Qed.

(** C28: a restart loses nothing that was acknowledged.  Opening the directory
    a store left behind, whatever temporary files lie around, rebuilds its
    sessions and stream heads; every head still names a readable blob that
    verifies, and the rebuilt store satisfies the invariant. *)
Theorem reopen_recovers st :
  inv Pfx st -> 0 < capacity st <= U64_MAX ->
  exists st', open (directory st) (capacity st) [] = Ok st' /\
    inv Pfx st' /\ sessions st' = sessions st /\ streams st' = streams st /\
    forall p h r, streams st !! p = Some h -> latest h = Some r ->
      exists bytes, read (object r) st' = (Ok (Some bytes), st') /\
        stream_snapshot (head_stream h) bytes = Ok r.
Proof.
  intros Hi [Hpos Hmax]. unfold open. rewrite (proj2 (Z.ltb_lt _ _)) by done.
  cbn [ensure mbind Result_bind].
  set (st1 := {| directory := directory st; capacity := capacity st; used := 0;
                 ReplicaStore.snapshots := ∅; streams := ∅; sessions := ∅; faults := [] |}).
  assert (R0 : restored st ∅ st1).
  { split; cbn; try done; intros n; rewrite decide_False by set_solver; first [done|apply lookup_empty]. }
  destruct (restore_entries_spec st (map_to_list (directory st)).*1 ∅ st1 Hi Hmax R0)
    as (st2 & E2 & R2); [apply NoDup_fst_map_to_list| |].
  { intros n ([n' c] & -> & Hin%elem_of_map_to_list)%list_elem_of_fmap. split; [by eexists|set_solver]. }
  assert (Hdom : ∅ ∪ list_to_set (map_to_list (directory st)).*1 = dom (directory st)).
  { apply set_eq. intros n. rewrite elem_of_union, elem_of_list_to_set, list_elem_of_fmap, elem_of_dom.
    split.
    - intros [?|([n' c] & -> & Hin%elem_of_map_to_list)]; [set_solver|by eexists].
    - intros [c Hc]. right. exists (n, c). split; [done|]. by apply elem_of_map_to_list. }
  rewrite Hdom in R2.
  destruct (restored_all st st2 Hi R2) as (Es & Est & Ese & Hi2).
  destruct (prune_streams_free st (map_to_list (streams st2)).*2 st2 Hi2 (re_faults _ _ _ R2))
    as (st3 & E3 & Hi3 & Hf3 & HS & HT); [done| |].
  { intros h ([p h'] & -> & Hin%elem_of_map_to_list)%list_elem_of_fmap. cbn.
    rewrite Est in Hin. by destruct (inv_streams _ _ Hi _ _ Hin) as (-> & _). }
  exists st3. split_and!; try done.
  - unfold restore, mbind, Store_bind. rewrite io_free by done. cbn [get_state].
    change (directory st1) with (directory st). by rewrite E2, E3.
  - intros p h r Hp Hr. rewrite <-HS in Hp. destruct (inv_acked _ _ Hi3 _ _ _ Hp Hr) as (b & HB & ?).
    exists b. split; [by apply read_free|done].
Qed.

(** A replica accepts new work.  With no I/O error, an open session, a
    snapshot of the stream newer than its head and room for its bytes, the
    append is acknowledged. *)
Theorem append_accepts s bytes r h st :
  inv Pfx st -> Pfx (prefix s) -> faults st = [] ->
  initialized (session_head (rs_session s) st) = true ->
  sealed (session_head (rs_session s) st) = false ->
  head s st = Ok h -> stream_snapshot s bytes = Ok r ->
  (forall r0, latest h = Some r0 -> ref_state_version r0 < ref_state_version r) ->
  snapshots st !! object r = None ->
  used st + len bytes <= capacity st -> capacity st <= U64_MAX ->
  exists st', append s bytes st = (Ok (), st').
Proof.
  intros Hi HP Hf Hini Hsealed Hh Hr Hlt Ho Hcap Hmax.
  pose proof (head_spec _ _ _ Hh) as [Hst Hcur].
  assert (Hun : forall h0, sessions st !! rs_session s = Some h0 -> sealed h0 = false).
  { intros h0 E0. unfold session_head in Hsealed. by rewrite E0 in Hsealed. }
  assert (Hw : exists st', (put {| md_object := object r; md_size := len bytes |} bytes;;
      save_head (with_latest h r);; prune_stream (with_latest h r)) st = (Ok (), st')).
  { unfold mbind, Store_bind.
    destruct (put_free st (object r) bytes Hi Hf Ho Hcap Hmax) as (st1 & E1 & Hf1). rewrite E1.
    destruct (triple_put Pfx (streams st) (sessions st) (object r) bytes st Hi) as (Hi1 & _ & HQ1);
      [done|]. rewrite E1 in Hi1, HQ1. cbn in Hi1, HQ1. specialize (HQ1 () eq_refl).
    destruct (save_head_free st1 (with_latest h r) Hf1) as (st2 & E2 & Hf2). rewrite E2.
    destruct (triple_save_head Pfx (streams st) (sessions st) (with_latest h r) r bytes)
      with (st := st1) as (Hi2 & _ & _); cbn; try done; rewrite ?Hst; try done.
    { intros h0 Hh0. destruct Hcur as [E|[E _]]; [|congruence]. rewrite E in Hh0.
      injection Hh0 as <-. done. }
    rewrite E2 in Hi2. cbn in Hi2.
    destruct (prune_free (with_latest h r) st2 Hi2 Hf2) as (st3 & E3 & _). eauto. }
  revert Hw. unfold append, mbind, Store_bind. cbn. rewrite Hh. cbn.
  rewrite Hini, Hsealed. cbn. rewrite Hr. cbn. destruct (latest h) as [r0|]; [|done].
  specialize (Hlt r0 eq_refl). rewrite (proj2 (Z.leb_le _ _)) by lia. cbn.
  rewrite (proj2 (Z.eqb_neq _ _)) by lia. done.
Qed.
End durability.

(** * Examples: one session, one stream, two snapshots *)
Import Hex.

Definition sample_stream : ReplicaStream :=
  {| rs_session := "S"; prefix := "p/"; rs_owner_epoch := 1; base_version := 0 |}.
Definition sample_bytes (version : Z) : string :=
  to_vec {| attribution := None; state_version := version; owner_epoch := 1;
            snap_request_id := "r"; state := "{}"; result := Null |}.
Definition sample_store (requests : list Op) : StoreState :=
  run_ops requests {| directory := {[ ".lock" := "" ]}; capacity := 100000; used := 0;
    ReplicaStore.snapshots := ∅; streams := ∅; sessions := ∅; faults := [] |}.
Definition sample_prefix (p : string) : Prop := p = "p/".

Lemma sample_prefix_free p q :
  sample_prefix p -> sample_prefix q -> starts_with p q = true -> p = q.
Proof. intros -> ->. done. Qed.

Lemma sample_inv requests :
  Forall (op_ok sample_prefix) requests -> inv sample_prefix (sample_store requests).
Proof.
  intros Hops. eapply run_ops_spec; [apply sample_prefix_free|done|].
  split; cbn; try done; intros *; rewrite ?lookup_empty; try done.
  intros [<- <-]%lookup_singleton_Some. do 3 right. right. done.
Qed.

Lemma store_keeps_invariant_witness :
  inv sample_prefix (sample_store [OpInitialize "S"; OpAppend sample_stream (sample_bytes 1)]).
Proof.
  apply (store_keeps_invariant sample_prefix sample_prefix_free
           [OpAppend sample_stream (sample_bytes 1)] (sample_store [OpInitialize "S"])).
  - repeat constructor.
  - apply sample_inv. repeat constructor.
Defined.

Lemma acknowledged_append_survives_witness :
  let st := sample_store [OpInitialize "S"] in
  let st' := (append sample_stream (sample_bytes 1) st).2 in
  let st'' := run_ops [OpAppend sample_stream (sample_bytes 2); OpSeal "S"] st' in
  exists r', head sample_stream st'' = Ok {| head_stream := sample_stream; latest := Some r' |} /\
    1 <= ref_state_version r'.
Proof.
  cbn zeta. edestruct (acknowledged_append_survives sample_prefix sample_prefix_free
    [OpAppend sample_stream (sample_bytes 2); OpSeal "S"] sample_stream (sample_bytes 1)
    (sample_store [OpInitialize "S"]))
    as (r & r' & b & Hr & Hh & Hle & _).
  - apply sample_inv. repeat constructor.
  - done.
  - repeat constructor.
  - apply injective_projections; [vm_compute; reflexivity|reflexivity].
  - exists r'. split; [exact Hh|]. vm_compute in Hr. injection Hr as <-. exact Hle.
Defined.

Definition sample_sealed : Result SessionHead * StoreState :=
  seal_session "S" (sample_store [OpInitialize "S"; OpAppend sample_stream (sample_bytes 1)]).

Lemma sealed_session_is_frozen_witness :
  exists hd e, sample_sealed.1 = Ok hd /\ length (Snapshots.streams hd) = 1%nat /\
    (append sample_stream (sample_bytes 2) (run_ops [OpInitialize "S"] sample_sealed.2)).1 = Err e.
Proof.
  assert (Hseal : exists hd, sample_sealed.1 = Ok hd /\ length (Snapshots.streams hd) = 1%nat).
  { eexists. split; vm_compute; reflexivity. }
  destruct Hseal as (hd & Hhd & Hlen).
  destruct (sealed_session_is_frozen sample_prefix sample_prefix_free [OpInitialize "S"] "S" hd
    (sample_store [OpInitialize "S"; OpAppend sample_stream (sample_bytes 1)]) sample_sealed.2)
    as (Hfrozen & _).
  - apply sample_inv. repeat constructor.
  - repeat constructor.
  - unfold sample_sealed in *. rewrite <-Hhd. apply surjective_pairing.
  - destruct (Hfrozen sample_stream (sample_bytes 2)) as [e He]; [reflexivity|].
    exists hd, e. split; [exact Hhd|]. split; [exact Hlen|]. rewrite He. reflexivity.
Defined.

Lemma append_accepts_witness :
  let st := sample_store [OpInitialize "S"; OpAppend sample_stream (sample_bytes 1)] in
  exists st', append sample_stream (sample_bytes 2) st = (Ok (), st').
Proof.
  cbn zeta. eapply (append_accepts sample_prefix sample_prefix_free).
  - apply sample_inv. repeat constructor.
  - done.
  - vm_compute. reflexivity.
  - vm_compute. reflexivity.
  - vm_compute. reflexivity.
  - vm_compute. reflexivity.
  - vm_compute. reflexivity.
  - intros r0 [= <-]. cbn. lia.
  - vm_compute. reflexivity.
  - vm_compute. discriminate.
  - vm_compute. discriminate.
Defined.

Lemma reopen_recovers_witness :
  let st := sample_store [OpInitialize "S"; OpAppend sample_stream (sample_bytes 1)] in
  exists st', open (directory st) (capacity st) [] = Ok st' /\ streams st' = streams st.
Proof.
  cbn zeta. edestruct (reopen_recovers sample_prefix sample_prefix_free
    (sample_store [OpInitialize "S"; OpAppend sample_stream (sample_bytes 1)]))
    as (st' & Ho & _ & _ & Hs & _).
  - apply sample_inv. repeat constructor.
  - vm_compute. split; [reflexivity|discriminate].
  - exists st'. split; [exact Ho|exact Hs].
Defined.
