(* ===== verification/ReplicaServer.v ===== *)
(** A replica process in front of its store: signed capabilities
    ([replication/access.rs]), the request handlers ([replication/server.rs]),
    the one-time assignment of a spare replica ([replication/spare.rs]) and
    the wire format of heads ([replication/wire.rs]).

    HMAC and URL parsing come from other crates: they are the parameters
    [Hmac] and [UrlParser].  A signature is checked against the one computed
    from the key, as [hmac::verify] does.  Shows that a capability reads back
    as the grant it was signed for, that heads survive the wire, that nothing
    outside the assigned activation is ever touched, and that an assignment is
    permanent. *)

From S2P Require Import Prelude.
From S2P Require Import Actors.
From S2P Require Import StoragePaths.
From S2P Require Import Snapshots.
From S2P Require Import ReplicaStore.
From S2P Require Import Samples.
Local Open Scope string_scope.
Local Open Scope Z_scope.
Local Set Warnings "-clear-no-such-hyp".

(** * Capabilities: [replication/access.rs] *)
Class Hmac := { hmac_sign : string -> string -> string }.

Record Url := {
  username : string;
  password : option string;
  query : option string;
  fragment : option string;
  url_path : string;
  host_str : option string;
  scheme : string;
  ascii_serialization : string }.
Class UrlParser := { parse_url : string -> Result Url }.

Record ReplicaGrant := {
  grant_stream : option ReplicaStream;
  grant_operation : string;
  grant_object : string;
  grant_region : string;
  grant_host_id : string;
  grant_expires_at_ms : Z }.
#[global] Instance ReplicaGrant_eq_dec : EqDecision ReplicaGrant.
Proof. solve_decision. Defined.

(** [str::replacen(from, to, 1)] *)
Fixpoint replace_first (from to s : string) : string :=
  match strip_prefix from s with
  | Some rest => to +:+ rest
  | None => match s with EmptyString => "" | String c s' => String c (replace_first from to s') end
  end.

Definition is_none {A} (o : option A) : bool := match o with None => true | Some _ => false end.
Definition is_none_or {A} (f : A -> bool) (o : option A) : bool :=
  match o with None => true | Some a => f a end.

Section access.
Context `{Base64Url, Hmac, UrlParser, Json ReplicaGrant}.

(** The token inside a capability URL *)
Definition capability_token (key : string) (grant : ReplicaGrant) : string :=
  let payload := b64_encode (to_vec grant) in
  payload +:+ "." +:+ b64_encode (hmac_sign key payload).

(** [ReplicaAccess::url] *)
Definition capability_url (key origin : string) (grant : ReplicaGrant) : Result string :=
  url ← parse_url origin;
  ensure (is_empty (username url) && is_none (password url) && is_none (query url)
          && is_none (fragment url) && String.eqb (url_path url) "/" && negb (is_none (host_str url)))
    "invalid replica origin";;
  new_scheme ←
    (if String.eqb (scheme url) "http" then Ok "grpc"
     else if String.eqb (scheme url) "https" then Ok "grpcs"
     else Err "replica origin must be HTTP or HTTPS");
  let address := replace_first (scheme url) new_scheme (ascii_serialization url) in
  Ok (address +:+ "?token=" +:+ capability_token key grant).

(** [ReplicaAccess::verify_any]; [now] is the reading of its clock. *)
Definition verify_any (key : string) (now : Result Z) (token : string) (operations : list string)
  : Result ReplicaGrant :=
  ensure (len token <=? 16 * 1024) "replica capability is too large";;
  '(payload, signature) ← with_context (split_once "." token) "invalid replica capability";
  tag ← b64_decode signature;
  ensure (String.eqb tag (hmac_sign key payload)) "invalid replica signature";;
  text ← b64_decode payload;
  grant ← from_slice text;
  ensure (bool_decide (grant_operation grant ∈ operations)) "replica operation is not authorized";;
  t ← now;
  ensure (t <? grant_expires_at_ms grant) "replica capability expired";;
  ensure (starts_with ROOT (grant_object grant) && (len (grant_object grant) <=? 1024))
    "invalid replica object";;
  ensure (is_none_or (fun s => String.eqb (prefix s) (grant_object grant)
                       && starts_with (ROOT +:+ "hosts/") (rs_session s)
                       && (0 <? rs_owner_epoch s)) (grant_stream grant))
    "replica stream does not match its capability";;
  validate_region (grant_region grant);;
  Ok grant.

(** [ReplicaAccess::verify] *)
Definition verify (key : string) (now : Result Z) (token operation : string)
  : Result ReplicaGrant := verify_any key now token [operation].
End access.

(** * The wire format of heads: [replication/wire.rs] *)
Record ReplicaStreamIdentity := {
  p_session : string; p_prefix : string; p_owner_epoch : Z; p_base_version : Z }.
Record ReplicaSnapshotRef := {
  p_object : string; p_state_version : Z; p_request_id : string; p_digest : string }.
Record ReplicaStreamHead := {
  p_stream : option ReplicaStreamIdentity; p_latest : option ReplicaSnapshotRef }.
Record ReplicaSessionHead := {
  p_head_session : string; p_initialized : bool; p_sealed : bool;
  p_streams : list ReplicaStreamHead }.

Definition stream_to_proto (s : ReplicaStream) : ReplicaStreamIdentity :=
  {| p_session := rs_session s; p_prefix := prefix s; p_owner_epoch := rs_owner_epoch s;
     p_base_version := base_version s |}.
Definition stream_from_proto (s : ReplicaStreamIdentity) : ReplicaStream :=
  {| rs_session := p_session s; prefix := p_prefix s; rs_owner_epoch := p_owner_epoch s;
     base_version := p_base_version s |}.
Definition ref_to_proto (r : SnapshotRef) : ReplicaSnapshotRef :=
  {| p_object := object r; p_state_version := ref_state_version r;
     p_request_id := ref_request_id r; p_digest := digest r |}.
Definition ref_from_proto (r : ReplicaSnapshotRef) : SnapshotRef :=
  {| object := p_object r; ref_state_version := p_state_version r;
     ref_request_id := p_request_id r; digest := p_digest r |}.
Definition head_to_proto (h : StreamHead) : ReplicaStreamHead :=
  {| p_stream := Some (stream_to_proto (head_stream h)); p_latest := ref_to_proto <$> latest h |}.
Definition head_from_proto (h : ReplicaStreamHead) : Result StreamHead :=
  s ← with_context (p_stream h) "replica stream is required";
  Ok {| head_stream := stream_from_proto s; latest := ref_from_proto <$> p_latest h |}.
Definition session_to_proto (h : SessionHead) : ReplicaSessionHead :=
  {| p_head_session := head_session h; p_initialized := initialized h; p_sealed := sealed h;
     p_streams := head_to_proto <$> Snapshots.streams h |}.
Definition session_from_proto (h : ReplicaSessionHead) : Result SessionHead :=
  l ← collect head_from_proto (p_streams h);
  Ok {| head_session := p_head_session h; initialized := p_initialized h; sealed := p_sealed h;
        Snapshots.streams := l |}.

(** * Request handlers: [replication/server.rs] *)
Inductive Code := Unauthenticated | PermissionDenied | NotFound | InvalidArgument | Unavailable.
Record Status := { status_code : Code; status_message : string }.

Inductive Reply (A : Type) :=
| Accepted (a : A)
| Refused (s : Status).
Arguments Accepted {A} a.
Arguments Refused {A} s.
#[global] Instance Reply_ret : MRet Reply := fun A a => Accepted a.
#[global] Instance Reply_bind : MBind Reply := fun A B f m =>
  match m with Accepted a => f a | Refused s => Refused s end.

Definition permission_denied (m : string) : Status :=
  {| status_code := PermissionDenied; status_message := m |}.
(** [grpc/transport.rs: unavailable] *)
Definition unavailable (_ : string) : Status :=
  {| status_code := Unavailable; status_message := "storage operation failed" |}.

(** [result.map_err(f)?] and [option.ok_or(status)?] *)
Definition map_err {A} (r : Result A) (f : string -> Status) : Reply A :=
  match r with Ok a => Accepted a | Err e => Refused (f e) end.
Definition ok_or {A} (o : option A) (s : Status) : Reply A :=
  match o with Some a => Accepted a | None => Refused s end.

(** A request carries an authorization header when it has a readable one. *)
Record Request (T : Type) := { authorization : option string; payload_of : T }.
Arguments authorization {T} r.
Arguments payload_of {T} r.

(** [grpc/transport.rs: token] *)
Definition token {T} (r : Request T) : Reply string :=
  ok_or (v ← authorization r; t ← strip_prefix "Bearer " v; if is_empty t then None else Some t)
    {| status_code := Unauthenticated; status_message := "storage credential is required" |}.

Record ReplicaBinding := {
  binding_key : string;
  binding_host_id : string;
  binding_scope : ReplicaScope }.

Section server.
Context `{Base64Url, Sha256, Hmac, Json ReplicaGrant,
          Json StateSnapshot, Json Metadata, Json StreamHead, Json SessionHead}.

Definition authorize {T} (binding : option ReplicaBinding) (now : Result Z) (r : Request T)
  (operations : list string) : Reply ReplicaGrant :=
  b ← ok_or binding (permission_denied "replica is not assigned");
  t ← token r;
  grant ← map_err (verify_any (binding_key b) now t operations)
            (fun _ => permission_denied "replica capability rejected");
  if negb (String.eqb (grant_host_id grant) (binding_host_id b))
  then Refused (permission_denied "capability belongs to another replica")
  else
    let scope := binding_scope b in
    allowed ←
      (if bool_decide (grant_operation grant = "INITIALIZE_SESSION" \/
                       grant_operation grant = "SEAL_SESSION")
       then Accepted (String.eqb (grant_object grant) (identity scope))
       else
         p ← map_err (StoragePaths.snapshots (scope_actor scope)) unavailable;
         Accepted (starts_with p (grant_object grant)
                   && is_none_or (fun s => String.eqb (rs_session s) (identity scope)
                                           && starts_with p (prefix s)) (grant_stream grant)));
    if negb allowed
    then Refused (permission_denied "replica belongs to another actor activation")
    else Accepted grant.

(** [ReplicaServer::session] *)
Definition session_grant {T} (binding : option ReplicaBinding) (now : Result Z) (r : Request T)
  (operation : string) : Reply ReplicaGrant :=
  grant ← authorize binding now r [operation];
  match grant_stream grant with
  | Some _ => Refused (permission_denied "session authority is required")
  | None => Accepted grant
  end.

(** A store operation inside a handler: its error becomes a status. *)
Definition with_store {A} (m : Store A) (f : string -> Status) (st : StoreState)
  : Reply A * StoreState :=
  (map_err (m st).1 f, (m st).2).

(** A handler: authorization first, then one store operation *)
Definition handle {A B} (g : Reply A) (m : A -> StoreState -> Reply B * StoreState)
  (st : StoreState) : Reply B * StoreState :=
  match g with Accepted a => m a st | Refused s => (Refused s, st) end.

Definition read_handler (binding : option ReplicaBinding) (now : Result Z) (r : Request unit)
  : StoreState -> Reply string * StoreState :=
  handle (authorize binding now r ["GET"]) (fun grant st =>
    let '(data, st') := with_store (read (grant_object grant)) unavailable st in
    (d ← data;
     ok_or d {| status_code := NotFound; status_message := "snapshot not found" |}, st')).

Definition write_handler (binding : option ReplicaBinding) (now : Result Z) (r : Request string)
  : StoreState -> Reply bool * StoreState :=
  handle
    (grant ← authorize binding now r ["APPEND"];
     map_err (StateSnapshot_decode (payload_of r))
       (fun _ => {| status_code := InvalidArgument; status_message := "invalid snapshot" |});;
     ok_or (grant_stream grant) (permission_denied "stream authority is required"))
    (fun s st =>
       let '(reply, st') := with_store (append s (payload_of r)) unavailable st in
       (reply;; Accepted false, st')).

Definition initialize_handler (binding : option ReplicaBinding) (now : Result Z) (r : Request unit)
  : StoreState -> Reply unit * StoreState :=
  handle (session_grant binding now r "INITIALIZE_SESSION") (fun grant =>
    with_store (initialize_session (grant_object grant)) unavailable).

Definition head_handler (binding : option ReplicaBinding) (now : Result Z) (r : Request unit)
  : StoreState -> Reply ReplicaStreamHead * StoreState :=
  handle
    (grant ← authorize binding now r ["HEAD"];
     ok_or (grant_stream grant) (permission_denied "stream authority is required"))
    (fun s st =>
       let '(reply, st') := with_store (stream_head s) unavailable st in
       (h ← reply; Accepted (head_to_proto h), st')).

Definition seal_handler (binding : option ReplicaBinding) (now : Result Z) (r : Request unit)
  : StoreState -> Reply ReplicaSessionHead * StoreState :=
  handle (session_grant binding now r "SEAL_SESSION") (fun grant st =>
    let '(reply, st') := with_store (seal_session (grant_object grant)) unavailable st in
    (h ← reply; Accepted (session_to_proto h), st')).

(** * Assigning a spare replica: [replication/spare.rs] *)
Record ReplicaAssignment := {
  as_host_id : string;
  as_scope : ReplicaScope;
  as_secret : string }.
#[global] Instance ReplicaAssignment_eq_dec : EqDecision ReplicaAssignment.
Proof. solve_decision. Defined.

Inductive StatusCode := NO_CONTENT | UNAUTHORIZED | BAD_REQUEST | CONFLICT | SERVICE_UNAVAILABLE.

Record AssignmentState := {
  expected_authorization : string;
  as_store : StoreState;
  binding : option ReplicaBinding;
  assigned : option ReplicaAssignment }.

(** [OnceLock::set] fails when the cell is full. *)
Definition assign (header : option string) (assignment : ReplicaAssignment)
  (state : AssignmentState) : (StatusCode + StatusCode) * AssignmentState :=
  match header with
  | None => (inr UNAUTHORIZED, state)
  | Some supplied =>
    if negb (String.eqb (expected_authorization state) supplied) then (inr UNAUTHORIZED, state)
    else if negb (is_ok (ActorKey_validate (scope_actor (as_scope assignment))))
    then (inr BAD_REQUEST, state)
    else if is_empty (as_host_id assignment) || is_empty (scope_host (as_scope assignment))
            || is_empty (scope_session (as_scope assignment)) || (len (as_secret assignment) <? 32)
    then (inr BAD_REQUEST, state)
    else match assigned state with
    | Some existing =>
        if bool_decide (existing = assignment) then (inl NO_CONTENT, state) else (inr CONFLICT, state)
    | None =>
        let '(r, st') := initialize_session (identity (as_scope assignment)) (as_store state) in
        match r with
        | Err _ =>
            (inr SERVICE_UNAVAILABLE,
             {| expected_authorization := expected_authorization state; as_store := st';
                binding := binding state; assigned := None |})
        | Ok _ =>
            match binding state with
            | Some b =>
                (inr CONFLICT,
                 {| expected_authorization := expected_authorization state; as_store := st';
                    binding := Some b; assigned := None |})
            | None =>
                (inl NO_CONTENT,
                 {| expected_authorization := expected_authorization state; as_store := st';
                    binding := Some {| binding_key := as_secret assignment;
                                       binding_host_id := as_host_id assignment;
                                       binding_scope := as_scope assignment |};
                    assigned := Some assignment |})
            end
        end
    end
  end.
End server.

(** * What an operation leaves alone, whatever fails *)
Definition keeps {A} (R : relation StoreState) (m : Store A) : Prop := forall st, R st (m st).2.

Section keeps_rules.
Context (R : relation StoreState) `{!Reflexive R, !Transitive R}.
Hypothesis R_same : forall st st',
  streams st' = streams st -> sessions st' = sessions st -> R st st'.

Lemma keeps_bind {A B} (m : Store A) (f : A -> Store B) :
  keeps R m -> (forall a, keeps R (f a)) -> keeps R (m ≫= f).
Proof using Transitive0.
  intros Hm Hf st. specialize (Hm st). unfold mbind, Store_bind.
  destruct (m st) as [[a|e] st1]; [|done]. etrans; [exact Hm|apply Hf].
Qed.

Lemma keeps_ret {A} (a : A) : keeps R (mret a).
Proof using Reflexive0. intros st. cbn. reflexivity. Qed.
Lemma keeps_lift {A} (r : Result A) : keeps R (lift r).
Proof using Reflexive0. intros st. cbn. reflexivity. Qed.
Lemma keeps_get : keeps R get_state.
Proof using Reflexive0. intros st. cbn. reflexivity. Qed.
Lemma keeps_io : keeps R io.
Proof using R_same. intros st. destruct (io_cases st) as (f & [-> | ->]); by apply R_same. Qed.
Lemma keeps_modify f :
  (forall st, streams (f st) = streams st /\ sessions (f st) = sessions st) -> keeps R (modify f).
Proof using R_same. intros Hf st. destruct (Hf st). by apply R_same. Qed.
End keeps_rules.

Ltac keeps := repeat first
  [ progress intros
  | match goal with |- Reflexive _ => apply _ | |- Transitive _ => apply _ end
  | apply keeps_bind | apply keeps_ret | apply keeps_lift | apply keeps_get
  | apply keeps_io; [assumption] | apply keeps_modify; [assumption|by intros []]
  | case_match ].

Section keeps_ops.
Context `{Base64Url, Sha256, Json StateSnapshot, Json Metadata, Json StreamHead, Json SessionHead}.
Context (R : relation StoreState) `{!Reflexive R, !Transitive R}.
Hypothesis R_same : forall st st',
  streams st' = streams st -> sessions st' = sessions st -> R st st'.

Lemma keeps_put md bytes : keeps R (put md bytes).
Proof using Type*.
  unfold put, persist_noclobber, read_blob, sync_directory. by keeps.
Qed.

Lemma keeps_prune h : keeps R (prune_stream h).
Proof using Type*.
  unfold prune_stream, sync_directory.
  assert (Hr : forall l, keeps R (remove_blobs l)).
  { induction l as [|o l IH]; cbn [remove_blobs]; unfold remove_file; by keeps. }
  keeps; try done.
Qed.

Lemma keeps_save_head h :
  (forall st, R st (set_streams (<[prefix (head_stream h) := h]> (streams st)) st)) ->
  keeps R (save_head h).
Proof using Type*.
  intros Hh. unfold save_head, persist, sync_directory. keeps; try done.
Qed.

Lemma keeps_save_session h :
  (forall st, R st (set_sessions (<[head_session h := h]> (sessions st)) st)) ->
  keeps R (save_session h).
Proof using Type*.
  intros Hh. unfold save_session, persist, sync_directory. keeps; try done.
Qed.
End keeps_ops.

(** * Lemmas on the handlers *)
Section handlers.
Context `{Base64Url, Sha256, Hmac, Json ReplicaGrant,
          Json StateSnapshot, Json Metadata, Json StreamHead, Json SessionHead}.

(** What an accepted capability allows on a replica bound to [b]. *)
Lemma authorize_spec {T} b now (r : Request T) ops g :
  authorize (Some b) now r ops = Accepted g ->
  grant_operation g ∈ ops /\ grant_host_id g = binding_host_id b /\
  (exists t, now = Ok t /\ t < grant_expires_at_ms g) /\
  ((grant_operation g = "INITIALIZE_SESSION" \/ grant_operation g = "SEAL_SESSION") /\
   grant_object g = identity (binding_scope b)
   \/ ~ (grant_operation g = "INITIALIZE_SESSION" \/ grant_operation g = "SEAL_SESSION") /\
     exists p, StoragePaths.snapshots (scope_actor (binding_scope b)) = Ok p /\
     starts_with p (grant_object g) = true /\
     forall s, grant_stream g = Some s ->
       rs_session s = identity (binding_scope b) /\ starts_with p (prefix s) = true /\
       prefix s = grant_object g).
Proof.
  unfold authorize. cbn. destruct (token r) as [t|]; [|done]. cbn.
  destruct (verify_any (binding_key b) now t ops) as [g'|e] eqn:Ev; [|done]. cbn.
  destruct (String.eqb (grant_host_id g') _) eqn:Eh; [|done]. cbn.
  unfold verify_any in Ev. res_inv.
  repeat match goal with q : (_ * _)%type |- _ => destruct q end. res_inv. bools.
  intros Hacc. assert (g' = g /\
    ((grant_operation g' = "INITIALIZE_SESSION" \/ grant_operation g' = "SEAL_SESSION") /\
     grant_object g' = identity (binding_scope b)
     \/ ~ (grant_operation g' = "INITIALIZE_SESSION" \/ grant_operation g' = "SEAL_SESSION") /\
       exists p, StoragePaths.snapshots (scope_actor (binding_scope b)) = Ok p /\
       starts_with p (grant_object g') = true /\
       is_none_or (fun s => String.eqb (rs_session s) (identity (binding_scope b))
                            && starts_with p (prefix s)) (grant_stream g') = true)) as [-> Hg].
  { case_bool_decide as Hop.
    - cbn in Hacc. destruct (String.eqb _ _) eqn:Eo in Hacc; [|done]. cbn in Hacc.
      injection Hacc as ->. bools. split; [done|]. by left.
    - destruct (StoragePaths.snapshots _) as [p|] eqn:Ep; [|done]. cbn in Hacc.
      destruct (starts_with p _ && _) eqn:Eo; [|done]. cbn in Hacc. injection Hacc as ->.
      bools. split; [done|]. right. eauto. }
  split_and!; try done; [by eauto|]. destruct Hg as [?|(Hno & p & Hp & Ho & Hs)]; [by left|].
  right. split; [done|]. exists p. split_and!; try done. intros str Es. rewrite Es in *. cbn in *. bools. done.
Qed.

Lemma session_grant_spec {T} b now (r : Request T) op g :
  op = "INITIALIZE_SESSION" \/ op = "SEAL_SESSION" ->
  session_grant (Some b) now r op = Accepted g -> grant_object g = identity (binding_scope b).
Proof.
  intros Hop. unfold session_grant. destruct (authorize _ _ _ _) as [g'|] eqn:Ea; [|done]. cbn.
  destruct (grant_stream g') eqn:Es; [done|]. intros [= ->].
  apply authorize_spec in Ea as (Hin & _ & _ & Hg). apply list_elem_of_singleton in Hin. subst op.
  by destruct Hg as [[_ ?]|[? _]].
Qed.

Lemma stream_grant_spec {T} b now (r : Request T) op g s :
  op = "APPEND" \/ op = "HEAD" ->
  authorize (Some b) now r [op] = Accepted g -> grant_stream g = Some s ->
  rs_session s = identity (binding_scope b) /\
  exists p, StoragePaths.snapshots (scope_actor (binding_scope b)) = Ok p /\
    starts_with p (prefix s) = true.
Proof.
  intros Hop Ea Es. apply authorize_spec in Ea as (Hin & _ & _ & Hg).
  apply list_elem_of_singleton in Hin. subst op.
  destruct Hg as [[[E|E] _]|(_ & p & Hp & _ & Hs)].
  - rewrite E in Hop. by destruct Hop.
  - rewrite E in Hop. by destruct Hop.
  - destruct (Hs s Es) as (? & ? & _). eauto.
Qed.

(** How a replica bound to one activation may change: only that session's
    record, only streams of that session under that actor's prefix. *)
Definition confined (scope : ReplicaScope) (st st' : StoreState) : Prop :=
  (forall s, s <> identity scope -> sessions st' !! s = sessions st !! s) /\
  (forall p, streams st' !! p <> streams st !! p ->
     exists h pre, streams st' !! p = Some h /\ rs_session (head_stream h) = identity scope /\
       StoragePaths.snapshots (scope_actor scope) = Ok pre /\ starts_with pre p = true).

#[export] Instance confined_refl scope : Reflexive (confined scope).
Proof. intros st. split; done. Qed.
#[export] Instance confined_trans scope : Transitive (confined scope).
Proof.
  intros a b c [S1 T1] [S2 T2]. split.
  - intros s Hs. rewrite S2, S1; done.
  - intros p Hp. destruct (decide (streams c !! p = streams b !! p)) as [E|E]; [|by apply T2].
    rewrite E in *. by apply T1.
Qed.
Lemma confined_same scope st st' :
  streams st' = streams st -> sessions st' = sessions st -> confined scope st st'.
Proof. intros E1 E2. split; intros; rewrite ?E1, ?E2 in *; done. Qed.

Lemma append_confined scope s bytes pre :
  rs_session s = identity scope ->
  StoragePaths.snapshots (scope_actor scope) = Ok pre -> starts_with pre (prefix s) = true ->
  keeps (confined scope) (append s bytes).
Proof.
  intros Hs Hp Hpre st. unfold append, mbind, Store_bind. cbn.
  destruct (head s st) as [h|e] eqn:Eh; cbn; [|reflexivity].
  apply head_spec in Eh as [Eh _].
  assert (Hw : forall r, keeps (confined scope)
    (put {| md_object := object r; md_size := len bytes |} bytes;;
     save_head (with_latest h r);; prune_stream (with_latest h r))).
  { intros r. apply keeps_bind; [apply _| |intros ?; apply keeps_bind; [apply _| |intros ?]].
    - by apply keeps_put; [apply _..|apply confined_same].
    - apply keeps_save_head; [apply _..|apply confined_same|]. intros st0. split; [done|].
      intros p Hne. cbn in *. rewrite Eh in *.
      destruct (decide (prefix s = p)) as [<-|Hd]; [|by rewrite lookup_insert_ne in Hne].
      rewrite lookup_insert_eq. eexists _, pre. split_and!; try done. cbn. by rewrite Eh.
    - by apply keeps_prune; [apply _..|apply confined_same]. }
  unfold mbind, Store_bind in Hw.
  destruct (ensure _ _); cbn; [|reflexivity]. destruct (stream_snapshot s bytes) as [r|]; cbn; [|reflexivity].
  destruct (latest h) as [r0|]; [|apply Hw]. destruct (ensure _ _); cbn; [|reflexivity].
  destruct (_ =? _); [|apply Hw]. destruct (ensure _ _); cbn; [|reflexivity].
  unfold sync_directory. destruct (io_cases st) as (f & [-> | ->]); [|by apply confined_same].
  etrans; [by apply (confined_same scope st (set_faults f st))|].
  apply (keeps_prune (confined scope)); apply confined_same.
Qed.

Lemma save_session_confined scope h :
  head_session h = identity scope -> keeps (confined scope) (save_session h).
Proof.
  intros Hh. apply keeps_save_session; [apply _..|apply confined_same|].
  intros st. split; [|done]. intros s Hs. cbn. rewrite lookup_insert_ne; [done|congruence].
Qed.

(** The five requests a replica serves *)
Inductive ReplicaRequest :=
| ReadRequest (r : Request unit)
| WriteRequest (r : Request string)
| InitializeRequest (r : Request unit)
| HeadRequest (r : Request unit)
| SealRequest (r : Request unit).

Definition serve (b : option ReplicaBinding) (now : Result Z) (q : ReplicaRequest) (st : StoreState)
  : StoreState :=
  match q with
  | ReadRequest r => (read_handler b now r st).2
  | WriteRequest r => (write_handler b now r st).2
  | InitializeRequest r => (initialize_handler b now r st).2
  | HeadRequest r => (head_handler b now r st).2
  | SealRequest r => (seal_handler b now r st).2
  end.

Lemma read_confined scope o : keeps (confined scope) (read o).
Proof. unfold read, read_blob. pose proof (confined_same scope). by keeps. Qed.
Lemma stream_head_confined scope s : keeps (confined scope) (stream_head s).
Proof. unfold stream_head. by keeps. Qed.

Lemma seal_confined scope st :
  head_session (session_head (identity scope) st) = identity scope ->
  confined scope st (seal_session (identity scope) st).2.
Proof.
  intros Hn. unfold seal_session, mbind, Store_bind. cbn [get_state].
  pose proof (save_session_confined scope {|
    head_session := head_session (session_head (identity scope) st);
    initialized := initialized (session_head (identity scope) st); sealed := true;
    Snapshots.streams := Snapshots.streams (session_head (identity scope) st) |} Hn st) as Hk.
  revert Hk. by destruct (save_session _ st) as [[u|e] st'].
Qed.

Lemma initialize_confined scope st :
  head_session (session_head (identity scope) st) = identity scope ->
  confined scope st (initialize_session (identity scope) st).2.
Proof.
  intros Hn. unfold initialize_session, mbind, Store_bind. cbn [get_state lift].
  destruct (ensure _ _); [|reflexivity]. by apply save_session_confined.
Qed.

(** A replica serves only the activation it is bound to.  Whatever request
    arrives, with whatever capability and whatever I/O errors, the records of
    other sessions do not change, and a stream that changes belongs to the
    bound session and lies under the bound actor's snapshots. *)
Theorem replica_serves_only_its_activation b now q st :
  (forall s h, sessions st !! s = Some h -> head_session h = s) ->
  confined (binding_scope b) st (serve (Some b) now q st).
Proof.
  intros Hn.
  assert (Hid : head_session (session_head (identity (binding_scope b)) st) = identity (binding_scope b)).
  { unfold session_head. destruct (sessions st !! _) eqn:E; [|done]. by apply Hn. }
  destruct q as [r|r|r|r|r]; cbn [serve];
    unfold read_handler, write_handler, initialize_handler, head_handler, seal_handler, handle.
  - destruct (authorize _ _ _ _) as [g|]; [|reflexivity]. apply read_confined.
  - destruct (authorize _ _ _ _) as [g|] eqn:Ea; [|reflexivity]. cbn.
    destruct (StateSnapshot_decode _); [|reflexivity]. cbn.
    destruct (grant_stream g) as [s|] eqn:Es; [|reflexivity]. cbn.
    destruct (stream_grant_spec b now r "APPEND" g s) as (Hs & p & Hp & Hpre); [by left|done..|].
    by eapply append_confined.
  - destruct (session_grant _ _ _ _) as [g|] eqn:Eg; [|reflexivity]. cbn.
    apply session_grant_spec in Eg; [|by left]. rewrite Eg. by apply initialize_confined.
  - destruct (authorize _ _ _ _) as [g|] eqn:Ea; [|reflexivity]. cbn.
    destruct (grant_stream g) as [s|]; [|reflexivity]. apply stream_head_confined.
  - destruct (session_grant _ _ _ _) as [g|] eqn:Eg; [|reflexivity]. cbn.
    apply session_grant_spec in Eg; [|by right]. rewrite Eg. by apply seal_confined.
Qed.
End handlers.

Section capability.
Context `{Base64Url, Hmac, Json ReplicaGrant, !Base64UrlLaws, !JsonLaws ReplicaGrant}.

(** A capability reads back as the grant it was signed for: the token of a
    grant that is in date, names an allowed operation, an object under the
    storage root and (if any) a stream of that object verifies to that very
    grant. *)
Theorem capability_roundtrip key t grant ops :
  len (capability_token key grant) <= 16 * 1024 ->
  grant_operation grant ∈ ops -> t < grant_expires_at_ms grant ->
  starts_with ROOT (grant_object grant) = true -> len (grant_object grant) <= 1024 ->
  (forall s, grant_stream grant = Some s ->
     prefix s = grant_object grant /\ starts_with (ROOT +:+ "hosts/") (rs_session s) = true /\
     0 < rs_owner_epoch s) ->
  validate_region (grant_region grant) = Ok () ->
  verify_any key (Ok t) (capability_token key grant) ops = Ok grant.
Proof.
  intros Hl Hop Ht Hroot Hol Hs Hreg. unfold verify_any.
  rewrite (proj2 (Z.leb_le _ _)) by done. cbn [ensure mbind Result_bind].
  unfold capability_token. change ("." +:+ ?x) with (String "." x).
  rewrite split_once_app.
  2: { apply (contains_char_class _ b64_byte); [done|apply b64_alphabet]. }
  cbn [with_context mbind Result_bind]. rewrite !b64_roundtrip. cbn [mbind Result_bind].
  rewrite String.eqb_refl. cbn [ensure mbind Result_bind].
  rewrite json_roundtrip. cbn [mbind Result_bind].
  rewrite bool_decide_eq_true_2 by done. cbn [ensure mbind Result_bind].
  rewrite (proj2 (Z.ltb_lt _ _)) by done. cbn [ensure mbind Result_bind].
  rewrite Hroot, (proj2 (Z.leb_le _ _)) by done. cbn [ensure mbind Result_bind andb].
  assert (Hst : is_none_or (fun s => String.eqb (prefix s) (grant_object grant)
      && starts_with (ROOT +:+ "hosts/") (rs_session s) && (0 <? rs_owner_epoch s))
      (grant_stream grant) = true).
  { destruct (grant_stream grant) as [s|]; [|done]. destruct (Hs s eq_refl) as (Ep & E & E').
    unfold is_none_or. rewrite Ep.
    apply andb_true_intro. split; [|by apply Z.ltb_lt]. by rewrite String.eqb_refl, E. }
  rewrite Hst. cbn [ensure mbind Result_bind]. by rewrite Hreg.
Qed.
End capability.

Lemma head_wire h : head_from_proto (head_to_proto h) = Ok h.
Proof. by destruct h as [[] [[]|]]. Qed.

Lemma heads_wire l : collect head_from_proto (head_to_proto <$> l) = Ok l.
Proof. induction l as [|h l IH]; [done|]. cbn -[head_from_proto]. by rewrite head_wire, IH. Qed.

(** What a replica reports about a session arrives unchanged: decoding the
    encoded session head gives the head, with all its streams in order. *)
Theorem session_head_wire_roundtrip h : session_from_proto (session_to_proto h) = Ok h.
Proof.
  unfold session_from_proto, session_to_proto. cbn [p_streams]. rewrite heads_wire. by destruct h.
Qed.

Section assignment.
Context `{Base64Url, Sha256, Json Metadata, Json StreamHead, Json SessionHead}.

(** The binding and the recorded assignment tell the same story. *)
Definition assignment_consistent (state : AssignmentState) : Prop :=
  binding state =
    (fun a => {| binding_key := as_secret a; binding_host_id := as_host_id a;
                 binding_scope := as_scope a |}) <$> assigned state.

Lemma assign_consistent header a state :
  assignment_consistent state -> assignment_consistent (assign header a state).2.
Proof.
  unfold assignment_consistent, assign. intros Hc. repeat case_match; cbn; try done; congruence.
Qed.

Lemma assign_keeps header a a0 state :
  assigned state = Some a0 -> (assign header a state).2 = state.
Proof. intros Ha. unfold assign. repeat case_match; cbn; done. Qed.

Fixpoint assigns (requests : list (option string * ReplicaAssignment)) (state : AssignmentState)
  : AssignmentState :=
  match requests with
  | [] => state
  | (header, a) :: rest => assigns rest (assign header a state).2
  end.

Lemma assigns_keep requests a state :
  assigned state = Some a -> assigns requests state = state.
Proof.
  intros Ha. induction requests as [|[h b] rest IH]; [done|].
  cbn. by rewrite (assign_keeps h b a) by done.
Qed.

(** A spare replica is bound once.  After an accepted assignment the
    replica is bound to that host, scope and secret, and no later request,
    authorized or not, changes the binding; repeating the accepted request is
    accepted again, and an authorized request for anything else is refused. *)
Theorem assignment_is_permanent requests header a state :
  assignment_consistent state ->
  (assign header a state).1 = inl NO_CONTENT ->
  let state' := assigns requests (assign header a state).2 in
  binding state' = Some {| binding_key := as_secret a; binding_host_id := as_host_id a;
                           binding_scope := as_scope a |} /\
  (assign header a state').1 = inl NO_CONTENT /\
  forall header' a', a' <> a -> (assign header' a' state').1 <> inl NO_CONTENT.
Proof.
  intros Hc Hok. cbn zeta.
  assert (Ha : assigned (assign header a state).2 = Some a /\
    header = Some (expected_authorization (assign header a state).2) /\
    ActorKey_validate (scope_actor (as_scope a)) = Ok () /\
    is_empty (as_host_id a) || is_empty (scope_host (as_scope a))
      || is_empty (scope_session (as_scope a)) || (len (as_secret a) <? 32) = false).
  { revert Hok. unfold assign.
    destruct header as [sup|]; [|done]. destruct (String.eqb _ sup) eqn:Es; [|done]. cbn.
    destruct (ActorKey_validate _) as [[]|] eqn:Ev; [|done]. cbn.
    destruct (_ || _) eqn:Eb; [done|]. bools. subst sup.
    destruct (assigned state) as [e|] eqn:Ea.
    - case_bool_decide; [|done]. intros _. subst e. cbn. by rewrite Ea.
    - destruct (initialize_session _ _) as [[u|e] st']; [|done]. by destruct (binding state). }
  destruct Ha as (Ha & Hh & Hv & Hb).
  pose proof (assign_consistent header a state Hc) as Hc'.
  assert (Hst : assigns requests (assign header a state).2 = (assign header a state).2).
  { by apply assigns_keep with a. }
  rewrite Hst. set (s1 := (assign header a state).2) in *. split_and!.
  - by rewrite Hc', Ha.
  - unfold assign. rewrite Hh, String.eqb_refl, Hv, Hb, Ha. cbn. by rewrite bool_decide_eq_true_2.
  - intros h' a' Hne. unfold assign. rewrite Ha. repeat case_match; cbn; try done.
    bools. congruence.
Qed.
End assignment.

(** * Examples *)
Import Hex.
#[global] Instance ReplicaGrant_text : Text ReplicaGrant.
Proof.
  refine (via (fun g => (grant_stream g, (grant_operation g, (grant_object g, (grant_region g,
                         (grant_host_id g, grant_expires_at_ms g))))))
    (fun '(a, (b, (c, (d, (e, f))))) => Some (Build_ReplicaGrant a b c d e f)) _). by intros [].
Defined.
#[global] Instance sample_hmac : Hmac := {| hmac_sign := fun key s => key +:+ s |}.

Definition sample_scope : ReplicaScope :=
  {| scope_actor := sample_actor; scope_host := "h"; scope_session := "s"; scope_region := "eu" |}.
Definition sample_binding : ReplicaBinding :=
  {| binding_key := "k"; binding_host_id := "r1"; binding_scope := sample_scope |}.
Definition sample_grant : ReplicaGrant :=
  {| grant_stream := None; grant_operation := "INITIALIZE_SESSION";
     grant_object := identity sample_scope; grant_region := "eu"; grant_host_id := "r1";
     grant_expires_at_ms := 100 |}.
Definition sample_request : Request unit :=
  {| authorization := Some ("Bearer " +:+ capability_token "k" sample_grant); payload_of := () |}.
Definition empty_store : StoreState :=
  {| directory := ∅; capacity := 100000; used := 0; snapshots := ∅; streams := ∅;
     sessions := ∅; faults := [] |}.

Lemma replica_serves_only_its_activation_witness :
  confined sample_scope empty_store
    (serve (Some sample_binding) (Ok 7) (InitializeRequest sample_request) empty_store) /\
  initialized (session_head (identity sample_scope)
    (serve (Some sample_binding) (Ok 7) (InitializeRequest sample_request) empty_store)) = true.
Proof.
  split; [|vm_compute; reflexivity].
  apply (replica_serves_only_its_activation sample_binding). intros s h E. cbn in E.
  rewrite lookup_empty in E. discriminate E.
Defined.

Lemma capability_roundtrip_witness :
  verify_any "k" (Ok 7) (capability_token "k" sample_grant) ["INITIALIZE_SESSION"] = Ok sample_grant.
Proof.
  apply capability_roundtrip.
  - vm_compute. discriminate.
  - apply list_elem_of_singleton. reflexivity.
  - reflexivity.
  - vm_compute. reflexivity.
  - vm_compute. discriminate.
  - intros s E. discriminate E.
  - vm_compute. reflexivity.
Defined.

Lemma assignment_is_permanent_witness :
  let a := {| as_host_id := "r1"; as_scope := sample_scope;
              as_secret := "0123456789abcdef0123456789abcdef" |} in
  let state := {| expected_authorization := "Bearer t"; as_store := empty_store;
                  binding := None; assigned := None |} in
  exists b,
    binding (assigns [(None, a); (Some "Bearer t", a)] (assign (Some "Bearer t") a state).2) = Some b /\
    binding_host_id b = "r1".
Proof.
  cbn zeta. eexists. split.
  - apply (assignment_is_permanent _ (Some "Bearer t")); [reflexivity|].
    vm_compute. reflexivity.
  - reflexivity.
Defined.
