(* ===== verification/RuntimeStorage.v ===== *)
(** Durable ownership and recovery: [bucket.rs], [bucket/peers.rs] and
    [bucket/runtime.rs] with its modules [activation], [session], [repair],
    [startup] and [history].

    The code talks to a bucket, to replicas, to a clock and to its own
    in-memory maps between [await] points, while other hosts do the same.  An
    operation is a program [prog] over those requests ([Eff]), so that the
    theorems can interleave the requests of any number of hosts.  A reply is an
    argument of the continuation; what replies are possible is said where the
    requests are given a meaning.  [Spin] ends the unfolding of an unbounded
    retry loop. *)

From S2P Require Import Prelude.
From S2P Require Import Actors.
From S2P Require Import StoragePaths.
From S2P Require Import Snapshots.
From S2P Require Import ReplicaStore.
From S2P Require Import ReplicaServer.
Local Open Scope string_scope.
Local Open Scope Z_scope.

(** * Data *)
Record BucketObject := { generation : Z; bytes_of : string }.
#[global] Instance BucketObject_eq_dec : EqDecision BucketObject.
Proof. solve_decision. Defined.

Record Ownership := {
  inventory : ActivationInventory;
  lease : HostLease;
  mutation : string;
  own_actor : ActorKey;
  epoch : Z;
  region : string;
  base : option SnapshotRef }.

Record LoadedSnapshot := { reference : SnapshotRef; loaded_bytes : string }.
Record LoadedActor := { placement : ObjectPlacement; loaded_state : option string }.

Inductive RecoveryState := Open | Recovering | Sealed.
#[global] Instance RecoveryState_eq_dec : EqDecision RecoveryState.
Proof. solve_decision. Defined.

Record Session := {
  ses_id : string;
  ses_region : string;
  ses_replicas : list ReplicaTarget;
  ses_state : RecoveryState }.
#[global] Instance Session_eq_dec : EqDecision Session.
Proof. solve_decision. Defined.

Record ReplicaMembership := { mem_scope : ReplicaScope; mem_replicas : list ReplicaTarget }.

Record StateRecord := {
  rec_state_version : Z;
  rec_owner_epoch : Z;
  rec_request_id : string;
  rec_attribution : option StateAttribution }.
Record InspectedState := { ins_record : StateRecord; ins_state : string }.
Record StateHistoryPage := { records : list StateRecord; next_before : option Z }.

(** [placement.rs]: what the control plane shows of an actor's instances *)
Inductive ActorResidency := Live | Dormant | Unknown.
Record ActorInstanceOverview := {
  ov_actor_id : string;
  ov_status : ActorResidency;
  ov_connections : list (string * Value);
  ov_waiting : option (list WaitingOperation) }.
Record ActorInventory := {
  row_actor_name : string;
  row_live : Z;
  row_dormant : Z;
  row_unknown : Z;
  row_instances : list ActorInstanceOverview }.
Definition row_leb (a b : ActorInventory) : Prop :=
  String.leb (row_actor_name a) (row_actor_name b) = true.
#[global] Instance row_leb_dec : RelDecision row_leb.
Proof. intros a b. unfold row_leb. apply _. Defined.
Definition instance_leb (a b : ActorInstanceOverview) : Prop :=
  String.leb (ov_actor_id a) (ov_actor_id b) = true.
#[global] Instance instance_leb_dec : RelDecision instance_leb.
Proof. intros a b. unfold instance_leb. apply _. Defined.
Definition sort_instances (r : ActorInventory) : ActorInventory :=
  {| row_actor_name := row_actor_name r; row_live := row_live r; row_dormant := row_dormant r;
     row_unknown := row_unknown r; row_instances := merge_sort instance_leb (row_instances r) |}.

Inductive StateWrite := Written | AlreadyExists | Replicated.

(** * Requests and programs *)
Inductive Eff : Type -> Type :=
(* the bucket *)
| BGet (key : string) : Eff (Result (option BucketObject))
| BCas (key : string) (expected : option Z) (bytes : string) : Eff (Result bool)
| BList (pre : string) : Eff (Result (list string))
(* the storage's clock, the system clock, fresh identifiers *)
| Now : Eff (Result Z)
| SystemNow : Eff (Result Z)
| NewUuid : Eff string
(* the maps [owned] and [sessions] of this process *)
| OwnedGet (key : string) : Eff (option Ownership)
| OwnedInsert (key : string) (record : Ownership) : Eff unit
| SessionsGet (key : string) : Eff (option (list ReplicaTarget))
| SessionsInsert (key : string) (replicas : list ReplicaTarget) : Eff unit
| SessionsRemove (key : string) : Eff unit
(* replicas: a list of requests in parallel, replies in order of arrival *)
| PeerHeads (targets : list ReplicaTarget) (s : ReplicaStream)
    : Eff (list (ReplicaTarget * Result StreamHead))
| PeerSeals (targets : list ReplicaTarget) (s : string) : Eff (list (Result SessionHead))
| PeerRead (target : ReplicaTarget) (o : string) : Eff (Result string)
| PeerReads (targets : list ReplicaTarget) (o : string) : Eff (list (Result string))
| PeerInitializes (targets : list ReplicaTarget) (s : string) : Eff (list (Result unit))
| TransportWrites (urls : list (Result string)) (bytes : string) : Eff (Result unit)
(* the fleet, the order of a hash map, a deadline that may have passed *)
| FleetRepair (scope : ReplicaScope) (failed : list string) : Eff (Result (list ReplicaTarget))
| HashOrder (l : list SnapshotRef) : Eff (list SnapshotRef)
| DeadlinePassed : Eff bool.

Inductive prog (A : Type) : Type :=
| Ret (r : Result A)
| Vis {X : Type} (e : Eff X) (k : X -> prog A)
| Spin.
Arguments Ret {A} r.
Arguments Vis {A X} e k.
Arguments Spin {A}.

#[global] Instance prog_ret : MRet prog := fun A a => Ret (Ok a).
#[global] Instance prog_bind : MBind prog := fun A B f =>
  fix go (p : prog A) : prog B :=
    match p with
    | Ret (Ok a) => f a
    | Ret (Err e) => Ret (Err e)
    | Vis e k => Vis e (fun x => go (k x))
    | Spin => Spin
    end.

(** [e.await], [e.await?], [result?] and a result that is inspected *)
Definition call {X} (e : Eff X) : prog X := Vis e (fun x => Ret (Ok x)).
Definition call_ok {X} (e : Eff (Result X)) : prog X := Vis e (fun r => Ret r).
Definition lift_r {A} (r : Result A) : prog A := Ret r.
Definition require (b : bool) (msg : string) : prog unit := Ret (ensure b msg).
Fixpoint attempt {A} (p : prog A) : prog (Result A) :=
  match p with
  | Ret r => Ret (Ok r)
  | Vis e k => Vis e (fun x => attempt (k x))
  | Spin => Spin
  end.

(** [tokio::time::timeout]: the result, unless the deadline passed first *)
Definition with_timeout {A} (p : prog A) : prog A :=
  r ← attempt p;
  late ← call DeadlinePassed;
  if (late : bool) then Ret (Err "deadline has elapsed") else Ret r.

(** * [bucket.rs] *)
Definition replace (key : string) (expected : option Z) (bytes : string) : prog bool :=
  result ← call (BCas key expected bytes);
  match result with
  | Ok true => mret true
  | _ =>
      (* A retry can report a failed precondition after the first request succeeded. *)
      current ← call_ok (BGet key);
      match current with
      | Some o => if String.eqb (bytes_of o) bytes then mret true else lift_r result
      | None => lift_r result
      end
  end.

(** * Snapshot positions *)
Definition pos_ltb (a b : option (Z * Z)) : bool :=
  match a, b with
  | None, Some _ => true
  | Some (e1, v1), Some (e2, v2) => (e1 <? e2) || ((e1 =? e2) && (v1 <? v2))
  | _, None => false
  end.

Definition apply_snapshot (p : ObjectPlacement) (s : option SnapshotRef) : ObjectPlacement :=
  match s with
  | None => p
  | Some r =>
      {| pl_lease := pl_lease p; pl_object := pl_object p; pl_owner := pl_owner p;
         pl_owner_epoch := pl_owner_epoch p; home_region := home_region p;
         pl_state_version := ref_state_version r; state_object := Some (object r);
         last_request_id := Some (ref_request_id r) |}
  end.

Definition advance (current candidate : option SnapshotRef) : Result (option SnapshotRef) :=
  match candidate with
  | None => Ok current
  | Some c =>
      match current with
      | None => Ok (Some c)
      | Some cur =>
          ensure (negb (bool_decide (snapshot_position (object cur) = snapshot_position (object c)))
                  || bool_decide (cur = c)) "conflicting snapshot witnesses";;
          Ok (if pos_ltb (snapshot_position (object cur)) (snapshot_position (object c))
              then Some c else Some cur)
      end
  end.

(** * [Ownership] *)
Section ownership.
Context `{Base64Url, Sha256}.

Definition Ownership_scope (o : Ownership) : ReplicaScope :=
  {| scope_actor := own_actor o; scope_host := lease_id (lease o);
     scope_session := lease_session_id (lease o); scope_region := region o |}.

Definition Ownership_placement (o : Ownership) : ObjectPlacement :=
  apply_snapshot
    {| pl_lease := lease o; pl_object := storage_key (own_actor o);
       pl_owner := lease_id (lease o); pl_owner_epoch := epoch o; home_region := region o;
       pl_state_version := 0; state_object := None; last_request_id := None |}
    (base o).

(** [session::identity] and [session::key] *)
Definition session_identity (h : HostId) (s : string) : string := session h s +:+ "/".
Definition session_key (h : HostId) (s : string) : string := session h s +:+ ".json".

Definition Ownership_stream (o : Ownership) : Result ReplicaStream :=
  name ← snapshot_object_name (own_actor o) 1 (hex32 (epoch o));
  pre ← with_context (strip_suffix "1.json" name) "unwrap";
  Ok {| rs_session := session_identity (lease_id (lease o)) (lease_session_id (lease o));
        prefix := pre; rs_owner_epoch := epoch o;
        base_version := match base o with Some b => ref_state_version b | None => 0 end |}.

Definition ownership_key (object : ActorStorageKey) : Result string := owner object.
Definition actor_from_object (o : string) : Result ActorKey := actor_from_snapshot o.
End ownership.

Definition set_lease (l : HostLease) (o : Ownership) : Ownership :=
  {| inventory := inventory o; lease := l; mutation := mutation o; own_actor := own_actor o;
     epoch := epoch o; region := region o; base := base o |}.
Definition set_inventory (i : ActivationInventory) (o : Ownership) : Ownership :=
  {| inventory := i; lease := lease o; mutation := mutation o; own_actor := own_actor o;
     epoch := epoch o; region := region o; base := base o |}.
Definition set_mutation (m : string) (o : Ownership) : Ownership :=
  {| inventory := inventory o; lease := lease o; mutation := m; own_actor := own_actor o;
     epoch := epoch o; region := region o; base := base o |}.
Definition expire_now (l : HostLease) : HostLease :=
  {| lease_id := lease_id l; lease_session_id := lease_session_id l; lease_route := lease_route l;
     expires_at_ms := 0 |}.
Definition set_ses_state (s : RecoveryState) (x : Session) : Session :=
  {| ses_id := ses_id x; ses_region := ses_region x; ses_replicas := ses_replicas x;
     ses_state := s |}.
Definition set_ses_replicas (l : list ReplicaTarget) (x : Session) : Session :=
  {| ses_id := ses_id x; ses_region := ses_region x; ses_replicas := l; ses_state := ses_state x |}.
Definition is_open (s : Session) : bool := bool_decide (ses_state s = Open).

(** What one storage process is configured with *)
Record Config := { access_key : string; origin : string; fleet_regions : list string }.

(** * The storage process *)
Section storage.
Context `{Base64Url, Sha256, Hmac, UrlParser, Json ReplicaGrant, Json StateSnapshot,
          Json Ownership, Json Session, Json StateRecord}.
Context (config : Config).

(** [bucket/peers.rs: grant] *)
Definition grant (operation reg obj : string) (duration : Z) : prog ReplicaGrant :=
  t ← call_ok SystemNow;
  mret {| grant_stream := None; grant_operation := operation; grant_object := obj;
          grant_region := reg; grant_host_id := ""; grant_expires_at_ms := saturating_add t duration |}.
Definition for_host (h : string) (g : ReplicaGrant) : ReplicaGrant :=
  {| grant_stream := grant_stream g; grant_operation := grant_operation g;
     grant_object := grant_object g; grant_region := grant_region g; grant_host_id := h;
     grant_expires_at_ms := grant_expires_at_ms g |}.
Definition for_stream (s : ReplicaStream) (g : ReplicaGrant) : ReplicaGrant :=
  {| grant_stream := Some s; grant_operation := grant_operation g;
     grant_object := grant_object g; grant_region := grant_region g;
     grant_host_id := grant_host_id g; grant_expires_at_ms := grant_expires_at_ms g |}.

Definition load (object : ActorStorageKey) : prog (option (Z * Ownership)) :=
  key ← lift_r (ownership_key object);
  value ← call_ok (BGet key);
  match value with
  | None => mret None
  | Some v => record ← lift_r (from_slice (bytes_of v)); mret (Some (generation v, record))
  end.

Definition persist_object (obj bytes : string) : prog unit :=
  done ← replace obj None bytes;
  require done "conflicting immutable snapshot".

Definition decode_snapshot (obj bytes : string) : Result LoadedSnapshot :=
  snapshot ← StateSnapshot_decode bytes;
  ensure (bool_decide (snapshot_position obj = Some (owner_epoch snapshot, state_version snapshot)))
    "snapshot identity does not match its object";;
  Ok {| reference := SnapshotRef_new obj snapshot bytes; loaded_bytes := bytes |}.

(** The peers loop of [recover_snapshot] *)
Fixpoint recover_from (replicas : list ReplicaTarget) (snapshot : SnapshotRef) : prog string :=
  match replicas with
  | [] => lift_r (Err "acknowledged snapshot is unavailable")
  | peer :: rest =>
      reply ← call (PeerRead peer (object snapshot));
      match reply with
      | Ok bytes =>
          lift_r (SnapshotRef_verify snapshot bytes);;
          persist_object (object snapshot) bytes;;
          mret bytes
      | Err _ => recover_from rest snapshot
      end
  end.

Definition recover_snapshot (replicas : list ReplicaTarget) (snapshot : SnapshotRef) : prog string :=
  stored ← call_ok (BGet (object snapshot));
  match stored with
  | Some o => lift_r (SnapshotRef_verify snapshot (bytes_of o));; mret (bytes_of o)
  | None => recover_from replicas snapshot
  end.

(** [session.rs: replica_members] *)
Definition replica_members (scope : ReplicaScope) : prog (list ReplicaTarget) :=
  stored ← call_ok (BGet (session_key (scope_host scope) (scope_session scope)));
  match stored with
  | None => mret []
  | Some o =>
      s ← lift_r (from_slice (bytes_of o));
      require (String.eqb (ses_id s) (identity scope) && String.eqb (ses_region s) (scope_region scope))
        "session identity mismatch";;
      mret (if bool_decide (ses_state s = Sealed) then [] else ses_replicas s)
  end.

(** [max_by_key]: the last of the largest positions *)
Fixpoint max_by_position (l : list ((Z * Z) * string)) (best : option ((Z * Z) * string))
  : option ((Z * Z) * string) :=
  match l with
  | [] => best
  | x :: rest =>
      max_by_position rest
        (match best with
         | Some b => if pos_ltb (Some x.1) (Some b.1) then Some b else Some x
         | None => Some x
         end)
  end.

Definition newest_of_epoch (e : Z) (keys : list string) : option ((Z * Z) * string) :=
  max_by_position
    (omap (fun key => p ← snapshot_position key; if p.1 =? e then Some (p, key) else None) keys)
    None.

(** The loop of [latest] over the heads that replicas report *)
Fixpoint count_heads (s : ReplicaStream) (replies : list (ReplicaTarget * Result StreamHead))
  (witnesses : nat) (candidate : option SnapshotRef) : Result (nat * option SnapshotRef) :=
  match replies with
  | [] => Ok (witnesses, candidate)
  | (_, Err _) :: rest => count_heads s rest witnesses candidate
  | (_, Ok h) :: rest =>
      ensure (bool_decide (head_stream h = s)) "replica returned another stream";;
      c ← advance candidate (latest h);
      count_heads s rest (S witnesses) c
  end.

Definition latest_snapshot (record : Ownership) (known : option LoadedSnapshot)
  : prog (option LoadedSnapshot) :=
  s ← lift_r (Ownership_stream record);
  keys ← call_ok (BList (prefix s));
  loaded ←
    (match newest_of_epoch (epoch record) keys with
     | Some (_, key) =>
         if bool_decide ((object ∘ reference) <$> known = Some key) then mret known
         else
           stored ← call_ok (BGet key);
           o ← lift_r (with_context stored "listed snapshot disappeared");
           l ← lift_r (decode_snapshot key (bytes_of o));
           mret (Some l)
     | None => mret known
     end);
  candidate ← lift_r (advance (base record) (reference <$> loaded));
  replicas ← replica_members (Ownership_scope record);
  replies ← call (PeerHeads replicas s);
  '(witnesses, candidate) ← lift_r (count_heads s replies 0 candidate);
  require (is_nil replicas || (0 <? witnesses)%nat)
    "no complete replica witness; refusing to lose acknowledged state";;
  match candidate with
  | Some snapshot =>
      if bool_decide (reference <$> loaded = Some snapshot) then mret loaded
      else
        bytes ← recover_snapshot replicas snapshot;
        mret (Some {| reference := snapshot; loaded_bytes := bytes |})
  | None => mret loaded
  end.

Definition current_placement (record : Ownership) : prog ObjectPlacement :=
  l ← latest_snapshot record None;
  mret (apply_snapshot (Ownership_placement record) (reference <$> l)).

(** [ObjectPlacementStore] *)
Definition get_owner (object : ActorStorageKey) : prog (option ObjectPlacement) :=
  l ← load object;
  mret (option_map (fun gr => Ownership_placement gr.2) l).
Definition get_placement (object : ActorStorageKey) : prog (option ObjectPlacement) :=
  l ← load object;
  match l with
  | Some (_, record) => p ← current_placement record; mret (Some p)
  | None => mret None
  end.

Definition remember (record : Ownership) (snapshot : option LoadedSnapshot) : prog LoadedActor :=
  call (OwnedInsert (storage_key (own_actor record)) record);;
  mret {| placement := apply_snapshot (Ownership_placement record) (reference <$> snapshot);
          loaded_state := loaded_bytes <$> snapshot |}.

Definition load_actor (record : Ownership) : prog LoadedActor :=
  snapshot ← latest_snapshot record None;
  remember record snapshot.

Definition activate_actor (actor : ActorKey) (l : HostLease) (reg : string) : prog LoadedActor :=
  current ← load (storage_key actor);
  '(_, record) ← lift_r (with_context current "actor has no ownership");
  require (bool_decide (own_actor record = actor) && String.eqb (region record) reg
           && String.eqb (lease_id (lease record)) (lease_id l)
           && String.eqb (lease_session_id (lease record)) (lease_session_id l))
    "actor ownership changed";;
  load_actor record.

Definition load_owned_actor (actor : ActorKey) (l : HostLease) (e : Z) : prog LoadedActor :=
  current ← load (storage_key actor);
  '(_, record) ← lift_r (with_context current "actor has no ownership");
  require (String.eqb (lease_id (lease record)) (lease_id l)
           && String.eqb (lease_session_id (lease record)) (lease_session_id l)
           && (epoch record =? e)) "actor ownership changed";;
  load_actor record.

(** * Leases and activations: [activation.rs] *)
Definition new_lease (r : HostLeaseRequest) : prog HostLease :=
  lift_r (validate_duration r);;
  require (negb (is_empty (req_id r)) && negb (is_empty (req_session_id r)))
    "activation identity missing";;
  t ← call_ok Now;
  expires ← lift_r (with_context (checked_add t (duration_ms r)) "lease expiration overflow");
  mret {| lease_id := req_id r; lease_session_id := req_session_id r; lease_route := req_route r;
          expires_at_ms := expires |}.

Definition replace_activation (record : Ownership) (gen : option Z) : prog (bool * Ownership) :=
  m ← call NewUuid;
  let record := set_mutation m record in
  key ← lift_r (ownership_key (storage_key (own_actor record)));
  done ← replace key gen (to_vec record);
  mret (done, record).

Definition save_activation (record : Ownership) (gen : option Z) : prog Ownership :=
  '(done, record) ← replace_activation record gen;
  require done "actor activation changed concurrently";;
  mret record.

(** * Fencing and recovering a session: [session.rs] *)
Definition save_session_record (key : string) (gen : option Z) (s : Session) : prog bool :=
  replace key gen (to_vec s).

Fixpoint start_recovery (fuel : nat) (scope : ReplicaScope) : prog (option Session) :=
  match fuel with
  | O => Spin
  | S fuel' =>
      let key := session_key (scope_host scope) (scope_session scope) in
      let id := identity scope in
      stored ← call_ok (BGet key);
      match stored with
      | None =>
          (* A tombstone also fences initialization delayed past lease expiry. *)
          saved ← save_session_record key None
            {| ses_id := id; ses_region := scope_region scope; ses_replicas := [];
               ses_state := Sealed |};
          if (saved : bool) then mret None else start_recovery fuel' scope
      | Some o =>
          s ← lift_r (from_slice (bytes_of o));
          require (String.eqb (ses_id s) id && String.eqb (ses_region s) (scope_region scope))
            "session identity mismatch";;
          match ses_state s with
          | Sealed => mret None
          | Recovering => mret (Some s)
          | Open =>
              let s' := set_ses_state Recovering s in
              saved ← save_session_record key (Some (generation o)) s';
              if (saved : bool) then mret (Some s') else start_recovery fuel' scope
          end
      end
  end.

(** [finish_recovery] sets the state before its loop. *)
Fixpoint finish_loop (fuel : nat) (key : string) (s : Session) : prog unit :=
  match fuel with
  | O => Spin
  | S fuel' =>
      stored ← call_ok (BGet key);
      o ← lift_r (with_context stored "recovery record disappeared");
      record ← lift_r (from_slice (bytes_of o));
      if bool_decide (ses_state (record : Session) = Sealed) then mret ()
      else
        saved ← save_session_record key (Some (generation o)) s;
        if (saved : bool) then mret () else finish_loop fuel' key s
  end.
Definition finish_recovery (fuel : nat) (scope : ReplicaScope) (s : Session) : prog unit :=
  finish_loop fuel (session_key (scope_host scope) (scope_session scope)) (set_ses_state Sealed s).

(** The loops of [seal_replicas]: the streams of one replica, then replicas *)
Fixpoint collect_streams (id : string) (heads : list StreamHead) (m : gmap string SnapshotRef)
  : Result (gmap string SnapshotRef) :=
  match heads with
  | [] => Ok m
  | h :: rest =>
      ensure (String.eqb (rs_session (head_stream h)) id) "replica returned another session's stream";;
      match latest h with
      | None => collect_streams id rest m
      | Some snapshot =>
          ensure (String.eqb (object snapshot) (stream_object (head_stream h) (ref_state_version snapshot)))
            "replica snapshot identity mismatch";;
          entry ← advance (m !! prefix (head_stream h)) (Some snapshot);
          collect_streams id rest (partial_alter (fun _ => entry) (prefix (head_stream h)) m)
      end
  end.

Fixpoint collect_sessions (id : string) (replies : list (Result SessionHead)) (witnesses : nat)
  (m : gmap string SnapshotRef) : Result (nat * gmap string SnapshotRef) :=
  match replies with
  | [] => Ok (witnesses, m)
  | Err _ :: rest => collect_sessions id rest witnesses m
  | Ok h :: rest =>
      ensure (String.eqb (head_session h) id) "replica returned another session";;
      if negb (initialized h) || negb (sealed h) then collect_sessions id rest witnesses m
      else
        m' ← collect_streams id (Snapshots.streams h) m;
        collect_sessions id rest (S witnesses) m'
  end.

Definition seal_replicas (s : Session) : prog (list SnapshotRef) :=
  replies ← call (PeerSeals (ses_replicas s) (ses_id s));
  '(witnesses, m) ← lift_r (collect_sessions (ses_id s) replies 0 ∅);
  require (is_nil (ses_replicas s) || (0 <? witnesses)%nat)
    "no complete replica witness; refusing to lose acknowledged state";;
  call (HashOrder (map_to_list m).*2).

(** The loop of [restore_session] *)
Fixpoint restore_loop (pre : string) (replicas : list ReplicaTarget) (snapshots : list SnapshotRef)
  (loaded : option LoadedSnapshot) : prog (option LoadedSnapshot) :=
  match snapshots with
  | [] => mret loaded
  | snapshot :: rest =>
      bytes ← recover_snapshot replicas snapshot;
      restore_loop pre replicas rest
        (if starts_with pre (object snapshot)
            && (match loaded with
                | None => true
                | Some l => pos_ltb (snapshot_position (object (reference l)))
                                    (snapshot_position (object snapshot))
                end)
         then Some {| reference := snapshot; loaded_bytes := bytes |} else loaded)
  end.
Definition restore_session (o : Ownership) (s : Session) (snapshots : list SnapshotRef)
  : prog (option LoadedSnapshot) :=
  pre ← lift_r (snapshot_prefix (own_actor o));
  restore_loop pre (ses_replicas s) snapshots None.

Definition recover_session (fuel : nat) (o : Ownership) : prog (option LoadedSnapshot) :=
  started ← start_recovery fuel (Ownership_scope o);
  match started with
  | None => mret None
  | Some s =>
      snapshots ← seal_replicas s;
      recovered ← restore_session o s snapshots;
      finish_recovery fuel (Ownership_scope o) s;;
      mret recovered
  end.

Fixpoint recover_all (replicas : list ReplicaTarget) (snapshots : list SnapshotRef) : prog unit :=
  match snapshots with
  | [] => mret ()
  | s :: rest => recover_snapshot replicas s;; recover_all replicas rest
  end.

Definition retire_replication (fuel : nat) (scope : ReplicaScope) : prog unit :=
  current ← get_owner (storage_key (scope_actor scope));
  (match current with
   | None => mret ()
   | Some o =>
       if negb (String.eqb (pl_owner o) (scope_host scope))
          || negb (String.eqb (lease_session_id (pl_lease o)) (scope_session scope))
       then mret ()
       else
         t ← call_ok Now;
         require (expires_at_ms (pl_lease o) <=? t) "actor activation is still active"
   end);;
  started ← start_recovery fuel scope;
  match started with
  | None => mret ()
  | Some s =>
      snapshots ← seal_replicas s;
      recover_all (ses_replicas s) snapshots;;
      finish_recovery fuel scope s
  end.

(** * Taking over, renewing, releasing: [activation.rs] *)
Definition register_activation (fuel : nat) (actor : ActorKey) (r : HostLeaseRequest) (reg : string)
  (new_actor : bool) : prog LoadedActor :=
  lift_r (ActorKey_validate actor);;
  lift_r (validate_region reg);;
  lift_r (validate_duration r);;
  current ← (if new_actor then mret None else load (storage_key actor));
  recovered ←
    (match current with
     | Some (_, record) =>
         require (bool_decide (own_actor record = actor) && String.eqb (region record) reg)
           "ownership scope cannot change";;
         require (negb (String.eqb (lease_id (lease record)) (req_id r))
                  || negb (String.eqb (lease_session_id (lease record)) (req_session_id r)))
           "activation session cannot be reused";;
         t ← call_ok Now;
         require (expires_at_ms (lease record) <=? t) "previous owner lease is still active";;
         recovered ← recover_session fuel record;
         latest_snapshot record recovered
     | None => mret None
     end);
  e ← lift_r (with_context
        (match current with Some (_, record) => checked_add (epoch record) 1 | None => Some 1 end)
        "owner epoch overflow");
  l ← new_lease r;
  record ← save_activation
    {| inventory := ActivationInventory_default; lease := l; mutation := ""; own_actor := actor;
       epoch := e; region := reg; base := reference <$> recovered |}
    (fst <$> current);
  remember record recovered.

Definition renew_activation (actor : ActorKey) (r : HostLeaseRequest) (i : ActivationInventory)
  : prog HostLease :=
  current ← load (storage_key actor);
  '(gen, record) ← lift_r (with_context current "actor ownership missing");
  require (bool_decide (own_actor record = actor)
           && String.eqb (lease_id (lease record)) (req_id r)
           && String.eqb (lease_session_id (lease record)) (req_session_id r))
    "actor ownership changed";;
  t ← call_ok Now;
  require (t <? expires_at_ms (lease record)) "expired activation cannot renew";;
  require (String.eqb (lease_route (lease record)) (req_route r)) "activation route cannot change";;
  l ← new_lease r;
  save_activation (set_inventory i (set_lease l record)) (Some gen);;
  mret l.

(** [for _ in 0..3] *)
Fixpoint release_loop (tries : nat) (actor : ActorKey) (h : HostId) (s : string) : prog unit :=
  match tries with
  | O => lift_r (Err "actor activation kept changing during release")
  | S tries' =>
      current ← load (storage_key actor);
      match current with
      | None => mret ()
      | Some (gen, record) =>
          if negb (String.eqb (lease_id (lease record)) h)
             || negb (String.eqb (lease_session_id (lease record)) s)
             || (expires_at_ms (lease record) =? 0)
          then mret ()
          else
            '(done, _) ← replace_activation (set_lease (expire_now (lease record)) record) (Some gen);
            if (done : bool) then mret () else release_loop tries' actor h s
      end
  end.
Definition release_activation (actor : ActorKey) (h : HostId) (s : string) : prog unit :=
  release_loop 3 actor h s.

(** * Writing *)
Definition plan_targets (capability : ReplicaGrant) (replicas : list ReplicaTarget)
  : Result (list ReplicaTarget) :=
  collect (fun peer =>
    u ← capability_url (access_key config) (url peer) (for_host (host_id peer) capability);
    Ok {| host_id := host_id peer; target_region := target_region peer; url := u |}) replicas.

Definition write_plan (record : Ownership) (version : Z) (replicas : list ReplicaTarget)
  : prog WritePlan :=
  require (0 <? version) "state version must be positive";;
  s ← lift_r (Ownership_stream record);
  g ← grant "APPEND" (region record) (prefix s) 60000;
  let capability := for_stream s g in
  expires ← lift_r (i64_try_from (grant_expires_at_ms capability));
  targets ← lift_r (plan_targets capability replicas);
  mret {| plan_state_version := version; object_name := stream_object s version;
          plan_expires_at_ms := expires; plan_stream := s;
          replication := if is_nil targets then None else Some {| replicas := targets |} |}.

(** [repair.rs: local_replica_members] *)
Definition local_replica_members (scope : ReplicaScope) : prog (list ReplicaTarget) :=
  found ← call (SessionsGet (identity scope));
  mret (default [] found).

Definition prepare_actor_write (actor : ActorKey) (l : HostLease) (e version : Z) : prog WritePlan :=
  found ← call (OwnedGet (storage_key actor));
  record ← lift_r (with_context found "actor is not locally activated");
  require (String.eqb (lease_id (lease record)) (lease_id l)
           && String.eqb (lease_session_id (lease record)) (lease_session_id l)
           && (epoch record =? e)) "actor ownership changed";;
  replicas ← local_replica_members (Ownership_scope record);
  write_plan record version replicas.

(** [SnapshotWriter::write_snapshot] on the bucket *)
Definition write_snapshot (plan : WritePlan) (bytes : string) : prog StateWrite :=
  snapshot ← lift_r (stream_snapshot (plan_stream plan) bytes);
  require (String.eqb (object snapshot) (object_name plan)
           && (ref_state_version snapshot =? plan_state_version plan))
    "write plan does not match snapshot";;
  persist_object (object snapshot) bytes;;
  mret Written.

(** * Replica membership: [repair.rs] and [startup.rs] *)
Definition replication_enabled : bool := negb (is_nil (fleet_regions config)).

Definition current_write_plan (plan : WritePlan) : prog WritePlan :=
  actor ← lift_r (actor_from_object (object_name plan));
  found ← call (OwnedGet (storage_key actor));
  record ← lift_r (with_context found "actor is not locally activated");
  s ← lift_r (Ownership_stream record);
  require (bool_decide (s = plan_stream plan)) "write belongs to another activation";;
  members ← call (SessionsGet (rs_session (plan_stream plan)));
  write_plan record (plan_state_version plan) (default [] members).

(** Which of the checked replicas did not answer with the stream *)
Definition failed_hosts (ok : StreamHead -> bool)
  (replies : list (ReplicaTarget * Result StreamHead)) : list string :=
  omap (fun '(t, r) => match r with
                       | Ok h => if ok h then None else Some (host_id t)
                       | Err _ => Some (host_id t)
                       end) replies.

Definition unhealthy_replicas (scope : ReplicaScope) : prog (list string) :=
  found ← call (OwnedGet (storage_key (scope_actor scope)));
  record ← lift_r (with_context found "actor is not locally activated");
  s ← lift_r (Ownership_stream record);
  members ← call (SessionsGet (identity scope));
  replies ← call (PeerHeads (default [] members) s);
  mret (failed_hosts (fun h => bool_decide (head_stream h = s)) replies).

Definition replacement_replicas (scope : ReplicaScope) (failed : list string)
  : prog (list ReplicaTarget) :=
  targets ← call_ok (FleetRepair scope failed);
  found ← call (OwnedGet (storage_key (scope_actor scope)));
  record ← lift_r (with_context found "actor is not locally activated");
  s ← lift_r (Ownership_stream record);
  replies ← call (PeerHeads targets s);
  let missing := failed_hosts (fun _ => true) replies in
  if is_nil missing then mret targets else call_ok (FleetRepair scope missing).

Definition suspend_replication (scope : ReplicaScope) : prog unit :=
  call (SessionsRemove (identity scope)).

Definition enable_replication (m : ReplicaMembership) : prog unit :=
  found ← call (OwnedGet (storage_key (scope_actor (mem_scope m))));
  record ← lift_r (with_context found "actor is not locally activated");
  require (bool_decide (Ownership_scope record = mem_scope m))
    "activation changed during replica catch-up";;
  call (SessionsInsert (identity (mem_scope m)) (mem_replicas m)).

(** The writes of [seed_replicas]: each with a capability of its own *)
Fixpoint seed_urls (s : ReplicaStream) (replicas : list ReplicaTarget) : prog (list (Result string)) :=
  match replicas with
  | [] => mret []
  | t :: rest =>
      u ← attempt (g ← grant "APPEND" (target_region t) (prefix s) 60000;
                   lift_r (capability_url (access_key config) (url t)
                             (for_stream s (for_host (host_id t) g))));
      us ← seed_urls s rest;
      mret (u :: us)
  end.

Fixpoint all_ok (l : list (Result unit)) : Result unit :=
  match l with [] => Ok () | Ok _ :: rest => all_ok rest | Err e :: _ => Err e end.

Definition seed_replicas (ses : string) (replicas previous : list ReplicaTarget)
  (newest : option (WritePlan * string)) : prog unit :=
  let fresh := filter (fun t => host_id t ∉ (host_id <$> previous)) replicas in
  replies ← call (PeerInitializes fresh ses);
  lift_r (all_ok replies);;
  match newest with
  | None => mret ()
  | Some (plan, bytes) =>
      require (String.eqb (rs_session (plan_stream plan)) ses)
        "repair snapshot belongs to another activation";;
      lift_r (stream_snapshot (plan_stream plan) bytes);;
      urls ← seed_urls (plan_stream plan) replicas;
      call_ok (TransportWrites urls bytes)
  end.

Definition replace_replicas (scope : ReplicaScope) (replicas : list ReplicaTarget)
  (newest : option (WritePlan * string)) : prog ReplicaMembership :=
  require (length replicas =? length (fleet_regions config))%nat "incomplete replacement replica set";;
  lift_r (ReplicationTicket_validate {| Snapshots.replicas := replicas |});;
  let id := identity scope in
  let key := session_key (scope_host scope) (scope_session scope) in
  stored ← call_ok (BGet key);
  persisted ←
    lift_r (match stored with
            | Some o => from_slice (bytes_of o)
            | None => Ok {| ses_id := id; ses_region := scope_region scope; ses_replicas := [];
                            ses_state := Open |}
            end);
  require (is_open persisted && String.eqb (ses_id persisted) id
           && String.eqb (ses_region persisted) (scope_region scope))
    "replication session changed or was fenced";;
  with_timeout (seed_replicas id replicas (ses_replicas persisted) newest);;
  done ← replace key (generation <$> stored) (to_vec (set_ses_replicas replicas persisted));
  require done "replication replacement was fenced";;
  mret {| mem_scope := scope; mem_replicas := replicas |}.

Definition validate_initial_replicas (l : list ReplicaTarget) : Result unit :=
  ensure (length l =? length (fleet_regions config))%nat "incomplete initial replica set";;
  ReplicationTicket_validate {| Snapshots.replicas := l |}.

Definition register_initial_replicas (scope : ReplicaScope) (l : list ReplicaTarget)
  : prog ReplicaMembership :=
  lift_r (validate_initial_replicas l);;
  let key := session_key (scope_host scope) (scope_session scope) in
  let initial := {| ses_id := identity scope; ses_region := scope_region scope; ses_replicas := l;
                    ses_state := Open |} in
  saved ← replace key None (to_vec initial);
  persisted ←
    (if (saved : bool) then mret initial
     else
       stored ← call_ok (BGet key);
       o ← lift_r (with_context stored "replication session disappeared");
       lift_r (from_slice (bytes_of o)));
  require (is_open persisted && String.eqb (ses_id persisted) (identity scope)
           && String.eqb (ses_region persisted) (scope_region scope))
    "initial replication session changed or was fenced";;
  lift_r (validate_initial_replicas (ses_replicas persisted));;
  mret {| mem_scope := scope; mem_replicas := ses_replicas persisted |}.

(** * Reading *)
Fixpoint first_ok (l : list (Result string)) : Result string :=
  match l with
  | [] => Err "snapshot unavailable"
  | Ok b :: _ => Ok b
  | Err _ :: rest => first_ok rest
  end.

Definition fetch_snapshot (g : ReplicaGrant) : prog string :=
  stored ← call_ok (BGet (grant_object g));
  match stored with
  | Some o => mret (bytes_of o)
  | None =>
      actor ← lift_r (actor_from_object (grant_object g));
      current ← load (storage_key actor);
      '(_, record) ← lift_r (with_context current "missing ownership");
      peers ← replica_members (Ownership_scope record);
      replies ← call (PeerReads peers (grant_object g));
      lift_r (first_ok replies)
  end.

Definition read_snapshot (reg obj : string) : prog string :=
  g ← grant "RUNTIME_READ" reg obj 60000;
  fetch_snapshot g.

Definition read_url (reg obj : string) : prog string :=
  g ← grant "RUNTIME_READ" reg obj 60000;
  lift_r (capability_url (access_key config) (origin config) g).

(** * State history: [history.rs] *)
Definition pos_geb (a b : (Z * Z) * string) : Prop :=
  pos_ltb (Some a.1) (Some b.1) = false.
#[global] Instance pos_geb_dec : RelDecision pos_geb.
Proof. intros a b. unfold pos_geb. apply _. Defined.

(** [retain(|v| seen.insert(v))]: the first of each version *)
Fixpoint first_of_version (seen : list Z) (l : list ((Z * Z) * string)) : list ((Z * Z) * string) :=
  match l with
  | [] => []
  | x :: rest =>
      if bool_decide (x.1.2 ∈ seen) then first_of_version seen rest
      else x :: first_of_version (x.1.2 :: seen) rest
  end.

Definition stored_versions_of (actor : ActorKey) (keys : list string) : list ((Z * Z) * string) :=
  first_of_version []
    (merge_sort pos_geb
       (omap (fun key =>
          p ← snapshot_position key;
          if is_ok (validate_snapshot_object_name actor p.2 key) then Some (p, key) else None) keys)).

Definition stored_versions (actor : ActorKey) : prog (list ((Z * Z) * string)) :=
  pre ← lift_r (StoragePaths.snapshots actor);
  keys ← call_ok (BList pre);
  mret (stored_versions_of actor keys).

Definition inspected (s : StateSnapshot) : InspectedState :=
  {| ins_record := {| rec_state_version := state_version s; rec_owner_epoch := owner_epoch s;
                      rec_request_id := snap_request_id s; rec_attribution := attribution s |};
     ins_state := state s |}.

Definition read_stored_state (key : string) : prog (option InspectedState) :=
  stored ← call_ok (BGet key);
  match stored with
  | None => mret None
  | Some o =>
      l ← lift_r (decode_snapshot key (bytes_of o));
      s ← lift_r (StateSnapshot_decode (loaded_bytes l));
      mret (Some (inspected s))
  end.

Definition inspect_state (actor : ActorKey) (version : option Z) : prog (option InspectedState) :=
  versions ← stored_versions actor;
  match find (fun x => match version with None => true | Some v => v =? x.1.2 end) versions with
  | None => mret None
  | Some (_, key) => read_stored_state key
  end.

Definition cache_history_record (key : string) (record : StateRecord) : prog unit :=
  with_timeout (replace key None (to_vec record));;
  mret ().

Definition history_record (snapshot_key : string) : prog (option StateRecord) :=
  let key := snapshot_key +:+ ".metadata" in
  cached ← call_ok (BGet key);
  match cached with
  | Some o => record ← lift_r (from_slice (bytes_of o)); mret (Some record)
  | None =>
      st ← read_stored_state snapshot_key;
      match st with
      | None => mret None
      | Some state =>
          (* This index is rebuildable; snapshot storage remains the source of truth. *)
          attempt (cache_history_record key (ins_record state));;
          mret (Some (ins_record state))
      end
  end.

(** [buffered(8).try_collect]: results in order, the first error wins *)
Fixpoint history_records (keys : list string) : prog (list (option StateRecord)) :=
  match keys with
  | [] => mret []
  | k :: rest => r ← history_record k; rs ← history_records rest; mret (r :: rs)
  end.

Definition older_than (before : option Z) (l : list ((Z * Z) * string)) : list ((Z * Z) * string) :=
  filter (fun x => (match before with None => true | Some b => x.1.2 <? b end) = true) l.

Definition state_history (actor : ActorKey) (before : option Z) (limit : nat)
  : prog StateHistoryPage :=
  all ← stored_versions actor;
  let versions := older_than before all in
  let more := (limit <? length versions)%nat in
  found ← history_records (take limit versions).*2;
  let records := omap id found in
  mret {| next_before := if more then rec_state_version <$> last records else None;
          records := records |}.

(** * What the control plane shows of actors *)
Definition overview (record : Ownership) (now : Z) : ActorInstanceOverview :=
  if expires_at_ms (lease record) <=? now
  then {| ov_actor_id := actor_id (own_actor record); ov_status := Dormant; ov_connections := [];
          ov_waiting := Some [] |}
  else {| ov_actor_id := actor_id (own_actor record);
          ov_status := match inv_resident (inventory record) with
                       | Some true => Live | Some false => Dormant | None => Unknown
                       end;
          ov_connections := (fun c => (conn_id c, conn_metadata c)) <$> inv_connections (inventory record);
          ov_waiting := inv_waiting (inventory record) |}.

Definition count_instance (i : ActorInstanceOverview) (row : ActorInventory) : ActorInventory :=
  let c := match ov_status i with Live => (1, 0, 0) | Dormant => (0, 1, 0) | Unknown => (0, 0, 1) end in
  {| row_actor_name := row_actor_name row; row_live := row_live row + c.1.1;
     row_dormant := row_dormant row + c.1.2; row_unknown := row_unknown row + c.2;
     row_instances := row_instances row ++ [i] |}%list.

Fixpoint inventory_loop (project : string) (keys : list string) (rows : gmap string ActorInventory)
  : prog (gmap string ActorInventory) :=
  match keys with
  | [] => mret rows
  | key :: rest =>
      stored ← call_ok (BGet key);
      match stored with
      | None => inventory_loop project rest rows
      | Some o =>
          record ← lift_r (from_slice (bytes_of o));
          if negb (String.eqb (project_id (own_actor record)) project)
          then inventory_loop project rest rows
          else
            let name := actor_name (own_actor record) in
            let row := default {| row_actor_name := name; row_live := 0; row_dormant := 0;
                                  row_unknown := 0; row_instances := [] |} (rows !! name) in
            t ← call_ok Now;
            inventory_loop project rest (<[name := count_instance (overview record t) row]> rows)
      end
  end.

(** The rows of a [BTreeMap] in key order, each with its instances sorted *)
Definition actor_inventory (project : string) : prog (list ActorInventory) :=
  keys ← call_ok (BList (ROOT +:+ "owners/"));
  rows ← inventory_loop project keys ∅;
  mret (sort_instances <$> merge_sort row_leb (map_to_list rows).*2).
End storage.
