(* ===== verification/StreamNames.v ===== *)
(** The names of replica streams: [Ownership::stream] in [bucket/runtime.rs].
    Shows that a stream's prefix lies under its actor's snapshots, that the
    prefix determines actor and epoch, and that no prefix contains another,
    which is what the replica store's pruning relies on. *)

From S2P Require Import Prelude.
From S2P Require Import Actors.
From S2P Require Import StoragePaths.
From S2P Require Import Snapshots.
From S2P Require Import RuntimeStorage.
Local Open Scope string_scope.
Local Open Scope Z_scope.

Lemma split_on_sep c d rest :
  split_on c (d +:+ String c rest) = (split_on c d ++ split_on c rest)%list.
Proof.
  induction d as [|x d IH].
  - cbn. by destruct (ascii_dec c c).
  - rewrite sapp_cons. cbn [split_on]. rewrite IH.
    destruct (ascii_dec x c); [done|].
    destruct (split_on c d) as [|p ps] eqn:E; [by apply split_on_nonempty in E|done].
Qed.

Lemma split_on_single c t : length (split_on c t) = 1%nat -> contains_char c t = false.
Proof.
  intros Hl. apply contains_char_false. induction t as [|x t IH]; [done|]. cbn in *.
  destruct (ascii_dec x c) as [->|Hne].
  - destruct (split_on c t) eqn:E; [by apply split_on_nonempty in E|done].
  - rewrite bool_decide_eq_false_2 by done. cbn. apply IH.
    destruct (split_on c t) eqn:E; [by apply split_on_nonempty in E|done].
Qed.

Section names.
Context `{Base64Url, Sha256, !Base64UrlLaws}.

Definition stream_dir (a : ActorKey) (e : Z) : string :=
  ROOT +:+ "snapshots/" +:+ actor_path a +:+ "/" +:+ hex32 e.

Lemma Ownership_stream_shape rec s :
  Ownership_stream rec = Ok s ->
  ActorKey_validate (own_actor rec) = Ok () /\
  prefix s = stream_dir (own_actor rec) (epoch rec) +:+ "/" /\
  rs_owner_epoch s = epoch rec /\
  rs_session s = session_identity (lease_id (lease rec)) (lease_session_id (lease rec)) /\
  base_version s = match base rec with Some b => ref_state_version b | None => 0 end.
Proof.
  unfold Ownership_stream. intros (name & Hname & E)%bind_ok.
  apply snapshot_name_shape in Hname as (Ha & _ & _ & ->).
  apply bind_ok in E as (pre & Hpre & E). injection E as <-. cbn [prefix rs_owner_epoch rs_session base_version].
  split_and!; try done. unfold stream_dir.
  assert (Hs : ROOT +:+ "snapshots/" +:+ actor_path (own_actor rec) +:+ "/" +:+ hex32 (epoch rec)
    +:+ "/" +:+ show_u64 1 +:+ ".json"
    = (stream_dir (own_actor rec) (epoch rec) +:+ "/") +:+ "1.json").
  { unfold stream_dir. rewrite <-!sapp_assoc. reflexivity. }
  rewrite Hs, strip_suffix_app in Hpre. unfold with_context in Hpre.
  unfold stream_dir in *. congruence.
Qed.

Lemma stream_dir_parts a e : 0 <= e ->
  exists x b c d, split_on "/" (stream_dir a e) =
    (split_on "/" (ROOT +:+ "snapshots") ++ [x; b; c; d; hex32 e])%list /\
    b = component (project_id a) /\ c = component (actor_name a) /\ d = component (actor_id a).
Proof.
  intros He. unfold stream_dir.
  change ("snapshots/" +:+ ?x) with ("snapshots" +:+ String "/" x).
  rewrite (sapp_assoc ROOT), split_on_sep, split_actor_path.
  rewrite (split_on_nosep "/" (hex32 e)) by (by apply hexdigits_noslash, hex32_hex). eauto 10.
Qed.

Lemma stream_dir_inj a b e f :
  u64_ok e -> u64_ok f -> stream_dir a e = stream_dir b f -> a = b /\ e = f.
Proof.
  intros He Hf E. apply (f_equal (split_on "/")) in E.
  destruct (stream_dir_parts a e) as (x & p & n & i & Ea & -> & -> & ->); [apply He|].
  destruct (stream_dir_parts b f) as (x' & p' & n' & i' & E' & -> & -> & ->); [apply Hf|].
  rewrite Ea, E' in E. apply app_inv_head in E.
  assert (Hinj : forall (a a' b b' c c' d d' g g' : string),
    [a; b; c; d; g] = [a'; b'; c'; d'; g'] -> b = b' /\ c = c' /\ d = d' /\ g = g').
  { clear. intros. split_and!; congruence. }
  apply Hinj in E as (E1 & E2 & E3 & E4). apply b64_inj in E1, E2, E3.
  apply hex32_inj in E4; [|done..]. destruct a, b. cbn in *. split; congruence.
Qed.

(** A trailing separator adds nothing but itself. *)
Lemma dir_prefix_eq d d' : length (split_on "/" d) = length (split_on "/" d') ->
  starts_with (d +:+ "/") (d' +:+ "/") = true -> d = d'.
Proof.
  intros Hl [t Ht]%starts_with_true. rewrite <-sapp_assoc in Ht.
  pose proof (f_equal (split_on "/") Ht) as E. cbn [String.append] in E.
  change ("/" +:+ t) with (String "/" t) in E. change "/" with (String "/" "") in E at 1.
  rewrite !split_on_sep in E. apply (f_equal length) in E. rewrite !length_app in E.
  change (length (split_on "/" "")) with 1%nat in E.
  assert (Ht1 : contains_char "/" t = false) by (apply split_on_single; lia).
  destruct t as [|c t].
  - apply (f_equal (strip_suffix "/")) in Ht. change ("/" +:+ "") with "/" in Ht.
    rewrite !strip_suffix_app in Ht. congruence.
  - exfalso. apply (f_equal (fun s => rsplit_once "/" s)) in Ht.
    change ("/" +:+ String c t) with (String "/" (String c t)) in Ht.
    change (d' +:+ "/") with (d' +:+ String "/" "") in Ht.
    rewrite !rsplit_once_app in Ht by done. congruence.
Qed.

(** Stream prefixes do not nest.  If the prefix of one stream starts the
    prefix of another, the two streams belong to the same actor and the same
    epoch and have the same prefix. *)
Theorem stream_prefixes_do_not_nest r1 r2 s1 s2 :
  u64_ok (epoch r1) -> u64_ok (epoch r2) ->
  Ownership_stream r1 = Ok s1 -> Ownership_stream r2 = Ok s2 ->
  starts_with (prefix s1) (prefix s2) = true ->
  own_actor r1 = own_actor r2 /\ epoch r1 = epoch r2 /\ prefix s1 = prefix s2.
Proof.
  intros E1 E2 (_ & P1 & _)%Ownership_stream_shape (_ & P2 & _)%Ownership_stream_shape Hp.
  rewrite P1, P2 in *. apply dir_prefix_eq in Hp.
  - rewrite Hp. apply stream_dir_inj in Hp as [-> ->]; done.
  - destruct (stream_dir_parts (own_actor r1) (epoch r1)) as (? & ? & ? & ? & -> & _); [apply E1|].
    destruct (stream_dir_parts (own_actor r2) (epoch r2)) as (? & ? & ? & ? & -> & _); [apply E2|].
    by rewrite !length_app.
Qed.
End names.

Import Hex.
Definition sample_ownership (e : Z) : Ownership :=
  {| inventory := ActivationInventory_default;
     lease := {| lease_id := "h"; lease_session_id := "s"; lease_route := "r"; expires_at_ms := 0 |};
     mutation := "m"; own_actor := sample_actor; epoch := e; region := "eu"; base := None |}.

Lemma stream_prefixes_do_not_nest_witness :
  exists s, Ownership_stream (sample_ownership 3) = Ok s /\
    starts_with (prefix s) (prefix s) = true /\ prefix s = prefix s.
Proof.
  eexists. split; [vm_compute; reflexivity|]. split; [vm_compute; reflexivity|].
  eapply (stream_prefixes_do_not_nest (sample_ownership 3) (sample_ownership 3));
    [vm_compute; split; discriminate..|vm_compute; reflexivity|vm_compute; reflexivity
    |vm_compute; reflexivity].
Defined.
