(* ===== verification/Interleaving.v ===== *)
(** What the requests of [RuntimeStorage] mean when any number of hosts issue
    them at once, and a rely-guarantee logic for their programs.

    The bucket is linearizable per request; a compare-and-swap may be applied
    and still be reported as failed (or not be applied and fail), which is what
    [replace] is written for.  The ghost field [past] keeps every value a key
    has had.  [legal] says which writes the protocol allows; [guarantee] is one
    such write; [wp] demands of a program that each of its steps is one,
    whatever the other hosts do in between.  [system_sound] carries this to all
    interleavings. *)

From S2P Require Import Prelude.
From S2P Require Import Actors.
From S2P Require Import StoragePaths.
From S2P Require Import Snapshots.
From S2P Require Import ReplicaStore.
From S2P Require Import ReplicaServer.
From S2P Require Import RuntimeStorage.
Local Open Scope string_scope.
Local Open Scope Z_scope.

Record World := {
  bucket : gmap string BucketObject;
  past : gmap string (list string);
  owned_map : gmap (nat * string) Ownership;
  sessions_map : gmap (nat * string) (list ReplicaTarget) }.

Definition history_of (w : World) (key : string) : list string := default [] (past w !! key).
Definition value_of (w : World) (key : string) : option string := bytes_of <$> bucket w !! key.

Definition write_object (key : string) (g : Z) (bytes : string) (w : World) : World :=
  {| bucket := <[key := {| generation := g; bytes_of := bytes |}]> (bucket w);
     past := <[key := bytes :: history_of w key]> (past w);
     owned_map := owned_map w; sessions_map := sessions_map w |}.
Definition set_owned (m : gmap (nat * string) Ownership) (w : World) : World :=
  {| bucket := bucket w; past := past w; owned_map := m; sessions_map := sessions_map w |}.
Definition set_sessions_map (m : gmap (nat * string) (list ReplicaTarget)) (w : World) : World :=
  {| bucket := bucket w; past := past w; owned_map := owned_map w; sessions_map := m |}.

(** A listing takes time, and others may write meanwhile: it contains the matching
    objects that exist when it starts, and perhaps others. *)
Definition lists (pre : string) (w : World) (l : list string) : Prop :=
  NoDup l /\ (forall k, is_Some (bucket w !! k) -> starts_with pre k = true -> k ∈ l) /\
  (forall k, k ∈ l -> starts_with pre k = true).
Lemma lists_exact pre w l : NoDup l ->
  (forall k, k ∈ l <-> is_Some (bucket w !! k) /\ starts_with pre k = true) -> lists pre w l.
Proof. intros Hn Hl. split_and!; [done| |]; intros k; rewrite Hl; tauto. Qed.

Section semantics.
(** Which replies the environment may give in a world *)
Context (possible : World -> forall X, Eff X -> X -> Prop).

(** One request of a process [node], its reply and the world after it *)
Definition step (node : nat) (w : World) {X} (e : Eff X) : X -> World -> Prop :=
  match e in Eff X return X -> World -> Prop with
  | BGet key => fun r w' =>
      w' = w /\ (r = Ok (bucket w !! key) \/ exists msg, r = Err msg)
  | BCas key expected bytes => fun r w' =>
      (w' = w /\ r <> Ok true) \/
      (exists g, generation <$> bucket w !! key = expected /\
         (forall o, bucket w !! key = Some o -> generation o < g) /\
         w' = write_object key g bytes w)
  | BList pre => fun r w' =>
      w' = w /\
      ((exists l, r = Ok l /\ lists pre w l)
       \/ exists msg, r = Err msg)
  | OwnedGet key => fun r w' => w' = w /\ r = owned_map w !! (node, key)
  | OwnedInsert key record => fun _ w' =>
      w' = set_owned (<[(node, key) := record]> (owned_map w)) w
  | SessionsGet key => fun r w' => w' = w /\ r = sessions_map w !! (node, key)
  | SessionsInsert key l => fun _ w' =>
      w' = set_sessions_map (<[(node, key) := l]> (sessions_map w)) w
  | SessionsRemove key => fun _ w' =>
      w' = set_sessions_map (delete (node, key) (sessions_map w)) w
  | HashOrder l => fun l' w' => w' = w /\ l' ≡ₚ l
  | Now => fun x w' => w' = w /\ possible w _ Now x
  | SystemNow => fun x w' => w' = w /\ possible w _ SystemNow x
  | NewUuid => fun x w' => w' = w /\ possible w _ NewUuid x
  | PeerHeads l s => fun x w' => w' = w /\ possible w _ (PeerHeads l s) x
  | PeerSeals l s => fun x w' => w' = w /\ possible w _ (PeerSeals l s) x
  | PeerRead t o => fun x w' => w' = w /\ possible w _ (PeerRead t o) x
  | PeerReads l o => fun x w' => w' = w /\ possible w _ (PeerReads l o) x
  | PeerInitializes l s => fun x w' => w' = w /\ possible w _ (PeerInitializes l s) x
  | TransportWrites u b => fun x w' => w' = w /\ possible w _ (TransportWrites u b) x
  | FleetRepair sc f => fun x w' => w' = w /\ possible w _ (FleetRepair sc f) x
  | DeadlinePassed => fun x w' => w' = w /\ possible w _ DeadlinePassed x
  end.

(** * Legal writes *)
Context (legal : string -> option string -> string -> Prop).

Definition guarantee (w w' : World) : Prop :=
  (bucket w' = bucket w /\ past w' = past w) \/
  (exists key g bytes,
     legal key (value_of w key) bytes /\
     (forall o, bucket w !! key = Some o -> generation o < g) /\
     bucket w' = bucket (write_object key g bytes w) /\
     past w' = past (write_object key g bytes w)).

Definition rely : relation World := rtc guarantee.

(** Every key's values follow each other legally, the newest being current. *)
Fixpoint chain (key : string) (l : list string) : Prop :=
  match l with
  | [] => True
  | v :: rest => legal key (hd_error rest) v /\ chain key rest
  end.
Definition world_ok (w : World) : Prop :=
  forall key, chain key (history_of w key) /\ value_of w key = hd_error (history_of w key).

Lemma guarantee_ok w w' : world_ok w -> guarantee w w' -> world_ok w'.
Proof.
  intros Hw [[Eb Ep]|(k & g & b & Hl & Hg & Eb & Ep)] key; specialize (Hw key);
    unfold history_of, value_of in *; rewrite Eb, Ep; [done|]. cbn.
  destruct (decide (key = k)) as [->|Hne].
  - rewrite !lookup_insert_eq. cbn. destruct Hw as [Hc Hv]. unfold history_of. by rewrite <-Hv.
  - by rewrite !lookup_insert_ne.
Qed.

Lemma rely_ok w w' : world_ok w -> rely w w' -> world_ok w'.
Proof. intros Hw Hr. induction Hr; [done|]. eauto using guarantee_ok. Qed.

(** Facts that other hosts cannot undo *)
Definition stable (P : World -> Prop) : Prop := forall w w', P w -> guarantee w w' -> P w'.

Lemma stable_rely P w w' : stable P -> P w -> rely w w' -> P w'.
Proof. intros HP Hw Hr. induction Hr; [done|]. eauto. Qed.

Definition been (key bytes : string) (w : World) : Prop := bytes ∈ history_of w key.
Definition at_least (key : string) (o : BucketObject) (w : World) : Prop :=
  exists o', bucket w !! key = Some o' /\ generation o <= generation o' /\
    (generation o' = generation o -> o' = o).

Lemma been_stable key bytes : stable (been key bytes).
Proof.
  clear possible. intros w w' Hb [[Eb Ep]|(k & g & b & Hl & Hg & Eb & Ep)]; unfold been, history_of in *;
    rewrite Ep; [done|]. cbn.
  destruct (decide (key = k)) as [->|Hne].
  - rewrite lookup_insert_eq. cbn. unfold history_of. set_solver.
  - by rewrite lookup_insert_ne.
Qed.

Lemma at_least_stable key o : stable (at_least key o).
Proof.
  intros w w' (o' & Ho & Hle & Heq) [[Eb Ep]|(k & g & b & Hl & Hg & Eb & Ep)];
    unfold at_least; rewrite Eb; [eauto|]. cbn.
  destruct (decide (key = k)) as [->|Hne].
  - rewrite lookup_insert_eq. specialize (Hg o' Ho). eexists. split_and!; [done|cbn; lia|cbn; lia].
  - rewrite lookup_insert_ne by done. eauto.
Qed.

Lemma at_least_refl key o w : bucket w !! key = Some o -> at_least key o w.
Proof. intros Ho. exists o. split_and!; [done|lia|done]. Qed.

(** * Programs under interference *)
Fixpoint wp {A} (node : nat) (p : prog A) (Q : Result A -> World -> Prop) (w : World) : Prop :=
  match p with
  | Ret r => Q r w
  | Vis e k => forall w1 x w2, rely w w1 -> world_ok w1 -> step node w1 e x w2 ->
      guarantee w1 w2 /\ wp node (k x) Q w2
  | Spin => True
  end.

Section rules.
Context (node : nat).

Lemma rely_step w w1 w2 : rely w w1 -> guarantee w1 w2 -> rely w w2.
Proof. intros. eapply rtc_r; eauto. Qed.

Lemma wp_mono {A} (p : prog A) (Q Q' : Result A -> World -> Prop) w :
  wp node p Q w -> (forall r w', rely w w' -> Q r w' -> Q' r w') -> wp node p Q' w.
Proof.
  revert w. induction p as [r|X e k IH|]; intros w Hp HQ; cbn in *; [by apply HQ| |done].
  intros w1 x w2 Hr Hok Hs. destruct (Hp w1 x w2 Hr Hok Hs) as [Hg Hk]. split; [done|].
  apply (IH x w2 Hk). intros r w' Hr'. apply HQ. etrans; [|exact Hr']. by eapply rely_step.
Qed.

Lemma wp_bind {A B} (p : prog A) (f : A -> prog B) Q w :
  wp node p (fun r w' => match r with Ok a => wp node (f a) Q w' | Err e => Q (Err e) w' end) w ->
  wp node (p ≫= f) Q w.
Proof.
  revert w. induction p as [[a|e]|X e k IH|]; intros w Hp; cbn in *; try done.
  intros w1 x w2 Hr Hok Hs. destruct (Hp w1 x w2 Hr Hok Hs) as [Hg Hk]. split; [done|].
  by apply IH.
Qed.

Lemma wp_attempt {A} (p : prog A) Q w :
  wp node p (fun r => Q (Ok r)) w -> wp node (attempt p) Q w.
Proof.
  revert w. induction p as [r|X e k IH|]; intros w Hp; cbn in *; try done.
  intros w1 x w2 Hr Hok Hs. destruct (Hp w1 x w2 Hr Hok Hs) as [Hg Hk]. split; [done|]. by apply IH.
Qed.

(** Interference before a program starts (or after it ends) changes nothing. *)
Lemma wp_interfere {A} (p : prog A) (Q : Result A -> World -> Prop) w w' :
  (forall r, stable (Q r)) -> wp node p Q w -> rely w w' -> wp node p Q w'.
Proof.
  intros HQ Hp Hr. destruct p as [r|X e k|]; cbn in *; [by eapply stable_rely| |done].
  intros w1 x w2 Hr' Hok Hs. apply (Hp w1 x w2); [by etrans|done|done].
Qed.

(** A request that leaves the bucket alone *)
Definition quiet {X} (e : Eff X) : bool := match e with BCas _ _ _ => false | _ => true end.

Lemma quiet_step {X} (e : Eff X) x w w' :
  quiet e = true -> step node w e x w' -> bucket w' = bucket w /\ past w' = past w.
Proof.
  intros Hq Hs. destruct e; cbn in Hq, Hs; try discriminate Hq;
    first [by rewrite Hs | destruct Hs as [-> _]; done].
Qed.

Lemma wp_quiet {X A} (e : Eff X) (k : X -> prog A) Q w :
  quiet e = true ->
  (forall w1 x w2, rely w w1 -> rely w w2 -> world_ok w1 -> step node w1 e x w2 ->
     bucket w2 = bucket w1 -> past w2 = past w1 -> wp node (k x) Q w2) ->
  wp node (Vis e k) Q w.
Proof.
  intros Hq Hk w1 x w2 Hr Hok Hs. destruct (quiet_step e x w1 w2 Hq Hs) as [Eb Ep].
  assert (Hg : guarantee w1 w2) by (by left). split; [done|].
  eapply Hk; eauto using rely_step.
Qed.

Lemma wp_get key Q w :
  (forall w', rely w w' -> world_ok w' -> Q (Ok (bucket w' !! key)) w') ->
  (forall w' e, rely w w' -> Q (Err e) w') ->
  wp node (call_ok (BGet key)) Q w.
Proof.
  intros Hok Herr. apply wp_quiet; [done|]. cbn. intros w1 x w2 Hr _ Hw [-> [-> |[e ->]]] _ _; auto.
Qed.

Lemma wp_list pre Q w :
  (forall w' l, rely w w' -> world_ok w' -> lists pre w' l -> Q (Ok l) w') ->
  (forall w' e, rely w w' -> Q (Err e) w') ->
  wp node (call_ok (BList pre)) Q w.
Proof.
  intros Hok Herr. apply wp_quiet; [done|]. cbn.
  intros w1 x w2 Hr _ Hw [-> [(l & -> & Hl)|[e ->]]] _ _; auto.
Qed.

(** A compare-and-swap with its read-back: the write must be legal whenever
    the generation still matches; a reported success means the value has been
    stored. *)
Lemma wp_replace key expected bytes Q w :
  (forall w1, rely w w1 -> world_ok w1 -> generation <$> bucket w1 !! key = expected ->
     legal key (value_of w1 key) bytes) ->
  (forall w2 r, rely w w2 -> world_ok w2 -> (r = Ok true -> been key bytes w2) -> Q r w2) ->
  wp node (replace key expected bytes) Q w.
Proof.
  intros Hlegal HQ. unfold replace. apply wp_bind. intros w1 x w2 Hr Hok Hs. cbn in Hs.
  assert (Hg : guarantee w1 w2 /\ (x = Ok true -> been key bytes w2)).
  { destruct Hs as [[-> Hx]|(g & Hgen & Hlt & ->)].
    - split; [by left|done].
    - split; [right; eauto 10|]. intros _. unfold been, history_of. cbn.
      rewrite lookup_insert_eq. cbn. set_solver. }
  destruct Hg as [Hg Hbeen]. split; [done|]. clear Hs.
  assert (Hr2 : rely w w2) by (by eapply rely_step).
  assert (Hok2 : world_ok w2) by (by eapply guarantee_ok). cbn [wp].
  assert (Hback : forall r, r <> Ok true ->
    wp node (current ← call_ok (BGet key);
      match current with
      | Some o => if String.eqb (bytes_of o) bytes then mret true else lift_r r
      | None => lift_r r
      end) Q w2).
  { intros r Hne. apply wp_bind, wp_get.
    2: { intros w' e Hr'. apply HQ; [by etrans|by eapply rely_ok|done]. }
    intros w' Hr' Hok'. destruct (bucket w' !! key) as [o|] eqn:Eo; [|apply HQ; [by etrans|done|done]].
    destruct (String.eqb (bytes_of o) bytes) eqn:Eb; [|apply HQ; [by etrans|done|done]].
    apply HQ; [by etrans|done|]. intros _. apply String.eqb_eq in Eb. subst bytes.
    destruct (Hok' key) as [_ Hv]. unfold value_of in Hv. rewrite Eo in Hv. cbn in Hv.
    unfold been. destruct (history_of w' key); [done|]. injection Hv as ->. set_solver. }
  destruct x as [[]|e]; [by apply HQ|by apply Hback..].
Qed.
End rules.

(** * Any number of hosts, each running any number of operations *)
Context {C O : Type} (code : C -> prog O) (allowed : C -> Prop).
Context (post : C -> Result O -> World -> Prop).

Definition System : Type := World * list (nat * C * prog O).

Inductive system_step : System -> System -> Prop :=
| start_operation w ts node c :
    allowed c -> system_step (w, ts) (w, ts ++ [(node, c, code c)])%list
| run_request w ts1 ts2 node c X (e : Eff X) k x w' :
    step node w e x w' ->
    system_step (w, ts1 ++ (node, c, Vis e k) :: ts2)%list (w', ts1 ++ (node, c, k x) :: ts2)%list.

Definition thread_ok (w : World) (t : nat * C * prog O) : Prop :=
  wp t.1.1 t.2 (post t.1.2) w.

Hypothesis post_stable : forall c r, stable (post c r).
Hypothesis code_ok : forall node c w, allowed c -> wp node (code c) (post c) w.

(** If every operation is correct under interference, every interleaving of
    operations makes only legal writes and every finished operation has its
    postcondition. *)
Lemma system_sound s s' :
  world_ok s.1 -> Forall (thread_ok s.1) s.2 -> rtc system_step s s' ->
  world_ok s'.1 /\ rely s.1 s'.1 /\ Forall (thread_ok s'.1) s'.2.
Proof using post_stable code_ok.
  intros Hok Hts Hr. revert Hok Hts. induction Hr as [s|s s1 s2 Hs Hr IH]; intros Hok Hts.
  { split_and!; [done|reflexivity|done]. }
  assert (Hs1 : guarantee s.1 s1.1 /\ Forall (thread_ok s1.1) s1.2).
  { destruct Hs as [w ts node c Hc|w ts1 ts2 node c X e k x w' Hst]; cbn in *.
    - split; [by left|]. apply Forall_app. split; [done|]. constructor; [|done].
      unfold thread_ok. cbn. by apply code_ok.
    - apply Forall_app in Hts as [H1 H2]. apply Forall_cons in H2 as [Ht H2].
      unfold thread_ok in Ht. cbn in Ht.
      destruct (Ht w x w') as [Hg Hk]; [reflexivity|done|done|]. split; [done|].
      assert (Hkeep : forall t, thread_ok w t -> thread_ok w' t).
      { intros t Hw. eapply wp_interfere; [apply post_stable|done|]. by apply rtc_once. }
      apply Forall_app. split; [by eapply Forall_impl|]. constructor; [done|].
      by eapply Forall_impl. }
  destruct Hs1 as [Hg Hts1]. destruct IH as (? & ? & ?); [by eapply guarantee_ok|done|].
  split_and!; [done| |done]. eapply rtc_l; eauto.
Qed.

Lemma finished_post w ts node c r :
  Forall (thread_ok w) ts -> (node, c, Ret r) ∈ ts -> post c r w.
Proof. intros Hts Hin. rewrite Forall_forall in Hts. exact (Hts _ Hin). Qed.
End semantics.
