(* ===== verification/ActivationSafety.v ===== *)
(** Safety of ownership under interleaving: which writes the operations of
    [RuntimeStorage] make, whatever other hosts do between any two requests.

    Owner records only move to the next epoch (a takeover by another session)
    or stay in their epoch with the same session; session records only go from
    open to recovering to sealed; every other object is written once.  Hence no
    two sessions ever share an epoch, sealed sessions stay sealed and snapshots
    are immutable. *)

From S2P Require Import Prelude.
From S2P Require Import Actors.
From S2P Require Import StoragePaths.
From S2P Require Import Snapshots.
From S2P Require Import ReplicaStore.
From S2P Require Import ReplicaServer.
From S2P Require Import RuntimeStorage.
From S2P Require Import StreamNames.
From S2P Require Import Interleaving.
Local Open Scope string_scope.
Local Open Scope Z_scope.

(** * The protocol *)
Definition under (dir key : string) : Prop := starts_with (ROOT +:+ dir) key = true.
#[global] Instance under_dec dir key : Decision (under dir key).
Proof. unfold under. apply _. Defined.

Definition ref_ok (r : SnapshotRef) : Prop := under "snapshots/" (object r).

(** What replicas are trusted with: the snapshots they report are snapshots. *)
Definition honest (w : World) (X : Type) (e : Eff X) : X -> Prop :=
  match e in Eff X return X -> Prop with
  | PeerHeads _ _ => fun x => forall t h r, (t, Ok h) ∈ x -> latest h = Some r -> ref_ok r
  | PeerSeals _ _ => fun x => forall h sh r,
      Ok h ∈ x -> sh ∈ Snapshots.streams h -> latest sh = Some r -> ref_ok r
  | _ => fun _ => True
  end.

Definition takeover (prev rec : Ownership) : Prop :=
  epoch rec = epoch prev + 1 /\ own_actor rec = own_actor prev /\ region rec = region prev /\
  (lease_id (lease rec) <> lease_id (lease prev) \/
   lease_session_id (lease rec) <> lease_session_id (lease prev)).

Definition same_activation (prev rec : Ownership) : Prop :=
  epoch rec = epoch prev /\ own_actor rec = own_actor prev /\ region rec = region prev /\
  base rec = base prev /\ lease_id (lease rec) = lease_id (lease prev) /\
  lease_session_id (lease rec) = lease_session_id (lease prev) /\
  lease_route (lease rec) = lease_route (lease prev).

Definition session_next (prev new : Session) : Prop :=
  ses_id new = ses_id prev /\ ses_region new = ses_region prev /\
  match ses_state prev with
  | Open => ses_state new = Open \/
            (ses_state new = Recovering /\ ses_replicas new = ses_replicas prev)
  | Recovering => ses_state new = Sealed /\ ses_replicas new = ses_replicas prev
  | Sealed => False
  end.

Section protocol.
Context `{Base64Url, Sha256, Hmac, UrlParser, Json ReplicaGrant, Json StateSnapshot,
          Json Ownership, Json Session, Json StateRecord, !Base64UrlLaws}.

Definition owner_ok (key : string) (rec : Ownership) : Prop :=
  ownership_key (storage_key (own_actor rec)) = Ok key /\
  forall b, base rec = Some b -> ref_ok b.

Definition legal_owner (key : string) (old : option string) (new : string) : Prop :=
  exists rec, from_slice new = Ok rec /\ owner_ok key rec /\
    match old with
    | None => epoch rec = 1
    | Some b => exists prev, from_slice b = Ok prev /\ (takeover prev rec \/ same_activation prev rec)
    end.

Definition legal_session (old : option string) (new : string) : Prop :=
  exists s, from_slice new = Ok s /\
    match old with
    | None => ses_state s = Open \/ (ses_state s = Sealed /\ ses_replicas s = [])
    | Some b => exists prev, from_slice b = Ok prev /\ session_next prev s
    end.

Definition legal (key : string) (old : option string) (new : string) : Prop :=
  if decide (under "owners/" key) then legal_owner key old new
  else if decide (under "hosts/" key) then legal_session old new
  else old = None.

Definition on_ok {A} (P : A -> World -> Prop) (r : Result A) (w : World) : Prop :=
  match r with Ok a => P a w | Err _ => True end.

Abbreviation rely := (rely legal).
Abbreviation world_ok := (world_ok legal).

Section rules.
Context (node : nat).
Abbreviation WP p Q w := (wp honest legal node p Q w).

Lemma ok_bind {A B} (p : prog A) (f : A -> prog B) P w :
  WP p (on_ok (fun a w' => WP (f a) (on_ok P) w')) w -> WP (p ≫= f) (on_ok P) w.
Proof. intros Hp. apply wp_bind. eapply wp_mono; [exact Hp|]. by intros [a|e] w' _. Qed.

Lemma ok_mono {A} (p : prog A) (P P' : A -> World -> Prop) w :
  WP p (on_ok P) w -> (forall a w', rely w w' -> P a w' -> P' a w') -> WP p (on_ok P') w.
Proof. intros Hp HP. eapply wp_mono; [exact Hp|]. intros [a|e] w' Hr; cbn; auto. Qed.

Lemma ok_any {A} (p : prog A) P w :
  WP p (on_ok P) w -> WP p (on_ok (fun _ _ => True)) w.
Proof. intros Hp. by eapply ok_mono. Qed.

Lemma ok_lift {A} (r : Result A) P w : (forall a, r = Ok a -> P a w) -> WP (lift_r r) (on_ok P) w.
Proof. intros Hr. cbn. destruct r; cbn; auto. Qed.

Lemma ok_require b msg P w : (b = true -> P () w) -> WP (require b msg) (on_ok P) w.
Proof. intros Hb. unfold require, ensure. destruct b; cbn; auto. Qed.

Lemma ok_ret {A} (a : A) (P : A -> World -> Prop) w : P a w -> WP (mret a) (on_ok P) w.
Proof. done. Qed.

Lemma ok_get key P w :
  (forall w', rely w w' -> world_ok w' -> P (bucket w' !! key) w') ->
  WP (call_ok (BGet key)) (on_ok P) w.
Proof. intros Hg. apply wp_get; [|done]. intros w' Hr Hok. cbn. auto. Qed.

Lemma ok_list pre P w :
  (forall w' l, rely w w' -> world_ok w' -> lists pre w' l -> P l w') ->
  WP (call_ok (BList pre)) (on_ok P) w.
Proof. intros Hg. apply wp_list; [|done]. intros w' l Hr Hok. cbn. auto. Qed.

Lemma ok_call {X} (e : Eff X) (P : X -> World -> Prop) w :
  quiet e = true ->
  (forall w1 x w2, rely w w2 -> step honest node w1 e x w2 -> P x w2) ->
  WP (call e) (on_ok P) w.
Proof. intros Hq HP. apply wp_quiet; [done|]. intros. cbn. eauto. Qed.

Lemma ok_call_ok {X} (e : Eff (Result X)) (P : X -> World -> Prop) w :
  quiet e = true ->
  (forall w1 x w2, rely w w2 -> step honest node w1 e (Ok x) w2 -> P x w2) ->
  WP (call_ok e) (on_ok P) w.
Proof. intros Hq HP. apply wp_quiet; [done|]. intros w1 [x|err] w2 ? ? ? ? _ _; cbn; eauto. Qed.

Lemma ok_replace key expected bytes P w :
  (forall w1, rely w w1 -> world_ok w1 -> generation <$> bucket w1 !! key = expected ->
     legal key (value_of w1 key) bytes) ->
  (forall w2 b, rely w w2 -> world_ok w2 -> (b = true -> been key bytes w2) -> P b w2) ->
  WP (replace key expected bytes) (on_ok P) w.
Proof.
  intros Hl HP. apply wp_replace; [done|]. intros w2 [b|e] Hr Hok Hb; cbn; [|done].
  apply HP; [done|done|]. intros ->. auto.
Qed.

Lemma ok_attempt {A} (p : prog A) (P : Result A -> World -> Prop) w :
  WP p P w -> WP (attempt p) (on_ok P) w.
Proof. intros Hp. by apply wp_attempt. Qed.

Lemma ok_timeout {A} (p : prog A) (P : A -> World -> Prop) w :
  (forall a, stable legal (P a)) -> WP p (on_ok P) w -> WP (with_timeout p) (on_ok P) w.
Proof.
  intros HP Hp. unfold with_timeout. apply ok_bind, ok_attempt. eapply wp_mono; [exact Hp|].
  intros r w1 _ Hr. apply ok_bind, ok_call; [done|]. intros w2 late w3 Hr3 _.
  destruct late; [done|]. destruct r; cbn in *; [|done]. by eapply stable_rely.
Qed.

(** * Which directory a key is in *)
Lemma ownership_key_under o key : ownership_key o = Ok key -> under "owners/" key.
Proof.
  unfold ownership_key, owner. intros (a & _ & E)%bind_ok. unfold under.
  assert (key = ROOT +:+ "owners/" +:+ actor_path a +:+ ".json") as -> by congruence.
  rewrite sapp_assoc. apply starts_with_app.
Qed.

Lemma under_app dir key t : under dir key -> under dir (key +:+ t).
Proof.
  unfold under. intros [u ->]%starts_with_true. rewrite <-sapp_assoc. apply starts_with_app.
Qed.

Lemma session_key_under h s : under "hosts/" (session_key h s).
Proof.
  unfold session_key, session. do 2 apply under_app. unfold under, host. rewrite sapp_assoc.
  apply starts_with_app.
Qed.

Lemma under_exclusive d1 d2 c1 c2 r1 r2 key :
  d1 = String c1 r1 -> d2 = String c2 r2 -> c1 <> c2 -> under d1 key -> ~ under d2 key.
Proof.
  intros -> -> Hne U1 U2. unfold under in *.
  apply starts_with_true in U1 as [t1 ->]. apply starts_with_true in U2 as [t2 E].
  rewrite <-!sapp_assoc in E. apply sapp_inj_l in E. rewrite !sapp_cons in E. congruence.
Qed.

Lemma legal_owner_key key old new : under "owners/" key ->
  legal key old new <-> legal_owner key old new.
Proof. intros Hu. unfold legal. by rewrite decide_True. Qed.

Lemma legal_session_key key old new : under "hosts/" key ->
  legal key old new <-> legal_session old new.
Proof.
  intros Hu. unfold legal. rewrite decide_False, decide_True; [done|done|].
  by eapply (under_exclusive "hosts/" "owners/").
Qed.

Lemma legal_snapshot_key key old new : under "snapshots/" key -> legal key old new <-> old = None.
Proof.
  intros Hu. unfold legal. rewrite !decide_False; [done|..].
  - by eapply (under_exclusive "snapshots/" "hosts/").
  - by eapply (under_exclusive "snapshots/" "owners/").
Qed.

(** The current value of a key was written legally. *)
Lemma current_legal w key v : world_ok w -> value_of w key = Some v ->
  exists old, legal key old v.
Proof.
  intros Hw Hv. destruct (Hw key) as [Hc Hh]. rewrite Hv in Hh.
  destruct (history_of w key) as [|x l]; [done|]. injection Hh as ->. cbn in Hc. destruct Hc. eauto.
Qed.

Lemma history_legal l key v : chain legal key l -> v ∈ l -> exists old, legal key old v.
Proof.
  induction l as [|x l IH]; intros Hc Hin; [set_solver|]. cbn in Hc. destruct Hc as [Hx Hc].
  apply elem_of_cons in Hin as [->|Hin]; eauto.
Qed.

Lemma at_least_match w key o :
  at_least key o w -> generation <$> bucket w !! key = Some (generation o) ->
  value_of w key = Some (bytes_of o).
Proof.
  intros (o' & Ho & _ & Heq) Hg. unfold value_of. rewrite Ho in *. cbn in *.
  injection Hg as Hg. by rewrite Heq.
Qed.

(** * Loading an ownership record *)
Definition loaded_record (key : string) (v : option (Z * Ownership)) (w : World) : Prop :=
  match v with
  | None => True
  | Some (g, rec) => exists o, g = generation o /\ from_slice (bytes_of o) = Ok rec /\
      at_least key o w /\ owner_ok key rec
  end.

Lemma loaded_record_stable key v : stable legal (loaded_record key v).
Proof.
  intros w w' Hl Hg. destruct v as [[g rec]|]; [|done].
  destruct Hl as (o & ? & ? & ? & ?). exists o. split_and!; try done. by eapply at_least_stable.
Qed.

Lemma ok_load obj P w :
  (forall key v w', rely w w' -> ownership_key obj = Ok key -> loaded_record key v w' -> P v w') ->
  WP (load obj) (on_ok P) w.
Proof.
  intros HP. unfold load. apply ok_bind, ok_lift. intros key Hkey.
  apply ok_bind, ok_get. intros w' Hr Hok.
  destruct (bucket w' !! key) as [o|] eqn:Eo; [|by eapply ok_ret, HP].
  apply ok_bind, ok_lift. intros rec Hrec. eapply ok_ret, HP; [done|done|].
  exists o. split_and!; [done|done|by apply at_least_refl|].
  destruct (current_legal w' key (bytes_of o) Hok) as [old Hl].
  { unfold value_of. by rewrite Eo. }
  apply legal_owner_key in Hl; [|by eapply ownership_key_under].
  destruct Hl as (rec' & E & Hrec' & _). congruence.
Qed.

(** * Saving one *)
Definition may_follow (key : string) (gen : option Z) (rec : Ownership) (w : World) : Prop :=
  match gen with
  | None => epoch rec = 1
  | Some g => exists o prev, g = generation o /\ from_slice (bytes_of o) = Ok prev /\
      at_least key o w /\ (takeover prev rec \/ same_activation prev rec)
  end.

Lemma may_follow_stable key gen rec : stable legal (may_follow key gen rec).
Proof.
  intros w w' Hl Hg. destruct gen as [g|]; [|done].
  destruct Hl as (o & prev & ? & ? & ? & ?). exists o, prev. split_and!; try done.
  by eapply at_least_stable.
Qed.

Lemma owner_ok_mutation key rec m : owner_ok key rec -> owner_ok key (set_mutation m rec).
Proof. done. Qed.
Lemma may_follow_mutation key gen rec m w :
  may_follow key gen rec w -> may_follow key gen (set_mutation m rec) w.
Proof. done. Qed.

Context `{!JsonLaws Ownership, !JsonLaws Session}.

Lemma ok_replace_activation key gen rec (P : bool * Ownership -> World -> Prop) w :
  owner_ok key rec -> may_follow key gen rec w ->
  (forall m done w', rely w w' ->
     (done = true -> been key (to_vec (set_mutation m rec)) w') -> P (done, set_mutation m rec) w') ->
  WP (replace_activation rec gen) (on_ok P) w.
Proof.
  intros Hok Hf HP. pose proof Hok as [Hkey _]. unfold replace_activation.
  apply ok_bind, ok_call; [done|]. intros _ m w1 Hr1 _. cbn zeta.
  apply ok_bind, ok_lift. intros key' Hkey'. cbn [own_actor set_mutation] in Hkey'.
  rewrite Hkey in Hkey'. injection Hkey' as <-.
  assert (Hf1 : may_follow key gen rec w1) by (eapply stable_rely; eauto using may_follow_stable).
  apply ok_bind, ok_replace.
  - intros w2 Hr2 Hw2 Hgen. apply legal_owner_key; [by eapply ownership_key_under|].
    exists (set_mutation m rec). rewrite json_roundtrip. split_and!; [done|done|].
    assert (Hf2 : may_follow key gen rec w2) by (eapply stable_rely; eauto using may_follow_stable).
    destruct gen as [g|].
    + destruct Hf2 as (o & prev & -> & Hp & Ha & Hn).
      rewrite (at_least_match _ _ _ Ha Hgen). eauto.
    + unfold value_of. destruct (bucket w2 !! key); [done|]. exact Hf2.
  - intros w2 b Hr2 _ Hb. eapply ok_ret, HP; [by etrans|done].
Qed.

Lemma ok_save_activation key gen rec (P : Ownership -> World -> Prop) w :
  owner_ok key rec -> may_follow key gen rec w ->
  (forall m w', rely w w' -> been key (to_vec (set_mutation m rec)) w' -> P (set_mutation m rec) w') ->
  WP (save_activation rec gen) (on_ok P) w.
Proof.
  intros Hok Hf HP. unfold save_activation. apply ok_bind.
  eapply ok_replace_activation; [done|done|]. intros m d w' Hr Hd.
  apply ok_bind, ok_require. intros ->. apply ok_ret. auto.
Qed.

Lemma ok_new_lease r (P : HostLease -> World -> Prop) w :
  (forall l w', rely w w' -> lease_id l = req_id r -> lease_session_id l = req_session_id r ->
     lease_route l = req_route r -> P l w') ->
  WP (new_lease r) (on_ok P) w.
Proof.
  intros HP. unfold new_lease. apply ok_bind, ok_lift. intros ? _.
  apply ok_bind, ok_require. intros _. apply ok_bind, ok_call_ok; [done|].
  intros w1 t w2 Hr _. apply ok_bind, ok_lift. intros e _. apply ok_ret. by apply HP.
Qed.

(** * Snapshots *)
Lemma absent_value w key : generation <$> bucket w !! key = None -> value_of w key = None.
Proof. unfold value_of. by destruct (bucket w !! key). Qed.

Lemma current_been w key o : world_ok w -> bucket w !! key = Some o -> been key (bytes_of o) w.
Proof.
  intros Hw Ho. destruct (Hw key) as [_ Hv]. unfold value_of in Hv. rewrite Ho in Hv. cbn in Hv.
  unfold been. destruct (history_of w key); [done|]. injection Hv as ->. set_solver.
Qed.

Lemma ok_persist obj bytes (P : () -> World -> Prop) w :
  under "snapshots/" obj -> (forall w', rely w w' -> been obj bytes w' -> P () w') ->
  WP (persist_object obj bytes) (on_ok P) w.
Proof.
  intros Hu HP. unfold persist_object. apply ok_bind, ok_replace.
  - intros w1 _ _ Hn. apply legal_snapshot_key; [done|]. by apply absent_value.
  - intros w2 b Hr _ Hb. apply ok_require. intros ->. auto.
Qed.

(** Recovered bytes verify and are in the bucket. *)
Lemma ok_recover_snapshot replicas r (P : string -> World -> Prop) w :
  ref_ok r ->
  (forall bytes w', rely w w' -> SnapshotRef_verify r bytes = Ok () -> been (object r) bytes w' ->
     P bytes w') ->
  WP (recover_snapshot replicas r) (on_ok P) w.
Proof.
  intros Hok HP. unfold recover_snapshot. apply ok_bind, ok_get. intros w1 Hr1 Hw1.
  destruct (bucket w1 !! object r) as [o|] eqn:Eo.
  { apply ok_bind, ok_lift. intros [] Hv. apply ok_ret, HP; [done|done|]. by apply current_been. }
  assert (Hloop : forall l w2, rely w w2 -> WP (recover_from l r) (on_ok P) w2); [|by apply Hloop].
  induction l as [|peer l IH]; intros w2 Hr2; cbn [recover_from]; [done|].
  apply ok_bind, ok_call; [done|]. intros _ x w3 Hr3 _. destruct x as [bytes|e].
  - apply ok_bind, ok_lift. intros [] Hv. apply ok_bind, ok_persist; [done|]. intros w4 Hr4 Hb.
    apply ok_ret, HP; [|done|done]. etrans; [exact Hr2|]. by etrans.
  - apply IH. by etrans.
Qed.

Lemma ok_replica_members scope (P : list ReplicaTarget -> World -> Prop) w :
  (forall l w', rely w w' -> P l w') -> WP (replica_members scope) (on_ok P) w.
Proof.
  intros HP. unfold replica_members. apply ok_bind, ok_get. intros w1 Hr1 _.
  destruct (bucket w1 !! _) as [o|]; [|apply ok_ret; by apply HP].
  apply ok_bind, ok_lift. intros s _. apply ok_bind, ok_require. intros _. apply ok_ret. by apply HP.
Qed.

Definition refs_ok (l : option SnapshotRef) : Prop := forall r, l = Some r -> ref_ok r.

Lemma advance_ok c n r : refs_ok c -> refs_ok n -> advance c n = Ok r -> refs_ok r.
Proof.
  unfold refs_ok, advance. intros Hc Hn E. destruct n as [n|]; [|by injection E as <-].
  destruct c as [c|]; [|by injection E as <-]. res_inv. intros r' Hr'. case_match; simplify_eq; eauto.
Qed.

Lemma count_heads_ok s replies : forall n c n' c',
  (forall t h r, (t, Ok h) ∈ replies -> latest h = Some r -> ref_ok r) ->
  refs_ok c -> count_heads s replies n c = Ok (n', c') -> refs_ok c'.
Proof.
  induction replies as [|[t [h|e]] replies IH]; intros n c n' c' Hr Hc E; cbn in E.
  - by injection E as <- <-.
  - res_inv. eapply IH; [|by eapply advance_ok; [exact Hc| |]; [intros r ?; eapply Hr; [constructor|]|]|exact E].
    intros t' h' r' Hin. apply (Hr t'). by constructor.
  - eapply IH; [|exact Hc|exact E]. intros t' h' r' Hin. apply (Hr t'). by constructor.
Qed.

Lemma max_by_position_in l : forall best x,
  max_by_position l best = Some x -> x ∈ l \/ best = Some x.
Proof.
  induction l as [|y l IH]; intros best x E; cbn in E; [by right|].
  apply IH in E as [E|E]; [left; by constructor|].
  destruct best as [b|]; [case_match|]; simplify_eq; [by right|left; constructor..].
Qed.

Lemma newest_of_epoch_in e keys p key :
  newest_of_epoch e keys = Some (p, key) -> key ∈ keys /\ snapshot_position key = Some p /\ p.1 = e.
Proof.
  unfold newest_of_epoch. intros [Hin|[=]]%max_by_position_in.
  apply list_elem_of_omap in Hin as (k & Hk & E). destruct (snapshot_position k) as [q|] eqn:Eq; [|done].
  cbn in E. destruct (q.1 =? e) eqn:Ee; [|done]. simplify_eq. bools. done.
Qed.

Lemma Ownership_stream_under rec s : Ownership_stream rec = Ok s -> under "snapshots/" (prefix s).
Proof.
  intros (_ & -> & _)%Ownership_stream_shape. apply under_app. unfold under, stream_dir.
  rewrite (sapp_assoc ROOT). apply starts_with_app.
Qed.

Lemma under_prefix dir p k : under dir p -> starts_with p k = true -> under dir k.
Proof. unfold under. apply starts_with_trans. Qed.

Lemma ok_latest rec known (P : option LoadedSnapshot -> World -> Prop) w :
  refs_ok (base rec) -> refs_ok (reference <$> known) ->
  (forall l w', rely w w' -> refs_ok (reference <$> l) -> P l w') ->
  WP (latest_snapshot rec known) (on_ok P) w.
Proof.
  intros Hbase Hknown HP. unfold latest_snapshot. apply ok_bind, ok_lift. intros s Hs.
  apply ok_bind, ok_list. intros w1 keys Hr1 Hok1 (_ & _ & Hkeys).
  apply ok_bind, (ok_mono _ (fun l w2 => rely w w2 /\ refs_ok (reference <$> l))).
  { destruct (newest_of_epoch _ keys) as [[p key]|] eqn:En; [|by apply ok_ret].
    case_bool_decide; [by apply ok_ret|].
    apply ok_bind, ok_get. intros w2 Hr2 _. apply ok_bind, ok_lift. intros o _.
    apply ok_bind, ok_lift. intros l Hl. apply ok_ret. split; [by etrans|].
    apply newest_of_epoch_in in En as (Hin & _). apply Hkeys in Hin as Hpre.
    unfold decode_snapshot in Hl. res_inv. intros r [= <-]. unfold ref_ok. cbn.
    eapply under_prefix; [by eapply Ownership_stream_under|done]. }
  intros loaded w2 _ [Hr2 Hl]. apply ok_bind, ok_lift. intros c Hc.
  apply advance_ok in Hc; [|done..].
  apply ok_bind, ok_replica_members. intros replicas w3 Hr3.
  apply ok_bind, ok_call; [done|]. intros w4' replies w4 Hr4 [-> Hhonest]. cbn in Hhonest.
  apply ok_bind, ok_lift. intros [n c'] Hc'. apply count_heads_ok in Hc'; [|done..].
  apply ok_bind, ok_require. intros _.
  assert (Hr : rely w w4') by (etrans; [exact Hr2|]; by etrans).
  destruct c' as [snapshot|]; [|by apply ok_ret, HP].
  case_bool_decide; [by apply ok_ret, HP|].
  apply ok_bind, ok_recover_snapshot; [by apply Hc'|]. intros bytes w5 Hr5 _ _.
  apply ok_ret, HP; [by etrans|]. intros r [= <-]. by apply Hc'.
Qed.

(** * Session records *)
(** A session that started recovering stays fenced: the record is still the
    one that was read, or sealed. *)
Definition fenced (key : string) (s : Session) (w : World) : Prop :=
  exists o s', bucket w !! key = Some o /\ from_slice (bytes_of o) = Ok s' /\
    (s' = s \/ ses_state s' = Sealed).

Lemma fenced_stable key s : under "hosts/" key -> ses_state s = Recovering -> stable legal (fenced key s).
Proof.
  intros Hu Hs w w' (o & s' & Ho & Hd & Hcase) [[Eb _]|(k & g & b & Hl & _ & Eb & _)];
    unfold fenced; rewrite Eb; [eauto 10|]. cbn.
  destruct (decide (key = k)) as [<-|Hne].
  2: { rewrite lookup_insert_ne by done. eauto 10. }
  rewrite lookup_insert_eq. apply legal_session_key in Hl; [|done].
  destruct Hl as (n & Hn & Hold). unfold value_of in Hold. rewrite Ho in Hold. cbn in Hold.
  destruct Hold as (prev & Hp & _ & _ & Hnext). rewrite Hd in Hp. injection Hp as <-.
  exists {| generation := g; bytes_of := b |}, n. split_and!; [done|done|]. right.
  destruct Hcase as [-> |E]; [rewrite Hs in Hnext; by destruct Hnext|by rewrite E in Hnext].
Qed.

Lemma chain_fenced key l v s :
  under "hosts/" key -> chain legal key l -> v ∈ l -> from_slice v = Ok s -> ses_state s <> Open ->
  exists x s', hd_error l = Some x /\ from_slice x = Ok s' /\ (s' = s \/ ses_state s' = Sealed).
Proof.
  intros Hu. induction l as [|x l IH]; intros Hc Hin Hv Hs; [set_solver|].
  cbn in Hc. destruct Hc as [Hx Hc]. apply elem_of_cons in Hin as [<- |Hin]; [cbn; eauto 10|].
  destruct (IH Hc Hin Hv Hs) as (y & s' & Hy & Hd & Hcase). rewrite Hy in Hx.
  apply legal_session_key in Hx; [|done]. destruct Hx as (n & Hn & prev & Hp & _ & _ & Hnext).
  rewrite Hd in Hp. injection Hp as <-. exists x, n. split_and!; [done|done|]. right.
  destruct Hcase as [-> |E]; [|by rewrite E in Hnext].
  destruct (ses_state s); [done|by destruct Hnext|done].
Qed.

Lemma been_fenced key s w :
  under "hosts/" key -> world_ok w -> been key (to_vec s) w -> ses_state s <> Open -> fenced key s w.
Proof.
  intros Hu Hw Hb Hs. destruct (Hw key) as [Hc Hv].
  destruct (chain_fenced key _ _ s Hu Hc Hb) as (x & s' & Hx & Hd & Hcase); [apply json_roundtrip|done|].
  rewrite Hx in Hv. unfold value_of in Hv. destruct (bucket w !! key) as [o|] eqn:Eo; [|done].
  injection Hv as <-. exists o, s'. done.
Qed.

Lemma ok_start_recovery fuel scope (P : option Session -> World -> Prop) w :
  (forall r w', rely w w' ->
     (forall s, r = Some s -> ses_state s = Recovering /\
        fenced (session_key (scope_host scope) (scope_session scope)) s w') -> P r w') ->
  WP (start_recovery fuel scope) (on_ok P) w.
Proof.
  set (key := session_key _ _). pose proof (session_key_under (scope_host scope) (scope_session scope)) as Hu.
  fold key in Hu. revert w. induction fuel as [|fuel IH]; intros w HP; cbn [start_recovery]; [done|].
  fold key. apply ok_bind, ok_get. intros w1 Hr1 Hok1. destruct (bucket w1 !! key) as [o|] eqn:Eo.
  - apply ok_bind, ok_lift. intros s Hs. apply ok_bind, ok_require. intros _.
    destruct (ses_state s) eqn:Es.
    + apply ok_bind, ok_replace.
      * intros w2 Hr2 _ Hg. apply legal_session_key; [done|]. exists (set_ses_state Recovering s).
        rewrite json_roundtrip. split; [done|].
        assert (Ha : at_least key o w2).
        { eapply stable_rely; [apply at_least_stable|by apply at_least_refl|done]. }
        rewrite (at_least_match _ _ _ Ha Hg). exists s. split; [done|].
        unfold session_next. rewrite Es. cbn. auto.
      * intros w2 b Hr2 Hok2 Hb. destruct b.
        -- apply ok_ret, HP; [by etrans|]. intros s' [= <-]. split; [done|].
           apply been_fenced; [done|done|by apply Hb|done].
        -- apply IH. intros r w' Hr'. apply HP. etrans; [exact Hr1|]. by etrans.
    + apply ok_ret, HP; [done|]. intros s' [= <-]. split; [done|]. exists o, s. auto.
    + apply ok_ret, HP; done.
  - apply ok_bind, ok_replace.
    + intros w2 Hr2 _ Hg. apply legal_session_key; [done|]. eexists. rewrite json_roundtrip.
      split; [done|]. rewrite absent_value by done. by right.
    + intros w2 b Hr2 Hok2 Hb. destruct b; [apply ok_ret, HP; [by etrans|done]|].
      apply IH. intros r w' Hr'. apply HP. etrans; [exact Hr1|]. by etrans.
Qed.

Lemma ok_finish fuel scope s (P : () -> World -> Prop) w :
  ses_state s = Recovering ->
  fenced (session_key (scope_host scope) (scope_session scope)) s w ->
  (forall w', rely w w' -> P () w') ->
  WP (finish_recovery fuel scope s) (on_ok P) w.
Proof.
  unfold finish_recovery. set (key := session_key _ _).
  pose proof (session_key_under (scope_host scope) (scope_session scope)) as Hu. fold key in Hu.
  intros Hs. revert w. induction fuel as [|fuel IH]; intros w Hf HP; cbn [finish_loop]; [done|].
  apply ok_bind, ok_get. intros w1 Hr1 Hok1.
  assert (Hf1 : fenced key s w1) by (eapply stable_rely; [by apply fenced_stable|done|done]).
  destruct (bucket w1 !! key) as [o|] eqn:Eo; [|done]. apply ok_bind, ok_lift. intros o' [= <-].
  apply ok_bind, ok_lift. intros rec Hrec. case_bool_decide as Hsealed; [apply ok_ret; auto|].
  destruct Hf1 as (o'' & s' & Ho & Hd & Hcase). rewrite Eo in Ho. injection Ho as <-.
  rewrite Hrec in Hd. injection Hd as <-. destruct Hcase as [-> |]; [|done].
  apply ok_bind, ok_replace.
  - intros w2 Hr2 _ Hg. apply legal_session_key; [done|]. exists (set_ses_state Sealed s).
    rewrite json_roundtrip. split; [done|].
    assert (Ha : at_least key o w2).
    { eapply stable_rely; [apply at_least_stable|by apply at_least_refl|done]. }
    rewrite (at_least_match _ _ _ Ha Hg). exists s. split; [done|].
    unfold session_next. rewrite Hs. done.
  - intros w2 b Hr2 _ _. destruct b; [apply ok_ret, HP; by etrans|]. apply IH.
    + eapply stable_rely; [by apply fenced_stable|exact Hf|by etrans].
    + intros w' Hr'. apply HP. etrans; [exact Hr1|]. by etrans.
Qed.

Definition map_refs_ok (m : gmap string SnapshotRef) : Prop := forall p r, m !! p = Some r -> ref_ok r.

Lemma collect_streams_ok id heads : forall m m',
  (forall sh r, sh ∈ heads -> latest sh = Some r -> ref_ok r) ->
  map_refs_ok m -> collect_streams id heads m = Ok m' -> map_refs_ok m'.
Proof.
  induction heads as [|h heads IH]; intros m m' Hh Hm E; cbn -[advance] in E;
    [by injection E as <-|].
  apply bind_ok in E as (u & _ & E).
  assert (Hh' : forall sh r, sh ∈ heads -> latest sh = Some r -> ref_ok r).
  { intros sh r Hin. apply Hh. by constructor. }
  destruct (latest h) as [r|] eqn:El; [|by eapply IH].
  apply bind_ok in E as (u' & _ & E). apply bind_ok in E as (entry & Ha & E).
  eapply IH; [exact Hh'| |exact E].
  eapply advance_ok in Ha.
  - intros p' r' Hp'. destruct (decide (prefix (head_stream h) = p')) as [<-|Hne].
    + rewrite lookup_partial_alter_eq in Hp'. by apply Ha.
    + rewrite lookup_partial_alter_ne in Hp' by done. by eapply Hm.
  - intros r' Hr'. by eapply Hm.
  - intros r' [= <-]. by eapply Hh; [constructor|].
Qed.

Lemma collect_sessions_ok id replies : forall n m n' m',
  (forall h sh r, Ok h ∈ replies -> sh ∈ Snapshots.streams h -> latest sh = Some r -> ref_ok r) ->
  map_refs_ok m -> collect_sessions id replies n m = Ok (n', m') -> map_refs_ok m'.
Proof.
  induction replies as [|[h|e] replies IH]; intros n m n' m' Hr Hm E; cbn in E.
  - by injection E as <- <-.
  - assert (Hr' : forall h sh r, Ok h ∈ replies -> sh ∈ Snapshots.streams h -> latest sh = Some r -> ref_ok r).
    { intros h' sh r Hin. apply Hr. by constructor. }
    apply bind_ok in E as (u & _ & E). destruct (_ || _); [by eapply IH|].
    apply bind_ok in E as (m1 & E1 & E). eapply IH; [done| |exact E].
    eapply collect_streams_ok; [|exact Hm|exact E1]. intros sh r. apply Hr. constructor.
  - eapply IH; [|exact Hm|exact E]. intros h' sh r Hin. apply Hr. by constructor.
Qed.

Lemma ok_seal_replicas s (P : list SnapshotRef -> World -> Prop) w :
  (forall l w', rely w w' -> Forall ref_ok l -> P l w') -> WP (seal_replicas s) (on_ok P) w.
Proof.
  intros HP. unfold seal_replicas. apply ok_bind, ok_call; [done|].
  intros w1' replies w1 Hr1 [-> Hh]. cbn in Hh. apply ok_bind, ok_lift. intros [n m] Hm.
  apply collect_sessions_ok in Hm; [|done|by intros ? ? ?%lookup_empty_Some].
  apply ok_bind, ok_require. intros _. apply ok_call; [done|].
  intros w2' l w2 Hr2 [-> Hl]. apply HP; [by etrans|]. rewrite Hl. apply Forall_forall.
  intros r ([p r'] & -> & Hin%elem_of_map_to_list)%list_elem_of_fmap. by eapply Hm.
Qed.

Lemma ok_restore_loop pre replicas snapshots : forall loaded (P : option LoadedSnapshot -> World -> Prop) w,
  Forall ref_ok snapshots -> refs_ok (reference <$> loaded) ->
  (forall l w', rely w w' -> refs_ok (reference <$> l) -> P l w') ->
  WP (restore_loop pre replicas snapshots loaded) (on_ok P) w.
Proof.
  induction snapshots as [|r snapshots IH]; intros loaded P w Hf Hl HP; cbn [restore_loop].
  { apply ok_ret, HP; [reflexivity|done]. }
  apply Forall_cons in Hf as [Hr Hf]. apply ok_bind, ok_recover_snapshot; [done|].
  intros bytes w1 Hr1 _ _. apply IH; [done| |].
  - case_match; [|done]. intros r' [= <-]. done.
  - intros l w' Hr'. apply HP. by etrans.
Qed.

Lemma ok_recover_session fuel o (P : option LoadedSnapshot -> World -> Prop) w :
  (forall l w', rely w w' -> refs_ok (reference <$> l) -> P l w') ->
  WP (recover_session fuel o) (on_ok P) w.
Proof.
  intros HP. unfold recover_session. apply ok_bind, ok_start_recovery. intros started w1 Hr1 Hst.
  destruct started as [s|]; [|by apply ok_ret, HP]. destruct (Hst s eq_refl) as [Hs Hf].
  apply ok_bind, ok_seal_replicas. intros l w2 Hr2 Hl. unfold restore_session.
  apply ok_bind, ok_bind, ok_lift. intros pre _. apply ok_restore_loop; [done|done|].
  intros r w3 Hr3 Hrok. apply ok_bind, ok_finish; [done| |].
  - eapply stable_rely; [by apply fenced_stable; [apply session_key_under|]|exact Hf|by etrans].
  - intros w4 Hr4. apply ok_ret, HP; [|done]. etrans; [exact Hr1|]. etrans; [exact Hr2|]. by etrans.
Qed.

(** * Activations *)
(** The record an activation stored, as the history of the actor's key has it *)
Definition activated (actor : ActorKey) (r : HostLeaseRequest) (l : LoadedActor) (w : World) : Prop :=
  exists key rec, ownership_key (storage_key actor) = Ok key /\ been key (to_vec rec) w /\
    own_actor rec = actor /\ epoch rec = pl_owner_epoch (placement l) /\
    lease_id (lease rec) = req_id r /\ lease_session_id (lease rec) = req_session_id r.

Lemma activated_stable actor r l : stable legal (activated actor r l).
Proof.
  intros w w' (key & rec & ? & Hb & ? & ? & ? & ?) Hg. exists key, rec. split_and!; try done.
  exact (been_stable legal key _ w w' Hb Hg).
Qed.

Lemma ownership_key_valid actor : ActorKey_validate actor = Ok () ->
  exists key, ownership_key (storage_key actor) = Ok key.
Proof.
  intros Ha. unfold ownership_key, owner. rewrite actor_key_roundtrip by done. by eexists.
Qed.

Lemma pl_epoch_apply p s : pl_owner_epoch (apply_snapshot p s) = pl_owner_epoch p.
Proof. by destruct s. Qed.

Lemma ok_remember rec snapshot (P : LoadedActor -> World -> Prop) w :
  (forall l w', rely w w' -> pl_owner_epoch (placement l) = epoch rec -> P l w') ->
  WP (remember rec snapshot) (on_ok P) w.
Proof.
  intros HP. unfold remember. apply ok_bind, ok_call; [done|]. intros w1 x w2 Hr _. apply ok_ret, HP; [done|].
  cbn. rewrite pl_epoch_apply. unfold Ownership_placement. by rewrite pl_epoch_apply.
Qed.

Lemma ok_register fuel actor r reg new_actor w :
  WP (register_activation fuel actor r reg new_actor) (on_ok (activated actor r)) w.
Proof.
  unfold register_activation. apply ok_bind, ok_lift. intros [] Hactor.
  destruct (ownership_key_valid actor Hactor) as [key Hkey].
  apply ok_bind, ok_lift. intros ? _. apply ok_bind, ok_lift. intros ? _.
  apply ok_bind, (ok_mono _ (fun v w1 => rely w w1 /\ loaded_record key v w1)).
  { destruct new_actor; [by apply ok_ret|]. apply ok_load. intros k v w1 Hr Hk Hv.
    rewrite Hkey in Hk. injection Hk as <-. done. }
  intros current w1 _ [Hr1 Hcur].
  apply ok_bind, (ok_mono _ (fun rec w2 => rely w1 w2 /\ refs_ok (reference <$> rec) /\
    forall g prev, current = Some (g, prev) -> own_actor prev = actor /\ region prev = reg /\
      (lease_id (lease prev) <> req_id r \/ lease_session_id (lease prev) <> req_session_id r))).
  { destruct current as [[g prev]|]; [|by apply ok_ret].
    apply ok_bind, ok_require. intros Hb1. apply ok_bind, ok_require. intros Hb2. bools.
    apply ok_bind, ok_call_ok; [done|]. intros w2' t w2 Hr2 _. apply ok_bind, ok_require. intros _.
    apply ok_bind, ok_recover_session. intros l w3 Hr3 Hl.
    destruct Hcur as (o & _ & _ & _ & _ & Hbase).
    apply ok_latest; [done|done|]. intros l' w4 Hr4 Hl'. split_and!; [|done|].
    - etrans; [exact Hr2|]. by etrans.
    - intros g' p' [= <- <-]. split_and!; [done|done|].
      apply orb_true_iff in Hb2 as [E|E]; apply negb_true_iff, String.eqb_neq in E; auto. }
  intros recovered w2 _ (Hr2 & Hrec & Hprev).
  apply ok_bind, ok_lift. intros e He. apply ok_bind, ok_new_lease. intros l w3 Hr3 Hid Hses _.
  apply ok_bind, (ok_save_activation key).
  - split; [done|]. cbn. intros b Hb. by apply Hrec.
  - destruct current as [[g prev]|]; cbn.
    + destruct Hcur as (o & -> & Hd & Ha & _). destruct (Hprev _ _ eq_refl) as (E1 & E2 & E3).
      exists o, prev. split_and!; try done.
      * eapply stable_rely; [apply at_least_stable|exact Ha|by etrans].
      * left. unfold takeover. cbn. unfold checked_add in He.
        destruct (_ <=? _); [|done]. injection He as <-. split_and!; [done|done|done|].
        rewrite Hid, Hses. destruct E3; [left|right]; congruence.
    + by injection He as <-.
  - intros m w4 Hr4 Hbeen. apply ok_remember. intros la w5 Hr5 Hep.
    exists key, (set_mutation m {| inventory := ActivationInventory_default; lease := l;
      mutation := ""; own_actor := actor; epoch := e; region := reg;
      base := reference <$> recovered |}).
    split_and!; try done. eapply stable_rely; [apply been_stable|exact Hbeen|done].
Qed.

Lemma ok_renew actor r i (P : HostLease -> World -> Prop) w :
  (forall l w', rely w w' -> P l w') -> WP (renew_activation actor r i) (on_ok P) w.
Proof.
  intros HP. unfold renew_activation. apply ok_bind, ok_load. intros key v w1 Hr1 Hkey Hv.
  apply ok_bind, ok_lift. intros [g rec] Hrec. destruct v as [v|]; [|done]. injection Hrec as ->.
  destruct Hv as (o & -> & Hd & Ha & Hok). apply ok_bind, ok_require. intros Hb. bools.
  apply ok_bind, ok_call_ok; [done|]. intros w2' t w2 Hr2 _. apply ok_bind, ok_require. intros _.
  apply ok_bind, ok_require. intros Hroute. bools.
  apply ok_bind, ok_new_lease. intros l w3 Hr3 Hid Hses Hrt.
  apply ok_bind, (ok_save_activation key).
  - done.
  - exists o, rec. split_and!; try done.
    + eapply stable_rely; [apply at_least_stable|exact Ha|by etrans].
    + right. unfold same_activation. cbn. split_and!; congruence.
  - intros m w4 Hr4 _. apply ok_ret, HP. etrans; [exact Hr1|]. etrans; [exact Hr2|]. by etrans.
Qed.

Lemma ok_release n actor h ses (P : () -> World -> Prop) w :
  (forall w', rely w w' -> P () w') -> WP (release_loop n actor h ses) (on_ok P) w.
Proof.
  revert w. induction n as [|n IH]; intros w HP; cbn [release_loop]; [done|].
  apply ok_bind, ok_load. intros key v w1 Hr1 Hkey Hv. destruct v as [[g rec]|]; [|apply ok_ret; auto].
  destruct (_ || _); [apply ok_ret; auto|]. destruct Hv as (o & -> & Hd & Ha & Hok).
  apply ok_bind, (ok_replace_activation key); [done| |].
  - exists o, rec. split_and!; try done. right. done.
  - intros m d w2 Hr2 _. destruct d; [apply ok_ret, HP; by etrans|].
    apply IH. intros w' Hr'. apply HP. etrans; [exact Hr1|]. by etrans.
Qed.

(** * Operations that never write to the bucket *)
Fixpoint no_cas {A} (p : prog A) : Prop :=
  match p with
  | Ret _ | Spin => True
  | Vis e k => quiet e = true /\ forall x, no_cas (k x)
  end.

Lemma no_cas_safe {A} (p : prog A) w : no_cas p -> WP p (on_ok (fun _ _ => True)) w.
Proof.
  revert w. induction p as [r|X e k IH|]; intros w Hp; [by destruct r| |done].
  destruct Hp as [Hq Hk]. apply wp_quiet; [done|]. intros. by apply IH.
Qed.

Lemma no_cas_bind {A B} (p : prog A) (f : A -> prog B) :
  no_cas p -> (forall a, no_cas (f a)) -> no_cas (p ≫= f).
Proof.
  intros Hp Hf. induction p as [[a|e]|X e k IH|]; cbn in *; [done..| |done].
  destruct Hp as [Hq Hk]. split; [done|]. intros x. by apply IH.
Qed.

Lemma no_cas_attempt {A} (p : prog A) : no_cas p -> no_cas (attempt p).
Proof.
  intros Hp. induction p as [r|X e k IH|]; cbn in *; [done| |done].
  destruct Hp as [Hq Hk]. split; [done|]. intros x. by apply IH.
Qed.

Ltac no_cas := repeat first
  [ progress intros | exact I | apply no_cas_bind | apply no_cas_attempt
  | (split; [reflexivity|intros; exact I]) | case_match | progress cbn [no_cas mret prog_ret] ].

Lemma no_cas_load obj : no_cas (load obj).
Proof. unfold load. no_cas. Qed.
Lemma no_cas_grant o r x d : no_cas (grant o r x d).
Proof. unfold grant. no_cas. Qed.
Lemma no_cas_write_plan c rec v l : no_cas (write_plan c rec v l).
Proof. unfold write_plan, grant. no_cas. Qed.
Lemma no_cas_members scope : no_cas (replica_members scope).
Proof. unfold replica_members. no_cas. Qed.
Lemma no_cas_seed_urls c s l : no_cas (seed_urls c s l).
Proof. induction l as [|t l IH]; cbn [seed_urls]; unfold grant; no_cas; done. Qed.
Lemma no_cas_seed c id l prev newest : no_cas (seed_replicas c id l prev newest).
Proof. unfold seed_replicas. no_cas; apply no_cas_seed_urls. Qed.
Lemma no_cas_inventory project keys : forall rows, no_cas (inventory_loop project keys rows).
Proof.
  induction keys as [|k keys IH]; intros rows; cbn [inventory_loop]; no_cas; apply IH.
Qed.

(** * Operations that write *)
Lemma ok_load_actor rec w : refs_ok (base rec) -> WP (load_actor rec) (on_ok (fun _ _ => True)) w.
Proof.
  intros Hb. unfold load_actor. apply ok_bind, ok_latest; [done|done|]. intros l w' _ _.
  by apply ok_remember.
Qed.

Lemma ok_activate_actor actor l reg w :
  WP (activate_actor actor l reg) (on_ok (fun _ _ => True)) w.
Proof.
  unfold activate_actor. apply ok_bind, ok_load. intros key v w1 Hr1 Hkey Hv.
  apply ok_bind, ok_lift. intros [g rec] Hrec. destruct v as [v|]; [|done]. injection Hrec as ->.
  destruct Hv as (o & _ & _ & _ & _ & Hbase). apply ok_bind, ok_require. intros _.
  by apply ok_load_actor.
Qed.

Lemma ok_load_owned actor l e w :
  WP (load_owned_actor actor l e) (on_ok (fun _ _ => True)) w.
Proof.
  unfold load_owned_actor. apply ok_bind, ok_load. intros key v w1 Hr1 Hkey Hv.
  apply ok_bind, ok_lift. intros [g rec] Hrec. destruct v as [v|]; [|done]. injection Hrec as ->.
  destruct Hv as (o & _ & _ & _ & _ & Hbase). apply ok_bind, ok_require. intros _.
  by apply ok_load_actor.
Qed.

Lemma ok_get_placement obj w : WP (get_placement obj) (on_ok (fun _ _ => True)) w.
Proof.
  unfold get_placement. apply ok_bind, ok_load. intros key v w1 Hr1 Hkey Hv.
  destruct v as [[g rec]|]; [|done]. destruct Hv as (o & _ & _ & _ & _ & Hbase).
  unfold current_placement. apply ok_bind, ok_bind, ok_latest; [done|done|]. done.
Qed.

Lemma ok_write_snapshot plan bytes w :
  under "snapshots/" (prefix (plan_stream plan)) ->
  WP (write_snapshot plan bytes) (on_ok (fun _ w' => been (object_name plan) bytes w')) w.
Proof.
  intros Hu. unfold write_snapshot. apply ok_bind, ok_lift. intros r Hr.
  apply ok_bind, ok_require. intros Hb. bools.
  apply stream_snapshot_ref in Hr as (Ho & _). apply ok_bind, ok_persist.
  - rewrite Ho. unfold stream_object. by apply under_app.
  - intros w' _ Hbeen. apply ok_ret. congruence.
Qed.

Lemma ok_recover_all replicas snapshots w :
  Forall ref_ok snapshots ->
  WP (recover_all replicas snapshots) (on_ok (fun _ w' => rely w w')) w.
Proof.
  revert w. induction snapshots as [|r l IH]; intros w Hf; cbn [recover_all]; [by apply ok_ret|].
  apply Forall_cons in Hf as [Hr Hf]. apply ok_bind, ok_recover_snapshot; [done|].
  intros b w1 Hr1 _ _. eapply ok_mono; [by apply IH|]. intros ? w2 _ Hr2. by etrans.
Qed.

(** A part without writes, then the rest *)
Lemma ok_then {A B} (p : prog A) (f : A -> prog B) P w :
  no_cas p -> (forall a w', rely w w' -> WP (f a) (on_ok P) w') -> WP (p ≫= f) (on_ok P) w.
Proof.
  intros Hp Hf. apply ok_bind. eapply ok_mono; [by apply no_cas_safe|]. intros a w' Hr _. auto.
Qed.

Lemma ok_retire fuel scope w : WP (retire_replication fuel scope) (on_ok (fun _ _ => True)) w.
Proof.
  unfold retire_replication, get_owner. apply ok_then; [no_cas|]. intros o w1 _.
  apply ok_then; [no_cas|]. intros ? w2 _.
  apply ok_bind, ok_start_recovery. intros started w3 Hr3 Hst.
  destruct started as [s|]; [|done]. destruct (Hst s eq_refl) as [Hs Hf].
  apply ok_bind, ok_seal_replicas. intros l w4 Hr4 Hl.
  apply ok_bind. eapply ok_mono; [by apply ok_recover_all|]. intros ? w5 _ Hr5.
  apply ok_finish; [done| |done].
  eapply stable_rely; [by apply fenced_stable; [apply session_key_under|]|exact Hf|by etrans].
Qed.

Lemma ok_replace_replicas c scope l newest w :
  WP (replace_replicas c scope l newest) (on_ok (fun _ _ => True)) w.
Proof.
  unfold replace_replicas. apply ok_bind, ok_require. intros _. apply ok_bind, ok_lift. intros ? _.
  set (key := session_key _ _).
  assert (Hu : under "hosts/" key) by apply session_key_under.
  apply ok_bind, ok_get. intros w1 Hr1 Hok1. apply ok_bind, ok_lift. intros s Hs.
  apply ok_bind, ok_require. intros Hb. bools.
  match goal with E : is_open s = true |- _ => apply bool_decide_eq_true in E; rename E into Hopen end.
  apply ok_then; [unfold with_timeout; no_cas; apply no_cas_seed_urls|]. intros ? w2 Hr2.
  apply ok_bind, ok_replace.
  - intros w3 Hr3 _ Hg. apply legal_session_key; [done|]. exists (set_ses_replicas l s).
    rewrite json_roundtrip. split; [done|].
    destruct (bucket w1 !! key) as [o|] eqn:Eo; cbn in Hg.
    + assert (Ha : at_least key o w3).
      { eapply stable_rely; [apply at_least_stable|by apply at_least_refl|by etrans]. }
      rewrite (at_least_match _ _ _ Ha Hg). exists s. split; [done|].
      unfold session_next. rewrite Hopen. cbn. auto.
    + rewrite absent_value by done. by left.
  - intros w3 b _ _ _. by apply ok_bind, ok_require.
Qed.

Lemma ok_register_initial c scope l w :
  WP (register_initial_replicas c scope l) (on_ok (fun _ _ => True)) w.
Proof.
  unfold register_initial_replicas. apply ok_bind, ok_lift. intros ? _.
  set (key := session_key _ _).
  assert (Hu : under "hosts/" key) by apply session_key_under. cbn zeta.
  apply ok_bind, ok_replace.
  - intros w1 _ _ Hg. apply legal_session_key; [done|]. eexists. rewrite json_roundtrip.
    split; [done|]. rewrite absent_value by done. by left.
  - intros w1 b _ _ _. apply no_cas_safe. no_cas.
Qed.

Lemma ok_history_record key w : under "snapshots/" key ->
  WP (history_record key) (on_ok (fun _ _ => True)) w.
Proof.
  intros Hu. unfold history_record. apply ok_bind, ok_get. intros w1 _ _.
  destruct (bucket w1 !! _) as [o|]; [by apply ok_bind, ok_lift|].
  apply ok_then; [unfold read_stored_state; no_cas|]. intros st w2 _. destruct st as [st|]; [|done].
  apply ok_bind, ok_attempt. eapply wp_mono with (Q := on_ok (fun _ _ => True)); [|done].
  unfold cache_history_record. apply ok_bind, ok_timeout; [done|].
  apply ok_replace; [|done]. intros w3 _ _ Hg.
  apply legal_snapshot_key; [by apply under_app|]. by apply absent_value.
Qed.

Lemma ok_history_records keys w : Forall (under "snapshots/") keys ->
  WP (history_records keys) (on_ok (fun _ _ => True)) w.
Proof.
  revert w. induction keys as [|k keys IH]; intros w Hf; cbn [history_records]; [done|].
  apply Forall_cons in Hf as [Hk Hf]. apply ok_bind. eapply ok_mono; [by apply ok_history_record|].
  intros ? w1 _ _. apply ok_bind. eapply ok_mono; [by apply IH|]. done.
Qed.

Lemma first_of_version_incl seen l x : x ∈ first_of_version seen l -> x ∈ l.
Proof.
  revert seen. induction l as [|y l IH]; intros seen Hx; [done|]. cbn in Hx. case_bool_decide.
  - right. by eapply IH.
  - apply elem_of_cons in Hx as [-> |Hx]; [left|right; by eapply IH].
Qed.

Lemma stored_versions_incl actor keys x : x ∈ stored_versions_of actor keys -> x.2 ∈ keys.
Proof.
  intros Hx%first_of_version_incl. rewrite (merge_sort_Permutation pos_geb) in Hx.
  apply list_elem_of_omap in Hx as (k & Hk & E). destruct (snapshot_position k); [|done].
  cbn in E. case_match; by simplify_eq.
Qed.

Lemma ok_state_history actor before limit w :
  WP (state_history actor before limit) (on_ok (fun _ _ => True)) w.
Proof.
  unfold state_history, stored_versions. apply ok_bind, ok_bind, ok_lift. intros pre Hpre.
  apply ok_bind, ok_list. intros w1 keys _ _ (_ & _ & Hkeys). apply ok_ret. apply ok_bind.
  eapply ok_mono; [apply ok_history_records|done]. apply Forall_forall.
  intros k ([p k'] & -> & Hin)%list_elem_of_fmap. apply elem_of_take in Hin as (i & Hin & _).
  apply list_elem_of_lookup_2 in Hin. apply list_elem_of_filter in Hin as [_ Hin].
  apply stored_versions_incl, Hkeys in Hin as Hs. cbn. eapply under_prefix; [|exact Hs].
  apply snapshots_ok in Hpre as [_ ->]. unfold under. rewrite (sapp_assoc ROOT). apply starts_with_app.
Qed.
End rules.
End protocol.

(** Programs without writes, by their structure *)
Ltac no_cas := repeat first
  [ progress intros | exact I | apply no_cas_bind | apply no_cas_attempt
  | (split; [reflexivity|intros; exact I]) | case_match | progress cbn [no_cas mret prog_ret] ].
