(* ===== verification/StorageProtocol.v ===== *)
(** All hosts at once: every operation of [RuntimeStorage], started by any
    number of processes in any order and interleaved request by request.
    States the consequences of [ActivationSafety] for whole executions. *)

From S2P Require Import Prelude.
From S2P Require Import Actors.
From S2P Require Import StoragePaths.
From S2P Require Import Snapshots.
From S2P Require Import ReplicaStore.
From S2P Require Import ReplicaServer.
From S2P Require Import RuntimeStorage.
From S2P Require Import StreamNames.
From S2P Require Import Interleaving.
From S2P Require Import ActivationSafety.
From S2P Require Import Samples.
Local Open Scope string_scope.
Local Open Scope Z_scope.

(** The public operations *)
Inductive Call :=
| CRegister (fuel : nat) (actor : ActorKey) (r : HostLeaseRequest) (reg : string) (new_actor : bool)
| CRenew (actor : ActorKey) (r : HostLeaseRequest) (i : ActivationInventory)
| CRelease (actor : ActorKey) (h s : string)
| CRetire (fuel : nat) (scope : ReplicaScope)
| CActivate (actor : ActorKey) (l : HostLease) (reg : string)
| CLoadOwned (actor : ActorKey) (l : HostLease) (e : Z)
| CGetOwner (obj : string)
| CGet (obj : string)
| CPrepare (actor : ActorKey) (l : HostLease) (e v : Z)
| CWrite (plan : WritePlan) (bytes : string)
| CCurrentPlan (plan : WritePlan)
| CUnhealthy (scope : ReplicaScope)
| CReplacement (scope : ReplicaScope) (failed : list string)
| CSuspend (scope : ReplicaScope)
| CEnable (m : ReplicaMembership)
| CReplaceReplicas (scope : ReplicaScope) (l : list ReplicaTarget)
    (newest : option (WritePlan * string))
| CInitial (scope : ReplicaScope) (l : list ReplicaTarget)
| CFetch (g : ReplicaGrant)
| CReadUrl (reg obj : string)
| CInspect (actor : ActorKey) (v : option Z)
| CHistory (actor : ActorKey) (before : option Z) (limit : nat)
| CInventory (project : string).

Inductive Outcome := Activated (l : LoadedActor) | Wrote | Finished.

Section protocol.
Context `{Base64Url, Sha256, Hmac, UrlParser, Json ReplicaGrant, Json StateSnapshot,
          Json Ownership, Json Session, Json StateRecord,
          !Base64UrlLaws, !JsonLaws Ownership, !JsonLaws Session}.
Context (config : Config).

Definition call_code (c : Call) : prog Outcome :=
  match c with
  | CRegister fuel actor r reg new_actor =>
      l ← register_activation fuel actor r reg new_actor; mret (Activated l)
  | CRenew actor r i => renew_activation actor r i;; mret Finished
  | CRelease actor h s => release_activation actor h s;; mret Finished
  | CRetire fuel scope => retire_replication fuel scope;; mret Finished
  | CActivate actor l reg => activate_actor actor l reg;; mret Finished
  | CLoadOwned actor l e => load_owned_actor actor l e;; mret Finished
  | CGetOwner obj => get_owner obj;; mret Finished
  | CGet obj => get_placement obj;; mret Finished
  | CPrepare actor l e v => prepare_actor_write config actor l e v;; mret Finished
  | CWrite plan bytes => write_snapshot plan bytes;; mret Wrote
  | CCurrentPlan plan => current_write_plan config plan;; mret Finished
  | CUnhealthy scope => unhealthy_replicas scope;; mret Finished
  | CReplacement scope failed => replacement_replicas scope failed;; mret Finished
  | CSuspend scope => suspend_replication scope;; mret Finished
  | CEnable m => enable_replication m;; mret Finished
  | CReplaceReplicas scope l newest => replace_replicas config scope l newest;; mret Finished
  | CInitial scope l => register_initial_replicas config scope l;; mret Finished
  | CFetch g => fetch_snapshot g;; mret Finished
  | CReadUrl reg obj => read_url config reg obj;; mret Finished
  | CInspect actor v => inspect_state actor v;; mret Finished
  | CHistory actor before limit => state_history actor before limit;; mret Finished
  | CInventory project => actor_inventory project;; mret Finished
  end.

(** Callers write with plans made for a stream, so below [snapshots/]. *)
Definition call_allowed (c : Call) : Prop :=
  match c with
  | CWrite plan _ => under "snapshots/" (prefix (plan_stream plan))
  | _ => True
  end.

Definition call_post (c : Call) (r : Result Outcome) (w : World) : Prop :=
  match c, r with
  | CRegister _ actor req _ _, Ok (Activated l) => activated actor req l w
  | CWrite plan bytes, Ok Wrote => been (object_name plan) bytes w
  | _, _ => True
  end.

Lemma call_post_stable c r : stable legal (call_post c r).
Proof.
  intros w w' Hp Hg. destruct c, r as [[]|]; cbn in *; try done.
  - by eapply activated_stable.
  - by eapply been_stable.
Qed.

Lemma call_ok_other node c (p : prog Outcome) w :
  (forall r w', call_post c r w') ->
  wp honest legal node p (on_ok (fun _ _ => True)) w -> wp honest legal node p (call_post c) w.
Proof. intros Hc Hp. eapply wp_mono; [exact Hp|]. auto. Qed.

Lemma ok_done {A} node (p : prog A) (o : Outcome) w :
  wp honest legal node p (on_ok (fun _ _ => True)) w ->
  wp honest legal node (p;; mret o) (on_ok (fun _ _ => True)) w.
Proof. intros Hp. apply ok_bind. by eapply ok_mono. Qed.

Lemma call_code_ok node c w :
  call_allowed c -> wp honest legal node (call_code c) (call_post c) w.
Proof.
  intros Hc. destruct c; cbn [call_code call_allowed] in *;
    try (apply call_ok_other; [intros [[]|] ?; exact I|]; try apply ok_done).
  - eapply wp_mono with (Q := on_ok (fun o w' => match o with
      | Activated l => activated actor r l w' | _ => True end)).
    + apply ok_bind. eapply ok_mono; [by apply ok_register; try apply _|done].
    + intros [[]|]; done.
  - by apply ok_renew.
  - by apply ok_release.
  - by apply ok_retire.
  - apply ok_activate_actor; apply _.
  - apply ok_load_owned; apply _.
  - apply no_cas_safe. unfold get_owner, load. no_cas.
  - apply ok_get_placement; apply _.
  - apply no_cas_safe. unfold prepare_actor_write, local_replica_members, write_plan, grant. no_cas.
  - eapply wp_mono with (Q := on_ok (fun _ w' => been (object_name plan) bytes w')).
    + apply ok_bind. eapply ok_mono; [by apply ok_write_snapshot|done].
    + intros [[]|]; done.
  - apply no_cas_safe. unfold current_write_plan, write_plan, grant. no_cas.
  - apply no_cas_safe. unfold unhealthy_replicas. no_cas.
  - apply no_cas_safe. unfold replacement_replicas. no_cas.
  - apply no_cas_safe. unfold suspend_replication. no_cas.
  - apply no_cas_safe. unfold enable_replication. no_cas.
  - by apply ok_replace_replicas.
  - by apply ok_register_initial.
  - apply no_cas_safe. unfold fetch_snapshot, load, replica_members. no_cas.
  - apply no_cas_safe. unfold read_url, grant. no_cas.
  - apply no_cas_safe. unfold inspect_state, stored_versions, read_stored_state. no_cas.
  - apply ok_state_history; apply _.
  - apply no_cas_safe. unfold actor_inventory. no_cas; apply no_cas_inventory.
Qed.

Definition empty_world : World :=
  {| bucket := ∅; past := ∅; owned_map := ∅; sessions_map := ∅ |}.

(** Executions from a fresh bucket *)
Abbreviation steps := (rtc (system_step honest call_code call_allowed)).
Definition reachable (s : World * list (nat * Call * prog Outcome)) : Prop :=
  steps (empty_world, []) s.

Lemma empty_world_ok : world_ok legal empty_world.
Proof. intros key. done. Qed.

Lemma reachable_ok s : reachable s ->
  world_ok legal s.1 /\ Forall (thread_ok honest legal call_post s.1) s.2.
Proof.
  intros Hr. destruct (system_sound honest legal call_code call_allowed call_post
    call_post_stable call_code_ok (empty_world, []) s) as (? & _ & ?);
    [apply empty_world_ok|constructor|exact Hr|done].
Qed.

Lemma steps_rely s s' : reachable s -> steps s s' -> rely legal s.1 s'.1.
Proof.
  intros Hr Hs. destruct (reachable_ok s Hr) as [Hw Ht].
  by destruct (system_sound honest legal call_code call_allowed call_post
    call_post_stable call_code_ok s s' Hw Ht Hs) as (_ & ? & _).
Qed.

(** * Histories of owner records *)
(** One owner record is a later state of another: a later epoch, or the same
    activation. *)
Definition later (old new : Ownership) : Prop :=
  own_actor new = own_actor old /\ region new = region old /\
  (epoch old < epoch new \/ same_activation old new).

Lemma later_trans a b c : later a b -> later b c -> later a c.
Proof.
  unfold later, same_activation. intros (A1 & R1 & C1) (A2 & R2 & C2).
  split_and!; [congruence..|].
  destruct C1 as [|(? & ? & ? & ? & ? & ? & ?)], C2 as [|(? & ? & ? & ? & ? & ? & ?)];
    [left; lia|left; lia|left; lia|right; split_and!; congruence].
Qed.

Lemma legal_owner_later key u v : under "owners/" key -> legal key (Some u) v ->
  exists ru rv, from_slice u = Ok ru /\ from_slice v = Ok rv /\ later ru rv.
Proof.
  intros Hu Hl%legal_owner_key; [|done]. destruct Hl as (rv & Hv & _ & ru & Hru & Hn).
  exists ru, rv. split_and!; [done|done|]. unfold later.
  destruct Hn as [(E & A & R & _)|Hn]; [split_and!; [done|done|left; lia]|].
  pose proof Hn as (_ & A & R & _). auto.
Qed.

Lemma chain_later key l u v : under "owners/" key ->
  chain legal key (v :: l) -> u ∈ l ->
  exists ru rv, from_slice u = Ok ru /\ from_slice v = Ok rv /\ later ru rv.
Proof.
  intros Hu. revert v. induction l as [|x l IH]; intros v Hc Hin; [set_solver|].
  cbn in Hc. destruct Hc as [Hv [Hx Hc]].
  destruct (legal_owner_later key x v Hu Hv) as (rx & rv & Ex & Ev & Hlater).
  apply elem_of_cons in Hin as [-> |Hin]; [eauto 10|].
  destruct (IH x) as (ru & rx' & Eu & Ex' & Hlater'); [done|done|].
  rewrite Ex in Ex'. injection Ex' as <-. exists ru, rv. split_and!; [done|done|].
  by eapply later_trans.
Qed.

Lemma chain_comparable key l u v ru rv : under "owners/" key ->
  chain legal key l -> u ∈ l -> v ∈ l -> from_slice u = Ok ru -> from_slice v = Ok rv ->
  u = v \/ later ru rv \/ later rv ru.
Proof.
  intros Hu. induction l as [|x l IH]; intros Hc Hiu Hiv Eu Ev; [set_solver|].
  apply elem_of_cons in Hiu as [-> |Hiu], Hiv as [-> |Hiv].
  - by left.
  - destruct (chain_later key l v x Hu Hc Hiv) as (r1 & r2 & E1 & E2 & Hl). right; right. congruence.
  - destruct (chain_later key l u x Hu Hc Hiu) as (r1 & r2 & E1 & E2 & Hl). right; left. congruence.
  - apply IH; try done. by destruct Hc.
Qed.

(** C1: no two sessions ever hold the same epoch.  In any execution of any
    number of hosts, with requests interleaved in any order and bucket writes
    that may fail or be misreported, if two activations of one actor both
    succeeded with the same epoch, they were made for the same host and the
    same session. *)
Theorem one_session_per_epoch w ts n1 n2 f1 f2 actor r1 r2 reg1 reg2 b1 b2 l1 l2 :
  reachable (w, ts) ->
  (n1, CRegister f1 actor r1 reg1 b1, Ret (Ok (Activated l1))) ∈ ts ->
  (n2, CRegister f2 actor r2 reg2 b2, Ret (Ok (Activated l2))) ∈ ts ->
  pl_owner_epoch (placement l1) = pl_owner_epoch (placement l2) ->
  req_id r1 = req_id r2 /\ req_session_id r1 = req_session_id r2.
Proof.
  intros Hr H1' H2' He. destruct (reachable_ok _ Hr) as [Hw Ht]. cbn in Hw, Ht.
  destruct (finished_post honest legal call_post w ts _ _ _ Ht H1')
    as (k1 & rec1 & Hk1 & Hb1 & _ & He1 & Hid1 & Hs1).
  destruct (finished_post honest legal call_post w ts _ _ _ Ht H2')
    as (k2 & rec2 & Hk2 & Hb2 & _ & He2 & Hid2 & Hs2).
  rewrite Hk1 in Hk2. injection Hk2 as <-. destruct (Hw k1) as [Hc _].
  rewrite <-Hid1, <-Hid2, <-Hs1, <-Hs2.
  destruct (chain_comparable k1 _ _ _ rec1 rec2 (ownership_key_under _ _ Hk1) Hc Hb1 Hb2)
    as [E|[(_ & _ & Hl)|(_ & _ & Hl)]]; try apply json_roundtrip.
  - apply (f_equal (from_slice (A := Ownership))) in E. rewrite !json_roundtrip in E. by injection E as ->.
  - destruct Hl as [?|(_ & _ & _ & _ & -> & -> & _)]; [lia|done].
  - destruct Hl as [?|(_ & _ & _ & _ & -> & -> & _)]; [lia|done].
Qed.

(** * What later worlds keep *)
Lemma value_later key w w' : under "owners/" key -> world_ok legal w -> rely legal w w' ->
  forall o rec, bucket w !! key = Some o -> from_slice (bytes_of o) = Ok rec ->
  exists o' rec', bucket w' !! key = Some o' /\ from_slice (bytes_of o') = Ok rec' /\
    (rec' = rec \/ later rec rec').
Proof.
  intros Hu Hw Hr o rec Ho Hd.
  assert (Hb : been key (bytes_of o) w') by (eapply stable_rely; [apply been_stable|by apply current_been|done]).
  destruct (rely_ok legal w w' Hw Hr key) as [Hc Hv]. unfold been in Hb.
  destruct (history_of w' key) as [|v l] eqn:Eh; [set_solver|]. unfold value_of in Hv.
  destruct (bucket w' !! key) as [o'|]; [|done]. injection Hv as Hv.
  apply elem_of_cons in Hb as [E|Hin].
  - exists o', rec. split_and!; [done|congruence|by left].
  - destruct (chain_later key l (bytes_of o) v Hu Hc Hin) as (ru & rv & Eu & Ev & Hl).
    exists o', rv. split_and!; [done|congruence|]. right. congruence.
Qed.

(** Ownership only moves forward.  From any reachable point on, the owner
    record of an actor keeps its actor and region, its epoch never decreases,
    and as long as the epoch is the same so are the host, the session, the
    route and the recovered base state. *)
Theorem ownership_moves_forward s s' key o rec :
  reachable s -> steps s s' -> under "owners/" key ->
  bucket s.1 !! key = Some o -> from_slice (bytes_of o) = Ok rec ->
  exists o' rec', bucket s'.1 !! key = Some o' /\ from_slice (bytes_of o') = Ok rec' /\
    own_actor rec' = own_actor rec /\ region rec' = region rec /\
    (epoch rec < epoch rec' \/ same_activation rec rec').
Proof.
  intros Hr Hs Hu Ho Hd. destruct (reachable_ok s Hr) as [Hw _].
  destruct (value_later key _ _ Hu Hw (steps_rely _ _ Hr Hs) o rec Ho Hd)
    as (o' & rec' & Ho' & Hd' & [-> |Hl]); exists o'.
  - exists rec. split_and!; try done. right. done.
  - exists rec'. destruct Hl as (? & ? & ?). done.
Qed.

(** Keys written once *)
Lemma frozen_key (Fz : string -> Prop) :
  (forall key u v, Fz key -> ~ legal key (Some u) v) ->
  forall w w' key o, Fz key -> rely legal w w' -> bucket w !! key = Some o -> bucket w' !! key = Some o.
Proof.
  intros Hfz w w' key o Hk Hr Ho. induction Hr as [|w w1 w' Hg Hr IH]; [done|]. apply IH.
  destruct Hg as [[Eb _]|(k & g & b & Hl & _ & Eb & _)]; rewrite Eb; [done|]. cbn.
  destruct (decide (k = key)) as [-> |Hne]; [|by rewrite lookup_insert_ne].
  exfalso. unfold value_of in Hl. rewrite Ho in Hl. by eapply Hfz.
Qed.

(** A stored snapshot never changes.  Whatever the hosts do, an object
    below [snapshots/] keeps its bytes and its generation from the moment it
    exists. *)
Theorem snapshots_are_immutable s s' key o :
  reachable s -> steps s s' -> under "snapshots/" key ->
  bucket s.1 !! key = Some o -> bucket s'.1 !! key = Some o.
Proof.
  intros Hr Hs Hu. eapply (frozen_key (under "snapshots/")); [|done|by apply steps_rely].
  intros k u v Hk Hl%legal_snapshot_key; [|done]. done.
Qed.

(** A write that the storage reported as done is in the bucket under the
    planned name, with the written bytes, in every later state. *)
Theorem reported_write_is_stored w ts n plan bytes :
  reachable (w, ts) -> (n, CWrite plan bytes, Ret (Ok Wrote)) ∈ ts ->
  under "snapshots/" (object_name plan) ->
  exists g, bucket w !! object_name plan = Some {| generation := g; bytes_of := bytes |}.
Proof.
  intros Hr Hin Hu. destruct (reachable_ok _ Hr) as [Hw Ht]. cbn in Hw, Ht.
  pose proof (finished_post honest legal call_post w ts _ _ _ Ht Hin) as Hb. cbn in Hb.
  destruct (Hw (object_name plan)) as [Hc Hv]. unfold been in Hb.
  destruct (history_of w (object_name plan)) as [|x [|y l]].
  - set_solver.
  - apply list_elem_of_singleton in Hb. subst x. unfold value_of in Hv.
    destruct (bucket w !! object_name plan) as [[g b]|]; [|done]. injection Hv as ->. by exists g.
  - cbn in Hc. destruct Hc as [Hx _]. apply legal_snapshot_key in Hx; [done|done].
Qed.

(** Recovery is final.  Once the record of a session says it is recovering,
    it can only become sealed, with the same replicas; once it is sealed it
    never changes again.  No host can reopen a session or add replicas to it. *)
Theorem recovering_session_only_seals s s' key o ses :
  reachable s -> steps s s' -> under "hosts/" key ->
  bucket s.1 !! key = Some o -> from_slice (bytes_of o) = Ok ses -> ses_state ses <> Open ->
  (ses_state ses = Sealed -> bucket s'.1 !! key = Some o) /\
  exists o' ses', bucket s'.1 !! key = Some o' /\ from_slice (bytes_of o') = Ok ses' /\
    ses_id ses' = ses_id ses /\ ses_region ses' = ses_region ses /\
    ses_replicas ses' = ses_replicas ses /\
    (ses' = ses \/ (ses_state ses = Recovering /\ ses_state ses' = Sealed)).
Proof.
  intros Hr Hs Hu Ho Hd Hst. pose proof (steps_rely _ _ Hr Hs) as Hrely.
  generalize dependent (s'.1). intros w' Hrely. generalize dependent (s.1). intros w Ho Hrely.
  clear Hr Hs. revert o ses Ho Hd Hst.
  induction Hrely as [w|w w1 w2 Hg Hr IH]; intros o ses Ho Hd Hst.
  { split; [done|]. exists o, ses. split_and!; try done. by left. }
  destruct Hg as [[Eb _]|(k & g & b & Hl & _ & Eb & _)].
  { apply IH; [by rewrite Eb|done|done]. }
  destruct (decide (k = key)) as [-> |Hne].
  2: { apply IH; [|done|done]. rewrite Eb. cbn. by rewrite lookup_insert_ne. }
  unfold value_of in Hl. rewrite Ho in Hl. apply legal_session_key in Hl; [|done].
  destruct Hl as (n & Hn & prev & Hp & Hid & Hreg & Hnext). rewrite Hd in Hp. injection Hp as <-.
  destruct (ses_state ses) eqn:Es; [done| |done]. destruct Hnext as [Hsealed Hrep].
  split; [done|].
  destruct (IH {| generation := g; bytes_of := b |} n) as (Hsame & _);
    [by rewrite Eb; cbn; rewrite lookup_insert_eq|done|congruence|].
  exists {| generation := g; bytes_of := b |}, n. split_and!; try done; [by apply Hsame|by right].
Qed.
End protocol.

(** * A concrete scheduler, to run the system on examples

    Every request is answered at once: the bucket accepts a compare-and-swap
    exactly when the generation matches, replicas stay silent, the clock shows
    [t]. *)
Definition answer (t : Z) (node : nat) (w : World) {X} (e : Eff X) : X * World :=
  match e in Eff X return X * World with
  | BGet key => (Ok (bucket w !! key), w)
  | BCas key expected bytes =>
      if decide (generation <$> bucket w !! key = expected)
      then (Ok true,
            write_object key (match bucket w !! key with Some o => generation o + 1 | None => 1 end)
              bytes w)
      else (Ok false, w)
  | BList pre =>
      (Ok (filter (fun k => starts_with pre k = true) (map_to_list (bucket w)).*1), w)
  | Now | SystemNow => (Ok t, w)
  | NewUuid => ("uuid", w)
  | OwnedGet key => (owned_map w !! (node, key), w)
  | OwnedInsert key r => ((), set_owned (<[(node, key) := r]> (owned_map w)) w)
  | SessionsGet key => (sessions_map w !! (node, key), w)
  | SessionsInsert key l => ((), set_sessions_map (<[(node, key) := l]> (sessions_map w)) w)
  | SessionsRemove key => ((), set_sessions_map (delete (node, key) (sessions_map w)) w)
  | PeerHeads _ _ => ([], w)
  | PeerSeals _ _ => ([], w)
  | PeerRead _ _ => (Err "unavailable", w)
  | PeerReads _ _ => ([], w)
  | PeerInitializes _ _ => ([], w)
  | TransportWrites _ _ => (Ok (), w)
  | FleetRepair _ _ => (Ok [], w)
  | HashOrder l => (l, w)
  | DeadlinePassed => (false, w)
  end.

Lemma answer_step t node w X (e : Eff X) : step honest node w e (answer t node w e).1 (answer t node w e).2.
Proof.
  destruct e; cbn; try done;
    try (split; [reflexivity|];
         first [done | by left | by intros ? ? ? ?%not_elem_of_nil]).
  - case_decide as E; [|by left]. right. eexists. split; [done|]. split; [|done].
    intros o Ho. rewrite Ho. cbn. lia.
  - split; [done|]. left. eexists. split; [done|]. apply (lists_exact pre w).
    + apply NoDup_filter, NoDup_fst_map_to_list.
    + intros k. rewrite list_elem_of_filter, list_elem_of_fmap. split.
      * intros [? ([k' o] & -> & Hin%elem_of_map_to_list)]. by split; [eexists|].
      * intros [[o Ho] ?]. split; [done|]. exists (k, o). split; [done|]. by apply elem_of_map_to_list.
Qed.

Fixpoint execute {A} (t : Z) (fuel node : nat) (w : World) (p : prog A) : World * prog A :=
  match fuel, p with
  | S fuel', Vis e k => let '(x, w') := answer t node w e in execute t fuel' node w' (k x)
  | _, _ => (w, p)
  end.

Section scheduler.
Context `{Base64Url, Sha256, Hmac, UrlParser, Json ReplicaGrant, Json StateSnapshot,
          Json Ownership, Json Session, Json StateRecord}.
Context (config : Config).

(** Start one operation and run it alone for a while. *)
Definition run_call (t : Z) (fuel node : nat) (c : Call)
  (s : World * list (nat * Call * prog Outcome)) : World * list (nat * Call * prog Outcome) :=
  let '(w', p) := execute t fuel node s.1 (call_code config c) in
  (w', s.2 ++ [(node, c, p)])%list.

Lemma execute_steps t fuel node c p : forall w ts,
  rtc (system_step honest (call_code config) call_allowed) (w, ts ++ [(node, c, p)])%list
    ((execute t fuel node w p).1, ts ++ [(node, c, (execute t fuel node w p).2)])%list.
Proof.
  revert p. induction fuel as [|fuel IH]; intros p w ts; [reflexivity|].
  destruct p as [r|X e k|]; cbn [execute]; try reflexivity.
  pose proof (answer_step t node w X e) as Hstep.
  destruct (answer t node w e) as [x w']. cbn in Hstep. eapply rtc_l; [|apply IH].
  by constructor.
Qed.

Lemma run_call_steps t fuel node c s :
  call_allowed c -> rtc (system_step honest (call_code config) call_allowed) s (run_call t fuel node c s).
Proof.
  intros Hc. destruct s as [w ts]. eapply rtc_l; [by apply start_operation|].
  unfold run_call. pose proof (execute_steps t fuel node c (call_code config c) w ts) as He. cbn [fst].
  destruct (execute t fuel node w (call_code config c)). exact He.
Qed.
End scheduler.

(** * Examples *)
Import Hex.
#[global] Instance ActorSocketConnection_text : Text ActorSocketConnection.
Proof.
  refine (via (fun c => (conn_id c, (conn_metadata c, conn_tags c)))
    (fun '(a, (b, c)) => Some (Build_ActorSocketConnection a b c)) _). by intros [].
Defined.
#[global] Instance WaitingOperation_text : Text WaitingOperation.
Proof.
  refine (via (fun o => (op_id o, operation o)) (fun '(a, b) => Some (Build_WaitingOperation a b)) _).
  by intros [].
Defined.
#[global] Instance ActivationInventory_text : Text ActivationInventory.
Proof.
  refine (via (fun i => (inv_resident i, (inv_connections i, inv_waiting i)))
    (fun '(a, (b, c)) => Some (Build_ActivationInventory a b c)) _). by intros [].
Defined.
#[global] Instance HostLease_text : Text HostLease.
Proof.
  refine (via (fun l => (lease_id l, (lease_session_id l, (lease_route l, expires_at_ms l))))
    (fun '(a, (b, (c, d))) => Some (Build_HostLease a b c d)) _). by intros [].
Defined.
#[global] Instance ActorKey_text : Text ActorKey.
Proof.
  refine (via (fun a => (project_id a, (actor_name a, actor_id a)))
    (fun '(a, (b, c)) => Some (Build_ActorKey a b c)) _). by intros [].
Defined.
#[global] Instance Ownership_text : Text Ownership.
Proof.
  refine (via (fun o => (inventory o, (lease o, (mutation o, (own_actor o, (epoch o, (region o, base o)))))))
    (fun '(a, (b, (c, (d, (e, (f, g)))))) => Some (Build_Ownership a b c d e f g)) _). by intros [].
Defined.
#[global] Instance ReplicaTarget_text : Text ReplicaTarget.
Proof.
  refine (via (fun t => (host_id t, (url t, target_region t)))
    (fun '(a, (b, c)) => Some (Build_ReplicaTarget a b c)) _). by intros [].
Defined.
#[global] Instance RecoveryState_text : Text RecoveryState.
Proof.
  refine (via (fun s => match s with Open => 0 | Recovering => 1 | Sealed => 2 end)
    (fun z => if z =? 0 then Some Open else if z =? 1 then Some Recovering else Some Sealed) _).
  by intros [].
Defined.
#[global] Instance Session_text : Text Session.
Proof.
  refine (via (fun s => (ses_id s, (ses_region s, (ses_replicas s, ses_state s))))
    (fun '(a, (b, (c, d))) => Some (Build_Session a b c d)) _). by intros [].
Defined.
#[global] Instance StateRecord_text : Text StateRecord.
Proof.
  refine (via (fun r => (rec_state_version r, (rec_owner_epoch r, (rec_request_id r, rec_attribution r))))
    (fun '(a, (b, (c, d))) => Some (Build_StateRecord a b c d)) _). by intros [].
Defined.
#[global] Instance sample_urls : UrlParser :=
  {| parse_url := fun s => Ok {| username := ""; password := None; query := None; fragment := None;
       url_path := "/"; host_str := Some "host"; scheme := "http"; ascii_serialization := s |} |}.
Definition sample_config : Config := {| access_key := "k"; origin := "http://o"; fleet_regions := ["eu"] |}.

Definition sample_lease_request (h s : string) : HostLeaseRequest :=
  {| req_id := h; req_session_id := s; req_route := "route"; duration_ms := 1000 |}.
Definition sample_plan : WritePlan :=
  {| plan_stream := {| rs_session := "S"; prefix := ROOT +:+ "snapshots/p/"; rs_owner_epoch := 1;
                       base_version := 0 |};
     plan_state_version := 1; object_name := ROOT +:+ "snapshots/p/1.json";
     plan_expires_at_ms := 0; replication := None |}.
Definition sample_snapshot : string :=
  to_vec {| attribution := None; state_version := 1; owner_epoch := 1; snap_request_id := "r";
            state := "{}"; result := Null |}.

(** The first activation, then a takeover by another host after expiry *)
Definition system1 : World * list (nat * Call * prog Outcome) :=
  run_call sample_config 0 60 0
    (CRegister 3 sample_actor (sample_lease_request "h1" "s1") "eu" true) (empty_world, []).
Definition system2 : World * list (nat * Call * prog Outcome) :=
  run_call sample_config 5000 60 1
    (CRegister 3 sample_actor (sample_lease_request "h2" "s2") "eu" false) system1.
Definition system3 : World * list (nat * Call * prog Outcome) :=
  run_call sample_config 5000 60 1 (CWrite sample_plan sample_snapshot) system2.

Lemma system1_reachable : reachable sample_config system1.
Proof. apply run_call_steps. exact I. Qed.
Lemma system2_steps : rtc (system_step honest (call_code sample_config) call_allowed) system1 system2.
Proof. apply run_call_steps. exact I. Qed.
Lemma system3_steps : rtc (system_step honest (call_code sample_config) call_allowed) system2 system3.
Proof. apply run_call_steps. vm_compute. reflexivity. Qed.
Lemma system2_reachable : reachable sample_config system2.
Proof. unfold reachable. etrans; [apply system1_reachable|apply system2_steps]. Qed.
Lemma system3_reachable : reachable sample_config system3.
Proof. unfold reachable. etrans; [apply system2_reachable|apply system3_steps]. Qed.

Lemma one_session_per_epoch_witness :
  exists l, (0%nat, CRegister 3 sample_actor (sample_lease_request "h1" "s1") "eu" true,
             Ret (Ok (Activated l))) ∈ system1.2 /\ pl_owner_epoch (placement l) = 1 /\
    req_id (sample_lease_request "h1" "s1") = req_id (sample_lease_request "h1" "s1").
Proof.
  assert (Hin : exists l, system1.2 !! 0%nat = Some (0%nat,
      CRegister 3 sample_actor (sample_lease_request "h1" "s1") "eu" true, Ret (Ok (Activated l)))
      /\ pl_owner_epoch (placement l) = 1).
  { eexists. split; vm_compute; reflexivity. }
  destruct Hin as (l & Hl%list_elem_of_lookup_2 & He). exists l. split; [exact Hl|].
  split; [exact He|].
  eapply (one_session_per_epoch sample_config system1.1 system1.2); [|exact Hl|exact Hl|reflexivity].
  rewrite <-surjective_pairing. exact system1_reachable.
Defined.

Definition sample_owner_key : string := ROOT +:+ "owners/" +:+ actor_path sample_actor +:+ ".json".

Lemma ownership_moves_forward_witness :
  exists o rec o' rec', bucket system1.1 !! sample_owner_key = Some o /\
    from_slice (bytes_of o) = Ok rec /\ epoch rec = 1 /\
    bucket system2.1 !! sample_owner_key = Some o' /\ from_slice (bytes_of o') = Ok rec' /\
    (epoch rec < epoch rec' \/ same_activation rec rec').
Proof.
  assert (Ho : exists o rec, bucket system1.1 !! sample_owner_key = Some o /\
    from_slice (bytes_of o) = Ok rec /\ epoch rec = 1).
  { eexists _, _. split; [|split]; vm_compute; reflexivity. }
  destruct Ho as (o & rec & Ho & Hd & He).
  destruct (ownership_moves_forward sample_config system1 system2 sample_owner_key o rec)
    as (o' & rec' & Ho' & Hd' & _ & _ & Hl).
  - exact system1_reachable.
  - exact system2_steps.
  - vm_compute. reflexivity.
  - exact Ho.
  - exact Hd.
  - exists o, rec, o', rec'. split_and!; assumption.
Defined.

Lemma reported_write_is_stored_witness :
  exists g, bucket system3.1 !! object_name sample_plan
            = Some {| generation := g; bytes_of := sample_snapshot |}.
Proof.
  assert (Hin : system3.2 !! 2%nat = Some (1%nat, CWrite sample_plan sample_snapshot, Ret (Ok Wrote))).
  { vm_compute. reflexivity. }
  apply list_elem_of_lookup_2 in Hin.
  eapply (reported_write_is_stored sample_config system3.1 system3.2); [|exact Hin|].
  - rewrite <-surjective_pairing. exact system3_reachable.
  - vm_compute. reflexivity.
Defined.

(** After the write, a later operation *)
Definition system4 : World * list (nat * Call * prog Outcome) :=
  run_call sample_config 9000 60 2 (CGetOwner (storage_key sample_actor)) system3.
Lemma system4_steps : rtc (system_step honest (call_code sample_config) call_allowed) system3 system4.
Proof. apply run_call_steps. exact I. Qed.

Lemma snapshots_are_immutable_witness :
  exists o, bucket system3.1 !! object_name sample_plan = Some o /\
            bucket system4.1 !! object_name sample_plan = Some o.
Proof.
  assert (Ho : exists o, bucket system3.1 !! object_name sample_plan = Some o).
  { eexists. vm_compute. reflexivity. }
  destruct Ho as [o Ho]. exists o. split; [exact Ho|].
  eapply (snapshots_are_immutable sample_config system3 system4).
  - exact system3_reachable.
  - exact system4_steps.
  - vm_compute. reflexivity.
  - exact Ho.
Defined.

(** The takeover in [system2] sealed the first session's record. *)
Lemma recovering_session_only_seals_witness :
  exists o ses, bucket system2.1 !! session_key "h1" "s1" = Some o /\
    from_slice (bytes_of o) = Ok ses /\ ses_state ses = Sealed /\
    bucket system3.1 !! session_key "h1" "s1" = Some o.
Proof.
  assert (Ho : exists o ses, bucket system2.1 !! session_key "h1" "s1" = Some o /\
    from_slice (bytes_of o) = Ok ses /\ ses_state ses = Sealed).
  { eexists _, _. split; [|split]; vm_compute; reflexivity. }
  destruct Ho as (o & ses & Ho & Hd & Hs).
  destruct (recovering_session_only_seals sample_config system2 system3 (session_key "h1" "s1") o ses)
    as (Hsame & _).
  - exact system2_reachable.
  - exact system3_steps.
  - vm_compute. reflexivity.
  - exact Ho.
  - exact Hd.
  - rewrite Hs. discriminate.
  - exists o, ses. split_and!; [exact Ho|exact Hd|exact Hs|exact (Hsame Hs)].
Defined.
