(* ===== verification/Recovery.v ===== *)
(** Recovery does not lose acknowledged state: when a host takes an actor over,
    what it loads is at least as new as anything every replica of the
    previous session had acknowledged, whichever replicas answer and whichever
    bucket requests fail; and if no replica answers it refuses.

    These theorems run one recovery at a time ([seq]): no other host writes in
    between.  What replicas answer is constrained only by what they hold. *)

From S2P Require Import Prelude.
From S2P Require Import Actors.
From S2P Require Import StoragePaths.
From S2P Require Import Snapshots.
From S2P Require Import ReplicaStore.
From S2P Require Import ReplicaServer.
From S2P Require Import RuntimeStorage.
From S2P Require Import StreamNames.
From S2P Require Import Interleaving.
From S2P Require Import ActivationSafety.
From S2P Require Import Samples.
From S2P Require Import StorageProtocol.
Local Open Scope string_scope.
Local Open Scope Z_scope.

(** * Positions *)
Definition pos_le (a b : option (Z * Z)) : Prop := pos_ltb b a = false.

Lemma pos_le_refl a : pos_le a a.
Proof. unfold pos_le. destruct a as [[e v]|]; [|done]. cbn. lia. Qed.
Lemma pos_le_trans a b c : pos_le a b -> pos_le b c -> pos_le a c.
Proof.
  unfold pos_le. destruct a as [[e1 v1]|], b as [[e2 v2]|], c as [[e3 v3]|]; cbn; try done. lia.
Qed.
Lemma pos_ltb_le a b : pos_ltb a b = true -> pos_le a b.
Proof. unfold pos_le. destruct a as [[e1 v1]|], b as [[e2 v2]|]; cbn; try done. lia. Qed.
Lemma pos_le_Some e v p : pos_le (Some (e, v)) p -> exists e' v', p = Some (e', v') /\
  (e < e' \/ e = e' /\ v <= v').
Proof.
  unfold pos_le. destruct p as [[e' v']|]; cbn; [|done]. intros Hp. exists e', v'. split; [done|]. lia.
Qed.

Definition ref_pos (r : SnapshotRef) : option (Z * Z) := snapshot_position (object r).
(** An optional reference is at least as new as a position. *)
Definition at_pos (p : option (Z * Z)) (o : option SnapshotRef) : Prop :=
  exists r, o = Some r /\ pos_le p (ref_pos r).

Lemma advance_ge c n c' p :
  advance c n = Ok c' -> at_pos p c \/ at_pos p n -> at_pos p c'.
Proof.
  unfold advance. intros E Hcase. destruct n as [n|].
  2: { injection E as <-. destruct Hcase as [?|(? & [=] & _)]. done. }
  destruct c as [c|].
  2: { injection E as <-. destruct Hcase as [(? & [=] & _)|?]. done. }
  apply bind_ok in E as (u & _ & E). injection E as <-.
  destruct Hcase as [(r & [= <-] & Hr)|(r & [= <-] & Hr)].
  - destruct (pos_ltb (snapshot_position (object c)) (snapshot_position (object n))) eqn:El;
      eexists; (split; [done|]); [|done]. eapply pos_le_trans; [exact Hr|]. by apply pos_ltb_le.
  - destruct (pos_ltb (snapshot_position (object c)) (snapshot_position (object n))) eqn:El;
      eexists; (split; [done|]); [done|]. eapply pos_le_trans; [exact Hr|]. exact El.
Qed.

Lemma count_heads_ge s replies p : forall n c n' c',
  count_heads s replies n c = Ok (n', c') -> at_pos p c -> at_pos p c'.
Proof.
  induction replies as [|[t [h|e]] replies IH]; intros n c n' c' E Hp; cbn -[advance] in E.
  - by injection E as <- <-.
  - apply bind_ok in E as (u & _ & E). apply bind_ok in E as (c1 & E1 & E).
    eapply IH; [exact E|]. eapply advance_ge; [exact E1|by left].
  - by eapply IH.
Qed.

(** * What sealing collects *)
Lemma collect_streams_ge id heads p : forall m m' pre,
  collect_streams id heads m = Ok m' ->
  at_pos p (m !! pre) \/
  (exists sh, sh ∈ heads /\ prefix (head_stream sh) = pre /\ at_pos p (latest sh)) ->
  at_pos p (m' !! pre).
Proof.
  induction heads as [|h heads IH]; intros m m' pre E Hp; cbn -[advance] in E.
  { injection E as <-. destruct Hp as [?|(sh & Hin & _)]; [done|]. by apply not_elem_of_nil in Hin. }
  apply bind_ok in E as (u & _ & E). destruct (latest h) as [r|] eqn:El.
  - apply bind_ok in E as (u' & _ & E). apply bind_ok in E as (entry & Ha & E).
    apply (IH _ _ _ E). destruct (decide (prefix (head_stream h) = pre)) as [<- |Hne].
    + destruct Hp as [Hp|(sh & Hin & Hsh & Hp)].
      * left. rewrite lookup_partial_alter_eq. eapply advance_ge; [exact Ha|by left].
      * apply elem_of_cons in Hin as [-> |Hin]; [|right; eauto].
        left. rewrite lookup_partial_alter_eq. eapply advance_ge; [exact Ha|]. rewrite El in Hp. by right.
    + rewrite lookup_partial_alter_ne by done. destruct Hp as [Hp|(sh & Hin & Hsh & Hp)]; [by left|].
      apply elem_of_cons in Hin as [-> |Hin]; [done|]. right; eauto.
  - apply (IH _ _ _ E). destruct Hp as [Hp|(sh & Hin & Hsh & Hp)]; [by left|].
    apply elem_of_cons in Hin as [-> |Hin]; [|right; eauto]. rewrite El in Hp. by destruct Hp as (? & [=] & _).
Qed.

(** A replica's answer to a seal request counts when it is complete. *)
Definition complete (h : SessionHead) : Prop := initialized h = true /\ sealed h = true.

Lemma collect_sessions_ge id replies p pre : forall n m n' m',
  collect_sessions id replies n m = Ok (n', m') ->
  (forall h, Ok h ∈ replies -> complete h ->
     exists sh, sh ∈ Snapshots.streams h /\ prefix (head_stream sh) = pre /\ at_pos p (latest sh)) ->
  (n < n')%nat \/ at_pos p (m !! pre) -> at_pos p (m' !! pre).
Proof.
  induction replies as [|[h|e] replies IH]; intros n m n' m' E Hr Hp; cbn -[collect_streams] in E.
  - injection E as <- <-. destruct Hp; [lia|done].
  - assert (Hr' : forall h, Ok h ∈ replies -> complete h ->
      exists sh, sh ∈ Snapshots.streams h /\ prefix (head_stream sh) = pre /\ at_pos p (latest sh)).
    { intros h' Hin. apply Hr. by constructor. }
    apply bind_ok in E as (u & _ & E).
    destruct (negb (initialized h) || negb (sealed h)) eqn:Ec; [by eapply IH|].
    apply bind_ok in E as (m1 & E1 & E). eapply IH; [exact E|done|]. right.
    eapply collect_streams_ge; [exact E1|]. right. apply Hr; [constructor|].
    apply orb_false_iff in Ec as [E2 E3]. apply negb_false_iff in E2, E3. done.
  - eapply IH; [exact E| |exact Hp]. intros h' Hin. apply Hr. by constructor.
Qed.

Lemma collect_sessions_none id replies : forall n m n' m',
  (forall h, Ok h ∈ replies -> ~ complete h) ->
  collect_sessions id replies n m = Ok (n', m') -> n' = n.
Proof.
  induction replies as [|[h|e] replies IH]; intros n m n' m' Hr E; cbn -[collect_streams] in E.
  - by injection E.
  - apply bind_ok in E as (u & _ & E). destruct (initialized h) eqn:Ei, (sealed h) eqn:Es;
      cbn -[collect_streams] in E; try (eapply IH, E; intros h' Hin; apply Hr; by constructor).
    exfalso. eapply (Hr h); [constructor|done].
  - eapply IH, E. intros h' Hin. apply Hr. by constructor.
Qed.

(** * Picking the newest stored snapshot *)
Lemma max_by_position_ge l : forall best,
  (forall x, x ∈ l \/ best = Some x ->
     exists y, max_by_position l best = Some y /\ pos_le (Some x.1) (Some y.1)).
Proof.
  induction l as [|z l IH]; intros best x Hx; cbn [max_by_position].
  { destruct Hx as [Hx| ->]; [by apply not_elem_of_nil in Hx|]. exists x. split; [done|apply pos_le_refl]. }
  set (best' := match best with
                | Some b => if pos_ltb (Some z.1) (Some b.1) then Some b else Some z
                | None => Some z end).
  destruct Hx as [Hx| ->].
  - apply elem_of_cons in Hx as [-> |Hx]; [|apply IH; by left].
    destruct best as [b|]; [|apply IH; by right].
    unfold best'. destruct (pos_ltb (Some z.1) (Some b.1)) eqn:E; [|apply IH; by right].
    destruct (IH (Some b) b) as (y & Hy & Hle); [by right|]. exists y. split; [done|].
    eapply pos_le_trans; [|exact Hle]. by apply pos_ltb_le.
  - unfold best'. destruct (pos_ltb (Some z.1) (Some x.1)) eqn:E; [apply IH; by right|].
    destruct (IH (Some z) z) as (y & Hy & Hle); [by right|]. exists y. split; [done|].
    eapply pos_le_trans; [|exact Hle]. exact E.
Qed.

Lemma newest_of_epoch_ge e keys key v :
  key ∈ keys -> snapshot_position key = Some (e, v) ->
  exists q k, newest_of_epoch e keys = Some (q, k) /\ pos_le (Some (e, v)) (snapshot_position k).
Proof.
  intros Hin Hp. unfold newest_of_epoch.
  match goal with |- context [max_by_position ?l None] =>
    destruct (max_by_position_ge l None ((e, v), key)) as ([q k] & Hq & Hle) end.
  { left. apply list_elem_of_omap. exists key. split; [exact Hin|]. rewrite Hp. cbn.
    by rewrite Z.eqb_refl. }
  exists q, k. split; [exact Hq|]. apply newest_of_epoch_in in Hq as (_ & -> & _). exact Hle.
Qed.

(** * One recovery, undisturbed *)
Section sequential.
Context (possible : World -> forall X, Eff X -> X -> Prop) (node : nat).

Fixpoint seq {A} (p : prog A) (Q : Result A -> World -> Prop) (w : World) : Prop :=
  match p with
  | Ret r => Q r w
  | Vis e k => forall x w', step possible node w e x w' -> seq (k x) Q w'
  | Spin => True
  end.

(** The history of the bucket goes back to what it holds. *)
Definition recorded (w : World) : Prop :=
  forall key o, bucket w !! key = Some o -> been key (bytes_of o) w.
(** Objects are never removed, and what was stored once is part of the history. *)
Record grows (w w' : World) : Prop := {
  grows_keys : forall key, is_Some (bucket w !! key) -> is_Some (bucket w' !! key);
  grows_been : forall key bytes, been key bytes w -> been key bytes w';
  grows_recorded : recorded w -> recorded w' }.
#[export] Instance grows_refl : Reflexive grows.
Proof. intros w. by split. Qed.
#[export] Instance grows_trans : Transitive grows.
Proof. intros a b c [K1 B1 R1] [K2 B2 R2]. split; auto. Qed.
Lemma grows_same w w' : bucket w' = bucket w -> past w' = past w -> grows w w'.
Proof. intros Eb Ep. split; unfold recorded, been, history_of; rewrite ?Eb, ?Ep; done. Qed.
Lemma grows_write key g bytes w : grows w (write_object key g bytes w).
Proof.
  assert (forall k b, been k b w -> been k b (write_object key g bytes w)) as Hb.
  { intros k b. unfold been, history_of. cbn. destruct (decide (key = k)) as [-> |Hne].
    - rewrite lookup_insert_eq. cbn. intros. by right.
    - by rewrite lookup_insert_ne. }
  split; [|exact Hb|].
  - intros k Hk. cbn. destruct (decide (key = k)) as [-> |Hne]; [by rewrite lookup_insert_eq|by rewrite lookup_insert_ne].
  - intros Hr k o. cbn. destruct (decide (key = k)) as [-> |Hne].
    + rewrite lookup_insert_eq. intros [= <-]. unfold been, history_of. cbn. rewrite lookup_insert_eq. cbn. by left.
    + rewrite lookup_insert_ne by done. intros Ho. by apply Hb, Hr.
Qed.

Lemma step_grows {X} (e : Eff X) x w w' : step possible node w e x w' -> grows w w'.
Proof.
  intros Hs. destruct e; cbn in Hs;
    first [rewrite Hs; by apply grows_same | destruct Hs as [-> _]; reflexivity | idtac].
  destruct Hs as [[-> _]|(g & _ & _ & ->)]; [reflexivity|apply grows_write].
Qed.

Lemma seq_mono {A} (p : prog A) (Q Q' : Result A -> World -> Prop) w :
  seq p Q w -> (forall r w', grows w w' -> Q r w' -> Q' r w') -> seq p Q' w.
Proof.
  revert w. induction p as [r|X e k IH|]; intros w Hp HQ; cbn in *; [apply HQ; [reflexivity|done]| |done].
  intros x w' Hs. apply (IH x w' (Hp x w' Hs)). intros r w'' Hg. apply HQ.
  etrans; [by eapply step_grows|done].
Qed.

Lemma seq_any {A} (p : prog A) w : seq p (fun _ w' => grows w w') w.
Proof.
  revert w. induction p as [r|X e k IH|]; intros w; cbn; [reflexivity| |done].
  intros x w' Hs. eapply seq_mono; [apply IH|]. intros r w'' _ Hg.
  etrans; [by eapply step_grows|done].
Qed.

(** Postconditions about successful results *)
Definition ok_post {A} (P : A -> World -> Prop) (r : Result A) (w : World) : Prop :=
  match r with Ok a => P a w | Err _ => True end.

Lemma seq_bind {A B} (p : prog A) (f : A -> prog B) P w :
  seq p (ok_post (fun a w' => seq (f a) (ok_post P) w')) w -> seq (p ≫= f) (ok_post P) w.
Proof.
  revert w. induction p as [[a|e]|X e k IH|]; intros w Hp; cbn in *; try done.
  intros x w' Hs. apply IH. by apply Hp.
Qed.

(** A step whose result does not matter *)
Lemma seq_then {A B} (p : prog A) (f : A -> prog B) P w :
  (forall a w', grows w w' -> seq (f a) (ok_post P) w') -> seq (p ≫= f) (ok_post P) w.
Proof.
  intros Hf. apply seq_bind. eapply seq_mono; [apply seq_any|]. intros [a|e] w' _ Hg; cbn; auto.
Qed.

Lemma seq_lift {A} (r : Result A) (P : A -> World -> Prop) w :
  (forall a, r = Ok a -> P a w) -> seq (lift_r r) (ok_post P) w.
Proof. destruct r; cbn; auto. Qed.
Lemma seq_require b msg (P : () -> World -> Prop) w :
  (b = true -> P () w) -> seq (require b msg) (ok_post P) w.
Proof. unfold require, ensure. destruct b; cbn; auto. Qed.
Lemma seq_ret {A} (a : A) (P : A -> World -> Prop) w : P a w -> seq (mret a) (ok_post P) w.
Proof. done. Qed.
Lemma seq_get key (P : option BucketObject -> World -> Prop) w :
  P (bucket w !! key) w -> seq (call_ok (BGet key)) (ok_post P) w.
Proof. intros HP x w' [-> [-> |[e ->]]]; done. Qed.
Lemma seq_list pre (P : list string -> World -> Prop) w :
  (forall l, lists pre w l -> P l w) ->
  seq (call_ok (BList pre)) (ok_post P) w.
Proof. intros HP x w' [-> [(l & -> & Hl)|[e ->]]]; cbn; auto. Qed.

Lemma seq_replace key expected bytes (P : bool -> World -> Prop) w :
  (forall w', (forall k, k <> key -> bucket w' !! k = bucket w !! k) -> grows w w' ->
     bucket w' !! key = bucket w !! key \/ (exists g, bucket w' !! key = Some {| generation := g; bytes_of := bytes |}) ->
     forall b, (b = true -> exists g, bucket w' !! key = Some {| generation := g; bytes_of := bytes |}) -> P b w') ->
  seq (replace key expected bytes) (ok_post P) w.
Proof.
  intros HP. unfold replace. apply seq_bind. intros x w1 Hs. pose proof (step_grows _ _ _ _ Hs) as Hg.
  cbn in Hs. cbn [seq ok_post].
  assert (Hw : (forall k, k <> key -> bucket w1 !! k = bucket w !! k) /\
    (bucket w1 !! key = bucket w !! key /\ x <> Ok true \/
     exists g, bucket w1 !! key = Some {| generation := g; bytes_of := bytes |})).
  { destruct Hs as [[-> Hx]|(g & _ & _ & ->)]; [split; [done|by left]|]. cbn. split.
    - intros k Hk. by rewrite lookup_insert_ne.
    - right. exists g. by rewrite lookup_insert_eq. }
  destruct Hw as [Hother Hkey].
  assert (Hback : forall r, r <> Ok true ->
    seq (current ← call_ok (BGet key);
      match current with
      | Some o => if String.eqb (bytes_of o) bytes then mret true else lift_r r
      | None => lift_r r
      end) (ok_post P) w1).
  { intros r Hne. apply seq_bind, seq_get.
    assert (Hcase : bucket w1 !! key = bucket w !! key \/
      exists g, bucket w1 !! key = Some {| generation := g; bytes_of := bytes |})
      by (destruct Hkey as [[? _]|?]; eauto).
    destruct (bucket w1 !! key) as [[g b]|] eqn:Eo.
    - cbn [bytes_of]. destruct (String.eqb b bytes) eqn:Eb.
      + apply seq_ret. apply HP; [done|done|by rewrite Eo|]. intros _.
        apply String.eqb_eq in Eb. subst b. rewrite Eo. by exists g.
      + apply seq_lift. intros [] ->; [done|]. apply HP; [done|done|by rewrite Eo|done].
    - apply seq_lift. intros [] ->; [done|]. apply HP; [done|done|by rewrite Eo|done]. }
  destruct x as [[]|e]; [|by apply Hback..].
  apply seq_ret, HP; [done|done|destruct Hkey as [[? _]|?]; eauto|]. intros _. destruct Hkey as [[_ ?]|?]; done.
Qed.

Section recovery.
Context `{Base64Url, Sha256, Hmac, UrlParser, Json ReplicaGrant, Json StateSnapshot,
          Json Ownership, Json Session, Json StateRecord, !Base64UrlLaws}.
Context {session_json : JsonLaws Session}.

Lemma seq_load obj key o rec (P : option (Z * Ownership) -> World -> Prop) w :
  ownership_key obj = Ok key -> bucket w !! key = Some o -> from_slice (bytes_of o) = Ok rec ->
  P (Some (generation o, rec)) w -> seq (load obj) (ok_post P) w.
Proof.
  intros Hk Ho Hd HP. unfold load. apply seq_bind, seq_lift. intros k Hk'.
  assert (k = key) as -> by congruence. apply seq_bind, seq_get. rewrite Ho.
  apply seq_bind, seq_lift. intros r Hr. assert (r = rec) as -> by congruence. done.
Qed.

(** The session record at a key: not yet sealed, with its identity *)
Definition fences (key id reg : string) (replicas : list ReplicaTarget) (w : World) : Prop :=
  exists o s, bucket w !! key = Some o /\ from_slice (bytes_of o) = Ok s /\
    ses_state s <> Sealed /\ ses_id s = id /\ ses_region s = reg /\ ses_replicas s = replicas.

Lemma seq_start_recovery fuel scope replicas (P : option Session -> World -> Prop) : forall w,
  fences (session_key (scope_host scope) (scope_session scope)) (identity scope)
    (scope_region scope) replicas w ->
  (forall s w', grows w w' -> ses_id s = identity scope -> ses_replicas s = replicas -> P (Some s) w') ->
  seq (start_recovery fuel scope) (ok_post P) w.
Proof.
  induction fuel as [|fuel IH]; intros w (o & s & Ho & Hd & Hst & Hid & Hreg & Hrep) HP;
    cbn [start_recovery]; [done|].
  apply seq_bind, seq_get. rewrite Ho. apply seq_bind, seq_lift. intros s' Hs'.
  assert (s' = s) as -> by congruence. apply seq_bind, seq_require. intros _.
  destruct (ses_state s) eqn:Es; [|apply seq_ret, HP; [reflexivity|done|done]|done].
  apply seq_bind. unfold save_session_record. apply seq_replace.
  intros w' _ Hg Hcase saved Hsaved. destruct saved; [by apply seq_ret, HP|].
  apply IH; [|intros s'' w'' Hg'; apply HP; by etrans].
  destruct Hcase as [Heq|[g Heq]].
  - exists o, s. rewrite Heq, Es. done.
  - exists {| generation := g; bytes_of := to_vec (set_ses_state Recovering s) |}, (set_ses_state Recovering s).
    split; [exact Heq|]. split; [apply json_roundtrip|]. done.
Qed.

(** What a snapshot of a stream is called *)
Definition named (pre : string) (r : SnapshotRef) : Prop :=
  object r = pre +:+ show_u64 (ref_state_version r) +:+ ".json" /\ u64_ok (ref_state_version r).
Definition all_named (m : gmap string SnapshotRef) : Prop :=
  forall pre r, m !! pre = Some r -> named pre r.
(** Versions in a reply fit their type. *)
Definition typed (h : SessionHead) : Prop :=
  forall sh r, sh ∈ Snapshots.streams h -> latest sh = Some r -> u64_ok (ref_state_version r).

Lemma advance_from c n r : advance c n = Ok (Some r) -> c = Some r \/ n = Some r.
Proof.
  unfold advance. destruct n as [n|], c as [c|]; intros E; try (injection E; intros; subst; auto; fail).
  apply bind_ok in E as (u & _ & E). destruct (pos_ltb _ _); injection E as ->; auto.
Qed.

Lemma collect_streams_named id heads : forall m m',
  (forall sh r, sh ∈ heads -> latest sh = Some r -> u64_ok (ref_state_version r)) ->
  all_named m -> collect_streams id heads m = Ok m' -> all_named m'.
Proof.
  induction heads as [|h heads IH]; intros m m' Ht Hm E; cbn -[advance] in E; [by injection E as <-|].
  assert (Ht' : forall sh r, sh ∈ heads -> latest sh = Some r -> u64_ok (ref_state_version r)).
  { intros sh r Hin. apply Ht. by constructor. }
  apply bind_ok in E as (u & _ & E). destruct (latest h) as [r|] eqn:El; [|by eapply IH].
  apply bind_ok in E as (u' & Hobj%ensure_ok & E). apply bind_ok in E as (entry & Ha & E).
  eapply IH; [done| |exact E]. intros pre r' Hr'.
  destruct (decide (prefix (head_stream h) = pre)) as [<- |Hne].
  - rewrite lookup_partial_alter_eq in Hr'. subst entry. apply advance_from in Ha as [Ha|[= <-]]; [by apply Hm|].
    apply String.eqb_eq in Hobj. split; [exact Hobj|]. eapply Ht; [constructor|done].
  - rewrite lookup_partial_alter_ne in Hr' by done. by apply Hm.
Qed.

Lemma collect_sessions_named id replies : forall n m n' m',
  (forall h, Ok h ∈ replies -> typed h) -> all_named m ->
  collect_sessions id replies n m = Ok (n', m') -> all_named m'.
Proof.
  induction replies as [|[h|e] replies IH]; intros n m n' m' Ht Hm E; cbn -[collect_streams] in E.
  - by injection E as <- <-.
  - assert (Ht' : forall h, Ok h ∈ replies -> typed h) by (intros h' Hin; apply Ht; by constructor).
    apply bind_ok in E as (u & _ & E). destruct (_ || _); [by eapply IH|].
    apply bind_ok in E as (m1 & E1 & E). eapply IH; [done| |exact E].
    eapply collect_streams_named; [|exact Hm|exact E1]. apply Ht. constructor.
  - eapply IH; [|exact Hm|exact E]. intros h' Hin. apply Ht. by constructor.
Qed.

(** A replica that holds version [v] or newer of a stream *)
Definition holds (s : ReplicaStream) (v : Z) (h : SessionHead) : Prop :=
  exists sh r, sh ∈ Snapshots.streams h /\ prefix (head_stream sh) = prefix s /\
    latest sh = Some r /\ v <= ref_state_version r.

Lemma collect_streams_checked id heads : forall m m' sh r,
  collect_streams id heads m = Ok m' -> sh ∈ heads -> latest sh = Some r ->
  object r = stream_object (head_stream sh) (ref_state_version r).
Proof.
  induction heads as [|h heads IH]; intros m m' sh r E Hin Hr; [by apply not_elem_of_nil in Hin|].
  cbn -[advance] in E. apply bind_ok in E as (u & _ & E). apply elem_of_cons in Hin as [-> |Hin].
  - rewrite Hr in E. apply bind_ok in E as (u' & Hobj%ensure_ok & _). by apply String.eqb_eq in Hobj.
  - destruct (latest h); [|by eapply IH]. apply bind_ok in E as (u' & _ & E).
    apply bind_ok in E as (entry & _ & E). by eapply IH.
Qed.

Lemma collect_sessions_checked id replies : forall n m n' m' h sh r,
  collect_sessions id replies n m = Ok (n', m') -> Ok h ∈ replies -> complete h ->
  sh ∈ Snapshots.streams h -> latest sh = Some r ->
  object r = stream_object (head_stream sh) (ref_state_version r).
Proof.
  induction replies as [|[h|e] replies IH]; intros n m n' m' h' sh r E Hin [Hi Hs] Hsh Hr;
    cbn -[collect_streams] in E; apply elem_of_cons in Hin as [Heq|Hin] || by apply not_elem_of_nil in Hin.
  - injection Heq as <-. apply bind_ok in E as (u & _ & E). rewrite Hi, Hs in E. cbn -[collect_streams] in E.
    apply bind_ok in E as (m1 & E1 & _). by eapply collect_streams_checked.
  - apply bind_ok in E as (u & _ & E). destruct (_ || _); [by eapply IH|].
    apply bind_ok in E as (m1 & _ & E). by eapply IH.
  - done.
  - by eapply IH.
Qed.

Section takeover.
Context (prev : Ownership) (s : ReplicaStream) (v : Z).
Hypothesis stream_of : Ownership_stream prev = Ok s.
Hypothesis epoch_ok : u64_ok (epoch prev).

Lemma named_position r : named (prefix s) r -> ref_pos r = Some (epoch prev, ref_state_version r).
Proof using stream_of epoch_ok.
  intros [Ho Hv]. unfold ref_pos. rewrite Ho.
  apply Ownership_stream_shape in stream_of as (_ & -> & _). unfold stream_dir.
  rewrite <-!sapp_assoc, (sapp_assoc ROOT), (sapp_assoc (ROOT +:+ _)). by apply snapshot_position_name.
Qed.

(** Sealing finds a snapshot at least as new as what complete replicas hold. *)
Lemma seq_seal_replicas ses (P : list SnapshotRef -> World -> Prop) w :
  ses_replicas ses <> [] ->
  (forall w' replies h, possible w' _ (PeerSeals (ses_replicas ses) (ses_id ses)) replies ->
     Ok h ∈ replies -> typed h /\ (complete h -> holds s v h)) ->
  (forall l r, r ∈ l -> named (prefix s) r -> v <= ref_state_version r -> P l w) ->
  seq (seal_replicas ses) (ok_post P) w.
Proof using stream_of epoch_ok.
  intros Hne Hrep HP. unfold seal_replicas. apply seq_bind. intros replies w1 [-> Hpos].
  pose proof (fun h Hin => Hrep _ _ h Hpos Hin) as Hh. apply seq_bind, seq_lift. intros [n m] Hc.
  assert (Hm : all_named m).
  { eapply collect_sessions_named; [|by intros ? ? ?%lookup_empty_Some|exact Hc]. intros h Hin. by apply Hh. }
  apply seq_bind, seq_require. intros Hn. assert (Hpos' : (0 < n)%nat).
  { destruct (ses_replicas ses); [done|]. by apply Nat.ltb_lt. }
  assert (Hat : at_pos (Some (epoch prev, v)) (m !! prefix s)).
  { eapply collect_sessions_ge; [exact Hc| |by left]. intros h Hin Hcomp.
    destruct (Hh h Hin) as [Ht Hhold]. destruct (Hhold Hcomp) as (sh & r & Hsh & Hpre & Hl & Hv).
    exists sh. split_and!; [done|done|]. exists r. split; [done|].
    rewrite named_position.
    - unfold pos_le. cbn. lia.
    - split; [|by eapply Ht]. rewrite <-Hpre. by eapply collect_sessions_checked. }
  destruct Hat as (r & Hr & Hle). intros l w1 [-> Hl]. cbn. apply (HP l r); [|by apply Hm|].
  - rewrite Hl, list_elem_of_fmap. exists (prefix s, r). split; [done|]. by apply elem_of_map_to_list.
  - rewrite named_position in Hle by (by apply Hm). unfold pos_le in Hle. cbn in Hle. lia.
Qed.

(** The bytes of a snapshot: they match its digest, and the bucket has held them under
    its name. *)
Definition stored_as (r : SnapshotRef) (bytes : string) (w : World) : Prop :=
  SnapshotRef_verify r bytes = Ok () /\ been (object r) bytes w.
Definition sound (l : option LoadedSnapshot) (w : World) : Prop :=
  forall snap, l = Some snap -> stored_as (reference snap) (loaded_bytes snap) w.
Lemma stored_as_grows r bytes w w' : stored_as r bytes w -> grows w w' -> stored_as r bytes w'.
Proof. intros [Hv Hb] Hg. split; [done|by eapply grows_been]. Qed.
Lemma sound_grows l w w' : sound l w -> grows w w' -> sound l w'.
Proof. intros Hs Hg snap E. eapply stored_as_grows; [by apply Hs|done]. Qed.

(** Restoring puts every snapshot into the bucket. *)
Lemma seq_recover_snapshot replicas r (P : string -> World -> Prop) w : recorded w ->
  (forall bytes w', grows w w' -> is_Some (bucket w' !! object r) -> stored_as r bytes w' -> P bytes w') ->
  seq (recover_snapshot replicas r) (ok_post P) w.
Proof.
  intros Hrec HP. unfold recover_snapshot. apply seq_bind, seq_get.
  destruct (bucket w !! object r) as [o|] eqn:Eo.
  { apply seq_bind, seq_lift. intros [] Hv. apply seq_ret, HP; [reflexivity|by eexists|].
    split; [done|by apply Hrec]. }
  clear Eo. induction replicas as [|peer replicas IH]; cbn [recover_from]; [done|].
  apply seq_bind. intros reply w' [-> _]. cbn [seq ok_post]. destruct reply as [bytes|e]; [|exact IH].
  apply seq_bind, seq_lift. intros [] Hv. apply seq_bind. unfold persist_object.
  apply seq_bind, seq_replace. intros w' _ Hg _ b Hb. apply seq_require. intros ->.
  destruct (Hb eq_refl) as [g Eo]. apply seq_ret, HP; [done|by eexists|].
  split; [done|]. by apply (grows_recorded _ _ Hg Hrec _ _ Eo).
Qed.

Lemma seq_restore_loop pre replicas r (P : option LoadedSnapshot -> World -> Prop) snapshots : forall loaded w,
  recorded w -> sound loaded w -> r ∈ snapshots \/ is_Some (bucket w !! object r) ->
  (forall l w', grows w w' -> sound l w' -> is_Some (bucket w' !! object r) -> P l w') ->
  seq (restore_loop pre replicas snapshots loaded) (ok_post P) w.
Proof.
  induction snapshots as [|x snapshots IH]; intros loaded w Hrec Hs Hr HP; cbn [restore_loop].
  { apply seq_ret, HP; [reflexivity|done|]. destruct Hr as [Hr|Hr]; [by apply not_elem_of_nil in Hr|done]. }
  apply seq_bind, seq_recover_snapshot; [done|]. intros bytes w' Hg Hx Hb.
  apply IH; [by eapply grows_recorded| | |].
  - destruct (_ && _); [|by eapply sound_grows]. by intros snap [= <-].
  - destruct Hr as [Hr|Hr]; [|right; by apply (grows_keys _ _ Hg)]. apply elem_of_cons in Hr as [-> |Hr]; auto.
  - intros l w'' Hg'. apply HP. by etrans.
Qed.

(** What a successful recovery of the session leaves in the bucket *)
Definition restored (w : World) : Prop :=
  exists r, named (prefix s) r /\ v <= ref_state_version r /\ is_Some (bucket w !! object r).

Lemma restored_grows w w' : restored w -> grows w w' -> restored w'.
Proof. intros (r & ? & ? & Hb) Hg. exists r. split_and!; [done|done|by eapply grows_keys]. Qed.

(** Replicas of the previous session answer a seal with what they hold. *)
Definition replicas_hold (replicas : list ReplicaTarget) : Prop :=
  forall w replies h,
    possible w _ (PeerSeals replicas (identity (Ownership_scope prev))) replies ->
    Ok h ∈ replies -> typed h /\ (complete h -> holds s v h).

Lemma seq_recover_session fuel replicas (P : option LoadedSnapshot -> World -> Prop) w :
  let scope := Ownership_scope prev in
  replicas <> [] -> replicas_hold replicas ->
  fences (session_key (scope_host scope) (scope_session scope)) (identity scope) (scope_region scope)
    replicas w ->
  recorded w -> (forall l w', grows w w' -> restored w' -> sound l w' -> P l w') ->
  seq (recover_session fuel prev) (ok_post P) w.
Proof using stream_of epoch_ok session_json.
  intros scope Hne Hold Hf Hrec HP. unfold recover_session.
  apply seq_bind. eapply seq_start_recovery; [exact Hf|]. intros ses w1 Hg1 Hid Hrep.
  apply seq_bind, seq_seal_replicas; [by rewrite Hrep|rewrite Hrep, Hid; exact Hold|].
  intros snaps r Hr Hnamed Hv. apply seq_bind. unfold restore_session. apply seq_bind, seq_lift.
  intros pre _. apply (seq_restore_loop pre _ r); [by eapply grows_recorded|done|by left|].
  intros l w2 Hg2 Hsound Hstored.
  apply seq_then. intros u w3 Hg3. apply seq_ret, HP; [by repeat (etrans; [eassumption|])| |by eapply sound_grows].
  exists r. split_and!; [done|done|by eapply grows_keys].
Qed.

(** The loaded part of [latest]: the newest listed snapshot of the epoch *)
Lemma seq_latest_snapshot known (P : option LoadedSnapshot -> World -> Prop) w :
  recorded w -> restored w -> sound known w ->
  (forall l w', grows w w' -> at_pos (Some (epoch prev, v)) (reference <$> l) -> sound l w' -> P l w') ->
  seq (latest_snapshot prev known) (ok_post P) w.
Proof using stream_of epoch_ok.
  intros Hrec (r & Hnamed & Hv & Hstored) Hknown HP. unfold latest_snapshot. apply seq_bind, seq_lift.
  intros s' Hs'. assert (s' = s) as -> by congruence. apply seq_bind, seq_list. intros keys (_ & Hkeys & _).
  destruct (newest_of_epoch_ge (epoch prev) keys (object r) (ref_state_version r)) as (q & k & Hq & Hk).
  { apply Hkeys; [done|]. destruct Hnamed as [-> _]. apply starts_with_app. }
  { by apply (named_position r). }
  assert (Hk' : pos_le (Some (epoch prev, v)) (snapshot_position k)).
  { eapply pos_le_trans; [|exact Hk]. unfold pos_le. cbn. lia. }
  apply seq_bind. rewrite Hq.
  assert (Hloaded : seq (if bool_decide ((object ∘ reference) <$> known = Some k) then mret known
    else stored ← call_ok (BGet k);
         o ← lift_r (with_context stored "listed snapshot disappeared");
         l ← lift_r (decode_snapshot k (bytes_of o)); mret (Some l))
    (ok_post (fun l w' => w' = w /\ sound l w /\ at_pos (Some (epoch prev, v)) (reference <$> l))) w).
  { case_bool_decide as Ek.
    - apply seq_ret. split_and!; [done|done|]. destruct known as [l|]; [|done]. injection Ek as Ek.
      exists (reference l). split; [done|]. unfold ref_pos. cbn in Ek. by rewrite Ek.
    - apply seq_bind, seq_get. apply seq_bind, seq_lift. intros o Ho.
      destruct (bucket w !! k) as [o'|] eqn:Eo; [|done]. injection Ho as ->. apply seq_bind, seq_lift.
      intros l Hl. apply seq_ret. split; [done|]. unfold decode_snapshot in Hl. res_inv.
      split; [|eexists; split; [done|exact Hk']]. intros snap [= <-].
      split; [unfold SnapshotRef_verify; cbn; by rewrite String.eqb_refl|by apply Hrec]. }
  eapply seq_mono; [exact Hloaded|]. intros [loaded|e] w' _; [|done]. intros (-> & Hsound & Hl). cbn [ok_post].
  apply seq_bind, seq_lift. intros c Hc. eapply advance_ge in Hc; [|right; exact Hl].
  apply seq_then. intros replicas w1 Hg1. apply seq_then. intros replies w2 Hg2.
  apply seq_bind, seq_lift. intros [n c'] Hn. eapply count_heads_ge in Hn; [|exact Hc].
  apply seq_bind, seq_require. intros _. destruct Hn as (best & -> & Hbest).
  clear Hloaded. case_bool_decide as Eb.
  - apply seq_ret, HP; [by etrans|rewrite Eb; by exists best|by eapply sound_grows; [|etrans]].
  - assert (grows w w2) by (by etrans). apply seq_bind, seq_recover_snapshot; [by eapply grows_recorded|].
    intros bytes w3 Hg3 _ Hb. apply seq_ret, HP; [by etrans|by exists best|by intros snap [= <-]].
Qed.
End takeover.

(** What a registration returns is this snapshot: its name, version and request in the
    placement, its bytes as the state. *)
Definition loaded_from (snap : LoadedSnapshot) (l : LoadedActor) : Prop :=
  state_object (placement l) = Some (object (reference snap)) /\
  pl_state_version (placement l) = ref_state_version (reference snap) /\
  last_request_id (placement l) = Some (ref_request_id (reference snap)) /\
  loaded_state l = Some (loaded_bytes snap).

(** C3: an undisturbed takeover does not lose acknowledged state.  Suppose a host
    registers an activation of an existing actor ([new_actor] is false) whose owner
    record is [prev], whose session record is not sealed and names at least one
    replica, suppose no other host writes to the bucket during the registration, and
    suppose every replica of that session that answers a seal completely holds version
    [v] or newer of the previous stream.  Then, if the registration succeeds, what it
    returns is one snapshot: it is named in the placement with its version and
    request, its bytes are the state that is loaded, they match its digest and are
    what the bucket has held under its name, and it is at least as new as version [v]
    of that epoch; whichever replicas answer and whichever bucket requests fail or are
    applied although reported as failed. *)
Theorem takeover_recovers_acknowledged fuel actor r reg prev s v key o replicas w :
  ownership_key (storage_key actor) = Ok key -> bucket w !! key = Some o ->
  from_slice (bytes_of o) = Ok prev ->
  Ownership_stream prev = Ok s -> u64_ok (epoch prev) ->
  replicas <> [] -> replicas_hold prev s v replicas ->
  (let scope := Ownership_scope prev in
   fences (session_key (scope_host scope) (scope_session scope)) (identity scope)
     (scope_region scope) replicas w) ->
  recorded w ->
  seq (register_activation fuel actor r reg false)
    (ok_post (fun l w' => exists snap, loaded_from snap l /\
       stored_as (reference snap) (loaded_bytes snap) w' /\
       pos_le (Some (epoch prev, v)) (snapshot_position (object (reference snap))))) w.
Proof.
  intros Hk Ho Hd Hs He Hne Hold Hf Hrec. unfold register_activation.
  do 3 (apply seq_bind, seq_lift; intros ? _).
  apply seq_bind. eapply seq_load; [exact Hk|exact Ho|exact Hd|].
  apply seq_bind. do 2 (apply seq_bind, seq_require; intros _).
  apply seq_bind. intros t w1 [-> _]. destruct t as [t|e]; [|done]. cbn [seq ok_post].
  apply seq_bind, seq_require. intros _.
  apply seq_bind. eapply seq_recover_session; [exact Hs|done|exact Hne|exact Hold|exact Hf|done|].
  intros recovered w2 Hg2 Hres Hsound.
  eapply seq_latest_snapshot; [exact Hs|done|by eapply grows_recorded|exact Hres|exact Hsound|].
  intros [snap|] w3 Hg3 (best & Hbest & Hle) Hl; [|done]. injection Hbest as <-.
  apply seq_bind, seq_lift. intros e _. apply seq_then. intros lease w4 Hg4.
  apply seq_then. intros record w5 Hg5. unfold remember. apply seq_then. intros u w6 Hg6.
  apply seq_ret. exists snap. split; [done|]. split; [|done].
  eapply stored_as_grows; [by apply Hl|]. by repeat (etrans; [eassumption|]).
Qed.

(** C30: without a complete replica answer, an undisturbed takeover is refused.  Suppose
    a host registers an activation of an existing actor ([new_actor] is false), no other
    host writes to the bucket during the registration, and the session of the previous
    owner is not sealed and names at least one replica.  If none of its replicas answers
    the seal request completely, the registration fails.  A session without replicas is
    another case: there the bucket is the only copy and the registration goes on. *)
Theorem takeover_refuses_without_witness fuel actor r reg prev key o replicas w :
  ownership_key (storage_key actor) = Ok key -> bucket w !! key = Some o ->
  from_slice (bytes_of o) = Ok prev -> replicas <> [] ->
  (forall w' replies h,
     possible w' _ (PeerSeals replicas (identity (Ownership_scope prev))) replies ->
     Ok h ∈ replies -> ~ complete h) ->
  (let scope := Ownership_scope prev in
   fences (session_key (scope_host scope) (scope_session scope)) (identity scope)
     (scope_region scope) replicas w) ->
  seq (register_activation fuel actor r reg false) (fun res _ => exists e, res = Err e) w.
Proof.
  intros Hk Ho Hd Hne Hnone Hf.
  assert (Hfalse : seq (register_activation fuel actor r reg false) (ok_post (fun _ _ => False)) w).
  { unfold register_activation. do 3 (apply seq_bind, seq_lift; intros ? _).
    apply seq_bind. eapply seq_load; [exact Hk|exact Ho|exact Hd|].
    apply seq_bind. do 2 (apply seq_bind, seq_require; intros _).
    apply seq_bind. intros t w1 [-> _]. destruct t as [t|e]; [|done]. cbn [seq ok_post].
    apply seq_bind, seq_require. intros _. apply seq_bind. unfold recover_session.
    apply seq_bind. eapply seq_start_recovery; [exact Hf|]. intros ses w1 _ Hid Hrep.
    apply seq_bind. unfold seal_replicas. apply seq_bind. intros replies w2 [-> Hpos].
    rewrite Hrep, Hid in *. apply seq_bind, seq_lift. intros [n m] Hc.
    apply seq_bind, seq_require. intros Hn. destruct replicas; [done|]. apply Nat.ltb_lt in Hn.
    apply collect_sessions_none in Hc; [lia|]. intros h. by apply (Hnone w1). }
  eapply seq_mono; [exact Hfalse|]. intros [l|e] w' _; [done|eauto].
Qed.
End recovery.
End sequential.

(** * Example: a replica that outlived its actor's host

    The previous owner (epoch 1) had one replica, which acknowledged version 1;
    nothing had reached the bucket. *)
Import Hex.
Definition old_owner : Ownership := sample_ownership 1.
Definition old_target : ReplicaTarget := {| host_id := "peer"; url := "http://peer"; target_region := "eu" |}.
Definition old_session : Session :=
  {| ses_id := identity (Ownership_scope old_owner); ses_region := "eu"; ses_replicas := [old_target];
     ses_state := Open |}.
Definition old_stream : ReplicaStream :=
  {| rs_session := ses_id old_session; prefix := stream_dir sample_actor 1 +:+ "/";
     rs_owner_epoch := 1; base_version := 0 |}.
Definition held_ref : SnapshotRef :=
  {| object := stream_object old_stream 1; ref_state_version := 1; ref_request_id := "r";
     digest := checksum sample_snapshot |}.
Definition held_stream : StreamHead := {| head_stream := old_stream; latest := Some held_ref |}.
Definition held_session : SessionHead :=
  {| head_session := ses_id old_session; initialized := true; sealed := true;
     Snapshots.streams := [held_stream] |}.

Definition peer_answers (w : World) (X : Type) (e : Eff X) : X -> Prop :=
  match e in Eff X return X -> Prop with
  | PeerSeals _ _ => fun x => x = [Ok held_session]
  | PeerHeads _ _ => fun x => x = [(old_target, Ok held_stream)]
  | PeerRead _ _ => fun x => x = Ok sample_snapshot
  | _ => fun _ => True
  end.
Definition answer_held (t : Z) (node : nat) (w : World) {X} (e : Eff X) : X * World :=
  match e in Eff X return X * World with
  | PeerSeals _ _ => ([Ok held_session], w)
  | PeerHeads _ _ => ([(old_target, Ok held_stream)], w)
  | PeerRead _ _ => (Ok sample_snapshot, w)
  | e' => answer t node w e'
  end.
Fixpoint execute_held {A} (t : Z) (fuel node : nat) (w : World) (p : prog A) : World * prog A :=
  match fuel, p with
  | S fuel', Vis e k => let '(x, w') := answer_held t node w e in execute_held t fuel' node w' (k x)
  | _, _ => (w, p)
  end.

Definition object_of {A} `{Json A} (a : A) : BucketObject := {| generation := 1; bytes_of := to_vec a |}.
Definition old_world : World :=
  {| bucket := <[sample_owner_key := object_of old_owner]>
       {[session_key "h" "s" := object_of old_session]};
     past := <[sample_owner_key := [to_vec old_owner]]> {[session_key "h" "s" := [to_vec old_session]]};
     owned_map := ∅; sessions_map := ∅ |}.
Lemma old_recorded : recorded old_world.
Proof.
  intros key o. unfold been, history_of, old_world. cbn [bucket past]. intros [[<- <-]|[Hne [<- <-]%lookup_singleton_Some]]%lookup_insert_Some.
  - rewrite lookup_insert_eq. by left.
  - rewrite lookup_insert_ne by done. rewrite lookup_singleton_eq. by left.
Qed.
Definition takeover_request : HostLeaseRequest := sample_lease_request "h2" "s2".

Lemma old_fences : let scope := Ownership_scope old_owner in
  fences (session_key (scope_host scope) (scope_session scope)) (identity scope) (scope_region scope)
    [old_target] old_world.
Proof.
  exists (object_of old_session), old_session. split; [vm_compute; reflexivity|].
  split; [apply json_roundtrip|]. split; [discriminate|]. done.
Qed.

Lemma takeover_recovers_acknowledged_witness :
  seq peer_answers 1 (register_activation 3 sample_actor takeover_request "eu" false)
    (ok_post (fun l w' => exists snap, loaded_from snap l /\
       stored_as (reference snap) (loaded_bytes snap) w' /\
       pos_le (Some (1, 1)) (snapshot_position (object (reference snap))))) old_world /\
  (exists w' l, execute_held 5000 60 1 old_world
     (register_activation 3 sample_actor takeover_request "eu" false) = (w', Ret (Ok l)) /\
     state_object (placement l) = Some (object held_ref) /\ loaded_state l = Some sample_snapshot).
Proof.
  split.
  - apply (takeover_recovers_acknowledged peer_answers 1 3 sample_actor takeover_request "eu"
      old_owner old_stream 1 sample_owner_key (object_of old_owner) [old_target]);
      [vm_compute; reflexivity|vm_compute; reflexivity|apply json_roundtrip|vm_compute; reflexivity
      |vm_compute; split; discriminate|discriminate| |exact old_fences|exact old_recorded].
    intros w replies h -> [= ->]%list_elem_of_singleton. split.
    + intros sh r ->%list_elem_of_singleton [= <-]. vm_compute. split; discriminate.
    + intros _. exists held_stream, held_ref. split_and!; [constructor|done|done|vm_compute; discriminate].
  - eexists _, _. split_and!; vm_compute; reflexivity.
Defined.

(** No replica answers. *)
Lemma takeover_refuses_without_witness_witness :
  seq (fun w X (e : Eff X) => match e in Eff X return X -> Prop with
                              | PeerSeals _ _ => fun x => x = [Err "unreachable"]
                              | _ => fun _ => True end) 1
    (register_activation 3 sample_actor takeover_request "eu" false)
    (fun res _ => exists e, res = Err e) old_world.
Proof.
  apply (takeover_refuses_without_witness _ 1 3 sample_actor takeover_request "eu"
    old_owner sample_owner_key (object_of old_owner) [old_target]);
    [vm_compute; reflexivity|vm_compute; reflexivity|apply json_roundtrip|discriminate| |exact old_fences].
  intros w' replies h -> ?%list_elem_of_singleton. discriminate.
Defined.
