(* ===== verification/SocketEffects.v ===== *)
(** What an actor may ask of its sockets: the validation rules of
    [actor/socket.rs].  Base64 (the standard alphabet, with padding) is another
    crate: decoding is the class [Base64Std], with the law that padded base64
    uses four characters for every started group of three bytes. *)

From S2P Require Import Prelude.
From S2P Require Import Actors.
From S2P Require Import StoragePaths.
From S2P Require Import Snapshots.
Local Open Scope string_scope.
Local Open Scope Z_scope.

Class Base64Std := { std_decode : string -> Result string }.
Class Base64StdLaws `{Base64Std} : Prop :=
  std_decode_length : forall s d, std_decode s = Ok d -> len s = (len d + 2) / 3 * 4.

Definition MAX_SOCKET_METADATA_BYTES : Z := 64 * 1024.
Definition MAX_SOCKET_MESSAGE_BYTES : Z := 16 * 1024 * 1024.
Definition MAX_SOCKET_CONNECTION_ID_BYTES : Z := 128.
Definition MAX_SOCKET_TAGS : nat := 128.
Definition MAX_SOCKET_TAG_CHARACTERS : Z := 256.
Definition MAX_SOCKET_TAG_BYTES : Z := 8 * 1024.
Definition MAX_SOCKET_CLOSE_REASON_BYTES : Z := 123.

(** [str::chars().count()]: every byte of UTF-8 text that is not a continuation
    byte starts a character. *)
Fixpoint chars_count (s : string) : Z :=
  match s with
  | "" => 0
  | String c rest => (if between 128 191 c then 0 else 1) + chars_count rest
  end.

(** [Value::get] with a field name, and [Value::is_object] *)
Fixpoint field (fields : list (string * Value)) (name : string) : option Value :=
  match fields with
  | [] => None
  | (n, v) :: rest => if String.eqb n name then Some v else field rest name
  end.
Definition get_field (v : Value) (name : string) : option Value :=
  match v with Object fields => field fields name | _ => None end.
Definition is_object (v : Value) : bool := match v with Object _ => true | _ => false end.

Fixpoint for_each {A} (f : A -> Result unit) (l : list A) : Result unit :=
  match l with [] => Ok () | x :: rest => f x;; for_each f rest end.

Definition validate_connection_id (connection_id : string) : Result unit :=
  ensure (negb (is_empty connection_id)) "socket connection ID is empty";;
  ensure (len connection_id <=? MAX_SOCKET_CONNECTION_ID_BYTES) "socket connection ID is too long".

Fixpoint tag_bytes (tags : list string) (total : Z) : Result Z :=
  match tags with
  | [] => Ok total
  | tag :: rest =>
      ensure (negb (is_empty tag)) "socket tag is empty";;
      ensure (chars_count tag <=? MAX_SOCKET_TAG_CHARACTERS) "socket tag is too long";;
      tag_bytes rest (saturating_add total (len tag))
  end.
Definition validate_socket_tags (tags : list string) : Result unit :=
  ensure (length tags <=? MAX_SOCKET_TAGS)%nat "too many socket tags";;
  total ← tag_bytes tags 0;
  ensure (total <=? MAX_SOCKET_TAG_BYTES) "socket tags exceed their byte limit".

Definition validate_close (code : Z) (reason : string) : Result unit :=
  ensure ((code =? 1000) || ((3000 <=? code) && (code <=? 4999)))
    "socket close code must be 1000 or between 3000 and 4999";;
  ensure (len reason <=? MAX_SOCKET_CLOSE_REASON_BYTES) "socket close reason is too long".

(** [a.div_ceil(b)] for positive numbers *)
Definition div_ceil (a b : Z) : Z := (a + b - 1) / b.

Section validation.
Context `{Json Value, Json ActorSocketEffect, Base64Std}.

Definition validate_socket_metadata (metadata : Value) : Result unit :=
  ensure (len (to_vec metadata) <=? MAX_SOCKET_METADATA_BYTES) "socket metadata is too large".

Definition validate_public_state (state : Value) : Result unit :=
  ensure (is_object state) "public state must be a JSON object";;
  ensure (len (to_vec state) <=? MAX_SOCKET_MESSAGE_BYTES - 256) "public state exceeds message limit".

Definition validate_socket_message (m : ActorSocketMessage) : Result unit :=
  match m with
  | Text data => ensure (len data <=? MAX_SOCKET_MESSAGE_BYTES) "socket message is too large"
  | Binary data =>
      let max_encoded_bytes := div_ceil MAX_SOCKET_MESSAGE_BYTES 3 * 4 in
      ensure (len data <=? max_encoded_bytes) "socket message is too large";;
      decoded ← std_decode data;
      ensure (len decoded <=? MAX_SOCKET_MESSAGE_BYTES) "socket message is too large"
  end.

Definition validate_socket_effect (effect : ActorSocketEffect) : Result unit :=
  match effect with
  | StateSnapshotEffect connection_id state _ =>
      validate_connection_id connection_id;;
      validate_public_state state
  | StateUpdateEffect changes removed except_connection_ids _ =>
      validate_public_state changes;;
      ensure (forallb (fun f => negb (bool_decide (is_Some (get_field changes f)))) removed)
        "state field is both changed and removed";;
      ensure (len (to_vec effect) <=? MAX_SOCKET_MESSAGE_BYTES) "state update exceeds message limit";;
      for_each validate_connection_id except_connection_ids
  | SendEffect connection_id message =>
      validate_connection_id connection_id;;
      validate_socket_message message
  | BroadcastEffect message except_connection_ids tags _ =>
      ensure (length except_connection_ids <=? MAX_SOCKET_TAGS)%nat
        "socket broadcast exclusions exceed their limit";;
      for_each validate_connection_id except_connection_ids;;
      validate_socket_tags tags;;
      validate_socket_message message
  | CloseEffect connection_id code reason | RejectEffect connection_id code reason =>
      validate_connection_id connection_id;;
      validate_close code reason
  | SetMetadataEffect connection_id metadata =>
      validate_connection_id connection_id;;
      validate_socket_metadata metadata
  | SetTagsEffect connection_id tags =>
      validate_connection_id connection_id;;
      validate_socket_tags tags
  end.

Definition validate_socket_effects (effects : list ActorSocketEffect) : Result unit :=
  for_each validate_socket_effect effects.

(** A binary message is accepted exactly when it is base64 of at most
    [MAX_SOCKET_MESSAGE_BYTES] bytes: the length check on the encoded text,
    made before decoding it, rejects nothing that would be accepted. *)
Theorem binary_message_accepted `{!Base64StdLaws} data :
  validate_socket_message (Binary data) = Ok () <->
  exists d, std_decode data = Ok d /\ len d <= MAX_SOCKET_MESSAGE_BYTES.
Proof.
  unfold validate_socket_message. split.
  - intros (u & _ & E)%bind_ok. apply bind_ok in E as (d & Hd & E%ensure_ok). bools. eauto.
  - intros (d & Hd & Hl). pose proof (std_decode_length _ _ Hd) as Hs.
    assert (Hb : len data <= div_ceil MAX_SOCKET_MESSAGE_BYTES 3 * 4).
    { rewrite Hs. unfold div_ceil. replace (MAX_SOCKET_MESSAGE_BYTES + 3 - 1) with (MAX_SOCKET_MESSAGE_BYTES + 2)
        by lia. pose proof (Z.div_le_mono (len d + 2) (MAX_SOCKET_MESSAGE_BYTES + 2) 3). lia. }
    apply Z.leb_le in Hb, Hl. rewrite Hb, Hd. cbn [ensure mbind Result_bind]. by rewrite Hl.
Qed.

End validation.

Definition tag_ok (tag : string) : Prop := tag <> "" /\ chars_count tag <= MAX_SOCKET_TAG_CHARACTERS.
Definition sum_len (tags : list string) : Z := foldr (fun t n => len t + n) 0 tags.
Lemma sum_len_nonneg tags : 0 <= sum_len tags.
Proof. induction tags as [|t tags IH]; cbn; [lia|]. fold (sum_len tags). unfold len. lia. Qed.

Lemma tag_bytes_spec tags : forall total r, 0 <= total <= U64_MAX ->
  tag_bytes tags total = Ok r <-> Forall tag_ok tags /\ r = Z.min U64_MAX (total + sum_len tags).
Proof.
  induction tags as [|t tags IH]; intros total r Ht; cbn [tag_bytes].
  { cbn. rewrite Z.add_0_r, Z.min_r by lia. split; [intros [= ->]; done|intros [_ ->]; done]. }
  assert (Hl : 0 <= len t) by (unfold len; lia). pose proof (sum_len_nonneg tags) as Hs.
  assert (Hsum : Z.min U64_MAX (saturating_add total (len t) + sum_len tags)
                 = Z.min U64_MAX (total + sum_len (t :: tags))).
  { cbn. unfold saturating_add. fold (sum_len tags). lia. }
  rewrite <-Hsum, Forall_cons. split.
  - intros E. res_inv. bools. apply IH in E as [? ->]; [|unfold saturating_add, U64_MAX in *; lia].
    split_and!; [|done|done]. split; [by destruct t|done].
  - intros [[[Hne Hc] Hf] ->]. destruct t as [|c t]; [done|]. cbn [is_empty negb ensure mbind Result_bind].
    apply Z.leb_le in Hc. rewrite Hc. cbn [ensure mbind Result_bind].
    apply IH; [unfold saturating_add, U64_MAX in *; lia|done].
Qed.

(** The tags of a connection are accepted exactly when there are at most 128
    of them, each is non-empty and has at most 256 characters, and together they
    have at most 8192 bytes; saturating addition hides no excess. *)
Theorem tags_accepted tags :
  validate_socket_tags tags = Ok () <->
  (length tags <= MAX_SOCKET_TAGS)%nat /\ Forall tag_ok tags /\ sum_len tags <= MAX_SOCKET_TAG_BYTES.
Proof.
  unfold validate_socket_tags.
  assert (H0 : 0 <= 0 <= U64_MAX) by (unfold U64_MAX; lia). split.
  - intros (u & Hn%ensure_ok & E)%bind_ok. apply bind_ok in E as (total & Ht & E%ensure_ok).
    apply tag_bytes_spec in Ht as [Hf ->]; [|done]. apply Nat.leb_le in Hn. bools.
    unfold U64_MAX, MAX_SOCKET_TAG_BYTES in *. split_and!; [done|done|lia].
  - intros (Hn & Hf & Hs). apply Nat.leb_le in Hn. rewrite Hn. cbn [ensure mbind Result_bind].
    assert (Ht : tag_bytes tags 0 = Ok (Z.min U64_MAX (0 + sum_len tags))) by (by apply tag_bytes_spec).
    rewrite Ht. cbn [mbind Result_bind]. apply ensure_ok, Z.leb_le. lia.
Qed.

(** An encoder to try the rules on: four characters a group. *)
Definition toy_decode (s : string) : Result string :=
  if String.eqb s "QUJD" then Ok "ABC" else Err "invalid base64".
#[global] Instance toy_base64 : Base64Std := {| std_decode := toy_decode |}.
#[global] Instance toy_base64_laws : Base64StdLaws.
Proof.
  intros s d. cbn. unfold toy_decode. destruct (String.eqb s "QUJD") eqn:E; [|done].
  apply String.eqb_eq in E as ->. by intros [= <-].
Qed.
Lemma binary_message_accepted_witness :
  validate_socket_message (Binary "QUJD") = Ok ().
Proof. apply binary_message_accepted. exists "ABC". split; [reflexivity|vm_compute; discriminate]. Defined.
