(* ===== verification/ActorRuntime.v ===== *)
(** Running one actor: [host/actor_runtime.rs].

    [ActorRuntime] keeps the actor's state in memory and makes every change
    durable before it is acknowledged.  Its methods are programs in the monad
    [M]: they update the runtime (also when they fail) and issue requests
    ([HEff]) to the storage, the snapshot writer, the executor that runs user
    code, the socket publisher and the clock.  The replies are arbitrary.
    Logging and timings are left out. *)

From S2P Require Import Prelude.
From S2P Require Import Actors.
From S2P Require Import StoragePaths.
From S2P Require Import Snapshots.
From S2P Require Import ReplicaStore.
From S2P Require Import ReplicaServer.
From S2P Require Import RuntimeStorage.
From S2P Require Import SocketEffects.
Local Open Scope string_scope.
Local Open Scope Z_scope.

(** * Data *)
Record ActorActivation := {
  act_owner_epoch : Z;
  act_state_version : Z;
  act_state : option string }.

Record CommitOrigin := { co_connection_id : option string; co_interleaved : bool }.
Definition CommitOrigin_default : CommitOrigin := {| co_connection_id := None; co_interleaved := false |}.

Definition CommitOrigin_socket (e : ActorSocketEvent) : CommitOrigin :=
  {| co_connection_id := Some (match e with
       | Connect c => conn_id c
       | Disconnect c _ _ _ => conn_id c
       | Message id _ => id
       end);
     co_interleaved := false |}.

Record ActorMethodInvocation := {
  mi_request_id : string; mi_actor : ActorKey; mi_method : string; mi_args : list Value }.

Record PendingStateCommit := {
  pc_snapshot : StateSnapshot;
  pc_state : Value;
  pc_ticket : WritePlan;
  pc_durable : bool }.

Record CachedActorState := {
  ca_owner_epoch : Z;
  ca_state_version : Z;
  ca_state : option Value;
  ca_last_request_id : option string;
  ca_last_result : option Value;
  ca_next_write : option WritePlan;
  ca_pending : option PendingStateCommit }.

Inductive PreparedInvocation :=
| Execute (state : option Value)
| PreparedCompleted (result : ActorExecutionResult).

(** The services it is built with are the requests below. *)
Record ActorRuntime := {
  rt_endpoint : HostId;
  rt_cached_state : option CachedActorState;
  rt_activation : option ActorActivation }.

Definition ActorRuntime_new (endpoint : HostId) : ActorRuntime :=
  {| rt_endpoint := endpoint; rt_cached_state := None; rt_activation := None |}.

Definition set_cached (c : option CachedActorState) (rt : ActorRuntime) : ActorRuntime :=
  {| rt_endpoint := rt_endpoint rt; rt_cached_state := c; rt_activation := rt_activation rt |}.
Definition set_activation (a : ActorActivation) (rt : ActorRuntime) : ActorRuntime :=
  {| rt_endpoint := rt_endpoint rt; rt_cached_state := rt_cached_state rt; rt_activation := Some a |}.
Definition set_pending (p : option PendingStateCommit) (c : CachedActorState) : CachedActorState :=
  {| ca_owner_epoch := ca_owner_epoch c; ca_state_version := ca_state_version c; ca_state := ca_state c;
     ca_last_request_id := ca_last_request_id c; ca_last_result := ca_last_result c;
     ca_next_write := ca_next_write c; ca_pending := p |}.
Definition set_next_write (n : option WritePlan) (c : CachedActorState) : CachedActorState :=
  {| ca_owner_epoch := ca_owner_epoch c; ca_state_version := ca_state_version c; ca_state := ca_state c;
     ca_last_request_id := ca_last_request_id c; ca_last_result := ca_last_result c;
     ca_next_write := n; ca_pending := ca_pending c |}.
Definition set_ticket (t : WritePlan) (p : PendingStateCommit) : PendingStateCommit :=
  {| pc_snapshot := pc_snapshot p; pc_state := pc_state p; pc_ticket := t; pc_durable := pc_durable p |}.
Definition set_durable (p : PendingStateCommit) : PendingStateCommit :=
  {| pc_snapshot := pc_snapshot p; pc_state := pc_state p; pc_ticket := pc_ticket p; pc_durable := true |}.
Definition set_plan_version (v : Z) (p : WritePlan) : WritePlan :=
  {| plan_stream := plan_stream p; plan_state_version := v; object_name := stream_object (plan_stream p) v;
     plan_expires_at_ms := plan_expires_at_ms p; replication := replication p |}.
Definition take_state (a : ActorActivation) : ActorActivation :=
  {| act_owner_epoch := act_owner_epoch a; act_state_version := act_state_version a; act_state := None |}.

(** * Requests *)
Inductive HEff : Type -> Type :=
(* [ActorStorage] *)
| EnsureAuthority : HEff (Result unit)
| AcquireActor (actor : ActorKey) (host : HostId) : HEff (Result ActorActivation)
| LoadActorState (actor : ActorKey) (host : HostId) (epoch : Z) : HEff (Result (Z * string))
| PrepareStateWrite (actor : ActorKey) (host : HostId) (epoch expected_version : Z)
    : HEff (Result WritePlan)
(* [SnapshotWriter] *)
| WriteSnapshot (plan : WritePlan) (bytes : string) : HEff (Result StateWrite)
(* [unix_millis] *)
| UnixMillis : HEff (Result Z)
(* [ActorExecutor] *)
| Hydrate (actor : ActorKey) (state : option Value) : HEff (Result unit)
| InvokeShared (invocation : ActorMethodInvocation) (state : option Value)
    : HEff (Result ActorMethodOutcome)
| HandleSocketShared (invocation : ActorSocketInvocation) (state : option Value)
    : HEff (Result ActorSocketOutcome)
| Evict (actor : ActorKey) : HEff (Result unit)
(* [ActorSocketPublisher] *)
| Publish (actor : ActorKey) (effects : list ActorSocketEffect) : HEff (Result unit).

Inductive hprog (A : Type) : Type :=
| HRet (a : A)
| HVis {X : Type} (e : HEff X) (k : X -> hprog A).
Arguments HRet {A} a.
Arguments HVis {A X} e k.

Fixpoint hbind {A B} (p : hprog A) (f : A -> hprog B) : hprog B :=
  match p with
  | HRet a => f a
  | HVis e k => HVis e (fun x => hbind (k x) f)
  end.

(** A method with mutable state [S]: changes made before an error persist. *)
Definition M (S A : Type) : Type := S -> hprog (S * Result A).
#[global] Instance M_ret S : MRet (M S) := fun A a s => HRet (s, Ok a).
#[global] Instance M_bind S : MBind (M S) := fun A B f m s =>
  hbind (m s) (fun sr => match sr.2 with Ok a => f a sr.1 | Err e => HRet (sr.1, Err e) end).

Definition ask {S X} (e : HEff X) : M S X := fun s => HVis e (fun x => HRet (s, Ok x)).
Definition ask_ok {S X} (e : HEff (Result X)) : M S X := fun s => HVis e (fun r => HRet (s, r)).
Definition lift {S A} (r : Result A) : M S A := fun s => HRet (s, r).
Definition get {S} : M S S := fun s => HRet (s, Ok s).
Definition put {S} (s : S) : M S unit := fun _ => HRet (s, Ok ()).
(** A result that the caller inspects instead of returning on error *)
Definition try {S A} (m : M S A) : M S (Result A) := fun s =>
  hbind (m s) (fun sr => HRet (sr.1, Ok sr.2)).
(** A call with [&mut cached] on a local *)
Definition with_cached {S A} (c : CachedActorState) (m : M CachedActorState A)
  : M S (CachedActorState * Result A) := fun s =>
  hbind (m c) (fun cr => HRet (s, Ok cr)).

Definition i64_saturating_add (a b : Z) : Z := Z.max (- I64_MAX - 1) (Z.min I64_MAX (a + b)).
Definition STATE_WRITE_TICKET_SAFETY : Z := 5000.

Definition failed (code message : string) : ActorExecutionResult :=
  Failed {| Actors.code := code; Actors.message := message |}.
Definition unknown_outcome : ActorExecutionResult := Failed outcome_unknown_after_execution.

Definition socket_event_name (e : ActorSocketEvent) : string :=
  match e with
  | Connect _ => "onConnect"
  | Message _ _ => "onMessage"
  | Disconnect _ _ _ _ => "onDisconnect"
  end.

(** * [CachedActorState] *)
Definition CachedActorState_new (epoch : Z) : CachedActorState :=
  {| ca_owner_epoch := epoch; ca_state_version := 0; ca_state := None; ca_last_request_id := None;
     ca_last_result := None; ca_next_write := None; ca_pending := None |}.

Definition replay (c : CachedActorState) (id : string) : option Value :=
  if bool_decide (ca_last_request_id c = Some id) then ca_last_result c else None.

Section runtime.
Context `{Json StateSnapshot, Json Value, Json ActorSocketEffect, Base64Std}.

Definition from_loaded (epoch version : Z) (loaded : string) : Result CachedActorState :=
  snapshot ← StateSnapshot_decode loaded;
  ensure (state_version snapshot =? version) "actor snapshot version does not match its state head";;
  ensure (owner_epoch snapshot <=? epoch) "actor snapshot belongs to a newer owner epoch";;
  value ← from_slice (state snapshot);
  Ok {| ca_owner_epoch := epoch; ca_state_version := version; ca_state := Some value;
        ca_last_request_id := Some (snap_request_id snapshot);
        ca_last_result := Some (result snapshot); ca_next_write := None; ca_pending := None |}.

(** * Committing *)
Definition settle (host : HostId) (i : ActorInvocation) (c : CachedActorState)
  (pending : PendingStateCommit) : M CachedActorState PendingStateCommit :=
  if pc_durable pending then mret pending
  else
    now ← ask_ok UnixMillis;
    pending ←
      (if plan_expires_at_ms (pc_ticket pending) <=? i64_saturating_add now 5000 then
         renewed ← ask_ok (PrepareStateWrite (inv_actor i) host (ca_owner_epoch c) (ca_state_version c));
         lift (ensure (bool_decide (plan_stream renewed = plan_stream (pc_ticket pending))
                       && String.eqb (object_name renewed) (object_name (pc_ticket pending)))
                 "pending writer has been fenced");;
         let p := set_ticket renewed pending in
         put (set_pending (Some p) c);;
         mret p
       else mret pending);
    bytes ← lift (StateSnapshot_encode (pc_snapshot pending));
    ask_ok (WriteSnapshot (pc_ticket pending) bytes);;
    let p := set_durable pending in
    put (set_pending (Some p) c);;
    mret p.

Definition finish_pending_commit (host : HostId) (i : ActorInvocation) : M CachedActorState unit :=
  c ← get;
  match ca_pending c with
  | None => mret ()
  | Some pending =>
      pending ← settle host i c pending;
      next ← lift (with_context (checked_add (state_version (pc_snapshot pending)) 1)
                     "state version overflow");
      put {| ca_owner_epoch := ca_owner_epoch c;
             ca_state_version := state_version (pc_snapshot pending);
             ca_state := Some (pc_state pending);
             ca_last_request_id := Some (snap_request_id (pc_snapshot pending));
             ca_last_result := Some (result (pc_snapshot pending));
             ca_next_write := Some (set_plan_version next (pc_ticket pending));
             ca_pending := None |}
  end.

(** The ticket for the next version: the prepared one if it is still good *)
Definition write_ticket (host : HostId) (i : ActorInvocation) (epoch next_version : Z)
  : M CachedActorState WritePlan :=
  c ← get;
  put (set_next_write None c);;
  reuse ←
    (match ca_next_write c with
     | Some ticket =>
         if plan_state_version ticket =? next_version then
           now ← ask_ok UnixMillis;
           mret (if i64_saturating_add now STATE_WRITE_TICKET_SAFETY <? plan_expires_at_ms ticket
                 then Some ticket else None)
         else mret None
     | None => mret None
     end);
  match reuse with
  | Some ticket => mret ticket
  | None => ask_ok (PrepareStateWrite (inv_actor i) host epoch (ca_state_version c))
  end.

Definition publish_result (host : HostId) (i : ActorInvocation) (epoch : Z) (res next_state : Value)
  (origin : CommitOrigin) : M CachedActorState ActorExecutionResult :=
  c ← get;
  next_version ← lift (with_context (checked_add (ca_state_version c) 1) "actor state version overflow");
  ticket ← write_ticket host i epoch next_version;
  lift (ensure (plan_state_version ticket =? next_version) "state write ticket has the wrong version");;
  lift (ensure (rs_owner_epoch (plan_stream ticket) =? epoch)
          "write capability belongs to another owner epoch");;
  snapshot ← lift (StateSnapshot_new next_version epoch (request_id i) next_state res);
  now ← ask_ok UnixMillis;
  let snapshot := with_attribution snapshot
    {| at_operation := method i; at_connection_id := co_connection_id origin;
       at_committed_at_ms := now; at_interleaved := co_interleaved origin |} in
  bytes ← lift (StateSnapshot_encode snapshot);
  c ← get;
  let pending := {| pc_snapshot := snapshot; pc_state := next_state; pc_ticket := ticket;
                    pc_durable := false |} in
  put (set_pending (Some pending) c);;
  ask_ok (WriteSnapshot ticket bytes);;
  put (set_pending (Some (set_durable pending)) c);;
  finish_pending_commit host i;;
  mret (Completed res []).

(** * Executing *)
Definition evict (actor : ActorKey) : M ActorRuntime unit := ask (Evict actor);; mret ().

Definition is_state_effect (e : ActorSocketEffect) : bool :=
  match e with StateSnapshotEffect _ _ _ | StateUpdateEffect _ _ _ _ => true | _ => false end.
Definition set_effect_version (v : Z) (e : ActorSocketEffect) : ActorSocketEffect :=
  match e with
  | StateSnapshotEffect c s _ => StateSnapshotEffect c s (Some v)
  | StateUpdateEffect ch r x _ => StateUpdateEffect ch r x (Some v)
  | e => e
  end.

Definition complete_with_state (actor : ActorKey) (version : Z) (res : Value)
  (effects : list ActorSocketEffect) : M ActorRuntime ActorExecutionResult :=
  ask_ok EnsureAuthority;;
  let automatic := set_effect_version version <$> filter (fun e => is_state_effect e = true) effects in
  let effects := filter (fun e => is_state_effect e = false) effects in
  published ← (if is_nil automatic then mret (Ok ()) else ask (Publish actor automatic));
  match published with
  | Err _ => mret unknown_outcome
  | Ok _ => mret (Completed res effects)
  end.

Definition take_or_load_state (actor : ActorKey) (epoch : Z) : M ActorRuntime CachedActorState :=
  rt ← get;
  put (set_cached None rt);;
  match rt_cached_state rt with
  | Some cached =>
      if ca_owner_epoch cached =? epoch then mret cached
      else
        '(version, loaded) ← ask_ok (LoadActorState actor (rt_endpoint rt) epoch);
        (if version =? 0
         then lift (ensure (is_empty loaded) "uninitialized actor has state");;
              mret (CachedActorState_new epoch)
         else lift (from_loaded epoch version loaded))
  | None =>
      '(version, loaded) ← ask_ok (LoadActorState actor (rt_endpoint rt) epoch);
      (if version =? 0
       then lift (ensure (is_empty loaded) "uninitialized actor has state");;
            mret (CachedActorState_new epoch)
       else lift (from_loaded epoch version loaded))
  end.

Definition put_cached (c : CachedActorState) : M ActorRuntime unit :=
  rt ← get; put (set_cached (Some c) rt).

(** The prologue of an execution: load, then finish what is pending *)
Definition resolve_pending (i : ActorInvocation) (epoch : Z)
  : M ActorRuntime (CachedActorState * Result unit) :=
  cached ← take_or_load_state (inv_actor i) epoch;
  rt ← get;
  with_cached cached (finish_pending_commit (rt_endpoint rt) i).

Definition prepare_invocation (i : ActorInvocation) (epoch : Z) (replays : bool)
  : M ActorRuntime PreparedInvocation :=
  ask_ok EnsureAuthority;;
  '(cached, finished) ← resolve_pending i epoch;
  put_cached cached;;
  match finished with
  | Err _ => mret (PreparedCompleted unknown_outcome)
  | Ok _ =>
      match (if replays then replay cached (request_id i) else None) with
      | Some res => mret (PreparedCompleted (Completed res []))
      | None => mret (Execute (ca_state cached))
      end
  end.

(** Result, next state and effects of an execution, or what to answer *)
Inductive Executed (A : Type) := Executes (a : A) | Answer (r : ActorExecutionResult).
Arguments Executes {A} a.
Arguments Answer {A} r.

Definition failure_code (f : ActorInvocationFailure) : string :=
  if String.eqb (code f) "resource_exhausted" then "resource_exhausted" else "actor_error".

Definition method_result (i : ActorInvocation) (outcome : Result ActorMethodOutcome)
  : M ActorRuntime (Executed (Value * Value * list ActorSocketEffect)) :=
  match outcome with
  | Ok (MethodInterleaved _) => mret (Answer (failed "actor_error" "unexpected interleaved result"))
  | Ok (MethodCompleted res st effects) =>
      match validate_socket_effects effects with
      | Ok _ => mret (Executes (res, st, effects))
      | Err e =>
          evict (inv_actor i);;
          mret (Answer (failed "actor_error" ("actor returned invalid socket effects: " +:+ e)))
      end
  | Ok (MethodFailed f) =>
      (if String.eqb (code f) "actor_method_failed" || String.eqb (code f) "actor_socket_failed"
       then mret () else evict (inv_actor i));;
      mret (Answer (failed (failure_code f) (message f)))
  | Err e =>
      evict (inv_actor i);;
      mret (Answer (failed "actor_error" ("actor executor failed: " +:+ e)))
  end.

Definition execute_method (i : ActorInvocation) (st : option Value)
  : M ActorRuntime (Executed (Value * Value * list ActorSocketEffect)) :=
  outcome ← ask (InvokeShared {| mi_request_id := request_id i; mi_actor := inv_actor i;
                                 mi_method := method i; mi_args := args i |} st);
  method_result i outcome.

Definition execute_socket_event (i : ActorSocketInvocation) (st : option Value)
  : M ActorRuntime (Executed (Value * list ActorSocketEffect)) :=
  outcome ← ask (HandleSocketShared i st);
  match outcome with
  | Ok (SocketInterleaved _) => mret (Answer (failed "actor_error" "unexpected interleaved result"))
  | Ok (SocketHandled st effects) =>
      match validate_socket_effects effects with
      | Ok _ => mret (Executes (st, effects))
      | Err e =>
          evict (sock_actor i);;
          mret (Answer (failed "actor_error" ("actor returned invalid socket effects: " +:+ e)))
      end
  | Ok (SocketFailed f) => mret (Answer (failed (failure_code f) (message f)))
  | Err e => mret (Answer (failed "actor_error" ("actor executor failed: " +:+ e)))
  end.

Definition finish_method (i : ActorInvocation) (epoch : Z)
  (executed : Executed (Value * Value * list ActorSocketEffect)) (origin : CommitOrigin)
  : M ActorRuntime ActorExecutionResult :=
  match executed with
  | Answer r => mret r
  | Executes (res, next_state, effects) =>
      rt ← get;
      put (set_cached None rt);;
      cached ← lift (with_context (rt_cached_state rt) "actor invocation has no state");
      if bool_decide (ca_state cached = Some next_state) then
        put_cached cached;;
        complete_with_state (inv_actor i) (ca_state_version cached) res effects
      else
        '(cached, published) ←
          with_cached cached (publish_result (rt_endpoint rt) i epoch res next_state origin);
        (if is_ok published then mret () else evict (inv_actor i));;
        put_cached cached;;
        match published with
        | Ok (Completed res _) => complete_with_state (inv_actor i) (ca_state_version cached) res effects
        | Ok r => mret r
        | Err _ => mret unknown_outcome
        end
  end.

Definition finish_serial (i : ActorInvocation) (epoch : Z) (outcome : Result ActorMethodOutcome)
  (origin : CommitOrigin) : M ActorRuntime ActorExecutionResult :=
  executed ← method_result i outcome;
  finish_method i epoch executed origin.

Definition commit_interleaved (i : ActorInvocation) (epoch : Z) (outcome : ActorInterleavedOutcome)
  (origin : CommitOrigin) : M ActorRuntime ActorExecutionResult :=
  ask_ok EnsureAuthority;;
  lift (validate_socket_effects (il_effects outcome));;
  let origin := {| co_connection_id := co_connection_id origin; co_interleaved := true |} in
  rt ← get;
  put (set_cached None rt);;
  cached ← lift (with_context (rt_cached_state rt) "interleaved activation has no state");
  lift (ensure (ca_owner_epoch cached =? epoch) "interleaved ownership changed");;
  '(cached, publication) ←
    (if bool_decide (ca_state cached = Some (il_state outcome))
     then mret (cached, Ok (Completed (il_result outcome) []))
     else with_cached cached
            (publish_result (rt_endpoint rt) i epoch (il_result outcome) (il_state outcome) origin));
  put_cached cached;;
  lift publication;;
  complete_with_state (inv_actor i) (ca_state_version cached) (il_result outcome) (il_effects outcome).

Definition activate_actor (actor : ActorKey) : M ActorRuntime ActorActivation :=
  ask_ok EnsureAuthority;;
  rt ← get;
  match rt_activation rt with
  | Some activation => mret activation
  | None =>
      activation ← ask_ok (AcquireActor actor (rt_endpoint rt));
      activation ←
        (match rt_cached_state rt with
         | Some _ => mret activation
         | None =>
             '(cached, activation) ←
               lift (if act_state_version activation =? 0
                     then Ok (CachedActorState_new (act_owner_epoch activation), activation)
                     else
                       bytes ← with_context (act_state activation) "activation has no recovered state";
                       cached ← from_loaded (act_owner_epoch activation) (act_state_version activation) bytes;
                       Ok (cached, take_state activation));
             put_cached cached;;
             mret activation
         end);
      rt ← get;
      ask_ok (Hydrate actor (rt_cached_state rt ≫= ca_state));;
      ask_ok EnsureAuthority;;
      put (set_activation activation rt);;
      mret activation
  end.

Definition invoke_actor_once (i : ActorInvocation) (epoch : Z) : M ActorRuntime ActorExecutionResult :=
  prepared ← prepare_invocation i epoch true;
  match prepared with
  | PreparedCompleted r => mret r
  | Execute st =>
      executed ← execute_method i st;
      finish_method i epoch executed CommitOrigin_default
  end.

Definition invoke_actor (i : ActorInvocation) (epoch : Z) : M ActorRuntime ActorExecutionResult :=
  ask_ok EnsureAuthority;;
  outcome ← try (invoke_actor_once i epoch);
  ask_ok EnsureAuthority;;
  lift outcome.

Definition handle_socket_event_once (i : ActorSocketInvocation) (epoch : Z) (persistence : ActorInvocation)
  : M ActorRuntime ActorExecutionResult :=
  '(cached, finished) ← resolve_pending persistence epoch;
  match finished with
  | Err _ => put_cached cached;; mret unknown_outcome
  | Ok _ =>
      let origin := CommitOrigin_socket (sock_event i) in
      outcome ← execute_socket_event i (ca_state cached);
      match outcome with
      | Answer r => put_cached cached;; mret r
      | Executes (next_state, effects) =>
          if bool_decide (ca_state cached = Some next_state) then
            put_cached cached;;
            complete_with_state (inv_actor persistence) (ca_state_version cached) Null effects
          else
            rt ← get;
            '(cached, published) ←
              with_cached cached (publish_result (rt_endpoint rt) persistence epoch Null next_state origin);
            (if is_ok published then mret () else evict (inv_actor persistence));;
            put_cached cached;;
            match published with
            | Ok (Completed _ _) =>
                complete_with_state (inv_actor persistence) (ca_state_version cached) Null effects
            | Ok r => mret r
            | Err _ => mret unknown_outcome
            end
      end
  end.

Definition socket_persistence (i : ActorSocketInvocation) : ActorInvocation :=
  {| request_id := sock_request_id i; inv_actor := sock_actor i;
     method := socket_event_name (sock_event i); args := [] |}.

Definition handle_socket_event (i : ActorSocketInvocation) (epoch : Z) : M ActorRuntime ActorExecutionResult :=
  ask_ok EnsureAuthority;;
  outcome ← try (handle_socket_event_once i epoch (socket_persistence i));
  ask_ok EnsureAuthority;;
  lift outcome.

(** [state_version]: 0 is shown as nothing. *)
Definition shown_state_version (rt : ActorRuntime) : option Z :=
  c ← rt_cached_state rt; if 0 <? ca_state_version c then Some (ca_state_version c) else None.
End runtime.
Arguments Executes {A} a.
Arguments Answer {A} r.
