(* ===== verification/ActorCommits.v ===== *)
(** What [ActorRuntime] guarantees about the state it acknowledges.

    A life of a runtime is any sequence of operations on it, with the trace of
    all requests and replies.  The invariant [rt_inv] relates the cached state
    to that trace: what is cached was loaded from storage or acknowledged by the
    snapshot writer, and the one commit that may be pending is the only content
    ever written for the next version. *)

From S2P Require Import Prelude.
From S2P Require Import Actors.
From S2P Require Import StoragePaths.
From S2P Require Import Snapshots.
From S2P Require Import RuntimeStorage.
From S2P Require Import SocketEffects.
From S2P Require Import ActorRuntime.
From S2P Require Import Samples.
Local Open Scope string_scope.
Local Open Scope Z_scope.

(** * Traces *)
Inductive event := Event (X : Type) (e : HEff X) (x : X).
Arguments Event {X} e x.

Inductive runs {A} : hprog A -> list event -> A -> Prop :=
| runs_ret a : runs (HRet a) [] a
| runs_vis X (e : HEff X) k x t a : runs (k x) t a -> runs (HVis e k) (Event e x :: t) a.

(** Every run of [p] after the trace [t] ends in [Q]. *)
Fixpoint post {A} (p : hprog A) (t : list event) (Q : list event -> A -> Prop) : Prop :=
  match p with
  | HRet a => Q t a
  | HVis e k => forall x, post (k x) (t ++ [Event e x])%list Q
  end.

Lemma post_runs {A} (p : hprog A) t Q t' a : post p t Q -> runs p t' a -> Q (t ++ t')%list a.
Proof.
  intros Hp Hr. revert t Hp. induction Hr as [a|X e k x t' a Hr IH]; intros t Hp; cbn in *.
  - by rewrite app_nil_r.
  - specialize (IH _ (Hp x)). by rewrite <-app_assoc in IH.
Qed.

Lemma post_mono {A} (p : hprog A) t (Q Q' : list event -> A -> Prop) :
  post p t Q -> (forall t' a, Q t' a -> Q' t' a) -> post p t Q'.
Proof. revert t. induction p as [a|X e k IH]; intros t Hp HQ; cbn in *; eauto. Qed.

Lemma post_hbind {A B} (p : hprog A) (f : A -> hprog B) t Q :
  post p t (fun t' a => post (f a) t' Q) -> post (hbind p f) t Q.
Proof. revert t. induction p as [a|X e k IH]; intros t Hp; cbn in *; auto. Qed.

(** * Triples for methods *)
Definition after {S A} (Q : list event -> S -> Result A -> Prop) (t : list event) (sr : S * Result A) : Prop :=
  Q t sr.1 sr.2.
Definition triple {S A} (t : list event) (s : S) (m : M S A) (Q : list event -> S -> Result A -> Prop)
  : Prop := post (m s) t (after Q).

Section rules.
Context {S : Type}.

(** An error of a step is the result of the whole. *)
Lemma m_bind {A B} (m : M S A) (f : A -> M S B) t s Q :
  triple t s m (fun t' s' r => match r with
                               | Ok a => triple t' s' (f a) Q
                               | Err e => Q t' s' (Err e)
                               end) ->
  triple t s (m ≫= f) Q.
Proof.
  intros Hm. apply post_hbind. eapply post_mono; [exact Hm|].
  intros t' [s' [a|e]]; cbn; auto.
Qed.
Lemma m_mono {A} (m : M S A) t s (Q Q' : list event -> S -> Result A -> Prop) :
  triple t s m Q -> (forall t' s' r, Q t' s' r -> Q' t' s' r) -> triple t s m Q'.
Proof. intros Hm HQ. eapply post_mono; [exact Hm|]. intros t' [s' r]. apply HQ. Qed.
Lemma m_ret {A} (a : A) t (s : S) Q : Q t s (Ok a) -> triple t s (mret a : M S A) Q.
Proof. done. Qed.
Lemma m_lift {A} (r : Result A) t (s : S) Q : Q t s r -> triple t s (lift r) Q.
Proof. done. Qed.
Lemma m_get t (s : S) Q : Q t s (Ok s) -> triple t s get Q.
Proof. done. Qed.
Lemma m_put s' t (s : S) Q : Q t s' (Ok ()) -> triple t s (put s') Q.
Proof. done. Qed.
Lemma m_ask {X} (e : HEff X) t (s : S) Q :
  (forall x, Q (t ++ [Event e x])%list s (Ok x)) -> triple t s (ask e) Q.
Proof. done. Qed.
Lemma m_ask_ok {X} (e : HEff (Result X)) t (s : S) Q :
  (forall r, Q (t ++ [Event e r])%list s r) -> triple t s (ask_ok e) Q.
Proof. done. Qed.
Lemma m_try {A} (m : M S A) t s Q :
  triple t s m (fun t' s' r => Q t' s' (Ok r)) -> triple t s (try m) Q.
Proof. intros Hm. apply post_hbind. eapply post_mono; [exact Hm|]. by intros t' [s' r]. Qed.
Lemma m_with_cached {A} c (m : M CachedActorState A) t (s : S) Q :
  triple t c m (fun t' c' r => Q t' s (Ok (c', r))) -> triple t s (with_cached c m) Q.
Proof. intros Hm. apply post_hbind. eapply post_mono; [exact Hm|]. by intros t' [c' r]. Qed.
End rules.

(** * What a trace shows *)
(** A write with the writer's answer *)
Definition write_of (ev : event) : option (WritePlan * string * Result StateWrite) :=
  match ev with
  | @Event X e x =>
      match e in HEff X return X -> option (WritePlan * string * Result StateWrite) with
      | WriteSnapshot plan bytes => fun r => Some (plan, bytes, r)
      | _ => fun _ => None
      end x
  end.
Definition writes (t : list event) : list (WritePlan * string * Result StateWrite) := omap write_of t.

(** Bytes that storage handed out as an actor's state *)
Definition load_of (ev : event) : option string :=
  match ev with
  | @Event X e x =>
      match e in HEff X return X -> option string with
      | LoadActorState _ _ _ => fun r => match r with Ok (_, bytes) => Some bytes | Err _ => None end
      | AcquireActor _ _ => fun r => match r with Ok a => act_state a | Err _ => None end
      | _ => fun _ => None
      end x
  end.

(** What an execution of user code was given and returned; a handled socket
    event has no result. *)
Definition socket_as_method (r : Result ActorSocketOutcome) : Result ActorMethodOutcome :=
  match r with
  | Ok (SocketInterleaved o) => Ok (MethodInterleaved o)
  | Ok (SocketHandled st effects) => Ok (MethodCompleted Null st effects)
  | Ok (SocketFailed f) => Ok (MethodFailed f)
  | Err e => Err e
  end.
Definition execution_of (ev : event) : option (option Value * Result ActorMethodOutcome) :=
  match ev with
  | @Event X e x =>
      match e in HEff X return X -> option (option Value * Result ActorMethodOutcome) with
      | InvokeShared _ st => fun r => Some (st, r)
      | HandleSocketShared _ st => fun r => Some (st, socket_as_method r)
      | _ => fun _ => None
      end x
  end.
Definition executions (t : list event) : list (option Value * Result ActorMethodOutcome) := omap execution_of t.

(** A request that is not a write (and not an execution) *)
Definition silent {X} (e : HEff X) : bool :=
  match e with WriteSnapshot _ _ => false | _ => true end.
Lemma writes_app t t' : writes (t ++ t')%list = (writes t ++ writes t')%list.
Proof. apply omap_app. Qed.
Lemma executions_app t t' : executions (t ++ t')%list = (executions t ++ executions t')%list.
Proof. apply omap_app. Qed.
Lemma writes_silent {X} (e : HEff X) x t : silent e = true -> writes (t ++ [Event e x])%list = writes t.
Proof. intros He. rewrite writes_app. by destruct e; cbn in *; try discriminate He; rewrite app_nil_r. Qed.

Section facts.
Context `{Json StateSnapshot, Json Value, Json ActorSocketEffect, Base64Std}.

(** A snapshot that the writer has acknowledged, or that storage has handed out *)
Definition durable (t : list event) (s : StateSnapshot) : Prop :=
  exists plan bytes w, (plan, bytes, Ok w) ∈ writes t /\ StateSnapshot_encode s = Ok bytes.
Definition handed_out (t : list event) (s : StateSnapshot) : Prop :=
  exists ev bytes, ev ∈ t /\ load_of ev = Some bytes /\ StateSnapshot_decode bytes = Ok s.

(** The cached state is what a durable (or loaded) snapshot says. *)
Definition confirmed (t : list event) (c : CachedActorState) : Prop :=
  (ca_state_version c = 0 /\ ca_state c = None /\ ca_last_request_id c = None) \/
  exists s v, (durable t s \/ handed_out t s) /\ state_version s = ca_state_version c /\
    from_slice (state s) = Ok v /\ ca_state c = Some v /\
    ca_last_request_id c = Some (snap_request_id s) /\ ca_last_result c = Some (result s).

Lemma durable_app t t' s : durable t s -> durable (t ++ t')%list s.
Proof. intros (p & b & w & Hw & He). exists p, b, w. split; [|done]. rewrite writes_app. set_solver. Qed.
Lemma handed_out_app t t' s : handed_out t s -> handed_out (t ++ t')%list s.
Proof. intros (ev & b & Hin & ? & ?). exists ev, b. rewrite elem_of_app. auto. Qed.
Lemma confirmed_app t t' c : confirmed t c -> confirmed (t ++ t')%list c.
Proof.
  intros [Hz|(s & v & Hs & Hrest)]; [by left|]. right. exists s, v. split; [|done].
  destruct Hs; [left; by apply durable_app|right; by apply handed_out_app].
Qed.

(** * The invariant of the cached state *)
Context {snapshot_json : JsonLaws StateSnapshot} {value_json : JsonLaws Value}.
(** The owner epoch of the activation *)
Context (e : Z).

Lemma encode_ok s b : StateSnapshot_encode s = Ok b -> b = to_vec s /\ StateSnapshot_decode b = Ok s.
Proof using snapshot_json.
  unfold StateSnapshot_encode, StateSnapshot_decode. intros (u & Hv & [= <-])%bind_ok.
  rewrite json_roundtrip. cbn [mbind Result_bind]. by rewrite Hv.
Qed.

Record pending_ok (t : list event) (c : CachedActorState) (p : PendingStateCommit) : Prop := {
  po_version : state_version (pc_snapshot p) = ca_state_version c + 1;
  po_epoch : owner_epoch (pc_snapshot p) = e;
  po_state : state (pc_snapshot p) = to_vec (pc_state p);
  po_durable : pc_durable p = true -> durable t (pc_snapshot p) }.

(** Every write so far is of a committed version or of the pending commit. *)
Definition write_ok (c : CachedActorState) (s : StateSnapshot) : Prop :=
  owner_epoch s = e /\
  (state_version s <= ca_state_version c \/ exists p, ca_pending c = Some p /\ s = pc_snapshot p).

Record cached_inv (t : list event) (c : CachedActorState) : Prop := {
  ci_confirmed : confirmed t c;
  ci_pending : forall p, ca_pending c = Some p -> pending_ok t c p;
  ci_writes : forall w, w ∈ writes t -> exists s, StateSnapshot_encode s = Ok w.1.2 /\ write_ok c s;
  ci_unique : forall w1 w2 s1 s2, w1 ∈ writes t -> w2 ∈ writes t ->
    StateSnapshot_encode s1 = Ok w1.1.2 -> StateSnapshot_encode s2 = Ok w2.1.2 ->
    state_version s1 = state_version s2 -> w1.1.2 = w2.1.2 }.

Lemma pending_ok_app t t' c p : pending_ok t c p -> pending_ok (t ++ t')%list c p.
Proof. intros []. split; auto using durable_app. Qed.

Lemma cached_inv_silent {X} (ev : HEff X) x t c :
  silent ev = true -> cached_inv t c -> cached_inv (t ++ [Event ev x])%list c.
Proof.
  intros Hs [Hc Hp Hw Hu]. split.
  - by apply confirmed_app.
  - intros p Hp'. apply pending_ok_app. auto.
  - by rewrite writes_silent.
  - by rewrite writes_silent.
Qed.

(** Starting from nothing written *)
Lemma cached_inv_init t c :
  writes t = [] -> ca_pending c = None -> confirmed t c -> cached_inv t c.
Proof.
  intros Hw Hp Hc. split; [done|by rewrite Hp|rewrite Hw|rewrite Hw].
  - by intros w ?%not_elem_of_nil.
  - by intros w1 w2 s1 s2 ?%not_elem_of_nil.
Qed.

(** Steps that keep version, state and last request *)
Lemma cached_inv_next_write t c n : cached_inv t c -> cached_inv t (set_next_write n c).
Proof. intros [Hc Hp Hw Hu]. split; [exact Hc| |exact Hw|exact Hu]. intros p Hp'. by destruct (Hp p Hp'). Qed.

Lemma cached_inv_start t c p :
  cached_inv t c -> ca_pending c = None -> pending_ok t c p -> cached_inv t (set_pending (Some p) c).
Proof.
  intros [Hc Hp Hw Hu] Hn Hok. split; [exact Hc| | |exact Hu].
  - intros p' [= <-]. by destruct Hok.
  - intros w Hin. destruct (Hw w Hin) as (s & Hs & He & [Hv|(p' & Hp' & _)]); [|congruence].
    exists s. split; [done|]. split; [done|]. by left.
Qed.

(** Changing the pending commit without changing what it commits *)
Lemma cached_inv_repend t c p p' :
  cached_inv t c -> ca_pending c = Some p -> pc_snapshot p' = pc_snapshot p ->
  pc_state p' = pc_state p -> (pc_durable p' = true -> durable t (pc_snapshot p)) ->
  cached_inv t (set_pending (Some p') c).
Proof.
  intros [Hc Hp Hw Hu] Hp0 Es Est Hd. destruct (Hp p Hp0) as [Hv He Hst Hdur].
  split; [exact Hc| | |exact Hu].
  - intros q [= <-]. split; rewrite ?Es, ?Est; auto.
  - intros w Hin. destruct (Hw w Hin) as (s & Hs & Hep & Hcase). exists s. split; [done|].
    split; [done|]. destruct Hcase as [?|(q & Hq & ->)]; [by left|right].
    exists p'. split; [done|]. congruence.
Qed.

Lemma write_of_write t plan b r :
  writes (t ++ [Event (WriteSnapshot plan b) r])%list = (writes t ++ [(plan, b, r)])%list.
Proof. by rewrite writes_app. Qed.

(** Writing the pending snapshot (again) *)
Lemma cached_inv_write t c p plan b r :
  cached_inv t c -> ca_pending c = Some p -> StateSnapshot_encode (pc_snapshot p) = Ok b ->
  cached_inv (t ++ [Event (WriteSnapshot plan b) r])%list c.
Proof using snapshot_json.
  intros [Hc Hp Hw Hu] Hp0 Hb. destruct (Hp p Hp0) as [Hv He Hst Hdur].
  assert (Hold : forall w s, w ∈ writes t -> StateSnapshot_encode s = Ok w.1.2 ->
    state_version s = state_version (pc_snapshot p) -> w.1.2 = b).
  { intros w s Hin Hs Ev. destruct (Hw w Hin) as (s' & Hs' & _ & Hcase).
    apply encode_ok in Hs as [_ Hs]. apply encode_ok in Hs' as [E' Hs'].
    assert (s' = s) as -> by congruence. destruct Hcase as [Hle|(q & Hq & ->)]; [lia|].
    assert (q = p) as -> by congruence. apply encode_ok in Hb as [-> _]. congruence. }
  split; [by apply confirmed_app| | |].
  - intros q Hq. apply pending_ok_app. auto.
  - rewrite write_of_write. intros w [Hin| ->%list_elem_of_singleton]%elem_of_app; [by apply Hw|].
    exists (pc_snapshot p). split; [done|]. split; [done|]. right. eauto.
  - rewrite write_of_write.
    intros w1 w2 s1 s2 [Hi1| ->%list_elem_of_singleton]%elem_of_app
      [Hi2| ->%list_elem_of_singleton]%elem_of_app E1 E2 Ev; cbn in *.
    + by eapply Hu.
    + eapply Hold; [done|exact E1|]. apply encode_ok in E2 as [_ E2], Hb as [_ Hb]. congruence.
    + symmetry. eapply Hold; [done|exact E2|]. apply encode_ok in E1 as [_ E1], Hb as [_ Hb]. congruence.
    + done.
Qed.

Lemma durable_write t plan s b w :
  StateSnapshot_encode s = Ok b -> durable (t ++ [Event (WriteSnapshot plan b) (Ok w)])%list s.
Proof. intros Hb. exists plan, b, w. rewrite write_of_write. split; [set_solver|done]. Qed.

(** The state a finished commit leaves *)
Definition committed (c : CachedActorState) (p : PendingStateCommit) (n : option WritePlan) : CachedActorState :=
  {| ca_owner_epoch := ca_owner_epoch c; ca_state_version := state_version (pc_snapshot p);
     ca_state := Some (pc_state p); ca_last_request_id := Some (snap_request_id (pc_snapshot p));
     ca_last_result := Some (result (pc_snapshot p)); ca_next_write := n; ca_pending := None |}.

Lemma cached_inv_commit t c p n :
  cached_inv t c -> ca_pending c = Some p -> pc_durable p = true -> cached_inv t (committed c p n).
Proof using value_json.
  intros [Hc Hp Hw Hu] Hp0 Hd. destruct (Hp p Hp0) as [Hv He Hst Hdur]. split; [|done| |exact Hu].
  - right. exists (pc_snapshot p), (pc_state p). split; [left; auto|]. cbn. split_and!; try done.
    rewrite Hst. apply json_roundtrip.
  - intros w Hin. destruct (Hw w Hin) as (s & Hs & Hep & Hcase). exists s. split; [done|].
    split; [done|]. left. cbn. destruct Hcase as [?|(q & Hq & ->)]; [lia|].
    assert (q = p) as -> by congruence. lia.
Qed.

(** * Committing *)
Lemma set_pending_id c p : ca_pending c = Some p -> set_pending (Some p) c = c.
Proof. destruct c. cbn. by intros ->. Qed.

(** Same commit, whatever happened to its ticket *)
Definition same_commit (p p' : PendingStateCommit) : Prop :=
  pc_snapshot p' = pc_snapshot p /\ pc_state p' = pc_state p.

Definition settled (t : list event) (c : CachedActorState) (p : PendingStateCommit)
  (t' : list event) (c' : CachedActorState) (r : Result PendingStateCommit) : Prop :=
  cached_inv t' c' /\ executions t' = executions t /\
  exists p', c' = set_pending (Some p') c /\ same_commit p p' /\
    match r with Ok q => q = p' /\ pc_durable p' = true | Err _ => True end.

Lemma executions_idle t (ev : event) : execution_of ev = None -> executions (t ++ [ev])%list = executions t.
Proof. intros He. rewrite executions_app. cbn. by rewrite He, app_nil_r. Qed.

Lemma settle_write t0 t c p p' :
  cached_inv t (set_pending (Some p') c) -> same_commit p p' -> executions t = executions t0 ->
  triple t (set_pending (Some p') c)
    (bytes ← lift (StateSnapshot_encode (pc_snapshot p'));
     ask_ok (WriteSnapshot (pc_ticket p') bytes);;
     let q := set_durable p' in
     put (set_pending (Some q) c);; mret q) (settled t0 c p).
Proof using snapshot_json value_json.
  intros Hi Hs Hx. apply m_bind, m_lift. destruct (StateSnapshot_encode (pc_snapshot p')) as [b|err] eqn:Eb.
  2: { split; [done|]. split; [done|]. exists p'. done. }
  apply m_bind, m_ask_ok. intros r.
  assert (Hx' : executions (t ++ [Event (WriteSnapshot (pc_ticket p') b) r])%list = executions t0).
  { by rewrite executions_idle. }
  pose proof (cached_inv_write t _ p' (pc_ticket p') b r Hi eq_refl Eb) as Hi'.
  destruct r as [w|err]; [|split; [done|]; split; [done|]; by exists p'].
  apply m_bind, m_put, m_ret. split; [|split; [done|]; by exists (set_durable p')].
  eapply (cached_inv_repend _ _ p' (set_durable p')) in Hi'; [exact Hi'|done..|].
  intros _. by apply durable_write.
Qed.

Lemma settle_ok host i c p t :
  cached_inv t c -> ca_pending c = Some p -> triple t c (settle host i c p) (settled t c p).
Proof using snapshot_json value_json.
  intros Hi Hp. unfold settle. destruct (pc_durable p) eqn:Ed.
  { apply m_ret. split; [done|]. split; [done|]. exists p. by rewrite set_pending_id. }
  assert (Hfail : forall t' err, cached_inv t' c -> executions t' = executions t ->
    settled t c p t' c (Err err)).
  { intros t' err Hi' Hx. split; [done|]. split; [done|]. exists p. by rewrite set_pending_id. }
  apply m_bind, m_ask_ok. intros [now|err].
  2: { apply Hfail; [by apply cached_inv_silent|by rewrite executions_idle]. }
  set (t1 := (t ++ _)%list).
  assert (Hi1 : cached_inv t1 c) by (by apply cached_inv_silent).
  assert (Hx1 : executions t1 = executions t) by (by apply executions_idle).
  destruct (_ <=? _).
  2: { apply m_bind, m_ret. rewrite <-(set_pending_id c p) in Hi1 by done.
       pattern c at 1. rewrite <-(set_pending_id c p) by done. by apply settle_write. }
  apply m_bind, m_bind, m_ask_ok. intros [renewed|err].
  2: { apply Hfail; [by apply cached_inv_silent|by rewrite executions_idle]. }
  set (t2 := (t1 ++ _)%list).
  assert (Hi2 : cached_inv t2 c) by (by apply cached_inv_silent).
  assert (Hx2 : executions t2 = executions t) by (unfold t2; by rewrite executions_idle).
  apply m_bind, m_lift. destruct (ensure _ _); [|by apply Hfail].
  apply m_bind, m_put, m_ret. apply settle_write; [|done|done].
  eapply cached_inv_repend; [exact Hi2|exact Hp|done|done|]. cbn. congruence.
Qed.

(** Finishing the pending commit: afterwards nothing is pending and its state
    is the cached one; or it failed and is pending still. *)
Definition finished_commit (t : list event) (c : CachedActorState)
  (t' : list event) (c' : CachedActorState) (r : Result unit) : Prop :=
  cached_inv t' c' /\ executions t' = executions t /\ ca_owner_epoch c' = ca_owner_epoch c /\
  (ca_pending c = None -> r = Ok ()) /\
  (r = Ok () -> ca_pending c' = None /\
     match ca_pending c with
     | None => c' = c
     | Some p => ca_state c' = Some (pc_state p) /\
                 ca_last_request_id c' = Some (snap_request_id (pc_snapshot p)) /\
                 ca_last_result c' = Some (result (pc_snapshot p))
     end).

Lemma finish_pending_commit_ok host i c t :
  cached_inv t c -> triple t c (finish_pending_commit host i) (finished_commit t c).
Proof using snapshot_json value_json.
  intros Hi. unfold finish_pending_commit. apply m_bind, m_get. unfold finished_commit.
  destruct (ca_pending c) as [p|] eqn:Ep; [|by apply m_ret].
  apply m_bind. eapply m_mono; [by apply settle_ok|]. intros t' c' r (Hi' & Hx & p' & -> & [Es Est] & Hr).
  destruct r as [q|err]; [|done]. destruct Hr as [-> Hd]. apply m_bind, m_lift.
  destruct (with_context _ _) as [n|err]; [|done]. apply m_put.
  pose proof (cached_inv_commit _ _ p' (Some (set_plan_version n (pc_ticket p'))) Hi' eq_refl Hd) as Hc.
  split; [exact Hc|]. split_and!; [done..|]. intros _. split; [done|]. cbn.
  by rewrite Es, Est.
Qed.

(** A ticket costs requests, but changes nothing that is committed. *)
Lemma write_ticket_ok host i epoch v c t (Q : list event -> CachedActorState -> Result WritePlan -> Prop) :
  cached_inv t c ->
  (forall t' r, cached_inv t' (set_next_write None c) -> executions t' = executions t ->
     Q t' (set_next_write None c) r) ->
  triple t c (write_ticket host i epoch v) Q.
Proof.
  intros Hi HQ. unfold write_ticket. apply m_bind, m_get. apply m_bind, m_put.
  apply (cached_inv_next_write _ _ None) in Hi.
  assert (Hask : forall t', cached_inv t' (set_next_write None c) -> executions t' = executions t ->
    triple t' (set_next_write None c)
      (ask_ok (PrepareStateWrite (inv_actor i) host epoch (ca_state_version c))) Q).
  { intros t' Hi' Hx. apply m_ask_ok. intros r.
    apply HQ; [by apply cached_inv_silent|by rewrite executions_idle]. }
  apply m_bind. destruct (ca_next_write c) as [ticket|]; [|by apply m_ret, Hask].
  destruct (_ =? _); [|by apply m_ret, Hask].
  apply m_bind, m_ask_ok. intros [now|err].
  2: { apply HQ; [by apply cached_inv_silent|by rewrite executions_idle]. }
  apply m_ret. destruct (_ <? _).
  - apply m_ret, HQ; [by apply cached_inv_silent|by rewrite executions_idle].
  - apply Hask; [by apply cached_inv_silent|by rewrite executions_idle].
Qed.

Definition published (i : ActorInvocation) (res next_state : Value) (t : list event)
  (c : CachedActorState) (t' : list event) (c' : CachedActorState) (r : Result ActorExecutionResult) : Prop :=
  cached_inv t' c' /\ executions t' = executions t /\ ca_owner_epoch c' = ca_owner_epoch c /\
  forall x, r = Ok x -> x = Completed res [] /\ ca_pending c' = None /\
    ca_state c' = Some next_state /\ ca_last_request_id c' = Some (request_id i) /\
    ca_last_result c' = Some res.

Lemma publish_result_ok host i res next_state origin c t :
  cached_inv t c -> ca_pending c = None ->
  triple t c (publish_result host i e res next_state origin) (published i res next_state t c).
Proof using snapshot_json value_json.
  intros Hi Hn. unfold publish_result.
  assert (Hfail : forall t' c' err, cached_inv t' c' -> executions t' = executions t ->
    ca_owner_epoch c' = ca_owner_epoch c -> published i res next_state t c t' c' (Err err)).
  { intros t' c' err Hi' Hx He. split_and!; done. }
  apply m_bind, m_get. apply m_bind, m_lift.
  destruct (checked_add (ca_state_version c) 1) as [v|] eqn:Ev; [|by apply Hfail]. cbn [with_context].
  assert (Hv : v = ca_state_version c + 1).
  { unfold checked_add in Ev. destruct (_ <=? _); [|done]. by injection Ev. }
  apply m_bind, write_ticket_ok; [done|]. intros t1 [ticket|err] Hi1 Hx1; [|by apply Hfail].
  apply m_bind, m_lift. destruct (ensure (_ =? v) _); [|by apply Hfail].
  apply m_bind, m_lift. destruct (ensure (_ =? e) _); [|by apply Hfail].
  apply m_bind, m_lift. destruct (StateSnapshot_new _ _ _ _ _) as [snap|err] eqn:Es; [|by apply Hfail].
  assert (Hsnap : state_version snap = v /\ owner_epoch snap = e /\ state snap = to_vec next_state /\
    snap_request_id snap = request_id i /\ result snap = res).
  { unfold StateSnapshot_new in Es. apply bind_ok in Es as (u & _ & [= <-]). done. }
  destruct Hsnap as (Sv & Se & Sst & Srid & Sres).
  apply m_bind, m_ask_ok. intros [now|err].
  2: { apply Hfail; [by apply cached_inv_silent|by rewrite executions_idle|done]. }
  set (t2 := (t1 ++ _)%list).
  assert (Hi2 : cached_inv t2 (set_next_write None c)) by (by apply cached_inv_silent).
  assert (Hx2 : executions t2 = executions t) by (unfold t2; by rewrite executions_idle).
  apply m_bind, m_lift. destruct (StateSnapshot_encode _) as [b|err] eqn:Eb; [|by apply Hfail].
  apply m_bind, m_get. apply m_bind, m_put. set (p := Build_PendingStateCommit _ _ _ _).
  assert (Hi3 : cached_inv t2 (set_pending (Some p) (set_next_write None c))).
  { apply cached_inv_start; [done|done|]. split; cbn; congruence. }
  apply m_bind, m_ask_ok. intros r. set (t3 := (t2 ++ _)%list).
  assert (Hx3 : executions t3 = executions t) by (unfold t3; by rewrite executions_idle).
  pose proof (cached_inv_write _ _ p ticket b r Hi3 eq_refl Eb) as Hi4. fold t3 in Hi4.
  destruct r as [w|err]; [|by apply Hfail]. apply m_bind, m_put.
  assert (Hi5 : cached_inv t3 (set_pending (Some (set_durable p)) (set_next_write None c))).
  { apply (cached_inv_repend _ _ p (set_durable p)) in Hi4; [exact Hi4|done..|].
    intros _. by apply durable_write. }
  apply m_bind. eapply m_mono; [by apply finish_pending_commit_ok|].
  intros t' c' r (Hi' & Hx & He & _ & Hr). rewrite Hx3 in Hx. destruct r as [[]|err]; [|by apply Hfail].
  apply m_ret. destruct (Hr eq_refl) as (Hp' & Hs' & Hid & Hres). split_and!; [done..|].
  intros x [= <-]. cbn in *. split_and!; congruence.
Qed.

(** * The invariant of the runtime, for operations of epoch [e] *)
Definition at_epoch (t : list event) (c : CachedActorState) : Prop :=
  ca_owner_epoch c = e \/ (writes t = [] /\ ca_pending c = None).
Definition rt_inv (t : list event) (rt : ActorRuntime) : Prop :=
  match rt_cached_state rt with
  | None => writes t = []
  | Some c => cached_inv t c /\ at_epoch t c
  end.

Lemma rt_inv_silent {X} (ev : HEff X) x t rt :
  silent ev = true -> rt_inv t rt -> rt_inv (t ++ [Event ev x])%list rt.
Proof.
  intros Hs. unfold rt_inv, at_epoch. rewrite writes_silent by done.
  destruct (rt_cached_state rt); [|done]. intros [Hi Hc]. split; [by apply cached_inv_silent|done].
Qed.
Lemma rt_inv_cached t rt c : cached_inv t c -> ca_owner_epoch c = e -> rt_inv t (set_cached (Some c) rt).
Proof. intros Hi He. split; [done|by left]. Qed.

(** A request that neither writes nor executes *)
Definition idle {X} (ev : HEff X) : bool :=
  silent ev && match ev with InvokeShared _ _ | HandleSocketShared _ _ => false | _ => true end.
Lemma idle_executions {X} (ev : HEff X) x t : idle ev = true -> executions (t ++ [Event ev x])%list = executions t.
Proof. intros Hi. apply executions_idle. by destruct ev. Qed.
Lemma idle_silent {X} (ev : HEff X) : idle ev = true -> silent ev = true.
Proof. unfold idle. by intros []%andb_true_iff. Qed.
Lemma rt_inv_idle {X} (ev : HEff X) x t rt : idle ev = true -> rt_inv t rt ->
  rt_inv (t ++ [Event ev x])%list rt /\ executions (t ++ [Event ev x])%list = executions t.
Proof. intros Hi Hr. split; [apply rt_inv_silent; [by apply idle_silent|done]|by apply idle_executions]. Qed.

(** ** Loading *)
Lemma from_loaded_ok epoch version bytes c t ev :
  from_loaded epoch version bytes = Ok c -> ev ∈ t -> load_of ev = Some bytes ->
  confirmed t c /\ ca_owner_epoch c = epoch /\ ca_pending c = None.
Proof.
  unfold from_loaded. intros (snap & Hd & E)%bind_ok Hin Hl.
  apply bind_ok in E as (u & Hv%ensure_ok & E). apply bind_ok in E as (u' & _ & E).
  apply bind_ok in E as (v & Hs & [= <-]). split; [|done]. right. exists snap, v. bools.
  split; [right; by exists ev, bytes|]. done.
Qed.

Definition loaded_state (t : list event) (rt : ActorRuntime)
  (t' : list event) (rt' : ActorRuntime) (r : Result CachedActorState) : Prop :=
  executions t' = executions t /\
  match r with
  | Ok c => rt' = set_cached None rt /\ cached_inv t' c /\ ca_owner_epoch c = e /\
            (forall c0, rt_cached_state rt = Some c0 -> ca_owner_epoch c0 = e -> c = c0)
  | Err _ => rt_inv t' rt'
  end.

Lemma load_state_ok t rt actor :
  (forall c0, rt_cached_state rt = Some c0 -> ca_owner_epoch c0 <> e) -> writes t = [] ->
  triple t (set_cached None rt)
    ('(version, loaded) ← ask_ok (LoadActorState actor (rt_endpoint rt) e);
     if version =? 0
     then lift (ensure (is_empty loaded) "uninitialized actor has state");; mret (CachedActorState_new e)
     else lift (from_loaded e version loaded)) (loaded_state t rt).
Proof.
  intros Hne Hw. apply m_bind, m_ask_ok. intros r.
  assert (Hx : forall r, executions (t ++ [Event (LoadActorState actor (rt_endpoint rt) e) r])%list = executions t)
    by (intros; by rewrite executions_idle).
  assert (Hw' : forall r, writes (t ++ [Event (LoadActorState actor (rt_endpoint rt) e) r])%list = [])
    by (intros; by rewrite writes_silent).
  destruct r as [[version loaded]|err]; [|split; [apply Hx|apply Hw']].
  destruct (version =? 0) eqn:Ev.
  - apply m_bind, m_lift. destruct (ensure _ _); [|split; [apply Hx|apply Hw']]. apply m_ret.
    split; [apply Hx|]. split_and!; [done| |done|intros c0 Ha Hb; by destruct (Hne c0)].
    apply cached_inv_init; [apply Hw'|done|by left].
  - apply m_lift. split; [apply Hx|]. destruct (from_loaded _ _ _) as [c|err] eqn:El; [|apply Hw'].
    set (ev := Event (LoadActorState actor (rt_endpoint rt) e) (Ok (version, loaded))).
    destruct (from_loaded_ok e version loaded c (t ++ [ev])%list ev El) as (Hc & He & Hp); [set_solver|done|].
    split_and!; [done| |done|intros c0 Ha Hb; by destruct (Hne c0)].
    apply cached_inv_init; [apply Hw'|done|exact Hc].
Qed.

Lemma take_or_load_state_ok t rt actor :
  rt_inv t rt -> triple t rt (take_or_load_state actor e) (loaded_state t rt).
Proof.
  intros Hi. unfold take_or_load_state. apply m_bind, m_get. apply m_bind, m_put. unfold rt_inv in Hi.
  destruct (rt_cached_state rt) as [c|] eqn:Ec.
  2: { apply load_state_ok; [by rewrite Ec|done]. }
  destruct Hi as [Hi He]. destruct (ca_owner_epoch c =? e) eqn:Ee; bools.
  - apply m_ret. split; [done|]. split_and!; [done|done|done|]. rewrite Ec. congruence.
  - destruct He as [?|[Hw _]]; [done|]. apply load_state_ok; [rewrite Ec; congruence|done].
Qed.

(** ** Before an execution *)
Definition resolved (t : list event) (rt : ActorRuntime)
  (t' : list event) (rt' : ActorRuntime) (r : Result (CachedActorState * Result unit)) : Prop :=
  executions t' = executions t /\
  match r with
  | Ok (c, fin) => cached_inv t' c /\ ca_owner_epoch c = e /\ (fin = Ok () -> ca_pending c = None) /\
      (forall c0, rt_cached_state rt = Some c0 -> ca_owner_epoch c0 = e -> ca_pending c0 = None ->
         fin = Ok () /\ c = c0)
  | Err _ => rt_inv t' rt'
  end.

Lemma resolve_pending_ok t rt i :
  rt_inv t rt -> triple t rt (resolve_pending i e) (resolved t rt).
Proof using snapshot_json value_json.
  intros Hi. unfold resolve_pending. apply m_bind. eapply m_mono; [by apply take_or_load_state_ok|].
  intros t1 rt1 [c|err] [Hx Hr]; [|by split]. destruct Hr as (-> & Hc & He & Hsame).
  apply m_bind, m_get. apply m_with_cached. eapply m_mono; [by apply finish_pending_commit_ok|].
  intros t2 c2 r (Hi2 & Hx2 & He2 & Hok & Hfin). split; [congruence|]. cbn.
  split_and!; [done|congruence|intros ->; by apply Hfin|].
  intros c0 Hc0 He0 Hp0. rewrite (Hsame c0 Hc0 He0), Hp0 in *. rewrite (Hok eq_refl) in *.
  split; [done|]. by destruct (Hfin eq_refl).
Qed.

(** The runtime is at rest on a confirmed state. *)
Definition ready (rt : ActorRuntime) (c : CachedActorState) : Prop :=
  rt_cached_state rt = Some c /\ ca_owner_epoch c = e /\ ca_pending c = None.

Definition prepared (i : ActorInvocation) (replays : bool) (t : list event) (rt : ActorRuntime)
  (t' : list event) (rt' : ActorRuntime) (r : Result PreparedInvocation) : Prop :=
  executions t' = executions t /\ rt_inv t' rt' /\
  (forall st, r = Ok (Execute st) -> exists c, ready rt' c /\ ca_state c = st) /\
  (forall res eff, r = Ok (PreparedCompleted (Completed res eff)) ->
     exists c, ready rt' c /\ ca_last_request_id c = Some (request_id i) /\ ca_last_result c = Some res) /\
  (forall c0 res, ready rt c0 -> replays = true -> replay c0 (request_id i) = Some res ->
     forall x, r = Ok x -> x = PreparedCompleted (Completed res [])) /\
  (forall c0 x, ready rt c0 -> r = Ok x -> ready rt' c0).

Lemma prepare_invocation_ok i replays t rt :
  rt_inv t rt -> triple t rt (prepare_invocation i e replays) (prepared i replays t rt).
Proof using snapshot_json value_json.
  intros Hi. unfold prepare_invocation. apply m_bind, m_ask_ok. intros r.
  destruct (rt_inv_idle EnsureAuthority r t rt eq_refl Hi) as [Hi1 Hx1].
  assert (Hfail : forall t' rt' err, executions t' = executions t -> rt_inv t' rt' ->
    prepared i replays t rt t' rt' (Err err)) by (intros; split_and!; done).
  destruct r as [[]|err]; [|by apply Hfail].
  apply m_bind. eapply m_mono; [by apply resolve_pending_ok|]. intros t2 rt2 r2 [Hx2 Hr2].
  rewrite Hx1 in Hx2. destruct r2 as [[c fin]|err]; [|by apply Hfail].
  destruct Hr2 as (Hc & He & Hfin & Hsame).
  assert (Hi2 : rt_inv t2 (set_cached (Some c) rt2)) by (by apply rt_inv_cached).
  apply m_bind. unfold put_cached. apply m_bind, m_get, m_put.
  destruct fin as [[]|err].
  2: { apply m_ret. split_and!; [done|done|done|done|..]; intros c0 res (Hc0 & He0 & Hp0);
       by destruct (Hsame c0 Hc0 He0 Hp0). }
  assert (Hready : ready (set_cached (Some c) rt2) c) by (split_and!; [done|done|by apply Hfin]).
  assert (Hrep : forall c0 res, ready rt c0 -> replays = true -> replay c0 (request_id i) = Some res ->
    (if replays then replay c (request_id i) else None) = Some res).
  { intros c0 res (Hc0 & He0 & Hp0) -> Hres. by destruct (Hsame c0 Hc0 He0 Hp0) as [_ ->]. }
  assert (Hkeep : forall c0 (x : PreparedInvocation), ready rt c0 -> Ok x = Ok x ->
    ready (set_cached (Some c) rt2) c0).
  { intros c0 x (Hc0 & He0 & Hp0) _. by destruct (Hsame c0 Hc0 He0 Hp0) as [_ <-]. }
  destruct (if replays then _ else _) as [res|] eqn:Er; apply m_ret.
  - split_and!; [done|done|done| | |].
    + intros res' eff [= <- <-]. exists c. split; [done|]. destruct replays; [|done].
      unfold replay in Er. case_bool_decide; [|done]. done.
    + intros c0 res' Hr0 Hrp Hres x [= <-]. pose proof (Hrep c0 res' Hr0 Hrp Hres). congruence.
    + intros c0 x Hr0 _. by apply (Hkeep c0 x).
  - split_and!; [done|done| |done| |].
    + intros st [= <-]. exists c. done.
    + intros c0 res' Hr0 Hrp Hres. by pose proof (Hrep c0 res' Hr0 Hrp Hres).
    + intros c0 x Hr0 _. by apply (Hkeep c0 x).
Qed.

(** ** After an execution *)
Lemma evict_ok actor t rt (Q : list event -> ActorRuntime -> Result unit -> Prop) :
  (forall t' x, t' = (t ++ [Event (Evict actor) x])%list -> Q t' rt (Ok ())) -> triple t rt (evict actor) Q.
Proof. intros HQ. unfold evict. apply m_bind, m_ask. intros x. apply m_ret. by eapply HQ. Qed.

Definition kept (t : list event) (rt : ActorRuntime) (t' : list event) (rt' : ActorRuntime) : Prop :=
  rt' = rt /\ rt_inv t' rt /\ executions t' = executions t.

Lemma method_result_ok i outcome t rt :
  rt_inv t rt -> triple t rt (method_result i outcome) (fun t' rt' r => kept t rt t' rt' /\
    exists x, r = Ok x /\
    match x with
    | Executes (res, st, eff) => outcome = Ok (MethodCompleted res st eff)
    | Answer a => exists f, a = Failed f
    end).
Proof.
  intros Hi. unfold method_result, failed.
  assert (Hev : forall (x : Executed (Value * Value * list ActorSocketEffect)),
    (exists f, x = Answer (Failed f)) ->
    triple t rt (evict (inv_actor i);; mret x) (fun t' rt' r => kept t rt t' rt' /\
      exists x, r = Ok x /\ match x with
        | Executes (res, st, eff) => outcome = Ok (MethodCompleted res st eff)
        | Answer a => exists f, a = Failed f end)).
  { intros x (f & ->). apply m_bind, evict_ok. intros t' u ->. apply m_ret.
    destruct (rt_inv_idle (Evict (inv_actor i)) u t rt eq_refl Hi) as [Hi' Hx].
    split; [split_and!; done|]. eexists. split; [done|]. by exists f. }
  destruct outcome as [[o|res st eff|f]|err].
  - apply m_ret. split; [done|]. eexists. split; [done|]. by eexists.
  - destruct (validate_socket_effects eff) as [[]|err]; [|apply Hev; eauto].
    apply m_ret. split; [done|]. by eexists.
  - destruct (_ || _); apply m_bind; [apply m_ret, m_ret|].
    { split; [done|]. eexists. split; [done|]. by eexists. }
    apply evict_ok. intros t' u ->. apply m_ret.
    destruct (rt_inv_idle (Evict (inv_actor i)) u t rt eq_refl Hi) as [Hi' Hx].
    split; [split_and!; done|]. eexists. split; [done|]. by eexists.
  - apply Hev. eauto.
Qed.

Lemma complete_with_state_ok actor version res effects t rt :
  rt_inv t rt -> triple t rt (complete_with_state actor version res effects) (fun t' rt' r =>
    kept t rt t' rt' /\ forall res' eff', r = Ok (Completed res' eff') -> res' = res).
Proof.
  intros Hi. unfold complete_with_state. apply m_bind, m_ask_ok. intros r.
  destruct (rt_inv_idle EnsureAuthority r t rt eq_refl Hi) as [Hi1 Hx1].
  destruct r as [[]|err]; [|split; [split_and!; done|done]].
  apply m_bind. destruct (is_nil _).
  - apply m_ret, m_ret. split; [split_and!; done|]. by intros ? ? [= <- <-].
  - apply m_ask. intros x. set (t1 := (t ++ _)%list) in *.
    destruct (rt_inv_idle (Publish actor (set_effect_version version <$> filter (fun e => is_state_effect e = true) effects))
      x t1 rt eq_refl Hi1) as [Hi2 Hx2].
    destruct x as [[]|err]; apply m_ret; (split; [split_and!; [done|done|congruence]|]); [|done].
    by intros ? ? [= <- <-].
Qed.

(** What an acknowledged execution leaves behind *)
Definition finished (res st : Value) (t t' : list event) (rt' : ActorRuntime)
  (r : Result ActorExecutionResult) : Prop :=
  rt_inv t' rt' /\ executions t' = executions t /\
  forall res' eff', r = Ok (Completed res' eff') ->
    res' = res /\ exists c, ready rt' c /\ ca_state c = Some st.

(** Reporting a state that is cached *)
Lemma report_ok actor res st effects c t0 t rt version :
  cached_inv t c -> ca_owner_epoch c = e -> ca_pending c = None -> ca_state c = Some st ->
  executions t = executions t0 ->
  triple t (set_cached (Some c) rt) (complete_with_state actor version res effects)
    (finished res st t0).
Proof.
  intros Hi He Hp Hs Hx. eapply m_mono; [by apply complete_with_state_ok, rt_inv_cached|].
  intros t' rt' r [(-> & Hi' & Hx') Hr]. split_and!; [done|congruence|].
  intros res' eff' E. split; [by eapply Hr|]. by exists c.
Qed.

(** Publishing a new state, then reporting it *)
Lemma publish_and_report f host i res st effects origin c t rt :
  cached_inv t c -> ca_owner_epoch c = e -> ca_pending c = None ->
  triple t rt
    ('(cached, published) ← with_cached c (publish_result host i e res st origin);
     (if is_ok published then mret () else evict (inv_actor i));;
     put_cached cached;;
     match published with
     | Ok (Completed x _) => complete_with_state (inv_actor i) (ca_state_version cached) (f x) effects
     | Ok r => mret r
     | Err _ => mret unknown_outcome
     end) (finished (f res) st t).
Proof using snapshot_json value_json.
  intros Hi He Hp. apply m_bind, m_with_cached. eapply m_mono; [by apply publish_result_ok|].
  intros t1 c1 r (Hi1 & Hx1 & He1 & Hr). rewrite He in He1.
  apply m_bind. destruct r as [x|err]; cbn [is_ok].
  - destruct (Hr x eq_refl) as (-> & Hp1 & Hs1 & _). apply m_ret.
    apply m_bind. unfold put_cached. apply m_bind, m_get, m_put.
    by apply (report_ok _ _ _ _ _ _ _ rt).
  - apply evict_ok. intros t' u ->. apply m_bind. unfold put_cached. apply m_bind, m_get, m_put, m_ret.
    destruct (rt_inv_idle (Evict (inv_actor i)) u t1 (set_cached (Some c1) rt) eq_refl)
      as [Hi2 Hx2]; [by apply rt_inv_cached|]. split_and!; [done|congruence|done].
Qed.

Lemma finish_method_ok i res st effects origin c t rt :
  ready rt c -> rt_inv t rt ->
  triple t rt (finish_method i e (Executes (res, st, effects)) origin) (finished res st t).
Proof using snapshot_json value_json.
  intros (Hc & He & Hp) Hi. unfold rt_inv in Hi. rewrite Hc in Hi. destruct Hi as [Hi _].
  unfold finish_method. apply m_bind, m_get. apply m_bind, m_put. apply m_bind, m_lift.
  rewrite Hc. cbn [with_context]. case_bool_decide as Es.
  - apply m_bind. unfold put_cached. apply m_bind, m_get, m_put.
    by apply (report_ok _ _ _ _ _ _ _ (set_cached None rt)).
  - exact (publish_and_report (fun x => x) (rt_endpoint rt) i res st effects origin c t _ Hi He Hp).
Qed.

(** * Operations of the serial loop *)
Definition invoked (i : ActorInvocation) (t : list event) (rt : ActorRuntime)
  (t' : list event) (rt' : ActorRuntime) (r : Result ActorExecutionResult) : Prop :=
  rt_inv t' rt' /\
  (forall res eff, r = Ok (Completed res eff) -> exists c, ready rt' c /\
     (executions t' = executions t /\ ca_last_request_id c = Some (request_id i) /\
        ca_last_result c = Some res \/
      exists st0 st effs,
        executions t' = (executions t ++ [(st0, Ok (MethodCompleted res st effs))])%list /\
        ca_state c = Some st)) /\
  (forall c0 res, ready rt c0 -> replay c0 (request_id i) = Some res ->
     executions t' = executions t /\ forall x, r = Ok x -> x = Completed res []).

Lemma invoke_actor_once_ok i t rt :
  rt_inv t rt -> triple t rt (invoke_actor_once i e) (invoked i t rt).
Proof using snapshot_json value_json.
  intros Hi. unfold invoke_actor_once. apply m_bind. eapply m_mono; [by apply prepare_invocation_ok|].
  intros t1 rt1 r (Hx1 & Hi1 & Hexec & Hdone & Hrep & _).
  destruct r as [[st|x]|err].
  - destruct (Hexec st eq_refl) as (c & Hready & Hst).
    assert (Hnot : forall c0 res, ready rt c0 -> replay c0 (request_id i) = Some res -> False).
    { intros c0 res Hr0 Hres. by pose proof (Hrep c0 res Hr0 eq_refl Hres _ eq_refl). }
    apply m_bind. unfold execute_method. apply m_bind, m_ask. intros outcome. set (t2 := (t1 ++ _)%list).
    assert (Hx2 : executions t2 = (executions t ++ [(st, outcome)])%list).
    { unfold t2. by rewrite executions_app, Hx1. }
    assert (Hi2 : rt_inv t2 rt1) by (by apply rt_inv_silent).
    eapply m_mono; [by apply method_result_ok|].
    intros t3 rt3 r [(-> & Hi3 & Hx3) (x & -> & Hx)]. destruct x as [[[res nst] eff]|a].
    + subst outcome. eapply m_mono; [by eapply finish_method_ok|].
      intros t4 rt4 r (Hi4 & Hx4 & Hr4). split; [done|]. split; [|intros ? ? ? ?; exfalso; by eapply Hnot].
      intros res' eff' E. destruct (Hr4 res' eff' E) as (-> & c' & Hc' & Hs'). exists c'.
      split; [done|]. right. exists st, nst, eff. split; [congruence|done].
    + destruct Hx as [f ->]. apply m_ret. split; [done|].
      split; [done|intros ? ? ? ?; exfalso; by eapply Hnot].
  - apply m_ret. split; [done|]. split.
    + intros res eff [= ->]. destruct (Hdone res eff eq_refl) as (c & Hc & Hl). exists c.
      split; [done|]. left. split; [done|exact Hl].
    + intros c0 res Hr0 Hres. split; [done|]. intros y [= <-].
      pose proof (Hrep c0 res Hr0 eq_refl Hres _ eq_refl). congruence.
  - split; [done|]. split; [done|]. done.
Qed.

(** The last request was a successful check of the host's authority. *)
Definition authority_last (t : list event) : Prop :=
  exists t0, t = (t0 ++ [Event EnsureAuthority (Ok ())])%list.

(** Checks before and after *)
Lemma guarded_ok (m : M ActorRuntime ActorExecutionResult) Q t rt :
  rt_inv t rt ->
  (forall t1, rt_inv t1 rt -> executions t1 = executions t -> triple t1 rt m Q) ->
  (forall t' rt' r x, Q t' rt' r -> Q (t' ++ [Event EnsureAuthority x])%list rt' r) ->
  (forall t' rt' r err, Q t' rt' r -> Q t' rt' (Err err)) ->
  (forall t1 err, rt_inv t1 rt -> executions t1 = executions t -> Q t1 rt (Err err)) ->
  triple t rt (ask_ok EnsureAuthority;; outcome ← try m; ask_ok EnsureAuthority;; lift outcome)
    (fun t' rt' r => Q t' rt' r /\ forall x, r = Ok x -> authority_last t').
Proof.
  intros Hi Hm Happ Herr Hstart. apply m_bind, m_ask_ok. intros r.
  destruct (rt_inv_idle EnsureAuthority r t rt eq_refl Hi) as [Hi1 Hx1].
  destruct r as [[]|err]; [|split; [by apply Hstart|done]].
  apply m_bind, m_try. eapply m_mono; [by apply Hm|]. intros t2 rt2 r HQ.
  apply m_bind, m_ask_ok. intros x. apply (Happ _ _ _ x) in HQ.
  destruct x as [[]|err]; [|split; [by eapply Herr|done]].
  apply m_lift. split; [done|]. intros y _. by exists t2.
Qed.

Lemma invoke_actor_ok i t rt :
  rt_inv t rt -> triple t rt (invoke_actor i e)
    (fun t' rt' r => invoked i t rt t' rt' r /\ forall x, r = Ok x -> authority_last t').
Proof using snapshot_json value_json.
  intros Hi. apply guarded_ok; [done|..].
  - intros t1 Hi1 Hx1. eapply m_mono; [by apply invoke_actor_once_ok|].
    unfold invoked. rewrite Hx1. done.
  - intros t' rt' r x (Hi' & Hd & Hr). unfold invoked.
    destruct (rt_inv_idle EnsureAuthority x t' rt' eq_refl Hi') as [Hi2 ->]. done.
  - intros t' rt' r err (Hi' & _ & Hr). split; [done|]. split; [done|].
    intros c0 res Hr0 Hres. split; [by eapply Hr|done].
  - intros t1 err Hi1 Hx1. split_and!; done.
Qed.

(** Socket events are executed the same way, without replay. *)
Definition socket_handled (t : list event) (t' : list event) (rt' : ActorRuntime)
  (r : Result ActorExecutionResult) : Prop :=
  rt_inv t' rt' /\
  forall res eff, r = Ok (Completed res eff) -> res = Null /\ exists c st0 st effs, ready rt' c /\
    executions t' = (executions t ++ [(st0, Ok (MethodCompleted Null st effs))])%list /\
    ca_state c = Some st.

Lemma execute_socket_event_ok i st t c rt :
  cached_inv t c -> ca_owner_epoch c = e ->
  triple t rt (execute_socket_event i st) (fun t' rt' r => rt' = rt /\ cached_inv t' c /\
    exists x, r = Ok x /\
    match x with
    | Executes (nst, eff) => executions t' = (executions t ++ [(st, Ok (MethodCompleted Null nst eff))])%list
    | Answer a => exists f, a = Failed f
    end).
Proof.
  intros Hi He. unfold execute_socket_event, failed. apply m_bind, m_ask. intros outcome.
  set (t1 := (t ++ _)%list). assert (Hi1 : cached_inv t1 c) by (by apply cached_inv_silent).
  assert (Hx1 : executions t1 = (executions t ++ [(st, socket_as_method outcome)])%list).
  { unfold t1. by rewrite executions_app. }
  assert (Hans : forall f, rt = rt /\ cached_inv t1 c /\ exists x, Ok (Answer (Failed f)) = Ok x /\
    match x with
    | Executes (nst, eff) => executions t1 = (executions t ++ [(st, Ok (MethodCompleted Null nst eff))])%list
    | Answer a => exists f, a = Failed f
    end).
  { intros f. split_and!; [done|done|]. eexists. split; [done|]. by exists f. }
  destruct outcome as [[o|nst eff|f]|err].
  - apply m_ret, Hans.
  - destruct (validate_socket_effects eff) as [[]|err].
    + apply m_ret. split_and!; [done|done|]. by eexists.
    + apply m_bind, evict_ok. intros t' u ->. apply m_ret. split_and!; [done|by apply cached_inv_silent|].
      eexists. split; [done|]. by eexists.
  - apply m_ret, Hans.
  - apply m_ret, Hans.
Qed.

Lemma handle_socket_event_once_ok i p t rt :
  rt_inv t rt -> triple t rt (handle_socket_event_once i e p) (socket_handled t).
Proof using snapshot_json value_json.
  intros Hi. unfold handle_socket_event_once. apply m_bind. eapply m_mono; [by apply resolve_pending_ok|].
  intros t1 rt1 r [Hx1 Hr1]. destruct r as [[c fin]|err]; [|by split].
  destruct Hr1 as (Hi1 & He1 & Hfin & _). destruct fin as [[]|err].
  2: { apply m_bind. unfold put_cached. apply m_bind, m_get, m_put, m_ret.
       split; [by apply rt_inv_cached|done]. }
  specialize (Hfin eq_refl). apply m_bind. eapply m_mono; [by apply execute_socket_event_ok|].
  intros t2 rt2 r (-> & Hi2 & x & -> & Hx). destruct x as [[nst eff]|a].
  2: { destruct Hx as [f ->]. apply m_bind. unfold put_cached. apply m_bind, m_get, m_put, m_ret.
       split; [by apply rt_inv_cached|done]. }
  assert (Hdone : forall t' rt' r, finished Null nst t2 t' rt' r -> socket_handled t t' rt' r).
  { intros t' rt' r (Hi' & Hx' & Hr'). split; [done|]. intros res eff' E.
    destruct (Hr' res eff' E) as (-> & c' & Hc' & Hs'). split; [done|].
    exists c', (ca_state c), nst, eff. split_and!; [done|congruence|done]. }
  case_bool_decide as Es.
  - apply m_bind. unfold put_cached. apply m_bind, m_get, m_put.
    eapply m_mono; [by apply (report_ok _ _ nst _ c t2 t2)|]. exact Hdone.
  - apply m_bind, m_get. eapply m_mono; [|exact Hdone].
    exact (publish_and_report (fun _ => Null) (rt_endpoint rt1) p Null nst eff _ c t2 rt1 Hi2 He1 Hfin).
Qed.

Lemma handle_socket_event_ok i t rt :
  rt_inv t rt -> triple t rt (handle_socket_event i e)
    (fun t' rt' r => socket_handled t t' rt' r /\ forall x, r = Ok x -> authority_last t').
Proof using snapshot_json value_json.
  intros Hi. apply guarded_ok; [done|..].
  - intros t1 Hi1 Hx1. eapply m_mono; [by apply handle_socket_event_once_ok|].
    unfold socket_handled. rewrite Hx1. done.
  - intros t' rt' r x (Hi' & Hd). unfold socket_handled.
    destruct (rt_inv_idle EnsureAuthority x t' rt' eq_refl Hi') as [Hi2 ->]. done.
  - intros t' rt' r err (Hi' & _). by split.
  - intros t1 err Hi1 Hx1. by split.
Qed.

(** An activation changes no cached state. *)
Definition activated (t : list event) (rt : ActorRuntime) (t' : list event) (rt' : ActorRuntime)
  (r : Result ActorActivation) : Prop :=
  rt_inv t' rt' /\ executions t' = executions t /\
  forall c, rt_cached_state rt = Some c -> rt_cached_state rt' = Some c.

(** The part of [activate_actor] that fills the cache *)
Lemma activation_cache_ok actor host a t rt :
  rt_inv t rt ->
  let t1 := (t ++ [Event (AcquireActor actor host) (Ok a)])%list in
  triple t1 rt
    (match rt_cached_state rt with
     | Some _ => mret a
     | None =>
         '(cached, activation) ←
           lift (if act_state_version a =? 0
                 then Ok (CachedActorState_new (act_owner_epoch a), a)
                 else
                   bytes ← with_context (act_state a) "activation has no recovered state";
                   cached ← from_loaded (act_owner_epoch a) (act_state_version a) bytes;
                   Ok (cached, take_state a));
         put_cached cached;; mret activation
     end) (activated t rt).
Proof.
  intros Hi t1. destruct (rt_inv_idle (AcquireActor actor host) (Ok a) t rt eq_refl Hi) as [Hi1 Hx1].
  fold t1 in Hi1, Hx1. destruct (rt_cached_state rt) as [c|] eqn:Ec; [by apply m_ret|].
  unfold rt_inv in Hi1. rewrite Ec in Hi1. apply m_bind, m_lift.
  assert (Hput : forall c (x : ActorActivation), confirmed t1 c -> ca_pending c = None ->
    triple t1 rt (put_cached c;; mret x) (activated t rt)).
  { intros c x Hc Hp. apply m_bind. unfold put_cached. apply m_bind, m_get, m_put, m_ret.
    split_and!; [|done|by rewrite Ec]. split; [by apply cached_inv_init|by right]. }
  destruct (_ =? _).
  - apply Hput; [by left|done].
  - destruct (act_state a) as [bytes|] eqn:Ea; cbn [with_context mbind Result_bind].
    2: { split_and!; [|done|by rewrite Ec]. unfold rt_inv. by rewrite Ec. }
    destruct (from_loaded _ _ bytes) as [c|err] eqn:El.
    2: { split_and!; [|done|by rewrite Ec]. unfold rt_inv. by rewrite Ec. }
    destruct (from_loaded_ok _ _ _ _ t1 (Event (AcquireActor actor host) (Ok a)) El) as (Hc & _ & Hp);
      [set_solver|done|]. by apply Hput.
Qed.

Lemma activate_actor_ok actor t rt :
  rt_inv t rt -> triple t rt (ActorRuntime.activate_actor actor) (activated t rt).
Proof.
  intros Hi. unfold ActorRuntime.activate_actor. apply m_bind, m_ask_ok. intros r.
  destruct (rt_inv_idle EnsureAuthority r t rt eq_refl Hi) as [Hi1 Hx1]. set (t1 := (t ++ _)%list) in *.
  destruct r as [[]|err]; [|done]. apply m_bind, m_get.
  destruct (rt_activation rt) as [a|]; [by apply m_ret|].
  apply m_bind, m_ask_ok. intros [a|err].
  2: { destruct (rt_inv_idle (AcquireActor actor (rt_endpoint rt)) (Err err) t1 rt eq_refl Hi1) as [? ?].
       split_and!; [done|congruence|done]. }
  apply m_bind. eapply m_mono; [by apply activation_cache_ok|].
  intros t2 rt2 r (Hi2 & Hx2 & Hk2). rewrite Hx1 in Hx2. destruct r as [a'|err]; [|done].
  apply m_bind, m_get. apply m_bind, m_ask_ok. intros r.
  destruct (rt_inv_idle (Hydrate actor (rt_cached_state rt2 ≫= ca_state)) r t2 rt2 eq_refl Hi2) as [Hi3 Hx3].
  set (t3 := (t2 ++ _)%list) in *. rewrite Hx2 in Hx3. destruct r as [[]|err]; [|done].
  apply m_bind, m_ask_ok. intros r.
  destruct (rt_inv_idle EnsureAuthority r t3 rt2 eq_refl Hi3) as [Hi4 Hx4]. rewrite Hx3 in Hx4.
  destruct r as [[]|err]; [|done]. by apply m_bind, m_put, m_ret.
Qed.
End facts.

(** * Lives of a runtime *)
Section lives.
Context `{Json StateSnapshot, Json Value, Json ActorSocketEffect, Base64Std,
          !JsonLaws StateSnapshot, !JsonLaws Value}.
(** The epoch that requests carry and the host they run on *)
Context (e : Z) (host : HostId).

Inductive operation :=
| OpActivate (actor : ActorKey)
| OpMethod (i : ActorInvocation)
| OpSocket (i : ActorSocketInvocation).

(** What the loop of [run_actor] does with an admitted request *)
Definition run_operation (op : operation) : M ActorRuntime ActorExecutionResult :=
  match op with
  | OpActivate actor => try (ActorRuntime.activate_actor actor);; mret (Completed Null [])
  | OpMethod i => invoke_actor i e
  | OpSocket i => handle_socket_event i e
  end.

Inductive life : list event -> ActorRuntime -> Prop :=
| life_new : life [] (ActorRuntime_new host)
| life_step t rt op t' rt' r :
    life t rt -> runs (run_operation op rt) t' (rt', r) -> life (t ++ t')%list rt'.

Lemma life_inv t rt : life t rt -> rt_inv e t rt.
Proof.
  induction 1 as [|t rt op t' rt' r Hl IH Hr]; [done|].
  assert (Ht : triple t rt (run_operation op) (fun t' rt' _ => rt_inv e t' rt')).
  { destruct op as [actor|i|i]; cbn.
    - apply m_bind, m_try. eapply m_mono; [by apply activate_actor_ok|].
      intros t1 rt1 r1 (Hi & _). by apply m_ret.
    - eapply m_mono; [by apply invoke_actor_ok|]. by intros t1 rt1 r1 [[Hi _] _].
    - eapply m_mono; [by apply handle_socket_event_ok|]. by intros t1 rt1 r1 [[Hi _] _]. }
  exact (post_runs _ _ _ _ _ Ht Hr).
Qed.

(** C2: an acknowledged invocation is durable.  Whatever the storage, the writer,
    the user code and the clock reply, if an invocation is answered with a
    result, then the runtime holds a state that the snapshot writer has
    acknowledged or that storage handed out, nothing is left to commit, and
    either user code ran exactly once and returned this result and this state,
    or it did not run and the result is the one recorded for the same request. *)
Theorem acknowledged_is_durable t rt i t' rt' res eff :
  life t rt -> runs (invoke_actor i e rt) t' (rt', Ok (Completed res eff)) ->
  exists c, rt_cached_state rt' = Some c /\ ca_pending c = None /\ confirmed (t ++ t')%list c /\
    ((executions t' = [] /\ ca_last_request_id c = Some (request_id i) /\ ca_last_result c = Some res) \/
     exists st0 st effs, executions t' = [(st0, Ok (MethodCompleted res st effs))] /\ ca_state c = Some st).
Proof.
  intros Hl Hr. apply life_inv in Hl.
  destruct (post_runs _ _ _ _ _ (invoke_actor_ok e i t rt Hl) Hr) as [(Hi & Hdone & _) _]. cbn in *.
  destruct (Hdone res eff eq_refl) as (c & (Hc & _ & Hp) & Hcase). exists c.
  unfold rt_inv in Hi. rewrite Hc in Hi. destruct Hi as [[Hconf _ _ _] _]. split_and!; [done..|].
  rewrite executions_app in Hcase. destruct Hcase as [(Hx & Hrest)|(st0 & st & effs & Hx & Hs)].
  - left. split; [|done]. apply (app_inv_head (executions t)). by rewrite app_nil_r.
  - right. exists st0, st, effs. split; [|done]. by apply app_inv_head in Hx.
Qed.

(** C23: each version is written with one content.  Over the whole life of a
    runtime, any two writes of snapshots with the same version, also those
    repeated because the outcome of a write was unknown, carry the same bytes;
    and every snapshot is written for the epoch of the activation. *)
Theorem version_has_one_content t rt w1 w2 s1 s2 :
  life t rt -> w1 ∈ writes t -> w2 ∈ writes t ->
  StateSnapshot_decode w1.1.2 = Ok s1 -> StateSnapshot_decode w2.1.2 = Ok s2 ->
  owner_epoch s1 = e /\ (state_version s1 = state_version s2 -> w1.1.2 = w2.1.2).
Proof.
  intros Hl Hw1 Hw2 Hd1 Hd2. apply life_inv in Hl. unfold rt_inv in Hl.
  destruct (rt_cached_state rt) as [c|]; [|rewrite Hl in Hw1; by apply not_elem_of_nil in Hw1].
  destruct Hl as [[_ _ Hw Hu] _].
  destruct (Hw w1 Hw1) as (s1' & He1 & Hep & _). destruct (Hw w2 Hw2) as (s2' & He2 & _).
  destruct (encode_ok _ _ He1) as [_ Hd1']. destruct (encode_ok _ _ He2) as [_ Hd2'].
  assert (s1' = s1) as -> by congruence. assert (s2' = s2) as -> by congruence.
  split; [done|]. intros Hv. by eapply Hu.
Qed.

(** A request that is the last recorded one is not executed again.  If the
    runtime rests on a state of its epoch, with no write pending, whose last request has
    the identifier of the invocation, user code is not run, and the only successful
    answer is the recorded result. *)
Theorem recorded_request_is_replayed t rt i c res t' rt' r :
  life t rt -> rt_cached_state rt = Some c -> ca_owner_epoch c = e -> ca_pending c = None ->
  ca_last_request_id c = Some (request_id i) -> ca_last_result c = Some res ->
  runs (invoke_actor i e rt) t' (rt', r) ->
  executions t' = [] /\ forall x, r = Ok x -> x = Completed res [].
Proof.
  intros Hl Hc He Hp Hid Hres Hr. apply life_inv in Hl.
  destruct (post_runs _ _ _ _ _ (invoke_actor_ok e i t rt Hl) Hr) as [(_ & _ & Hrep) _]. cbn in *.
  destruct (Hrep c res) as [Hx Hans]; [done| |].
  - unfold replay. by rewrite Hid, bool_decide_eq_true_2.
  - split; [|done]. rewrite executions_app in Hx. apply (app_inv_head (executions t)).
    by rewrite app_nil_r.
Qed.

(** No answer without authority.  An invocation or a socket event is only
    answered (with whatever outcome) if the host's lease was confirmed by a
    check made after everything else. *)
Theorem answers_have_authority t rt op t' rt' x :
  life t rt -> (forall a, op <> OpActivate a) ->
  runs (run_operation op rt) t' (rt', Ok x) -> authority_last (t ++ t')%list.
Proof.
  intros Hl Hop Hr. apply life_inv in Hl. destruct op as [actor|i|i]; [by destruct (Hop actor)|..].
  - destruct (post_runs _ _ _ _ _ (invoke_actor_ok e i t rt Hl) Hr) as [_ Ha]. by apply (Ha x).
  - destruct (post_runs _ _ _ _ _ (handle_socket_event_ok e i t rt Hl) Hr) as [_ Ha]. by apply (Ha x).
Qed.
End lives.

(** * Example: a write whose outcome stays unknown, and its retry

    The [n]-th request gets the [n]-th answer; before the [limit]-th request the
    writer fails. *)
#[global] Instance effect_text : Json ActorSocketEffect :=
  {| to_vec := fun _ => "{}"; from_slice := fun _ => Err "unsupported" |}.

Definition sample_ticket : WritePlan :=
  {| plan_stream := {| rs_session := "S"; prefix := "p/"; rs_owner_epoch := 4; base_version := 0 |};
     plan_state_version := 1; object_name := "p/1.json"; plan_expires_at_ms := 60000;
     replication := None |}.
Definition sample_answer (limit n : nat) {X} (e : HEff X) : X :=
  match e in HEff X return X with
  | EnsureAuthority => Ok ()
  | AcquireActor _ _ => Ok {| act_owner_epoch := 4; act_state_version := 0; act_state := None |}
  | LoadActorState _ _ _ => Ok (0, "")
  | PrepareStateWrite _ _ _ _ => Ok sample_ticket
  | WriteSnapshot _ _ => if (n <? limit)%nat then Err "timeout" else Ok Written
  | UnixMillis => Ok 1000
  | Hydrate _ _ => Ok ()
  | InvokeShared _ _ => Ok (MethodCompleted (Str "done") (Object [("n", Number "1")]) [])
  | HandleSocketShared _ _ => Err "no sockets"
  | Evict _ => Ok ()
  | Publish _ _ => Ok ()
  end.
Fixpoint exec (limit n : nat) {A} (p : hprog A) : list event * A :=
  match p with
  | HRet a => ([], a)
  | HVis e k =>
      let x := sample_answer limit n e in
      let '(t, a) := exec limit (S n) (k x) in (Event e x :: t, a)
  end.
Lemma exec_runs {A} limit (p : hprog A) : forall n, runs p (exec limit n p).1 (exec limit n p).2.
Proof.
  induction p as [a|X e k IH]; intros n; cbn; [constructor|].
  specialize (IH (sample_answer limit n e) (S n)). destruct (exec limit (S n) _). by constructor.
Qed.

Definition sample_call (id : string) : ActorInvocation :=
  {| request_id := id; inv_actor := sample_actor; method := "add"; args := [] |}.
(** The first invocation: its write times out *)
Definition life1 := exec 100 0 (run_operation 4 (OpMethod (sample_call "r1")) (ActorRuntime_new "h")).
(** The same invocation again: the pending write is repeated and succeeds *)
Definition life2 := exec 0 0 (run_operation 4 (OpMethod (sample_call "r1")) life1.2.1).

Lemma life1_life : life 4 "h" life1.1 life1.2.1.
Proof.
  apply (life_step 4 "h" [] (ActorRuntime_new "h") (OpMethod (sample_call "r1")) life1.1 life1.2.1 life1.2.2);
    [constructor|]. rewrite <-surjective_pairing. apply exec_runs.
Qed.
Lemma life2_life : life 4 "h" (life1.1 ++ life2.1) life2.2.1.
Proof.
  apply (life_step 4 "h" _ life1.2.1 (OpMethod (sample_call "r1")) life2.1 life2.2.1 life2.2.2);
    [exact life1_life|]. rewrite <-surjective_pairing. apply exec_runs.
Qed.
Lemma life2_runs :
  runs (invoke_actor (sample_call "r1") 4 life1.2.1) life2.1 (life2.2.1, Ok (Completed (Str "done") [])).
Proof.
  assert (E : life2.2 = (life2.2.1, Ok (Completed (Str "done") []))) by (vm_compute; reflexivity).
  rewrite <-E. apply exec_runs.
Qed.

Lemma acknowledged_is_durable_witness :
  exists c, rt_cached_state life2.2.1 = Some c /\ ca_pending c = None /\
    confirmed (life1.1 ++ life2.1) c /\ ca_state c = Some (Object [("n", Number "1")]).
Proof.
  assert (Hs : ca_state <$> rt_cached_state life2.2.1 = Some (Some (Object [("n", Number "1")])))
    by (vm_compute; reflexivity).
  destruct (acknowledged_is_durable 4 "h" life1.1 life1.2.1 (sample_call "r1") life2.1 life2.2.1
    (Str "done") [] life1_life life2_runs) as (c & Hc & Hp & Hconf & _).
  exists c. split_and!; [exact Hc|exact Hp|exact Hconf|]. rewrite Hc in Hs. by injection Hs.
Defined.

Lemma version_has_one_content_witness :
  exists w1 w2, writes (life1.1 ++ life2.1) = [w1; w2] /\ w1.2 = Err "timeout" /\ w2.2 = Ok Written /\
    w1.1.2 = w2.1.2.
Proof.
  assert (Hw : exists w1 w2 s1 s2, writes (life1.1 ++ life2.1) = [w1; w2] /\ w1.2 = Err "timeout" /\
    w2.2 = Ok Written /\ StateSnapshot_decode w1.1.2 = Ok s1 /\ StateSnapshot_decode w2.1.2 = Ok s2 /\
    state_version s1 = state_version s2).
  { eexists _, _, _, _. repeat (split; [vm_compute; reflexivity|]). vm_compute; reflexivity. }
  destruct Hw as (w1 & w2 & s1 & s2 & Hw & E1 & E2 & D1 & D2 & Ev). exists w1, w2.
  split_and!; [exact Hw|exact E1|exact E2|].
  assert (Hi1 : w1 ∈ writes (life1.1 ++ life2.1)) by (rewrite Hw; constructor).
  assert (Hi2 : w2 ∈ writes (life1.1 ++ life2.1)) by (rewrite Hw; constructor; constructor).
  exact (proj2 (version_has_one_content 4 "h" (life1.1 ++ life2.1) life2.2.1 w1 w2 s1 s2
    life2_life Hi1 Hi2 D1 D2) Ev).
Defined.

(** The repeated invocation was answered from the record. *)
Definition life3 := exec 0 0 (run_operation 4 (OpMethod (sample_call "r1")) life2.2.1).
Lemma recorded_request_is_replayed_witness :
  executions life3.1 = [] /\ life3.2.2 = Ok (Completed (Str "done") []).
Proof.
  assert (Hc : exists c, rt_cached_state life2.2.1 = Some c /\ ca_owner_epoch c = 4 /\
    ca_pending c = None /\ ca_last_request_id c = Some "r1" /\ ca_last_result c = Some (Str "done")).
  { eexists. repeat (split; [vm_compute; reflexivity|]). vm_compute; reflexivity. }
  destruct Hc as (c & Hc & He & Hp & Hid & Hres).
  assert (Hr : runs (invoke_actor (sample_call "r1") 4 life2.2.1) life3.1 (life3.2.1, life3.2.2)).
  { rewrite <-surjective_pairing. apply exec_runs. }
  destruct (recorded_request_is_replayed 4 "h" _ life2.2.1 (sample_call "r1") c (Str "done")
    life3.1 life3.2.1 life3.2.2 life2_life Hc He Hp Hid Hres Hr) as [Hx Hans].
  split; [exact Hx|]. destruct (life3.2.2) as [x|err] eqn:E; [by rewrite (Hans x eq_refl)|].
  vm_compute in E. discriminate E.
Defined.

Lemma answers_have_authority_witness : authority_last (life1.1 ++ life2.1).
Proof.
  eapply (answers_have_authority 4 "h" life1.1 life1.2.1 (OpMethod (sample_call "r1")) life2.1 life2.2.1);
    [exact life1_life|discriminate|exact life2_runs].
Defined.
