(* ===== verification/HostStorage.v ===== *)
(** A host's view of storage: [LeaseFence] of [control_plane/client.rs] and
    [HostStorage] of [host/storage.rs].

    The fence decides, on the host's monotonic clock, whether the process may
    still act for its actor.  [HostStorage] is shared by the task that runs the
    actor and the task that renews the lease, so its methods are programs
    ([sprog]) over three kinds of requests: one critical section on its
    mutex-protected fields, the monotonic clock, and a call of [RuntimeStorage].
    Notifications to the control plane and credential refresh are left out. *)

From S2P Require Import Prelude.
From S2P Require Import Actors.
From S2P Require Import StoragePaths.
From S2P Require Import Snapshots.
From S2P Require Import ReplicaStore.
From S2P Require Import ReplicaServer.
From S2P Require Import RuntimeStorage.
From S2P Require Import SocketEffects.
From S2P Require Import ActorRuntime.
Local Open Scope string_scope.
Local Open Scope Z_scope.

(** * The fence: an [Instant] counts nanoseconds of a monotonic clock, and so does a
    [Duration]. *)
Record LeaseFence := { deadline : option Z; fenced : bool }.
Definition LeaseFence_default : LeaseFence := {| deadline := None; fenced := false |}.
Definition set_fenced (f : LeaseFence) : LeaseFence := {| deadline := deadline f; fenced := true |}.

Definition check (f : LeaseFence) (now : Z) : LeaseFence * Result unit :=
  match deadline f with
  | None => (f, Err "host lease is not confirmed yet")
  | Some d =>
      let f := if d <=? now then set_fenced f else f in
      (f, ensure (negb (fenced f)) "host session has no confirmed live lease")
  end.

Definition begin (f : LeaseFence) (now : Z) : LeaseFence * Result unit :=
  let '(f, r) := match deadline f with Some _ => check f now | None => (f, Ok ()) end in
  (f, r;; ensure (negb (fenced f)) "host session is permanently fenced").

Definition confirm (f : LeaseFence) (started duration now : Z) : LeaseFence * Result unit :=
  let '(f, r) := begin f now in
  match r with
  | Err e => (f, Err e)
  | Ok _ =>
      let window := saturating_sub duration (5000 * NS) in
      let d := started + window in
      let f := if d <=? now then set_fenced f else f in
      if fenced f then (f, Err "host lease response arrived after the safe lease window")
      else ({| deadline := Some d; fenced := fenced f |}, Ok ())
  end.

(** * [HostStorage] *)
Record HostStorage := {
  hs_host : HostId;
  hs_session : string;
  hs_region : string;
  hs_actor : option ActorKey;
  hs_new_actor : bool;
  hs_activation : option ActorActivation;
  hs_fence : LeaseFence;
  hs_lease : option HostLease }.

Definition HostStorage_new (host session reg : string) : HostStorage :=
  {| hs_host := host; hs_session := session; hs_region := reg; hs_actor := None; hs_new_actor := false;
     hs_activation := None; hs_fence := LeaseFence_default; hs_lease := None |}.
Definition with_actor (s : HostStorage) (actor : option ActorKey) (new_actor : bool) : HostStorage :=
  {| hs_host := hs_host s; hs_session := hs_session s; hs_region := hs_region s; hs_actor := actor;
     hs_new_actor := new_actor; hs_activation := hs_activation s; hs_fence := hs_fence s;
     hs_lease := hs_lease s |}.
Definition set_fence (f : LeaseFence) (s : HostStorage) : HostStorage :=
  {| hs_host := hs_host s; hs_session := hs_session s; hs_region := hs_region s; hs_actor := hs_actor s;
     hs_new_actor := hs_new_actor s; hs_activation := hs_activation s; hs_fence := f;
     hs_lease := hs_lease s |}.
Definition set_hs_activation (a : option ActorActivation) (s : HostStorage) : HostStorage :=
  {| hs_host := hs_host s; hs_session := hs_session s; hs_region := hs_region s; hs_actor := hs_actor s;
     hs_new_actor := hs_new_actor s; hs_activation := a; hs_fence := hs_fence s;
     hs_lease := hs_lease s |}.
Definition set_hs_lease (l : HostLease) (s : HostStorage) : HostStorage :=
  {| hs_host := hs_host s; hs_session := hs_session s; hs_region := hs_region s; hs_actor := hs_actor s;
     hs_new_actor := hs_new_actor s; hs_activation := hs_activation s; hs_fence := hs_fence s;
     hs_lease := Some l |}.

(** Critical sections *)
Definition check_section (now : Z) (s : HostStorage) : HostStorage * Result unit :=
  let '(f, r) := check (hs_fence s) now in (set_fence f s, r).
Definition begin_section (now : Z) (s : HostStorage) : HostStorage * Result unit :=
  let '(f, r) := begin (hs_fence s) now in (set_fence f s, r).
Definition confirm_section (started duration now : Z) (s : HostStorage) : HostStorage * Result unit :=
  let '(f, r) := confirm (hs_fence s) started duration now in (set_fence f s, r).
Definition fence_section (s : HostStorage) : HostStorage * unit := (set_fence (set_fenced (hs_fence s)) s, ()).

(** * Programs *)
(** Calls of [RuntimeStorage] *)
Inductive RtCall : Type -> Type :=
| RtActivate (actor : ActorKey) (l : HostLease) (reg : string) : RtCall LoadedActor
| RtLoadOwned (actor : ActorKey) (l : HostLease) (epoch : Z) : RtCall LoadedActor
| RtPrepareWrite (actor : ActorKey) (l : HostLease) (epoch version : Z) : RtCall WritePlan
| RtRegister (actor : ActorKey) (request : HostLeaseRequest) (reg : string) (new_actor : bool)
    : RtCall LoadedActor
| RtRenew (actor : ActorKey) (request : HostLeaseRequest) (i : ActivationInventory) : RtCall HostLease
| RtRelease (actor : ActorKey) (host : HostId) (ses : string) : RtCall unit.

Inductive SEff : Type -> Type :=
| Critical {X : Type} (f : HostStorage -> HostStorage * X) : SEff X
| InstantNow : SEff Z
| Runtime {A : Type} (c : RtCall A) : SEff (Result A).

Inductive sprog (A : Type) : Type :=
| SRet (r : Result A)
| SVis {X : Type} (e : SEff X) (k : X -> sprog A).
Arguments SRet {A} r.
Arguments SVis {A X} e k.
#[global] Instance sprog_ret : MRet sprog := fun A a => SRet (Ok a).
#[global] Instance sprog_bind : MBind sprog := fun A B f =>
  fix go (p : sprog A) : sprog B :=
    match p with
    | SRet (Ok a) => f a
    | SRet (Err e) => SRet (Err e)
    | SVis e k => SVis e (fun x => go (k x))
    end.
Definition critical {X} (f : HostStorage -> HostStorage * X) : sprog X := SVis (Critical f) (fun x => SRet (Ok x)).
Definition critical_ok {X} (f : HostStorage -> HostStorage * Result X) : sprog X :=
  SVis (Critical f) (fun r => SRet r).
Definition reads {X} (f : HostStorage -> X) : sprog X := critical (fun s => (s, f s)).
Definition instant : sprog Z := SVis InstantNow (fun t => SRet (Ok t)).
Definition runtime {A} (c : RtCall A) : sprog A := SVis (Runtime c) (fun r => SRet r).
Definition slift {A} (r : Result A) : sprog A := SRet r.

Definition ensure_authority : sprog unit :=
  now ← instant;
  critical_ok (check_section now).

Definition current_lease : sprog HostLease :=
  ensure_authority;;
  l ← reads hs_lease;
  slift (with_context l "activation lease missing").

Definition authorize_actor (actor : ActorKey) (host : HostId) : sprog unit :=
  slift (ActorKey_validate actor);;
  bound ← reads hs_actor;
  slift (ensure (match bound with None => true | Some b => bool_decide (b = actor) end)
           "actor identity mismatch");;
  self ← reads hs_host;
  slift (ensure (String.eqb host self) "host storage scope mismatch");;
  ensure_authority.

(** The inventory that a renewal reports *)
Definition register_inventory (actor : ActorKey) (residents : option (list ActorKey))
  (sockets : list ActorSocketInventory) (queues : option (list ActorQueueInventory))
  : Result ActivationInventory :=
  ensure (match residents with
          | None => true
          | Some l => (length l <=? 1)%nat && forallb (fun a => bool_decide (a = actor)) l
          end) "resident actor scope mismatch";;
  ensure (forallb (fun s => bool_decide (si_actor s = actor)) sockets
          && (match queues with
              | None => true
              | Some l => forallb (fun q => bool_decide (qi_actor q = actor)) l
              end)) "inventory actor scope mismatch";;
  Ok {| inv_resident := option_map (fun l => bool_decide (actor ∈ l)) residents;
        inv_connections := sockets ≫= si_connections;
        inv_waiting := option_map (fun l => l ≫= qi_waiting) queues |}.

Definition loaded_activation (l : LoadedActor) : ActorActivation :=
  {| act_owner_epoch := pl_owner_epoch (placement l);
     act_state_version := pl_state_version (placement l);
     act_state := loaded_state l |}.

Definition acquire_actor (actor : ActorKey) (host : HostId) : sprog ActorActivation :=
  authorize_actor actor host;;
  taken ← critical (fun s => (set_hs_activation None s, hs_activation s));
  match taken with
  | Some activation => mret activation
  | None =>
      l ← reads hs_lease;
      l ← slift (with_context l "host lease missing");
      reg ← reads hs_region;
      loaded ← runtime (RtActivate actor l reg);
      ensure_authority;;
      mret (loaded_activation loaded)
  end.

Definition load_actor_state (actor : ActorKey) (host : HostId) (epoch : Z) : sprog (Z * string) :=
  authorize_actor actor host;;
  l ← reads hs_lease;
  l ← slift (with_context l "host lease missing");
  loaded ← runtime (RtLoadOwned actor l epoch);
  ensure_authority;;
  mret (pl_state_version (placement loaded), default "" (loaded_state loaded)).

Definition prepare_state_write (actor : ActorKey) (host : HostId) (epoch version : Z) : sprog WritePlan :=
  authorize_actor actor host;;
  l ← reads hs_lease;
  l ← slift (with_context l "host lease missing");
  next ← slift (with_context (checked_add version 1) "state version overflow");
  ticket ← runtime (RtPrepareWrite actor l epoch next);
  ensure_authority;;
  mret ticket.

(** The first registration takes the actor over; later ones renew. *)
Definition register_with_inventory (request : HostLeaseRequest)
  (residents : option (list ActorKey)) (sockets : list ActorSocketInventory)
  (queues : option (list ActorQueueInventory)) : sprog HostLease :=
  self ← reads (fun s => (hs_host s, hs_session s));
  slift (ensure (String.eqb (req_id request) self.1 && String.eqb (req_session_id request) self.2)
           "host lease scope mismatch");;
  started ← instant;
  critical_ok (begin_section started);;
  bound ← reads hs_actor;
  actor ← slift (with_context bound "host actor identity missing");
  inventory ← slift (register_inventory actor residents sockets queues);
  current ← reads hs_lease;
  l ← (match current with
       | None =>
           place ← reads (fun s => (hs_region s, hs_new_actor s));
           loaded ← runtime (RtRegister actor request place.1 place.2);
           critical (fun s => (set_hs_activation (Some (loaded_activation loaded)) s, ()));;
           mret (pl_lease (placement loaded))
       | Some _ => runtime (RtRenew actor request inventory)
       end);
  now ← instant;
  critical_ok (confirm_section started (duration_ms request * NS) now);;
  critical (fun s => (set_hs_lease l s, ()));;
  mret l.

Definition register (request : HostLeaseRequest) : sprog HostLease :=
  register_with_inventory request None [] None.

Definition unregister (host : HostId) (ses : string) : sprog unit :=
  self ← reads (fun s => (hs_host s, hs_session s));
  slift (ensure (String.eqb host self.1 && String.eqb ses self.2) "host lease scope mismatch");;
  critical fence_section;;
  bound ← reads hs_actor;
  actor ← slift (with_context bound "host actor identity missing");
  runtime (RtRelease actor host ses).

(** What the calls are.  [fuel] bounds the retry loops of the runtime. *)
Section calls.
Context `{Base64Url, Sha256, Hmac, UrlParser, Json ReplicaGrant, Json StateSnapshot,
          Json Ownership, Json Session, Json StateRecord}.

Definition rt_code (config : Config) (fuel : nat) {A} (c : RtCall A) : prog A :=
  match c in RtCall A return prog A with
  | RtActivate actor l reg => RuntimeStorage.activate_actor actor l reg
  | RtLoadOwned actor l epoch => load_owned_actor actor l epoch
  | RtPrepareWrite actor l epoch version => prepare_actor_write config actor l epoch version
  | RtRegister actor request reg new_actor => register_activation fuel actor request reg new_actor
  | RtRenew actor request i => renew_activation actor request i
  | RtRelease actor host ses => release_activation actor host ses
  end.
End calls.
