(* ===== verification/LeaseSafety.v ===== *)
(** The fence of a host lapses before its actor can be taken over.

    A timed system: the methods of [HostStorage] run in any number of tasks of
    one host, interleaved at every request; storage keeps the expiry of the
    host's lease; another host takes over once the expiry lies in its past.
    Instants are nanoseconds of the host's monotonic clock.  Its wall clock is that
    clock plus an offset, because [SystemClock] is anchored once, and [now_ms] cuts
    a reading down to whole milliseconds.  The other host reads its own clock in the
    same way; how far ahead that clock may be is a parameter. *)

From S2P Require Import Prelude.
From S2P Require Import Actors.
From S2P Require Import StoragePaths.
From S2P Require Import Snapshots.
From S2P Require Import ReplicaStore.
From S2P Require Import ReplicaServer.
From S2P Require Import RuntimeStorage.
From S2P Require Import SocketEffects.
From S2P Require Import ActorRuntime.
From S2P Require Import HostStorage.
Local Open Scope string_scope.
Local Open Scope Z_scope.

Record Timed := {
  now : Z;
  the_host : HostStorage;
  (* the host's lease in storage: generation and expiry *)
  stored_gen : Z;
  stored_expiry : Z;
  (* the instant at which another host took the actor over *)
  taken_at : option Z }.

Definition set_now (t : Z) (w : Timed) : Timed :=
  {| now := t; the_host := the_host w; stored_gen := stored_gen w; stored_expiry := stored_expiry w;
     taken_at := taken_at w |}.
Definition set_host (h : HostStorage) (w : Timed) : Timed :=
  {| now := now w; the_host := h; stored_gen := stored_gen w; stored_expiry := stored_expiry w;
     taken_at := taken_at w |}.
Definition store_expiry (v : Z) (w : Timed) : Timed :=
  {| now := now w; the_host := the_host w; stored_gen := stored_gen w + 1; stored_expiry := v;
     taken_at := taken_at w |}.
Definition take_over (w : Timed) : Timed :=
  {| now := now w; the_host := the_host w; stored_gen := stored_gen w + 1;
     stored_expiry := stored_expiry w; taken_at := Some (now w) |}.
Definition is_fenced (w : Timed) : Prop := fenced (hs_fence (the_host w)) = true.

(** * Tasks *)
Inductive HostOp :=
| ORegister (request : HostLeaseRequest) (residents : option (list ActorKey))
    (sockets : list ActorSocketInventory) (queues : option (list ActorQueueInventory))
| OUnregister (host : HostId) (ses : string)
| OAcquire (actor : ActorKey) (host : HostId)
| OLoad (actor : ActorKey) (host : HostId) (epoch : Z)
| OPrepare (actor : ActorKey) (host : HostId) (epoch version : Z)
| OCurrentLease
| OEnsureAuthority.

Definition op_code (o : HostOp) : sprog unit :=
  match o with
  | ORegister r residents sockets queues => register_with_inventory r residents sockets queues;; mret ()
  | OUnregister h s => unregister h s
  | OAcquire a h => acquire_actor a h;; mret ()
  | OLoad a h e => load_actor_state a h e;; mret ()
  | OPrepare a h e v => prepare_state_write a h e v;; mret ()
  | OCurrentLease => current_lease;; mret ()
  | OEnsureAuthority => ensure_authority
  end.

(** How far a storage call of a task is: it read the record and computed a new
    expiry, or its compare-and-swap was applied. *)
Inductive phase := Idle | Stamped (gen value : Z) | Landed (value : Z).

(** The calls that write a new expiry, with the duration they ask for *)
Definition stamps {A} (c : RtCall A) : option Z :=
  match c with
  | RtRegister _ r _ _ | RtRenew _ r _ => Some (duration_ms r)
  | _ => None
  end.
Definition releases {A} (c : RtCall A) : bool := match c with RtRelease _ _ _ => true | _ => false end.

Section timed.
(** Offset of the host's wall clock, the other host's wall clock (both in nanoseconds)
    and the lease duration in milliseconds that the host always asks for *)
Context (off : Z) (other_clock : Z -> Z) (d : Z).
(** [SystemClock::now_ms] at an instant *)
Definition now_ms (t : Z) : Z := (off + t) / NS.

Definition op_allowed (o : HostOp) : Prop :=
  match o with ORegister r _ _ _ => duration_ms r = d | _ => True end.

Definition Task : Type := sprog unit * phase.
Definition Config : Type := Timed * list Task.

Inductive timed_step : Config -> Config -> Prop :=
| t_tick w ts t : now w <= t -> timed_step (w, ts) (set_now t w, ts)
| t_spawn w ts o : op_allowed o -> timed_step (w, ts) (w, ts ++ [(op_code o, Idle)])%list
| t_critical w ts1 ts2 X (f : HostStorage -> HostStorage * X) k :
    timed_step (w, ts1 ++ (SVis (Critical f) k, Idle) :: ts2)%list
      (set_host (f (the_host w)).1 w, ts1 ++ (k (f (the_host w)).2, Idle) :: ts2)%list
| t_instant w ts1 ts2 k :
    timed_step (w, ts1 ++ (SVis InstantNow k, Idle) :: ts2)%list (w, ts1 ++ (k (now w), Idle) :: ts2)%list
| t_stamp w ts1 ts2 A (c : RtCall A) k dur :
    (* the record still names this session *)
    stamps c = Some dur -> taken_at w = None ->
    timed_step (w, ts1 ++ (SVis (Runtime c) k, Idle) :: ts2)%list
      (w, ts1 ++ (SVis (Runtime c) k, Stamped (stored_gen w) (now_ms (now w) + dur)) :: ts2)%list
| t_land w ts1 ts2 A (c : RtCall A) k v :
    timed_step (w, ts1 ++ (SVis (Runtime c) k, Stamped (stored_gen w) v) :: ts2)%list
      (store_expiry v w, ts1 ++ (SVis (Runtime c) k, Landed v) :: ts2)%list
| t_release w ts1 ts2 A (c : RtCall A) k ph :
    releases c = true ->
    timed_step (w, ts1 ++ (SVis (Runtime c) k, ph) :: ts2)%list
      (store_expiry 0 w, ts1 ++ (SVis (Runtime c) k, ph) :: ts2)%list
| t_reply_ok w ts1 ts2 A (c : RtCall A) k ph x :
    (stamps c = None \/ exists v, ph = Landed v) ->
    timed_step (w, ts1 ++ (SVis (Runtime c) k, ph) :: ts2)%list (w, ts1 ++ (k (Ok x), Idle) :: ts2)%list
| t_reply_err w ts1 ts2 A (c : RtCall A) k ph err :
    timed_step (w, ts1 ++ (SVis (Runtime c) k, ph) :: ts2)%list (w, ts1 ++ (k (Err err), Idle) :: ts2)%list
| t_takeover w ts :
    stored_expiry w <= other_clock (now w) / NS -> taken_at w = None ->
    timed_step (w, ts) (take_over w, ts).

(** How far ahead the other host's clock may be, in nanoseconds *)
Context (skew : Z).

Lemma now_ms_mono t t' : t <= t' -> now_ms t <= now_ms t'.
Proof. intros Ht. apply Z.div_le_mono; [done|lia]. Qed.
Lemma now_ms_bounds t : now_ms t * NS <= off + t < (now_ms t + 1) * NS.
Proof.
  unfold now_ms, NS. pose proof (Z.div_mod (off + t) 1000000). pose proof (Z.mod_pos_bound (off + t) 1000000). lia.
Qed.

(** * Invariant *)
Record inv (w : Timed) : Prop := {
  (* the deadline lies five seconds before the stored expiry, but for the part of a
     millisecond that the reading behind the expiry has lost *)
  inv_deadline : forall D, ~ is_fenced w -> deadline (hs_fence (the_host w)) = Some D ->
    off + D + 5000 * NS < (stored_expiry w + 1) * NS;
  (* nothing expires later than a lease stamped now would *)
  inv_expiry : stored_expiry w <= now_ms (now w) + d;
  inv_epoch : 0 <= now_ms (now w) + d;
  inv_taken : forall t, taken_at w = Some t -> is_fenced w \/ stored_expiry w * NS <= off + t + skew }.

(** What other tasks may change *)
Record later (w w' : Timed) : Prop := {
  l_now : now w <= now w';
  l_fenced : is_fenced w -> is_fenced w';
  l_gen : stored_gen w <= stored_gen w';
  l_same : stored_gen w' = stored_gen w ->
    stored_expiry w' = stored_expiry w /\ taken_at w' = taken_at w;
  l_expiry : is_fenced w' \/ stored_expiry w <= stored_expiry w' }.

Lemma later_refl w : later w w.
Proof. split; auto with lia. Qed.
Lemma lease_later_trans a b c : later a b -> later b c -> later a c.
Proof.
  intros [N1 F1 G1 S1 E1] [N2 F2 G2 S2 E2]. split; [lia|auto|lia| |].
  - intros E. destruct S2 as [-> ->]; [lia|]. apply S1. lia.
  - destruct E2 as [?|E2]; [by left|]. destruct E1 as [?|E1]; [left; auto|right; lia].
Qed.

#[local] Hint Resolve later_refl lease_later_trans : actors.

(** * Correct tasks: every critical section keeps the invariant, a release is
    only issued by a fenced host *)
Fixpoint ok {A} (p : sprog A) (Q : Result A -> Timed -> Prop) (w : Timed) : Prop :=
  match p with
  | SRet r => Q r w
  | SVis e k =>
      match e in SEff X return (X -> Timed -> Prop) -> Prop with
      | Critical f => fun next => forall w1, later w w1 -> inv w1 ->
          let w2 := set_host (f (the_host w1)).1 w1 in
          inv w2 /\ (is_fenced w1 -> is_fenced w2) /\ next (f (the_host w1)).2 w2
      | InstantNow => fun next => forall w1, later w w1 -> next (now w1) w1
      | Runtime c => fun next =>
          (releases c = true -> is_fenced w) /\
          (forall err w1, later w w1 -> next (Err err) w1) /\
          match stamps c with
          | None => forall x w1, later w w1 -> next (Ok x) w1
          | Some dur => dur = d /\
              forall x w1 w2, later w w1 -> later w1 w2 ->
                (is_fenced w2 \/ now_ms (now w1) + d <= stored_expiry w2) -> next (Ok x) w2
          end
      end (fun x w' => ok (k x) Q w')
  end.
Definition any {A} (r : Result A) (w : Timed) : Prop := True.

Lemma ok_later {A} (p : sprog A) w w' : later w w' -> ok p any w -> ok p any w'.
Proof.
  intros Hl. destruct p as [r|X e k]; [done|]. cbn. destruct e as [X f| |X c].
  - intros Hok w1 Hl1. apply Hok. by eapply lease_later_trans.
  - intros Hok w1 Hl1. apply Hok. by eapply lease_later_trans.
  - intros (Hr & Herr & Hok). split; [intros E; apply Hl; auto|].
    split; [intros err w1 Hl1; apply Herr; by eapply lease_later_trans|].
    destruct (stamps c) as [dur|]; [|intros x w1 Hl1; apply Hok; by eapply lease_later_trans].
    destruct Hok as [-> Hok]. split; [done|]. intros x w1 w2 Hl1. apply Hok. by eapply lease_later_trans.
Qed.

Lemma lease_ok_mono {A} (p : sprog A) (Q Q' : Result A -> Timed -> Prop) w :
  ok p Q w -> (forall r w', Q r w' -> Q' r w') -> ok p Q' w.
Proof.
  intros Hp HQ. revert w Hp. induction p as [r|X e k IH]; intros w; cbn; [apply HQ|].
  destruct e as [X f| |X c].
  - intros Hok w1 Hl1 Hi1. destruct (Hok w1 Hl1 Hi1) as (? & ? & ?). auto.
  - intros Hok w1 Hl1. auto.
  - intros (Hr & Herr & Hok). split; [done|]. split; [auto|].
    destruct (stamps c) as [dur|]; [|auto]. destruct Hok as [-> Hok]. split; [done|eauto].
Qed.

Lemma lease_ok_bind {A B} (p : sprog A) (f : A -> sprog B) Q w :
  ok p (fun r w' => match r with Ok a => ok (f a) Q w' | Err e => Q (Err e) w' end) w ->
  ok (p ≫= f) Q w.
Proof.
  revert w. induction p as [[a|err]|X e k IH]; intros w; cbn; [done|done|].
  destruct e as [X f'| |X c].
  - intros Hok w1 Hl1 Hi1. destruct (Hok w1 Hl1 Hi1) as (? & ? & ?). split_and!; [done|done|]. by apply IH.
  - intros Hok w1 Hl1. by apply IH, Hok.
  - intros (Hr & Herr & Hok). split; [done|]. split; [intros; by apply IH, Herr|].
    destruct (stamps c) as [dur|]; [|intros; by apply IH, Hok].
    destruct Hok as [-> Hok]. split; [done|]. intros. apply IH. by eapply Hok.
Qed.

(** Postconditions that only matter on success *)
Definition on_ok {A} (P : A -> Timed -> Prop) (r : Result A) (w : Timed) : Prop :=
  match r with Ok a => P a w | Err _ => True end.
Lemma lease_ok_then {A B} (p : sprog A) (f : A -> sprog B) (P : A -> Timed -> Prop) w :
  ok p (on_ok P) w -> (forall a w', P a w' -> ok (f a) any w') -> ok (p ≫= f) any w.
Proof. intros Hp Hf. apply lease_ok_bind. eapply lease_ok_mono; [exact Hp|]. intros [a|err] w'; cbn; auto. Qed.

Lemma ok_slift {A} (r : Result A) (P : A -> Timed -> Prop) w :
  (forall a, r = Ok a -> P a w) -> ok (slift r) (on_ok P) w.
Proof. destruct r; cbn; auto. Qed.
Lemma ok_instant (P : Z -> Timed -> Prop) w :
  (forall w1, later w w1 -> P (now w1) w1) -> ok instant (on_ok P) w.
Proof. intros HP w1 Hl. by apply HP. Qed.

Lemma set_host_id w : set_host (the_host w) w = w.
Proof. by destruct w. Qed.
Lemma ok_reads {X} (f : HostStorage -> X) (P : X -> Timed -> Prop) w :
  (forall w1, later w w1 -> P (f (the_host w1)) w1) -> ok (reads f) (on_ok P) w.
Proof. intros HP w1 Hl Hi. cbn. rewrite set_host_id. auto. Qed.

(** A section that leaves the fence alone *)
Lemma inv_set_host w h :
  inv w -> (fenced (hs_fence h) = true \/
    (fenced (hs_fence (the_host w)) = fenced (hs_fence h) /\ deadline (hs_fence h) = deadline (hs_fence (the_host w)))) ->
  inv (set_host h w).
Proof.
  intros [Hd He Hz Ht] [Hf|[Ef Ed]]; split; unfold is_fenced in *; cbn in *; try done.
  - intros t _. by left.
  - intros D. rewrite <-Ef, Ed. apply Hd.
  - intros t Et. rewrite <-Ef. auto.
Qed.

Lemma ok_section {X} (f : HostStorage -> HostStorage * X) (P : X -> Timed -> Prop) w :
  (forall h, hs_fence (f h).1 = hs_fence h) ->
  (forall w1, later w w1 -> P (f (the_host w1)).2 (set_host (f (the_host w1)).1 w1)) ->
  ok (critical f) (on_ok P) w.
Proof.
  intros Hf HP w1 Hl Hi. cbn. split; [|split; [|by apply HP]].
  - apply inv_set_host; [done|]. right. by rewrite Hf.
  - unfold is_fenced. cbn. by rewrite Hf.
Qed.

Lemma later_set_host w h :
  (is_fenced w -> fenced (hs_fence h) = true) -> later w (set_host h w).
Proof. intros Hf. split; cbn; auto with lia. Qed.

(** ** The fence *)
Lemma check_spec f t f' r : check f t = (f', r) ->
  (f' = f \/ f' = set_fenced f) /\
  (r = Ok () -> f' = f /\ fenced f = false /\ exists D, deadline f = Some D /\ t < D).
Proof.
  unfold check. destruct (deadline f) as [D|] eqn:Ed; [|intros [= <- <-]; split; [by left|done]].
  destruct (D <=? t) eqn:Et; intros [= <- <-].
  - split; [by right|]. cbn. done.
  - bools. split; [by left|]. intros Hr%ensure_ok. bools. eauto.
Qed.
Lemma begin_spec f t f' r : begin f t = (f', r) ->
  (f' = f \/ f' = set_fenced f) /\ (r = Ok () -> f' = f /\ fenced f = false).
Proof.
  unfold begin. destruct (deadline f) as [D|] eqn:Ed.
  - destruct (check f t) as [f1 r1] eqn:Ec. intros [= <- <-]. apply check_spec in Ec as [Hf Hr].
    split; [done|]. intros ([] & Hc%Hr & _)%bind_ok. tauto.
  - intros [= <- <-]. split; [by left|]. intros Hr%ensure_ok. bools. done.
Qed.
Lemma confirm_spec f started dur t f' r : confirm f started dur t = (f', r) ->
  (f' = f \/ f' = set_fenced f) \/
  (r = Ok () /\ fenced f = false /\ started + saturating_sub dur (5000 * NS) > t /\
   f' = {| deadline := Some (started + saturating_sub dur (5000 * NS)); fenced := false |}).
Proof.
  unfold confirm. destruct (begin f t) as [f1 r1] eqn:Eb. apply begin_spec in Eb as [Hf Hr].
  destruct r1 as [[]|err]; [|intros [= <- <-]; auto]. destruct (Hr eq_refl) as [-> Hn].
  destruct (_ <=? t) eqn:Et; cbn.
  - intros [= <- <-]. auto.
  - rewrite Hn. intros [= <- <-]. right. bools. split_and!; [done|done|lia|done].
Qed.

Lemma fence_only w f :
  inv w -> (f = hs_fence (the_host w) \/ f = set_fenced (hs_fence (the_host w))) ->
  inv (set_host (set_fence f (the_host w)) w) /\
  (is_fenced w -> is_fenced (set_host (set_fence f (the_host w)) w)) /\
  later w (set_host (set_fence f (the_host w)) w).
Proof.
  intros Hi Hf. assert (Hfen : is_fenced w -> fenced f = true) by (intros E; destruct Hf as [-> | ->]; done).
  split_and!; [|exact Hfen|by apply later_set_host].
  apply inv_set_host; [done|]. cbn. destruct Hf as [-> | ->]; [by right|by left].
Qed.

Lemma ok_check t (P : unit -> Timed -> Prop) w :
  (forall w1, later w w1 -> P () w1) -> ok (critical_ok (check_section t)) (on_ok P) w.
Proof.
  intros HP w1 Hl Hi. unfold check_section. destruct (check _ _) as [f r] eqn:Ec.
  apply check_spec in Ec as [Hf _]. cbn [fst snd ok].
  destruct (fence_only w1 f Hi Hf) as (Hi' & Hf' & Hl'). split_and!; [done|done|].
  destruct r as [[]|err]; [|done]. apply HP. eauto with actors.
Qed.
Lemma ok_begin t (P : unit -> Timed -> Prop) w :
  (forall w1, later w w1 -> P () w1) -> ok (critical_ok (begin_section t)) (on_ok P) w.
Proof.
  intros HP w1 Hl Hi. unfold begin_section. destruct (begin _ _) as [f r] eqn:Ec.
  apply begin_spec in Ec as [Hf _]. cbn [fst snd ok].
  destruct (fence_only w1 f Hi Hf) as (Hi' & Hf' & Hl'). split_and!; [done|done|].
  destruct r as [[]|err]; [|done]. apply HP. eauto with actors.
Qed.

(** Confirming a lease whose stored expiry is known *)
Lemma ok_confirm started t (P : unit -> Timed -> Prop) w :
  started <= t -> (is_fenced w \/ now_ms started + d <= stored_expiry w) ->
  (forall w1, later w w1 -> P () w1) -> ok (critical_ok (confirm_section started (d * NS) t)) (on_ok P) w.
Proof.
  intros Hst Hexp HP w1 Hl Hi. unfold confirm_section. destruct (confirm _ _ _ _) as [f r] eqn:Ec.
  apply confirm_spec in Ec as [Hf|(-> & Hn & Hwin & ->)]; cbn [fst snd ok].
  - destruct (fence_only w1 f Hi Hf) as (Hi' & Hf' & Hl'). split_and!; [done|done|].
    destruct r as [[]|err]; [|done]. apply HP. eauto with actors.
  - assert (Hnf : ~ is_fenced w1) by (unfold is_fenced; by rewrite Hn).
    assert (Hexp1 : now_ms started + d <= stored_expiry w1).
    { destruct Hexp as [Hf|Hexp]; [by apply Hl in Hf|]. destruct (l_expiry _ _ Hl); [done|lia]. }
    split; [|split; [done|apply HP; eapply lease_later_trans; [exact Hl|by apply later_set_host]]].
    destruct Hi as [Hd He Hz Ht]. split; cbn; [|done|done|].
    + intros D _ [= <-]. pose proof (now_ms_bounds started). unfold saturating_sub, NS in *. lia.
    + intros t' Et. destruct (Ht t' Et); [done|by right].
Qed.

(** ** Every method is correct *)
Lemma ok_ensure_authority (P : unit -> Timed -> Prop) w :
  (forall w1, later w w1 -> P () w1) -> ok ensure_authority (on_ok P) w.
Proof.
  intros HP. apply lease_ok_bind, ok_instant. intros w1 Hl1. apply ok_check.
  intros w2 Hl2. apply HP. eauto with actors.
Qed.
Lemma ok_authorize actor host (P : unit -> Timed -> Prop) w :
  (forall w1, later w w1 -> P () w1) -> ok (authorize_actor actor host) (on_ok P) w.
Proof.
  intros HP. unfold authorize_actor. apply lease_ok_bind, ok_slift. intros [] _.
  apply lease_ok_bind, ok_reads. intros w1 Hl1. apply lease_ok_bind, ok_slift. intros [] _.
  apply lease_ok_bind, ok_reads. intros w2 Hl2. apply lease_ok_bind, ok_slift. intros [] _.
  apply ok_ensure_authority. intros w3 Hl3. apply HP. eauto with actors.
Qed.
Lemma lease_ok_ret {A} (r : Result A) w : ok (SRet r) any w.
Proof. exact I. Qed.

(** A call that neither stamps nor releases *)
Lemma ok_plain {A} (c : RtCall A) (P : A -> Timed -> Prop) w :
  stamps c = None -> releases c = false ->
  (forall x w1, later w w1 -> P x w1) -> ok (runtime c) (on_ok P) w.
Proof. intros Hs Hr HP. cbn. rewrite Hs, Hr. split_and!; [done|done|auto]. Qed.

(** A stamping call: on success the expiry it computed was stored. *)
Lemma ok_stamping {A} (c : RtCall A) (P : A -> Timed -> Prop) w :
  stamps c = Some d -> releases c = false ->
  (forall x w1 w2, later w w1 -> later w1 w2 ->
     (is_fenced w2 \/ now_ms (now w1) + d <= stored_expiry w2) -> P x w2) ->
  ok (runtime c) (on_ok P) w.
Proof. intros Hs Hr HP. cbn. rewrite Hs, Hr. split_and!; [done|done|done|]. eauto. Qed.

Definition stamped_since (started : Z) (w : Timed) : Prop :=
  started <= now w /\ (is_fenced w \/ now_ms started + d <= stored_expiry w).
Lemma stamped_later started w w' : stamped_since started w -> later w w' -> stamped_since started w'.
Proof.
  intros [Hn Hs] [N F G S E]. split; [lia|]. destruct Hs as [?|Hs]; [left; auto|].
  destruct E as [?|E]; [by left|right; lia].
Qed.

Lemma lease_ok_register r residents sockets queues w :
  duration_ms r = d -> ok (op_code (ORegister r residents sockets queues)) any w.
Proof.
  intros Hd. cbn [op_code]. eapply (lease_ok_then _ _ (fun _ _ => True)); [|intros; exact I].
  unfold register_with_inventory.
  apply lease_ok_bind, ok_reads. intros w1 _. apply lease_ok_bind, ok_slift. intros [] _.
  apply lease_ok_bind, ok_instant. intros w2 _. set (started := now w2).
  apply lease_ok_bind, ok_begin. intros w3 L3. apply lease_ok_bind, ok_reads. intros w4 L4.
  apply lease_ok_bind, ok_slift. intros actor _. apply lease_ok_bind, ok_slift. intros i _.
  apply lease_ok_bind, ok_reads. intros w5 L5.
  assert (Hst : started <= now w5).
  { destruct L3, L4, L5. unfold started. lia. }
  assert (Hend : forall l w6, stamped_since started w6 ->
    ok (t ← instant; critical_ok (confirm_section started (duration_ms r * NS) t);;
        critical (fun s => (set_hs_lease l s, ()));; mret l) (on_ok (fun _ _ => True)) w6).
  { intros l w6 H6. apply lease_ok_bind, ok_instant. intros w7 L7.
    destruct (stamped_later _ _ w7 H6 L7) as [H7 H7']. rewrite Hd.
    apply lease_ok_bind, ok_confirm; [done|done|]. intros w8 L8.
    apply lease_ok_bind, ok_section; [done|]. intros w9 L9. exact I. }
  apply lease_ok_bind. destruct (hs_lease (the_host w5)).
  - apply ok_stamping; [by cbn; f_equal|done|]. intros l' w6 w7 L6 L7 H7. apply Hend.
    pose proof (l_now _ _ L6). pose proof (l_now _ _ L7). split; [lia|]. destruct H7; [by left|right].
    pose proof (now_ms_mono started (now w6)). lia.
  - apply lease_ok_bind, ok_reads. intros w6 L6. apply lease_ok_bind, ok_stamping; [by cbn; f_equal|done|].
    intros loaded w7 w8 L7 L8 H8. apply lease_ok_bind, ok_section; [done|]. intros w9 L9. apply Hend.
    eapply (stamped_later _ w9); [|by apply later_set_host].
    eapply (stamped_later _ w8); [|exact L9].
    pose proof (l_now _ _ L6). pose proof (l_now _ _ L7). pose proof (l_now _ _ L8).
    split; [lia|]. destruct H8; [by left|right]. pose proof (now_ms_mono started (now w7)). lia.
Qed.

Lemma ok_unregister h ses w : ok (op_code (OUnregister h ses)) any w.
Proof.
  cbn [op_code]. unfold unregister. apply (lease_ok_then _ _ (fun _ _ => True)); [by apply ok_reads|].
  intros self w1 _. apply (lease_ok_then _ _ (fun _ _ => True)); [by apply ok_slift|]. intros [] w2 _.
  apply (lease_ok_then _ _ (fun _ w => is_fenced w)).
  { intros w3 L3 Hi. cbn. split_and!; [|done|done]. apply inv_set_host; [done|]. by left. }
  intros _ w3 Hf. apply (lease_ok_then _ _ (fun _ w => is_fenced w)).
  { apply ok_reads. intros w4 L4. by apply L4. }
  intros bound w4 Hf4. apply (lease_ok_then _ _ (fun _ w => is_fenced w)); [by apply ok_slift|].
  intros actor w5 Hf5. cbn. done.
Qed.

Lemma ok_op o w : op_allowed o -> ok (op_code o) any w.
Proof.
  intros Ho. destruct o as [r res soc q|h ses|a h|a h ep|a h ep v| |]; cbn [op_allowed] in Ho;
    [by apply lease_ok_register|apply ok_unregister|cbn [op_code]..].
  - apply (lease_ok_then _ _ (fun _ _ => True)); [|done]. unfold acquire_actor.
    apply lease_ok_bind, ok_authorize. intros w1 _. apply lease_ok_bind, ok_section; [done|]. intros w2 _.
    destruct (hs_activation _); [done|]. apply lease_ok_bind, ok_reads. intros w3 _.
    apply lease_ok_bind, ok_slift. intros l _. apply lease_ok_bind, ok_reads. intros w4 _.
    apply lease_ok_bind, ok_plain; [done|done|]. intros x w5 _. by apply lease_ok_bind, ok_ensure_authority.
  - apply (lease_ok_then _ _ (fun _ _ => True)); [|done]. unfold load_actor_state.
    apply lease_ok_bind, ok_authorize. intros w1 _. apply lease_ok_bind, ok_reads. intros w3 _.
    apply lease_ok_bind, ok_slift. intros l _.
    apply lease_ok_bind, ok_plain; [done|done|]. intros x w5 _. by apply lease_ok_bind, ok_ensure_authority.
  - apply (lease_ok_then _ _ (fun _ _ => True)); [|done]. unfold prepare_state_write.
    apply lease_ok_bind, ok_authorize. intros w1 _. apply lease_ok_bind, ok_reads. intros w3 _.
    apply lease_ok_bind, ok_slift. intros l _. apply lease_ok_bind, ok_slift. intros n _.
    apply lease_ok_bind, ok_plain; [done|done|]. intros x w5 _. by apply lease_ok_bind, ok_ensure_authority.
  - apply (lease_ok_then _ _ (fun _ _ => True)); [|done]. unfold current_lease.
    apply lease_ok_bind, ok_ensure_authority. intros w1 _. apply lease_ok_bind, ok_reads. intros w2 _.
    by apply ok_slift.
  - eapply lease_ok_mono; [by apply (ok_ensure_authority (fun _ _ => True))|done].
Qed.

(** * All interleavings *)
Definition task_ok (w : Timed) (t : Task) : Prop :=
  match t.2 with
  | Idle => ok t.1 any w
  | Stamped g v => exists w0 w1, ok t.1 any w0 /\ later w0 w1 /\ later w1 w /\ v = now_ms (now w1) + d /\
      g <= stored_gen w /\ (g = stored_gen w -> stored_expiry w <= v /\ taken_at w = None)
  | Landed v => exists w0 w1, ok t.1 any w0 /\ later w0 w1 /\ later w1 w /\ v = now_ms (now w1) + d /\
      (is_fenced w \/ v <= stored_expiry w)
  end.

Lemma task_ok_later w w' t : later w w' -> task_ok w t -> task_ok w' t.
Proof.
  intros Hl. destruct t as [p [|g v|v]]; unfold task_ok; cbn.
  - by apply ok_later.
  - intros (w0 & w1 & Hok & L0 & L1 & Hv & Hg & Hs). exists w0, w1. destruct Hl as [N F G S E].
    split_and!; [done|done|by eapply lease_later_trans; [exact L1|split]|done|lia|].
    intros Eg. destruct S as [-> ->]; [lia|]. apply Hs. lia.
  - intros (w0 & w1 & Hok & L0 & L1 & Hv & Hs). exists w0, w1.
    split_and!; [done|done|by eapply lease_later_trans|done|]. destruct Hl as [N F G S E].
    destruct Hs as [?|Hs]; [left; auto|]. destruct E as [?|E]; [by left|right; lia].
Qed.

(** The world in which the task's program was last checked *)
Lemma task_ok_since w p ph : task_ok w (p, ph) -> exists w0, ok p any w0 /\ later w0 w.
Proof.
  destruct ph as [|g v|v]; unfold task_ok; cbn.
  - intros Hok. exists w. split; [done|apply later_refl].
  - intros (w0 & w1 & Hok & L0 & L1 & _). exists w0. split; [done|by eapply lease_later_trans].
  - intros (w0 & w1 & Hok & L0 & L1 & _). exists w0. split; [done|by eapply lease_later_trans].
Qed.

Definition all_ok (s : Config) : Prop := inv s.1 /\ Forall (task_ok s.1) s.2.

(** One task moved, the others only see a later world. *)
Lemma all_ok_move w w' ts1 t t' ts2 :
  all_ok (w, ts1 ++ t :: ts2)%list -> inv w' -> later w w' -> task_ok w' t' ->
  all_ok (w', ts1 ++ t' :: ts2)%list.
Proof.
  intros [_ Hts] Hi Hl Ht. split; [done|]. cbn in *. apply Forall_app in Hts as [H1 H2].
  apply Forall_cons in H2 as [_ H2].
  apply Forall_app. split; [|constructor; [done|]]; (eapply Forall_impl; [eassumption|]);
    intros x; by apply task_ok_later.
Qed.
Lemma all_ok_task w ts1 t ts2 : all_ok (w, ts1 ++ t :: ts2)%list -> inv w /\ task_ok w t.
Proof. intros [Hi Hts]. cbn in *. apply Forall_app in Hts as [_ Hts]. by apply Forall_cons in Hts as [? _]. Qed.

Hypothesis clocks_close : forall t, other_clock t <= off + t + skew.

Lemma timed_step_ok s s' : timed_step s s' -> all_ok s -> all_ok s'.
Proof using clocks_close.
  intros Hs Hall. destruct Hs as [w ts t Ht|w ts o Ho|w ts1 ts2 X f k|w ts1 ts2 k
    |w ts1 ts2 A c k dur Hd Hn|w ts1 ts2 A c k v|w ts1 ts2 A c k ph Hr|w ts1 ts2 A c k ph x Hx
    |w ts1 ts2 A c k ph err|w ts Hex Hn].
  - destruct Hall as [[Hd He Hz Hta] Hts]. cbn in *. pose proof (now_ms_mono _ _ Ht).
    split; [split; cbn; [done|lia|lia|done]|].
    eapply Forall_impl; [exact Hts|]. intros x. apply task_ok_later. split; cbn; auto with lia.
  - destruct Hall as [Hi Hts]. split; [done|]. apply Forall_app. split; [done|].
    constructor; [|done]. by apply ok_op.
  - destruct (all_ok_task _ _ _ _ Hall) as [Hi Ht]. cbn in Ht.
    destruct (Ht w (later_refl w) Hi) as (Hi' & Hf & Hk).
    eapply all_ok_move; [exact Hall|done|by apply later_set_host|done].
  - destruct (all_ok_task _ _ _ _ Hall) as [Hi Ht]. cbn in Ht.
    eapply all_ok_move; [exact Hall|done|apply later_refl|]. apply Ht, later_refl.
  - destruct (all_ok_task _ _ _ _ Hall) as [Hi Ht].
    eapply all_ok_move; [exact Hall|done|apply later_refl|].
    pose proof Ht as (_ & _ & Hdur). rewrite Hd in Hdur. destruct Hdur as [-> _].
    exists w, w. split_and!; [done|apply later_refl|apply later_refl|done|cbn; lia|]. intros _.
    split; [apply Hi|done].
  - destruct (all_ok_task _ _ _ _ Hall) as [Hi (w0 & w1 & Hok & L0 & L1 & Hv & _ & Hs)].
    destruct (Hs eq_refl) as [Hle Hn].
    assert (Hl : later w (store_expiry v w)) by (split; cbn; auto with lia).
    eapply all_ok_move; [exact Hall| |exact Hl|].
    + destruct Hi as [Hd He Hz Hta]. pose proof (now_ms_mono _ _ (l_now _ _ L1)). split; cbn; [|lia|done|congruence].
      intros D Hf HD. specialize (Hd D Hf HD). unfold NS in *. lia.
    + exists w0, w1. split_and!; [done|done|by eapply lease_later_trans|done|]. right. cbn. lia.
  - destruct (all_ok_task _ _ _ _ Hall) as [Hi Ht].
    destruct (task_ok_since _ _ _ Ht) as (w0 & (Hrel & _) & L0). specialize (Hrel Hr).
    assert (Hf : is_fenced w) by (by apply L0).
    assert (Hl : later w (store_expiry 0 w)) by (split; cbn; auto with lia).
    eapply all_ok_move; [exact Hall| |exact Hl|by eapply task_ok_later].
    destruct Hi as [Hd He Hz Hta]. split; cbn; [done|done|done|]. intros t _. by left.
  - destruct (all_ok_task _ _ _ _ Hall) as [Hi Ht].
    eapply all_ok_move; [exact Hall|done|apply later_refl|]. cbn.
    destruct (stamps c) as [dur|] eqn:Ec.
    + destruct Hx as [?|[v ->]]; [done|].
      destruct Ht as (w0 & w1 & (_ & _ & Hok) & L0 & L1 & Hv & Hs).
      rewrite Ec in Hok. destruct Hok as [_ Hok]. eapply Hok; [exact L0|exact L1|]. by rewrite <-Hv.
    + destruct (task_ok_since _ _ _ Ht) as (w0 & (_ & _ & Hok) & L0). rewrite Ec in Hok. by apply Hok.
  - destruct (all_ok_task _ _ _ _ Hall) as [Hi Ht].
    eapply all_ok_move; [exact Hall|done|apply later_refl|]. cbn.
    destruct (task_ok_since _ _ _ Ht) as (w0 & (_ & Herr & _) & L0). by apply Herr.
  - destruct Hall as [[Hd He Hz Hta] Hts]. cbn in *. split.
    + split; cbn; [done|done|done|]. intros t [= <-]. right. specialize (clocks_close (now w)).
      pose proof (Z.mul_div_le (other_clock (now w)) NS ltac:(done)). unfold NS in *. lia.
    + eapply Forall_impl; [exact Hts|]. intros x. apply task_ok_later. split; cbn; auto with lia.
Qed.

(** A host that has just started *)
Definition started_host (w : Timed) : Prop :=
  hs_fence (the_host w) = LeaseFence_default /\ taken_at w = None /\
  stored_expiry w <= now_ms (now w) + d /\ 0 <= now_ms (now w) + d.

Lemma reachable_inv s s' : started_host s.1 -> s.2 = [] -> rtc timed_step s s' -> inv s'.1.
Proof using clocks_close.
  intros (Hf & Ht & He & Hz) Hts Hr.
  assert (Hall : all_ok s).
  { split; [|by rewrite Hts]. split; [|done|done|congruence]. intros D _. by rewrite Hf. }
  clear Hf Ht He Hz Hts. induction Hr as [s|s s1 s2 Hs Hr IH]; [apply Hall|].
  apply IH. by eapply timed_step_ok.
Qed.

(** C4: authority ends before a takeover.  Take a host that asks for the same lease
    duration in every request, that starts when the record expires no later than a
    lease stamped then would, and another host whose wall clock is at most [skew]
    ahead.  Whatever the tasks of the host do concurrently (registering, renewing,
    releasing, loading, preparing writes), whichever storage calls fail, are applied
    late or are applied although reported as failed: if the fence grants authority
    for an instant [t] and another host has taken the actor over at [taken], then
    [t] lies more than [5 s - skew] before [taken], up to the one millisecond that
    readings of the wall clock lose.  So a clock that is at most 4.999 s ahead never
    takes over while the host has authority; at a full five seconds the two may
    overlap, by less than a millisecond. *)
Theorem authority_ends_before_takeover s s' t taken :
  started_host s.1 -> s.2 = [] -> rtc timed_step s s' ->
  taken_at s'.1 = Some taken -> (check (hs_fence (the_host s'.1)) t).2 = Ok () ->
  t + (5000 * NS - skew) < taken + NS.
Proof using clocks_close.
  intros Hst Hts Hr Htk Hc. destruct (reachable_inv s s' Hst Hts Hr) as [Hd He Hz Hta].
  destruct (check _ _) as [f r] eqn:Ec. cbn in Hc. subst r.
  apply check_spec in Ec as [_ Hr']. destruct (Hr' eq_refl) as (_ & Hnf & D & HD & Ht).
  assert (Hn : ~ is_fenced s'.1) by (unfold is_fenced; by rewrite Hnf).
  specialize (Hd D Hn HD). destruct (Hta taken Htk); [done|unfold NS in *; lia].
Qed.
End timed.

(** * Examples: one registration, then a takeover *)
Section example.
Context (off : Z) (other_clock : Z -> Z) (d : Z).

Definition sample_loaded : LoadedActor :=
  {| placement := {| pl_lease := {| lease_id := "h"; lease_session_id := "s"; lease_route := "r";
                                    expires_at_ms := 30000 |};
                     pl_object := "o"; pl_owner := "h"; pl_owner_epoch := 1; home_region := "eu";
                     pl_state_version := 0; state_object := None; last_request_id := None |};
     loaded_state := None |}.
(** Registrations succeed at once, every other call fails. *)
Definition rt_answer {A} (c : RtCall A) : Result A :=
  match c in RtCall A return Result A with
  | RtRegister _ _ _ _ => Ok sample_loaded
  | _ => Err "unavailable"
  end.

Fixpoint run_task {A} (p : sprog A) (w : Timed) : Timed * Result A :=
  match p with
  | SRet r => (w, r)
  | SVis e k =>
      match e in SEff X return (X -> Timed -> Timed * Result A) -> Timed * Result A with
      | Critical f => fun next => next (f (the_host w)).2 (set_host (f (the_host w)).1 w)
      | InstantNow => fun next => next (now w) w
      | Runtime c => fun next =>
          match rt_answer c with
          | Ok x => next (Ok x)
              (match stamps c with Some dur => store_expiry (now_ms off (now w) + dur) w | None => w end)
          | Err err => next (Err err) w
          end
      end (fun x w' => run_task (k x) w')
  end.

Lemma run_task_steps (p : sprog unit) : forall w, taken_at w = None ->
  rtc (timed_step off other_clock d) (w, [(p, Idle)]) ((run_task p w).1, [(SRet (run_task p w).2, Idle)]) /\
  taken_at (run_task p w).1 = None.
Proof.
  induction p as [r|X e k IH]; intros w Hn; [split; [reflexivity|done]|]. destruct e as [X f| |X c]; cbn.
  - destruct (IH (f (the_host w)).2 (set_host (f (the_host w)).1 w) Hn) as [Hr Hn']. split; [|done].
    eapply rtc_l; [|exact Hr]. apply (t_critical _ _ _ w [] [] X f k).
  - destruct (IH (now w) w Hn) as [Hr Hn']. split; [|done].
    eapply rtc_l; [|exact Hr]. apply (t_instant _ _ _ w [] [] k).
  - destruct (rt_answer c) as [x|err].
    2: { destruct (IH (Err err) w Hn) as [Hr Hn']. split; [|done].
         eapply rtc_l; [|exact Hr]. apply (t_reply_err _ _ _ w [] [] X c k Idle err). }
    destruct (stamps c) as [dur|] eqn:Es.
    2: { destruct (IH (Ok x) w Hn) as [Hr Hn']. split; [|done].
         eapply rtc_l; [|exact Hr]. apply (t_reply_ok _ _ _ w [] [] X c k Idle x). by left. }
    destruct (IH (Ok x) (store_expiry (now_ms off (now w) + dur) w) Hn) as [Hr Hn']. split; [|done].
    eapply rtc_l; [by apply (t_stamp _ _ _ w [] [] X c k dur)|].
    eapply rtc_l; [apply (t_land _ _ _ w [] [] X c k)|].
    eapply rtc_l; [|exact Hr]. apply (t_reply_ok _ _ _ _ [] [] X c k (Landed (now_ms off (now w) + dur)) x). eauto.
Qed.
End example.

Definition idle_host : Timed :=
  {| now := 0; the_host := with_actor (HostStorage_new "h" "s" "eu") (Some sample_actor) true;
     stored_gen := 0; stored_expiry := 0; taken_at := None |}.
Definition sample_op : HostOp :=
  ORegister {| req_id := "h"; req_session_id := "s"; req_route := "r"; duration_ms := 30000 |} None [] None.
Definition registered (off : Z) : Timed := (run_task off (op_code sample_op) idle_host).1.
Definition taken_over (off t : Z) : Config :=
  (take_over (set_now t (registered off)), [(SRet (run_task off (op_code sample_op) idle_host).2, Idle)]).

(** The host registers for 30 s; another host takes over as soon as it can. *)
Lemma registered_then_taken off clock t :
  0 <= t -> stored_expiry (registered off) <= clock t / NS ->
  rtc (timed_step off clock 30000) (idle_host, []) (taken_over off t).
Proof.
  intros H0 Ht. eapply rtc_l; [by apply (t_spawn _ _ _ _ _ sample_op)|]. cbn [app].
  destruct (run_task_steps off clock 30000 (op_code sample_op) idle_host) as [Hr Hn]; [done|].
  etrans; [exact Hr|]. eapply rtc_l.
  { apply (t_tick _ _ _ _ _ t). exact H0. }
  apply rtc_once, t_takeover; [exact Ht|done].
Qed.

(** The deadline is at 25 s; a clock 4.999 s ahead takes over a millisecond later. *)
Lemma authority_ends_before_takeover_witness :
  (check (hs_fence (the_host (registered 0))) (25000 * NS - 1)).2 = Ok () /\
  25000 * NS - 1 + (5000 * NS - 4999 * NS) < 25001 * NS + NS.
Proof.
  split; [vm_compute; reflexivity|].
  apply (authority_ends_before_takeover 0 (fun t => t + 4999 * NS) 30000 (4999 * NS) ltac:(intros t; cbn; lia)
    (idle_host, []) (taken_over 0 (25001 * NS))).
  - vm_compute. split_and!; try done; discriminate.
  - reflexivity.
  - apply registered_then_taken; vm_compute; discriminate.
  - reflexivity.
  - vm_compute. reflexivity.
Defined.

(** The millisecond is needed.  The host reads its clock just before it would count one
    more, so its lease is stamped almost a millisecond early; a clock exactly five
    seconds ahead then takes over while the fence still grants authority. *)
Theorem truncation_overlaps :
  exists s taken t, rtc (timed_step 999999 (fun t => 999999 + t + 5000 * NS) 30000) (idle_host, []) s /\
    taken_at s.1 = Some taken /\ (check (hs_fence (the_host s.1)) t).2 = Ok () /\ t = taken + 999998.
Proof.
  exists (taken_over 999999 (25000 * NS - 999999)), (25000 * NS - 999999), (25000 * NS - 1). split_and!.
  - apply registered_then_taken; vm_compute; discriminate.
  - reflexivity.
  - vm_compute. reflexivity.
  - reflexivity.
Qed.

(** With a clock six seconds ahead, the other host takes over half a second before an
    instant for which the fence grants authority. *)
Theorem distant_clock_overlaps :
  exists s, rtc (timed_step 0 (fun t => t + 6000 * NS) 30000) (idle_host, []) s /\
    taken_at s.1 = Some (24000 * NS) /\ (check (hs_fence (the_host s.1)) (24500 * NS)).2 = Ok ().
Proof.
  exists (taken_over 0 (24000 * NS)). split.
  - apply registered_then_taken; vm_compute; discriminate.
  - split; vm_compute; reflexivity.
Qed.
