(* ===== verification/ReplicatedTransport.v ===== *)
(** Writing a snapshot to the bucket and to its replicas at once:
    [replication/transport.rs].

    Both writes run as tasks; the first to succeed decides, the first to fail
    waits for the other.  The outcome is a function of what the bucket answers,
    what the replicas answer and which task ends first; a replica that does not
    answer within five seconds counts as an error. *)

From S2P Require Import Prelude.
From S2P Require Import Actors.
From S2P Require Import StoragePaths.
From S2P Require Import Snapshots.
From S2P Require Import ReplicaStore.
From S2P Require Import ReplicaServer.
From S2P Require Import RuntimeStorage.
Local Open Scope string_scope.
Local Open Scope Z_scope.

(** [a.with_context(..)] on a result *)
Definition add_context {A} (msg : string) (r : Result A) : Result A :=
  match r with Ok a => Ok a | Err e => Err (msg +:+ e) end.

(** The replies of the replicas in order of arrival, with their hosts: the
    outcome is the last failure, and every failing host is reported. *)
Fixpoint last_failure (replies : list (string * Result unit)) (failure : option string) : option string :=
  match replies with
  | [] => failure
  | (_, Err e) :: rest => last_failure rest (Some e)
  | (_, Ok _) :: rest => last_failure rest failure
  end.
Definition replicate (replies : list (string * Result unit)) : Result StateWrite :=
  match last_failure replies None with
  | Some e => Err e
  | None => Ok Replicated
  end.
Definition failure_reports (replies : list (string * Result unit)) : list string :=
  omap (fun '(h, r) => if is_ok r then None else Some h) replies.

Inductive Winner := BucketFirst | ReplicasFirst.

Definition race (bucket replicas : Result StateWrite) (first : Winner) : Result StateWrite :=
  match first with
  | BucketFirst =>
      match bucket with
      | Ok proof => Ok proof
      | Err e => add_context ("bucket and replication failed: " +:+ e) replicas
      end
  | ReplicasFirst =>
      match replicas with
      | Ok proof => Ok proof
      | Err e => add_context ("replication and bucket failed: " +:+ e) bucket
      end
  end.

(** [write_snapshot] of the replicated writer; [bucket] is what the bucket's own
    [write_snapshot] answers. *)
Definition write_replicated (ticket : WritePlan) (bucket : Result StateWrite)
  (replies : list (string * Result unit)) (first : Winner) : Result StateWrite :=
  match replication ticket with
  | None => bucket
  | Some t =>
      ReplicationTicket_validate t;;
      race bucket (replicate replies) first
  end.

(** [write_when_ready]: the replicas are only known once [ready] answers. *)
Definition ready_replicas (ticket : WritePlan) (ready : Result WritePlan)
  (replies : list (string * Result unit)) : Result StateWrite :=
  plan ← ready;
  ensure (bool_decide (plan_stream plan = plan_stream ticket)
          && String.eqb (object_name plan) (object_name ticket)
          && (plan_state_version plan =? plan_state_version ticket))
    "initial replication changed the write";;
  t ← with_context (replication plan) "initial replicas unavailable";
  ReplicationTicket_validate t;;
  replicate replies.
Definition write_when_ready (ticket : WritePlan) (bucket : Result StateWrite) (ready : Result WritePlan)
  (replies : list (string * Result unit)) (first : Winner) : Result StateWrite :=
  race bucket (ready_replicas ticket ready replies) first.

Lemma last_failure_none replies : forall f,
  last_failure replies f = None <-> f = None /\ Forall (fun hr => hr.2 = Ok ()) replies.
Proof.
  induction replies as [|[h [[]|e]] replies IH]; intros f; cbn.
  - split; [intros ->; by split|tauto].
  - rewrite IH, Forall_cons. cbn. tauto.
  - rewrite IH, Forall_cons. cbn. split; [by intros [? _]|by intros [_ [? _]]].
Qed.
Lemma replicate_ok replies w :
  replicate replies = Ok w <-> w = Replicated /\ Forall (fun hr => hr.2 = Ok ()) replies.
Proof.
  unfold replicate. pose proof (last_failure_none replies None) as Hl.
  destruct (last_failure replies None).
  - split; [done|]. intros [_ Hf]. destruct Hl as [_ Hl]. by specialize (Hl (conj eq_refl Hf)).
  - split; [intros [= <-]|intros [-> _]; done]. split; [done|]. by apply Hl.
Qed.
Lemma race_ok bucket replicas first w :
  race bucket replicas first = Ok w -> bucket = Ok w \/ replicas = Ok w.
Proof. destruct first, bucket, replicas; cbn; auto; intros [=]; subst; auto. Qed.
Lemma race_is_ok bucket replicas first : is_ok (race bucket replicas first) = is_ok bucket || is_ok replicas.
Proof. by destruct first, bucket, replicas. Qed.

(** A replicated write is proved by the bucket or by every replica.  Whichever
    task ends first, the write of a valid ticket succeeds exactly if the bucket
    acknowledged it or all of the ticket's replicas did; a proof by replication
    is only reported if every replica answered with success; and the hosts
    reported as failing are exactly those that did not. *)
Theorem replicated_write_is_proved ticket t bucket replies first :
  replication ticket = Some t -> ReplicationTicket_validate t = Ok () ->
  host_id <$> replicas t ≡ₚ replies.*1 ->
  (is_ok (write_replicated ticket bucket replies first) = true <->
     is_ok bucket = true \/ Forall (fun hr => hr.2 = Ok ()) replies) /\
  (forall w, write_replicated ticket bucket replies first = Ok w ->
     bucket = Ok w \/ (w = Replicated /\
       forall target, target ∈ replicas t -> (host_id target, Ok ()) ∈ replies)) /\
  (forall h, h ∈ failure_reports replies <-> exists e, (h, Err e) ∈ replies).
Proof.
  intros Ht Hv Hp. unfold write_replicated. rewrite Ht, Hv. cbn [mbind Result_bind]. split_and!.
  - rewrite race_is_ok, orb_true_iff. split; (intros [?|Hr]; [by left|right]).
    + destruct (replicate replies) as [w|] eqn:E; [|done]. by apply replicate_ok in E as [_ ?].
    + assert (E : replicate replies = Ok Replicated) by (by apply replicate_ok). by rewrite E.
  - intros w [?|Hr]%race_ok; [by left|right]. apply replicate_ok in Hr as [-> Hall]. split; [done|].
    intros target Hin. assert (Hh : host_id target ∈ replies.*1).
    { rewrite <-Hp. by apply list_elem_of_fmap_2. }
    apply list_elem_of_fmap in Hh as ([h r] & -> & Hr). rewrite Forall_forall in Hall.
    pose proof (Hall _ Hr) as E. cbn in E. by subst r.
  - intros h. unfold failure_reports. rewrite list_elem_of_omap. split.
    + intros ([h' [u|e]] & Hin & E); cbn in E; [done|]. injection E as <-. eauto.
    + intros [e Hin]. by exists (h, Err e).
Qed.

Definition replicated_ticket : ReplicationTicket :=
  {| replicas := [{| host_id := "a"; url := "http://a"; target_region := "eu" |};
                  {| host_id := "b"; url := "http://b"; target_region := "us" |}] |}.
Definition replicated_plan : WritePlan :=
  {| plan_stream := {| rs_session := "S"; prefix := "p/"; rs_owner_epoch := 1; base_version := 0 |};
     plan_state_version := 1; object_name := "p/1.json"; plan_expires_at_ms := 0;
     replication := Some replicated_ticket |}.
Lemma replicated_write_is_proved_witness :
  is_ok (write_replicated replicated_plan (Err "down") [("b", Ok ()); ("a", Ok ())] BucketFirst) = true.
Proof.
  apply (replicated_write_is_proved replicated_plan replicated_ticket (Err "down")
    [("b", Ok ()); ("a", Ok ())] BucketFirst).
  - reflexivity.
  - vm_compute. reflexivity.
  - cbn. apply perm_swap.
  - right. repeat constructor.
Defined.
