(* ===== verification/FileBucket.v ===== *)
(** The bucket on a local directory: [bucket/file.rs].

    A file holds the generation of its object, eight bytes big-endian, and then
    the object's bytes.  The directory is a map from relative paths to contents with
    the set of subdirectories, which are created on demand.  The hidden lock files are
    not represented: holding the lock makes [compare_and_swap] one atomic step.  Every
    file operation consumes an entry of a schedule of faults and may fail, the final
    rename also after it took effect.  A listing takes no lock: it is a walk that reads
    one directory entry at a time, and other writers act between any two of them.

    Shows that every operation is a step of the bucket that [Interleaving]
    assumes, whatever fails and whoever writes during a listing. *)

From S2P Require Import Prelude.
From S2P Require Import Actors.
From S2P Require Import StoragePaths.
From S2P Require Import Snapshots.
From S2P Require Import ReplicaStore.
From S2P Require Import ReplicaServer.
From S2P Require Import RuntimeStorage.
From S2P Require Import Interleaving.
Local Open Scope string_scope.
Local Open Scope Z_scope.

Inductive fault := Fine | Fails | FailsAfter.
(** The components of a path below the bucket's directory *)
Abbreviation Path := (list string).
Definition parts (key : string) : Path := split_on "/" key.
Fixpoint join (p : Path) : string :=
  match p with [] => "" | [n] => n | n :: rest => n +:+ String "/" (join rest) end.

Record Dir := { files : gmap string string; dirs : gset Path; schedule : list fault }.
Definition set_files (f : gmap string string) (s : Dir) : Dir :=
  {| files := f; dirs := dirs s; schedule := schedule s |}.
Definition set_dirs (ds : gset Path) (s : Dir) : Dir := {| files := files s; dirs := ds; schedule := schedule s |}.
Definition set_schedule (l : list fault) (s : Dir) : Dir := {| files := files s; dirs := dirs s; schedule := l |}.

Definition Fs (A : Type) : Type := Dir -> Dir * Result A.
#[global] Instance Fs_ret : MRet Fs := fun A a s => (s, Ok a).
#[global] Instance Fs_bind : MBind Fs := fun A B f m s =>
  match m s with
  | (s', Ok a) => f a s'
  | (s', Err e) => (s', Err e)
  end.
Definition fs_lift {A} (r : Result A) : Fs A := fun s => (s, r).
Definition gets {A} (f : Dir -> A) : Fs A := fun s => (s, Ok (f s)).
Definition next_fault : Fs fault := fun s =>
  match schedule s with [] => (s, Ok Fine) | f :: rest => (set_schedule rest s, Ok f) end.
Definition fs_io : Fs unit :=
  f ← next_fault;
  match f with Fine => mret () | _ => fs_lift (Err "I/O error") end.

(** * [i64::to_be_bytes] and [i64::from_be_bytes] *)
Fixpoint be_bytes (k : nat) (n : Z) : string :=
  match k with
  | O => ""
  | S k' => String (ascii_of_nat (Z.to_nat (n / 256 ^ Z.of_nat k' mod 256))) (be_bytes k' n)
  end.
Fixpoint be_value (s : string) (acc : Z) : Z :=
  match s with "" => acc | String c rest => be_value rest (acc * 256 + byte c) end.
Definition from_be_bytes (s : string) : Z :=
  let v := be_value s 0 in if 2 ^ 63 <=? v then v - 2 ^ 64 else v.
Definition to_be_bytes (n : Z) : string := be_bytes 8 (n mod 2 ^ 64).

(** [read_exact] of [k] bytes: what was read and what is left *)
Fixpoint read_exact (k : nat) (s : string) : option (string * string) :=
  match k with
  | O => Some ("", s)
  | S k' =>
      match s with
      | "" => None
      | String c rest => '(a, b) ← read_exact k' rest; Some (String c a, b)
      end
  end.

(** * Paths and files *)
Definition object_path (key : string) : Result string :=
  ensure (negb (is_empty key)
          && forallb (fun part => negb (is_empty part) && negb (starts_with "." part)
                                  && negb (contains_char "\" part)) (split_on "/" key))
    "invalid bucket object path";;
  Ok key.

(** The directories above a path, below the bucket's own *)
Fixpoint parents_of (p : Path) : list Path :=
  match p with
  | n :: rest => match rest with [] => [] | _ => [n] :: (cons n <$> parents_of rest) end
  | [] => []
  end.
(** One of them is a file. *)
Definition blocked (s : Dir) (p : Path) : bool :=
  existsb (fun d => bool_decide (is_Some (files s !! join d))) (parents_of p).

(** What [File::open] opens: reading from a directory fails. *)
Inductive File := Regular (content : string) | Directory.
Definition open (path : string) : Fs (option File) :=
  fs_io;;
  s ← gets id;
  if blocked s (parts path) then fs_lift (Err "Not a directory")
  else if bool_decide (parts path ∈ dirs s) then mret (Some Directory)
  else mret (Regular <$> files s !! path).

Definition split_generation (content : string) : Result (Z * string) :=
  '(g, rest) ← with_context (read_exact 8 content) "incomplete bucket object";
  Ok (from_be_bytes g, rest).
Definition read_generation (file : File) : Fs (Z * string) :=
  fs_io;;
  match file with
  | Regular content => fs_lift (split_generation content)
  | Directory => fs_lift (Err "incomplete bucket object")
  end.

Definition read (path : string) : Fs (option BucketObject) :=
  file ← open path;
  match file with
  | None => mret None
  | Some file =>
      gb ← read_generation file;
      fs_io;;
      mret (Some {| generation := gb.1; bytes_of := gb.2 |})
  end.

(** * The [Bucket] interface *)
Definition get (key : string) : Fs (option BucketObject) :=
  path ← fs_lift (object_path key);
  read path.

Definition replace_file (path content : string) : Fs unit := fun s =>
  (set_files (<[path := content]> (files s)) s, Ok ()).
Definition commit (path content : string) : Fs unit :=
  f ← next_fault;
  match f with
  | Fine => replace_file path content
  | Fails => fs_lift (Err "I/O error")
  | FailsAfter => replace_file path content;; fs_lift (Err "I/O error")
  end.

(** [create_dir_all], and the lock file in the directory that holds the object *)
Definition make_dirs (p : Path) : Fs unit := fun s =>
  (set_dirs (dirs s ∪ list_to_set (parents_of p)) s, Ok ()).
Definition create_dir_all (p : Path) : Fs unit :=
  f ← next_fault;
  s ← gets id;
  if blocked s p then fs_lift (Err "Not a directory")
  else
    match f with
    | Fine => make_dirs p
    | Fails => fs_lift (Err "I/O error")
    | FailsAfter => make_dirs p;; fs_lift (Err "I/O error")
    end.
Definition lock_object (path : string) : Fs unit :=
  create_dir_all (parts path);;
  fs_io;;
  fs_io.

Definition compare_and_swap (key : string) (expected : option Z) (bytes : string) : Fs bool :=
  path ← fs_lift (object_path key);
  lock_object path;;
  file ← open path;
  current ← (match file with
             | None => mret None
             | Some file => gb ← read_generation file; mret (Some gb.1)
             end);
  if negb (bool_decide (current = expected)) then mret false
  else
    next ← fs_lift (with_context (i64_checked_add (default 0 current) 1) "bucket generation overflow");
    fs_io;;
    commit path (to_be_bytes next +:+ bytes);;
    mret true.

(** * Listing *)
Definition string_leb (a b : string) : Prop := String.leb a b = true.
#[global] Instance string_leb_dec : RelDecision string_leb.
Proof. intros a b. unfold string_leb. apply _. Defined.
#[global] Instance string_leb_total : Total string_leb.
Proof. intros a b. apply String.leb_total. Qed.

(** The names in a directory *)
Fixpoint strip_base (base p : Path) : option Path :=
  match base, p with
  | [], _ => Some p
  | b :: base, n :: p => if String.eqb b n then strip_base base p else None
  | _, [] => None
  end.
Definition name_in (base p : Path) : option string :=
  match strip_base base p with Some [n] => Some n | _ => None end.
Definition names (s : Dir) (base : Path) : list string :=
  omap (name_in base) (elements (dirs s) ++ (parts <$> (map_to_list (files s)).*1))%list.

(** An open [ReadDir]: the directory, the names it had when it was opened, and those
    that were returned *)
Record Frame := { fr_base : Path; fr_opened : list string; fr_seen : list string }.
Definition open_dir (s : Dir) (base : Path) : Frame := {| fr_base := base; fr_opened := names s base; fr_seen := [] |}.
Definition saw (n : string) (fr : Frame) : Frame :=
  {| fr_base := fr_base fr; fr_opened := fr_opened fr; fr_seen := n :: fr_seen fr |}.
(** The recursive calls of [list], innermost first, with the objects found; or its result *)
Inductive Listing := Walking (calls : list Frame) (objects : list string) | Listed (r : Result (list string)).
Definition start_listing (s : Dir) : Listing := Walking [open_dir s []] [].

(** What happens next: another writer runs [compare_and_swap], the innermost directory
    returns an entry or its end, or a file operation fails. *)
Inductive walk_input :=
| OtherSwaps (key : string) (expected : option Z) (bytes : string)
| Entry (name : string)
| EndOfDirectory
| WalkFails.

(** [None]: this cannot happen.  A directory returns each name at most once; it returns
    every name that it had when it was opened (names are never removed), and it may or
    may not return one that was added later. *)
Definition list_step (pre : string) (i : walk_input) (st : Dir * Listing) : option (Dir * Listing) :=
  let '(s, l) := st in
  match l with
  | Walking (fr :: calls) objects =>
      match i with
      | OtherSwaps key expected bytes => Some ((compare_and_swap key expected bytes s).1, l)
      | WalkFails => Some (s, Listed (Err "I/O error"))
      | Entry n =>
          let path := (fr_base fr ++ [n])%list in
          if bool_decide (n ∈ fr_seen fr) || negb (bool_decide (n ∈ names s (fr_base fr))) then None
          else if starts_with "." n then Some (s, Walking (saw n fr :: calls) objects)
          else if bool_decide (path ∈ dirs s)
               then Some (s, Walking (open_dir s path :: saw n fr :: calls) objects)
          else Some (s, Walking (saw n fr :: calls)
                          (if starts_with pre (join path) then objects ++ [join path] else objects)%list)
      | EndOfDirectory =>
          if forallb (fun n => bool_decide (n ∈ fr_seen fr)) (fr_opened fr)
          then Some (s, match calls with
                        | [] => Listed (Ok (merge_sort string_leb objects))
                        | _ => Walking calls objects
                        end)
          else None
      end
  | _ => None
  end.
Fixpoint run_listing (pre : string) (inputs : list walk_input) (st : Dir * Listing) : option (Dir * Listing) :=
  match inputs with
  | [] => Some st
  | i :: inputs => st ← list_step pre i st; run_listing pre inputs st
  end.

(** * Generations survive the disk *)
Lemma be_value_bytes k : forall n acc, 0 <= n -> 0 <= acc ->
  be_value (be_bytes k n) acc = acc * 256 ^ Z.of_nat k + n mod 256 ^ Z.of_nat k.
Proof.
  induction k as [|k IH]; intros n acc Hn Hacc; cbn [be_bytes be_value].
  { rewrite Z.mod_1_r. lia. }
  set (m := 256 ^ Z.of_nat k). assert (Hm : 0 < m) by (unfold m; lia).
  assert (Hb : 0 <= n / m mod 256 < 256) by (apply Z.mod_pos_bound; lia).
  assert (Hc : byte (ascii_of_nat (Z.to_nat (n / m mod 256))) = n / m mod 256).
  { unfold byte. rewrite nat_ascii_embedding by lia. lia. }
  rewrite Hc, IH by lia. fold m.
  replace (256 ^ Z.of_nat (S k)) with (m * 256).
  2: { unfold m. rewrite Nat2Z.inj_succ, Z.pow_succ_r by lia. lia. }
  rewrite (Z.rem_mul_r n m 256) by lia. lia.
Qed.

Lemma be_bytes_length k n : String.length (be_bytes k n) = k.
Proof. induction k as [|k IH]; cbn; [done|]. by rewrite IH. Qed.

Lemma read_exact_app k a b : String.length a = k -> read_exact k (a +:+ b) = Some (a, b).
Proof.
  revert a. induction k as [|k IH]; intros [|c a] Hl; try done. rewrite sapp_cons. cbn.
  rewrite IH by (cbn in Hl; lia). done.
Qed.

Lemma generation_roundtrip g : 0 <= g <= I64_MAX -> from_be_bytes (to_be_bytes g) = g.
Proof.
  unfold I64_MAX. intros Hg. unfold from_be_bytes, to_be_bytes.
  rewrite be_value_bytes by (try apply Z.mod_pos_bound; lia).
  replace (256 ^ Z.of_nat 8) with (2 ^ 64) by reflexivity.
  rewrite Z.mod_mod, Z.mod_small, Z.mul_0_l, Z.add_0_l by lia.
  destruct (2 ^ 63 <=? g) eqn:E; [|done]. apply Z.leb_le in E. lia.
Qed.

(** * Paths *)
Lemma join_cons a n rest : join (a :: n :: rest) = a +:+ String "/" (join (n :: rest)).
Proof. done. Qed.
Lemma join_parts key : join (parts key) = key.
Proof.
  unfold parts. induction key as [|c key IH]; [done|]. cbn [split_on]. destruct (ascii_dec c "/") as [->|Hc].
  - destruct (split_on "/" key) as [|n rest] eqn:E; [by destruct key as [|d key]; cbn in E; repeat case_match|].
    by rewrite join_cons, IH.
  - destruct (split_on "/" key) as [|n [|m rest]] eqn:E; [cbn in IH; by rewrite <-IH|cbn in IH; cbn; by rewrite IH|].
    rewrite join_cons in *. by rewrite sapp_cons, IH.
Qed.
Lemma in_parents b p : b ∈ parents_of p <-> b <> [] /\ exists n rest, p = (b ++ n :: rest)%list.
Proof.
  revert b. induction p as [|x p IH]; intros b; cbn [parents_of].
  { rewrite elem_of_nil. split; [done|]. intros (_ & n & rest & E). by destruct b. }
  destruct p as [|y p].
  { rewrite elem_of_nil. split; [done|]. intros (Hb & n & rest & E). destruct b as [|z b]; [done|].
    injection E as _ E. by destruct b. }
  rewrite elem_of_cons, list_elem_of_fmap. split.
  - intros [-> |(b' & -> & Hb')]; [split; [done|]; by exists y, p|].
    apply IH in Hb' as (_ & n & rest & E). split; [done|]. exists n, rest. by rewrite E.
  - intros (Hb & n & rest & E). destruct b as [|z b]; [done|]. injection E as <- E.
    destruct b as [|z' b]; [by left|]. right. exists (z' :: b). split; [done|]. apply IH. eauto.
Qed.

Lemma strip_base_spec base p q : strip_base base p = Some q <-> p = (base ++ q)%list.
Proof.
  revert p. induction base as [|b base IH]; intros p; cbn [strip_base app].
  { by split; [intros [= ->]|intros ->]. }
  destruct p as [|n p]; [done|]. destruct (String.eqb b n) eqn:E.
  - apply String.eqb_eq in E as ->. rewrite IH. split; [by intros ->|by intros [= ->]].
  - apply String.eqb_neq in E. split; [done|]. by intros [= -> _].
Qed.
Lemma names_spec s base n : n ∈ names s base <->
  (base ++ [n])%list ∈ dirs s \/ exists k, is_Some (files s !! k) /\ parts k = (base ++ [n])%list.
Proof.
  unfold names. rewrite list_elem_of_omap. unfold name_in. setoid_rewrite elem_of_app.
  setoid_rewrite elem_of_elements. setoid_rewrite list_elem_of_fmap. split.
  - intros (p & Hp & E). destruct (strip_base base p) as [q|] eqn:Eq; [|done]. apply strip_base_spec in Eq as ->.
    destruct q as [|m [|]]; try done. injection E as ->. destruct Hp as [?|(k & -> & Hk)]; [by left|]. right.
    apply list_elem_of_fmap in Hk as ([k' c] & -> & Hk%elem_of_map_to_list). exists k'. split; [by exists c|done].
  - assert (strip_base base (base ++ [n])%list = Some [n]) as E by (by apply strip_base_spec).
    intros [Hd|(k & [c Hk] & Ep)]; exists (base ++ [n])%list; rewrite E; (split; [|done]); [by left|].
    right. exists k. split; [done|]. apply list_elem_of_fmap. exists (k, c). split; [done|by apply elem_of_map_to_list].
Qed.

(** * The directory represents a bucket *)
Record represents (f : gmap string string) (b : gmap string BucketObject) : Prop := {
  rep_some : forall key c, f !! key = Some c -> object_path key = Ok key /\
    exists o, b !! key = Some o /\ 1 <= generation o <= I64_MAX /\
      c = to_be_bytes (generation o) +:+ bytes_of o;
  rep_none : forall key, f !! key = None -> b !! key = None }.
(** Files lie in directories, and none of them is a directory. *)
Record tree (s : Dir) : Prop := {
  tree_dirs : forall k b, is_Some (files s !! k) -> b ∈ parents_of (parts k) -> b ∈ dirs s;
  tree_files : forall k, is_Some (files s !! k) -> parts k ∉ dirs s }.

Lemma fs_bind_inv {A B} (m : Fs A) (f : A -> Fs B) s s' r :
  (m ≫= f) s = (s', r) ->
  (exists a s1, m s = (s1, Ok a) /\ f a s1 = (s', r)) \/ (exists e, m s = (s', Err e) /\ r = Err e).
Proof.
  unfold mbind, Fs_bind. destruct (m s) as [s1 [a|e]]; [eauto|]. intros [= <- <-]. eauto.
Qed.
(** Nothing on the disk has changed. *)
Definition same (s s' : Dir) : Prop := files s' = files s /\ dirs s' = dirs s.
#[local] Instance same_refl : Reflexive same.
Proof. done. Qed.
#[local] Instance same_trans : Transitive same.
Proof. intros a b c [F1 D1] [F2 D2]. split; congruence. Qed.
Lemma same_tree s s' : same s s' -> tree s -> tree s'.
Proof. intros [F D] [T1 T2]. split; intros k; rewrite F, D; [apply T1|apply T2]. Qed.

Lemma next_fault_same s s' r : next_fault s = (s', r) -> same s s'.
Proof. unfold next_fault. destruct (schedule s); by intros [= <- <-]. Qed.
Lemma fs_io_same s s' r : fs_io s = (s', r) -> same s s'.
Proof.
  unfold fs_io. intros [(f & s1 & Hf & E)|(e & Hf & _)]%fs_bind_inv; apply next_fault_same in Hf; [|done].
  destruct f; by injection E as <- <-.
Qed.

(** What opening a path says about it *)
Definition opened (s : Dir) (path : string) (r : Result (option File)) : Prop :=
  match r with
  | Ok None => files s !! path = None /\ parts path ∉ dirs s
  | Ok (Some (Regular c)) => files s !! path = Some c /\ parts path ∉ dirs s
  | _ => True
  end.
Lemma open_spec path s s' r : open path s = (s', r) -> same s s' /\ opened s path r.
Proof.
  unfold open. intros [([] & s1 & Hio & H)|(e & Hio & ->)]%fs_bind_inv; apply fs_io_same in Hio as [F D]; [|done].
  apply fs_bind_inv in H as [(s2 & s3 & [= <- <-] & H)|(e & [=] & _)]. unfold id in H.
  destruct (blocked _ _); [injection H as <- <-; done|].
  case_bool_decide as Ed; injection H as <- <-; [done|]. split; [done|].
  rewrite F. rewrite D in Ed. unfold opened. by destruct (files s !! path).
Qed.

Lemma split_generation_ok g bytes : 1 <= g <= I64_MAX ->
  split_generation (to_be_bytes g +:+ bytes) = Ok (g, bytes).
Proof.
  intros Hg. unfold split_generation. rewrite (read_exact_app 8) by apply be_bytes_length.
  cbn [with_context mbind Result_bind]. by rewrite generation_roundtrip by lia.
Qed.
Lemma read_generation_same file s s' r : read_generation file s = (s', r) -> same s s'.
Proof.
  unfold read_generation. intros [([] & s1 & Hio & H)|(e & Hio & ->)]%fs_bind_inv; apply fs_io_same in Hio; [|done].
  destruct file; by injection H as <- <-.
Qed.
Lemma read_generation_spec o s s' r :
  1 <= generation o <= I64_MAX ->
  read_generation (Regular (to_be_bytes (generation o) +:+ bytes_of o)) s = (s', r) ->
  r = Ok (generation o, bytes_of o) \/ exists e, r = Err e.
Proof.
  intros Hg. unfold read_generation. rewrite split_generation_ok by done.
  intros [([] & s1 & Hio & H)|(e & Hio & ->)]%fs_bind_inv; [|eauto]. injection H as <- <-. by left.
Qed.

(** Locking creates the directories above the object. *)
Lemma blocked_file s p b : blocked s p = false -> b ∈ parents_of p -> files s !! join b = None.
Proof.
  intros Hb Hin. destruct (files s !! join b) eqn:E; [|done].
  assert (blocked s p = true); [|congruence]. apply existsb_exists. exists b. split; [by apply list_elem_of_In|].
  by rewrite E, bool_decide_true by done.
Qed.
Lemma make_dirs_tree s p : tree s -> blocked s p = false -> tree (make_dirs p s).1.
Proof.
  intros [T1 T2] Hb. split; cbn; intros k.
  - intros b Hk Hin. apply elem_of_union. left. by eapply T1.
  - intros Hk [Hd|Hd%elem_of_list_to_set]%elem_of_union; [by eapply T2|].
    pose proof (blocked_file s p _ Hb Hd) as E. rewrite join_parts in E. rewrite E in Hk. by destruct Hk.
Qed.
(** The directory after [lock_object] *)
Record dir_locked (s s' : Dir) : Prop := {
  lk_files : files s' = files s;
  lk_dirs : dirs s ⊆ dirs s';
  lk_tree : tree s -> tree s' }.
Lemma same_locked s s' : same s s' -> dir_locked s s'.
Proof. intros H. split; [apply H|by rewrite (proj2 H)|by apply same_tree]. Qed.
Lemma locked_trans a b c : dir_locked a b -> dir_locked b c -> dir_locked a c.
Proof. intros [F1 D1 T1] [F2 D2 T2]. split; [congruence|set_solver|auto]. Qed.
Lemma create_dir_all_spec p s s' r : create_dir_all p s = (s', r) ->
  dir_locked s s' /\ (r = Ok () -> forall b, b ∈ parents_of p -> b ∈ dirs s').
Proof.
  unfold create_dir_all. intros [(f & s1 & Hf & H)|(e & Hf & ->)]%fs_bind_inv; apply next_fault_same in Hf;
    [|by split; [apply same_locked|]].
  apply fs_bind_inv in H as [(s2 & s3 & [= <- <-] & H)|(e & [=] & _)]. unfold id in H.
  destruct (blocked s1 p) eqn:Eb; [injection H as <- <-; by split; [apply same_locked|]|].
  assert (Hmake : dir_locked s (make_dirs p s1).1).
  { eapply locked_trans; [by apply same_locked|]. split; [done|cbn; set_solver|]. intros Ht. by apply make_dirs_tree. }
  destruct f; cbn in H; injection H as <- <-; (split; [|try done]); [done| |by apply same_locked|done].
  intros _ b Hb. cbn. apply elem_of_union. right. by apply elem_of_list_to_set.
Qed.
Lemma lock_object_spec path s s' r : lock_object path s = (s', r) ->
  dir_locked s s' /\ (r = Ok () -> forall b, b ∈ parents_of (parts path) -> b ∈ dirs s').
Proof.
  unfold lock_object. intros [([] & s1 & Hc & H)|(e & Hc & ->)]%fs_bind_inv; apply create_dir_all_spec in Hc as [L1 P1];
    [|done].
  apply fs_bind_inv in H as [([] & s2 & Hio & H)|(e & Hio & ->)].
  - apply fs_io_same in Hio. apply fs_io_same in H. assert (same s1 s') as Hs by (by etrans).
    split; [eapply locked_trans; [done|by apply same_locked]|]. intros _. rewrite (proj2 Hs). by apply P1.
  - apply fs_io_same in Hio. split; [eapply locked_trans; [done|by apply same_locked]|done].
Qed.

Section refinement.
Context (possible : World -> forall X, Eff X -> X -> Prop) (node : nat).

(** Reading the current object *)
Lemma represents_read s w key : represents (files s) (bucket w) ->
  match files s !! key with
  | None => bucket w !! key = None
  | Some c => exists o, bucket w !! key = Some o /\ 1 <= generation o <= I64_MAX /\
      c = to_be_bytes (generation o) +:+ bytes_of o
  end.
Proof.
  intros [Hs Hn]. destruct (files s !! key) as [c|] eqn:E; [|auto]. by apply Hs in E as [_ E].
Qed.

Lemma get_refines key s s' r w :
  represents (files s) (bucket w) -> get key s = (s', r) ->
  same s s' /\ step possible node w (BGet key) r w.
Proof.
  intros Hrep H. unfold get in H. cbn.
  enough (same s s' /\ (r = Ok (bucket w !! key) \/ exists e, r = Err e)) by tauto.
  apply fs_bind_inv in H as [(path & s1 & Hp & H)|(e & Hp & ->)].
  2: { injection Hp as -> _. split; [done|eauto]. }
  injection Hp as -> Hp. unfold object_path in Hp. apply bind_ok in Hp as (u & _ & [= <-]).
  unfold read in H. apply fs_bind_inv in H as [(file & s2 & Ho & H)|(e & Ho & ->)];
    apply open_spec in Ho as [Hf Ho]; [|eauto].
  pose proof (represents_read s1 w key Hrep) as Hk.
  destruct file as [file|]; [|destruct Ho as [E _]; rewrite E in Hk; injection H as -> <-; rewrite Hk; split; [done|auto]].
  apply fs_bind_inv in H as [(gb & s3 & Hgb & H)|(e & Hgb & ->)];
    pose proof (read_generation_same _ _ _ _ Hgb) as Hf3; [|split; [by etrans|eauto]].
  destruct file as [c|].
  2: { unfold read_generation in Hgb. by apply fs_bind_inv in Hgb as [(? & ? & _ & [=])|(? & _ & [=])]. }
  destruct Ho as [E _]. rewrite E in Hk. destruct Hk as (o & -> & Hg & ->).
  apply read_generation_spec in Hgb as [[= ->]|[e [=]]]; [|done].
  apply fs_bind_inv in H as [(u4 & s4 & Hio & H)|(e & Hio & ->)]; apply fs_io_same in Hio.
  - injection H as -> <-. split; [by repeat (etrans; [eassumption|])|]. left. cbn. by destruct o.
  - split; [by repeat (etrans; [eassumption|])|eauto].
Qed.

Lemma commit_spec path content s s' r : commit path content s = (s', r) ->
  dirs s' = dirs s /\
  ((files s' = files s /\ exists e, r = Err e) \/ files s' = <[path := content]> (files s)).
Proof.
  unfold commit. intros [(f & s1 & Hf & H)|(e & Hf & ->)]%fs_bind_inv; apply next_fault_same in Hf as [F D]; [|eauto].
  destruct f.
  - injection H as <- <-. cbn. rewrite F. eauto.
  - injection H as <- <-. split; [done|]. left. eauto.
  - injection H as <- <-. cbn. rewrite F. eauto.
Qed.

(** The generation read under the lock *)
Lemma current_generation_spec s w key file s1 r :
  represents (files s) (bucket w) -> opened s key (Ok file) ->
  (match file with
   | None => mret None
   | Some file => gb ← read_generation file; mret (Some gb.1)
   end : Fs (option Z)) s = (s1, r) ->
  same s s1 /\ (r = Ok (generation <$> bucket w !! key) /\ parts key ∉ dirs s \/ exists e, r = Err e).
Proof.
  intros Hrep Ho H. pose proof (represents_read s w key Hrep) as Hk.
  destruct file as [file|]; [|destruct Ho as [E Hd]; rewrite E in Hk; injection H as -> <-; rewrite Hk; split; [done|auto]].
  apply fs_bind_inv in H as [(gb & s3 & Hgb & H)|(e & Hgb & ->)];
    pose proof (read_generation_same _ _ _ _ Hgb) as Hf3; [|eauto].
  destruct file as [c|].
  2: { unfold read_generation in Hgb. by apply fs_bind_inv in Hgb as [(? & ? & _ & [=])|(? & _ & [=])]. }
  destruct Ho as [E Hd]. rewrite E in Hk. destruct Hk as (o & -> & Hg & ->).
  apply read_generation_spec in Hgb as [[= ->]|[e [=]]]; [|done]. injection H as <- <-. eauto.
Qed.

Lemma represents_insert f w key g bytes :
  represents f (bucket w) -> object_path key = Ok key -> 1 <= g <= I64_MAX ->
  represents (<[key := to_be_bytes g +:+ bytes]> f) (bucket (write_object key g bytes w)).
Proof.
  intros [Hs Hn] Hp Hg. split; cbn; intros k.
  - intros c. destruct (decide (key = k)) as [<- |Hne].
    + rewrite !lookup_insert_eq. intros [= <-]. split; [done|]. eexists. split; [done|]. done.
    + rewrite !lookup_insert_ne by done. apply Hs.
  - destruct (decide (key = k)) as [<- |Hne]; [by rewrite lookup_insert_eq|].
    rewrite !lookup_insert_ne by done. apply Hn.
Qed.
Lemma insert_tree s s' key content : tree s -> dirs s' = dirs s -> files s' = <[key := content]> (files s) ->
  (forall b, b ∈ parents_of (parts key) -> b ∈ dirs s) -> parts key ∉ dirs s -> tree s'.
Proof.
  intros [T1 T2] D F Hp Hk. split; rewrite F, D; intros k; destruct (decide (key = k)) as [<- |Hne].
  - intros b _. apply Hp.
  - rewrite lookup_insert_ne by done. apply T1.
  - done.
  - rewrite lookup_insert_ne by done. apply T2.
Qed.

(** The generation that a swap writes *)
Lemma next_generation s w key g : represents (files s) (bucket w) ->
  with_context (i64_checked_add (default 0 (generation <$> bucket w !! key)) 1) "bucket generation overflow" = Ok g ->
  1 <= g <= I64_MAX /\ forall o, bucket w !! key = Some o -> generation o < g.
Proof.
  intros Hrep Hg. pose proof (represents_read s w key Hrep) as Hk. unfold i64_checked_add in Hg.
  destruct (_ <=? I64_MAX) eqn:El; [|done]. cbn in Hg. injection Hg as <-. bools.
  destruct (files s !! key); [|rewrite Hk in *; cbn in *; split; [lia|done]].
  destruct Hk as (o & Ho & Hb & _). rewrite Ho in *. cbn in *. split; [lia|]. intros o' [= <-]. lia.
Qed.

(** A swap that changes no object, and one that writes *)
Definition swapped (key : string) (expected : option Z) (bytes : string) (s s' : Dir) (r : Result bool) (w : World) : Prop :=
  exists w', step possible node w (BCas key expected bytes) r w' /\ represents (files s') (bucket w') /\ tree s' /\
    (forall k, is_Some (files s !! k) -> is_Some (files s' !! k)).
Lemma not_swapped key expected bytes s s' r w : represents (files s) (bucket w) -> tree s -> dir_locked s s' ->
  r <> Ok true -> swapped key expected bytes s s' r w.
Proof.
  intros Hrep Ht [F D T] Hne. exists w. rewrite F. split_and!; [by left|done|by apply T|done].
Qed.

Lemma compare_and_swap_refines key expected bytes s s' r w :
  represents (files s) (bucket w) -> tree s -> compare_and_swap key expected bytes s = (s', r) ->
  swapped key expected bytes s s' r w.
Proof.
  intros Hrep Ht H. pose proof (not_swapped key expected bytes s s' r w Hrep Ht) as Hno. unfold compare_and_swap in H.
  apply fs_bind_inv in H as [(path & s1 & Hp & H)|(e & Hp & ->)]; [|injection Hp as -> _; by apply Hno; [apply same_locked|]].
  injection Hp as <- Hp. assert (Hpath : object_path key = Ok key).
  { unfold object_path in Hp |- *. apply bind_ok in Hp as (u & -> & _). done. }
  assert (path = key) as -> by congruence.
  apply fs_bind_inv in H as [([] & s2 & Hl & H)|(e & Hl & ->)]; apply lock_object_spec in Hl as [Hl Hpar]; [|by apply Hno].
  specialize (Hpar eq_refl). assert (Hrep2 : represents (files s2) (bucket w)) by (by rewrite (lk_files _ _ Hl)).
  assert (Hno2 : same s2 s' -> r <> Ok true -> swapped key expected bytes s s' r w).
  { intros Hs. apply Hno. eapply locked_trans; [done|by apply same_locked]. }
  apply fs_bind_inv in H as [(file & s3 & Ho & H)|(e & Ho & ->)]; apply open_spec in Ho as [Hs3 Ho]; [|by apply Hno2].
  assert (Ho3 : opened s3 key (Ok file)) by (unfold opened in *; by rewrite (proj1 Hs3), (proj2 Hs3)).
  assert (Hrep3 : represents (files s3) (bucket w)) by (by rewrite (proj1 Hs3)).
  apply fs_bind_inv in H as [(current & s4 & Hc & H)|(e & Hc & ->)];
    apply (current_generation_spec s3 w key) in Hc as [Hs4 Hc]; [|done|done|apply Hno2; [by etrans|done]|done|done].
  destruct Hc as [[[= ->] Hd]|[e [=]]]. assert (Hs4' : same s2 s4) by (by etrans).
  case_bool_decide as Eg; cbn [negb] in H; [|injection H as -> <-; by apply Hno2].
  apply fs_bind_inv in H as [(g & s5 & Hg & H)|(e & Hg & ->)]; [|injection Hg as -> _; by apply Hno2].
  injection Hg as <- Hg. destruct (next_generation s3 w key g Hrep3 Hg) as [Hgb Hlt].
  apply fs_bind_inv in H as [(u6 & s6 & Hio & H)|(e & Hio & ->)]; apply fs_io_same in Hio; [|apply Hno2; [by etrans|done]].
  assert (Hs6 : same s2 s6) by (by etrans). destruct Hs6 as [F6 D6].
  assert (Hwrote : dirs s' = dirs s6 -> files s' = <[key := to_be_bytes g +:+ bytes]> (files s6) ->
    swapped key expected bytes s s' r w).
  { intros D F. exists (write_object key g bytes w). rewrite F, F6. split_and!.
    - right. exists g. auto.
    - by apply represents_insert.
    - eapply (insert_tree s2); [by apply Hl|congruence|by rewrite F, F6|done|]. by rewrite <-(proj2 Hs3).
    - intros k Hk. rewrite (lk_files _ _ Hl). destruct (decide (key = k)) as [<- |Hne];
        [by rewrite lookup_insert_eq|by rewrite lookup_insert_ne]. }
  apply fs_bind_inv in H as [(u7 & s7 & Hw & H)|(e & Hw & ->)]; apply commit_spec in Hw as [D7 Hw].
  - injection H as -> <-. destruct Hw as [[_ [e [=]]]|Hw]. by apply Hwrote.
  - destruct Hw as [[Hw _]|Hw]; [|by apply Hwrote]. apply Hno2; [|done]. split; congruence.
Qed.

(** ** A listing among other writers *)
Section walk.
(** The directory when the listing starts *)
Context (pre : string) (s0 : Dir).
Hypothesis paths_ok : forall k, is_Some (files s0 !! k) -> object_path k = Ok k.

(** The frame still has to return [n]. *)
Definition owes (fr : Frame) (n : string) : Prop := n ∈ fr_opened fr /\ n ∉ fr_seen fr.
(** [p] lies in the directory of [fr], in its entry [n]. *)
Definition below (fr : Frame) (n : string) (p : Path) : Prop := exists rest, p = (fr_base fr ++ n :: rest)%list.

Fixpoint nested (calls : list Frame) : Prop :=
  match calls with
  | [] => True
  | fr :: outer => (forall o, o ∈ outer -> exists n, n ∈ fr_seen o /\ below o n (fr_base fr)) /\ nested outer
  end.

Record walk_ok (s : Dir) (calls : list Frame) (objects : list string) : Prop := {
  wo_tree : tree s;
  wo_files : forall k, is_Some (files s0 !! k) -> is_Some (files s !! k);
  wo_found : forall k, k ∈ objects -> is_Some (files s !! k) /\ starts_with pre k = true;
  (* every matching object of the start is found or will be *)
  wo_due : forall k, is_Some (files s0 !! k) -> starts_with pre k = true ->
    k ∈ objects \/ exists fr n, fr ∈ calls /\ owes fr n /\ below fr n (parts k);
  (* what was found lies in entries that were returned *)
  wo_seen : forall k fr n, k ∈ objects -> fr ∈ calls -> below fr n (parts k) -> n ∈ fr_seen fr;
  wo_nested : nested calls;
  wo_nodup : NoDup objects }.

Lemma below_unique fr n m p : below fr n p -> below fr m p -> n = m.
Proof. intros [r1 ->] [r2 E]. apply app_inv_head in E. by injection E. Qed.
Lemma below_app fr n b p : below fr n b -> below fr n (b ++ p)%list.
Proof. intros [rest ->]. exists (rest ++ p)%list. by rewrite <-app_assoc. Qed.
Lemma saw_owes n fr m : owes (saw n fr) m <-> owes fr m /\ m <> n.
Proof. unfold owes. cbn. set_solver. Qed.

(** A path through an entry of a directory: the entry itself, or something in it *)
Lemma entry_cases s k base n rest : tree s -> is_Some (files s !! k) -> parts k = (base ++ n :: rest)%list ->
  if bool_decide ((base ++ [n])%list ∈ dirs s) then exists m rest', rest = m :: rest' /\ m ∈ names s (base ++ [n])
  else rest = [].
Proof.
  intros [T1 T2] Hk Hp.
  assert (Hin : forall m rest', rest = m :: rest' -> (base ++ [n])%list ∈ dirs s).
  { intros m rest' ->. eapply T1; [exact Hk|]. apply in_parents. split; [by destruct base|].
    exists m, rest'. by rewrite Hp, <-app_assoc. }
  case_bool_decide as Ed; [|destruct rest as [|m rest']; [done|by destruct Ed; eapply Hin]].
  destruct rest as [|m rest']; [by destruct (T2 k Hk); rewrite Hp|]. exists m, rest'. split; [done|].
  apply names_spec. destruct rest' as [|x rest']; [right; exists k; by rewrite Hp, <-app_assoc|]. left.
  eapply T1; [exact Hk|]. apply in_parents. split; [by destruct base|]. exists x, rest'. by rewrite Hp, <-!app_assoc.
Qed.
(** Components of a bucket's paths are not hidden. *)
Lemma visible_part k base n rest : object_path k = Ok k -> parts k = (base ++ n :: rest)%list -> starts_with "." n = false.
Proof.
  intros Hk Hp. unfold object_path in Hk. apply bind_ok in Hk as (u & Hk%ensure_ok & _).
  apply andb_true_iff in Hk as [_ Hk]. rewrite forallb_forall in Hk. specialize (Hk n).
  rewrite <-list_elem_of_In in Hk. fold (parts k) in Hk. rewrite Hp in Hk.
  assert (n ∈ (base ++ n :: rest)%list) as Hn by set_solver. specialize (Hk Hn).
  apply andb_true_iff in Hk as [Hk _]. apply andb_true_iff in Hk as [_ Hk]. by apply negb_true_iff in Hk.
Qed.

Lemma walk_swap s calls objects s' : walk_ok s calls objects -> tree s' ->
  (forall k, is_Some (files s !! k) -> is_Some (files s' !! k)) -> walk_ok s' calls objects.
Proof.
  intros [T F Fo D S N ND] Ht Hf. split; [done|by auto| |done|done|done|done].
  intros k Hk. destruct (Fo k Hk). auto.
Qed.

(** The innermost directory returns an entry [n] that it had not returned before. *)
Lemma saw_nested n fr calls : nested (fr :: calls) -> nested (saw n fr :: calls).
Proof. intros [H1 H2]. split; [exact H1|exact H2]. Qed.
Lemma walk_hidden s fr calls objects n : walk_ok s (fr :: calls) objects -> starts_with "." n = true ->
  walk_ok s (saw n fr :: calls) objects.
Proof using paths_ok.
  intros [T F Fo D S N ND] Hn. split; [done|done|done| | |by apply saw_nested|done].
  - intros k Hk Hp. destruct (D k Hk Hp) as [?|(fr' & m & Hin & Ho & Hb)]; [by left|]. right.
    apply elem_of_cons in Hin as [-> |Hin]; [|exists fr', m; split_and!; [by right|done|done]].
    exists (saw n fr), m. split_and!; [by left| |done]. apply saw_owes. split; [done|]. intros ->.
    destruct Hb as [rest Hb]. rewrite (visible_part k _ _ _ (paths_ok k Hk) Hb) in Hn. done.
  - intros k fr' m Hk [-> |Hin]%elem_of_cons Hb; [|by eapply S; [|right|]]. cbn. right.
    by eapply (S k fr); [|left|].
Qed.
Lemma walk_directory s fr calls objects n : walk_ok s (fr :: calls) objects -> n ∉ fr_seen fr ->
  (fr_base fr ++ [n])%list ∈ dirs s ->
  walk_ok s (open_dir s (fr_base fr ++ [n]) :: saw n fr :: calls) objects.
Proof.
  intros [T F Fo D S N ND] Hn Hd. split; [done|done|done| | | |done].
  - intros k Hk Hp. destruct (D k Hk Hp) as [?|(fr' & m & Hin & Ho & Hb)]; [by left|]. right.
    apply elem_of_cons in Hin as [-> |Hin]; [|exists fr', m; split_and!; [by do 2 right|done|done]].
    destruct (decide (m = n)) as [-> |Hne].
    + destruct Hb as [rest Hb]. pose proof (entry_cases s k _ _ _ T (F k Hk) Hb) as Hc.
      rewrite bool_decide_true in Hc by done. destruct Hc as (m & rest' & -> & Hm).
      exists (open_dir s (fr_base fr ++ [n])), m. split_and!; [by left|split; [done|by apply not_elem_of_nil]|].
      exists rest'. cbn. by rewrite Hb, <-app_assoc.
    + exists (saw n fr), m. split_and!; [right; by left|by apply saw_owes|done].
  - intros k fr' m Hk Hin Hb. apply elem_of_cons in Hin as [-> |Hin].
    + destruct Hn. eapply (S k fr); [done|by left|]. destruct Hb as [rest Hb]. cbn in Hb.
      exists (m :: rest). by rewrite Hb, <-app_assoc.
    + apply elem_of_cons in Hin as [-> |Hin]; [|by eapply S; [|right|]]. cbn. right. by eapply (S k fr); [|left|].
  - destruct N as [N1 N2]. split; [|split; [exact N1|exact N2]]. intros o [-> |Ho]%elem_of_cons.
    + exists n. split; [by left|]. by exists [].
    + destruct (N1 o Ho) as (m & Hm & Hb). exists m. split; [done|]. by apply below_app.
Qed.
Lemma walk_file s fr calls objects n : walk_ok s (fr :: calls) objects -> n ∉ fr_seen fr ->
  n ∈ names s (fr_base fr) -> (fr_base fr ++ [n])%list ∉ dirs s ->
  let key := join (fr_base fr ++ [n]) in
  walk_ok s (saw n fr :: calls) (if starts_with pre key then objects ++ [key] else objects)%list.
Proof.
  intros [T F Fo D S N ND] Hn Hin Hd key. apply names_spec in Hin as [?|(k & Hk & Ek)]; [done|].
  assert (key = k) as -> by (unfold key; by rewrite <-Ek, join_parts).
  assert (Hnew : k ∉ objects).
  { intros Hin. destruct Hn. eapply (S k fr); [done|by left|]. exists []. done. }
  split; [done|done| | | |by apply saw_nested|].
  - intros k' Hk'. destruct (starts_with pre k) eqn:Ep; [|by apply Fo].
    apply elem_of_app in Hk' as [?| ->%list_elem_of_singleton]; [by apply Fo|done].
  - intros k' Hk' Hp. destruct (D k' Hk' Hp) as [?|(fr' & m & Hin & Ho & Hb)].
    { left. destruct (starts_with pre k); [apply elem_of_app; by left|done]. }
    apply elem_of_cons in Hin as [-> |Hin].
    2: { right. exists fr', m. split_and!; [by right|done|done]. }
    destruct (decide (m = n)) as [-> |Hne].
    2: { right. exists (saw n fr), m. split_and!; [by left|by apply saw_owes|done]. }
    left. destruct Hb as [rest Hb]. pose proof (entry_cases s k' _ _ _ T (F k' Hk') Hb) as Hc.
    rewrite bool_decide_false in Hc by done. subst rest.
    assert (k' = k) as -> by (rewrite <-(join_parts k'), <-(join_parts k); congruence).
    rewrite Hp. apply elem_of_app. right. by apply list_elem_of_singleton.
  - intros k' fr' m Hk' Hin Hb.
    assert (Hcase : k' ∈ objects \/ k' = k).
    { destruct (starts_with pre k); [|by left]. by apply elem_of_app in Hk' as [?|?%list_elem_of_singleton]; [left|right]. }
    destruct N as [N1 _]. apply elem_of_cons in Hin as [-> |Hin].
    + destruct Hcase as [Hk0| ->]; [right; by eapply (S k' fr); [|left|]|].
      assert (m = n) as -> by (eapply (below_unique fr); [exact Hb|by exists []]). by left.
    + destruct Hcase as [Hk0| ->]; [by eapply S; [|right|]|]. destruct (N1 _ Hin) as (m' & Hm' & Hb').
      assert (m = m') as -> by (eapply (below_unique fr'); [exact Hb|]; rewrite Ek; by apply below_app). done.
  - destruct (starts_with pre k); [|done]. apply NoDup_app. split_and!; [done| |apply NoDup_singleton].
    by intros x Hx ->%list_elem_of_singleton.
Qed.
Lemma walk_end s fr calls objects : walk_ok s (fr :: calls) objects ->
  forallb (fun n => bool_decide (n ∈ fr_seen fr)) (fr_opened fr) = true -> walk_ok s calls objects.
Proof.
  intros [T F Fo D S N ND] Hall. rewrite forallb_forall in Hall. split; [done|done|done| | |by apply N|done].
  - intros k Hk Hp. destruct (D k Hk Hp) as [?|(fr' & m & Hin & [Ho Hs] & Hb)]; [by left|]. right.
    apply elem_of_cons in Hin as [-> |Hin]; [|by exists fr', m].
    specialize (Hall m). rewrite <-list_elem_of_In in Hall. specialize (Hall Ho). by bools.
  - intros k fr' m Hk Hin. eapply S; [done|by right].
Qed.
Lemma walk_start : tree s0 -> walk_ok s0 [open_dir s0 []] [].
Proof.
  intros Ht. split; [done|done|by intros k ?%elem_of_nil| |by intros k fr n ?%elem_of_nil| |constructor].
  - intros k Hk Hp. right. destruct (parts k) as [|n rest] eqn:Ep.
    { pose proof (join_parts k) as Ej. rewrite Ep in Ej. cbn in Ej. subst k. done. }
    exists (open_dir s0 []), n. split_and!; [by left| |by exists rest]. split; [|by apply not_elem_of_nil].
    apply names_spec. destruct rest as [|m rest]; [right; by exists k|]. left.
    eapply tree_dirs; [done|exact Hk|]. rewrite Ep. apply in_parents. split; [done|]. by exists m, rest.
  - split; [|done]. by intros o ?%elem_of_nil.
Qed.
End walk.

Definition other_writes (w w' : World) : Prop :=
  exists key expected bytes r, step possible node w (BCas key expected bytes) r w'.
(** What a listing ends with *)
Definition ended (pre : string) (s0 s : Dir) (r : Result (list string)) : Prop :=
  (exists e, r = Err e) \/ exists objects, r = Ok (merge_sort string_leb objects) /\ walk_ok pre s0 s [] objects.

Lemma run_listing_spec pre s0 inputs : (forall k, is_Some (files s0 !! k) -> object_path k = Ok k) ->
  forall s calls objects w s' r, walk_ok pre s0 s calls objects -> represents (files s) (bucket w) ->
  run_listing pre inputs (s, Walking calls objects) = Some (s', Listed r) ->
  exists w', rtc other_writes w w' /\ represents (files s') (bucket w') /\ ended pre s0 s' r.
Proof.
  intros Hpaths. induction inputs as [|i inputs IH]; intros s calls objects w s' r Hok Hrep Hrun; [done|].
  destruct calls as [|fr calls]; [done|].
  assert (Hlast : forall r0, run_listing pre inputs (s, Listed r0) = Some (s', Listed r) -> s' = s /\ r = r0).
  { intros r0. destruct inputs; [|done]. by intros [= <- <-]. }
  destruct i as [key expected bytes|n| |]; cbn -[compare_and_swap] in Hrun.
  - destruct (compare_and_swap key expected bytes s) as [s1 b] eqn:Ec.
    destruct (compare_and_swap_refines key expected bytes s s1 b w Hrep (wo_tree _ _ _ _ _ Hok) Ec)
      as (w1 & Hstep & Hrep1 & Ht1 & Hf1).
    destruct (IH s1 (fr :: calls) objects w1 s' r (walk_swap _ _ _ _ _ _ Hok Ht1 Hf1) Hrep1 Hrun) as (w' & Hr & Hrest).
    exists w'. split; [|done]. eapply rtc_l; [|done]. by exists key, expected, bytes, b.
  - case_bool_decide as Hseen; [done|]. cbn [orb] in Hrun. case_bool_decide as Hin; [|done]. cbn [negb] in Hrun.
    destruct (starts_with "." n) eqn:Eh; [by eapply IH; [eapply walk_hidden|..]|].
    case_bool_decide as Hd; [by eapply IH; [eapply walk_directory|..]|].
    by eapply IH; [eapply walk_file|..].
  - destruct (forallb _ _) eqn:Eall; [|done]. apply walk_end in Hok; [|done]. destruct calls as [|fr' calls].
    + apply Hlast in Hrun as [-> ->]. exists w. split_and!; [reflexivity|done|]. right. by exists objects.
    + by eapply IH.
  - apply Hlast in Hrun as [-> ->]. exists w. split_and!; [reflexivity|done|]. left. by eexists.
Qed.

(** An undisturbed listing comes to its end: the directories are finitely deep. *)
Lemma run_listing_app pre a b st : run_listing pre (a ++ b)%list st = run_listing pre a st ≫= run_listing pre b.
Proof. revert st. induction a as [|i a IH]; intros st; [done|]. cbn. destruct (list_step pre i st); [apply IH|done]. Qed.
Definition returned (s : Dir) (calls : list Frame) (objects : list string) : Dir * Listing :=
  (s, match calls with [] => Listed (Ok (merge_sort string_leb objects)) | _ => Walking calls objects end).
Definition depth_ok (s : Dir) (base : Path) (m : nat) : Prop :=
  forall q, (base ++ q)%list ∈ dirs s -> (length q <= m)%nat.
Lemma listing_finishes pre s m : forall (todo : list string) fr calls objects, depth_ok s (fr_base fr) m ->
  (forall n, n ∈ todo -> n ∈ names s (fr_base fr)) ->
  (forall n, n ∈ fr_opened fr -> n ∈ fr_seen fr \/ n ∈ todo) ->
  exists inputs objects', run_listing pre inputs (s, Walking (fr :: calls) objects) = Some (returned s calls objects').
Proof.
  induction m as [m IHm] using lt_wf_ind. induction todo as [|n todo IH]; intros fr calls objects Hdepth Htodo Hopen.
  { exists [EndOfDirectory], objects. cbn. rewrite (proj2 (forallb_forall _ _)); [done|].
    intros n Hn%list_elem_of_In. apply bool_decide_eq_true_2. by destruct (Hopen n Hn) as [?|?%elem_of_nil]. }
  destruct (decide (n ∈ fr_seen fr)) as [Hs|Hs].
  { apply IH; [done|intros x Hx; apply Htodo; by right|]. intros x Hx.
    destruct (Hopen x Hx) as [?|[-> |?]%elem_of_cons]; auto. }
  assert (Hnext : forall objects, exists inputs objects',
    run_listing pre inputs (s, Walking (saw n fr :: calls) objects) = Some (returned s calls objects')).
  { intros objects0. apply IH; [done|intros x Hx; apply Htodo; by right|]. intros x Hx. cbn.
    destruct (Hopen x Hx) as [?|[-> |?]%elem_of_cons]; [left; by right|left; by left|by right]. }
  assert (Hstep : forall st', list_step pre (Entry n) (s, Walking (fr :: calls) objects) = Some st' ->
    (exists inputs objects', run_listing pre inputs st' = Some (returned s calls objects')) ->
    exists inputs objects', run_listing pre inputs (s, Walking (fr :: calls) objects) = Some (returned s calls objects')).
  { intros st' E (inputs & objects' & Hr). exists (Entry n :: inputs), objects'. cbn [run_listing]. rewrite E. exact Hr. }
  pose proof (Htodo n ltac:(by left)) as Hin.
  cbn [list_step] in Hstep. rewrite bool_decide_false, bool_decide_true in Hstep by done. cbn [orb negb] in Hstep.
  destruct (starts_with "." n); [by eapply Hstep|]. case_bool_decide as Hd; [|by eapply Hstep].
  eapply Hstep; [done|].
  pose proof (Hdepth [n] Hd) as Hlen. cbn in Hlen.
  destruct (IHm (m - 1)%nat ltac:(lia) (names s (fr_base fr ++ [n])) (open_dir s (fr_base fr ++ [n])) (saw n fr :: calls) objects)
    as (inputs & objects' & Hr); [|done|by right|].
  { intros q Hq. cbn in Hq. rewrite <-app_assoc in Hq. apply Hdepth in Hq. cbn in Hq. lia. }
  destruct (Hnext objects') as (inputs' & objects'' & Hr'). exists (inputs ++ inputs')%list, objects''.
  by rewrite run_listing_app, Hr.
Qed.
Lemma list_undisturbed pre s : exists inputs l, run_listing pre inputs (s, start_listing s) = Some (s, Listed (Ok l)).
Proof.
  destruct (listing_finishes pre s (list_max (length <$> elements (dirs s))) (names s []) (open_dir s []) [] [])
    as (inputs & objects & Hr); [|done|by right|exists inputs, (merge_sort string_leb objects); exact Hr].
  intros q Hq. cbn in Hq. apply elem_of_elements in Hq.
  assert (Forall (fun k => k <= list_max (length <$> elements (dirs s)))%nat (length <$> elements (dirs s))) as Hall
    by (apply list_max_le; reflexivity). rewrite Forall_fmap, Forall_forall in Hall. by apply Hall.
Qed.

(** C29: the file bucket is a bucket.  If a directory represents the contents of a
    bucket, then whatever file operations fail: a read reports the current object or
    fails; a compare-and-swap that reports success was applied with a larger generation,
    one that reports a mismatch was not applied, one that fails was applied or not, and
    the directory represents the bucket afterwards.  A listing takes no lock.  While it
    walks the directories, other writers may swap objects between any two of its file
    operations; the objects it reports are then sorted, without duplicates, match the
    prefix, include every matching object that existed when it started, and all exist
    when it ends.  This is the step that the storage protocol assumes of a listing.  If
    nothing fails and nobody writes, it comes to its end. *)
Theorem file_bucket_refines key expected bytes pre s w :
  represents (files s) (bucket w) -> tree s ->
  (let '(s', r) := get key s in
   files s' = files s /\ step possible node w (BGet key) r w) /\
  (let '(s', r) := compare_and_swap key expected bytes s in
   exists w', step possible node w (BCas key expected bytes) r w' /\ represents (files s') (bucket w') /\ tree s') /\
  (forall inputs s' r, run_listing pre inputs (s, start_listing s) = Some (s', Listed r) ->
     step possible node w (BList pre) r w /\
     exists w', rtc other_writes w w' /\ represents (files s') (bucket w') /\
       forall l, r = Ok l -> Sorted string_leb l /\ forall k, k ∈ l -> is_Some (bucket w' !! k)) /\
  (exists inputs l, run_listing pre inputs (s, start_listing s) = Some (s, Listed (Ok l))).
Proof.
  intros Hrep Ht. split_and!; [| | |apply list_undisturbed].
  - destruct (get key s) as [s' r] eqn:E. destruct (get_refines key s s' r w Hrep E) as [[F _] Hs]. done.
  - destruct (compare_and_swap key expected bytes s) as [s' r] eqn:E.
    destruct (compare_and_swap_refines key expected bytes s s' r w Hrep Ht E) as (w' & ? & ? & ? & _). by exists w'.
  - intros inputs s' r Hrun.
    assert (Hpaths : forall k, is_Some (files s !! k) -> object_path k = Ok k) by (by intros k [c Hk]; eapply rep_some).
    destruct (run_listing_spec pre s inputs Hpaths s _ _ w s' r (walk_start pre s Ht) Hrep Hrun) as (w' & Hw & Hrep' & Hend).
    destruct Hend as [[e ->]|(objects & -> & [_ _ Fo D _ _ ND])].
    { split; [split; [done|right; by eexists]|]. exists w'. split_and!; [done|done|discriminate]. }
    split.
    + split; [done|]. left. eexists. split; [done|]. split_and!.
      * by rewrite merge_sort_Permutation.
      * intros k [o Ho] Hp. rewrite merge_sort_Permutation.
        destruct (files s !! k) as [c|] eqn:Ek; [|by rewrite (rep_none _ _ Hrep) in Ho].
        destruct (D k ltac:(by rewrite Ek) Hp) as [?|(fr & n & ?%elem_of_nil & _)]; done.
      * intros k. rewrite merge_sort_Permutation. intros Hk. by apply Fo.
    + exists w'. split_and!; [done|done|]. intros l [= <-]. split; [apply (Sorted_merge_sort _)|].
      intros k. rewrite merge_sort_Permutation. intros Hk. destruct (Fo k Hk) as [[c Hc] _].
      apply (rep_some _ _ Hrep') in Hc as (_ & o & Ho & _). by exists o.
Qed.
End refinement.

(** * Runs *)
(** A compare-and-swap on an empty directory whose rename is reported as failed
    although it was applied, and its repetition, which sees the object *)
Definition faulty_dir : Dir := {| files := ∅; dirs := ∅; schedule := [Fine; Fine; Fine; Fine; Fine; FailsAfter] |}.
Definition empty_bucket : World := {| bucket := ∅; past := ∅; owned_map := ∅; sessions_map := ∅ |}.

Lemma faulty_represents : represents (files faulty_dir) (bucket empty_bucket) /\ tree faulty_dir.
Proof.
  split; split; cbn; [| |intros k b|intros k]; [|done|rewrite lookup_empty; by intros []..].
  intros key c. by rewrite lookup_empty.
Qed.

Lemma file_bucket_refines_witness :
  exists r w', (compare_and_swap "a/b" None "x" faulty_dir).2 = r /\ r = Err "I/O error" /\
    step (fun _ _ _ _ => True) 0 empty_bucket (BCas "a/b" None "x") r w' /\
    (get "a/b" (compare_and_swap "a/b" None "x" faulty_dir).1).2
      = Ok (Some {| generation := 1; bytes_of := "x" |}).
Proof.
  destruct (file_bucket_refines (fun _ _ _ _ => True) 0 "a/b" None "x" "" faulty_dir empty_bucket)
    as (_ & H & _); [apply faulty_represents|apply faulty_represents|].
  assert (E : compare_and_swap "a/b" None "x" faulty_dir
    = ((compare_and_swap "a/b" None "x" faulty_dir).1, Err "I/O error")) by (vm_compute; reflexivity).
  rewrite E in H. destruct H as (w' & Hstep & _). exists (Err "I/O error"), w'.
  split; [vm_compute; reflexivity|]. split; [reflexivity|]. split; [exact Hstep|].
  vm_compute. reflexivity.
Defined.

(** A listing is not a snapshot: while it is in the directory [b], another host writes
    an object behind it, in [a], and then one ahead of it, in [c]; only the second is
    reported. *)
Definition two_dirs : Dir :=
  (compare_and_swap "b/1" None "x" (compare_and_swap "a/1" None "x" {| files := ∅; dirs := ∅; schedule := [] |}).1).1.
Example listing_between_writes : exists s,
  run_listing "" [Entry "a"; Entry "1"; EndOfDirectory; Entry "b"; OtherSwaps "a/2" None "x"; OtherSwaps "c/1" None "x";
    Entry "1"; EndOfDirectory; Entry "c"; Entry "1"; EndOfDirectory; EndOfDirectory] (two_dirs, start_listing two_dirs)
  = Some (s, Listed (Ok ["a/1"; "b/1"; "c/1"])) /\ is_Some (files s !! "a/2").
Proof. eexists. split; [vm_compute; reflexivity|]. vm_compute. by eexists. Qed.
