(* ===== verification/HostRequests.v ===== *)
(** Requests inside a host: [ActorOperation] and [ActorRequest] of
    host/actor_host.rs, and the inventory of waiting requests, host/queues.rs.

    A oneshot channel is named by a number.  The trace span and the timings of a
    request are left out. *)

From S2P Require Import Prelude.
From S2P Require Import Actors.
From S2P Require Import StoragePaths.
From S2P Require Import Snapshots.
From S2P Require Import RuntimeStorage.
From S2P Require Import SocketEffects.
From S2P Require Import ActorRuntime.
Local Open Scope string_scope.
Local Open Scope Z_scope.

Abbreviation channel := nat (only parsing).

(** * Operations *)
Inductive ActorOperation :=
| Activate (actor : ActorKey) (reply : channel)
| Method (invocation : ActorInvocation)
| Socket (invocation : ActorSocketInvocation).

Definition commit_origin (op : ActorOperation) : CommitOrigin :=
  match op with
  | Socket i => CommitOrigin_socket (sock_event i)
  | _ => CommitOrigin_default
  end.

Definition resets_idle_timer (op : ActorOperation) : bool :=
  match op with
  | Activate _ _ | Method _ => true
  | Socket i => match sock_event i with Message _ _ => true | _ => false end
  end.

Definition operation_actor (op : ActorOperation) : ActorKey :=
  match op with
  | Activate actor _ => actor
  | Method i => inv_actor i
  | Socket i => sock_actor i
  end.

Definition is_disconnect (op : ActorOperation) : bool :=
  match op with
  | Socket i => match sock_event i with Disconnect _ _ _ _ => true | _ => false end
  | _ => false
  end.

Definition activation_invocation (actor : ActorKey) : ActorInvocation :=
  {| request_id := "activate"; inv_actor := actor; method := "activate"; args := [] |}.

Definition operation_invocation (op : ActorOperation) : ActorInvocation :=
  match op with
  | Activate actor _ => activation_invocation actor
  | Method i => i
  | Socket i => {| request_id := sock_request_id i; inv_actor := sock_actor i;
                   method := socket_event_name (sock_event i); args := [] |}
  end.

Definition operation_validate (op : ActorOperation) : Result unit :=
  ActorInvocation_validate (operation_invocation op).

Definition is_activate (op : ActorOperation) : bool :=
  match op with Activate _ _ => true | _ => false end.

(** * Requests and completions *)
Record ActorRequest := {
  rq_waiting : option string;
  rq_operation : ActorOperation;
  rq_owner_epoch : Z;
  rq_reply : channel }.

Definition set_waiting (w : option string) (r : ActorRequest) : ActorRequest :=
  {| rq_waiting := w; rq_operation := rq_operation r; rq_owner_epoch := rq_owner_epoch r;
     rq_reply := rq_reply r |}.
Definition set_operation (op : ActorOperation) (r : ActorRequest) : ActorRequest :=
  {| rq_waiting := rq_waiting r; rq_operation := op; rq_owner_epoch := rq_owner_epoch r;
     rq_reply := rq_reply r |}.

Record ActorCompletion := {
  cp_resets_idle_timer : bool;
  cp_object : ActorStorageKey;
  cp_reply : channel;
  cp_result : Result ActorExecutionResult }.

Definition completion_of (object : ActorStorageKey) (r : ActorRequest)
  (result : Result ActorExecutionResult) : ActorCompletion :=
  {| cp_resets_idle_timer := resets_idle_timer (rq_operation r); cp_object := object;
     cp_reply := rq_reply r; cp_result := result |}.

(** * The inventory of waiting requests: the value of the watch channel *)
Abbreviation ActorQueues := (list ActorQueueInventory) (only parsing).

Definition push_waiting (w : WaitingOperation) (q : ActorQueueInventory) : ActorQueueInventory :=
  {| qi_actor := qi_actor q; qi_waiting := (qi_waiting q ++ [w])%list |}.

(** The first queue of the actor gets the operation; a missing one is added. *)
Fixpoint enqueue (actor : ActorKey) (id operation : string) (queues : ActorQueues) : ActorQueues :=
  match queues with
  | [] => [{| qi_actor := actor; qi_waiting := [{| op_id := id; operation := operation |}] |}]
  | q :: queues =>
      if bool_decide (qi_actor q = actor)
      then push_waiting {| op_id := id; operation := operation |} q :: queues
      else q :: enqueue actor id operation queues
  end.

Definition retain_waiting (id : string) (q : ActorQueueInventory) : ActorQueueInventory :=
  {| qi_actor := qi_actor q; qi_waiting := filter (fun w => op_id w <> id) (qi_waiting q) |}.

(** [WaitingRequest::drop] *)
Definition drop_waiting (id : string) (queues : ActorQueues) : ActorQueues :=
  filter (fun q => is_nil (qi_waiting q) = false) (retain_waiting id <$> queues).

Definition release_waiting (w : option string) (queues : ActorQueues) : ActorQueues :=
  match w with Some id => drop_waiting id queues | None => queues end.

(** What the inventory says about an actor's waiting requests *)
Definition inventory_of (actor : ActorKey) (waiting : list WaitingOperation) : ActorQueues :=
  match waiting with [] => [] | _ => [{| qi_actor := actor; qi_waiting := waiting |}] end.

Lemma enqueue_inventory actor id op waiting :
  enqueue actor id op (inventory_of actor waiting) =
  inventory_of actor (waiting ++ [{| op_id := id; operation := op |}]).
Proof. destruct waiting as [|w ws]; cbn; [done|]. by rewrite bool_decide_eq_true_2. Qed.

Lemma drop_inventory actor id waiting :
  drop_waiting id (inventory_of actor waiting) =
  inventory_of actor (filter (fun w => op_id w <> id) waiting).
Proof.
  unfold drop_waiting. destruct waiting as [|w ws]; [done|].
  cbn [inventory_of fmap list_fmap]. unfold retain_waiting. cbn [qi_waiting qi_actor].
  destruct (filter _ (w :: ws)) as [|w' ws'] eqn:E; cbn [inventory_of].
  - by rewrite filter_cons_False by (cbn; discriminate).
  - by rewrite filter_cons_True by done.
Qed.

Lemma list_filter_keep {A} (P : A -> Prop) `{forall x, Decision (P x)} (l : list A) :
  (forall x, x ∈ l -> P x) -> filter P l = l.
Proof.
  induction l as [|x l IH]; intros Hl; [done|]. rewrite filter_cons_True by (apply Hl; constructor).
  f_equal. apply IH. intros y Hy. apply Hl. by constructor.
Qed.

(** The waiting entry of a queued request *)
Definition waiting_of (r : ActorRequest) : option WaitingOperation :=
  id ← rq_waiting r; Some {| op_id := id; operation := method (operation_invocation (rq_operation r)) |}.
