(* ===== verification/HostDispatcher.v ===== *)
(** The dispatcher of a host: host/actor_host.rs.

    [HostDispatcher] is the state of the loop [run]; its handlers are functions.
    Everything it sends on reply channels, and every call of the executor, is
    recorded in order in [dp_sent].  The channel of requests to the actor task
    is shared with the task and kept in the mailbox.  [serve] is the body of the
    serial loop of [run_actor]. *)

From S2P Require Import Prelude.
From S2P Require Import Actors.
From S2P Require Import StoragePaths.
From S2P Require Import Snapshots.
From S2P Require Import RuntimeStorage.
From S2P Require Import SocketEffects.
From S2P Require Import ActorRuntime.
From S2P Require Import HostRequests.
Local Open Scope string_scope.
Local Open Scope Z_scope.

Definition MAX_ADMITTED_INVOCATIONS_PER_ACTOR : Z := 33.

(** [usize] subtraction, as compiled without overflow checks *)
Definition usize_sub (a b : Z) : Z := (a - b) mod (U64_MAX + 1).

(** * Data *)
Record ActorActivity := { ac_active : Z; ac_resident : bool; ac_last_active : Z }.

(** [am_queue], [am_closed]: the channel to the task *)
Record ActorMailbox := {
  am_actor : ActorKey;
  am_resident : bool;
  am_queue : list ActorRequest;
  am_closed : bool;
  am_admitted : Z;
  am_task_id : Z }.

Inductive HostCommand :=
| Ping (reply : channel)
| Invoke (request : ActorRequest)
| EvictIdle (last_active : Z) (reply : channel)
| Drain (reply : channel).

Inductive Output :=
| Replied (reply : channel) (result : Result ActorExecutionResult)
| Pong (reply : channel)
| EvictReply (reply : channel) (result : Result unit)
| Drained (reply : channel)
| EvictCall (actor : ActorKey).

Record HostDispatcher := {
  dp_last_active : Z;
  dp_mailbox : option ActorMailbox;
  dp_identity : option ActorStorageKey;
  dp_tasks : list Z;
  dp_accepting : bool;
  dp_activity : ActorActivity;
  dp_stopped : bool;
  dp_active : Z;
  dp_queues : ActorQueues;
  dp_drained : list channel;
  dp_sent : list Output }.

Definition HostDispatcher_new (now : Z) : HostDispatcher :=
  {| dp_last_active := now; dp_mailbox := None; dp_identity := None; dp_tasks := [];
     dp_accepting := true; dp_activity := {| ac_active := 0; ac_resident := false; ac_last_active := now |};
     dp_stopped := false; dp_active := 0; dp_queues := []; dp_drained := []; dp_sent := [] |}.

Definition set_mailbox_queue (q : list ActorRequest) (m : ActorMailbox) : ActorMailbox :=
  {| am_actor := am_actor m; am_resident := am_resident m; am_queue := q; am_closed := am_closed m;
     am_admitted := am_admitted m; am_task_id := am_task_id m |}.
Definition set_admitted (n : Z) (m : ActorMailbox) : ActorMailbox :=
  {| am_actor := am_actor m; am_resident := am_resident m; am_queue := am_queue m; am_closed := am_closed m;
     am_admitted := n; am_task_id := am_task_id m |}.
Definition set_resident (b : bool) (m : ActorMailbox) : ActorMailbox :=
  {| am_actor := am_actor m; am_resident := b; am_queue := am_queue m; am_closed := am_closed m;
     am_admitted := am_admitted m; am_task_id := am_task_id m |}.
Definition close_channel (m : ActorMailbox) : ActorMailbox :=
  {| am_actor := am_actor m; am_resident := am_resident m; am_queue := []; am_closed := true;
     am_admitted := am_admitted m; am_task_id := am_task_id m |}.

Section updates.
Context (d : HostDispatcher).
Definition set_last_active (t : Z) : HostDispatcher :=
  {| dp_last_active := t; dp_mailbox := dp_mailbox d; dp_identity := dp_identity d; dp_tasks := dp_tasks d;
     dp_accepting := dp_accepting d; dp_activity := dp_activity d; dp_stopped := dp_stopped d;
     dp_active := dp_active d; dp_queues := dp_queues d; dp_drained := dp_drained d; dp_sent := dp_sent d |}.
Definition set_mailbox (m : option ActorMailbox) (active : Z) : HostDispatcher :=
  {| dp_last_active := dp_last_active d; dp_mailbox := m; dp_identity := dp_identity d; dp_tasks := dp_tasks d;
     dp_accepting := dp_accepting d; dp_activity := dp_activity d; dp_stopped := dp_stopped d;
     dp_active := active; dp_queues := dp_queues d; dp_drained := dp_drained d; dp_sent := dp_sent d |}.
Definition set_identity (i : option ActorStorageKey) : HostDispatcher :=
  {| dp_last_active := dp_last_active d; dp_mailbox := dp_mailbox d; dp_identity := i; dp_tasks := dp_tasks d;
     dp_accepting := dp_accepting d; dp_activity := dp_activity d; dp_stopped := dp_stopped d;
     dp_active := dp_active d; dp_queues := dp_queues d; dp_drained := dp_drained d; dp_sent := dp_sent d |}.
Definition set_tasks (ts : list Z) : HostDispatcher :=
  {| dp_last_active := dp_last_active d; dp_mailbox := dp_mailbox d; dp_identity := dp_identity d; dp_tasks := ts;
     dp_accepting := dp_accepting d; dp_activity := dp_activity d; dp_stopped := dp_stopped d;
     dp_active := dp_active d; dp_queues := dp_queues d; dp_drained := dp_drained d; dp_sent := dp_sent d |}.
Definition set_accepting (b : bool) : HostDispatcher :=
  {| dp_last_active := dp_last_active d; dp_mailbox := dp_mailbox d; dp_identity := dp_identity d;
     dp_tasks := dp_tasks d; dp_accepting := b; dp_activity := dp_activity d; dp_stopped := dp_stopped d;
     dp_active := dp_active d; dp_queues := dp_queues d; dp_drained := dp_drained d; dp_sent := dp_sent d |}.
Definition set_stopped : HostDispatcher :=
  {| dp_last_active := dp_last_active d; dp_mailbox := dp_mailbox d; dp_identity := dp_identity d;
     dp_tasks := dp_tasks d; dp_accepting := dp_accepting d; dp_activity := dp_activity d; dp_stopped := true;
     dp_active := dp_active d; dp_queues := dp_queues d; dp_drained := dp_drained d; dp_sent := dp_sent d |}.
Definition set_host_queues (q : ActorQueues) : HostDispatcher :=
  {| dp_last_active := dp_last_active d; dp_mailbox := dp_mailbox d; dp_identity := dp_identity d;
     dp_tasks := dp_tasks d; dp_accepting := dp_accepting d; dp_activity := dp_activity d;
     dp_stopped := dp_stopped d; dp_active := dp_active d; dp_queues := q; dp_drained := dp_drained d;
     dp_sent := dp_sent d |}.
Definition set_drained (l : list channel) : HostDispatcher :=
  {| dp_last_active := dp_last_active d; dp_mailbox := dp_mailbox d; dp_identity := dp_identity d;
     dp_tasks := dp_tasks d; dp_accepting := dp_accepting d; dp_activity := dp_activity d;
     dp_stopped := dp_stopped d; dp_active := dp_active d; dp_queues := dp_queues d; dp_drained := l;
     dp_sent := dp_sent d |}.
Definition set_activity (a : ActorActivity) : HostDispatcher :=
  {| dp_last_active := dp_last_active d; dp_mailbox := dp_mailbox d; dp_identity := dp_identity d;
     dp_tasks := dp_tasks d; dp_accepting := dp_accepting d; dp_activity := a;
     dp_stopped := dp_stopped d; dp_active := dp_active d; dp_queues := dp_queues d;
     dp_drained := dp_drained d; dp_sent := dp_sent d |}.
Definition send (o : list Output) : HostDispatcher :=
  {| dp_last_active := dp_last_active d; dp_mailbox := dp_mailbox d; dp_identity := dp_identity d;
     dp_tasks := dp_tasks d; dp_accepting := dp_accepting d; dp_activity := dp_activity d;
     dp_stopped := dp_stopped d; dp_active := dp_active d; dp_queues := dp_queues d;
     dp_drained := dp_drained d; dp_sent := (dp_sent d ++ o)%list |}.
End updates.

(** * Handlers *)
Definition is_resident (d : HostDispatcher) : bool :=
  match dp_mailbox d with Some m => am_resident m | None => false end.

Definition publish_activity (d : HostDispatcher) : HostDispatcher :=
  let d := set_activity d {| ac_active := dp_active d; ac_resident := is_resident d;
                             ac_last_active := dp_last_active d |} in
  if dp_active d =? 0 then set_drained (send d (Drained <$> dp_drained d)) [] else d.

(** [ActorRequest::finish]: the reply is sent and the waiting entry dropped. *)
Definition finish_request (d : HostDispatcher) (r : ActorRequest) (result : Result ActorExecutionResult)
  : HostDispatcher :=
  set_host_queues (send d [Replied (rq_reply r) result]) (release_waiting (rq_waiting r) (dp_queues d)).

(** [start_actor], with the number of the spawned task *)
Definition start_actor (d : HostDispatcher) (actor : ActorKey) (task : Z) : HostDispatcher :=
  set_mailbox (set_tasks d (dp_tasks d ++ [task])%list)
    (Some {| am_actor := actor; am_resident := false; am_queue := []; am_closed := false;
             am_admitted := 0; am_task_id := task |}) (dp_active d).

Section dispatcher.
(** [executor.supports(actor_name)] *)
Context (supports : string -> bool).

Definition validate (d : HostDispatcher) (r : ActorRequest) : option (Result ActorExecutionResult) :=
  if negb (dp_accepting d) && negb (is_disconnect (rq_operation r)) then Some (Ok HostUnavailable)
  else
    match operation_validate (rq_operation r) with
    | Err error => Some (Err error)
    | Ok _ =>
        if negb (supports (actor_name (operation_actor (rq_operation r)))) then
          Some (Ok (failed "actor_error" "actor name is not loaded by this host"))
        else None
    end.

(** [mailbox.sender.try_send]: the channel takes 33 requests until it is closed. *)
Definition try_send (m : ActorMailbox) (r : ActorRequest) : option ActorMailbox :=
  if am_closed m || (MAX_ADMITTED_INVOCATIONS_PER_ACTOR <=? Z.of_nat (length (am_queue m))) then None
  else Some (set_mailbox_queue (am_queue m ++ [r])%list m).

(** [HostDispatcher::admit], with the number of a task it may spawn and the
    identifier of a waiting entry *)
Definition admit_to_host (d : HostDispatcher) (r : ActorRequest) (task : Z) (uuid : string) : HostDispatcher :=
  match validate d r with
  | Some result => finish_request d r result
  | None =>
      let actor := operation_actor (rq_operation r) in
      let object := storage_key actor in
      if match dp_identity d with Some identity => negb (String.eqb identity object) | None => false end then
        finish_request d r (Ok Reroute)
      else
        let d := set_identity d (Some (match dp_identity d with Some i => i | None => object end)) in
        let d := match dp_mailbox d with None => start_actor d actor task | Some _ => d end in
        match dp_mailbox d with
        | None => d
        | Some m =>
            if MAX_ADMITTED_INVOCATIONS_PER_ACTOR <=? am_admitted m then
              finish_request d r (Ok HostUnavailable)
            else
              let '(d, r) :=
                if is_activate (rq_operation r) then (d, r)
                else (set_host_queues d (enqueue actor uuid (method (operation_invocation (rq_operation r)))
                                           (dp_queues d)),
                      set_waiting (Some uuid) r) in
              match try_send m r with
              | Some m =>
                  publish_activity
                    (set_mailbox d (Some (set_admitted (am_admitted m + 1) (set_resident true m)))
                       (dp_active d + 1))
              | None => finish_request d r (Ok HostUnavailable)
              end
        end
  end.

(** [complete], at time [now] *)
Definition complete (d : HostDispatcher) (c : ActorCompletion) (now : Z) : HostDispatcher :=
  match dp_mailbox d with
  | None => d
  | Some m =>
      let d :=
        if 0 <? am_admitted m
        then set_mailbox d (Some (set_admitted (am_admitted m - 1) m)) (usize_sub (dp_active d) 1)
        else d in
      let d := if cp_resets_idle_timer c then set_last_active d now else d in
      send (publish_activity d) [Replied (cp_reply c) (cp_result c)]
  end.

(** [evict_idle], with the executor's answer should it be asked *)
Definition evict_idle (d : HostDispatcher) (last_active : Z) (evicted : Result unit)
  : HostDispatcher * Result unit :=
  if negb (dp_active d =? 0) || negb (dp_last_active d =? last_active) then (d, Ok ())
  else
    match dp_mailbox d with
    | Some m =>
        if am_resident m then
          let d := send d [EvictCall (am_actor m)] in
          match evicted with
          | Err e => (d, Err e)
          | Ok _ => (publish_activity (set_mailbox d (Some (set_resident false m)) (dp_active d)), Ok ())
          end
        else (d, Ok ())
    | None => (d, Ok ())
    end.

Definition task_stopped (d : HostDispatcher) (id : Z) : HostDispatcher :=
  let d :=
    match dp_mailbox d with
    | Some m =>
        if am_task_id m =? id
        then set_mailbox d (Some (set_admitted 0 m)) (usize_sub (dp_active d) (am_admitted m))
        else d
    | None => d
    end in
  publish_activity (set_stopped d).

(** The commands of [run]; the result says whether the loop goes on.  [gone] are
    the drain waiters that have given up. *)
Definition handle_command (d : HostDispatcher) (c : HostCommand) (task : Z) (uuid : string) (now : Z)
  (evicted : Result unit) (gone : channel -> bool) : HostDispatcher * bool :=
  match c with
  | Invoke r => (admit_to_host d r task uuid, true)
  | Ping reply => (send (publish_activity (set_last_active d now)) [Pong reply], true)
  | EvictIdle last_active reply =>
      let '(d, result) := evict_idle d last_active evicted in
      let d := send d [EvictReply reply result] in
      if is_ok result then (d, true) else (set_stopped d, false)
  | Drain reply =>
      let d := set_accepting d false in
      (publish_activity (set_drained d (filter (fun w => gone w = false) (dp_drained d) ++ [reply])%list), true)
  end.
End dispatcher.

(** * The serial actor task *)
Section task.
Context `{Json StateSnapshot, Json Value, Json ActorSocketEffect, Base64Std}.

(** What [run_actor] does with one request: its result and, for an activation,
    what is sent to the caller of the activation *)
Definition serve (r : ActorRequest) (accepting : bool)
  : M ActorRuntime (Result ActorExecutionResult * option (channel * Result ActorActivation)) :=
  if negb accepting && negb (is_disconnect (rq_operation r)) then mret (Ok HostUnavailable, None)
  else
    match rq_operation r with
    | Activate actor reply =>
        result ← try (ActorRuntime.activate_actor actor);
        mret (Ok (Completed Null []), Some (reply, result))
    | Method i => result ← try (invoke_actor i (rq_owner_epoch r)); mret (result, None)
    | Socket i => result ← try (handle_socket_event i (rq_owner_epoch r)); mret (result, None)
    end.
End task.

(** [submit_since]: a reply channel that is dropped means an unknown outcome. *)
Definition submitted (reply : option (Result ActorExecutionResult)) : Result ActorExecutionResult :=
  match reply with Some result => result | None => Ok unknown_outcome end.
