(* ===== verification/Admission.v ===== *)
(** Admitting requests to an actor: host/actor_host/admission.rs.

    [Mailbox] is the state of an actor task whose executor lets invocations
    interleave.  Its handlers are programs of the monad [M]; the loop [run] that
    selects between them is the relation [loop_step].  The channel to the
    dispatcher is the list of the completions sent, the activation replies the
    list of what was sent on them, and the waiting inventory is the value of the
    watch channel that the task shares with the dispatcher. *)

From S2P Require Import Prelude.
From S2P Require Import Actors.
From S2P Require Import StoragePaths.
From S2P Require Import Snapshots.
From S2P Require Import RuntimeStorage.
From S2P Require Import SocketEffects.
From S2P Require Import ActorRuntime.
From S2P Require Import HostRequests.
From stdpp Require Import gmap.
Local Open Scope string_scope.
Local Open Scope Z_scope.

Abbreviation Execution := (Result ActorMethodOutcome) (only parsing).

(** A future in [running]: its number, its request and the state it was given *)
Record Running := { rn_id : Z; rn_request : ActorRequest; rn_state : option Value }.

Record Mailbox := {
  mb_object : ActorStorageKey;
  mb_runtime : ActorRuntime;
  mb_completed : list ActorCompletion;
  mb_activations : list (channel * Result ActorActivation);
  mb_queues : ActorQueues;
  mb_running : list Running;
  mb_ready : gmap Z (Z * ActorRequest * ActorInterleavedOutcome);
  mb_next_invocation : Z;
  mb_blocked_on : option Z;
  mb_interleaved : bool;
  mb_next_sequence : Z }.

Section setters.
Context (mb : Mailbox).
Definition set_runtime (rt : ActorRuntime) : Mailbox :=
  {| mb_object := mb_object mb; mb_runtime := rt; mb_completed := mb_completed mb;
     mb_activations := mb_activations mb; mb_queues := mb_queues mb; mb_running := mb_running mb;
     mb_ready := mb_ready mb; mb_next_invocation := mb_next_invocation mb;
     mb_blocked_on := mb_blocked_on mb; mb_interleaved := mb_interleaved mb;
     mb_next_sequence := mb_next_sequence mb |}.
Definition set_queues (q : ActorQueues) : Mailbox :=
  {| mb_object := mb_object mb; mb_runtime := mb_runtime mb; mb_completed := mb_completed mb;
     mb_activations := mb_activations mb; mb_queues := q; mb_running := mb_running mb;
     mb_ready := mb_ready mb; mb_next_invocation := mb_next_invocation mb;
     mb_blocked_on := mb_blocked_on mb; mb_interleaved := mb_interleaved mb;
     mb_next_sequence := mb_next_sequence mb |}.
Definition send_completion (c : ActorCompletion) : Mailbox :=
  {| mb_object := mb_object mb; mb_runtime := mb_runtime mb; mb_completed := (mb_completed mb ++ [c])%list;
     mb_activations := mb_activations mb; mb_queues := mb_queues mb; mb_running := mb_running mb;
     mb_ready := mb_ready mb; mb_next_invocation := mb_next_invocation mb;
     mb_blocked_on := mb_blocked_on mb; mb_interleaved := mb_interleaved mb;
     mb_next_sequence := mb_next_sequence mb |}.
Definition send_activation (reply : channel) (r : Result ActorActivation) : Mailbox :=
  {| mb_object := mb_object mb; mb_runtime := mb_runtime mb; mb_completed := mb_completed mb;
     mb_activations := (mb_activations mb ++ [(reply, r)])%list; mb_queues := mb_queues mb;
     mb_running := mb_running mb;
     mb_ready := mb_ready mb; mb_next_invocation := mb_next_invocation mb;
     mb_blocked_on := mb_blocked_on mb; mb_interleaved := mb_interleaved mb;
     mb_next_sequence := mb_next_sequence mb |}.
Definition set_running (rs : list Running) : Mailbox :=
  {| mb_object := mb_object mb; mb_runtime := mb_runtime mb; mb_completed := mb_completed mb;
     mb_activations := mb_activations mb; mb_queues := mb_queues mb; mb_running := rs;
     mb_ready := mb_ready mb; mb_next_invocation := mb_next_invocation mb;
     mb_blocked_on := mb_blocked_on mb; mb_interleaved := mb_interleaved mb;
     mb_next_sequence := mb_next_sequence mb |}.
Definition set_ready (r : gmap Z (Z * ActorRequest * ActorInterleavedOutcome)) : Mailbox :=
  {| mb_object := mb_object mb; mb_runtime := mb_runtime mb; mb_completed := mb_completed mb;
     mb_activations := mb_activations mb; mb_queues := mb_queues mb; mb_running := mb_running mb;
     mb_ready := r; mb_next_invocation := mb_next_invocation mb;
     mb_blocked_on := mb_blocked_on mb; mb_interleaved := mb_interleaved mb;
     mb_next_sequence := mb_next_sequence mb |}.
Definition set_next_invocation (n : Z) : Mailbox :=
  {| mb_object := mb_object mb; mb_runtime := mb_runtime mb; mb_completed := mb_completed mb;
     mb_activations := mb_activations mb; mb_queues := mb_queues mb; mb_running := mb_running mb;
     mb_ready := mb_ready mb; mb_next_invocation := n;
     mb_blocked_on := mb_blocked_on mb; mb_interleaved := mb_interleaved mb;
     mb_next_sequence := mb_next_sequence mb |}.
Definition set_blocked_on (b : option Z) : Mailbox :=
  {| mb_object := mb_object mb; mb_runtime := mb_runtime mb; mb_completed := mb_completed mb;
     mb_activations := mb_activations mb; mb_queues := mb_queues mb; mb_running := mb_running mb;
     mb_ready := mb_ready mb; mb_next_invocation := mb_next_invocation mb;
     mb_blocked_on := b; mb_interleaved := mb_interleaved mb;
     mb_next_sequence := mb_next_sequence mb |}.
Definition set_interleaved : Mailbox :=
  {| mb_object := mb_object mb; mb_runtime := mb_runtime mb; mb_completed := mb_completed mb;
     mb_activations := mb_activations mb; mb_queues := mb_queues mb; mb_running := mb_running mb;
     mb_ready := mb_ready mb; mb_next_invocation := mb_next_invocation mb;
     mb_blocked_on := mb_blocked_on mb; mb_interleaved := true;
     mb_next_sequence := mb_next_sequence mb |}.
Definition set_next_sequence (n : Z) : Mailbox :=
  {| mb_object := mb_object mb; mb_runtime := mb_runtime mb; mb_completed := mb_completed mb;
     mb_activations := mb_activations mb; mb_queues := mb_queues mb; mb_running := mb_running mb;
     mb_ready := mb_ready mb; mb_next_invocation := mb_next_invocation mb;
     mb_blocked_on := mb_blocked_on mb; mb_interleaved := mb_interleaved mb;
     mb_next_sequence := n |}.
End setters.

Definition Mailbox_new (object : ActorStorageKey) (rt : ActorRuntime) (queues : ActorQueues) : Mailbox :=
  {| mb_object := object; mb_runtime := rt; mb_completed := []; mb_activations := [];
     mb_queues := queues; mb_running := []; mb_ready := ∅; mb_next_invocation := 0;
     mb_blocked_on := None; mb_interleaved := false; mb_next_sequence := 1 |}.

(** [u64] increment, as compiled without overflow checks *)
Definition u64_succ (n : Z) : Z := (n + 1) mod (U64_MAX + 1).

Definition modify (f : Mailbox -> Mailbox) : M Mailbox unit := mb ← get; put (f mb).

(** A call of a runtime method whose result the mailbox inspects *)
Definition with_runtime {A} (m : M ActorRuntime A) : M Mailbox (Result A) := fun mb =>
  hbind (m (mb_runtime mb)) (fun sr => HRet (set_runtime mb sr.1, Ok sr.2)).

Definition finish (request : ActorRequest) (result : Result ActorExecutionResult) : M Mailbox unit :=
  modify (fun mb => send_completion mb (completion_of (mb_object mb) request result));;
  modify (fun mb => set_queues mb (release_waiting (rq_waiting request) (mb_queues mb))).

Definition release (id : Z) : M Mailbox unit :=
  modify (fun mb => if bool_decide (mb_blocked_on mb = Some id) then set_blocked_on mb None else mb).

Definition stop (request : ActorRequest) : M Mailbox bool :=
  with_runtime (evict (operation_actor (rq_operation request)));;
  finish request (Ok unknown_outcome);;
  mret false.

Section mailbox.
Context `{Json StateSnapshot, Json Value, Json ActorSocketEffect, Base64Std}.

(** The executor is called with the request; a handled socket event has no result. *)
Definition execute (op : ActorOperation) (state : option Value) : hprog Execution :=
  match op with
  | Method i =>
      HVis (InvokeShared {| mi_request_id := request_id i; mi_actor := inv_actor i;
                            mi_method := method i; mi_args := args i |} state) HRet
  | Socket i =>
      HVis (HandleSocketShared i state) (fun r =>
        HRet (outcome ← r;
              Ok (match outcome with
                  | SocketInterleaved o => MethodInterleaved o
                  | SocketHandled st effects => MethodCompleted Null st effects
                  | SocketFailed f => MethodFailed f
                  end)))
  | Activate _ _ => HRet (Err "internal error: entered unreachable code")
  end.

Definition activate (request : ActorRequest) (actor : ActorKey) (reply : channel) : M Mailbox bool :=
  result ← with_runtime (ActorRuntime.activate_actor actor);
  let valid := is_ok result in
  modify (fun mb => send_activation mb reply result);;
  let request := set_operation (Method (activation_invocation actor)) request in
  finish request (Ok (Completed Null []));;
  mret valid.

Definition admit_request (request : ActorRequest) (accepting : bool) : M Mailbox bool :=
  let op := rq_operation request in
  if negb accepting && negb (is_disconnect op) then
    finish request (Ok HostUnavailable);; mret true
  else
    modify (fun mb => set_queues mb (release_waiting (rq_waiting request) (mb_queues mb)));;
    let request := set_waiting None request in
    match op with
    | Activate actor reply => activate request actor reply
    | _ =>
        prepared ← with_runtime
          (prepare_invocation (operation_invocation op) (rq_owner_epoch request)
             (match op with Method _ => true | _ => false end));
        match prepared with
        | Ok (PreparedCompleted result) => finish request (Ok result);; mret true
        | Err _ => stop request
        | Ok (Execute state) =>
            modify (fun mb => set_next_invocation mb (u64_succ (mb_next_invocation mb)));;
            mb ← get;
            let id := mb_next_invocation mb in
            modify (fun mb => set_blocked_on mb (Some id));;
            modify (fun mb => set_running mb
              (mb_running mb ++ [{| rn_id := id; rn_request := request; rn_state := state |}])%list);;
            mret true
        end
    end.

(** One turn of the loop of [commit_ready]; [Some] ends it. *)
Definition commit_next (id : Z) (request : ActorRequest) (outcome : ActorInterleavedOutcome)
  : M Mailbox (option bool) :=
  result ← with_runtime
    (commit_interleaved (operation_invocation (rq_operation request)) (rq_owner_epoch request)
       outcome (commit_origin (rq_operation request)));
  match result with
  | Ok (Completed value effects) =>
      modify (fun mb => set_next_sequence mb (u64_succ (mb_next_sequence mb)));;
      finish request (Ok (Completed value effects));;
      release id;;
      mret None
  | _ => stopped ← stop request; mret (Some stopped)
  end.

(** Every turn removes an entry, so the number of entries bounds the turns. *)
Fixpoint commit_loop (turns : nat) : M Mailbox bool :=
  match turns with
  | O => mret true
  | S turns =>
      mb ← get;
      match mb_ready mb !! mb_next_sequence mb with
      | None => mret true
      | Some (id, request, outcome) =>
          put (set_ready mb (delete (mb_next_sequence mb) (mb_ready mb)));;
          ended ← commit_next id request outcome;
          match ended with
          | Some result => mret result
          | None => commit_loop turns
          end
      end
  end.
Definition commit_ready : M Mailbox bool :=
  mb ← get; commit_loop (size (mb_ready mb)).

Definition application_failure (f : ActorInvocationFailure) : bool :=
  String.eqb (code f) "actor_method_failed" || String.eqb (code f) "actor_socket_failed"
  || String.eqb (code f) "method_not_found" || String.eqb (code f) "method_not_callable".

Definition executed (id : Z) (request : ActorRequest) (result : Execution) : M Mailbox bool :=
  match result with
  | Ok (MethodInterleaved outcome) =>
      modify set_interleaved;;
      mb ← get;
      if (sequence outcome <? mb_next_sequence mb)
         || bool_decide (is_Some (mb_ready mb !! sequence outcome))
      then stop request
      else
        put (set_ready mb (<[sequence outcome := (id, request, outcome)]> (mb_ready mb)));;
        commit_ready
  | _ =>
      mb ← get;
      if mb_interleaved mb then
        match result with
        | Ok (MethodFailed f) =>
            if application_failure f then
              finish request (Ok (failed "actor_error" (message f)));;
              release id;; mret true
            else stop request
        | _ => stop request
        end
      else
        result ← with_runtime
          (finish_serial (operation_invocation (rq_operation request)) (rq_owner_epoch request)
             result (commit_origin (rq_operation request)));
        finish request result;;
        release id;; mret true
  end.
End mailbox.
