(* ===== verification/AdmissionSafety.v ===== *)
(** What an actor task with interleaved invocations guarantees.

    [loop_step] is the select loop of [admission::run] over the handlers of
    [Admission], with arbitrary replies of storage, writer, executor and clock
    and arbitrary order of completions, permissions and requests.  The invariant
    of the reachable loops accounts for every request, relates every answer to
    the trace of requests and replies, and keeps the runtime free of pending
    commits while invocations run. *)

From S2P Require Import Prelude.
From S2P Require Import Actors.
From S2P Require Import StoragePaths.
From S2P Require Import Snapshots.
From S2P Require Import RuntimeStorage.
From S2P Require Import SocketEffects.
From S2P Require Import ActorRuntime.
From S2P Require Import Samples.
From S2P Require Import ActorCommits.
From S2P Require Import HostRequests.
From S2P Require Import Admission.
From stdpp Require Import gmap.
Local Open Scope string_scope.
Local Open Scope Z_scope.

(** * The loop, with the history of requests and executions *)
Record Loop := {
  lp_mailbox : Mailbox;
  lp_open : bool;
  lp_live : bool;
  lp_received : list ActorRequest;
  lp_executed : gmap channel Execution }.

Definition Loop_new (object : ActorStorageKey) (rt : ActorRuntime) (queues : ActorQueues) : Loop :=
  {| lp_mailbox := Mailbox_new object rt queues; lp_open := true; lp_live := true;
     lp_received := []; lp_executed := ∅ |}.

Section loop.
Context `{Json StateSnapshot, Json Value, Json ActorSocketEffect, Base64Std,
          !JsonLaws StateSnapshot, !JsonLaws Value}.
(** The owner epoch that requests carry *)
Context (e : Z).

(** What the host sends to an actor task: requests of its epoch, each with a
    reply channel of its own *)
Definition sendable (received : list ActorRequest) (r : ActorRequest) : Prop :=
  (rq_reply r ∉ (rq_reply <$> received)) /\
  (is_activate (rq_operation r) = true \/ rq_owner_epoch r = e).

Inductive loop_step : Loop -> list event -> Loop -> Prop :=
| step_executed mb open rcv ex l1 l2 rn t1 result t2 mb' go :
    mb_running mb = (l1 ++ rn :: l2)%list ->
    runs (execute (rq_operation (rn_request rn)) (rn_state rn)) t1 result ->
    runs (executed (rn_id rn) (rn_request rn) result (set_running mb (l1 ++ l2)%list)) t2 (mb', Ok go) ->
    loop_step {| lp_mailbox := mb; lp_open := open; lp_live := true; lp_received := rcv;
                 lp_executed := ex |} (t1 ++ t2)%list
      {| lp_mailbox := mb'; lp_open := open; lp_live := go; lp_received := rcv;
         lp_executed := <[rq_reply (rn_request rn) := result]> ex |}
| step_permitted mb open rcv ex id :
    mb_blocked_on mb = Some id ->
    loop_step {| lp_mailbox := mb; lp_open := open; lp_live := true; lp_received := rcv;
                 lp_executed := ex |} []
      {| lp_mailbox := set_blocked_on (set_interleaved mb) None; lp_open := open; lp_live := true;
         lp_received := rcv; lp_executed := ex |}
| step_executor_gone mb open rcv ex id :
    mb_blocked_on mb = Some id ->
    loop_step {| lp_mailbox := mb; lp_open := open; lp_live := true; lp_received := rcv;
                 lp_executed := ex |} []
      {| lp_mailbox := mb; lp_open := open; lp_live := false; lp_received := rcv; lp_executed := ex |}
| step_request mb rcv ex r accepting t mb' go :
    mb_blocked_on mb = None -> sendable rcv r ->
    runs (admit_request r accepting mb) t (mb', Ok go) ->
    loop_step {| lp_mailbox := mb; lp_open := true; lp_live := true; lp_received := rcv;
                 lp_executed := ex |} t
      {| lp_mailbox := mb'; lp_open := true; lp_live := go; lp_received := (rcv ++ [r])%list;
         lp_executed := ex |}
| step_closed mb rcv ex :
    mb_blocked_on mb = None ->
    loop_step {| lp_mailbox := mb; lp_open := true; lp_live := true; lp_received := rcv;
                 lp_executed := ex |} []
      {| lp_mailbox := mb; lp_open := false; lp_live := true; lp_received := rcv; lp_executed := ex |}
| step_ended mb rcv ex :
    mb_running mb = [] -> mb_blocked_on mb = None ->
    loop_step {| lp_mailbox := mb; lp_open := false; lp_live := true; lp_received := rcv;
                 lp_executed := ex |} []
      {| lp_mailbox := mb; lp_open := false; lp_live := false; lp_received := rcv; lp_executed := ex |}
(* the dispatcher changes the shared inventory *)
| step_queues mb open live rcv ex queues :
    loop_step {| lp_mailbox := mb; lp_open := open; lp_live := live; lp_received := rcv;
                 lp_executed := ex |} []
      {| lp_mailbox := set_queues mb queues; lp_open := open; lp_live := live; lp_received := rcv;
         lp_executed := ex |}.

Inductive reachable (object : ActorStorageKey) (host : HostId) : list event -> Loop -> Prop :=
| reach_new queues : reachable object host [] (Loop_new object (ActorRuntime_new host) queues)
| reach_step t l t' l' :
    reachable object host t l -> loop_step l t' l' -> reachable object host (t ++ t')%list l'.

(** * What a trace of writes keeps even when the cache is lost *)
Definition traced (t : list event) : Prop := writes t = [] \/ exists c, cached_inv e t c.

(** A state, or a recorded request with its result, that is confirmed *)
Definition state_kept (t : list event) (st : Value) : Prop :=
  exists c, confirmed t c /\ ca_state c = Some st.
Definition result_kept (t : list event) (id : string) (res : Value) : Prop :=
  exists c, confirmed t c /\ ca_last_request_id c = Some id /\ ca_last_result c = Some res.

(** What a completed execution returned: result and state *)
Definition returned (x : Execution) (res st : Value) : Prop :=
  (exists effects, x = Ok (MethodCompleted res st effects)) \/
  (exists o, x = Ok (MethodInterleaved o) /\ il_result o = res /\ il_state o = st).

(** Why a request may be answered with a result *)
Definition justified (t : list event) (ex : gmap channel Execution) (r : ActorRequest) (res : Value) : Prop :=
  match ex !! rq_reply r with
  | None => (is_activate (rq_operation r) = true /\ res = Null) \/
            result_kept t (request_id (operation_invocation (rq_operation r))) res
  | Some x => exists st, returned x res st /\ state_kept t st
  end.

Definition answer_ok (t : list event) (rcv : list ActorRequest) (ex : gmap channel Execution)
  (c : ActorCompletion) : Prop :=
  forall res effects, cp_result c = Ok (Completed res effects) ->
    exists r, r ∈ rcv /\ rq_reply r = cp_reply c /\ justified t ex r res.

(** The sequence number of an interleaved execution that was answered *)
Definition acked_sequence (ex : gmap channel Execution) (c : ActorCompletion) : option Z :=
  match cp_result c, ex !! cp_reply c with
  | Ok (Completed _ _), Some (Ok (MethodInterleaved o)) => Some (sequence o)
  | _, _ => None
  end.

(** * The invariant *)
Definition inflight (mb : Mailbox) : list channel :=
  (((fun rn => rq_reply (rn_request rn)) <$> mb_running mb) ++
   ((fun p : Z * (Z * ActorRequest * ActorInterleavedOutcome) => rq_reply p.2.1.2)
      <$> map_to_list (mb_ready mb)))%list.

Definition known (rcv : list ActorRequest) (r : ActorRequest) : Prop :=
  rq_owner_epoch r = e /\ is_activate (rq_operation r) = false /\
  exists r0, r0 ∈ rcv /\ rq_reply r0 = rq_reply r /\ rq_operation r0 = rq_operation r.

Section handlers.
(** The completions sent before some point *)
Context (old : list ActorCompletion).

(** [held]: the requests in the hands of a handler *)
Record core (t : list event) (rcv : list ActorRequest) (ex : gmap channel Execution)
  (held : list channel) (mb : Mailbox) : Prop := {
  co_traced : traced t;
  co_old : old `prefix_of` mb_completed mb;
  co_nodup : NoDup (rq_reply <$> rcv);
  co_account : rq_reply <$> rcv ≡ₚ (held ++ inflight mb ++ (cp_reply <$> mb_completed mb))%list;
  co_answers : Forall (answer_ok t rcv ex) (mb_completed mb);
  co_acked : omap (acked_sequence ex) (mb_completed mb) = seqZ 1 (mb_next_sequence mb - 1);
  co_positive : 1 <= mb_next_sequence mb;
  co_executed : forall ch x, ex !! ch = Some x -> ch ∈ (rq_reply <$> rcv);
  co_ready : forall k id r o, mb_ready mb !! k = Some (id, r, o) ->
    k = sequence o /\ mb_next_sequence mb <= k /\ known rcv r /\
    ex !! rq_reply r = Some (Ok (MethodInterleaved o));
  co_running : Forall (fun rn => known rcv (rn_request rn) /\ ex !! rq_reply (rn_request rn) = None)
    (mb_running mb) }.

(** The runtime rests on a committed state while anything runs. *)
Record lively (t : list event) (mb : Mailbox) : Prop := {
  li_runtime : rt_inv e t (mb_runtime mb);
  li_calm : mb_running mb <> [] \/ mb_interleaved mb = true -> exists c, ActorCommits.ready e (mb_runtime mb) c;
  li_serial : mb_interleaved mb = false ->
    mb_ready mb = ∅ /\
    match mb_running mb with
    | [] => mb_blocked_on mb = None
    | [rn] => mb_blocked_on mb = Some (rn_id rn) /\
              exists c, ActorCommits.ready e (mb_runtime mb) c /\ ca_state c = rn_state rn
    | _ => False
    end;
  li_gate : forall id, mb_blocked_on mb = Some id ->
    id ∈ (rn_id <$> mb_running mb) \/ exists k r o, mb_ready mb !! k = Some (id, r, o);
  li_next : mb_ready mb !! mb_next_sequence mb = None }.

(** ** Facts that only grow *)
Lemma traced_inv t rt : rt_inv e t rt -> traced t.
Proof. unfold rt_inv. destruct (rt_cached_state rt); [|by left]. intros [? _]. right. eauto. Qed.
Lemma traced_idle {X} (ev : HEff X) x t : silent ev = true -> traced t -> traced (t ++ [Event ev x])%list.
Proof.
  intros Hs [Hw|[c Hc]]; [left; by rewrite writes_silent|right]. exists c. by apply cached_inv_silent.
Qed.

Lemma justified_app t t' ex r res : justified t ex r res -> justified (t ++ t')%list ex r res.
Proof.
  unfold justified. destruct (ex !! rq_reply r).
  - intros (st & Hr & c & Hc & Hs). exists st. split; [done|]. exists c. split; [by apply confirmed_app|done].
  - intros [?|(c & Hc & Hs)]; [by left|right]. exists c. split; [by apply confirmed_app|done].
Qed.
Lemma core_app t t' rcv ex held mb :
  core t rcv ex held mb -> traced (t ++ t')%list -> core (t ++ t')%list rcv ex held mb.
Proof.
  intros [Ht Hold Hn Ha Hans Hk Hp Hex Hr Hrun] Ht'. split; try done.
  eapply Forall_impl; [exact Hans|]. intros c Hc res eff E. destruct (Hc res eff E) as (r & ? & ? & Hj).
  exists r. split_and!; [done|done|by apply justified_app].
Qed.

(** The parts of a mailbox the accounting is about *)
Definition same_work (mb mb' : Mailbox) : Prop :=
  mb_running mb' = mb_running mb /\ mb_ready mb' = mb_ready mb /\
  mb_completed mb' = mb_completed mb /\ mb_next_sequence mb' = mb_next_sequence mb.
Lemma core_same t rcv ex held mb mb' : same_work mb mb' -> core t rcv ex held mb -> core t rcv ex held mb'.
Proof.
  intros (E1 & E2 & E3 & E4) [Ht Hold Hn Ha Hans Hk Hp Hex Hr Hrun].
  split; rewrite ?E1, ?E2, ?E3, ?E4; try done. unfold inflight. by rewrite E1, E2.
Qed.

(** ** Rules for the handlers *)
Lemma post_grows {A} (p : hprog A) t Q : post p t Q -> post p t (fun t' a => t `prefix_of` t' /\ Q t' a).
Proof.
  revert t. induction p as [a|X ev k IH]; intros t Hp; cbn in *; [done|]. intros x.
  eapply post_mono; [by apply IH|]. intros t' a [Hpre HQ]. split; [|done].
  etrans; [|exact Hpre]. by apply prefix_app_r.
Qed.

Lemma m_modify f t mb Q : Q t (f mb) (Ok ()) -> triple t mb (modify f) Q.
Proof. done. Qed.

Lemma m_with_runtime {A} (m : M ActorRuntime A) (P : list event -> ActorRuntime -> Result A -> Prop)
  t mb (Q : list event -> Mailbox -> Result (Result A) -> Prop) :
  triple t (mb_runtime mb) m P ->
  (forall t1 rt' r, P (t ++ t1)%list rt' r -> Q (t ++ t1)%list (set_runtime mb rt') (Ok r)) ->
  triple t mb (with_runtime m) Q.
Proof.
  intros Hm HQ. apply post_hbind. eapply post_mono; [by apply post_grows|].
  intros t' [rt' r] [[t1 ->] HP]. by apply HQ.
Qed.

Definition answered (r : ActorRequest) (result : Result ActorExecutionResult) (mb : Mailbox) : Mailbox :=
  let mb := send_completion mb (completion_of (mb_object mb) r result) in
  set_queues mb (release_waiting (rq_waiting r) (mb_queues mb)).
Lemma m_finish r result t mb Q : Q t (answered r result mb) (Ok ()) -> triple t mb (finish r result) Q.
Proof. done. Qed.

Definition released (id : Z) (mb : Mailbox) : Mailbox :=
  if bool_decide (mb_blocked_on mb = Some id) then set_blocked_on mb None else mb.
Lemma m_release id t mb Q : Q t (released id mb) (Ok ()) -> triple t mb (release id) Q.
Proof. done. Qed.
Lemma released_same id mb : same_work mb (released id mb).
Proof. unfold released. by destruct (bool_decide _). Qed.

(** Answering the request in hand *)
Lemma core_answer t rcv ex r result mb :
  core t rcv ex [rq_reply r] mb ->
  answer_ok t rcv ex (completion_of (mb_object mb) r result) ->
  acked_sequence ex (completion_of (mb_object mb) r result) = None ->
  core t rcv ex [] (answered r result mb).
Proof.
  intros [Ht Hold Hn Ha Hans Hk Hp Hex Hr Hrun] Hok Hno. split; try done.
  - by apply prefix_app_r.
  - rewrite Ha. cbn. rewrite fmap_app. cbn. unfold inflight. cbn.
    rewrite (Permutation_app_comm _ [_]) at 1. solve_Permutation.
  - cbn. apply Forall_app. split; [done|]. by constructor.
  - cbn [answered mb_completed send_completion set_queues mb_next_sequence].
    rewrite omap_app, Hk. cbn. by rewrite Hno, app_nil_r.
Qed.

(** A request arrives *)
Lemma known_app rcv r r' : known rcv r -> known (rcv ++ [r'])%list r.
Proof. intros (? & ? & r0 & ? & ?). split_and!; [done|done|]. exists r0. split; [set_solver|done]. Qed.

Lemma core_receive t rcv ex r mb :
  core t rcv ex [] mb -> sendable rcv r -> core t (rcv ++ [r])%list ex [rq_reply r] mb.
Proof.
  intros [Ht Hold Hn Ha Hans Hk Hp Hex Hr Hrun] [Hfresh _]. split; try done.
  - rewrite fmap_app. apply NoDup_app. split_and!; [done| |apply NoDup_singleton].
    intros ch Hin ->%list_elem_of_singleton. by destruct Hfresh.
  - rewrite fmap_app, Ha. cbn. by rewrite (Permutation_app_comm _ [_]).
  - eapply Forall_impl; [exact Hans|]. intros c Hc res eff E. destruct (Hc res eff E) as (r0 & ? & ?).
    exists r0. split; [set_solver|done].
  - intros ch x Hx. rewrite fmap_app. apply elem_of_app. left. by eapply Hex.
  - intros k id r0 o Hl. destruct (Hr k id r0 o Hl) as (? & ? & ? & ?). split_and!; auto using known_app.
  - eapply Forall_impl; [exact Hrun|]. intros rn [? ?]. split; auto using known_app.
Qed.
Lemma fresh_not_executed t rcv ex held mb r :
  core t rcv ex held mb -> sendable rcv r -> ex !! rq_reply r = None.
Proof.
  intros Hc [Hfresh _]. destruct (ex !! rq_reply r) as [x|] eqn:E; [|done].
  destruct Hfresh. by eapply co_executed.
Qed.

(** ... and is executed *)
Lemma core_start t rcv ex rn mb :
  core t rcv ex [rq_reply (rn_request rn)] mb -> known rcv (rn_request rn) ->
  ex !! rq_reply (rn_request rn) = None ->
  core t rcv ex [] (set_running mb (mb_running mb ++ [rn])%list).
Proof.
  intros [Ht Hold Hn Ha Hans Hk Hp Hex Hr Hrun] Hknown Hno. split; try done.
  - rewrite Ha. unfold inflight. cbn. rewrite fmap_app. cbn.
    rewrite (Permutation_app_comm (_ <$> mb_running mb) [_]). cbn. solve_Permutation.
  - cbn. apply Forall_app. split; [done|]. by constructor.
Qed.

(** An execution ends *)
Lemma elem_of_accounted t rcv ex held mb ch :
  core t rcv ex held mb -> ch ∈ held -> (ch ∉ inflight mb) /\ ch ∉ (cp_reply <$> mb_completed mb).
Proof.
  intros Hc Hin. pose proof (co_nodup _ _ _ _ _ Hc) as Hn. rewrite (co_account _ _ _ _ _ Hc) in Hn.
  apply NoDup_app in Hn as (_ & Hd & _). specialize (Hd ch Hin). set_solver.
Qed.
Lemma inflight_ready mb k id r o : mb_ready mb !! k = Some (id, r, o) -> rq_reply r ∈ inflight mb.
Proof.
  intros Hl. unfold inflight. apply elem_of_app. right. apply list_elem_of_fmap.
  exists (k, (id, r, o)). split; [done|]. by apply elem_of_map_to_list.
Qed.
Lemma inflight_running mb rn : rn ∈ mb_running mb -> rq_reply (rn_request rn) ∈ inflight mb.
Proof. intros Hl. unfold inflight. apply elem_of_app. left. apply list_elem_of_fmap. eauto. Qed.

Lemma core_take t rcv ex l1 rn l2 mb :
  core t rcv ex [] mb -> mb_running mb = (l1 ++ rn :: l2)%list ->
  core t rcv ex [rq_reply (rn_request rn)] (set_running mb (l1 ++ l2)%list).
Proof.
  intros [Ht Hold Hn Ha Hans Hk Hp Hex Hr Hrun] El. split; try done.
  - rewrite Ha. unfold inflight. cbn. rewrite El, !fmap_app. cbn. solve_Permutation.
  - rewrite El in Hrun. cbn. apply Forall_app in Hrun as [? Hrun]. inversion Hrun. by apply Forall_app.
Qed.

Lemma core_executed t rcv ex ch x mb :
  core t rcv ex [ch] mb -> core t rcv (<[ch := x]> ex) [ch] mb.
Proof.
  intros Hc. destruct (elem_of_accounted _ _ _ _ _ ch Hc) as [Hfl Hcp]; [by constructor|].
  destruct Hc as [Ht Hold Hn Ha Hans Hk Hp Hex Hr Hrun]. split; try done.
  - apply Forall_forall. intros c Hc res eff E. rewrite Forall_forall in Hans.
    destruct (Hans c Hc res eff E) as (r & Hin & Er & Hj). exists r. split_and!; [done|done|].
    unfold justified in *. rewrite lookup_insert_ne; [done|]. intros ->. apply Hcp.
    rewrite Er. by apply list_elem_of_fmap_2.
  - rewrite <-Hk. apply omap_same. intros c Hc. unfold acked_sequence.
    rewrite lookup_insert_ne; [done|]. intros ->. apply Hcp. by apply list_elem_of_fmap_2.
  - intros ch' y [[<- _]|[_ Hy]]%lookup_insert_Some; [|by eapply Hex]. rewrite Ha. set_solver.
  - intros k id r o Hl. destruct (Hr k id r o Hl) as (? & ? & ? & ?). split_and!; try done.
    rewrite lookup_insert_ne; [done|]. intros ->. by eapply Hfl, inflight_ready.
  - apply Forall_forall. intros rn Hin. rewrite Forall_forall in Hrun. destruct (Hrun rn Hin) as [? ?].
    split; [done|]. rewrite lookup_insert_ne; [done|]. intros ->. by eapply Hfl, inflight_running.
Qed.

(** An interleaved outcome is parked under its sequence number, and taken out. *)
Lemma core_park t rcv ex id r o mb :
  core t rcv ex [rq_reply r] mb -> known rcv r -> ex !! rq_reply r = Some (Ok (MethodInterleaved o)) ->
  mb_next_sequence mb <= sequence o -> mb_ready mb !! sequence o = None ->
  core t rcv ex [] (set_ready mb (<[sequence o := (id, r, o)]> (mb_ready mb))).
Proof.
  intros [Ht Hold Hn Ha Hans Hk Hp Hex Hr Hrun] Hknown Ho Hle Hno. split; try done.
  - rewrite Ha. unfold inflight. cbn. rewrite map_to_list_insert by done. cbn. solve_Permutation.
  - cbn. intros k id0 r0 o0 [[<- [= <- <- <-]]|[_ Hl]]%lookup_insert_Some; [done|]. by eapply Hr.
Qed.
Lemma core_unpark t rcv ex id r o mb :
  core t rcv ex [] mb -> mb_ready mb !! mb_next_sequence mb = Some (id, r, o) ->
  core t rcv ex [rq_reply r] (set_ready mb (delete (mb_next_sequence mb) (mb_ready mb))).
Proof.
  intros [Ht Hold Hn Ha Hans Hk Hp Hex Hr Hrun] Hl. split; try done.
  - rewrite Ha. unfold inflight. cbn. rewrite <-(map_to_list_delete _ _ _ Hl). cbn. solve_Permutation.
  - cbn. intros k id0 r0 o0 [_ Hl0]%lookup_delete_Some. by eapply Hr.
Qed.

(** Fewer acknowledgements than requests, fewer requests than numbers *)
Lemma sequence_bound t rcv ex held mb :
  core t rcv ex held mb -> mb_next_sequence mb - 1 + Z.of_nat (length held) <= Z.of_nat (length rcv).
Proof.
  intros [Ht Hold Hn Ha Hans Hk Hp Hex Hr Hrun].
  assert (Hlen : (length (omap (acked_sequence ex) (mb_completed mb)) <= length (mb_completed mb))%nat).
  { clear. induction (mb_completed mb) as [|c l IH]; cbn; [lia|]. destruct (acked_sequence ex c); cbn; lia. }
  apply Permutation_length in Ha. rewrite !length_app, !length_fmap in Ha.
  rewrite Hk, length_seqZ in Hlen. lia.
Qed.
Lemma seqZ_grow n : 1 <= n -> (seqZ 1 (n - 1) ++ [n])%list = seqZ 1 n.
Proof.
  intros Hn. replace n with (n - 1 + 1) at 3 by lia. rewrite seqZ_app by lia. f_equal.
  rewrite seqZ_cons by lia. cbn. f_equal. lia.
Qed.

(** The commit of the next sequence number is answered *)
Lemma core_commit t rcv ex r o res eff mb :
  core t rcv ex [rq_reply r] mb -> Z.of_nat (length rcv) < U64_MAX ->
  (forall k id r o, mb_ready mb !! k = Some (id, r, o) -> k <> mb_next_sequence mb) ->
  ex !! rq_reply r = Some (Ok (MethodInterleaved o)) -> sequence o = mb_next_sequence mb ->
  answer_ok t rcv ex (completion_of (mb_object mb) r (Ok (Completed res eff))) ->
  core t rcv ex [] (answered r (Ok (Completed res eff)) (set_next_sequence mb (u64_succ (mb_next_sequence mb)))).
Proof.
  intros Hc Hlen Hfree Ho Eo Hok. pose proof (sequence_bound _ _ _ _ _ Hc) as Hb.
  destruct Hc as [Ht Hold Hn Ha Hans Hk Hp Hex Hr Hrun].
  assert (Es : u64_succ (mb_next_sequence mb) = mb_next_sequence mb + 1).
  { unfold u64_succ. apply Z.mod_small. cbn in Hb. lia. }
  split; try done.
  - by apply prefix_app_r.
  - rewrite Ha. cbn. rewrite fmap_app. cbn. unfold inflight. cbn. solve_Permutation.
  - cbn. apply Forall_app. split; [done|]. by constructor.
  - cbn [answered mb_completed send_completion set_queues mb_next_sequence set_next_sequence mb_object].
    rewrite omap_app, Hk, Es. cbn. rewrite Ho, Eo. cbn.
    rewrite seqZ_grow by done. f_equal. lia.
  - cbn. lia.
  - cbn. intros k id0 r0 o0 Hl. pose proof (Hfree _ _ _ _ Hl). destruct (Hr k id0 r0 o0 Hl) as (? & ? & ? & ?).
    split_and!; try done. lia.
Qed.

(** ** Runtime calls of the handlers *)
Definition interleaved_commit (o : ActorInterleavedOutcome) (t' : list event) (rt' : ActorRuntime)
  (r : Result ActorExecutionResult) : Prop :=
  traced t' /\
  (forall x, r = Ok x -> rt_inv e t' rt' /\
     exists c, ActorCommits.ready e rt' c /\ ca_state c = Some (il_state o)) /\
  (forall res eff, r = Ok (Completed res eff) -> res = il_result o).

Lemma interleaved_failed o t rt err : traced t -> interleaved_commit o t rt (Err err).
Proof. intros Ht. split_and!; [done|discriminate|discriminate]. Qed.

(** Reporting a cached state after an interleaved commit *)
Lemma interleaved_report o i c t rt :
  cached_inv e t c -> ca_owner_epoch c = e -> ca_pending c = None -> ca_state c = Some (il_state o) ->
  triple t (set_cached (Some c) rt)
    (complete_with_state (inv_actor i) (ca_state_version c) (il_result o) (il_effects o))
    (interleaved_commit o).
Proof.
  intros Hi He Hp Hs. eapply m_mono; [by apply complete_with_state_ok, rt_inv_cached|].
  intros t' rt' r [(-> & Hi' & _) Hr]. split_and!; [by eapply traced_inv| |exact Hr].
  intros x _. split; [done|]. by exists c.
Qed.

Lemma commit_interleaved_ok i o origin c t rt :
  ActorCommits.ready e rt c -> rt_inv e t rt ->
  triple t rt (commit_interleaved i e o origin) (interleaved_commit o).
Proof.
  intros (Hc & He & Hp) Hi. pose proof (traced_inv _ _ Hi) as Ht. unfold rt_inv in Hi. rewrite Hc in Hi.
  destruct Hi as [Hi _]. unfold commit_interleaved. apply m_bind, m_ask_ok. intros r.
  pose proof (traced_idle EnsureAuthority r t eq_refl Ht) as Ht1.
  pose proof (cached_inv_silent e EnsureAuthority r t c eq_refl Hi) as Hi1. clear Ht Hi. set (t1 := (t ++ _)%list) in *.
  destruct r as [[]|err]; [|by apply interleaved_failed].
  apply m_bind, m_lift. destruct (validate_socket_effects _); [|by apply interleaved_failed].
  apply m_bind, m_get. apply m_bind, m_put. apply m_bind, m_lift. rewrite Hc. cbn [with_context].
  apply m_bind, m_lift. destruct (ensure _ _); [|by apply interleaved_failed].
  apply m_bind. case_bool_decide as Es.
  - apply m_ret. apply m_bind. unfold put_cached. apply m_bind, m_get, m_put. apply m_bind, m_lift.
    by apply (interleaved_report o i c _ (set_cached None rt)).
  - apply m_with_cached. eapply m_mono; [by apply publish_result_ok|].
    intros t2 c2 r (Hi2 & _ & He2 & Hr). apply m_bind. unfold put_cached. apply m_bind, m_get, m_put.
    apply m_bind, m_lift. destruct r as [x|err]; [|apply interleaved_failed; by right; exists c2].
    destruct (Hr x eq_refl) as (_ & Hp2 & Hs2 & _). rewrite He in He2.
    by apply (interleaved_report o i c2 _ (set_cached None rt)).
Qed.

Definition serial_finish (outcome : Execution) (t' : list event) (rt' : ActorRuntime)
  (r : Result ActorExecutionResult) : Prop :=
  rt_inv e t' rt' /\
  forall res eff, r = Ok (Completed res eff) ->
    exists st effs c, outcome = Ok (MethodCompleted res st effs) /\
      ActorCommits.ready e rt' c /\ ca_state c = Some st.

Lemma finish_serial_ok i outcome origin c t rt :
  ActorCommits.ready e rt c -> rt_inv e t rt ->
  triple t rt (finish_serial i e outcome origin) (serial_finish outcome).
Proof.
  intros Hc Hi. unfold finish_serial. apply m_bind. eapply m_mono; [by apply method_result_ok|].
  intros t1 rt1 r [(-> & Hi1 & _) (x & -> & Hx)]. destruct x as [[[res st] eff]|a].
  - subst outcome. eapply m_mono; [by eapply finish_method_ok|].
    intros t2 rt2 r (Hi2 & _ & Hr). split; [done|]. intros res' eff' E.
    destruct (Hr res' eff' E) as (-> & c' & Hc' & Hs'). by exists st, eff, c'.
  - destruct Hx as [f ->]. apply m_ret. by split.
Qed.

(** Executing user code neither writes nor changes the runtime. *)
Lemma execute_trace op st t t1 x :
  runs (execute op st) t1 x ->
  (traced t -> traced (t ++ t1)%list) /\ forall rt, rt_inv e t rt -> rt_inv e (t ++ t1)%list rt.
Proof.
  intros Hr. assert (Hp : post (execute op st) t (fun t' _ =>
    (traced t -> traced t') /\ forall rt, rt_inv e t rt -> rt_inv e t' rt)).
  { destruct op as [actor reply|i|i]; cbn; [done|..]; intros x0;
      (split; [by apply traced_idle|intros rt; by apply rt_inv_silent]). }
  exact (post_runs _ _ _ _ _ Hp Hr).
Qed.

(** ** Handlers *)
(** What a handler leaves: everything accounted for, and a sound mailbox if the
    loop goes on *)
Definition handled (rcv : list ActorRequest) (ex : gmap channel Execution)
  (t' : list event) (mb' : Mailbox) (r : Result bool) : Prop :=
  exists go, r = Ok go /\ core t' rcv ex [] mb' /\ (go = true -> lively t' mb').

Lemma failed_answer t rcv ex r mb result :
  (forall res eff, result <> Ok (Completed res eff)) ->
  core t rcv ex [rq_reply r] mb -> core t rcv ex [] (answered r result mb).
Proof.
  intros Hf Hc. apply core_answer; [done|intros res eff E; by destruct (Hf res eff)|].
  unfold acked_sequence. cbn. destruct result as [[]|]; try done. by destruct (Hf result effects).
Qed.

Lemma stop_ok r rcv ex t mb :
  core t rcv ex [rq_reply r] mb ->
  triple t mb (stop r) (fun t' mb' x => x = Ok false /\ core t' rcv ex [] mb').
Proof.
  intros Hc. unfold stop. apply m_bind.
  eapply (m_with_runtime _ (fun t' rt' _ => exists x, t' = (t ++ [Event (Evict _) x])%list)).
  { apply evict_ok. eauto. }
  intros t1 rt' r0 [x ->]. apply m_bind, m_finish, m_ret. split; [done|].
  apply failed_answer; [done|]. eapply core_same; [|eapply core_app; [exact Hc|]]; [done|].
  eapply traced_idle; [done|]. by eapply co_traced.
Qed.
Lemma stop_handled r rcv ex t mb :
  core t rcv ex [rq_reply r] mb -> triple t mb (stop r) (handled rcv ex).
Proof. intros Hc. eapply m_mono; [by apply stop_ok|]. intros t' mb' x [-> Hc']. by exists false. Qed.

(** A mailbox that nothing has touched but the list of answers *)
Lemma lively_same t mb mb' :
  lively t mb -> mb_runtime mb' = mb_runtime mb -> mb_running mb' = mb_running mb ->
  mb_ready mb' = mb_ready mb -> mb_interleaved mb' = mb_interleaved mb ->
  mb_blocked_on mb' = mb_blocked_on mb -> mb_next_sequence mb' = mb_next_sequence mb -> lively t mb'.
Proof. intros [? ? ? ? ?] E1 E2 E3 E4 E5 E6. split; rewrite ?E1, ?E2, ?E3, ?E4, ?E5, ?E6; done. Qed.

(** The runtime of an idle serial mailbox may change freely; otherwise what it
    rests on stays. *)
Lemma lively_runtime t t' mb rt' :
  lively t mb -> mb_blocked_on mb = None -> rt_inv e t' rt' ->
  (forall c, ActorCommits.ready e (mb_runtime mb) c -> ActorCommits.ready e rt' c) ->
  lively t' (set_runtime mb rt').
Proof.
  intros [Hi Hcalm Hser Hgate Hnext] Hb Hi' Hkeep. split; cbn; try done.
  - intros Hw. destruct (Hcalm Hw) as [c Hc]. eauto.
  - intros E. destruct (Hser E) as [-> Hm]. split; [done|].
    destruct (mb_running mb) as [|rn [|]]; [done| |done]. destruct Hm as [Hm _]. congruence.
Qed.

Lemma activate_ok r r0 actor reply rcv ex t mb :
  core t rcv ex [rq_reply r] mb -> lively t mb -> mb_blocked_on mb = None ->
  r0 ∈ rcv -> rq_reply r0 = rq_reply r -> is_activate (rq_operation r0) = true ->
  ex !! rq_reply r = None ->
  triple t mb (activate r actor reply) (handled rcv ex).
Proof.
  intros Hc Hl Hb Hin Er Ha Hno. unfold activate. apply m_bind.
  eapply m_with_runtime; [apply activate_actor_ok, Hl|].
  intros t1 rt' res (Hi & _ & Hkeep). apply m_bind, m_modify. apply m_bind, m_finish, m_ret.
  assert (Hl' : lively (t ++ t1)%list (set_runtime mb rt')).
  { eapply lively_runtime; [exact Hl|done|done|]. intros c (Hc1 & Hc2). split; [by apply Hkeep|done]. }
  eexists. split_and!; [done| |intros _; by eapply lively_same].
  set (r' := set_operation _ _). apply (core_answer _ _ _ r').
  - eapply core_same; [|eapply core_app; [exact Hc|by eapply traced_inv]]. done.
  - intros v eff [= <- <-]. exists r0. split_and!; [done|done|]. unfold justified. rewrite Er, Hno. by left.
  - unfold acked_sequence. cbn. by rewrite Hno.
Qed.

Lemma ready_confirmed t rt c : ActorCommits.ready e rt c -> rt_inv e t rt -> confirmed t c.
Proof. intros (Hc & _) Hi. unfold rt_inv in Hi. rewrite Hc in Hi. by destruct Hi as [[? _ _ _] _]. Qed.

Lemma serial_idle t mb :
  lively t mb -> mb_blocked_on mb = None -> mb_interleaved mb = false -> mb_running mb = [].
Proof.
  intros Hl Hb E. destruct (li_serial _ _ Hl E) as [_ Hm].
  destruct (mb_running mb) as [|rn [|]]; [done| |done]. destruct Hm as [Hm _]. congruence.
Qed.

(** A prepared execution is started *)
Lemma lively_start t mb rt' st c r :
  let id := u64_succ (mb_next_invocation mb) in
  let rn := {| rn_id := id; rn_request := r; rn_state := st |} in
  lively t (set_runtime mb rt') -> mb_blocked_on mb = None ->
  ActorCommits.ready e rt' c -> ca_state c = st ->
  lively t (set_running (set_blocked_on (set_next_invocation (set_runtime mb rt') id) (Some id))
              (mb_running mb ++ [rn])%list).
Proof.
  intros id rn Hl Hb Hc Hs. pose proof (serial_idle _ _ Hl Hb) as Hidle.
  destruct Hl as [Hi Hcalm Hser Hgate Hnext]. split; cbn in *; try done.
  - intros _. eauto.
  - intros E. destruct (Hser E) as [-> _]. rewrite (Hidle E). cbn. split_and!; [done|done|]. by exists c.
  - intros id' [= <-]. left. rewrite fmap_app. set_solver.
Qed.

Lemma known_answer t rcv ex r res mb eff :
  known rcv r -> (forall r0, rq_reply r0 = rq_reply r -> rq_operation r0 = rq_operation r ->
    justified t ex r0 res) ->
  answer_ok t rcv ex (completion_of (mb_object mb) r (Ok (Completed res eff))).
Proof.
  intros (_ & _ & r0 & Hin & Er & Eop) Hj res' eff' [= <- <-]. exists r0. split_and!; [done|done|]. by apply Hj.
Qed.

Lemma prepare_ok r replays rcv ex t mb :
  core t rcv ex [rq_reply r] mb -> lively t mb -> mb_blocked_on mb = None ->
  known rcv r -> ex !! rq_reply r = None ->
  triple t mb
    (prepared ← with_runtime
       (prepare_invocation (operation_invocation (rq_operation r)) (rq_owner_epoch r) replays);
     match prepared with
     | Ok (PreparedCompleted result) => finish r (Ok result);; mret true
     | Err _ => stop r
     | Ok (Execute state) =>
         modify (fun mb => set_next_invocation mb (u64_succ (mb_next_invocation mb)));;
         mb ← get;
         let id := mb_next_invocation mb in
         modify (fun mb => set_blocked_on mb (Some id));;
         modify (fun mb => set_running mb
           (mb_running mb ++ [{| rn_id := id; rn_request := r; rn_state := state |}])%list);;
         mret true
     end) (handled rcv ex).
Proof.
  intros Hc Hl Hb Hk Hno. destruct (Hk) as (He & _). rewrite He. apply m_bind.
  eapply m_with_runtime; [apply prepare_invocation_ok, Hl|].
  intros t1 rt' res (_ & Hi & Hexec & Hrep & _ & Hkeep).
  assert (Hc' : core (t ++ t1)%list rcv ex [rq_reply r] (set_runtime mb rt')).
  { eapply core_same; [|eapply core_app; [exact Hc|by eapply traced_inv]]. done. }
  destruct res as [[st|x]|err]; [| |by apply stop_handled].
  - destruct (Hexec st eq_refl) as (c & Hready & Hst).
    assert (Hl' : lively (t ++ t1)%list (set_runtime mb rt')) by (eapply lively_runtime; eauto).
    apply m_bind, m_modify, m_bind, m_get, m_bind, m_modify, m_bind, m_modify, m_ret.
    exists true. split_and!; [done| |intros _; exact (lively_start _ mb rt' st c r Hl' Hb Hready Hst)].
    apply (core_start _ _ _ {| rn_id := _; rn_request := r; rn_state := st |}); [|done|done].
    eapply core_same; [|exact Hc']. done.
  - apply m_bind, m_finish, m_ret. exists true. split_and!; [done| |].
    + destruct x as [v eff|f| |]; try by apply failed_answer.
      destruct (Hrep v eff eq_refl) as (c & Hready & Hid & Hres).
      apply core_answer; [done| |unfold acked_sequence; cbn; by rewrite Hno].
      apply known_answer; [done|]. intros r0 Er Eop. unfold justified. rewrite Er, Hno. right.
      exists c. rewrite Eop. split_and!; [by eapply ready_confirmed|done|done].
    + intros _. eapply lively_same; [by eapply (lively_runtime t (t ++ t1)); eauto|done..].
Qed.

Lemma admit_ok r accepting rcv ex t mb :
  core t rcv ex [] mb -> lively t mb -> mb_blocked_on mb = None -> sendable rcv r ->
  triple t mb (admit_request r accepting) (handled (rcv ++ [r])%list ex).
Proof.
  intros Hc Hl Hb Hs. pose proof (fresh_not_executed _ _ _ _ _ _ Hc Hs) as Hno.
  apply (core_receive _ _ _ r) in Hc; [|done]. destruct Hs as [_ Hs].
  unfold admit_request. destruct (_ && _).
  { apply m_bind, m_finish, m_ret. exists true.
    split_and!; [done|by apply failed_answer|intros _; by eapply lively_same]. }
  apply m_bind, m_modify. set (mb1 := set_queues _ _). set (r1 := set_waiting None r).
  assert (Hc1 : core t (rcv ++ [r])%list ex [rq_reply r1] mb1) by (eapply core_same; [|exact Hc]; done).
  assert (Hl1 : lively t mb1) by (by eapply lively_same).
  assert (Hknown : is_activate (rq_operation r) = false -> known (rcv ++ [r])%list r1).
  { intros Ha. destruct Hs as [?|He]; [congruence|]. split_and!; [done|done|]. exists r.
    split_and!; [set_solver|done|done]. }
  destruct (rq_operation r) as [actor reply|i|i] eqn:Eop.
  - apply (activate_ok r1 r); [done..|set_solver|done|by rewrite Eop|done].
  - pose proof (prepare_ok r1 true _ ex t mb1 Hc1 Hl1 Hb (Hknown eq_refl) Hno) as Hp.
    cbn [r1 rq_operation set_waiting] in Hp. by rewrite Eop in Hp.
  - pose proof (prepare_ok r1 false _ ex t mb1 Hc1 Hl1 Hb (Hknown eq_refl) Hno) as Hp.
    cbn [r1 rq_operation set_waiting] in Hp. by rewrite Eop in Hp.
Qed.

(** *** Committing interleaved outcomes *)
(** [lively] in the middle of a round of commits, but for the request numbered [gone] *)
Record busy (t : list event) (gone : option Z) (mb : Mailbox) : Prop := {
  bz_runtime : rt_inv e t (mb_runtime mb);
  bz_calm : exists c, ActorCommits.ready e (mb_runtime mb) c;
  bz_mode : mb_interleaved mb = true;
  bz_gate : forall id, mb_blocked_on mb = Some id -> gone = Some id \/
    id ∈ (rn_id <$> mb_running mb) \/ exists k r o, mb_ready mb !! k = Some (id, r, o) }.

Lemma busy_lively t mb : busy t None mb -> mb_ready mb !! mb_next_sequence mb = None -> lively t mb.
Proof.
  intros [Hi Hc Hm Hg] Hn. split; try done; [congruence|]. intros id Hb.
  by destruct (Hg id Hb) as [?|?].
Qed.
Lemma busy_released t id mb : busy t (Some id) mb -> busy t None (released id mb).
Proof.
  intros [Hi Hc Hm Hg]. unfold released. case_bool_decide as E; (split; cbn; try done).
  intros id' Hb. destruct (Hg id' Hb) as [[= <-]|?]; [done|by right].
Qed.
Lemma busy_same t gone mb mb' :
  busy t gone mb -> mb_runtime mb' = mb_runtime mb -> mb_running mb' = mb_running mb ->
  mb_ready mb' = mb_ready mb -> mb_interleaved mb' = mb_interleaved mb ->
  mb_blocked_on mb' = mb_blocked_on mb -> busy t gone mb'.
Proof. intros [? ? ? ?] E1 E2 E3 E4 E5. split; rewrite ?E1, ?E2, ?E3, ?E4, ?E5; done. Qed.

Definition committed_next (rcv : list ActorRequest) (ex : gmap channel Execution) (mb : Mailbox)
  (t' : list event) (mb' : Mailbox) (r : Result (option bool)) : Prop :=
  exists ended, r = Ok ended /\ core t' rcv ex [] mb' /\
  match ended with
  | Some go => go = false
  | None => busy t' None mb' /\ mb_ready mb' = mb_ready mb
  end.

Lemma commit_next_ok id r o rcv ex t mb :
  core t rcv ex [rq_reply r] mb -> busy t (Some id) mb -> Z.of_nat (length rcv) < U64_MAX ->
  mb_ready mb !! mb_next_sequence mb = None -> known rcv r ->
  ex !! rq_reply r = Some (Ok (MethodInterleaved o)) -> sequence o = mb_next_sequence mb ->
  triple t mb (commit_next id r o) (committed_next rcv ex mb).
Proof.
  intros Hc Hb Hlen Hfree Hk Hex Ho. unfold commit_next. destruct Hk as (He & Hk). rewrite He. apply m_bind.
  destruct (bz_calm _ _ _ Hb) as [c0 Hready0].
  eapply m_with_runtime; [eapply commit_interleaved_ok; [exact Hready0|apply Hb]|].
  intros t1 rt' res (Ht & Hok & Hval).
  assert (Hc' : core (t ++ t1)%list rcv ex [rq_reply r] (set_runtime mb rt')).
  { eapply core_same; [|by eapply core_app; [exact Hc|]]. done. }
  assert (Hstop : triple (t ++ t1)%list (set_runtime mb rt') (stopped ← stop r; mret (Some stopped))
    (committed_next rcv ex mb)).
  { apply m_bind. eapply m_mono; [by apply stop_ok|]. intros t2 mb2 x [-> Hc2]. apply m_ret.
    by exists (Some false). }
  destruct res as [[v eff|f| |]|err]; try exact Hstop.
  destruct (Hok _ eq_refl) as (Hi & c & Hready & Hs). pose proof (Hval v eff eq_refl) as ->.
  apply m_bind, m_modify, m_bind, m_finish, m_bind, m_release, m_ret. exists None. split; [done|].
  set (mb2 := answered _ _ _). assert (Hb2 : busy (t ++ t1)%list (Some id) mb2).
  { destruct Hb as [_ _ Hm Hg]. split; [exact Hi|by exists c|exact Hm|exact Hg]. }
  split.
  - eapply core_same; [apply released_same|]. eapply core_commit; [exact Hc'|done| |exact Hex|exact Ho|].
    + intros k id0 r0 o0 Hl ->. cbn in *. congruence.
    + apply known_answer; [by split|]. intros r0 Er Eop. unfold justified. rewrite Er, Hex.
      exists (il_state o). split; [right; by exists o|]. exists c. split; [by eapply ready_confirmed|done].
  - split; [by apply busy_released|]. unfold released. by destruct (bool_decide _).
Qed.

Lemma commit_loop_ok turns rcv ex : forall t mb,
  core t rcv ex [] mb -> busy t None mb -> Z.of_nat (length rcv) < U64_MAX ->
  (size (mb_ready mb) <= turns)%nat -> triple t mb (commit_loop turns) (handled rcv ex).
Proof.
  induction turns as [|turns IH]; intros t mb Hc Hb Hlen Hsz; cbn [commit_loop].
  - apply m_ret. exists true. split_and!; [done..|]. intros _. apply busy_lively; [done|].
    assert (mb_ready mb = ∅) as ->; [|apply lookup_empty]. apply map_size_empty_inv. lia.
  - apply m_bind, m_get. destruct (mb_ready mb !! _) as [[[id r] o]|] eqn:El.
    2: { apply m_ret. exists true. split_and!; [done..|]. intros _. by apply busy_lively. }
    apply m_bind, m_put. set (mb1 := set_ready _ _).
    destruct (co_ready _ _ _ _ _ Hc _ _ _ _ El) as (Es & _ & Hk & Hex).
    assert (Hc1 : core t rcv ex [rq_reply r] mb1) by (by eapply core_unpark).
    assert (Hb1 : busy t (Some id) mb1).
    { destruct Hb as [Hi Hcalm Hm Hg]. split; [done..|]. intros id' Hbl.
      destruct (Hg id' Hbl) as [?|[?|(k & r' & o' & Hl)]]; [done|right; by left|].
      destruct (decide (k = mb_next_sequence mb)) as [->|Hne]; [left; congruence|].
      right. right. exists k, r', o'. cbn. by rewrite lookup_delete_ne. }
    apply m_bind. eapply m_mono.
    { eapply commit_next_ok; [exact Hc1|exact Hb1|done| |exact Hk|exact Hex|done].
      cbn. apply lookup_delete_eq. }
    intros t2 mb2 x (ended & -> & Hc2 & Hend). destruct ended as [go|].
    + subst go. apply m_ret. by exists false.
    + destruct Hend as [Hb2 Er]. apply IH; [done..|]. rewrite Er. cbn.
      pose proof (map_size_delete_Some _ _ (mk_is_Some _ _ El)). lia.
Qed.

(** *** An execution ends *)
Lemma park_ok id r o rcv ex t mb :
  core t rcv ex [rq_reply r] mb -> busy t (Some id) mb -> Z.of_nat (length rcv) < U64_MAX ->
  known rcv r -> ex !! rq_reply r = Some (Ok (MethodInterleaved o)) ->
  triple t mb
    (mb ← get;
     if (sequence o <? mb_next_sequence mb) || bool_decide (is_Some (mb_ready mb !! sequence o))
     then stop r
     else
       put (set_ready mb (<[sequence o := (id, r, o)]> (mb_ready mb)));;
       commit_ready) (handled rcv ex).
Proof.
  intros Hc Hb Hlen Hk Hex. apply m_bind, m_get.
  destruct (_ || _) eqn:E; [by apply stop_handled|]. apply orb_false_iff in E as [E1 E2]. bools.
  assert (Hfree : mb_ready mb !! sequence o = None).
  { by apply eq_None_not_Some. }
  apply m_bind, m_put. unfold commit_ready. apply m_bind, m_get.
  apply commit_loop_ok; [|split|done|done].
  - by apply core_park.
  - apply Hb.
  - apply Hb.
  - apply Hb.
  - cbn. intros id' Hbl. right. destruct (bz_gate _ _ _ Hb id' Hbl) as [[= <-]|[?|(k & r' & o' & Hl)]].
    + right. exists (sequence o), r, o. apply lookup_insert_eq.
    + by left.
    + right. exists k, r', o'. rewrite lookup_insert_ne; [done|congruence].
Qed.

(** In interleaved mode only a failure of user code is reported *)
Lemma failed_ok id r f rcv ex t mb :
  core t rcv ex [rq_reply r] mb -> busy t (Some id) mb ->
  mb_ready mb !! mb_next_sequence mb = None ->
  triple t mb (finish r (Ok (failed "actor_error" (message f)));; release id;; mret true) (handled rcv ex).
Proof.
  intros Hc Hb Hn. apply m_bind, m_finish, m_bind, m_release, m_ret. exists true. split_and!; [done| |].
  - eapply core_same; [apply released_same|]. by apply failed_answer.
  - intros _. apply busy_lively; [apply busy_released; by eapply busy_same|].
    destruct (released_same id (answered r (Ok (failed "actor_error" (message f))) mb)) as (_ & -> & _ & ->). done.
Qed.

(** Without permission the only running invocation is committed by the runtime *)
Lemma serial_ok id r x c rcv ex t mb :
  core t rcv ex [rq_reply r] mb -> rt_inv e t (mb_runtime mb) -> ActorCommits.ready e (mb_runtime mb) c ->
  mb_interleaved mb = false -> mb_running mb = [] -> mb_ready mb = ∅ -> mb_blocked_on mb = Some id ->
  known rcv r -> ex !! rq_reply r = Some x -> (forall o, x <> Ok (MethodInterleaved o)) ->
  triple t mb
    (result ← with_runtime
       (finish_serial (operation_invocation (rq_operation r)) (rq_owner_epoch r) x
          (commit_origin (rq_operation r)));
     finish r result;; release id;; mret true) (handled rcv ex).
Proof.
  intros Hc Hi Hready Hm Hrun Hrd Hbl Hk Hex Hx. destruct (Hk) as (He & _). rewrite He. apply m_bind.
  eapply m_with_runtime; [eapply finish_serial_ok; [exact Hready|done]|]. intros t1 rt' res (Hi' & Hres).
  apply m_bind, m_finish, m_bind, m_release, m_ret. exists true. split_and!; [done| |].
  - eapply core_same; [apply released_same|].
    assert (Hc' : core (t ++ t1)%list rcv ex [rq_reply r] (set_runtime mb rt')).
    { eapply core_same; [|eapply core_app; [exact Hc|by eapply traced_inv]]. done. }
    destruct res as [[v eff|f| |]|err]; try by apply failed_answer.
    destruct (Hres v eff eq_refl) as (st & effs & c' & -> & Hready' & Hs').
    apply core_answer; [done| |unfold acked_sequence; cbn; by rewrite Hex].
    apply known_answer; [done|]. intros r0 Er Eop. unfold justified. rewrite Er, Hex. exists st.
    split; [left; by exists effs|]. exists c'. split; [by eapply ready_confirmed|done].
  - intros _. unfold released. cbn. rewrite Hbl, bool_decide_eq_true_2 by done.
    split; cbn; rewrite ?Hrun, ?Hrd, ?Hm; try done. by intros [?|?].
Qed.

Lemma executed_ok l1 rn l2 x rcv ex t mb :
  core t rcv ex [] mb -> lively t mb -> Z.of_nat (length rcv) < U64_MAX ->
  mb_running mb = (l1 ++ rn :: l2)%list ->
  triple t (set_running mb (l1 ++ l2)%list) (executed (rn_id rn) (rn_request rn) x)
    (handled rcv (<[rq_reply (rn_request rn) := x]> ex)).
Proof.
  intros Hc Hl Hlen El.
  assert (Hk : known rcv (rn_request rn)).
  { pose proof (co_running _ _ _ _ _ Hc) as Hr. rewrite El, Forall_app in Hr. destruct Hr as [_ Hr].
    by inversion Hr as [|? ? [? _]]. }
  assert (Hex : <[rq_reply (rn_request rn) := x]> ex !! rq_reply (rn_request rn) = Some x)
    by (by rewrite lookup_insert_eq).
  apply (core_take _ _ _ l1 rn l2) in Hc; [|done]. apply (core_executed _ _ _ _ x) in Hc.
  destruct (li_calm _ _ Hl) as [c Hready]; [left; rewrite El; by destruct l1|].
  set (r := rn_request rn) in *. set (ex' := <[rq_reply r := x]> ex) in *. set (mb1 := set_running _ _) in *.
  assert (Hb : busy t (Some (rn_id rn)) (set_interleaved mb1)).
  { destruct Hl as [Hi _ _ Hg _]. split; [done|by exists c|done|]. cbn. intros id Hbl.
    destruct (Hg id Hbl) as [Hin|?]; [|right; by right]. rewrite El in Hin.
    rewrite fmap_app, fmap_cons in Hin. rewrite fmap_app.
    apply elem_of_app in Hin as [?|[->|?]%elem_of_cons]; [right; left; set_solver|by left|right; left; set_solver]. }
  assert (Hrest : (forall o, x <> Ok (MethodInterleaved o)) ->
    triple t mb1 (mb ← get;
      if mb_interleaved mb then
        match x with
        | Ok (MethodFailed f) =>
            if application_failure f then
              finish r (Ok (failed "actor_error" (message f)));; release (rn_id rn);; mret true
            else stop r
        | _ => stop r
        end
      else
        result ← with_runtime
          (finish_serial (operation_invocation (rq_operation r)) (rq_owner_epoch r) x
             (commit_origin (rq_operation r)));
        finish r result;; release (rn_id rn);; mret true) (handled rcv ex')).
  { intros Hx. apply m_bind, m_get. destruct (mb_interleaved mb1) eqn:Em.
    - assert (Hb1 : busy t (Some (rn_id rn)) mb1) by (by eapply busy_same; [exact Hb|..]).
      destruct x as [[| |f]|]; try by apply stop_handled.
      destruct (application_failure f); [|by apply stop_handled].
      apply failed_ok; [done|done|]. apply Hl.
    - destruct (li_serial _ _ Hl Em) as [Hrd Hm]. rewrite El in Hm.
      destruct l1 as [|? [|]], l2; try done. destruct Hm as [Hbl _].
      eapply serial_ok; try done. apply Hl. }
  destruct x as [[o| |]|]; try by apply Hrest.
  apply m_bind, m_modify. apply park_ok; [by eapply core_same; [|exact Hc]|done..].
Qed.

Definition loop_inv (t : list event) (l : Loop) : Prop :=
  core t (lp_received l) (lp_executed l) [] (lp_mailbox l) /\
  (lp_live l = true -> lively t (lp_mailbox l)).

Lemma loop_step_inv t l t' l' :
  loop_inv t l -> loop_step l t' l' -> Z.of_nat (length (lp_received l')) < U64_MAX ->
  loop_inv (t ++ t')%list l'.
Proof.
  intros [Hc Hl] Hs Hlen.
  destruct Hs as [mb open rcv ex l1 l2 rn t1 x t2 mb' go El Hx Hr|mb open rcv ex id Hb|mb open rcv ex id Hb
    |mb rcv ex r accepting t1 mb' go Hb Hs Hr|mb rcv ex Hb|mb rcv ex Hrun Hb|mb open live rcv ex queues];
    cbn [lp_mailbox lp_live lp_received lp_executed] in *; rewrite ?app_nil_r.
  - specialize (Hl eq_refl). destruct (execute_trace _ _ t _ _ Hx) as [Htr Hrt].
    assert (Hc1 : core (t ++ t1)%list rcv ex [] mb) by (apply core_app; [done|apply Htr, Hc]).
    assert (Hl1 : lively (t ++ t1)%list mb) by (destruct Hl; split; auto).
    destruct (post_runs _ _ _ _ _ (executed_ok l1 rn l2 x rcv ex _ mb Hc1 Hl1 Hlen El) Hr)
      as (go' & [= <-] & Hc' & Hl'). rewrite app_assoc. by split.
  - split; [by eapply core_same; [|exact Hc]|]. intros _. specialize (Hl eq_refl).
    destruct (li_calm _ _ Hl) as [c Hready].
    { destruct (mb_interleaved mb) eqn:Em; [by right|left]. destruct (li_serial _ _ Hl Em) as [_ Hm].
      intros En. rewrite En in Hm. congruence. }
    destruct Hl as [Hi Hcalm Hser Hg Hn]. split; cbn; try done. intros _. by exists c.
  - by split.
  - destruct (post_runs _ _ _ _ _ (admit_ok r accepting rcv ex t mb Hc (Hl eq_refl) Hb Hs) Hr)
      as (go' & [= <-] & Hc' & Hl'). by split.
  - by split.
  - by split.
  - split; [by eapply core_same; [|exact Hc]|]. intros E. by eapply lively_same; [apply (Hl E)|..].
Qed.

End handlers.

(** ** Reachable loops *)
Lemma loop_new_inv object host queues :
  loop_inv [] [] (Loop_new object (ActorRuntime_new host) queues).
Proof.
  split; [split|intros _; split]; cbn; try done.
  - by left.
  - apply NoDup_nil_2.
  - by intros [?|?].
Qed.

Lemma step_received l t l' : loop_step l t l' -> (length (lp_received l) <= length (lp_received l'))%nat.
Proof. intros []; cbn; rewrite ?length_app; lia. Qed.

Lemma reachable_loop_inv object host t l :
  reachable object host t l -> Z.of_nat (length (lp_received l)) < U64_MAX -> loop_inv [] t l.
Proof.
  induction 1 as [queues|t l t' l' Hr IH Hs]; intros Hlen; [apply loop_new_inv|].
  pose proof (step_received _ _ _ Hs). apply (loop_step_inv [] _ l); [apply IH; lia|done|done].
Qed.

(** * Guarantees of the actor task *)
(** C5: an answered invocation is durable, interleaved or not.  Whenever the
    task has answered a request with a result, the request was an activation, or
    the result is recorded in a durable snapshot for the same request identifier
    and user code was not run, or user code ran for this request and returned
    this result together with a state that a durable snapshot holds.  Durable
    means acknowledged by the snapshot writer or handed out by storage. *)
Theorem mailbox_answers_are_durable object host t l c res effects :
  reachable object host t l -> Z.of_nat (length (lp_received l)) < U64_MAX ->
  c ∈ mb_completed (lp_mailbox l) -> cp_result c = Ok (Completed res effects) ->
  exists r, r ∈ lp_received l /\ rq_reply r = cp_reply c /\ justified t (lp_executed l) r res.
Proof.
  intros Hr Hlen Hin E. destruct (reachable_loop_inv _ _ _ _ Hr Hlen) as [Hc _].
  pose proof (co_answers _ _ _ _ _ _ Hc) as Ha. rewrite Forall_forall in Ha. by eapply Ha.
Qed.

(** C6: interleaved invocations are committed in the order of their snapshots.
    The sequence numbers of the interleaved executions that were answered with a
    result are 1, 2, 3 and so on in the order of the answers, in whatever order
    the executions ended. *)
Theorem interleaved_commits_in_sequence object host t l :
  reachable object host t l -> Z.of_nat (length (lp_received l)) < U64_MAX ->
  omap (acked_sequence (lp_executed l)) (mb_completed (lp_mailbox l)) =
    seqZ 1 (mb_next_sequence (lp_mailbox l) - 1).
Proof.
  intros Hr Hlen. destruct (reachable_loop_inv _ _ _ _ Hr Hlen) as [Hc _]. apply Hc.
Qed.

(** Each version is written with one content, also by interleaved commits. *)
Theorem mailbox_version_has_one_content object host t l w1 w2 s1 s2 :
  reachable object host t l -> Z.of_nat (length (lp_received l)) < U64_MAX ->
  w1 ∈ writes t -> w2 ∈ writes t ->
  StateSnapshot_decode w1.1.2 = Ok s1 -> StateSnapshot_decode w2.1.2 = Ok s2 ->
  owner_epoch s1 = e /\ (state_version s1 = state_version s2 -> w1.1.2 = w2.1.2).
Proof.
  intros Hr Hlen Hw1 Hw2 Hd1 Hd2. destruct (reachable_loop_inv _ _ _ _ Hr Hlen) as [Hc _].
  destruct (co_traced _ _ _ _ _ _ Hc) as [En|[c [_ _ Hw Hu]]].
  { rewrite En in Hw1. by apply not_elem_of_nil in Hw1. }
  destruct (Hw w1 Hw1) as (s1' & He1 & Hep & _). destruct (Hw w2 Hw2) as (s2' & He2 & _).
  destruct (encode_ok _ _ He1) as [_ Hd1']. destruct (encode_ok _ _ He2) as [_ Hd2'].
  assert (s1' = s1) as -> by congruence. assert (s2' = s2) as -> by congruence.
  split; [done|]. intros Hv. by eapply Hu.
Qed.

(** Without permission to interleave, invocations are serial.  As long as the
    executor has given no permission, at most one invocation runs, it runs on the
    state the runtime holds, and nothing is left to commit. *)
Theorem serial_execution_sees_current_state object host t l :
  reachable object host t l -> Z.of_nat (length (lp_received l)) < U64_MAX ->
  lp_live l = true -> mb_interleaved (lp_mailbox l) = false ->
  mb_running (lp_mailbox l) = [] \/
  exists rn c, mb_running (lp_mailbox l) = [rn] /\ mb_blocked_on (lp_mailbox l) = Some (rn_id rn) /\
    rt_cached_state (mb_runtime (lp_mailbox l)) = Some c /\ ca_pending c = None /\
    confirmed t c /\ ca_state c = rn_state rn.
Proof.
  intros Hr Hlen Hlive Hm. destruct (reachable_loop_inv _ _ _ _ Hr Hlen) as [_ Hl]. specialize (Hl Hlive).
  destruct (li_serial _ _ Hl Hm) as [_ Hs]. destruct (mb_running _) as [|rn [|]]; [by left|right|done].
  destruct Hs as (Hb & c & Hready & Hst). exists rn, c.
  pose proof (ready_confirmed _ _ _ Hready (li_runtime _ _ Hl)). destruct Hready as (? & ? & ?). done.
Qed.

(** C32: the mailbox does not lock up by itself.  After every step of a live task no
    outcome that is next in sequence is left uncommitted, and if nothing runs and
    nothing is parked the task accepts requests. *)
Theorem mailbox_stays_responsive object host t l :
  reachable object host t l -> Z.of_nat (length (lp_received l)) < U64_MAX -> lp_live l = true ->
  mb_ready (lp_mailbox l) !! mb_next_sequence (lp_mailbox l) = None /\
  (mb_running (lp_mailbox l) = [] -> mb_ready (lp_mailbox l) = ∅ -> mb_blocked_on (lp_mailbox l) = None).
Proof.
  intros Hr Hlen Hlive. destruct (reachable_loop_inv _ _ _ _ Hr Hlen) as [_ Hl]. specialize (Hl Hlive).
  split; [apply Hl|]. intros Hrun Hrd. destruct (mb_blocked_on _) as [id|] eqn:Eb; [|done].
  destruct (li_gate _ _ Hl id Eb) as [Hin|(k & r & o & Hk)].
  - rewrite Hrun in Hin. by apply not_elem_of_nil in Hin.
  - by rewrite Hrd, lookup_empty in Hk.
Qed.
End loop.

(** * Example: two invocations whose snapshots arrive in reverse order *)
Definition sample_request (id : string) (reply : channel) : ActorRequest :=
  {| rq_waiting := None; rq_operation := Method (sample_call id); rq_owner_epoch := 4; rq_reply := reply |}.
Definition sample_outcome (n : Z) : ActorInterleavedOutcome :=
  {| sequence := n; il_result := Number (show_u64 n); il_state := Object [("n", Number (show_u64 n))];
     il_effects := [] |}.
Definition sample_execution (n : Z) : Execution := Ok (MethodInterleaved (sample_outcome n)).

Definition handle {A} (p : hprog (Mailbox * Result A)) : list event * Mailbox :=
  let x := exec 0 0 p in (x.1, x.2.1).
Definition mb0 : Mailbox := Mailbox_new "o" (ActorRuntime_new "h") [].
Definition mb1 := handle (admit_request (sample_request "r1" 1) true mb0).
Definition mb2 : Mailbox := set_blocked_on (set_interleaved mb1.2) None.
Definition mb3 := handle (admit_request (sample_request "r2" 2) true mb2).
Definition sample_rn (n : Z) (r : ActorRequest) : Running :=
  {| rn_id := n; rn_request := r; rn_state := None |}.
Definition rn1 : Running := sample_rn 1 (sample_request "r1" 1).
Definition rn2 : Running := sample_rn 2 (sample_request "r2" 2).
Definition mb4 := handle (executed (rn_id rn2) (rn_request rn2) (sample_execution 2) (set_running mb3.2 ([rn1] ++ [])%list)).
Definition mb5 := handle (executed (rn_id rn1) (rn_request rn1) (sample_execution 1) (set_running mb4.2 ([] ++ [])%list)).

Definition sample_loop (mb : Mailbox) (rcv : list ActorRequest) (ex : gmap channel Execution) : Loop :=
  {| lp_mailbox := mb; lp_open := true; lp_live := true; lp_received := rcv; lp_executed := ex |}.
Definition executed_event (rn : Running) (x : Execution) : list event :=
  match rq_operation (rn_request rn) with
  | Method i => [Event (InvokeShared {| mi_request_id := request_id i; mi_actor := inv_actor i;
                   mi_method := method i; mi_args := args i |} (rn_state rn)) x]
  | _ => []
  end.
Definition loop1 := sample_loop mb1.2 [sample_request "r1" 1] ∅.
Definition loop5 := sample_loop mb5.2 [sample_request "r1" 1; sample_request "r2" 2]
  (<[1%nat := sample_execution 1]> (<[2%nat := sample_execution 2]> ∅)).
Definition trace5 : list event :=
  ((((([] ++ mb1.1) ++ []) ++ mb3.1) ++ (executed_event rn2 (sample_execution 2) ++ mb4.1)) ++
   (executed_event rn1 (sample_execution 1) ++ mb5.1))%list.

(** The handlers of the example run to the mailboxes above. *)
Lemma handle_runs {A} (p : hprog (Mailbox * Result A)) x :
  (exec 0 0 p).2.2 = x -> runs p (handle p).1 ((handle p).2, x).
Proof.
  intros <-. unfold handle. cbn. rewrite <-surjective_pairing. apply exec_runs.
Qed.

Lemma mb4_runs :
  runs (executed (rn_id rn2) (rn_request rn2) (sample_execution 2) (set_running mb3.2 ([rn1] ++ [])%list))
    mb4.1 (mb4.2, Ok true).
Proof. unfold mb4. apply handle_runs. vm_compute. reflexivity. Qed.
Lemma mb5_runs :
  runs (executed (rn_id rn1) (rn_request rn1) (sample_execution 1) (set_running mb4.2 ([] ++ [])%list))
    mb5.1 (mb5.2, Ok true).
Proof. unfold mb5. apply handle_runs. vm_compute. reflexivity. Qed.

Lemma loop1_reachable : reachable 4 "o" "h" ([] ++ mb1.1)%list loop1.
Proof.
  eapply reach_step; [apply (reach_new 4 "o" "h" [])|].
  apply (step_request 4 mb0 [] ∅ (sample_request "r1" 1) true); [done|split; [set_solver|by right]|].
  apply handle_runs. vm_compute. reflexivity.
Qed.

Lemma loop5_reachable : reachable 4 "o" "h" trace5 loop5.
Proof.
  assert (E3 : mb_running mb3.2 = [rn1; rn2]) by (vm_compute; reflexivity).
  assert (E4 : mb_running mb4.2 = [rn1]) by (vm_compute; reflexivity).
  eapply reach_step; [eapply reach_step; [eapply reach_step; [eapply reach_step; [apply loop1_reachable|]|]|]|].
  - apply (step_permitted 4 mb1.2 true _ _ 1). vm_compute. reflexivity.
  - apply (step_request 4 mb2 _ ∅ (sample_request "r2" 2) true); [done|split; [cbn; set_solver|by right]|].
    apply handle_runs. vm_compute. reflexivity.
  - apply (step_executed 4 mb3.2 true _ ∅ [rn1] [] rn2 (executed_event rn2 (sample_execution 2))
      (sample_execution 2) mb4.1 mb4.2 true); [exact E3|repeat constructor|exact mb4_runs].
  - apply (step_executed 4 mb4.2 true _ _ [] [] rn1 (executed_event rn1 (sample_execution 1))
      (sample_execution 1) mb5.1 mb5.2 true); [exact E4|repeat constructor|exact mb5_runs].
Qed.

Lemma mailbox_answers_are_durable_witness :
  exists r, r ∈ lp_received loop5 /\ rq_reply r = 2%nat /\
    justified trace5 (lp_executed loop5) r (Number "2").
Proof.
  set (c := completion_of "o" (sample_request "r2" 2) (Ok (Completed (Number "2") []))).
  assert (Hc : c ∈ mb_completed (lp_mailbox loop5)).
  { assert (E : mb_completed (lp_mailbox loop5) !! 1%nat = Some c) by (vm_compute; reflexivity).
    by eapply list_elem_of_lookup_2. }
  exact (mailbox_answers_are_durable 4 "o" "h" trace5 loop5 c (Number "2") [] loop5_reachable
    ltac:(vm_compute; reflexivity) Hc eq_refl).
Defined.

Lemma interleaved_commits_in_sequence_witness :
  omap (acked_sequence (lp_executed loop5)) (mb_completed (lp_mailbox loop5)) = [1; 2].
Proof.
  rewrite (interleaved_commits_in_sequence 4 "o" "h" trace5 loop5 loop5_reachable
    ltac:(vm_compute; reflexivity)).
  vm_compute. reflexivity.
Defined.

Lemma mailbox_version_has_one_content_witness :
  exists w1 w2, writes trace5 = [w1; w2] /\ (w1.1.2 <> w2.1.2 -> exists s1 s2,
    StateSnapshot_decode w1.1.2 = Ok s1 /\ StateSnapshot_decode w2.1.2 = Ok s2 /\
    owner_epoch s1 = 4 /\ state_version s1 <> state_version s2).
Proof.
  assert (Hw : exists w1 w2 s1 s2, writes trace5 = [w1; w2] /\
    StateSnapshot_decode w1.1.2 = Ok s1 /\ StateSnapshot_decode w2.1.2 = Ok s2).
  { eexists _, _, _, _. repeat (split; [vm_compute; reflexivity|]). vm_compute; reflexivity. }
  destruct Hw as (w1 & w2 & s1 & s2 & Hw & D1 & D2). exists w1, w2. split; [exact Hw|].
  intros Hne. exists s1, s2.
  assert (Hi1 : w1 ∈ writes trace5) by (rewrite Hw; constructor).
  assert (Hi2 : w2 ∈ writes trace5) by (rewrite Hw; constructor; constructor).
  destruct (mailbox_version_has_one_content 4 "o" "h" trace5 loop5 w1 w2 s1 s2 loop5_reachable
    ltac:(vm_compute; reflexivity) Hi1 Hi2 D1 D2) as [He Hv].
  split; [exact D1|]. split; [exact D2|]. split; [exact He|]. intros Ev. exact (Hne (Hv Ev)).
Defined.

Lemma serial_execution_sees_current_state_witness :
  exists rn c, mb_running (lp_mailbox loop1) = [rn] /\
    rt_cached_state (mb_runtime (lp_mailbox loop1)) = Some c /\ ca_state c = rn_state rn.
Proof.
  destruct (serial_execution_sees_current_state 4 "o" "h" _ loop1 loop1_reachable
    ltac:(vm_compute; reflexivity) eq_refl ltac:(vm_compute; reflexivity))
    as [E|(rn & c & Hrn & _ & Hc & _ & _ & Hs)].
  - vm_compute in E. discriminate E.
  - exists rn, c. split; [exact Hrn|]. split; [exact Hc|exact Hs].
Defined.

Lemma mailbox_stays_responsive_witness :
  mb_completed (lp_mailbox loop5) <> [] /\ mb_blocked_on (lp_mailbox loop5) = None.
Proof.
  split; [vm_compute; discriminate|].
  apply (mailbox_stays_responsive 4 "o" "h" trace5 loop5 loop5_reachable
    ltac:(vm_compute; reflexivity) eq_refl); vm_compute; reflexivity.
Defined.
