(* ===== verification/HostService.v ===== *)
(** The host as a whole: the dispatcher together with the actor task it feeds.

    What the dispatcher needs from a task is the interface [ActorTask]: a task
    takes requests from its channel, holds them, and answers each once.  The
    serial loop of [run_actor] and the mailbox of [Admission] implement it.  The
    theorems here hold for every implementation, any interleaving of commands,
    completions and task steps, and a task that ends at any moment. *)

From S2P Require Import Prelude.
From S2P Require Import Actors.
From S2P Require Import StoragePaths.
From S2P Require Import Snapshots.
From S2P Require Import RuntimeStorage.
From S2P Require Import SocketEffects.
From S2P Require Import ActorRuntime.
From S2P Require Import Samples.
From S2P Require Import ActorCommits.
From S2P Require Import HostRequests.
From S2P Require Import HostDispatcher.
From S2P Require Import Admission.
From S2P Require Import AdmissionSafety.
Local Open Scope string_scope.
Local Open Scope Z_scope.

(** * The interface between dispatcher and actor task *)
Class ActorTask (T : Type) := {
  (* a task just spawned *)
  task_new : ActorStorageKey -> T -> Prop;
  (* one step: requests taken from the channel, completions sent *)
  task_step : T -> list ActorRequest -> list ActorCompletion -> T -> Prop;
  (* reply channels of the requests taken and not yet answered *)
  task_held : T -> list channel;
  task_ok : T -> Prop;
  task_new_ok object s : task_new object s -> task_ok s /\ task_held s = [];
  task_step_ok s new done s' : task_ok s -> task_step s new done s' -> task_ok s' /\
    (task_held s ++ (rq_reply <$> new) ≡ₚ task_held s' ++ (cp_reply <$> done))%list }.

(** * The host *)
Record Host (T : Type) := {
  ho_dispatcher : HostDispatcher;
  ho_running : bool;
  ho_task : option T;
  ho_ended : bool;
  ho_completions : list ActorCompletion;
  ho_received : list channel;
  ho_dropped : list channel }.
Arguments ho_dispatcher {T} h.
Arguments ho_running {T} h.
Arguments ho_task {T} h.
Arguments ho_ended {T} h.
Arguments ho_completions {T} h.
Arguments ho_received {T} h.
Arguments ho_dropped {T} h.

Definition Host_new {T} (now : Z) : Host T :=
  {| ho_dispatcher := HostDispatcher_new now; ho_running := true; ho_task := None; ho_ended := false;
     ho_completions := []; ho_received := []; ho_dropped := [] |}.

Definition release_all (taken : list ActorRequest) (q : ActorQueues) : ActorQueues :=
  foldl (fun q r => release_waiting (rq_waiting r) q) q taken.

Section host.
Context `{ActorTask T} (supports : string -> bool).

Definition waiting_ids (m : ActorMailbox) : list string := op_id <$> omap waiting_of (am_queue m).
Definition queue_of (d : HostDispatcher) : list ActorRequest :=
  match dp_mailbox d with Some m => am_queue m | None => [] end.

(** Reply channels and waiting identifiers are new, tasks are new. *)
Definition fresh_command (h : Host T) (c : HostCommand) (uuid : string) : Prop :=
  match c with
  | Invoke r => (rq_reply r ∉ ho_received h) /\ rq_waiting r = None /\
                uuid ∉ (op_id <$> omap waiting_of (queue_of (ho_dispatcher h)))
  | _ => True
  end.
Definition received_by (c : HostCommand) : list channel :=
  match c with Invoke r => [rq_reply r] | _ => [] end.

(** The task of the mailbox: spawned by this command or the one before *)
Definition task_of (h : Host T) (d : HostDispatcher) (spawned : T) : option T :=
  match dp_mailbox (ho_dispatcher h), dp_mailbox d with
  | None, Some _ => Some spawned
  | _, _ => ho_task h
  end.

Inductive host_step : Host T -> Host T -> Prop :=
| host_command h c task uuid now evicted gone spawned d go :
    ho_running h = true -> fresh_command h c uuid ->
    handle_command supports (ho_dispatcher h) c task uuid now evicted gone = (d, go) ->
    (forall m, dp_mailbox (ho_dispatcher h) = None -> dp_mailbox d = Some m ->
       task_new (storage_key (am_actor m)) spawned) ->
    host_step h {| ho_dispatcher := d; ho_running := go; ho_task := task_of h d spawned;
                   ho_ended := ho_ended h; ho_completions := ho_completions h;
                   ho_received := (ho_received h ++ received_by c)%list; ho_dropped := ho_dropped h |}
| host_complete h c cs now :
    ho_running h = true -> ho_completions h = c :: cs ->
    host_step h {| ho_dispatcher := complete (ho_dispatcher h) c now; ho_running := true;
                   ho_task := ho_task h; ho_ended := ho_ended h; ho_completions := cs;
                   ho_received := ho_received h; ho_dropped := ho_dropped h |}
| host_joined h id l1 l2 :
    ho_running h = true -> ho_ended h = true -> dp_tasks (ho_dispatcher h) = (l1 ++ id :: l2)%list ->
    host_step h {| ho_dispatcher := task_stopped (set_tasks (ho_dispatcher h) (l1 ++ l2)%list) id;
                   ho_running := true; ho_task := ho_task h; ho_ended := true;
                   ho_completions := ho_completions h; ho_received := ho_received h;
                   ho_dropped := ho_dropped h |}
(* all senders of commands are gone *)
| host_abandoned h :
    ho_running h = true ->
    host_step h {| ho_dispatcher := ho_dispatcher h; ho_running := false; ho_task := ho_task h;
                   ho_ended := ho_ended h; ho_completions := ho_completions h;
                   ho_received := ho_received h; ho_dropped := ho_dropped h |}
(* the task takes requests, dropping their waiting entries, and answers some *)
| host_task h m s new rest done s' :
    ho_running h = true -> ho_ended h = false -> ho_task h = Some s ->
    dp_mailbox (ho_dispatcher h) = Some m -> am_queue m = (new ++ rest)%list ->
    task_step s new done s' ->
    host_step h
      {| ho_dispatcher := set_host_queues
           (set_mailbox (ho_dispatcher h) (Some (set_mailbox_queue rest m)) (dp_active (ho_dispatcher h)))
           (release_all new (dp_queues (ho_dispatcher h)));
         ho_running := true; ho_task := Some s'; ho_ended := false;
         ho_completions := (ho_completions h ++ done)%list; ho_received := ho_received h;
         ho_dropped := ho_dropped h |}
(* the task ends, returning or panicking: its requests are dropped *)
| host_task_ends h m s :
    ho_running h = true -> ho_ended h = false -> ho_task h = Some s ->
    dp_mailbox (ho_dispatcher h) = Some m ->
    host_step h
      {| ho_dispatcher := set_host_queues
           (set_mailbox (ho_dispatcher h) (Some (close_channel m)) (dp_active (ho_dispatcher h)))
           (release_all (am_queue m) (dp_queues (ho_dispatcher h)));
         ho_running := true; ho_task := Some s; ho_ended := true; ho_completions := ho_completions h;
         ho_received := ho_received h;
         ho_dropped := (ho_dropped h ++ (rq_reply <$> am_queue m) ++ task_held s)%list |}.

Inductive host_reachable : Host T -> Prop :=
| host_start now : host_reachable (Host_new now)
| host_next h h' : host_reachable h -> host_step h h' -> host_reachable h'.

(** * Accounting *)
Definition reply_of (o : Output) : option channel :=
  match o with Replied ch _ => Some ch | _ => None end.
Definition answered_by (d : HostDispatcher) : list channel := omap reply_of (dp_sent d).

Definition held_by (h : Host T) : list channel :=
  if ho_ended h then [] else match ho_task h with Some s => task_held s | None => [] end.
Definition in_flight (h : Host T) : list channel :=
  ((rq_reply <$> queue_of (ho_dispatcher h)) ++ held_by h ++ (cp_reply <$> ho_completions h))%list.

(** A task is running, has ended unnoticed, or has ended and was joined. *)
Definition counted (h : Host T) (m : ActorMailbox) : Prop :=
  let d := ho_dispatcher h in
  (ho_ended h = false /\ am_closed m = false /\ dp_tasks d = [am_task_id m] /\ ho_dropped h = [] /\
     am_admitted m = Z.of_nat (length (in_flight h))) \/
  (ho_ended h = true /\ am_closed m = true /\ am_queue m = [] /\
     ((dp_tasks d = [am_task_id m] /\
         am_admitted m = Z.of_nat (length (in_flight h) + length (ho_dropped h))) \/
      (dp_tasks d = [] /\ am_admitted m = 0))).

Definition mine (m : ActorMailbox) (r : ActorRequest) : Prop := operation_actor (rq_operation r) = am_actor m.

Record mailbox_inv (h : Host T) (m : ActorMailbox) : Prop := {
  mi_identity : dp_identity (ho_dispatcher h) = Some (storage_key (am_actor m));
  mi_valid : ActorKey_validate (am_actor m) = Ok ();
  mi_active : dp_active (ho_dispatcher h) = am_admitted m;
  mi_bound : 0 <= am_admitted m <= MAX_ADMITTED_INVOCATIONS_PER_ACTOR;
  mi_task : exists s, ho_task h = Some s /\ task_ok s;
  mi_counted : counted h m;
  mi_mine : Forall (mine m) (am_queue m);
  mi_queues : dp_queues (ho_dispatcher h) = inventory_of (am_actor m) (omap waiting_of (am_queue m));
  mi_distinct : NoDup (waiting_ids m) }.

Definition empty_inv (h : Host T) : Prop :=
  let d := ho_dispatcher h in
  dp_identity d = None /\ dp_tasks d = [] /\ dp_active d = 0 /\ dp_queues d = [] /\
  ho_task h = None /\ ho_ended h = false /\ ho_completions h = [] /\ ho_dropped h = [].

Record accounts (h : Host T) : Prop := {
  hi_nodup : NoDup (ho_received h);
  hi_account : (ho_received h ≡ₚ answered_by (ho_dispatcher h) ++ ho_dropped h ++ in_flight h)%list;
  hi_mailbox : match dp_mailbox (ho_dispatcher h) with Some m => mailbox_inv h m | None => empty_inv h end }.
Definition host_inv (h : Host T) : Prop :=
  accounts h /\ (dp_active (ho_dispatcher h) = 0 -> dp_drained (ho_dispatcher h) = []).

(** ** Dispatcher changes that leave the accounts alone *)
Record quiet (d d' : HostDispatcher) : Prop := {
  qu_mailbox : dp_mailbox d' = dp_mailbox d;
  qu_identity : dp_identity d' = dp_identity d;
  qu_tasks : dp_tasks d' = dp_tasks d;
  qu_active : dp_active d' = dp_active d;
  qu_queues : dp_queues d' = dp_queues d;
  qu_answered : answered_by d' = answered_by d }.

Definition with_dispatcher (h : Host T) (d : HostDispatcher) (go : bool) : Host T :=
  {| ho_dispatcher := d; ho_running := go; ho_task := ho_task h; ho_ended := ho_ended h;
     ho_completions := ho_completions h; ho_received := ho_received h; ho_dropped := ho_dropped h |}.

Lemma answered_quiet (o : list Output) : omap reply_of o = [] -> forall d, answered_by (send d o) = answered_by d.
Proof. intros Ho d. unfold answered_by. cbn. by rewrite omap_app, Ho, app_nil_r. Qed.

Lemma publish_quiet d : quiet d (publish_activity d).
Proof.
  unfold publish_activity. cbn. destruct (_ =? 0); split; try done. cbn.
  unfold answered_by. cbn. rewrite omap_app.
  enough (omap reply_of (Drained <$> dp_drained d) = []) as -> by (by rewrite app_nil_r).
  by induction (dp_drained d).
Qed.
Lemma publish_drained d : dp_active (publish_activity d) = 0 -> dp_drained (publish_activity d) = [].
Proof. unfold publish_activity. cbn. destruct (_ =? 0) eqn:E; cbn; [done|]. intros E'. bools. lia. Qed.
Lemma quiet_trans d1 d2 d3 : quiet d1 d2 -> quiet d2 d3 -> quiet d1 d3.
Proof. intros [] []. split; congruence. Qed.

Lemma queue_quiet d d' : quiet d d' -> queue_of d' = queue_of d.
Proof. intros []. unfold queue_of. by rewrite qu_mailbox0. Qed.
Lemma in_flight_quiet h d' go : quiet (ho_dispatcher h) d' -> in_flight (with_dispatcher h d' go) = in_flight h.
Proof. intros Hq. unfold in_flight, held_by. cbn. by rewrite (queue_quiet _ _ Hq). Qed.

Lemma mailbox_inv_quiet h d' go m :
  quiet (ho_dispatcher h) d' -> mailbox_inv h m -> mailbox_inv (with_dispatcher h d' go) m.
Proof.
  intros Hq [H1 H2 H3 H4 H5 H6 H7 H8 H9]. pose proof (in_flight_quiet h d' go Hq) as Hf.
  destruct Hq as [Em Ei Et Ea Eq Es]. split; cbn; rewrite ?Ei, ?Ea, ?Eq; try done.
  unfold counted. rewrite Hf. cbn. by rewrite Et.
Qed.

Lemma accounts_quiet h d' go :
  accounts h -> quiet (ho_dispatcher h) d' -> accounts (with_dispatcher h d' go).
Proof.
  intros [Hn Ha Hm] Hq. split; cbn; [done|..].
  - rewrite (in_flight_quiet h d' go Hq). destruct Hq. by rewrite qu_answered0.
  - rewrite (qu_mailbox _ _ Hq). destruct (dp_mailbox (ho_dispatcher h)) as [m|]; [by apply mailbox_inv_quiet|].
    destruct Hq as [Em Ei Et Ea Eq Es]. unfold empty_inv. cbn. by rewrite Ei, Et, Ea, Eq.
Qed.
Lemma published_inv h d go :
  accounts (with_dispatcher h d go) -> host_inv (with_dispatcher h (publish_activity d) go).
Proof.
  intros Hi. split; [|apply publish_drained].
  by apply (accounts_quiet (with_dispatcher h d go)); [|apply publish_quiet].
Qed.

(** ** Requests *)
Definition receive (h : Host T) (d : HostDispatcher) (go : bool) (ch : list channel) : Host T :=
  {| ho_dispatcher := d; ho_running := go; ho_task := ho_task h; ho_ended := ho_ended h;
     ho_completions := ho_completions h; ho_received := (ho_received h ++ ch)%list;
     ho_dropped := ho_dropped h |}.

(** Refused at once *)
Lemma refused_inv h r result go :
  host_inv h -> (rq_reply r ∉ ho_received h) -> rq_waiting r = None ->
  host_inv (receive h (finish_request (ho_dispatcher h) r result) go [rq_reply r]).
Proof.
  intros [[Hn Ha Hm] Hd] Hfresh Hw. split; [split|]; cbn; try done.
  - apply NoDup_app. split_and!; [done|set_solver|apply NoDup_singleton].
  - unfold in_flight, held_by, answered_by in *. cbn. rewrite omap_app, Ha. cbn. unfold queue_of. cbn.
    solve_Permutation.
  - unfold finish_request. rewrite Hw. cbn.
    destruct (dp_mailbox (ho_dispatcher h)) as [m|]; [|exact Hm]. by destruct Hm.
Qed.

(** The channel to the task gets a request *)
Definition entry_of (w : option string) (r : ActorRequest) : option string :=
  if is_activate (rq_operation r) then None else w.
Definition accept (d : HostDispatcher) (m : ActorMailbox) (r : ActorRequest) (w : option string) : HostDispatcher :=
  set_mailbox
    (match w with
     | Some uuid => set_host_queues d (enqueue (am_actor m) uuid
                      (method (operation_invocation (rq_operation r))) (dp_queues d))
     | None => d
     end)
    (Some (set_admitted (am_admitted m + 1) (set_resident true
       (set_mailbox_queue (am_queue m ++ [set_waiting w r])%list m)))) (dp_active d + 1).

Lemma accepted_counts h m r w go :
  let h' := receive h (accept (ho_dispatcher h) m r w) go [rq_reply r] in
  dp_mailbox (ho_dispatcher h) = Some m ->
  (in_flight h' ≡ₚ rq_reply r :: in_flight h)%list /\ answered_by (ho_dispatcher h') = answered_by (ho_dispatcher h).
Proof.
  intros h' Em. split; [|by destruct w].
  unfold in_flight, held_by, queue_of. cbn. rewrite Em. cbn. rewrite fmap_app. cbn. solve_Permutation.
Qed.

Lemma accepted_inv h m r w go :
  host_inv h -> dp_mailbox (ho_dispatcher h) = Some m -> am_closed m = false ->
  am_admitted m < MAX_ADMITTED_INVOCATIONS_PER_ACTOR -> (rq_reply r ∉ ho_received h) ->
  mine m r -> (forall uuid, w = Some uuid -> uuid ∉ waiting_ids m) ->
  accounts (receive h (accept (ho_dispatcher h) m r w) go [rq_reply r]).
Proof.
  intros [[Hn Ha Hm] Hd] Em Hopen Hlt Hfresh Hmine Hid. rewrite Em in Hm.
  destruct (accepted_counts h m r w go Em) as [Hfl Hans]. set (h' := receive _ _ _ _) in *.
  split.
  - cbn. apply NoDup_app. split_and!; [done|set_solver|apply NoDup_singleton].
  - cbn [ho_received ho_dropped h' receive] in *. rewrite Hans, Hfl, Ha. solve_Permutation.
  - cbn. destruct Hm as [I1 I2 I3 I4 I5 I6 I7 I8 I9]. split; cbn; try done.
    + by destruct w.
    + lia.
    + lia.
    + destruct I6 as [(E1 & E2 & E3 & E4 & E5)|(_ & E2 & _)]; [left|congruence].
      split_and!; [done|done|by destruct w|done|].
      change (am_admitted m + 1 = Z.of_nat (length (in_flight h'))). rewrite Hfl. cbn [length]. lia.
    + apply Forall_app. split; [done|]. by constructor.
    + rewrite omap_app. destruct w as [uuid|]; cbn.
      * rewrite I8. apply enqueue_inventory.
      * by rewrite app_nil_r.
    + unfold waiting_ids in *. cbn. rewrite omap_app, fmap_app. destruct w as [uuid|]; cbn.
      * apply NoDup_app. split_and!; [done| |apply NoDup_singleton].
        intros x Hx ->%list_elem_of_singleton. by destruct (Hid uuid eq_refl).
      * by rewrite app_nil_r.
Qed.

(** A first request starts the actor *)
Definition started (h : Host T) (actor : ActorKey) (task : Z) (s : T) : Host T :=
  {| ho_dispatcher := start_actor (set_identity (ho_dispatcher h) (Some (storage_key actor))) actor task;
     ho_running := true; ho_task := Some s; ho_ended := ho_ended h; ho_completions := ho_completions h;
     ho_received := ho_received h; ho_dropped := ho_dropped h |}.

Lemma started_inv h actor task s :
  host_inv h -> dp_mailbox (ho_dispatcher h) = None -> ActorKey_validate actor = Ok () ->
  task_new (storage_key actor) s -> host_inv (started h actor task s).
Proof.
  intros [[Hn Ha Hm] Hd] Em Hv Hnew. rewrite Em in Hm.
  destruct Hm as (E1 & E2 & E3 & E4 & E5 & E6 & E7 & E8). destruct (task_new_ok _ _ Hnew) as [Hok Hheld].
  assert (Hfl : in_flight (started h actor task s) = []).
  { unfold in_flight, held_by, queue_of. cbn. by rewrite E6, E7, Hheld. }
  assert (Hfl0 : in_flight h = []).
  { unfold in_flight, held_by, queue_of. by rewrite Em, E5, E6, E7. }
  split; [split|done]; [done| |].
  - rewrite Hfl. rewrite Hfl0 in Ha. exact Ha.
  - cbn. split; cbn; try done.
    + by exists s.
    + left. rewrite Hfl. cbn. by rewrite E2, E6, E8.
    + apply NoDup_nil_2.
Qed.

Lemma operation_actor_valid r :
  operation_validate (rq_operation r) = Ok () -> ActorKey_validate (operation_actor (rq_operation r)) = Ok ().
Proof.
  unfold operation_validate, ActorInvocation_validate.
  destruct (rq_operation r) as [actor reply|i|i]; cbn [operation_invocation operation_actor];
    intros Hv; repeat (apply bind_ok in Hv as ([] & ? & Hv)); done.
Qed.

(** [admit_to_host] once the request is for this actor and there is room *)
Lemma admit_room d m r uuid :
  am_closed m = false -> am_admitted m < MAX_ADMITTED_INVOCATIONS_PER_ACTOR ->
  Z.of_nat (length (am_queue m)) <= am_admitted m -> mine m r -> rq_waiting r = None ->
  (let '(d, r) :=
     if is_activate (rq_operation r) then (d, r)
     else (set_host_queues d (enqueue (operation_actor (rq_operation r)) uuid
             (method (operation_invocation (rq_operation r))) (dp_queues d)), set_waiting (Some uuid) r) in
   match try_send m r with
   | Some m => publish_activity
       (set_mailbox d (Some (set_admitted (am_admitted m + 1) (set_resident true m))) (dp_active d + 1))
   | None => finish_request d r (Ok HostUnavailable)
   end) = publish_activity (accept d m r (entry_of (Some uuid) r)).
Proof.
  intros Hc Hlt Hq Hmine Hw. unfold entry_of, accept.
  assert (Hsend : forall r', try_send m r' = Some (set_mailbox_queue (am_queue m ++ [r'])%list m)).
  { intros r'. unfold try_send. rewrite Hc. cbn. by rewrite (proj2 (Z.leb_gt _ _)) by lia. }
  destruct (is_activate _); rewrite Hsend.
  - by destruct r as [w op ep rp]; cbn in *; subst.
  - by rewrite <-Hmine.
Qed.
Lemma admit_closed d m r uuid :
  am_closed m = true -> dp_queues d = inventory_of (am_actor m) (omap waiting_of (am_queue m)) ->
  mine m r -> rq_waiting r = None -> uuid ∉ waiting_ids m ->
  (let '(d, r) :=
     if is_activate (rq_operation r) then (d, r)
     else (set_host_queues d (enqueue (operation_actor (rq_operation r)) uuid
             (method (operation_invocation (rq_operation r))) (dp_queues d)), set_waiting (Some uuid) r) in
   match try_send m r with
   | Some m => publish_activity
       (set_mailbox d (Some (set_admitted (am_admitted m + 1) (set_resident true m))) (dp_active d + 1))
   | None => finish_request d r (Ok HostUnavailable)
   end) = finish_request d r (Ok HostUnavailable).
Proof.
  intros Hc Hq Hmine Hw Hid.
  assert (Hsend : forall r', try_send m r' = None) by (intros r'; unfold try_send; by rewrite Hc).
  destruct (is_activate _); rewrite Hsend; [done|].
  unfold finish_request. rewrite Hw.
  cbn [release_waiting rq_waiting set_waiting dp_queues set_host_queues rq_reply rq_operation].
  assert (drop_waiting uuid (enqueue (operation_actor (rq_operation r)) uuid
    (method (operation_invocation (rq_operation r))) (dp_queues d)) = dp_queues d) as ->; [|done].
  rewrite Hq, Hmine, enqueue_inventory, drop_inventory, filter_app.
  rewrite filter_cons_False by (cbn; tauto). rewrite filter_nil, app_nil_r, list_filter_keep; [done|].
  intros w Hin Heq. apply Hid. unfold waiting_ids. apply list_elem_of_fmap. eauto.
Qed.

Lemma set_identity_same d i : dp_identity d = Some i -> set_identity d (Some i) = d.
Proof. destruct d. cbn. by intros ->. Qed.
Lemma task_of_same h d s : dp_mailbox d = dp_mailbox (ho_dispatcher h) -> task_of h d s = ho_task h.
Proof. intros E. unfold task_of. rewrite E. by destruct (dp_mailbox (ho_dispatcher h)). Qed.

Lemma queue_bound h m : mailbox_inv h m -> dp_mailbox (ho_dispatcher h) = Some m ->
  Z.of_nat (length (am_queue m)) <= am_admitted m.
Proof.
  intros Hm Em. destruct (mi_counted _ _ Hm) as [(_ & _ & _ & _ & ->)|(_ & _ & -> & _)].
  - unfold in_flight, queue_of. rewrite Em, !length_app, length_fmap. lia.
  - cbn. apply (mi_bound _ _ Hm).
Qed.

(** The request is for the actor of the mailbox *)
Lemma admitted_inv h m r uuid go :
  host_inv h -> dp_mailbox (ho_dispatcher h) = Some m -> (rq_reply r ∉ ho_received h) ->
  rq_waiting r = None -> mine m r -> (uuid ∉ waiting_ids m) ->
  let d := ho_dispatcher h in
  host_inv (receive h
    (if MAX_ADMITTED_INVOCATIONS_PER_ACTOR <=? am_admitted m then finish_request d r (Ok HostUnavailable)
     else
       let '(d, r) :=
         if is_activate (rq_operation r) then (d, r)
         else (set_host_queues d (enqueue (operation_actor (rq_operation r)) uuid
                 (method (operation_invocation (rq_operation r))) (dp_queues d)), set_waiting (Some uuid) r) in
       match try_send m r with
       | Some m => publish_activity
           (set_mailbox d (Some (set_admitted (am_admitted m + 1) (set_resident true m))) (dp_active d + 1))
       | None => finish_request d r (Ok HostUnavailable)
       end) go [rq_reply r]).
Proof.
  intros Hi Em Hf Hw Hmine Hid d. subst d. pose proof Hi as [[_ _ Hm] _]. rewrite Em in Hm.
  destruct (_ <=? _) eqn:Efull; bools; [by apply refused_inv|].
  destruct (am_closed m) eqn:Ec.
  - rewrite admit_closed; [by apply refused_inv|done|apply Hm|done|done|done].
  - rewrite admit_room; [|done|done|by eapply queue_bound|done|done].
    apply (published_inv (receive h (accept (ho_dispatcher h) m r (entry_of (Some uuid) r)) go [rq_reply r])).
    refine (accepted_inv h m r _ go Hi Em Ec Efull Hf Hmine _).
    unfold entry_of. destruct (is_activate _); [done|]. by intros u [= <-].
Qed.

Lemma invoke_inv h r task uuid s go :
  host_inv h -> fresh_command h (Invoke r) uuid ->
  let d := admit_to_host supports (ho_dispatcher h) r task uuid in
  (forall m, dp_mailbox (ho_dispatcher h) = None -> dp_mailbox d = Some m ->
     task_new (storage_key (am_actor m)) s) ->
  host_inv {| ho_dispatcher := d; ho_running := go; ho_task := task_of h d s; ho_ended := ho_ended h;
              ho_completions := ho_completions h; ho_received := (ho_received h ++ [rq_reply r])%list;
              ho_dropped := ho_dropped h |}.
Proof.
  intros Hi (Hf & Hw & Hid). pose proof Hi as [[_ _ Hm] _]. cbn zeta. unfold admit_to_host.
  set (actor := operation_actor (rq_operation r)).
  assert (Hval : validate supports (ho_dispatcher h) r = None -> ActorKey_validate actor = Ok ()).
  { unfold validate. destruct (_ && _); [done|]. destruct (operation_validate _) as [[]|] eqn:Ev; [|done].
    intros _. by apply operation_actor_valid. }
  destruct (validate _ _ _) as [result|].
  { intros _. rewrite task_of_same by done. by apply refused_inv. }
  specialize (Hval eq_refl). destruct (dp_mailbox (ho_dispatcher h)) as [m|] eqn:Em.
  - rewrite (mi_identity _ _ Hm). destruct (String.eqb_spec (storage_key (am_actor m)) (storage_key actor)) as [E|E].
    2: { intros _. rewrite task_of_same by done. by apply refused_inv. }
    cbn [negb]. rewrite set_identity_same by apply Hm. rewrite Em. intros _.
    assert (Hmine : mine m r). { symmetry. apply storage_key_inj; [apply Hm|done|done]. }
    assert (Hid' : uuid ∉ waiting_ids m). { unfold queue_of in Hid. by rewrite Em in Hid. }
    pose proof (admitted_inv h m r uuid go Hi Em Hf Hw Hmine Hid') as Hres. cbn zeta in Hres.
    unfold task_of. rewrite Em. exact Hres.
  - destruct Hm as (E1 & _). rewrite E1. cbn [dp_mailbox set_identity]. rewrite Em.
    cbn [dp_mailbox start_actor set_mailbox am_admitted].
    set (d0 := start_actor (set_identity _ _) actor task). set (m0 := Build_ActorMailbox _ _ _ _ _ _).
    change (MAX_ADMITTED_INVOCATIONS_PER_ACTOR <=? 0) with false. cbv iota.
    pose proof (admit_room d0 m0 r uuid eq_refl eq_refl ltac:(done) eq_refl Hw) as Hroom.
    fold actor in Hroom. rewrite Hroom.
    set (w := entry_of (Some uuid) r).
    assert (Em' : dp_mailbox (publish_activity (accept d0 m0 r w)) = dp_mailbox (accept d0 m0 r w))
      by apply publish_quiet.
    intros Hnew. unfold task_of. rewrite Em, Em'. rewrite Em' in Hnew. specialize (Hnew _ eq_refl eq_refl).
    pose proof (started_inv h actor task s Hi Em Hval Hnew) as Hi0.
    apply (published_inv (receive (started h actor task s) (accept d0 m0 r w) go [rq_reply r])).
    refine (accepted_inv (started h actor task s) m0 r w go Hi0 eq_refl eq_refl _ Hf eq_refl _); [done|].
    intros u _. apply not_elem_of_nil.
Qed.

(** ** Other commands *)
Lemma resident_inv h m b go :
  accounts h -> dp_mailbox (ho_dispatcher h) = Some m ->
  accounts (with_dispatcher h
    (set_mailbox (ho_dispatcher h) (Some (set_resident b m)) (dp_active (ho_dispatcher h))) go).
Proof.
  intros [Hn Ha Hm] Em. rewrite Em in Hm.
  assert (Hfl : forall d, in_flight (with_dispatcher h
    (set_mailbox (ho_dispatcher h) (Some (set_resident b m)) d) go) = in_flight h).
  { intros d. unfold in_flight, queue_of. cbn. by rewrite Em. }
  split; [done| |].
  - rewrite Hfl. exact Ha.
  - cbn. destruct Hm as [I1 I2 I3 I4 I5 I6 I7 I8 I9]. split; cbn; try done.
    unfold counted. rewrite Hfl. exact I6.
Qed.

Lemma sent_inv h o go :
  omap reply_of o = [] -> host_inv h -> host_inv (with_dispatcher h (send (ho_dispatcher h) o) go).
Proof.
  intros Ho [Ha Hd]. split; [|done]. apply accounts_quiet; [done|]. split; try done. by apply answered_quiet.
Qed.

Lemma running_inv h go : host_inv h -> host_inv (with_dispatcher h (ho_dispatcher h) go).
Proof. intros [Ha Hd]. split; [|done]. by apply accounts_quiet. Qed.

Lemma evict_idle_inv h last_active evicted go :
  host_inv h -> host_inv (with_dispatcher h (evict_idle (ho_dispatcher h) last_active evicted).1 go).
Proof.
  intros Hi. unfold evict_idle. destruct (_ || _); [by apply running_inv|].
  destruct (dp_mailbox (ho_dispatcher h)) as [m|] eqn:Em; [|by apply running_inv].
  destruct (am_resident m); [|by apply running_inv].
  assert (Hs : host_inv (with_dispatcher h (send (ho_dispatcher h) [EvictCall (am_actor m)]) go)) by by apply sent_inv.
  destruct evicted as [[]|err]; [|done]. cbn [fst].
  set (h1 := with_dispatcher h _ go) in Hs.
  apply (published_inv h1). exact (resident_inv h1 m false go (proj1 Hs) Em).
Qed.

Lemma command_inv h c task uuid now evicted gone s d go :
  host_inv h -> fresh_command h c uuid ->
  handle_command supports (ho_dispatcher h) c task uuid now evicted gone = (d, go) ->
  (forall m, dp_mailbox (ho_dispatcher h) = None -> dp_mailbox d = Some m ->
     task_new (storage_key (am_actor m)) s) ->
  host_inv {| ho_dispatcher := d; ho_running := go; ho_task := task_of h d s; ho_ended := ho_ended h;
              ho_completions := ho_completions h; ho_received := (ho_received h ++ received_by c)%list;
              ho_dropped := ho_dropped h |}.
Proof.
  intros Hi Hf Hc Hnew.
  assert (Hother : host_inv (with_dispatcher h d go) -> received_by c = [] ->
    (is_Some (dp_mailbox d) <-> is_Some (dp_mailbox (ho_dispatcher h))) ->
    host_inv {| ho_dispatcher := d; ho_running := go; ho_task := task_of h d s; ho_ended := ho_ended h;
                ho_completions := ho_completions h; ho_received := (ho_received h ++ received_by c)%list;
                ho_dropped := ho_dropped h |}).
  { intros Hd -> Hsome. rewrite app_nil_r. unfold task_of.
    destruct (dp_mailbox (ho_dispatcher h)), (dp_mailbox d); try exact Hd.
    by destruct (proj1 Hsome (mk_is_Some _ _ eq_refl)). }
  destruct c as [reply|r|last_active reply|reply]; cbn in Hc.
  - injection Hc as <- <-. apply Hother; [|done|by cbn [dp_mailbox send]; rewrite (qu_mailbox _ _ (publish_quiet _))].
    set (d1 := set_last_active _ _).
    apply (sent_inv (with_dispatcher h (publish_activity d1) true) [Pong reply]); [done|].
    apply published_inv. apply accounts_quiet; [apply Hi|done].
  - injection Hc as <- <-. by apply invoke_inv.
  - pose proof (evict_idle_inv h last_active evicted go Hi) as He.
    assert (Hm : is_Some (dp_mailbox (evict_idle (ho_dispatcher h) last_active evicted).1) <->
                 is_Some (dp_mailbox (ho_dispatcher h))).
    { unfold evict_idle. destruct (_ || _); [done|]. destruct (dp_mailbox (ho_dispatcher h)) eqn:Em; [|by cbn; rewrite Em].
      destruct (am_resident _); [|by cbn; rewrite Em]. destruct evicted; [|by cbn; rewrite Em].
      cbn [fst]. rewrite (qu_mailbox _ _ (publish_quiet _)). cbn. split; intros _; by eexists. }
    destruct (evict_idle (ho_dispatcher h) last_active evicted) as [d1 result] eqn:E. cbn in He, Hm.
    apply (sent_inv _ [EvictReply reply result] go) in He; [|done]. cbn in He.
    destruct (is_ok result); injection Hc as <- <-.
    + by apply Hother.
    + apply Hother; [|done|done].
      destruct He as [Ha Hd]. split; [|exact Hd]. by apply (accounts_quiet _ _ false Ha).
  - injection Hc as <- <-. apply Hother; [|done|by cbn [dp_mailbox send]; rewrite (qu_mailbox _ _ (publish_quiet _))].
    apply published_inv. apply accounts_quiet; [apply Hi|done].
Qed.

(** ** Completions and the end of the task *)
Lemma usize_sub_small a b : 0 <= b <= a -> a <= U64_MAX -> usize_sub a b = a - b.
Proof. intros. unfold usize_sub. apply Z.mod_small. lia. Qed.

Definition after_complete (h : Host T) (d : HostDispatcher) (cs : list ActorCompletion) : Host T :=
  {| ho_dispatcher := d; ho_running := true; ho_task := ho_task h; ho_ended := ho_ended h;
     ho_completions := cs; ho_received := ho_received h; ho_dropped := ho_dropped h |}.

(** The counters after one completion is taken from the channel *)
Definition completed_mailbox (m : ActorMailbox) : ActorMailbox :=
  if 0 <? am_admitted m then set_admitted (am_admitted m - 1) m else m.

Lemma complete_counted h m c cs d :
  mailbox_inv h m -> dp_mailbox (ho_dispatcher h) = Some m -> ho_completions h = c :: cs ->
  dp_tasks d = dp_tasks (ho_dispatcher h) -> dp_mailbox d = Some (completed_mailbox m) ->
  counted (after_complete h d cs) (completed_mailbox m).
Proof.
  intros Hm Em Ec Et Ed. pose proof (mi_counted _ _ Hm) as Hc.
  assert (Hq : am_queue (completed_mailbox m) = am_queue m) by (unfold completed_mailbox; by destruct (_ <? _)).
  assert (Hcl : am_closed (completed_mailbox m) = am_closed m) by (unfold completed_mailbox; by destruct (_ <? _)).
  assert (Hid : am_task_id (completed_mailbox m) = am_task_id m) by (unfold completed_mailbox; by destruct (_ <? _)).
  assert (Hfl : length (in_flight h) = S (length (in_flight (after_complete h d cs)))).
  { unfold in_flight, queue_of, held_by. cbn. rewrite Em, Ed, Ec, Hq. cbn. rewrite !length_app. cbn. lia. }
  assert (Hadm : am_admitted (completed_mailbox m) =
    if 0 <? am_admitted m then am_admitted m - 1 else am_admitted m) by (unfold completed_mailbox; by destruct (_ <? _)).
  unfold counted. cbn [ho_dispatcher after_complete ho_ended ho_dropped]. rewrite Hq, Hcl, Hid, Hadm, Et.
  unfold counted in Hc. cbn zeta in Hc. rewrite Hfl in Hc.
  destruct Hc as [(E1 & E2 & E3 & E4 & E5)|(E1 & E2 & E3 & [(E4 & E5)|(E4 & E5)])]; rewrite E5.
  - left. split_and!; try done. rewrite (proj2 (Z.ltb_lt _ _)) by lia. lia.
  - right. split_and!; try done. left. split; [done|]. rewrite (proj2 (Z.ltb_lt _ _)) by lia. lia.
  - right. split_and!; try done. by right.
Qed.

Lemma complete_inv h c cs now :
  host_inv h -> ho_completions h = c :: cs ->
  host_inv (after_complete h (complete (ho_dispatcher h) c now) cs).
Proof.
  intros [[Hn Ha Hm] Hd] Ec. unfold complete.
  destruct (dp_mailbox (ho_dispatcher h)) as [m|] eqn:Em.
  2: { destruct Hm as (_ & _ & _ & _ & _ & _ & E & _). congruence. }
  set (d1 := if 0 <? am_admitted m then _ else _). set (d2 := if cp_resets_idle_timer c then _ else _).
  pose proof (mi_bound _ _ Hm) as Hb. pose proof (mi_active _ _ Hm) as Hact.
  assert (E2 : dp_mailbox d2 = Some (completed_mailbox m) /\ dp_active d2 = am_admitted (completed_mailbox m) /\
    dp_tasks d2 = dp_tasks (ho_dispatcher h) /\ dp_identity d2 = dp_identity (ho_dispatcher h) /\
    dp_queues d2 = dp_queues (ho_dispatcher h) /\ answered_by d2 = answered_by (ho_dispatcher h)).
  { unfold d2, d1, completed_mailbox. destruct (0 <? am_admitted m) eqn:El; bools.
    - rewrite usize_sub_small by (unfold U64_MAX, MAX_ADMITTED_INVOCATIONS_PER_ACTOR in *; lia).
      rewrite Hact. by destruct (cp_resets_idle_timer c).
    - destruct (cp_resets_idle_timer c); cbn; by rewrite Em, Hact. }
  destruct E2 as (F1 & F2 & F3 & F4 & F5 & F6). clearbody d2. clear d1.
  set (h1 := {| ho_dispatcher := send d2 [Replied (cp_reply c) (cp_result c)]; ho_running := true;
    ho_task := ho_task h; ho_ended := ho_ended h; ho_completions := cs; ho_received := ho_received h;
    ho_dropped := ho_dropped h |}).
  assert (H1 : accounts h1).
  { assert (Hbound : 0 <= am_admitted (completed_mailbox m) <= MAX_ADMITTED_INVOCATIONS_PER_ACTOR).
    { unfold completed_mailbox. destruct (0 <? am_admitted m) eqn:El; bools; cbn; lia. }
    split; [done| |].
    - unfold answered_by in *. cbn. rewrite omap_app, F6, Ha. unfold in_flight, queue_of, held_by. cbn.
      rewrite F1, Em, Ec. unfold completed_mailbox. destruct (_ <? _); cbn; solve_Permutation.
    - cbn. rewrite F1. pose proof (complete_counted h m c cs (send d2 [Replied (cp_reply c) (cp_result c)])
        Hm Em Ec F3 F1) as Hcount.
      destruct Hm as [I1 I2 I3 I4 I5 I6 I7 I8 I9]. unfold completed_mailbox in *.
      destruct (0 <? am_admitted m); split; cbn; rewrite ?F2, ?F4, ?F5; try done. }
  assert (Hq : quiet (send d2 [Replied (cp_reply c) (cp_result c)])
    (send (publish_activity d2) [Replied (cp_reply c) (cp_result c)])).
  { destruct (publish_quiet d2) as [G1 G2 G3 G4 G5 G6]. split; cbn; try done.
    unfold answered_by in *. cbn. rewrite !omap_app. by rewrite G6. }
  split; [exact (accounts_quiet h1 _ true H1 Hq)|]. cbn. apply publish_drained.
Qed.

Lemma joined_inv h id l1 l2 :
  host_inv h -> ho_ended h = true -> dp_tasks (ho_dispatcher h) = (l1 ++ id :: l2)%list ->
  host_inv (with_dispatcher h (task_stopped (set_tasks (ho_dispatcher h) (l1 ++ l2)%list) id) true).
Proof.
  intros [[Hn Ha Hm] Hd] Ee Et. unfold task_stopped. cbn [dp_mailbox set_tasks].
  destruct (dp_mailbox (ho_dispatcher h)) as [m|] eqn:Em.
  2: { destruct Hm as (_ & _ & _ & _ & _ & E & _). congruence. }
  pose proof (mi_bound _ _ Hm) as Hb. pose proof (mi_active _ _ Hm) as Hact.
  destruct (mi_counted _ _ Hm) as [(E1 & _)|(E1 & E2 & E3 & [(E4 & E5)|(E4 & _)])]; [congruence| |].
  2: { rewrite E4 in Et. by destruct l1. }
  rewrite E4 in Et. assert (l1 = [] /\ l2 = [] /\ id = am_task_id m) as (-> & -> & ->).
  { destruct l1 as [|? [|]], l2; try discriminate Et. by injection Et as ->. }
  rewrite Z.eqb_refl. apply published_inv. set (h1 := with_dispatcher _ _ _).
  assert (Hfl : in_flight h1 = in_flight h). { unfold in_flight, queue_of. cbn. by rewrite Em. }
  split; [done|rewrite Hfl; exact Ha|]. cbn.
  destruct Hm as [I1 I2 I3 I4 I5 I6 I7 I8 I9]. split; cbn; try done.
  - rewrite Hact, usize_sub_small; [lia|lia|]. unfold U64_MAX, MAX_ADMITTED_INVOCATIONS_PER_ACTOR in *. lia.
  - right. split_and!; try done. by right.
Qed.

(** ** Steps of the task *)
Lemma release_taken actor new rest :
  NoDup (op_id <$> omap waiting_of (new ++ rest)%list) ->
  release_all new (inventory_of actor (omap waiting_of (new ++ rest)%list)) =
  inventory_of actor (omap waiting_of rest).
Proof.
  unfold release_all. induction new as [|r new IH]; intros Hn; [done|]. cbn in *.
  destruct (rq_waiting r) as [id|] eqn:Ew.
  2: { assert (E : waiting_of r = None) by (unfold waiting_of; by rewrite Ew). rewrite E in *. by apply IH. }
  assert (E : exists w, waiting_of r = Some w /\ op_id w = id) by (unfold waiting_of; rewrite Ew; by eexists).
  destruct E as (w0 & E & <-). rewrite E in *. cbn [release_waiting].
  rewrite fmap_cons in Hn. apply NoDup_cons in Hn as [Hnot Hn].
  rewrite drop_inventory, filter_cons_False by (cbn; tauto).
  rewrite list_filter_keep; [by apply IH|].
  intros w Hin Heq. apply Hnot. rewrite <-Heq. by apply list_elem_of_fmap_2.
Qed.
Lemma waiting_suffix new rest :
  NoDup (op_id <$> omap waiting_of (new ++ rest)%list) -> NoDup (op_id <$> omap waiting_of rest).
Proof. rewrite omap_app, fmap_app. by intros (_ & _ & ?)%NoDup_app. Qed.

Lemma task_inv h m s new rest done s' :
  host_inv h -> ho_ended h = false -> ho_task h = Some s -> dp_mailbox (ho_dispatcher h) = Some m ->
  am_queue m = (new ++ rest)%list -> task_step s new done s' ->
  host_inv {| ho_dispatcher := set_host_queues
                (set_mailbox (ho_dispatcher h) (Some (set_mailbox_queue rest m)) (dp_active (ho_dispatcher h)))
                (release_all new (dp_queues (ho_dispatcher h)));
              ho_running := true; ho_task := Some s'; ho_ended := false;
              ho_completions := (ho_completions h ++ done)%list; ho_received := ho_received h;
              ho_dropped := ho_dropped h |}.
Proof.
  intros [[Hn Ha Hm] Hd] Ee Es Em Eq Hstep. rewrite Em in Hm. set (h' := Build_Host _ _ _ _ _ _ _ _).
  destruct (mi_task _ _ Hm) as (s0 & Es0 & Hok). assert (s0 = s) as -> by congruence.
  destruct (task_step_ok s new done s' Hok Hstep) as [Hok' Hcons].
  assert (Hfl : (in_flight h' ≡ₚ in_flight h)%list).
  { unfold in_flight, queue_of, held_by. cbn. rewrite Em, Ee, Es, Eq, !fmap_app.
    transitivity ((rq_reply <$> rest) ++ (task_held s' ++ (cp_reply <$> done)) ++ (cp_reply <$> ho_completions h))%list.
    { solve_Permutation. }
    rewrite <-Hcons. solve_Permutation. }
  split; [split|exact Hd]; [done| |].
  - rewrite Hfl. exact Ha.
  - cbn. destruct Hm as [I1 I2 I3 I4 I5 I6 I7 I8 I9]. unfold waiting_ids in I9. rewrite Eq in *.
    split; cbn; try done.
    + by exists s'.
    + destruct I6 as [(E1 & E2 & E3 & E4 & E5)|(E1 & _)]; [|congruence]. left. split_and!; try done.
      change (am_admitted m = Z.of_nat (length (in_flight h'))). by rewrite Hfl.
    + by apply Forall_app in I7 as [_ ?].
    + rewrite I8. by apply release_taken.
    + by apply waiting_suffix in I9.
Qed.

Lemma task_ends_inv h m s :
  host_inv h -> ho_ended h = false -> ho_task h = Some s -> dp_mailbox (ho_dispatcher h) = Some m ->
  host_inv {| ho_dispatcher := set_host_queues
                (set_mailbox (ho_dispatcher h) (Some (close_channel m)) (dp_active (ho_dispatcher h)))
                (release_all (am_queue m) (dp_queues (ho_dispatcher h)));
              ho_running := true; ho_task := Some s; ho_ended := true; ho_completions := ho_completions h;
              ho_received := ho_received h;
              ho_dropped := (ho_dropped h ++ (rq_reply <$> am_queue m) ++ task_held s)%list |}.
Proof.
  intros [[Hn Ha Hm] Hd] Ee Es Em. rewrite Em in Hm. set (h' := Build_Host _ _ _ _ _ _ _ _).
  assert (Hfl : (in_flight h ≡ₚ (rq_reply <$> am_queue m) ++ task_held s ++ in_flight h')%list).
  { unfold in_flight, queue_of, held_by. cbn. by rewrite Em, Ee, Es. }
  split; [split|exact Hd]; [done| |].
  - cbn [ho_received ho_dropped h']. rewrite Ha, Hfl.
    change (answered_by (ho_dispatcher h')) with (answered_by (ho_dispatcher h)). solve_Permutation.
  - cbn. destruct Hm as [I1 I2 I3 I4 I5 I6 I7 I8 I9]. split; cbn; try done.
    + destruct I5 as (s0 & E0 & ?). exists s0. split; [congruence|done].
    + destruct I6 as [(E1 & E2 & E3 & E4 & E5)|(E1 & _)]; [|congruence]. right.
      split; [done|]. split; [done|]. split; [done|]. left. split; [done|].
      change (am_admitted m = Z.of_nat (length (in_flight h') + length (ho_dropped h'))).
      cbn [ho_dropped h']. rewrite E5, E4, Hfl, !length_app. cbn. lia.
    + rewrite I8. unfold waiting_ids in I9. rewrite <-(app_nil_r (am_queue m)) in I9 |- *.
      rewrite app_nil_r at 1. by apply release_taken.
    + apply NoDup_nil_2.
Qed.

Lemma host_step_inv h h' : host_inv h -> host_step h h' -> host_inv h'.
Proof.
  intros Hi Hs. revert Hi.
  destruct Hs as [h0 c task uuid now evicted gone s d go _ Hf Hc Hnew|h0 c cs now _ Ec|h0 id l1 l2 _ Ee Et
    |h0 _|h0 m s new rest done s' _ Ee Es Em Eq Hs|h0 m s _ Ee Es Em]; intros Hi.
  - exact (command_inv h0 c task uuid now evicted gone s d go Hi Hf Hc Hnew).
  - by apply complete_inv.
  - pose proof (joined_inv h0 id l1 l2 Hi Ee Et) as Hj. unfold with_dispatcher in Hj. by rewrite Ee in Hj.
  - exact (running_inv h0 false Hi).
  - by apply (task_inv h0 m s new rest done s').
  - by apply task_ends_inv.
Qed.

Lemma host_reachable_inv h : host_reachable h -> host_inv h.
Proof.
  induction 1 as [now|h h' Hr IH Hs]; [|by eapply host_step_inv].
  split; [|done]. split; [apply NoDup_nil_2|done|done].
Qed.

(** ** Reports of an idle host *)
Definition idle_report (o : Output) : Prop :=
  match o with Drained _ | EvictCall _ => True | _ => False end.
(** What a handler sends, with reports only when nothing is active at its end *)
Definition emits (d d' : HostDispatcher) (o : list Output) : Prop :=
  dp_sent d' = (dp_sent d ++ o)%list /\ (forall x, x ∈ o -> idle_report x -> dp_active d' = 0).

Lemma publish_emits d : exists o, emits d (publish_activity d) o.
Proof.
  unfold emits, publish_activity. cbn. destruct (_ =? 0) eqn:E; bools.
  - by exists (Drained <$> dp_drained d).
  - exists []. split; [by rewrite app_nil_r|by intros ? ?%not_elem_of_nil].
Qed.
(** Handlers that end with a report of activity *)
Lemma publish_emits_from d0 d : dp_sent d = dp_sent d0 -> exists o, emits d0 (publish_activity d) o.
Proof. intros E. destruct (publish_emits d) as (o & Ho & ?). exists o. split; [by rewrite <-E|done]. Qed.
Lemma emits_silent d d' o :
  dp_sent d' = (dp_sent d ++ o)%list -> Forall (fun x => ~ idle_report x) o -> exists o', emits d d' o'.
Proof. intros E Ho. exists o. split; [done|]. rewrite Forall_forall in Ho. intros x Hx Hi. by destruct (Ho x Hx). Qed.
Lemma emits_send d d' o x : emits d d' o -> ~ idle_report x -> exists o', emits d (send d' [x]) o'.
Proof.
  intros [E Ho] Hx. exists (o ++ [x])%list. split; [cbn; by rewrite E, app_assoc|].
  intros y [Hy| ->%list_elem_of_singleton]%elem_of_app Hi; [by apply (Ho y)|done].
Qed.

Lemma admit_emits d r task uuid : exists o, emits d (admit_to_host supports d r task uuid) o.
Proof.
  assert (Hfin : forall d0 r0 result, dp_sent d0 = dp_sent d -> exists o, emits d (finish_request d0 r0 result) o).
  { intros d0 r0 result E. eapply (emits_silent _ _ [Replied (rq_reply r0) result]); [cbn; by rewrite E|].
    constructor; [by intros ?|done]. }
  unfold admit_to_host. destruct (validate _ _ _); [by apply Hfin|]. destruct (match dp_identity d with Some _ => _ | None => _ end);
    [by apply Hfin|]. cbn [dp_mailbox set_identity]. destruct (dp_mailbox d) as [m|] eqn:Em; cbn [dp_mailbox start_actor set_mailbox set_identity];
    rewrite ?Em.
  all: destruct (_ <=? _); [by apply Hfin|]; destruct (is_activate _);
    (destruct (try_send _ _); [by apply publish_emits_from|by apply Hfin]).
Qed.

Lemma command_emits d c task uuid now evicted gone d' go :
  handle_command supports d c task uuid now evicted gone = (d', go) -> exists o, emits d d' o.
Proof.
  destruct c as [reply|r|last_active reply|reply]; cbn.
  - intros [= <- <-]. destruct (publish_emits_from d (set_last_active d now) eq_refl) as [o Ho].
    eapply emits_send; [exact Ho|by intros ?].
  - intros [= <- <-]. apply admit_emits.
  - intros Hc. assert (He : exists o, emits d (evict_idle d last_active evicted).1 o).
    { unfold evict_idle.
      assert (Hsame : exists o, emits d d o) by (exists []; split; [by rewrite app_nil_r|by intros ? ?%not_elem_of_nil]).
      destruct (dp_active d =? 0) eqn:Ea; cbn [negb orb]; [|done]. destruct (negb _); [done|].
      destruct (dp_mailbox d) as [m|]; [|done]. destruct (am_resident m); [|done]. bools.
      destruct evicted as [[]|err]; cbn [fst].
      - set (d1 := set_mailbox _ _ _). destruct (publish_emits d1) as (o & E & Ho).
        exists ([EvictCall (am_actor m)] ++ o)%list. split; [rewrite E; cbn; by rewrite <-app_assoc|].
        intros x _ _. by rewrite (qu_active _ _ (publish_quiet d1)).
      - exists [EvictCall (am_actor m)]. split; [done|]. by intros x _ _. }
    destruct (evict_idle d last_active evicted) as [d1 result]. destruct He as [o Ho]. cbn in Ho.
    destruct (emits_send _ _ _ (EvictReply reply result) Ho) as [o' Ho']; [by intros ?|].
    destruct (is_ok result); injection Hc as <- <-; by exists o'.
  - intros [= <- <-]. by apply publish_emits_from.
Qed.

Lemma step_emits h h' : host_step h h' -> exists o, emits (ho_dispatcher h) (ho_dispatcher h') o.
Proof.
  intros Hs. assert (Hsame : forall d d', dp_sent d' = dp_sent d -> exists o, emits d d' o).
  { intros d d' E. exists []. split; [by rewrite app_nil_r|by intros ? ?%not_elem_of_nil]. }
  destruct Hs as [h0 c task uuid now evicted gone s d go _ _ Hc _|h0 c cs now _ _|h0 id l1 l2 _ _ _
    |h0 _|h0 m s new rest done s' _ _ _ _ _ _|h0 m s _ _ _ _]; cbn [ho_dispatcher]; try by apply Hsame.
  - by eapply command_emits.
  - unfold complete. destruct (dp_mailbox _) as [m|]; [|by apply Hsame].
    set (d2 := if cp_resets_idle_timer c then _ else _).
    assert (E : dp_sent d2 = dp_sent (ho_dispatcher h0)).
    { unfold d2. destruct (cp_resets_idle_timer c); by destruct (_ <? _). }
    destruct (publish_emits_from _ _ E) as [o Ho]. eapply emits_send; [exact Ho|by intros ?].
  - unfold task_stopped. apply publish_emits_from. cbn. destruct (dp_mailbox _); [|done]. by destruct (_ =? _).
Qed.

Lemma idle_settled h : host_inv h -> dp_active (ho_dispatcher h) = 0 -> ho_ended h = false ->
  ho_received h ≡ₚ answered_by (ho_dispatcher h).
Proof.
  intros [[Hn Ha Hm] _] Hz He. rewrite Ha.
  assert (in_flight h = [] /\ ho_dropped h = []) as [-> ->]; [|by rewrite app_nil_r].
  destruct (dp_mailbox (ho_dispatcher h)) as [m|] eqn:Em.
  - destruct (mi_counted _ _ Hm) as [(_ & _ & _ & Hd & Hc)|(E & _)]; [|congruence].
    rewrite <-(mi_active _ _ Hm), Hz in Hc. split; [|done]. by destruct (in_flight h).
  - destruct Hm as (_ & _ & _ & _ & Et & _ & Ec & Ed). split; [|done].
    unfold in_flight, queue_of, held_by. by rewrite Em, Et, Ec, He.
Qed.

(** * Guarantees of the host *)
(** C7: every request is answered once.  The requests a host has received are, as
    a multiset, those it has answered, those whose reply channel was dropped
    because the actor task ended, and those still waiting, held by the task or on
    their way back; no reply channel is used twice.  While the task runs, the
    activity the host reports is the number of requests in flight. *)
Theorem requests_are_answered_once h :
  host_reachable h ->
  (ho_received h ≡ₚ answered_by (ho_dispatcher h) ++ ho_dropped h ++ in_flight h)%list /\
  NoDup (answered_by (ho_dispatcher h)) /\
  (ho_ended h = false -> dp_active (ho_dispatcher h) = Z.of_nat (length (in_flight h))).
Proof.
  intros Hr. destruct (host_reachable_inv _ Hr) as [[Hn Ha Hm] _]. split; [done|]. split.
  - rewrite Ha in Hn. by apply NoDup_app in Hn as [? _].
  - intros He. destruct (dp_mailbox (ho_dispatcher h)) as [m|] eqn:Em.
    + rewrite (mi_active _ _ Hm). destruct (mi_counted _ _ Hm) as [(_ & _ & _ & _ & ?)|(E & _)]; [done|congruence].
    + destruct Hm as (_ & _ & -> & _ & Et & _ & Ec & _). unfold in_flight, queue_of, held_by.
      by rewrite Em, Et, Ec, He.
Qed.

(** A host reports that it is drained, or asks the executor to evict the actor,
    only when it owes no answer.  At the end of a step that does so no request is
    active and, unless the actor task has ended, every request ever received has
    been answered. *)
Theorem idle_reports_follow_answers h h' x n :
  host_reachable h -> host_step h h' ->
  dp_sent (ho_dispatcher h') !! (length (dp_sent (ho_dispatcher h)) + n)%nat = Some x -> idle_report x ->
  dp_active (ho_dispatcher h') = 0 /\
  (ho_ended h' = false -> ho_received h' ≡ₚ answered_by (ho_dispatcher h')).
Proof.
  intros Hr Hs Hx Hi. destruct (step_emits _ _ Hs) as (o & E & Ho). rewrite E in Hx.
  rewrite lookup_app_r in Hx by lia. apply list_elem_of_lookup_2 in Hx.
  pose proof (Ho x Hx Hi) as Hz. split; [done|]. apply idle_settled; [|done].
  eapply host_step_inv; [by apply host_reachable_inv|done].
Qed.

(** Admission is bounded and visible.  A host works for one actor; it has at
    most 33 requests active, the queue of its task never overflows, and the
    published inventory lists exactly the requests waiting in that queue, in
    order. *)
Theorem admission_is_bounded_and_visible h m :
  host_reachable h -> dp_mailbox (ho_dispatcher h) = Some m ->
  0 <= dp_active (ho_dispatcher h) <= MAX_ADMITTED_INVOCATIONS_PER_ACTOR /\
  Z.of_nat (length (am_queue m)) <= MAX_ADMITTED_INVOCATIONS_PER_ACTOR /\
  Forall (fun r => operation_actor (rq_operation r) = am_actor m) (am_queue m) /\
  dp_queues (ho_dispatcher h) = inventory_of (am_actor m) (omap waiting_of (am_queue m)).
Proof.
  intros Hr Em. destruct (host_reachable_inv _ Hr) as [[_ _ Hm] _]. rewrite Em in Hm.
  pose proof (mi_bound _ _ Hm). pose proof (queue_bound _ _ Hm Em). rewrite (mi_active _ _ Hm).
  split_and!; [lia|lia|lia|apply Hm|apply Hm].
Qed.
End host.

(** * Actor tasks *)
Section tasks.
Context `{Json StateSnapshot, Json Value, Json ActorSocketEffect, Base64Std,
          !JsonLaws StateSnapshot, !JsonLaws Value}.
Context (e : Z).

(** ** The serial loop: it holds nothing between steps. *)
Record SerialTask := { st_object : ActorStorageKey; st_runtime : ActorRuntime }.

Inductive serial_step : SerialTask -> list ActorRequest -> list ActorCompletion -> SerialTask -> Prop :=
| serial_serves s r accepting t rt' result activation :
    runs (serve r accepting (st_runtime s)) t (rt', Ok (result, activation)) ->
    serial_step s [r] [completion_of (st_object s) r result]
      {| st_object := st_object s; st_runtime := rt' |}.

#[export] Instance serial_task : ActorTask SerialTask.
Proof.
  refine {| task_new object s := exists host, s = {| st_object := object; st_runtime := ActorRuntime_new host |};
            task_step := serial_step; task_held _ := []; task_ok _ := True |}.
  - done.
  - intros s new done s' _ Hs. by destruct Hs.
Defined.

(** ** The mailbox with interleaved invocations, with the trace so far *)
Record MailboxTask := { mt_trace : list event; mt_loop : Loop }.

Inductive mailbox_step : MailboxTask -> list ActorRequest -> list ActorCompletion -> MailboxTask -> Prop :=
| mailbox_moves t l t' l' new done :
    loop_step e l t' l' -> Z.of_nat (length (lp_received l')) < U64_MAX ->
    lp_received l' = (lp_received l ++ new)%list ->
    mb_completed (lp_mailbox l') = (mb_completed (lp_mailbox l) ++ done)%list ->
    mailbox_step {| mt_trace := t; mt_loop := l |} new done {| mt_trace := t ++ t'; mt_loop := l' |}.

Definition mailbox_ok (s : MailboxTask) : Prop :=
  (exists object host, reachable e object host (mt_trace s) (mt_loop s)) /\
  Z.of_nat (length (lp_received (mt_loop s))) < U64_MAX.

Lemma mailbox_account t l : mailbox_ok {| mt_trace := t; mt_loop := l |} ->
  rq_reply <$> lp_received l ≡ₚ (inflight (lp_mailbox l) ++ (cp_reply <$> mb_completed (lp_mailbox l)))%list.
Proof.
  intros [(object & host & Hr) Hlen]. destruct (reachable_loop_inv e _ _ _ _ Hr Hlen) as [Hc _].
  apply (co_account _ _ _ _ _ _ _ Hc).
Qed.

Lemma mailbox_step_ok s new done s' :
  mailbox_ok s -> mailbox_step s new done s' -> mailbox_ok s' /\
  (inflight (lp_mailbox (mt_loop s)) ++ (rq_reply <$> new) ≡ₚ
   inflight (lp_mailbox (mt_loop s')) ++ (cp_reply <$> done))%list.
Proof.
  intros Hok Hs. revert Hok. destruct Hs as [t l t' l' new done Hs Hlen Er Ec]. intros Hok.
  assert (Hok' : mailbox_ok {| mt_trace := t ++ t'; mt_loop := l' |}).
  { destruct Hok as [(object & host & Hr) _]. split; [|done]. exists object, host. cbn. by eapply reach_step. }
  split; [done|]. cbn. apply mailbox_account in Hok, Hok'. rewrite Er, Ec, !fmap_app, Hok in Hok'.
  apply (Permutation_app_inv_r (cp_reply <$> mb_completed (lp_mailbox l))).
  transitivity ((inflight (lp_mailbox l) ++ (cp_reply <$> mb_completed (lp_mailbox l))) ++ (rq_reply <$> new))%list.
  { solve_Permutation. }
  rewrite Hok'. solve_Permutation.
Qed.

#[export] Instance mailbox_task : ActorTask MailboxTask.
Proof.
  refine {| task_new object s := exists host queues,
              s = {| mt_trace := []; mt_loop := Loop_new object (ActorRuntime_new host) queues |};
            task_step := mailbox_step; task_held s := inflight (lp_mailbox (mt_loop s));
            task_ok := mailbox_ok |}.
  - intros object s (host & queues & ->). split; [|done]. split; [|done]. exists object, host. apply reach_new.
  - exact mailbox_step_ok.
Defined.

(** C17: the mailbox is an actor task.  Every step of its loop takes at most one
    request from the channel, only appends to the completions it has sent, and
    what it holds afterwards is what it held plus what it took minus what it
    answered. *)
Theorem mailbox_refines_task object host t l t' l' :
  reachable e object host t l -> loop_step e l t' l' -> Z.of_nat (length (lp_received l')) < U64_MAX ->
  exists new done, (length new <= 1)%nat /\
    task_step {| mt_trace := t; mt_loop := l |} new done {| mt_trace := t ++ t'; mt_loop := l' |} /\
    (task_held {| mt_trace := t; mt_loop := l |} ++ (rq_reply <$> new) ≡ₚ
     task_held {| mt_trace := t ++ t'; mt_loop := l' |} ++ (cp_reply <$> done))%list.
Proof.
  intros Hr Hs Hlen. pose proof (step_received e _ _ _ Hs) as Hmono.
  assert (Hlen0 : Z.of_nat (length (lp_received l)) < U64_MAX) by lia.
  assert (Hnew : exists new, lp_received l' = (lp_received l ++ new)%list /\ (length new <= 1)%nat).
  { destruct Hs; cbn; try (exists []; split; [by rewrite app_nil_r|cbn; lia]). eexists. split; [done|]. cbn. lia. }
  destruct (reachable_loop_inv e _ _ _ _ Hr Hlen0) as [Hc Hl].
  assert (Hold : loop_inv e (mb_completed (lp_mailbox l)) t l).
  { split; [|done]. destruct Hc. by split. }
  destruct (loop_step_inv e _ _ _ _ _ Hold Hs Hlen) as [Hc' _].
  destruct (co_old _ _ _ _ _ _ _ Hc') as [done Hdone]. destruct Hnew as (new & Hnew & Hone).
  exists new, done. split; [done|].
  assert (Hstep : mailbox_step {| mt_trace := t; mt_loop := l |} new done {| mt_trace := t ++ t'; mt_loop := l' |})
    by by constructor.
  split; [exact Hstep|]. apply (mailbox_step_ok _ _ _ _); [|exact Hstep]. split; [eauto|done].
Qed.
End tasks.

(** * Example: a serial host answers a request and is
    drained *)
Definition open_host : Host SerialTask := Host_new 0.
Definition any_actor (_ : string) : bool := true.
Definition first_request : ActorRequest := sample_request "r1" 1.
Definition sample_task : SerialTask := {| st_object := storage_key sample_actor; st_runtime := ActorRuntime_new "h" |}.
Definition sample_dispatch (h : Host SerialTask) (c : HostCommand) : Host SerialTask :=
  let d := (handle_command any_actor (ho_dispatcher h) c 1 "w1" 10 (Ok ()) (fun _ => false)).1 in
  {| ho_dispatcher := d; ho_running := true; ho_task := task_of h d sample_task; ho_ended := ho_ended h;
     ho_completions := ho_completions h; ho_received := (ho_received h ++ received_by c)%list;
     ho_dropped := ho_dropped h |}.
Definition host1 := sample_dispatch open_host (Invoke first_request).
Definition served := exec 0 0 (serve (set_waiting (Some "w1") first_request) true (ActorRuntime_new "h")).
Definition sample_completion : ActorCompletion :=
  completion_of (storage_key sample_actor) first_request (Ok (Completed (Str "done") [])).
Definition host2 : Host SerialTask :=
  {| ho_dispatcher := set_host_queues
       (set_mailbox (ho_dispatcher host1)
          (set_mailbox_queue [] <$> dp_mailbox (ho_dispatcher host1)) 1) [];
     ho_running := true; ho_task := Some {| st_object := storage_key sample_actor; st_runtime := served.2.1 |};
     ho_ended := false; ho_completions := [sample_completion]; ho_received := [1%nat]; ho_dropped := [] |}.
Definition host3 := sample_dispatch host2 (Drain 7).
Definition host4 : Host SerialTask :=
  {| ho_dispatcher := complete (ho_dispatcher host3) sample_completion 20; ho_running := true;
     ho_task := ho_task host3; ho_ended := false; ho_completions := []; ho_received := [1%nat]; ho_dropped := [] |}.

Lemma host1_reachable : host_reachable any_actor host1.
Proof.
  eapply host_next; [apply (host_start any_actor 0)|].
  apply (host_command any_actor open_host (Invoke first_request) 1 "w1" 10 (Ok ()) (fun _ => false) sample_task);
    [done|vm_compute; split; [apply not_elem_of_nil|split; [done|apply not_elem_of_nil]]|vm_compute; reflexivity|].
  intros m _ Em. vm_compute in Em. injection Em as <-. exists "h". vm_compute. reflexivity.
Qed.
Lemma host2_reachable : host_reachable any_actor host2.
Proof.
  assert (Em : exists m, dp_mailbox (ho_dispatcher host1) = Some m /\
    am_queue m = [set_waiting (Some "w1") first_request] /\
    dp_active (ho_dispatcher host1) = 1 /\ set_mailbox_queue [] <$> dp_mailbox (ho_dispatcher host1) =
      Some (set_mailbox_queue [] m)) by (eexists; repeat (split; [vm_compute; reflexivity|]); vm_compute; reflexivity).
  destruct Em as (m & Em & Eq & Ea & Ef).
  assert (Er : served.2 = (served.2.1, Ok (Ok (Completed (Str "done") []), None))) by (vm_compute; reflexivity).
  assert (Ew : release_all [set_waiting (Some "w1") first_request] (dp_queues (ho_dispatcher host1)) = [])
    by (vm_compute; reflexivity).
  assert (Hserve : runs (serve (set_waiting (Some "w1") first_request) true (st_runtime sample_task)) served.1
    (served.2.1, Ok (Ok (Completed (Str "done") []), None))).
  { rewrite <-Er. apply exec_runs. }
  eapply host_next; [apply host1_reachable|]. unfold host2. rewrite Ef, <-Ea, <-Ew.
  apply (host_task any_actor host1 m sample_task [set_waiting (Some "w1") first_request] [] [sample_completion]
    {| st_object := storage_key sample_actor; st_runtime := served.2.1 |});
    [reflexivity|reflexivity|vm_compute; reflexivity|exact Em|exact Eq|].
  exact (serial_serves sample_task _ true _ _ _ _ Hserve).
Qed.
Lemma host3_reachable : host_reachable any_actor host3.
Proof.
  eapply host_next; [apply host2_reachable|].
  apply (host_command any_actor host2 (Drain 7) 1 "w1" 10 (Ok ()) (fun _ => false) sample_task);
    [done|done|vm_compute; reflexivity|]. intros m Em. vm_compute in Em. discriminate Em.
Qed.
Lemma host3_step : host_step any_actor host3 host4.
Proof. apply (host_complete any_actor host3 sample_completion [] 20); vm_compute; reflexivity. Qed.

Lemma requests_are_answered_once_witness :
  ho_received host4 = [1%nat] /\ NoDup (answered_by (ho_dispatcher host4)).
Proof.
  split; [reflexivity|].
  apply (requests_are_answered_once any_actor host4 (host_next any_actor _ _ host3_reachable host3_step)).
Defined.

(** The drain is reported with the answer of the last request. *)
Lemma idle_reports_follow_answers_witness :
  dp_sent (ho_dispatcher host4) = [Drained 7; Replied 1 (Ok (Completed (Str "done") []))] /\
  ho_received host4 ≡ₚ answered_by (ho_dispatcher host4).
Proof.
  split; [vm_compute; reflexivity|].
  apply (idle_reports_follow_answers any_actor host3 host4 (Drained 7) 0 host3_reachable host3_step);
    [vm_compute; reflexivity|exact I|reflexivity].
Defined.

Lemma admission_is_bounded_and_visible_witness :
  dp_queues (ho_dispatcher host1) =
    [{| qi_actor := sample_actor; qi_waiting := [{| op_id := "w1"; Actors.operation := "add" |}] |}] /\
  dp_active (ho_dispatcher host1) <= MAX_ADMITTED_INVOCATIONS_PER_ACTOR.
Proof.
  split; [vm_compute; reflexivity|].
  destruct (dp_mailbox (ho_dispatcher host1)) as [m|] eqn:Em; [|vm_compute in Em; discriminate Em].
  apply (admission_is_bounded_and_visible any_actor host1 m host1_reachable Em).
Defined.

Lemma mailbox_refines_task_witness :
  exists new done, (length new <= 1)%nat /\
    (rq_reply <$> new ≡ₚ inflight (lp_mailbox loop1) ++ (cp_reply <$> done))%list.
Proof.
  assert (Hs : loop_step 4 (Loop_new "o" (ActorRuntime_new "h") []) mb1.1 loop1).
  { apply (step_request 4 mb0 [] ∅ first_request true); [done|split; [apply not_elem_of_nil|by right]|].
    unfold mb1. apply handle_runs. vm_compute. reflexivity. }
  destruct (mailbox_refines_task 4 "o" "h" [] (Loop_new "o" (ActorRuntime_new "h") []) mb1.1 loop1
    (reach_new 4 "o" "h" []) Hs ltac:(vm_compute; reflexivity)) as (new & done & Hone & _ & Hp).
  exists new, done. split; [exact Hone|exact Hp].
Defined.
