(* ===== verification/ActorReplication.v ===== *)
(** Keeping the replicas of a running actor complete: host/replication.rs and
    host/replication/startup.rs.

    [ActorReplication] is shared by the actor task, which writes snapshots
    through it, and by a supervisor that repairs the set of replicas.  Their
    methods are programs ([rprog]) over requests: the two locks, the local view
    of the membership, the lease fence, and the calls of [RuntimeStorage] and of
    the replicated writer.  The sections under the lock of [latest] contain no
    wait and are one request each. *)

From S2P Require Import Prelude.
From S2P Require Import Actors.
From S2P Require Import StoragePaths.
From S2P Require Import Snapshots.
From S2P Require Import ReplicaStore.
From S2P Require Import ReplicaServer.
From S2P Require Import RuntimeStorage.
Local Open Scope string_scope.
Local Open Scope Z_scope.

Abbreviation Latest := (option (WritePlan * string)) (only parsing).

Definition version_of (l : Latest) : option Z := option_map (fun x => plan_state_version x.1) l.

(** * Requests *)
Inductive REff : Type -> Type :=
(* [writing.lock().await] and the end of its guard *)
| AcquireWriting : REff unit
| ReleaseWriting : REff unit
(* [storage.ensure_authority()] *)
| FenceCheck : REff (Result unit)
(* under the lock of [latest] *)
| LatestGet : REff Latest
| LatestSet (l : Latest) : REff unit
| EnableIfCaughtUp (seeded : option Z) (m : ReplicaMembership) : REff (Result (option Latest))
(* the local membership *)
| MembersGet (scope : ReplicaScope) : REff (list ReplicaTarget)
| SuspendReplication (scope : ReplicaScope) : REff unit
| EnableReplication (m : ReplicaMembership) : REff (Result unit)
(* [RuntimeStorage] *)
| UnhealthyReplicas (scope : ReplicaScope) : REff (Result (list string))
| ReplacementReplicas (scope : ReplicaScope) (failed : list string) : REff (Result (list ReplicaTarget))
| ReplaceReplicas (scope : ReplicaScope) (targets : list ReplicaTarget) (newest : Latest)
    : REff (Result ReplicaMembership)
| SeedReplicas (ses : string) (targets : list ReplicaTarget) (newest : Latest) : REff (Result unit)
| CurrentWritePlan (plan : WritePlan) : REff (Result WritePlan)
(* the replicated writer *)
| WriterWrites (plan : WritePlan) (bytes : string) : REff (Result StateWrite)
| WriterWritesWhenReady (plan : WritePlan) (bytes : string) : REff (Result StateWrite)
(* initial replicas: the latest value of [initial_ready], its announcement, and
   what [InitialReplication::ready] returns *)
| InitialReadyGet : REff bool
| InitialReadySet : REff unit
| InitialMembership : REff (Result ReplicaMembership)
(* a monotonic clock *)
| RepairInstant : REff Z.

Inductive rprog (A : Type) : Type :=
| RRet (r : Result A)
| RVis {X : Type} (e : REff X) (k : X -> rprog A)
| RSpin.
Arguments RRet {A} r.
Arguments RVis {A X} e k.
Arguments RSpin {A}.
#[global] Instance rprog_ret : MRet rprog := fun A a => RRet (Ok a).
#[global] Instance rprog_bind : MBind rprog := fun A B f =>
  fix go (p : rprog A) : rprog B :=
    match p with
    | RRet (Ok a) => f a
    | RRet (Err e) => RRet (Err e)
    | RVis e k => RVis e (fun x => go (k x))
    | RSpin => RSpin
    end.
Definition rcall {X} (e : REff X) : rprog X := RVis e (fun x => RRet (Ok x)).
Definition rcall_ok {X} (e : REff (Result X)) : rprog X := RVis e (fun r => RRet r).
Definition rlift {A} (r : Result A) : rprog A := RRet r.

(** The guard of [writing] lives as long as the block, also when it fails. *)
Fixpoint then_release {A} (p : rprog A) : rprog A :=
  match p with
  | RRet r => RVis ReleaseWriting (fun _ => RRet r)
  | RVis e k => RVis e (fun x => then_release (k x))
  | RSpin => RSpin
  end.
Definition locked {A} (p : rprog A) : rprog A := rcall AcquireWriting;; then_release p.

(** * Repair *)
Definition MAX_REPLICA_AGE_MS : Z := 22 * 3600 * 1000.

(** The critical section at the top of the loop of [repair] *)
Definition enable_section (authority : Result unit) (latest : Latest) (seeded : option Z)
  (enabled : Result unit) : Result (option Latest) :=
  authority;;
  if bool_decide (version_of latest = seeded) then enabled;; Ok None else Ok (Some latest).

Section repair.
Context `{Base64Url}.

(** Catch up with the writer until the new replicas hold its latest snapshot. *)
Fixpoint catch_up (fuel : nat) (scope : ReplicaScope) (targets : list ReplicaTarget)
  (m : ReplicaMembership) (seeded : Latest) : rprog unit :=
  match fuel with
  | O => RSpin
  | S fuel =>
      behind ← rcall_ok (EnableIfCaughtUp (version_of seeded) m);
      match behind with
      | None => mret ()
      | Some latest =>
          rcall_ok (SeedReplicas (identity scope) targets latest);;
          catch_up fuel scope targets m latest
      end
  end.

Definition repair (fuel : nat) (scope : ReplicaScope) (failed : list string) : rprog unit :=
  targets ← rcall_ok (ReplacementReplicas scope failed);
  seeded ← locked (rcall_ok FenceCheck;; rcall (SuspendReplication scope);; rcall LatestGet);
  m ← rcall_ok (ReplaceReplicas scope targets seeded);
  catch_up fuel scope targets m seeded.

Definition is_member (members : list ReplicaTarget) (h : string) : bool :=
  existsb (fun t => String.eqb (host_id t) h) members.

(** Members that are too old, remembering when each was first seen *)
Fixpoint age_members (members : list ReplicaTarget) (first_seen : gmap string Z) (failed : list string)
  : rprog (gmap string Z * list string) :=
  match members with
  | [] => mret (first_seen, failed)
  | t :: rest =>
      now ← rcall RepairInstant;
      let since := default now (first_seen !! host_id t) in
      let first_seen := <[host_id t := since]> first_seen in
      later ← rcall RepairInstant;
      age_members rest first_seen
        (if MAX_REPLICA_AGE_MS <=? later - since then set_insert (host_id t) failed else failed)
  end.

Definition repair_if_needed (fuel : nat) (scope : ReplicaScope) (failed : list string)
  (first_seen : gmap string Z) : rprog (gmap string Z * bool) :=
  members ← rcall (MembersGet scope);
  let failed := filter (fun h => is_member members h = true) failed in
  unhealthy ← rcall_ok (UnhealthyReplicas scope);
  let failed := set_extend unhealthy failed in
  let first_seen := filter (fun '(h, _) => is_member members h = true) first_seen in
  '(first_seen, failed) ← age_members members first_seen failed;
  if is_nil failed && negb (is_nil members) then mret (first_seen, false)
  else repair fuel scope failed;; mret (first_seen, true).

(** What precedes [maintain]; afterwards it calls [repair_if_needed] again and
    again as long as the host has authority. *)
Definition initialize : rprog unit :=
  m ← rcall_ok InitialMembership;
  rcall_ok FenceCheck;;
  rcall_ok (EnableReplication m);;
  rcall InitialReadySet.
Definition maintain_round (fuel : nat) (scope : ReplicaScope) (failed : list string)
  (first_seen : gmap string Z) : rprog (gmap string Z * bool) :=
  rcall_ok FenceCheck;;
  repair_if_needed fuel scope failed first_seen.

End repair.

(** * Writing *)
(** [replicated]: whether the fleet has regions for replicas *)
Definition write_through (replicated : bool) (plan : WritePlan) (bytes : string) : rprog StateWrite :=
  locked (
    rcall_ok FenceCheck;;
    ready ← rcall InitialReadyGet;
    plan ← rcall_ok (CurrentWritePlan plan);
    proof ←
      (if bool_decide (replication plan = None) && replicated && negb ready
       then rcall_ok (WriterWritesWhenReady plan bytes)
       else rcall_ok (WriterWrites plan bytes));
    rcall (LatestSet (Some (plan, bytes)));;
    mret proof).
