(* ===== verification/ReplicationSafety.v ===== *)
(** Repairing replicas loses no acknowledged write.

    The writer and the supervisor of [ActorReplication] run concurrently on a
    world: the memory they share, the session record that a takeover reads, and
    the newest version that the bucket and each replica hold.  [effect] says what
    each request does to it.  Each task is verified alone ([safe]) against what
    the other one guarantees ([guar]); [repair_system_sound] combines them. *)

From S2P Require Import Prelude.
From S2P Require Import Actors.
From S2P Require Import StoragePaths.
From S2P Require Import Snapshots.
From S2P Require Import ReplicaStore.
From S2P Require Import ReplicaServer.
From S2P Require Import RuntimeStorage.
From S2P Require Import ActorReplication.
Local Open Scope string_scope.
Local Open Scope Z_scope.

(** * The world *)
Inductive role := Writer | Supervisor.
Definition other (r : role) : role := match r with Writer => Supervisor | Supervisor => Writer end.

Record Shared := {
  sh_latest : Latest;
  sh_members : option (list ReplicaTarget);
  sh_locked : option role;
  (* the replicas in the session record *)
  sh_recorded : list ReplicaTarget;
  (* newest version in the bucket and on each replica host *)
  sh_bucket : Z;
  sh_newest : string -> Z;
  (* history: versions acknowledged to the actor; targets enabled by a repair,
     with the latest version at that moment *)
  sh_acked : list Z;
  sh_reenabled : list (list ReplicaTarget * option Z) }.

Section setters.
Context (w : Shared).
Definition set_locked (l : option role) : Shared :=
  {| sh_latest := sh_latest w; sh_members := sh_members w; sh_locked := l; sh_recorded := sh_recorded w;
     sh_bucket := sh_bucket w; sh_newest := sh_newest w; sh_acked := sh_acked w;
     sh_reenabled := sh_reenabled w |}.
Definition set_members (m : option (list ReplicaTarget)) : Shared :=
  {| sh_latest := sh_latest w; sh_members := m; sh_locked := sh_locked w; sh_recorded := sh_recorded w;
     sh_bucket := sh_bucket w; sh_newest := sh_newest w; sh_acked := sh_acked w;
     sh_reenabled := sh_reenabled w |}.
Definition reenable (m : list ReplicaTarget) : Shared :=
  {| sh_latest := sh_latest w; sh_members := Some m; sh_locked := sh_locked w; sh_recorded := sh_recorded w;
     sh_bucket := sh_bucket w; sh_newest := sh_newest w; sh_acked := sh_acked w;
     sh_reenabled := (m, version_of (sh_latest w)) :: sh_reenabled w |}.
Definition set_recorded (l : list ReplicaTarget) : Shared :=
  {| sh_latest := sh_latest w; sh_members := sh_members w; sh_locked := sh_locked w; sh_recorded := l;
     sh_bucket := sh_bucket w; sh_newest := sh_newest w; sh_acked := sh_acked w;
     sh_reenabled := sh_reenabled w |}.
Definition acknowledge (plan : WritePlan) (bytes : string) : Shared :=
  {| sh_latest := Some (plan, bytes); sh_members := sh_members w; sh_locked := sh_locked w;
     sh_recorded := sh_recorded w; sh_bucket := sh_bucket w; sh_newest := sh_newest w;
     sh_acked := plan_state_version plan :: sh_acked w; sh_reenabled := sh_reenabled w |}.
Definition set_stored (bucket : Z) (newest : string -> Z) : Shared :=
  {| sh_latest := sh_latest w; sh_members := sh_members w; sh_locked := sh_locked w;
     sh_recorded := sh_recorded w; sh_bucket := bucket; sh_newest := newest;
     sh_acked := sh_acked w; sh_reenabled := sh_reenabled w |}.
End setters.

(** Every one of [targets] holds at least version [v]. *)
Definition hold (w : Shared) (targets : list ReplicaTarget) (v : Z) : Prop :=
  Forall (fun h => v <= sh_newest w h) (host_id <$> targets).
Definition hold_latest (w : Shared) (targets : list ReplicaTarget) (v : option Z) : Prop :=
  match v with Some v => hold w targets v | None => True end.

(** Stored versions only grow, in any way. *)
Definition stores (w w' : Shared) : Prop :=
  exists bucket newest, w' = set_stored w bucket newest /\ sh_bucket w <= bucket /\
    forall h, sh_newest w h <= newest h.

(** A write through [plan] is proved by the bucket or by all its replicas. *)
Definition proved (w : Shared) (targets : option (list ReplicaTarget)) (v : Z) : Prop :=
  v <= sh_bucket w \/ exists l, targets = Some l /\ l <> [] /\ hold w l v.

(** * What the requests do *)
Definition effect (r : role) {X} (e : REff X) (w : Shared) : X -> Shared -> Prop :=
  match e in REff X return X -> Shared -> Prop with
  | AcquireWriting => fun _ w' => sh_locked w = None /\ w' = set_locked w (Some r)
  | ReleaseWriting => fun _ w' => sh_locked w = Some r /\ w' = set_locked w None
  | FenceCheck => fun _ w' => w' = w
  | LatestGet => fun x w' => x = sh_latest w /\ w' = w
  | LatestSet l => fun _ w' => exists plan bytes, l = Some (plan, bytes) /\ w' = acknowledge w plan bytes
  | EnableIfCaughtUp seeded m => fun x w' => exists authority enabled,
      x = enable_section authority (sh_latest w) seeded enabled /\
      w' = (if bool_decide (x = Ok None) then reenable w (mem_replicas m) else w)
  | MembersGet _ => fun x w' => x = default [] (sh_members w) /\ w' = w
  | SuspendReplication _ => fun _ w' => w' = set_members w None
  | EnableReplication m => fun x w' =>
      w' = (if is_ok x then set_members w (Some (mem_replicas m)) else w)
  | UnhealthyReplicas _ => fun _ w' => w' = w
  | ReplacementReplicas _ _ => fun _ w' => w' = w
  (* the record is written after the seeding has succeeded; an error may hide that *)
  | ReplaceReplicas scope targets newest => fun x w' => exists w1, stores w w1 /\
      ((w' = w1 /\ is_ok x = false) \/
       (w' = set_recorded w1 targets /\ targets <> [] /\ hold_latest w1 targets (version_of newest) /\
        (is_ok x = false \/ x = Ok {| mem_scope := scope; mem_replicas := targets |})))
  | SeedReplicas _ targets newest => fun x w' =>
      stores w w' /\ (x = Ok () -> hold_latest w' targets (version_of newest))
  (* the plan of the local membership, for the same version *)
  | CurrentWritePlan plan => fun x w' => w' = w /\ forall p, x = Ok p ->
      plan_state_version p = plan_state_version plan /\
      match replication p with
      | None => True
      | Some t => exists l, sh_members w = Some l /\ host_id <$> replicas t = host_id <$> l
      end
  | WriterWrites plan _ => fun x w' => stores w w' /\ (is_ok x = true ->
      proved w' (replicas <$> replication plan) (plan_state_version plan))
  | WriterWritesWhenReady plan _ => fun x w' => stores w w' /\ (is_ok x = true ->
      proved w' (sh_members w) (plan_state_version plan))
  | InitialReadyGet => fun _ w' => w' = w
  | InitialReadySet => fun _ w' => w' = w
  (* the replicas that the session was recorded with *)
  | InitialMembership => fun x w' => w' = w /\
      forall m, x = Ok m -> mem_replicas m = sh_recorded w /\ mem_replicas m <> []
  | RepairInstant => fun _ w' => w' = w
  end.

(** * Invariant and guarantees *)
(** A takeover finds version [v] or a newer one. *)
Definition covered (w : Shared) (v : Z) : Prop := proved w (Some (sh_recorded w)) v.

Record shared_inv (w : Shared) : Prop := {
  si_members : forall l, sh_members w = Some l -> l = sh_recorded w /\ l <> [];
  si_acked : forall v, v ∈ sh_acked w -> covered w v;
  si_latest : forall v, v ∈ sh_acked w -> exists x, version_of (sh_latest w) = Some x /\ v <= x;
  si_reenabled : Forall (fun '(l, v) => hold_latest w l v) (sh_reenabled w) }.

Definition grows (w w' : Shared) : Prop :=
  sh_bucket w <= sh_bucket w' /\ forall h, sh_newest w h <= sh_newest w' h.

Definition guar (r : role) (w w' : Shared) : Prop :=
  grows w w' /\
  match r with
  | Writer =>
      sh_members w' = sh_members w /\ sh_recorded w' = sh_recorded w /\
      (sh_locked w = Some Supervisor -> sh_locked w' = Some Supervisor /\ sh_latest w' = sh_latest w /\
         sh_acked w' = sh_acked w) /\
      (sh_members w = None -> forall v, v ∈ sh_acked w' -> v ∈ sh_acked w \/ v <= sh_bucket w')
  | Supervisor =>
      sh_latest w' = sh_latest w /\ sh_acked w' = sh_acked w /\
      (sh_locked w = Some Writer -> sh_locked w' = Some Writer /\
         forall l, sh_members w = Some l -> sh_members w' = Some l /\ sh_recorded w' = sh_recorded w)
  end.

Lemma guar_refl r w : guar r w w.
Proof. split; [split; [lia|intros h; lia]|]. destruct r; cbn; split_and!; try done; auto. Qed.
Lemma guar_trans r a b c : guar r a b -> guar r b c -> guar r a c.
Proof.
  intros [[B1 N1] G1] [[B2 N2] G2]. split; [split; [lia|intros h; specialize (N1 h); specialize (N2 h); lia]|].
  destruct r; cbn in *.
  - destruct G1 as (M1 & R1 & L1 & A1), G2 as (M2 & R2 & L2 & A2). split_and!; [congruence|congruence|..].
    + intros Hl. destruct (L1 Hl) as (E1 & E2 & E3). destruct (L2 E1) as (F1 & F2 & F3).
      split_and!; congruence.
    + intros Hm v Hv. destruct (A2 ltac:(congruence) v Hv) as [Hv'|?]; [|by right].
      destruct (A1 Hm v Hv') as [?|?]; [by left|right; lia].
  - destruct G1 as (L1 & A1 & K1), G2 as (L2 & A2 & K2). split_and!; [congruence|congruence|].
    intros Hl. destruct (K1 Hl) as [E1 E2]. destruct (K2 E1) as [F1 F2]. split; [done|].
    intros l Hm. destruct (E2 l Hm) as [? ?]. destruct (F2 l) as [? ?]; [done|]. split; congruence.
Qed.

(** * Safe programs *)
Section safe.
Context (r : role).
Abbreviation rely := (guar (other r)).

(** From [w] on, whatever the other task does, every request of [p] keeps the
    invariant and the guarantee, and its result satisfies [Q]. *)
Fixpoint safe {A} (p : rprog A) (Q : Result A -> Shared -> Prop) (w : Shared) : Prop :=
  match p with
  | RRet a => forall w1, rely w w1 -> shared_inv w1 -> Q a w1
  | RVis e k => forall w1, rely w w1 -> shared_inv w1 -> forall x w2, effect r e w1 x w2 ->
      guar r w1 w2 /\ shared_inv w2 /\ safe (k x) Q w2
  | RSpin => True
  end.

Lemma safe_later {A} (p : rprog A) Q w w' : safe p Q w -> rely w w' -> safe p Q w'.
Proof.
  destruct p as [a|X e k|]; cbn; intros Hp Hr; [| |done].
  - intros w1 H1. apply Hp. by eapply guar_trans.
  - intros w1 H1. apply Hp. by eapply guar_trans.
Qed.
Lemma safe_mono {A} (p : rprog A) (Q Q' : Result A -> Shared -> Prop) w :
  safe p Q w -> (forall a w', Q a w' -> Q' a w') -> safe p Q' w.
Proof.
  revert w. induction p as [a|X e k IH|]; intros w Hp HQ; cbn in *; [auto| |done].
  intros w1 H1 Hi x w2 He. destruct (Hp w1 H1 Hi x w2 He) as (? & ? & ?). split_and!; [done|done|]. by apply IH.
Qed.
(** The invariant holds at the end. *)
Lemma safe_shared {A} (p : rprog A) (Q : Result A -> Shared -> Prop) w :
  safe p Q w -> safe p (fun _ w' => shared_inv w') w.
Proof.
  revert w. induction p as [a|X e k IH|]; intros w Hp; cbn in *; [done| |done].
  intros w1 H1 Hi x w2 He. destruct (Hp w1 H1 Hi x w2 He) as (? & ? & ?). split_and!; [done|done|]. by apply IH.
Qed.
Lemma safe_bind {A B} (p : rprog A) (f : A -> rprog B) Q w :
  safe p (fun a w' => match a with Ok a => safe (f a) Q w' | Err e => Q (Err e) w' end) w ->
  (forall e w1 w2, Q (Err e) w1 -> rely w1 w2 -> Q (Err e) w2) ->
  shared_inv w -> safe (p ≫= f) Q w.
Proof.
  intros Hp HQ. revert w Hp. induction p as [[a|e]|X e k IH|]; intros w Hp Hi; cbn in *; [| | |done].
  - apply (Hp w); [apply guar_refl|done].
  - exact Hp.
  - intros w1 H1 Hi1 x w2 He. destruct (Hp w1 H1 Hi1 x w2 He) as (? & ? & ?). split_and!; [done|done|]. by apply IH.
Qed.
End safe.

(** * Facts that only grow *)
Lemma hold_grows w w' l v : grows w w' -> hold w l v -> hold w' l v.
Proof. intros [_ Hn] Hl. eapply Forall_impl; [exact Hl|]. intros h. specialize (Hn h). cbn. lia. Qed.
Lemma hold_latest_grows w w' l v : grows w w' -> hold_latest w l v -> hold_latest w' l v.
Proof. destruct v; [apply hold_grows|done]. Qed.
Lemma hold_le w l v v' : v <= v' -> hold w l v' -> hold w l v.
Proof. intros Hle Hl. eapply Forall_impl; [exact Hl|]. intros h. cbn. lia. Qed.
Lemma proved_grows w w' l v : grows w w' -> proved w l v -> proved w' l v.
Proof.
  intros Hg [Hb|(l' & -> & Hne & Hh)]; [left; destruct Hg; lia|right]. exists l'.
  split_and!; [done|done|by eapply hold_grows].
Qed.
Lemma stores_grows w w' : stores w w' -> grows w w'.
Proof. by intros (b & n & -> & ? & ?). Qed.
Lemma guar_grows r w w' : guar r w w' -> grows w w'.
Proof. by intros [? _]. Qed.
Lemma reenabled_grows w w' : grows w w' -> Forall (fun '(l, v) => hold_latest w l v) (sh_reenabled w) ->
  Forall (fun '(l, v) => hold_latest w' l v) (sh_reenabled w).
Proof. intros Hg Hf. eapply Forall_impl; [exact Hf|]. intros [l v]. by apply hold_latest_grows. Qed.

(** Storing more keeps invariant and guarantees. *)
Lemma stores_inv w w' : stores w w' -> shared_inv w -> shared_inv w'.
Proof.
  intros Hs [Hm Ha Hl Hr]. pose proof (stores_grows _ _ Hs) as Hg. destruct Hs as (b & n & -> & _).
  split; cbn; [done| |done|].
  - intros v Hv. by eapply proved_grows, Ha.
  - by eapply reenabled_grows in Hr.
Qed.
Lemma stores_guar r w w' : stores w w' -> guar r w w'.
Proof.
  intros Hs. split; [by apply stores_grows|]. destruct Hs as (b & n & -> & _). destruct r; cbn; split_and!; auto.
Qed.
Lemma locked_inv w l : shared_inv w -> shared_inv (set_locked w l).
Proof. by intros [? ? ? ?]. Qed.
Lemma grows_refl w : grows w w.
Proof. split; [lia|intros h; lia]. Qed.
Lemma grows_eq w w' : sh_bucket w' = sh_bucket w -> sh_newest w' = sh_newest w -> grows w w'.
Proof. intros E1 E2. split; [lia|intros h; rewrite E2; lia]. Qed.
#[local] Hint Resolve grows_refl guar_refl stores_inv stores_guar locked_inv : actors.

(** * The writer *)
Section writer.
Context (v : Z).

(** What the writer knows while it holds the lock: its version is not older than
    any it has acknowledged. *)
Definition writing (w : Shared) : Prop :=
  sh_locked w = Some Writer /\ forall x, x ∈ sh_acked w -> x <= v.
Lemma writing_stable w w' : writing w -> guar Supervisor w w' -> writing w'.
Proof. intros [Hl Ha] [_ (_ & Ea & Hk)]. destruct (Hk Hl) as [? _]. split; [done|]. by rewrite Ea. Qed.

Definition planned (p : WritePlan) (w : Shared) : Prop :=
  plan_state_version p = v /\
  match replication p with
  | None => True
  | Some t => exists l, sh_members w = Some l /\ host_id <$> replicas t = host_id <$> l
  end.
Lemma planned_stable p w w' : writing w -> planned p w -> guar Supervisor w w' -> planned p w'.
Proof.
  intros [Hl _] [Hv Hp] [_ (_ & _ & Hk)]. destruct (Hk Hl) as [_ Hm]. split; [done|].
  destruct (replication p); [|done]. destruct Hp as (l & E & ?). exists l. split; [by apply Hm|done].
Qed.

(** The write is proved by the bucket or by the enabled replicas. *)
Lemma proved_stable w w' : writing w -> proved w (sh_members w) v -> guar Supervisor w w' ->
  proved w' (sh_members w') v.
Proof.
  intros [Hl _] Hp Hg. pose proof (guar_grows _ _ _ Hg). destruct Hg as [_ (_ & _ & Hk)].
  destruct (Hk Hl) as [_ Hm]. destruct Hp as [Hb|(l & E & Hne & Hh)]; [left; destruct H; lia|right].
  exists l. split_and!; [by apply Hm|done|by eapply hold_grows].
Qed.

Lemma acknowledge_ok w plan bytes :
  shared_inv w -> writing w -> proved w (sh_members w) v -> plan_state_version plan = v ->
  guar Writer w (acknowledge w plan bytes) /\ shared_inv (acknowledge w plan bytes).
Proof.
  intros [Hm Ha Hl Hr] [Hlock Hmax] Hp Ev. split.
  - split; [by apply grows_eq|]. cbn. split_and!; [done|done|by rewrite Hlock|].
    intros Hn x [->|?]%elem_of_cons; [|by left]. right. rewrite Ev.
    destruct Hp as [?|(l & E & _)]; [done|congruence].
  - split; cbn; try done.
    + intros x [->|Hx]%elem_of_cons; [|by apply Ha]. rewrite Ev.
      destruct Hp as [Hb|(l & E & Hne & Hh)]; [by left|right]. destruct (Hm l E) as [-> _]. by eexists.
    + intros x [->|Hx]%elem_of_cons; eexists; (split; [done|]); [lia|]. rewrite Ev. by apply Hmax.
Qed.

Lemma release_safe {A} (a : Result A) w : writing w ->
  safe Writer (RVis ReleaseWriting (fun _ => RRet a)) (fun _ _ => True) w.
Proof.
  intros Hw w1 H1 Hi x w2 [Hl ->]. pose proof (writing_stable _ _ Hw H1) as [Hl1 _].
  split_and!; [|by apply locked_inv|done]. split; [by apply grows_eq|]. cbn. split_and!; [done|done|congruence|auto].
Qed.

(** The end of a write that was proved *)
Lemma report_safe p bytes (proof : StateWrite) w :
  writing w -> plan_state_version p = v -> proved w (sh_members w) v ->
  safe Writer (then_release (rcall (LatestSet (Some (p, bytes)));; mret proof)) (fun _ _ => True) w.
Proof.
  intros Hw Hv Hp w1 H1 Hi x w2 (plan & b & [= <- <-] & ->).
  pose proof (writing_stable _ _ Hw H1) as Hw1. pose proof (proved_stable _ _ Hw Hp H1) as Hp1.
  destruct (acknowledge_ok w1 p bytes Hi Hw1 Hp1 Hv) as [Hg Hi2]. split_and!; [done|done|].
  apply release_safe. destruct Hw1 as [Hl Hm]. split; [done|]. cbn.
  intros y [->|?]%elem_of_cons; [lia|auto].
Qed.

Lemma write_through_safe replicated plan bytes w :
  plan_state_version plan = v -> (forall x, x ∈ sh_acked w -> x <= v) ->
  safe Writer (write_through replicated plan bytes) (fun _ _ => True) w.
Proof.
  intros Ev Hmax. unfold write_through, locked. cbn [mbind rprog_bind rcall].
  intros w1 [_ (_ & Ea & _)] Hi1 [] w2 [Hfree ->].
  assert (Hw2 : writing (set_locked w1 (Some Writer))) by (split; [done|]; cbn; by rewrite Ea).
  split_and!; [split; [by apply grows_eq|]; cbn; split_and!; [done|done|congruence|auto]|by apply locked_inv|].
  cbn [then_release rcall_ok mbind rprog_bind].
  intros w3 H3 Hi3 x3 w4 ->. pose proof (writing_stable _ _ Hw2 H3) as Hw3. split_and!; [apply guar_refl|done|].
  destruct x3 as [[]|err]; [|by apply release_safe].
  cbn [then_release rcall mbind rprog_bind]. intros w5 H5 Hi5 rdy w6 ->.
  pose proof (writing_stable _ _ Hw3 H5) as Hw5. split_and!; [apply guar_refl|done|].
  cbn [then_release rcall_ok mbind rprog_bind]. intros w7 H7 Hi7 x7 w8 [-> Hplan].
  pose proof (writing_stable _ _ Hw5 H7) as Hw7. split_and!; [apply guar_refl|done|].
  destruct x7 as [p|err]; [|by apply release_safe].
  destruct (Hplan p eq_refl) as [Evp Hp]. rewrite Ev in Evp.
  assert (Hplanned : planned p w7) by (by split).
  assert (Hdone : forall (e : REff (Result StateWrite)) l,
    (forall w x w', planned p w -> shared_inv w -> effect Writer e w x w' ->
       stores w w' /\ (is_ok x = true -> proved w' (l w) v) /\ (forall y, proved w' (l w) y -> proved w' (sh_members w) y)) ->
    safe Writer (then_release (proof ← rcall_ok e; rcall (LatestSet (Some (p, bytes)));; mret proof))
      (fun _ _ => True) w7).
  { intros e l He w9 H9 Hi9 x9 w10 Heff.
    pose proof (writing_stable _ _ Hw7 H9) as Hw9. pose proof (planned_stable _ _ _ Hw7 Hplanned H9) as Hp9.
    destruct (He _ _ _ Hp9 Hi9 Heff) as (Hs & Hok & Hmem).
    assert (Hm : sh_members w10 = sh_members w9 /\ sh_locked w10 = sh_locked w9 /\ sh_acked w10 = sh_acked w9)
      by (by destruct Hs as (b & n & -> & _)).
    destruct Hm as (Em & El & Eac).
    assert (Hw10 : writing w10). { destruct Hw9. split; [congruence|]. by rewrite Eac. }
    split_and!; [by apply stores_guar|by eapply stores_inv|].
    destruct x9 as [pr|err]; [|by apply release_safe].
    apply (report_safe p bytes pr); [done|done|]. rewrite Em. apply Hmem, Hok. done. }
  destruct (_ && _ && _).
  - apply (Hdone _ sh_members). intros wa x wb _ _ [Hs Hok]. split_and!; [done| |auto].
    by rewrite <-Evp.
  - apply (Hdone _ (fun _ => replicas <$> replication p)). intros wa x wb [_ Hpl] _ [Hs Hok].
    split_and!; [done|by rewrite <-Evp|]. intros y [?|(l & E & Hne & Hh)]; [by left|right].
    destruct (replication p) as [t|]; [|done]. destruct Hpl as (l' & El & Eh). injection E as <-.
    exists l'. split_and!; [done| |unfold hold in *; congruence]. intros ->. by destruct (replicas t).
Qed.
End writer.

(** * The supervisor *)
Section supervisor.
Context `{Base64Url} (scope : ReplicaScope) (targets : list ReplicaTarget).

(** Replication is suspended, and what was acknowledged is not newer than the
    snapshot in hand, or in the bucket. *)
Definition suspended (seeded : Latest) (w : Shared) : Prop :=
  sh_members w = None /\
  forall v, v ∈ sh_acked w -> (exists x, version_of seeded = Some x /\ v <= x) \/ v <= sh_bucket w.
Lemma suspended_stable seeded w w' : suspended seeded w -> guar Writer w w' -> suspended seeded w'.
Proof.
  intros [Hm Ha] [[Hb _] (Em & _ & _ & Hk)]. split; [congruence|]. intros v Hv.
  destruct (Hk Hm v Hv) as [Hv'|?]; [|by right]. destruct (Ha v Hv') as [?|?]; [by left|right; lia].
Qed.

(** The new replicas are recorded and hold the snapshot in hand. *)
Definition replaced (seeded : Latest) (w : Shared) : Prop :=
  suspended seeded w /\ sh_recorded w = targets /\ targets <> [] /\
  hold_latest w targets (version_of seeded).
Lemma replaced_stable seeded w w' : replaced seeded w -> guar Writer w w' -> replaced seeded w'.
Proof.
  intros (Hs & Er & Hne & Hh) Hg. pose proof (guar_grows _ _ _ Hg).
  split; [by eapply suspended_stable|]. destruct Hg as [_ (_ & Er' & _)].
  split_and!; [congruence|done|by eapply hold_latest_grows].
Qed.

Lemma replaced_inv seeded w w' :
  shared_inv w -> suspended seeded w -> stores w w' -> targets <> [] ->
  hold_latest w' targets (version_of seeded) ->
  guar Supervisor w (set_recorded w' targets) /\ shared_inv (set_recorded w' targets) /\
  replaced seeded (set_recorded w' targets).
Proof.
  intros Hi [Hm Ha] Hs Hne Hh. pose proof (stores_grows _ _ Hs) as Hg.
  assert (Hr : Forall (fun '(l, v) => hold_latest w' l v) (sh_reenabled w)).
  { eapply reenabled_grows; [exact Hg|apply Hi]. }
  destruct Hs as (b & n & -> & Hb & Hn). split_and!.
  - split; [exact Hg|]. cbn. split_and!; [done|done|]. intros Hl. split; [done|]. by rewrite Hm.
  - destruct Hi as [_ Hacked Hlatest _]. split; cbn; [by rewrite Hm| |done|exact Hr].
    intros v Hv. destruct (Ha v Hv) as [(x & Ex & Hle)|?]; [right|left; cbn; lia].
    exists targets. split_and!; [done|done|]. rewrite Ex in Hh. by eapply hold_le.
  - split; [|done]. split; [done|]. cbn. intros v Hv. destruct (Ha v Hv) as [?|?]; [by left|right; lia].
Qed.

Lemma enable_section_none authority latest seeded enabled :
  enable_section authority latest seeded enabled = Ok None -> version_of latest = seeded.
Proof.
  unfold enable_section. destruct authority as [[]|]; cbn; [|done]. by case_bool_decide.
Qed.
Lemma enable_section_some authority latest seeded enabled l :
  enable_section authority latest seeded enabled = Ok (Some l) -> l = latest.
Proof.
  unfold enable_section. destruct authority as [[]|]; cbn; [|done]. case_bool_decide; [|congruence].
  by destruct enabled.
Qed.

Lemma reenable_ok seeded w :
  shared_inv w -> replaced seeded w -> version_of (sh_latest w) = version_of seeded ->
  guar Supervisor w (reenable w targets) /\ shared_inv (reenable w targets).
Proof.
  intros [Hm Ha Hl Hr] ((Hn & _) & Er & Hne & Hh) Ev. split.
  - split; [by apply grows_eq|]. cbn. split_and!; [done|done|]. intros El. split; [done|]. by rewrite Hn.
  - split; cbn; [|done|done|].
    + intros l [= <-]. done.
    + constructor; [by rewrite Ev|exact Hr].
Qed.

(** Everything acknowledged is at most the latest. *)
Lemma latest_suspended w : shared_inv w -> sh_members w = None -> suspended (sh_latest w) w.
Proof. intros Hi Hm. split; [done|]. intros v Hv. left. by apply (si_latest _ Hi). Qed.

Lemma catch_up_safe fuel : forall seeded w, replaced seeded w ->
  safe Supervisor (catch_up fuel scope targets {| mem_scope := scope; mem_replicas := targets |} seeded)
    (fun _ _ => True) w.
Proof.
  induction fuel as [|fuel IH]; intros seeded w Hw; [done|].
  cbn [catch_up mbind rprog_bind rcall_ok]. intros w1 H1 Hi1 x w2 (auth & en & Ex & ->).
  pose proof (replaced_stable _ _ _ Hw H1) as Hw1. case_bool_decide as En.
  - rewrite En in *. destruct (reenable_ok seeded w1 Hi1 Hw1) as [? ?].
    { symmetry in Ex. by apply enable_section_none in Ex. }
    by split_and!.
  - split_and!; [apply guar_refl|done|]. destruct x as [[latest|]|err]; [|done|done].
    symmetry in Ex. apply enable_section_some in Ex as ->.
    pose proof (latest_suspended w1 Hi1 (proj1 (proj1 Hw1))) as Hs1.
    cbn [mbind rprog_bind rcall_ok]. intros w3 H3 Hi3 x3 w4 [Hst Hok].
    pose proof (suspended_stable _ _ _ Hs1 H3) as Hs3. pose proof (replaced_stable _ _ _ Hw1 H3) as (_ & Er & Hne & _).
    split_and!; [by apply stores_guar|by eapply stores_inv|]. destruct x3 as [[]|err]; [|done].
    apply IH. specialize (Hok eq_refl). destruct Hst as (b & n & -> & Hb & Hn).
    split_and!; [|done|done|done]. destruct Hs3 as [Hm Ha]. split; [done|]. cbn.
    intros v Hv. destruct (Ha v Hv) as [?|?]; [by left|right; lia].
Qed.
End supervisor.

(** Requests of the supervisor that change nothing *)
Lemma safe_quiet {A X} (e : REff X) (k : X -> rprog A) Q w :
  (forall w1 x w2, effect Supervisor e w1 x w2 -> w2 = w1) ->
  (forall x w1, guar Writer w w1 -> shared_inv w1 -> safe Supervisor (k x) Q w1) ->
  safe Supervisor (RVis e k) Q w.
Proof.
  intros He Hk w1 H1 Hi x w2 Heff. pose proof (He _ _ _ Heff) as ->.
  split_and!; [apply guar_refl|done|by apply Hk].
Qed.

(** The suspension under the lock *)
Definition holding (w : Shared) : Prop := sh_locked w = Some Supervisor.
Lemma holding_stable w w' : holding w -> guar Writer w w' -> holding w'.
Proof. intros Hl [_ (_ & _ & Hk & _)]. by apply Hk. Qed.
Lemma release_supervisor {A} (a : Result A) (P : Shared -> Prop) w :
  holding w -> P w -> (forall w w', P w -> guar Writer w w' -> P w') ->
  (forall w, P w -> P (set_locked w None)) ->
  safe Supervisor (RVis ReleaseWriting (fun _ => RRet a)) (fun r w => r = a /\ P w) w.
Proof.
  intros Hl HP Hstable Hset w1 H1 Hi x w2 [El ->]. pose proof (holding_stable _ _ Hl H1).
  split_and!; [|by apply locked_inv|].
  - split; [by apply grows_eq|]. cbn. split_and!; [done|done|congruence].
  - intros w3 H3 _. split; [done|]. eapply Hstable; [|exact H3]. apply Hset. by eapply Hstable.
Qed.

Lemma suspend_safe scope w :
  safe Supervisor (locked (rcall_ok FenceCheck;; rcall (SuspendReplication scope);; rcall LatestGet))
    (fun r w => match r with Ok seeded => suspended seeded w | Err _ => True end) w.
Proof.
  unfold locked. cbn [mbind rprog_bind rcall]. intros w1 H1 Hi1 [] w2 [Hfree ->].
  split_and!; [split; [by apply grows_eq|]; cbn; split_and!; [done|done|congruence]|by apply locked_inv|].
  cbn [then_release rcall_ok mbind rprog_bind].
  assert (Hl : holding (set_locked w1 (Some Supervisor))) by done.
  intros w3 H3 Hi3 x w4 ->. pose proof (holding_stable _ _ Hl H3) as Hl3. split_and!; [apply guar_refl|done|].
  destruct x as [[]|err].
  2: { eapply safe_mono; [by apply (release_supervisor _ (fun _ => True))|]. by intros a w' [-> _]. }
  cbn [then_release rcall mbind rprog_bind]. intros w5 H5 Hi5 [] w6 ->.
  pose proof (holding_stable _ _ Hl3 H5) as Hl5.
  split_and!.
  { split; [by apply grows_eq|]. cbn. split_and!; [done|done|]. intros E. rewrite Hl5 in E. done. }
  { destruct Hi5 as [? ? ? ?]. by split. }
  intros w7 H7 Hi7 x w8 [-> ->]. split_and!; [apply guar_refl|done|].
  assert (Hm7 : sh_members w7 = None) by (destruct H7 as [_ (Em & _)]; by rewrite Em).
  pose proof (latest_suspended w7 Hi7 Hm7) as Hs7.
  eapply safe_mono.
  - apply (release_supervisor _ (suspended (sh_latest w7))); [|done| |].
    + by eapply (holding_stable (set_members w5 None)).
    + intros wa wb. apply suspended_stable.
    + done.
  - intros a w' [-> ?]. done.
Qed.

Lemma repair_safe `{Base64Url} fuel scope failed w :
  shared_inv w -> safe Supervisor (repair fuel scope failed) (fun _ _ => True) w.
Proof.
  intros Hi. unfold repair. cbn [mbind rprog_bind rcall_ok]. apply safe_quiet; [by intros w1 x w2 ->|].
  intros [targets|err] w1 H1 Hi1; [|done].
  apply safe_bind; [|done|done]. eapply safe_mono; [apply suspend_safe|].
  intros [seeded|err] w2 Hs; [|done]. cbn [mbind rprog_bind rcall_ok].
  intros w3 H3 Hi3 x w4 (w5 & Hst & Hcase). pose proof (suspended_stable _ _ _ Hs H3) as Hs3.
  destruct Hcase as [[-> Hx]|(-> & Hne & Hh & Hx)].
  - split_and!; [by apply stores_guar|by eapply stores_inv|]. by destruct x.
  - destruct (replaced_inv targets seeded w3 w5 Hi3 Hs3 Hst Hne Hh) as (Hg & Hi4 & Hr). split_and!; [done|done|].
    destruct x as [m|err]; [|done]. destruct Hx as [?|[= ->]]; [done|]. by apply catch_up_safe.
Qed.

Lemma age_members_safe members : forall first_seen failed w,
  safe Supervisor (age_members members first_seen failed) (fun _ _ => True) w.
Proof.
  induction members as [|t members IH]; intros first_seen failed w; [done|].
  cbn [age_members mbind rprog_bind rcall]. apply safe_quiet; [by intros w1 x w2 ->|]. intros now w1 _ _.
  apply safe_quiet; [by intros w2 x w3 ->|]. intros later w2 _ _. apply IH.
Qed.

Lemma round_safe `{Base64Url} fuel scope failed first_seen w :
  shared_inv w -> safe Supervisor (maintain_round fuel scope failed first_seen) (fun _ _ => True) w.
Proof.
  intros Hi. unfold maintain_round. cbn [mbind rprog_bind rcall_ok].
  apply safe_quiet; [by intros w1 x w2 ->|]. intros [[]|err] w1 _ Hi1; [|done].
  unfold repair_if_needed. cbn [mbind rprog_bind rcall]. apply safe_quiet; [by intros w2 x w3 [_ ->]|].
  intros members w2 _ Hi2. cbn [mbind rprog_bind rcall_ok]. apply safe_quiet; [by intros w3 x w4 ->|].
  intros [unhealthy|err] w3 _ Hi3; [|done]. apply safe_bind; [|done|done].
  eapply safe_mono; [eapply safe_shared, age_members_safe|].
  intros [[seen bad]|err] w4 Hi4; [|done]. destruct (_ && _); [done|].
  apply safe_bind; [|done|exact Hi4]. eapply safe_mono; [by apply repair_safe|]. by intros [[]|err] w5 _.
Qed.

Lemma initialize_safe w : safe Supervisor initialize (fun _ _ => True) w.
Proof.
  unfold initialize. cbn [mbind rprog_bind rcall_ok]. intros w1 H1 Hi1 x w2 [-> Hx].
  split_and!; [apply guar_refl|done|]. destruct x as [m|err]; [|done]. destruct (Hx m eq_refl) as [Em Hne].
  cbn [mbind rprog_bind rcall_ok]. intros w3 H3 Hi3 x3 w4 ->. split_and!; [apply guar_refl|done|].
  destruct x3 as [[]|err]; [|done].
  cbn [mbind rprog_bind rcall_ok]. intros w5 H5 Hi5 x5 w6 ->.
  assert (Er : sh_recorded w5 = mem_replicas m).
  { destruct H3 as [_ (_ & E3 & _)], H5 as [_ (_ & E5 & _)]. congruence. }
  destruct x5 as [[]|err]; cbn [is_ok]; [|by split_and!; [apply guar_refl|done|]].
  split_and!.
  - split; [by apply grows_eq|]. cbn. split_and!; [done|done|]. intros El. split; [done|]. intros l Hl.
    destruct (si_members _ Hi5 l Hl) as [-> _]. by rewrite Er.
  - destruct Hi5 as [? ? ? ?]. split; cbn; try done. by intros l [= <-].
  - apply safe_quiet; [by intros w7 x w8 ->|]. done.
Qed.

(** * The system *)
Record RepairSystem := {
  rs_world : Shared;
  rs_writer : rprog StateWrite;
  rs_supervisor : rprog (gmap string Z * bool) }.

Definition ended {A} (p : rprog A) : Prop := match p with RRet _ => True | _ => False end.

Section system.
(** Whether the fleet has regions for replicas *)
Context `{Base64Url} (replicated : bool).

Inductive repair_step : RepairSystem -> RepairSystem -> Prop :=
(* the actor writes its next version, or repeats one it has no answer for *)
| writer_starts w p s plan bytes :
    ended p -> (forall v, v ∈ sh_acked w -> v <= plan_state_version plan) ->
    repair_step {| rs_world := w; rs_writer := p; rs_supervisor := s |}
      {| rs_world := w; rs_writer := write_through replicated plan bytes; rs_supervisor := s |}
| writer_moves w X (e : REff X) k s x w' :
    effect Writer e w x w' ->
    repair_step {| rs_world := w; rs_writer := RVis e k; rs_supervisor := s |}
      {| rs_world := w'; rs_writer := k x; rs_supervisor := s |}
| supervisor_starts w p s fuel scope failed first_seen :
    ended s ->
    repair_step {| rs_world := w; rs_writer := p; rs_supervisor := s |}
      {| rs_world := w; rs_writer := p; rs_supervisor := maintain_round fuel scope failed first_seen |}
| supervisor_moves w X (e : REff X) k p x w' :
    effect Supervisor e w x w' ->
    repair_step {| rs_world := w; rs_writer := p; rs_supervisor := RVis e k |}
      {| rs_world := w'; rs_writer := p; rs_supervisor := k x |}.

(** At first nothing was written, and the session is recorded with [recorded]. *)
Definition repair_start (recorded : list ReplicaTarget) (bucket : Z) (newest : string -> Z) : RepairSystem :=
  {| rs_world := {| sh_latest := None; sh_members := None; sh_locked := None; sh_recorded := recorded;
                    sh_bucket := bucket; sh_newest := newest; sh_acked := []; sh_reenabled := [] |};
     rs_writer := RRet (Err "idle");
     rs_supervisor := initialize;; mret (∅, false) |}.

Inductive repair_reachable : RepairSystem -> Prop :=
| repair_starts recorded bucket newest : repair_reachable (repair_start recorded bucket newest)
| repair_steps s s' : repair_reachable s -> repair_step s s' -> repair_reachable s'.

Record system_ok (s : RepairSystem) : Prop := {
  so_inv : shared_inv (rs_world s);
  so_writer : safe Writer (rs_writer s) (fun _ _ => True) (rs_world s);
  so_supervisor : safe Supervisor (rs_supervisor s) (fun _ _ => True) (rs_world s) }.

Lemma repair_system_sound s : repair_reachable s -> system_ok s.
Proof.
  induction 1 as [recorded bucket newest|s s' _ IH Hs].
  - assert (Hi : shared_inv (rs_world (repair_start recorded bucket newest))).
    { split; cbn; [done|by intros v ?%not_elem_of_nil|by intros v ?%not_elem_of_nil|done]. }
    split; [exact Hi|done|]. apply safe_bind; [|done|exact Hi].
    eapply safe_mono; [apply initialize_safe|]. by intros [a|err] w.
  - destruct IH as [Hi Hw Hsup]. destruct Hs as [w p s plan bytes He Hmax|w X e k s x w' Heff
      |w p s fuel scope failed seen He|w X e k p x w' Heff]; cbn in *.
    + split; [done| |done]. by eapply write_through_safe.
    + destruct (Hw w (guar_refl _ _) Hi x w' Heff) as (Hg & Hi' & Hk). split; [done|done|].
      by eapply safe_later.
    + split; [done|done|]. by apply round_safe.
    + destruct (Hsup w (guar_refl _ _) Hi x w' Heff) as (Hg & Hi' & Hk). split; [done| |done].
      by eapply safe_later.
Qed.

(** C8: repairing replicas loses no acknowledged write.  However writes and repairs
    interleave, and whatever fails, at every moment each version acknowledged to
    the actor is in the bucket, or there are recorded replicas and every one of
    them holds this version or a newer one, so a takeover finds it. *)
Theorem repair_keeps_acknowledged_writes s v :
  repair_reachable s -> v ∈ sh_acked (rs_world s) ->
  v <= sh_bucket (rs_world s) \/
  (sh_recorded (rs_world s) <> [] /\
   forall t, t ∈ sh_recorded (rs_world s) -> v <= sh_newest (rs_world s) (host_id t)).
Proof.
  intros Hr Hv. destruct (repair_system_sound s Hr) as [Hi _ _].
  destruct (si_acked _ Hi v Hv) as [?|(l & [= <-] & Hne & Hh)]; [by left|right]. split; [done|].
  intros t Ht. unfold hold in Hh. rewrite Forall_forall in Hh. apply Hh. by apply list_elem_of_fmap_2.
Qed.

(** Replicas are put back to use only when they have caught up.  The replicas a
    repair has enabled hold the version that was the latest acknowledged one at
    that moment. *)
Theorem repaired_replicas_are_current s targets v t :
  repair_reachable s -> (targets, Some v) ∈ sh_reenabled (rs_world s) -> t ∈ targets ->
  v <= sh_newest (rs_world s) (host_id t).
Proof.
  intros Hr Hin Ht. destruct (repair_system_sound s Hr) as [Hi _ _].
  pose proof (si_reenabled _ Hi) as Hf. rewrite Forall_forall in Hf. specialize (Hf _ Hin). cbn in Hf.
  unfold hold in Hf. rewrite Forall_forall in Hf. apply Hf. by apply list_elem_of_fmap_2.
Qed.
End system.
(** * A run: a write reaches the initial replica, which is then replaced. *)
Lemma writer_does `{Base64Url} replicated w p s X (e : REff X) k x w' :
  repair_reachable replicated {| rs_world := w; rs_writer := p; rs_supervisor := s |} ->
  p = RVis e k -> effect Writer e w x w' ->
  repair_reachable replicated {| rs_world := w'; rs_writer := k x; rs_supervisor := s |}.
Proof. intros Hr -> He. eapply repair_steps; [exact Hr|]. by apply writer_moves. Qed.
Lemma supervisor_does `{Base64Url} replicated w p s X (e : REff X) k x w' :
  repair_reachable replicated {| rs_world := w; rs_writer := p; rs_supervisor := s |} ->
  s = RVis e k -> effect Supervisor e w x w' ->
  repair_reachable replicated {| rs_world := w'; rs_writer := p; rs_supervisor := k x |}.
Proof. intros Hr -> He. eapply repair_steps; [exact Hr|]. by apply supervisor_moves. Qed.

Import Hex.
Definition run_target (h : string) : ReplicaTarget := {| host_id := h; url := "u"; target_region := "r" |}.
Definition run_scope : ReplicaScope :=
  {| scope_actor := {| project_id := "p"; actor_name := "t"; actor_id := "a" |};
     scope_host := "h"; scope_session := "s"; scope_region := "r" |}.
Definition run_plan : WritePlan :=
  {| plan_stream := {| rs_session := "s"; prefix := "x"; rs_owner_epoch := 1; base_version := 0 |}; plan_state_version := 1;
     object_name := "o"; plan_expires_at_ms := 10;
     replication := Some {| replicas := [run_target "a"] |} |}.
Definition run_end : Shared :=
  {| sh_latest := Some (run_plan, "state"); sh_members := Some [run_target "b"]; sh_locked := None;
     sh_recorded := [run_target "b"]; sh_bucket := 0; sh_newest := fun _ => 1; sh_acked := [1];
     sh_reenabled := [([run_target "b"], Some 1)] |}.



Definition run_stored (w : Shared) : Shared := set_stored w 0 (fun _ => 1).
Lemma run_stores w : sh_bucket w = 0 -> (forall h, sh_newest w h <= 1) -> stores w (run_stored w).
Proof. intros Eb Hn. exists 0, (fun _ => 1). split_and!; [done|lia|done]. Qed.

(** The next request of a task is answered with [x]; [same]: the world stays. *)
#[local] Ltac next H l x :=
  eapply (l _ _ _ _ _ _ _ x) in H; [|reflexivity|]; cbn [rs_world rs_writer rs_supervisor] in H.
#[local] Ltac same H l x :=
  lazymatch type of H with repair_reachable _ {| rs_world := ?w |} =>
    eapply (l _ _ _ _ _ _ _ x w) in H; [|reflexivity|] end.

Lemma run_reachable : exists p s,
  repair_reachable true {| rs_world := run_end; rs_writer := p; rs_supervisor := s |}.
Proof.
  pose proof (repair_starts true [run_target "a"] 0 (fun _ => 0)) as H. unfold repair_start in H.
  same H supervisor_does (Ok {| mem_scope := run_scope; mem_replicas := [run_target "a"] |}).
  2: { split; [done|]. by intros m [= <-]. }
  same H supervisor_does (Ok ()). 2: done.
  next H supervisor_does (Ok ()). 2: done.
  same H supervisor_does tt. 2: done.
  (* the write *)
  eapply repair_steps in H; [|apply (writer_starts _ _ _ _ run_plan "state"); [done|set_solver]].
  next H writer_does tt. 2: done.
  same H writer_does (Ok ()). 2: done.
  same H writer_does true. 2: done.
  same H writer_does (Ok run_plan). 2: { split; [done|]. intros p [= <-]. split; [done|]. by eexists. }
  next H writer_does (Ok Replicated).
  2: { split; [by apply run_stores|]. intros _. right. eexists. by repeat econstructor. }
  next H writer_does tt. 2: by do 2 eexists.
  next H writer_does tt. 2: done.
  (* the repair *)
  eapply repair_steps in H; [|apply (supervisor_starts _ _ _ _ 1 run_scope [] ∅); done].
  same H supervisor_does (Ok ()). 2: done.
  same H supervisor_does [run_target "a"]. 2: done.
  same H supervisor_does (Ok ["a"]). 2: done.
  same H supervisor_does 0. 2: done.
  same H supervisor_does 0. 2: done.
  same H supervisor_does (Ok [run_target "b"]). 2: done.
  next H supervisor_does tt. 2: done.
  same H supervisor_does (Ok ()). 2: done.
  next H supervisor_does tt. 2: done.
  same H supervisor_does (Some (run_plan, "state")). 2: done.
  next H supervisor_does tt. 2: done.
  next H supervisor_does (Ok {| mem_scope := run_scope; mem_replicas := [run_target "b"] |}).
  2: { eexists. split; [by apply run_stores|]. right. split_and!; [done|done| |by right].
       by repeat constructor. }
  next H supervisor_does (Ok (@None Latest)).
  2: { exists (Ok ()), (Ok ()). split; [reflexivity|]. by rewrite bool_decide_eq_true_2. }
  do 2 eexists. exact H.
Qed.

Lemma repair_keeps_acknowledged_writes_witness :
  1 <= sh_bucket run_end \/
  (sh_recorded run_end <> [] /\ forall t, t ∈ sh_recorded run_end -> 1 <= sh_newest run_end (host_id t)).
Proof.
  destruct run_reachable as (p & s & Hr).
  apply (repair_keeps_acknowledged_writes true _ 1 Hr). by apply list_elem_of_singleton.
Defined.

Lemma repaired_replicas_are_current_witness : 1 <= sh_newest run_end "b".
Proof.
  destruct run_reachable as (p & s & Hr).
  apply (repaired_replicas_are_current true _ [run_target "b"] 1 (run_target "b") Hr);
    by apply list_elem_of_singleton.
Defined.
