(* ===== verification/Deployments.v ===== *)
(** Deployments: control_plane/admin.rs, control_plane/regions.rs.

    What code a project runs, the key that identifies the hosts of one
    deployment, the registry kept in memory, and how regions of cloud providers
    map to storage regions. *)

From S2P Require Import Prelude.
From S2P Require Import Actors.
From S2P Require Import StoragePaths.
From S2P Require Import Snapshots.
Local Open Scope string_scope.
Local Open Scope Z_scope.

(** * Launch specifications *)
Record DeploymentSource := {
  src_image_ref : string;
  src_working_directory : string;
  src_actor_entrypoint : option string }.
#[global] Instance DeploymentSource_eq_dec : EqDecision DeploymentSource.
Proof. solve_decision. Defined.

Record HostLaunchSpec := {
  spec_project_id : string;
  spec_source : option DeploymentSource;
  image_ref : string;
  code_snapshot : option string;
  working_directory : string;
  actor_entrypoint : option string;
  secret_refs : list string }.
#[global] Instance HostLaunchSpec_eq_dec : EqDecision HostLaunchSpec.
Proof. solve_decision. Defined.

Definition source_of (spec : HostLaunchSpec) : DeploymentSource :=
  {| src_image_ref := image_ref spec; src_working_directory := working_directory spec;
     src_actor_entrypoint := actor_entrypoint spec |}.

Definition admin_component (name value : string) (maximum : Z) : Result unit :=
  ensure (negb (is_empty value)) (name +:+ " must not be empty");;
  ensure (len value <=? maximum) (name +:+ " must be at most " +:+ show_u64 maximum +:+ " bytes");;
  ensure (all_bytes (fun c => is_ascii_alphanumeric c || (byte c =? 46) || (byte c =? 95) || (byte c =? 45))
            value)
    (name +:+ " contains unsupported characters").

(** [Path::components]: a root or a parent directory among the components *)
Definition escapes (path : string) : bool :=
  starts_with "/" path || existsb (String.eqb "..") (split_on "/" path).

Definition HostLaunchSpec_validate (s : HostLaunchSpec) : Result unit :=
  admin_component "project ID" (spec_project_id s) 64;;
  match code_snapshot s with
  | None => Ok ()
  | Some snapshot =>
      ensure (starts_with "im-" snapshot && (len snapshot <=? 255)) "invalid Modal code snapshot";;
      ensure (String.eqb (working_directory s) "/customer") "snapshot deployments must use /customer";;
      let entrypoint := default "actors.mjs" (actor_entrypoint s) in
      ensure (bool_decide (is_Some (strip_suffix ".mjs" entrypoint)) && negb (escapes entrypoint))
        "snapshot entrypoint must be a relative compiled module path"
  end;;
  ensure (negb (is_empty (image_ref s)) && (len (image_ref s) <=? 255))
    "sandbox image reference must contain between 1 and 255 bytes";;
  ensure (starts_with "/" (working_directory s) && (len (working_directory s) <=? 1024))
    "host working directory must be an absolute path of at most 1024 bytes";;
  match actor_entrypoint s with
  | None => Ok ()
  | Some e => ensure (negb (is_empty e) && (len e <=? 1024))
                "actor entrypoint must contain between 1 and 1024 bytes"
  end;;
  ensure (length (secret_refs s) <=? 16)%nat "at most 16 secret references are allowed";;
  collect (fun r => admin_component "secret reference" r 255) (secret_refs s);;
  Ok ().

(** What identifies the hosts of a deployment *)
Definition HostIdentity : Type :=
  string * list string * string * option string * string * option string.
Definition host_identity (s : HostLaunchSpec) : HostIdentity :=
  (spec_project_id s, secret_refs s, image_ref s, code_snapshot s, working_directory s,
   actor_entrypoint s).
Definition host_config_key `{Base64Url, Sha256, Json HostIdentity} (s : HostLaunchSpec) : string :=
  "cfg." +:+ b64_encode (sha256 (to_vec (host_identity s))).

(** * The registry in memory: [LocalAdminRegistry] *)
Record PublishedContract := { contract_hash : string; contract : Value }.
#[global] Instance PublishedContract_eq_dec : EqDecision PublishedContract.
Proof. solve_decision. Defined.
Record LocalAdminState := {
  las_deployment : option HostLaunchSpec;
  las_contract : option PublishedContract }.
Definition LocalAdminState_default : LocalAdminState := {| las_deployment := None; las_contract := None |}.
Abbreviation LocalAdminRegistry := (gmap string LocalAdminState) (only parsing).

Definition registry_remove (r : LocalAdminRegistry) (project : string) : LocalAdminRegistry :=
  delete project r.
Definition registry_register (r : LocalAdminRegistry) (spec : HostLaunchSpec)
  (contract : option PublishedContract) : Result bool * LocalAdminRegistry :=
  match HostLaunchSpec_validate spec with
  | Err e => (Err e, r)
  | Ok _ =>
      let state := default LocalAdminState_default (r !! spec_project_id spec) in
      let changed := bool_decide (las_deployment state <> Some spec)
                     || bool_decide (las_contract state <> contract) in
      (Ok changed,
       <[spec_project_id spec := {| las_deployment := Some spec; las_contract := contract |}]> r)
  end.
Definition registry_contract (r : LocalAdminRegistry) (project : string) : option PublishedContract :=
  r !! project ≫= las_contract.
Definition registry_launch_spec (r : LocalAdminRegistry) (project : string) : option HostLaunchSpec :=
  r !! project ≫= las_deployment.
Definition registry_launch_specs (r : LocalAdminRegistry) : list HostLaunchSpec :=
  omap (fun kv => las_deployment kv.2) (map_to_list r).

(** Registering a deployment is idempotent, and says whether anything changed. *)
Lemma register_twice r spec c b r' :
  registry_register r spec c = (Ok b, r') ->
  registry_register r' spec c = (Ok false, r') /\
  registry_launch_spec r' (spec_project_id spec) = Some spec /\
  (b = false <-> registry_launch_spec r (spec_project_id spec) = Some spec /\
                 registry_contract r (spec_project_id spec) = c).
Proof.
  unfold registry_register, registry_launch_spec, registry_contract.
  destruct (HostLaunchSpec_validate spec) eqn:Ev; [|done]. intros [= <- <-]. split_and!.
  - rewrite lookup_insert_eq. cbn. rewrite !bool_decide_eq_false_2 by (intros ?; done).
    cbn. by rewrite insert_insert_eq.
  - by rewrite lookup_insert_eq.
  - rewrite orb_false_iff, !bool_decide_eq_false. destruct (r !! _) as [[d k]|]; cbn.
    + split; [intros [H1 H2]; split; by apply dec_stable|naive_solver].
    + split; [intros [H1 H2]; by apply dec_stable in H1|by intros [? _]].
Qed.

(** * Administrative credentials *)
(** [str::trim]: white space at either end, in the ASCII part that a header can hold *)
Definition is_whitespace (c : ascii) : bool :=
  ((9 <=? byte c) && (byte c <=? 13)) || (byte c =? 32).
Definition first_char (s : string) : option ascii := match s with String c _ => Some c | EmptyString => None end.
Fixpoint last_char (s : string) : option ascii :=
  match s with
  | String c EmptyString => Some c
  | String _ s' => last_char s'
  | EmptyString => None
  end.
Definition is_trimmed (s : string) : bool :=
  negb (from_option is_whitespace false (first_char s)) && negb (from_option is_whitespace false (last_char s)).

Definition admin_authenticate (api_key : option string) (authorization : string) : Result unit :=
  match api_key with
  | None => Ok ()
  | Some key =>
      token ← with_context (strip_prefix "Bearer " authorization)
        "admin credential must use Bearer authentication";
      ensure (negb (is_empty token) && is_trimmed token && String.eqb token key)
        "admin credential is invalid"
  end.

(** * Regions: control_plane/regions.rs *)
Definition ALL_REGIONS : list string :=
  ["north-america-east"; "north-america-central"; "north-america-south"; "north-america-west";
   "europe-west"; "asia-southeast"].
Definition one_of (l : list string) (s : string) : bool := existsb (String.eqb s) l.

Definition zone_location (region : string) : string :=
  match rsplit_once "-" region with
  | Some (base, zone) =>
      if one_of ["a"; "b"; "c"; "d"; "f"] zone
         && one_of ["us-east1"; "us-east4"; "us-east5"; "us-central1"; "us-south1"; "us-west1"; "us-west2";
                    "us-west3"; "us-west4"; "europe-west1"; "europe-west3"; "europe-west4";
                    "asia-southeast1"; "asia-southeast2"] base
      then base else region
  | None => region
  end.

Definition storage_region (region : string) : Result string :=
  let location := zone_location region in
  if one_of ALL_REGIONS location then Ok region
  else if one_of ["us-east-1"; "us-east-2"; "us-east1"; "us-east4"; "us-east5"; "us-ashburn-1"; "eastus";
                  "eastus2"] location then Ok "north-america-east"
  else if one_of ["us-central1"; "us-chicago-1"; "centralus"; "northcentralus"] location
  then Ok "north-america-central"
  else if one_of ["us-south1"; "southcentralus"] location then Ok "north-america-south"
  else if one_of ["us-west-1"; "us-west-2"; "us-west1"; "us-west2"; "us-west3"; "us-west4"; "us-phoenix-1";
                  "us-sanjose-1"; "westus"; "westus2"; "westus3"; "westcentralus"] location
  then Ok "north-america-west"
  else if one_of ["eu-west-1"; "eu-west-3"; "eu-central-1"; "europe-west1"; "europe-west3"; "europe-west4";
                  "eu-frankfurt-1"; "eu-paris-1"; "westeurope"] location then Ok "europe-west"
  else if one_of ["ap-southeast-1"; "asia-southeast1"; "asia-southeast2"; "ap-singapore-1"; "southeastasia"]
            location then Ok "asia-southeast"
  else Err ("workflow region " +:+ region +:+ " has no storage-region mapping").

(** Every answer is one of the storage regions, and these map to themselves. *)
Lemma zone_location_canonical region :
  one_of ALL_REGIONS (zone_location region) = true -> zone_location region = region.
Proof.
  unfold zone_location. destruct (rsplit_once "-" region) as [[base zone]|] eqn:E; [|done].
  destruct (_ && _) eqn:Eb; [|done]. bools. intros Ha. exfalso. unfold one_of in *.
  apply existsb_exists in H0 as (x & Hx & <-%String.eqb_eq). apply existsb_exists in Ha as (y & Hy & <-%String.eqb_eq).
  cbn in Hx, Hy. intuition congruence.
Qed.
Lemma storage_region_canonical region r : storage_region region = Ok r -> one_of ALL_REGIONS r = true.
Proof.
  unfold storage_region. destruct (one_of ALL_REGIONS (zone_location region)) eqn:E.
  - intros [= <-]. by rewrite (zone_location_canonical _ E) in E.
  - repeat case_match; intros [= <-]; done.
Qed.
Lemma storage_region_fixed r : one_of ALL_REGIONS r = true -> storage_region r = Ok r.
Proof.
  unfold one_of. intros (x & Hx & <-%String.eqb_eq)%existsb_exists. cbn in Hx.
  repeat (destruct Hx as [<-|Hx]; [reflexivity|]). done.
Qed.
Lemma storage_region_valid region r : storage_region region = Ok r -> validate_region r = Ok ().
Proof.
  intros Hr%storage_region_canonical. unfold one_of in Hr.
  apply existsb_exists in Hr as (x & Hx & ->%String.eqb_eq). cbn in Hx.
  repeat (destruct Hx as [<-|Hx]; [reflexivity|]). done.
Qed.
