(* ===== verification/SparePool.v ===== *)
(** The pool of spare sandboxes: sandbox/pool.rs, sandbox/pool/replenishment.rs,
    sandbox/pool/replica.rs, and the data of sandbox.rs.

    Every control plane works on two tables of one database.  A statement is a
    function of the table; [now] is the database's clock and [locked] the rows
    that other transactions hold (a claim skips them).  What the pool does with
    statements and with the provider of sandboxes is a program over requests. *)

From S2P Require Import Prelude.
From S2P Require Import Actors.
From S2P Require Import StoragePaths.
From S2P Require Import Snapshots.
From S2P Require Import Calls.
From S2P Require Import Deployments.
Local Open Scope string_scope.
Local Open Scope Z_scope.

(** * Data of sandbox.rs *)
Record ResourceLimits := { cpu_millis : Z; memory_mib : Z }.
#[global] Instance ResourceLimits_eq_dec : EqDecision ResourceLimits.
Proof. solve_decision. Defined.
Definition ResourceLimits_default : ResourceLimits := {| cpu_millis := 1000; memory_mib := 1024 |}.

Record SpareHandle := {
  control_route : string;
  control_token : string;
  sh_name : string;
  resource_id : string;
  sh_route : string;
  sh_canonical_region : string }.
#[global] Instance SpareHandle_eq_dec : EqDecision SpareHandle.
Proof. solve_decision. Defined.

Inductive SpareKind := Actor | Replica.
#[global] Instance SpareKind_eq_dec : EqDecision SpareKind.
Proof. solve_decision. Defined.

Record CreateSpareRequest := {
  cs_kind : SpareKind;
  cs_name : string;
  cs_image_ref : string;
  cs_canonical_region : string;
  cs_resources : ResourceLimits }.

Record PoolConfig := {
  pc_kind : SpareKind;
  pc_idle : Z;
  pc_fleet_maximum : Z;
  pc_max_starting : Z;
  pc_idle_ttl_seconds : Z;
  pc_regions : list string;
  pc_resources : ResourceLimits }.

(** * The tables *)
Inductive Status := Starting | Ready | Claimed | Active | Retiring.
#[global] Instance Status_eq_dec : EqDecision Status.
Proof. solve_decision. Defined.

Record Spare := {
  sp_pool_key : string;
  sp_kind : SpareKind;
  sp_status : Status;
  sp_handle : option string;
  sp_host_id : option string;
  sp_host_config_key : option string;
  sp_created_at : Z;
  sp_expires_at : Z }.
#[global] Instance Spare_eq_dec : EqDecision Spare.
Proof. solve_decision. Defined.

Record Backoff := { bo_kind : SpareKind; bo_failures : Z; bo_retry_after : Z }.

Abbreviation Spares := (gmap string Spare) (only parsing).
Record Database := { spares : gmap string Spare; backoffs : gmap string Backoff }.
Definition set_spares (db : Database) (t : gmap string Spare) : Database :=
  {| spares := t; backoffs := backoffs db |}.
Definition set_backoffs (db : Database) (b : gmap string Backoff) : Database :=
  {| spares := spares db; backoffs := b |}.

(** Columns that a statement sets *)
Definition set_status (st : Status) (r : Spare) : Spare :=
  {| sp_pool_key := sp_pool_key r; sp_kind := sp_kind r; sp_status := st; sp_handle := sp_handle r;
     sp_host_id := sp_host_id r; sp_host_config_key := sp_host_config_key r;
     sp_created_at := sp_created_at r; sp_expires_at := sp_expires_at r |}.
Definition set_handle (h : string) (r : Spare) : Spare :=
  {| sp_pool_key := sp_pool_key r; sp_kind := sp_kind r; sp_status := sp_status r; sp_handle := Some h;
     sp_host_id := sp_host_id r; sp_host_config_key := sp_host_config_key r;
     sp_created_at := sp_created_at r; sp_expires_at := sp_expires_at r |}.
Definition set_host (h : string) (config : option string) (r : Spare) : Spare :=
  {| sp_pool_key := sp_pool_key r; sp_kind := sp_kind r; sp_status := sp_status r; sp_handle := sp_handle r;
     sp_host_id := Some h; sp_host_config_key := config;
     sp_created_at := sp_created_at r; sp_expires_at := sp_expires_at r |}.
Definition set_expires (e : Z) (r : Spare) : Spare :=
  {| sp_pool_key := sp_pool_key r; sp_kind := sp_kind r; sp_status := sp_status r; sp_handle := sp_handle r;
     sp_host_id := sp_host_id r; sp_host_config_key := sp_host_config_key r;
     sp_created_at := sp_created_at r; sp_expires_at := e |}.
Definition new_spare (key : string) (kind : SpareKind) (st : Status) (h config : option string)
  (now expires : Z) : Spare :=
  {| sp_pool_key := key; sp_kind := kind; sp_status := st; sp_handle := None; sp_host_id := h;
     sp_host_config_key := config; sp_created_at := now; sp_expires_at := expires |}.

Definition seconds (n : Z) : Z := n * 1000.
Definition hours (n : Z) : Z := n * 3600 * 1000.

(** * Statements *)
Definition Statement (X : Type) : Type := Z -> (string -> bool) -> Database -> Result X * Database.

(** [UPDATE ... SET f WHERE p], and the rows it changed *)
Definition update_where (p : string -> Spare -> bool) (f : Spare -> Spare) (t : gmap string Spare)
  : gmap string Spare :=
  map_imap (fun n r => Some (if p n r then f r else r)) t.
Definition rows_where (p : string -> Spare -> bool) (t : gmap string Spare) : list (string * Spare) :=
  filter (fun nr => p nr.1 nr.2 = true) (map_to_list t).
Definition count_where (p : string -> Spare -> bool) (t : gmap string Spare) : Z :=
  Z.of_nat (length (rows_where p t)).
Definition update (p : string -> Spare -> bool) (f : Spare -> Spare) (db : Database) : Result Z * Database :=
  (Ok (count_where p (spares db)), set_spares db (update_where p f (spares db))).

Definition is_status (st : Status) (r : Spare) : bool := bool_decide (sp_status r = st).
Definition has_host (h : string) (r : Spare) : bool := bool_decide (sp_host_id r = Some h).
Definition has_config (k : string) (r : Spare) : bool := bool_decide (sp_host_config_key r = Some k).
Definition in_pool (key : string) (r : Spare) : bool := String.eqb (sp_pool_key r) key.
Definition of_kind (kind : SpareKind) (r : Spare) : bool := bool_decide (sp_kind r = kind).
Definition live (now : Z) (r : Spare) : bool := now <? sp_expires_at r.

(** The primary key and the unique index on [host_id] *)
Definition host_taken (h : string) (t : gmap string Spare) : bool :=
  negb (is_nil (rows_where (fun _ r => has_host h r) t)).
Definition duplicate_key {X} (db : Database) : Result X * Database :=
  (Err "duplicate key value violates unique constraint", db).

(** [ORDER BY created_at LIMIT 1] *)
Fixpoint oldest (l : list (string * Spare)) : option (string * Spare) :=
  match l with
  | [] => None
  | x :: l' =>
      match oldest l' with
      | Some y => Some (if sp_created_at y.2 <? sp_created_at x.2 then y else x)
      | None => Some x
      end
  end.

(** [PoolStore::publish], its two statements *)
Definition publish_spare (name key handle : string) (ttl : Z) : Statement Z := fun now _ db =>
  update (fun n r => String.eqb n name && in_pool key r && is_status Starting r && live now r)
    (fun r => set_expires (now + seconds ttl) (set_handle handle (set_status Ready r))) db.
Definition reset_backoff (key : string) : Statement unit := fun now _ db =>
  (Ok (), set_backoffs db
            (alter (fun b => {| bo_kind := bo_kind b; bo_failures := 0; bo_retry_after := now |}) key
               (backoffs db))).

(** [PoolStore::claim] and the claim of a replica: the oldest ready spare that is
    not locked.  Both return the handle column. *)
Definition take_ready (wanted : Spare -> bool) (h : string) (config : Spare -> option string)
  : Statement (option (string * option string)) := fun now locked db =>
  match oldest (rows_where (fun n r => wanted r && is_status Ready r && live now r && negb (locked n))
                  (spares db)) with
  | None => (Ok None, db)
  | Some (n, r) =>
      if host_taken h (spares db) then duplicate_key db
      else (Ok (Some (n, sp_handle r)),
            set_spares db (<[n := set_expires (now + seconds 120) (set_host h (config r) (set_status Claimed r))]>
                             (spares db)))
  end.
Definition claim_spare (key h config : string) : Statement (option (string * option string)) :=
  take_ready (in_pool key) h (fun _ => Some config).

Definition reserve_host_row (name h config : string) : Statement unit := fun now _ db =>
  if bool_decide (is_Some (spares db !! name)) || host_taken h (spares db) then duplicate_key db
  else (Ok (), set_spares db (<[name := new_spare "" Actor Claimed (Some h) (Some config) now
                                          (now + seconds 120)]> (spares db))).

Definition host_status (h : string) : Statement (option Status) := fun _ _ db =>
  (Ok (head ((fun nr => sp_status nr.2) <$> rows_where (fun _ r => has_host h r) (spares db))), db).

Definition remember_row (name handle h config : string) : Statement Z := fun now _ db =>
  update (fun n r => String.eqb n name && has_host h r && has_config config r && is_status Claimed r && live now r)
    (fun r => set_expires (sp_created_at r + hours 24) (set_handle handle (set_status Active r))) db.

Definition active_handle (h : string) : Statement (option (option string)) := fun _ _ db =>
  (Ok (head ((fun nr => sp_handle nr.2)
        <$> rows_where (fun _ r => has_host h r && is_status Active r) (spares db))), db).

Definition fail_host (h : string) : Statement Z := fun _ _ db =>
  update (fun _ r => has_host h r) (set_status Retiring) db.

(** Returns the handle columns of the rows. *)
Definition retire_config_rows (config : string) : Statement (list (option string)) := fun _ _ db =>
  let p := fun (_ : string) r => has_config config r in
  (Ok ((fun nr => sp_handle nr.2) <$> rows_where p (spares db)),
   set_spares db (update_where p (set_status Retiring) (spares db))).

Definition delete_retiring (name : string) : Statement unit := fun _ _ db =>
  (Ok (), match spares db !! name with
          | Some r => if is_status Retiring r then set_spares db (delete name (spares db)) else db
          | None => db
          end).

(** [PoolStore::retire_unwanted], its two statements *)
Definition retire_unwanted_rows (keys : list string) (enabled : bool) (kind : SpareKind) : Statement Z :=
  fun now _ db =>
  update (fun _ r =>
      of_kind kind r &&
      ((negb (live now r) && (of_kind Actor r || negb (is_status Active r)))
       || (is_status Ready r && (negb (existsb (String.eqb (sp_pool_key r)) keys) || negb enabled))))
    (set_status Retiring) db.
Definition delete_backoffs (keys : list string) (kind : SpareKind) : Statement unit := fun _ _ db =>
  (Ok (), set_backoffs db
            (filter (fun kb => ~ (bo_kind kb.2 = kind /\ existsb (String.eqb kb.1) keys = false)) (backoffs db))).

Definition retiring_rows (kind : SpareKind) : Statement (list (string * option string)) := fun _ _ db =>
  (Ok ((fun nr => (nr.1, sp_handle nr.2))
         <$> rows_where (fun _ r => is_status Retiring r && of_kind kind r) (spares db)), db).

(** [PoolStore::build_failed]: one statement for both tables *)
Definition build_failed_rows (key name : string) : Statement unit := fun now _ db =>
  match backoffs db !! key with
  | None => (Ok (), db)
  | Some b =>
      (Ok (),
       {| spares := update_where (fun n r => String.eqb n name && is_status Starting r && in_pool key r)
                      (set_status Retiring) (spares db);
          backoffs := <[key := {| bo_kind := bo_kind b; bo_failures := Z.min (bo_failures b + 1) 6;
                                  bo_retry_after := now + seconds (2 ^ Z.min (bo_failures b) 5) |}]>
                        (backoffs db) |})
  end.

(** * The replenishing transaction *)
Definition can_build (key : string) (now : Z) (b : gmap string Backoff) : bool :=
  match b !! key with Some x => bo_retry_after x <=? now | None => true end.

Definition ensure_backoff (key : string) (kind : SpareKind) (now : Z) (b : gmap string Backoff)
  : gmap string Backoff :=
  if bool_decide (is_Some (b !! key)) then b
  else <[key := {| bo_kind := kind; bo_failures := 0; bo_retry_after := now |}]> b.

(** [trim]: the ready rows of the pool beyond [target], longest life first *)
Definition spare_before (a b : string * Spare) : Prop :=
  sp_expires_at b.2 < sp_expires_at a.2 \/
  (sp_expires_at a.2 = sp_expires_at b.2 /\ String.compare a.1 b.1 <> Gt).
#[global] Instance spare_before_dec a b : Decision (spare_before a b).
Proof. unfold spare_before. apply _. Defined.
Definition trimmed (key : string) (target : Z) (t : gmap string Spare) : list string :=
  drop (Z.to_nat target)
    (fst <$> merge_sort spare_before (rows_where (fun _ r => in_pool key r && is_status Ready r) t)).
Definition apply_trim (names : list string) (t : gmap string Spare) : gmap string Spare :=
  update_where (fun n r => is_status Ready r && existsb (String.eqb n) names) (set_status Retiring) t.

(** Rows that count against the limits *)
Definition counted (r : Spare) : bool :=
  is_status Ready r || is_status Starting r
  || (is_status Retiring r && bool_decide (sp_host_id r = None) && bool_decide (is_Some (sp_handle r))).
Definition remaining (limit n : Z) : Z := saturating_sub limit (Z.min n U32_MAX).
Definition capacity (key : string) (config : PoolConfig) (now : Z) (t : gmap string Spare) : Z :=
  let replacement := Z.min (pc_idle_ttl_seconds config / 2) 120 in
  let available := count_where (fun _ r => counted r && in_pool key r && live now r &&
      (is_status Starting r || (is_status Ready r && (now + seconds replacement <? sp_expires_at r)))) t in
  let occupied := count_where (fun _ r => counted r && in_pool key r) t in
  let fleet := count_where (fun _ r => counted r) t in
  let starting := count_where (fun _ r => counted r && is_status Starting r) t in
  Z.min (Z.min (Z.min (remaining (pc_idle config) available)
                      (remaining ((pc_idle config * 2) mod 2 ^ 32) occupied))
               (remaining (pc_fleet_maximum config) fleet))
        (remaining (pc_max_starting config) starting).

(** [reserve]: rows for new spares *)
Definition insert_starting (names : list string) (key : string) (kind : SpareKind) (now : Z)
  (t : gmap string Spare) : Result (gmap string Spare) :=
  if forallb (fun n => negb (bool_decide (is_Some (t !! n)))) names && bool_decide (NoDup names)
  then Ok (foldr (fun n => <[n := new_spare key kind Starting None None now (now + seconds 120)]>) t names)
  else Err "duplicate key value violates unique constraint".

(** * The claim of a replica, in one transaction *)
Inductive Reservation :=
| ReservedReady (name : string) (handle : option string)
| ReservedCreate (name : string)
| ReservedPending.

Definition reserve_replica (key h name : string) : Statement Reservation := fun now locked db =>
  match rows_where (fun _ r => has_host h r && of_kind Replica r) (spares db) with
  | (n, r) :: _ =>
      if is_status Active r || (is_status Claimed r && live now r)
      then (Ok (match sp_handle r with Some t => ReservedReady n (Some t) | None => ReservedPending end), db)
      else (Err "replica spare claim expired or was retired", db)
  | [] =>
      match take_ready (fun r => in_pool key r && of_kind Replica r) h sp_host_config_key now locked db with
      | (Err e, _) => (Err e, db)
      | (Ok (Some (n, t)), db') => (Ok (ReservedReady n t), db')
      | (Ok None, _) =>
          if bool_decide (is_Some (spares db !! name)) || host_taken h (spares db) then duplicate_key db
          else (Ok (ReservedCreate name),
                set_spares db (<[name := new_spare key Replica Claimed (Some h) None now (now + seconds 120)]>
                                 (spares db)))
      end
  end.
Definition activate_replica_row (h : string) : Statement Z := fun now _ db =>
  update (fun _ r => has_host h r && of_kind Replica r && (is_status Claimed r || is_status Active r)
                     && bool_decide (is_Some (sp_handle r)) && live now r)
    (fun r => set_expires (sp_created_at r + hours 24) (set_status Active r)) db.
Definition retire_replica_row (h : string) : Statement (option (string * option string)) := fun _ _ db =>
  let p := fun (_ : string) r => has_host h r && of_kind Replica r in
  (Ok (head ((fun nr => (nr.1, sp_handle nr.2)) <$> rows_where p (spares db))),
   set_spares db (update_where p (set_status Retiring) (spares db))).
Definition save_handle (name h handle : string) : Statement Z := fun now _ db =>
  update (fun n r => String.eqb n name && has_host h r && is_status Claimed r && live now r)
    (set_handle handle) db.

(** * Requests *)
Inductive PEff : Type -> Type :=
(* one statement, or one transaction with a single write *)
| Sql {X : Type} (s : Statement X) : PEff (Result X)
(* the replenishing transaction: lock, backoff and trim; count; insert and commit *)
| TxBegin (key : string) (kind : SpareKind) (idle : Z) : PEff (Result bool)
| TxCapacity (key : string) (config : PoolConfig) : PEff (Result Z)
| TxReserve (key : string) (kind : SpareKind) (names : list string) : PEff (Result unit)
(* the provider of sandboxes, within its time limit *)
| CreateSpare (request : CreateSpareRequest) : PEff (Result SpareHandle)
| RetireSpare (handle : SpareHandle) : PEff (Result unit)
(* the registry of deployments; fresh identifiers *)
| LaunchSpecs : PEff (Result (list HostLaunchSpec))
| FreshUuid : PEff string.

Abbreviation pool_prog := (calls PEff).

Definition PoolKey : Type := SpareKind * string * string * ResourceLimits.

Section pool.
Context `{Base64Url, Sha256, Json HostIdentity, Json SpareHandle, Json PoolKey}.

Definition sql {X} (s : Statement X) : pool_prog X := await_ok (Sql s).
Definition pool_key (config : PoolConfig) (image region : string) : string :=
  to_vec (pc_kind config, image, region, pc_resources config).

(** [row.get::<_, &str>(0)] of a handle column, decoded *)
Definition stored_handle (column : option string) : pool_prog SpareHandle :=
  try (text ← with_context column "error retrieving column: unexpected null"; from_slice text).
Definition decode_handle (name : string) (column : option string) : pool_prog SpareHandle :=
  match column with
  | Some text => try (from_slice text)
  | None => mret {| control_route := ""; control_token := ""; sh_name := name; resource_id := "";
                    sh_route := ""; sh_canonical_region := "" |}
  end.

(** ** Actor hosts *)
Definition pool_claim (config : PoolConfig) (spec : HostLaunchSpec) (region h : string)
  : pool_prog (option SpareHandle) :=
  if bool_decide (code_snapshot spec = None) || negb (is_nil (secret_refs spec)) then mret None
  else
    row ← sql (claim_spare (pool_key config (image_ref spec) region) h (host_config_key spec));
    match row with
    | None => mret None
    | Some (_, column) => handle ← stored_handle column; mret (Some handle)
    end.

Definition reserve_host (ses h config_key : string) : pool_prog unit :=
  sql (reserve_host_row ("do-actor-" +:+ ses) h config_key).

(** The time limit passes after [polls] answers. *)
Fixpoint wait_ready (polls : nat) (h : string) : pool_prog unit :=
  match polls with
  | O => try (Err "actor sandbox readiness timed out")
  | S polls =>
      status ← sql (host_status h);
      match status with
      | Some Active => mret ()
      | Some Claimed => wait_ready polls h
      | _ => try (Err "actor sandbox did not become ready")
      end
  end.

Definition remember (h config_key : string) (spare : SpareHandle) : pool_prog unit :=
  updated ← sql (remember_row (sh_name spare) (to_vec spare) h config_key);
  check_that (updated =? 1) "actor sandbox claim expired or was retired".

Definition pool_host (h : string) : pool_prog (option SpareHandle) :=
  row ← sql (active_handle h);
  match row with
  | None => mret None
  | Some column => handle ← stored_handle column; mret (Some handle)
  end.

Definition failed_host (h : string) : pool_prog unit := sql (fail_host h);; mret ().

(** ** Retirement *)
Definition retire (handle : SpareHandle) : pool_prog unit :=
  await_ok (RetireSpare handle);;
  sql (delete_retiring (sh_name handle)).

(** Every handle is tried; the first error is returned. *)
Definition cleanup (config : PoolConfig) : pool_prog unit :=
  rows ← sql (retiring_rows (pc_kind config));
  handles ← each (fun nc => decode_handle nc.1 nc.2) rows;
  results ← each (fun handle => outcome (retire handle)) handles;
  try (collect id results);; mret ().

Definition retire_config (config : PoolConfig) (config_key : string) : pool_prog (list string) :=
  columns ← sql (retire_config_rows config_key);
  ids ← each (fun column => handle ← try (from_slice column); mret (resource_id handle)) (omap id columns);
  cleanup config;;
  mret ids.

(** ** Building spares *)
Definition create (config : PoolConfig) (image region name : string) : pool_prog SpareHandle :=
  handle ← await_ok (CreateSpare {| cs_kind := pc_kind config; cs_name := name; cs_image_ref := image;
                                    cs_canonical_region := region; cs_resources := pc_resources config |});
  check_that (String.eqb (sh_name handle) name && String.eqb (sh_canonical_region handle) region
              && negb (is_empty (resource_id handle)) && negb (is_empty (sh_route handle))
              && negb (is_empty (control_route handle)) && negb (is_empty (control_token handle)))
    "provider returned an invalid spare";;
  mret handle.

Definition publish (key : string) (handle : SpareHandle) (ttl : Z) : pool_prog bool :=
  updated ← sql (publish_spare (sh_name handle) key (to_vec handle) ttl);
  (if updated =? 1 then sql (reset_backoff key) else mret ());;
  mret (updated =? 1).

Definition build_failed (key name : string) : pool_prog unit := sql (build_failed_rows key name).

Definition build (config : PoolConfig) (key image region name : string) : pool_prog unit :=
  result ← outcome (create config image region name);
  match result with
  | Ok handle =>
      published ← publish key handle (pc_idle_ttl_seconds config);
      if (published : bool) then mret () else await_ok (RetireSpare handle)
  | Err error => build_failed key name;; try (Err error)
  end.

(** ** Replenishing *)
Fixpoint fresh_names (count : nat) : pool_prog (list string) :=
  match count with
  | O => mret []
  | S count =>
      uuid ← await FreshUuid;
      names ← fresh_names count;
      mret (("do-spare-" +:+ uuid) :: names)
  end.

Definition replenish (key : string) (config : PoolConfig) (batch : Z) : pool_prog (list string) :=
  ready ← await_ok (TxBegin key (pc_kind config) (pc_idle config));
  count ← (if (ready : bool) then c ← await_ok (TxCapacity key config); mret (Z.min c batch) else mret 0);
  names ← fresh_names (Z.to_nat count);
  await_ok (TxReserve key (pc_kind config) names);;
  mret names.

Definition retire_unwanted (config : PoolConfig) (keys : list string) (enabled : bool) : pool_prog unit :=
  sql (retire_unwanted_rows keys enabled (pc_kind config));;
  sql (delete_backoffs keys (pc_kind config)).

Record Build := { bd_key : string; bd_image : string; bd_region : string; bd_name : string }.

(** Images of the deployments that can use a spare *)
Definition pool_images (config : PoolConfig) (deployments : list HostLaunchSpec) : list string :=
  set_extend (image_ref <$> filter (fun spec =>
      pc_kind config = Replica \/ (is_Some (code_snapshot spec) /\ secret_refs spec = [])) deployments) [].

Definition replenish_one (config : PoolConfig) (batch : Z) (image region : string) : pool_prog (list Build) :=
  let key := pool_key config image region in
  names ← outcome (replenish key config batch);
  mret (match names with
        | Ok names =>
            (fun n => {| bd_key := key; bd_image := image; bd_region := region; bd_name := n |}) <$> names
        | Err _ => []
        end).

Definition reconcile (config : PoolConfig) : pool_prog (list Build) :=
  deployments ← await_ok LaunchSpecs;
  let images := pool_images config deployments in
  let keys := image ← images; pool_key config image <$> pc_regions config in
  retire_unwanted config keys (0 <? pc_idle config);;
  let batch := Z.max (pc_max_starting config / Z.max (Z.of_nat (length keys)) 1) 1 in
  builds ← each (fun ir => replenish_one config batch ir.1 ir.2)
             (image ← images; (fun region => (image, region)) <$> pc_regions config);
  mret (concat builds).

(** ** Replicas *)
Definition build_claimed (config : PoolConfig) (image region h name : string) : pool_prog SpareHandle :=
  result ← outcome (create config image region name);
  match result with
  | Err error => failed_host h;; try (Err error)
  | Ok handle =>
      saved ← outcome (sql (save_handle name h (to_vec handle)));
      if bool_decide (saved = Ok 1) then mret handle
      else
        await_ok (RetireSpare handle);;
        try saved;;
        try (Err "replica spare claim was retired during startup")
  end.

Fixpoint acquire_loop (polls : nat) (config : PoolConfig) (image region h : string) : pool_prog SpareHandle :=
  match polls with
  | O => try (Err "replica spare acquisition timed out")
  | S polls =>
      uuid ← await FreshUuid;
      reservation ← sql (reserve_replica (pool_key config image region) h ("do-spare-" +:+ uuid));
      match reservation with
      | ReservedReady name column => decode_handle name column
      | ReservedCreate name => build_claimed config image region h name
      | ReservedPending => acquire_loop polls config image region h
      end
  end.
Definition acquire_replica (polls : nat) (config : PoolConfig) (image region h : string)
  : pool_prog SpareHandle :=
  check_that (bool_decide (pc_kind config = Replica)) "replica pool required";;
  acquire_loop polls config image region h.

Definition activate_replica (h : string) : pool_prog unit :=
  updated ← sql (activate_replica_row h);
  check_that (updated =? 1) "replica spare claim expired or was retired".

Definition retire_replica (h : string) : pool_prog unit :=
  row ← sql (retire_replica_row h);
  match row with
  | None => mret ()
  | Some (name, column) =>
      handle ← decode_handle name column;
      await_ok (RetireSpare handle);;
      sql (delete_retiring (sh_name handle))
  end.
End pool.
