(* ===== verification/SparePoolSafety.v ===== *)
(** The pool under any number of control planes.

    The operations of [SparePool] run as concurrent tasks on one database.
    Statements are atomic; a lost connection hides whether one was applied; the
    replenishing transaction holds a lock and its changes are visible when it
    commits; tasks die at any point.  [lifecycle] is the life of a row, which
    every step follows. *)

From S2P Require Import Prelude.
From S2P Require Import Actors.
From S2P Require Import StoragePaths.
From S2P Require Import Snapshots.
From S2P Require Import Calls.
From S2P Require Import Deployments.
From S2P Require Import SparePool.
Local Open Scope string_scope.
Local Open Scope Z_scope.

(** * The life of a row *)
Inductive lifecycle : option Spare -> option Spare -> Prop :=
| lc_same o : lifecycle o o
| lc_reserved r h : sp_status r = Claimed -> sp_host_id r = Some h -> lifecycle None (Some r)
| lc_published r text e : sp_status r = Starting ->
    lifecycle (Some r) (Some (set_expires e (set_handle text (set_status Ready r))))
| lc_claimed r h k e : sp_status r = Ready ->
    lifecycle (Some r) (Some (set_expires e (set_host h k (set_status Claimed r))))
| lc_saved r text : sp_status r = Claimed -> lifecycle (Some r) (Some (set_handle text r))
| lc_remembered r text e : sp_status r = Claimed ->
    lifecycle (Some r) (Some (set_expires e (set_handle text (set_status Active r))))
| lc_activated r e : sp_status r = Claimed \/ sp_status r = Active -> is_Some (sp_handle r) ->
    lifecycle (Some r) (Some (set_expires e (set_status Active r)))
| lc_retired r : lifecycle (Some r) (Some (set_status Retiring r))
| lc_deleted r : sp_status r = Retiring -> lifecycle (Some r) None.

(** A new spare appears only in the transaction that counted it. *)
Inductive lifecycle_or_new : option Spare -> option Spare -> Prop :=
| lcn_old o o' : lifecycle o o' -> lifecycle_or_new o o'
| lcn_new key kind now e : lifecycle_or_new None (Some (new_spare key kind Starting None None now e)).

Record row_ok (r : Spare) : Prop := {
  ro_starting : sp_status r = Starting -> sp_host_id r = None /\ sp_handle r = None;
  ro_ready : sp_status r = Ready -> sp_host_id r = None /\ is_Some (sp_handle r);
  ro_claimed : sp_status r = Claimed -> is_Some (sp_host_id r);
  ro_active : sp_status r = Active -> is_Some (sp_host_id r) /\ is_Some (sp_handle r);
  ro_config : is_Some (sp_host_config_key r) -> is_Some (sp_host_id r) }.
Definition rows_ok (t : gmap string Spare) : Prop := map_Forall (fun _ r => row_ok r) t.
Definition hosts_unique (t : gmap string Spare) : Prop :=
  forall n m r q h, t !! n = Some r -> t !! m = Some q ->
    sp_host_id r = Some h -> sp_host_id q = Some h -> n = m.
Record table_ok (t : gmap string Spare) : Prop := { to_rows : rows_ok t; to_hosts : hosts_unique t }.

#[local] Ltac lc_cases H :=
  inversion H as [|r0 h0 St Hh|r0 x0 e0 St|r0 h0 k0 e0 St|r0 x0 St|r0 x0 e0 St|r0 e0 St Hd|r0|r0 St];
  subst; clear H.

Lemma lifecycle_ok o r' :
  (forall r, o = Some r -> row_ok r) -> lifecycle o (Some r') -> row_ok r'.
Proof.
  intros Ho Hl. lc_cases Hl; try specialize (Ho _ eq_refl) as [Hs Hr Hc Ha Hk]; [by split|..].
  - split; rewrite ?St, ?Hh; eauto; congruence.
  - destruct (Hs St). split; cbn; eauto; done.
  - split; cbn; eauto; done.
  - split; cbn; eauto; congruence.
  - split; cbn; eauto; done.
  - split; cbn; try done. intros _. split; [|done]. destruct St; [by apply Hc|by apply Ha].
  - by split; cbn.
Qed.
Lemma lifecycle_host r r' h : lifecycle (Some r) (Some r') -> row_ok r -> sp_host_id r = Some h ->
  sp_host_id r' = Some h.
Proof.
  intros Hl [_ Hr _ _ _] Hh'. lc_cases Hl; try done. cbn. destruct (Hr St) as [? _]. congruence.
Qed.
(** No step but the creation adds to what is counted. *)
Lemma lifecycle_counted r' o : (forall r, o = Some r -> row_ok r) -> lifecycle o (Some r') ->
  counted r' = true -> exists r, o = Some r /\ counted r = true.
Proof.
  intros Ho Hl. lc_cases Hl; try specialize (Ho _ eq_refl) as [Hs Hr Hc Ha Hk]; [by eauto|..];
    unfold counted, is_status; cbn; try done.
  - by rewrite St.
  - exists r0. by rewrite St.
  - by rewrite St.
  - destruct (sp_status r0) eqn:E; cbn.
    + destruct (Hs eq_refl) as [_ ->]. rewrite andb_false_r. done.
    + intros _. exists r0. by rewrite E.
    + destruct (Hc eq_refl) as [h ->]. done.
    + destruct (Ha eq_refl) as [[h ->] _]. done.
    + intros Hx. exists r0. by rewrite E.
Qed.
Lemma lifecycle_starting r' o : lifecycle o (Some r') -> sp_status r' = Starting -> o = Some r'.
Proof. intros Hl. lc_cases Hl; cbn; try done; congruence. Qed.

Create HintDb pool.

(** * Tables *)
Lemma lookup_update_where p f (t : gmap string Spare) n :
  update_where p f t !! n = (fun r => if p n r then f r else r) <$> t !! n.
Proof. unfold update_where. rewrite map_lookup_imap. by destruct (t !! n). Qed.

Lemma elem_of_rows_where p t n r : (n, r) ∈ rows_where p t <-> t !! n = Some r /\ p n r = true.
Proof. unfold rows_where. rewrite list_elem_of_filter, elem_of_map_to_list. naive_solver. Qed.

Lemma count_where_size p t :
  count_where p t = Z.of_nat (size (filter (fun nr : string * Spare => p nr.1 nr.2 = true) t)).
Proof.
  unfold count_where, rows_where. f_equal.
  rewrite map_filter_alt, <-length_map_to_list.
  rewrite map_to_list_to_map; [done|]. apply NoDup_fmap_fst.
  - intros n r r'. rewrite !list_elem_of_filter, !elem_of_map_to_list. intros [_ ?] [_ ?]. congruence.
  - apply NoDup_filter, NoDup_map_to_list.
Qed.
Lemma count_where_nonneg p t : 0 <= count_where p t.
Proof. unfold count_where. lia. Qed.
Lemma count_where_le p t t' :
  (forall n r', t' !! n = Some r' -> p n r' = true -> exists r, t !! n = Some r /\ p n r = true) ->
  count_where p t' <= count_where p t.
Proof.
  intros Hp. rewrite !count_where_size, <-!size_dom. apply Nat2Z.inj_le, subseteq_size.
  intros n. rewrite !elem_of_dom. intros [r' [Hn Hr]%map_lookup_filter_Some].
  destruct (Hp n r' Hn Hr) as (r & Hr' & Hpr). exists r. by apply map_lookup_filter_Some.
Qed.
Lemma count_where_insert p t n r : t !! n = None ->
  count_where p (<[n := r]> t) = count_where p t + (if p n r then 1 else 0).
Proof.
  intros Hn. rewrite !count_where_size. destruct (p n r) eqn:E.
  - rewrite map_filter_insert_True by done. rewrite map_size_insert_None; [lia|].
    apply map_lookup_filter_None. by left.
  - rewrite map_filter_insert_False by (cbn; congruence). rewrite delete_id by done. lia.
Qed.

Lemma is_nil_true {A} (l : list A) : is_nil l = true <-> l = [].
Proof. by destruct l. Qed.
Lemma host_taken_false h t : host_taken h t = false ->
  forall n r, t !! n = Some r -> sp_host_id r <> Some h.
Proof.
  unfold host_taken. intros Ht n r Hn Hh. apply negb_false_iff, is_nil_true in Ht.
  assert (Hin : (n, r) ∈ rows_where (fun _ r => has_host h r) t).
  { apply elem_of_rows_where. split; [done|]. unfold has_host. by rewrite bool_decide_eq_true. }
  rewrite Ht in Hin. by apply not_elem_of_nil in Hin.
Qed.
Lemma oldest_in l x : oldest l = Some x -> x ∈ l.
Proof.
  revert x. induction l as [|a l IH]; [done|]. intros x. cbn. destruct (oldest l) as [b|] eqn:E.
  - intros [= <-]. destruct (_ <? _); [right; by apply IH|left].
  - intros [= <-]. left.
Qed.

(** * Statements follow the lifecycle *)
Definition table_step (t t' : gmap string Spare) : Prop :=
  (forall n, lifecycle (t !! n) (t' !! n)) /\ table_ok t'.

Lemma table_step_refl t : table_ok t -> table_step t t.
Proof. intros Ht. split; [|done]. intros n. constructor. Qed.
Lemma rows_ok_lookup t n r : rows_ok t -> t !! n = Some r -> row_ok r.
Proof. intros Ht Hn. exact (Ht n r Hn). Qed.
Lemma table_step_rows t t' : rows_ok t -> (forall n, lifecycle (t !! n) (t' !! n)) -> rows_ok t'.
Proof.
  intros Ht Hl n r' Hn. specialize (Hl n). rewrite Hn in Hl. eapply lifecycle_ok; [|exact Hl].
  intros r Hr. by eapply rows_ok_lookup.
Qed.

(** An update that keeps the hosts *)
Lemma update_step p f t :
  table_ok t ->
  (forall n r, t !! n = Some r -> p n r = true ->
     lifecycle (Some r) (Some (f r)) /\ sp_host_id (f r) = sp_host_id r) ->
  table_step t (update_where p f t).
Proof.
  intros [Hr Hh] Hf.
  assert (Hl : forall n, lifecycle (t !! n) (update_where p f t !! n)).
  { intros n. rewrite lookup_update_where. destruct (t !! n) as [r|] eqn:E; cbn; [|constructor].
    destruct (p n r) eqn:Ep; [by eapply Hf|constructor]. }
  split; [exact Hl|]. split; [by eapply table_step_rows|].
  assert (Hhost : forall n r', update_where p f t !! n = Some r' -> exists r, t !! n = Some r /\
            sp_host_id r' = sp_host_id r).
  { intros n r'. rewrite lookup_update_where. destruct (t !! n) as [r|] eqn:E; cbn; [|done].
    intros [= <-]. exists r. split; [done|]. destruct (p n r) eqn:Ep; [by eapply Hf|done]. }
  intros n m r q h Hn Hm Er Eq. destruct (Hhost n r Hn) as (r0 & Hr0 & E0), (Hhost m q Hm) as (q0 & Hq0 & E1).
  apply (Hh n m r0 q0 h); [done|done|congruence|congruence].
Qed.

(** One row gets a host that no row has. *)
Lemma insert_step t n r' h :
  table_ok t -> lifecycle (t !! n) (Some r') -> sp_host_id r' = Some h -> host_taken h t = false ->
  table_step t (<[n := r']> t).
Proof.
  intros [Hr Hh] Hl Eh Hfree.
  assert (Hall : forall m, lifecycle (t !! m) (<[n := r']> t !! m)).
  { intros m. destruct (decide (n = m)) as [<-|Hne]; [by rewrite lookup_insert_eq|].
    rewrite lookup_insert_ne by done. constructor. }
  split; [exact Hall|]. split; [by eapply table_step_rows|].
  pose proof (host_taken_false h t Hfree) as Hno.
  intros a b r q h'. rewrite !lookup_insert_Some.
  intros [[<- <-]|[Ha Hra]] [[<- <-]|[Hb Hqb]] Er Eq; [done| | |].
  - destruct (Hno b q Hqb). congruence.
  - destruct (Hno a r Hra). congruence.
  - by eapply Hh.
Qed.

Definition stmt_ok {X} (s : Statement X) : Prop := forall now locked db r db',
  table_ok (spares db) -> s now locked db = (r, db') -> table_step (spares db) (spares db').

Lemma stmt_read {X} (s : Statement X) : (forall now locked db, (s now locked db).2 = db) -> stmt_ok s.
Proof.
  intros Hs now locked db r db' Ht E. specialize (Hs now locked db). rewrite E in Hs. cbn in Hs. subst.
  by apply table_step_refl.
Qed.
Lemma stmt_update (p : Z -> string -> Spare -> bool) (f : Z -> Spare -> Spare) :
  (forall now n r, p now n r = true -> row_ok r ->
     lifecycle (Some r) (Some (f now r)) /\ sp_host_id (f now r) = sp_host_id r) ->
  stmt_ok (fun now _ db => update (p now) (f now) db).
Proof.
  intros Hf now locked db r db' Ht [= <- <-]. cbn. apply update_step; [done|]. intros n q Hn Hp.
  apply Hf in Hp; [done|]. destruct Ht as [Hr _]. by eapply rows_ok_lookup.
Qed.

#[local] Ltac conds :=
  repeat match goal with
    | H : _ && _ = true |- _ => apply andb_true_iff in H as [? H]
    | H : is_status _ _ = true |- _ => unfold is_status in H; apply bool_decide_eq_true in H
    | H : bool_decide _ = true |- _ => apply bool_decide_eq_true in H
    end.

Lemma publish_spare_ok name key text ttl : stmt_ok (publish_spare name key text ttl).
Proof. apply stmt_update. intros now n r Hp _. conds. split; [by constructor|done]. Qed.
Lemma reset_backoff_ok key : stmt_ok (reset_backoff key).
Proof. intros now locked db r db' Ht [= <- <-]. by apply table_step_refl. Qed.
Lemma delete_backoffs_ok keys kind : stmt_ok (delete_backoffs keys kind).
Proof. intros now locked db r db' Ht [= <- <-]. by apply table_step_refl. Qed.
Lemma take_ready_ok wanted h config : stmt_ok (take_ready wanted h config).
Proof.
  intros now locked db res db' Ht. unfold take_ready. destruct (oldest _) as [[n r]|] eqn:E.
  2: { intros [= <- <-]. by apply table_step_refl. }
  apply oldest_in, elem_of_rows_where in E as [Hn Hp]. conds.
  destruct (host_taken _ _) eqn:Eh; intros [= <- <-]; [by apply table_step_refl|]. cbn.
  eapply insert_step; [done| |reflexivity|done]. rewrite Hn. by constructor.
Qed.
Lemma new_row_step t name key kind h config now e :
  table_ok t -> t !! name = None -> host_taken h t = false ->
  table_step t (<[name := new_spare key kind Claimed (Some h) config now e]> t).
Proof. intros Ht Hn Hh. eapply insert_step; [done| |reflexivity|done]. rewrite Hn. by eapply lc_reserved. Qed.
Lemma absent (t : gmap string Spare) name : bool_decide (is_Some (t !! name)) = false -> t !! name = None.
Proof. intros H%bool_decide_eq_false. by apply eq_None_not_Some. Qed.
Lemma reserve_host_row_ok name h config : stmt_ok (reserve_host_row name h config).
Proof.
  intros now locked db r db' Ht. unfold reserve_host_row. destruct (_ || _) eqn:E; intros [= <- <-].
  - by apply table_step_refl.
  - apply orb_false_iff in E as [En%absent Eh]. by apply new_row_step.
Qed.
Lemma host_status_ok h : stmt_ok (host_status h).
Proof. by apply stmt_read. Qed.
Lemma active_handle_ok h : stmt_ok (active_handle h).
Proof. by apply stmt_read. Qed.
Lemma retiring_rows_ok kind : stmt_ok (retiring_rows kind).
Proof. by apply stmt_read. Qed.
Lemma remember_row_ok name text h config : stmt_ok (remember_row name text h config).
Proof. apply (stmt_update _ (fun _ r => set_expires _ _)). intros now n r Hp _. conds. split; [by constructor|done]. Qed.
Lemma fail_host_ok h : stmt_ok (fail_host h).
Proof. apply (stmt_update (fun _ _ r => has_host h r) (fun _ => set_status Retiring)). split; [constructor|done]. Qed.
Lemma retire_unwanted_rows_ok keys enabled kind : stmt_ok (retire_unwanted_rows keys enabled kind).
Proof. apply (stmt_update _ (fun _ => set_status Retiring)). split; [constructor|done]. Qed.
Lemma save_handle_ok name h text : stmt_ok (save_handle name h text).
Proof. apply (stmt_update _ (fun _ => set_handle text)). intros now n r Hp _. conds. split; [by constructor|done]. Qed.
Lemma activate_replica_row_ok h : stmt_ok (activate_replica_row h).
Proof.
  apply (stmt_update _ (fun _ r => set_expires _ _)). intros now n r Hp _.
  apply andb_true_iff in Hp as [Hp _]. apply andb_true_iff in Hp as [Hp Hhandle%bool_decide_eq_true].
  apply andb_true_iff in Hp as [_ [Hs|Hs]%orb_true_iff]; conds; split; [constructor; [by left|done]|done
    |constructor; [by right|done]|done].
Qed.
Lemma retire_config_rows_ok config : stmt_ok (retire_config_rows config).
Proof.
  intros now locked db r db' Ht [= <- <-]. cbn. apply update_step; [done|]. intros n q _ _.
  split; [constructor|done].
Qed.
Lemma retire_replica_row_ok h : stmt_ok (retire_replica_row h).
Proof.
  intros now locked db r db' Ht [= <- <-]. cbn. apply update_step; [done|]. intros n q _ _.
  split; [constructor|done].
Qed.
Lemma build_failed_rows_ok key name : stmt_ok (build_failed_rows key name).
Proof.
  intros now locked db r db' Ht. unfold build_failed_rows. destruct (backoffs db !! key) as [b|];
    intros [= <- <-]; [|by apply table_step_refl]. cbn. apply update_step; [done|]. intros n q _ _.
  split; [constructor|done].
Qed.
Lemma delete_retiring_ok name : stmt_ok (delete_retiring name).
Proof.
  intros now locked db r db' Ht. unfold delete_retiring. intros [= <- <-].
  destruct (spares db !! name) as [q|] eqn:E; [|by apply table_step_refl].
  destruct (is_status Retiring q) eqn:Es; [|by apply table_step_refl]. conds. cbn. destruct Ht as [Hr Hh]. split.
  - intros n. destruct (decide (name = n)) as [<-|Hne]; [|rewrite lookup_delete_ne by done; constructor].
    rewrite lookup_delete_eq, E. by constructor.
  - split; [by apply map_Forall_delete|]. intros a b ra rb h. rewrite !lookup_delete_Some. intros [_ ?] [_ ?].
    by eapply Hh.
Qed.
Lemma reserve_replica_ok key h name : stmt_ok (reserve_replica key h name).
Proof.
  intros now locked db res db' Ht. unfold reserve_replica. destruct (rows_where _ _) as [|[n r] rows].
  - destruct (take_ready _ _ _ now locked db) as [[[[n t]|]|e] db1] eqn:E.
    + intros [= <- <-]. by eapply take_ready_ok.
    + destruct (_ || _) eqn:Ef; intros [= <- <-]; [by apply table_step_refl|].
      apply orb_false_iff in Ef as [En%absent Eh]. by apply new_row_step.
    + intros [= <- <-]. by apply table_step_refl.
  - destruct (_ || _); intros [= <- <-]; by apply table_step_refl.
Qed.
#[local] Hint Resolve publish_spare_ok reset_backoff_ok delete_backoffs_ok take_ready_ok reserve_host_row_ok
  host_status_ok active_handle_ok retiring_rows_ok remember_row_ok fail_host_ok retire_unwanted_rows_ok
  save_handle_ok activate_replica_row_ok retire_config_rows_ok retire_replica_row_ok build_failed_rows_ok
  delete_retiring_ok reserve_replica_ok : pool.

(** * The replenishing transaction *)
Lemma apply_trim_step names t : table_ok t -> table_step t (apply_trim names t).
Proof. intros Ht. apply update_step; [done|]. intros n r _ _. split; [constructor|done]. Qed.

Lemma apply_trim_lookup_None names t n : t !! n = None -> apply_trim names t !! n = None.
Proof. intros Hn. unfold apply_trim. by rewrite lookup_update_where, Hn. Qed.

Definition is_starting (r : Spare) : bool := counted r && is_status Starting r.

Lemma step_counts t t' : rows_ok t -> (forall n, lifecycle (t !! n) (t' !! n)) ->
  count_where (fun _ r => counted r) t' <= count_where (fun _ r => counted r) t /\
  count_where (fun _ r => is_starting r) t' <= count_where (fun _ r => is_starting r) t.
Proof.
  intros Ht Hl. split; apply count_where_le; intros n r' Hn Hp; specialize (Hl n); rewrite Hn in Hl.
  - eapply lifecycle_counted; [|exact Hl|done]. intros r Hr. by eapply rows_ok_lookup.
  - unfold is_starting in Hp. apply andb_true_iff in Hp as [Hc Hs]. exists r'. split.
    + apply (lifecycle_starting r'); [done|]. by conds.
    + unfold is_starting. by rewrite Hc.
Qed.

Lemma insert_starting_rows names key kind now t t' :
  insert_starting names key kind now t = Ok t' ->
  Forall (fun n => t !! n = None) names /\ NoDup names /\
  t' = foldr (fun n => <[n := new_spare key kind Starting None None now (now + seconds 120)]>) t names.
Proof.
  unfold insert_starting. destruct (_ && _) eqn:E; [|done]. intros [= <-].
  apply andb_true_iff in E as [Ef Hd%bool_decide_eq_true]. split_and!; [|done|done].
  rewrite forallb_forall in Ef. apply Forall_forall. intros n Hn. apply absent, negb_true_iff, Ef.
  by apply list_elem_of_In.
Qed.
Lemma foldr_insert_lookup names (r : Spare) (t : gmap string Spare) n :
  foldr (fun n => <[n := r]>) t names !! n = if bool_decide (n ∈ names) then Some r else t !! n.
Proof.
  induction names as [|m names IH]; cbn; [done|]. destruct (decide (m = n)) as [<-|Hne].
  - rewrite lookup_insert_eq, bool_decide_eq_true_2; [done|left].
  - rewrite lookup_insert_ne, IH by done. apply (f_equal (fun b : bool => if b then _ else _)).
    apply bool_decide_ext. set_solver.
Qed.
Lemma count_where_foldr p (r : Spare) names t :
  Forall (fun n => t !! n = None) names -> NoDup names ->
  count_where p (foldr (fun n => <[n := r]>) t names) <= count_where p t + Z.of_nat (length names).
Proof.
  intros Hf Hd. induction Hd as [|n names Hn Hd IH]; cbn [foldr length]; [lia|].
  apply Forall_cons in Hf as [Hn' Hf]. specialize (IH Hf). rewrite count_where_insert.
  - destruct (p n r); lia.
  - rewrite foldr_insert_lookup. by case_bool_decide.
Qed.
Lemma foldr_insert_ok names key kind now e t :
  table_ok t -> Forall (fun n => t !! n = None) names ->
  table_ok (foldr (fun n => <[n := new_spare key kind Starting None None now e]>) t names).
Proof.
  intros [Hr Hh] Hf. split.
  - intros n r. rewrite foldr_insert_lookup. case_bool_decide; [|by apply Hr]. intros [= <-].
    by split; cbn.
  - intros a b ra rb h. rewrite !foldr_insert_lookup. repeat case_bool_decide; naive_solver.
Qed.

Lemma remaining_spec limit n : 0 <= n <= limit -> limit <= U32_MAX -> n + remaining limit n <= limit.
Proof. unfold remaining, saturating_sub. lia. Qed.
Lemma capacity_spec key config now t :
  count_where (fun _ r => counted r) t <= pc_fleet_maximum config <= U32_MAX ->
  count_where (fun _ r => is_starting r) t <= pc_max_starting config <= U32_MAX ->
  count_where (fun _ r => counted r) t + capacity key config now t <= pc_fleet_maximum config /\
  count_where (fun _ r => is_starting r) t + capacity key config now t <= pc_max_starting config /\
  0 <= capacity key config now t.
Proof.
  intros Hf Hs. unfold capacity.
  pose proof (remaining_spec (pc_fleet_maximum config) (count_where (fun _ r => counted r) t)).
  pose proof (remaining_spec (pc_max_starting config) (count_where (fun _ r => is_starting r) t)).
  pose proof (count_where_nonneg (fun _ r => counted r) t). pose proof (count_where_nonneg (fun _ r => is_starting r) t).
  change (count_where (fun _ r => counted r && is_status Starting r) t)
    with (count_where (fun _ r => is_starting r) t).
  split_and!; [lia|lia|]. unfold remaining, saturating_sub. lia.
Qed.

(** * The system *)
Record Tx := {
  tx_task : nat;
  tx_trimmed : list string;
  (* the capacity that was counted *)
  tx_planned : Z }.

Record Core := {
  co_db : Database;
  co_tx : option Tx;
  (* history: every name that had a row, every pair of a name and its host *)
  co_names : list string;
  co_given : list (string * string) }.
Definition row (c : Core) (n : string) : option Spare := spares (co_db c) !! n.
Definition hosts_of (t : gmap string Spare) : list (string * string) :=
  omap (fun nr => (fun h => (nr.1, h)) <$> sp_host_id nr.2) (map_to_list t).
Definition moved (c : Core) (db : Database) (tx : option Tx) : Core :=
  {| co_db := db; co_tx := tx; co_names := ((map_to_list (spares db)).*1 ++ co_names c)%list;
     co_given := (hosts_of (spares db) ++ co_given c)%list |}.
Definition with_tx (c : Core) (tx : option Tx) : Core :=
  {| co_db := co_db c; co_tx := tx; co_names := co_names c; co_given := co_given c |}.

(** Rows that a transaction has changed cannot be changed by others; names of new
    rows contain fresh identifiers. *)
Definition unblocked (c : Core) (db : Database) : Prop :=
  forall tx n, co_tx c = Some tx -> n ∈ tx_trimmed tx -> spares db !! n = row c n.
Definition fresh_rows (c : Core) (db : Database) : Prop :=
  forall n, row c n = None -> is_Some (spares db !! n) -> n ∉ co_names c.

Definition pexec (i : nat) {X} (e : PEff X) (c : Core) : X -> Core -> Prop :=
  match e in PEff X return X -> Core -> Prop with
  | Sql s => fun x c' =>
      (is_ok x = false /\ c' = c) \/
      exists now locked r db', s now locked (co_db c) = (r, db') /\ unblocked c db' /\ fresh_rows c db' /\
        (x = r \/ is_ok x = false) /\ c' = moved c db' (co_tx c)
  | TxBegin key kind idle => fun x c' =>
      (is_ok x = false /\ c' = c) \/
      (co_tx c = None /\ exists now, x = Ok (can_build key now (backoffs (co_db c))) /\
        c' = with_tx c (Some {| tx_task := i; tx_trimmed := trimmed key idle (spares (co_db c));
                                tx_planned := 0 |}))
  | TxCapacity key config => fun x c' => exists tx, co_tx c = Some tx /\ tx_task tx = i /\
      ((is_ok x = false /\ c' = with_tx c None) \/
       exists now, let n := capacity key config now (apply_trim (tx_trimmed tx) (spares (co_db c))) in
         x = Ok n /\ c' = with_tx c (Some {| tx_task := i; tx_trimmed := tx_trimmed tx; tx_planned := n |}))
  | TxReserve key kind names => fun x c' => exists tx, co_tx c = Some tx /\ tx_task tx = i /\
      ((is_ok x = false /\ c' = with_tx c None) \/
       exists now t, let db := {| spares := t; backoffs := ensure_backoff key kind now (backoffs (co_db c)) |} in
         insert_starting names key kind now (apply_trim (tx_trimmed tx) (spares (co_db c))) = Ok t /\
         fresh_rows c db /\ c' = moved c db None)
  | CreateSpare _ => fun _ c' => c' = c
  | RetireSpare _ => fun _ c' => c' = c
  | LaunchSpecs => fun _ c' => c' = c
  | FreshUuid => fun _ c' => c' = c
  end.

Section system.
(** The limits that all control planes are configured with *)
Context `{Base64Url, Sha256, Json HostIdentity, Json SpareHandle, Json PoolKey}.
Context (fleet_maximum max_starting : Z).
Context (limits_u32 : 0 <= fleet_maximum <= U32_MAX /\ 0 <= max_starting <= U32_MAX).

Definition configured (config : PoolConfig) : Prop :=
  pc_fleet_maximum config = fleet_maximum /\ pc_max_starting config = max_starting.

(** What control planes start *)
Inductive pool_task : pool_prog unit -> Prop :=
| task_reconcile config : configured config -> pool_task (reconcile config;; mret ())
| task_build config key image region name : pool_task (build config key image region name)
| task_cleanup config : pool_task (cleanup config)
| task_claim config spec region h : pool_task (pool_claim config spec region h;; mret ())
| task_reserve ses h key : pool_task (reserve_host ses h key)
| task_wait polls h : pool_task (wait_ready polls h)
| task_remember h key spare : pool_task (remember h key spare)
| task_host h : pool_task (pool_host h;; mret ())
| task_failed h : pool_task (failed_host h)
| task_retire_config config key : pool_task (retire_config config key;; mret ())
| task_acquire polls config image region h : pool_task (acquire_replica polls config image region h;; mret ())
| task_activate h : pool_task (activate_replica h)
| task_retire_replica h : pool_task (retire_replica h).

Record PoolSystem := { sy_core : Core; sy_tasks : list (pool_prog unit) }.
Definition rollback (i : nat) (c : Core) : Core :=
  match co_tx c with
  | Some tx => if bool_decide (tx_task tx = i) then with_tx c None else c
  | None => c
  end.

Inductive pool_step : PoolSystem -> PoolSystem -> Prop :=
| step_start c ts p : pool_task p ->
    pool_step {| sy_core := c; sy_tasks := ts |} {| sy_core := c; sy_tasks := ts ++ [p] |}
| step_move c ts i X (e : PEff X) k x c' : ts !! i = Some (CVis e k) -> pexec i e c x c' ->
    pool_step {| sy_core := c; sy_tasks := ts |} {| sy_core := c'; sy_tasks := <[i := k x]> ts |}
| step_crash c ts i : is_Some (ts !! i) ->
    pool_step {| sy_core := c; sy_tasks := ts |}
      {| sy_core := rollback i c; sy_tasks := <[i := CRet (Err "stopped")]> ts |}.

Definition pool_start : PoolSystem :=
  {| sy_core := {| co_db := {| spares := ∅; backoffs := ∅ |}; co_tx := None; co_names := []; co_given := [] |};
     sy_tasks := [] |}.
Inductive pool_reachable : PoolSystem -> Prop :=
| pool_starts : pool_reachable pool_start
| pool_steps s s' : pool_reachable s -> pool_step s s' -> pool_reachable s'.

(** * What a task may do with the transaction it holds *)
Definition held_by (i : nat) (c : Core) : option Z :=
  tx ← co_tx c; if bool_decide (tx_task tx = i) then Some (tx_planned tx) else None.
Definition planned (c : Core) : Z := from_option tx_planned 0 (co_tx c).

Definition after (held : option Z) {X} (e : PEff X) : X -> option Z :=
  match e in PEff X return X -> option Z with
  | TxBegin _ _ _ => fun x => if is_ok x then Some 0 else held
  | TxCapacity _ _ => fun x => match x with Ok n => Some n | Err _ => None end
  | TxReserve _ _ _ => fun _ => None
  | _ => fun _ => held
  end.
Definition allowed (held : option Z) {X} (e : PEff X) : Prop :=
  match e with
  | Sql s => stmt_ok s
  | TxBegin _ _ _ => held = None
  | TxCapacity _ config => configured config
  | TxReserve _ _ names => exists n, held = Some n /\ Z.of_nat (length names) <= Z.max n 0
  | _ => True
  end.

Fixpoint obeys {A} (held : option Z) (p : pool_prog A) (Q : option Z -> Result A -> Prop) : Prop :=
  match p with
  | CRet r => Q held r
  | CVis e k => allowed held e /\ forall x, obeys (after held e x) (k x) Q
  end.

Lemma obeys_mono {A} (p : pool_prog A) held (Q Q' : option Z -> Result A -> Prop) :
  (forall h r, Q h r -> Q' h r) -> obeys held p Q -> obeys held p Q'.
Proof. intros HQ. revert held. induction p as [r|X e k IH]; intros held; cbn; [auto|]. intros []. eauto. Qed.
Lemma obeys_bind {A B} (p : pool_prog A) (f : A -> pool_prog B) held Q :
  obeys held p (fun h r => match r with Ok a => obeys h (f a) Q | Err e => Q h (Err e) end) ->
  obeys held (p ≫= f) Q.
Proof. revert held. induction p as [[a|e]|X e k IH]; intros held; cbn; [done|done|]. intros []. eauto. Qed.
Lemma obeys_outcome {A} (p : pool_prog A) held Q :
  obeys held p (fun h r => Q h (Ok r)) -> obeys held (outcome p) Q.
Proof. revert held. induction p as [r|X e k IH]; intros held; cbn; [done|]. intros []. eauto. Qed.

(** Programs that only use statements and the provider *)
Definition quiet (X : Type) (e : PEff X) : Prop :=
  match e with
  | Sql s => stmt_ok s
  | TxBegin _ _ _ | TxCapacity _ _ | TxReserve _ _ _ => False
  | _ => True
  end.
Lemma quiet_obeys {A} (p : pool_prog A) held : all_calls quiet p -> obeys held p (fun h _ => h = held).
Proof.
  induction p as [r|X e k IH]; cbn; [done|]. intros [He Hk]. split.
  - by destruct e.
  - intros x. assert (after held e x = held) as -> by (by destruct e). auto.
Qed.

Lemma sql_quiet {X} (s : Statement X) : stmt_ok s -> all_calls quiet (sql s).
Proof. intros Hs. by split. Qed.
#[local] Hint Resolve sql_quiet : pool.
Lemma claim_spare_ok key h config : stmt_ok (claim_spare key h config).
Proof. apply take_ready_ok. Qed.
#[local] Hint Resolve claim_spare_ok : pool.
#[local] Hint Extern 1 (all_calls quiet (CRet _)) => exact I : pool.
#[local] Hint Extern 1 (all_calls quiet (try _)) => exact I : pool.
#[local] Hint Extern 1 (all_calls quiet (check_that _ _)) => exact I : pool.
#[local] Hint Extern 1 (all_calls quiet (mret _)) => exact I : pool.
#[local] Hint Extern 1 (all_calls quiet (await _)) => (split; [exact I|intros; exact I]) : pool.
#[local] Hint Extern 1 (all_calls quiet (await_ok _)) => (split; [exact I|intros; exact I]) : pool.

(** Every branch of a program uses requests that [pool] knows. *)
#[local] Ltac quiet :=
  repeat first
    [ progress auto with pool
    | apply all_calls_bind
    | apply all_calls_outcome
    | apply all_calls_each
    | progress intros
    | case_match ].

Lemma decode_handle_quiet name column : all_calls quiet (decode_handle name column).
Proof. unfold decode_handle. quiet. Qed.
#[local] Hint Resolve decode_handle_quiet : pool.
Lemma stored_handle_quiet column : all_calls quiet (stored_handle column).
Proof. unfold stored_handle. quiet. Qed.
#[local] Hint Resolve stored_handle_quiet : pool.
Lemma pool_claim_quiet config spec region h : all_calls quiet (pool_claim config spec region h).
Proof. unfold pool_claim. quiet. Qed.
Lemma wait_ready_quiet polls h : all_calls quiet (wait_ready polls h).
Proof. induction polls as [|polls IH]; cbn [wait_ready]; quiet. Qed.
Lemma retire_quiet handle : all_calls quiet (retire handle).
Proof. unfold retire. quiet. Qed.
#[local] Hint Resolve retire_quiet : pool.
Lemma cleanup_quiet config : all_calls quiet (cleanup config).
Proof. unfold cleanup. quiet. Qed.
#[local] Hint Resolve cleanup_quiet : pool.
Lemma retire_config_quiet config key : all_calls quiet (retire_config config key).
Proof. unfold retire_config. quiet. Qed.
Lemma create_quiet config image region name : all_calls quiet (create config image region name).
Proof. unfold create. quiet. Qed.
#[local] Hint Resolve create_quiet : pool.
Lemma build_quiet config key image region name : all_calls quiet (build config key image region name).
Proof. unfold build, publish, build_failed. quiet. Qed.
Lemma failed_host_quiet h : all_calls quiet (failed_host h).
Proof. unfold failed_host. quiet. Qed.
#[local] Hint Resolve failed_host_quiet : pool.
Lemma build_claimed_quiet config image region h name :
  all_calls quiet (build_claimed config image region h name).
Proof. unfold build_claimed. quiet. Qed.
#[local] Hint Resolve build_claimed_quiet : pool.
Lemma acquire_loop_quiet polls config image region h :
  all_calls quiet (acquire_loop polls config image region h).
Proof. induction polls as [|polls IH]; cbn [acquire_loop]; quiet. Qed.
#[local] Hint Resolve acquire_loop_quiet wait_ready_quiet pool_claim_quiet retire_config_quiet build_quiet : pool.

Lemma fresh_names_obeys count held :
  obeys held (fresh_names count)
    (fun h r => h = held /\ exists names, r = Ok names /\ length names = count).
Proof.
  induction count as [|count IH]; cbn [fresh_names]; [by split; [|exists []]|].
  cbn [mbind calls_bind await]. split; [done|]. intros uuid. apply obeys_bind.
  eapply obeys_mono; [|exact IH]. intros h r (-> & names & -> & <-). split; [done|]. by eexists.
Qed.
Lemma replenish_obeys key config batch : configured config ->
  obeys None (replenish key config batch) (fun h _ => h = None).
Proof.
  intros Hc. unfold replenish. cbn [mbind calls_bind await_ok]. split; [done|]. intros [ready|e]; [|done].
  cbn [is_ok after]. apply obeys_bind.
  assert (Hcount : obeys (Some 0)
    (if ready then c ← await_ok (TxCapacity key config); mret (Z.min c batch) else mret 0)
    (fun h r => match r with Ok n => exists m, h = Some m /\ n <= Z.max m 0 | Err _ => h = None end)).
  { destruct ready; [|by exists 0; split; [done|lia]]. cbn. split; [done|]. intros [n|e]; [|done].
    exists n. split; [done|lia]. }
  eapply obeys_mono; [|exact Hcount]. intros h [count|e]; [|done]. intros (m & -> & Hm). apply obeys_bind.
  eapply obeys_mono; [|apply fresh_names_obeys]. intros h r (-> & names & -> & Hlen).
  cbn [mbind calls_bind await_ok]. split; [|by intros [[]|e]].
  exists m. split; [done|]. rewrite Hlen. lia.
Qed.
Lemma each_obeys {A B} (f : A -> pool_prog B) l :
  (forall a, obeys None (f a) (fun h _ => h = None)) -> obeys None (each f l) (fun h _ => h = None).
Proof.
  intros Hf. induction l as [|a l IH]; cbn [each]; [done|]. apply obeys_bind.
  eapply obeys_mono; [|apply Hf]. intros h [b|e] ->; [|done]. apply obeys_bind.
  eapply obeys_mono; [|exact IH]. by intros h [bs|e] ->.
Qed.
Lemma reconcile_obeys config : configured config -> obeys None (reconcile config) (fun h _ => h = None).
Proof.
  intros Hc. unfold reconcile. apply obeys_bind. eapply obeys_mono; [|apply quiet_obeys; by auto with pool].
  intros h [deployments|e] ->; [|done]. apply obeys_bind.
  eapply obeys_mono; [|apply quiet_obeys; unfold retire_unwanted; quiet]. intros h [[]|e] ->; [|done].
  apply obeys_bind. eapply obeys_mono; [|apply each_obeys].
  - by intros h [builds|e] ->.
  - intros [image region]. unfold replenish_one. apply obeys_bind, obeys_outcome.
    eapply obeys_mono; [|by apply replenish_obeys]. by intros h r ->.
Qed.

Lemma pool_task_obeys p : pool_task p -> obeys None p (fun _ _ => True).
Proof.
  intros Hp. destruct Hp.
  1: { apply obeys_bind. eapply obeys_mono; [|by apply reconcile_obeys]. by intros h [builds|e] ->. }
  all: eapply obeys_mono; [|apply quiet_obeys]; [done|].
  all: unfold reserve_host, remember, pool_host, acquire_replica, activate_replica, retire_replica; quiet.
Qed.

(** * The invariant *)
Record core_inv (c : Core) : Prop := {
  ci_table : table_ok (spares (co_db c));
  ci_names : forall n, is_Some (row c n) -> n ∈ co_names c;
  ci_given : forall n h, (n, h) ∈ co_given c -> n ∈ co_names c /\
    forall r, row c n = Some r -> sp_host_id r = Some h;
  ci_once : forall n h h', (n, h) ∈ co_given c -> (n, h') ∈ co_given c -> h = h';
  ci_planned : 0 <= planned c;
  ci_fleet : count_where (fun _ r => counted r) (spares (co_db c)) + planned c <= fleet_maximum;
  ci_starting : count_where (fun _ r => is_starting r) (spares (co_db c)) + planned c <= max_starting }.

Definition rows_step (c c' : Core) : Prop := forall n, lifecycle_or_new (row c n) (row c' n).

Lemma elem_of_hosts_of t n h : (n, h) ∈ hosts_of t <-> exists r, t !! n = Some r /\ sp_host_id r = Some h.
Proof.
  unfold hosts_of. rewrite list_elem_of_omap. split.
  - intros ([m r] & Hin%elem_of_map_to_list & E). cbn in E. destruct (sp_host_id r) as [h'|] eqn:Eh; [|done].
    injection E as -> ->. eauto.
  - intros (r & Hn & Hh). exists (n, r). rewrite elem_of_map_to_list. cbn. by rewrite Hh.
Qed.
Lemma elem_of_names t n : n ∈ (map_to_list t).*1 <-> is_Some ((t : gmap string Spare) !! n).
Proof.
  rewrite list_elem_of_fmap. split.
  - intros ([m r] & -> & Hin%elem_of_map_to_list). eauto.
  - intros [r Hr]. exists (n, r). by rewrite elem_of_map_to_list.
Qed.

(** The histories stay consistent when the table moves along the lifecycle. *)
Lemma moved_inv c db tx :
  core_inv c -> table_ok (spares db) -> (forall n, lifecycle_or_new (row c n) (spares db !! n)) ->
  fresh_rows c db -> 0 <= from_option tx_planned 0 tx ->
  count_where (fun _ r => counted r) (spares db) + from_option tx_planned 0 tx <= fleet_maximum ->
  count_where (fun _ r => is_starting r) (spares db) + from_option tx_planned 0 tx <= max_starting ->
  core_inv (moved c db tx).
Proof.
  intros Hi Ht Hl Hf Hp Hm Hs.
  assert (Hkeep : forall n h r, (n, h) ∈ co_given c -> spares db !! n = Some r -> sp_host_id r = Some h).
  { intros n h r Hg Hr. destruct (ci_given _ Hi n h Hg) as [Hn Hrow]. destruct (row c n) as [q|] eqn:Eq.
    - specialize (Hl n). rewrite Eq, Hr in Hl. inversion Hl as [? ? Hlc|]; subst.
      eapply lifecycle_host; [exact Hlc| |by apply Hrow]. eapply rows_ok_lookup; [apply Hi|exact Eq].
    - destruct (Hf n Eq); [by eauto|done]. }
  split; cbn; [done| | | |done|done|done].
  - intros n Hn. apply elem_of_app. left. by apply elem_of_names.
  - intros n h [(r & Hr & Hh)%elem_of_hosts_of|Hg]%elem_of_app.
    + split; [apply elem_of_app; left; apply elem_of_names; eauto|]. intros q Hq. unfold row in Hq. cbn in Hq. congruence.
    + split; [apply elem_of_app; right; by apply (ci_given _ Hi n h)|]. intros r Hr. by eapply Hkeep.
  - intros n h h' [(r & Hr & Hh)%elem_of_hosts_of|Hg]%elem_of_app [(q & Hq & Hh')%elem_of_hosts_of|Hg']%elem_of_app.
    + congruence.
    + pose proof (Hkeep _ _ _ Hg' Hr). congruence.
    + pose proof (Hkeep _ _ _ Hg Hq). congruence.
    + by eapply (ci_once _ Hi).
Qed.

Lemma rows_step_refl c : rows_step c c.
Proof. intros n. apply lcn_old. constructor. Qed.
Lemma with_tx_inv c tx : core_inv c -> 0 <= from_option tx_planned 0 tx ->
  count_where (fun _ r => counted r) (spares (co_db c)) + from_option tx_planned 0 tx <= fleet_maximum ->
  count_where (fun _ r => is_starting r) (spares (co_db c)) + from_option tx_planned 0 tx <= max_starting ->
  core_inv (with_tx c tx).
Proof. intros [? ? ? ? ? ? ?] Hp Hf Hs. by split. Qed.
Lemma without_tx_inv c : core_inv c -> core_inv (with_tx c None).
Proof.
  intros Hi. apply with_tx_inv; [done|done| |]; cbn; [pose proof (ci_fleet _ Hi)|pose proof (ci_starting _ Hi)];
    pose proof (ci_planned _ Hi); lia.
Qed.

Lemma sql_step {X} (s : Statement X) c now locked r db :
  core_inv c -> stmt_ok s -> s now locked (co_db c) = (r, db) -> fresh_rows c db ->
  core_inv (moved c db (co_tx c)) /\ rows_step c (moved c db (co_tx c)).
Proof.
  intros Hi Hs E Hf. destruct (Hs _ _ _ _ _ (ci_table _ Hi) E) as [Hl Ht].
  assert (Hn : forall n, lifecycle_or_new (row c n) (spares db !! n)) by (intros n; apply lcn_old, Hl).
  destruct (step_counts _ _ (to_rows _ (ci_table _ Hi)) Hl) as [Hc1 Hc2].
  split; [|exact Hn]. apply moved_inv; [done|done|done|done|apply Hi|..]; fold (planned c).
  - pose proof (ci_fleet _ Hi). lia.
  - pose proof (ci_starting _ Hi). lia.
Qed.

Lemma reserve_step c tx key kind names now t :
  core_inv c -> co_tx c = Some tx -> Z.of_nat (length names) <= Z.max (tx_planned tx) 0 ->
  insert_starting names key kind now (apply_trim (tx_trimmed tx) (spares (co_db c))) = Ok t ->
  let db := {| spares := t; backoffs := ensure_backoff key kind now (backoffs (co_db c)) |} in
  fresh_rows c db -> core_inv (moved c db None) /\ rows_step c (moved c db None).
Proof.
  intros Hi Etx Hlen E db Hf. apply insert_starting_rows in E as (Hnone & Hd & Et).
  destruct (apply_trim_step (tx_trimmed tx) _ (ci_table _ Hi)) as [Hl Ht].
  destruct (step_counts _ _ (to_rows _ (ci_table _ Hi)) Hl) as [Hc1 Hc2].
  assert (Hn : forall n, lifecycle_or_new (row c n) (t !! n)).
  { intros n. rewrite Et, foldr_insert_lookup. case_bool_decide as Hin.
    - rewrite Forall_forall in Hnone. specialize (Hnone n Hin). specialize (Hl n).
      rewrite Hnone in Hl. unfold row. destruct (spares (co_db c) !! n) eqn:En; [|apply lcn_new].
      unfold apply_trim in Hnone. rewrite lookup_update_where, En in Hnone. done.
    - apply lcn_old, Hl. }
  pose proof (ci_planned _ Hi) as Hp. pose proof (ci_fleet _ Hi) as Hm. pose proof (ci_starting _ Hi) as Hs.
  unfold planned in *. rewrite Etx in *. cbn in Hp, Hm, Hs.
  pose proof (count_where_foldr (fun _ r => counted r) (new_spare key kind Starting None None now (now + seconds 120))
                names _ Hnone Hd).
  pose proof (count_where_foldr (fun _ r => is_starting r) (new_spare key kind Starting None None now (now + seconds 120))
                names _ Hnone Hd).
  split; [|exact Hn]. apply moved_inv; [done| |exact Hn|done|done|..]; cbn; rewrite ?Et.
  - by apply foldr_insert_ok.
  - lia.
  - lia.
Qed.

(** Trimmed rows still count. *)
Lemma apply_trim_counts names t : rows_ok t ->
  count_where (fun _ r => counted r) t <= count_where (fun _ r => counted r) (apply_trim names t) /\
  count_where (fun _ r => is_starting r) t <= count_where (fun _ r => is_starting r) (apply_trim names t).
Proof.
  intros Ht. split; apply count_where_le; intros n r Hn Hp; unfold apply_trim; rewrite lookup_update_where, Hn; cbn;
    (eexists; split; [reflexivity|]); destruct (_ && _) eqn:E; try done; conds;
    pose proof (rows_ok_lookup _ _ _ Ht Hn) as [_ Hr _ _ _].
  - destruct (Hr ltac:(assumption)) as [Eh Et]. unfold counted, is_status. cbn. rewrite Eh.
    by rewrite (bool_decide_eq_true_2 (is_Some (sp_handle r))).
  - unfold is_starting, is_status in Hp. apply andb_true_iff in Hp as [_ Hp%bool_decide_eq_true]. congruence.
Qed.
Lemma capacity_step c tx key config now :
  core_inv c -> co_tx c = Some tx -> configured config ->
  let n := capacity key config now (apply_trim (tx_trimmed tx) (spares (co_db c))) in
  core_inv (with_tx c (Some {| tx_task := tx_task tx; tx_trimmed := tx_trimmed tx; tx_planned := n |})).
Proof.
  intros Hi Etx [Ef Es] n.
  destruct (apply_trim_step (tx_trimmed tx) _ (ci_table _ Hi)) as [Hl _].
  destruct (step_counts _ _ (to_rows _ (ci_table _ Hi)) Hl) as [Hc1 Hc2].
  destruct (apply_trim_counts (tx_trimmed tx) _ (to_rows _ (ci_table _ Hi))) as [Hc3 Hc4].
  pose proof (ci_planned _ Hi) as Hp. pose proof (ci_fleet _ Hi) as Hm. pose proof (ci_starting _ Hi) as Hs.
  destruct (capacity_spec key config now (apply_trim (tx_trimmed tx) (spares (co_db c)))) as (Hf & Hst & Hpos);
    [lia|lia|]. fold n in Hf, Hst, Hpos. apply with_tx_inv; [done|exact Hpos|cbn; lia|cbn; lia].
Qed.

(** Other tasks see the transaction of a task only as taken. *)
Definition others_kept (i : nat) (c c' : Core) : Prop :=
  (forall j, j <> i -> held_by j c' = held_by j c) /\
  (forall tx, co_tx c' = Some tx -> tx_task tx = i \/ co_tx c = Some tx).

Lemma held_by_own i c tx : co_tx c = Some tx -> tx_task tx = i -> held_by i c = Some (tx_planned tx).
Proof. intros Hc <-. unfold held_by. rewrite Hc. cbn. by rewrite bool_decide_eq_true_2. Qed.
Lemma held_by_other j c tx : co_tx c = Some tx -> tx_task tx <> j -> held_by j c = None.
Proof. intros Hc Hj. unfold held_by. rewrite Hc. cbn. by rewrite bool_decide_eq_false_2. Qed.
Lemma held_by_none j c : co_tx c = None -> held_by j c = None.
Proof. intros Hc. unfold held_by. by rewrite Hc. Qed.

Lemma pexec_step i {X} (e : PEff X) c x c' :
  core_inv c -> allowed (held_by i c) e -> pexec i e c x c' ->
  core_inv c' /\ rows_step c c' /\ held_by i c' = after (held_by i c) e x /\ others_kept i c c'.
Proof.
  intros Hi Ha He.
  assert (Hrefl : core_inv c /\ rows_step c c /\ held_by i c = held_by i c /\ others_kept i c c).
  { split_and!; [done|exact (rows_step_refl c)|done|split; [done|auto]]. }
  assert (Hdrop : forall tx, co_tx c = Some tx -> tx_task tx = i ->
    core_inv (with_tx c None) /\ rows_step c (with_tx c None) /\ held_by i (with_tx c None) = None /\
    others_kept i c (with_tx c None)).
  { intros tx Etx Ei. split_and!; [by apply without_tx_inv|exact (rows_step_refl c)|done|]. split; [|done].
    intros j Hj. rewrite (held_by_other j c tx); [done|done|congruence]. }
  destruct e as [X s|key kind idle|key config|key kind names|req|handle| |]; cbn in He, Ha.
  - destruct He as [[Hx ->]|(now & locked & r & db & E & _ & Hf & _ & ->)]; [exact Hrefl|].
    destruct (sql_step s c now locked r db Hi Ha E Hf) as [? ?]. split_and!; [done|done|done|]. split; auto.
  - destruct He as [[Hx ->]|(Hnone & now & -> & ->)]; cbn [after is_ok]; [by rewrite Hx|].
    split_and!; [|exact (rows_step_refl c)|by unfold held_by; cbn; rewrite bool_decide_eq_true_2|].
    + pose proof (ci_fleet _ Hi). pose proof (ci_starting _ Hi). unfold planned in *. rewrite Hnone in *.
      by apply with_tx_inv.
    + split.
      * intros j Hj. rewrite (held_by_none j c Hnone). by eapply held_by_other.
      * intros tx [= <-]. by left.
  - destruct He as (tx & Etx & Ei & [[Hx ->]|(now & -> & ->)]).
    + destruct x; [done|]. by eapply Hdrop.
    + subst i. split_and!; [by apply capacity_step|exact (rows_step_refl c)|by unfold held_by; cbn; rewrite bool_decide_eq_true_2|].
      split.
      * intros j Hj. rewrite (held_by_other j c tx) by done. by eapply held_by_other.
      * intros tx' [= <-]. by left.
  - destruct He as (tx & Etx & Ei & [[Hx ->]|(now & t & E & Hf & ->)]); [by eapply Hdrop|].
    destruct Ha as (n & En & Hlen). rewrite (held_by_own i c tx Etx Ei) in En. injection En as <-.
    destruct (reserve_step c tx key kind names now t Hi Etx Hlen E Hf) as [? ?].
    split_and!; [done|done|done|]. split; [|done].
    intros j Hj. rewrite (held_by_other j c tx); [done|done|congruence].
  - by subst.
  - by subst.
  - by subst.
  - by subst.
Qed.

Record pool_inv (s : PoolSystem) : Prop := {
  pi_core : core_inv (sy_core s);
  pi_owner : forall tx, co_tx (sy_core s) = Some tx -> (tx_task tx < length (sy_tasks s))%nat;
  pi_tasks : forall i p, sy_tasks s !! i = Some p -> obeys (held_by i (sy_core s)) p (fun _ _ => True) }.

Lemma pool_step_inv s s' : pool_inv s -> pool_step s s' ->
  pool_inv s' /\ rows_step (sy_core s) (sy_core s').
Proof.
  intros [Hc Ho Ht] Hs. destruct Hs as [c ts p Hp|c ts i X e k x c' Hi He|c ts i Hi]; cbn in *.
  - split; [|exact (rows_step_refl c)]. split; cbn; [done| |].
    + intros tx Htx. rewrite length_app. specialize (Ho tx Htx). cbn. lia.
    + intros j q. rewrite lookup_app_Some, list_lookup_singleton_Some. intros [?|(Hj & Hz & <-)]; [by apply Ht|].
      assert (Hn : held_by j c = None).
      { destruct (co_tx c) as [tx|] eqn:E; [|by apply held_by_none]. eapply held_by_other; [done|].
        specialize (Ho tx eq_refl). lia. }
      rewrite Hn. by apply pool_task_obeys.
  - destruct (Ht i _ Hi) as [Ha Hk]. destruct (pexec_step i e c x c' Hc Ha He) as (Hc' & Hr & Eh & Hj & Htx).
    split; [|done]. split; cbn; [done| |].
    + intros tx Etx. rewrite length_insert. destruct (Htx tx Etx) as [<-|?]; [|by apply Ho].
      by eapply lookup_lt_Some.
    + intros j q Hq. destruct (decide (j = i)) as [->|Hne].
      * rewrite list_lookup_insert_eq in Hq by (by eapply lookup_lt_Some). injection Hq as <-. rewrite Eh. apply Hk.
      * rewrite list_lookup_insert_ne in Hq by done. rewrite Hj by done. by apply Ht.
  - assert (Hcases : rollback i c = c \/ (rollback i c = with_tx c None /\
      exists tx, co_tx c = Some tx /\ tx_task tx = i)).
    { unfold rollback. destruct (co_tx c) as [tx|]; [|by left]. case_bool_decide; [right; eauto|by left]. }
    assert (Hro : core_inv (rollback i c) /\ rows_step c (rollback i c)).
    { destruct Hcases as [->|[-> _]]; (split; [by try apply without_tx_inv|exact (rows_step_refl c)]). }
    split; [|apply Hro]. split; cbn; [apply Hro| |].
    + intros tx Etx. rewrite length_insert. apply Ho. by destruct Hcases as [E|[E _]]; rewrite E in Etx.
    + intros j q Hq. destruct (decide (j = i)) as [->|Hne].
      * destruct Hi as [p0 Hi]. rewrite list_lookup_insert_eq in Hq by (by eapply lookup_lt_Some).
        by injection Hq as <-.
      * rewrite list_lookup_insert_ne in Hq by done. specialize (Ht j q Hq).
        destruct Hcases as [->|[-> (tx & Etx & Ei)]]; [done|].
        rewrite (held_by_other j c tx) in Ht by (done || congruence). done.
Qed.

Lemma pool_reachable_inv s : pool_reachable s -> pool_inv s.
Proof.
  induction 1 as [|s s' _ IH Hs]; [|by apply (pool_step_inv s)].
  split; cbn; [|done|done]. split; cbn.
  - split; [apply map_Forall_empty|]. by intros n m r q h ?%lookup_empty_Some.
  - intros n [r Hr]. unfold row in Hr. cbn in Hr. by apply lookup_empty_Some in Hr.
  - by intros n h ?%not_elem_of_nil.
  - by intros n h h' ?%not_elem_of_nil.
  - done.
  - apply limits_u32.
  - apply limits_u32.
Qed.

(** C10: a sandbox serves one host.  Whatever control planes do at once, lose and
    crash, if the sandbox [n] was ever assigned to [h] and ever to [h'], these are
    the same host, and no two sandboxes of the table have the same host. *)
Theorem sandbox_serves_one_host s :
  pool_reachable s ->
  (forall n h h', (n, h) ∈ co_given (sy_core s) -> (n, h') ∈ co_given (sy_core s) -> h = h') /\
  (forall n m r q h, row (sy_core s) n = Some r -> row (sy_core s) m = Some q ->
     sp_host_id r = Some h -> sp_host_id q = Some h -> n = m).
Proof.
  intros [Hi _ _]%pool_reachable_inv. split; [apply (ci_once _ Hi)|]. intros n m r q h.
  apply (to_hosts _ (ci_table _ Hi)).
Qed.

(** The limits on spare sandboxes hold.  At every moment the idle sandboxes of
    all pools, those being started and those not yet removed are at most
    [fleet_maximum], and those being started at most [max_starting], although
    every control plane counts and inserts on its own. *)
Theorem spare_limits_hold s :
  pool_reachable s ->
  count_where (fun _ r => counted r) (spares (co_db (sy_core s))) <= fleet_maximum /\
  count_where (fun _ r => counted r && is_status Starting r) (spares (co_db (sy_core s))) <= max_starting.
Proof.
  intros [Hi _ _]%pool_reachable_inv. pose proof (ci_fleet _ Hi). pose proof (ci_starting _ Hi).
  pose proof (ci_planned _ Hi). unfold is_starting in *. lia.
Qed.

(** Every step moves every row along its lifecycle: a spare is started, then
    ready, then claimed by a host and active, or is retired and then removed; it
    is never ready again after it was claimed or retired. *)
Theorem spares_follow_lifecycle s s' n :
  pool_reachable s -> pool_step s s' -> lifecycle_or_new (row (sy_core s) n) (row (sy_core s') n).
Proof. intros Hr Hs. by apply (pool_step_inv s s' (pool_reachable_inv s Hr) Hs). Qed.
End system.

(** * Runs *)
Import Hex.
#[local] Instance run_identity_json : Json HostIdentity :=
  {| to_vec := fun _ => "identity"; from_slice := fun _ => Err "" |}.
#[local] Instance run_handle_json : Json SpareHandle := {| to_vec := sh_name; from_slice := fun _ => Err "" |}.
#[local] Instance run_key_json : Json PoolKey := {| to_vec := fun '(_, i, r, _) => i +:+ r; from_slice := fun _ => Err "" |}.

Definition run_config : PoolConfig :=
  {| pc_kind := Replica; pc_idle := 1; pc_fleet_maximum := 1; pc_max_starting := 1; pc_idle_ttl_seconds := 600;
     pc_regions := ["r"]; pc_resources := ResourceLimits_default |}.
Definition run_spec : HostLaunchSpec :=
  {| spec_project_id := "p"; spec_source := None; image_ref := "i"; code_snapshot := None;
     working_directory := "/w"; actor_entrypoint := None; secret_refs := [] |}.

Lemma pool_moves f m c ts i X (e : PEff X) k x c' :
  pool_reachable f m {| sy_core := c; sy_tasks := ts |} -> ts !! i = Some (CVis e k) -> pexec i e c x c' ->
  pool_reachable f m {| sy_core := c'; sy_tasks := <[i := k x]> ts |}.
Proof. intros Hr Hi He. eapply pool_steps; [exact Hr|]. by eapply step_move. Qed.

#[local] Ltac moves H x :=
  eapply (pool_moves _ _ _ _ 0 _ _ _ x) in H; [|reflexivity|].

(** One control plane replenishes an empty pool. *)
Lemma run_replenished : exists s, pool_reachable 1 1 s /\
  count_where (fun _ r => counted r) (spares (co_db (sy_core s))) = 1.
Proof.
  pose proof (pool_starts 1 1) as H. unfold pool_start in H.
  eapply pool_steps in H; [|apply step_start, (task_reconcile _ _ run_config); done].
  moves H (Ok [run_spec]). 2: done.
  moves H (Ok 0). 2: { right. exists 0, (fun _ => false). do 2 eexists. split; [reflexivity|].
    split_and!; [done| |by left|reflexivity]. intros n _ _. exact (not_elem_of_nil n). }
  moves H (Ok ()). 2: { right. exists 0, (fun _ => false). do 2 eexists. split; [reflexivity|].
    split_and!; [done| |by left|reflexivity]. intros n _ _. exact (not_elem_of_nil n). }
  moves H (Ok true). 2: { right. split; [done|]. exists 0. by split. }
  moves H (Ok 1). 2: { eexists. split; [reflexivity|]. split; [done|]. right. exists 0. split; [by vm_compute|reflexivity]. }
  moves H "u". 2: done.
  moves H (Ok ()). 2: { eexists. split; [reflexivity|]. split; [done|]. right. exists 0. eexists.
    split; [vm_compute; reflexivity|]. split; [|reflexivity]. intros n _ _. exact (not_elem_of_nil n). }
  eexists. split; [exact H|]. by vm_compute.
Qed.

Lemma spare_limits_hold_witness : exists s, pool_reachable 1 1 s /\
  count_where (fun _ r => counted r) (spares (co_db (sy_core s))) = 1 /\
  count_where (fun _ r => counted r && is_status Starting r) (spares (co_db (sy_core s))) <= 1.
Proof.
  destruct run_replenished as (s & Hr & Hc). exists s. split_and!; [done|done|].
  apply (spare_limits_hold 1 1); [by vm_compute|exact Hr].
Defined.

(** A sandbox is reserved for a host. *)
Definition run_reserved : Core :=
  {| co_db := {| spares := {["do-actor-s" := new_spare "" Actor Claimed (Some "h") (Some "k") 0 120000]};
                 backoffs := ∅ |};
     co_tx := None; co_names := ["do-actor-s"]; co_given := [("do-actor-s", "h")] |}.
Definition run_reserving : PoolSystem := {| sy_core := sy_core pool_start; sy_tasks := [reserve_host "s" "h" "k"] |}.
Definition run_done : PoolSystem := {| sy_core := run_reserved; sy_tasks := [CRet (Ok ())] |}.
Lemma run_reserving_reachable : pool_reachable 1 1 run_reserving.
Proof. eapply pool_steps; [apply pool_starts|]. apply (step_start 1 1 _ []), task_reserve. Qed.
Lemma run_reserves : pool_step 1 1 run_reserving run_done.
Proof.
  unfold run_reserving, run_done.
  change [CRet (Ok ())] with (<[0%nat := CRet (E := PEff) (Ok ())]> [reserve_host "s" "h" "k"]).
  eapply (step_move 1 1 _ _ 0 _ _ _ (Ok ())); [reflexivity|]. right. exists 0, (fun _ => false), (Ok ()).
  exists (co_db run_reserved). split_and!; [by vm_compute|done| |by left|by vm_compute].
  intros n _ _. exact (not_elem_of_nil n).
Qed.

Lemma sandbox_serves_one_host_witness :
  ("do-actor-s", "h") ∈ co_given run_reserved /\
  forall h, ("do-actor-s", h) ∈ co_given run_reserved -> h = "h".
Proof.
  assert (Hin : ("do-actor-s", "h") ∈ co_given run_reserved) by left. split; [done|]. intros h Hh.
  apply (proj1 (sandbox_serves_one_host 1 1 ltac:(by vm_compute) run_done
           (pool_steps 1 1 _ _ run_reserving_reachable run_reserves)) "do-actor-s"); done.
Defined.

Lemma spares_follow_lifecycle_witness :
  lifecycle_or_new None (row run_reserved "do-actor-s").
Proof.
  apply (spares_follow_lifecycle 1 1 ltac:(by vm_compute) run_reserving run_done "do-actor-s"
           run_reserving_reachable run_reserves).
Defined.
