(* ===== verification/Contracts.v ===== *)
(** Public contracts of actors: control_plane/contracts.rs.

    A deployment publishes a JSON document with the sockets and methods of its
    actors and JSON schemas for their types.  The document is parsed strictly,
    checked, brought into a canonical form and hashed. *)

From S2P Require Import Prelude.
From S2P Require Import Actors.
From S2P Require Import StoragePaths.
From S2P Require Import Snapshots.
From S2P Require Import Deployments.
Local Open Scope string_scope.
Local Open Scope Z_scope.

(** * JSON access *)
Definition as_object (v : Value) : option (list (string * Value)) :=
  match v with Object fields => Some fields | _ => None end.
Definition as_array (v : Value) : option (list Value) := match v with Array l => Some l | _ => None end.
Definition as_str (v : Value) : option string := match v with Str s => Some s | _ => None end.
Definition is_boolean (v : Value) : bool := match v with Bool _ => true | _ => false end.
Definition is_array (v : Value) : bool := match v with Array _ => true | _ => false end.
(** [value["key"]]: null when there is none *)
Definition index_of (v : Value) (key : string) : Value := default Null (get_field v key).

(** [str::replace] for a pattern of two characters *)
Fixpoint replace_pair (a b : ascii) (to s : string) : string :=
  match s with
  | String x ((String y rest) as tail) =>
      if Ascii.eqb x a && Ascii.eqb y b then to +:+ replace_pair a b to rest
      else String x (replace_pair a b to tail)
  | _ => s
  end.
(** [Value::pointer] *)
Definition pointer_token (s : string) : string := replace_pair "~" "0" "~" (replace_pair "~" "1" "/" s).
Definition parse_index (s : string) : option Z :=
  if starts_with "+" s || (starts_with "0" s && negb (len s =? 1)) then None else parse_u64 s.
Definition pointer_step (v : option Value) (token : string) : option Value :=
  match v with
  | Some (Object fields) => get_field (Object fields) (pointer_token token)
  | Some (Array l) => n ← parse_index (pointer_token token); l !! Z.to_nat n
  | _ => None
  end.
Definition pointer (root : Value) (path : string) : option Value :=
  if is_empty path then Some root
  else if negb (starts_with "/" path) then None
  else fold_left pointer_step (tl (split_on "/" path)) (Some root).

(** * Schemas *)
Definition validate_reference (reference : string) (root : Value) : Result Value :=
  ensure (starts_with "#/definitions/" reference) "contract type references must be local definitions";;
  with_context
    (target ← pointer root (match reference with String _ rest => rest | EmptyString => "" end);
     if is_object target || is_boolean target then Some target else None)
    ("contract type reference is missing: " +:+ reference).

Definition schema_keys : list string :=
  ["items"; "additionalItems"; "additionalProperties"; "contains"; "propertyNames"; "not"; "if"; "then"; "else";
   "allOf"; "anyOf"; "oneOf"].

(** The schemas directly inside an object, in the order they are visited *)
Definition property_children (v : Value) (key : string) : Result (list Value) :=
  match get_field v key with
  | None => Ok []
  | Some children =>
      fields ← with_context (as_object children) "schema properties must be an object";
      Ok (map snd fields)
  end.
Definition keyword_children (v : Value) (key : string) : list Value :=
  match get_field v key with
  | None => []
  | Some child => default [child] (as_array child)
  end.
Definition dependency_children (v : Value) : Result (list Value) :=
  match get_field v "dependencies" with
  | None => Ok []
  | Some dependencies =>
      fields ← with_context (as_object dependencies) "schema dependencies must be an object";
      Ok (filter (fun child => is_array child = false) (map snd fields))
  end.

Definition check_object (v root : Value) : Result unit :=
  fields ← with_context (as_object v) "contract schema must be an object or boolean";
  ensure (negb (bool_decide (is_Some (get_field v "$id"))) && negb (bool_decide (is_Some (get_field v "id")))
          && negb (bool_decide (is_Some (get_field v "tsType"))))
    "contract schemas cannot override type resolution";;
  match get_field v "$ref" with
  | None => Ok ()
  | Some reference =>
      text ← with_context (as_str reference) "schema $ref must be a string";
      validate_reference text root;;
      Ok ()
  end.

(** [for child in children { f(child)?; }] in a recursion that may stop early *)
Fixpoint visit (f : Value -> option (Result unit)) (l : list Value) : option (Result unit) :=
  match l with
  | [] => Some (Ok ())
  | x :: l' =>
      match f x with
      | Some (Ok _) => visit f l'
      | other => other
      end
  end.
Definition then_visit (first : option (Result unit)) (next : unit -> option (Result unit)) : option (Result unit) :=
  match first with Some (Ok _) => next () | other => other end.

(** [None]: the fuel did not last. *)
Fixpoint validate_schema_node (fuel : nat) (root node : Value) : option (Result unit) :=
  match fuel with
  | O => None
  | S fuel =>
      if is_boolean node then Some (Ok ())
      else
        match check_object node root with
        | Err e => Some (Err e)
        | Ok _ =>
            let go := validate_schema_node fuel root in
            let properties key _ :=
              match property_children node key with
              | Err e => Some (Err e)
              | Ok children => visit go children
              end in
            then_visit (properties "definitions" ()) (fun _ =>
            then_visit (properties "properties" ()) (fun _ =>
            then_visit (properties "patternProperties" ()) (fun _ =>
            then_visit (visit go (schema_keys ≫= keyword_children node)) (fun _ =>
              match dependency_children node with
              | Err e => Some (Err e)
              | Ok children => visit go children
              end))))
        end
  end.

(** Depth of nesting: enough fuel for a schema *)
Fixpoint depth (v : Value) : nat :=
  match v with
  | Array l => S (fold_right (fun x => Nat.max (depth x)) 0%nat l)
  | Object l => S (fold_right (fun kv => Nat.max (depth (snd kv))) 0%nat l)
  | _ => 1%nat
  end.
Definition validate_schema (schema : Value) : Result unit :=
  ensure (is_object schema && is_object (index_of schema "definitions")) "contract schema must contain definitions";;
  default (Err "out of fuel") (validate_schema_node (depth schema) schema schema).

(** * The document *)
Record TypeScriptContract := { ts_declarations : string; ts_dependencies : list (string * string) }.
Record RpcParameter := { rp_name : string; rp_optional : bool; rp_rest : bool; rp_type : string }.
Inductive RpcResult := RpcVoid | RpcValue (reference : string).
Record RpcMethod := { rm_name : string; rm_parameters : list RpcParameter; rm_result : RpcResult }.
Record RpcContract := { rpc_schema : Value; rpc_methods : list RpcMethod }.
Record SocketContract := {
  so_version : Z;
  so_actor_name : string;
  so_schema : Value;
  so_emittable : list string }.
Record ActorApi := { api_actor_name : string; api_socket : SocketContract; api_rpc : RpcContract }.
Record ContractDocument := { cd_version : Z; cd_actors : list ActorApi; cd_typescript : TypeScriptContract }.

(** ** [serde_json::from_value] with [deny_unknown_fields] *)
Definition invalid {A} : Result A := Err "invalid public actor contract".
Definition required {A} (o : option A) : Result A := with_context o "invalid public actor contract".
Definition only_fields (names : list string) (v : Value) : Result unit :=
  fields ← required (as_object v);
  ensure (forallb (fun kv => one_of names kv.1) fields) "invalid public actor contract".
Definition get_str (v : Value) (key : string) : Result string := required (get_field v key ≫= as_str).
Definition get_bool (v : Value) (key : string) : Result bool :=
  required (get_field v key ≫= fun x => match x with Bool b => Some b | _ => None end).
Definition get_array (v : Value) (key : string) : Result (list Value) := required (get_field v key ≫= as_array).
Definition get_u32 (v : Value) (key : string) : Result Z :=
  required (get_field v key ≫= fun x => match x with
                                        | Number s => n ← parse_u64 s; if n <=? U32_MAX then Some n else None
                                        | _ => None
                                        end).
Definition get_value (v : Value) (key : string) : Result Value := required (get_field v key).
Definition parse_str (v : Value) : Result string := required (as_str v).

Definition parse_type_reference (v : Value) : Result string := only_fields ["$ref"] v;; get_str v "$ref".
Definition parse_result (v : Value) : Result RpcResult :=
  kind ← get_str v "kind";
  if String.eqb kind "void" then only_fields ["kind"] v;; Ok RpcVoid
  else if String.eqb kind "value" then
    only_fields ["kind"; "type"] v;;
    t ← get_value v "type"; r ← parse_type_reference t; Ok (RpcValue r)
  else invalid.
Definition parse_parameter (v : Value) : Result RpcParameter :=
  only_fields ["name"; "optional"; "rest"; "type"] v;;
  n ← get_str v "name"; o ← get_bool v "optional"; r ← get_bool v "rest";
  t ← get_value v "type"; k ← parse_type_reference t;
  Ok {| rp_name := n; rp_optional := o; rp_rest := r; rp_type := k |}.
Definition parse_method (v : Value) : Result RpcMethod :=
  only_fields ["name"; "parameters"; "result"] v;;
  n ← get_str v "name"; l ← get_array v "parameters"; ps ← collect parse_parameter l;
  r ← get_value v "result"; res ← parse_result r;
  Ok {| rm_name := n; rm_parameters := ps; rm_result := res |}.
Definition parse_rpc (v : Value) : Result RpcContract :=
  only_fields ["schema"; "methods"] v;;
  s ← get_value v "schema"; l ← get_array v "methods"; ms ← collect parse_method l;
  Ok {| rpc_schema := s; rpc_methods := ms |}.
Definition parse_socket (v : Value) : Result SocketContract :=
  only_fields ["version"; "actorName"; "schema"; "emittable"] v;;
  n ← get_u32 v "version"; a ← get_str v "actorName"; s ← get_value v "schema";
  l ← get_array v "emittable"; e ← collect parse_str l;
  Ok {| so_version := n; so_actor_name := a; so_schema := s; so_emittable := e |}.
Definition parse_actor (v : Value) : Result ActorApi :=
  only_fields ["actorName"; "socket"; "rpc"] v;;
  n ← get_str v "actorName"; s ← get_value v "socket"; so ← parse_socket s;
  r ← get_value v "rpc"; rp ← parse_rpc r;
  Ok {| api_actor_name := n; api_socket := so; api_rpc := rp |}.
Definition parse_typescript (v : Value) : Result TypeScriptContract :=
  only_fields ["declarations"; "dependencies"] v;;
  d ← get_str v "declarations"; deps ← get_value v "dependencies"; fields ← required (as_object deps);
  l ← collect (fun kv => t ← parse_str kv.2; Ok (kv.1, t)) fields;
  Ok {| ts_declarations := d; ts_dependencies := l |}.
Definition parse_document (v : Value) : Result ContractDocument :=
  only_fields ["version"; "actors"; "typescript"] v;;
  n ← get_u32 v "version"; l ← get_array v "actors"; actors ← collect parse_actor l;
  t ← get_value v "typescript"; ts ← parse_typescript t;
  Ok {| cd_version := n; cd_actors := actors; cd_typescript := ts |}.

(** ** Validation *)
Definition typescript_keywords : list string :=
  ["abstract"; "accessor"; "any"; "as"; "asserts"; "assert"; "bigint"; "boolean"; "break"; "case"; "catch";
   "class"; "continue"; "const"; "constructor"; "debugger"; "declare"; "default"; "defer"; "delete"; "do"; "else";
   "enum"; "export"; "extends"; "false"; "finally"; "for"; "from"; "function"; "get"; "if"; "implements"; "import";
   "in"; "infer"; "instanceof"; "interface"; "intrinsic"; "is"; "keyof"; "let"; "module"; "namespace"; "never";
   "new"; "null"; "number"; "object"; "package"; "private"; "protected"; "public"; "override"; "out"; "readonly";
   "require"; "global"; "return"; "satisfies"; "set"; "static"; "string"; "super"; "switch"; "symbol"; "this";
   "throw"; "true"; "try"; "type"; "typeof"; "undefined"; "unique"; "unknown"; "using"; "var"; "void"; "while";
   "with"; "yield"; "async"; "await"; "of"].
Definition is_typescript_keyword (name : string) : bool := one_of typescript_keywords name.

Definition is_ascii_alphabetic (c : ascii) : bool := is_ascii_lowercase c || is_ascii_uppercase c.
Definition identifier (name : string) : bool :=
  match name with
  | EmptyString => true
  | String c rest =>
      (is_ascii_alphabetic c || (byte c =? 95))
      && all_bytes (fun c => is_ascii_alphabetic c || (byte c =? 95) || is_ascii_digit c) rest
  end.
Definition validate_actor_name (name : string) : Result unit :=
  admin_component "actor name" name 255;;
  ensure (identifier name && negb (is_typescript_keyword name))
    ("actor name " +:+ name +:+ " cannot be emitted as a TypeScript identifier").

Definition reserved_methods : list string :=
  ["constructor"; "then"; "connect"; "broadcast"; "onConnect"; "onMessage"; "onDisconnect"].

Fixpoint validate_parameters (schema : Value) (optional_seen : bool) (l : list RpcParameter) : Result unit :=
  match l with
  | [] => Ok ()
  | p :: rest =>
      ensure (negb (is_empty (rp_name p))) "RPC parameter name must not be empty";;
      kind ← validate_reference (rp_type p) schema;
      ensure (negb (rp_rest p)
              || (negb (rp_optional p) && bool_decide (rest = [])
                  && bool_decide (index_of kind "type" = Str "array") && negb (is_array (index_of kind "items"))))
        "rest parameter must be a final, required array parameter";;
      ensure (negb optional_seen || rp_optional p || rp_rest p) "required parameter follows optional parameter";;
      validate_parameters schema (optional_seen || rp_optional p) rest
  end.
Definition validate_method (schema : Value) (seen : list string) (m : RpcMethod) : Result unit :=
  admin_component "actor method" (rm_name m) 255;;
  ensure (negb (one_of seen (rm_name m))) ("duplicate actor method " +:+ rm_name m);;
  ensure (negb (one_of reserved_methods (rm_name m))) ("reserved actor method " +:+ rm_name m);;
  validate_parameters schema false (rm_parameters m);;
  match rm_result m with
  | RpcValue reference => validate_reference reference schema;; Ok ()
  | RpcVoid => Ok ()
  end.
Fixpoint validate_methods (schema : Value) (seen : list string) (l : list RpcMethod) : Result unit :=
  match l with
  | [] => Ok ()
  | m :: l' => validate_method schema seen m;; validate_methods schema (rm_name m :: seen) l'
  end.
Definition RpcContract_validate (c : RpcContract) : Result unit :=
  validate_schema (rpc_schema c);; validate_methods (rpc_schema c) [] (rpc_methods c).

Definition has_field (v : Value) (key : string) : bool := bool_decide (is_Some (get_field v key)).
Fixpoint validate_emittable (state : Value) (seen : list string) (l : list string) : Result unit :=
  match l with
  | [] => Ok ()
  | field :: l' =>
      ensure (negb (one_of seen field)) ("duplicate emittable field " +:+ field);;
      ensure (has_field (index_of state "properties") field) ("emittable field " +:+ field +:+ " is not public state");;
      validate_emittable state (field :: seen) l'
  end.
Definition validate_actor (seen : list string) (a : ActorApi) : Result unit :=
  let socket := api_socket a in
  validate_actor_name (api_actor_name a);;
  ensure (negb (one_of seen (api_actor_name a))) ("duplicate actor name " +:+ api_actor_name a);;
  ensure ((so_version socket =? 1) && String.eqb (so_actor_name socket) (api_actor_name a))
    "actor and socket contract must match";;
  validate_schema (so_schema socket);;
  let definitions := index_of (so_schema socket) "definitions" in
  collect (fun kind => ensure (has_field definitions kind) ("missing socket type " +:+ kind))
    ["Metadata"; "Incoming"; "Outgoing"; "State"];;
  validate_emittable (index_of definitions "State") [] (so_emittable socket);;
  RpcContract_validate (api_rpc a).
Fixpoint validate_actors (seen : list string) (l : list ActorApi) : Result unit :=
  match l with
  | [] => Ok ()
  | a :: l' => validate_actor seen a;; validate_actors (api_actor_name a :: seen) l'
  end.

Definition dependency_byte (c : ascii) : bool :=
  is_ascii_lowercase c || is_ascii_digit c || (byte c =? 46) || (byte c =? 95) || (byte c =? 45).
Definition validate_dependency (name version : string) : Result unit :=
  let scoped := starts_with "@" name in
  let segments := split_on "/" (default name (strip_prefix "@" name)) in
  ensure (((length segments =? 1)%nat && negb scoped || (length segments =? 2)%nat && scoped)
          && forallb (fun part => negb (is_empty part) && all_bytes dependency_byte part) segments
          && negb (is_empty version))
    "invalid public type dependency".
(** [str::trim().is_empty()]: Unicode white space only, in UTF-8 *)
Fixpoint blank (s : string) : bool :=
  match s with
  | EmptyString => true
  | String a rest =>
      if is_whitespace a then blank rest
      else
        match rest with
        | String b rest2 =>
            if (byte a =? 194) && ((byte b =? 133) || (byte b =? 160)) then blank rest2
            else
              match rest2 with
              | String c rest3 =>
                  ((byte a =? 225) && (byte b =? 154) && (byte c =? 128)
                   || (byte a =? 226) && (byte b =? 128)
                      && (between 128 138 c || (byte c =? 168) || (byte c =? 169) || (byte c =? 175))
                   || (byte a =? 226) && (byte b =? 129) && (byte c =? 159)
                   || (byte a =? 227) && (byte b =? 128) && (byte c =? 128))
                  && blank rest3
              | EmptyString => false
              end
        | EmptyString => false
        end
  end.
Definition ContractDocument_validate (d : ContractDocument) : Result unit :=
  ensure (negb (blank (ts_declarations (cd_typescript d)))) "public TypeScript declarations are required";;
  collect (fun nv => validate_dependency nv.1 nv.2) (ts_dependencies (cd_typescript d));;
  ensure (cd_version d =? 1) "unsupported public actor contract version";;
  validate_actors [] (cd_actors d).

(** * The canonical form *)
Definition key_leb (a b : string * Value) : Prop := String.leb a.1 b.1 = true.
#[global] Instance key_leb_dec : RelDecision key_leb.
Proof. intros a b. unfold key_leb. apply _. Defined.

Fixpoint canonical_json (v : Value) : Value :=
  match v with
  | Object fields => Object (merge_sort key_leb (map (fun kv => (fst kv, canonical_json (snd kv))) fields))
  | Array l => Array (map canonical_json l)
  | other => other
  end.

Section contract.
Context `{Sha256, Json Value}.

Fixpoint hex_bytes (s : string) : string :=
  match s with
  | EmptyString => ""
  | String c rest => hex2 (byte c) +:+ hex_bytes rest
  end.
Definition PublicActorContract_new (document : Value) : Result PublishedContract :=
  parsed ← parse_document document;
  ContractDocument_validate parsed;;
  let document := canonical_json document in
  let bytes := to_vec document in
  ensure (len bytes <=? 4 * 1024 * 1024) "public actor contract exceeds 4 MiB";;
  Ok {| contract_hash := "sha256:" +:+ hex_bytes (sha256 bytes); contract := document |}.
End contract.

(** * Schemas that pass *)
Definition property_keys : list string := ["definitions"; "properties"; "patternProperties"].

(** [c] is a schema directly inside the schema object [v]. *)
Inductive child (v : Value) : Value -> Prop :=
| child_property key fields c : key ∈ property_keys -> get_field v key = Some (Object fields) ->
    c ∈ map snd fields -> child v c
| child_keyword key x c : key ∈ schema_keys -> get_field v key = Some x ->
    (x = c /\ is_array x = false \/ exists l, x = Array l /\ c ∈ l) -> child v c
| child_dependency fields c : get_field v "dependencies" = Some (Object fields) -> c ∈ map snd fields ->
    is_array c = false -> child v c.

(** All schemas inside a schema *)
Inductive subschema (root : Value) : Value -> Prop :=
| sub_root : subschema root root
| sub_child v c : subschema root v -> is_boolean v = false -> child v c -> subschema root c.

(** What a schema must be: a boolean, or an object that does not override how types
    are resolved, whose reference leads to a definition of the document, and whose
    parts are objects where they must be. *)
Definition schema_ok (root v : Value) : Prop :=
  is_boolean v = true \/
  (is_object v = true /\
   (forall key, key ∈ ["$id"; "id"; "tsType"] -> get_field v key = None) /\
   (forall r, get_field v "$ref" = Some r -> exists text target rest,
      r = Str text /\ text = "#/definitions/" +:+ rest /\ pointer root ("/definitions/" +:+ rest) = Some target /\
      (is_object target = true \/ is_boolean target = true)) /\
   (forall key x, key ∈ "dependencies" :: property_keys -> get_field v key = Some x -> is_object x = true)).

Lemma validate_reference_ok text root target :
  validate_reference text root = Ok target <->
  exists rest, text = "#/definitions/" +:+ rest /\ pointer root ("/definitions/" +:+ rest) = Some target /\
    (is_object target = true \/ is_boolean target = true).
Proof.
  unfold validate_reference. split.
  - destruct (starts_with _ text) eqn:E; [|done]. cbn [ensure mbind Result_bind].
    apply starts_with_true in E as [rest ->]. change ("#/definitions/" +:+ rest) with (String "#" ("/definitions/" +:+ rest)).
    cbv iota beta. destruct (pointer root _) as [t|] eqn:Ep; cbn; [|done].
    destruct (_ || _) eqn:Eb; [|done]. intros [= <-]. apply orb_true_iff in Eb. by exists rest.
  - intros (rest & -> & Hp & Ht). rewrite starts_with_app. cbn [ensure mbind Result_bind].
    change ("#/definitions/" +:+ rest) with (String "#" ("/definitions/" +:+ rest)) at 1. cbv iota beta.
    rewrite Hp. cbn. apply orb_true_iff in Ht. by rewrite Ht.
Qed.

Lemma is_object_as v : is_object v = true <-> exists fields, v = Object fields.
Proof. split; [destruct v; try done; eauto|by intros [fields ->]]. Qed.

Lemma check_object_ok v root : check_object v root = Ok () <->
  is_object v = true /\ (forall key, key ∈ ["$id"; "id"; "tsType"] -> get_field v key = None) /\
  (forall r, get_field v "$ref" = Some r -> exists text target rest,
      r = Str text /\ text = "#/definitions/" +:+ rest /\ pointer root ("/definitions/" +:+ rest) = Some target /\
      (is_object target = true \/ is_boolean target = true)).
Proof.
  unfold check_object. split.
  - intros E. apply bind_ok in E as (fields & Hf & E). apply bind_ok in E as ([] & Hid%ensure_ok & E).
    bools. split_and!.
    + by destruct v.
    + intros key Hk. repeat match goal with H : bool_decide _ = false |- _ => apply bool_decide_eq_false in H end.
      rewrite !elem_of_cons, elem_of_nil in Hk. destruct Hk as [->|[->|[->|[]]]]; by apply eq_None_not_Some.
    + intros r Hr. rewrite Hr in E. apply bind_ok in E as (text & Ht & E). apply bind_ok in E as (target & Hv & _).
      apply validate_reference_ok in Hv as (rest & Hv). destruct r; try done. injection Ht as ->.
      exists text, target, rest. naive_solver.
  - intros (Ho & Hid & Href). apply is_object_as in Ho as [fields ->]. cbn [as_object with_context mbind Result_bind].
    rewrite (Hid "$id"), (Hid "id"), (Hid "tsType") by (repeat constructor). cbn [ensure mbind Result_bind negb andb bool_decide is_Some_dec decide_rel].
    destruct (get_field _ "$ref") as [r|] eqn:E; [|done].
    destruct (Href r eq_refl) as (text & target & rest & -> & Ht). cbn [as_str with_context mbind Result_bind].
    assert (Hv : validate_reference text root = Ok target) by (apply validate_reference_ok; naive_solver).
    by rewrite Hv.
Qed.

(** ** Visiting *)
Lemma visit_ok f l : visit f l = Some (Ok ()) <-> Forall (fun x => f x = Some (Ok ())) l.
Proof.
  induction l as [|x l IH]; cbn; [by split|]. rewrite Forall_cons, <-IH.
  destruct (f x) as [[[]|e]|]; naive_solver.
Qed.
Lemma visit_some f l : Forall (fun x => is_Some (f x)) l -> is_Some (visit f l).
Proof.
  induction 1 as [|x l [r Hr] Hl IH]; cbn; [by eexists|]. rewrite Hr. destruct r as [[]|e]; [done|by eexists].
Qed.
Lemma visit_ext f g l : Forall (fun x => f x = g x) l -> visit f l = visit g l.
Proof. induction 1 as [|x l Hx Hl IH]; cbn; [done|]. by rewrite Hx, IH. Qed.
Lemma then_visit_ok a b : then_visit a b = Some (Ok ()) <-> a = Some (Ok ()) /\ b () = Some (Ok ()).
Proof. destruct a as [[[]|e]|]; cbn; naive_solver. Qed.
Lemma then_visit_some a b : is_Some a -> is_Some (b ()) -> is_Some (then_visit a b).
Proof. intros [[[]|e] ->] Hb; cbn; [done|by eexists]. Qed.

(** Children as the functions compute them *)
Lemma keyword_children_in v c :
  c ∈ (schema_keys ≫= keyword_children v) <->
  exists key x, key ∈ schema_keys /\ get_field v key = Some x /\
    (x = c /\ is_array x = false \/ exists l, x = Array l /\ c ∈ l).
Proof.
  rewrite list_elem_of_bind. unfold keyword_children. split.
  - intros (key & Hc & Hk). destruct (get_field v key) as [x|] eqn:E; [|by apply elem_of_nil in Hc].
    exists key, x. split_and!; [done|done|].
    destruct x; cbn in Hc; try (left; by apply list_elem_of_singleton in Hc as ->). right. eauto.
  - intros (key & x & Hk & E & Hx). exists key. rewrite E. split; [|done].
    destruct Hx as [[-> Ha]|(l & -> & Hl)]; [|done]. destruct c; try done; cbn; by apply list_elem_of_singleton.
Qed.
Definition visit_properties (go : Value -> option (Result unit)) (v : Value) (key : string) : option (Result unit) :=
  match property_children v key with Err e => Some (Err e) | Ok children => visit go children end.
Definition visit_dependencies (go : Value -> option (Result unit)) (v : Value) : option (Result unit) :=
  match dependency_children v with Err e => Some (Err e) | Ok children => visit go children end.

Lemma visit_properties_ok go v key : visit_properties go v key = Some (Ok ()) <->
  forall x, get_field v key = Some x -> exists fields, x = Object fields /\
    forall c, c ∈ map snd fields -> go c = Some (Ok ()).
Proof.
  unfold visit_properties, property_children. destruct (get_field v key) as [x|]; cbn; [|by split].
  destruct x as [|b|n|t|l|fields]; cbn; try (split; [done|intros Hx; by destruct (Hx _ eq_refl) as (? & ? & _)]).
  rewrite visit_ok, Forall_forall. split.
  - intros Hf x [= <-]. eauto.
  - intros Hx. destruct (Hx _ eq_refl) as (? & [= <-] & Hc). done.
Qed.
Lemma visit_dependencies_ok go v : visit_dependencies go v = Some (Ok ()) <->
  forall x, get_field v "dependencies" = Some x -> exists fields, x = Object fields /\
    forall c, c ∈ map snd fields -> is_array c = false -> go c = Some (Ok ()).
Proof.
  unfold visit_dependencies, dependency_children. destruct (get_field v _) as [x|]; cbn; [|by split].
  destruct x as [|b|n|t|l|fields]; cbn; try (split; [done|intros Hx; by destruct (Hx _ eq_refl) as (? & ? & _)]).
  rewrite visit_ok, Forall_forall. setoid_rewrite list_elem_of_filter. split.
  - intros Hf x [= <-]. eauto 10.
  - intros Hx. destruct (Hx _ eq_refl) as (? & [= <-] & Hc). naive_solver.
Qed.
Lemma visit_properties_some go v key :
  (forall c, child v c -> is_Some (go c)) -> key ∈ property_keys -> is_Some (visit_properties go v key).
Proof.
  intros Hgo Hk. unfold visit_properties, property_children. destruct (get_field v key) as [x|] eqn:E; cbn; [|by eexists].
  destruct x as [|b|n|t|l|fields]; cbn; try by eexists. apply visit_some, Forall_forall. intros c Hc.
  apply Hgo. by eapply child_property.
Qed.
Lemma visit_dependencies_some go v : (forall c, child v c -> is_Some (go c)) -> is_Some (visit_dependencies go v).
Proof.
  intros Hgo. unfold visit_dependencies, dependency_children. destruct (get_field v _) as [x|] eqn:E; cbn; [|by eexists].
  destruct x as [|b|n|t|l|fields]; cbn; try by eexists. apply visit_some, Forall_forall. intros c Hc.
  apply list_elem_of_filter in Hc as [Ha Hc]. apply Hgo. by eapply child_dependency.
Qed.
Lemma visit_keywords_ok go v : visit go (schema_keys ≫= keyword_children v) = Some (Ok ()) <->
  forall key x c, key ∈ schema_keys -> get_field v key = Some x ->
    (x = c /\ is_array x = false \/ exists l, x = Array l /\ c ∈ l) -> go c = Some (Ok ()).
Proof.
  rewrite visit_ok, Forall_forall. setoid_rewrite keyword_children_in. naive_solver.
Qed.

(** One turn of the recursion *)
Lemma node_unfold n root v : is_boolean v = false ->
  validate_schema_node (S n) root v =
  match check_object v root with
  | Err e => Some (Err e)
  | Ok _ =>
      let go := validate_schema_node n root in
      then_visit (visit_properties go v "definitions") (fun _ =>
      then_visit (visit_properties go v "properties") (fun _ =>
      then_visit (visit_properties go v "patternProperties") (fun _ =>
      then_visit (visit go (schema_keys ≫= keyword_children v)) (fun _ => visit_dependencies go v))))
  end.
Proof. intros Hv. cbn [validate_schema_node]. by rewrite Hv. Qed.

Lemma node_some n root v : (forall c, child v c -> is_Some (validate_schema_node n root c)) ->
  is_Some (validate_schema_node (S n) root v).
Proof.
  intros Hc. destruct (is_boolean v) eqn:Eb; [cbn; rewrite Eb; by eexists|]. rewrite node_unfold by done.
  destruct (check_object v root); [|by eexists]. cbn zeta.
  repeat apply then_visit_some; try (apply visit_properties_some; [done|by repeat constructor]).
  - apply visit_some, Forall_forall. intros c (key & x & Hk & Hx & Hcase)%keyword_children_in. apply Hc.
    by eapply child_keyword.
  - by apply visit_dependencies_some.
Qed.
Lemma node_step n root v :
  validate_schema_node (S n) root v = Some (Ok ()) <->
  schema_ok root v /\
  (is_boolean v = false -> forall c, child v c -> validate_schema_node n root c = Some (Ok ())).
Proof.
  destruct (is_boolean v) eqn:Eb.
  { cbn. rewrite Eb. split; [intros _; split; [by left|done]|done]. }
  rewrite node_unfold by done. unfold schema_ok. rewrite Eb. split.
  - destruct (check_object v root) as [[]|] eqn:Ec; [|done]. cbn zeta. rewrite !then_visit_ok, !visit_properties_ok,
      visit_keywords_ok, visit_dependencies_ok. intros (H1 & H2 & H3 & Hk & Hd).
    apply check_object_ok in Ec as (Ho & Hid & Href). split; [right|intros _]; [split_and!; [done|done|done|]|].
    + intros key x Hkey Hx. unfold property_keys in Hkey. rewrite !elem_of_cons, elem_of_nil in Hkey.
      destruct Hkey as [->|[->|[->|[->|[]]]]]; [destruct (Hd _ Hx) as (? & -> & _)|destruct (H1 _ Hx) as (? & -> & _)
        |destruct (H2 _ Hx) as (? & -> & _)|destruct (H3 _ Hx) as (? & -> & _)]; done.
    + intros c Hc. destruct Hc as [key fields c Hkey Hx Hin|key x c Hkey Hx Hcase|fields c Hx Hin Ha].
      * unfold property_keys in Hkey. rewrite !elem_of_cons, elem_of_nil in Hkey.
        destruct Hkey as [->|[->|[->|[]]]]; [destruct (H1 _ Hx) as (? & [= <-] & Hf)
          |destruct (H2 _ Hx) as (? & [= <-] & Hf)|destruct (H3 _ Hx) as (? & [= <-] & Hf)]; by apply Hf.
      * by eapply Hk.
      * destruct (Hd _ Hx) as (? & [= <-] & Hf). by apply Hf.
  - intros [[?|(Ho & Hid & Href & Hobj)] Hc]; [done|]. specialize (Hc eq_refl).
    assert (Ec : check_object v root = Ok ()) by (by apply check_object_ok). rewrite Ec. cbn zeta.
    assert (Hp : forall key, key ∈ property_keys -> visit_properties (validate_schema_node n root) v key = Some (Ok ())).
    { intros key Hk. apply visit_properties_ok. intros x Hx. pose proof (Hobj key x ltac:(by right) Hx) as Hox.
      apply is_object_as in Hox as [fields ->]. exists fields. split; [done|]. intros c Hin. apply Hc.
      by eapply child_property. }
    rewrite !then_visit_ok. split_and!; [apply Hp; by repeat constructor..|apply visit_keywords_ok|apply visit_dependencies_ok].
    + intros key x c Hk Hx Hcase. apply Hc. by eapply child_keyword.
    + intros x Hx. pose proof (Hobj _ x ltac:(by left) Hx) as Hox. apply is_object_as in Hox as [fields ->].
      exists fields. split; [done|]. intros c Hin Ha. apply Hc. by eapply child_dependency.
Qed.

(** ** Depth *)
Lemma fold_max_le {A} (f : A -> nat) (l : list A) x :
  x ∈ l -> (f x <= fold_right (fun y => Nat.max (f y)) 0%nat l)%nat.
Proof. induction 1 as [x l|x y l Hx IH]; cbn; lia. Qed.
Lemma depth_field v key x : get_field v key = Some x -> (depth x < depth v)%nat.
Proof.
  destruct v as [|b|n|t|l|fields]; try done. cbn [get_field]. destruct (find _ fields) as [kv|] eqn:E; [|done].
  intros [= <-]. apply find_some in E as [Hin _]. cbn [depth].
  pose proof (fold_max_le (fun kv => depth kv.2) fields kv ltac:(by apply list_elem_of_In)). lia.
Qed.
Lemma depth_object fields c : c ∈ map snd fields -> (depth c < depth (Object fields))%nat.
Proof.
  intros (kv & -> & Hin)%list_elem_of_fmap. cbn [depth].
  pose proof (fold_max_le (fun kv => depth kv.2) fields kv Hin). lia.
Qed.
Lemma depth_array l c : c ∈ l -> (depth c < depth (Array l))%nat.
Proof. intros Hin. cbn [depth]. pose proof (fold_max_le depth l c Hin). lia. Qed.
Lemma depth_child v c : child v c -> (depth c < depth v)%nat.
Proof.
  intros Hc. destruct Hc as [key fields c Hk Hx Hin|key x c Hk Hx [[-> _]|(l & -> & Hin)]|fields c Hx Hin Ha].
  - apply depth_field in Hx. apply depth_object in Hin. lia.
  - by eapply depth_field.
  - apply depth_field in Hx. apply depth_array in Hin. lia.
  - apply depth_field in Hx. apply depth_object in Hin. lia.
Qed.
Lemma depth_pos v : (0 < depth v)%nat.
Proof. destruct v; cbn; lia. Qed.

Lemma node_total n : forall root v, (depth v <= n)%nat -> is_Some (validate_schema_node n root v).
Proof.
  induction n as [|n IH]; intros root v Hd; [pose proof (depth_pos v); lia|].
  apply node_some. intros c Hc. apply IH. apply depth_child in Hc. lia.
Qed.

(** Paths to a subschema, from the top *)
Lemma subschema_down v c w : is_boolean v = false -> child v c -> subschema c w -> subschema v w.
Proof.
  intros Hb Hc. induction 1 as [|x y Hx IH Hy Hxy]; [by eapply sub_child, Hc; [constructor|]|by eapply sub_child].
Qed.
Lemma subschema_inv v w : subschema v w ->
  w = v \/ exists c, is_boolean v = false /\ child v c /\ subschema c w.
Proof.
  induction 1 as [|x y Hx IH Hb Hxy]; [by left|]. right. destruct IH as [->|(c & Hb' & Hc & Hs)].
  - exists y. split_and!; [done|done|constructor].
  - exists c. split_and!; [done|done|by eapply sub_child].
Qed.
Lemma node_spec n : forall root v, (depth v <= n)%nat ->
  (validate_schema_node n root v = Some (Ok ()) <-> forall w, subschema v w -> schema_ok root w).
Proof.
  induction n as [|n IH]; intros root v Hd; [pose proof (depth_pos v); lia|]. rewrite node_step. split.
  - intros [Hv Hc] w [->|(c & Hb & Hvc & Hs)]%subschema_inv; [done|].
    apply (IH root c); [apply depth_child in Hvc; lia|by apply Hc|done].
  - intros Hw. split; [apply Hw; constructor|]. intros Hb c Hc. apply IH; [apply depth_child in Hc; lia|].
    intros w Hs. apply Hw. by eapply subschema_down.
Qed.

Lemma visit_properties_ext go go' v key :
  (forall c, child v c -> go c = go' c) -> key ∈ property_keys -> visit_properties go v key = visit_properties go' v key.
Proof.
  intros Hgo Hk. unfold visit_properties, property_children. destruct (get_field v key) as [x|] eqn:E; cbn; [|done].
  destruct x as [|b|n|t|l|fields]; cbn; try done. apply visit_ext, Forall_forall. intros c Hc.
  apply Hgo. by eapply child_property.
Qed.
Lemma visit_dependencies_ext go go' v :
  (forall c, child v c -> go c = go' c) -> visit_dependencies go v = visit_dependencies go' v.
Proof.
  intros Hgo. unfold visit_dependencies, dependency_children. destruct (get_field v _) as [x|] eqn:E; cbn; [|done].
  destruct x as [|b|n|t|l|fields]; cbn; try done. apply visit_ext, Forall_forall. intros c Hc.
  apply list_elem_of_filter in Hc as [Ha Hc]. apply Hgo. by eapply child_dependency.
Qed.
Lemma visit_keywords_ext go go' v :
  (forall c, child v c -> go c = go' c) ->
  visit go (schema_keys ≫= keyword_children v) = visit go' (schema_keys ≫= keyword_children v).
Proof.
  intros Hgo. apply visit_ext, Forall_forall. intros c (key & x & Hk & Hx & Hcase)%keyword_children_in. apply Hgo.
  by eapply child_keyword.
Qed.
Lemma node_fuel n : forall m root v, (depth v <= n)%nat -> (depth v <= m)%nat ->
  validate_schema_node n root v = validate_schema_node m root v.
Proof.
  induction n as [|n IH]; intros [|m] root v Hn Hm; try (pose proof (depth_pos v); lia).
  destruct (is_boolean v) eqn:Eb; [cbn; by rewrite Eb|]. rewrite !node_unfold by done.
  destruct (check_object v root); [|done]. cbn zeta.
  assert (Hgo : forall c, child v c -> validate_schema_node n root c = validate_schema_node m root c).
  { intros c Hc%depth_child. apply IH; lia. }
  rewrite (visit_keywords_ext _ _ v Hgo), (visit_dependencies_ext _ _ v Hgo).
  by rewrite !(visit_properties_ext _ _ v _ Hgo) by (by repeat constructor).
Qed.

(** Checking a schema ends.  The recursion goes no deeper than the schema is
    nested: with that much fuel it has an answer, and more fuel does not change
    the answer. *)
Theorem schema_validation_terminates root v :
  exists r, forall fuel, (depth v <= fuel)%nat -> validate_schema_node fuel root v = Some r.
Proof.
  destruct (node_total (depth v) root v (le_n _)) as [r Hr]. exists r. intros fuel Hf.
  by rewrite <-Hr, (node_fuel fuel (depth v)).
Qed.

(** C27: a schema is accepted exactly when it is an object with definitions and
    every schema inside it, however deep, is a boolean or an object that does not
    override type resolution and whose reference leads to a definition. *)
Theorem schema_accepted_exactly schema :
  validate_schema schema = Ok () <->
  is_object schema = true /\ is_object (index_of schema "definitions") = true /\
  forall w, subschema schema w -> schema_ok schema w.
Proof.
  unfold validate_schema. destruct (is_object schema && _) eqn:E; cbn [ensure mbind Result_bind].
  - apply andb_true_iff in E as [-> ->]. rewrite <-(node_spec (depth schema)) by done.
    destruct (node_total (depth schema) schema schema (le_n _)) as [r ->]. cbn. naive_solver.
  - split; [done|]. intros (H1 & H2 & _). rewrite H1, H2 in E. done.
Qed.

(** * The canonical form does not depend on the order of fields *)
Inductive json_same : Value -> Value -> Prop :=
| same_refl v : json_same v v
| same_array l k : same_list l k -> json_same (Array l) (Array k)
| same_object l m k : Permutation l m -> same_fields m k -> json_same (Object l) (Object k)
with same_list : list Value -> list Value -> Prop :=
| same_nil : same_list [] []
| same_cons x y l k : json_same x y -> same_list l k -> same_list (x :: l) (y :: k)
with same_fields : list (string * Value) -> list (string * Value) -> Prop :=
| fields_nil : same_fields [] []
| fields_cons f x y l k : json_same x y -> same_fields l k -> same_fields ((f, x) :: l) ((f, y) :: k).
Scheme json_same_mut := Induction for json_same Sort Prop
with same_list_mut := Induction for same_list Sort Prop
with same_fields_mut := Induction for same_fields Sort Prop.

(** Objects have distinct keys. *)
Fixpoint keys_distinct (v : Value) : Prop :=
  match v with
  | Array l => fold_right (fun x P => keys_distinct x /\ P) True l
  | Object l => NoDup (map fst l) /\ fold_right (fun kv P => keys_distinct (snd kv) /\ P) True l
  | _ => True
  end.

(** Strings are ordered. *)
Lemma leb_compare a b : String.leb a b = true <-> String.compare a b <> Gt.
Proof. unfold String.leb. destruct (String.compare a b); naive_solver. Qed.
Lemma string_leb_trans a b c : String.leb a b = true -> String.leb b c = true -> String.leb a c = true.
Proof.
  rewrite !leb_compare. revert b c. induction a as [|x a IH]; intros [|y b] [|z c]; cbn; try done.
  unfold Ascii.compare.
  destruct (N.compare_spec (N_of_ascii x) (N_of_ascii y)), (N.compare_spec (N_of_ascii y) (N_of_ascii z)),
    (N.compare_spec (N_of_ascii x) (N_of_ascii z)); try done; try lia. apply IH.
Qed.
#[local] Instance key_leb_trans : Transitive key_leb.
Proof. intros a b c. unfold key_leb. apply string_leb_trans. Qed.
#[local] Instance key_leb_total : Total key_leb.
Proof. intros a b. unfold key_leb. destruct (String.leb_total a.1 b.1); auto. Qed.

Lemma sort_fields_unique (l k : list (string * Value)) :
  Permutation l k -> NoDup (map fst l) -> merge_sort key_leb l = merge_sort key_leb k.
Proof.
  intros Hp Hd. apply (StronglySorted_unique_strong key_leb).
  - intros [f x] [g y]. rewrite !(merge_sort_Permutation key_leb), <-Hp. intros Hx Hy H1 H2.
    assert (f = g) as <- by (by apply String.leb_antisym). f_equal.
    pose proof (elem_of_list_to_map_1 (M := gmap string) l f x Hd Hx) as E1.
    pose proof (elem_of_list_to_map_1 (M := gmap string) l f y Hd Hy) as E2. congruence.
  - apply (StronglySorted_merge_sort key_leb).
  - apply (StronglySorted_merge_sort key_leb).
  - by rewrite !(merge_sort_Permutation key_leb).
Qed.

Lemma fold_and_Forall {A} (P : A -> Prop) l : fold_right (fun x Q => P x /\ Q) True l <-> Forall P l.
Proof. induction l as [|x l IH]; cbn; [by split|]. by rewrite Forall_cons, IH. Qed.

Lemma canonical_same v w : json_same v w -> keys_distinct v -> canonical_json v = canonical_json w.
Proof.
  revert v w. apply (json_same_mut
    (fun v w _ => keys_distinct v -> canonical_json v = canonical_json w)
    (fun l k _ => Forall keys_distinct l -> map canonical_json l = map canonical_json k)
    (fun l k _ => Forall (fun kv => keys_distinct kv.2) l ->
       map (fun kv => (kv.1, canonical_json kv.2)) l = map (fun kv => (kv.1, canonical_json kv.2)) k /\
       map fst l = map fst k)); cbn.
  - done.
  - intros l k _ IH Hd. f_equal. apply IH. by apply fold_and_Forall.
  - intros l m k Hp _ IH [Hk Hd]. f_equal. rewrite (fold_and_Forall (fun kv => keys_distinct kv.2)) in Hd.
    destruct IH as [<- _]; [by rewrite <-Hp|]. apply sort_fields_unique.
    + by apply Permutation_map.
    + by rewrite map_map.
  - done.
  - intros x y l k _ IHx _ IHl [Hx Hl]%Forall_cons. by rewrite IHx, IHl.
  - done.
  - intros f x y l k _ IHx _ IHl [Hx Hl]%Forall_cons. destruct (IHl Hl) as [-> ->]. cbn in Hx. by rewrite (IHx Hx).
Qed.

Section published.
Context `{Sha256, Json Value}.

(** The hash of a contract does not depend on the order of the fields in its
    document: two documents that differ only in that order are published as the
    same contract with the same hash. *)
Theorem contract_hash_ignores_order v w a b :
  json_same v w -> keys_distinct v ->
  PublicActorContract_new v = Ok a -> PublicActorContract_new w = Ok b -> a = b.
Proof.
  intros Hs Hd Ha Hb. unfold PublicActorContract_new in *. rewrite (canonical_same v w Hs Hd) in Ha.
  apply bind_ok in Ha as (pa & _ & Ha). apply bind_ok in Ha as ([] & _ & Ha). apply bind_ok in Ha as ([] & _ & Ha).
  apply bind_ok in Hb as (pb & _ & Hb). apply bind_ok in Hb as ([] & _ & Hb). apply bind_ok in Hb as ([] & _ & Hb).
  congruence.
Qed.
End published.

(** * Example *)
From S2P Require Import Samples.
Import Hex.

Definition typescript_field : string * Value :=
  ("typescript", Object [("declarations", Str "export {}"); ("dependencies", Object [("@a/b", Str "1")])]).
Definition one_order : Value := Object [("version", Number "1"); ("actors", Array []); typescript_field].
Definition other_order : Value := Object [typescript_field; ("actors", Array []); ("version", Number "1")].
Definition published_once : PublishedContract :=
  {| contract_hash := "sha256:" +:+ hex_bytes (sha256 (to_vec (canonical_json one_order)));
     contract := Object [("actors", Array []); typescript_field; ("version", Number "1")] |}.

Lemma contract_hash_ignores_order_witness :
  PublicActorContract_new one_order = Ok published_once /\ PublicActorContract_new other_order = Ok published_once.
Proof.
  assert (H1 : PublicActorContract_new one_order = Ok published_once) by (by vm_compute).
  destruct (PublicActorContract_new other_order) as [c|e] eqn:H2; [|by vm_compute in H2].
  split; [exact H1|]. f_equal. symmetry.
  apply (contract_hash_ignores_order one_order other_order published_once c); [| |exact H1|exact H2].
  - eapply same_object; [|repeat econstructor].
    apply (Permutation_rev [("version", Number "1"); ("actors", Array []); typescript_field]).
  - cbn. split_and?; try done; apply (bool_decide_unpack _); by vm_compute.
Defined.
