(* ===== verification/Tokens.v ===== *)
(** Credentials: control_plane/auth.rs, control_plane/issuer.rs,
    control_plane/socket_ticket.rs, and what a host does with them in host/http.rs.

    The control plane signs tokens for hosts, for clients that invoke an actor
    directly and for sockets; hosts and the control plane verify them.  The JWT
    library is a parameter ([Jwt]) with the behaviour the code relies on
    ([JwtLaws]); what the code itself checks is written out. *)

From S2P Require Import Prelude.
From S2P Require Import Actors.
From S2P Require Import StoragePaths.
From S2P Require Import Snapshots.
From S2P Require Import SocketEffects.
From S2P Require Import Deployments.
Local Open Scope string_scope.
Local Open Scope Z_scope.

(** * The JWT library *)
Record JwtHeader := { typ : option string; kid : option string; eddsa : bool }.
Record Validation := {
  vl_issuer : string;
  vl_audience : string;
  vl_leeway : Z;
  vl_validate_exp : bool;
  vl_validate_nbf : bool }.

(** Registered claims *)
Class JwtClaims (C : Type) := {
  claim_iss : C -> string;
  claim_aud : C -> list string;
  claim_nbf : C -> Z;
  claim_exp : C -> Z }.

(** What [Validation] asks of the claims at time [now] *)
Definition accepts `{JwtClaims C} (v : Validation) (now : Z) (c : C) : Prop :=
  claim_iss c = vl_issuer v /\ vl_audience v ∈ claim_aud c /\
  (vl_validate_exp v = true -> now - vl_leeway v <= claim_exp c) /\
  (vl_validate_nbf v = true -> claim_nbf c <= now + vl_leeway v).

Class JwtKeys := { verifying_key : string -> string; decode_header : string -> Result JwtHeader }.
Class Jwt (C : Type) := {
  jwt_encode : string -> string -> C -> Result string;
  jwt_decode : Validation -> Z -> string -> string -> Result C }.

Class JwtLaws (C : Type) `{JwtClaims C, JwtKeys, Jwt C} : Prop := {
  jwt_header_of : forall id key (c : C) token, jwt_encode id key c = Ok token ->
    decode_header token = Ok {| typ := Some "JWT"; kid := Some id; eddsa := true |};
  jwt_accepts : forall id key (c : C) token v now, jwt_encode id key c = Ok token -> accepts v now c ->
    jwt_decode v now (verifying_key key) token = Ok c;
  jwt_only : forall id key (c c' : C) token v now k, jwt_encode id key c = Ok token ->
    jwt_decode v now k token = Ok c' -> c' = c /\ accepts v now c;
  (* compact serialization: three base64 parts *)
  jwt_text : forall id key (c : C) token, jwt_encode id key c = Ok token ->
    is_empty token = false /\ is_trimmed token = true }.

(** A token for the bucket ([bucket/access.rs]) *)
Record StorageToken := { tok_access_token : string; tok_expires_at_ms : Z }.

(** * Claims and principals *)
Inductive ActorTokenPurpose := ControlPlane | Invocation.
#[global] Instance ActorTokenPurpose_eq_dec : EqDecision ActorTokenPurpose.
Proof. solve_decision. Defined.
Definition purpose_claim (p : ActorTokenPurpose) : string :=
  match p with ControlPlane => "actor:authority" | Invocation => "actor:invoke" end.

Record ActorInvocationCapability := {
  cap_actor : ActorKey;
  cap_host_id : HostId;
  cap_owner_epoch : Z }.

Record ActorPrincipal := {
  pr_actor : ActorKey;
  pr_host_id : HostId;
  pr_session_id : string;
  pr_region : string;
  pr_host_config_key : option string;
  pr_invocation : option ActorInvocationCapability }.

(** The claims as the issuer writes and the verifier reads them *)
Record ActorJwtClaims := {
  cl_actor : ActorKey;
  cl_iss : string;
  cl_aud : list string;
  cl_sub : string;
  cl_process_id : string;
  cl_session_id : string;
  cl_region : string;
  cl_host_config_key : option string;
  cl_scope : string;
  cl_iat : Z;
  cl_nbf : Z;
  cl_exp : Z;
  cl_invocation : option ActorInvocationCapability }.
#[global] Instance ActorJwtClaims_jwt : JwtClaims ActorJwtClaims :=
  {| claim_iss := cl_iss; claim_aud := cl_aud; claim_nbf := cl_nbf; claim_exp := cl_exp |}.

(** [i64] operations *)
Definition i64_saturating_add (a b : Z) : Z := Z.max (-(I64_MAX + 1)) (Z.min (a + b) I64_MAX).
Definition i64_checked_sub (a b : Z) : option Z :=
  if (-(I64_MAX + 1) <=? a - b) && (a - b <=? I64_MAX) then Some (a - b) else None.
Definition i64_checked_mul (a b : Z) : option Z :=
  if (-(I64_MAX + 1) <=? a * b) && (a * b <=? I64_MAX) then Some (a * b) else None.
Definition i64_wrap (n : Z) : Z := (n + (I64_MAX + 1)) mod 2 ^ 64 - (I64_MAX + 1).

(** [split_ascii_whitespace] *)
Definition is_ascii_whitespace (c : ascii) : bool :=
  (byte c =? 32) || (byte c =? 9) || (byte c =? 10) || (byte c =? 12) || (byte c =? 13).
Fixpoint words_from (word s : string) : list string :=
  match s with
  | EmptyString => if is_empty word then [] else [word]
  | String c s' =>
      if is_ascii_whitespace c then (if is_empty word then [] else [word]) ++ words_from "" s'
      else words_from (word +:+ String c "") s'
  end.
Definition split_ascii_whitespace (s : string) : list string := words_from "" s.

(** * [auth.rs] *)
Definition CLOCK_SKEW : Z := 5.

Record ActorJwtVerifier := {
  vf_public_keys : gmap string string;
  vf_validation : Validation;
  vf_purpose : ActorTokenPurpose;
  vf_max_lifetime : Z }.

Definition ActorJwtVerifier_new (keys : gmap string string) (issuer audience : string)
  (purpose : ActorTokenPurpose) (max_lifetime : Z) : Result ActorJwtVerifier :=
  ensure (negb (max_lifetime =? 0)) "actor JWT maximum lifetime must be positive";;
  ensure (negb (bool_decide (keys = ∅))) "actor JWT public-key set must not be empty";;
  ensure (negb (is_empty issuer)) "actor JWT issuer must not be empty";;
  ensure (negb (is_empty audience)) "actor JWT audience must not be empty";;
  Ok {| vf_public_keys := keys;
        vf_validation := {| vl_issuer := issuer; vl_audience := audience; vl_leeway := CLOCK_SKEW;
                            vl_validate_exp := true; vl_validate_nbf := true |};
        vf_purpose := purpose; vf_max_lifetime := max_lifetime |}.

Definition bearer_token (authorization : string) : Result string :=
  token ← with_context (strip_prefix "Bearer " authorization) "actor token must use Bearer authentication";
  ensure (negb (is_empty token) && is_trimmed token) "actor token is invalid";;
  Ok token.

Definition validate_capability (h : HostId) (c : ActorInvocationCapability) : Result unit :=
  ensure (String.eqb (cap_host_id c) h) "actor invocation capability targets another host";;
  ActorKey_validate (cap_actor c);;
  ensure (0 <? cap_owner_epoch c) "actor invocation capability owner epoch is invalid".

Section tokens.
(** [uuid::Uuid::parse_str(s).is_ok()] *)
Context (uuid_ok : string -> bool) `{JwtKeys, Jwt ActorJwtClaims}.

(** [now]: the clock in seconds *)
Definition validate_claims (vf : ActorJwtVerifier) (now : Z) (c : ActorJwtClaims) : Result ActorPrincipal :=
  ensure (existsb (String.eqb (purpose_claim (vf_purpose vf))) (split_ascii_whitespace (cl_scope c)))
    "actor token credential scope is invalid";;
  ensure (negb (is_empty (cl_sub c))) "actor token subject is empty";;
  ensure (String.eqb (cl_sub c) (cl_process_id c)) "host token subject does not match its process identity";;
  ensure (uuid_ok (cl_session_id c)) "actor token session ID is invalid";;
  ensure (cl_iat c <? cl_exp c) "actor token lifetime is invalid";;
  lifetime ← with_context (i64_checked_sub (cl_exp c) (cl_iat c)) "actor token lifetime is invalid";
  ensure (0 <=? lifetime) "actor token lifetime is invalid";;
  ensure (lifetime <=? vf_max_lifetime vf) "actor token lifetime exceeds the configured maximum";;
  ensure (now <? cl_exp c) "actor token has expired";;
  ensure (cl_iat c <=? i64_saturating_add now CLOCK_SKEW) "actor token was issued in the future";;
  ActorKey_validate (cl_actor c);;
  ensure (starts_with "host.v3." (cl_process_id c)) "invalid host identity";;
  ensure (negb (is_empty (cl_region c)) && (len (cl_region c) <=? 64) && all_bytes region_byte (cl_region c))
    "actor token storage region is invalid";;
  match cl_invocation c with
  | Some capability => validate_capability (cl_process_id c) capability
  | None => Ok ()
  end;;
  Ok {| pr_actor := cl_actor c; pr_host_id := cl_process_id c; pr_session_id := cl_session_id c;
        pr_region := cl_region c; pr_host_config_key := cl_host_config_key c;
        pr_invocation := cl_invocation c |}.

(** [library_now]: the clock that the library reads before the code does *)
Definition verify_with_header (vf : ActorJwtVerifier) (library_now now : Z) (token : string) (h : JwtHeader)
  : Result ActorPrincipal :=
  ensure (match typ h with None => true | Some t => String.eqb t "JWT" end) "actor token has an invalid type";;
  key_id ← with_context (kid h) "actor token key ID is empty";
  key ← with_context (vf_public_keys vf !! key_id) "actor token uses unknown key ID";
  claims ← jwt_decode (vf_validation vf) library_now key token;
  validate_claims vf now claims.
Definition authenticate_authorization (vf : ActorJwtVerifier) (library_now now : Z) (authorization : string)
  : Result ActorPrincipal :=
  token ← bearer_token authorization;
  h ← decode_header token;
  verify_with_header vf library_now now token h.

(** * [issuer.rs] *)
Definition HOST_TOKEN_TTL : Z := 1800.
Definition INVOCATION_TARGET_TTL : Z := 60.

Record ActorJwtIssuer := {
  is_encoding_key : string;
  is_key_id : string;
  is_issuer : string;
  is_authority_audience : string;
  is_invocation_audience : string;
  (* in seconds, as it is configured *)
  is_max_lifetime : Z }.
Record IssuedActorToken := { it_token : string; it_expires_at_ms : Z }.

Definition issue (s : ActorJwtIssuer) (c : ActorJwtClaims) : Result IssuedActorToken :=
  expires ← with_context (i64_checked_mul (cl_exp c) 1000) "issued actor token expiration overflow";
  token ← jwt_encode (is_key_id s) (is_encoding_key s) c;
  Ok {| it_token := token; it_expires_at_ms := expires |}.

Definition duration_millis (secs : Z) : Result Z := i64_try_from (secs * 1000).

Definition issue_host (s : ActorJwtIssuer) (now_ms : Z) (h : HostId) (ses config_key region : string)
  (actor : ActorKey) : Result IssuedActorToken :=
  ActorKey_validate actor;;
  lifetime ← duration_millis (Z.min (is_max_lifetime s) HOST_TOKEN_TTL);
  let expires_at_ms := i64_saturating_add now_ms lifetime in
  issue s {| cl_actor := actor; cl_iss := is_issuer s;
             cl_aud := [is_authority_audience s; is_invocation_audience s];
             cl_sub := h; cl_process_id := h; cl_session_id := ses; cl_region := region;
             cl_host_config_key := Some config_key; cl_scope := "actor:authority actor:invoke";
             cl_iat := now_ms / 1000; cl_nbf := now_ms / 1000; cl_exp := expires_at_ms / 1000;
             cl_invocation := None |}.

Definition issue_invocation_target (s : ActorJwtIssuer) (now_ms : Z) (actor : ActorKey) (h : HostId)
  (ses config_key region : string) (owner_epoch : Z) : Result IssuedActorToken :=
  ActorKey_validate actor;;
  validate_region region;;
  ensure (0 <? owner_epoch) "actor owner epoch must be positive";;
  let now := now_ms / 1000 in
  issuer_lifetime ← i64_try_from (is_max_lifetime s);
  let expires_at := Z.min (i64_saturating_add now INVOCATION_TARGET_TTL)
                          (i64_saturating_add now issuer_lifetime) in
  ensure (now <? expires_at) "invocation credential expires too soon";;
  issue s {| cl_actor := actor; cl_iss := is_issuer s; cl_aud := [is_invocation_audience s];
             cl_sub := h; cl_process_id := h; cl_session_id := ses; cl_region := region;
             cl_host_config_key := Some config_key; cl_scope := "actor:invoke";
             cl_iat := now; cl_nbf := now; cl_exp := expires_at;
             cl_invocation := Some {| cap_actor := actor; cap_host_id := h; cap_owner_epoch := owner_epoch |} |}.
End tokens.

(** * [socket_ticket.rs] *)
Record SocketTarget := { st_host_id : HostId; st_session_id : string; st_owner_epoch : Z }.
Record SocketGrant := {
  sg_actor : ActorKey;
  sg_region : string;
  sg_target : option SocketTarget;
  sg_metadata : Value;
  sg_authorization_lifetime_ms : Z }.
Record SocketTicket := {
  tk_iss : string;
  tk_aud : string;
  tk_scope : string;
  tk_iat : Z;
  tk_nbf : Z;
  tk_exp : Z;
  tk_actor : ActorKey;
  tk_region : string;
  tk_target : option SocketTarget;
  tk_metadata : Value;
  tk_connect_by_ms : Z;
  tk_authorized_until_ms : Z }.
#[global] Instance SocketTicket_jwt : JwtClaims SocketTicket :=
  {| claim_iss := tk_iss; claim_aud := fun t => [tk_aud t]; claim_nbf := tk_nbf; claim_exp := tk_exp |}.

Section sockets.
Context `{Json Value, JwtKeys, Jwt SocketTicket}.

Definition SocketGrant_validate (g : SocketGrant) : Result unit :=
  ActorKey_validate (sg_actor g);;
  validate_region (sg_region g);;
  validate_socket_metadata (sg_metadata g);;
  ensure ((1000 <=? sg_authorization_lifetime_ms g) && (sg_authorization_lifetime_ms g <=? 86400000))
    "socket authorization lifetime must be between one second and one day".

Definition SocketTicket_validate (t : SocketTicket) (now_ms : Z) : Result unit :=
  ActorKey_validate (tk_actor t);;
  validate_region (tk_region t);;
  validate_socket_metadata (tk_metadata t);;
  ensure (String.eqb (tk_scope t) "actor:socket") "invalid socket ticket scope";;
  ensure ((i64_wrap (tk_iat t * 1000) <=? now_ms) && (i64_wrap (tk_nbf t * 1000) <=? now_ms))
    "socket ticket is not active";;
  ensure ((now_ms <? tk_connect_by_ms t) && (now_ms <? tk_authorized_until_ms t)) "socket ticket has expired";;
  ensure ((tk_connect_by_ms t <=? tk_authorized_until_ms t)
          && (i64_wrap (tk_connect_by_ms t - i64_wrap (tk_iat t * 1000)) <=? 61000))
    "invalid socket ticket admission lifetime";;
  ensure (i64_wrap (tk_authorized_until_ms t - i64_wrap (tk_iat t * 1000)) <=? 86401000)
    "invalid socket authorization lifetime".

Record SocketTicketVerifier := {
  sv_keys : gmap string string;
  sv_issuer : string;
  sv_audience : string }.

(** [library_now]: the clock of the library, which checks no times here *)
Definition verify_at (v : SocketTicketVerifier) (token : string) (library_now now_ms : Z) : Result SocketTicket :=
  ensure (len token <=? 128 * 1024) "socket ticket is too large";;
  h ← decode_header token;
  ensure (eddsa h) "invalid socket ticket algorithm";;
  id ← with_context (kid h) "socket signing key missing";
  key ← with_context (sv_keys v !! id) "unknown socket signing key";
  ticket ← jwt_decode {| vl_issuer := sv_issuer v; vl_audience := sv_audience v; vl_leeway := 60;
                         vl_validate_exp := false; vl_validate_nbf := false |} library_now key token;
  SocketTicket_validate ticket now_ms;;
  Ok ticket.

Definition socket_audience (s : ActorJwtIssuer) : string := is_authority_audience s +:+ ":websocket".

Definition issue_socket_at (s : ActorJwtIssuer) (g : SocketGrant) (now_ms : Z) : Result (string * Z * Z) :=
  SocketGrant_validate g;;
  max_lifetime ← duration_millis (is_max_lifetime s);
  let lifetime := Z.min (sg_authorization_lifetime_ms g) max_lifetime in
  ensure (1000 <=? lifetime) "configured token lifetime is too short for a socket";;
  authorized_until ← with_context (i64_checked_add now_ms lifetime) "socket authorization time overflow";
  let connect_by := Z.min authorized_until (i64_wrap (now_ms + 60000)) in
  token ← jwt_encode (is_key_id s) (is_encoding_key s)
    {| tk_iss := is_issuer s; tk_aud := socket_audience s; tk_scope := "actor:socket";
       tk_iat := now_ms / 1000; tk_nbf := now_ms / 1000; tk_exp := i64_wrap (connect_by + 999) / 1000;
       tk_actor := sg_actor g; tk_region := sg_region g; tk_target := sg_target g;
       tk_metadata := sg_metadata g; tk_authorized_until_ms := authorized_until;
       tk_connect_by_ms := connect_by |};
  Ok (token, connect_by, authorized_until).
End sockets.

(** * [host/http.rs]: what a host lets a principal do *)
Inductive HttpResult (A : Type) : Type :=
| HttpOk (a : A)
| HttpError (status : Z) (message : string).
Arguments HttpOk {A} a.
Arguments HttpError {A} status message.

Definition MAX_SAFE_EPOCH : Z := 9007199254740991.

Definition validate_host_request (p : ActorPrincipal) (h : HostId) (ses : string) (actor : ActorKey)
  (owner_epoch : Z) : HttpResult unit :=
  if (owner_epoch =? 0) || (MAX_SAFE_EPOCH <? owner_epoch)
  then HttpError 400 "actor ownership capability is incomplete"
  else if negb (String.eqb (pr_host_id p) h) || negb (String.eqb (pr_session_id p) ses)
          || negb (bool_decide (pr_actor p = actor))
  then HttpError 403 "actor credential belongs to another actor or host session"
  else match pr_invocation p with
  | Some c =>
      if negb (bool_decide (cap_actor c = actor)) || negb (String.eqb (cap_host_id c) h)
         || negb (cap_owner_epoch c =? owner_epoch)
      then HttpError 403 "actor invocation does not match its direct capability"
      else HttpOk ()
  | None => HttpOk ()
  end.

Definition http_authenticate (uuid_ok : string -> bool) `{JwtKeys, Jwt ActorJwtClaims} (vf : ActorJwtVerifier)
  (library_now now : Z) (authorization : option string) : HttpResult ActorPrincipal :=
  match authenticate_authorization uuid_ok vf library_now now (default "" authorization) with
  | Ok p => HttpOk p
  | Err _ => HttpError 401 "invalid actor invocation ticket"
  end.
Definition http_authorize (h : HostId) (ses : string) (p : ActorPrincipal) (actor : ActorKey)
  (owner_epoch : Z) : HttpResult unit :=
  match ActorKey_validate actor with
  | Err e => HttpError 400 e
  | Ok _ => validate_host_request p h ses actor owner_epoch
  end.
(** What [invoke], [publish] and [ping] have in common *)
Definition http_admits (uuid_ok : string -> bool) `{JwtKeys, Jwt ActorJwtClaims} (vf : ActorJwtVerifier)
  (library_now now : Z) (authorization : option string) (h : HostId) (ses : string) (actor : ActorKey)
  (owner_epoch : Z) : HttpResult unit :=
  match http_authenticate uuid_ok vf library_now now authorization with
  | HttpError st e => HttpError st e
  | HttpOk p => http_authorize h ses p actor owner_epoch
  end.

(** * Issued tokens *)
Section issued.
Context (uuid_ok : string -> bool) `{JwtKeys, Jwt ActorJwtClaims, !JwtLaws ActorJwtClaims}.

(** The verifier knows the issuer's key, name and audience. *)
Record trusts (vf : ActorJwtVerifier) (s : ActorJwtIssuer) (audience : string) : Prop := {
  tr_key : vf_public_keys vf !! is_key_id s = Some (verifying_key (is_encoding_key s));
  tr_validation : vf_validation vf =
    {| vl_issuer := is_issuer s; vl_audience := audience; vl_leeway := CLOCK_SKEW;
       vl_validate_exp := true; vl_validate_nbf := true |} }.

Lemma bearer_issued id key (c : ActorJwtClaims) token :
  jwt_encode id key c = Ok token -> bearer_token ("Bearer " +:+ token) = Ok token.
Proof.
  intros [He Ht]%jwt_text. unfold bearer_token. rewrite strip_prefix_app. cbn [with_context mbind Result_bind].
  by rewrite He, Ht.
Qed.

Lemma authenticate_accepted vf s audience c token ln now :
  trusts vf s audience -> jwt_encode (is_key_id s) (is_encoding_key s) c = Ok token ->
  accepts (vf_validation vf) ln c ->
  authenticate_authorization uuid_ok vf ln now ("Bearer " +:+ token) = validate_claims uuid_ok vf now c.
Proof.
  intros [Hk Hv] He Ha. unfold authenticate_authorization. rewrite (bearer_issued _ _ _ _ He). cbn [mbind Result_bind].
  rewrite (jwt_header_of _ _ _ _ He). cbn [mbind Result_bind]. unfold verify_with_header. cbn [typ kid with_context].
  change (ensure (String.eqb "JWT" "JWT") _) with (Ok ()). cbn [mbind Result_bind].
  rewrite Hk. cbn [with_context mbind Result_bind].
  by rewrite (jwt_accepts _ _ _ _ _ _ He Ha).
Qed.
(** Whatever verifier and time, a token stands for no other claims. *)
Lemma authenticate_only vf id key c token ln now p :
  jwt_encode id key c = Ok token ->
  authenticate_authorization uuid_ok vf ln now ("Bearer " +:+ token) = Ok p ->
  validate_claims uuid_ok vf now c = Ok p.
Proof.
  intros He. unfold authenticate_authorization. rewrite (bearer_issued _ _ _ _ He). cbn [mbind Result_bind].
  rewrite (jwt_header_of _ _ _ _ He). cbn [mbind Result_bind]. unfold verify_with_header. cbn [typ kid].
  intros Hp. res_inv. match goal with H : jwt_decode _ _ _ _ = Ok _ |- _ => by destruct (jwt_only _ _ _ _ _ _ _ _ He H) as [-> _] end.
Qed.

Lemma issue_ok s c t : issue s c = Ok t ->
  jwt_encode (is_key_id s) (is_encoding_key s) c = Ok (it_token t) /\ it_expires_at_ms t = cl_exp c * 1000.
Proof.
  unfold issue, i64_checked_mul. intros E. destruct (_ && _); [|done]. cbn [with_context mbind Result_bind] in E.
  res_inv. by cbn.
Qed.

Lemma validate_region_ok region : validate_region region = Ok () ->
  negb (is_empty region) && (len region <=? 64) && all_bytes region_byte region = true.
Proof. intros E. by apply ensure_ok in E. Qed.

Lemma seconds_bound now_ms : 0 <= now_ms <= I64_MAX -> 0 <= now_ms / 1000 <= 9223372036854775.
Proof.
  unfold I64_MAX. intros H'. pose proof (Z.div_lt_upper_bound now_ms 1000 9223372036854776).
  pose proof (Z.div_pos now_ms 1000). lia.
Qed.

(** The claims of an invocation token *)
Definition invocation_claims (s : ActorJwtIssuer) (now : Z) (actor : ActorKey) (h : HostId)
  (ses config_key region : string) (epoch exp : Z) : ActorJwtClaims :=
  {| cl_actor := actor; cl_iss := is_issuer s; cl_aud := [is_invocation_audience s];
     cl_sub := h; cl_process_id := h; cl_session_id := ses; cl_region := region;
     cl_host_config_key := Some config_key; cl_scope := "actor:invoke";
     cl_iat := now; cl_nbf := now; cl_exp := exp;
     cl_invocation := Some {| cap_actor := actor; cap_host_id := h; cap_owner_epoch := epoch |} |}.

Lemma target_expiry now lifetime : 0 <= now <= 9223372036854775 -> 0 <= lifetime ->
  Z.min (i64_saturating_add now INVOCATION_TARGET_TTL) (i64_saturating_add now lifetime) =
  now + Z.min 60 lifetime.
Proof. unfold i64_saturating_add, INVOCATION_TARGET_TTL, I64_MAX. lia. Qed.
Lemma i64_try_from_ok n m : i64_try_from n = Ok m -> m = n.
Proof. unfold i64_try_from. case_match; congruence. Qed.

Lemma invocation_issued s now_ms actor h ses key region epoch t exp :
  0 <= now_ms <= I64_MAX -> 0 <= is_max_lifetime s ->
  issue_invocation_target s now_ms actor h ses key region epoch = Ok t ->
  exp = now_ms / 1000 + Z.min 60 (is_max_lifetime s) ->
  jwt_encode (is_key_id s) (is_encoding_key s)
    (invocation_claims s (now_ms / 1000) actor h ses key region epoch exp) = Ok (it_token t) /\
  it_expires_at_ms t = exp * 1000 /\ ActorKey_validate actor = Ok () /\ validate_region region = Ok () /\
  0 < epoch /\ now_ms / 1000 < exp.
Proof.
  intros Hnow Hmax E Eexp. pose proof (seconds_bound now_ms Hnow) as Hsec.
  unfold issue_invocation_target in E.
  apply bind_ok in E as ([] & Ha & E). apply bind_ok in E as ([] & Hr & E).
  apply bind_ok in E as ([] & Hep%ensure_ok & E). apply bind_ok in E as (l & ->%i64_try_from_ok & E).
  rewrite target_expiry, <-Eexp in E by done. apply bind_ok in E as ([] & Hexp%ensure_ok & E).
  apply issue_ok in E as [He Et]. apply Z.ltb_lt in Hep, Hexp. by split_and!.
Qed.

(** The verifier's checks on the claims of an invocation token *)
Lemma invocation_validated vf s now_ms now actor h ses key region epoch exp :
  0 <= now_ms <= I64_MAX -> now_ms / 1000 <= now ->
  vf_purpose vf = Invocation -> exp - now_ms / 1000 <= Z.min 60 (vf_max_lifetime vf) ->
  ActorKey_validate actor = Ok () -> validate_region region = Ok () -> 0 < epoch ->
  now_ms / 1000 < exp -> starts_with "host.v3." h = true -> uuid_ok ses = true -> now <= I64_MAX - 5 ->
  validate_claims uuid_ok vf now (invocation_claims s (now_ms / 1000) actor h ses key region epoch exp) =
  if now <? exp then
    Ok {| pr_actor := actor; pr_host_id := h; pr_session_id := ses; pr_region := region;
          pr_host_config_key := Some key;
          pr_invocation := Some {| cap_actor := actor; cap_host_id := h; cap_owner_epoch := epoch |} |}
  else Err "actor token has expired".
Proof.
  intros Hms Hle Hp Hlife Ha Hr He Hexp Hh Hu Hmax. pose proof (seconds_bound now_ms Hms) as Hsec.
  unfold validate_claims. cbn [invocation_claims cl_scope cl_sub cl_process_id cl_session_id cl_iat cl_exp cl_actor
    cl_region cl_invocation]. rewrite Hp. cbn [purpose_claim].
  change (existsb _ (split_ascii_whitespace "actor:invoke")) with true. cbn [ensure mbind Result_bind].
  assert (is_empty h = false) as -> by (by destruct h). rewrite String.eqb_refl, Hu.
  cbn [negb ensure mbind Result_bind].
  assert (now_ms / 1000 <? exp = true) as -> by lia. cbn [ensure mbind Result_bind].
  unfold i64_checked_sub. assert ((-(I64_MAX + 1) <=? exp - now_ms / 1000) && (exp - now_ms / 1000 <=? I64_MAX) = true) as ->.
  { unfold I64_MAX. lia. }
  cbn [with_context mbind Result_bind]. assert (0 <=? exp - now_ms / 1000 = true) as -> by lia.
  assert (exp - now_ms / 1000 <=? vf_max_lifetime vf = true) as -> by lia. cbn [ensure mbind Result_bind].
  destruct (now <? exp) eqn:En; cbn [ensure mbind Result_bind]; [|done].
  assert (now_ms / 1000 <=? i64_saturating_add now CLOCK_SKEW = true) as ->.
  { unfold i64_saturating_add, CLOCK_SKEW, I64_MAX in *. lia. }
  rewrite Ha, Hh, (validate_region_ok _ Hr). cbn [ensure mbind Result_bind].
  unfold validate_capability. cbn [cap_host_id cap_actor cap_owner_epoch]. rewrite String.eqb_refl, Ha.
  assert (0 <? epoch = true) as -> by lia. done.
Qed.

Lemma host_request_exact actor h ses region key epoch h' ses' actor' epoch' :
  let p := {| pr_actor := actor; pr_host_id := h; pr_session_id := ses; pr_region := region;
              pr_host_config_key := key;
              pr_invocation := Some {| cap_actor := actor; cap_host_id := h; cap_owner_epoch := epoch |} |} in
  0 < epoch -> ActorKey_validate actor = Ok () ->
  http_authorize h' ses' p actor' epoch' = HttpOk () <->
  h' = h /\ ses' = ses /\ actor' = actor /\ epoch' = epoch /\ epoch <= MAX_SAFE_EPOCH.
Proof.
  intros p He Ha. unfold http_authorize, validate_host_request. cbn. split.
  - destruct (ActorKey_validate actor'); [|done]. repeat case_match; try done. intros _. bools.
    repeat match goal with
      | H : bool_decide _ = true |- _ => apply bool_decide_eq_true in H
      | H : String.eqb _ _ = true |- _ => apply String.eqb_eq in H
      end. subst. repeat split; lia.
  - intros (-> & -> & -> & -> & Hm). rewrite Ha, !String.eqb_refl, !bool_decide_eq_true_2, Z.eqb_refl by done.
    cbn. assert (epoch =? 0 = false) as -> by lia. assert (MAX_SAFE_EPOCH <? epoch = false) as -> by lia. done.
Qed.

(** C21: an invocation token is worth exactly what it was issued for.  A host that
    trusts the issuer serves a request with the token if and only if the token has
    not expired and the request is for the actor, host, session and ownership
    epoch of the token; the control plane never accepts it as a host's credential. *)
Theorem invocation_token_is_exact s vf now_ms actor h ses key region epoch t ln now h' ses' actor' epoch' :
  0 <= now_ms <= I64_MAX -> 0 <= is_max_lifetime s ->
  issue_invocation_target s now_ms actor h ses key region epoch = Ok t ->
  trusts vf s (is_invocation_audience s) -> vf_purpose vf = Invocation ->
  Z.min 60 (is_max_lifetime s) <= vf_max_lifetime vf ->
  starts_with "host.v3." h = true -> uuid_ok ses = true ->
  now_ms / 1000 <= ln <= now -> now <= I64_MAX - 5 ->
  (http_admits uuid_ok vf ln now (Some ("Bearer " +:+ it_token t)) h' ses' actor' epoch' = HttpOk () <->
     now * 1000 < it_expires_at_ms t /\
     h' = h /\ ses' = ses /\ actor' = actor /\ epoch' = epoch /\ epoch <= MAX_SAFE_EPOCH) /\
  (forall cp ln now, vf_purpose cp = ControlPlane ->
     is_ok (authenticate_authorization uuid_ok cp ln now ("Bearer " +:+ it_token t)) = false).
Proof.
  intros Hms Hmax Hissue Htr Hp Hlife Hh Hu Hln Hi64.
  remember (now_ms / 1000 + Z.min 60 (is_max_lifetime s)) as exp eqn:Eexp.
  destruct (invocation_issued _ _ _ _ _ _ _ _ _ exp Hms Hmax Hissue Eexp) as (He & Et & Ha & Hr & Hep & Hexp). split.
  - pose proof (invocation_validated vf s now_ms now actor h ses key region epoch exp) as Hval.
    rewrite Et. unfold http_admits, http_authenticate. cbn [default from_option id].
    destruct (now <? exp) eqn:En.
    + rewrite (authenticate_accepted vf s _ _ _ ln now Htr He), Hval by (done || lia || by
        rewrite (tr_validation _ _ _ Htr); split_and!; [done|by left|cbn; unfold CLOCK_SKEW; lia..]).
      rewrite host_request_exact by done. intuition lia.
    + split; [|lia]. destruct (authenticate_authorization _ _ _ _ _) as [p|e] eqn:Eauth; [|done].
      apply (authenticate_only _ _ _ _ _ _ _ _ He) in Eauth. rewrite Hval in Eauth by (done || lia). done.
  - intros cp ln' now' Hcp. destruct (authenticate_authorization _ _ _ _ _) as [p|e] eqn:Eauth; [|done].
    apply (authenticate_only _ _ _ _ _ _ _ _ He) in Eauth. unfold validate_claims in Eauth.
    rewrite Hcp in Eauth. done.
Qed.
End issued.

(** * Socket tickets *)
Section socket_tickets.
Context `{Json Value, JwtKeys, Jwt SocketTicket, !JwtLaws SocketTicket}.

Lemma i64_wrap_id n : -(I64_MAX + 1) <= n <= I64_MAX -> i64_wrap n = n.
Proof. unfold i64_wrap, I64_MAX. intros Hn. rewrite Z.mod_small; lia. Qed.
Lemma floor_second now_ms : 0 <= now_ms -> now_ms - 999 <= now_ms / 1000 * 1000 <= now_ms.
Proof. intros Hn. pose proof (Z.div_mod now_ms 1000). pose proof (Z.mod_pos_bound now_ms 1000). lia. Qed.

Definition grant_ticket (s : ActorJwtIssuer) (g : SocketGrant) (now_ms connect_by until : Z) : SocketTicket :=
  {| tk_iss := is_issuer s; tk_aud := socket_audience s; tk_scope := "actor:socket";
     tk_iat := now_ms / 1000; tk_nbf := now_ms / 1000; tk_exp := i64_wrap (connect_by + 999) / 1000;
     tk_actor := sg_actor g; tk_region := sg_region g; tk_target := sg_target g;
     tk_metadata := sg_metadata g; tk_authorized_until_ms := until; tk_connect_by_ms := connect_by |}.

Lemma socket_issued s g now_ms token connect_by until :
  0 <= now_ms <= I64_MAX - 86500000 ->
  issue_socket_at s g now_ms = Ok (token, connect_by, until) ->
  SocketGrant_validate g = Ok () /\
  jwt_encode (is_key_id s) (is_encoding_key s) (grant_ticket s g now_ms connect_by until) = Ok token /\
  until = now_ms + Z.min (sg_authorization_lifetime_ms g) (is_max_lifetime s * 1000) /\
  1000 <= until - now_ms <= 86400000 /\ connect_by = Z.min until (now_ms + 60000).
Proof.
  intros Hnow E. unfold issue_socket_at in E. apply bind_ok in E as ([] & Hg & E).
  apply bind_ok in E as (m & ->%i64_try_from_ok & E). apply bind_ok in E as ([] & Hl%ensure_ok & E).
  apply bind_ok in E as (u & Hu & E). apply bind_ok in E as (tok & He & E).
  assert (Hlife : 1000 <= sg_authorization_lifetime_ms g <= 86400000).
  { unfold SocketGrant_validate in Hg. do 3 apply bind_ok in Hg as ([] & _ & Hg). apply ensure_ok in Hg. bools. lia. }
  apply Z.leb_le in Hl. unfold i64_checked_add in Hu.
  destruct (_ <=? I64_MAX); [|done]. injection Hu as <-.
  rewrite (i64_wrap_id (now_ms + 60000)) in He, E by (unfold I64_MAX in *; lia). injection E as <- <- <-.
  split_and!; [done|exact He|done|lia|lia|done].
Qed.

(** A socket ticket opens the socket it was granted for, until its admission
    deadline and not later.  Verifying a ticket gives back the grant's actor,
    region, target and metadata and the authorization times. *)
Theorem socket_ticket_roundtrip s g v now_ms token connect_by until ln t :
  0 <= now_ms <= I64_MAX - 86500000 ->
  issue_socket_at s g now_ms = Ok (token, connect_by, until) ->
  sv_keys v !! is_key_id s = Some (verifying_key (is_encoding_key s)) ->
  sv_issuer v = is_issuer s -> sv_audience v = socket_audience s -> len token <= 128 * 1024 ->
  now_ms <= t ->
  verify_at v token ln t =
    (if t <? connect_by then Ok (grant_ticket s g now_ms connect_by until) else Err "socket ticket has expired") /\
  connect_by <= until /\ connect_by <= now_ms + 60000 /\
  until - now_ms <= sg_authorization_lifetime_ms g.
Proof.
  intros Hnow Hissue Hk Hi Ha Hlen Ht.
  destruct (socket_issued _ _ _ _ _ _ Hnow Hissue) as (Hg & He & Eu & Hu & Ec). split; [|lia].
  pose proof (floor_second now_ms ltac:(lia)) as Hf.
  unfold verify_at. assert (len token <=? 128 * 1024 = true) as -> by lia. cbn [ensure mbind Result_bind].
  rewrite (jwt_header_of _ _ _ _ He). cbn [mbind Result_bind eddsa kid ensure with_context]. rewrite Hk.
  cbn [with_context mbind Result_bind].
  rewrite (jwt_accepts _ _ _ _ _ ln He) by (unfold accepts; cbn; rewrite Hi, Ha; split_and!; [done|by left|done|done]).
  cbn [mbind Result_bind]. unfold SocketGrant_validate in Hg.
  apply bind_ok in Hg as ([] & Hactor & Hg). apply bind_ok in Hg as ([] & Hregion & Hg).
  apply bind_ok in Hg as ([] & Hmeta & _).
  unfold SocketTicket_validate, grant_ticket. cbn [tk_actor tk_region tk_metadata tk_scope tk_iat tk_nbf
    tk_connect_by_ms tk_authorized_until_ms]. rewrite Hactor, Hregion, Hmeta. cbn [mbind Result_bind].
  change (ensure (String.eqb "actor:socket" "actor:socket") _) with (Ok ()). cbn [mbind Result_bind].
  assert (HI : now_ms + 86500000 <= I64_MAX) by lia.
  rewrite (i64_wrap_id (now_ms / 1000 * 1000)) by (unfold I64_MAX in *; lia).
  assert (now_ms / 1000 * 1000 <=? t = true) as -> by lia. cbn [andb ensure mbind Result_bind].
  destruct (t <? connect_by) eqn:Et; [|done]. assert (t <? until = true) as -> by lia.
  cbn [andb ensure mbind Result_bind]. assert (connect_by <=? until = true) as -> by lia.
  rewrite !i64_wrap_id by (unfold I64_MAX in *; lia).
  assert (connect_by - now_ms / 1000 * 1000 <=? 61000 = true) as -> by lia.
  assert (until - now_ms / 1000 * 1000 <=? 86401000 = true) as -> by lia. done.
Qed.
End socket_tickets.

(** * Examples: tokens as self-delimiting text *)
From S2P Require Import Samples.

#[local] Instance accepts_dec `{JwtClaims C} v now (c : C) : Decision (accepts v now c).
Proof. unfold accepts. apply _. Defined.

Section text_tokens.
Context `{Text C, JwtClaims C}.

Definition text_token (id key : string) (c : C) : string := "{" +:+ put_text (id, (key, c)) "}".
#[export] Instance text_jwt : Jwt C := {|
  jwt_encode id key c := Ok (text_token id key c);
  jwt_decode v now k token :=
    with_context (body ← strip_prefix "{" token;
                  '((_, (key, c)), rest) ← get_text (A := string * (string * C)) body;
                  if bool_decide (rest = "}" /\ k = key /\ accepts v now c) then Some c else None)
      "invalid token" |}.
End text_tokens.

(** The key identifier is in front of the claims, so the header can be read alone. *)
#[export] Instance text_jwt_keys : JwtKeys := {|
  verifying_key key := key;
  decode_header token :=
    with_context (body ← strip_prefix "{" token; '((id, _) : string * string) ← get_text body;
                  Some {| typ := Some "JWT"; kid := Some id; eddsa := true |}) "invalid header" |}.

Lemma last_char_app s c : last_char (s +:+ String c "") = Some c.
Proof.
  induction s as [|a s IH]; [done|]. rewrite sapp_cons. cbn [last_char]. rewrite IH. by destruct s.
Qed.

Lemma Ok_inj {A} (a b : A) : Ok a = Ok b -> a = b.
Proof. congruence. Qed.
#[export] Instance text_jwt_laws `{Text C, JwtClaims C} : JwtLaws C.
Proof.
  split; cbn [jwt_encode jwt_decode text_jwt text_jwt_keys decode_header verifying_key]; unfold text_token.
  - intros id key c token <-%Ok_inj. rewrite strip_prefix_app. cbn [mbind option_bind].
    change (put_text (id, (key, c)) "}") with (put_text id (put_text (key, c) "}")). by rewrite text_roundtrip.
  - intros id key c token v now <-%Ok_inj Ha. rewrite strip_prefix_app. cbn [mbind option_bind].
    rewrite text_roundtrip. cbn [mbind option_bind]. by rewrite bool_decide_eq_true_2.
  - intros id key c c' token v now k <-%Ok_inj. rewrite strip_prefix_app. cbn [mbind option_bind].
    rewrite text_roundtrip. cbn [mbind option_bind]. case_bool_decide as Hd; [|done]. intros [= <-]. naive_solver.
  - intros id key c token <-%Ok_inj. split; [done|]. rewrite <-(sapp_nil_l "}"), <-text_app.
    unfold is_trimmed. rewrite sapp_assoc, last_char_app. done.
Qed.

#[local] Instance capability_text : Text ActorInvocationCapability.
Proof.
  refine (via (fun c => (project_id (cap_actor c), (actor_name (cap_actor c), (actor_id (cap_actor c),
                         (cap_host_id c, cap_owner_epoch c)))))
    (fun '(p, (n, (i, (h, e)))) => Some (Build_ActorInvocationCapability (Build_ActorKey p n i) h e)) _).
  by intros [[]].
Defined.
#[local] Instance claims_text : Text ActorJwtClaims.
Proof.
  refine (via (fun c => (project_id (cl_actor c), (actor_name (cl_actor c), (actor_id (cl_actor c), (cl_iss c,
    (cl_aud c, (cl_sub c, (cl_process_id c, (cl_session_id c, (cl_region c, (cl_host_config_key c, (cl_scope c,
    (cl_iat c, (cl_nbf c, (cl_exp c, cl_invocation c)))))))))))))))
    (fun '(p, (n, (i, (iss, (aud, (sub, (pid, (ses, (reg, (cfg, (sc, (iat, (nbf, (ex, inv)))))))))))))) =>
      Some (Build_ActorJwtClaims (Build_ActorKey p n i) iss aud sub pid ses reg cfg sc iat nbf ex inv)) _).
  by intros [[]].
Defined.
#[local] Instance target_text : Text SocketTarget.
Proof.
  refine (via (fun t => (st_host_id t, (st_session_id t, st_owner_epoch t)))
    (fun '(h, (s, e)) => Some (Build_SocketTarget h s e)) _). by intros [].
Defined.
#[local] Instance ticket_text : Text SocketTicket.
Proof.
  refine (via (fun t => (tk_iss t, (tk_aud t, (tk_scope t, (tk_iat t, (tk_nbf t, (tk_exp t,
    (project_id (tk_actor t), (actor_name (tk_actor t), (actor_id (tk_actor t), (tk_region t, (tk_target t,
    (tk_metadata t, (tk_connect_by_ms t, tk_authorized_until_ms t))))))))))))))
    (fun '(a, (b, (c, (d, (e, (f, (p, (n, (i, (r, (t, (m, (x, y))))))))))))) =>
      Some (Build_SocketTicket a b c d e f (Build_ActorKey p n i) r t m x y)) _).
  by intros [? ? ? ? ? ? []].
Defined.

Definition sample_issuer : ActorJwtIssuer :=
  {| is_encoding_key := "k"; is_key_id := "key-1"; is_issuer := "cp"; is_authority_audience := "authority";
     is_invocation_audience := "hosts"; is_max_lifetime := 3600 |}.
Definition sample_verifier (purpose : ActorTokenPurpose) (audience : string) : ActorJwtVerifier :=
  {| vf_public_keys := {["key-1" := "k"]};
     vf_validation := {| vl_issuer := "cp"; vl_audience := audience; vl_leeway := CLOCK_SKEW;
                         vl_validate_exp := true; vl_validate_nbf := true |};
     vf_purpose := purpose; vf_max_lifetime := 3600 |}.
Definition sample_token : IssuedActorToken :=
  {| it_token := text_token "key-1" "k"
       (invocation_claims sample_issuer 1000 sample_actor "host.v3.a" "session" "cfg" "europe-west" 3 1060);
     it_expires_at_ms := 1060000 |}.

Lemma invocation_token_is_exact_witness :
  http_admits (fun _ => true) (sample_verifier Invocation "hosts") 1010 1010
    (Some ("Bearer " +:+ it_token sample_token)) "host.v3.a" "session" sample_actor 3 = HttpOk ().
Proof.
  apply (invocation_token_is_exact (fun _ => true) sample_issuer (sample_verifier Invocation "hosts") 1000500
           sample_actor "host.v3.a" "session" "cfg" "europe-west" 3 sample_token).
  all: by vm_compute.
Defined.

Definition sample_socket_grant : SocketGrant :=
  {| sg_actor := sample_actor; sg_region := "europe-west"; sg_target := None; sg_metadata := Null;
     sg_authorization_lifetime_ms := 7200000 |}.
Lemma socket_ticket_roundtrip_witness :
  verify_at {| sv_keys := {["key-1" := "k"]}; sv_issuer := "cp"; sv_audience := "authority:websocket" |}
    (text_token "key-1" "k" (grant_ticket sample_issuer sample_socket_grant 1000500 1060500 4600500)) 0 1030000 =
  Ok (grant_ticket sample_issuer sample_socket_grant 1000500 1060500 4600500).
Proof.
  apply (socket_ticket_roundtrip sample_issuer sample_socket_grant _ 1000500 _ 1060500 4600500 0 1030000).
  all: by vm_compute.
Defined.
