(* ===== verification/ControlPlane.v ===== *)
(** The control plane's service: control_plane/service.rs, control_plane/protocol.rs.

    Routing an invocation to the host that owns the actor, launching a host when
    there is none, replacing deployments, and the commands of hosts.  Storage,
    registry, provider, clock and the pool of [SparePool] are requests. *)

From S2P Require Import Prelude.
From S2P Require Import Actors.
From S2P Require Import StoragePaths.
From S2P Require Import Snapshots.
From S2P Require Import Calls.
From S2P Require Import ReplicaServer.
From S2P Require Import RuntimeStorage.
From S2P Require Import Deployments.
From S2P Require Import SparePool.
From S2P Require Import Contracts.
From S2P Require Import Tokens.
Local Open Scope string_scope.
Local Open Scope Z_scope.

(** * Data *)
Definition FALLBACK_REGION : string := "north-america-central".
Definition TRACE_BATCH_SIZE : nat := 64.
Definition REGION_CONFLICT : string :=
  "homeRegion conflicts with the control-plane region or existing actor ownership".

(** Without the constants of the installation (keys, URLs, audiences, idle timeout) *)
Record EnsureHostRequest := {
  eh_actor_is_new : bool;
  eh_actor : option ActorKey;
  eh_code_snapshot : option string;
  eh_spare : option SpareHandle;
  eh_resources : ResourceLimits;
  eh_runtime_config : option string;
  eh_host_config_key : string;
  eh_canonical_region : string;
  eh_host_id : HostId;
  eh_session_id : string;
  eh_host_token : string;
  eh_image_ref : string;
  eh_working_directory : string;
  eh_actor_entrypoint : option string;
  eh_secret_refs : list string }.
Record ActorHostHandle := {
  hh_lease : option HostLease;
  hh_owner_epoch : Z;
  hh_host_id : HostId;
  hh_route : string;
  hh_canonical_region : string;
  (* the [resource_id] of its provisioning report *)
  hh_provisioning : option string }.
Record SocketCredentials := { sc_url : string; sc_token : string }.
Record SocketCredentialsRequest := {
  cr_resource_id : option string;
  cr_canonical_region : string;
  cr_host_id : HostId;
  cr_session_id : string }.
Record RoutedActor := { ra_placement : ObjectPlacement; ra_lease : HostLease; ra_spec : HostLaunchSpec }.
Record ActorTarget := {
  at_home_region : string;
  at_route : string;
  at_token : string;
  at_owner_epoch : Z;
  at_expires_at_ms : Z }.

(** [protocol.rs]; a trace is represented by whether it passes its validation. *)
Inductive ControlPlaneCommand :=
| RefreshStorageAccess
| PrepareInitialReplicas
| PrepareReplicaConnections
| EnsureReplicas (failed : list string)
| InventoryChanged
| RequestTraces (traces : list (Result unit)) (dropped : Z)
| SocketMessage (actor : ActorKey) (event : ActorSocketEvent).
Inductive ControlPlaneCommandReply :=
| InitialReplicasReply (membership : ReplicaMembership)
| ReplicasReply (targets : list ReplicaTarget)
| StorageAccessReply (token : option StorageToken) (replacement_token : string)
| UnitReply.

(** Configuration of [ControlPlaneService] and [SandboxHostProvisioner] *)
Record ControlPlaneConfig := {
  cp_region : option string;
  cp_runtime_access : bool;
  cp_pool : option PoolConfig;
  cp_issuer : ActorJwtIssuer;
  cp_runtime_image : option string;
  cp_local_builds : bool }.

(** * Requests *)
Inductive CEff : Type -> Type :=
| PoolCall {X : Type} (e : PEff X) : CEff X
(* the registry *)
| RegistryLaunchSpec (project : string) : CEff (Result (option HostLaunchSpec))
| RegistryRegister (spec : HostLaunchSpec) (contract : option PublishedContract) : CEff (Result bool)
| RegistryContract (project : string) : CEff (Result (option PublishedContract))
| RegistryRemove (project : string) : CEff (Result unit)
(* storage, clocks, identifiers *)
| GetOwner (object : ActorStorageKey) : CEff (Result (option ObjectPlacement))
| ClockNow : CEff (Result Z)
| UnixMillis : CEff (Result Z)
| NewUuid : CEff string
(* the provider of sandboxes *)
| ProviderWaitReady (h : HostId) : CEff (Result unit)
| ProviderEnsureHost (request : EnsureHostRequest) : CEff (Result ActorHostHandle)
| ProviderTerminate (config_key : string) (regions : list string) : CEff (Result (list string))
| ProviderSocketCredentials (request : SocketCredentialsRequest) : CEff (Result SocketCredentials)
| ProviderBuildCode (image directory entrypoint region : string) : CEff (Result (string * Value))
(* access to storage for hosts *)
| AccessPrewarm (scope : ReplicaScope) : CEff unit
| AccessBootstrap (region : string) : CEff (Result string)
| AccessIssue : CEff (Result (option StorageToken))
| AccessInitialTargets (scope : ReplicaScope) : CEff (Result (list ReplicaTarget))
| AccessInitialReplicas (scope : ReplicaScope) : CEff (Result ReplicaMembership)
| AccessReplicas (scope : ReplicaScope) (failed : list string) : CEff (Result (list ReplicaTarget))
(* observers *)
| RecordTraces (project : string) (h : HostId) (ses : string) (count : nat) (dropped : Z) : CEff (Result unit)
| NotifyChanges : CEff unit
| DeliverSocketMessage (actor : ActorKey) (event : ActorSocketEvent) : CEff unit
(* updates of deployments exclude each other; builds of local code *)
| LockDeployments : CEff unit
| UnlockDeployments : CEff unit
| LocalBuildPrepare (spec : HostLaunchSpec) : CEff (Result (HostLaunchSpec * PublishedContract))
| LocalBuildCommit : CEff unit.

Abbreviation cprog := (calls CEff).

(** An operation of the pool *)
Fixpoint of_pool {A} (p : pool_prog A) : cprog A :=
  match p with
  | CRet r => CRet r
  | CVis e k => CVis (PoolCall e) (fun x => of_pool (k x))
  end.

(** The lock on deployments lives as long as the block. *)
Fixpoint then_unlock {A} (p : cprog A) : cprog A :=
  match p with
  | CRet r => CVis UnlockDeployments (fun _ => CRet r)
  | CVis e k => CVis e (fun x => then_unlock (k x))
  end.
Definition with_deployments {A} (p : cprog A) : cprog A := await LockDeployments;; then_unlock p.

(** * Checks *)
Definition host_matches_config (h : HostId) (config_key : string) : bool :=
  starts_with ("host.v3." +:+ config_key +:+ ".") h.

Definition validate_state_owner (p : ActorPrincipal) (h : HostId) (owner_epoch : Z) (pl : ObjectPlacement)
  : Result unit :=
  ensure (String.eqb (pl_owner pl) h) "host does not own this actor";;
  ensure (pl_owner_epoch pl =? owner_epoch) "actor owner epoch is stale";;
  ensure (String.eqb (home_region pl) (pr_region p)) "host is outside the actor home region".

Definition select_target_region (current : option ObjectPlacement) (requested : string) : Result string :=
  match current with
  | Some placement => Ok (home_region placement)
  | None =>
      let region := match storage_region requested with Ok r => r | Err _ => FALLBACK_REGION end in
      validate_region region;; Ok region
  end.

Definition validate_host_route `{UrlParser} (route : string) : Result unit :=
  url ← parse_url route;
  ensure ((String.eqb (scheme url) "http" || String.eqb (scheme url) "https") && negb (is_none (host_str url)))
    "host route must be an HTTP origin";;
  ensure (is_empty (username url) && is_none (password url)) "host route must not contain credentials";;
  ensure (String.eqb (url_path url) "/" && is_none (query url) && is_none (fragment url))
    "host route must not contain a path, query, or fragment".

Definition ready_lease `{UrlParser} (handle : ActorHostHandle) (request : EnsureHostRequest) : cprog HostLease :=
  check_that (String.eqb (hh_host_id handle) (eh_host_id request)
              && String.eqb (hh_canonical_region handle) (eh_canonical_region request))
    "sandbox readiness scope mismatch";;
  try (validate_host_route (hh_route handle));;
  lease ← try (with_context (hh_lease handle) "sandbox readiness omitted activation lease");
  check_that (String.eqb (lease_id lease) (eh_host_id request)
              && String.eqb (lease_session_id lease) (eh_session_id request)
              && String.eqb (lease_route lease) (hh_route handle))
    "sandbox readiness lease mismatch";;
  now ← await_ok ClockNow;
  check_that ((now <? expires_at_ms lease)
              && (expires_at_ms lease <=? saturating_add now (MAX_HOST_LEASE_DURATION_MS + 5000)))
    "sandbox readiness lease expired or invalid";;
  mret lease.

Section service.
Context `{Base64Url, Sha256, UrlParser, Json Value, Json HostIdentity, Json SpareHandle, Json PoolKey, JwtKeys,
          Jwt ActorJwtClaims}.
(** [polls]: how often the pool is asked before a host must be ready *)
Context (cp : ControlPlaneConfig) (polls : nat).

Definition default_region : string := default FALLBACK_REGION (cp_region cp).

Definition validate_home_region (assignment : option string) : Result unit :=
  match assignment with Some region => validate_region region | None => Ok () end;;
  match cp_region cp, assignment with
  | Some local, Some region => if String.eqb region local then Ok () else Err REGION_CONFLICT
  | _, _ => Ok ()
  end.

(** * Launching a host: [SandboxHostProvisioner] *)
Definition host_wait_ready (h : HostId) : cprog unit :=
  match cp_pool cp with
  | Some _ => of_pool (wait_ready polls h)
  | None => await_ok (ProviderWaitReady h)
  end.

Definition launch_request (spec : HostLaunchSpec) (region : string) (actor : ActorKey) : cprog EnsureHostRequest :=
  let config_key := host_config_key spec in
  id ← await NewUuid;
  let h := "host.v3." +:+ config_key +:+ "." +:+ id in
  ses ← await NewUuid;
  now ← await_ok UnixMillis;
  token ← try (issue_host (cp_issuer cp) now h ses config_key region actor);
  mret {| eh_actor_is_new := false; eh_actor := Some actor; eh_code_snapshot := code_snapshot spec;
          eh_spare := None; eh_resources := ResourceLimits_default; eh_runtime_config := None;
          eh_host_config_key := config_key; eh_canonical_region := region; eh_host_id := h;
          eh_session_id := ses; eh_host_token := it_token token; eh_image_ref := image_ref spec;
          eh_working_directory := working_directory spec;
          eh_actor_entrypoint :=
            match actor_entrypoint spec with
            | Some e => Some e
            | None => (fun _ => "actors.mjs") <$> code_snapshot spec
            end;
          eh_secret_refs := secret_refs spec |}.

Definition complete_request (r : EnsureHostRequest) (new_actor : bool) (spare : option SpareHandle)
  (runtime_config : option string) : EnsureHostRequest :=
  {| eh_actor_is_new := new_actor; eh_actor := eh_actor r; eh_code_snapshot := eh_code_snapshot r;
     eh_spare := spare;
     eh_resources := match cp_pool cp with Some pool => pc_resources pool | None => eh_resources r end;
     eh_runtime_config := runtime_config; eh_host_config_key := eh_host_config_key r;
     eh_canonical_region := eh_canonical_region r; eh_host_id := eh_host_id r;
     eh_session_id := eh_session_id r; eh_host_token := eh_host_token r; eh_image_ref := eh_image_ref r;
     eh_working_directory := eh_working_directory r; eh_actor_entrypoint := eh_actor_entrypoint r;
     eh_secret_refs := eh_secret_refs r |}.

(** An error retires the sandbox; failing to say so is ignored. *)
Definition give_up_host {A} (h : HostId) (error : string) : cprog A :=
  match cp_pool cp with
  | Some _ => outcome (of_pool (failed_host h));; try (Err error)
  | None => try (Err error)
  end.

(** The block [ready] of [launch] *)
Definition confirm_host (spec : HostLaunchSpec) (region : string) (request : EnsureHostRequest)
  (handle : ActorHostHandle) : cprog HostLease :=
  check_that (0 <? hh_owner_epoch handle) "host readiness returned no ownership epoch";;
  match cp_pool cp with
  | Some _ => check_that (String.eqb (hh_host_id handle) (eh_host_id request))
                "provider returned a different host identity"
  | None => mret ()
  end;;
  lease ← ready_lease handle request;
  match cp_pool cp with
  | Some _ =>
      resource ← try (with_context (hh_provisioning handle) "provider did not identify the assigned sandbox");
      of_pool (remember (lease_id lease) (host_config_key spec)
        {| control_route := ""; control_token := "";
           sh_name := match eh_spare request with
                      | Some spare => sh_name spare
                      | None => "do-actor-" +:+ eh_session_id request
                      end;
           resource_id := resource; sh_route := lease_route lease; sh_canonical_region := region |})
  | None => mret ()
  end;;
  mret lease.

(** [launch] from the reservation of the sandbox on *)
Definition launch_reserved (spec : HostLaunchSpec) (region : string) (new_actor : bool)
  (request : EnsureHostRequest) (spare : option SpareHandle) (runtime_config : Result (option string))
  : cprog (HostLease * Z) :=
  match runtime_config with
  | Err error => give_up_host (eh_host_id request) error
  | Ok config =>
      let request := complete_request request new_actor spare config in
      handle ← outcome (await_ok (ProviderEnsureHost request));
      match handle with
      | Err error => give_up_host (eh_host_id request) error
      | Ok handle =>
          ready ← outcome (confirm_host spec region request handle);
          match ready with
          | Err error => give_up_host (eh_host_id request) error
          | Ok lease => mret (lease, hh_owner_epoch handle)
          end
      end
  end.
(** The token and the spare are fetched side by side; their requests touch nothing
    in common and are listed one after the other. *)
Definition launch (spec : HostLaunchSpec) (region : string) (actor : ActorKey) (new_actor : bool)
  : cprog (HostLease * Z) :=
  request ← launch_request spec region actor;
  (if cp_runtime_access cp
   then await (AccessPrewarm {| scope_actor := actor; scope_host := eh_host_id request;
                                scope_session := eh_session_id request; scope_region := region |})
   else mret ());;
  runtime_config ← outcome (if cp_runtime_access cp
                            then config ← await_ok (AccessBootstrap region); mret (Some config)
                            else mret None);
  spare ← match cp_pool cp with
          | Some pool => of_pool (pool_claim pool spec region (eh_host_id request))
          | None => mret None
          end;
  match cp_pool cp, spare with
  | Some _, None =>
      of_pool (reserve_host (eh_session_id request) (eh_host_id request) (host_config_key spec))
  | _, _ => mret ()
  end;;
  launch_reserved spec region new_actor request spare runtime_config.

(** * Routing *)
Definition active_target (current : option ObjectPlacement) (spec : HostLaunchSpec) : cprog (option RoutedActor) :=
  match current with
  | None => mret None
  | Some placement =>
      if negb (host_matches_config (pl_owner placement) (host_config_key spec)) then mret None
      else
        let lease := pl_lease placement in
        if negb (String.eqb (lease_id lease) (pl_owner placement)) then mret None
        else
          now ← await_ok ClockNow;
          if expires_at_ms lease <=? now then mret None
          else
            host_wait_ready (pl_owner placement);;
            mret (Some {| ra_placement := placement; ra_lease := lease; ra_spec := spec |})
  end.

Definition ensure_actor_host (actor : ActorKey) (spec : HostLaunchSpec) (current : option ObjectPlacement)
  (requested_region : string) : cprog (string * HostLease * Z) :=
  let region := match current with Some p => home_region p | None => requested_region end in
  '(lease, owner_epoch) ← launch spec region actor (bool_decide (current = None));
  mret (region, lease, owner_epoch).

Definition route_actor (actor : ActorKey) (storage_region : string) (assigned : option string)
  : cprog RoutedActor :=
  try (validate_home_region assigned);;
  requested ← try (match assigned with
                   | Some region => Ok region
                   | None => select_target_region None storage_region
                   end);
  loaded ← await_ok (RegistryLaunchSpec (project_id actor));
  spec ← try (with_context loaded "project has no registered actor code");
  current ← await_ok (GetOwner (storage_key actor));
  check_that (match assigned, current with
              | Some region, Some placement => String.eqb region (home_region placement)
              | _, _ => true
              end) REGION_CONFLICT;;
  active ← active_target current spec;
  match active with
  | Some target => mret target
  | None =>
      ensured ← outcome (ensure_actor_host actor spec current requested);
      match ensured with
      | Err error =>
          current ← await_ok (GetOwner (storage_key actor));
          active ← active_target current spec;
          match active with
          | Some target =>
              check_that (match assigned with
                          | Some region => String.eqb region (home_region (ra_placement target))
                          | None => true
                          end) REGION_CONFLICT;;
              mret target
          | None => try (Err error)
          end
      | Ok (region, lease, epoch) =>
          check_that (0 <? epoch) "host readiness returned no ownership epoch";;
          mret {| ra_placement :=
                    {| pl_lease := lease; pl_object := storage_key actor; pl_owner := lease_id lease;
                       pl_owner_epoch := epoch; home_region := region; pl_state_version := 0;
                       state_object := None; last_request_id := None |};
                  ra_lease := lease; ra_spec := spec |}
      end
  end.

Definition resolve_actor_route (actor : ActorKey) (assigned : option string) : cprog ActorTarget :=
  try (ActorKey_validate actor);;
  target ← route_actor actor default_region assigned;
  now ← await_ok UnixMillis;
  issued ← try (issue_invocation_target (cp_issuer cp) now actor (lease_id (ra_lease target))
                  (lease_session_id (ra_lease target)) (host_config_key (ra_spec target))
                  (home_region (ra_placement target)) (pl_owner_epoch (ra_placement target)));
  mret {| at_home_region := home_region (ra_placement target); at_route := lease_route (ra_lease target);
          at_token := it_token issued; at_owner_epoch := pl_owner_epoch (ra_placement target);
          at_expires_at_ms := it_expires_at_ms issued |}.

Definition provisioner_credentials (region : string) (lease : HostLease) : cprog SocketCredentials :=
  resource ← match cp_pool cp with
             | Some _ => spare ← of_pool (pool_host (lease_id lease)); mret (resource_id <$> spare)
             | None => mret None
             end;
  await_ok (ProviderSocketCredentials
    {| cr_resource_id := resource; cr_canonical_region := region; cr_host_id := lease_id lease;
       cr_session_id := lease_session_id lease |}).

Definition socket_destination (actor : ActorKey) (region : string) (assigned : option string)
  : cprog (string * SocketTarget * SocketCredentials) :=
  routed ← route_actor actor region assigned;
  credentials ← provisioner_credentials (home_region (ra_placement routed)) (ra_lease routed);
  mret (home_region (ra_placement routed),
        {| st_host_id := lease_id (ra_lease routed); st_session_id := lease_session_id (ra_lease routed);
           st_owner_epoch := pl_owner_epoch (ra_placement routed) |}, credentials).

(** * Commands of hosts *)
Definition current_placement (actor : ActorKey) : cprog ObjectPlacement :=
  owner ← await_ok (GetOwner (storage_key actor));
  try (with_context owner "actor has no current placement").

Definition require_active_host (p : ActorPrincipal) : cprog HostLease :=
  placement ← current_placement (pr_actor p);
  check_that (String.eqb (pl_owner placement) (pr_host_id p)
              && String.eqb (lease_id (pl_lease placement)) (pr_host_id p)
              && String.eqb (home_region placement) (pr_region p))
    "host no longer owns actor";;
  let lease := pl_lease placement in
  now ← await_ok ClockNow;
  check_that (now <? expires_at_ms lease) "host lease is not active";;
  check_that (String.eqb (lease_session_id lease) (pr_session_id p)) "host lease belongs to another session";;
  mret lease.

Definition authorize_socket_host (p : ActorPrincipal) (actor : ActorKey) : cprog unit :=
  try (ActorKey_validate actor);;
  check_that (bool_decide (pr_actor p = actor)) "host actor scope mismatch";;
  lease ← require_active_host p;
  placement ← current_placement actor;
  check_that (bool_decide (pl_lease placement = lease) && String.eqb (pl_owner placement) (lease_id lease))
    "actor ownership belongs to another session";;
  try (validate_state_owner p (pr_host_id p) (pl_owner_epoch placement) placement).

Definition principal_scope (p : ActorPrincipal) : ReplicaScope :=
  {| scope_actor := pr_actor p; scope_host := pr_host_id p; scope_session := pr_session_id p;
     scope_region := pr_region p |}.
Definition need_access : cprog unit := check_that (cp_runtime_access cp) "direct storage is not configured".

Definition deliver_socket_message_event (actor : ActorKey) (event : ActorSocketEvent) : cprog unit :=
  match event with
  | Message _ _ => await (DeliverSocketMessage actor event)
  | _ => mret ()
  end.

Definition execute_command (p : ActorPrincipal) (command : ControlPlaneCommand)
  : cprog ControlPlaneCommandReply :=
  match command with
  | PrepareReplicaConnections =>
      need_access;;
      targets ← await_ok (AccessInitialTargets (principal_scope p));
      mret (ReplicasReply targets)
  | PrepareInitialReplicas =>
      need_access;;
      membership ← await_ok (AccessInitialReplicas (principal_scope p));
      mret (InitialReplicasReply membership)
  | EnsureReplicas failed =>
      require_active_host p;;
      check_that (length failed <=? MAX_REPLICAS)%nat "too many failed replicas";;
      need_access;;
      targets ← await_ok (AccessReplicas (principal_scope p) failed);
      mret (ReplicasReply targets)
  | RequestTraces traces dropped =>
      require_active_host p;;
      check_that (length traces <=? TRACE_BATCH_SIZE)%nat "trace batch too large";;
      try (collect id traces);;
      await_ok (RecordTraces (project_id (pr_actor p)) (pr_host_id p) (pr_session_id p) (length traces) dropped);;
      mret UnitReply
  | InventoryChanged =>
      owner ← await_ok (GetOwner (storage_key (pr_actor p)));
      check_that (match owner with
                  | Some owner => String.eqb (pl_owner owner) (pr_host_id p)
                                  && String.eqb (lease_session_id (pl_lease owner)) (pr_session_id p)
                  | None => false
                  end) "host session does not match";;
      await NotifyChanges;;
      mret UnitReply
  | SocketMessage actor event =>
      authorize_socket_host p actor;;
      deliver_socket_message_event actor event;;
      mret UnitReply
  | RefreshStorageAccess =>
      require_active_host p;;
      need_access;;
      token ← await_ok AccessIssue;
      key ← try (with_context (pr_host_config_key p) "host configuration missing");
      now ← await_ok UnixMillis;
      replacement ← try (issue_host (cp_issuer cp) now (pr_host_id p) (pr_session_id p) key (pr_region p)
                           (pr_actor p));
      mret (StorageAccessReply token (it_token replacement))
  end.

(** * Deployments *)
Definition terminate_hosts (spec : HostLaunchSpec) (regions : list string) : cprog (list string) :=
  match cp_pool cp with
  | Some pool => of_pool (retire_config pool (host_config_key spec))
  | None => await_ok (ProviderTerminate (host_config_key spec) regions)
  end.

Definition terminate_deployment_hosts (spec : HostLaunchSpec) : cprog unit :=
  result ← outcome (terminate_hosts spec ALL_REGIONS);
  match result with
  | Ok _ => mret ()
  | Err error =>
      try (Err ("previous actor hosts could not be terminated; retry the deployment update: " +:+ error))
  end.

Definition register_deployment (spec : HostLaunchSpec) (contract : option PublishedContract) : cprog bool :=
  previous ← await_ok (RegistryLaunchSpec (spec_project_id spec));
  try (HostLaunchSpec_validate spec);;
  match previous with Some previous => terminate_deployment_hosts previous | None => mret () end;;
  changed ← await_ok (RegistryRegister spec contract);
  await NotifyChanges;;
  mret (changed || bool_decide (is_Some previous)).

Definition build_deployment (source : HostLaunchSpec) (image region : string)
  : cprog (HostLaunchSpec * option PublishedContract) :=
  let input := source_of source in
  built ← await_ok (ProviderBuildCode (src_image_ref input) (src_working_directory input)
                      (default "src/actors.ts" (src_actor_entrypoint input)) region);
  published ← try (PublicActorContract_new built.2);
  let prepared :=
    {| spec_project_id := spec_project_id source; spec_source := Some input; image_ref := image;
       code_snapshot := Some built.1; working_directory := "/customer"; actor_entrypoint := Some "actors.mjs";
       secret_refs := secret_refs source |} in
  try (HostLaunchSpec_validate prepared);;
  mret (prepared, Some published).

Definition prepare_deployment (source : HostLaunchSpec) (previous : option HostLaunchSpec) (region : string)
  : cprog (HostLaunchSpec * option PublishedContract) :=
  image ← try (with_context (cp_runtime_image cp) "hosted code preparation requires a runtime image");
  match previous with
  | Some old =>
      if bool_decide (spec_source old = Some (source_of source)) && String.eqb (image_ref old) image
         && bool_decide (is_Some (code_snapshot old))
      then mret ({| spec_project_id := spec_project_id old; spec_source := spec_source old;
                    image_ref := image_ref old; code_snapshot := code_snapshot old;
                    working_directory := working_directory old; actor_entrypoint := actor_entrypoint old;
                    secret_refs := secret_refs source |}, None)
      else build_deployment source image region
  | None => build_deployment source image region
  end.

Definition deploy_source (source : HostLaunchSpec) (supplied : option PublishedContract) : cprog bool :=
  with_deployments (
    try (HostLaunchSpec_validate source);;
    previous ← await_ok (RegistryLaunchSpec (spec_project_id source));
    '(prepared, compiled) ←
      (if cp_local_builds cp
       then built ← await_ok (LocalBuildPrepare source); mret (built.1, Some built.2)
       else prepare_deployment source previous default_region);
    compiled ←
      match compiled, code_snapshot prepared with
      | None, Some _ =>
          check_that (match previous with
                      | Some old => bool_decide (code_snapshot old = code_snapshot prepared)
                      | None => false
                      end) "compiled deployment has no matching source contract";;
          record ← await_ok (RegistryContract (spec_project_id source));
          record ← try (with_context record "compiled deployment contract is missing");
          published ← try (PublicActorContract_new (contract record));
          mret (Some published)
      | _, _ => mret compiled
      end;
    check_that (match compiled, supplied with
                | Some a, Some b => String.eqb (contract_hash a) (contract_hash b)
                | _, _ => true
                end) "supplied actor contract differs from compiled actor code";;
    changed ← register_deployment prepared (match compiled with Some c => Some c | None => supplied end);
    (if cp_local_builds cp then await LocalBuildCommit else mret ());;
    mret changed).

Definition delete_deployment (project : string) : cprog bool :=
  with_deployments (
    previous ← await_ok (RegistryLaunchSpec project);
    match previous with
    | None => mret false
    | Some previous =>
        terminate_deployment_hosts previous;;
        await_ok (RegistryRemove project);;
        await NotifyChanges;;
        mret true
    end).
End service.
