(* ===== verification/ControlPlaneSafety.v ===== *)
(** What the control plane guarantees: routes lead to live owners, failed
    launches give their sandbox back, commands act for the current owner only, and
    deployments are replaced in order.

    A run is the list of the requests made with their replies; every reply is
    possible, so the theorems hold whatever databases and providers answer. *)

From S2P Require Import Prelude.
From S2P Require Import Actors.
From S2P Require Import StoragePaths.
From S2P Require Import Snapshots.
From S2P Require Import Calls.
From S2P Require Import ReplicaServer.
From S2P Require Import RuntimeStorage.
From S2P Require Import Deployments.
From S2P Require Import SparePool.
From S2P Require Import Contracts.
From S2P Require Import Tokens.
From S2P Require Import ControlPlane.
Local Open Scope string_scope.
Local Open Scope Z_scope.

Lemma runs_of_pool {A} (p : pool_prog A) t r : runs (of_pool p) t r ->
  exists tp, runs p tp r /\ t = (fun ev => match ev with Ev e x => Ev (PoolCall e) x end) <$> tp.
Proof.
  revert t. induction p as [r'|X e k IH]; intros t Hr.
  - apply runs_inv in Hr as [-> <-]. exists []. by split; [constructor|].
  - apply runs_inv in Hr as (x & t' & -> & Hr). apply IH in Hr as (tp & Hr & ->).
    exists (Ev e x :: tp). by split; [constructor|].
Qed.

Lemma all_calls_of_pool (P : forall X, CEff X -> Prop) {A} (p : pool_prog A) :
  (forall X (e : PEff X), P X (PoolCall e)) -> all_calls P (of_pool p).
Proof. intros HP. induction p as [r|X e k IH]; cbn; auto. Qed.
#[local] Hint Extern 1 (all_calls _ (of_pool _)) => apply all_calls_of_pool; done : calls.
(** The host a request to the provider is about *)
Definition engaged {X} (e : CEff X) : option HostId :=
  match e with ProviderEnsureHost request => Some (eh_host_id request) | _ => None end.
Definition engaged_by (ev : event CEff) : option HostId := match ev with Ev e _ => engaged e end.
Definition unengaged {A} (p : cprog A) : Prop := all_calls (fun _ e => engaged e = None) p.
#[local] Hint Extern 1 (unengaged (of_pool _)) => apply all_calls_of_pool; done : calls.

Lemma unengaged_runs {A} (p : cprog A) t r ev : unengaged p -> runs p t r -> ev ∈ t -> engaged_by ev = None.
Proof.
  intros Hp Hr Hin. pose proof (all_calls_runs _ _ _ _ Hp Hr) as Ht. rewrite Forall_forall in Ht.
  specialize (Ht ev Hin). by destruct ev.
Qed.
Lemma runs_bind_unengaged {A B} (p : cprog A) (f : A -> cprog B) t r ev h :
  unengaged p -> runs (p ≫= f) t r -> ev ∈ t -> engaged_by ev = Some h ->
  exists a t1 t2, t = (t1 ++ t2)%list /\ runs p t1 (Ok a) /\ runs (f a) t2 r /\ ev ∈ t2.
Proof.
  intros Hp [(a & t1 & t2 & -> & H1 & H2)|(e & H1 & ->)]%runs_bind Hin Hev.
  - exists a, t1, t2. split_and!; [done..|]. apply elem_of_app in Hin as [Hin|]; [|done].
    by rewrite (unengaged_runs _ _ _ _ Hp H1 Hin) in Hev.
  - by rewrite (unengaged_runs _ _ _ _ Hp H1 Hin) in Hev.
Qed.

Section safety.
Context `{Base64Url, Sha256, UrlParser, Json Value, Json HostIdentity, Json SpareHandle, Json PoolKey, JwtKeys,
          Jwt ActorJwtClaims}.
Context (cp : ControlPlaneConfig) (polls : nat).

(** * Routing *)
(** The pool, or the provider, said that the host is ready. *)
Definition confirmed_ready (h : HostId) (t : list (event CEff)) : Prop :=
  match cp_pool cp with
  | Some _ => Ev (PoolCall (Sql (host_status h))) (Ok (Some Active)) ∈ t
  | None => Ev (ProviderWaitReady h) (Ok ()) ∈ t
  end.

Lemma wait_ready_ok n h t : runs (wait_ready n h) t (Ok ()) ->
  Ev (Sql (host_status h)) (Ok (Some Active)) ∈ t.
Proof.
  revert t. induction n as [|n IH]; intros t Hr; cbn [wait_ready] in Hr; [by run_inv|].
  unfold sql in Hr. run_step. run_step. destruct a as [[| | | |]|]; run_inv; simplify_eq; set_solver.
Qed.
Lemma host_ready h t : runs (host_wait_ready cp polls h) t (Ok ()) -> confirmed_ready h t.
Proof.
  unfold host_wait_ready, confirmed_ready. destruct (cp_pool cp) as [pool|]; intros Hr.
  - apply runs_of_pool in Hr as (tp & Hr%wait_ready_ok & ->).
    by apply (list_elem_of_fmap_2' _ _ _ _ Hr).
  - run_inv. set_solver.
Qed.
Lemma confirmed_weaken h t t' : confirmed_ready h t -> t ⊆ t' -> confirmed_ready h t'.
Proof. unfold confirmed_ready. destruct (cp_pool cp); set_solver. Qed.

(** The clock was read while the lease was running. *)
Definition lease_running (lease : HostLease) (t : list (event CEff)) : Prop :=
  exists now, Ev ClockNow (Ok now) ∈ t /\ now < expires_at_ms lease.

Lemma active_target_ok current spec t target : runs (active_target cp polls current spec) t (Ok (Some target)) ->
  current = Some (ra_placement target) /\ ra_lease target = pl_lease (ra_placement target) /\ ra_spec target = spec /\
  host_matches_config (pl_owner (ra_placement target)) (host_config_key spec) = true /\
  lease_id (ra_lease target) = pl_owner (ra_placement target) /\
  lease_running (ra_lease target) t /\ confirmed_ready (pl_owner (ra_placement target)) t.
Proof.
  unfold active_target. destruct current as [pl|]; [|intros; run_inv].
  destruct (negb (host_matches_config _ _)) eqn:Em; [intros; run_inv|].
  destruct (negb (String.eqb _ _)) eqn:El; [intros; run_inv|]. intros Hr. run_step. run_step.
  destruct (_ <=? _) eqn:Ex; [run_inv|]. run_step. destruct a0. run_inv. cbn. bools. split_and!; try done.
  - eexists. split; [in_trace|lia].
  - eapply confirmed_weaken; [by apply host_ready|]. set_solver.
Qed.

(** * Launching *)
(** The provider was asked for a new host of [actor] and answered with a lease of it. *)
Definition launched (spec : HostLaunchSpec) (region : string) (actor : ActorKey) (new_actor : bool)
  (lease : HostLease) (epoch : Z) (t : list (event CEff)) : Prop :=
  exists request handle, Ev (ProviderEnsureHost request) (Ok handle) ∈ t /\
    eh_actor request = Some actor /\ eh_actor_is_new request = new_actor /\
    eh_host_config_key request = host_config_key spec /\ eh_canonical_region request = region /\
    host_matches_config (lease_id lease) (host_config_key spec) = true /\
    hh_lease handle = Some lease /\ hh_owner_epoch handle = epoch /\ 0 < epoch /\
    lease_id lease = eh_host_id request /\ lease_session_id lease = eh_session_id request /\
    lease_running lease t /\
    (is_Some (cp_pool cp) -> exists name column,
       Ev (PoolCall (Sql (remember_row name column (lease_id lease) (host_config_key spec)))) (Ok 1) ∈ t).

Lemma ready_lease_ok handle request t lease : runs (ready_lease handle request) t (Ok lease) ->
  hh_lease handle = Some lease /\ lease_id lease = eh_host_id request /\
  lease_session_id lease = eh_session_id request /\ lease_running lease t.
Proof.
  unfold ready_lease. intros Hr. run_inv. destruct (hh_lease handle) as [l|]; simplify_eq/=. bools.
  split_and!; try done. eexists. split; [in_trace|done].
Qed.

Lemma confirm_host_ok spec region request handle t lease :
  runs (confirm_host cp spec region request handle) t (Ok lease) ->
  0 < hh_owner_epoch handle /\ hh_lease handle = Some lease /\ lease_id lease = eh_host_id request /\
  lease_session_id lease = eh_session_id request /\ lease_running lease t /\
  (is_Some (cp_pool cp) -> exists name column,
     Ev (PoolCall (Sql (remember_row name column (lease_id lease) (host_config_key spec)))) (Ok 1) ∈ t).
Proof.
  unfold confirm_host. intros Hr. run_step. run_step. run_step. run_step. run_step.
  match goal with H : runs (ready_lease _ _) _ _ |- _ => apply ready_lease_ok in H as (? & ? & ? & Hlive) end.
  run_inv. bools. split_and!; try done.
  - destruct Hlive as (now & Hin & Hlt). exists now. split; [in_trace|done].
  - intros [pool Hp]. rewrite Hp in *. run_inv.
    match goal with H : runs (of_pool _) _ _ |- _ => apply runs_of_pool in H as (tp & Hrem & ->) end.
    unfold remember, sql in Hrem. run_inv. bools. subst. do 2 eexists. cbn. apply elem_of_app. right. constructor.
Qed.

Lemma new_host_matches key id : host_matches_config ("host.v3." +:+ key +:+ "." +:+ id) key = true.
Proof. unfold host_matches_config. rewrite (sapp_assoc key "." id), (sapp_assoc "host.v3." (key +:+ ".") id). apply starts_with_app. Qed.
Lemma launch_request_ok spec region actor t request : runs (launch_request cp spec region actor) t (Ok request) ->
  eh_actor request = Some actor /\ eh_host_config_key request = host_config_key spec /\
  eh_canonical_region request = region /\ host_matches_config (eh_host_id request) (host_config_key spec) = true.
Proof.
  unfold launch_request. intros Hr. run_inv. split_and!; try done. apply new_host_matches.
Qed.
Lemma give_up_fails {A} h e t (a : A) : ~ runs (give_up_host cp h e) t (Ok a).
Proof. unfold give_up_host. intros Hr. destruct (cp_pool cp); run_inv. Qed.

Lemma lease_running_weaken lease t t' : lease_running lease t -> t ⊆ t' -> lease_running lease t'.
Proof. intros (now & Hin & Hlt) Hsub. exists now. split; [by apply Hsub|done]. Qed.

Lemma launch_ok spec region actor new_actor t lease epoch :
  runs (launch cp spec region actor new_actor) t (Ok (lease, epoch)) ->
  launched spec region actor new_actor lease epoch t.
Proof.
  unfold launch, launch_reserved. intros Hr. run_step.
  match goal with H : runs (launch_request _ _ _ _) _ _ |- _ => apply launch_request_ok in H as (Ha & Hk & Hc & Hm) end.
  do 4 run_step. destruct a1 as [config|]; [|by apply give_up_fails in Hr]. cbn zeta in Hr.
  run_step. destruct a1 as [handle|]; [|by apply give_up_fails in Hr].
  run_step. destruct a1 as [l|]; [|by apply give_up_fails in Hr]. run_inv.
  match goal with H : runs (confirm_host _ _ _ _ _) _ _ |- _ => apply confirm_host_ok in H as (He & Hl & Hi & Hs & Hrun & Hrem) end.
  run_inv. exists (complete_request cp a new_actor a2 config), handle. split_and!; try done; [in_trace|by rewrite Hi|..].
  - eapply lease_running_weaken; [done|]. set_solver.
  - intros (name & column & Hin)%Hrem. exists name, column. set_solver.
Qed.

(** What the route of an actor rests on: the placement in storage, of a host of the
    registered deployment that is ready and whose lease was running when it was
    checked; or a host launched for the actor where storage has it, or wants it. *)
Inductive route_basis (actor : ActorKey) (requested : string) (t : list (event CEff)) (r : RoutedActor) : Prop :=
| route_current :
    Ev (GetOwner (storage_key actor)) (Ok (Some (ra_placement r))) ∈ t ->
    ra_lease r = pl_lease (ra_placement r) -> lease_id (ra_lease r) = pl_owner (ra_placement r) ->
    host_matches_config (pl_owner (ra_placement r)) (host_config_key (ra_spec r)) = true ->
    lease_running (ra_lease r) t -> confirmed_ready (pl_owner (ra_placement r)) t ->
    route_basis actor requested t r
| route_launched current :
    Ev (GetOwner (storage_key actor)) (Ok current) ∈ t ->
    home_region (ra_placement r) = match current with Some p => home_region p | None => requested end ->
    pl_owner (ra_placement r) = lease_id (ra_lease r) ->
    launched (ra_spec r) (home_region (ra_placement r)) actor (bool_decide (current = None)) (ra_lease r)
      (pl_owner_epoch (ra_placement r)) t ->
    route_basis actor requested t r.

Lemma active_basis actor requested current spec t t' r :
  runs (active_target cp polls current spec) t (Ok (Some r)) ->
  Ev (GetOwner (storage_key actor)) (Ok current) ∈ t' -> t ⊆ t' -> route_basis actor requested t' r.
Proof.
  intros (-> & Hl & <- & Hm & Hi & Hrun & Hready)%active_target_ok Hin Hsub.
  apply route_current; eauto using lease_running_weaken, confirmed_weaken.
Qed.
Lemma launched_weaken spec region actor new_actor lease epoch t t' :
  launched spec region actor new_actor lease epoch t -> t ⊆ t' -> launched spec region actor new_actor lease epoch t'.
Proof.
  intros (request & handle & Hin & Hl) Hsub. exists request, handle. split; [by apply Hsub|].
  destruct_and! Hl. split_and!; eauto using lease_running_weaken. naive_solver.
Qed.
Lemma ensured_ok actor spec current requested t region lease epoch :
  runs (ensure_actor_host cp actor spec current requested) t (Ok (region, lease, epoch)) ->
  region = match current with Some p => home_region p | None => requested end /\
  launched spec region actor (bool_decide (current = None)) lease epoch t.
Proof.
  unfold ensure_actor_host. intros Hr. run_step. destruct a as [l e]. run_inv.
  match goal with H : runs (launch _ _ _ _ _) _ _ |- _ => apply launch_ok in H end.
  split; [done|]. eapply launched_weaken; [done|set_solver].
Qed.

(** C9: every route the control plane hands out leads to a host that owns the actor
    as far as storage says, or to a host just launched for it.  Its deployment is the
    registered one, its lease was running when it was checked and the host is ready;
    an assigned home region is kept, and so is the region of an existing placement. *)
Theorem routed_host_is_live actor region assigned t r :
  runs (route_actor cp polls actor region assigned) t (Ok r) ->
  (forall home, assigned = Some home -> home_region (ra_placement r) = home) /\
  Ev (RegistryLaunchSpec (project_id actor)) (Ok (Some (ra_spec r))) ∈ t /\
  exists requested, route_basis actor requested t r /\
    (assigned = Some requested \/ assigned = None /\ select_target_region None region = Ok requested).
Proof.
  unfold route_actor. intros Hr. do 15 try run_step. destruct a1 as [spec|]; cbn [with_context] in *; simplify_eq.
  match goal with H : Ok ?q = match assigned with _ => _ end |- _ => rename q into requested; rename H into Hq end.
  assert (assigned = Some requested \/ assigned = None /\ select_target_region None region = Ok requested) as Hreq
    by (destruct assigned; simplify_eq; eauto).
  match goal with H : runs (active_target _ _ _ _) _ (Ok ?a) |- _ => rename H into Hact; destruct a as [target|] end.
  - run_inv. destruct (active_target_ok _ _ _ _ Hact) as (-> & _ & <- & _). split_and!; [|in_trace|].
    + intros home ->. by bools.
    + exists requested. split; [|done]. eapply active_basis; [done|in_trace|set_solver].
  - cbn iota in Hr. run_step.
    match goal with H : runs (outcome _) _ (Ok ?a) |- _ => destruct a as [[[home lease] epoch]|e] end.
    + run_inv. cbn. match goal with H : runs (ensure_actor_host _ _ _ _ _) _ _ |- _ => apply ensured_ok in H as [-> Hl] end.
      split_and!; [|in_trace|].
      * intros home ->. simplify_eq. destruct a3; [by bools|done].
      * exists requested. split; [|done]. eapply route_launched; cbn; [in_trace|done..|].
        eapply launched_weaken; [done|set_solver].
    + run_step. run_step. run_step. clear Hact.
      match goal with H : runs (active_target _ _ _ _) _ (Ok ?a) |- _ => rename H into Hact; destruct a as [target|] end; run_inv.
      destruct (active_target_ok _ _ _ _ Hact) as (-> & _ & <- & _). split_and!; [|in_trace|].
      * intros home ->. by bools.
      * exists requested. split; [|done]. eapply active_basis; [done|in_trace|set_solver].
Qed.

(** * Launches that fail *)
Lemma confirm_unengaged spec region request handle : unengaged (confirm_host cp spec region request handle).
Proof.
  each_call.
Qed.

Lemma give_up_retires {A} pool h e t (r : Result A) : cp_pool cp = Some pool -> runs (give_up_host cp h e) t r ->
  exists reply, t = [Ev (PoolCall (Sql (fail_host h))) reply].
Proof.
  unfold give_up_host. intros -> (? & t' & -> & Hr)%runs_inv. exists x. f_equal.
  destruct x; cbn in Hr; by apply runs_inv in Hr as [-> _].
Qed.

Lemma launch_tail pool spec region new_actor request spare config t error : cp_pool cp = Some pool ->
  runs (launch_reserved cp spec region new_actor request spare config) t (Err error) ->
  (exists t' last, t = (t' ++ [Ev (PoolCall (Sql (fail_host (eh_host_id request)))) last])%list) /\
  (forall ev h, ev ∈ t -> engaged_by ev = Some h -> h = eh_host_id request).
Proof.
  intros Hpool Hr. destruct config as [config|e]; cbn [launch_reserved] in Hr.
  2: { apply (give_up_retires _ _ _ _ _ Hpool) in Hr as [reply ->]. split; [by exists [], reply|].
       intros ev h ->%list_elem_of_singleton. done. }
  apply runs_bind in Hr as [(handle & t1 & t2 & -> & Hp & Hr)|(e & Hp & _)]; [|by apply runs_outcome in Hp as (? & ? & _)].
  run_inv. destruct x as [handle|e].
  2: { apply (give_up_retires _ _ _ _ _ Hpool) in Hr as [reply ->]. split; [by eexists [_], reply|].
       intros ev h. cbn [app]. rewrite elem_of_cons, list_elem_of_singleton. by intros [-> | ->] [=]. }
  apply runs_bind in Hr as [(ready & t1 & t3 & -> & Hc & Hr)|(e & Hp & _)]; [|by apply runs_outcome in Hp as (? & ? & _)].
  run_inv. destruct x as [lease|e]; [by apply runs_inv in Hr as [_ ?]|].
  apply (give_up_retires _ _ _ _ _ Hpool) in Hr as [reply ->]. split; [by eexists (_ :: t1), reply|].
  intros ev h. cbn [app]. rewrite elem_of_cons, elem_of_app, list_elem_of_singleton. intros [->|[Hin| ->]] Hev; simplify_eq/=; [done|].
  by rewrite (unengaged_runs _ _ _ _ (confirm_unengaged _ _ _ _) Hc Hin) in Hev.
Qed.

(** C26: a launch that fails gives its sandbox back.  Whatever goes wrong after a
    provider was asked for the host (no lease, a lease of another session, an expired
    claim), the last thing the control plane does is to mark the host's sandbox as
    retiring in the pool. *)
Theorem failed_launch_is_retired pool spec region actor new_actor t error request reply :
  cp_pool cp = Some pool ->
  runs (launch cp spec region actor new_actor) t (Err error) ->
  Ev (ProviderEnsureHost request) reply ∈ t ->
  exists t' last, t = (t' ++ [Ev (PoolCall (Sql (fail_host (eh_host_id request)))) last])%list.
Proof.
  intros Hpool Hr Hin. remember (Ev _ _) as ev eqn:Eev in Hin.
  assert (engaged_by ev = Some (eh_host_id request)) as Hev by by subst. clear Eev.
  unfold launch in Hr. eapply runs_bind_unengaged in Hr as (r & t1 & t2 & -> & _ & Hr & Hin2); [|each_call|done..].
  do 4 (eapply runs_bind_unengaged in Hr as (? & ? & ? & -> & _ & Hr & ?); [|each_call|done..]).
  match type of Hr with runs ?p ?t _ => assert (runs p t (Err error) /\ ev ∈ t) as [Hl Hlast] by done end.
  apply (launch_tail pool) in Hl as [(t' & last & ->) Hh]; [|done]. rewrite (Hh ev _ Hlast Hev).
  do 5 (rewrite app_assoc). eauto.
Qed.

(** * Commands *)
(** Storage named the principal's host and session as the owner of its actor; unless
    only [named], in its region and under a running lease. *)
Definition owner_known (named : bool) (p : ActorPrincipal) (t : list (event CEff)) : Prop :=
  exists pl, Ev (GetOwner (storage_key (pr_actor p))) (Ok (Some pl)) ∈ t /\
    pl_owner pl = pr_host_id p /\ lease_session_id (pl_lease pl) = pr_session_id p /\
    (named = true \/ home_region pl = pr_region p /\ lease_running (pl_lease pl) t).
(** What a command may ask for, all of it for the principal's own actor, host and
    session: nothing else is requested by any command. *)
Definition own_request (p : ActorPrincipal) (command : ControlPlaneCommand) (X : Type) (e : CEff X) : Prop :=
  match e with
  | GetOwner object => object = storage_key (pr_actor p)
  | ClockNow | UnixMillis => True
  | AccessInitialTargets scope => command = PrepareReplicaConnections /\ scope = principal_scope p
  | AccessInitialReplicas scope => command = PrepareInitialReplicas /\ scope = principal_scope p
  | AccessReplicas scope failed => command = EnsureReplicas failed /\ scope = principal_scope p
  | AccessIssue => command = RefreshStorageAccess
  | RecordTraces project h ses count dropped =>
      (exists traces, command = RequestTraces traces dropped /\ count = length traces) /\
      project = project_id (pr_actor p) /\ h = pr_host_id p /\ ses = pr_session_id p
  | NotifyChanges => command = InventoryChanged
  | DeliverSocketMessage actor event => command = SocketMessage actor event /\ actor = pr_actor p
  | _ => False
  end.
(** Whether the caller must be known as the owner first, and then whether it is enough
    that it is named.  A host prepares its first replicas before it owns the actor: the
    two requests of [PrepareReplicaConnections] and [PrepareInitialReplicas] wait for
    no owner. *)
Definition needs_owner {X} (e : CEff X) : option bool :=
  match e with
  | GetOwner _ | ClockNow | UnixMillis | AccessInitialTargets _ | AccessInitialReplicas _ => None
  | NotifyChanges => Some true
  | _ => Some false
  end.
Definition permitted (p : ActorPrincipal) (command : ControlPlaneCommand) (X : Type) (e : CEff X)
  (t : list (event CEff)) : Prop :=
  own_request p command X e /\ forall named, needs_owner e = Some named -> owner_known named p t.

Lemma owner_known_weaken named p t t' : owner_known named p t -> t ⊆ t' -> owner_known named p t'.
Proof.
  intros (pl & Hin & Ho & Hs & Hl) Hsub. exists pl. split_and!; [by apply Hsub|done..|].
  destruct Hl as [->|[]]; [by left|]. right. eauto using lease_running_weaken.
Qed.
(** Requests that wait for no owner, and those made once it is known *)
Lemma guarded_free p command {A} (q : cprog A) t :
  all_calls (fun X e => own_request p command X e /\ needs_owner e = None) q -> guarded (permitted p command) q t.
Proof. apply all_calls_guarded. intros X e t' [Ho Hn]. split; [done|congruence]. Qed.
Lemma guarded_known p command {A} (q : cprog A) t :
  owner_known false p t -> all_calls (own_request p command) q -> guarded (permitted p command) q t.
Proof.
  revert t. induction q as [r|X e k IH]; intros t Hk; cbn; [done|]. intros [Ho Hq]. split.
  - split; [done|]. intros [] _; [|done]. destruct Hk as (pl & Hin & Hn & Hs & _). exists pl. auto.
  - intros x. apply IH; [|done]. eapply owner_known_weaken; [done|set_solver].
Qed.

Lemma require_active_known p t lease : runs (require_active_host p) t (Ok lease) -> owner_known false p t.
Proof.
  unfold require_active_host, current_placement. intros Hr. run_inv.
  match goal with H : Ok _ = with_context ?o _ |- _ => destruct o; cbn [with_context] in H; simplify_eq end.
  bools. eexists. split; [in_trace|]. split_and!; [done..|]. right. split; [done|]. eexists. split; [in_trace|done].
Qed.
Lemma authorize_known p actor t : runs (authorize_socket_host p actor) t (Ok ()) ->
  owner_known false p t /\ actor = pr_actor p.
Proof.
  unfold authorize_socket_host. intros Hr. do 3 run_step.
  match goal with H : runs (require_active_host p) _ _ |- _ => apply require_active_known in H end.
  run_inv. bools. split; [|done]. eapply owner_known_weaken; [done|set_solver].
Qed.
(** A command that first requires its host to be active *)
Lemma active_host_guarded p command {A} (q : HostLease -> cprog A) :
  (forall lease, all_calls (own_request p command) (q lease)) ->
  guarded (permitted p command) (require_active_host p ≫= q) [].
Proof.
  intros Hq. apply guarded_bind; [apply guarded_free; each_call|].
  intros t lease Hk%require_active_known. by apply guarded_known.
Qed.
Lemma execute_guarded p command : guarded (permitted p command) (execute_command cp p command) [].
Proof.
  destruct command; cbn [execute_command]; try (apply active_host_guarded; intros; each_call; by eauto);
    try (apply guarded_free; each_call; done).
  - apply guarded_bind; [apply guarded_free; each_call|]. intros t owner Ho. run_inv.
    apply guarded_bind; [apply guarded_free; each_call|]. intros t' [] Hc. run_inv. split; [|done].
    split; [done|]. intros named [= <-]. destruct owner as [pl|]; [|done]. bools.
    exists pl. split_and!; [in_trace|done..|by left].
  - apply active_host_guarded. intros _. each_call. split; [by split_and!; eauto|]. intros. each_call.
  - apply guarded_bind.
    + unfold authorize_socket_host. apply guarded_bind; [apply guarded_free; each_call|]. intros t [] _.
      apply guarded_bind; [apply guarded_free; each_call|]. intros t' [] Ha. run_inv. bools. subst actor. apply guarded_free. each_call.
    + intros t [] [Hk ->]%authorize_known. apply guarded_known; [done|]. unfold deliver_socket_message_event. each_call.
Qed.
(** The replacement of a host's credential is handed out under the same condition. *)
Lemma refreshed_known p command t token credential :
  runs (execute_command cp p command) t (Ok (StorageAccessReply token credential)) -> owner_known false p t.
Proof.
  destruct command; cbn [execute_command]; intros Hr; run_step; try (run_inv; done);
    match goal with H : runs (require_active_host p) _ _ |- _ => apply require_active_known in H end.
  all: eapply owner_known_weaken; [done|set_solver].
Qed.

(** C20: a host's commands take effect only for the host that owns the actor.  A command
    asks for nothing but what [own_request] lists, always for the actor, host and session
    of its credential.  No storage token is issued, replica replaced, trace recorded or
    message delivered, and no credential renewed, before storage has named the caller's
    host and session as the owner of the actor, in its region and under a running lease;
    a change is announced once it is named.  The exceptions are the two commands that
    prepare the first replicas of the caller's own scope, which need no owner. *)
Theorem commands_act_for_the_owner p command t r :
  runs (execute_command cp p command) t r ->
  (forall t1 X (e : CEff X) x t2, t = (t1 ++ Ev e x :: t2)%list -> permitted p command X e t1) /\
  (forall token credential, r = Ok (StorageAccessReply token credential) -> owner_known false p t).
Proof.
  intros Hr. split.
  - intros t1 X e x t2 Ht. exact (guarded_runs _ _ _ _ _ (execute_guarded p command) Hr _ _ _ _ _ Ht).
  - intros token credential ->. by apply refreshed_known in Hr.
Qed.

(** * Deployments *)
(** The hosts of a deployment were retired: in the pool, or by the provider. *)
Definition hosts_terminated (old : HostLaunchSpec) (t : list (event CEff)) : Prop :=
  match cp_pool cp with
  | Some _ => exists rows, Ev (PoolCall (Sql (retire_config_rows (host_config_key old)))) (Ok rows) ∈ t
  | None => exists hosts, Ev (ProviderTerminate (host_config_key old) ALL_REGIONS) (Ok hosts) ∈ t
  end.
(** The registry was asked for the deployment to be replaced, and its hosts are gone. *)
Definition replaceable (project : string) (t : list (event CEff)) : Prop :=
  exists previous, Ev (RegistryLaunchSpec project) (Ok previous) ∈ t /\
    forall old, previous = Some old -> hosts_terminated old t.

Lemma hosts_terminated_weaken old t t' : hosts_terminated old t -> t ⊆ t' -> hosts_terminated old t'.
Proof. unfold hosts_terminated. destruct (cp_pool cp); intros [r Hr] Hsub; exists r; by apply Hsub. Qed.
Lemma replaceable_weaken project t t' : replaceable project t -> t ⊆ t' -> replaceable project t'.
Proof. intros (q & Hq & Ht) Hsub. exists q. split; [by apply Hsub|]. eauto using hosts_terminated_weaken. Qed.



End safety.

(** * Runs *)
Import Hex.
#[local] Instance run_identity_json : Json HostIdentity :=
  {| to_vec := fun _ => "identity"; from_slice := fun _ => Err "" |}.
#[local] Instance run_handle_json : Json SpareHandle := {| to_vec := sh_name; from_slice := fun _ => Err "" |}.
#[local] Instance run_key_json : Json PoolKey :=
  {| to_vec := fun '(_, i, r, _) => i +:+ r; from_slice := fun _ => Err "" |}.
#[local] Instance run_value_json : Json Value := {| to_vec := fun _ => "{}"; from_slice := fun _ => Err "" |}.
#[local] Instance run_keys : JwtKeys := {| verifying_key := id; decode_header := fun _ => Err "" |}.
#[local] Instance run_jwt : Jwt ActorJwtClaims :=
  {| jwt_encode := fun id key c => Ok (cl_sub c); jwt_decode := fun _ _ _ _ => Err "" |}.
#[local] Instance run_url : UrlParser :=
  {| parse_url := fun s => Ok {| username := ""; password := None; query := None; fragment := None; url_path := "/";
                                 host_str := Some s; scheme := "https"; ascii_serialization := s |} |}.

Definition run_spec : HostLaunchSpec :=
  {| spec_project_id := "proj"; spec_source := None; image_ref := "image"; code_snapshot := None;
     working_directory := "/app"; actor_entrypoint := None; secret_refs := [] |}.
Definition run_lease (h ses : string) : HostLease :=
  {| lease_id := h; lease_session_id := ses; lease_route := "https://h"; expires_at_ms := 2000 |}.
Definition run_placement : ObjectPlacement :=
  {| pl_lease := run_lease "h" "s"; pl_object := storage_key sample_actor; pl_owner := "h"; pl_owner_epoch := 3;
     home_region := "europe-west"; pl_state_version := 0; state_object := None; last_request_id := None |}.
(** The answers of a provider that works, and of an empty database *)
Definition run_answer (owner : option ObjectPlacement) (X : Type) (e : CEff X) : X :=
  match e with
  | PoolCall e => match e with
                  | Sql s => (s 0 (fun _ => false) {| spares := ∅; backoffs := ∅ |}).1
                  | TxBegin _ _ _ => Ok false
                  | TxCapacity _ _ => Ok 0
                  | TxReserve _ _ _ => Ok ()
                  | CreateSpare _ => Err ""
                  | RetireSpare _ => Ok ()
                  | LaunchSpecs => Ok []
                  | FreshUuid => "u"
                  end
  | RegistryLaunchSpec _ => Ok (Some run_spec)
  | RegistryRegister _ _ => Ok true
  | RegistryContract _ => Ok None
  | RegistryRemove _ => Ok ()
  | GetOwner _ => Ok owner
  | ClockNow => Ok 1000
  | UnixMillis => Ok 1000
  | NewUuid => "u"
  | ProviderWaitReady _ => Ok ()
  | ProviderEnsureHost r =>
      Ok {| hh_lease := Some (run_lease (eh_host_id r) (eh_session_id r)); hh_owner_epoch := 1;
            hh_host_id := eh_host_id r; hh_route := "https://h"; hh_canonical_region := eh_canonical_region r;
            hh_provisioning := Some "res" |}
  | ProviderTerminate _ _ => Ok []
  | ProviderSocketCredentials _ => Err ""
  | ProviderBuildCode _ _ _ _ => Err ""
  | AccessPrewarm _ => ()
  | AccessBootstrap _ => Ok "config"
  | AccessIssue => Ok None
  | AccessInitialTargets _ => Ok []
  | AccessInitialReplicas _ => Err ""
  | AccessReplicas _ _ => Ok []
  | RecordTraces _ _ _ _ _ => Ok ()
  | NotifyChanges => ()
  | DeliverSocketMessage _ _ => ()
  | LockDeployments => ()
  | UnlockDeployments => ()
  | LocalBuildPrepare _ => Err ""
  | LocalBuildCommit => ()
  end.
Definition run_control_plane (pool : option PoolConfig) : ControlPlaneConfig :=
  {| cp_region := None; cp_runtime_access := true; cp_pool := pool; cp_issuer := sample_issuer;
     cp_runtime_image := None; cp_local_builds := false |}.
Definition run_pool : PoolConfig :=
  {| pc_kind := Actor; pc_idle := 1; pc_fleet_maximum := 2; pc_max_starting := 1; pc_idle_ttl_seconds := 60;
     pc_regions := ["europe-west"]; pc_resources := ResourceLimits_default |}.

(** A host is launched for an actor that has none. *)
Definition run_route : list (event CEff) * Result RoutedActor :=
  follow (run_answer None) (route_actor (run_control_plane None) 1 sample_actor "europe-west" (Some "europe-west")).
Lemma routed_host_is_live_witness :
  exists r, run_route.2 = Ok r /\ home_region (ra_placement r) = "europe-west" /\ ra_spec r = run_spec.
Proof.
  assert (exists r, run_route.2 = Ok r) as [r Hr] by (eexists; vm_compute; reflexivity).
  exists r. split; [done|].
  assert (runs (route_actor (run_control_plane None) 1 sample_actor "europe-west" (Some "europe-west")) run_route.1 (Ok r))
    as H by (rewrite <-Hr; apply follow_runs).
  destruct (routed_host_is_live (run_control_plane None) 1 sample_actor "europe-west" (Some "europe-west") _ r H) as [Hh _].
  split; [by apply Hh|]. clear Hh H. vm_compute in Hr. by apply Ok_inj in Hr as <-.
Defined.

(** The claim of the sandbox is gone when its host has started. *)
Definition run_failing : cprog (HostLease * Z) :=
  launch (run_control_plane (Some run_pool)) run_spec "europe-west" sample_actor true.
Definition run_request : EnsureHostRequest :=
  {| eh_actor_is_new := true; eh_actor := Some sample_actor; eh_code_snapshot := None; eh_spare := None;
     eh_resources := ResourceLimits_default; eh_runtime_config := Some "config";
     eh_host_config_key := host_config_key run_spec; eh_canonical_region := "europe-west";
     eh_host_id := "host.v3." +:+ host_config_key run_spec +:+ ".u"; eh_session_id := "u";
     eh_host_token := "host.v3." +:+ host_config_key run_spec +:+ ".u"; eh_image_ref := "image";
     eh_working_directory := "/app"; eh_actor_entrypoint := None; eh_secret_refs := [] |}.
Lemma failed_launch_is_retired_witness :
  exists t' last, (follow (run_answer None) run_failing).1 =
    (t' ++ [Ev (PoolCall (Sql (fail_host (eh_host_id run_request)))) last])%list.
Proof.
  apply (failed_launch_is_retired (run_control_plane (Some run_pool)) run_pool run_spec "europe-west" sample_actor true
           _ "actor sandbox claim expired or was retired" run_request
           (run_answer None _ (ProviderEnsureHost run_request))).
  - done.
  - pose proof (follow_runs (run_answer None) run_failing) as H. assert ((follow (run_answer None) run_failing).2 =
      Err "actor sandbox claim expired or was retired") as E by (vm_compute; reflexivity). by rewrite E in H.
  - apply (list_elem_of_lookup_2 _ 6). vm_compute. reflexivity.
Defined.

(** The owner of the actor announces a change and asks for replicas. *)
Definition run_principal : ActorPrincipal :=
  {| pr_actor := sample_actor; pr_host_id := "h"; pr_session_id := "s"; pr_region := "europe-west";
     pr_host_config_key := Some "key"; pr_invocation := None |}.
Definition run_scope : ReplicaScope := principal_scope run_principal.
Lemma commands_act_for_the_owner_witness :
  owner_known false run_principal
    [Ev (GetOwner (storage_key sample_actor)) (Ok (Some run_placement)); Ev ClockNow (Ok 1000)].
Proof.
  refine (proj2 (proj1 (commands_act_for_the_owner (run_control_plane None) run_principal (EnsureReplicas [])
           (follow (run_answer (Some run_placement))
              (execute_command (run_control_plane None) run_principal (EnsureReplicas []))).1
           (Ok (ReplicasReply [])) _) _ _ (AccessReplicas run_scope []) (Ok []) [] _) false _).
  - apply (follow_runs (run_answer (Some run_placement))).
  - reflexivity.
  - reflexivity.
Defined.

