(* ===== verification/ReplicaFleet.v ===== *)
(** The fleet of replicas: control_plane/replication.rs, replication/store.rs and
    replication/lifecycle.rs.

    A group of replicas belongs to one activation of an actor.  It has a slot per
    region; the last instance of a slot is the one in use, the others were
    superseded.  The table of groups is a map of rows and its statements are
    functions of the time and the table; the operations are programs over them,
    the pool of sandboxes, and the storage of [RuntimeStorage]. *)

From S2P Require Import Prelude.
From S2P Require Import Calls.
From S2P Require Import Actors.
From S2P Require Import StoragePaths.
From S2P Require Import Snapshots.
From S2P Require Import ReplicaServer.
From S2P Require Import Deployments.
From S2P Require Import SparePool.
Local Open Scope string_scope.
Local Open Scope Z_scope.

(** * Groups: [store.rs] *)
Record ReplicaInstance := { in_host : string; in_target : option ReplicaTarget }.
Record Slot := { sl_region : string; sl_instances : list ReplicaInstance }.
Record Group := {
  gr_scope : ReplicaScope;
  gr_image : string;
  gr_retiring : bool;
  gr_slots : list Slot }.
Record GroupRow := { row_config : string; row_updated_at : Z; row_checked_at : Z }.
Abbreviation Groups := (gmap string GroupRow).

Definition Instance_new (id : string) : ReplicaInstance := {| in_host := "replica." +:+ id; in_target := None |}.
Definition set_instances (s : Slot) (l : list ReplicaInstance) : Slot := {| sl_region := sl_region s; sl_instances := l |}.
Definition set_slots (g : Group) (l : list Slot) : Group :=
  {| gr_scope := gr_scope g; gr_image := gr_image g; gr_retiring := gr_retiring g; gr_slots := l |}.
Definition push_instance (id : string) (s : Slot) : Slot :=
  set_instances s (sl_instances s ++ [Instance_new id])%list.

(** A statement runs at a time, on the table. *)
Definition GroupStatement (X : Type) : Type := Z -> Groups -> Result X * Groups.

Section statements.
Context `{Json Group}.

Definition contains_group (id : string) : GroupStatement bool := fun _ db =>
  (Ok (bool_decide (is_Some (db !! id))), db).

(** [INSERT ... ON CONFLICT DO NOTHING] *)
Definition insert_group (id : string) (g : Group) : GroupStatement unit := fun now db =>
  (Ok (), match db !! id with
          | Some _ => db
          | None => <[id := {| row_config := to_vec g; row_updated_at := now; row_checked_at := now |}]> db
          end).

(** [Store::update], one transaction *)
Definition update_group (id : string) (touch retiring : bool) (change : Group -> Result Group)
  : GroupStatement Group := fun now db =>
  match db !! id with
  | Some row =>
      if retiring && negb (row_updated_at row <? now - seconds 120)
      then (Err "replica group missing or provisioning is in progress", db)
      else match (g ← from_slice (row_config row); change g) with
           | Err e => (Err e, db)
           | Ok g => (Ok g, <[id := {| row_config := to_vec g;
                                      row_updated_at := if touch then now else row_updated_at row;
                                      row_checked_at := row_checked_at row |}]> db)
           end
  | None => (Err "replica group missing or provisioning is in progress", db)
  end.

Definition row_before (a b : GroupRow) : Prop := row_checked_at a <= row_checked_at b.
#[global] Instance row_before_dec : RelDecision row_before.
Proof. intros a b. unfold row_before. apply _. Defined.
Definition candidates : GroupStatement (list Group) := fun now db =>
  (collect (fun row => from_slice (row_config row))
     (take 64 (merge_sort row_before
        (filter (fun row => row_updated_at row < now - seconds 120) (map_to_list db).*2))), db).

Definition checked_group (id : string) : GroupStatement unit := fun now db =>
  (Ok (), match db !! id with
          | Some row => <[id := {| row_config := row_config row; row_updated_at := row_updated_at row;
                                   row_checked_at := now |}]> db
          | None => db
          end).
Definition delete_group (id : string) : GroupStatement unit := fun _ db => (Ok (), delete id db).
End statements.

(** ** The changes of [Store::update]; [fresh] are the identifiers drawn, by slot *)
Definition prepare_slot (failed : list string) (fresh : nat -> string) (k : nat) (s : Slot) : Result Slot :=
  current ← with_context (last (sl_instances s)) "replica slot is empty";
  Ok (if bool_decide (in_host current ∈ failed) then push_instance (fresh k) s else s).
Fixpoint change_slots (f : nat -> Slot -> Result Slot) (k : nat) (l : list Slot) : Result (list Slot) :=
  match l with
  | [] => Ok []
  | s :: l' => s' ← f k s; rest ← change_slots f (S k) l'; Ok (s' :: rest)
  end.
Definition prepare_change (scope : ReplicaScope) (failed : list string) (fresh : nat -> string) (g : Group)
  : Result Group :=
  ensure (negb (gr_retiring g) && bool_decide (gr_scope g = scope)) "replica activation is retired or changed";;
  slots ← change_slots (prepare_slot failed fresh) 0 (gr_slots g);
  Ok (set_slots g slots).

(** An index outside of the slots ends the task. *)
Definition record_change (k : nat) (target : ReplicaTarget) (g : Group) : Result Group :=
  ensure (negb (gr_retiring g)) "replica group is retiring";;
  s ← with_context (gr_slots g !! k) "index out of bounds";
  current ← with_context (last (sl_instances s)) "replica slot is empty";
  ensure (String.eqb (in_host current) (host_id target)) "replica was replaced concurrently";;
  Ok (set_slots g (<[k := set_instances s (removelast (sl_instances s) ++
                            [{| in_host := in_host current; in_target := Some target |}])%list]> (gr_slots g))).

Definition retry_slot (h : string) (fresh : nat -> string) (k : nat) (s : Slot) : Slot :=
  match last (sl_instances s) with
  | Some current =>
      if String.eqb (in_host current) h && is_none (in_target current) then push_instance (fresh k) s else s
  | None => s
  end.
Definition retry_change (h : string) (fresh : nat -> string) (g : Group) : Result Group :=
  ensure (negb (gr_retiring g)) "replica group is retiring";;
  Ok (set_slots g (imap (retry_slot h fresh) (gr_slots g))).

Definition retire_change (g : Group) : Result Group :=
  Ok {| gr_scope := gr_scope g; gr_image := gr_image g; gr_retiring := true; gr_slots := gr_slots g |}.

Definition forget_slot (h : string) (s : Slot) : Slot :=
  let current := in_host <$> last (sl_instances s) in
  set_instances s (filter (fun i => in_host i <> h \/ current = Some (in_host i)) (sl_instances s)).
Definition forget_change (h : string) (g : Group) : Result Group :=
  Ok (set_slots g (forget_slot h <$> gr_slots g)).

(** * Requests of the fleet; the first two are the trait [ReplicaProvider] *)
Inductive FEff : Type -> Type :=
| ProvideReplica (image region : string) (assignment : ReplicaAssignment) : FEff (Result ReplicaTarget)
| RetireReplica (h : string) : FEff (Result unit)
| FGroups {X : Type} (s : GroupStatement X) : FEff (Result X)
| FLaunchSpec (project : string) : FEff (Result (option HostLaunchSpec))
| FFresh : FEff (nat -> string)
(* [RuntimeStorage] and the clock *)
| FGetOwner (object : ActorStorageKey) : FEff (Result (option ObjectPlacement))
| FReplicaMembers (scope : ReplicaScope) : FEff (Result (list ReplicaTarget))
| FRetireReplication (scope : ReplicaScope) : FEff (Result unit)
| FNow : FEff (Result Z).

Abbreviation fleet_prog := (calls FEff).

(** * [PooledReplicaProvider]: the provider on top of the pool *)
Inductive PrEff : Type -> Type :=
| PrPool {X : Type} (e : PEff X) : PrEff X
(* [POST url] with a bearer token: the status of the response *)
| PrPost (url token : string) (assignment : ReplicaAssignment) : PrEff (Result Z).

Fixpoint pool_op {A} (p : pool_prog A) : calls PrEff A :=
  match p with
  | CRet r => CRet r
  | CVis e k => CVis (PrPool e) (fun x => pool_op (k x))
  end.

(** [str::trim_end_matches('/')] *)
Fixpoint trim_end_slashes (s : string) : string :=
  match s with
  | EmptyString => EmptyString
  | String c s' =>
      let t := trim_end_slashes s' in
      if is_empty t && Ascii.eqb c "/" then EmptyString else String c t
  end.

(** What [fleet] derives from the configuration *)
Definition fleet_secret `{Base64Url, Hmac} (signing_key : string) : string :=
  b64_encode (hmac_sign signing_key "durable-actors:replica:v1").
Definition fleet_pool (config : PoolConfig) (replica_regions : list string) : PoolConfig :=
  {| pc_kind := Replica; pc_idle := pc_idle config; pc_fleet_maximum := pc_fleet_maximum config;
     pc_max_starting := pc_max_starting config; pc_idle_ttl_seconds := pc_idle_ttl_seconds config;
     pc_regions := set_extend replica_regions []; pc_resources := ResourceLimits_default |}.

Section provider.
Context `{Base64Url, Sha256, Json SpareHandle, Json PoolKey}.
(** The pool of replicas and how often it is asked *)
Context (pool : PoolConfig) (polls : nat).

Definition provider_ensure (image region : string) (assignment : ReplicaAssignment) : calls PrEff ReplicaTarget :=
  spare ← pool_op (acquire_replica polls pool image region (as_host_id assignment));
  status ← await_ok (PrPost (trim_end_slashes (control_route spare) +:+ "/assign") (control_token spare) assignment);
  check_that (status <? 400) "HTTP status client or server error";;
  check_that (status =? 204) "replica spare did not confirm assignment";;
  pool_op (activate_replica (as_host_id assignment));;
  mret {| host_id := as_host_id assignment; url := sh_route spare; target_region := sh_canonical_region spare |}.
Definition provider_retire (h : string) : calls PrEff unit := pool_op (retire_replica h).
End provider.

Definition host_before (a b : ReplicaTarget) : Prop := String.leb (host_id a) (host_id b) = true.
#[global] Instance host_before_dec : RelDecision host_before.
Proof. intros a b. unfold host_before. apply _. Defined.

Section fleet.
Context `{Base64Url, Json Group}.
(** The secret and the regions of the fleet *)
Context (secret : string) (replica_regions : list string).

Definition groups {X} (s : GroupStatement X) : fleet_prog X := await_ok (FGroups s).

(** ** [Store] *)
Definition prepare_group (scope : ReplicaScope) (regions : list string) (image : string) (failed : list string)
  : fleet_prog Group :=
  first ← await FFresh;
  groups (insert_group (identity scope)
    {| gr_scope := scope; gr_image := image; gr_retiring := false;
       gr_slots := imap (fun k region => {| sl_region := region; sl_instances := [Instance_new (first k)] |}) regions |});;
  fresh ← await FFresh;
  groups (update_group (identity scope) true false (prepare_change scope failed fresh)).
Definition record_target (scope : ReplicaScope) (k : nat) (target : ReplicaTarget) : fleet_prog unit :=
  groups (update_group (identity scope) true false (record_change k target));; mret ().
Definition retry_assignment (id h : string) : fleet_prog unit :=
  fresh ← await FFresh;
  groups (update_group id true false (retry_change h fresh));; mret ().
Definition retire_group (id : string) : fleet_prog Group := groups (update_group id false true retire_change).
Definition forget_instance (id h : string) : fleet_prog unit :=
  groups (update_group id false false (forget_change h));; mret ().

(** ** [ActorReplicaFleet] *)
(** The task of a slot whose instance has no target yet *)
Definition provision_slot (g : Group) (k : nat) (region : string) (h : string) : fleet_prog ReplicaTarget :=
  let assignment := {| as_host_id := h; as_scope := gr_scope g; as_secret := secret |} in
  ensured ← outcome (await_ok (ProvideReplica (gr_image g) region assignment));
  match ensured with
  | Err error => retry_assignment (identity (gr_scope g)) h;; try (Err error)
  | Ok target =>
      recorded ← outcome (record_target (gr_scope g) k target);
      match recorded with
      | Err error =>
          known ← outcome (groups (contains_group (identity (gr_scope g))));
          (if bool_decide (known = Ok false) then outcome (await_ok (RetireReplica h));; mret () else mret ());;
          try (Err error)
      | Ok _ => mret target
      end
  end.

(** The slots in order: a target, or a task that provides one *)
Fixpoint provision_tasks (g : Group) (k : nat) (l : list Slot) : Result (list (fleet_prog ReplicaTarget)) :=
  match l with
  | [] => Ok []
  | s :: l' =>
      instance ← with_context (last (sl_instances s)) "replica slot missing";
      rest ← provision_tasks g (S k) l';
      Ok (match in_target instance with
          | Some target => mret target
          | None => provision_slot g k (sl_region s) (in_host instance)
          end :: rest)
  end.
(** Tasks run side by side; every reply is possible, so one after the other only
    the order of their requests is fixed.  All end before an error is returned. *)
Definition provision (g : Group) : fleet_prog (list ReplicaTarget) :=
  tasks ← try (provision_tasks g 0 (gr_slots g));
  results ← each outcome tasks;
  targets ← try (collect id results);
  mret (merge_sort host_before targets).

Definition fleet_repair (scope : ReplicaScope) (failed : list string) : fleet_prog (list ReplicaTarget) :=
  if is_nil replica_regions then mret []
  else
    try (ActorKey_validate (scope_actor scope));;
    loaded ← await_ok (FLaunchSpec (project_id (scope_actor scope)));
    spec ← try (with_context loaded "no actor image is registered");
    group ← prepare_group scope replica_regions (image_ref spec) failed;
    provision group.
Definition fleet_ensure (scope : ReplicaScope) : fleet_prog (list ReplicaTarget) := fleet_repair scope [].

(** ** [lifecycle.rs] *)
Definition retire_one (members : list ReplicaTarget) (id : string) (instance : ReplicaInstance) : fleet_prog unit :=
  if existsb (fun m => String.eqb (host_id m) (in_host instance)) members then mret ()
  else await_ok (RetireReplica (in_host instance));; forget_instance id (in_host instance).
Definition retire_superseded (g : Group) : fleet_prog unit :=
  if forallb (fun s => Nat.eqb (length (sl_instances s)) 1) (gr_slots g) then mret ()
  else
    members ← await_ok (FReplicaMembers (gr_scope g));
    each (fun s => each (retire_one members (identity (gr_scope g)))
                     (take (pred (length (sl_instances s))) (sl_instances s))) (gr_slots g);;
    mret ().

Definition owner_active (g : Group) (owner : option ObjectPlacement) (now : Z) : bool :=
  match owner with
  | Some owner => String.eqb (pl_owner owner) (scope_host (gr_scope g))
                  && String.eqb (lease_session_id (pl_lease owner)) (scope_session (gr_scope g))
                  && (now <? expires_at_ms (pl_lease owner))
  | None => false
  end.
Definition reconcile_group (g : Group) : fleet_prog unit :=
  owner ← await_ok (FGetOwner (storage_key (scope_actor (gr_scope g))));
  now ← await_ok FNow;
  if owner_active g owner now then retire_superseded g
  else
    g ← retire_group (identity (gr_scope g));
    await_ok (FRetireReplication (gr_scope g));;
    each (fun s => each (fun i => await_ok (RetireReplica (in_host i))) (sl_instances s)) (gr_slots g);;
    groups (delete_group (identity (gr_scope g))).
Definition fleet_reconcile : fleet_prog unit :=
  found ← groups candidates;
  each (fun g => outcome (reconcile_group g);; groups (checked_group (identity (gr_scope g)))) found;;
  mret ().
End fleet.
