(* ===== verification/ReplicaFleetSafety.v ===== *)
(** What the fleet of replicas guarantees: a replica in use keeps its slot, a
    sandbox is retired only when no session can need it, and provisioning fills
    every slot. *)

From S2P Require Import Prelude.
From S2P Require Import Calls.
From S2P Require Import Actors.
From S2P Require Import StoragePaths.
From S2P Require Import Snapshots.
From S2P Require Import Samples.
From S2P Require Import ReplicaServer.
From S2P Require Import Deployments.
From S2P Require Import SparePool.
From S2P Require Import ReplicaFleet.
Local Open Scope string_scope.
Local Open Scope Z_scope.

(** * A replica in use keeps its slot *)
(** The host and the address of the instance in use, once it is provided *)
Definition slot_target (g : Group) (k : nat) : option (string * ReplicaTarget) :=
  s ← gr_slots g !! k; i ← last (sl_instances s); t ← in_target i; Some (in_host i, t).
Definition keeps_slots (h : string) (change : Group -> Result Group) : Prop :=
  forall g g' k t, change g = Ok g' -> slot_target g k = Some (h, t) -> exists t', slot_target g' k = Some (h, t').

Lemma change_slots_lookup f l l' k0 k : change_slots f k0 l = Ok l' ->
  match l !! k with
  | Some s => exists s', l' !! k = Some s' /\ f (k0 + k)%nat s = Ok s'
  | None => l' !! k = None
  end.
Proof.
  revert l' k0 k. induction l as [|s l IH]; intros l' k0 k Hl; cbn [change_slots] in Hl; [by simplify_eq|].
  apply bind_ok in Hl as (s' & Hs & Hl). apply bind_ok in Hl as (rest & Hr & [= <-]).
  destruct k as [|k]; cbn.
  - exists s'. by rewrite Nat.add_0_r.
  - specialize (IH _ _ k Hr). by rewrite Nat.add_succ_r.
Qed.

Lemma slot_target_slots g l k : slot_target (set_slots g l) k =
  (s ← l !! k; i ← last (sl_instances s); t ← in_target i; Some (in_host i, t)).
Proof. done. Qed.
Lemma slot_target_some g k h t : slot_target g k = Some (h, t) ->
  exists s i, gr_slots g !! k = Some s /\ last (sl_instances s) = Some i /\ in_host i = h /\ in_target i = Some t.
Proof.
  unfold slot_target. destruct (gr_slots g !! k) as [s|]; [|done]. cbn.
  destruct (last (sl_instances s)) as [i|] eqn:El; [|done]. cbn. destruct (in_target i) eqn:Et; [|done]. cbn.
  intros [= <- <-]. eauto 10.
Qed.

Lemma prepare_keeps scope failed fresh h : h ∉ failed -> keeps_slots h (prepare_change scope failed fresh).
Proof.
  intros Hf g g' k t Hg (s & i & Hs & Hi & Hh & Ht)%slot_target_some. unfold prepare_change in Hg.
  apply bind_ok in Hg as (_ & _ & Hg). apply bind_ok in Hg as (slots & Hl & [= <-]).
  apply (change_slots_lookup _ _ _ _ k) in Hl. rewrite Hs in Hl. destruct Hl as (s' & Hs' & Hp).
  exists t. rewrite slot_target_slots, Hs'. unfold prepare_slot in Hp. rewrite Hi in Hp. cbn in Hp.
  rewrite Hh, bool_decide_eq_false_2 in Hp by done. simplify_eq. cbn. rewrite Hi. cbn. by rewrite Ht.
Qed.
Lemma record_keeps k' target h : keeps_slots h (record_change k' target).
Proof.
  intros g g' k t Hg (s & i & Hs & Hi & Hh & Ht)%slot_target_some. unfold record_change in Hg.
  apply bind_ok in Hg as (_ & _ & Hg). apply bind_ok in Hg as (s' & Hs' & Hg).
  apply bind_ok in Hg as (i' & Hi' & Hg). apply bind_ok in Hg as (_ & _ & [= <-]). rewrite slot_target_slots.
  destruct (decide (k' = k)) as [->|Hne].
  - rewrite Hs in Hs'. cbn in Hs'. simplify_eq. rewrite Hi in Hi'. cbn in Hi'. simplify_eq.
    rewrite list_lookup_insert_eq by (by eapply lookup_lt_Some). cbn. rewrite last_snoc. cbn. eauto.
  - rewrite list_lookup_insert_ne, Hs by done. cbn. rewrite Hi. cbn. rewrite Ht. cbn. rewrite Hh. eauto.
Qed.
Lemma retry_keeps h' fresh h : keeps_slots h (retry_change h' fresh).
Proof.
  intros g g' k t Hg (s & i & Hs & Hi & Hh & Ht)%slot_target_some. unfold retry_change in Hg.
  apply bind_ok in Hg as (_ & _ & [= <-]). exists t. rewrite slot_target_slots, list_lookup_imap, Hs. cbn.
  unfold retry_slot. rewrite Hi, Ht. rewrite andb_false_r. rewrite Hi. cbn. rewrite Ht. cbn. by rewrite Hh.
Qed.
Lemma retire_keeps h : keeps_slots h retire_change.
Proof. intros g g' k t [= <-] Ht. exists t. exact Ht. Qed.
Lemma filter_last {A} (P : A -> Prop) `{!forall a, Decision (P a)} l a :
  last l = Some a -> P a -> last (filter P l) = Some a.
Proof.
  intros (l' & ->)%last_Some Ha. rewrite filter_app, filter_cons_True, filter_nil by done. apply last_snoc.
Qed.
Lemma forget_keeps h' h : keeps_slots h (forget_change h').
Proof.
  intros g g' k t [= <-] (s & i & Hs & Hi & Hh & Ht)%slot_target_some.
  exists t. rewrite slot_target_slots, list_lookup_fmap, Hs. cbn.
  rewrite (filter_last _ _ i Hi) by (right; by rewrite Hi). cbn. rewrite Ht. cbn. by rewrite Hh.
Qed.

Section fleet_safety.
Context `{Base64Url, Json Group, !JsonLaws Group}.
Context (secret : string) (replica_regions : list string).

(** The group of a row, and the host in use in one of its slots *)
Definition group_of (db : Groups) (id : string) : option Group :=
  row ← db !! id; match from_slice (row_config row) with Ok g => Some g | Err _ => None end.
Definition in_use (db : Groups) (id : string) (k : nat) (h : string) : Prop :=
  exists g t, group_of db id = Some g /\ slot_target g k = Some (h, t).
Definition statement_keeps (h : string) {X} (s : GroupStatement X) : Prop :=
  forall now db id k, in_use db id k h -> is_Some ((s now db).2 !! id) -> in_use (s now db).2 id k h.

Lemma reading_keeps h {X} (s : GroupStatement X) : (forall now db, (s now db).2 = db) -> statement_keeps h s.
Proof. intros Hs now db id k Hu _. by rewrite Hs. Qed.
Lemma group_of_insert_ne db id id' row : id <> id' -> group_of (<[id' := row]> db) id = group_of db id.
Proof. intros Hne. unfold group_of. by rewrite lookup_insert_ne by done. Qed.
Lemma insert_keeps h id' g : statement_keeps h (insert_group id' g).
Proof.
  intros now db id k (g' & t & Hg & Ht) _. exists g', t. split; [|done]. cbn. destruct (db !! id') eqn:E; [done|].
  rewrite group_of_insert_ne; [done|]. intros ->. unfold group_of in Hg. by rewrite E in Hg.
Qed.
Lemma update_keeps h id' touch retiring change :
  keeps_slots h change -> statement_keeps h (update_group id' touch retiring change).
Proof.
  intros Hc now db id k Hu _. destruct Hu as (g & t & Hg & Ht). unfold update_group.
  destruct (db !! id') as [row|] eqn:E; [|by exists g, t].
  destruct (retiring && _); [by exists g, t|].
  destruct (from_slice (row_config row) ≫= change) as [g'|e] eqn:Eg; [|by exists g, t]. cbn [snd].
  destruct (decide (id = id')) as [->|Hne]; [|exists g, t; split; [by rewrite group_of_insert_ne|done]].
  apply bind_ok in Eg as (g0 & Eg0 & Eg). unfold group_of in Hg. rewrite E in Hg. cbn in Hg. rewrite Eg0 in Hg.
  simplify_eq. destruct (Hc _ _ _ _ Eg Ht) as [t' Ht']. exists g', t'. split; [|done].
  unfold group_of. rewrite lookup_insert_eq. cbn. by rewrite json_roundtrip.
Qed.
Lemma checked_keeps h id' : statement_keeps h (checked_group id').
Proof.
  intros now db id k (g & t & Hg & Ht) _. exists g, t. split; [|done]. cbn.
  destruct (db !! id') as [row|] eqn:E; [|done]. destruct (decide (id = id')) as [->|Hne].
  - unfold group_of in *. rewrite E in Hg. by rewrite lookup_insert_eq.
  - by rewrite group_of_insert_ne.
Qed.
Lemma delete_keeps h id' : statement_keeps h (delete_group id').
Proof.
  intros now db id k (g & t & Hg & Ht) [row Hrow]. exists g, t. split; [|done]. cbn in *.
  apply lookup_delete_Some in Hrow as [Hne _]. unfold group_of. by rewrite lookup_delete_ne.
Qed.

Definition request_keeps (h : string) (X : Type) (e : FEff X) : Prop :=
  match e with FGroups s => statement_keeps h s | _ => True end.

Lemma groups_keep h {X} (s : GroupStatement X) : statement_keeps h s -> all_calls (request_keeps h) (groups s).
Proof. intros Hs. split; [done|]. by intros []. Qed.
#[local] Hint Resolve groups_keep insert_keeps update_keeps checked_keeps delete_keeps prepare_keeps record_keeps
  retry_keeps retire_keeps forget_keeps : calls.
#[local] Hint Extern 1 (statement_keeps _ (contains_group _)) => apply reading_keeps; done : calls.
#[local] Hint Extern 1 (statement_keeps _ candidates) => apply reading_keeps; done : calls.

Lemma provision_slot_keeps h g k region h' : all_calls (request_keeps h) (provision_slot secret g k region h').
Proof. unfold provision_slot, retry_assignment, record_target. each_call. Qed.
Lemma provision_tasks_keep h g k l tasks : provision_tasks secret g k l = Ok tasks ->
  Forall (all_calls (request_keeps h)) tasks.
Proof.
  revert k tasks. induction l as [|s l IH]; intros k tasks Ht; cbn [provision_tasks] in Ht; [by simplify_eq|].
  apply bind_ok in Ht as (i & _ & Ht). apply bind_ok in Ht as (rest & Hr & [= <-]).
  constructor; [|by eapply IH]. destruct (in_target i); [done|apply provision_slot_keeps].
Qed.
Lemma each_keeps h {A B} (f : A -> fleet_prog B) l :
  Forall (fun a => all_calls (request_keeps h) (f a)) l -> all_calls (request_keeps h) (each f l).
Proof. induction 1; cbn [each]; [done|]. each_call; done. Qed.
Lemma provision_keeps h g : all_calls (request_keeps h) (provision secret g).
Proof.
  unfold provision. destruct (provision_tasks _ _ _ _) as [tasks|] eqn:Et; [|done].
  apply provision_tasks_keep with (h := h) in Et. cbn [try mbind calls_bind].
  apply all_calls_bind; [|intros results; each_call]. apply each_keeps.
  eapply Forall_impl; [done|]. intros task. apply all_calls_outcome.
Qed.
#[local] Hint Resolve provision_keeps : calls.
Lemma repair_keeps scope failed h : h ∉ failed ->
  all_calls (request_keeps h) (fleet_repair secret replica_regions scope failed).
Proof.
  intros Hf. unfold fleet_repair, prepare_group. destruct (is_nil _); [done|]. each_call.
Qed.
Lemma reconcile_keeps h : all_calls (request_keeps h) fleet_reconcile.
Proof.
  unfold fleet_reconcile, reconcile_group, retire_group, retire_superseded, retire_one, forget_instance.
  each_call; repeat (apply all_calls_each; intros); each_call; repeat (apply all_calls_each; intros); each_call.
Qed.

(** The statements that an operation of the fleet can ever make, whatever it is
    answered, if no host reports [h] as failed *)
Inductive asks (h : string) (X : Type) (s : GroupStatement X) : Prop :=
| asks_repair scope failed t r x : h ∉ failed ->
    runs (fleet_repair secret replica_regions scope failed) t r -> Ev (FGroups s) x ∈ t -> asks h X s
| asks_reconcile t r x : runs fleet_reconcile t r -> Ev (FGroups s) x ∈ t -> asks h X s.
(** One of them runs, at any time; the group [id] is still there. *)
Inductive fleet_step (h id : string) (db : Groups) : Groups -> Prop :=
| fleet_statement X (s : GroupStatement X) now : asks h X s -> is_Some ((s now db).2 !! id) ->
    fleet_step h id db (s now db).2.

Lemma asks_keeps h X s : asks h X s -> statement_keeps h s.
Proof.
  intros [scope failed t r x Hf Hr Hin|t r x Hr Hin].
  - pose proof (all_calls_runs _ _ _ _ (repair_keeps scope failed h Hf) Hr) as Ht.
    rewrite Forall_forall in Ht. apply (Ht _ Hin).
  - pose proof (all_calls_runs _ _ _ _ (reconcile_keeps h) Hr) as Ht. rewrite Forall_forall in Ht. apply (Ht _ Hin).
Qed.

(** A replica in use keeps its slot.  However control planes repair and clean up
    at once, and whatever fails, once a replica is provided for a slot it stays the
    one in use there, until the actor's host reports it as failed or the whole group
    is removed. *)
Theorem replica_in_use_stays h id k db db' :
  in_use db id k h -> rtc (fleet_step h id) db db' -> in_use db' id k h.
Proof.
  intros Hu Hs. induction Hs as [|db db1 db2 Hstep _ IH]; [done|]. apply IH.
  destruct Hstep as [X s now Ha Hid]. by apply (asks_keeps h X s Ha).
Qed.








(** * Provisioning fills every slot *)
(** The instance in use of slot [k] has the target; it had it already, or the
    provider assigned the replica to the group's scope and the store recorded it. *)
Definition slot_filled (g : Group) (t : list (event FEff)) (k : nat) (s : Slot) (target : ReplicaTarget) : Prop :=
  exists i, last (sl_instances s) = Some i /\
    (in_target i = Some target \/
     in_target i = None /\ exists g',
       Ev (ProvideReplica (gr_image g) (sl_region s)
             {| as_host_id := in_host i; as_scope := gr_scope g; as_secret := secret |}) (Ok target) ∈ t /\
       Ev (FGroups (update_group (identity (gr_scope g)) true false (record_change k target))) (Ok g') ∈ t).

Lemma provision_slot_ok g k s i t target : last (sl_instances s) = Some i -> in_target i = None ->
  runs (provision_slot secret g k (sl_region s) (in_host i)) t (Ok target) -> slot_filled g t k s target.
Proof.
  intros Hi Ht Hr. exists i. split; [done|]. right. split; [done|]. unfold provision_slot in Hr. cbn zeta in Hr.
  run_step. match goal with H : runs (outcome _) _ (Ok ?a) |- _ => destruct a as [target'|e] end; [|run_inv].
  run_step. match type of Hr with runs (match ?a with _ => _ end) _ _ => destruct a as [[]|e] end; [|run_inv].
  unfold record_target, groups in *. run_inv. eexists. split; in_trace.
Qed.
Lemma provision_tasks_lookup g k0 l tasks k : provision_tasks secret g k0 l = Ok tasks ->
  match l !! k with
  | Some s => exists i, last (sl_instances s) = Some i /\
      tasks !! k = Some (match in_target i with
                         | Some target => mret target
                         | None => provision_slot secret g (k0 + k) (sl_region s) (in_host i)
                         end)
  | None => tasks !! k = None
  end.
Proof.
  revert k0 tasks k. induction l as [|s l IH]; intros k0 tasks k Ht; cbn [provision_tasks] in Ht; [by simplify_eq|].
  apply bind_ok in Ht as (i & Hi & Ht). apply bind_ok in Ht as (rest & Hr & [= <-]). destruct k as [|k]; cbn.
  - exists i. rewrite Nat.add_0_r. split; [|done]. destruct (last _); cbn in Hi; congruence.
  - specialize (IH _ _ k Hr). by rewrite Nat.add_succ_r.
Qed.
Lemma collect_lookup {A B} (f : A -> Result B) l l' k : collect f l = Ok l' ->
  match l !! k with Some a => exists b, l' !! k = Some b /\ f a = Ok b | None => l' !! k = None end.
Proof.
  revert l' k. induction l as [|a l IH]; intros l' k Hl; cbn [collect] in Hl; [by simplify_eq|].
  apply bind_ok in Hl as (b & Hb & Hl). apply bind_ok in Hl as (rest & Hr & [= <-]). destruct k; cbn; [eauto|by apply IH].
Qed.

Lemma provision_tasks_length g k l tasks : provision_tasks secret g k l = Ok tasks -> length tasks = length l.
Proof.
  revert k tasks. induction l as [|s l IH]; intros k tasks Ht; cbn [provision_tasks] in Ht; [by simplify_eq|].
  apply bind_ok in Ht as (i & _ & Ht). apply bind_ok in Ht as (rest & Hr & [= <-]). cbn. f_equal. by eapply IH.
Qed.
Lemma slot_filled_weaken g t t' k s target : slot_filled g t k s target -> t ⊆ t' -> slot_filled g t' k s target.
Proof. intros (i & Hi & Hf) Hsub. exists i. split; [done|]. destruct Hf as [|(? & g' & ? & ?)]; [auto|]. right. eauto 10. Qed.
#[local] Instance host_before_total : Total host_before.
Proof. intros a b. unfold host_before. destruct (String.leb_total (host_id a) (host_id b)); auto. Qed.

(** Provisioning fills every slot.  When it returns, there is exactly one target
    for each slot, ordered by host, and each is the target of the slot's instance in
    use: already known, or provided for this activation just now and recorded in the
    group. *)
Theorem provisioning_fills_every_slot g t targets : runs (provision secret g) t (Ok targets) ->
  exists filled, targets ≡ₚ filled /\ length filled = length (gr_slots g) /\
    (forall k s target, gr_slots g !! k = Some s -> filled !! k = Some target -> slot_filled g t k s target) /\
    Sorted host_before targets.
Proof.
  intros Hr. unfold provision in Hr. run_step. run_step. run_step. run_inv.
  match goal with H : runs (each _ ?ts) _ (Ok ?rs) |- _ => rename ts into tasks; rename rs into results;
    apply runs_each in H as Heach end.
  match goal with H : Ok ?f = collect id results |- _ => symmetry in H; rename H into Hc; rename f into filled end.
  match goal with H : Ok tasks = _ |- _ => symmetry in H; rename H into Htasks end.
  exists filled. split_and!; [apply merge_sort_Permutation| | |apply Sorted_merge_sort, _].
  - rewrite <-(provision_tasks_length _ _ _ _ Htasks), (Forall2_length _ _ _ Heach). by apply collect_length in Hc.
  - intros k s target Hs Hf. apply (provision_tasks_lookup _ _ _ _ k) in Htasks. rewrite Hs in Htasks.
    destruct Htasks as (i & Hi & Hk). apply (collect_lookup _ _ _ k) in Hc.
    destruct (Forall2_lookup_l _ _ _ _ _ Heach Hk) as (y & Hy & t' & Ht' & Hsub).
    rewrite Hy in Hc. destruct Hc as (target' & Hf' & Hy'). cbn in Hy'. simplify_eq.
    apply runs_outcome in Ht' as (r & [= <-] & Ht').
    apply (slot_filled_weaken _ t'); [|set_solver]. destruct (in_target i) as [known|] eqn:Et.
    + run_inv. exists i. auto.
    + by eapply provision_slot_ok.
Qed.
End fleet_safety.

(** * Runs *)
Import Hex.
Definition run_scope : ReplicaScope :=
  {| scope_actor := sample_actor; scope_host := "h"; scope_session := "s"; scope_region := "europe-west" |}.
Definition run_target : ReplicaTarget := {| host_id := "replica.a"; url := "u"; target_region := "europe-west" |}.
Definition run_group (target : option ReplicaTarget) : Group :=
  {| gr_scope := run_scope; gr_image := "image"; gr_retiring := false;
     gr_slots := [{| sl_region := "europe-west"; sl_instances := [{| in_host := "replica.a"; in_target := target |}] |}] |}.
#[local] Instance instance_text : Text ReplicaInstance.
Proof.
  refine (via (fun i => (in_host i, (fun t => (host_id t, (url t, target_region t))) <$> in_target i))
    (fun '(h, t) => Some (Build_ReplicaInstance h ((fun '(i, (u, r)) => Build_ReplicaTarget i u r) <$> t))) _).
  by intros [h [[]|]].
Defined.
#[local] Instance slot_text : Text Slot.
Proof.
  refine (via (fun s => (sl_region s, sl_instances s)) (fun '(r, l) => Some (Build_Slot r l)) _). by intros [].
Defined.
#[local] Instance group_text : Text Group.
Proof.
  refine (via (fun g => (project_id (scope_actor (gr_scope g)), (actor_name (scope_actor (gr_scope g)),
    (actor_id (scope_actor (gr_scope g)), (scope_host (gr_scope g), (scope_session (gr_scope g),
    (scope_region (gr_scope g), (gr_image g, (gr_retiring g, gr_slots g)))))))))
    (fun '(p, (n, (i, (h, (s, (r, (im, (b, l)))))))) =>
       Some (Build_Group (Build_ReplicaScope (Build_ActorKey p n i) h s r) im b l)) _).
  by intros [[[]]].
Defined.

Definition run_db (target : option ReplicaTarget) : Groups :=
  {[identity run_scope := {| row_config := to_vec (run_group target); row_updated_at := 0; row_checked_at := 0 |}]}.
Definition run_answer (db : Groups) (X : Type) (e : FEff X) : X :=
  match e with
  | ProvideReplica _ _ _ => Ok run_target
  | RetireReplica _ => Ok ()
  | FGroups s => (s 1000000 db).1
  | FLaunchSpec _ =>
      Ok (Some {| spec_project_id := "proj"; spec_source := None; image_ref := "image"; code_snapshot := None;
                  working_directory := "/app"; actor_entrypoint := None; secret_refs := [] |})
  | FFresh => fun _ => "b"
  | FGetOwner _ => Ok None
  | FReplicaMembers _ => Ok []
  | FRetireReplication _ => Ok ()
  | FNow => Ok 1000
  end.
Definition run_repair : fleet_prog (list ReplicaTarget) :=
  fleet_repair "secret" ["europe-west"] run_scope ["replica.other"].
Definition run_prepare : GroupStatement Group :=
  update_group (identity run_scope) true false (prepare_change run_scope ["replica.other"] (fun _ => "b")).

(** Another replica is reported as failed. *)
Lemma replica_in_use_stays_witness :
  in_use (run_prepare 1000000 (run_db (Some run_target))).2 (identity run_scope) 0 "replica.a".
Proof.
  apply (replica_in_use_stays "secret" ["europe-west"] "replica.a" (identity run_scope) 0 (run_db (Some run_target))).
  - exists (run_group (Some run_target)), run_target. split; vm_compute; reflexivity.
  - apply rtc_once. constructor.
    + eapply (asks_repair _ _ _ _ _ run_scope ["replica.other"]);
        [set_solver|exact (follow_runs (run_answer (run_db (Some run_target))) run_repair)|].
      apply (list_elem_of_lookup_2 _ 4). reflexivity.
    + eexists. vm_compute. reflexivity.
Defined.


Lemma provisioning_fills_every_slot_witness :
  exists filled, [run_target] ≡ₚ filled /\ length filled = 1%nat.
Proof.
  destruct (provisioning_fills_every_slot "secret" (run_group None)
              (follow (run_answer (run_db None)) (provision "secret" (run_group None))).1 [run_target])
    as (filled & Hp & Hl & _).
  - assert ((follow (run_answer (run_db None)) (provision "secret" (run_group None))).2 = Ok [run_target]) as <-
      by (vm_compute; reflexivity). apply follow_runs.
  - exists filled. by split.
Defined.
