(* ===== verification/LeaseMaintenance.v ===== *)
(** Keeping the lease of a host: host/lease_maintenance.rs.

    The maintainer registers the lease, renews it on a timer or when the inventory
    changes, and gives the process up for good when a confirmed window ends before
    the next renewal is confirmed.  A [select!] is a request whose reply says which
    branch ran; [timed_runs] gives every request a time and relates clocks, timers
    and branches to it. *)

From S2P Require Import Prelude.
From S2P Require Import Calls.
From S2P Require Import Actors.
From S2P Require Import StoragePaths.
From S2P Require Import HostStorage.
Local Open Scope string_scope.
Local Open Scope Z_scope.

(** * The maintainer *)
Record HostEndpoint := { ep_id : HostId; ep_route : string }.
(** Durations in milliseconds *)
Record HostLeaseMaintainer := {
  mt_endpoint : HostEndpoint;
  mt_session_id : string;
  mt_lease_duration_ms : Z;
  mt_renew_every : Z }.

Definition HostLeaseMaintainer_new (endpoint : HostEndpoint) (ses : string) (lease_duration renew_every : Z)
  : Result HostLeaseMaintainer :=
  ensure (lease_duration <=? U64_MAX) "out of range integral type conversion attempted";;
  ensure (0 <? lease_duration) "host lease duration must be positive";;
  ensure (negb (renew_every =? 0)) "host lease renewal interval must be positive";;
  ensure (renew_every <? lease_duration) "host lease renewal interval must be shorter than its duration";;
  ensure (negb (is_empty ses)) "host session ID must not be empty";;
  Ok {| mt_endpoint := endpoint; mt_session_id := ses; mt_lease_duration_ms := lease_duration;
        mt_renew_every := renew_every |}.

(** What [observe] made visible: residents, sockets and queues *)
Definition Inventory : Type :=
  option (list ActorKey) * list ActorSocketInventory * option (list ActorQueueInventory).

(** The branch of [wait_until_renewal] and of [renew_before_deadline] that ran, in
    the order in which they are polled *)
Inductive Woken := WShutdown | WObservation | WDeadline | WTimer | WResidency | WSockets | WQueues.
Inductive Polled := PShutdown | PDeadline | PReady.

Inductive LEff : Type -> Type :=
| LocalClock : LEff (Result Z)
| InstantNow : LEff Z
| ReadInventory : LEff Inventory
| Register (request : HostLeaseRequest) (inventory : Inventory) : LEff (Result HostLease)
| Unregister (h : HostId) (ses : string) : LEff (Result unit)
| Wait (deadline renew_every : Z) : LEff Woken
| Poll (deadline : Z) : LEff Polled
| LeaseLost : LEff unit.

Abbreviation lease_prog := (calls LEff).

Definition INSTANT_MAX : Z := 2 ^ 63 * 1000000000.

Section maintainer.
Context (mt : HostLeaseMaintainer).

(** The confirmed lease with its [local_deadline] *)
Definition renew_once_with_deadline : lease_prog (HostLease * Z) :=
  local_now_ms ← await_ok LocalClock;
  local_valid_until_ms ← try (with_context (checked_add local_now_ms (mt_lease_duration_ms mt))
                                "host lease expiration overflow");
  inventory ← await ReadInventory;
  lease ← await_ok (Register {| req_id := ep_id (mt_endpoint mt); req_session_id := mt_session_id mt;
                                req_route := ep_route (mt_endpoint mt);
                                duration_ms := mt_lease_duration_ms mt |} inventory);
  deadline_anchor ← await InstantNow;
  now ← await_ok LocalClock;
  let remaining_ms := saturating_sub local_valid_until_ms now in
  check_that (0 <? remaining_ms) "host lease expired before its registration response arrived";;
  let local_deadline := deadline_anchor + remaining_ms * NS in
  check_that (local_deadline <? INSTANT_MAX) "local host lease deadline overflow";;
  mret (lease, local_deadline).

(** The requests at which the renewal gives way to the other branches *)
Definition suspends {X} (e : LEff X) : bool :=
  match e with ReadInventory | Register _ _ => true | _ => false end.
(** Shutdown and deadline are polled first. *)
Definition polled {A} (deadline : Z) (p : lease_prog (option A)) : lease_prog (option A) :=
  reply ← await (Poll deadline);
  match reply with
  | PShutdown => mret None
  | PDeadline => await LeaseLost;; mret None
  | PReady => p
  end.
Fixpoint race_from {A} (deadline : Z) (p : lease_prog A) : lease_prog (option (Result A)) :=
  match p with
  | CRet r => mret (Some r)
  | CVis e k =>
      CVis e (fun x => if suspends e then polled deadline (race_from deadline (k x)) else race_from deadline (k x))
  end.
Definition race {A} (deadline : Z) (p : lease_prog A) : lease_prog (option (Result A)) :=
  polled deadline (race_from deadline p).

(** The next deadline; a failed renewal keeps the old one. *)
Definition renew_before_deadline (deadline : Z) : lease_prog (option Z) :=
  result ← race deadline renew_once_with_deadline;
  mret (match result with
        | None => None
        | Some (Ok confirmed) => Some confirmed.2
        | Some (Err _) => Some deadline
        end).

Definition wait_until_renewal (deadline : Z) : lease_prog bool :=
  woken ← await (Wait deadline (mt_renew_every mt));
  match woken with
  | WShutdown => mret false
  | WDeadline => await LeaseLost;; mret false
  | _ => mret true
  end.

(** The task, for a number of turns; [true]: it goes on *)
Fixpoint renew_until_stopped (turns : nat) (deadline : Z) : lease_prog bool :=
  match turns with
  | O => mret true
  | S turns =>
      renewing ← wait_until_renewal deadline;
      if (renewing : bool) then
        next ← renew_before_deadline deadline;
        match next with
        | Some deadline => renew_until_stopped turns deadline
        | None => mret false
        end
      else mret false
  end.

(** [start], and the task it spawns *)
Definition start_renewal (turns : nat) : lease_prog bool :=
  initial ← renew_once_with_deadline;
  renew_until_stopped turns initial.2.

Definition unregister_lease : lease_prog unit := await_ok (Unregister (ep_id (mt_endpoint mt)) (mt_session_id mt)).
End maintainer.

(** * Time *)
(** What a reply says about the time [now] at which it is seen.  The wall clock was
    anchored once and advances with the monotonic clock; a branch runs only when the
    branches before it are not ready.  A timer never fires early, but it may fire
    [late]: a [sleep_until] that is polled may still be pending for that long after
    its deadline, because Tokio's timers count whole milliseconds and the runtime
    may be busy. *)
Definition reply_ok (late anchor now : Z) {X} (e : LEff X) : X -> Prop :=
  match e with
  | LocalClock => fun x => forall n, x = Ok n -> n = (anchor + now) / NS
  | InstantNow => fun x => x = now
  | Wait deadline _ => fun x =>
      match x with
      | WShutdown | WObservation => True
      | WDeadline => deadline <= now
      | WTimer | WResidency | WSockets | WQueues => now < deadline + late
      end
  | Poll deadline => fun x =>
      match x with
      | PShutdown => True
      | PDeadline => deadline <= now
      | PReady => now < deadline + late
      end
  | _ => fun _ => True
  end.

Definition timed_trace : Type := list (Z * event LEff).
Inductive timed_runs (late anchor : Z) {A} : Z -> lease_prog A -> timed_trace -> Result A -> Prop :=
| timed_ret now r : timed_runs late anchor now (CRet r) [] r
| timed_vis now now' {X} (e : LEff X) k x t r :
    now <= now' -> reply_ok late anchor now' e x -> timed_runs late anchor now' (k x) t r ->
    timed_runs late anchor now (CVis e k) ((now', Ev e x) :: t) r.

(** The maintainer goes on: it wakes for the next renewal because of the timer or a
    changed inventory, or it lets a renewal start or continue. *)
Definition goes_on (ev : event LEff) : Prop :=
  match ev with
  | Ev e x =>
      match e in LEff X return X -> Prop with
      | Wait _ _ => fun x => x = WTimer \/ x = WResidency \/ x = WSockets \/ x = WQueues
      | Poll _ => fun x => x = PReady
      | _ => fun _ => False
      end x
  end.

Section fence.
Context (mt : HostLeaseMaintainer) (late anchor : Z).

(** A registration was confirmed for which the clock was read at [start]. *)
Definition confirmed_at (start : Z) (t : timed_trace) : Prop :=
  exists a b c n now request inventory lease,
    t = (a ++ (start, Ev LocalClock (Ok n)) :: b ++ (now, Ev (Register request inventory) (Ok lease)) :: c)%list /\
    duration_ms request = mt_lease_duration_ms mt.
(** Instants before the end of a confirmed window, and those up to [extra] later; the
    clocks count whole milliseconds. *)
Definition within (extra : Z) (t : timed_trace) (now : Z) : Prop :=
  exists start, confirmed_at start t /\ now < start + (mt_lease_duration_ms mt + 1) * NS + extra.
Notation within_window := (within 0).

(** A changed observation wakes the maintainer without a look at the deadline [d]. *)
Definition observes (d : Z) (ev : event LEff) : Prop :=
  match ev with
  | Ev e x =>
      match e in LEff X return X -> Prop with
      | Wait d' _ => fun x => d' = d /\ x = WObservation
      | _ => fun _ => False
      end x
  end.
(** [p] looks at the deadline first. *)
Definition polls {A} (d : Z) (p : lease_prog A) : Prop :=
  match p with CVis (Poll d') _ => d' = d | _ => False end.

(** [p] goes on only in a window after [t], looks at the deadline after a changed
    observation, and ends in [Q], also when other branches are polled between its
    requests. *)
Fixpoint fenced {A} (p : lease_prog A) (Q : Z -> timed_trace -> Result A -> Prop) (now : Z) (t : timed_trace) : Prop :=
  match p with
  | CRet r => Q now t r
  | CVis e k => forall now' x, now <= now' -> reply_ok late anchor now' e x ->
      (goes_on (Ev e x) -> within late t now') /\
      (forall d, observes d (Ev e x) -> polls d (k x)) /\
      forall now'' others, now' <= now'' -> fenced (k x) Q now'' (t ++ (now', Ev e x) :: others)%list
  end.

Lemma polls_runs {A} d (p : lease_prog A) now t r : polls d p -> timed_runs late anchor now p t r ->
  exists now' x t', t = (now', Ev (Poll d) x) :: t'.
Proof. intros Hp Hr. destruct Hr as [|now now' X e k x t r]; [done|]. destruct e; try done. cbn in Hp. subst. by do 3 eexists. Qed.
Lemma polls_bind {A B} d (p : lease_prog A) (f : A -> lease_prog B) : polls d p -> polls d (p ≫= f).
Proof. by destruct p as [|X []]. Qed.

(** What [fenced] says of an event of a run and of what follows it *)
Definition watched (t : timed_trace) (now : Z) (ev : event LEff) (rest : timed_trace) : Prop :=
  (goes_on ev -> within late t now) /\
  forall d, observes d ev -> exists now' x t', rest = (now', Ev (Poll d) x) :: t'.
Lemma fenced_runs {A} (p : lease_prog A) Q now t : fenced p Q now t -> forall t' r, timed_runs late anchor now p t' r ->
  forall t1 now' ev t2, t' = (t1 ++ (now', ev) :: t2)%list -> watched (t ++ t1)%list now' ev t2.
Proof.
  intros Hf t' r Hr. revert t Hf. induction Hr as [now r|now now' X e k x t' r Hle Hok Hr IH]; intros t Hf t1 n ev t2 Ht.
  - by destruct t1.
  - destruct (Hf now' x Hle Hok) as (Hw & Ho & Hf'). destruct t1 as [|p t1]; injection Ht as E1 E2.
    + rewrite app_nil_r. subst. split; [done|]. intros d Hd. eapply polls_runs; [by apply Ho|done].
    + subst p. specialize (IH _ (Hf' now' [] (Z.le_refl _)) t1 n ev t2 E2). by rewrite <-app_assoc in IH.
Qed.
Lemma fenced_mono {A} (p : lease_prog A) (Q Q' : Z -> timed_trace -> Result A -> Prop) now t :
  (forall now t r, Q now t r -> Q' now t r) -> fenced p Q now t -> fenced p Q' now t.
Proof.
  intros HQ. revert now t. induction p as [r|X e k IH]; intros now t Hf; cbn in *; [by apply HQ|].
  intros now' x Hle Hok. destruct (Hf now' x Hle Hok) as (Hg & Ho & Hk). split_and!; eauto.
Qed.
Lemma fenced_bind {A B} (p : lease_prog A) (f : A -> lease_prog B) Q now t :
  fenced p (fun now t r => match r with Ok a => fenced (f a) Q now t | Err e => Q now t (Err e) end) now t ->
  fenced (p ≫= f) Q now t.
Proof.
  revert now t. induction p as [[a|e]|X e k IH]; intros now t Hf; cbn in *; [done..|].
  intros now' x Hle Hok. destruct (Hf now' x Hle Hok) as (Hg & Ho & Hk). split_and!; [done| |by eauto].
  intros d Hd. by apply polls_bind, Ho.
Qed.

Lemma confirmed_at_weaken start t t' : confirmed_at start t -> confirmed_at start (t ++ t')%list.
Proof.
  intros (a & b & c & n & now & request & inventory & lease & -> & Hd).
  exists a, b, (c ++ t')%list, n, now, request, inventory, lease. split; [|done].
  by rewrite <-app_assoc, <-app_comm_cons, <-app_assoc, <-app_comm_cons.
Qed.
Lemma within_weaken extra t t' now now' :
  within_window t now -> now' <= now + extra -> within extra (t ++ t')%list now'.
Proof. intros (start & Hc & Hn) Hle. exists start. split; [by apply confirmed_at_weaken|lia]. Qed.

Lemma window_arith l q anchor' start n4 n5 : n4 <= n5 -> l = (anchor' + start) / NS -> q = (anchor' + n5) / NS ->
  n4 + (l + mt_lease_duration_ms mt - q) * NS < start + (mt_lease_duration_ms mt + 1) * NS.
Proof.
  unfold NS. intros Hle El Eq. pose proof (Z.div_mod (anchor' + start) 1000000). pose proof (Z.div_mod (anchor' + n5) 1000000).
  pose proof (Z.mod_pos_bound (anchor' + start) 1000000). pose proof (Z.mod_pos_bound (anchor' + n5) 1000000). nia.
Qed.

Definition quiet {X} (e : LEff X) : Prop := match e with Wait _ _ | Poll _ => False | _ => True end.
Lemma quiet_observes {X} (e : LEff X) x d : quiet e -> ~ observes d (Ev e x).
Proof. intros He Ho. destruct e; contradiction. Qed.
Lemma quiet_goes_on {X} (e : LEff X) x : quiet e -> ~ goes_on (Ev e x).
Proof. intros He Hg. destruct e; contradiction. Qed.
Lemma fenced_await {X} (e : LEff X) Q now t : quiet e ->
  (forall now' x now'' others, now <= now' -> reply_ok late anchor now' e x -> now' <= now'' -> Q now'' (t ++ (now', Ev e x) :: others)%list (Ok x)) ->
  fenced (await e) Q now t.
Proof.
  intros He HQ now' x Hle Hok. split_and!; [by intros ?%quiet_goes_on|by intros d ?%quiet_observes|].
  intros. by apply HQ.
Qed.
Lemma fenced_await_ok {X} (e : LEff (Result X)) Q now t : quiet e ->
  (forall now' x now'' others, now <= now' -> reply_ok late anchor now' e x -> now' <= now'' -> Q now'' (t ++ (now', Ev e x) :: others)%list x) ->
  fenced (await_ok e) Q now t.
Proof.
  intros He HQ now' x Hle Hok. split_and!; [by intros ?%quiet_goes_on|by intros d ?%quiet_observes|].
  intros. by apply HQ.
Qed.

(** A renewal only extends the trace, and its deadline lies in the window it confirmed. *)
Definition renewed (t : timed_trace) (_ : Z) (t' : timed_trace) (r : Result (HostLease * Z)) : Prop :=
  (exists t1, t' = (t ++ t1)%list) /\ forall c, r = Ok c -> within_window t' c.2.
Lemma renew_failed t now t1 e : renewed t now (t ++ t1)%list (Err e).
Proof. split; [by eexists|discriminate]. Qed.
Lemma renew_fenced now t : fenced (renew_once_with_deadline mt) (renewed t) now t.
Proof.
  apply fenced_bind, fenced_await_ok; [done|]. intros n1 [l|e] m1 o1 _ H1 _; [|apply renew_failed].
  specialize (H1 l eq_refl). apply fenced_bind. cbn [fenced try].
  destruct (checked_add l (mt_lease_duration_ms mt)) as [u|] eqn:Eu; cbn [with_context]; [|apply renew_failed].
  apply fenced_bind, fenced_await; [done|]. intros n2 inv m2 o2 _ _ _.
  apply fenced_bind, fenced_await_ok; [done|].
  intros n3 [lease|e] m3 o3 _ _ _; [|rewrite <-!app_assoc; apply renew_failed].
  apply fenced_bind, fenced_await; [done|]. intros n4 i m4 o4 _ Hi H4. cbn in Hi. subst i.
  apply fenced_bind, fenced_await_ok; [done|].
  intros n5 [q|e] m5 o5 Hle H5 _; [|rewrite <-!app_assoc; apply renew_failed].
  specialize (H5 q eq_refl). cbn zeta. apply fenced_bind. unfold check_that at 1. cbn [fenced].
  destruct (0 <? saturating_sub u q) eqn:Er; cbn [ensure]; [|rewrite <-!app_assoc; apply renew_failed].
  apply fenced_bind. cbn [fenced]. destruct (_ <? INSTANT_MAX); cbn [ensure];
    [|rewrite <-!app_assoc; apply renew_failed].
  split; [eexists; by rewrite <-!app_assoc|]. intros c [= <-]. exists n1. split.
  - eexists t, (o1 ++ (n2, Ev ReadInventory inv) :: o2)%list, _, _, _, _, _, _. split.
    + repeat (rewrite <-!app_assoc; cbn [app]). reflexivity.
    + done.
  - unfold checked_add in Eu. destruct (_ <=? _) eqn:E; simplify_eq. unfold saturating_sub in *. bools. cbn [snd].
    rewrite Z.max_l, Z.add_0_r by lia. apply (window_arith _ _ anchor n1 n4 n5); [lia|done..].
Qed.

(** While the window of [d] lasts, [p] goes on after a poll. *)
Lemma polled_fenced {A} d (p : lease_prog (option A)) Q now t : within_window t d ->
  (forall now' t1, now <= now' -> fenced p Q now' (t ++ t1)%list) -> (forall now t1, Q now (t ++ t1)%list (Ok None)) ->
  fenced (polled d p) Q now t.
Proof.
  intros Hw Hp HQ now' x Hle Hok. split_and!.
  - intros Hg. cbn in Hg. subst x. cbn in Hok. rewrite <-(app_nil_r t). eapply within_weaken; [done|lia].
  - done.
  - intros now'' others Hle'. destruct x; [apply HQ| |apply Hp; lia].
    intros n [] _ _. split_and!; [done|done|]. intros n' others' _. rewrite <-app_assoc. apply HQ.
Qed.
Lemma race_from_fenced {A} d (p : lease_prog A) (Q : Z -> timed_trace -> Result (option (Result A)) -> Prop) t :
  within_window t d -> (forall now t1, Q now (t ++ t1)%list (Ok None)) -> forall now t1,
  fenced p (fun now t' r => Q now t' (Ok (Some r))) now (t ++ t1)%list -> fenced (race_from d p) Q now (t ++ t1)%list.
Proof.
  intros Hw HQ. induction p as [r|X e k IH]; intros now t1 Hf; [done|]. intros now' x Hle Hok.
  destruct (Hf now' x Hle Hok) as (Hg & Ho & Hk). split_and!; [done| |].
  { intros d' Hd. specialize (Ho d' Hd). destruct e; try done. cbn. by destruct (k x) as [|Y []]. }
  intros now'' others Hle'. rewrite <-app_assoc.
  assert (forall n o, now' <= n -> fenced (race_from d (k x)) Q n (t ++ t1 ++ (now', Ev e x) :: o)%list) as Hrace.
  { intros n o Hn. apply IH. rewrite app_assoc. by apply Hk. }
  destruct (suspends e); [|by apply Hrace]. apply polled_fenced.
  - eapply within_weaken; [done|lia].
  - intros n o Hn. rewrite <-!app_assoc. cbn [app]. apply Hrace. lia.
  - intros n o. rewrite <-app_assoc. apply HQ.
Qed.

(** A deadline that follows lies in a window again. *)
Lemma next_fenced d now t : within_window t d ->
  fenced (renew_before_deadline mt d)
    (fun _ t' r => forall d', r = Ok (Some d') -> within_window t' d') now t.
Proof.
  intros Hw. apply fenced_bind. apply polled_fenced; [done| |].
  - intros n t1 _. apply race_from_fenced; [done| |].
    + intros n' t2 d'. cbn. discriminate.
    + eapply fenced_mono; [|apply renew_fenced]. intros n' t' r [[t2 ->] Hr] d' [= Hd]. destruct r as [c|e]; simplify_eq.
      * by apply Hr.
      * rewrite <-app_assoc. eapply within_weaken; [done|lia].
  - intros n t1 d'. cbn. discriminate.
Qed.
Lemma wait_fenced {A} d (f : bool -> lease_prog A) Q now t : within_window t d -> polls d (f true) ->
  (forall b now t1, fenced (f b) Q now (t ++ t1)%list) -> fenced (wait_until_renewal mt d ≫= f) Q now t.
Proof.
  intros Hw Hp Hf now' x Hle Hok. split_and!.
  - intros Hg. rewrite <-(app_nil_r t). eapply within_weaken; [done|]. cbn in Hg, Hok.
    destruct Hg as [->|[->|[->| ->]]]; lia.
  - by intros d' [<- ->].
  - intros n o _. destruct x; try apply Hf. intros n' [] _ _. split_and!; [done|done|].
    intros n'' o' _. rewrite <-app_assoc. apply Hf.
Qed.
Lemma loop_fenced turns d now t : within_window t d ->
  fenced (renew_until_stopped mt turns d) (fun _ _ _ => True) now t.
Proof.
  revert d now t. induction turns as [|turns IH]; intros d now t Hw; [done|]. cbn [renew_until_stopped].
  apply wait_fenced; [done| |].
  { by apply polls_bind, polls_bind. }
  intros [] n t1; [|done].
  apply fenced_bind. eapply fenced_mono; [|apply next_fenced; eapply within_weaken; [done|lia]].
  intros n' t' [[d'|]|e] Hd; [|done|done]. apply IH. by apply Hd.
Qed.

(** C18: a host never goes on after its lease.  Take any run of the maintainer in which
    timers fire up to [late] after their deadlines.  Whenever it wakes for a renewal
    because of the timer or a changed inventory, and whenever it lets a renewal start
    or continue, the time is within the window of a registration that was confirmed
    before, counted from when the clock was read ahead of the request, up to the
    millisecond that clock readings lose and the delay of the timers.  A changed
    observation wakes it without a look at the deadline; the next thing it does is to
    look at that deadline, before the renewal makes a request. *)
Theorem process_stays_within_its_lease turns now t r t1 now' ev t2 :
  timed_runs late anchor now (start_renewal mt turns) t r ->
  t = (t1 ++ (now', ev) :: t2)%list ->
  (goes_on ev ->
   exists start, confirmed_at start t1 /\ now' < start + (mt_lease_duration_ms mt + 1) * NS + late) /\
  (forall d every, ev = Ev (Wait d every) WObservation ->
   exists now'' x t3, t2 = (now'', Ev (Poll d) x) :: t3).
Proof.
  intros Hr Ht.
  assert (Hf : fenced (start_renewal mt turns) (fun _ _ _ => True) now []).
  { apply fenced_bind. eapply fenced_mono; [|apply renew_fenced]. intros n t' [c|e] [_ Hc]; [|done].
    apply loop_fenced. by apply Hc. }
  destruct (fenced_runs _ _ _ _ Hf _ _ Hr _ _ _ _ Ht) as [Hg Ho].
  split; [exact Hg|]. intros d every ->. by apply Ho.
Qed.
End fence.

(** * A run *)
Definition run_maintainer : HostLeaseMaintainer :=
  {| mt_endpoint := {| ep_id := "h"; ep_route := "r" |}; mt_session_id := "s"; mt_lease_duration_ms := 10;
     mt_renew_every := 4 |}.
Definition run_request : HostLeaseRequest :=
  {| req_id := "h"; req_session_id := "s"; req_route := "r"; duration_ms := 10 |}.
Definition run_lease : HostLease :=
  {| lease_id := "h"; lease_session_id := "s"; lease_route := "r"; expires_at_ms := 10 |}.
(** The response takes 5.9 ms, of which the clock counts 5. *)
Definition run_trace : timed_trace :=
  [(0, Ev LocalClock (Ok 0)); (0, Ev ReadInventory (None, [], None));
   (5900000, Ev (Register run_request (None, [], None)) (Ok run_lease));
   (5900000, Ev InstantNow 5900000); (5900000, Ev LocalClock (Ok 5));
   (10500000, Ev (Wait 10900000 4) WTimer); (10500000, Ev (Poll 10900000) PReady);
   (10500000, Ev LocalClock (Ok 10)); (10500000, Ev ReadInventory (None, [], None));
   (10600000, Ev (Poll 10900000) PShutdown)].
Lemma run_timed : timed_runs 0 0 0 (start_renewal run_maintainer 1) run_trace (Ok false).
Proof.
  repeat (apply timed_vis; [by vm_compute|first [done|by intros n [= <-]]|]; cbn). constructor.
Qed.

(** The same, but the timers of the second turn fire half a millisecond late, and a
    changed observation wakes the maintainer. *)
Definition late_trace : timed_trace :=
  (take 5 run_trace ++
   [(11300000, Ev (Wait 10900000 4) WObservation); (11300000, Ev (Poll 10900000) PReady);
    (11300000, Ev LocalClock (Ok 11)); (11300000, Ev ReadInventory (None, [], None));
    (11500000, Ev (Poll 10900000) PDeadline); (11500000, Ev LeaseLost ())])%list.
Lemma late_timed : timed_runs 500000 0 0 (start_renewal run_maintainer 1) late_trace (Ok false).
Proof.
  repeat (apply timed_vis; [by vm_compute|first [done|by intros n [= <-]]|]; cbn). constructor.
Qed.

Lemma process_stays_within_its_lease_witness :
  (exists start, confirmed_at run_maintainer start (take 6 late_trace) /\ 11300000 < start + 11 * NS + 500000) /\
  (exists now'' x t3, drop 6 late_trace = (now'', Ev (Poll 10900000) x) :: t3).
Proof.
  split.
  - apply (process_stays_within_its_lease run_maintainer 500000 0 1 0 late_trace (Ok false) (take 6 late_trace) 11300000
             (Ev (Poll 10900000) PReady) (drop 7 late_trace)); [apply late_timed|reflexivity|reflexivity].
  - apply (proj2 (process_stays_within_its_lease run_maintainer 500000 0 1 0 late_trace (Ok false) (take 5 late_trace)
             11300000 (Ev (Wait 10900000 4) WObservation) (drop 6 late_trace) late_timed eq_refl) 10900000 4 eq_refl).
Defined.

(** The millisecond is needed: the deadline is counted from an exact instant with a
    difference of truncated readings, so the maintainer can go on for a fraction of a
    millisecond after the window it confirmed. *)
Lemma fence_lags_a_fraction :
  timed_runs 0 0 0 (start_renewal run_maintainer 1) run_trace (Ok false) /\
  run_trace !! 5%nat = Some (10500000, Ev (Wait 10900000 4) WTimer) /\
  run_trace !! 0%nat = Some (0, Ev LocalClock (Ok 0)) /\ 0 + mt_lease_duration_ms run_maintainer * NS < 10500000.
Proof. split_and!; [apply run_timed|done..]. Qed.
