(* ===== verification/RequestTraces.v ===== *)
(** Traces of requests on a host ([request_traces.rs]): what a trace is, the span
    that produces one per request, and the task that reports traces to the control
    plane in batches.  Shows that a span reports exactly one trace and that every
    trace handed to the sender is reported or counted. *)

From Stdlib Require Import QArith.
From S2P Require Import Prelude.
From S2P Require Import Actors.
From S2P Require Import StoragePaths.
From S2P Require Import Snapshots.
Local Open Scope string_scope.
Local Open Scope Z_scope.

Definition TRACE_CAPACITY : nat := 500.
Definition TRACE_BATCH_SIZE : nat := 64.
Definition TRACE_METADATA_LIMIT : Z := 4096.

(** [f64], as far as it is compared *)
Inductive f64 := Finite (q : Q) | Infinite (negative : bool) | NaN.
Definition is_finite (x : f64) : bool := match x with Finite _ => true | _ => false end.
Definition f64_le (x y : f64) : bool :=
  match x, y with
  | Finite p, Finite q => Qle_bool p q
  | Infinite true, (Finite _ | Infinite _) => true
  | (Finite _ | Infinite _), Infinite false => true
  | _, _ => false
  end.

Inductive RequestKind := KindMethod | KindWebsocket.
Inductive RequestOutcome := OutcomeCompleted | OutcomeFailed | OutcomeRejected | OutcomeRerouted | OutcomeInterrupted.
#[global] Instance RequestOutcome_eq_dec : EqDecision RequestOutcome.
Proof. solve_decision. Defined.

Definition kind_str (k : RequestKind) : string :=
  match k with KindMethod => "method" | KindWebsocket => "websocket" end.
Definition outcome_str (o : RequestOutcome) : string :=
  match o with
  | OutcomeCompleted => "completed"
  | OutcomeFailed => "failed"
  | OutcomeRejected => "rejected"
  | OutcomeRerouted => "rerouted"
  | OutcomeInterrupted => "interrupted"
  end.

Record RequestTrace := {
  tr_state_version : option Z;
  tr_project_id : string;
  tr_request_id : string;
  tr_actor_name : string;
  tr_actor_id : string;
  tr_kind : RequestKind;
  tr_operation : string;
  tr_connection_id : option string;
  tr_started_at_ms : Z;
  tr_duration_ms : f64;
  tr_queue_wait_ms : option f64;
  tr_outcome : RequestOutcome;
  tr_metadata : option Value }.

Definition is_none_or {A} (f : A -> bool) (o : option A) : bool := match o with Some a => f a | None => true end.

Section traces.
Context `{Json Value}.

Definition RequestTrace_validate (t : RequestTrace) : Result unit :=
  ActorKey_validate {| project_id := tr_project_id t; actor_name := tr_actor_name t; actor_id := tr_actor_id t |};;
  ensure (negb (is_empty (tr_request_id t)) && (len (tr_request_id t) <=? 256)) "invalid trace request ID";;
  ensure (negb (is_empty (tr_operation t)) && (len (tr_operation t) <=? 256)) "invalid trace operation";;
  ensure (is_none_or (fun id => len id <=? 256) (tr_connection_id t)) "invalid trace connection ID";;
  ensure (is_finite (tr_duration_ms t) && f64_le (Finite 0) (tr_duration_ms t)) "invalid trace duration";;
  ensure (is_none_or (fun ms => is_finite ms && f64_le (Finite 0) ms && f64_le ms (tr_duration_ms t)) (tr_queue_wait_ms t))
    "invalid trace queue wait";;
  ensure (is_none_or (fun metadata => len (to_vec metadata) <=? TRACE_METADATA_LIMIT) (tr_metadata t))
    "trace metadata exceeds 4096 bytes".

Definition bounded_metadata (metadata : option Value) : option Value :=
  value ← metadata;
  if len (to_vec value) <=? TRACE_METADATA_LIMIT then Some value else None.

(** * Spans

    A span holds its trace until it is finished.  [elapsed] is the time since it
    started, in milliseconds. *)
Definition RequestSpan_new (i : ActorInvocation) (kind : RequestKind) (connection_id : option string)
    (metadata : option Value) (now elapsed_ms : Z) : option RequestTrace :=
  Some {| tr_state_version := None; tr_project_id := project_id (inv_actor i); tr_request_id := request_id i;
          tr_actor_name := actor_name (inv_actor i); tr_actor_id := actor_id (inv_actor i); tr_kind := kind;
          tr_operation := method i; tr_connection_id := connection_id;
          tr_started_at_ms := saturating_sub now elapsed_ms; tr_duration_ms := Finite 0; tr_queue_wait_ms := None;
          tr_outcome := OutcomeInterrupted; tr_metadata := bounded_metadata metadata |}.
End traces.

Definition with_version (version : option Z) (t : RequestTrace) : RequestTrace :=
  {| tr_state_version := version; tr_project_id := tr_project_id t; tr_request_id := tr_request_id t;
     tr_actor_name := tr_actor_name t; tr_actor_id := tr_actor_id t; tr_kind := tr_kind t;
     tr_operation := tr_operation t; tr_connection_id := tr_connection_id t; tr_started_at_ms := tr_started_at_ms t;
     tr_duration_ms := tr_duration_ms t; tr_queue_wait_ms := tr_queue_wait_ms t; tr_outcome := tr_outcome t;
     tr_metadata := tr_metadata t |}.
Definition with_wait (wait : f64) (t : RequestTrace) : RequestTrace :=
  {| tr_state_version := tr_state_version t; tr_project_id := tr_project_id t; tr_request_id := tr_request_id t;
     tr_actor_name := tr_actor_name t; tr_actor_id := tr_actor_id t; tr_kind := tr_kind t;
     tr_operation := tr_operation t; tr_connection_id := tr_connection_id t; tr_started_at_ms := tr_started_at_ms t;
     tr_duration_ms := tr_duration_ms t; tr_queue_wait_ms := Some wait; tr_outcome := tr_outcome t;
     tr_metadata := tr_metadata t |}.
Definition finished (outcome : RequestOutcome) (duration : f64) (t : RequestTrace) : RequestTrace :=
  {| tr_state_version := tr_state_version t; tr_project_id := tr_project_id t; tr_request_id := tr_request_id t;
     tr_actor_name := tr_actor_name t; tr_actor_id := tr_actor_id t; tr_kind := tr_kind t;
     tr_operation := tr_operation t; tr_connection_id := tr_connection_id t; tr_started_at_ms := tr_started_at_ms t;
     tr_duration_ms := duration; tr_queue_wait_ms := tr_queue_wait_ms t; tr_outcome := outcome;
     tr_metadata := tr_metadata t |}.

(** The operations of a span; the last one is its [Drop].  [SpanAdmitted] unwraps
    the trace, so it is made only before the end. *)
Inductive span_op :=
| SpanVersion (version : option Z)
| SpanAdmitted (elapsed : f64)
| SpanFinish (outcome : RequestOutcome) (elapsed : f64)
| SpanComplete (result : Result ActorExecutionResult) (elapsed : f64)
| SpanDrop (elapsed : f64).

Definition outcome_of (result : Result ActorExecutionResult) : RequestOutcome :=
  match result with
  | Ok (Completed _ _) => OutcomeCompleted
  | Ok HostUnavailable => OutcomeRejected
  | Ok Reroute => OutcomeRerouted
  | _ => OutcomeFailed
  end.

(** The span after an operation, and the trace it sends *)
Definition span_finish (outcome : RequestOutcome) (elapsed : f64) (span : option RequestTrace)
  : option RequestTrace * list RequestTrace :=
  match span with
  | Some t => (None, [finished outcome elapsed t])
  | None => (None, [])
  end.
Definition span_step (op : span_op) (span : option RequestTrace) : option RequestTrace * list RequestTrace :=
  match op with
  | SpanVersion version => (with_version version <$> span, [])
  | SpanAdmitted elapsed => (with_wait elapsed <$> span, [])
  | SpanFinish outcome elapsed => span_finish outcome elapsed span
  | SpanComplete result elapsed => span_finish (outcome_of result) elapsed span
  | SpanDrop elapsed => span_finish OutcomeInterrupted elapsed span
  end.
Fixpoint span_run (ops : list span_op) (span : option RequestTrace) : list RequestTrace :=
  match ops with
  | [] => []
  | op :: ops => let next := span_step op span in (next.2 ++ span_run ops next.1)%list
  end.

(** * The sender

    [TraceSender]: a queue of 1024 traces and a counter of dropped ones, both shared
    with the task that reports them. *)
Definition SENDER_CAPACITY : nat := Z.to_nat 1024.

Inductive reporter :=
| Sleeping
| Collecting (batch : list RequestTrace)
| Reporting (batch : list RequestTrace) (missing : Z).
Record TraceSender := {
  ts_queue : list RequestTrace;
  ts_dropped : Z;
  ts_reporter : reporter }.
Definition TraceSender_new : TraceSender := {| ts_queue := []; ts_dropped := 0; ts_reporter := Sleeping |}.

(** [AtomicU64::fetch_add] *)
Definition fetch_add (a b : Z) : Z := (a + b) mod (U64_MAX + 1).

(** What happens next: a span sends; the timer fires; the task takes a trace from
    the queue; it takes the counter and reports; the report ends. *)
Inductive trace_input :=
| SendTrace (t : RequestTrace)
| Tick
| TakeTrace
| TakeCounter
| ReportEnds (succeeded : bool).

Definition send_trace (t : RequestTrace) (s : TraceSender) : TraceSender :=
  if (length (ts_queue s) <? SENDER_CAPACITY)%nat
  then {| ts_queue := ts_queue s ++ [t]; ts_dropped := ts_dropped s; ts_reporter := ts_reporter s |}
  else {| ts_queue := ts_queue s; ts_dropped := fetch_add (ts_dropped s) 1; ts_reporter := ts_reporter s |}.

Definition report_step (i : trace_input) (s : TraceSender) : TraceSender :=
  match i, ts_reporter s with
  | SendTrace t, _ => send_trace t s
  | Tick, Sleeping => {| ts_queue := ts_queue s; ts_dropped := ts_dropped s; ts_reporter := Collecting [] |}
  | TakeTrace, Collecting batch =>
      match ts_queue s with
      | t :: rest =>
          if (length batch <? TRACE_BATCH_SIZE)%nat
          then {| ts_queue := rest; ts_dropped := ts_dropped s; ts_reporter := Collecting (batch ++ [t]) |}
          else s
      | [] => s
      end
  | TakeCounter, Collecting batch =>
      let missing := ts_dropped s in
      {| ts_queue := ts_queue s; ts_dropped := 0;
         ts_reporter := if is_nil batch && (missing =? 0) then Sleeping else Reporting batch missing |}
  | ReportEnds succeeded, Reporting batch missing =>
      {| ts_queue := ts_queue s;
         ts_dropped := if (succeeded : bool) then ts_dropped s
                       else fetch_add (ts_dropped s) (saturating_add (Z.of_nat (length batch)) missing);
         ts_reporter := Sleeping |}
  | _, _ => s
  end.

(** A run, with the reports that succeeded *)
Definition acknowledged_by (i : trace_input) (s : TraceSender) : list (list RequestTrace * Z) :=
  match i, ts_reporter s with
  | ReportEnds true, Reporting batch missing => [(batch, missing)]
  | _, _ => []
  end.
Fixpoint report_run (inputs : list trace_input) (s : TraceSender) : TraceSender * list (list RequestTrace * Z) :=
  match inputs with
  | [] => (s, [])
  | i :: inputs =>
      let run := report_run inputs (report_step i s) in
      (run.1, (acknowledged_by i s ++ run.2)%list)
  end.

(** * Accounting *)
Definition sends (inputs : list trace_input) : list RequestTrace :=
  omap (fun i => match i with SendTrace t => Some t | _ => None end) inputs.
Definition reported (reports : list (list RequestTrace * Z)) : Z :=
  foldr (fun r n => Z.of_nat (length r.1) + r.2 + n) 0 reports.
(** Traces and counts that the sender still holds *)
Definition in_hand (s : TraceSender) : Z :=
  Z.of_nat (length (ts_queue s)) + ts_dropped s +
  match ts_reporter s with
  | Sleeping => 0
  | Collecting batch => Z.of_nat (length batch)
  | Reporting batch missing => Z.of_nat (length batch) + missing
  end.
Definition sender_ok (s : TraceSender) : Prop :=
  0 <= ts_dropped s /\ match ts_reporter s with Reporting _ missing => 0 <= missing | _ => True end.

Lemma fetch_add_small a b : 0 <= a -> 0 <= b -> a + b <= U64_MAX -> fetch_add a b = a + b.
Proof. intros Ha Hb Hs. unfold fetch_add. apply Z.mod_small. unfold U64_MAX in *. lia. Qed.

Lemma report_step_counts i s : sender_ok s -> in_hand s + Z.of_nat (length (sends [i])) <= U64_MAX ->
  sender_ok (report_step i s) /\
  in_hand s + Z.of_nat (length (sends [i])) = in_hand (report_step i s) + reported (acknowledged_by i s).
Proof.
  intros [Hd Hr] Hu. unfold in_hand, reported, acknowledged_by, report_step, send_trace in *.
  destruct i as [t| | | |ok]; cbn [sends omap list_omap length] in *.
  - destruct (_ <? _)%nat eqn:E; cbn [ts_queue ts_dropped ts_reporter foldr].
    + rewrite length_app. cbn [length]. split; [done|]. lia.
    + assert (fetch_add (ts_dropped s) 1 = ts_dropped s + 1) as ->.
      { apply fetch_add_small; [done|lia|]. destruct (ts_reporter s); lia. }
      split; [|lia]. split; cbn; [lia|done].
  - destruct (ts_reporter s) eqn:Er; cbn [ts_queue ts_dropped ts_reporter foldr length]; rewrite ?Er; unfold sender_ok;
      rewrite ?Er; cbn; split; try done; lia.
  - destruct (ts_reporter s) eqn:Er; cbn [foldr]; try (unfold sender_ok; rewrite Er; cbn; split; [done|]; lia).
    destruct (ts_queue s) as [|t rest] eqn:Eq; [|destruct (_ <? _)%nat];
      unfold sender_ok; rewrite ?Eq, ?Er; cbn; rewrite ?length_app; cbn; split; try done; lia.
  - destruct (ts_reporter s) eqn:Er; cbn [foldr]; try (unfold sender_ok; rewrite Er; cbn; split; [done|]; lia).
    destruct (is_nil batch && (ts_dropped s =? 0)) eqn:E; cbn [ts_queue ts_dropped ts_reporter].
    + bools. destruct batch; [|done]. split; [by split|]. cbn. lia.
    + split; [by split|]. lia.
  - destruct ok, (ts_reporter s) as [| |batch missing] eqn:Er; cbn [foldr fst snd ts_queue ts_dropped ts_reporter];
      try (unfold sender_ok; rewrite Er; cbn; split; [done|]; lia).
    + split; [by split|]. lia.
    + assert (saturating_add (Z.of_nat (length batch)) missing = Z.of_nat (length batch) + missing) as ->
        by (unfold saturating_add; lia).
      rewrite fetch_add_small by lia. split; [split; cbn; [lia|done]|]. lia.
Qed.

Lemma report_run_counts inputs : forall s, sender_ok s -> in_hand s + Z.of_nat (length (sends inputs)) <= U64_MAX ->
  in_hand s + Z.of_nat (length (sends inputs)) = in_hand (report_run inputs s).1 + reported (report_run inputs s).2.
Proof.
  induction inputs as [|i inputs IH]; intros s Hs Hu; [cbn; lia|].
  assert (El : length (sends (i :: inputs)) = (length (sends [i]) + length (sends inputs))%nat).
  { unfold sends. cbn. case_match; cbn; lia. }
  destruct (report_step_counts i s Hs) as [Hs' Hc]; [lia|].
  assert (Hr : 0 <= reported (acknowledged_by i s)).
  { unfold acknowledged_by, reported. destruct Hs as [_ Hs]. destruct i as [| | | |[]]; try (cbn; lia).
    destruct (ts_reporter s); cbn; lia. }
  cbn [report_run fst snd]. specialize (IH (report_step i s) Hs'). rewrite El in *.
  assert (Ha : forall a b, reported (a ++ b)%list = reported a + reported b).
  { intros a b. unfold reported. induction a as [|x a IHa]; cbn; [lia|]. rewrite IHa. lia. }
  rewrite Ha. lia.
Qed.

(** No trace disappears silently: however spans send, the timer fires and
    reports fail, every trace handed to the sender was part of a report that
    succeeded, was counted as missing in one, or is still queued or counted by the
    sender. *)
Theorem traces_are_reported_or_counted inputs :
  Z.of_nat (length (sends inputs)) <= U64_MAX ->
  Z.of_nat (length (sends inputs))
  = reported (report_run inputs TraceSender_new).2 + in_hand (report_run inputs TraceSender_new).1.
Proof.
  intros Hu. pose proof (report_run_counts inputs TraceSender_new) as Hr.
  change (in_hand TraceSender_new) with 0 in Hr. assert (Hok : sender_ok TraceSender_new) by done.
  specialize (Hr Hok). lia.
Qed.

Definition empty_trace (id : string) : RequestTrace :=
  {| tr_state_version := None; tr_project_id := "p"; tr_request_id := id; tr_actor_name := "Room"; tr_actor_id := "one";
     tr_kind := KindMethod; tr_operation := "m"; tr_connection_id := None; tr_started_at_ms := 7;
     tr_duration_ms := Finite 0; tr_queue_wait_ms := None; tr_outcome := OutcomeCompleted; tr_metadata := None |}.
Definition lossy_inputs : list trace_input :=
  [SendTrace (empty_trace "a"); SendTrace (empty_trace "b"); Tick; TakeTrace; TakeCounter; ReportEnds false; Tick; TakeTrace;
   SendTrace (empty_trace "c"); TakeCounter; ReportEnds true].
Lemma traces_are_reported_or_counted_witness :
  3 = reported (report_run lossy_inputs TraceSender_new).2 + in_hand (report_run lossy_inputs TraceSender_new).1.
Proof. exact (traces_are_reported_or_counted lossy_inputs ltac:(vm_compute; discriminate)). Defined.

(** A span reports one trace, with the outcome that was set first. *)
Definition first_outcome (op : span_op) : option (RequestOutcome * f64) :=
  match op with
  | SpanFinish o elapsed => Some (o, elapsed)
  | SpanComplete r elapsed => Some (outcome_of r, elapsed)
  | SpanDrop elapsed => Some (OutcomeInterrupted, elapsed)
  | _ => None
  end.
Lemma span_done ops : span_run ops None = [].
Proof. induction ops as [|[] ops IH]; cbn; done. Qed.
Lemma span_reports_once ops t elapsed : exists t', span_run (ops ++ [SpanDrop elapsed]) (Some t) = [t'] /\
  list.head (omap first_outcome (ops ++ [SpanDrop elapsed])%list) = Some (tr_outcome t', tr_duration_ms t').
Proof.
  revert t. induction ops as [|op ops IH]; intros t; cbn [app span_run].
  - eexists. cbn. done.
  - destruct op as [v|w|o e|r e|e]; cbn [span_step span_finish fmap option_fmap option_map fst snd].
    + destruct (IH (with_version v t)) as (t' & E1 & E2). exists t'. split; [exact E1|]. by cbn.
    + destruct (IH (with_wait w t)) as (t' & E1 & E2). exists t'. split; [exact E1|]. by cbn.
    + eexists. rewrite span_done. done.
    + eexists. rewrite span_done. done.
    + eexists. rewrite span_done. done.
Qed.
