(* ===== verification/TraceHistory.v ===== *)
(** The history of request traces in SQLite ([request_traces/persistence/sqlite.rs],
    its [history.rs] and [replay.rs], [persistence/cursor.rs], the queries of
    [request_traces/history.rs], [replay.rs] and [metrics.rs], and the store of
    [request_traces.rs]).

    A database keeps the newest traces of all projects in the order they were
    appended.  Readers page through a project's history, newest first, or follow it
    from a position on; both get a cursor for their place, which they
    send back with the next request.  Tables are lists and maps, an SQL
    statement is a function on them, and a transaction that fails changes nothing.
    [SqliteJson] is what the statements use of [json_extract], and [SqliteRowids]
    whether an insertion that meets a conflict uses up a position, which SQLite
    leaves open. *)

From S2P Require Import Prelude.
From S2P Require Import Actors.
From S2P Require Import StoragePaths.
From S2P Require Import Snapshots.
From S2P Require Import Deployments.
From S2P Require Import RequestTraces.
Local Open Scope string_scope.
Local Open Scope Z_scope.

Record TraceEvent := {
  ev_event_id : string;
  ev_host_id : string;
  ev_session_id : string;
  ev_trace : RequestTrace }.
Record TraceRecord := { rec_sequence : Z; rec_event : TraceEvent }.

Record TracePage := {
  pg_epoch : string;
  pg_cursor : Z;
  pg_capacity : nat;
  pg_evicted : Z;
  pg_dropped : Z;
  pg_persistence_failed : bool;
  pg_records : list TraceRecord;
  pg_next_cursor : option string;
  pg_resume_cursor : string;
  pg_reset : bool }.

Definition MAX_SAFE_MS : Z := 9007199254740991.

(** * Queries *)
Record HistoryQuery := {
  hq_request_id : option string;
  hq_connection_id : option string;
  hq_actor_name : option string;
  hq_actor_id : option string;
  hq_outcome : option RequestOutcome;
  hq_from_ms : option Z;
  hq_to_ms : option Z;
  hq_limit : nat;
  hq_cursor : option string }.
Definition HistoryQuery_default : HistoryQuery :=
  {| hq_request_id := None; hq_connection_id := None; hq_actor_name := None; hq_actor_id := None; hq_outcome := None;
     hq_from_ms := None; hq_to_ms := None; hq_limit := 100; hq_cursor := None |}.

Definition HistoryQuery_validate (q : HistoryQuery) : Result unit :=
  let id_ok id := negb (is_empty id) && (len id <=? 256) in
  ensure (is_none_or id_ok (hq_request_id q) && is_none_or id_ok (hq_connection_id q)) "invalid request or connection ID";;
  ensure ((1 <=? hq_limit q)%nat && (hq_limit q <=? TRACE_CAPACITY)%nat) "limit must be between 1 and 500";;
  ensure (is_none_or (fun c => negb (is_empty c) && (len c <=? 4096)) (hq_cursor q)) "invalid history cursor";;
  ensure (is_none_or (fun ms => ms <=? MAX_SAFE_MS) (hq_from_ms q) && is_none_or (fun ms => ms <=? MAX_SAFE_MS) (hq_to_ms q))
    "invalid timestamp";;
  ensure (match hq_from_ms q, hq_to_ms q with Some from, Some to => from <=? to | _, _ => true end)
    "fromMs must not exceed toMs";;
  ActorKey_validate {| project_id := "history"; actor_name := default "Actor" (hq_actor_name q);
                       actor_id := default "actor" (hq_actor_id q) |}.

Record TimeRange := { rg_from_ms : option Z; rg_to_ms : option Z }.
Definition TimeRange_validate (r : TimeRange) : Result unit :=
  let q := HistoryQuery_default in
  HistoryQuery_validate
    {| hq_request_id := hq_request_id q; hq_connection_id := hq_connection_id q; hq_actor_name := hq_actor_name q;
       hq_actor_id := hq_actor_id q; hq_outcome := hq_outcome q; hq_from_ms := rg_from_ms r; hq_to_ms := rg_to_ms r;
       hq_limit := hq_limit q; hq_cursor := hq_cursor q |}.

Record ReplayQuery := { rq_cursor : option string; rq_limit : nat }.
Definition ReplayQuery_validate (q : ReplayQuery) : Result unit :=
  ensure ((1 <=? rq_limit q)%nat && (rq_limit q <=? TRACE_CAPACITY)%nat) "invalid replay limit";;
  ensure (is_none_or (fun c => len c <=? 4096) (rq_cursor q)) "invalid replay cursor".

Definition INVALID_QUERY : string := "Invalid or incompatible request trace query".

(** * The tables *)
Record row := {
  r_position : Z;
  r_event_id : string;
  r_event : string;
  r_started_at_ms : Z;
  r_actor_name : string;
  r_actor_id : string;
  r_outcome : string;
  r_project_id : string }.
Record project_row := { pj_total : Z; pj_head : Z; pj_pruned : Z }.

(** [db_sequence] is the largest position ever used ([AUTOINCREMENT]). *)
Record TraceDb := {
  db_rows : list row;
  db_sequence : Z;
  db_generation : string;
  db_pruned : Z;
  db_total : Z;
  db_projects : gmap string project_row }.
Definition TraceDb_new (generation : string) : TraceDb :=
  {| db_rows := []; db_sequence := 0; db_generation := generation; db_pruned := 0; db_total := 0; db_projects := ∅ |}.

Record Metadata := { md_generation : string; md_head : Z; md_pruned : Z; md_evicted : Z }.

(** The cursors: the place of a reader, with what it must still agree on *)
Record HistoryCursor := {
  hc_project_id : string;
  hc_generation : string;
  hc_watermark : Z;
  hc_pruned : Z;
  hc_time : Z;
  hc_sequence : Z;
  hc_filters : string }.
Record ReplayCursor := { rc_project_id : string; rc_generation : string; rc_position : Z }.
Abbreviation filter_tuple :=
  (option string * option string * option string * option string * option RequestOutcome * option Z * option Z)%type.

(** [json_extract(event, '$.requestId')] and [... '$.connectionId')] on the text of
    an event *)
Class SqliteJson := { extract_request_id : string -> option string; extract_connection_id : string -> option string }.
Class SqliteJsonLaws `{SqliteJson, Json TraceEvent} : Prop := {
  extract_request : forall e, extract_request_id (to_vec e) = Some (tr_request_id (ev_trace e));
  extract_connection : forall e, extract_connection_id (to_vec e) = tr_connection_id (ev_trace e) }.

(** Whether an insertion that meets a conflict after [sequence] uses up a position *)
Class SqliteRowids := { burns_position : Z -> bool }.

Section database.
Context `{Json TraceEvent, SqliteJson, SqliteRowids}.

(** The triggers on [traces] *)
Definition on_insert (r : row) (projects : gmap string project_row) : gmap string project_row :=
  if is_empty (r_project_id r) then projects
  else <[r_project_id r :=
          match projects !! r_project_id r with
          | None => {| pj_total := 1; pj_head := r_position r; pj_pruned := 0 |}
          | Some p => {| pj_total := pj_total p + 1; pj_head := r_position r; pj_pruned := pj_pruned p |}
          end]> projects.
Definition on_delete (projects : gmap string project_row) (r : row) : gmap string project_row :=
  alter (fun p => {| pj_total := pj_total p; pj_head := pj_head p; pj_pruned := Z.max (pj_pruned p) (r_position r) |})
    (r_project_id r) projects.

(** [INSERT ... ON CONFLICT (event_id) DO NOTHING]: the number of rows inserted *)
Definition insert_event (e : TraceEvent) (db : TraceDb) : Result (nat * TraceDb) :=
  started ← i64_try_from (tr_started_at_ms (ev_trace e));
  if I64_MAX <=? db_sequence db then Err "database or disk is full"
  else if existsb (fun r => String.eqb (r_event_id r) (ev_event_id e)) (db_rows db) then
    Ok (O, {| db_rows := db_rows db;
              db_sequence := if burns_position (db_sequence db) then db_sequence db + 1 else db_sequence db;
              db_generation := db_generation db; db_pruned := db_pruned db; db_total := db_total db;
              db_projects := db_projects db |})
  else
    let r := {| r_position := db_sequence db + 1; r_event_id := ev_event_id e; r_event := to_vec e;
                r_started_at_ms := started; r_actor_name := tr_actor_name (ev_trace e);
                r_actor_id := tr_actor_id (ev_trace e); r_outcome := outcome_str (tr_outcome (ev_trace e));
                r_project_id := tr_project_id (ev_trace e) |} in
    Ok (1%nat, {| db_rows := db_rows db ++ [r]; db_sequence := db_sequence db + 1; db_generation := db_generation db;
                  db_pruned := db_pruned db; db_total := db_total db; db_projects := on_insert r (db_projects db) |}).
Fixpoint insert_events (events : list TraceEvent) (db : TraceDb) : Result (nat * TraceDb) :=
  match events with
  | [] => Ok (O, db)
  | e :: events =>
      '(n, db) ← insert_event e db;
      '(m, db) ← insert_events events db;
      Ok ((n + m)%nat, db)
  end.

(** [SELECT position FROM traces ORDER BY position DESC LIMIT 1 OFFSET retention];
    positions are kept in ascending order *)
Definition nth_newest (retention : nat) (db : TraceDb) : Z :=
  default 0 (r_position <$> reverse (db_rows db) !! retention).

(** The transaction of [append] *)
Definition append (retention : nat) (events : list TraceEvent) (db : TraceDb) : Result TraceDb :=
  '(inserted, db) ← insert_events events db;
  let pruned := Z.max (db_pruned db) (nth_newest retention db) in
  let deleted := filter (fun r => r_position r <= pruned) (db_rows db) in
  Ok {| db_rows := filter (fun r => ~ r_position r <= pruned) (db_rows db); db_sequence := db_sequence db;
        db_generation := db_generation db; db_pruned := pruned; db_total := db_total db + Z.of_nat inserted;
        db_projects := foldl on_delete (db_projects db) deleted |}.

Definition of_project (project : string) (db : TraceDb) : list row :=
  filter (fun r => r_project_id r = project) (db_rows db).

(** [replay::metadata] *)
Definition metadata (db : TraceDb) (project : string) : Metadata :=
  let p := db_projects db !! project in
  {| md_generation := db_generation db;
     md_head := default 0 (pj_head <$> p);
     md_pruned := default 0 (pj_pruned <$> p);
     md_evicted := Z.max 0 (default 0 (pj_total <$> p) - Z.of_nat (length (of_project project db))) |}.

(** ** Selecting rows *)
Definition eq_text (wanted : option string) (found : option string) : bool :=
  is_none_or (fun w => match found with Some f => String.eqb f w | None => false end) wanted.
Definition matches (q : HistoryQuery) (r : row) : bool :=
  eq_text (hq_request_id q) (extract_request_id (r_event r))
  && eq_text (hq_connection_id q) (extract_connection_id (r_event r))
  && eq_text (hq_actor_name q) (Some (r_actor_name r))
  && eq_text (hq_actor_id q) (Some (r_actor_id r))
  && eq_text (outcome_str <$> hq_outcome q) (Some (r_outcome r))
  && is_none_or (fun from => from <=? r_started_at_ms r) (hq_from_ms q)
  && is_none_or (fun to => r_started_at_ms r <=? to) (hq_to_ms q).

(** [(started_at_ms, position) < (time, sequence)] *)
Definition before (time sequence : Z) (r : row) : bool :=
  (r_started_at_ms r <? time) || ((r_started_at_ms r =? time) && (r_position r <? sequence)).
(** [ORDER BY started_at_ms DESC, position DESC] *)
Definition newer (a b : row) : Prop :=
  r_started_at_ms b < r_started_at_ms a \/ r_started_at_ms b = r_started_at_ms a /\ r_position b <= r_position a.
#[global] Instance newer_dec a b : Decision (newer a b).
Proof. unfold newer. apply _. Defined.

(** The rows that a history query selects, in order, without its limit *)
Definition history_rows (db : TraceDb) (project : string) (q : HistoryQuery) (watermark : Z) : list row :=
  merge_sort newer (filter (fun r => r_position r <= watermark /\ matches q r) (of_project project db)).
Definition decode_row (r : row) : Result TraceRecord :=
  event ← from_slice (r_event r);
  Ok {| rec_sequence := r_position r; rec_event := event |}.
Definition select_history (db : TraceDb) (project : string) (q : HistoryQuery) (watermark : Z)
    (cursor : option HistoryCursor) : Result (list TraceRecord) :=
  let rows := history_rows db project q watermark in
  let rows := match cursor with
              | Some c => filter (fun r => before (hc_time c) (hc_sequence c) r) rows
              | None => rows
              end in
  collect decode_row (take (S (hq_limit q)) rows).

Definition select_replay (db : TraceDb) (project : string) (limit : nat) (after : option Z) (head : Z)
  : Result (list TraceRecord) :=
  let rows := filter (fun r => default 0 after < r_position r <= head) (of_project project db) in
  let rows := match after with Some _ => rows | None => merge_sort newer rows end in
  collect decode_row (take (S limit) rows).
End database.

(** * Cursors and pages ([persistence/cursor.rs]) *)
Section pages.
Context `{Base64Url, Json HistoryCursor, Json ReplayCursor, Json filter_tuple}.

Definition filter_key (q : HistoryQuery) : string :=
  to_vec (hq_request_id q, hq_connection_id q, hq_actor_name q, hq_actor_id q, hq_outcome q, hq_from_ms q, hq_to_ms q).

Definition encode `{Json A} (value : A) : string := b64_encode (to_vec value).
Definition decode `{Json A} (value : string) : Result A :=
  match b64_decode value with
  | Err _ => Err INVALID_QUERY
  | Ok bytes => match from_slice bytes with Ok a => Ok a | Err _ => Err INVALID_QUERY end
  end.
Definition resume_cursor (project generation : string) (position : Z) : string :=
  encode {| rc_project_id := project; rc_generation := generation; rc_position := position |}.

Definition HistoryCursor_decode (value project filters : string) (md : Metadata) : Result HistoryCursor :=
  c ← decode value;
  if negb (String.eqb (hc_project_id c) project)
     || is_empty (hc_generation c) || (64 <? len (hc_generation c))
     || (I64_MAX <? hc_watermark c) || (hc_watermark c <? hc_pruned c)
     || (hc_sequence c =? 0) || (hc_watermark c <? hc_sequence c)
     || (MAX_SAFE_MS <? hc_time c) || negb (String.eqb (hc_filters c) filters)
     || (String.eqb (hc_generation c) (md_generation md)
         && ((md_head md <? hc_watermark c) || (md_pruned md <? hc_pruned c)))
  then Err INVALID_QUERY
  else Ok c.

Record HistoryPage := {
  hp_project_id : string;
  hp_metadata : Metadata;
  hp_filters : string;
  hp_after : option HistoryCursor;
  hp_watermark : Z;
  hp_reset : bool }.

(** [option.map(f).transpose()] *)
Definition transpose {A B} (f : A -> Result B) (o : option A) : Result (option B) :=
  match o with Some a => b ← f a; Ok (Some b) | None => Ok None end.

Definition HistoryPage_new (project : string) (q : HistoryQuery) (md : Metadata) : Result HistoryPage :=
  let filters := filter_key q in
  cursor ← transpose (fun value => HistoryCursor_decode value project filters md) (hq_cursor q);
  let reset := match cursor with
               | Some c => negb (String.eqb (hc_generation c) (md_generation md)) || (hc_pruned c <? md_pruned md)
               | None => false
               end in
  let after := if reset then None else cursor in
  Ok {| hp_project_id := project; hp_metadata := md; hp_filters := filters; hp_after := after;
        hp_watermark := match after with Some c => hc_watermark c | None => md_head md end; hp_reset := reset |}.

Definition HistoryPage_finish (p : HistoryPage) (limit : nat) (records : list TraceRecord) : Result TracePage :=
  let more := (limit <? length records)%nat in
  let records := take limit records in
  next ← (if more then
            last ← with_context (list.last records) "called `Option::unwrap()` on a `None` value";
            Ok (Some (encode {| hc_project_id := hp_project_id p; hc_generation := md_generation (hp_metadata p);
                                hc_watermark := hp_watermark p; hc_pruned := md_pruned (hp_metadata p);
                                hc_time := tr_started_at_ms (ev_trace (rec_event last)); hc_sequence := rec_sequence last;
                                hc_filters := hp_filters p |}))
          else Ok None);
  Ok {| pg_epoch := md_generation (hp_metadata p); pg_cursor := hp_watermark p; pg_capacity := limit;
        pg_evicted := md_evicted (hp_metadata p); pg_dropped := 0; pg_persistence_failed := false;
        pg_records := records; pg_next_cursor := next;
        pg_resume_cursor := resume_cursor (hp_project_id p) (md_generation (hp_metadata p)) (hp_watermark p);
        pg_reset := hp_reset p |}.

Record ReplayPage := { rp_project_id : string; rp_metadata : Metadata; rp_after : option Z; rp_reset : bool }.

Definition ReplayPage_new (project : string) (q : ReplayQuery) (md : Metadata) : Result ReplayPage :=
  cursor ← transpose (fun value =>
    c ← decode value;
    if negb (String.eqb (rc_project_id c) project) || (I64_MAX <? rc_position c)
       || (String.eqb (rc_generation c) (md_generation md) && (md_head md <? rc_position c))
    then Err INVALID_QUERY else Ok c) (rq_cursor q);
  let reset := match cursor with
               | Some c => negb (String.eqb (rc_generation c) (md_generation md)) || (rc_position c <? md_pruned md)
               | None => false
               end in
  Ok {| rp_project_id := project; rp_metadata := md; rp_after := if reset then None else rc_position <$> cursor;
        rp_reset := reset |}.

Definition ReplayPage_finish (p : ReplayPage) (limit : nat) (records : list TraceRecord) : Result TracePage :=
  let more := match rp_after p with Some _ => (limit <? length records)%nat | None => false end in
  let records := take limit records in
  position ← (if more then
                last ← with_context (list.last records) "called `Option::unwrap()` on a `None` value";
                Ok (rec_sequence last)
              else Ok (md_head (rp_metadata p)));
  let resume := resume_cursor (rp_project_id p) (md_generation (rp_metadata p)) position in
  Ok {| pg_epoch := md_generation (rp_metadata p); pg_cursor := position; pg_capacity := limit;
        pg_evicted := md_evicted (rp_metadata p); pg_dropped := 0; pg_persistence_failed := false;
        pg_records := records; pg_next_cursor := if more then Some resume else None;
        pg_resume_cursor := resume; pg_reset := rp_reset p |}.

(** ** The queries of the database *)
Context `{Json TraceEvent, SqliteJson}.

Definition history (db : TraceDb) (project : string) (q : HistoryQuery) : Result TracePage :=
  page ← HistoryPage_new project q (metadata db project);
  records ← select_history db project q (hp_watermark page) (hp_after page);
  HistoryPage_finish page (hq_limit q) records.
Definition replay (db : TraceDb) (project : string) (q : ReplayQuery) : Result TracePage :=
  page ← ReplayPage_new project q (metadata db project);
  records ← select_replay db project (rq_limit q) (rp_after page) (md_head (rp_metadata page));
  ReplayPage_finish page (rq_limit q) records.

(** ** The checks of [TraceStore] before it asks the database *)
(** [.context(InvalidTraceQuery)] *)
Definition valid_query (r : Result unit) : Result unit := match r with Ok _ => Ok tt | Err _ => Err INVALID_QUERY end.
Definition checked_history (db : TraceDb) (project : string) (q : HistoryQuery) : Result TracePage :=
  valid_query (admin_component "project ID" project 64);;
  valid_query (HistoryQuery_validate q);;
  history db project q.
End pages.
