(* ===== verification/TracePaging.v ===== *)
(** Paging through request traces ([request_traces/persistence]): the invariant of
    the trace database, what retention keeps, that paging through the history
    returns every matching trace once while new ones arrive, and that following it
    from a position misses nothing without saying so. *)

From S2P Require Import Prelude.
From S2P Require Import Actors.
From S2P Require Import StoragePaths.
From S2P Require Import Snapshots.
From S2P Require Import Deployments.
From S2P Require Import RequestTraces.
From S2P Require Import TraceHistory.
Local Open Scope Z_scope.

(** * Strictly sorted lists *)
Section strictly_sorted.
Context {A : Type} (R : relation A).
Implicit Types (l : list A) (P : A -> Prop).

Lemma filter_all P `{forall x, Decision (P x)} l : Forall P l -> filter P l = l.
Proof. induction 1 as [|x l Hx _ IH]; [done|]. by rewrite filter_cons_True, IH. Qed.
Lemma filter_none P `{forall x, Decision (P x)} l : Forall (fun x => ~ P x) l -> filter P l = [].
Proof. induction 1 as [|x l Hx _ IH]; [done|]. by rewrite filter_cons_False. Qed.
Lemma filter_ext_in P Q `{forall x, Decision (P x), forall x, Decision (Q x)} l :
  (forall x, x ∈ l -> P x <-> Q x) -> filter P l = filter Q l.
Proof.
  induction l as [|x l IH]; intros Hpq; [done|]. rewrite !filter_cons, IH by (intros y Hy; apply Hpq; by right).
  apply decide_ext. apply Hpq. by left.
Qed.

Lemma sorted_filter P `{forall x, Decision (P x)} l : StronglySorted R l -> StronglySorted R (filter P l).
Proof.
  induction 1 as [|x l Hs IH Hx]; [constructor|]. rewrite filter_cons. case_decide; [|done]. constructor; [done|].
  rewrite Forall_forall in *. intros y [_ Hy]%list_elem_of_filter. by apply Hx.
Qed.

(** The elements after a given one are the larger ones. *)
Lemma filter_after P `{forall x, Decision (P x)} pre x post :
  (forall a b, R a b -> ~ R b a) -> StronglySorted R (pre ++ x :: post) ->
  (forall y, y ∈ pre ++ x :: post -> P y <-> R x y) -> filter P (pre ++ x :: post) = post.
Proof.
  intros Hasym (Hpre & _ & [Hx _]%StronglySorted_cons)%StronglySorted_app Hp.
  rewrite filter_app, filter_none, filter_cons_False, filter_all; [done| | |].
  - apply Forall_forall. intros y Hy. apply Hp; [set_solver|]. rewrite Forall_forall in Hx. by apply Hx.
  - intros Hxx%Hp; [|set_solver]. by apply (Hasym x x).
  - apply Forall_forall. intros y Hy Hpy%Hp; [|set_solver]. apply (Hasym x y Hpy). apply Hpre; [done|by left].
Qed.
Lemma filter_until P `{forall x, Decision (P x)} pre x post :
  (forall a b, R a b -> ~ R b a) -> StronglySorted R (pre ++ x :: post) ->
  (forall y, y ∈ pre ++ x :: post -> P y <-> ~ R x y) -> filter P (pre ++ x :: post) = (pre ++ [x])%list.
Proof.
  intros Hasym (Hpre & _ & [Hx _]%StronglySorted_cons)%StronglySorted_app Hp.
  rewrite filter_app, (filter_all P pre), filter_cons_True, filter_none; [done| | |].
  - apply Forall_forall. intros y Hy Hpy. rewrite Hp in Hpy by set_solver. rewrite Forall_forall in Hx. by apply Hpy, Hx.
  - apply Hp; [set_solver|]. intros Hxx. by apply (Hasym x x).
  - apply Forall_forall. intros y Hy. apply Hp; [set_solver|]. intros Hxy. apply (Hasym x y Hxy), Hpre; [done|by left].
Qed.
End strictly_sorted.

(** * The invariant of the database *)
Definition earlier (a b : row) : Prop := r_position a < r_position b.
Lemma earlier_asym a b : earlier a b -> ~ earlier b a.
Proof. unfold earlier. lia. Qed.

Section invariant.
Context `{Json TraceEvent, SqliteJson, SqliteRowids}.

(** The columns of a row are those of the event that it stores. *)
Definition stores (e : TraceEvent) (r : row) : Prop :=
  r_event_id r = ev_event_id e /\ r_event r = to_vec e /\ r_started_at_ms r = tr_started_at_ms (ev_trace e) /\
  r_actor_name r = tr_actor_name (ev_trace e) /\ r_actor_id r = tr_actor_id (ev_trace e) /\
  r_outcome r = outcome_str (tr_outcome (ev_trace e)) /\ r_project_id r = tr_project_id (ev_trace e).

Definition in_project (projects : gmap string project_row) (r : row) : Prop :=
  r_project_id r <> ""%string -> exists p, projects !! r_project_id r = Some p /\ pj_pruned p < r_position r <= pj_head p.

Record db_ok (db : TraceDb) : Prop := {
  ok_sorted : StronglySorted earlier (db_rows db);
  ok_rows : Forall (fun r => db_pruned db < r_position r <= db_sequence db /\ exists e, stores e r) (db_rows db);
  ok_ids : NoDup (r_event_id <$> db_rows db);
  ok_bounds : 0 <= db_pruned db <= db_sequence db /\ db_sequence db <= I64_MAX;
  ok_generation : 0 < len (db_generation db) <= 64;
  ok_unnamed : db_projects db !! ""%string = None;
  ok_projects : map_Forall (fun _ p => 0 <= pj_pruned p <= pj_head p /\ pj_head p <= db_sequence db) (db_projects db);
  ok_in_project : Forall (in_project (db_projects db)) (db_rows db) }.

Lemma TraceDb_new_ok generation : 0 < len generation <= 64 -> db_ok (TraceDb_new generation).
Proof. intros Hg. constructor; cbn; try done; try constructor; unfold I64_MAX; try lia; apply map_Forall_empty. Qed.

(** ** Inserting *)
(** [db'] is [db] after insertions. *)
Record inserted (db db' : TraceDb) (added : list row) : Prop := {
  ins_rows : db_rows db' = (db_rows db ++ added)%list;
  ins_added : Forall (fun r => db_sequence db < r_position r) added;
  ins_sequence : db_sequence db <= db_sequence db';
  ins_generation : db_generation db' = db_generation db;
  ins_pruned : db_pruned db' = db_pruned db;
  ins_head : forall k, md_head (metadata db k) <= md_head (metadata db' k);
  ins_project : forall k, md_pruned (metadata db' k) = md_pruned (metadata db k) }.

Lemma on_insert_lookup r projects k : on_insert r projects !! k =
  if decide (r_project_id r = k /\ k <> ""%string)
  then Some {| pj_total := default 0 (pj_total <$> projects !! k) + 1; pj_head := r_position r;
               pj_pruned := default 0 (pj_pruned <$> projects !! k) |}
  else projects !! k.
Proof.
  unfold on_insert. destruct (is_empty (r_project_id r)) eqn:Ee.
  - rewrite decide_False; [done|]. intros [<- Hk]. by destruct (r_project_id r).
  - case_decide as Hd.
    + destruct Hd as [<- _]. rewrite lookup_insert_eq. by destruct (projects !! _).
    + rewrite lookup_insert_ne; [done|]. intros Hr. apply Hd. split; [done|]. intros ->. by rewrite Hr in Ee.
Qed.

Lemma insert_event_ok e db n db' : db_ok db -> insert_event e db = Ok (n, db') ->
  db_ok db' /\ exists added, inserted db db' added /\ length added = n /\
  (exists r, r ∈ db_rows db' /\ r_event_id r = ev_event_id e) /\ (forall r, r ∈ added -> stores e r).
Proof.
  intros Hok. unfold insert_event. destruct (i64_try_from _) as [started|] eqn:Es; [|done]. cbn [mbind Result_bind].
  assert (started = tr_started_at_ms (ev_trace e)) as ->.
  { unfold i64_try_from in Es. destruct (_ <=? _) in Es; congruence. }
  destruct (I64_MAX <=? _) eqn:Em; [done|]. bools. destruct Hok as [Hs Hr Hid Hb Hg Hu Hp Hip].
  destruct (existsb _ _) eqn:Ex; intros [= <- <-].
  - set (seq' := if burns_position _ then _ else _). assert (Hseq : db_sequence db <= seq' <= db_sequence db + 1)
      by (unfold seq'; case_match; lia).
    split.
    + constructor; cbn; try done; try lia.
      * eapply Forall_impl; [exact Hr|]. cbn. intros r [? ?]. split; [lia|done].
      * eapply map_Forall_impl; [exact Hp|]. cbn. lia.
    + exists []. split; [constructor; cbn; rewrite ?app_nil_r; try done; lia|]. split; [done|].
      split; [|intros r Hr'; by apply elem_of_nil in Hr'].
      apply existsb_exists in Ex as (r & Hr' & Eid%String.eqb_eq). exists r. by rewrite list_elem_of_In.
  - match goal with |- context [on_insert ?x _] => set (r := x) end.
    assert (Hst : stores e r) by (repeat split).
    assert (Hnew : Forall (fun r' => earlier r' r) (db_rows db)).
    { eapply Forall_impl; [exact Hr|]. cbn. intros r' [? _]. unfold earlier. cbn. lia. }
    assert (Hnid : forall r', r' ∈ db_rows db -> r_event_id r' <> r_event_id r).
    { intros r' Hr' Eid. rewrite <- not_true_iff_false, existsb_exists in Ex. apply Ex. exists r'.
      by rewrite <- list_elem_of_In, String.eqb_eq. }
    split.
    + constructor; cbn [db_rows db_sequence db_pruned db_projects db_generation]; try done; try lia.
      * apply StronglySorted_app. split; [|split; [done|by repeat constructor]].
        intros a b Ha ->%list_elem_of_singleton. rewrite Forall_forall in Hnew. by apply Hnew.
      * apply Forall_app. split; [eapply Forall_impl; [exact Hr|]; cbn; intros r' [? ?]; split; [lia|done]|].
        repeat constructor; cbn; [lia|lia|by exists e].
      * rewrite fmap_app. apply NoDup_app. split; [done|]. split; [|apply NoDup_singleton].
        intros id (r' & -> & Hr')%list_elem_of_fmap Eid%list_elem_of_singleton. by apply (Hnid r').
      * rewrite on_insert_lookup, decide_False; [done|]. by intros [_ ?].
      * intros k p. rewrite on_insert_lookup. case_decide as Hd; [|intros Hk; specialize (Hp k p Hk); cbn in *; lia].
        intros [= <-]. cbn. destruct (db_projects db !! k) as [p|] eqn:Ek; cbn; [specialize (Hp k p Ek); cbn in *|]; lia.
      * apply Forall_app. split.
        -- rewrite Forall_forall in Hip, Hnew |- *. intros r' Hr' Hne. rewrite on_insert_lookup. case_decide as Hd.
           ++ eexists. split; [done|]. cbn. specialize (Hnew r' Hr'). unfold earlier in Hnew. cbn in Hnew.
              destruct (Hip r' Hr' Hne) as (p & -> & Hpp). cbn. lia.
           ++ by apply Hip.
        -- constructor; [|done]. intros Hne. rewrite on_insert_lookup, decide_True by done. eexists. split; [done|].
           cbn. change (r_project_id r) with (tr_project_id (ev_trace e)).
           destruct (db_projects db !! tr_project_id (ev_trace e)) as [p|] eqn:Ek; cbn; [specialize (Hp _ p Ek); cbn in *|]; lia.
    + exists [r]. split; [|split; [done|split; [exists r; split; [set_solver|done]|
                                                 intros r' ->%list_elem_of_singleton; done]]].
      constructor; cbn [db_rows db_sequence db_pruned db_projects db_generation]; try done; try lia.
      * repeat constructor; cbn; lia.
      * intros k. unfold metadata. cbn [md_head db_projects]. rewrite on_insert_lookup. case_decide; [|done]. cbn.
        destruct (db_projects db !! k) as [p|] eqn:Ek; cbn; [specialize (Hp _ p Ek); cbn in *|]; lia.
      * intros k. unfold metadata. cbn [md_pruned db_projects]. rewrite on_insert_lookup. case_decide; [|done]. done.
Qed.

Lemma inserted_trans a b c l k : inserted a b l -> inserted b c k -> inserted a c (l ++ k).
Proof.
  intros [A1 A2 A3 A4 A5 A6 A7] [K1 K2 K3 K4 K5 K6 K7]. constructor.
  - by rewrite K1, A1, app_assoc.
  - apply Forall_app. split; [done|]. eapply Forall_impl; [exact K2|]. cbn. lia.
  - lia.
  - congruence.
  - congruence.
  - intros p. specialize (A6 p). specialize (K6 p). lia.
  - intros p. by rewrite K7.
Qed.

Lemma insert_events_ok events : forall db n db', db_ok db -> insert_events events db = Ok (n, db') ->
  db_ok db' /\ exists added, inserted db db' added /\ length added = n /\
  (forall e, e ∈ events -> exists r, r ∈ db_rows db' /\ r_event_id r = ev_event_id e) /\
  (forall r, r ∈ added -> exists e, e ∈ events /\ stores e r).
Proof.
  induction events as [|e events IH]; intros db n db' Hok; cbn [insert_events].
  - intros [= <- <-]. split; [done|]. exists []. split; [constructor; rewrite ?app_nil_r; done|].
    split; [done|]. split; intros x Hx; by apply elem_of_nil in Hx.
  - destruct (insert_event e db) as [[n1 db1]|] eqn:E1; [|done]. cbn.
    destruct (insert_events events db1) as [[n2 db2]|] eqn:E2; [|done]. cbn. intros [= <- <-].
    destruct (insert_event_ok _ _ _ _ Hok E1) as (Hok1 & l1 & I1 & L1 & F1 & S1).
    destruct (IH _ _ _ Hok1 E2) as (Hok2 & l2 & I2 & L2 & F2 & S2).
    split; [done|]. exists (l1 ++ l2)%list. split; [by eapply inserted_trans|]. split; [rewrite length_app; lia|].
    split.
    + intros e' [->|He']%elem_of_cons; [|by apply F2]. destruct F1 as (r & Hr & Er). exists r.
      split; [|done]. rewrite (ins_rows _ _ _ I2). set_solver.
    + intros r [Hr|Hr]%elem_of_app; [exists e; split; [by left|by apply S1]|].
      destruct (S2 r Hr) as (e' & ? & ?). exists e'. split; [by right|done].
Qed.

(** ** Pruning *)
Lemma on_delete_fold rs : forall projects k,
  (projects !! k = None -> foldl on_delete projects rs !! k = None) /\
  (forall p, projects !! k = Some p -> exists p', foldl on_delete projects rs !! k = Some p' /\
     pj_head p' = pj_head p /\ pj_pruned p <= pj_pruned p' /\
     (forall r, r ∈ rs -> r_project_id r = k -> r_position r <= pj_pruned p') /\
     (pj_pruned p' = pj_pruned p \/ exists r, r ∈ rs /\ r_project_id r = k /\ pj_pruned p' = r_position r)).
Proof.
  induction rs as [|r rs IH]; intros projects k; cbn [foldl].
  - split; [done|]. intros p Hp. exists p. split; [done|]. split; [done|]. split; [lia|].
    split; [|by left]. intros r Hr. by apply elem_of_nil in Hr.
  - destruct (decide (r_project_id r = k)) as [Er|Er].
    + subst k. destruct (IH (on_delete projects r) (r_project_id r)) as [Hn Hs].
      unfold on_delete at 1 in Hn. unfold on_delete at 1 in Hs. rewrite lookup_alter_eq in Hn, Hs.
      split; [intros Hp; apply Hn; by rewrite Hp|]. intros p Hp. rewrite Hp in Hs.
      destruct (Hs _ eq_refl) as (p' & E & Hh & Hge & Hall & Hone). cbn in Hh, Hge, Hone. exists p'.
      split; [done|]. split; [done|]. split; [lia|]. split.
      * intros r' [->|Hr']%elem_of_cons Ek; [lia|by apply Hall].
      * destruct Hone as [Hone|(r' & Hr' & Ek & Ep)]; [|right; exists r'; split; [by right|done]].
        destruct (Z.le_gt_cases (r_position r) (pj_pruned p)); [left; lia|right; exists r; split; [by left|]].
        split; [done|lia].
    + destruct (IH (on_delete projects r) k) as [Hn Hs].
      unfold on_delete at 1 in Hn. unfold on_delete at 1 in Hs. rewrite lookup_alter_ne in Hn, Hs by done.
      split; [done|]. intros p Hp. destruct (Hs p Hp) as (p' & E & Hh & Hge & Hall & Hone). exists p'.
      split; [done|]. split; [done|]. split; [done|]. split.
      * intros r' [->|Hr']%elem_of_cons Ek; [done|by apply Hall].
      * destruct Hone as [Hone|(r' & Hr' & Ek & Ep)]; [by left|right; exists r'; split; [by right|done]].
Qed.

(** What remains after pruning are the newest rows. *)
Lemma kept_rows retention db : db_ok db ->
  filter (fun r => ~ r_position r <= Z.max (db_pruned db) (nth_newest retention db)) (db_rows db)
  = drop (length (db_rows db) - retention) (db_rows db).
Proof.
  intros [Hs Hr _ Hb _ _ _ _]. rewrite Forall_forall in Hr. unfold nth_newest.
  destruct (Nat.lt_ge_cases retention (length (db_rows db))) as [Hlt|Hge].
  - rewrite reverse_lookup by lia. destruct (lookup_lt_is_Some_2 (db_rows db) (length (db_rows db) - S retention)) as [r Er].
    { lia. }
    rewrite Er. cbn [fmap option_fmap option_map from_option id]. pose proof (take_drop_middle _ _ _ Er) as Esplit.
    assert (Hlen : length (take (length (db_rows db) - S retention) (db_rows db)) = (length (db_rows db) - S retention)%nat).
    { apply length_take_le. lia. }
    rewrite <- Esplit in Hs. replace (length (db_rows db) - retention)%nat
      with (S (length (db_rows db) - S retention)) by lia.
    rewrite <- Esplit at 1. apply (filter_after earlier); [exact earlier_asym|done|].
    intros y Hy. rewrite Esplit in Hy. destruct (Hr y Hy) as [Hy' _].
    destruct (Hr r) as [Hr' _]; [by eapply list_elem_of_lookup_2|]. unfold earlier. lia.
  - rewrite lookup_ge_None_2 by (rewrite length_reverse; lia). cbn [fmap option_fmap option_map from_option id].
    rewrite (proj2 (Nat.sub_0_le _ _)) by lia. rewrite drop_0. apply filter_all, Forall_forall.
    intros y Hy. destruct (Hr y Hy) as [Hy' _]. lia.
Qed.

Lemma nth_newest_bound retention db : db_ok db -> 0 <= nth_newest retention db <= db_sequence db.
Proof.
  intros [_ Hr _ Hb _ _ _ _]. unfold nth_newest. destruct (reverse (db_rows db) !! retention) as [r|] eqn:Er; cbn; [|lia].
  apply list_elem_of_lookup_2 in Er. rewrite elem_of_reverse in Er. rewrite Forall_forall in Hr. destruct (Hr r Er) as [? _]. lia.
Qed.

Definition prune (retention : nat) (db : TraceDb) : Z := Z.max (db_pruned db) (nth_newest retention db).
Lemma prune_ok retention total db db' : db_ok db ->
  db' = {| db_rows := filter (fun r => ~ r_position r <= prune retention db) (db_rows db); db_sequence := db_sequence db;
           db_generation := db_generation db; db_pruned := prune retention db; db_total := total;
           db_projects := foldl on_delete (db_projects db)
                            (filter (fun r => r_position r <= prune retention db) (db_rows db)) |} ->
  db_ok db'.
Proof.
  intros Hok ->. pose proof (nth_newest_bound retention db Hok) as Hn. destruct Hok as [Hs Hr Hid Hb Hg Hu Hp Hip].
  rewrite Forall_forall in Hr, Hip. assert (Hmax : db_pruned db <= prune retention db <= db_sequence db) by (unfold prune; lia).
  constructor; cbn [db_rows db_sequence db_generation db_pruned db_projects]; try done; try lia.
  - by apply sorted_filter.
  - apply Forall_forall. intros r [Hgt Hin]%list_elem_of_filter. destruct (Hr r Hin) as [? ?]. split; [lia|done].
  - apply (sublist_NoDup _ (r_event_id <$> db_rows db)); [done|]. apply fmap_sublist, sublist_filter.
  - by apply on_delete_fold.
  - intros k p' Hp'. destruct (db_projects db !! k) as [p|] eqn:Ek;
      [|rewrite (proj1 (on_delete_fold _ _ _) Ek) in Hp'; done].
    destruct (proj2 (on_delete_fold (filter (fun r => r_position r <= prune retention db) (db_rows db)) _ k) p Ek)
      as (p'' & E & Hh & Hge & _ & Hone).
    rewrite E in Hp'. injection Hp' as ->. specialize (Hp k p Ek). cbn in Hp.
    destruct Hone as [Eq|(r & [_ Hin]%list_elem_of_filter & Er & Eq)]; [lia|].
    destruct (Hip r Hin) as (q & Eq' & Hq); [intros Hne; congruence|]. rewrite Er, Ek in Eq'. injection Eq' as <-. lia.
  - apply Forall_forall. intros r [Hgt Hin]%list_elem_of_filter Hne. destruct (Hip r Hin Hne) as (p & Ek & Hpp).
    destruct (proj2 (on_delete_fold (filter (fun r => r_position r <= prune retention db) (db_rows db)) _ _) p Ek)
      as (p' & E & Hh & Hge & _ & Hone).
    exists p'. split; [done|]. rewrite Hh. split; [|lia].
    destruct Hone as [->|(r' & [Hle _]%list_elem_of_filter & _ & ->)]; lia.
Qed.

Lemma append_unfold retention events db db' : db_ok db -> append retention events db = Ok db' ->
  exists db1 added, db_ok db1 /\ inserted db db1 added /\ db_ok db' /\
    db_rows db' = filter (fun r => ~ r_position r <= prune retention db1) (db_rows db1) /\
    db_generation db' = db_generation db /\ db_sequence db <= db_sequence db' /\
    db_projects db' = foldl on_delete (db_projects db1)
                        (filter (fun r => r_position r <= prune retention db1) (db_rows db1)) /\
    (forall e, e ∈ events -> exists r, r ∈ db_rows db1 /\ r_event_id r = ev_event_id e) /\
    (forall r, r ∈ added -> exists e, e ∈ events /\ stores e r).
Proof.
  intros Hok. unfold append. destruct (insert_events events db) as [[n db1]|] eqn:Ei; [|done]. cbn.
  destruct (insert_events_ok _ _ _ _ Hok Ei) as (Hok1 & added & Hin & Hlen & Hev & Hst).
  intros [= <-]. exists db1, added. cbn [db_rows db_generation db_projects db_sequence].
  pose proof (ins_generation _ _ _ Hin). pose proof (ins_sequence _ _ _ Hin).
  repeat (split; [done|]). split; [by eapply (prune_ok retention)|]. done.
Qed.

Lemma append_ok retention events db db' : db_ok db -> append retention events db = Ok db' -> db_ok db'.
Proof. intros Hok Happ. by destruct (append_unfold _ _ _ _ Hok Happ) as (? & ? & ? & ? & ? & _). Qed.

(** What a project sees of an append: the database stays the same one, its head and
    the positions that it pruned only grow, and of the rows that were there exactly
    those above the pruned positions remain. *)
Record follows (project : string) (db db' : TraceDb) : Prop := {
  fo_generation : db_generation db' = db_generation db;
  fo_head : md_head (metadata db project) <= md_head (metadata db' project);
  fo_pruned : md_pruned (metadata db project) <= md_pruned (metadata db' project);
  fo_rows : forall watermark, watermark <= md_head (metadata db project) ->
    filter (fun r => r_position r <= watermark) (of_project project db')
    = filter (fun r => r_position r <= watermark /\ md_pruned (metadata db' project) < r_position r) (of_project project db) }.

Lemma in_metadata db project r : db_ok db -> project <> ""%string -> r ∈ of_project project db ->
  md_pruned (metadata db project) < r_position r <= md_head (metadata db project).
Proof.
  intros Hok Hne [Ep Hin]%list_elem_of_filter. pose proof (ok_in_project _ Hok) as Hip. rewrite Forall_forall in Hip.
  destruct (Hip r Hin) as (p & Ek & Hp); [by rewrite Ep|]. rewrite Ep in Ek. unfold metadata. by rewrite Ek.
Qed.

Lemma head_bound db project : db_ok db ->
  0 <= md_pruned (metadata db project) <= md_head (metadata db project) /\ md_head (metadata db project) <= db_sequence db.
Proof.
  intros Hok. unfold metadata. cbn. destruct (db_projects db !! project) as [p|] eqn:Ek; cbn.
  - pose proof (ok_projects _ Hok project p Ek) as Hp. cbn in Hp. lia.
  - destruct (ok_bounds _ Hok). lia.
Qed.

Lemma append_follows retention events db db' project : db_ok db -> project <> ""%string ->
  append retention events db = Ok db' -> db_ok db' /\ follows project db db'.
Proof.
  intros Hok Hne Happ. destruct (append_unfold _ _ _ _ Hok Happ)
    as (db1 & added & Hok1 & Hin & Hok' & Erows & Egen & Hseq & Epr & _ & _).
  split; [done|]. set (gone := filter (fun r => r_position r <= prune retention db1) (db_rows db1)) in *.
  pose proof (ins_head _ _ _ Hin project) as Hhead. pose proof (ins_project _ _ _ Hin project) as Hpruned.
  assert (Hd : md_head (metadata db' project) = md_head (metadata db1 project) /\
               md_pruned (metadata db1 project) <= md_pruned (metadata db' project) /\
               (forall r, r ∈ gone -> r_project_id r = project -> r_position r <= md_pruned (metadata db' project))).
  { unfold metadata. cbn. rewrite Epr. destruct (on_delete_fold gone (db_projects db1) project) as [Hn Hs].
    destruct (db_projects db1 !! project) as [p|] eqn:Ek; cbn.
    - destruct (Hs p eq_refl) as (p' & -> & Hh & Hge & Hall & _). cbn. done.
    - rewrite (Hn eq_refl). cbn. split; [done|]. split; [done|]. intros r [_ Hr]%list_elem_of_filter Er.
      pose proof (ok_in_project _ Hok1) as Hip. rewrite Forall_forall in Hip.
      destruct (Hip r Hr) as (p & Ep & _); [congruence|]. congruence. }
  destruct Hd as (Hh & Hge & Hgone). constructor; [done|lia|lia|]. intros w Hw. unfold of_project at 2.
  assert (Ew : filter (fun r => r_position r <= w) (of_project project db')
               = filter (fun r => r_position r <= w /\ md_pruned (metadata db' project) < r_position r)
                   (of_project project db1)).
  { unfold of_project at 1. rewrite Erows. rewrite !list_filter_filter. unfold of_project. rewrite list_filter_filter.
    apply filter_ext_in. intros r Hr. split.
    - intros ((Hle & Ep) & Hk). split; [|done]. split; [done|].
      apply (in_metadata db' project r Hok' Hne). unfold of_project. rewrite Erows.
      apply list_elem_of_filter. split; [done|]. by apply list_elem_of_filter.
    - intros ((Hle & Hlt) & Ep). split; [done|]. intros Hk. specialize (Hgone r).
      assert (r ∈ gone) as Hg by (by apply list_elem_of_filter). specialize (Hgone Hg Ep). lia. }
  rewrite Ew. unfold of_project. rewrite (ins_rows _ _ _ Hin), !filter_app. rewrite (filter_none _ (filter _ added)).
  - by rewrite app_nil_r.
  - apply Forall_forall. intros r [_ Hr]%list_elem_of_filter [Hle _]. pose proof (ins_added _ _ _ Hin) as Ha.
    rewrite Forall_forall in Ha. specialize (Ha r Hr). pose proof (head_bound db project Hok). lia.
Qed.

(** A row after an append was there before or stores an event of the batch. *)
Lemma appended_rows retention events db db' r : db_ok db -> append retention events db = Ok db' -> r ∈ db_rows db' ->
  r ∈ db_rows db \/ exists e, e ∈ events /\ stores e r.
Proof.
  intros Hok Happ Hr. destruct (append_unfold _ _ _ _ Hok Happ) as (db1 & added & Hok1 & Hin & _ & Erows & _ & _ & _ & _ & Hst).
  assert (Er : db_rows db' = drop (length (db_rows db1) - retention) (db_rows db1)) by (rewrite Erows; by apply kept_rows).
  rewrite Er, (ins_rows _ _ _ Hin) in Hr. apply subseteq_drop, elem_of_app in Hr as [?|?]; [by left|right; auto].
Qed.

(** C34: Retention keeps the newest traces and nothing else is lost: appending a
    batch keeps the invariant of the database (positions ascend, columns agree with
    the events they index, an event is stored once, counters of a project enclose its
    rows); every event of the batch is found among the rows that were there and the
    rows that were added; and what remains is exactly the last [retention] of them. *)
Theorem retention_keeps_the_newest retention events db db' :
  db_ok db -> append retention events db = Ok db' ->
  db_ok db' /\ exists added,
    (forall r, r ∈ added -> exists e, e ∈ events /\ stores e r) /\
    (forall e, e ∈ events -> exists r, r ∈ db_rows db ++ added /\ r_event_id r = ev_event_id e) /\
    db_rows db' = drop (length (db_rows db ++ added) - retention) (db_rows db ++ added).
Proof.
  intros Hok Happ. destruct (append_unfold _ _ _ _ Hok Happ)
    as (db1 & added & Hok1 & Hin & Hok' & Erows & _ & _ & _ & Hev & Hst).
  split; [done|]. exists added. rewrite <- (ins_rows _ _ _ Hin). split; [done|]. split; [done|].
  rewrite Erows. by apply kept_rows.
Qed.
End invariant.

(** * Databases over time *)
Section growth.
Context `{Json TraceEvent, SqliteJson, SqliteRowids}.

(** The database after some appends, of which the host may have any retention *)
Inductive grows : TraceDb -> TraceDb -> Prop :=
| grows_refl db : grows db db
| grows_append db db1 db' retention events : grows db db1 -> append retention events db1 = Ok db' -> grows db db'.

Lemma follows_refl db project : db_ok db -> project <> ""%string -> follows project db db.
Proof.
  intros Hok Hne. constructor; [done..|]. intros w Hw. apply filter_ext_in. intros r Hr.
  pose proof (in_metadata db project r Hok Hne Hr). lia.
Qed.
Lemma follows_trans project a b c : follows project a b -> follows project b c -> follows project a c.
Proof.
  intros [A1 A2 A3 A4] [K1 K2 K3 K4]. constructor; [congruence|lia|lia|]. intros w Hw. rewrite K4 by lia.
  transitivity (filter (fun r => md_pruned (metadata c project) < r_position r)
                  (filter (fun r => r_position r <= w) (of_project project b))).
  - rewrite list_filter_filter. apply list_filter_iff. naive_solver.
  - rewrite A4, list_filter_filter by done. apply list_filter_iff. intros r. lia.
Qed.
Lemma grows_follows project db db' : db_ok db -> project <> ""%string -> grows db db' -> db_ok db' /\ follows project db db'.
Proof.
  intros Hok Hne Hg. induction Hg as [db|db db1 db' ret events Hg IH Happ]; [split; [done|by apply follows_refl]|].
  destruct (IH Hok) as [Hok1 Hf]. destruct (append_follows _ _ _ _ project Hok1 Hne Happ) as [Hok' Hf'].
  split; [done|by eapply follows_trans].
Qed.
End growth.

(** * Paging through the history *)
#[global] Instance newer_trans : Transitive newer.
Proof. unfold newer. intros a b c. lia. Qed.
#[global] Instance newer_total : Total newer.
Proof. unfold newer. intros a b. lia. Qed.

Definition strictly_newer (a b : row) : Prop :=
  r_started_at_ms b < r_started_at_ms a \/ r_started_at_ms b = r_started_at_ms a /\ r_position b < r_position a.
Lemma strictly_newer_asym a b : strictly_newer a b -> ~ strictly_newer b a.
Proof. unfold strictly_newer. lia. Qed.

Definition with_cursor (q : HistoryQuery) (cursor : option string) : HistoryQuery :=
  {| hq_request_id := hq_request_id q; hq_connection_id := hq_connection_id q; hq_actor_name := hq_actor_name q;
     hq_actor_id := hq_actor_id q; hq_outcome := hq_outcome q; hq_from_ms := hq_from_ms q; hq_to_ms := hq_to_ms q;
     hq_limit := hq_limit q; hq_cursor := cursor |}.

(** How a walk ends *)
Inductive walk_end := AllShown | StartOver | MorePages.

Section paging.
Context `{Base64Url, Json HistoryCursor, Json ReplayCursor, Json filter_tuple, Json TraceEvent, SqliteJson, SqliteRowids}.
Context `{!Base64UrlLaws, !JsonLaws HistoryCursor, !JsonLaws ReplayCursor, !JsonLaws TraceEvent}.

(** A reader who asks for page after page, each from the database as it is then, until
    there is no next page or a page tells it to start over *)
Fixpoint walk (dbs : list TraceDb) (project : string) (q : HistoryQuery) (cursor : option string)
  : Result (list TraceRecord * walk_end) :=
  match dbs with
  | [] => Ok ([], MorePages)
  | db :: dbs =>
      page ← checked_history db project (with_cursor q cursor);
      if pg_reset page then Ok ([], StartOver)
      else match pg_next_cursor page with
           | None => Ok (pg_records page, AllShown)
           | Some c => '(records, e) ← walk dbs project q (Some c); Ok ((pg_records page ++ records)%list, e)
           end
  end.

Definition no_event : TraceEvent :=
  {| ev_event_id := ""; ev_host_id := ""; ev_session_id := ""; ev_trace := empty_trace "" |}.
Definition record_of (r : row) : TraceRecord :=
  {| rec_sequence := r_position r; rec_event := match from_slice (r_event r) with Ok e => e | Err _ => no_event end |}.

Lemma row_decodes db r : db_ok db -> r ∈ db_rows db ->
  decode_row r = Ok (record_of r) /\ tr_started_at_ms (ev_trace (rec_event (record_of r))) = r_started_at_ms r.
Proof.
  intros Hok Hr. pose proof (ok_rows _ Hok) as Hrows. rewrite Forall_forall in Hrows.
  destruct (Hrows r Hr) as (_ & e & _ & Eev & Est & _). unfold decode_row, record_of. rewrite Eev, json_roundtrip. by cbn.
Qed.
Lemma rows_decode db rows : db_ok db -> rows ⊆ db_rows db -> collect decode_row rows = Ok (map record_of rows).
Proof. intros Hok Hsub. apply collect_ok_total. intros r Hr. apply (row_decodes db); auto. Qed.

Lemma history_rows_in db project q w r : r ∈ history_rows db project q w <->
  r ∈ of_project project db /\ r_position r <= w /\ matches q r.
Proof. unfold history_rows. rewrite merge_sort_Permutation, list_elem_of_filter. naive_solver. Qed.
Lemma history_rows_sub db project q w : history_rows db project q w ⊆ db_rows db.
Proof. intros r [Hr _]%history_rows_in. by apply list_elem_of_filter in Hr as [_ Hr]. Qed.

Lemma sorted_positions_nodup rows : StronglySorted earlier rows -> NoDup (r_position <$> rows).
Proof.
  induction 1 as [|r rows _ IH Hr]; [constructor|]. cbn. constructor; [|done].
  intros (r' & Er & Hr')%list_elem_of_fmap. rewrite Forall_forall in Hr. specialize (Hr r' Hr'). unfold earlier in Hr. lia.
Qed.
Lemma strictly_sorted rows : NoDup (r_position <$> rows) -> StronglySorted newer rows -> StronglySorted strictly_newer rows.
Proof.
  intros Hnd. induction 1 as [|r rows _ IH Hr]; [constructor|]. cbn in Hnd. apply NoDup_cons in Hnd as [Hni Hnd].
  constructor; [by apply IH|]. rewrite Forall_forall in *. intros r' Hr'. specialize (Hr r' Hr').
  assert (r_position r <> r_position r') by (intros E; apply Hni; rewrite E; by apply list_elem_of_fmap_2).
  unfold newer in Hr. unfold strictly_newer. lia.
Qed.
Lemma history_rows_sorted db project q w : db_ok db -> StronglySorted strictly_newer (history_rows db project q w).
Proof.
  intros Hok. apply strictly_sorted; [|apply StronglySorted_merge_sort; apply _]. unfold history_rows.
  rewrite merge_sort_Permutation. apply sorted_positions_nodup, sorted_filter, sorted_filter, ok_sorted, Hok.
Qed.

(** Rows below a watermark do not change while nothing of the project is pruned. *)
Lemma history_rows_stable db db' project q w : db_ok db -> project <> ""%string ->
  follows project db db' -> md_pruned (metadata db' project) = md_pruned (metadata db project) ->
  w <= md_head (metadata db project) -> history_rows db' project q w = history_rows db project q w.
Proof.
  intros Hok Hne Hf Hp Hw. unfold history_rows. f_equal.
  transitivity (filter (fun r => matches q r) (filter (fun r => r_position r <= w) (of_project project db')));
    [rewrite list_filter_filter; apply list_filter_iff; naive_solver|].
  rewrite (fo_rows _ _ _ Hf) by done. rewrite list_filter_filter. apply filter_ext_in. intros r Hr.
  pose proof (in_metadata db project r Hok Hne Hr). naive_solver lia.
Qed.

(** ** One page *)
(** The cursor after [r] of a reader who started at [db] *)
Definition place (db : TraceDb) (project : string) (q : HistoryQuery) (r : row) : HistoryCursor :=
  {| hc_project_id := project; hc_generation := db_generation db; hc_watermark := md_head (metadata db project);
     hc_pruned := md_pruned (metadata db project); hc_time := r_started_at_ms r; hc_sequence := r_position r;
     hc_filters := filter_key q |}.

(** The database [db'] as a reader meets it who started at [db] *)
Record readable (project : string) (db db' : TraceDb) : Prop := {
  re_start : db_ok db;
  re_ok : db_ok db';
  re_project : project <> ""%string;
  re_follows : follows project db db';
  re_pruned : md_pruned (metadata db' project) = md_pruned (metadata db project);
  re_times : forall r, r ∈ of_project project db -> r_started_at_ms r <= MAX_SAFE_MS }.

Abbreviation all_rows db project q := (history_rows db project q (md_head (metadata db project))).

Lemma place_accepted project q db db' r : readable project db db' -> r ∈ all_rows db project q ->
  HistoryCursor_decode (encode (place db project q r)) project (filter_key q) (metadata db' project) = Ok (place db project q r).
Proof.
  intros [Hok Hok' Hne Hf Hp Ht] [Hr _]%history_rows_in. unfold HistoryCursor_decode, decode, encode.
  rewrite b64_roundtrip, json_roundtrip. cbn. specialize (Ht r Hr). pose proof (in_metadata db project r Hok Hne Hr) as Hpos.
  pose proof (head_bound db project Hok) as Hb. pose proof (ok_bounds _ Hok) as Hs. pose proof (ok_generation _ Hok) as Hg.
  pose proof (fo_head _ _ _ Hf) as Hh. cbn in *. rewrite !String.eqb_refl, (fo_generation _ _ _ Hf), String.eqb_refl. cbn.
  assert (is_empty (db_generation db) = false) as -> by (destruct (db_generation db); unfold len in Hg; cbn in Hg; [lia|done]).
  match goal with |- (if ?b then _ else _) = _ => destruct b eqn:E; [|done] end.
  repeat (apply orb_true_iff in E as [E|E]); bools; unfold MAX_SAFE_MS in *; lia.
Qed.

Definition cursor_after (db : TraceDb) (project : string) (q : HistoryQuery) (seen : list row) : option string :=
  (fun r => encode (place db project q r)) <$> last seen.
Definition rest_after (q : HistoryQuery) (db : TraceDb) (project : string) (seen rest : list row) : option string :=
  if (hq_limit q <? length rest)%nat then cursor_after db project q (seen ++ take (hq_limit q) rest) else None.

Lemma page_new project q db db' seen rest : readable project db db' -> (seen = [] -> db' = db) ->
  all_rows db project q = (seen ++ rest)%list ->
  HistoryPage_new project (with_cursor q (cursor_after db project q seen)) (metadata db' project)
  = Ok {| hp_project_id := project; hp_metadata := metadata db' project; hp_filters := filter_key q;
          hp_after := place db project q <$> last seen; hp_watermark := md_head (metadata db project); hp_reset := false |}.
Proof.
  intros Hre Hnil Hsplit. unfold HistoryPage_new, cursor_after. cbn [hq_cursor with_cursor].
  change (filter_key (with_cursor q _)) with (filter_key q).
  destruct (last seen) as [r|] eqn:El; cbn [fmap option_fmap option_map transpose].
  - rewrite place_accepted; [|done|rewrite Hsplit; apply last_Some_elem_of in El; set_solver].
    cbn [mbind Result_bind]. change (md_generation (metadata db' project)) with (db_generation db').
    cbn [hc_generation hc_pruned place hc_watermark]. rewrite (re_pruned _ _ _ Hre), Z.ltb_irrefl.
    rewrite (fo_generation _ _ _ (re_follows _ _ _ Hre)), String.eqb_refl. done.
  - apply last_None in El. rewrite (Hnil El). done.
Qed.

Lemma page_rows project q db db' seen rest : readable project db db' -> all_rows db project q = (seen ++ rest)%list ->
  select_history db' project (with_cursor q (cursor_after db project q seen)) (md_head (metadata db project))
    (place db project q <$> last seen) = Ok (map record_of (take (S (hq_limit q)) rest)).
Proof.
  intros Hre Hsplit. unfold select_history. cbn [hq_limit with_cursor].
  change (history_rows db' project (with_cursor q _) _) with (history_rows db' project q (md_head (metadata db project))).
  rewrite (history_rows_stable db) by (try apply Hre; done). rewrite Hsplit.
  assert (Hrest : (match place db project q <$> last seen with
          | Some c => filter (fun r => before (hc_time c) (hc_sequence c) r) (seen ++ rest)
          | None => seen ++ rest end)%list = rest).
  { destruct (last seen) as [r|] eqn:El; cbn; [|apply last_None in El; by subst]. apply last_Some in El as [pre ->].
    rewrite <- app_assoc in *. cbn in *. apply (filter_after strictly_newer); [exact strictly_newer_asym| |].
    - rewrite <- Hsplit. apply history_rows_sorted, Hre.
    - intros y Hy. unfold before, strictly_newer. rewrite Is_true_true, orb_true_iff, andb_true_iff.
      rewrite !Z.ltb_lt, Z.eqb_eq. cbn [hc_time hc_sequence place]. lia. }
  rewrite Hrest. apply (rows_decode db); [apply Hre|]. intros r Hr. apply (history_rows_sub db project q (md_head (metadata db project))).
  rewrite Hsplit. apply elem_of_app. right. by eapply subseteq_take.
Qed.

Lemma page_next project q db db' seen rest : readable project db db' -> (seen = [] -> db' = db) ->
  (1 <= hq_limit q)%nat -> all_rows db project q = (seen ++ rest)%list ->
  exists page, history db' project (with_cursor q (cursor_after db project q seen)) = Ok page /\
    pg_records page = map record_of (take (hq_limit q) rest) /\ pg_reset page = false /\
    pg_next_cursor page = rest_after q db project seen rest.
Proof.
  intros Hre Hnil Hlim Hsplit. unfold history. rewrite (page_new _ _ db _ _ rest) by done. cbn [mbind Result_bind hp_after hp_watermark].
  rewrite (page_rows _ _ db _ _ rest) by done. cbn [mbind Result_bind]. unfold HistoryPage_finish, rest_after.
  cbn [hp_project_id hp_metadata hp_filters hp_after hp_watermark hp_reset hq_limit with_cursor].
  rewrite length_map, length_take. rewrite <- firstn_map, take_take. replace (hq_limit q `min` S (hq_limit q))%nat with (hq_limit q) by lia.
  destruct (hq_limit q <? length rest)%nat eqn:Em.
  - apply Nat.ltb_lt in Em. assert ((hq_limit q <? S (hq_limit q) `min` length rest)%nat = true) as -> by (apply Nat.ltb_lt; lia).
    destruct (last (take (hq_limit q) rest)) as [r|] eqn:El;
      [|apply last_None in El; apply (f_equal length) in El; rewrite length_take in El; cbn in El; lia].
    assert (Hin : r ∈ all_rows db project q).
    { rewrite Hsplit. apply elem_of_app. right. apply last_Some_elem_of in El. by eapply subseteq_take. }
    rewrite firstn_map. change (map record_of ?l) with (record_of <$> l). rewrite fmap_last, El. cbn [fmap option_fmap option_map with_context mbind Result_bind].
    destruct (row_decodes db r) as [_ Est]; [apply Hre|by eapply history_rows_sub|]. rewrite Est.
    rewrite (re_pruned _ _ _ Hre). change (md_generation (metadata db' project)) with (db_generation db').
    rewrite (fo_generation _ _ _ (re_follows _ _ _ Hre)). eexists. split; [done|]. cbn [pg_records pg_next_cursor pg_reset]. split; [done|]. split; [done|].
    unfold cursor_after. by rewrite last_app, El.
  - apply Nat.ltb_ge in Em. assert ((hq_limit q <? S (hq_limit q) `min` length rest)%nat = false) as -> by (apply Nat.ltb_ge; lia).
    cbn [mbind Result_bind]. eexists. split; [done|]. cbn [pg_records pg_next_cursor pg_reset]. by rewrite firstn_map.
Qed.

(** A place in the history is given up, and the reader told to start over, once
    something of the project was pruned or the database was replaced. *)
Lemma history_restart project q db db' r : db_ok db -> project <> ""%string -> r ∈ all_rows db project q ->
  r_started_at_ms r <= MAX_SAFE_MS -> db_ok db' ->
  (db_generation db' <> db_generation db \/ follows project db db' /\
     md_pruned (metadata db project) < md_pruned (metadata db' project)) ->
  exists page, HistoryPage_new project (with_cursor q (Some (encode (place db project q r)))) (metadata db' project) = Ok page /\
    hp_reset page = true /\ hp_after page = None /\ hp_watermark page = md_head (metadata db' project).
Proof.
  intros Hok Hne [Hr _]%history_rows_in Ht Hok' Hmoved. unfold HistoryPage_new. cbn [hq_cursor with_cursor transpose].
  change (filter_key (with_cursor q _)) with (filter_key q). unfold HistoryCursor_decode, decode, encode.
  rewrite b64_roundtrip, json_roundtrip. cbn. pose proof (in_metadata db project r Hok Hne Hr) as Hpos.
  pose proof (head_bound db project Hok) as Hb. pose proof (ok_bounds _ Hok) as Hs. pose proof (ok_generation _ Hok) as Hg.
  assert (Hnonempty : is_empty (db_generation db) = false) by (destruct (db_generation db); unfold len in Hg; cbn in Hg; [lia|done]).
  cbn in *. rewrite !String.eqb_refl, Hnonempty. cbn [negb orb].
  destruct Hmoved as [Hgen|[Hf Hlt]].
  - rewrite (proj2 (String.eqb_neq (db_generation db) (db_generation db'))) by done. cbn [andb negb orb].
    match goal with |- context [if ?b then Err INVALID_QUERY else _] => destruct b eqn:E end.
    { exfalso. repeat (apply orb_true_iff in E as [E|E]); bools; unfold MAX_SAFE_MS in *; try lia; done. }
    cbn. rewrite (proj2 (String.eqb_neq (db_generation db) (db_generation db'))) by done. by eexists.
  - pose proof (fo_head _ _ _ Hf) as Hh. rewrite (fo_generation _ _ _ Hf), String.eqb_refl. cbn [andb negb orb].
    match goal with |- context [if ?b then Err INVALID_QUERY else _] => destruct b eqn:E end.
    { exfalso. cbn in *. repeat (apply orb_true_iff in E as [E|E]); bools; unfold MAX_SAFE_MS in *; try lia; done. }
    cbn. rewrite String.eqb_refl. cbn [negb orb].
    rewrite (proj2 (Z.ltb_lt _ _)) by done. by eexists.
Qed.
(** A page that is asked for after something of the project was pruned *)
Lemma page_reset project q db db' r cursor : db_ok db -> project <> ""%string -> (1 <= hq_limit q)%nat ->
  r ∈ all_rows db project q -> r_started_at_ms r <= MAX_SAFE_MS -> db_ok db' -> follows project db db' ->
  md_pruned (metadata db project) < md_pruned (metadata db' project) -> cursor = Some (encode (place db project q r)) ->
  exists page, history db' project (with_cursor q cursor) = Ok page /\ pg_reset page = true.
Proof.
  intros Hok Hne Hlim Hr Ht Hok' Hf Hlt ->. unfold history.
  destruct (history_restart project q db db' r) as (page & -> & Hreset & Hafter & _); try done; [by right|].
  cbn [mbind Result_bind]. rewrite Hafter. unfold select_history. rewrite (rows_decode db'); [|done|].
  2:{ intros x Hx%subseteq_take. by eapply history_rows_sub. }
  cbn [mbind Result_bind]. unfold HistoryPage_finish. rewrite Hreset. cbn [hq_limit with_cursor].
  destruct (hq_limit q <? _)%nat eqn:Em; [|by eexists]. apply Nat.ltb_lt in Em.
  destruct (list.last (take (hq_limit q) _)) eqn:El; [by eexists|].
  apply last_None in El. apply (f_equal length) in El. rewrite length_take in El. cbn in El. lia.
Qed.

(** The queries of a walk pass the checks, as long as its cursors fit. *)
Definition cursors_fit (db : TraceDb) (project : string) (q : HistoryQuery) : Prop :=
  forall r, r ∈ of_project project db -> 0 < len (encode (place db project q r)) <= 4096.
Lemma checked_page db db' project q seen : admin_component "project ID" project 64 = Ok tt ->
  HistoryQuery_validate (with_cursor q None) = Ok tt -> cursors_fit db project q -> seen ⊆ all_rows db project q ->
  checked_history db' project (with_cursor q (cursor_after db project q seen))
  = history db' project (with_cursor q (cursor_after db project q seen)).
Proof.
  intros Ep Ev Hfit Hseen. unfold checked_history. rewrite Ep. cbn [valid_query mbind Result_bind].
  assert (HistoryQuery_validate (with_cursor q (cursor_after db project q seen)) = Ok tt) as ->; [|done].
  revert Ev. unfold HistoryQuery_validate. cbn [with_cursor hq_request_id hq_connection_id hq_limit hq_cursor hq_from_ms hq_to_ms
    hq_actor_name hq_actor_id]. unfold cursor_after. destruct (last seen) as [r|] eqn:El; [|done].
  apply last_Some_elem_of, Hseen, history_rows_in in El as [Hr _]. specialize (Hfit r Hr).
  cbn [fmap option_fmap option_map is_none_or].
  assert (negb (is_empty (encode (place db project q r))) && (len (encode (place db project q r)) <=? 4096) = true) as ->; [|done].
  destruct (encode (place db project q r)); [unfold len in Hfit; cbn in Hfit; lia|]. cbn [is_empty negb andb]. apply Z.leb_le. lia.
Qed.

(** The databases that a reader meets who started at [db] *)
Record met (project : string) (db db' : TraceDb) : Prop := {
  met_start : db_ok db;
  met_ok : db_ok db';
  met_project : project <> ""%string;
  met_follows : follows project db db';
  met_times : forall r, r ∈ of_project project db -> r_started_at_ms r <= MAX_SAFE_MS }.
Definition walk_ends (project : string) (db : TraceDb) (dbs : list TraceDb) {A} (rest shown : list A) (e : walk_end) : Prop :=
  match e with
  | AllShown => shown = rest
  | StartOver => exists db', db' ∈ dbs /\ md_pruned (metadata db project) < md_pruned (metadata db' project)
  | MorePages => False
  end.
Lemma walk_ends_weaken project db db' dbs {A} (rest shown first : list A) e :
  walk_ends project db dbs rest shown e -> walk_ends project db (db' :: dbs) (first ++ rest) (first ++ shown) e.
Proof. destruct e; cbn; [by intros ->|intros (d & Hd & Hlt); exists d; set_solver|done]. Qed.

Lemma walk_rest project q db : admin_component "project ID" project 64 = Ok tt ->
  HistoryQuery_validate (with_cursor q None) = Ok tt -> cursors_fit db project q ->
  (1 <= hq_limit q)%nat -> forall dbs seen rest,
  (forall db', db' ∈ dbs -> met project db db') -> (seen = [] -> head dbs = Some db) -> dbs <> [] ->
  all_rows db project q = (seen ++ rest)%list -> (length rest <= hq_limit q * length dbs)%nat ->
  exists shown e, walk dbs project q (cursor_after db project q seen) = Ok (map record_of shown, e) /\
    shown `prefix_of` rest /\ walk_ends project db dbs rest shown e.
Proof.
  intros Ep Ev Hfit Hlim. induction dbs as [|db' dbs IH]; intros seen rest Hre Hnil Hne Hsplit Hlen; [done|]. cbn [walk].
  rewrite checked_page by (done || (rewrite Hsplit; set_solver)). destruct (Hre db') as [Hs Ho Hp Hf Ht]; [by left|].
  destruct (decide (md_pruned (metadata db' project) = md_pruned (metadata db project))) as [Ep'|Hlt].
  2:{ pose proof (fo_pruned _ _ _ Hf) as Hle. destruct (last seen) as [r|] eqn:El.
      2:{ apply last_None in El. apply Hnil in El. cbn in El. congruence. }
      assert (Hr : r ∈ all_rows db project q) by (rewrite Hsplit; apply last_Some_elem_of in El; set_solver).
      destruct (page_reset project q db db' r (cursor_after db project q seen)) as (page & -> & Hreset); try done.
      { apply Ht. by apply history_rows_in in Hr as [Hr _]. } { lia. } { unfold cursor_after. by rewrite El. }
      cbn [mbind Result_bind]. rewrite Hreset. exists [], StartOver. split; [done|]. split; [apply prefix_nil|].
      exists db'. split; [by left|lia]. }
  destruct (page_next project q db db' seen rest) as (page & -> & Hrec & Hreset & Hnext); try done.
  { intros E. specialize (Hnil E). cbn in Hnil. congruence. }
  cbn [mbind Result_bind]. rewrite Hreset, Hnext, Hrec. unfold rest_after. destruct (_ <? _)%nat eqn:Em.
  2:{ apply Nat.ltb_ge in Em. rewrite take_ge by lia. by exists rest, AllShown. }
  apply Nat.ltb_lt in Em.
  assert (Hne' : (seen ++ take (hq_limit q) rest)%list <> []).
  { intros E. apply (f_equal length) in E. rewrite length_app, length_take in E. cbn in E. lia. }
  assert (Hsome : is_Some (cursor_after db project q (seen ++ take (hq_limit q) rest)))
    by (unfold cursor_after; by rewrite fmap_is_Some, last_is_Some).
  destruct Hsome as [c Ec]. rewrite Ec, <- Ec.
  destruct (IH (seen ++ take (hq_limit q) rest)%list (drop (hq_limit q) rest)) as (shown & e & -> & Hpre & Hend).
  - intros db2 Hdb2. apply Hre. by right.
  - done.
  - destruct dbs; [cbn in Hlen; lia|done].
  - by rewrite <- app_assoc, take_drop.
  - rewrite length_drop. cbn in Hlen. lia.
  - cbn [mbind Result_bind]. exists (take (hq_limit q) rest ++ shown)%list, e. rewrite map_app. split; [done|].
    rewrite <- (take_drop (hq_limit q) rest) at 2 3. split; [by apply prefix_app|by apply walk_ends_weaken].
Qed.

(** C35: paging through the history shows every matching trace exactly once, newest
    first, although traces keep arriving between the requests.  For a query that passes
    the checks, with enough requests, the pages together are the traces that matched
    when the first one was asked for; or a page says to start over, which happens only
    if a trace of the project was pruned meanwhile, and until then they are a prefix of
    these traces.  Start times must fit a cursor (2^53 - 1), and the cursors must fit the
    4096 bytes that a query may carry. *)
Theorem paging_returns_every_trace_once db dbs project q :
  db_ok db -> admin_component "project ID" project 64 = Ok tt -> HistoryQuery_validate (with_cursor q None) = Ok tt ->
  (forall r, r ∈ of_project project db -> r_started_at_ms r <= MAX_SAFE_MS) -> cursors_fit db project q ->
  Forall (grows db) dbs ->
  (length (filter (fun r => matches q r) (of_project project db)) <= hq_limit q * S (length dbs))%nat ->
  exists rows records shown e, rows ≡ₚ filter (fun r => matches q r) (of_project project db) /\
    StronglySorted strictly_newer rows /\ collect decode_row rows = Ok records /\
    walk (db :: dbs) project q None = Ok (shown, e) /\ shown `prefix_of` records /\ walk_ends project db dbs records shown e.
Proof.
  intros Hok Hp Hv Ht Hfit Hdbs Hlen. set (rows := all_rows db project q).
  assert (Hne : project <> ""%string) by (by intros ->).
  assert (Hlim : (1 <= hq_limit q)%nat).
  { pose proof Hv as Hv'. unfold HistoryQuery_validate in Hv'. cbn [with_cursor hq_limit] in Hv'.
    apply bind_ok in Hv' as ([] & _ & Hv'). apply bind_ok in Hv' as ([] & Hl & _). apply ensure_ok in Hl. bools. by apply Nat.leb_le. }
  assert (Hperm : rows ≡ₚ filter (fun r => matches q r) (of_project project db)).
  { unfold rows, history_rows. rewrite merge_sort_Permutation. apply reflexive_eq, filter_ext_in. intros r Hr.
    pose proof (in_metadata db project r Hok Hne Hr). naive_solver lia. }
  assert (Hre : forall db', db' ∈ db :: dbs -> met project db db').
  { rewrite Forall_forall in Hdbs. intros db' [->|Hin]%elem_of_cons; [constructor; try done; by apply follows_refl|].
    destruct (grows_follows project db db' Hok Hne (Hdbs db' Hin)). by constructor. }
  destruct (walk_rest project q db Hp Hv Hfit Hlim (db :: dbs) [] rows) as (shown & e & Hw & [k Hpre] & Hend); try done;
    [by rewrite Hperm|].
  exists rows, (map record_of rows), (map record_of shown), e. split; [done|]. split; [by apply history_rows_sorted|].
  split; [by eapply rows_decode, history_rows_sub|]. split; [done|]. split; [exists (map record_of k); by rewrite Hpre, map_app|].
  destruct e; cbn in *; [by rewrite Hend| |done]. destruct Hend as (db' & [->|Hin]%elem_of_cons & Hlt); [lia|eauto].
Qed.

(** * Following the history *)
Definition rows_between (db : TraceDb) (project : string) (after upto : Z) : list row :=
  filter (fun r => after < r_position r <= upto) (of_project project db).

Lemma rows_between_sorted db project a b : db_ok db -> StronglySorted earlier (rows_between db project a b).
Proof. intros Hok. apply sorted_filter, sorted_filter, ok_sorted, Hok. Qed.
Lemma rows_between_sub db project a b : rows_between db project a b ⊆ db_rows db.
Proof. intros r [_ [_ Hr]%list_elem_of_filter]%list_elem_of_filter. done. Qed.
Lemma rows_between_trim db project a b n r : db_ok db -> last (take n (rows_between db project a b)) = Some r ->
  rows_between db project a (r_position r) = take n (rows_between db project a b) /\ a < r_position r <= b.
Proof.
  intros Hok Hl. pose proof (rows_between_sorted db project a b Hok) as Hs.
  assert (Hin : r ∈ rows_between db project a b) by (apply last_Some_elem_of in Hl; by eapply subseteq_take).
  apply list_elem_of_filter in Hin as [Hr _]. split; [|done].
  apply last_Some in Hl as [pre Hpre]. pose proof (take_drop n (rows_between db project a b)) as Htd.
  rewrite Hpre, <- app_assoc in Htd. cbn in Htd.
  transitivity (filter (fun y => r_position y <= r_position r) (rows_between db project a b)).
  - unfold rows_between. rewrite list_filter_filter. apply list_filter_iff. intros y. lia.
  - rewrite Hpre, <- Htd. rewrite <- Htd in Hs. apply (filter_until earlier); [exact earlier_asym|done|].
    intros y _. unfold earlier. lia.
Qed.

(** A page of a reader at position [p] *)
Lemma replay_page db project limit p : db_ok db -> project <> ""%string -> (1 <= limit)%nat ->
  p <= md_head (metadata db project) ->
  exists page, replay db project {| rq_cursor := Some (resume_cursor project (db_generation db) p); rq_limit := limit |} = Ok page /\
    pg_resume_cursor page = resume_cursor project (db_generation db) (pg_cursor page) /\
    p <= pg_cursor page <= md_head (metadata db project) /\
    pg_reset page = (p <? md_pruned (metadata db project)) /\
    (pg_reset page = false -> pg_records page = map record_of (rows_between db project p (pg_cursor page))) /\
    (pg_next_cursor page = None -> pg_cursor page = md_head (metadata db project)).
Proof.
  intros Hok Hne Hlim Hp. pose proof (head_bound db project Hok) as Hb. pose proof (ok_bounds _ Hok) as Hs.
  unfold replay, ReplayPage_new. cbn [rq_cursor rq_limit transpose]. unfold decode, resume_cursor at 1, encode at 1.
  rewrite b64_roundtrip, json_roundtrip. cbn [mbind Result_bind rc_project_id rc_position rc_generation].
  change (md_generation (metadata db project)) with (db_generation db). rewrite !String.eqb_refl. cbn [negb orb andb].
  rewrite (proj2 (Z.ltb_ge I64_MAX p)), (proj2 (Z.ltb_ge (md_head (metadata db project)) p)) by lia.
  cbn [orb mbind Result_bind rc_position fmap option_fmap option_map rp_metadata rp_after rp_reset rp_project_id negb].
  cbn [rc_generation rc_position]. rewrite String.eqb_refl. cbn [negb orb]. unfold select_replay. destruct (p <? md_pruned (metadata db project)) eqn:Er.
  - cbn [default from_option]. fold (rows_between db project 0 (md_head (metadata db project))).
    rewrite (rows_decode db); [|done|].
    2:{ intros r Hr%subseteq_take. rewrite merge_sort_Permutation in Hr. by eapply rows_between_sub. }
    cbn [mbind Result_bind]. unfold ReplayPage_finish. cbn [rp_after rp_metadata rp_project_id rp_reset mbind Result_bind].
    eexists. split; [done|]. cbn [pg_resume_cursor pg_cursor pg_reset pg_records pg_next_cursor].
    split; [done|]. split; [lia|]. done.
  - cbn [default from_option id]. fold (rows_between db project p (md_head (metadata db project))).
    rewrite (rows_decode db); [|done|intros r Hr%subseteq_take; by eapply rows_between_sub].
    cbn [mbind Result_bind]. unfold ReplayPage_finish. cbn [rp_after rp_metadata rp_project_id rp_reset].
    rewrite length_map, length_take, <- firstn_map, take_take. replace (limit `min` S limit)%nat with limit by lia.
    set (rows := rows_between db project p (md_head (metadata db project))).
    destruct (limit <? S limit `min` length rows)%nat eqn:Em.
    + apply Nat.ltb_lt in Em. destruct (last (take limit rows)) as [r|] eqn:El;
        [|apply last_None in El; apply (f_equal length) in El; rewrite length_take in El; cbn in El; lia].
      destruct (rows_between_trim _ _ _ _ _ _ Hok El) as [Et Hr].
      rewrite firstn_map. change (map record_of ?l) with (record_of <$> l). rewrite fmap_last, El.
      cbn [fmap option_fmap option_map with_context mbind Result_bind]. eexists. split; [done|].
      cbn [pg_resume_cursor pg_cursor pg_reset pg_records pg_next_cursor record_of rec_sequence].
      split; [done|]. split; [lia|]. split; [done|]. split; [|done]. intros _. rewrite Et. done.
    + apply Nat.ltb_ge in Em. cbn [mbind Result_bind]. eexists. split; [done|].
      cbn [pg_resume_cursor pg_cursor pg_reset pg_records pg_next_cursor].
      split; [done|]. split; [lia|]. split; [done|]. split; [|done]. intros _. rewrite firstn_map, take_ge by lia. done.
Qed.

(** A reader who keeps asking for what came after its last page; whether a page
    told it to start over, what it got, and its cursor at the end *)
Fixpoint follow (dbs : list TraceDb) (project : string) (limit : nat) (cursor : string)
  : Result (bool * list TraceRecord * string) :=
  match dbs with
  | [] => Ok (false, [], cursor)
  | db :: dbs =>
      page ← replay db project {| rq_cursor := Some cursor; rq_limit := limit |};
      '(reset, records, cursor) ← follow dbs project limit (pg_resume_cursor page);
      Ok (pg_reset page || reset, (pg_records page ++ records)%list, cursor)
  end.
(** Each database is an earlier one with traces appended. *)
Fixpoint growing (db : TraceDb) (dbs : list TraceDb) : Prop :=
  match dbs with
  | [] => True
  | db' :: dbs => grows db db' /\ growing db' dbs
  end.
Definition sequences (records : list TraceRecord) : list Z := rec_sequence <$> records.

(** What a reader who was at [p] and is at [p'] may count on *)
Record followed (project : string) (dbs : list TraceDb) (p p' : Z) (records : list TraceRecord) : Prop := {
  fw_position : p <= p';
  fw_ascending : StronglySorted Z.lt (sequences records);
  fw_within : Forall (fun n => p < n <= p') (sequences records);
  fw_complete : forall db r, db ∈ dbs -> r ∈ of_project project db -> p < r_position r <= p' -> record_of r ∈ records;
  fw_sound : forall x, x ∈ records -> exists db r, db ∈ dbs /\ r ∈ of_project project db /\ decode_row r = Ok x }.

Lemma growth_later project db dbs : db_ok db -> project <> ""%string -> growing db dbs -> forall db', db' ∈ dbs ->
  db_ok db' /\ follows project db db'.
Proof.
  revert db. induction dbs as [|d dbs IH]; intros db Hok Hne Hc db' Hin; [by apply elem_of_nil in Hin|].
  destruct Hc as [Hg Hc]. destruct (grows_follows project db d Hok Hne Hg) as [Hd Hf].
  apply elem_of_cons in Hin as [->|Hin]; [done|]. destruct (IH d Hd Hne Hc db' Hin) as [Hd' Hf'].
  split; [done|by eapply follows_trans].
Qed.

Lemma sequences_rows rows : StronglySorted earlier rows -> StronglySorted Z.lt (sequences (map record_of rows)).
Proof.
  induction 1 as [|r rows _ IH Hr]; [constructor|]. cbn. constructor; [done|]. rewrite Forall_forall in Hr. apply Forall_forall.
  intros n (x & -> & (r' & <- & Hr')%list_elem_of_In%in_map_iff)%list_elem_of_fmap. rewrite <- list_elem_of_In in Hr'.
  by apply Hr.
Qed.

(** One page and what follows it *)
Lemma followed_cons project db d dbs p p1 p2 records : db_ok db -> project <> ""%string -> growing db (d :: dbs) ->
  md_pruned (metadata d project) <= p <= p1 -> p1 <= md_head (metadata d project) ->
  followed project (d :: dbs) p1 p2 records ->
  followed project (db :: d :: dbs) p p2 (map record_of (rows_between d project p p1) ++ records).
Proof.
  intros Hok Hne [Hg Hc] Hp Hh [Hle Has Hw Hcomp Hsound]. destruct (grows_follows project db d Hok Hne Hg) as [Hd Hf].
  assert (Hfirst : Forall (fun n => p < n <= p1) (sequences (map record_of (rows_between d project p p1)))).
  { apply Forall_forall. intros n (x & -> & (r & <- & Hr)%list_elem_of_In%in_map_iff)%list_elem_of_fmap.
    rewrite <- list_elem_of_In in Hr. by apply list_elem_of_filter in Hr as [Hr _]. }
  rewrite Forall_forall in Hfirst, Hw. constructor.
  - lia.
  - unfold sequences in *. rewrite fmap_app. apply StronglySorted_app.
    split; [|split; [by apply sequences_rows, rows_between_sorted|done]].
    intros a b Ha Hb. specialize (Hfirst a Ha). specialize (Hw b Hb). lia.
  - unfold sequences in *. rewrite fmap_app. apply Forall_app. split; apply Forall_forall; intros n Hn;
      [specialize (Hfirst n Hn)|specialize (Hw n Hn)]; lia.
  - assert (Hlater : forall db' r, db' ∈ d :: dbs -> r ∈ of_project project db' -> p < r_position r <= p2 ->
      record_of r ∈ (map record_of (rows_between d project p p1) ++ records)%list).
    { intros db' r Hin Hr Hpos. apply elem_of_app. destruct (Z.le_gt_cases (r_position r) p1) as [Hlow|Hhigh].
      - left. apply list_elem_of_In, in_map, list_elem_of_In, list_elem_of_filter. split; [lia|].
        apply elem_of_cons in Hin as [->|Hin]; [done|]. destruct (growth_later project d dbs Hd Hne Hc db' Hin) as [Hok' Hf'].
        assert (Hr' : r ∈ filter (fun r => r_position r <= p1) (of_project project db')) by (by apply list_elem_of_filter).
        rewrite (fo_rows _ _ _ Hf') in Hr' by lia. by apply list_elem_of_filter in Hr' as [_ ?].
      - right. by apply (Hcomp db'); [| |lia]. }
    intros db' r [->|Hin]%elem_of_cons Hr Hpos; [|by apply (Hlater db')]. apply (Hlater d); [by left| |done].
    pose proof (in_metadata db project r Hok Hne Hr) as Hb.
    assert (Hr' : r ∈ filter (fun r => r_position r <= md_head (metadata db project)) (of_project project d)).
    { rewrite (fo_rows _ _ _ Hf) by lia. apply list_elem_of_filter. split; [lia|done]. }
    by apply list_elem_of_filter in Hr' as [_ ?].
  - intros x [Hx|Hx]%elem_of_app.
    + apply list_elem_of_In, in_map_iff in Hx as (r & <- & Hr). rewrite <- list_elem_of_In in Hr.
      exists d, r. split; [set_solver|]. split; [by apply list_elem_of_filter in Hr as [_ ?]|].
      apply (row_decodes d); [done|]. by eapply rows_between_sub.
    + destruct (Hsound x Hx) as (db' & r & ? & ?). exists db', r. split; [set_solver|done].
Qed.

(** A reader that keeps asking for what came after its last page misses nothing
    without being told: whatever is appended and pruned in between, either one of its
    pages says to start over, or it received, in ascending order and once each, every
    trace of its project that any of the databases it could have seen held between
    its first and its last position. *)
Theorem following_misses_nothing_silently project limit db dbs p :
  project <> ""%string -> (1 <= limit)%nat -> db_ok db -> growing db dbs -> p <= md_head (metadata db project) ->
  exists reset records p', follow dbs project limit (resume_cursor project (db_generation db) p)
      = Ok (reset, records, resume_cursor project (db_generation db) p') /\
    (reset = false -> followed project (db :: dbs) p p' records).
Proof.
  intros Hne Hlim. revert db p. induction dbs as [|d dbs IH]; intros db p Hok Hc Hp; cbn [follow].
  - exists false, [], p. split; [done|]. intros _. constructor; try done; try constructor; try lia.
    intros x Hx. by apply elem_of_nil in Hx.
  - pose proof Hc as [Hg Hc']. destruct (grows_follows project db d Hok Hne Hg) as [Hd Hf].
    pose proof (fo_head _ _ _ Hf) as Hh. rewrite <- (fo_generation _ _ _ Hf).
    destruct (replay_page d project limit p) as (page & -> & Ec & Hb & Er & Hrec & _); [done|done|done|lia|].
    cbn [mbind Result_bind]. rewrite Ec. destruct (IH d (pg_cursor page) Hd Hc') as (reset & records & p' & -> & Hfw); [lia|].
    cbn [mbind Result_bind]. exists (pg_reset page || reset), (pg_records page ++ records)%list, p'. split; [done|].
    intros [Hr ->]%orb_false_iff. rewrite (Hrec Hr). rewrite Hr in Er. symmetry in Er. bools.
    apply followed_cons; try done; try lia. by apply Hfw.
Qed.
End paging.

(** A start time that [RequestTrace_validate] accepts and a cursor may not carry: the
    next cursor of a page that ends with such a trace is refused. *)
Lemma late_trace_stops_paging `{Base64Url, Json HistoryCursor, Json ReplayCursor, Json filter_tuple,
    !Base64UrlLaws, !JsonLaws HistoryCursor, Json TraceEvent, SqliteJson} db project q r md :
  MAX_SAFE_MS < r_started_at_ms r ->
  HistoryCursor_decode (encode (place db project q r)) project (filter_key q) md = Err INVALID_QUERY.
Proof.
  intros Hlate. unfold HistoryCursor_decode, decode, encode. rewrite b64_roundtrip, json_roundtrip. cbn.
  rewrite (proj2 (Z.ltb_lt MAX_SAFE_MS (r_started_at_ms r))) by done. by rewrite !orb_true_r.
Qed.

(** * Examples *)
From S2P Require Import Samples.
Module TraceSamples.
#[export] Existing Instances Hex.hex_base64 Hex.hex_base64_laws.
#[export] Instance sample_f64_text : Text f64.
Proof.
  refine (via (fun x => match x with
                        | Finite q => (0, (QArith_base.Qnum q, QArith_base.Qden q))
                        | Infinite b => (if b then 1 else 2, (0, xH))
                        | NaN => (3, (0, xH))
                        end)
    (fun '(t, (n, d)) => Some (if t =? 0 then Finite (QArith_base.Qmake n d)
                               else if t =? 1 then Infinite true else if t =? 2 then Infinite false else NaN)) _).
  by intros [[]|[]|].
Defined.
#[export] Instance sample_outcome_text : Text RequestOutcome.
Proof.
  refine (via (fun o => match o with OutcomeCompleted => 0 | OutcomeFailed => 1 | OutcomeRejected => 2 | OutcomeRerouted => 3
                        | OutcomeInterrupted => 4 end)
    (fun n => Some (if n =? 0 then OutcomeCompleted else if n =? 1 then OutcomeFailed else if n =? 2 then OutcomeRejected
                    else if n =? 3 then OutcomeRerouted else OutcomeInterrupted)) _).
  by intros [].
Defined.
#[export] Instance sample_kind_text : Text RequestKind.
Proof.
  refine (via (fun k => match k with KindMethod => true | KindWebsocket => false end)
    (fun b => Some (if b : bool then KindMethod else KindWebsocket)) _). by intros [].
Defined.
#[export] Instance sample_trace_text : Text RequestTrace.
Proof.
  refine (via (fun t => (tr_state_version t, (tr_project_id t, (tr_request_id t, (tr_actor_name t, (tr_actor_id t,
                        (tr_kind t, (tr_operation t, (tr_connection_id t, (tr_started_at_ms t, (tr_duration_ms t,
                        (tr_queue_wait_ms t, (tr_outcome t, tr_metadata t)))))))))))))
    (fun '(a, (b, (c, (d, (e, (f, (g, (h, (i, (j, (k, (l, m)))))))))))) => Some (Build_RequestTrace a b c d e f g h i j k l m)) _).
  by intros [].
Defined.
#[export] Instance sample_event_text : Text TraceEvent.
Proof.
  refine (via (fun e => (ev_event_id e, (ev_host_id e, (ev_session_id e, ev_trace e))))
    (fun '(a, (b, (c, d))) => Some (Build_TraceEvent a b c d)) _). by intros [].
Defined.
#[export] Instance sample_history_cursor_text : Text HistoryCursor.
Proof.
  refine (via (fun c => (hc_project_id c, (hc_generation c, (hc_watermark c, (hc_pruned c, (hc_time c, (hc_sequence c,
                        hc_filters c)))))))
    (fun '(a, (b, (c, (d, (e, (f, g)))))) => Some (Build_HistoryCursor a b c d e f g)) _). by intros [].
Defined.
#[export] Instance sample_replay_cursor_text : Text ReplayCursor.
Proof.
  refine (via (fun c => (rc_project_id c, (rc_generation c, rc_position c)))
    (fun '(a, (b, c)) => Some (Build_ReplayCursor a b c)) _). by intros [].
Defined.
#[export] Instance sample_json : SqliteJson := {|
  extract_request_id s := match from_slice s with Ok e => Some (tr_request_id (ev_trace e)) | Err _ => None end;
  extract_connection_id s := match from_slice s with Ok e => tr_connection_id (ev_trace e) | Err _ => None end |}.
#[export] Instance sample_json_laws : SqliteJsonLaws.
Proof. split; intros e; cbn [extract_request_id extract_connection_id sample_json]; by rewrite json_roundtrip. Qed.
#[export] Instance sample_rowids : SqliteRowids := {| burns_position := fun _ => true |}.

Definition sample_event (id : string) : TraceEvent :=
  {| ev_event_id := id; ev_host_id := "host"; ev_session_id := "session"; ev_trace := empty_trace id |}.

Definition appended (retention : nat) (ids : list string) (db : TraceDb) : TraceDb :=
  match append retention (sample_event <$> ids) db with Ok db => db | Err _ => db end.
End TraceSamples.
Import TraceSamples.

Abbreviation db_start := (TraceDb_new "generation").
Abbreviation db_three := (appended 3 ["a"; "b"; "c"]%string db_start).
Abbreviation db_same := (appended 3 ["c"]%string db_three).
Abbreviation db_five := (appended 3 ["d"; "e"]%string db_three).
Lemma append_three : append 3 (sample_event <$> ["a"; "b"; "c"]%string) db_start = Ok db_three.
Proof. vm_compute. reflexivity. Qed.
Lemma append_same : append 3 (sample_event <$> ["c"]%string) db_three = Ok db_same.
Proof. vm_compute. reflexivity. Qed.
Lemma append_five : append 3 (sample_event <$> ["d"; "e"]%string) db_three = Ok db_five.
Proof. vm_compute. reflexivity. Qed.
Lemma db_start_ok : db_ok db_start.
Proof. apply TraceDb_new_ok. vm_compute. split; [reflexivity|discriminate]. Qed.
Lemma db_three_ok : db_ok db_three.
Proof. exact (append_ok _ _ _ _ db_start_ok append_three). Qed.

Lemma retention_keeps_the_newest_witness : length (db_rows db_five) = 3%nat /\ db_ok db_five /\
  exists added, (forall r, r ∈ added -> exists e, e ∈ sample_event <$> ["d"; "e"]%string /\ stores e r) /\
    (forall e, e ∈ sample_event <$> ["d"; "e"]%string -> exists r, r ∈ db_rows db_three ++ added /\ r_event_id r = ev_event_id e) /\
    db_rows db_five = drop (length (db_rows db_three ++ added) - 3) (db_rows db_three ++ added).
Proof. split; [reflexivity|]. exact (retention_keeps_the_newest 3 _ _ _ db_three_ok append_five). Defined.

Abbreviation two_a_page := (with_cursor {| hq_request_id := None; hq_connection_id := None; hq_actor_name := Some "Room"%string;
  hq_actor_id := None; hq_outcome := Some OutcomeCompleted; hq_from_ms := None; hq_to_ms := None; hq_limit := 2;
  hq_cursor := None |} None).
Lemma three_early : forall r, r ∈ of_project "p" db_three -> r_started_at_ms r <= MAX_SAFE_MS.
Proof.
  assert (Hall : forallb (fun r => r_started_at_ms r <=? MAX_SAFE_MS) (of_project "p" db_three) = true)
    by (vm_compute; reflexivity).
  intros r Hr. rewrite forallb_forall in Hall. apply Z.leb_le, Hall. by apply list_elem_of_In.
Qed.
Lemma three_fit : cursors_fit db_three "p" two_a_page.
Proof.
  assert (Hall : forallb (fun r => let l := len (encode (place db_three "p" two_a_page r)) in (0 <? l) && (l <=? 4096))
                   (of_project "p" db_three) = true) by (vm_compute; reflexivity).
  intros r Hr. rewrite forallb_forall in Hall. apply list_elem_of_In, Hall, andb_true_iff in Hr as [?%Z.ltb_lt ?%Z.leb_le]. lia.
Qed.
Lemma paging_returns_every_trace_once_witness :
  exists rows records shown e, rows ≡ₚ filter (fun r => matches two_a_page r) (of_project "p" db_three) /\
    StronglySorted strictly_newer rows /\ collect decode_row rows = Ok records /\
    walk [db_three; db_same] "p" two_a_page None = Ok (shown, e) /\ shown `prefix_of` records /\
    walk_ends "p" db_three [db_same] records shown e.
Proof.
  apply (paging_returns_every_trace_once db_three [db_same] "p" two_a_page db_three_ok).
  - reflexivity.
  - reflexivity.
  - exact three_early.
  - exact three_fit.
  - constructor; [|constructor]. eapply grows_append; [apply grows_refl|exact append_same].
  - vm_compute. lia.
Defined.
(** Both ways in which such a walk ends *)
Example walk_to_the_end : snd <$> walk [db_three; db_same] "p" two_a_page None = Ok AllShown.
Proof. vm_compute. reflexivity. Qed.
Example walk_past_pruning : snd <$> walk [db_three; db_five] "p" two_a_page None = Ok StartOver.
Proof. vm_compute. reflexivity. Qed.
Lemma following_misses_nothing_silently_witness :
  exists reset records p', follow [db_three; db_five] "p" 2 (resume_cursor "p" (db_generation db_start) 0)
      = Ok (reset, records, resume_cursor "p" (db_generation db_start) p') /\
    (reset = false -> followed "p" [db_start; db_three; db_five] 0 p' records).
Proof.
  apply (following_misses_nothing_silently "p" 2 db_start [db_three; db_five] 0).
  - discriminate.
  - lia.
  - exact db_start_ok.
  - split; [eapply grows_append; [apply grows_refl|exact append_three]|].
    split; [eapply grows_append; [apply grows_refl|exact append_five]|exact I].
  - vm_compute. discriminate.
Defined.
(** The traces that the reader asks for next were partly pruned: it is told. *)
Lemma following_notices_pruning :
  match follow [db_three; db_five] "p" 1 (resume_cursor "p" (db_generation db_start) 0) with
  | Ok (reset, records, _) => reset = true /\ sequences records = [1; 5]
  | Err _ => False
  end.
Proof. vm_compute. split; reflexivity. Qed.
