(* ===== verification/TraceStores.v ===== *)
(** The store of request traces in the control plane ([request_traces.rs],
    [TraceStore]): recording a batch of a host and reading with what was lost.

    A batch is written by a task of its own, which first takes one of 64 permits and
    then waits for the writer's lock; [tokio] decides which task gets it next.  The task
    appends the batch and, in a later step, notifies the readers and gives up lock and
    permit.  Shows that a trace that was accepted is written, waiting, or the store says
    that it lost some. *)

From S2P Require Import Prelude.
From S2P Require Import Actors.
From S2P Require Import StoragePaths.
From S2P Require Import Snapshots.
From S2P Require Import Deployments.
From S2P Require Import RequestTraces.
From S2P Require Import TraceHistory.
From S2P Require Import TracePaging.
Local Open Scope string_scope.
Local Open Scope Z_scope.

Definition PENDING_WRITES : nat := 64.

(** The task that has the writer's lock: before its append, or after it *)
Inductive writer :=
| Appending (events : list TraceEvent)
| Appended (events : list TraceEvent) (committed : bool).

(** [st_waiting] are the batches whose tasks hold a permit and wait for the writer's
    lock, [st_writing] the task that has it; [st_changes] counts the notifications. *)
Record TraceStore := {
  st_db : TraceDb;
  st_waiting : list (list TraceEvent);
  st_writing : option writer;
  st_dropped : gmap string Z;
  st_persistence_failed : bool;
  st_changes : Z }.
Definition TraceStore_new (db : TraceDb) : TraceStore :=
  {| st_db := db; st_waiting := []; st_writing := None; st_dropped := ∅; st_persistence_failed := false; st_changes := 0 |}.

Definition set_tasks (waiting : list (list TraceEvent)) (writing : option writer) (s : TraceStore) : TraceStore :=
  {| st_db := st_db s; st_waiting := waiting; st_writing := writing; st_dropped := st_dropped s;
     st_persistence_failed := st_persistence_failed s; st_changes := st_changes s |}.
Definition send_change (s : TraceStore) : TraceStore :=
  {| st_db := st_db s; st_waiting := st_waiting s; st_writing := st_writing s; st_dropped := st_dropped s;
     st_persistence_failed := st_persistence_failed s; st_changes := st_changes s + 1 |}.
Definition report_persistence_failure (s : TraceStore) : TraceStore :=
  send_change {| st_db := st_db s; st_waiting := st_waiting s; st_writing := st_writing s; st_dropped := st_dropped s;
                 st_persistence_failed := true; st_changes := st_changes s |}.
Definition count_dropped (project : string) (dropped : Z) (s : TraceStore) : TraceStore :=
  if 0 <? dropped then
    {| st_db := st_db s; st_waiting := st_waiting s; st_writing := st_writing s;
       st_dropped := <[project := saturating_add (default 0 (st_dropped s !! project)) dropped]> (st_dropped s);
       st_persistence_failed := st_persistence_failed s; st_changes := st_changes s |}
  else s.

Definition permits_held (s : TraceStore) : nat :=
  (length (st_waiting s) + match st_writing s with Some _ => 1 | None => 0 end)%nat.
(** [persist_detached], up to the point where its task waits for the writer *)
Definition persist_detached (events : list TraceEvent) (s : TraceStore) : TraceStore :=
  if is_nil events then send_change s
  else if (permits_held s <? PENDING_WRITES)%nat then set_tasks (st_waiting s ++ [events]) (st_writing s) s
  else report_persistence_failure s.

(** [new_event_id i] is the identifier made for the [i]-th trace. *)
Definition record_traces (project host session : string) (traces : list RequestTrace) (dropped : Z)
    (new_event_id : nat -> string) (s : TraceStore) : Result (list TraceEvent * TraceStore) :=
  admin_component "project ID" project 64;;
  ensure (forallb (fun t => String.eqb (tr_project_id t) project) traces) "trace project does not match host";;
  let events := imap (fun i t => {| ev_event_id := new_event_id i; ev_host_id := host; ev_session_id := session;
                                    ev_trace := t |}) traces in
  Ok (events, persist_detached events (count_dropped project dropped s)).

Section store.
Context `{Json TraceEvent, SqliteJson, SqliteRowids}.
(** [LOCAL_RETENTION] *)
Definition LOCAL_RETENTION : nat := Z.to_nat 10000.

(** The [i]-th of the waiting tasks gets the writer's lock. *)
Definition begin_write (i : nat) (s : TraceStore) : TraceStore :=
  match st_writing s, st_waiting s !! i with
  | None, Some events => set_tasks (delete i (st_waiting s)) (Some (Appending events)) s
  | _, _ => s
  end.
(** Its append ends; [disk] is whether the database accepts the transaction. *)
Definition append_write (disk : bool) (s : TraceStore) : TraceStore :=
  match st_writing s with
  | Some (Appending events) =>
      match (if disk then append LOCAL_RETENTION events (st_db s) else Err "disk I/O error") with
      | Ok db => {| st_db := db; st_waiting := st_waiting s; st_writing := Some (Appended events true);
                    st_dropped := st_dropped s; st_persistence_failed := st_persistence_failed s;
                    st_changes := st_changes s |}
      | Err _ => set_tasks (st_waiting s) (Some (Appended events false)) s
      end
  | _ => s
  end.
(** It tells the readers, and gives up the lock and its permit. *)
Definition end_write (s : TraceStore) : TraceStore :=
  match st_writing s with
  | Some (Appended _ committed) =>
      set_tasks (st_waiting s) None (if committed then send_change s else report_persistence_failure s)
  | _ => s
  end.

Context `{Base64Url, Json HistoryCursor, Json ReplayCursor, Json filter_tuple}.

Definition with_losses (project : string) (s : TraceStore) (p : TracePage) : TracePage :=
  {| pg_epoch := pg_epoch p; pg_cursor := pg_cursor p; pg_capacity := pg_capacity p; pg_evicted := pg_evicted p;
     pg_dropped := default 0 (st_dropped s !! project); pg_persistence_failed := st_persistence_failed s;
     pg_records := pg_records p; pg_next_cursor := pg_next_cursor p; pg_resume_cursor := pg_resume_cursor p;
     pg_reset := pg_reset p |}.
Definition TraceStore_replay (project : string) (q : ReplayQuery) (s : TraceStore) : Result TracePage :=
  valid_query (admin_component "project ID" project 64);;
  valid_query (ReplayQuery_validate q);;
  page ← replay (st_db s) project q;
  Ok (with_losses project s page).
Definition TraceStore_history (project : string) (q : HistoryQuery) (s : TraceStore) : Result TracePage :=
  page ← checked_history (st_db s) project q;
  Ok (with_losses project s page).
End store.

(** * What happens to a trace *)
Inductive store_input :=
| Recorded (project host session : string) (traces : list RequestTrace) (dropped : Z) (new_event_id : nat -> string)
| BeginWrite (i : nat)
| AppendWrite (disk : bool)
| EndWrite.

Section runs.
Context `{Json TraceEvent, SqliteJson, SqliteRowids}.

Definition store_step (i : store_input) (s : TraceStore) : TraceStore :=
  match i with
  | Recorded project host session traces dropped new_event_id =>
      match record_traces project host session traces dropped new_event_id s with Ok (_, s) => s | Err _ => s end
  | BeginWrite i => begin_write i s
  | AppendWrite disk => append_write disk s
  | EndWrite => end_write s
  end.
(** The events that a step accepts from a host, and those that it commits *)
Definition accepted_by (i : store_input) (s : TraceStore) : list TraceEvent :=
  match i with
  | Recorded project host session traces dropped new_event_id =>
      match record_traces project host session traces dropped new_event_id s with Ok (events, _) => events | Err _ => [] end
  | _ => []
  end.
Definition committed_by (i : store_input) (s : TraceStore) : list TraceEvent :=
  match i, st_writing s with
  | AppendWrite true, Some (Appending events) => match append LOCAL_RETENTION events (st_db s) with Ok _ => events | Err _ => [] end
  | _, _ => []
  end.
Fixpoint store_run (inputs : list store_input) (s : TraceStore) : TraceStore * list TraceEvent * list TraceEvent :=
  match inputs with
  | [] => (s, [], [])
  | i :: inputs =>
      let '(s', accepted, committed) := store_run inputs (store_step i s) in
      (s', (accepted_by i s ++ accepted)%list, (committed_by i s ++ committed)%list)
  end.

(** What the store has not committed, and not given up either *)
Definition uncommitted (w : writer) : list TraceEvent :=
  match w with Appending events | Appended events false => events | Appended _ true => [] end.
Definition pending (s : TraceStore) : list TraceEvent :=
  (concat (st_waiting s) ++ default [] (uncommitted <$> st_writing s))%list.

Lemma store_step_accounts i s : db_ok (st_db s) -> (permits_held s <= PENDING_WRITES)%nat ->
  db_ok (st_db (store_step i s)) /\ (permits_held (store_step i s) <= PENDING_WRITES)%nat /\
  (st_persistence_failed s = true -> st_persistence_failed (store_step i s) = true) /\
  exists lost, (pending s ++ accepted_by i s ≡ₚ committed_by i s ++ pending (store_step i s) ++ lost)%list /\
    (lost <> [] -> st_persistence_failed (store_step i s) = true).
Proof.
  intros Hok Hp. destruct i as [project host session traces dropped ids|i|disk|]; cbn [store_step accepted_by committed_by].
  - destruct (record_traces project host session traces dropped ids s) as [[events s']|e] eqn:E.
    2:{ split; [done|]. split; [done|]. split; [done|]. exists []. by rewrite !app_nil_r. }
    unfold record_traces in E. res_inv. set (events := imap _ traces).
    assert (Hc : forall P : TraceStore -> Prop, P s -> (forall d, P {| st_db := st_db s; st_waiting := st_waiting s;
        st_writing := st_writing s; st_dropped := d; st_persistence_failed := st_persistence_failed s;
        st_changes := st_changes s |}) -> P (count_dropped project dropped s)).
    { intros P HP HP'. unfold count_dropped. case_match; [apply HP'|done]. }
    unfold persist_detached. destruct (is_nil events) eqn:En.
    { destruct events; [|done]. apply Hc; intros; (split; [done|]; split; [done|]; split; [done|]; exists []; by rewrite !app_nil_r). }
    destruct (permits_held (count_dropped project dropped s) <? PENDING_WRITES)%nat eqn:Eh.
    + apply Nat.ltb_lt in Eh. assert (Hlt : (permits_held s < PENDING_WRITES)%nat) by (revert Eh; apply Hc; done). clear Eh.
      apply Hc; intros; (split; [done|]; split; [unfold permits_held in *; cbn; rewrite length_app; cbn; lia|]; split; [done|];
        exists []; split; [|done]; unfold pending; cbn; rewrite concat_app; cbn; rewrite !app_nil_r; solve_Permutation).
    + apply Hc; intros; (split; [done|]; split; [done|]; split; [done|]; exists events; split; [|done]; unfold pending; cbn; solve_Permutation).
  - unfold begin_write. destruct (st_writing s) as [w|] eqn:Ew.
    { split; [done|]. split; [done|]. split; [done|]. exists []. by rewrite !app_nil_r. }
    destruct (st_waiting s !! i) as [events|] eqn:Ei.
    2:{ split; [done|]. split; [done|]. split; [done|]. exists []. by rewrite !app_nil_r. }
    split; [done|]. split.
    { unfold permits_held in *. cbn. rewrite length_delete by (by eexists). rewrite Ew in Hp.
      apply lookup_lt_Some in Ei. lia. }
    split; [done|]. exists []. split; [|done]. unfold pending. cbn. rewrite Ew. cbn. rewrite !app_nil_r.
    rewrite (delete_Permutation _ _ _ Ei) at 1. cbn. solve_Permutation.
  - assert (Hsame : db_ok (st_db s) /\ (permits_held s <= PENDING_WRITES)%nat /\ (st_persistence_failed s = true ->
        st_persistence_failed s = true) /\ exists lost, (pending s ++ [] ≡ₚ [] ++ pending s ++ lost)%list /\
        (lost <> [] -> st_persistence_failed s = true)) by (split_and!; try done; exists []; by rewrite !app_nil_r).
    unfold append_write. destruct (st_writing s) as [[events|events ok]|] eqn:Ew; [|by destruct disk..].
    assert (Hp' : (length (st_waiting s) + 1 <= PENDING_WRITES)%nat) by (unfold permits_held in Hp; by rewrite Ew in Hp).
    assert (Epend : (pending s ++ [])%list = (concat (st_waiting s) ++ events)%list)
      by (unfold pending; rewrite Ew; by rewrite app_nil_r).
    rewrite Epend. destruct disk; [destruct (append LOCAL_RETENTION events (st_db s)) as [db'|e] eqn:Ea|].
    1: split; [by eapply append_ok|].
    2-3: split; [done|].
    all: split; [done|]; split; [done|]; exists []; split; [|done]; unfold pending; cbn; rewrite !app_nil_r; solve_Permutation.
  - unfold end_write. destruct (st_writing s) as [[events|events ok]|] eqn:Ew.
    1,3: split; [done|]; split; [done|]; split; [done|]; exists []; by rewrite !app_nil_r.
    split; [by destruct ok|]. split; [unfold permits_held in *; rewrite Ew in Hp; destruct ok; cbn; lia|].
    split; [by destruct ok|]. exists (if ok then [] else events). split; [|by destruct ok].
    unfold pending. rewrite Ew. destruct ok; cbn; rewrite !app_nil_r; solve_Permutation.
Qed.

Lemma store_run_accounts inputs : forall s, db_ok (st_db s) -> (permits_held s <= PENDING_WRITES)%nat ->
  forall s' accepted committed, store_run inputs s = (s', accepted, committed) ->
  db_ok (st_db s') /\ (permits_held s' <= PENDING_WRITES)%nat /\
  (st_persistence_failed s = true -> st_persistence_failed s' = true) /\
  exists lost, (pending s ++ accepted ≡ₚ committed ++ pending s' ++ lost)%list /\
    (lost <> [] -> st_persistence_failed s' = true).
Proof.
  induction inputs as [|i inputs IH]; intros s Hok Hp s' accepted committed; cbn [store_run].
  - intros [= <- <- <-]. split; [done|]. split; [done|]. split; [done|]. exists []. by rewrite !app_nil_r.
  - destruct (store_run inputs (store_step i s)) as [[s1 acc] com] eqn:Er. intros [= <- <- <-].
    destruct (store_step_accounts i s Hok Hp) as (Hok1 & Hp1 & Hm & lost1 & Hl1 & Hf1).
    destruct (IH _ Hok1 Hp1 _ _ _ Er) as (Hok' & Hp' & Hm' & lost2 & Hl2 & Hf2).
    split; [done|]. split; [done|]. split; [auto|]. exists (lost1 ++ lost2)%list. split.
    + rewrite app_assoc, Hl1. transitivity (committed_by i s ++ (pending (store_step i s) ++ acc) ++ lost1)%list.
      { solve_Permutation. } rewrite Hl2. solve_Permutation.
    + intros Hne. destruct lost2; [|by apply Hf2]. apply Hm', Hf1. by rewrite app_nil_r in Hne.
Qed.

(** The control plane loses no trace without saying so: however batches arrive
    and in whichever order their writers run, every trace that was accepted from a
    host is committed to the database, waits for one of at most 64 pending writes, or
    the store reports that persistence failed. *)
Theorem accepted_traces_are_kept_or_reported inputs generation s accepted committed :
  0 < len generation <= 64 ->
  store_run inputs (TraceStore_new (TraceDb_new generation)) = (s, accepted, committed) ->
  db_ok (st_db s) /\ (permits_held s <= PENDING_WRITES)%nat /\
  exists lost, (accepted ≡ₚ committed ++ pending s ++ lost)%list /\ (lost <> [] -> st_persistence_failed s = true).
Proof.
  intros Hg Hrun. destruct (store_run_accounts inputs (TraceStore_new (TraceDb_new generation))
    (TraceDb_new_ok _ Hg) ltac:(unfold permits_held; cbn; lia) _ _ _ Hrun) as (? & ? & _ & lost & ? & ?).
  split; [done|]. split; [done|]. by exists lost.
Qed.
End runs.

Import TraceSamples.
Abbreviation store_inputs :=
  [Recorded "p" "host" "session" [empty_trace "a"] 2 (fun _ => "a"); Recorded "p" "host" "session" [empty_trace "b"] 0 (fun _ => "b");
   BeginWrite 1; AppendWrite true; EndWrite; BeginWrite 0; AppendWrite false;
   Recorded "p" "host" "session" [empty_trace "c"] 0 (fun _ => "c"); EndWrite]%string.
Abbreviation store_final := (store_run store_inputs (TraceStore_new (TraceDb_new "generation"))).
Lemma accepted_traces_are_kept_or_reported_witness :
  db_ok (st_db store_final.1.1) /\ (permits_held store_final.1.1 <= PENDING_WRITES)%nat /\
  exists lost, (store_final.1.2 ≡ₚ store_final.2 ++ pending store_final.1.1 ++ lost)%list /\
    (lost <> [] -> st_persistence_failed store_final.1.1 = true).
Proof.
  apply (accepted_traces_are_kept_or_reported store_inputs "generation").
  - vm_compute. split; [reflexivity|discriminate].
  - by destruct store_final as [[]].
Defined.
Lemma store_losing_a_batch :
  (ev_event_id <$> store_final.1.2, ev_event_id <$> store_final.2, ev_event_id <$> pending store_final.1.1,
   st_persistence_failed store_final.1.1) = (["a"; "b"; "c"], ["b"], ["c"], true)%string.
Proof. vm_compute. reflexivity. Qed.
