(* ===== verification/SocketRegistry.v ===== *)
(** The registry of browser connections of a host ([sockets/mod.rs]).

    The registry maps actors to their connections.  Each connection has an
    outbound channel of 32 messages; a sender whose message does not fit marks the
    channel as overflown in a step of its own, and its receiver sees only a close from
    then on.  Tasks share the registry behind a lock, so an operation is a program over
    [registry_request]: one request is what the code does while it holds the lock, one
    [try_send] into a channel after releasing it, or one cancellation of an overflow
    token.  A request under the lock that sends to several channels does so in one
    step, and its cancellations follow it; what a single channel sees does not depend
    on that.  Theorems about every list of requests are theorems about every
    interleaving of tasks.

    The order in which a [HashMap] is iterated is the parameter [HashIter]. *)

From S2P Require Import Prelude.
From S2P Require Import Calls.
From S2P Require Import Actors.
Local Open Scope string_scope.
Local Open Scope Z_scope.

Class HashIter := hash_iter : forall {K} `{Countable K} {V}, gmap K V -> list (K * V).
Class HashIterLaw `{HashIter} : Prop :=
  hash_iter_permutation : forall {K} `{Countable K} {V} (m : gmap K V), Permutation (hash_iter m) (map_to_list m).

Definition MAX_CONNECTIONS_PER_ACTOR : nat := 128.
Definition CHANNEL_CAPACITY : nat := 32.

Inductive OutboundMessage :=
| OutMessage (message : ActorSocketMessage)
| OutControl (value : Value)
| OutClose (code : Z) (reason : string).
#[global] Instance OutboundMessage_eq_dec : EqDecision OutboundMessage.
Proof. solve_decision. Defined.

(** * Channels

    What a sender and a receiver share: the queue of the [mpsc] channel, the
    overflow token, and whether the receiver still exists.  [cancelling] counts the
    senders whose [try_send] has failed and that have not cancelled the token yet.
    [attempts] and [received] are history: every message given to [try_send] with
    whether it was taken, and every result of [recv]. *)
Record channel := {
  queue : list OutboundMessage;
  overflow : bool;
  cancelling : nat;
  receiving : bool;
  attempts : list (OutboundMessage * bool);
  received : list OutboundMessage }.

Definition socket_channel : channel :=
  {| queue := []; overflow := false; cancelling := 0; receiving := true; attempts := []; received := [] |}.

(** The two steps of [SocketSender::send]: [try_send] fails when the queue is full or
    the receiver is gone; a sender that it failed for then cancels the overflow token. *)
Definition try_send (message : OutboundMessage) (ch : channel) : bool * channel :=
  if receiving ch && (length (queue ch) <? CHANNEL_CAPACITY)%nat then
    (true, {| queue := queue ch ++ [message]; overflow := overflow ch; cancelling := cancelling ch;
              receiving := receiving ch; attempts := attempts ch ++ [(message, true)]; received := received ch |})
  else
    (false, {| queue := queue ch; overflow := overflow ch; cancelling := S (cancelling ch);
               receiving := receiving ch; attempts := attempts ch ++ [(message, false)]; received := received ch |}).
Definition cancel_overflow (ch : channel) : channel :=
  match cancelling ch with
  | O => ch
  | S n => {| queue := queue ch; overflow := true; cancelling := n; receiving := receiving ch;
              attempts := attempts ch; received := received ch |}
  end.

Definition QUEUE_FULL : OutboundMessage := OutClose 1013 "socket output queue is full".

(** [SocketReceiver::recv], when it returns: the overflow token is polled first.
    [None] is a receiver that still waits; [senders_gone] says whether all senders
    have been dropped. *)
Definition recv (senders_gone : bool) (ch : channel) : option (option OutboundMessage) * channel :=
  if overflow ch then
    (Some (Some QUEUE_FULL),
     {| queue := queue ch; overflow := overflow ch; cancelling := cancelling ch; receiving := receiving ch;
        attempts := attempts ch; received := received ch ++ [QUEUE_FULL] |})
  else
    match queue ch with
    | message :: rest =>
        (Some (Some message),
         {| queue := rest; overflow := overflow ch; cancelling := cancelling ch; receiving := receiving ch;
            attempts := attempts ch; received := received ch ++ [message] |})
    | [] => (if senders_gone then Some None else None, ch)
    end.

(** The receiver is dropped with its session. *)
Definition drop_receiver (ch : channel) : channel :=
  {| queue := queue ch; overflow := overflow ch; cancelling := cancelling ch; receiving := false;
     attempts := attempts ch; received := received ch |}.

(** * The registry *)
Abbreviation SocketSender := nat (only parsing).

Record RegisteredSocket := {
  connection : ActorSocketConnection;
  outbound : SocketSender;
  open : bool;
  state_ready : bool }.

(** [inventory_changes] is a [watch] of unit: it counts its notifications.
    [channels] holds the channels that senders and receivers refer to. *)
Record SocketRegistry := {
  inventory_changes : nat;
  entries : gmap ActorKey (gmap string RegisteredSocket);
  activity : nat;
  channels : gmap SocketSender channel }.

Definition SocketRegistry_default : SocketRegistry :=
  {| inventory_changes := 0; entries := ∅; activity := 0; channels := ∅ |}.

Definition with_entries (f : gmap ActorKey (gmap string RegisteredSocket) -> gmap ActorKey (gmap string RegisteredSocket))
    (r : SocketRegistry) : SocketRegistry :=
  {| inventory_changes := inventory_changes r; entries := f (entries r);
     activity := activity r; channels := channels r |}.
Definition with_channels (f : gmap SocketSender channel -> gmap SocketSender channel)
    (r : SocketRegistry) : SocketRegistry :=
  {| inventory_changes := inventory_changes r; entries := entries r;
     activity := activity r; channels := f (channels r) |}.
(** [self.inventory_changes.send_replace(())] *)
Definition notify_inventory (r : SocketRegistry) : SocketRegistry :=
  {| inventory_changes := S (inventory_changes r); entries := entries r;
     activity := activity r; channels := channels r |}.

(** [entries.get_mut(actor).and_then(|connections| connections.get_mut(id))] *)
Definition get_entry (actor : ActorKey) (id : string) (r : SocketRegistry) : option RegisteredSocket :=
  connections ← entries r !! actor; connections !! id.
Definition set_entry (actor : ActorKey) (id : string) (e : RegisteredSocket) : SocketRegistry -> SocketRegistry :=
  with_entries (alter (<[id := e]>) actor).

(** [sender.try_send(message)] on a channel of the registry *)
Definition push (s : SocketSender) (message : OutboundMessage) (r : SocketRegistry) : bool * SocketRegistry :=
  match channels r !! s with
  | Some ch =>
      let sent := try_send message ch in
      (sent.1, with_channels (<[s := sent.2]>) r)
  | None => (false, r)
  end.

Definition state_control (state : Value) (version : Z) : Value :=
  Object [("state", state); ("type", Str "state"); ("version", Number (show_u64 version))].
Definition state_update_control (changes : Value) (removed : list string) (version : Z) : Value :=
  Object [("changes", changes); ("removed", Array (Str <$> removed)); ("type", Str "state_update");
          ("version", Number (show_u64 version))].

Section registry.
Context `{HashIter}.

Definition values {V} (m : gmap string V) : list V := snd <$> hash_iter m.

(** [entries.values().map(HashMap::len).sum()] *)
Definition total (m : gmap ActorKey (gmap string RegisteredSocket)) : nat :=
  sum_list (size <$> (snd <$> hash_iter m)).
Definition replace_activity (r : SocketRegistry) : SocketRegistry :=
  {| inventory_changes := inventory_changes r; entries := entries r;
     activity := total (entries r); channels := channels r |}.

Definition insert (actor : ActorKey) (c : ActorSocketConnection) (s : SocketSender)
    (r : SocketRegistry) : bool * SocketRegistry :=
  let connections := default ∅ (entries r !! actor) in
  let r := with_entries (<[actor := connections]>) r in
  if (MAX_CONNECTIONS_PER_ACTOR <=? size connections)%nat then (false, r)
  else
    let entry := {| connection := c; outbound := s; open := false; state_ready := false |} in
    (true, replace_activity (with_entries (<[actor := <[conn_id c := entry]> connections]>) r)).

Definition remove (actor : ActorKey) (id : string) (r : SocketRegistry) : option ActorSocketConnection * SocketRegistry :=
  match entries r !! actor with
  | None => (None, r)
  | Some connections =>
      let removed := connection <$> connections !! id in
      let connections := delete id connections in
      let r := with_entries (<[actor := connections]>) r in
      let r := if decide (connections = ∅) then with_entries (delete actor) r else r in
      let r := replace_activity r in
      (removed, match removed with Some _ => notify_inventory r | None => r end)
  end.

Definition connections (actor : ActorKey) (r : SocketRegistry) : list ActorSocketConnection :=
  match entries r !! actor with
  | Some connections => connection <$> filter (fun e => open e) (values connections)
  | None => []
  end.

Definition id_before (a b : ActorSocketConnection) : Prop := String.leb (conn_id a) (conn_id b) = true.
#[global] Instance id_before_dec a b : Decision (id_before a b).
Proof. unfold id_before. apply _. Defined.
(** comparing the pairs of actor name and actor id *)
Definition actor_before (a b : ActorSocketInventory) : Prop :=
  match String.compare (actor_name (si_actor a)) (actor_name (si_actor b)) with
  | Lt => True
  | Gt => False
  | Eq => String.leb (actor_id (si_actor a)) (actor_id (si_actor b)) = true
  end.
#[global] Instance actor_before_dec a b : Decision (actor_before a b).
Proof. unfold actor_before. destruct String.compare; apply _. Defined.

Definition inventory (r : SocketRegistry) : list ActorSocketInventory :=
  merge_sort actor_before
    (omap (fun '(actor, sockets) =>
       let connections := merge_sort id_before (connection <$> filter (fun e => open e) (values sockets)) in
       if is_nil connections then None
       else Some {| si_actor := actor; si_connections := connections |}) (hash_iter (entries r))).

(** The recipients of a broadcast *)
Definition tags_match (tags : list string) (tag_match : ActorSocketTagMatch) (c : ActorSocketConnection) : bool :=
  is_nil tags
  || match tag_match with
     | All => forallb (fun tag => bool_decide (tag ∈ conn_tags c)) tags
     | Any => existsb (fun tag => bool_decide (tag ∈ conn_tags c)) tags
     end.
Definition is_recipient (except_connection_ids tags : list string) (tag_match : ActorSocketTagMatch)
    (e : RegisteredSocket) : bool :=
  open e && negb (bool_decide (conn_id (connection e) ∈ except_connection_ids))
  && tags_match tags tag_match (connection e).
Definition recipients (actor : ActorKey) (except_connection_ids tags : list string)
    (tag_match : ActorSocketTagMatch) (r : SocketRegistry) : list SocketSender :=
  match entries r !! actor with
  | Some connections =>
      outbound <$> filter (fun e => is_recipient except_connection_ids tags tag_match e) (values connections)
  | None => []
  end.

Definition sender (actor : ActorKey) (id : string) (r : SocketRegistry) : option SocketSender :=
  outbound <$> get_entry actor id r.

Definition activate (actor : ActorKey) (id : string) (r : SocketRegistry) : SocketRegistry :=
  match get_entry actor id r with
  | Some e =>
      notify_inventory (set_entry actor id
        {| connection := connection e; outbound := outbound e; open := true; state_ready := state_ready e |} r)
  | None => r
  end.

(** The parts of [apply_one] that run under the lock, with the senders that are refused *)
Fixpoint push_all (ss : list SocketSender) (m : OutboundMessage) (r : SocketRegistry)
  : list SocketSender * SocketRegistry :=
  match ss with
  | [] => ([], r)
  | s :: ss =>
      let sent := push s m r in
      let rest := push_all ss m sent.2 in
      (if sent.1 then rest.1 else s :: rest.1, rest.2)
  end.
Definition apply_state_snapshot (actor : ActorKey) (id : string) (state : Value) (version : Z)
    (r : SocketRegistry) : list SocketSender * SocketRegistry :=
  match get_entry actor id r with
  | Some e =>
      push_all [outbound e] (OutControl (state_control state version))
        (set_entry actor id
           {| connection := connection e; outbound := outbound e; open := open e; state_ready := true |} r)
  | None => ([], r)
  end.

Definition wants_update (except_connection_ids : list string) (e : RegisteredSocket) : bool :=
  state_ready e && negb (bool_decide (conn_id (connection e) ∈ except_connection_ids)).
Definition apply_state_update (actor : ActorKey) (changes : Value) (removed except_connection_ids : list string)
    (version : Z) (r : SocketRegistry) : list SocketSender * SocketRegistry :=
  match entries r !! actor with
  | Some connections =>
      push_all (outbound <$> filter (fun e => wants_update except_connection_ids e) (values connections))
        (OutControl (state_update_control changes removed version)) r
  | None => ([], r)
  end.

Definition apply_set_metadata (actor : ActorKey) (id : string) (metadata : Value) (r : SocketRegistry) : SocketRegistry :=
  match get_entry actor id r with
  | Some e =>
      let c := connection e in
      notify_inventory (set_entry actor id
        {| connection := {| conn_id := conn_id c; conn_metadata := metadata; conn_tags := conn_tags c |};
           outbound := outbound e; open := open e; state_ready := state_ready e |} r)
  | None => r
  end.

Definition apply_set_tags (actor : ActorKey) (id : string) (tags : list string) (r : SocketRegistry) : SocketRegistry :=
  match get_entry actor id r with
  | Some e =>
      let c := connection e in
      set_entry actor id
        {| connection := {| conn_id := conn_id c; conn_metadata := conn_metadata c; conn_tags := tags |};
           outbound := outbound e; open := open e; state_ready := state_ready e |} r
  | None => r
  end.

(** * Requests

    [Register] is what a new session does first: it makes a channel and inserts
    its sender.  [Recv] and [DropReceiver] are the session's end of the channel. *)
Inductive registry_request : Type -> Type :=
| Register (actor : ActorKey) (c : ActorSocketConnection) : registry_request (bool * SocketSender)
| Remove (actor : ActorKey) (id : string) : registry_request (option ActorSocketConnection)
| Connections (actor : ActorKey) : registry_request (list ActorSocketConnection)
| Inventory : registry_request (list ActorSocketInventory)
| Activate (actor : ActorKey) (id : string) : registry_request unit
| PushSnapshot (actor : ActorKey) (id : string) (state : Value) (version : Z) : registry_request (list SocketSender)
| PushUpdate (actor : ActorKey) (changes : Value) (removed except_connection_ids : list string) (version : Z)
  : registry_request (list SocketSender)
| SetMetadata (actor : ActorKey) (id : string) (metadata : Value) : registry_request unit
| SetTags (actor : ActorKey) (id : string) (tags : list string) : registry_request unit
| Recipients (actor : ActorKey) (except_connection_ids tags : list string) (tag_match : ActorSocketTagMatch)
  : registry_request (list SocketSender)
| Sender (actor : ActorKey) (id : string) : registry_request (option SocketSender)
| PushMessage (s : SocketSender) (message : ActorSocketMessage) : registry_request bool
| PushClose (s : SocketSender) (code : Z) (reason : string) : registry_request bool
| CancelOverflow (s : SocketSender) : registry_request unit
| Recv (s : SocketSender) (senders_gone : bool) : registry_request (option (option OutboundMessage))
| DropReceiver (s : SocketSender) : registry_request unit.

Definition register (actor : ActorKey) (c : ActorSocketConnection) (r : SocketRegistry)
  : (bool * SocketSender) * SocketRegistry :=
  let s := fresh (dom (channels r)) in
  let inserted := insert actor c s (with_channels (<[s := socket_channel]>) r) in
  ((inserted.1, s), inserted.2).

Definition registry_step {X} (e : registry_request X) (r : SocketRegistry) : X * SocketRegistry :=
  match e with
  | Register actor c => register actor c r
  | Remove actor id => remove actor id r
  | Connections actor => (connections actor r, r)
  | Inventory => (inventory r, r)
  | Activate actor id => ((), activate actor id r)
  | PushSnapshot actor id state version => apply_state_snapshot actor id state version r
  | PushUpdate actor changes removed except version => apply_state_update actor changes removed except version r
  | SetMetadata actor id metadata => ((), apply_set_metadata actor id metadata r)
  | SetTags actor id tags => ((), apply_set_tags actor id tags r)
  | Recipients actor except tags tag_match => (recipients actor except tags tag_match r, r)
  | Sender actor id => (sender actor id r, r)
  | PushMessage s m => push s (OutMessage m) r
  | PushClose s code reason => push s (OutClose code reason) r
  | CancelOverflow s => ((), with_channels (alter cancel_overflow s) r)
  | Recv s senders_gone =>
      match channels r !! s with
      | Some ch => let got := recv senders_gone ch in (got.1, with_channels (<[s := got.2]>) r)
      | None => (None, r)
      end
  | DropReceiver s => ((), with_channels (alter drop_receiver s) r)
  end.

(** * Effects as programs *)
Abbreviation rcalls := (calls registry_request) (only parsing).

(** [sender.send(message)], given the request for its [try_send] *)
Definition send (s : SocketSender) (request : registry_request bool) : rcalls unit :=
  sent ← await request;
  if (sent : bool) then mret () else await (CancelOverflow s).
(** A request under the lock, and the cancellations it leads to *)
Definition send_under_lock (request : registry_request (list SocketSender)) : rcalls unit :=
  refused ← await request;
  _ ← each (fun s => await (CancelOverflow s)) refused; mret ().

Definition apply_one (actor : ActorKey) (effect : ActorSocketEffect) : rcalls unit :=
  match effect with
  | StateSnapshotEffect connection_id state version =>
      match version with
      | None => mret ()
      | Some version => send_under_lock (PushSnapshot actor connection_id state version)
      end
  | StateUpdateEffect changes removed except_connection_ids version =>
      match version with
      | None => mret ()
      | Some version => send_under_lock (PushUpdate actor changes removed except_connection_ids version)
      end
  | BroadcastEffect message except_connection_ids tags tag_match =>
      recipients ← await (Recipients actor except_connection_ids tags tag_match);
      _ ← each (fun s => send s (PushMessage s message)) recipients; mret ()
  | SetMetadataEffect connection_id metadata => await (SetMetadata actor connection_id metadata)
  | SetTagsEffect connection_id tags => await (SetTags actor connection_id tags)
  | SendEffect connection_id message =>
      s ← await (Sender actor connection_id);
      match s with
      | Some s => send s (PushMessage s message)
      | None => mret ()
      end
  | CloseEffect connection_id code reason | RejectEffect connection_id code reason =>
      s ← await (Sender actor connection_id);
      match s with
      | Some s => send s (PushClose s code reason)
      | None => mret ()
      end
  end.

Definition apply (actor : ActorKey) (effects : list ActorSocketEffect) : rcalls unit :=
  _ ← each (apply_one actor) effects; mret ().

Definition prepare_event (actor : ActorKey) (event : ActorSocketEvent)
  : rcalls (ActorSocketEvent * list ActorSocketConnection) :=
  match event with
  | Connect connection =>
      connections ← await (Connections actor);
      mret (Connect connection, (connections ++ [connection])%list)
  | Message connection_id message =>
      connections ← await (Connections actor);
      mret (Message connection_id message, connections)
  | Disconnect connection code reason was_clean =>
      removed ← await (Remove actor (conn_id connection));
      connections ← await (Connections actor);
      mret (Disconnect (default connection removed) code reason was_clean, connections)
  end.

(** A program that runs without interference *)
Fixpoint exec {A} (p : rcalls A) (r : SocketRegistry) : Result A * SocketRegistry :=
  match p with
  | CRet a => (a, r)
  | CVis e k => let x := registry_step e r in exec (k x.1) x.2
  end.

(** Any interleaving of the requests of any tasks *)
Inductive any_request := | Req {X : Type} (e : registry_request X).
Definition play_one (r : SocketRegistry) (q : any_request) : SocketRegistry :=
  match q with Req e => (registry_step e r).2 end.
Definition play (qs : list any_request) (r : SocketRegistry) : SocketRegistry := foldl play_one r qs.
End registry.

(** The iteration order of [gmap], for examples *)
#[global] Instance gmap_iter : HashIter := fun K _ _ V m => map_to_list m.
#[global] Instance gmap_iter_law : HashIterLaw.
Proof. intros K ? ? V m. reflexivity. Qed.

(** * Channels: nothing is reordered, and losing output closes the socket

    The messages taken so far are those handed out, followed by those queued; once the
    overflow token is cancelled nothing but the close is handed out.  It is cancelled, or
    about to be, exactly when a message was refused. *)
Definition accepted (ch : channel) : list OutboundMessage := (filter (fun a => a.2 = true) (attempts ch)).*1.
Definition refused (ch : channel) : list OutboundMessage := (filter (fun a => a.2 = false) (attempts ch)).*1.
Definition channel_ok (ch : channel) : Prop :=
  exists popped n,
    accepted ch = (popped ++ queue ch)%list /\
    received ch = (popped ++ replicate n QUEUE_FULL)%list /\
    (n <> O -> overflow ch = true) /\ (length (queue ch) <= CHANNEL_CAPACITY)%nat /\
    (refused ch <> [] <-> overflow ch = true \/ cancelling ch <> O).

Lemma accepted_attempt ch ch' m b : attempts ch' = (attempts ch ++ [(m, b)])%list ->
  accepted ch' = (accepted ch ++ if b then [m] else [])%list /\ refused ch' = (refused ch ++ if b then [] else [m])%list.
Proof.
  intros E. unfold accepted, refused. rewrite E, !filter_app, !fmap_app, !filter_cons, !filter_nil.
  destruct b; cbn; repeat case_decide; done.
Qed.

Lemma socket_channel_ok : channel_ok socket_channel.
Proof. exists [], O. cbn. unfold refused, CHANNEL_CAPACITY. cbn. split_and!; try done; [lia|]. naive_solver. Qed.

Lemma try_send_keeps_ok m ch : channel_ok ch -> channel_ok (try_send m ch).2.
Proof.
  intros (popped & n & Ha & Hr & Hn & Hq & Ho).
  destruct (receiving ch && (length (queue ch) <? CHANNEL_CAPACITY)%nat) eqn:E; exists popped, n.
  - destruct (accepted_attempt ch (try_send m ch).2 m true) as [-> ->]; [unfold try_send; by rewrite E|].
    unfold try_send. rewrite E. cbn. apply andb_true_iff in E as [_ E%Nat.ltb_lt]. rewrite Ha, app_nil_r, length_app, app_assoc.
    cbn. split_and!; [done|done|done|lia|done].
  - destruct (accepted_attempt ch (try_send m ch).2 m false) as [-> ->]; [unfold try_send; by rewrite E|].
    unfold try_send. rewrite E. cbn. rewrite app_nil_r. split_and!; [done|done|done|done|]. split; [by right|].
    intros _. by destruct (refused ch).
Qed.
Lemma cancel_overflow_attempts ch : attempts (cancel_overflow ch) = attempts ch.
Proof. unfold cancel_overflow. by destruct (cancelling ch). Qed.
Lemma cancel_overflow_ok ch : channel_ok ch -> channel_ok (cancel_overflow ch).
Proof.
  intros (popped & n & Ha & Hr & Hn & Hq & Ho). unfold cancel_overflow. destruct (cancelling ch) as [|k] eqn:Ek.
  - exists popped, n. rewrite Ek. done.
  - exists popped, n. unfold accepted, refused in *. cbn. split_and!; [done|done|done|done|].
    split; [by left|]. intros _. apply Ho. by right.
Qed.

Lemma recv_ok gone ch : channel_ok ch -> channel_ok (recv gone ch).2.
Proof.
  intros (popped & n & Ha & Hr & Hn & Hq & Ho). unfold recv, accepted, refused in *. destruct (overflow ch) eqn:Eo; cbn.
  - exists popped, (S n). cbn. split_and!; [done| |done|done|done].
    rewrite Hr, <-app_assoc. f_equal. change [QUEUE_FULL] with (replicate 1 QUEUE_FULL).
    by rewrite <-replicate_add, Nat.add_comm.
  - assert (n = O) as -> by (destruct n; [done|]; by assert (false = true) by by apply Hn).
    cbn in Hr. rewrite app_nil_r in Hr.
    destruct (queue ch) as [|m rest] eqn:Eq; cbn.
    { exists popped, O. unfold accepted, refused. rewrite Eq, Eo. cbn. rewrite !app_nil_r in *. done. }
    exists (popped ++ [m])%list, O. unfold accepted, refused. cbn in *. rewrite !app_nil_r, <-app_assoc.
    split_and!; [done|congruence|done|lia|done].
Qed.

Lemma drop_receiver_ok ch : channel_ok ch -> channel_ok (drop_receiver ch).
Proof. intros (popped & n & ?). by exists popped, n. Qed.

(** * The invariant of the registry *)
Definition is_snapshot (m : OutboundMessage) : Prop :=
  exists state version, m = OutControl (state_control state version).
Definition is_update (m : OutboundMessage) : Prop :=
  exists changes removed version, m = OutControl (state_update_control changes removed version).
Definition updates_follow (l : list OutboundMessage) : Prop :=
  forall k m, l !! k = Some m -> is_update m -> exists j s, (j < k)%nat /\ l !! j = Some s /\ is_snapshot s.
Definition has_snapshot (ch : channel) : Prop := exists m, m ∈ (attempts ch).*1 /\ is_snapshot m.

Record registry_ok `{HashIter} (r : SocketRegistry) : Prop := {
  ok_actors : forall a m, entries r !! a = Some m -> m <> ∅ /\ (size m <= MAX_CONNECTIONS_PER_ACTOR)%nat;
  ok_ids : forall a id e, get_entry a id r = Some e -> conn_id (connection e) = id;
  ok_outbound : forall a id e, get_entry a id r = Some e -> exists ch,
    channels r !! outbound e = Some ch /\ (state_ready e = true -> has_snapshot ch);
  ok_distinct : forall a1 id1 e1 a2 id2 e2, get_entry a1 id1 r = Some e1 -> get_entry a2 id2 r = Some e2 ->
    outbound e1 = outbound e2 -> a1 = a2 /\ id1 = id2;
  ok_activity : activity r = total (entries r);
  ok_channels : map_Forall (fun _ ch => channel_ok ch /\ updates_follow (attempts ch).*1) (channels r) }.

Lemma updates_follow_snoc l m : updates_follow l -> (is_update m -> exists s, s ∈ l /\ is_snapshot s) ->
  updates_follow (l ++ [m]).
Proof.
  intros Hl Hm k x Hk Hx. apply lookup_app_Some in Hk as [Hk|[Hge Hk]].
  - destruct (Hl k x Hk Hx) as (j & s & Hj & Hs & ?). exists j, s. split_and!; [done| |done].
    by apply lookup_app_l_Some.
  - apply list_lookup_singleton_Some in Hk as [Hk ->]. destruct (Hm Hx) as (s & [j Hj]%list_elem_of_lookup_1 & ?).
    exists j, s. pose proof (lookup_lt_Some _ _ _ Hj). split_and!; [lia|by apply lookup_app_l_Some|done].
Qed.
Lemma try_send_attempts m ch : (attempts (try_send m ch).2).*1 = ((attempts ch).*1 ++ [m])%list.
Proof. unfold try_send. destruct (_ && _); cbn; by rewrite fmap_app. Qed.
Lemma recv_attempts gone ch : attempts (recv gone ch).2 = attempts ch.
Proof. unfold recv. destruct (overflow ch), (queue ch); done. Qed.

Section invariant.
Context `{HashIterLaw}.

Lemma sum_list_permutation l k : Permutation l k -> sum_list l = sum_list k.
Proof. induction 1; cbn; lia. Qed.
Lemma total_to_list m : total m = sum_list (size <$> (map_to_list m).*2).
Proof. unfold total. apply sum_list_permutation. by rewrite hash_iter_permutation. Qed.
Lemma total_insert a x m : total (<[a := x]> m) = (size x + total (delete a m))%nat.
Proof.
  rewrite !total_to_list, <-insert_delete_eq.
  rewrite (sum_list_permutation _ (size <$> ((a, x) :: map_to_list (delete a m)).*2)); [done|].
  apply fmap_Permutation, fmap_Permutation, map_to_list_insert, lookup_delete_eq.
Qed.
Lemma total_split a x m : m !! a = Some x -> total m = (size x + total (delete a m))%nat.
Proof. intros Ha. rewrite <-total_insert. by rewrite insert_id. Qed.

(** ** Lookups *)
Lemma get_set_entry a id e r : is_Some (get_entry a id r) -> forall a' id',
  get_entry a' id' (set_entry a id e r) = if decide (a' = a /\ id' = id) then Some e else get_entry a' id' r.
Proof.
  unfold get_entry, set_entry. cbn. intros [e0 He] a' id'.
  destruct (entries r !! a) as [m|] eqn:Ea; [|done]. cbn in He. destruct (decide (a' = a)) as [->|Hne].
  - rewrite lookup_alter_eq, Ea. cbn. destruct (decide (id' = id)) as [->|Hni].
    + rewrite lookup_insert_eq. by rewrite decide_True by done.
    + rewrite lookup_insert_ne by done. by rewrite decide_False by naive_solver.
  - rewrite lookup_alter_ne by done. by rewrite decide_False by naive_solver.
Qed.

Lemma insert_as_alter {V} (m : gmap SocketSender V) s x (f : V -> V) :
  m !! s = Some x -> <[s := f x]> m = alter f s m.
Proof.
  intros Hs. apply map_eq. intros i. destruct (decide (i = s)) as [->|].
  - by rewrite lookup_insert_eq, lookup_alter_eq, Hs.
  - by rewrite lookup_insert_ne, lookup_alter_ne.
Qed.
Lemma insert_as_alter_r r s ch f : channels r !! s = Some ch ->
  with_channels (<[s := f ch]>) r = with_channels (alter f s) r.
Proof. intros Hs. unfold with_channels. f_equal. by apply insert_as_alter. Qed.
Lemma push_channels s m r ch : channels r !! s = Some ch ->
  (push s m r).2 = with_channels (alter (fun ch => (try_send m ch).2) s) r.
Proof.
  intros Hs. unfold push. rewrite Hs. by apply (insert_as_alter_r r s ch (fun ch => (try_send m ch).2)).
Qed.

(** ** Channels change *)
Lemma alter_channel_ok r s f : registry_ok r ->
  (forall ch, channels r !! s = Some ch -> channel_ok ch -> updates_follow (attempts ch).*1 ->
     channel_ok (f ch) /\ updates_follow (attempts (f ch)).*1 /\ (has_snapshot ch -> has_snapshot (f ch))) ->
  registry_ok (with_channels (alter f s) r).
Proof.
  intros [Ha Hi Ho Hd Hact Hc] Hf. split; try done; cbn.
  - intros a id e He. destruct (Ho a id e He) as (ch & Hch & Hr). destruct (decide (outbound e = s)) as [E|Hne].
    + subst s. exists (f ch). rewrite lookup_alter_eq, Hch. split; [done|]. destruct (Hc _ _ Hch).
      intros Hready. apply (Hf ch); auto.
    + exists ch. by rewrite lookup_alter_ne.
  - intros i ch Hch. apply lookup_alter_Some in Hch as [(<- & ch0 & Hch & ->)|[_ Hch]]; [|by apply (Hc i)].
    destruct (Hc _ _ Hch) as [H1 H2]. destruct (Hf ch0 Hch H1 H2) as (? & ? & ?). done.
Qed.

Lemma push_ok s m r : registry_ok r ->
  (is_update m -> forall ch, channels r !! s = Some ch -> has_snapshot ch) -> registry_ok (push s m r).2.
Proof.
  intros Hok Hm. destruct (channels r !! s) as [ch|] eqn:Hs; [|unfold push; by rewrite Hs].
  rewrite (push_channels _ _ _ _ Hs). apply alter_channel_ok; [done|]. intros ch' Hch H1 H2.
  rewrite try_send_attempts. split_and!.
  - by apply try_send_keeps_ok.
  - apply updates_follow_snoc; [done|]. intros Hu. by apply (Hm Hu ch'); congruence.
  - intros (x & Hx & ?). exists x. rewrite try_send_attempts. split; [set_solver|done].
Qed.
Lemma push_entries s m r : entries (push s m r).2 = entries r.
Proof. unfold push. by destruct (channels r !! s). Qed.
Lemma push_keeps_snapshots s m r i ch : channels r !! i = Some ch -> has_snapshot ch ->
  exists ch', channels (push s m r).2 !! i = Some ch' /\ has_snapshot ch'.
Proof.
  intros Hi (x & Hx & ?). destruct (channels r !! s) as [c|] eqn:Hs; [|unfold push; rewrite Hs; by exists ch; split; [|exists x]].
  rewrite (push_channels _ _ _ _ Hs). cbn. destruct (decide (i = s)) as [->|].
  - rewrite lookup_alter_eq, Hi. eexists. split; [done|]. exists x. rewrite try_send_attempts. split; [set_solver|done].
  - rewrite lookup_alter_ne, Hi by done. eexists. split; [done|]. by exists x.
Qed.

Lemma push_all_ok m ss : forall r, registry_ok r ->
  (is_update m -> forall s ch, s ∈ ss -> channels r !! s = Some ch -> has_snapshot ch) ->
  registry_ok (push_all ss m r).2.
Proof.
  induction ss as [|s ss IH]; intros r Hok Hm; [done|]. cbn. apply IH.
  - apply push_ok; [done|]. intros Hu ch Hch. eapply Hm; [done|left|done].
  - intros Hu i ch Hi Hch. destruct (channels r !! i) as [ch0|] eqn:E0.
    + destruct (push_keeps_snapshots s m r i ch0 E0) as (ch' & Hch' & ?).
      * eapply Hm; [done|by right|done].
      * congruence.
    + exfalso. destruct (channels r !! s) as [c|] eqn:Hs; [|unfold push in Hch; rewrite Hs in Hch; cbn in Hch; congruence].
      rewrite (push_channels _ _ _ _ Hs) in Hch. cbn in Hch. apply lookup_alter_Some in Hch as [(-> & ? & ? & _)|[_ ?]]; congruence.
Qed.

(** ** An entry changes *)
Lemma set_entry_ok a id e e' r : registry_ok r -> get_entry a id r = Some e ->
  outbound e' = outbound e -> conn_id (connection e') = conn_id (connection e) ->
  (forall ch, state_ready e' = true -> channels r !! outbound e = Some ch -> state_ready e = true \/ has_snapshot ch) ->
  registry_ok (set_entry a id e' r).
Proof.
  intros [Ha Hi Ho Hd Hact Hc] He Eo Ec Hr.
  assert (Hg : forall a' id' x, get_entry a' id' (set_entry a id e' r) = Some x ->
            a' = a /\ id' = id /\ x = e' \/ get_entry a' id' r = Some x).
  { intros a' id' x. rewrite get_set_entry by eauto. destruct (decide _) as [[-> ->]|]; naive_solver. }
  assert (Hg' : forall a' id' x, get_entry a' id' (set_entry a id e' r) = Some x ->
            exists x0, get_entry a' id' r = Some x0 /\ outbound x0 = outbound x /\ conn_id (connection x0) = conn_id (connection x)).
  { intros a' id' x [(-> & -> & ->)|Hx]%Hg; [exists e|exists x]; done. }
  pose proof He as He'. unfold get_entry in He'. destruct (entries r !! a) as [m|] eqn:Em; [|done]. cbn in He'.
  assert (Hs : size (<[id := e']> m) = size m) by (by rewrite map_size_insert_Some by eauto).
  split.
  - intros a' m'. cbn. intros [(<- & m0 & Hm0 & ->)|[_ Hm]]%lookup_alter_Some; [|by eapply Ha].
    rewrite Em in Hm0. injection Hm0 as <-. rewrite Hs. split; [by apply insert_non_empty|]. by eapply Ha.
  - intros a' id' x (x0 & Hx0 & _ & <-)%Hg'. by eapply Hi.
  - intros a' id' x [(-> & -> & ->)|Hx]%Hg; [|by eapply Ho]. destruct (Ho _ _ _ He) as (ch & Hch & Hch').
    exists ch. rewrite Eo. split; [done|]. intros Hready. destruct (Hr ch Hready Hch); auto.
  - intros a1 id1 e1 a2 id2 e2 (x1 & H1 & E1 & _)%Hg' (x2 & H2 & E2 & _)%Hg' E. eapply Hd; [done|done|congruence].
  - cbn. rewrite Hact, (total_split a m) by done. unfold set_entry. cbn.
    rewrite (total_split a (<[id := e']> m) (alter _ a (entries r))) by (by rewrite lookup_alter_eq, Em). rewrite Hs. do 2 f_equal.
    apply map_eq. intros i. destruct (decide (i = a)) as [->|]; [by rewrite !lookup_delete_eq|].
    by rewrite !lookup_delete_ne, lookup_alter_ne.
  - done.
Qed.
Lemma notify_inventory_ok r : registry_ok r -> registry_ok (notify_inventory r).
Proof. by intros [? ? ? ? ? ?]. Qed.

(** ** Connections come and go *)
Lemma new_channel_ok s r : registry_ok r -> channels r !! s = None ->
  registry_ok (with_channels (<[s := socket_channel]>) r).
Proof.
  intros [Ha Hi Ho Hd Hact Hc] Hs. split; try done; cbn.
  - intros a id e He. destruct (Ho a id e He) as (ch & Hch & ?). exists ch. split; [|done].
    rewrite lookup_insert_ne; [done|]. congruence.
  - apply map_Forall_insert_2; [|done]. split; [apply socket_channel_ok|]. intros k m Hk. by destruct k.
Qed.

Lemma get_entry_insert a c s r a' id' : (insert a c s r).1 = true ->
  get_entry a' id' (insert a c s r).2
  = if decide (a' = a /\ id' = conn_id c)
    then Some {| connection := c; outbound := s; open := false; state_ready := false |} else get_entry a' id' r.
Proof.
  unfold insert. destruct (_ <=? _)%nat; [done|]. intros _. unfold get_entry. cbn. rewrite insert_insert_eq.
  destruct (decide (a' = a)) as [->|].
  - rewrite lookup_insert_eq. cbn. destruct (decide (id' = conn_id c)) as [->|].
    + by rewrite lookup_insert_eq, decide_True.
    + rewrite lookup_insert_ne by done. rewrite decide_False by naive_solver. by destruct (entries r !! a).
  - rewrite lookup_insert_ne by done. by rewrite decide_False by naive_solver.
Qed.
Lemma insert_refused a c s r : (insert a c s r).1 = false -> (insert a c s r).2 = r.
Proof.
  unfold insert. destruct (_ <=? _)%nat eqn:E; [|done]. intros _. apply Nat.leb_le in E.
  destruct (entries r !! a) as [m|] eqn:Em; cbn in *; [|rewrite map_size_empty in E; unfold MAX_CONNECTIONS_PER_ACTOR in E; lia].
  unfold with_entries. rewrite insert_id by done. by destruct r.
Qed.
Lemma insert_ok a c s r : registry_ok r -> channels r !! s = Some socket_channel ->
  (forall a id e, get_entry a id r = Some e -> outbound e <> s) -> registry_ok (insert a c s r).2.
Proof.
  intros Hok Hs Hfresh. destruct (insert a c s r).1 eqn:E; [|by rewrite insert_refused].
  pose proof (fun a' id' => get_entry_insert a c s r a' id' E) as Hg. destruct Hok as [Ha Hi Ho Hd Hact Hc].
  assert (Hch : channels (insert a c s r).2 = channels r) by (unfold insert; by destruct (_ <=? _)%nat).
  split; try rewrite Hch; try done.
  - intros a' m. unfold insert in *. destruct (_ <=? _)%nat eqn:El; [done|]. cbn. rewrite insert_insert_eq.
    apply Nat.leb_gt in El. intros [[<- <-]|[_ Hm]]%lookup_insert_Some; [|by eapply Ha].
    split; [by apply insert_non_empty|]. set (m := default ∅ (entries r !! a)) in *.
    pose proof (map_size_insert (conn_id c) {| connection := c; outbound := s; open := false; state_ready := false |} m) as Hsz.
    destruct (m !! conn_id c); cbn in Hsz; lia.
  - intros a' id' e. rewrite Hg. case_decide; [naive_solver|by apply Hi].
  - intros a' id' e. rewrite Hg. case_decide; [|by apply Ho]. intros [= <-]. cbn. by exists socket_channel.
  - intros a1 id1 e1 a2 id2 e2. rewrite !Hg. repeat case_decide; [naive_solver| | |by apply Hd].
    + intros [= <-] He2 E2. by destruct (Hfresh _ _ _ He2).
    + intros He1 [= <-] E1. by destruct (Hfresh _ _ _ He1).
  - unfold insert in *. by destruct (_ <=? _)%nat.
Qed.
Lemma register_ok a c r : registry_ok r -> registry_ok (register a c r).2.
Proof.
  intros Hok. unfold register. cbn. set (s := fresh (dom (channels r))).
  assert (Hs : channels r !! s = None) by (apply not_elem_of_dom, is_fresh).
  apply insert_ok; [by apply new_channel_ok|by cbn; rewrite lookup_insert_eq|].
  intros a' id' e He E. destruct (ok_outbound r Hok a' id' e He) as (ch & Hch & _). rewrite E in Hch. congruence.
Qed.

Lemma get_entry_remove a id r a' id' :
  get_entry a' id' (remove a id r).2 = if decide (a' = a /\ id' = id) then None else get_entry a' id' r.
Proof.
  unfold remove. destruct (entries r !! a) as [m|] eqn:Em; cbn [snd].
  - set (r' := replace_activity _).
    assert (Hg : get_entry a' id' r' = if decide (a' = a /\ id' = id) then None else get_entry a' id' r).
    { unfold r', get_entry. destruct (decide (a' = a)) as [->|].
      - rewrite Em. cbn. destruct (decide (delete id m = ∅)) as [Ee|]; cbn.
        + rewrite lookup_delete_eq. cbn. destruct (decide (id' = id)) as [->|]; [by rewrite decide_True|].
          rewrite decide_False by naive_solver. assert (Hn : delete id m !! id' = None) by (by rewrite Ee, lookup_empty).
          by rewrite lookup_delete_ne in Hn by done.
        + rewrite lookup_insert_eq. cbn. destruct (decide (id' = id)) as [->|].
          * by rewrite lookup_delete_eq, decide_True.
          * rewrite lookup_delete_ne by done. by rewrite decide_False by naive_solver.
      - rewrite (decide_False (P := a' = a /\ id' = id)) by naive_solver.
        destruct (decide (delete id m = ∅)); cbn; by rewrite ?lookup_delete_ne, lookup_insert_ne by done. }
    destruct (m !! id); exact Hg.
  - destruct (decide _) as [[-> ->]|]; [|done]. unfold get_entry. by rewrite Em.
Qed.
Lemma remove_channels a id r : channels (remove a id r).2 = channels r.
Proof. unfold remove. destruct (entries r !! a) as [m|]; [|done]. cbn. by destruct (decide _), (m !! id). Qed.
Lemma remove_ok a id r : registry_ok r -> registry_ok (remove a id r).2.
Proof.
  intros Hok. pose proof Hok as [Ha Hi Ho Hd Hact Hc].
  assert (Hg : forall a' id' e, get_entry a' id' (remove a id r).2 = Some e -> get_entry a' id' r = Some e).
  { intros a' id' e. rewrite get_entry_remove. by case_decide. }
  split; rewrite ?remove_channels; eauto.
  - unfold remove. destruct (entries r !! a) as [m|] eqn:Em; [|by apply Ha]. cbn. intros a' m' Hm'.
    assert (Hm : a' = a /\ m' = delete id m /\ m' <> ∅ \/ entries r !! a' = Some m').
    { destruct (decide (delete id m = ∅)), (m !! id); cbn in Hm';
        rewrite ?lookup_delete_Some, ?lookup_insert_Some in Hm'; naive_solver. }
    destruct Hm as [(-> & -> & Hne)|Hm]; [|by eapply Ha]. split; [done|]. destruct (Ha _ _ Em) as [_ Hl].
    rewrite map_size_delete. destruct (m !! id); cbn; lia.
  - unfold remove. destruct (entries r !! a) as [m|]; [|done]. cbn. by destruct (decide _), (m !! id).
Qed.

(** ** Every request keeps the invariant *)
Lemma state_is_no_update state version : ~ is_update (OutControl (state_control state version)).
Proof. by intros (? & ? & ? & [=]). Qed.

Lemma snapshot_ok a id state version r : registry_ok r -> registry_ok (apply_state_snapshot a id state version r).2.
Proof.
  intros Hok. unfold apply_state_snapshot. destruct (get_entry a id r) as [e|] eqn:He; [|done].
  destruct (ok_outbound r Hok _ _ _ He) as (ch & Hch & _). set (e' := Build_RegisteredSocket _ _ _ _).
  set (m := OutControl _). cbn [push_all snd].
  assert (Ecomm : (push (outbound e) m (set_entry a id e' r)).2 = set_entry a id e' (push (outbound e) m r).2).
  { rewrite !(push_channels _ _ _ ch); done. }
  rewrite Ecomm. apply (set_entry_ok _ _ e); try done.
  - apply push_ok; [done|]. intros Hu. by apply state_is_no_update in Hu.
  - unfold get_entry. by rewrite push_entries.
  - intros ch' _. rewrite (push_channels _ _ _ ch) by done. cbn. rewrite lookup_alter_eq, Hch. intros [= <-].
    right. exists m. rewrite try_send_attempts. split; [set_solver|]. unfold m, is_snapshot. eauto.
Qed.

Lemma values_get a m r e : entries r !! a = Some m -> e ∈ values m -> exists id, get_entry a id r = Some e.
Proof.
  intros Hm He. unfold values in He. rewrite hash_iter_permutation in He.
  apply list_elem_of_fmap in He as ([id e'] & -> & Hin%elem_of_map_to_list). exists id. unfold get_entry. by rewrite Hm.
Qed.

Lemma update_ok a changes removed except version r : registry_ok r ->
  registry_ok (apply_state_update a changes removed except version r).2.
Proof.
  intros Hok. unfold apply_state_update. destruct (entries r !! a) as [m|] eqn:Hm; [|done].
  apply push_all_ok; [done|]. intros _ s ch Hs Hch. apply list_elem_of_fmap in Hs as (e & -> & Hs).
  apply list_elem_of_filter in Hs as [Hw Hs]. destruct (values_get _ _ _ _ Hm Hs) as [id Hid].
  destruct (ok_outbound r Hok _ _ _ Hid) as (ch' & Hch' & Hr). unfold wants_update in Hw.
  apply Is_true_true, andb_true_iff in Hw as [Hw _]. rewrite Hch in Hch'. simplify_eq. by apply Hr.
Qed.

Lemma registry_step_ok {X} (e : registry_request X) r : registry_ok r -> registry_ok (registry_step e r).2.
Proof.
  intros Hok. destruct e; cbn; try done.
  - by apply register_ok.
  - by apply remove_ok.
  - unfold activate. destruct (get_entry _ _ _) eqn:He; [|done]. apply notify_inventory_ok, (set_entry_ok _ _ r0); auto.
  - by apply snapshot_ok.
  - by apply update_ok.
  - unfold apply_set_metadata. destruct (get_entry _ _ _) eqn:He; [|done].
    apply notify_inventory_ok, (set_entry_ok _ _ r0); auto.
  - unfold apply_set_tags. destruct (get_entry _ _ _) eqn:He; [|done]. apply (set_entry_ok _ _ r0); auto.
  - apply push_ok; [done|]. by intros (? & ? & ? & ?).
  - apply push_ok; [done|]. by intros (? & ? & ? & ?).
  - apply alter_channel_ok; [done|]. intros ch _ H1 H2. unfold has_snapshot. rewrite cancel_overflow_attempts.
    split_and!; [|done|done]. by apply cancel_overflow_ok.
  - destruct (channels r !! s) as [ch|] eqn:Hs; [|done]. cbn.
    rewrite (insert_as_alter_r r s ch (fun ch => (recv senders_gone ch).2) Hs).
    apply alter_channel_ok; [done|]. intros ch' _ H1 H2. unfold has_snapshot. rewrite recv_attempts. split_and!; [|done|done].
    by apply recv_ok.
  - apply alter_channel_ok; [done|]. intros ch _ H1 H2. split_and!; [|done|done]. by apply drop_receiver_ok.
Qed.
Lemma play_ok qs r : registry_ok r -> registry_ok (play qs r).
Proof.
  unfold play. revert r. induction qs as [|[X e] qs IH]; intros r Hok; [done|]. cbn. by apply IH, registry_step_ok.
Qed.
Lemma default_ok : registry_ok SocketRegistry_default.
Proof.
  split; cbn; try done.
  rewrite total_to_list. by rewrite map_to_list_empty.
Qed.

(** C24: However the tasks of a host interleave their uses of the socket registry,
    it stays consistent: an actor that is listed has at least one and at most 128
    connections, each under its own id and with an output channel of its own, and
    the published activity is the number of connections. *)
Theorem registry_stays_consistent qs :
  let r := play qs SocketRegistry_default in
  (forall a m, entries r !! a = Some m -> m <> ∅ /\ (size m <= MAX_CONNECTIONS_PER_ACTOR)%nat) /\
  (forall a id e, get_entry a id r = Some e -> conn_id (connection e) = id /\ is_Some (channels r !! outbound e)) /\
  (forall a1 id1 e1 a2 id2 e2, get_entry a1 id1 r = Some e1 -> get_entry a2 id2 r = Some e2 ->
     outbound e1 = outbound e2 -> a1 = a2 /\ id1 = id2) /\
  activity r = total (entries r).
Proof.
  destruct (play_ok qs _ default_ok) as [Ha Hi Ho Hd Hact _]. split_and!; [done| |done|done].
  intros a id e He. split; [by eapply Hi|]. destruct (Ho _ _ _ He) as (ch & -> & _). eauto.
Qed.


(** Updates of the public state are sent to a connection only after a snapshot of it,
    however effects, connections and deliveries interleave; and unless a message was
    refused they are received only after one. *)
Theorem updates_follow_a_snapshot qs s ch :
  channels (play qs SocketRegistry_default) !! s = Some ch ->
  updates_follow (attempts ch).*1 /\ (refused ch = [] -> updates_follow (received ch)).
Proof.
  intros Hs. destruct (play_ok qs _ default_ok) as [_ _ _ _ _ Hc].
  destruct (Hc _ _ Hs) as [(popped & n & Ha & Hr & Hn & _ & Ho) Hu]. split; [done|]. intros Hno.
  assert (n = O) as -> by (destruct n; [done|]; destruct (proj2 Ho (or_introl (Hn ltac:(done))) Hno)).
  rewrite Hr, app_nil_r.
  assert (E : (attempts ch).*1 = (popped ++ queue ch)%list).
  { rewrite <-Ha. unfold accepted, refused in *. revert Hno. clear. induction (attempts ch) as [|[m b] l IH]; [done|].
    rewrite !filter_cons. destruct b; cbn; [|done]. intros Hno. by rewrite IH. }
  rewrite E in Hu. intros k m Hk Hm.
  destruct (Hu k m) as (j & x & Hj & Hx & ?); [by apply lookup_app_l_Some|done|]. exists j, x.
  pose proof (lookup_lt_Some _ _ _ Hk). rewrite lookup_app_l in * by lia. done.
Qed.

(** ** What one effect sends *)
Lemma exec_bind {A B} (p : calls registry_request A) (f : A -> calls registry_request B) r :
  exec (p ≫= f) r = match exec p r with (Ok a, r') => exec (f a) r' | (Err e, r') => (Err e, r') end.
Proof. revert r. induction p as [[a|e]|X e k IH]; intros r; cbn; [done|done|]. apply IH. Qed.
(** Registries that differ only in their overflow tokens *)
Definition core (ch : channel) : list OutboundMessage * bool * list (OutboundMessage * bool) :=
  (queue ch, receiving ch, attempts ch).
Definition like (r r' : SocketRegistry) : Prop := forall i, core <$> channels r' !! i = core <$> channels r !! i.
Lemma like_refl r : like r r.
Proof. done. Qed.
Lemma like_trans r1 r2 r3 : like r1 r2 -> like r2 r3 -> like r1 r3.
Proof. intros H1 H2 i. by rewrite H2. Qed.
Lemma core_try_send m ch ch' : core ch' = core ch ->
  (try_send m ch').1 = (try_send m ch).1 /\ core (try_send m ch').2 = core (try_send m ch).2.
Proof. unfold core, try_send. intros [= -> -> ->]. by destruct (_ && _). Qed.
Lemma like_cancel s r : like r (with_channels (alter cancel_overflow s) r).
Proof.
  intros i. cbn. destruct (decide (i = s)) as [->|Hne]; [|by rewrite lookup_alter_ne]. rewrite lookup_alter_eq.
  destruct (channels r !! s) as [ch|]; [|done]. cbn. unfold cancel_overflow. by destruct (cancelling ch).
Qed.
Lemma like_push s m r r' : like r r' -> (push s m r').1 = (push s m r).1 /\ like (push s m r).2 (push s m r').2.
Proof.
  intros Hl. pose proof (Hl s) as Hs. unfold push.
  destruct (channels r !! s) as [ch|], (channels r' !! s) as [ch'|]; try done. injection Hs as Hs.
  destruct (core_try_send m ch ch') as [E1 E2]; [unfold core; congruence|]. split; [exact E1|]. intros i. cbn.
  destruct (decide (i = s)) as [->|Hne]; [rewrite !lookup_insert_eq; cbn; by rewrite E2|].
  rewrite !lookup_insert_ne by done. apply Hl.
Qed.
(** Sending pushes the message, and cancels the token if it was refused. *)
Lemma exec_send s e m r r' : (forall r, registry_step e r = push s m r) -> like r r' ->
  exists r'', exec (send s e) r' = (Ok (), r'') /\ like (push s m r).2 r''.
Proof.
  intros He Hl. destruct (like_push s m r r' Hl) as [_ Hl']. unfold send. rewrite exec_bind. cbn [exec await]. cbv zeta.
  rewrite He. destruct (push s m r').1; [by eexists|]. eexists. split; [reflexivity|].
  eapply like_trans; [exact Hl'|apply like_cancel].
Qed.
Lemma exec_send_each m ss : forall r r', like r r' -> exists l r'',
  exec (each (fun s => send s (PushMessage s m)) ss) r' = (Ok l, r'') /\ like (push_all ss (OutMessage m) r).2 r''.
Proof.
  induction ss as [|s ss IH]; intros r r' Hl; [by exists [], r'|]. cbn [each push_all snd]. cbv zeta.
  destruct (exec_send s (PushMessage s m) (OutMessage m) r r') as (r1 & E1 & L1); [done|done|].
  destruct (IH _ _ L1) as (l & r2 & E2 & L2). rewrite exec_bind, E1. cbv beta iota. rewrite exec_bind, E2.
  by eexists _, r2.
Qed.
Lemma exec_cancels ss : forall r, exists l r',
  exec (each (fun s => await (CancelOverflow s)) ss) r = (Ok l, r') /\ like r r'.
Proof.
  induction ss as [|s ss IH]; intros r; [by exists [], r|]. cbn [each]. rewrite exec_bind. cbn [exec await]. cbv zeta.
  destruct (IH (registry_step (CancelOverflow s) r).2) as (l & r' & E & L). rewrite exec_bind, E.
  eexists _, r'. split; [reflexivity|]. eapply like_trans; [apply like_cancel|exact L].
Qed.
Lemma exec_under_lock e r : exists r', exec (send_under_lock e) r = (Ok (), r') /\ like (registry_step e r).2 r'.
Proof.
  unfold send_under_lock. rewrite exec_bind. cbn [exec await]. cbv zeta. rewrite exec_bind.
  destruct (exec_cancels (registry_step e r).1 (registry_step e r).2) as (l & r' & E & L). rewrite E. by exists r'.
Qed.

Definition attempted (s : SocketSender) (r : SocketRegistry) : list OutboundMessage :=
  match channels r !! s with Some ch => (attempts ch).*1 | None => [] end.
Lemma attempted_like i r r' : like r r' -> attempted i r' = attempted i r.
Proof.
  intros Hl. specialize (Hl i). unfold attempted. destruct (channels r !! i), (channels r' !! i); try done.
  unfold core in Hl. cbn in Hl. by injection Hl as _ _ ->.
Qed.
Lemma attempted_push s m r i : is_Some (channels r !! i) ->
  attempted i (push s m r).2 = (attempted i r ++ if decide (i = s) then [m] else [])%list.
Proof.
  intros [ch Hch]. unfold attempted. destruct (channels r !! s) as [c|] eqn:Hs.
  - rewrite (push_channels _ _ _ _ Hs). cbn. case_decide as Ei.
    + subst i. rewrite lookup_alter_eq, Hch. cbn. by rewrite try_send_attempts.
    + by rewrite lookup_alter_ne, Hch, app_nil_r.
  - unfold push. rewrite Hs. cbn. rewrite Hch, decide_False by congruence. by rewrite app_nil_r.
Qed.
Lemma push_keeps_channels s m r i : is_Some (channels r !! i) -> is_Some (channels (push s m r).2 !! i).
Proof.
  intros Hi. unfold push. destruct (channels r !! s) eqn:E; [|done]. cbn. destruct (decide (i = s)) as [->|].
  - rewrite lookup_insert_eq. eauto.
  - by rewrite lookup_insert_ne.
Qed.
Lemma attempted_push_all m ss : forall r i, NoDup ss -> is_Some (channels r !! i) ->
  attempted i (push_all ss m r).2 = (attempted i r ++ if decide (i ∈ ss) then [m] else [])%list.
Proof.
  induction ss as [|s ss IH]; intros r i Hnd Hi; cbn.
  - rewrite app_nil_r. done.
  - apply NoDup_cons in Hnd as [Hs Hnd]. rewrite IH by eauto using push_keeps_channels.
    rewrite attempted_push by done. rewrite <-app_assoc. f_equal.
    destruct (decide (i = s)) as [->|].
    + rewrite decide_False by done. rewrite decide_True by set_solver. done.
    + cbn. destruct (decide (i ∈ ss)); [rewrite decide_True by set_solver|rewrite decide_False by set_solver]; done.
Qed.

Lemma fmap_sublist {A B} (f : A -> B) l k : sublist l k -> sublist (f <$> l) (f <$> k).
Proof. induction 1; by constructor. Qed.

(** The outputs of an actor's connections are distinct. *)
Lemma outbounds_nodup r a m (f : RegisteredSocket -> bool) : registry_ok r -> entries r !! a = Some m ->
  NoDup (outbound <$> filter (fun e => f e) (values m)).
Proof.
  intros Hok Hm. apply (sublist_NoDup _ (outbound <$> values m)); [|apply fmap_sublist, sublist_filter].
  unfold values. rewrite <-list_fmap_compose. apply NoDup_fmap_2_strong.
  - intros [i x] [j y] Hx Hy E. rewrite hash_iter_permutation in Hx, Hy.
    apply elem_of_map_to_list in Hx, Hy. cbn in E.
    destruct (ok_distinct r Hok a i x a j y) as [_ <-]; [by unfold get_entry; rewrite Hm..|done|]. congruence.
  - rewrite hash_iter_permutation. apply NoDup_map_to_list.
Qed.
Lemma selected r a m id e (f : RegisteredSocket -> bool) : registry_ok r -> entries r !! a = Some m ->
  get_entry a id r = Some e -> outbound e ∈ outbound <$> filter (fun e => f e) (values m) <-> f e = true.
Proof.
  intros Hok Hm He. rewrite list_elem_of_fmap. setoid_rewrite list_elem_of_filter. split.
  - intros (e' & E & Hf & Hin). destruct (values_get _ _ _ _ Hm Hin) as [id' He'].
    destruct (ok_distinct r Hok _ _ _ _ _ _ He He' E) as [_ <-]. assert (e' = e) as -> by congruence. by apply Is_true_true.
  - intros Hf. exists e. split_and!; [done|by rewrite Hf|]. unfold values. rewrite hash_iter_permutation.
    apply (list_elem_of_fmap_2' _ _ (id, e)); [|done]. apply elem_of_map_to_list. unfold get_entry in He. by rewrite Hm in He.
Qed.

(** The messages an effect of [actor] has for the connection [id] of [a] *)
Definition addressed (actor : ActorKey) (effect : ActorSocketEffect) (a : ActorKey) (id : string)
    (e : RegisteredSocket) : list OutboundMessage :=
  if decide (a = actor) then
    match effect with
    | StateSnapshotEffect id' state (Some v) => if decide (id = id') then [OutControl (state_control state v)] else []
    | StateUpdateEffect changes removed except (Some v) =>
        if wants_update except e then [OutControl (state_update_control changes removed v)] else []
    | SendEffect id' m => if decide (id = id') then [OutMessage m] else []
    | BroadcastEffect m except tags tag_match => if is_recipient except tags tag_match e then [OutMessage m] else []
    | CloseEffect id' code reason | RejectEffect id' code reason => if decide (id = id') then [OutClose code reason] else []
    | _ => []
    end
  else [].

Lemma pushed_to actor id' m r a id e : registry_ok r -> get_entry a id r = Some e ->
  attempted (outbound e) (match sender actor id' r with Some s => (push s m r).2 | None => r end)
  = (attempted (outbound e) r ++ if decide (a = actor) then if decide (id = id') then [m] else [] else [])%list.
Proof.
  intros Hok He. destruct (ok_outbound r Hok _ _ _ He) as (ch & Hch & _). unfold sender.
  destruct (get_entry actor id' r) as [e'|] eqn:He'; cbn.
  - rewrite attempted_push by eauto. f_equal. destruct (decide (outbound e = outbound e')) as [E|Hne].
    + destruct (ok_distinct r Hok _ _ _ _ _ _ He He' E) as [-> ->]. by rewrite !decide_True.
    + destruct (decide (a = actor)) as [->|]; [|done]. destruct (decide (id = id')) as [->|]; [|done]. congruence.
  - destruct (decide (a = actor)) as [->|]; [|by rewrite app_nil_r]. destruct (decide (id = id')) as [->|]; [congruence|].
    by rewrite app_nil_r.
Qed.
Lemma pushed_to_all actor (f : RegisteredSocket -> bool) m r a id e : registry_ok r -> get_entry a id r = Some e ->
  attempted (outbound e)
    (match entries r !! actor with
     | Some c => (push_all (outbound <$> filter (fun e => f e) (values c)) m r).2 | None => r end)
  = (attempted (outbound e) r ++ if decide (a = actor) then if f e then [m] else [] else [])%list.
Proof.
  intros Hok He. destruct (ok_outbound r Hok _ _ _ He) as (ch & Hch & _).
  destruct (entries r !! actor) as [c|] eqn:Hc.
  - rewrite attempted_push_all by eauto using outbounds_nodup. f_equal. destruct (decide (a = actor)) as [->|Hne].
    + pose proof (selected _ _ _ _ _ f Hok Hc He) as Hsel. case_decide; destruct (f e); naive_solver.
    + rewrite decide_False; [done|]. intros (e' & E & Hin)%list_elem_of_fmap. apply list_elem_of_filter in Hin as [_ Hin].
      destruct (values_get _ _ _ _ Hc Hin) as [id' He']. by destruct (ok_distinct r Hok _ _ _ _ _ _ He He' E).
  - rewrite decide_False; [by rewrite app_nil_r|]. intros ->. unfold get_entry in He. by rewrite Hc in He.
Qed.
Lemma attempted_set_entry i a id e r : attempted i (set_entry a id e r) = attempted i r.
Proof. done. Qed.
Lemma attempted_notify i r : attempted i (notify_inventory r) = attempted i r.
Proof. done. Qed.

(** An effect that runs undisturbed sends every connection of every actor
    exactly the messages it has for that connection: a snapshot, message or close
    to the one named, an update to the connections that have the state, a
    broadcast to the open connections that are not excluded and match the tags. *)
Theorem effect_reaches_exactly actor effect r a id e :
  registry_ok r -> get_entry a id r = Some e ->
  attempted (outbound e) (exec (apply_one actor effect) r).2
  = (attempted (outbound e) r ++ addressed actor effect a id e)%list.
Proof.
  intros Hok He. unfold addressed.
  assert (Hnone : attempted (outbound e) r
                  = (attempted (outbound e) r ++ if decide (a = actor) then [] else [])%list)
    by (destruct (decide (a = actor)); by rewrite app_nil_r).
  destruct effect; cbn [apply_one].
  - destruct version as [v|]; [|done].
    destruct (exec_under_lock (PushSnapshot actor connection_id state v) r) as (r' & -> & L).
    cbn [snd]. rewrite (attempted_like _ _ _ L). cbn. unfold apply_state_snapshot.
    rewrite <-(pushed_to actor connection_id _ r a id e) by done. unfold sender.
    destruct (get_entry actor connection_id r) as [e'|] eqn:He'; [|done]. cbn.
    destruct (ok_outbound r Hok _ _ _ He') as (ch & Hch & _). by rewrite !(push_channels _ _ _ ch).
  - destruct version as [v|]; [|done].
    destruct (exec_under_lock (PushUpdate actor changes removed except_connection_ids v) r) as (r' & -> & L).
    cbn [snd]. rewrite (attempted_like _ _ _ L). cbn. unfold apply_state_update.
    rewrite <-(pushed_to_all actor (wants_update except_connection_ids) _ r a id e) by done. by destruct (entries r !! actor).
  - rewrite exec_bind. cbn [exec await registry_step fst snd]. cbv zeta.
    rewrite <-(pushed_to actor connection_id _ r a id e) by done. destruct (sender actor connection_id r) as [s|]; [|done].
    destruct (exec_send s (PushMessage s message) (OutMessage message) r r) as (r' & -> & L); [done|done|].
    by apply attempted_like.
  - rewrite exec_bind. cbn [exec await registry_step fst snd]. cbv zeta.
    rewrite <-(pushed_to_all actor (is_recipient except_connection_ids tags tag_match) _ r a id e) by done. unfold recipients.
    destruct (entries r !! actor) as [c|]; [|done]. rewrite exec_bind.
    destruct (exec_send_each message (outbound <$> filter (fun e => is_recipient except_connection_ids tags tag_match e) (values c)) r r)
      as (l & r' & -> & L); [done|]. by apply attempted_like.
  - rewrite exec_bind. cbn [exec await registry_step fst snd]. cbv zeta.
    rewrite <-(pushed_to actor connection_id _ r a id e) by done. destruct (sender actor connection_id r) as [s|]; [|done].
    destruct (exec_send s (PushClose s code reason) (OutClose code reason) r r) as (r' & -> & L); [done|done|].
    by apply attempted_like.
  - rewrite exec_bind. cbn [exec await registry_step fst snd]. cbv zeta.
    rewrite <-(pushed_to actor connection_id _ r a id e) by done. destruct (sender actor connection_id r) as [s|]; [|done].
    destruct (exec_send s (PushClose s code reason) (OutClose code reason) r r) as (r' & -> & L); [done|done|].
    by apply attempted_like.
  - cbn. unfold apply_set_metadata. destruct (get_entry actor connection_id r); exact Hnone.
  - cbn. unfold apply_set_tags. destruct (get_entry actor connection_id r); exact Hnone.
Qed.
End invariant.

(** * A host at work

    Ada and Grace are connected to a room; Grace has the state, Ada overflows. *)
Definition room : ActorKey := {| project_id := "p"; actor_name := "Room"; actor_id := "one" |}.
Definition person (id : string) (tags : list string) : ActorSocketConnection :=
  {| conn_id := id; conn_metadata := Null; conn_tags := tags |}.
Definition room_requests : list any_request :=
  [Req (Register room (person "ada" ["staff"])); Req (Register room (person "grace" []));
   Req (Activate room "ada"); Req (Activate room "grace");
   Req (PushSnapshot room "grace" (Object []) 1);
   Req (PushUpdate room (Object [("n", Number "1")]) [] [] 2);
   Req (Recv 1%nat false); Req (Recv 1%nat false)]
  ++ replicate 33 (Req (PushMessage 0%nat (Text "x"))) ++ [Req (CancelOverflow 0%nat); Req (Recv 0%nat false)].
Abbreviation room_registry := (play room_requests SocketRegistry_default).

Definition grace_controls : list OutboundMessage :=
  [OutControl (state_control (Object []) 1); OutControl (state_update_control (Object [("n", Number "1")]) [] 2)].
Definition grace_channel : channel :=
  {| queue := []; overflow := false; cancelling := 0; receiving := true; attempts := (., true) <$> grace_controls;
     received := grace_controls |}.
Definition ada_entry : RegisteredSocket :=
  {| connection := person "ada" ["staff"]; outbound := 0; open := true; state_ready := false |}.
Lemma room_registry_grace : channels room_registry !! 1%nat = Some grace_channel.
Proof. vm_compute. reflexivity. Qed.
Lemma room_registry_entry : get_entry room "ada" room_registry = Some ada_entry.
Proof. vm_compute. reflexivity. Qed.

Lemma registry_stays_consistent_witness : activity room_registry = total (entries room_registry).
Proof. exact (proj2 (proj2 (proj2 (registry_stays_consistent room_requests)))). Defined.


(** Between the refusal and the cancellation: the browser reads one message, another
    sender's message is accepted, and the browser receives it, although one that was sent
    earlier was refused; then it is closed. *)
Definition x_message (n : nat) : OutboundMessage := OutMessage (Text (show_u64 (Z.of_nat n))).
Definition gap_requests : list any_request :=
  ([Req (Register room (person "ada" []))] ++ ((fun n => Req (PushMessage 0%nat (Text (show_u64 (Z.of_nat n))))) <$> seq 0 33)
  ++ [Req (Recv 0%nat false); Req (PushMessage 0%nat (Text (show_u64 33)))]
  ++ replicate 32 (Req (Recv 0%nat false)) ++ [Req (CancelOverflow 0%nat); Req (Recv 0%nat false)])%list.
Example gap_before_the_close : exists ch,
  channels (play gap_requests SocketRegistry_default) !! 0%nat = Some ch /\
  (attempts ch).*1 = x_message <$> seq 0 34 /\ refused ch = [x_message 32] /\
  received ch = ((x_message <$> seq 0 32) ++ [x_message 33; QUEUE_FULL])%list.
Proof. eexists. split; [vm_compute; reflexivity|]. split_and!; vm_compute; reflexivity. Qed.

Lemma updates_follow_a_snapshot_witness :
  channels room_registry !! 1%nat = Some grace_channel /\ updates_follow grace_controls.
Proof.
  split; [apply room_registry_grace|].
  exact (proj2 (updates_follow_a_snapshot room_requests 1 grace_channel room_registry_grace) eq_refl).
Defined.

Definition to_staff : ActorSocketEffect := BroadcastEffect (Text "hi") [] ["staff"; "press"] Any.
Lemma effect_reaches_exactly_witness :
  get_entry room "ada" room_registry = Some ada_entry /\
  attempted 0 (exec (apply_one room to_staff) room_registry).2
  = (attempted 0 room_registry ++ [OutMessage (Text "hi")])%list.
Proof.
  split; [apply room_registry_entry|].
  exact (effect_reaches_exactly room to_staff room_registry room "ada" ada_entry
           (play_ok room_requests _ default_ok) room_registry_entry).
Defined.
