(* ===== verification/SocketSessions.v ===== *)
(** Browser sessions of a host ([sockets/browser.rs]) and the host's side of them
    ([host/sockets.rs]).

    A session owns one connection: it hands the messages of the browser to the
    actor one at a time, and the output of the actor to the browser.  The code is
    a program over [host_request]: uses of the registry, questions to storage and
    the host, the clock, and the socket itself.  [tokio::select!] is the request
    [Select], answered with the branch that became ready; its type rules out the
    branch of the handler while there is none.  A session runs for any number of
    turns of its loop.  Spawning a handler is the request [Spawn]; what the spawned
    task does is [dispatch_since]. *)

From S2P Require Import Prelude.
From S2P Require Import Calls.
From S2P Require Import Actors.
From S2P Require Import Snapshots.
From S2P Require Import SocketEffects.
From S2P Require Import Tokens.
From S2P Require Import RequestTraces.
From S2P Require Import SocketRegistry.
Local Open Scope string_scope.
Local Open Scope Z_scope.

(** WebSocket frames, what [socket.recv()] yields, how a send ends *)
Inductive Frame :=
| FrameText (text : string)
| FrameBinary (data : string)
| FramePing (data : string)
| FramePong (data : string)
| FrameClose (frame : option (Z * string)).
Inductive inbound := InFrame (f : Frame) | InError | InEnd.
Inductive delivery := Sent | TimedOut | TransportClosed.

(** The branches of the loop's [select!], with the guard of the handler's branch *)
Inductive branch : bool -> Type :=
| Stopped {running} : branch running
| AuthorityCheck {running} : branch running
| AuthorizationExpired {running} : branch running
| HandlerDone (completed : bool) : branch true
| Inbound {running} (i : inbound) : branch running
| Outbound {running} (senders_gone : bool) : branch running.

Inductive host_request : Type -> Type :=
| Registry {X} (e : registry_request X) : host_request X
| StopCancelled : host_request bool
| StorageAuthority : host_request (Result unit)
| LoadActorState (actor : ActorKey) (host : HostId) (epoch : Z) : host_request (Result (Z * string))
| HandleSocketEvent (i : ActorSocketInvocation) (epoch received : Z) : host_request (Result ActorExecutionResult)
| DiscardSocketEvent (i : ActorSocketInvocation) (received : Z) (outcome : RequestOutcome) : host_request unit
| TrySendEvent (actor : ActorKey) (event : ActorSocketEvent) : host_request bool
| NewUuid : host_request string
| NowMs : host_request Z
| InstantNow : host_request Z
| SendFrame (limit : Z) (f : Frame) : host_request delivery
| Select (running : bool) : host_request (branch running)
| Spawn (ticket : SocketTicket) (event : ActorSocketEvent) (received : Z) : host_request unit
| AwaitHandler (limit : Z) : host_request unit
| Elapsed (limit : Z) : host_request bool.
Abbreviation hcalls := (calls host_request) (only parsing).

(** A registry program in a task of the host *)
Fixpoint on_registry {A} (p : calls registry_request A) : hcalls A :=
  match p with
  | CRet r => CRet r
  | CVis e k => CVis (Registry e) (fun x => on_registry (k x))
  end.

(** [tokio::time::timeout]: the program may be dropped between any two requests *)
Fixpoint timeout {A} (limit : Z) (p : hcalls A) : hcalls (option (Result A)) :=
  elapsed ← await (Elapsed limit);
  if (elapsed : bool) then mret None
  else match p with
       | CRet r => mret (Some r)
       | CVis e k => CVis e (fun x => timeout limit (k x))
       end.

(** * The dispatcher behind the sessions

    The trait [SocketDispatcher] as the operations of a class. *)
Class SocketDispatcher := {
  authorize : SocketTicket -> hcalls unit;
  ensure_authority : hcalls unit;
  dispatcher_dispatch_since : SocketTicket -> ActorSocketInvocation -> Z -> hcalls (list ActorSocketEffect);
  notify : SocketTicket -> ActorSocketEvent -> hcalls unit;
  dispatcher_discard : SocketTicket -> ActorSocketEvent -> Z -> RequestOutcome -> hcalls unit }.

(** [events] says whether the host forwards messages to the control plane. *)
Class HostSocketDispatcher := { hd_host : HostId; hd_session : string; hd_events : bool }.

Definition host_authorize `{HostSocketDispatcher} (ticket : SocketTicket) : hcalls unit :=
  await_ok StorageAuthority;;
  target ← try (with_context (tk_target ticket) "socket ticket has no host binding");
  check_that (String.eqb (st_host_id target) hd_host && String.eqb (st_session_id target) hd_session)
    "socket ticket belongs to another host session";;
  check_that (0 <? st_owner_epoch target) "socket ticket has no ownership epoch";;
  await_ok (LoadActorState (tk_actor ticket) hd_host (st_owner_epoch target));;
  mret ().

Definition host_notify `{HostSocketDispatcher} (ticket : SocketTicket) (event : ActorSocketEvent) : hcalls unit :=
  match event with
  | Message _ _ => if hd_events then await (TrySendEvent (tk_actor ticket) event);; mret () else mret ()
  | _ => mret ()
  end.

Definition host_discard (ticket : SocketTicket) (event : ActorSocketEvent) (received : Z)
    (outcome : RequestOutcome) : hcalls unit :=
  id ← await NewUuid;
  await (DiscardSocketEvent {| sock_request_id := id; sock_actor := tk_actor ticket; sock_event := event;
                               sock_connections := [] |} received outcome).

Definition host_dispatch_since (ticket : SocketTicket) (i : ActorSocketInvocation) (received : Z)
  : hcalls (list ActorSocketEffect) :=
  target ← try (with_context (tk_target ticket) "socket ticket has no host binding");
  result ← await_ok (HandleSocketEvent i (st_owner_epoch target) received);
  match result with
  | Completed _ effects => mret effects
  | _ => try (Err "actor socket execution failed")
  end.

Definition host_dispatcher `{HostSocketDispatcher} : SocketDispatcher := {|
  authorize := host_authorize;
  ensure_authority := await_ok StorageAuthority;
  dispatcher_dispatch_since := host_dispatch_since;
  notify := host_notify;
  dispatcher_discard := host_discard |}.
#[global] Existing Instance host_dispatcher.

(** [HostSockets]: output that actors publish while they run *)
Section publishing.
Context `{Json Value, Json ActorSocketEffect, Base64Std}.

Definition publish (actor : ActorKey) (effects : list ActorSocketEffect) : hcalls unit :=
  await_ok StorageAuthority;;
  try (validate_socket_effects effects);;
  on_registry (apply actor effects).

Definition publish_authorized (actor : ActorKey) (host : HostId) (epoch : Z) (effects : list ActorSocketEffect)
  : hcalls unit :=
  await_ok StorageAuthority;;
  await_ok (LoadActorState actor host epoch);;
  publish actor effects.

Definition published_connections (actor : ActorKey) : hcalls (list ActorSocketConnection) :=
  await_ok StorageAuthority;;
  await (Registry (Connections actor)).
End publishing.

(** * Sessions *)
Abbreviation Closed := (Z * string)%type (only parsing).

Record Session := {
  s_ticket : SocketTicket;
  s_connection : ActorSocketConnection;
  s_outbound : SocketSender;
  s_pending : list (ActorSocketMessage * Z);
  s_handler : bool }.
Definition set_pending (p : list (ActorSocketMessage * Z)) (s : Session) : Session :=
  {| s_ticket := s_ticket s; s_connection := s_connection s; s_outbound := s_outbound s; s_pending := p;
     s_handler := s_handler s |}.
Definition set_handler (h : bool) (s : Session) : Session :=
  {| s_ticket := s_ticket s; s_connection := s_connection s; s_outbound := s_outbound s; s_pending := s_pending s;
     s_handler := h |}.

(** [Result<T, Closed>] *)
Inductive attempt (A : Type) := Go (a : A) | Shut (closed : Closed).
Arguments Go {A} a.
Arguments Shut {A} closed.

Definition MAX_PENDING : nat := 32.

Section browser.
Context `{Json Value, Json ActorSocketEffect, Base64Std, SocketDispatcher}.

Definition dispatch_since (ticket : SocketTicket) (event : ActorSocketEvent) (received : Z) : hcalls unit :=
  stopped ← await StopCancelled;
  check_that (negb stopped) "actor host stopping";;
  ensure_authority;;
  prepared ← on_registry (prepare_event (tk_actor ticket) event);
  id ← await NewUuid;
  effects ← dispatcher_dispatch_since ticket
    {| sock_request_id := id; sock_actor := tk_actor ticket; sock_event := prepared.1;
       sock_connections := prepared.2 |} received;
  ensure_authority;;
  try (validate_socket_effects effects);;
  on_registry (apply (tk_actor ticket) effects);;
  (match prepared.1 with
   | Connect connection => await (Registry (Activate (tk_actor ticket) (conn_id connection)))
   | _ => mret ()
   end);;
  notify ticket prepared.1.
Definition dispatch (ticket : SocketTicket) (event : ActorSocketEvent) : hcalls unit :=
  received ← await InstantNow;
  dispatch_since ticket event received.

Definition remaining (s : Session) : hcalls (attempt Z) :=
  now ← await NowMs;
  let millis := i64_wrap (tk_authorized_until_ms (s_ticket s) - now) in
  mret (if millis <=? 0 then Shut (4408, "socket authorization expired") else Go millis).

Definition send_frame (s : Session) (frame : Frame) : hcalls (attempt unit) :=
  authority ← outcome ensure_authority;
  match authority with
  | Err _ => mret (Shut (1012, "actor host lease expired"))
  | Ok _ =>
      left ← remaining s;
      match left with
      | Shut closed => mret (Shut closed)
      | Go millis =>
          sent ← await (SendFrame (Z.min millis 5000) frame);
          mret (match sent with
                | Sent => Go ()
                | TimedOut => Shut (4408, "socket delivery timed out")
                | TransportClosed => Shut (1006, "transport closed")
                end)
      end
  end.

Definition session_discard (s : Session) (message : ActorSocketMessage) (received : Z) (outcome : RequestOutcome)
  : hcalls unit :=
  dispatcher_discard (s_ticket s) (Message (conn_id (s_connection s)) message) received outcome.

Definition start_since (s : Session) (event : ActorSocketEvent) (received : Z) : hcalls Session :=
  await (Spawn (s_ticket s) event received);;
  mret (set_handler true s).
Definition start (s : Session) (event : ActorSocketEvent) : hcalls Session :=
  received ← await InstantNow;
  start_since s event received.
Definition start_message (s : Session) (message : ActorSocketMessage) (received : Z) : hcalls Session :=
  start_since s (Message (conn_id (s_connection s)) message) received.

Definition enqueue (s : Session) (message : ActorSocketMessage) : hcalls (Session * attempt unit) :=
  received ← await InstantNow;
  if negb (s_handler s) then
    s ← start_message s message received;
    mret (s, Go ())
  else if (length (s_pending s) <? MAX_PENDING)%nat then
    mret (set_pending (s_pending s ++ [(message, received)])%list s, Go ())
  else
    session_discard s message received OutcomeRejected;;
    mret (s, Shut (1013, "socket operation queue is full")).

Definition receive (s : Session) (i : inbound) : hcalls (Session * attempt unit) :=
  match i with
  | InFrame (FrameText text) => enqueue s (Text text)
  | InFrame (FramePing data) => sent ← send_frame s (FramePong data); mret (s, sent)
  | InFrame (FramePong _) => mret (s, Go ())
  | InFrame (FrameClose _) => mret (s, Shut (1000, "client closed"))
  | InFrame (FrameBinary _) => mret (s, Shut (4400, "socket messages must be JSON text"))
  | InError | InEnd => mret (s, Shut (1006, "transport closed"))
  end.

Definition send_outbound (s : Session) (m : OutboundMessage) : hcalls (attempt unit) :=
  match m with
  | OutControl value => send_frame s (FrameText (to_vec value))
  | OutMessage (Text data) => send_frame s (FrameText data)
  | OutMessage _ => mret (Shut (4400, "actor produced a binary message"))
  | OutClose code reason =>
      _ ← send_frame s (FrameClose (Some (code, reason)));
      mret (Shut (code, "actor closed connection"))
  end.

(** The branch of the loop that is ready.  A receiver that is not ready leaves the
    loop as it is. *)
Definition on_ready (s : Session) {running} (ready : branch running) : hcalls (Session * attempt unit) :=
  match ready with
  | Stopped => mret (s, Shut (1012, "actor host stopping"))
  | AuthorityCheck =>
      authority ← outcome ensure_authority;
      mret (s, match authority with Ok _ => Go () | Err _ => Shut (1012, "actor host lease expired") end)
  | AuthorizationExpired => mret (s, Shut (4408, "socket authorization expired"))
  | HandlerDone completed =>
      let s := set_handler false s in
      if negb completed then mret (s, Shut (4400, "actor socket handler failed"))
      else match s_pending s with
           | (message, received) :: rest =>
               s ← start_message (set_pending rest s) message received;
               mret (s, Go ())
           | [] => mret (s, Go ())
           end
  | Inbound i => receive s i
  | Outbound senders_gone =>
      got ← await (Registry (Recv (s_outbound s) senders_gone));
      match got with
      | None => mret (s, Go ())
      | Some None => mret (s, Shut (1006, "socket closed"))
      | Some (Some m) => sent ← send_outbound s m; mret (s, sent)
      end
  end.

(** One turn of [Session::run] *)
Definition turn (s : Session) : hcalls (Session * attempt unit) :=
  left ← remaining s;
  match left with
  | Shut closed => mret (s, Shut closed)
  | Go _ => ready ← await (Select (s_handler s)); on_ready s ready
  end.

(** [Session::run] for a number of turns: [None] when it still runs *)
Fixpoint session_run (turns : nat) (s : Session) : hcalls (Session * option Closed) :=
  match turns with
  | O => mret (s, None)
  | S n =>
      next ← turn s;
      match next with
      | (s, Go _) => session_run n s
      | (s, Shut closed) => mret (s, Some closed)
      end
  end.

Definition close (closed : Closed) : hcalls unit :=
  if closed.1 =? 1006 then mret ()
  else await (SendFrame 1000 (FrameClose (Some closed)));; mret ().

Fixpoint discard_pending (s : Session) (pending : list (ActorSocketMessage * Z)) : hcalls unit :=
  match pending with
  | [] => mret ()
  | (message, received) :: rest =>
      session_discard s message received OutcomeInterrupted;;
      discard_pending s rest
  end.

Definition disconnect (s : Session) (closed : Closed) : hcalls unit :=
  discard_pending s (s_pending s);;
  removed ← await (Registry (Remove (tk_actor (s_ticket s)) (conn_id (s_connection s))));
  (if s_handler s then await (AwaitHandler 5000) else mret ());;
  _ ← timeout 5000 (dispatch (s_ticket s)
        (Disconnect (default (s_connection s) removed) closed.1 closed.2 (closed.1 =? 1000)));
  await (Registry (DropReceiver (s_outbound s))).

Inductive ending := Refused | Running (s : Session) | Finished.

(** [browser::run], with the turns of its session *)
Definition run (turns : nat) (ticket : SocketTicket) : hcalls ending :=
  id ← await NewUuid;
  let connection := {| conn_id := id; conn_metadata := tk_metadata ticket; conn_tags := [] |} in
  registered ← await (Registry (Register (tk_actor ticket) connection));
  if negb (fst registered) then
    close (1013, "actor connection limit reached");;
    mret Refused
  else
    s ← start {| s_ticket := ticket; s_connection := connection; s_outbound := snd registered; s_pending := [];
                 s_handler := false |} (Connect connection);
    ended ← session_run turns s;
    match ended with
    | (s, None) => mret (Running s)
    | (s, Some closed) =>
        close closed;;
        disconnect s closed;;
        mret Finished
    end.

(** [connect]: the status of a refusal, or the session of the upgraded request *)
Definition connect `{JwtKeys, Jwt SocketTicket} (verifier : SocketTicketVerifier) (turns : nat)
    (key : option string) (library_now : Z) : hcalls (ending + Z) :=
  now ← await NowMs;
  match verify_at verifier (default "" key) library_now now with
  | Err _ => mret (inr 401)
  | Ok ticket =>
      authorized ← outcome (authorize ticket);
      match authorized with
      | Err _ => mret (inr 401)
      | Ok _ =>
          stopped ← await StopCancelled;
          if (stopped : bool) then mret (inr 503)
          else ended ← run turns ticket; mret (inl ended)
      end
  end.
End browser.

(** * What a trace shows *)
Definition project {A} (f : forall X, host_request X -> X -> option A) (t : list (event host_request)) : list A :=
  omap (fun ev => match ev with Ev e x => f _ e x end) t.
Lemma project_app {A} (f : forall X, host_request X -> X -> option A) t1 t2 :
  project f (t1 ++ t2) = (project f t1 ++ project f t2)%list.
Proof. apply omap_app. Qed.
Lemma project_nil {A} (f : forall X, host_request X -> X -> option A) (Q : forall X, host_request X -> Prop) t :
  (forall X (e : host_request X) x, Q X e -> f X e x = None) ->
  Forall (fun ev => match ev with @Ev _ X e _ => Q X e end) t -> project f t = [].
Proof.
  intros Hf Ht. induction Ht as [|[X e x] t He Ht IH]; [done|]. unfold project. cbn. by rewrite (Hf X e x He).
Qed.

Definition text_of {h} (b : branch h) : option ActorSocketMessage :=
  match b with Inbound (InFrame (FrameText text)) => Some (Text text) | _ => None end.
Definition done_of {h} (b : branch h) : option bool := match b with HandlerDone completed => Some completed | _ => None end.
Definition message_of (e : ActorSocketEvent) : option ActorSocketMessage :=
  match e with Message _ m => Some m | _ => None end.

(** Texts read from the browser; messages given to a handler; messages discarded
    with an outcome; handlers started; handlers finished *)
Definition texts : list (event host_request) -> list ActorSocketMessage :=
  project (fun X e => match e with Select _ => fun b => text_of b | _ => fun _ => None end).
Definition started : list (event host_request) -> list ActorSocketEvent :=
  project (fun X e => match e with Spawn _ ev _ => fun _ => Some ev | _ => fun _ => None end).
Definition handled (t : list (event host_request)) : list ActorSocketMessage := omap message_of (started t).
Definition discarded (o : RequestOutcome) : list (event host_request) -> list ActorSocketMessage :=
  project (fun X e => match e with
    | DiscardSocketEvent i _ o' => fun _ => if decide (o' = o) then message_of (sock_event i) else None
    | _ => fun _ => None end).
Definition finished : list (event host_request) -> list bool :=
  project (fun X e => match e with Select _ => fun b => done_of b | _ => fun _ => None end).

(** Requests that leave a session's messages and handler alone *)
Definition quiet {X} (e : host_request X) : Prop :=
  match e with Select _ | Spawn _ _ _ | DiscardSocketEvent _ _ _ => False | _ => True end.
Lemma quiet_trace t : Forall (fun ev => match ev with @Ev _ X e _ => quiet e end) t ->
  texts t = [] /\ started t = [] /\ (forall o, discarded o t = []) /\ finished t = [].
Proof.
  intros Ht. split_and!; [| |intros o|]; eapply (project_nil _ (@quiet)); try done; intros X e x He; by destruct e.
Qed.
Lemma quiet_runs {A} (p : calls host_request A) t r : all_calls (@quiet) p -> runs p t r ->
  texts t = [] /\ started t = [] /\ (forall o, discarded o t = []) /\ finished t = [].
Proof. intros Hp Hr. apply quiet_trace. by apply (all_calls_runs _ _ _ _ Hp Hr). Qed.

Lemma all_calls_registry (P : forall X, host_request X -> Prop) {A} (p : calls registry_request A) :
  (forall X (e : registry_request X), P X (Registry e)) -> all_calls P (on_registry p).
Proof. intros HP. induction p as [r|X e k IH]; cbn; [done|]. auto. Qed.
Lemma all_calls_timeout (P : forall X, host_request X -> Prop) {A} limit (p : calls host_request A) :
  P _ (Elapsed limit) -> all_calls P p -> all_calls P (timeout limit p).
Proof.
  intros HP. induction p as [r|X e k IH]; intros Hp; cbn.
  - split; [done|]. by intros [].
  - split; [done|]. intros []; [done|]. destruct Hp. cbn. auto.
Qed.
Lemma quiet_registry {A} (p : calls registry_request A) : all_calls (@quiet) (on_registry p).
Proof. by apply all_calls_registry. Qed.
#[export] Hint Resolve quiet_registry : calls.

Section sessions.
Context `{Json Value, Json ActorSocketEffect, Base64Std, HostSocketDispatcher}.

Lemma quiet_dispatch ticket e : all_calls (@quiet) (dispatch ticket e).
Proof.
  unfold dispatch, dispatch_since. cbn [ensure_authority dispatcher_dispatch_since notify host_dispatcher].
  unfold host_dispatch_since, host_notify. each_call.
Qed.
Lemma quiet_remaining s : all_calls (@quiet) (remaining s).
Proof. unfold remaining. each_call. Qed.
Lemma quiet_send_frame s f : all_calls (@quiet) (send_frame s f).
Proof. unfold send_frame. cbn [ensure_authority host_dispatcher]. each_call. Qed.
Lemma quiet_send_outbound s m : all_calls (@quiet) (send_outbound s m).
Proof.
  unfold send_outbound. destruct m as [[]| |]; try done; [apply quiet_send_frame..|].
  apply all_calls_bind; [apply quiet_send_frame|done].
Qed.
Lemma quiet_close closed : all_calls (@quiet) (close closed).
Proof. unfold close. each_call. Qed.

(** ** One turn of the loop *)
Definition b2n (b : bool) : nat := if b then 1 else 0.
Record accounts (s : Session) (t : list (event host_request)) (s' : Session) : Prop := {
  acc_messages : ((s_pending s).*1 ++ texts t = handled t ++ (s_pending s').*1 ++ discarded OutcomeRejected t)%list;
  acc_interrupted : discarded OutcomeInterrupted t = [];
  acc_handlers : (length (started t) + b2n (s_handler s) = length (finished t) + b2n (s_handler s'))%nat;
  acc_bound : (length (s_pending s) <= MAX_PENDING)%nat -> (length (s_pending s') <= MAX_PENDING)%nat;
  acc_same : s_ticket s' = s_ticket s /\ s_connection s' = s_connection s /\ s_outbound s' = s_outbound s }.
Definition idle_ok (s : Session) : Prop := s_handler s = false -> s_pending s = [].

Lemma session_quiet s t : Forall (fun ev => match ev with @Ev _ X e _ => quiet e end) t -> accounts s t s.
Proof.
  intros (Ht & Hs & Hd & Hf)%quiet_trace.
  split; unfold handled; rewrite ?Ht, ?Hs, ?Hd, ?Hf; cbn; by rewrite ?app_nil_r.
Qed.
Lemma quiet_runs_all {A} (p : calls host_request A) t r : all_calls (@quiet) p -> runs p t r ->
  Forall (fun ev => match ev with @Ev _ X e _ => quiet e end) t.
Proof. apply all_calls_runs. Qed.

Lemma handled_app t1 t2 : handled (t1 ++ t2) = (handled t1 ++ handled t2)%list.
Proof. unfold handled, started. by rewrite project_app, omap_app. Qed.
Lemma accounts_app s t1 s1 t2 s2 : accounts s t1 s1 -> accounts s1 t2 s2 ->
  discarded OutcomeRejected t1 = [] -> accounts s (t1 ++ t2) s2.
Proof.
  intros [A1 B1 C1 D1 (E1 & F1 & G1)] [A2 B2 C2 D2 (E2 & F2 & G2)] R1. split.
  - unfold texts, discarded in *. rewrite !project_app, handled_app, app_assoc, A1, R1. cbn.
    rewrite app_nil_r, <-!app_assoc. by rewrite A2.
  - unfold discarded in *. by rewrite project_app, B1, B2.
  - unfold started, finished in *. rewrite !project_app, !length_app. lia.
  - auto.
  - by rewrite E2, F2, G2.
Qed.

Definition turn_ok (s : Session) (t : list (event host_request)) (r : Session * attempt unit) : Prop :=
  accounts s t r.1 /\ (length (discarded OutcomeRejected t) <= 1)%nat /\
  (forall u, r.2 = Go u -> idle_ok r.1 /\ discarded OutcomeRejected t = []).

Lemma turn_ok_quiet s t a : idle_ok s -> Forall (fun ev => match ev with @Ev _ X e _ => quiet e end) t ->
  turn_ok s t (s, a).
Proof.
  intros Hi Ht. split; [by apply session_quiet|]. apply quiet_trace in Ht as (_ & _ & Hd & _).
  cbn. rewrite Hd. split; [cbn; lia|done].
Qed.

Lemma session_enqueue_ok s m t r h (b : branch h) : idle_ok s -> text_of b = Some m -> runs (enqueue s m) t (Ok r) ->
  turn_ok s (Ev (Select h) b :: t) r.
Proof.
  intros Hi Hb Hr. unfold enqueue in Hr. run_step. run_step.
  assert (Hd : done_of b = None) by by destruct b as [| | | |? []|].
  assert (E : forall t', texts (Ev (Select h) b :: t') = m :: texts t') by (intros; unfold texts, project; cbn; by rewrite Hb).
  assert (F : forall t', finished (Ev (Select h) b :: t') = finished t') by (intros; unfold finished, project; cbn; by rewrite Hd).
  destruct (s_handler s) eqn:Eh; cbn [negb] in Hr.
  - destruct (_ <? _)%nat eqn:El.
    + run_inv. apply Nat.ltb_lt in El. split_and!; [split|cbn; lia|]; rewrite ?E, ?F; cbn; try done.
      * by rewrite fmap_app, app_nil_r.
      * intros _. rewrite length_app. cbn. lia.
      * intros u _. split; [|done]. unfold idle_ok. cbn. congruence.
    + unfold session_discard, dispatcher_discard, host_dispatcher, host_discard in Hr. run_inv.
      split_and!; [split| |]; rewrite ?E, ?F; cbn; rewrite ?decide_True, ?decide_False by done; cbn; try done; lia.
  - unfold start_message, start_since in Hr. run_inv. pose proof (Hi Eh) as Ep.
    split_and!; [split|cbn; lia|]; rewrite ?E, ?F; cbn; rewrite ?Ep, ?Eh; cbn; try done; lia.
Qed.

(** A branch that reads no text and ends no handler *)
Lemma select_quiet s h (b : branch h) (t : list (event host_request)) a : idle_ok s -> text_of b = None -> done_of b = None ->
  Forall (fun ev => match ev with @Ev _ X e _ => quiet e end) t -> turn_ok s (Ev (Select h) b :: t) (s, a).
Proof.
  intros Hi Hb Hd Ht. destruct (turn_ok_quiet s t a Hi Ht) as ([A B C D E] & Hl & Hg).
  assert (Et : texts (Ev (Select h) b :: t) = texts t) by (unfold texts, project; cbn; by rewrite Hb).
  assert (Ef : finished (Ev (Select h) b :: t) = finished t) by (unfold finished, project; cbn; by rewrite Hd).
  split_and!; [split|done|done]; rewrite ?Et, ?Ef; done.
Qed.

Lemma on_ready_ok s h (b : branch h) t r : h = s_handler s -> idle_ok s -> runs (on_ready s b) t (Ok r) ->
  turn_ok s (Ev (Select h) b :: t) r.
Proof.
  intros Hh Hi Hr. destruct b as [h|h|h|completed|h i|h gone]; cbn [on_ready] in Hr.
  - run_inv. by apply select_quiet.
  - cbn [ensure_authority host_dispatcher] in Hr. run_inv. apply select_quiet; try done. by repeat constructor.
  - run_inv. by apply select_quiet.
  - destruct completed; cbn [negb] in Hr.
    + cbn [s_pending set_handler] in Hr. destruct (s_pending s) as [|[m received] rest] eqn:Ep.
      * run_inv. split_and!; [split|cbn; lia|intros u _; split; [intros _; exact Ep|done]]; cbn; rewrite ?Ep, <-?Hh; cbn; try done; lia.
      * unfold start_message, start_since in Hr. run_inv.
        split_and!; [split|cbn; lia|]; cbn; rewrite ?Ep, <-?Hh, ?app_nil_r; cbn; try done; lia.
    + run_inv. split_and!; [split|cbn; lia|]; cbn; rewrite <-?Hh, ?app_nil_r; cbn; try done; lia.
  - unfold receive in Hr. destruct i as [[]| |]; try (run_inv; by apply select_quiet).
    + by eapply session_enqueue_ok.
    + run_step. run_inv. apply select_quiet; try done. rewrite app_nil_r.
      eapply quiet_runs_all; [|done]. apply quiet_send_frame.
  - run_step. run_step. destruct x as [[m|]|].
    + run_step. run_inv. apply select_quiet; try done. rewrite app_nil_r. constructor; [done|].
      eapply quiet_runs_all; [|done]. apply quiet_send_outbound.
    + run_inv. apply select_quiet; try done. by repeat constructor.
    + run_inv. apply select_quiet; try done. by repeat constructor.
Qed.

Lemma turn_accounts s t r : idle_ok s -> runs (turn s) t (Ok r) -> turn_ok s t r.
Proof.
  intros Hi Hr. unfold turn in Hr. apply runs_bind_ok in Hr as (left & t1 & t2 & -> & Hrem & Hr).
  assert (Hq : Forall (fun ev => match ev with @Ev _ X e _ => quiet e end) t1)
    by exact (quiet_runs_all _ _ _ (quiet_remaining s) Hrem).
  assert (Hskip : forall t', turn_ok s t' r -> turn_ok s (t1 ++ t') r).
  { intros t' (Ha & Hb & Hc). pose proof (quiet_trace _ Hq) as (_ & _ & Hd & _). split_and!.
    - eapply accounts_app; [by apply session_quiet|done|done].
    - unfold discarded in *. by rewrite project_app, Hd.
    - unfold discarded in *. rewrite project_app, Hd. done. }
  apply Hskip. destruct left as [left|closed]; [|run_inv; by apply turn_ok_quiet].
  apply runs_bind_ok in Hr as (b & t3 & t4 & -> & Hsel & Hr). apply runs_await in Hsel as (b' & -> & [= <-]).
  by apply on_ready_ok.
Qed.

(** ** Whole sessions *)
Lemma session_run_accounts n : forall s t s' c, idle_ok s -> runs (session_run n s) t (Ok (s', c)) ->
  accounts s t s' /\ (length (discarded OutcomeRejected t) <= 1)%nat /\
  (c = None -> discarded OutcomeRejected t = [] /\ idle_ok s').
Proof.
  induction n as [|n IH]; intros s t s' c Hi Hr; cbn [session_run] in Hr.
  - run_inv. split_and!; [by apply session_quiet|cbn; lia|done].
  - apply runs_bind_ok in Hr as ([s1 a] & t1 & t2 & -> & Ht & Hr).
    destruct (turn_accounts _ _ _ Hi Ht) as (Ha & Hl & Hg). destruct a as [u|closed].
    + destruct (Hg u eq_refl) as [Hi1 Hd1]. destruct (IH _ _ _ _ Hi1 Hr) as (Ha2 & Hl2 & Hn2).
      split_and!; [by eapply accounts_app| |]; unfold discarded in *; rewrite project_app, Hd1; done.
    + run_inv. rewrite app_nil_r. split_and!; done.
Qed.

Lemma discard_pending_trace s l t r : runs (discard_pending s l) t (Ok r) ->
  texts t = [] /\ started t = [] /\ discarded OutcomeInterrupted t = l.*1 /\ discarded OutcomeRejected t = [] /\
  finished t = [].
Proof.
  revert t. induction l as [|[m received] l IH]; intros t Hr; cbn [discard_pending] in Hr.
  - by run_inv.
  - unfold session_discard, dispatcher_discard, host_dispatcher, host_discard in Hr. run_inv.
    destruct (IH _ Hr) as (Ht & Hs & Hi & Hj & Hf).
    unfold texts, started, discarded, finished, project in *. cbn.
    repeat case_decide; try done. cbn. by rewrite Ht, Hs, Hi, Hj, Hf.
Qed.
Lemma disconnect_trace s closed t : runs (disconnect s closed) t (Ok ()) ->
  texts t = [] /\ started t = [] /\ discarded OutcomeInterrupted t = (s_pending s).*1 /\
  discarded OutcomeRejected t = [] /\ finished t = [].
Proof.
  intros Hr. unfold disconnect in Hr. apply runs_bind_ok in Hr as (u & t1 & t2 & -> & Hd & Hr).
  destruct (discard_pending_trace _ _ _ _ Hd) as (Ht & Hs & Hi & Hj & Hf).
  assert (Hq : Forall (fun ev => match ev with @Ev _ X e _ => quiet e end) t2).
  { eapply quiet_runs_all; [|exact Hr]. apply all_calls_bind; [done|]. intros removed.
    apply all_calls_bind; [by destruct (s_handler s)|]. intros _. apply all_calls_bind; [|done].
    apply all_calls_timeout; [done|]. apply quiet_dispatch. }
  apply quiet_trace in Hq as (Ht2 & Hs2 & Hd2 & Hf2).
  unfold texts, started, discarded, finished in *.
  rewrite !project_app, Ht, Hs, Hi, Hj, Hf, Ht2, Hs2, !Hd2, Hf2. by rewrite !app_nil_r.
Qed.

(** ** One handler at a time *)
Definition solo X (e : host_request X) (t : list (event host_request)) : Prop :=
  match e with Spawn _ _ _ => length (started t) = length (finished t) | _ => True end.
Lemma quiet_solo {A} (p : calls host_request A) t : all_calls (@quiet) p -> guarded solo p t.
Proof. apply all_calls_guarded. by intros X []. Qed.
Lemma count_app t1 t2 :
  length (started (t1 ++ t2)) = (length (started t1) + length (started t2))%nat /\
  length (finished (t1 ++ t2)) = (length (finished t1) + length (finished t2))%nat.
Proof. unfold started, finished. by rewrite !project_app, !length_app. Qed.

Lemma on_ready_solo s h (b : branch h) t : h = s_handler s ->
  length (started t) = (length (finished t) + b2n (s_handler s))%nat -> guarded solo (on_ready s b) (t ++ [Ev (Select h) b]).
Proof.
  intros Hh Ht. destruct (count_app t [Ev (Select h) b]) as [Es Ef]. destruct b as [h|h|h|completed|h i|h gone]; cbn [on_ready]; try done.
  - destruct completed; cbn [negb]; [|done]. destruct (s_pending _) as [|[m received] rest]; [done|].
    split; [|done]. cbn -[started finished]. rewrite Es, Ef, Ht. rewrite <-Hh. cbn. lia.
  - unfold receive. destruct i as [[]| |]; try done.
    + unfold enqueue. split; [done|]. intros received. cbn beta. destruct (s_handler s) eqn:Eh; cbn [negb].
      * destruct (_ <? _)%nat; [done|]. apply guarded_bind; [|done]. by split; [|intros; split].
      * split; [|done]. destruct (count_app (t ++ [Ev (Select h) (Inbound (InFrame (FrameText text)))]) [Ev InstantNow received]) as [Es2 Ef2].
        cbn -[started finished]. rewrite Es2, Ef2, Es, Ef, Ht. cbn. lia.
    + apply guarded_bind; [|done]. apply quiet_solo, quiet_send_frame.
  - split; [done|]. intros [[m|]|]; try done. apply guarded_bind; [|done]. apply quiet_solo, quiet_send_outbound.
Qed.
Lemma turn_solo s t : length (started t) = (length (finished t) + b2n (s_handler s))%nat -> guarded solo (turn s) t.
Proof.
  intros Ht. unfold turn. apply guarded_bind; [apply quiet_solo, quiet_remaining|]. intros t1 left Hr.
  destruct left as [left|]; [|done]. split; [done|]. intros b. cbn beta. apply on_ready_solo; [done|].
  apply (quiet_runs_all _ _ _ (quiet_remaining s)), quiet_trace in Hr as (_ & Hs & _ & Hf).
  destruct (count_app t t1) as [-> ->]. rewrite Hs, Hf. cbn. lia.
Qed.
Lemma session_run_solo n : forall s t, idle_ok s ->
  length (started t) = (length (finished t) + b2n (s_handler s))%nat -> guarded solo (session_run n s) t.
Proof.
  induction n as [|n IH]; intros s t Hi Ht; cbn [session_run]; [done|].
  apply guarded_bind; [by apply turn_solo|]. intros t1 [s1 [u|]] Hr; [|done].
  destruct (turn_accounts _ _ _ Hi Hr) as ([_ _ Hc _ _] & _ & Hg). apply IH; [by apply (Hg u)|].
  destruct (count_app t t1) as [-> ->]. cbn in Hc. lia.
Qed.
Lemma discard_pending_solo s l t : guarded solo (discard_pending s l) t.
Proof.
  revert t. induction l as [|[m received] l IH]; intros t; cbn [discard_pending]; [done|].
  apply guarded_bind; [by split; [|intros; split]|auto].
Qed.
Lemma disconnect_solo s closed t : guarded solo (disconnect s closed) t.
Proof.
  unfold disconnect. apply guarded_bind; [apply discard_pending_solo|]. intros t1 _ _.
  apply guarded_bind; [done|]. intros t2 removed _. apply guarded_bind; [by destruct (s_handler s)|]. intros t3 _ _.
  apply guarded_bind; [|done]. apply quiet_solo, all_calls_timeout; [done|]. apply quiet_dispatch.
Qed.
Lemma run_solo turns ticket : guarded solo (run turns ticket) [].
Proof.
  unfold run. split; [done|]. intros id. cbn beta zeta. split; [done|]. intros [[] snd]; cbn beta iota; cbn [negb].
  - apply guarded_bind; [by split; [|intros; split]|]. intros t1 s Hr. unfold start, start_since in Hr. run_inv.
    apply guarded_bind; [by apply session_run_solo|]. intros t2 [s2 [closed|]] _; [|done].
    apply guarded_bind; [apply quiet_solo, quiet_close|]. intros t3 _ _.
    apply guarded_bind; [apply disconnect_solo|done].
  - apply guarded_bind; [apply quiet_solo, quiet_close|done].
Qed.

(** ** The parts of a session *)
Definition new_connection (ticket : SocketTicket) (id : string) : ActorSocketConnection :=
  {| conn_id := id; conn_metadata := tk_metadata ticket; conn_tags := [] |}.
Definition new_session (ticket : SocketTicket) (id : string) (out : SocketSender) : Session :=
  {| s_ticket := ticket; s_connection := new_connection ticket id; s_outbound := out; s_pending := []; s_handler := true |}.
Definition opening (ticket : SocketTicket) (id : string) (out : SocketSender) (received : Z) : list (event host_request) :=
  [Ev NewUuid id; Ev (Registry (Register (tk_actor ticket) (new_connection ticket id))) (true, out);
   Ev InstantNow received; Ev (Spawn ticket (Connect (new_connection ticket id)) received) ()].

Lemma run_parts turns ticket t e : runs (run turns ticket) t (Ok e) -> exists id out,
  (e = Refused /\ exists t1,
     t = Ev NewUuid id :: Ev (Registry (Register (tk_actor ticket) (new_connection ticket id))) (false, out) :: t1 /\
     runs (close (1013, "actor connection limit reached")) t1 (Ok ())) \/
  (exists received t1 s' c, runs (session_run turns (new_session ticket id out)) t1 (Ok (s', c)) /\
     match c with
     | None => e = Running s' /\ t = (opening ticket id out received ++ t1)%list
     | Some closed => e = Finished /\ exists t2 t3, t = (opening ticket id out received ++ t1 ++ t2 ++ t3)%list /\
         runs (close closed) t2 (Ok ()) /\ runs (disconnect s' closed) t3 (Ok ())
     end).
Proof.
  intros Hr. unfold run in Hr. apply runs_bind_ok in Hr as (id & t0 & t' & -> & Hid & Hr).
  apply runs_await in Hid as (? & -> & [= <-]). cbn zeta in Hr.
  apply runs_bind_ok in Hr as ([ok out] & t1 & t'' & -> & Hreg & Hr). apply runs_await in Hreg as (? & -> & [= <-]).
  exists id, out. destruct ok; cbn [negb fst snd] in Hr.
  - right. apply runs_bind_ok in Hr as (s0 & t2 & t3 & -> & Hs & Hr).
    unfold start, start_since in Hs. apply runs_bind_ok in Hs as (received & t4 & t5 & -> & Hi & Hs).
    apply runs_await in Hi as (? & -> & [= <-]). apply runs_bind_ok in Hs as ([] & t6 & t7 & -> & Hsp & Hs).
    apply runs_await in Hsp as (? & -> & [= <-]). apply runs_inv in Hs as [-> [= <-]].
    apply runs_bind_ok in Hr as ([s' c] & t8 & t9 & -> & Hs & Hr).
    exists received, t8, s', c. split; [exact Hs|]. destruct c as [closed|].
    + apply runs_bind_ok in Hr as ([] & t10 & t11 & -> & Hc & Hr). apply runs_bind_ok in Hr as ([] & t12 & t13 & -> & Hd & Hr).
      apply runs_inv in Hr as [-> [= <-]]. split; [done|]. exists t10, t12. by rewrite !app_nil_r.
    + apply runs_inv in Hr as [-> [= <-]]. split; [done|]. by rewrite !app_nil_r.
  - left. apply runs_bind_ok in Hr as ([] & t2 & t3 & -> & Hc & Hr). apply runs_inv in Hr as [-> [= <-]].
    split; [done|]. exists t2. by rewrite !app_nil_r.
Qed.

(** Messages that an unfinished session still holds *)
Definition waiting (e : ending) : list ActorSocketMessage :=
  match e with Running s => (s_pending s).*1 | _ => [] end.

(** C11: A browser's messages reach the actor in order, one at a time, and none is
    lost silently.  At any moment the texts read from the socket are, in this
    order, those given to a handler, those discarded as interrupted when the
    session ended, those still waiting, and at most one that was rejected because 32
    were waiting; and a handler starts only when all earlier ones have finished. *)
Theorem messages_are_accounted_for turns ticket t e :
  runs (run turns ticket) t (Ok e) ->
  texts t = (handled t ++ discarded OutcomeInterrupted t ++ waiting e ++ discarded OutcomeRejected t)%list /\
  (length (discarded OutcomeInterrupted t ++ waiting e) <= MAX_PENDING)%nat /\
  (length (discarded OutcomeRejected t) <= 1)%nat /\
  (forall t1 tk ev received t2, t = (t1 ++ Ev (Spawn tk ev received) () :: t2)%list ->
     length (started t1) = length (finished t1)).
Proof.
  intros Hr.
  assert (Hsolo : forall t1 tk ev received t2, t = (t1 ++ Ev (Spawn tk ev received) () :: t2)%list ->
     length (started t1) = length (finished t1)).
  { intros t1 tk ev received t2 Et.
    exact (guarded_runs solo _ _ _ _ (run_solo turns ticket) Hr t1 _ (Spawn tk ev received) () t2 Et). }
  cut (texts t = (handled t ++ discarded OutcomeInterrupted t ++ waiting e ++ discarded OutcomeRejected t)%list /\
       (length (discarded OutcomeInterrupted t ++ waiting e) <= MAX_PENDING)%nat /\
       (length (discarded OutcomeRejected t) <= 1)%nat); [naive_solver|]. clear Hsolo.
  destruct (run_parts _ _ _ _ Hr) as (id & out & [(-> & t1 & -> & Hc)|(received & t1 & s' & c & Hs & Hc)]).
  - apply (quiet_runs_all _ _ _ (quiet_close _)), quiet_trace in Hc as (Ct & Cs & Cd & _).
    unfold handled, texts, started, discarded, project in *. cbn. rewrite Ct, Cs, !Cd. cbn.
    split_and!; [done|unfold MAX_PENDING; lia|lia].
  - assert (Hidle : idle_ok (new_session ticket id out)) by done.
    destruct (session_run_accounts _ _ _ _ _ Hidle Hs) as ([Ha Hi _ Hb _] & Hl & Hn). cbn in Ha.
    specialize (Hb ltac:(cbn; unfold MAX_PENDING; lia)). destruct c as [closed|].
    + destruct Hc as (-> & t2 & t3 & -> & Hc & Hd).
      apply (quiet_runs_all _ _ _ (quiet_close closed)), quiet_trace in Hc as (Ct & Cs & Cd & _).
      apply disconnect_trace in Hd as (Dt & Ds & Di & Dr & _).
      unfold handled, texts, started, discarded, project in *. cbn.
      rewrite !omap_app, Ha, Hi, Ct, Cs, !Cd, Dt, Ds, Di, Dr. cbn. rewrite !app_nil_r, <-?app_assoc.
      split_and!; [done|by rewrite length_fmap|done].
    + destruct Hc as [-> ->]. destruct (Hn eq_refl) as [Hd _].
      unfold handled, texts, started, discarded, project in *. cbn. rewrite Ha, Hi, Hd. cbn.
      split_and!; [done|by rewrite length_fmap|lia].
Qed.

(** ** Authority *)
(** Requests that make the effects of an actor visible *)
Definition publishes {X} (e : registry_request X) : Prop :=
  match e with
  | Activate _ _ | PushSnapshot _ _ _ _ | PushUpdate _ _ _ _ _ | SetMetadata _ _ _ | SetTags _ _ _
  | PushMessage _ _ | PushClose _ _ _ => True
  | _ => False
  end.

(** The request [e], made after [t], is what one of the effects of [actor] asks for; a
    message or a close goes to a sender that the registry has named for it. *)
Definition of_effect (actor : ActorKey) (effect : ActorSocketEffect) {X} (e : registry_request X)
    (t : list (event host_request)) : Prop :=
  match e with
  | PushSnapshot a id state version => a = actor /\ effect = StateSnapshotEffect id state (Some version)
  | PushUpdate a changes removed except version =>
      a = actor /\ effect = StateUpdateEffect changes removed except (Some version)
  | SetMetadata a id metadata => a = actor /\ effect = SetMetadataEffect id metadata
  | SetTags a id tags => a = actor /\ effect = SetTagsEffect id tags
  | PushMessage s m =>
      (exists id, effect = SendEffect id m /\ Ev (Registry (Sender actor id)) (Some s) ∈ t) \/
      (exists except tags tag_match ss, effect = BroadcastEffect m except tags tag_match /\
         Ev (Registry (Recipients actor except tags tag_match)) ss ∈ t /\ s ∈ ss)
  | PushClose s code reason => exists id, (effect = CloseEffect id code reason \/ effect = RejectEffect id code reason) /\
      Ev (Registry (Sender actor id)) (Some s) ∈ t
  | _ => False
  end.
Definition of_effects (actor : ActorKey) (effects : list ActorSocketEffect) {X} (e : registry_request X)
    (t : list (event host_request)) : Prop :=
  exists effect, effect ∈ effects /\ of_effect actor effect e t.
Definition publishes_effects (actor : ActorKey) (effects : list ActorSocketEffect) X (e : host_request X)
    (t : list (event host_request)) : Prop :=
  match e with Registry e => publishes e -> of_effects actor effects e t | _ => True end.

Lemma on_registry_bind {A B} (p : calls registry_request A) (f : A -> calls registry_request B) :
  forall t P, guarded P (on_registry p ≫= fun a => on_registry (f a)) t -> guarded P (on_registry (p ≫= f)) t.
Proof.
  induction p as [[a|e]|X e k IH]; intros t P Hg; cbn in *; [done|done|]. destruct Hg as [He Hk]. split; [done|].
  intros x. apply IH, Hk.
Qed.
Lemma guarded_cancels (P : forall X, host_request X -> list (event host_request) -> Prop) ss t : (forall s t, P _ (Registry (CancelOverflow s)) t) ->
  guarded P (on_registry (each (fun s => await (CancelOverflow s)) ss)) t.
Proof. intros HP. revert t. induction ss as [|s ss IH]; intros t; [done|]. split; [apply HP|]. intros []. cbn. apply on_registry_bind, guarded_bind; [apply IH|done]. Qed.
Lemma guarded_send (P : forall X, host_request X -> list (event host_request) -> Prop) s e t : (forall s t, P _ (Registry (CancelOverflow s)) t) -> P _ (Registry e) t ->
  guarded P (on_registry (send s e)) t.
Proof. intros HP He. split; [done|]. intros []; cbn; [done|]. split; [apply HP|done]. Qed.
Lemma guarded_under_lock (P : forall X, host_request X -> list (event host_request) -> Prop) e t : (forall s t, P _ (Registry (CancelOverflow s)) t) -> P _ (Registry e) t ->
  guarded P (on_registry (send_under_lock e)) t.
Proof.
  intros HP He. split; [done|]. intros ss. cbn. apply on_registry_bind, guarded_bind; [by apply guarded_cancels|done].
Qed.

(** Applying effects asks the registry for nothing else. *)
Lemma apply_one_effects actor effects effect t : effect ∈ effects ->
  guarded (publishes_effects actor effects) (on_registry (apply_one actor effect)) t.
Proof.
  intros Hin.
  assert (forall s t, publishes_effects actor effects _ (Registry (CancelOverflow s)) t) as Hc by (by intros s t' []).
  destruct effect; cbn [apply_one].
  - destruct version; [|done]. apply guarded_under_lock; [done|]. intros _. by eexists.
  - destruct version; [|done]. apply guarded_under_lock; [done|]. intros _. by eexists.
  - split; [by intros []|]. intros [s|]; [|done]. apply (guarded_send _ s (PushMessage s message)); [done|]. intros _. eexists. split; [done|].
    left. eexists. split; [done|in_trace].
  - split; [by intros []|]. intros ss. apply on_registry_bind, guarded_bind; [|done].
    assert (forall ss', (forall s, s ∈ ss' -> s ∈ ss) -> forall t', Ev (Registry (Recipients actor except_connection_ids tags tag_match)) ss ∈ t' ->
      guarded (publishes_effects actor effects) (on_registry (each (fun s => send s (PushMessage s message)) ss')) t') as Hall.
    { induction ss' as [|s ss' IH]; intros Hss t' Ht; [done|]. cbn [each]. apply on_registry_bind, guarded_bind.
      - apply guarded_send; [done|]. intros _. eexists. split; [done|]. right. eexists _, _, _, ss.
        split_and!; [done|done|apply Hss; by left].
      - intros t1 [] _. apply on_registry_bind, guarded_bind; [|done]. apply IH; [|in_trace]. intros s' Hs'. apply Hss. by right. }
    apply Hall; [done|in_trace].
  - split; [by intros []|]. intros [s|]; [|done]. apply (guarded_send _ s (PushClose s code reason)); [done|]. intros _. eexists. split; [done|].
    eexists. split; [by left|in_trace].
  - split; [by intros []|]. intros [s|]; [|done]. apply (guarded_send _ s (PushClose s code reason)); [done|]. intros _. eexists. split; [done|].
    eexists. split; [by right|in_trace].
  - split; [|done]. intros _. by eexists.
  - split; [|done]. intros _. by eexists.
Qed.
Lemma apply_effects actor effects t : guarded (publishes_effects actor effects) (on_registry (apply actor effects)) t.
Proof.
  unfold apply. apply on_registry_bind, guarded_bind; [|done].
  assert (forall l, (forall x, x ∈ l -> x ∈ effects) -> forall t,
    guarded (publishes_effects actor effects) (on_registry (each (apply_one actor) l)) t) as Hall; [|by apply Hall].
  induction l as [|effect l IH]; intros Hl t'; [done|]. cbn [each]. apply on_registry_bind, guarded_bind.
  - apply apply_one_effects, Hl. by left.
  - intros t1 [] _. apply on_registry_bind, guarded_bind; [|done]. apply IH. intros x Hx. apply Hl. by right.
Qed.

Lemma guarded_weaken (P Q : forall X, host_request X -> list (event host_request) -> Prop) {A} (p : calls host_request A) t :
  (forall X (e : host_request X) t', P X e t' -> Q X e t') -> guarded P p t -> guarded Q p t.
Proof. intros HPQ. revert t. induction p as [r|X e k IH]; intros t; cbn; [done|]. intros []. auto. Qed.

(** What makes effects visible: the handler of an event of a session, the actor while it
    runs, and a request to the host to publish for an actor *)
Inductive output :=
| OfEvent (ticket : SocketTicket) (ev : ActorSocketEvent) (received : Z)
| OfActor (actor : ActorKey) (effects : list ActorSocketEffect)
| OfRequest (actor : ActorKey) (host : HostId) (epoch : Z) (effects : list ActorSocketEffect).
Definition output_code (o : output) : hcalls unit :=
  match o with
  | OfEvent ticket ev received => dispatch_since ticket ev received
  | OfActor actor effects => publish actor effects
  | OfRequest actor host epoch effects => publish_authorized actor host epoch effects
  end.

(** The actor's answer with these effects, and storage's confirmation after it *)
Definition confirmed (received : Z) (effects : list ActorSocketEffect) (t : list (event host_request)) : Prop :=
  exists i epoch result t1 t2,
    t = (t1 ++ Ev (HandleSocketEvent i epoch received) (Ok (Completed result effects))
            :: Ev StorageAuthority (Ok ()) :: t2)%list.
(** [e] may be made after [t]. *)
Definition entitled (o : output) {X} (e : registry_request X) (t : list (event host_request)) : Prop :=
  match o with
  | OfEvent ticket ev received => exists effects,
      confirmed received effects t /\ validate_socket_effects effects = Ok () /\
      (of_effects (tk_actor ticket) effects e t \/
       exists c, ev = Connect c /\ match e with Activate a id => a = tk_actor ticket /\ id = conn_id c | _ => False end)
  | OfActor actor effects =>
      (exists t1, t = Ev StorageAuthority (Ok ()) :: t1) /\ validate_socket_effects effects = Ok () /\
      of_effects actor effects e t
  | OfRequest actor host epoch effects =>
      (exists loaded t1, t = Ev StorageAuthority (Ok ()) :: Ev (LoadActorState actor host epoch) (Ok loaded)
                               :: Ev StorageAuthority (Ok ()) :: t1) /\
      validate_socket_effects effects = Ok () /\ of_effects actor effects e t
  end.
Definition entitles (o : output) X (e : host_request X) (t : list (event host_request)) : Prop :=
  match e with Registry e => publishes e -> entitled o e t | _ => True end.

Lemma guarded_stable (P Q : forall X, host_request X -> list (event host_request) -> Prop) (K : list (event host_request) -> Prop)
    {A} (p : calls host_request A) t :
  (forall t1 t2, K t1 -> K (t1 ++ t2)%list) -> (forall X (e : host_request X) t, K t -> P X e t -> Q X e t) ->
  K t -> guarded P p t -> guarded Q p t.
Proof.
  intros HK HPQ. revert t. induction p as [r|X e k IH]; intros t Ht; cbn; [done|]. intros [He Hk].
  split; [by apply HPQ|]. intros x. apply IH; [by apply HK|apply Hk].
Qed.
Lemma prepare_publishes_nothing (P : forall X, host_request X -> list (event host_request) -> Prop) actor ev t :
  (forall Y (e : registry_request Y) t, ~ publishes e -> P Y (Registry e) t) ->
  guarded P (on_registry (prepare_event actor ev)) t.
Proof. intros HP. destruct ev; cbn; repeat (split; [apply HP; naive_solver|intros]); done. Qed.
Lemma prepare_event_connect actor ev t prepared c :
  runs (on_registry (prepare_event actor ev)) t (Ok prepared) -> prepared.1 = Connect c -> ev = Connect c.
Proof.
  destruct ev; cbn; intros Hr E; apply runs_inv in Hr as (x & t' & _ & Hr).
  - apply runs_inv in Hr as [_ [= <-]]. exact E.
  - apply runs_inv in Hr as [_ [= <-]]. done.
  - apply runs_inv in Hr as (y & t'' & _ & Hr). apply runs_inv in Hr as [_ [= <-]]. done.
Qed.

Lemma publish_entitled actor effects t0 (K : list (event host_request) -> Prop) :
  (forall t1 t2, K t1 -> K (t1 ++ t2)%list) -> K (t0 ++ [Ev StorageAuthority (Ok ())])%list ->
  guarded (fun X e t => match e with
                        | Registry e => publishes e -> K t /\ validate_socket_effects effects = Ok () /\ of_effects actor effects e t
                        | _ => True end) (publish actor effects) t0.
Proof.
  intros HK Ht. unfold publish. apply guarded_bind; [done|]. intros t1 [] Ha. apply runs_await_ok in Ha as ->.
  apply guarded_bind; [done|]. intros t2 [] Hv. apply runs_try in Hv as [-> Hv]. rewrite app_nil_r.
  eapply (guarded_stable _ _ K); [done| |exact Ht|apply apply_effects].
  intros X [] t HKt He; try done. intros Hp. split_and!; [done|by symmetry|by apply He].
Qed.

Lemma dispatch_entitled ticket ev received :
  guarded (entitles (OfEvent ticket ev received)) (dispatch_since ticket ev received) [].
Proof.
  unfold dispatch_since. cbn [ensure_authority dispatcher_dispatch_since host_dispatcher].
  apply guarded_bind; [done|]. intros u1 stopped _. apply guarded_bind; [done|]. intros u2 _ _.
  apply guarded_bind; [done|]. intros u3 _ _. apply guarded_bind; [apply prepare_publishes_nothing; intros Y e t Hn Hp; contradiction|].
  intros u4 prepared Hprep. apply guarded_bind; [done|]. intros u5 id _.
  apply guarded_bind.
  { unfold host_dispatch_since. destruct (tk_target ticket); cbn; [|done]. split; [done|]. intros [[]|]; done. }
  intros u6 effects Hd. unfold host_dispatch_since in Hd. run_step. run_step. run_step. run_step.
  destruct a0 as [result effects'| | |]; run_inv; [|done..].
  apply guarded_bind; [done|]. intros u7 [] Ha. apply runs_await_ok in Ha as ->.
  apply guarded_bind; [done|]. intros u8 [] Hv. apply runs_try in Hv as [-> Hv].
  set (K := fun t => confirmed received effects t).
  assert (HK : forall t1 t2, K t1 -> K (t1 ++ t2)%list).
  { intros v1 v2 (i & epoch & res & w1 & w2 & ->). exists i, epoch, res, w1, (w2 ++ v2)%list. by rewrite <-app_assoc. }
  match goal with |- guarded _ _ ?t0 => assert (Ht : K t0) end.
  { cbn [app]. rewrite !app_nil_r. rewrite <-(app_assoc _ [Ev (HandleSocketEvent _ _ _) _]).
    eexists _, _, _, _, []. reflexivity. }
  revert Ht. match goal with |- K ?t0 -> _ => generalize t0 end. intros t0 Ht. apply guarded_bind.
  { eapply (guarded_stable _ _ K); [done| |exact Ht|apply apply_effects].
    intros X [] t HKt He; try done. intros Hp. exists effects. split_and!; [done|by symmetry|left; by apply He]. }
  intros u9 [] _. apply guarded_bind.
  { destruct prepared.1 as [c| |] eqn:Ep; [|done|done]. split; [|done]. intros _. exists effects.
    split_and!; [by apply HK|by symmetry|]. right. exists c. split; [by eapply prepare_event_connect|done]. }
  intros u10 [] _. unfold notify, host_dispatcher, host_notify. destruct prepared.1; try done. by destruct hd_events.
Qed.

(** C13: Every request that makes output of an actor visible is what one of the effects
    asks for that were validated before it, to a sender the registry named for it (or the
    activation of the connection that a connect event opened), and storage confirmed the
    host's authority before it.  For the effects that the handler of a socket event
    returns, that confirmation comes after the actor's operation completed with just
    these effects, and so was committed; before that a handler only looks at the registry
    or removes the connection that ended.  Output that an actor publishes while it runs,
    or through a request to its host, is visible before the operation completes, after
    storage confirmed the authority and, for a request, the epoch of the actor. *)
Theorem effects_need_authority o t r t1 X (e : registry_request X) x t2 :
  runs (output_code o) t r -> t = (t1 ++ Ev (Registry e) x :: t2)%list -> publishes e -> entitled o e t1.
Proof.
  intros Hr Et. cut (guarded (entitles o) (output_code o) []).
  { intros Hg. exact (guarded_runs _ _ _ _ _ Hg Hr t1 _ (Registry e) x t2 Et). }
  clear. destruct o as [ticket ev received|actor effects|actor host epoch effects]; cbn [output_code].
  - apply dispatch_entitled.
  - eapply guarded_weaken; [|apply (publish_entitled actor effects [] (fun t => exists t1, t = Ev StorageAuthority (Ok ()) :: t1))].
    + by intros X [] t He.
    + intros t1 t2 [t3 ->]. by eexists.
    + by eexists.
  - unfold publish_authorized. apply guarded_bind; [done|]. intros t1 [] Ha. apply runs_await_ok in Ha as ->.
    apply guarded_bind; [done|]. intros t2 loaded Hl. apply runs_await_ok in Hl as ->.
    eapply guarded_weaken; [|apply (publish_entitled actor effects _ (fun t => exists loaded t1,
      t = Ev StorageAuthority (Ok ()) :: Ev (LoadActorState actor host epoch) (Ok loaded) :: Ev StorageAuthority (Ok ()) :: t1))].
    + by intros X [] t He.
    + intros t1 t2 (l & t3 & ->). by eexists _, _.
    + by eexists _, _.
Qed.

(** The text of the frame that carries a message *)
Definition frame_text (m : OutboundMessage) : option string :=
  match m with
  | OutControl value => Some (to_vec value)
  | OutMessage (Text data) => Some data
  | _ => None
  end.

(** Before a text frame: the message received from the session's channel, the
    confirmation of storage, the clock before the end of the authorization *)
Definition framed (from : list (event host_request)) (out : SocketSender) (until : Z) X (e : host_request X) (t : list (event host_request)) : Prop :=
  match e with
  | SendFrame limit (FrameText text) => exists t0 gone m now,
      t = (from ++ t0 ++ [Ev (Registry (Recv out gone)) (Some (Some m)); Ev StorageAuthority (Ok ()); Ev NowMs now])%list /\
      frame_text m = Some text /\ 0 < i64_wrap (until - now) /\ limit = Z.min (i64_wrap (until - now)) 5000
  | _ => True
  end.
(** Requests other than frames *)
Definition frameless {X} (e : host_request X) : Prop := match e with SendFrame _ _ => False | _ => True end.
Lemma send_frame_framed from s f t :
  (forall text, f = FrameText text -> exists t0 gone m,
     t = (from ++ t0 ++ [Ev (Registry (Recv (s_outbound s) gone)) (Some (Some m))])%list /\ frame_text m = Some text) ->
  guarded (framed from (s_outbound s) (tk_authorized_until_ms (s_ticket s))) (send_frame s f) t.
Proof.
  intros Hf. unfold send_frame. cbn [ensure_authority host_dispatcher]. split; [done|]. intros [[]|]; [|done]. cbn beta.
  split; [done|]. intros now. cbn. destruct (_ <=? 0) eqn:El; cbn; [done|]. split; [|done]. bools.
  destruct f; try done. destruct (Hf text eq_refl) as (t0 & gone & m & -> & Hm). exists t0, gone, m, now.
  split_and!; [by rewrite <-!app_assoc|done|lia|done].
Qed.

Lemma on_ready_framed from s h (b : branch h) t :
  guarded (framed from (s_outbound s) (tk_authorized_until_ms (s_ticket s))) (on_ready s b) (from ++ t).
Proof.
  destruct b as [h|h|h|completed|h i|h gone]; cbn [on_ready]; try done.
  - destruct completed; cbn [negb]; [|done]. destruct (s_pending _) as [|[m received] rest]; [done|]. by split.
  - unfold receive. destruct i as [[]| |]; try done.
    + unfold enqueue. split; [done|]. intros received. cbn beta. destruct (s_handler s); cbn [negb]; [|by split].
      destruct (_ <? _)%nat; [done|]. by repeat (split; [done|intros]).
    + apply guarded_bind; [|done]. by apply send_frame_framed.
  - split; [done|]. intros [[m|]|]; try done. apply guarded_bind; [|done]. unfold send_outbound.
    destruct m as [[]| |]; try done.
    + apply send_frame_framed. intros text [= <-]. eexists _, _, _.
      rewrite <-app_assoc. done.
    + apply send_frame_framed. intros text [= <-]. eexists _, _, _.
      rewrite <-app_assoc. done.
    + apply guarded_bind; [|done]. by apply send_frame_framed.
Qed.
Lemma session_run_framed from n : forall s t, idle_ok s ->
  guarded (framed from (s_outbound s) (tk_authorized_until_ms (s_ticket s))) (session_run n s) (from ++ t).
Proof.
  induction n as [|n IH]; intros s t Hi; cbn [session_run]; [done|]. apply guarded_bind.
  - unfold turn. apply guarded_bind; [by split|]. intros t1 [left|] _; [|done]. split; [done|]. intros b. rewrite <-!app_assoc. apply on_ready_framed.
  - intros t1 [s1 [u|]] Hr; [|done]. destruct (turn_accounts _ _ _ Hi Hr) as ([_ _ _ _ (Et & _ & Eo)] & _ & Hg).
    cbn in Et, Eo. rewrite <-Et, <-Eo, <-app_assoc. apply IH. by apply (Hg u).
Qed.
Lemma disconnect_frameless s closed : all_calls (@frameless) (disconnect s closed).
Proof.
  unfold disconnect. apply all_calls_bind.
  - induction (s_pending s) as [|[m received] l IHl]; cbn [discard_pending]; [done|].
    apply all_calls_bind; [by repeat (split; [done|intros])|done].
  - intros _. apply all_calls_bind; [done|]. intros removed. apply all_calls_bind; [by destruct (s_handler s)|].
    intros _. apply all_calls_bind; [|done]. apply all_calls_timeout; [done|]. unfold dispatch, dispatch_since.
    cbn [ensure_authority dispatcher_dispatch_since notify host_dispatcher]. unfold host_dispatch_since, host_notify.
    assert (Hreg : forall A (p : calls registry_request A), all_calls (@frameless) (on_registry p))
      by (intros A p; by apply all_calls_registry).
    each_call; auto.
Qed.

(** A text frame of the session that [ticket] opened *)
Definition framed_in (ticket : SocketTicket) X (e : host_request X) (t : list (event host_request)) : Prop :=
  exists id out,
    framed [Ev NewUuid id; Ev (Registry (Register (tk_actor ticket) (new_connection ticket id))) (true, out)]
      out (tk_authorized_until_ms ticket) X e t.
Lemma close_framed ticket closed t : guarded (framed_in ticket) (close closed) t.
Proof. unfold close. destruct (_ =? _); [done|]. split; [|done]. by exists "", O. Qed.
Lemma run_framed turns ticket : guarded (framed_in ticket) (run turns ticket) [].
Proof.
  unfold run. split; [by exists "", O|]. intros id. cbn beta zeta. split; [by exists "", O|]. intros [[] out]; cbn beta iota; cbn [negb].
  - apply guarded_bind.
    { split; [by exists "", O|]. intros received. split; [by exists "", O|done]. }
    intros t1 s Hr. unfold start, start_since in Hr. run_inv.
    apply guarded_bind.
    { assert (Hidle : idle_ok (new_session ticket id out)) by done.
      eapply guarded_weaken; [|exact (session_run_framed
        [Ev NewUuid id; Ev (Registry (Register (tk_actor ticket) (new_connection ticket id))) (true, out)]
        turns (new_session ticket id out) [_; _] Hidle)].
      intros X e t' He. by exists id, out. }
    intros t2 [s2 [closed|]] _; [|done].
    apply guarded_bind; [apply close_framed|]. intros t3 _ _. apply guarded_bind; [|done].
    apply (all_calls_guarded (@frameless)); [|apply disconnect_frameless].
    intros X e t' He. exists "", O. by destruct e.
  - apply guarded_bind; [apply close_framed|done].
Qed.

(** A browser sees only what its actor sent to it, and only while the host has
    authority: each text frame carries the message just received from the
    connection's own channel, storage has confirmed the host's authority in between,
    the ticket's authorization has not run out, and waiting for the browser is
    limited to the rest of it and to five seconds. *)
Theorem frames_need_authority turns ticket t e t1 limit text sent t2 :
  runs (run turns ticket) t (Ok e) -> t = (t1 ++ Ev (SendFrame limit (FrameText text)) sent :: t2)%list ->
  exists id out t0 gone m now,
    t1 = ([Ev NewUuid id; Ev (Registry (Register (tk_actor ticket) (new_connection ticket id))) (true, out)] ++ t0 ++
          [Ev (Registry (Recv out gone)) (Some (Some m)); Ev StorageAuthority (Ok ()); Ev NowMs now])%list /\
    frame_text m = Some text /\ 0 < i64_wrap (tk_authorized_until_ms ticket - now) /\
    limit = Z.min (i64_wrap (tk_authorized_until_ms ticket - now)) 5000.
Proof.
  intros Hr Et. pose proof (guarded_runs _ _ _ _ _ (run_framed turns ticket) Hr t1 _ _ sent t2 Et) as (id & out & Hf).
  exists id, out. exact Hf.
Qed.
End sessions.

(** * Sessions to try

    A host whose actor has nothing to say and never finishes a connect handler; the
    loop of the session always takes the branch [ready]. *)
From S2P Require Import Samples.

#[local] Instance effect_sample : Json ActorSocketEffect := {| to_vec _ := "{}"; from_slice _ := Err "" |}.
#[local] Instance host_sample : HostSocketDispatcher := {| hd_host := "host"; hd_session := "s"; hd_events := true |}.

Definition ticket_sample : SocketTicket := {|
  tk_iss := "cp"; tk_aud := "a"; tk_scope := "actor:socket"; tk_iat := 0; tk_nbf := 0; tk_exp := 0; tk_actor := room;
  tk_region := "r"; tk_target := Some {| st_host_id := "host"; st_session_id := "s"; st_owner_epoch := 1 |};
  tk_metadata := Null; tk_connect_by_ms := 60000; tk_authorized_until_ms := 100000 |}.

Definition registry_answer {X} (e : registry_request X) : X :=
  match e with
  | Register _ _ => (true, 7%nat)
  | Remove _ _ => None
  | Connections _ => []
  | Inventory => []
  | Recipients _ _ _ _ => []
  | Sender _ _ => None
  | PushMessage _ _ | PushClose _ _ _ => true
  | Recv _ _ => Some (Some (OutMessage (Actors.Text "hello")))
  | PushSnapshot _ _ _ _ | PushUpdate _ _ _ _ _ => []
  | Activate _ _ | SetMetadata _ _ _ | SetTags _ _ _ | CancelOverflow _ | DropReceiver _ => ()
  end.
Definition host_answer (ready : forall h, branch h) X (e : host_request X) : X :=
  match e with
  | Registry e => registry_answer e
  | StopCancelled => false
  | StorageAuthority => Ok ()
  | LoadActorState _ _ _ => Ok (0, "")
  | HandleSocketEvent _ _ _ => Ok (Completed Null [SetTagsEffect "c" ["staff"]])
  | DiscardSocketEvent _ _ _ => ()
  | TrySendEvent _ _ => true
  | NewUuid => "c"
  | NowMs => 1000
  | InstantNow => 5
  | SendFrame _ _ => Sent
  | Select h => ready h
  | Spawn _ _ _ => ()
  | AwaitHandler _ => ()
  | Elapsed _ => false
  end.
Definition chatty := host_answer (fun h => Inbound (InFrame (FrameText "hi"))).
Definition listening := host_answer (fun h => Outbound false).
Definition chat := follow chatty (run 40 ticket_sample).
Definition listen := follow listening (run 1 ticket_sample).
Definition connecting := follow listening (dispatch_since ticket_sample (Connect (new_connection ticket_sample "c")) 5).

Lemma messages_are_accounted_for_witness :
  texts chat.1 = (handled chat.1 ++ discarded OutcomeInterrupted chat.1 ++ waiting Finished
                  ++ discarded OutcomeRejected chat.1)%list /\
  length (texts chat.1) = 33%nat.
Proof.
  split; [|vm_compute; reflexivity].
  apply (messages_are_accounted_for 40 ticket_sample chat.1 Finished).
  assert (chat.2 = Ok Finished) as <- by (vm_compute; reflexivity). apply follow_runs.
Defined.

Lemma effects_need_authority_witness :
  exists t1 t2, connecting.1 = (t1 ++ Ev (Registry (SetTags room "c" ["staff"])) () :: t2)%list /\
    entitled (OfEvent ticket_sample (Connect (new_connection ticket_sample "c")) 5) (SetTags room "c" ["staff"]) t1.
Proof.
  eexists (take 6 connecting.1), (drop 7 connecting.1). split; [vm_compute; reflexivity|].
  apply (effects_need_authority (OfEvent ticket_sample (Connect (new_connection ticket_sample "c")) 5) connecting.1 connecting.2
           (take 6 connecting.1) _ (SetTags room "c" ["staff"]) () (drop 7 connecting.1)).
  - apply follow_runs.
  - vm_compute. reflexivity.
  - exact I.
Defined.

Lemma frames_need_authority_witness :
  exists t1 t2 id out t0 gone m now,
    listen.1 = (t1 ++ Ev (SendFrame 5000 (FrameText "hello")) Sent :: t2)%list /\
    t1 = ([Ev NewUuid id; Ev (Registry (Register room (new_connection ticket_sample id))) (true, out)] ++ t0 ++
          [Ev (Registry (Recv out gone)) (Some (Some m)); Ev StorageAuthority (Ok ()); Ev NowMs now])%list /\
    frame_text m = Some "hello".
Proof.
  assert (Hr : runs (run 1 ticket_sample) listen.1 listen.2) by apply follow_runs.
  assert (Et : listen.1 = (take 9 listen.1 ++ Ev (SendFrame 5000 (FrameText "hello")) Sent :: drop 10 listen.1)%list)
    by (vm_compute; reflexivity).
  destruct listen.2 as [e|e] eqn:El; [|vm_compute in El; discriminate El].
  destruct (frames_need_authority 1 ticket_sample listen.1 e _ 5000 "hello" Sent _ Hr Et)
    as (id & out & t0 & gone & m & now & E1 & E2 & _).
  eexists _, _, id, out, t0, gone, m, now. split; [exact Et|]. split; [exact E1|exact E2].
Defined.
