(* ===== verification/ExecutorConnection.v ===== *)
(** The connection of a host to the process that runs user code
    ([actor/executor_connection.rs]).

    The driver multiplexes commands over one socket.  Callers submit commands and
    wait for a oneshot; the driver numbers the commands, queues them for the
    writer, and matches the replies that the reader delivers.  While a command
    runs, the executor may publish socket output, ask for connections, and allow
    the next invocation to start.

    The driver is a state machine: [driver_step] is one turn of its loop on the
    branch of [tokio::select!] that became ready, or one item taken by the writer.
    It returns the replies given to callers and the commands issued; an error ends
    the connection.  What the executor process sends is arbitrary.  Theorems hold for
    every list of inputs. *)

From S2P Require Import Prelude.
From S2P Require Import Actors.
From S2P Require Import Snapshots.
From S2P Require Import SocketEffects.
From S2P Require Import ActorRuntime.
Local Open Scope string_scope.
Local Open Scope Z_scope.

Definition ACTOR_EXECUTOR_PROTOCOL_VERSION : Z := 18.
Definition MAX_PENDING_EXECUTOR_COMMANDS : nat := 64.
Definition MAX_ACTOR_EXECUTOR_MESSAGE_BYTES : Z := 32 * 1024 * 1024.

(** * Messages *)
Inductive ExecutorCommand :=
| CmdHydrate (actor : ActorKey)
| CmdInvoke (i : ActorMethodInvocation)
| CmdWebsocketEvent (i : ActorSocketInvocation)
| CmdEvict (actor : ActorKey).

Definition command_actor (c : ExecutorCommand) : ActorKey :=
  match c with
  | CmdInvoke i => mi_actor i
  | CmdWebsocketEvent i => sock_actor i
  | CmdEvict actor | CmdHydrate actor => actor
  end.

Inductive ExecutorReply :=
| Hydrated
| StateRequired
| Invoked (result state : Value) (sequence : option Z) (effects : list ActorSocketEffect)
| WebsocketHandled (state : Value) (sequence : option Z) (effects : list ActorSocketEffect)
| ReplyFailed (code message : string)
| Evicted.
#[global] Instance ExecutorReply_eq_dec : EqDecision ExecutorReply.
Proof. solve_decision. Defined.

Inductive ActorExecutorClientMessage :=
| Warm (protocol : Z)
| Residency (actors : list ActorKey)
| GetConnections (message_id : Z)
| ReadyForInvocation (message_id : Z)
| SocketEffectsMessage (message_id : Z) (effects : list ActorSocketEffect)
| Attach (protocol : Z) (actor_names : list string)
| Reply (message_id : Z) (reply : ExecutorReply).

Record ExecutorCommandEnvelope := {
  env_command : ExecutorCommand;
  env_state : option Value;
  env_resident_only : bool }.

Inductive ActorExecutorServerMessage :=
| SocketConnections (message_id : Z) (connections : list ActorSocketConnection) (error : option string)
| SocketEffectsPublished (message_id : Z) (error : option string)
| Attached (supports_residency : bool) (protocol : Z)
| Command (message_id : Z) (command : ExecutorCommandEnvelope).

(** [reply] and [written] name the oneshot channels of callers. *)
Record PendingCommand := {
  ex_command : ExecutorCommand;
  ex_state : option Value;
  ex_resident_only : bool;
  ex_admission_granted : bool;
  ex_reply : nat }.

(** [Ready] carries whether there is a publisher and a source of connections. *)
Inductive ExecutorRequest :=
| Exchange (pending : PendingCommand)
| Ready (written : nat) (publisher sockets : bool).

Record ExecutorWrite := { w_bytes : string; w_written : option nat }.

(** * Framing *)
Definition newline_byte : ascii := "010".
(** [u8::is_ascii_whitespace]: tab, line feed, form feed, carriage return, space *)
Definition is_ascii_whitespace (c : ascii) : bool :=
  (byte c =? 9) || (byte c =? 10) || (byte c =? 12) || (byte c =? 13) || (byte c =? 32).

Fixpoint trim_ascii_end (document : string) : string :=
  match document with
  | "" => ""
  | String c rest =>
      let rest := trim_ascii_end rest in
      if is_empty rest && is_ascii_whitespace c then "" else String c rest
  end.

(** [read_until] of at most [limit] bytes: the bytes up to and with the first
    newline, and the rest of the stream *)
Fixpoint read_until (limit : Z) (stream : string) : string * string :=
  match stream with
  | "" => ("", "")
  | String c rest =>
      if limit <=? 0 then ("", stream)
      else if Ascii.eqb c newline_byte then (String c "", rest)
      else let read := read_until (limit - 1) rest in (String c read.1, read.2)
  end.

Section framing.
Context `{Json ActorExecutorClientMessage, Json ActorExecutorServerMessage}.

Definition read_client_message (stream : string) : Result (option ActorExecutorClientMessage) * string :=
  let read := read_until (MAX_ACTOR_EXECUTOR_MESSAGE_BYTES + 1) stream in
  let bytes := len read.1 in
  (if bytes =? 0 then Ok None
   else
     ensure (bytes <=? MAX_ACTOR_EXECUTOR_MESSAGE_BYTES) "customer actor executor message exceeds 33554432 bytes";;
     message ← from_slice (trim_ascii_end read.1);
     Ok (Some message), read.2).

Definition TOO_LARGE : string := "actor executor command exceeds 33554432 bytes".

(** Serialization succeeds, so the only error is the size. *)
Definition encode_server_message (message : ActorExecutorServerMessage) : Result string :=
  let bytes := to_vec message +:+ String newline_byte "" in
  if MAX_ACTOR_EXECUTOR_MESSAGE_BYTES <? len bytes then Err TOO_LARGE else Ok bytes.

(** [read_executor_messages]: what the reader hands to the driver, until the stream
    ends or a message is refused *)
Fixpoint read_executor_messages (turns : nat) (stream : string) : list (Result ActorExecutorClientMessage) :=
  match turns with
  | O => []
  | S n =>
      match read_client_message stream with
      | (Ok (Some message), rest) => Ok message :: read_executor_messages n rest
      | (Ok None, _) => [Err "customer JavaScript actor executor disconnected"]
      | (Err e, _) => [Err e]
      end
  end.

(** ** Handshakes *)
Definition attach_executor (first : option ActorExecutorClientMessage) : Result (list string) :=
  match first with
  | Some (Attach protocol actor_names) =>
      ensure (protocol =? ACTOR_EXECUTOR_PROTOCOL_VERSION) "unsupported executor protocol";;
      ensure (negb (is_nil actor_names)) "customer executor advertised no actor names";;
      Ok actor_names
  | _ => Err "customer executor must attach after loading code"
  end.
Definition accept_warm (first : option ActorExecutorClientMessage) : Result unit :=
  ensure (match first with Some (Warm protocol) => protocol =? ACTOR_EXECUTOR_PROTOCOL_VERSION | _ => false end)
    "generic executor did not finish warming".

(** * The driver *)

(** A publication that was spawned *)
Record publication := {
  pub_message_id : Z;
  pub_actor : ActorKey;
  pub_connecting : bool;
  pub_publisher : bool;
  pub_effects : list ActorSocketEffect }.
Record lookup := { lk_message_id : Z; lk_actor : ActorKey; lk_sockets : bool }.

(** [admission] and [changes] count the notifications of their [watch] channels;
    [outbound] is the queue to the writer, which lives while [writing]. *)
Record ExecutorDriver := {
  d_admission : nat;
  d_changes : nat;
  d_residency : option (Z * list ActorKey);
  d_pending : gmap Z PendingCommand;
  d_residents : gset ActorKey;
  d_next_message_id : Z;
  d_outbound : list ExecutorWrite;
  d_publisher : bool;
  d_sockets : bool;
  d_publishing : list publication;
  d_publishing_ids : gset Z;
  d_loading_connections : list lookup;
  d_connection_lookup_ids : gset Z }.

Definition ExecutorDriver_new : ExecutorDriver :=
  {| d_admission := 0; d_changes := 0; d_residency := None; d_pending := ∅; d_residents := ∅; d_next_message_id := 1;
     d_outbound := []; d_publisher := false; d_sockets := false; d_publishing := []; d_publishing_ids := ∅;
     d_loading_connections := []; d_connection_lookup_ids := ∅ |}.
Definition set_admission (adm0 : nat) (d : ExecutorDriver) : ExecutorDriver := {| d_admission := adm0; d_changes :=
  d_changes d; d_residency := d_residency d; d_pending := d_pending d; d_residents := d_residents d; d_next_message_id
  := d_next_message_id d; d_outbound := d_outbound d; d_publisher := d_publisher d; d_sockets := d_sockets d;
  d_publishing := d_publishing d; d_publishing_ids := d_publishing_ids d; d_loading_connections :=
  d_loading_connections d; d_connection_lookup_ids := d_connection_lookup_ids d |}.
Definition set_residency (res0 : option (Z * list ActorKey)) (d : ExecutorDriver) : ExecutorDriver := {| d_admission
  := d_admission d; d_changes := d_changes d; d_residency := res0; d_pending := d_pending d; d_residents :=
  d_residents d; d_next_message_id := d_next_message_id d; d_outbound := d_outbound d; d_publisher := d_publisher d;
  d_sockets := d_sockets d; d_publishing := d_publishing d; d_publishing_ids := d_publishing_ids d;
  d_loading_connections := d_loading_connections d; d_connection_lookup_ids := d_connection_lookup_ids d |}.
Definition set_changes (cha0 : nat) (d : ExecutorDriver) : ExecutorDriver := {| d_admission := d_admission d;
  d_changes := cha0; d_residency := d_residency d; d_pending := d_pending d; d_residents := d_residents d;
  d_next_message_id := d_next_message_id d; d_outbound := d_outbound d; d_publisher := d_publisher d; d_sockets :=
  d_sockets d; d_publishing := d_publishing d; d_publishing_ids := d_publishing_ids d; d_loading_connections :=
  d_loading_connections d; d_connection_lookup_ids := d_connection_lookup_ids d |}.
Definition set_commands (pen0 : gmap Z PendingCommand) (d : ExecutorDriver) : ExecutorDriver := {| d_admission :=
  d_admission d; d_changes := d_changes d; d_residency := d_residency d; d_pending := pen0; d_residents := d_residents
  d; d_next_message_id := d_next_message_id d; d_outbound := d_outbound d; d_publisher := d_publisher d; d_sockets :=
  d_sockets d; d_publishing := d_publishing d; d_publishing_ids := d_publishing_ids d; d_loading_connections :=
  d_loading_connections d; d_connection_lookup_ids := d_connection_lookup_ids d |}.
Definition set_residents (res0 : gset ActorKey) (d : ExecutorDriver) : ExecutorDriver := {| d_admission := d_admission
  d; d_changes := d_changes d; d_residency := d_residency d; d_pending := d_pending d; d_residents := res0;
  d_next_message_id := d_next_message_id d; d_outbound := d_outbound d; d_publisher := d_publisher d; d_sockets :=
  d_sockets d; d_publishing := d_publishing d; d_publishing_ids := d_publishing_ids d; d_loading_connections :=
  d_loading_connections d; d_connection_lookup_ids := d_connection_lookup_ids d |}.
Definition set_next_message_id (nex0 : Z) (d : ExecutorDriver) : ExecutorDriver := {| d_admission := d_admission d;
  d_changes := d_changes d; d_residency := d_residency d; d_pending := d_pending d; d_residents := d_residents d;
  d_next_message_id := nex0; d_outbound := d_outbound d; d_publisher := d_publisher d; d_sockets := d_sockets d;
  d_publishing := d_publishing d; d_publishing_ids := d_publishing_ids d; d_loading_connections :=
  d_loading_connections d; d_connection_lookup_ids := d_connection_lookup_ids d |}.
Definition set_outbound (out0 : list ExecutorWrite) (d : ExecutorDriver) : ExecutorDriver := {| d_admission :=
  d_admission d; d_changes := d_changes d; d_residency := d_residency d; d_pending := d_pending d; d_residents :=
  d_residents d; d_next_message_id := d_next_message_id d; d_outbound := out0; d_publisher := d_publisher d; d_sockets
  := d_sockets d; d_publishing := d_publishing d; d_publishing_ids := d_publishing_ids d; d_loading_connections :=
  d_loading_connections d; d_connection_lookup_ids := d_connection_lookup_ids d |}.
Definition set_channels (pub0 : bool) (soc1 : bool) (d : ExecutorDriver) : ExecutorDriver := {| d_admission :=
  d_admission d; d_changes := d_changes d; d_residency := d_residency d; d_pending := d_pending d; d_residents :=
  d_residents d; d_next_message_id := d_next_message_id d; d_outbound := d_outbound d; d_publisher := pub0; d_sockets
  := soc1; d_publishing := d_publishing d; d_publishing_ids := d_publishing_ids d; d_loading_connections :=
  d_loading_connections d; d_connection_lookup_ids := d_connection_lookup_ids d |}.
Definition set_publishing (pub0 : list publication) (pub1 : gset Z) (d : ExecutorDriver) : ExecutorDriver := {|
  d_admission := d_admission d; d_changes := d_changes d; d_residency := d_residency d; d_pending := d_pending d;
  d_residents := d_residents d; d_next_message_id := d_next_message_id d; d_outbound := d_outbound d; d_publisher :=
  d_publisher d; d_sockets := d_sockets d; d_publishing := pub0; d_publishing_ids := pub1; d_loading_connections :=
  d_loading_connections d; d_connection_lookup_ids := d_connection_lookup_ids d |}.
Definition set_loading (loa0 : list lookup) (con1 : gset Z) (d : ExecutorDriver) : ExecutorDriver := {| d_admission :=
  d_admission d; d_changes := d_changes d; d_residency := d_residency d; d_pending := d_pending d; d_residents :=
  d_residents d; d_next_message_id := d_next_message_id d; d_outbound := d_outbound d; d_publisher := d_publisher d;
  d_sockets := d_sockets d; d_publishing := d_publishing d; d_publishing_ids := d_publishing_ids d;
  d_loading_connections := loa0; d_connection_lookup_ids := con1 |}.

(** What a turn does besides changing the driver: a reply to a caller, and a write
    reported to the caller of [mark_ready].  [Accepted] and [Issued] are history: a
    command taken from a caller, and one put into the writer's queue. *)
Inductive output :=
| Accepted (pending : PendingCommand)
| Replied (caller : nat) (reply : Result ExecutorReply)
| Issued (message_id : Z) (caller : nat) (envelope : ExecutorCommandEnvelope)
| Written (caller : nat) (result : Result unit).

Definition OUTBOUND_CAPACITY : nat := S MAX_PENDING_EXECUTOR_COMMANDS.

(** [self.outbound.try_send]: [None] when the queue is full *)
Definition try_send (w : ExecutorWrite) (d : ExecutorDriver) : Result ExecutorDriver :=
  if (length (d_outbound d) <? OUTBOUND_CAPACITY)%nat then Ok (set_outbound (d_outbound d ++ [w])%list d)
  else Err "actor executor writer stopped or filled its queue".

Definition is_evict (c : ExecutorCommand) : bool := match c with CmdEvict _ => true | _ => false end.
Definition is_invocation (c : ExecutorCommand) : bool :=
  match c with CmdInvoke _ | CmdWebsocketEvent _ => true | _ => false end.

(** The envelope of a command: state is left out for an eviction and for an actor
    that should be resident, and is [Null] when there is none. *)
Definition envelope (pending : PendingCommand) : ExecutorCommandEnvelope :=
  {| env_command := ex_command pending;
     env_state := if ex_resident_only pending || is_evict (ex_command pending) then None
                  else Some (default Null (ex_state pending));
     env_resident_only := ex_resident_only pending |}.

Definition enqueue (pending : PendingCommand) (d : ExecutorDriver) : Result (ExecutorDriver * list output) :=
  let message_id := d_next_message_id d in
  next ← with_context (checked_add message_id 1) "actor executor message ID overflow";
  let d := set_next_message_id next d in
  match encode_server_message (Command message_id (envelope pending)) with
  | Ok bytes =>
      d ← try_send {| w_bytes := bytes; w_written := None |} d;
      Ok (set_commands (<[message_id := pending]> (d_pending d)) d,
          [Issued message_id (ex_reply pending) (envelope pending)])
  | Err error => Ok (d, [Replied (ex_reply pending) (Ok (ReplyFailed "resource_exhausted" error))])
  end.

Definition set_resident_only (b : bool) (p : PendingCommand) : PendingCommand :=
  {| ex_command := ex_command p; ex_state := ex_state p; ex_resident_only := b;
     ex_admission_granted := ex_admission_granted p; ex_reply := ex_reply p |}.
Definition grant_admission (p : PendingCommand) : PendingCommand :=
  {| ex_command := ex_command p; ex_state := ex_state p; ex_resident_only := ex_resident_only p;
     ex_admission_granted := true; ex_reply := ex_reply p |}.

Definition handle_command (request : ExecutorRequest) (d : ExecutorDriver) : Result (ExecutorDriver * list output) :=
  match request with
  | Exchange pending =>
      let actor := command_actor (ex_command pending) in
      let resident := bool_decide (actor ∈ d_residents d) in
      let d := set_residents (d_residents d ∖ {[actor]}) d in
      '(d, outs) ← enqueue (set_resident_only (resident && is_invocation (ex_command pending)) pending) d;
      Ok (d, Accepted pending :: outs)
  | Ready written publisher sockets =>
      let d := set_channels publisher sockets d in
      bytes ← encode_server_message (Attached true ACTOR_EXECUTOR_PROTOCOL_VERSION);
      d ← try_send {| w_bytes := bytes; w_written := Some written |} d;
      Ok (d, [])
  end.

Definition allow_next_invocation (message_id : Z) (d : ExecutorDriver) : Result ExecutorDriver :=
  pending ← with_context (d_pending d !! message_id) "invocation admission has no active call";
  ensure (is_invocation (ex_command pending)) "only invocations can admit another call";;
  ensure (negb (ex_admission_granted pending)) "invocation admission was already granted";;
  Ok (set_admission (S (d_admission d)) (set_commands (<[message_id := grant_admission pending]> (d_pending d)) d)).

Definition load_connections (message_id : Z) (d : ExecutorDriver) : Result ExecutorDriver :=
  pending ← with_context (d_pending d !! message_id) "connection lookup has no active actor invocation";
  ensure (negb (is_evict (ex_command pending))) "cannot load connections during eviction";;
  ensure (negb (bool_decide (message_id ∈ d_connection_lookup_ids d))) "actor sent concurrent connection lookups";;
  Ok (set_loading
        (d_loading_connections d ++
         [{| lk_message_id := message_id; lk_actor := command_actor (ex_command pending); lk_sockets := d_sockets d |}])%list
        ({[message_id]} ∪ d_connection_lookup_ids d) d).

Definition is_connecting (c : ExecutorCommand) : bool :=
  match c with
  | CmdWebsocketEvent i => match sock_event i with Connect _ => true | _ => false end
  | _ => false
  end.
Definition publish (message_id : Z) (effects : list ActorSocketEffect) (d : ExecutorDriver) : Result ExecutorDriver :=
  pending ← with_context (d_pending d !! message_id) "socket output has no active actor invocation";
  ensure (negb (bool_decide (message_id ∈ d_publishing_ids d))) "actor sent concurrent socket publications";;
  Ok (set_publishing
        (d_publishing d ++
         [{| pub_message_id := message_id; pub_actor := command_actor (ex_command pending);
             pub_connecting := is_connecting (ex_command pending); pub_publisher := d_publisher d;
             pub_effects := effects |}])%list
        ({[message_id]} ∪ d_publishing_ids d) d).

Definition is_completion (reply : ExecutorReply) : bool :=
  match reply with Hydrated | Invoked _ _ _ _ | WebsocketHandled _ _ _ => true | _ => false end.

Definition deliver (message_id : Z) (reply : ExecutorReply) (d : ExecutorDriver) : Result (ExecutorDriver * list output) :=
  ensure (negb (bool_decide (message_id ∈ d_connection_lookup_ids d))) "actor completed before connection lookup finished";;
  ensure (negb (bool_decide (message_id ∈ d_publishing_ids d))) "actor completed before socket output was acknowledged";;
  pending ← with_context (d_pending d !! message_id) "actor executor replied to unknown message";
  let d := set_commands (delete message_id (d_pending d)) d in
  match reply with
  | StateRequired =>
      if ex_resident_only pending then enqueue (set_resident_only false pending) d
      else Ok (d, [Replied (ex_reply pending) (Err "actor executor refused explicit hydration")])
  | _ =>
      let d :=
        if is_completion reply then
          let residents := if 4096 <=? Z.of_nat (size (d_residents d)) then ∅ else d_residents d in
          set_residents ({[command_actor (ex_command pending)]} ∪ residents) d
        else d in
      Ok (d, [Replied (ex_reply pending) (Ok reply)])
  end.

Definition receive_residency (now : Z) (actors : list ActorKey) (d : ExecutorDriver) : Result ExecutorDriver :=
  ensure (length actors <=? 32)%nat "too many resident actors";;
  for_each ActorKey_validate actors;;
  let changed := match d_residency d with Some (_, previous) => negb (bool_decide (previous = actors)) | None => true end in
  let d := set_residency (Some (now, actors)) d in
  Ok (if changed then set_changes (S (d_changes d)) d else d).

(** The branch of the reader; [now] is the instant of the turn. *)
Definition receive_message (now : Z) (message : ActorExecutorClientMessage) (d : ExecutorDriver)
  : Result (ExecutorDriver * list output) :=
  match message with
  | Residency actors => d ← receive_residency now actors d; Ok (d, [])
  | ReadyForInvocation message_id => d ← allow_next_invocation message_id d; Ok (d, [])
  | Reply message_id reply => deliver message_id reply d
  | SocketEffectsMessage message_id effects => d ← publish message_id effects d; Ok (d, [])
  | GetConnections message_id => d ← load_connections message_id d; Ok (d, [])
  | Warm _ | Attach _ _ => Err "customer actor executor attached more than once"
  end.

Section tasks.
Context `{Json Value, Json ActorSocketEffect, Base64Std}.

(** What the spawned task of a publication returns; [published] is the answer of
    the publisher. *)
Definition publication_result (p : publication) (published : Result unit) : Result unit :=
  ensure (negb (pub_connecting p)) "socket output cannot precede connection acceptance";;
  validate_socket_effects (pub_effects p);;
  ensure (pub_publisher p) "actor socket publishing is unavailable";;
  published.
Definition lookup_result (l : lookup) (found : Result (list ActorSocketConnection)) : Result (list ActorSocketConnection) :=
  ensure (lk_sockets l) "actor connection lookup is unavailable";;
  found.

Definition error_of {A} (r : Result A) : option string := match r with Ok _ => None | Err e => Some e end.

(** A finished publication is acknowledged; the driver waits for room in the
    queue, so [None] is a turn that cannot proceed yet. *)
Definition acknowledge_publication (k : nat) (published : Result unit) (d : ExecutorDriver)
  : option (Result ExecutorDriver) :=
  p ← d_publishing d !! k;
  guard (length (d_outbound d) < OUTBOUND_CAPACITY)%nat;;
  Some (
    bytes ← encode_server_message
      (SocketEffectsPublished (pub_message_id p) (error_of (publication_result p published)));
    let d := set_publishing (delete k (d_publishing d)) (d_publishing_ids d ∖ {[pub_message_id p]}) d in
    try_send {| w_bytes := bytes; w_written := None |} d).
Definition acknowledge_lookup (k : nat) (found : Result (list ActorSocketConnection)) (d : ExecutorDriver)
  : option (Result ExecutorDriver) :=
  l ← d_loading_connections d !! k;
  guard (length (d_outbound d) < OUTBOUND_CAPACITY)%nat;;
  Some (
    let result := lookup_result l found in
    bytes ← encode_server_message
      (SocketConnections (lk_message_id l) (match result with Ok c => c | Err _ => [] end) (error_of result));
    let d := set_loading (delete k (d_loading_connections d)) (d_connection_lookup_ids d ∖ {[lk_message_id l]}) d in
    try_send {| w_bytes := bytes; w_written := None |} d).

(** [write_executor_messages]: the writer takes the first item. *)
Definition take_write (result : Result unit) (d : ExecutorDriver) : option (Result (ExecutorDriver * list output)) :=
  match d_outbound d with
  | [] => None
  | w :: rest =>
      Some (result;;
            Ok (set_outbound rest d, match w_written w with Some caller => [Written caller result] | None => [] end))
  end.

(** * Turns *)
Inductive input :=
| FromReader (now : Z) (message : Result ActorExecutorClientMessage)
| PublicationDone (k : nat) (published : Result unit)
| LookupDone (k : nat) (found : Result (list ActorSocketConnection))
| FromCaller (request : ExecutorRequest)
| CallersGone
| WriterTakes (result : Result unit).

Inductive driver_turn := Next (d : ExecutorDriver) (outs : list output) | Ended (result : Result unit).
Definition turn_of (r : Result (ExecutorDriver * list output)) : driver_turn :=
  match r with Ok (d, outs) => Next d outs | Err e => Ended (Err e) end.
Definition quiet_turn (d : ExecutorDriver) (r : option (Result ExecutorDriver)) : driver_turn :=
  match r with
  | None => Next d []
  | Some (Ok d) => Next d []
  | Some (Err e) => Ended (Err e)
  end.

(** One turn: a branch that is disabled changes nothing. *)
Definition driver_step (i : input) (d : ExecutorDriver) : driver_turn :=
  match i with
  | FromReader now (Ok message) => turn_of (receive_message now message d)
  | FromReader _ (Err e) => Ended (Err e)
  | PublicationDone k published => quiet_turn d (acknowledge_publication k published d)
  | LookupDone k found => quiet_turn d (acknowledge_lookup k found d)
  | FromCaller request =>
      if (size (d_pending d) <? MAX_PENDING_EXECUTOR_COMMANDS)%nat then turn_of (handle_command request d)
      else Next d []
  | CallersGone => if (size (d_pending d) <? MAX_PENDING_EXECUTOR_COMMANDS)%nat then Ended (Ok ()) else Next d []
  | WriterTakes result => match take_write result d with None => Next d [] | Some r => turn_of r end
  end.

(** Turns until the connection ends: the driver with all outputs so far, or the end *)
Fixpoint driver_run (inputs : list input) (d : ExecutorDriver) : list output * (ExecutorDriver + Result unit) :=
  match inputs with
  | [] => ([], inl d)
  | i :: inputs =>
      match driver_step i d with
      | Next d' outs => let run := driver_run inputs d' in ((outs ++ run.1)%list, run.2)
      | Ended r => ([], inr r)
      end
  end.
End tasks.
End framing.

(** * The interface of the executor ([impl ActorExecutor for JsActorExecutor]):
    what the reply of an exchange means for its caller *)
Definition hydrate_reply (reply : ExecutorReply) : Result unit :=
  match reply with
  | Hydrated => Ok ()
  | ReplyFailed code message => Err ("actor hydration failed (" +:+ code +:+ "): " +:+ message)
  | _ => Err "unexpected actor hydration reply"
  end.
Definition invoke_reply (reply : ExecutorReply) : Result ActorMethodOutcome :=
  match reply with
  | Invoked result state (Some sequence) effects =>
      Ok (MethodInterleaved {| sequence := sequence; il_result := result; il_state := state; il_effects := effects |})
  | Invoked result state None effects => Ok (MethodCompleted result state effects)
  | ReplyFailed c m => Ok (MethodFailed {| code := c; message := m |})
  | Hydrated | Evicted | StateRequired => Err "actor executor returned eviction reply to invocation"
  | WebsocketHandled _ _ _ => Err "actor executor returned socket reply to invocation"
  end.
Definition socket_reply (reply : ExecutorReply) : Result ActorSocketOutcome :=
  match reply with
  | WebsocketHandled state (Some sequence) effects =>
      Ok (SocketInterleaved {| sequence := sequence; il_result := Null; il_state := state; il_effects := effects |})
  | WebsocketHandled state None effects => Ok (SocketHandled state effects)
  | ReplyFailed c m => Ok (SocketFailed {| code := c; message := m |})
  | Hydrated | Invoked _ _ _ _ | Evicted | StateRequired => Err "actor executor returned the wrong reply to socket event"
  end.
Definition evict_reply (reply : ExecutorReply) : Result unit :=
  match reply with
  | Evicted => Ok ()
  | ReplyFailed code message => Err ("actor executor rejected eviction (" +:+ code +:+ "): " +:+ message)
  | Hydrated | Invoked _ _ _ _ => Err "actor executor returned the wrong reply to eviction"
  | WebsocketHandled _ _ _ | StateRequired => Err "actor executor returned socket reply to eviction"
  end.

(** [resident_actors]: a report counts for less than five seconds. *)
Definition resident_actors (now : Z) (residency : option (Z * list ActorKey)) : option (list ActorKey) :=
  '(at_, actors) ← residency;
  if now - at_ <? 5000 then Some actors else None.

(** [exchange]: what the driver is given for a call *)
Definition exchange (caller : nat) (command : ExecutorCommand) (state : option Value) : ExecutorRequest :=
  Exchange {| ex_command := command; ex_state := state; ex_resident_only := false; ex_admission_granted := false;
              ex_reply := caller |}.
