(* ===== verification/ExecutorSafety.v ===== *)
(** What the connection to the executor guarantees, whatever the executor sends:
    calls are answered once and with the reply to their own command, state is left
    out only for actors that completed something since, work done on behalf of a
    command ends with it, and queues and messages are bounded. *)

From S2P Require Import Prelude.
From S2P Require Import Actors.
From S2P Require Import StoragePaths.
From S2P Require Import Snapshots.
From S2P Require Import SocketEffects.
From S2P Require Import ActorRuntime.
From S2P Require Import ExecutorConnection.
Local Open Scope string_scope.
Local Open Scope Z_scope.

(** * Observations *)
Definition accepted (outs : list output) : list nat :=
  omap (fun o => match o with Accepted p => Some (ex_reply p) | _ => None end) outs.
Definition replied (outs : list output) : list nat :=
  omap (fun o => match o with Replied c _ => Some c | _ => None end) outs.
Definition issued_ids (outs : list output) : list Z :=
  omap (fun o => match o with Issued mid _ _ => Some mid | _ => None end) outs.
Definition waiting_callers (pending : gmap Z PendingCommand) : list nat :=
  ex_reply <$> (map_to_list pending).*2.

Lemma waiting_insert mid p pending : pending !! mid = None ->
  Permutation (waiting_callers (<[mid := p]> pending)) (ex_reply p :: waiting_callers pending).
Proof. intros Hm. unfold waiting_callers. by rewrite map_to_list_insert. Qed.
Lemma waiting_delete mid p pending : pending !! mid = Some p ->
  Permutation (waiting_callers pending) (ex_reply p :: waiting_callers (delete mid pending)).
Proof.
  intros Hm. rewrite <-(insert_delete_id pending mid p Hm) at 1. apply waiting_insert, lookup_delete_eq.
Qed.
Lemma waiting_replace mid p p' pending : pending !! mid = Some p -> ex_reply p' = ex_reply p ->
  Permutation (waiting_callers (<[mid := p']> pending)) (waiting_callers pending).
Proof.
  intros Hm E. rewrite <-insert_delete_eq, waiting_insert by apply lookup_delete_eq.
  rewrite (waiting_delete mid p pending Hm). by rewrite E.
Qed.

Section safety.
Context `{Json ActorExecutorClientMessage, Json ActorExecutorServerMessage}.
Context `{Json Value, Json ActorSocketEffect, Base64Std}.

(** * The invariant *)
Record driver_ok (d : ExecutorDriver) : Prop := {
  ok_ids : forall mid p, d_pending d !! mid = Some p -> mid < d_next_message_id d;
  ok_size : (size (d_pending d) <= MAX_PENDING_EXECUTOR_COMMANDS)%nat;
  ok_outbound : (length (d_outbound d) <= OUTBOUND_CAPACITY)%nat /\
    Forall (fun w => len (w_bytes w) <= MAX_ACTOR_EXECUTOR_MESSAGE_BYTES) (d_outbound d);
  ok_publishing_ids : NoDup (pub_message_id <$> d_publishing d) /\
    forall mid, mid ∈ d_publishing_ids d <-> mid ∈ pub_message_id <$> d_publishing d;
  ok_publications : forall pub, pub ∈ d_publishing d -> exists p, d_pending d !! pub_message_id pub = Some p /\
    pub_actor pub = command_actor (ex_command p) /\ pub_connecting pub = is_connecting (ex_command p);
  ok_lookup_ids : NoDup (lk_message_id <$> d_loading_connections d) /\
    forall mid, mid ∈ d_connection_lookup_ids d <-> mid ∈ lk_message_id <$> d_loading_connections d;
  ok_lookups : forall l, l ∈ d_loading_connections d -> exists p, d_pending d !! lk_message_id l = Some p /\
    lk_actor l = command_actor (ex_command p) }.

Lemma new_ok : driver_ok ExecutorDriver_new.
Proof.
  split; cbn; try done.
  - unfold MAX_PENDING_EXECUTOR_COMMANDS. rewrite map_size_empty. lia.
  - split; [lia|constructor].
  - split; [constructor|]. intros mid. set_solver.
  - set_solver.
  - split; [constructor|]. intros mid. set_solver.
  - set_solver.
Qed.

Lemma encode_bounded m bytes : encode_server_message m = Ok bytes -> len bytes <= MAX_ACTOR_EXECUTOR_MESSAGE_BYTES.
Proof. unfold encode_server_message. destruct (_ <? _) eqn:E; [done|]. intros [= <-]. bools. lia. Qed.

(** Queueing one more write *)
Lemma try_send_ok w d d' : driver_ok d -> len (w_bytes w) <= MAX_ACTOR_EXECUTOR_MESSAGE_BYTES ->
  try_send w d = Ok d' -> driver_ok d' /\ d' = set_outbound (d_outbound d ++ [w])%list d.
Proof.
  intros [? ? [Ho Hw] ? ? ? ?] Hb. unfold try_send. destruct (_ <? _)%nat eqn:E; [|done]. intros [= <-].
  split; [|done]. apply Nat.ltb_lt in E. split; try done; cbn.
  split; [rewrite length_app; cbn; lia|]. apply Forall_app. by repeat constructor.
Qed.

(** * History

    [ms] are the messages of the executor so far, [h] the outputs so far. *)

(** The exchange behind a pending command *)
Definition behind (p : PendingCommand) (h : list output) : Prop := exists p0,
  Accepted p0 ∈ h /\ ex_command p0 = ex_command p /\ ex_state p0 = ex_state p /\ ex_reply p0 = ex_reply p.

(** The executor completed a command of [a], and no command of [a] was taken since. *)
Definition recently_completed (a : ActorKey) (h : list output) : Prop :=
  exists h1 c reply h2 mid env, h = (h1 ++ Replied c (Ok reply) :: h2)%list /\ is_completion reply = true /\
    Issued mid c env ∈ h1 /\ command_actor (env_command env) = a /\
    (forall p, Accepted p ∈ h2 -> command_actor (ex_command p) <> a).

(** What justifies an output after the outputs [h] *)
Definition justified_output (ms : list ActorExecutorClientMessage) (h : list output) (o : output) : Prop :=
  match o with
  | Replied c (Ok reply) =>
      reply = ReplyFailed "resource_exhausted" TOO_LARGE \/
      exists mid env, Reply mid reply ∈ ms /\ Issued mid c env ∈ h /\ reply <> StateRequired
  | Replied c (Err _) => exists mid env, Reply mid StateRequired ∈ ms /\ Issued mid c env ∈ h /\ env_resident_only env = false
  | Issued mid c env =>
      mid ∉ issued_ids h /\
      (exists p, Accepted p ∈ h /\ ex_reply p = c /\ env_command env = ex_command p /\
         env_state env = (if env_resident_only env || is_evict (ex_command p) then None
                          else Some (default Null (ex_state p)))) /\
      (env_resident_only env = true -> exists h0 p, h = (h0 ++ [Accepted p])%list /\
         env_command env = ex_command p /\ recently_completed (command_actor (ex_command p)) h0)
  | _ => True
  end.
Definition justified (ms : list ActorExecutorClientMessage) (h : list output) : Prop :=
  forall h1 o h2, h = (h1 ++ o :: h2)%list -> justified_output ms h1 o.

Lemma justified_output_mono ms ms' h o : ms ⊆ ms' -> justified_output ms h o -> justified_output ms' h o.
Proof. intros Hs. destruct o as [p|c [reply|e]|mid c env|c r]; cbn; naive_solver. Qed.
Lemma justified_snoc ms h o : justified ms h -> justified_output ms h o -> justified ms (h ++ [o]).
Proof.
  intros Hj Ho h1 o' h2 E. destruct (decide (h2 = [])) as [->|Hne].
  - apply app_inj_tail in E as [<- <-]. done.
  - destruct (exists_last Hne) as (h3 & o3 & ->). rewrite app_comm_cons, app_assoc in E.
    apply app_inj_tail in E as [-> _]. by eapply Hj.
Qed.

Lemma behind_app p h h' : behind p h -> behind p (h ++ h').
Proof. intros (p0 & ? & ?). exists p0. split; [set_solver|done]. Qed.
Lemma recently_completed_snoc a h o : recently_completed a h ->
  (forall p, o = Accepted p -> command_actor (ex_command p) <> a) -> recently_completed a (h ++ [o]).
Proof.
  intros (h1 & c & reply & h2 & mid & env & -> & Hc & Hi & Ha & Hno) Ho.
  exists h1, c, reply, (h2 ++ [o])%list, mid, env. split_and!; try done.
  - by rewrite <-app_assoc.
  - intros p [Hp|Hp%list_elem_of_singleton]%elem_of_app; [by apply Hno|by apply Ho].
Qed.

(** [extra]: callers whose commands are in the driver's hands *)
Record history (ms : list ActorExecutorClientMessage) (h : list output) (extra : list nat) (d : ExecutorDriver) : Prop := {
  h_count : Permutation (accepted h) (replied h ++ extra ++ waiting_callers (d_pending d))%list;
  h_pending : forall mid p, d_pending d !! mid = Some p -> Issued mid (ex_reply p) (envelope p) ∈ h /\ behind p h;
  h_ids : forall mid, mid ∈ issued_ids h -> mid < d_next_message_id d;
  h_residents : forall a, a ∈ d_residents d -> recently_completed a h;
  h_justified : justified ms h }.

Lemma driver_enqueue_ok ms h d p d' outs : driver_ok d -> history ms h [ex_reply p] d ->
  (size (d_pending d) < MAX_PENDING_EXECUTOR_COMMANDS)%nat -> behind p h ->
  (ex_resident_only p = true -> exists h0 p0, h = (h0 ++ [Accepted p0])%list /\ ex_command p = ex_command p0 /\
     recently_completed (command_actor (ex_command p0)) h0) ->
  enqueue p d = Ok (d', outs) -> driver_ok d' /\ history ms (h ++ outs) [] d'.
Proof.
  intros Hok [Hc Hp Hi Hr Hj] Hsz Hs Hres E. unfold enqueue in E. cbv zeta in E.
  apply bind_ok in E as (next & Hn & E). assert (next = d_next_message_id d + 1) as ->.
  { unfold checked_add in Hn. destruct (_ <=? _); cbn in Hn; congruence. }
  destruct (encode_server_message _) as [bytes|e] eqn:Ee.
  - apply bind_ok in E as (d1 & Hd1 & [= <- <-]).
    set (d0 := set_next_message_id (d_next_message_id d + 1) d) in *.
    assert (Hok0 : driver_ok d0).
    { destruct Hok as [A B C D F G I]. split; try done. intros mid q Hq. cbn. apply A in Hq. lia. }
    apply try_send_ok in Hd1 as [Hok1 ->]; [|done|by apply encode_bounded in Ee].
    assert (Hfresh : d_pending d !! d_next_message_id d = None).
    { destruct (d_pending d !! d_next_message_id d) eqn:Eq; [|done]. apply (ok_ids d Hok) in Eq. lia. }
    split.
    + destruct Hok1 as [A B C D F G I]. cbn in *. split; cbn; try done.
      * intros mid q [[<- _]|[_ Hq]]%lookup_insert_Some; [lia|]. by eapply A.
      * rewrite map_size_insert_None by done. lia.
      * intros pub Hpub. destruct (F pub Hpub) as (q & Hq & ?). exists q. rewrite lookup_insert_ne; [done|]. congruence.
      * intros l Hl. destruct (I l Hl) as (q & Hq & ?). exists q. rewrite lookup_insert_ne; [done|]. congruence.
    + split; cbn.
      * unfold accepted, replied in *. rewrite !omap_app. cbn. rewrite !app_nil_r, waiting_insert by done. exact Hc.
      * intros mid q [[<- <-]|[_ Hq]]%lookup_insert_Some.
        -- split; [set_solver|by apply behind_app].
        -- destruct (Hp mid q Hq). split; [set_solver|by apply behind_app].
      * unfold issued_ids. intros mid. rewrite omap_app, elem_of_app. cbn. intros [Hm%Hi| ->%list_elem_of_singleton]; lia.
      * intros a Ha. by apply recently_completed_snoc; [apply Hr|].
      * apply justified_snoc; [done|]. cbn. split_and!.
        -- intros Hm%Hi. lia.
        -- destruct Hs as (p0 & Hp0 & E1 & E2 & E3). exists p0. by rewrite E1, E2.
        -- intros Hro. destruct (Hres Hro) as (h0 & p0 & ? & Ecmd & ?). exists h0, p0. done.
  - injection E as <- <-. assert (e = TOO_LARGE) as ->.
    { unfold encode_server_message in Ee. destruct (_ <? _); congruence. }
    split.
    + destruct Hok as [A B C D F G I]. split; try done. intros mid q Hq. cbn. apply A in Hq. lia.
    + split; cbn.
      * unfold accepted, replied in *. rewrite !omap_app. cbn. rewrite app_nil_r, <-app_assoc. exact Hc.
      * intros mid q Hq. destruct (Hp mid q Hq). split; [set_solver|by apply behind_app].
      * unfold issued_ids. intros mid. rewrite omap_app. cbn. rewrite app_nil_r. intros Hm%Hi. lia.
      * intros a Ha. by apply recently_completed_snoc; [apply Hr|].
      * apply justified_snoc; [done|]. by left.
Qed.

(** ** Turns *)
Lemma history_more ms m h extra d : history ms h extra d -> history (ms ++ [m]) h extra d.
Proof.
  intros [A B C D E]. split; try done. intros h1 o h2 Eh.
  eapply justified_output_mono; [|by eapply E]. set_solver.
Qed.

(** The parts of the driver that history depends on *)
Definition same_history (d d' : ExecutorDriver) : Prop :=
  d_pending d' = d_pending d /\ d_residents d' = d_residents d /\ d_next_message_id d' = d_next_message_id d.
Lemma history_same ms h extra d d' : same_history d d' -> history ms h extra d -> history ms h extra d'.
Proof. intros (E1 & E2 & E3) [A B C D E]. split; rewrite ?E1, ?E2, ?E3; done. Qed.

Lemma accept_ok ms h d p d' outs : driver_ok d -> history ms h [] d ->
  (size (d_pending d) < MAX_PENDING_EXECUTOR_COMMANDS)%nat ->
  handle_command (Exchange p) d = Ok (d', outs) -> driver_ok d' /\ history ms (h ++ outs) [] d'.
Proof.
  intros Hok Hh Hsz E. cbn [handle_command] in E. cbv zeta in E. apply bind_ok in E as ([d1 outs1] & He & [= <- <-]).
  change (Accepted p :: outs1) with ([Accepted p] ++ outs1)%list. rewrite app_assoc.
  set (actor := command_actor (ex_command p)) in *. eapply driver_enqueue_ok; [| | | | |exact He].
  - destruct Hok. by split.
  - destruct Hh as [Hc Hp Hi Hr Hj]. split; cbn.
    + unfold accepted, replied in *. rewrite !omap_app. cbn. rewrite app_nil_r, Hc. cbn.
      rewrite (Permutation_app_comm _ [ex_reply p]). cbn. by rewrite Permutation_middle.
    + intros mid q Hq. destruct (Hp mid q Hq). split; [set_solver|by apply behind_app].
    + unfold issued_ids in *. intros mid. rewrite omap_app. cbn. rewrite app_nil_r. apply Hi.
    + intros a [Ha Hne]%elem_of_difference. apply recently_completed_snoc; [by apply Hr|]. intros p' [= <-].
      intros Ea. apply Hne. set_solver.
    + by apply justified_snoc.
  - done.
  - exists p. split; [set_solver|done].
  - cbn. intros Hres. exists h, p. split_and!; [done|done|]. apply (h_residents ms h [] d Hh). by bools.
Qed.

(** A driver whose commands shrink *)
Lemma remove_command_ok d mid : driver_ok d -> mid ∉ d_publishing_ids d -> mid ∉ d_connection_lookup_ids d ->
  driver_ok (set_commands (delete mid (d_pending d)) d).
Proof.
  intros [A B C D F G I] Hp Hl. split; cbn; try done.
  - intros m q [_ Hq]%lookup_delete_Some. by eapply A.
  - rewrite map_size_delete. destruct (d_pending d !! mid); cbn; lia.
  - intros pub Hpub. destruct (F pub Hpub) as (q & Hq & ?). exists q. rewrite lookup_delete_ne; [done|].
    intros ->. apply Hp, D. by apply list_elem_of_fmap_2.
  - intros l Hl'. destruct (I l Hl') as (q & Hq & ?). exists q. rewrite lookup_delete_ne; [done|].
    intros ->. apply Hl, G. by apply list_elem_of_fmap_2.
Qed.

Lemma answer_ok ms h d p r : driver_ok d -> history ms h [ex_reply p] d ->
  justified_output ms h (Replied (ex_reply p) r) -> history ms (h ++ [Replied (ex_reply p) r]) [] d.
Proof.
  intros Hok [Hc Hp Hi Hr Hj] Ho. split.
  - unfold accepted, replied in *. rewrite !omap_app. cbn. rewrite app_nil_r, <-app_assoc. exact Hc.
  - intros mid q Hq. destruct (Hp mid q Hq). split; [set_solver|by apply behind_app].
  - unfold issued_ids in *. intros mid. rewrite omap_app. cbn. rewrite app_nil_r. apply Hi.
  - intros a Ha. by apply recently_completed_snoc; [apply Hr|].
  - by apply justified_snoc.
Qed.

Lemma deliver_ok ms h d mid reply d' outs : driver_ok d -> history ms h [] d -> Reply mid reply ∈ ms ->
  deliver mid reply d = Ok (d', outs) -> driver_ok d' /\ history ms (h ++ outs) [] d'.
Proof.
  intros Hok Hh Hm E. unfold deliver in E. apply bind_ok in E as ([] & Hl%ensure_ok & E).
  apply bind_ok in E as ([] & Hp%ensure_ok & E). apply bind_ok in E as (p & Hpend & E).
  unfold with_context in Hpend. destruct (d_pending d !! mid) as [q|] eqn:Hq; [|done]. injection Hpend as ->. bools.
  cbv zeta in E. set (d0 := set_commands (delete mid (d_pending d)) d) in *.
  assert (Hok0 : driver_ok d0) by by apply remove_command_ok.
  destruct (h_pending _ _ _ _ Hh mid p Hq) as [Hiss Hsub].
  assert (Hh0 : history ms h [ex_reply p] d0).
  { destruct Hh as [Hc Hpp Hi Hr Hj]. split; cbn; try done.
    - rewrite Hc. cbn. by rewrite (waiting_delete mid p) by done.
    - intros m q' [_ Hq']%lookup_delete_Some. by apply Hpp. }
  assert (Hreply : reply <> StateRequired -> driver_ok d0 /\
            history ms (h ++ [Replied (ex_reply p) (Ok reply)]) [] d0).
  { intros Hne. split; [done|]. apply answer_ok; [done|done|]. right. eauto. }
  assert (Hcomplete : is_completion reply = true -> forall res, res = ∅ \/ res = d_residents d0 -> 
            driver_ok (set_residents ({[command_actor (ex_command p)]} ∪ res) d0) /\
            history ms (h ++ [Replied (ex_reply p) (Ok reply)]) [] (set_residents ({[command_actor (ex_command p)]} ∪ res) d0)).
  { intros Hc res Hres. destruct Hreply as [_ [A B C D F]]; [by intros ->|].
    split; [destruct Hok0; by split|]. split; try done. cbn. intros a [->%elem_of_singleton|Ha]%elem_of_union.
    - exists h, (ex_reply p), reply, [], mid, (envelope p). split_and!; try done. intros p'. by rewrite elem_of_nil.
    - apply D. destruct Hres as [->| ->]; set_solver. }
  destruct reply; cbn [is_completion] in E; try (injection E as <- <-; by apply Hreply);
    try (injection E as <- <-; apply Hcomplete; [done|]; destruct (4096 <=? _); auto).
  destruct (ex_resident_only p) eqn:Ero.
  - apply (driver_enqueue_ok ms h d0 (set_resident_only false p)); [done|exact Hh0| |exact Hsub|intros [=]|exact E].
    cbn. pose proof (ok_size d Hok) as Hs. rewrite map_size_delete, Hq. cbn.
    assert (size (d_pending d) <> O) by (intros E0%map_size_empty_inv; rewrite E0 in Hq; done). lia.
  - injection E as <- <-. split; [done|]. apply answer_ok; [done|done|]. exists mid, (envelope p). by split_and!.
Qed.

Lemma grant_ok ms h d mid d' : driver_ok d -> history ms h [] d -> allow_next_invocation mid d = Ok d' ->
  driver_ok d' /\ history ms h [] d'.
Proof.
  intros [A B C D F G I] [Hc Hp Hi Hr Hj] E. unfold allow_next_invocation in E.
  apply bind_ok in E as (p & Hpend & E). unfold with_context in Hpend.
  destruct (d_pending d !! mid) as [q|] eqn:Hq; [|done]. injection Hpend as ->. res_inv.
  split; split; cbn; try done.
  - intros m q [[<- _]|[_ Hm]]%lookup_insert_Some; [by eapply A|by eapply A].
  - by rewrite map_size_insert_Some by eauto.
  - intros pub Hpub. destruct (F pub Hpub) as (q & Hq' & ? & ?). destruct (decide (pub_message_id pub = mid)) as [E|].
    + rewrite E in *. exists (grant_admission p). rewrite lookup_insert_eq. assert (q = p) as -> by congruence. done.
    + exists q. by rewrite lookup_insert_ne.
  - intros l Hl. destruct (I l Hl) as (q & Hq' & ?). destruct (decide (lk_message_id l = mid)) as [E|].
    + rewrite E in *. exists (grant_admission p). rewrite lookup_insert_eq. assert (q = p) as -> by congruence. done.
    + exists q. by rewrite lookup_insert_ne.
  - rewrite Hc. cbn. by rewrite (waiting_replace mid p).
  - intros m q [[<- <-]|[_ Hm]]%lookup_insert_Some; [exact (Hp mid p Hq)|by apply Hp].
Qed.

Lemma ids_snoc {A} (f : A -> Z) (l : list A) (ids : gset Z) x :
  NoDup (f <$> l) -> (forall mid, mid ∈ ids <-> mid ∈ f <$> l) -> f x ∉ ids ->
  NoDup (f <$> (l ++ [x])%list) /\ forall mid, mid ∈ {[f x]} ∪ ids <-> mid ∈ f <$> (l ++ [x])%list.
Proof.
  intros Hn Hi Hx. rewrite fmap_app. cbn. split.
  - apply NoDup_app. split_and!; [done| |by apply NoDup_singleton]. intros m Hm ->%list_elem_of_singleton. by apply Hx, Hi.
  - intros mid. rewrite elem_of_app, list_elem_of_singleton, <-Hi. set_solver.
Qed.
Lemma ids_delete {A} (f : A -> Z) (l : list A) (ids : gset Z) k x : l !! k = Some x ->
  NoDup (f <$> l) -> (forall mid, mid ∈ ids <-> mid ∈ f <$> l) ->
  NoDup (f <$> delete k l) /\ forall mid, mid ∈ ids ∖ {[f x]} <-> mid ∈ f <$> delete k l.
Proof.
  intros Hk Hn Hi. assert (Hp : Permutation (f <$> l) (f x :: (f <$> delete k l))).
  { change (f x :: (f <$> delete k l)) with (f <$> (x :: delete k l)). by apply fmap_Permutation, delete_Permutation. }
  rewrite Hp in Hn. apply NoDup_cons in Hn as [Hx Hn]. split; [done|]. intros mid.
  rewrite elem_of_difference, Hi, Hp, elem_of_cons, elem_of_singleton. naive_solver.
Qed.

Lemma publish_ok d mid effects d' : driver_ok d -> publish mid effects d = Ok d' -> driver_ok d' /\ same_history d d'.
Proof.
  intros [A B C [D1 D2] F G I] E. unfold publish in E. apply bind_ok in E as (p & Hpend & E). unfold with_context in Hpend.
  destruct (d_pending d !! mid) as [q|] eqn:Hq; [|done]. injection Hpend as ->. res_inv. bools.
  split; [|by split_and!]. split; cbn; try done.
  - by apply (ids_snoc pub_message_id).
  - intros pub [Hpub|Hpub%list_elem_of_singleton]%elem_of_app; [by apply F|]. subst pub. cbn. by exists p.
Qed.
Lemma load_connections_ok d mid d' : driver_ok d -> load_connections mid d = Ok d' -> driver_ok d' /\ same_history d d'.
Proof.
  intros [A B C D F [G1 G2] I] E. unfold load_connections in E. apply bind_ok in E as (p & Hpend & E). unfold with_context in Hpend.
  destruct (d_pending d !! mid) as [q|] eqn:Hq; [|done]. injection Hpend as ->. res_inv. bools.
  split; [|by split_and!]. split; cbn; try done.
  - by apply (ids_snoc lk_message_id).
  - intros l [Hl|Hl%list_elem_of_singleton]%elem_of_app; [by apply I|]. subst l. cbn. by exists p.
Qed.
Lemma residency_ok now actors d d' : driver_ok d -> receive_residency now actors d = Ok d' -> driver_ok d' /\ same_history d d'.
Proof.
  intros [A B C D F G I] E. unfold receive_residency in E. apply bind_ok in E as ([] & _ & E). apply bind_ok in E as ([] & _ & E).
  cbv zeta in E. injection E as <-. destruct (match _ with Some _ => _ | None => _ end); by split; [split|split_and!].
Qed.
Lemma ready_ok c b1 b2 d d' outs : driver_ok d -> handle_command (Ready c b1 b2) d = Ok (d', outs) ->
  driver_ok d' /\ same_history d d' /\ outs = [].
Proof.
  intros [A B C D F G I] E. cbn [handle_command] in E. cbv zeta in E. apply bind_ok in E as (bytes & Hb & E).
  apply bind_ok in E as (d1 & Hs & [= <- <-]). apply try_send_ok in Hs as [Hok ->]; [done|by split|by apply encode_bounded in Hb].
Qed.
Lemma acknowledge_publication_ok k r d d' : driver_ok d -> acknowledge_publication k r d = Some (Ok d') ->
  driver_ok d' /\ same_history d d'.
Proof.
  intros [A B C [D1 D2] F G I] E. unfold acknowledge_publication in E.
  destruct (d_publishing d !! k) as [pub|] eqn:Hk; [|done]. cbn in E. case_guard; [|done]. cbn in E. injection E as E.
  apply bind_ok in E as (bytes & Hb & E). cbv zeta in E. apply try_send_ok in E as [Hok ->]; [done| |by apply encode_bounded in Hb].
  split; cbn; try done.
  - by apply (ids_delete pub_message_id).
  - intros p Hp. apply F. eapply elem_of_Permutation_proper; [by apply delete_Permutation|]. by right.
Qed.
Lemma acknowledge_lookup_ok k r d d' : driver_ok d -> acknowledge_lookup k r d = Some (Ok d') ->
  driver_ok d' /\ same_history d d'.
Proof.
  intros [A B C D F [G1 G2] I] E. unfold acknowledge_lookup in E.
  destruct (d_loading_connections d !! k) as [l|] eqn:Hk; [|done]. cbn in E. case_guard; [|done]. cbn in E. injection E as E.
  apply bind_ok in E as (bytes & Hb & E). cbv zeta in E. apply try_send_ok in E as [Hok ->]; [done| |by apply encode_bounded in Hb].
  split; cbn; try done.
  - by apply (ids_delete lk_message_id).
  - intros p Hp. apply I. eapply elem_of_Permutation_proper; [by apply delete_Permutation|]. by right.
Qed.

(** The messages of the executor among the inputs *)
Definition messages (inputs : list input) : list ActorExecutorClientMessage :=
  omap (fun i => match i with FromReader _ (Ok m) => Some m | _ => None end) inputs.

Lemma written_history ms h d c r : history ms h [] d -> history ms (h ++ [Written c r]) [] d.
Proof.
  intros [Hc Hp Hi Hr Hj]. split.
  - unfold accepted, replied in *. rewrite !omap_app. cbn. by rewrite !app_nil_r.
  - intros mid q Hq. destruct (Hp mid q Hq). split; [set_solver|by apply behind_app].
  - unfold issued_ids in *. intros mid. rewrite omap_app. cbn. rewrite app_nil_r. apply Hi.
  - intros a Ha. by apply recently_completed_snoc; [apply Hr|].
  - by apply justified_snoc.
Qed.

Lemma driver_step_ok ms h i d d' outs : driver_ok d -> history ms h [] d -> driver_step i d = Next d' outs ->
  driver_ok d' /\ history (ms ++ messages [i]) (h ++ outs) [] d'.
Proof.
  intros Hok Hh E. destruct i as [now [m|e]|k r|k r|request| |r]; cbn [driver_step] in E; cbn [messages omap list_omap].
  - apply (history_more _ m) in Hh. destruct (receive_message now m d) as [[d1 o1]|] eqn:Er; [|done]. injection E as <- <-.
    destruct m; cbn [receive_message] in Er; try done;
      try (apply bind_ok in Er as (d2 & Hd2 & [= <- <-]); rewrite app_nil_r).
    + apply residency_ok in Hd2 as [? ?]; [|done]. eauto using history_same.
    + apply load_connections_ok in Hd2 as [? ?]; [|done]. eauto using history_same.
    + by eapply grant_ok.
    + apply publish_ok in Hd2 as [? ?]; [|done]. eauto using history_same.
    + eapply deliver_ok; [done|done| |done]. set_solver.
  - done.
  - rewrite app_nil_r. unfold quiet_turn in E. destruct (acknowledge_publication k r d) as [[d1|]|] eqn:Ea; simplify_eq;
      rewrite app_nil_r; [|done]. apply acknowledge_publication_ok in Ea as [? ?]; [|done]. eauto using history_same.
  - rewrite app_nil_r. unfold quiet_turn in E. destruct (acknowledge_lookup k r d) as [[d1|]|] eqn:Ea; simplify_eq;
      rewrite app_nil_r; [|done]. apply acknowledge_lookup_ok in Ea as [? ?]; [|done]. eauto using history_same.
  - rewrite app_nil_r. destruct (_ <? _)%nat eqn:El; [|injection E as <- <-; by rewrite app_nil_r].
    destruct (handle_command request d) as [[d1 o1]|] eqn:Ec; [|done]. injection E as <- <-. apply Nat.ltb_lt in El.
    destruct request as [p|c b1 b2].
    + by eapply accept_ok.
    + apply ready_ok in Ec as (? & ? & ->); [|done]. rewrite app_nil_r. eauto using history_same.
  - rewrite app_nil_r. destruct (_ <? _)%nat; [done|]. injection E as <- <-. by rewrite app_nil_r.
  - rewrite app_nil_r. unfold take_write in E. destruct (d_outbound d) as [|w rest] eqn:Eo.
    { injection E as <- <-. by rewrite app_nil_r. }
    destruct r as [[]|]; cbn in E; [|done]. injection E as <- <-.
    assert (Hok' : driver_ok (set_outbound rest d)).
    { destruct Hok as [A B [C1 C2] D F G I]. rewrite Eo in C1, C2. cbn in C1. apply Forall_cons in C2 as [_ C2].
      split; try done. cbn. split; [lia|done]. }
    split; [done|]. apply (history_same _ _ _ d); [by split_and!|].
    destruct (w_written w); [by apply written_history|by rewrite app_nil_r].
Qed.

Lemma driver_run_ok inputs : forall ms h d outs d', driver_ok d -> history ms h [] d ->
  driver_run inputs d = (outs, inl d') -> driver_ok d' /\ history (ms ++ messages inputs) (h ++ outs) [] d'.
Proof.
  induction inputs as [|i inputs IH]; intros ms h d outs d' Hok Hh E; cbn in E.
  - injection E as <- <-. by rewrite !app_nil_r.
  - destruct (driver_step i d) as [d1 o1|r] eqn:Es; [|done].
    destruct (driver_step_ok _ _ _ _ _ _ Hok Hh Es) as [Hok1 Hh1].
    destruct (driver_run inputs d1) as [o2 e2] eqn:Er. cbn in E. injection E as <- ->.
    destruct (IH _ _ _ _ _ Hok1 Hh1 Er) as [Hok2 Hh2]. rewrite <-!app_assoc in Hh2.
    assert (Em : messages (i :: inputs) = (messages [i] ++ messages inputs)%list) by (unfold messages; cbn; by case_match).
    by rewrite Em.
Qed.
Lemma new_history : history [] [] [] ExecutorDriver_new.
Proof.
  split; cbn; try done.
  - intros mid. by rewrite elem_of_nil.
  - intros h1 o h2 E. by destruct h1.
Qed.
Lemma run_ok inputs outs d : driver_run inputs ExecutorDriver_new = (outs, inl d) ->
  driver_ok d /\ history (messages inputs) outs [] d.
Proof. exact (driver_run_ok inputs [] [] ExecutorDriver_new outs d new_ok new_history). Qed.

(** C12: Every call that the driver has taken is answered exactly once or still
    pending, and nobody else is answered, whatever the executor and the tasks of
    the host do; at most 64 commands are pending. *)
Theorem calls_are_answered_once inputs outs d :
  driver_run inputs ExecutorDriver_new = (outs, inl d) ->
  Permutation (accepted outs) (replied outs ++ waiting_callers (d_pending d)) /\
  (size (d_pending d) <= MAX_PENDING_EXECUTOR_COMMANDS)%nat.
Proof. intros [Hok Hh]%run_ok. split; [apply Hh|apply Hok]. Qed.

(** C15: A caller gets the reply that the executor gave to its own command: the
    command was issued for it earlier under a message id of its own, and only a
    command too large to send is answered by the driver itself. *)
Theorem replies_belong_to_their_commands inputs outs d h1 c reply h2 :
  driver_run inputs ExecutorDriver_new = (outs, inl d) -> outs = (h1 ++ Replied c (Ok reply) :: h2)%list ->
  reply = ReplyFailed "resource_exhausted" TOO_LARGE \/
  exists mid env g1 g2, Reply mid reply ∈ messages inputs /\ h1 = (g1 ++ Issued mid c env :: g2)%list /\
    mid ∉ issued_ids g1 /\ mid ∉ issued_ids (g2 ++ Replied c (Ok reply) :: h2).
Proof.
  intros [_ [_ _ _ _ Hj]]%run_ok Eo. destruct (Hj _ _ _ Eo) as [?|(mid & env & Hm & Hi & _)]; [by left|]. right.
  apply list_elem_of_split in Hi as (g1 & g2 & ->). exists mid, env, g1, g2. split_and!; [done|done| |].
  - destruct (Hj g1 (Issued mid c env) (g2 ++ Replied c (Ok reply) :: h2)%list) as [? _]; [|done].
    by rewrite Eo, <-app_assoc.
  - intros Hin. apply list_elem_of_omap in Hin as (o & Ho & Hmid). destruct o as [| |mid' c' env'|]; try done.
    injection Hmid as ->. apply list_elem_of_split in Ho as (k1 & k2 & Ek).
    destruct (Hj (g1 ++ Issued mid c env :: k1)%list (Issued mid c' env') k2) as [Hno _].
    + rewrite Eo, <-!app_assoc. cbn. by rewrite Ek.
    + apply Hno. unfold issued_ids. rewrite omap_app. cbn. set_solver.
Qed.

(** C16: The state of an actor is never silently left out.  A command carries the
    state its caller gave, except an eviction, and except a command that asks the
    executor to use the state it still holds; that is asked only if the executor
    has completed a command of this actor and none was taken since. *)
Theorem state_is_left_out_only_for_residents inputs outs d h1 mid c env h2 :
  driver_run inputs ExecutorDriver_new = (outs, inl d) -> outs = (h1 ++ Issued mid c env :: h2)%list ->
  (exists p, Accepted p ∈ h1 /\ ex_reply p = c /\ env_command env = ex_command p /\
     env_state env = (if env_resident_only env || is_evict (ex_command p) then None
                      else Some (default Null (ex_state p)))) /\
  (env_resident_only env = true ->
     exists h0 p, h1 = (h0 ++ [Accepted p])%list /\ recently_completed (command_actor (env_command env)) h0).
Proof.
  intros [_ [_ _ _ _ Hj]]%run_ok Eo. destruct (Hj _ _ _ Eo) as (_ & Hp & Hr). split; [done|].
  intros Hro. destruct (Hr Hro) as (h0 & p & -> & -> & ?). eauto.
Qed.

(** Work done for a command never outlives it: a running publication or
    connection lookup belongs to a pending command of the same actor, each command
    has at most one of each, and what waits for the writer is at most 65 messages of
    at most 32 MiB. *)
Theorem tasks_belong_to_pending_commands inputs outs d :
  driver_run inputs ExecutorDriver_new = (outs, inl d) ->
  (forall pub, pub ∈ d_publishing d -> exists p, d_pending d !! pub_message_id pub = Some p /\
     pub_actor pub = command_actor (ex_command p)) /\
  (forall l, l ∈ d_loading_connections d -> exists p, d_pending d !! lk_message_id l = Some p /\
     lk_actor l = command_actor (ex_command p)) /\
  NoDup (pub_message_id <$> d_publishing d) /\ NoDup (lk_message_id <$> d_loading_connections d) /\
  (length (d_outbound d) <= 65)%nat /\ Forall (fun w => len (w_bytes w) <= 33554432) (d_outbound d).
Proof.
  intros [[A B [C1 C2] [D1 _] F [G1 _] I] _]%run_ok. split_and!; try done. intros pub Hp. naive_solver.
Qed.
End safety.

(** * Framing

    Compact JSON of a message is one line and ends with the brace of its object. *)
Class JsonFrameLaws (A : Type) `{Json A} : Prop := {
  frame_one_line : forall a : A, contains_char newline_byte (to_vec a) = false;
  frame_closed : forall a : A, exists s, to_vec a = s +:+ "}" }.

Lemma read_until_line s rest : forall limit, contains_char newline_byte s = false -> len s < limit ->
  read_until limit (s +:+ String newline_byte rest) = (s +:+ String newline_byte "", rest).
Proof.
  induction s as [|c s IH]; intros limit Hs Hl; unfold len in *; cbn [String.length] in Hl.
  - cbn. destruct (limit <=? 0) eqn:E; bools; [lia|done].
  - rewrite sapp_cons. cbn [read_until]. destruct (limit <=? 0) eqn:E; bools; [lia|].
    apply contains_char_false in Hs. cbn in Hs. bools. rewrite (proj2 (Ascii.eqb_neq c newline_byte)) by done.
    rewrite IH; [done|by apply contains_char_false|lia].
Qed.
Lemma read_until_long s : forall limit, contains_char newline_byte s = false -> 0 <= limit <= len s ->
  forall rest, len (read_until limit (s +:+ rest)).1 = limit.
Proof.
  induction s as [|c s IH]; intros limit Hs Hl rest; unfold len in Hl; cbn [String.length] in Hl.
  - assert (limit = 0) as -> by lia. cbn. by destruct rest.
  - rewrite sapp_cons. cbn [read_until]. destruct (limit <=? 0) eqn:E; bools; [unfold len; cbn; lia|].
    apply contains_char_false in Hs. cbn in Hs. bools. rewrite (proj2 (Ascii.eqb_neq c newline_byte)) by done.
    cbn [fst]. unfold len in *. cbn [String.length]. rewrite Nat2Z.inj_succ, IH; [lia|by apply contains_char_false|lia].
Qed.
Lemma trim_newline s : trim_ascii_end ((s +:+ "}") +:+ String newline_byte "") = s +:+ "}".
Proof. induction s as [|c s IH]; [done|]. rewrite !sapp_cons. cbn [trim_ascii_end]. rewrite IH. by destruct s. Qed.

Section framed.
Context `{Json ActorExecutorClientMessage, !JsonLaws ActorExecutorClientMessage, !JsonFrameLaws ActorExecutorClientMessage}.

(** What the executor writes *)
Definition frame (m : ActorExecutorClientMessage) : string := to_vec m +:+ String newline_byte "".
Fixpoint frames (ms : list ActorExecutorClientMessage) : string :=
  match ms with [] => "" | m :: rest => frame m +:+ frames rest end.

Lemma read_frame m rest : len (frame m) <= MAX_ACTOR_EXECUTOR_MESSAGE_BYTES ->
  read_client_message (frame m +:+ rest) = (Ok (Some m), rest).
Proof.
  intros Hl. unfold read_client_message, frame in *. rewrite len_app in Hl. unfold len at 2 in Hl. cbn in Hl.
  rewrite <-sapp_assoc. change (String newline_byte "" +:+ rest) with (String newline_byte rest).
  rewrite read_until_line by (try apply frame_one_line; lia). cbn [fst snd].
  rewrite len_app. unfold len at 2 4. cbn [String.length]. assert (0 <= len (to_vec m)) by (unfold len; lia).
  destruct (_ =? 0) eqn:E0; bools; [lia|]. rewrite (proj2 (Z.leb_le _ _)) by lia. cbn [ensure mbind Result_bind].
  destruct (frame_closed m) as [s Es]. rewrite Es, trim_newline, <-Es, json_roundtrip. done.
Qed.

(** C25: Messages of the executor arrive as they were sent, in order: a stream of
    frames of at most 32 MiB each is read back as exactly those messages, followed
    by the report that the executor disconnected. *)
Theorem framing_roundtrip ms :
  Forall (fun m => len (frame m) <= MAX_ACTOR_EXECUTOR_MESSAGE_BYTES) ms ->
  read_executor_messages (S (length ms)) (frames ms)
  = ((Ok <$> ms) ++ [Err "customer JavaScript actor executor disconnected"])%list.
Proof.
  induction 1 as [|m ms Hm Hms IH]; [done|]. change (length (m :: ms)) with (S (length ms)).
  change (frames (m :: ms)) with (frame m +:+ frames ms).
  remember (S (length ms)) as n eqn:En. cbn [read_executor_messages]. rewrite read_frame by done. by rewrite IH.
Qed.

(** A frame over the limit is refused, whatever it holds. *)
Lemma oversized_frame_is_refused m rest : MAX_ACTOR_EXECUTOR_MESSAGE_BYTES < len (to_vec m) ->
  (read_client_message (frame m +:+ rest)).1 = Err "customer actor executor message exceeds 33554432 bytes".
Proof.
  intros Hl. unfold read_client_message, frame in *. rewrite <-sapp_assoc. cbn [fst].
  rewrite read_until_long by (try apply frame_one_line; unfold MAX_ACTOR_EXECUTOR_MESSAGE_BYTES in *; lia). done.
Qed.
End framed.

(** * Connections to try *)
From S2P Require Import Samples.

(** A JSON-like text for every countable type: an object with the code inside *)
Definition object_json `{Countable A} : Json A := {|
  to_vec a := String "{" (put_text (Text := code_text) a "}");
  from_slice s :=
    with_context (t ← strip_prefix "{" s; '(a, u) ← get_text (Text := code_text) t;
                  if String.eqb u "}" then Some a else None) "invalid text" |}.
Lemma object_json_laws `{Countable A} : @JsonLaws A object_json.
Proof.
  intros a. cbn [to_vec from_slice object_json]. cbn [strip_prefix]. destruct (ascii_dec "{" "{"); [|done].
  cbn [mbind option_bind]. rewrite text_roundtrip. done.
Qed.
Lemma object_json_frames `{Countable A} : @JsonFrameLaws A object_json.
Proof.
  split; intros a; cbn [to_vec object_json].
  - apply (contains_char_class _ StoragePaths.printable); [done|]. cbn [all_bytes]. by rewrite text_printable.
  - exists (String "{" (put_text (Text := code_text) a "")). rewrite sapp_cons. f_equal. by rewrite text_app.
Qed.

#[local] Instance message_countable : Countable ActorSocketMessage.
Proof.
  refine (inj_countable' (fun m => match m with Actors.Text s => inl s | Binary s => inr s end)
            (fun x => match x with inl s => Actors.Text s | inr s => Binary s end) _). by intros [].
Defined.
#[local] Instance tag_match_countable : Countable ActorSocketTagMatch.
Proof.
  refine (inj_countable' (fun m => match m with All => true | Any => false end)
            (fun b : bool => if b then All else Any) _). by intros [].
Defined.
#[local] Instance effect_countable : Countable ActorSocketEffect.
Proof.
  refine (inj_countable'
    (fun e => match e with
     | StateSnapshotEffect a b c => inl (inl (inl (a, b, c)))
     | StateUpdateEffect a b c e => inl (inl (inr (a, b, c, e)))
     | SendEffect a b => inl (inr (inl (a, b)))
     | BroadcastEffect a b c e => inl (inr (inr (a, b, c, e)))
     | CloseEffect a b c => inr (inl (inl (a, b, c)))
     | RejectEffect a b c => inr (inl (inr (a, b, c)))
     | SetMetadataEffect a b => inr (inr (inl (a, b)))
     | SetTagsEffect a b => inr (inr (inr (a, b)))
     end)
    (fun x => match x with
     | inl (inl (inl (a, b, c))) => StateSnapshotEffect a b c
     | inl (inl (inr (a, b, c, e))) => StateUpdateEffect a b c e
     | inl (inr (inl (a, b))) => SendEffect a b
     | inl (inr (inr (a, b, c, e))) => BroadcastEffect a b c e
     | inr (inl (inl (a, b, c))) => CloseEffect a b c
     | inr (inl (inr (a, b, c))) => RejectEffect a b c
     | inr (inr (inl (a, b))) => SetMetadataEffect a b
     | inr (inr (inr (a, b))) => SetTagsEffect a b
     end) _). by intros [].
Defined.
#[local] Instance reply_countable : Countable ExecutorReply.
Proof.
  refine (inj_countable'
    (fun r => match r with
     | Hydrated => inl (inl 0) | StateRequired => inl (inl 1) | Evicted => inl (inl 2)
     | Invoked a b c e => inl (inr (a, b, c, e)) | WebsocketHandled a b c => inr (inl (a, b, c))
     | ReplyFailed a b => inr (inr (a, b))
     end)
    (fun x => match x with
     | inl (inl 0) => Hydrated | inl (inl 1) => StateRequired | inl (inl _) => Evicted
     | inl (inr (a, b, c, e)) => Invoked a b c e | inr (inl (a, b, c)) => WebsocketHandled a b c
     | inr (inr (a, b)) => ReplyFailed a b
     end) _). by intros [].
Defined.
#[local] Instance client_message_eq_dec : EqDecision ActorExecutorClientMessage.
Proof. solve_decision. Defined.
#[local] Instance client_message_countable : Countable ActorExecutorClientMessage.
Proof.
  refine (inj_countable'
    (fun m => match m with
     | Warm a => inl (inl (inl a)) | Residency a => inl (inl (inr a)) | GetConnections a => inl (inr (inl a))
     | ReadyForInvocation a => inl (inr (inr a)) | SocketEffectsMessage a b => inr (inl (inl (a, b)))
     | Attach a b => inr (inl (inr (a, b))) | Reply a b => inr (inr (a, b))
     end)
    (fun x => match x with
     | inl (inl (inl a)) => Warm a | inl (inl (inr a)) => Residency a | inl (inr (inl a)) => GetConnections a
     | inl (inr (inr a)) => ReadyForInvocation a | inr (inl (inl (a, b))) => SocketEffectsMessage a b
     | inr (inl (inr (a, b))) => Attach a b | inr (inr (a, b)) => Reply a b
     end) _). by intros [].
Defined.
#[local] Instance client_json : Json ActorExecutorClientMessage := object_json.
#[local] Instance client_json_laws : JsonLaws ActorExecutorClientMessage := object_json_laws.
#[local] Instance client_json_frames : JsonFrameLaws ActorExecutorClientMessage := object_json_frames.

Definition greetings : list ActorExecutorClientMessage :=
  [Attach 18 ["Room"]; Residency []; Reply 1 (ReplyFailed "nope" "no")].
Lemma framing_roundtrip_witness :
  read_executor_messages 4 (frames greetings)
  = ((Ok <$> greetings) ++ [Err "customer JavaScript actor executor disconnected"])%list.
Proof. apply (framing_roundtrip greetings). repeat constructor; vm_compute; discriminate. Defined.

(** Two calls to a room: the second relies on the state the executor still holds,
    which asks for it again. *)
#[local] Instance server_sample : Json ActorExecutorServerMessage := {| to_vec _ := "{}"; from_slice _ := Err "" |}.
#[local] Instance effect_sample : Json ActorSocketEffect := {| to_vec _ := "{}"; from_slice _ := Err "" |}.
Definition a_room : ActorKey := {| project_id := "p"; actor_name := "Room"; actor_id := "one" |}.
Definition a_call (caller : nat) : input :=
  FromCaller (exchange caller (CmdInvoke {| mi_request_id := "r"; mi_actor := a_room; mi_method := "m"; mi_args := [] |})
                (Some (Str "state"))).
Definition a_result : ExecutorReply := Invoked (Str "done") Null None [].
Definition two_calls : list input :=
  [a_call 0; FromReader 0 (Ok (Reply 1 a_result)); a_call 1; FromReader 0 (Ok (GetConnections 2));
   LookupDone 0 (Ok []); FromReader 0 (Ok (Reply 2 StateRequired)); FromReader 0 (Ok (Reply 3 a_result)); a_call 2;
   FromReader 0 (Ok (SocketEffectsMessage 4 []))].
Definition two_calls_run := driver_run two_calls ExecutorDriver_new.
Definition two_calls_driver : ExecutorDriver :=
  match two_calls_run.2 with inl d => d | inr _ => ExecutorDriver_new end.
Lemma two_calls_runs : driver_run two_calls ExecutorDriver_new = (two_calls_run.1, inl two_calls_driver).
Proof. vm_compute. reflexivity. Qed.

Lemma calls_are_answered_once_witness :
  Permutation (accepted two_calls_run.1) (replied two_calls_run.1 ++ waiting_callers (d_pending two_calls_driver)) /\
  accepted two_calls_run.1 = [0; 1; 2]%nat /\ replied two_calls_run.1 = [0; 1]%nat.
Proof.
  split_and!; [|vm_compute; reflexivity..].
  exact (proj1 (calls_are_answered_once two_calls _ _ two_calls_runs)).
Defined.

Lemma replies_belong_to_their_commands_witness :
  exists h1 h2, two_calls_run.1 = (h1 ++ Replied 1 (Ok a_result) :: h2)%list /\
    (a_result = ReplyFailed "resource_exhausted" TOO_LARGE \/
     exists mid env g1 g2, Reply mid a_result ∈ messages two_calls /\ h1 = (g1 ++ Issued mid 1 env :: g2)%list /\
       mid ∉ issued_ids g1 /\ mid ∉ issued_ids (g2 ++ Replied 1 (Ok a_result) :: h2)).
Proof.
  exists (take 6 two_calls_run.1), (drop 7 two_calls_run.1).
  assert (E : two_calls_run.1 = (take 6 two_calls_run.1 ++ Replied 1 (Ok a_result) :: drop 7 two_calls_run.1)%list)
    by (vm_compute; reflexivity).
  split; [exact E|]. exact (replies_belong_to_their_commands two_calls _ _ _ 1 a_result _ two_calls_runs E).
Defined.

Lemma state_is_left_out_only_for_residents_witness :
  exists h1 mid env h2, two_calls_run.1 = (h1 ++ Issued mid 1 env :: h2)%list /\ env_resident_only env = true /\
    exists h0 p, h1 = (h0 ++ [Accepted p])%list /\ recently_completed a_room h0.
Proof.
  assert (E : exists env, two_calls_run.1 = (take 4 two_calls_run.1 ++ Issued 2 1 env :: drop 5 two_calls_run.1)%list /\
                env_resident_only env = true /\ command_actor (env_command env) = a_room)
    by (eexists; vm_compute; split_and!; reflexivity).
  destruct E as (env & E & Hr & Ea). exists (take 4 two_calls_run.1), 2, env, (drop 5 two_calls_run.1).
  split; [exact E|]. split; [exact Hr|]. rewrite <-Ea.
  exact (proj2 (state_is_left_out_only_for_residents two_calls _ _ _ 2 1 env _ two_calls_runs E) Hr).
Defined.

Lemma tasks_belong_to_pending_commands_witness :
  exists pub, d_publishing two_calls_driver = [pub] /\
    exists p, d_pending two_calls_driver !! pub_message_id pub = Some p /\ pub_actor pub = command_actor (ex_command p).
Proof.
  assert (E : exists pub, d_publishing two_calls_driver = [pub]) by (eexists; vm_compute; reflexivity).
  destruct E as [pub E]. exists pub. split; [exact E|].
  apply (proj1 (tasks_belong_to_pending_commands two_calls _ _ two_calls_runs)). rewrite E. left.
Defined.

(** The acknowledgements of publications and lookups share the queue of the
    commands: 33 pending commands can fill it, and then the next command ends the
    connection although the writer is alive. *)
Definition busy_calls : list input :=
  (a_call <$> seq 0 33) ++ replicate 33 (WriterTakes (Ok ()))
  ++ ((fun k => FromReader 0 (Ok (SocketEffectsMessage (Z.of_nat k) []))) <$> seq 1 33)
  ++ ((fun k => FromReader 0 (Ok (GetConnections (Z.of_nat k)))) <$> seq 1 33)
  ++ replicate 33 (PublicationDone 0 (Ok ())) ++ replicate 32 (LookupDone 0 (Ok [])).
Lemma acknowledgements_fill_the_queue :
  (exists outs d, driver_run busy_calls ExecutorDriver_new = (outs, inl d) /\ size (d_pending d) = 33%nat /\
     length (d_outbound d) = OUTBOUND_CAPACITY) /\
  (driver_run (busy_calls ++ [a_call 33]) ExecutorDriver_new).2
  = inr (Err "actor executor writer stopped or filled its queue").
Proof.
  split; [|vm_compute; reflexivity]. eexists _, _. split; [vm_compute; reflexivity|]. split; vm_compute; reflexivity.
Qed.
