(* ===== verification/HostProcess.v ===== *)
(** The process of a host ([host/process.rs]), how a spare one gets its assignment
    ([host/assignment.rs], [host/spare.rs]), and the preparation of its first replicas
    ([host/replication/startup.rs]).

    The process reads its configuration from the environment, starts its parts,
    serves until something ends it, and gives the lease back.  What it asks of its
    parts are requests; a [select!] is a request whose reply says which branch ran,
    and its type rules out the branches that are switched off. *)

From S2P Require Import Prelude.
From S2P Require Import Calls.
From S2P Require Import Actors.
From S2P Require Import StoragePaths.
From S2P Require Import Snapshots.
From S2P Require Import ReplicaStore.
From S2P Require Import RuntimeStorage.
From S2P Require Import HostDispatcher.
From S2P Require Import Deployments.
From S2P Require Import Tokens.
From S2P Require Import LeaseMaintenance.
Local Open Scope string_scope.
Local Open Scope Z_scope.

Definition HOST_TASK_SHUTDOWN_TIMEOUT : Z := 2000.
Definition HOST_ACTOR_DRAIN_TIMEOUT : Z := 5000.
Definition DEFAULT_HOST_IDLE_TIMEOUT_MS : Z := 10000.
Definition MAX_IDLE_TIMEOUT_MS : Z := 86400000.

(** * Configuration *)
(** [bucket/access.rs] *)
Inductive BucketLocation := GcsBucket (bucket : string) | FileDirectory (directory : string).
Record HostStorageConfig := {
  hs_bucket : BucketLocation;
  hs_region : string;
  hs_replica_secret : string;
  hs_replica_regions : list string;
  hs_token : option StorageToken }.

Record HostMetadataFile := { mf_path : string; mf_canonical_region : string }.
(** Durations in milliseconds *)
Record ActorHostConfig := {
  cf_runtime_config : HostStorageConfig;
  cf_actor : option ActorKey;
  cf_new_actor : bool;
  cf_ready_file : option string;
  cf_control_plane_url : string;
  cf_host_token : string;
  cf_jwt_public_keys : string;
  cf_host_id : HostId;
  cf_session_id : string;
  cf_executor_socket : string;
  cf_host_bind : string;
  cf_host_route : option string;
  cf_jwt_issuer : string;
  cf_invocation_jwt_audience : string;
  cf_socket_jwt_audience : string;
  cf_jwt_max_lifetime : Z;
  cf_lease_duration : Z;
  cf_renew_every : Z;
  cf_host_idle_timeout : Z;
  cf_metadata : option HostMetadataFile }.

(** What the crates [uuid], [tonic] and [std::net] accept *)
Class HostParsers := {
  uuid_accepts : string -> bool;
  endpoint_accepts : string -> bool;
  socket_addr_accepts : string -> bool }.

Abbreviation environment := (string -> option string).

Definition required (get : environment) (name : string) : Result string :=
  value ← with_context (get name) (name +:+ " is required");
  ensure (negb (is_empty value)) (name +:+ " must not be empty");;
  Ok value.
(** [get(name).map(parse).transpose().context(..)?.unwrap_or(default)], then positive *)
Definition duration_of (unit_name : string) (get : environment) (name : string) (default : Z) : Result Z :=
  value ← match get name with
          | Some s => with_context (parse_u64 s) (name +:+ " must be an integer number of " +:+ unit_name)
          | None => Ok default
          end;
  ensure (0 <? value) (name +:+ " must be positive");;
  Ok value.
Definition duration_ms (get : environment) (name : string) (default : Z) : Result Z :=
  duration_of "milliseconds" get name default.
Definition duration_seconds (get : environment) (name : string) (default : Z) : Result Z :=
  secs ← duration_of "seconds" get name default;
  Ok (secs * 1000).
Definition host_idle_timeout_ms (get : environment) : Result Z :=
  timeout ← duration_ms get "DURABLE_ACTORS_HOST_IDLE_TIMEOUT_MS" DEFAULT_HOST_IDLE_TIMEOUT_MS;
  ensure (timeout <=? MAX_IDLE_TIMEOUT_MS) "DURABLE_ACTORS_HOST_IDLE_TIMEOUT_MS is too large";;
  Ok timeout.
(** [str::parse::<bool>] *)
Definition parse_bool (s : string) : option bool :=
  if String.eqb s "true" then Some true else if String.eqb s "false" then Some false else None.

Definition HostMetadataFile_from_lookup (get : environment) : Result (option HostMetadataFile) :=
  match get "DURABLE_ACTORS_HOST_METADATA_FILE" with
  | None => Ok None
  | Some path =>
      ensure (negb (is_empty path)) "DURABLE_ACTORS_HOST_METADATA_FILE must not be empty";;
      canonical_region ← required get "DURABLE_ACTORS_REGION";
      validate_region canonical_region;;
      Ok (Some {| mf_path := path; mf_canonical_region := canonical_region |})
  end.

Section configuration.
Context `{HostParsers, Json HostStorageConfig, Json ActorKey}.

Definition from_lookup (get : environment) : Result ActorHostConfig :=
  control_plane_url ← required get "DURABLE_ACTORS_CONTROL_PLANE_URL";
  host_token ← required get "DURABLE_ACTORS_HOST_TOKEN";
  jwt_public_keys ← required get "DURABLE_ACTORS_JWT_PUBLIC_KEYS";
  host_id ← required get "DURABLE_ACTORS_HOST_ID";
  ensure (starts_with "host.v3." host_id) "DURABLE_ACTORS_HOST_ID is invalid";;
  session_id ← required get "DURABLE_ACTORS_SESSION_ID";
  ensure (uuid_accepts session_id) "DURABLE_ACTORS_SESSION_ID must be a UUID";;
  let executor_socket := default "/tmp/durable-actors-executor.sock" (get "DURABLE_ACTORS_EXECUTOR_SOCKET") in
  let host_route := get "DURABLE_ACTORS_HOST_ROUTE" in
  ensure (match host_route with Some route => endpoint_accepts route | None => true end)
    "DURABLE_ACTORS_HOST_ROUTE must be a valid HTTP or HTTPS URI";;
  metadata ← HostMetadataFile_from_lookup get;
  let host_bind := default (match host_route with Some _ => "0.0.0.0:7101" | None => "127.0.0.1:0" end)
                     (get "DURABLE_ACTORS_HOST_BIND") in
  ensure (socket_addr_accepts host_bind) "DURABLE_ACTORS_HOST_BIND must be a socket address";;
  let jwt_issuer := default "durable-actors-control-plane" (get "DURABLE_ACTORS_JWT_ISSUER") in
  let invocation_jwt_audience := default "durable-actors-invoke" (get "DURABLE_ACTORS_INVOKE_JWT_AUDIENCE") in
  jwt_max_lifetime ← duration_seconds get "DURABLE_ACTORS_JWT_MAX_TTL_SECONDS" 86400;
  lease_duration ← duration_ms get "DURABLE_ACTORS_LEASE_MS" 30000;
  renew_every ← duration_ms get "DURABLE_ACTORS_RENEW_MS" 10000;
  host_idle_timeout ← host_idle_timeout_ms get;
  ensure (lease_duration <=? MAX_HOST_LEASE_DURATION_MS) "DURABLE_ACTORS_LEASE_MS is too large";;
  ensure (renew_every <? lease_duration) "DURABLE_ACTORS_RENEW_MS must be shorter than DURABLE_ACTORS_LEASE_MS";;
  text ← with_context (get "DURABLE_ACTORS_RUNTIME_CONFIG") "host storage configuration missing";
  runtime_config ← match from_slice text with Ok c => Ok c | Err _ => Err "parse host runtime configuration" end;
  actor ← match get "DURABLE_ACTORS_ACTOR" with
          | Some value => a ← from_slice value; Ok (Some a)
          | None => Ok None
          end;
  match actor with Some a => ActorKey_validate a | None => Ok tt end;;
  new_actor ← match get "DURABLE_ACTORS_ACTOR_IS_NEW" with
              | Some value => with_context (parse_bool value) "provided string was not `true` or `false`"
              | None => Ok false
              end;
  Ok {| cf_runtime_config := runtime_config; cf_actor := actor; cf_new_actor := new_actor;
        cf_ready_file := get "DURABLE_ACTORS_HOST_READY_FILE"; cf_control_plane_url := control_plane_url;
        cf_host_token := host_token; cf_jwt_public_keys := jwt_public_keys; cf_host_id := host_id;
        cf_session_id := session_id; cf_executor_socket := executor_socket; cf_host_bind := host_bind;
        cf_host_route := host_route; cf_jwt_issuer := jwt_issuer; cf_invocation_jwt_audience := invocation_jwt_audience;
        cf_socket_jwt_audience :=
          default "durable-actors-authority:websocket" (get "DURABLE_ACTORS_SOCKET_JWT_AUDIENCE");
        cf_jwt_max_lifetime := jwt_max_lifetime; cf_lease_duration := lease_duration; cf_renew_every := renew_every;
        cf_host_idle_timeout := host_idle_timeout; cf_metadata := metadata |}.
End configuration.

(** * Keys *)
Record Jwk := { jwk_key_id : option string; jwk_eddsa : bool; jwk_material : string }.
(** [serde_json::from_str::<JwkSet>] and [DecodingKey::from_jwk] *)
Class Jwks := { parse_jwks : string -> Result (list Jwk); from_jwk : Jwk -> Result string }.

Section keys.
Context `{Jwks}.

Definition decode_public_key (key : Jwk) : Result (string * string) :=
  key_id ← with_context (jwk_key_id key) "actor JWT key ID must not be empty";
  ensure (jwk_eddsa key) ("actor JWT public key " +:+ key_id +:+ " must use EdDSA");;
  decoding_key ← match from_jwk key with Ok k => Ok k | Err _ => Err ("decode actor JWT public key " +:+ key_id) end;
  Ok (key_id, decoding_key).
Definition decode_public_keys (public_keys_json : string) : Result (gmap string string) :=
  keys ← match parse_jwks public_keys_json with
         | Ok keys => Ok keys
         | Err _ => Err "parse durable-actors JWT public keys as a JWK set"
         end;
  ensure (negb (is_nil keys)) "durable-actors JWT public keys must contain at least one key";;
  decoded ← collect decode_public_key keys;
  Ok (foldl (fun m kv => <[kv.1 := kv.2]> m) ∅ decoded).
Definition for_scope (public_keys_json issuer audience : string) (purpose : ActorTokenPurpose) (max_lifetime : Z)
  : Result ActorJwtVerifier :=
  public_keys ← decode_public_keys public_keys_json;
  ActorJwtVerifier_new public_keys issuer audience purpose max_lifetime.

Definition invocation_auth (config : ActorHostConfig) : Result ActorJwtVerifier :=
  for_scope (cf_jwt_public_keys config) (cf_jwt_issuer config) (cf_invocation_jwt_audience config) Invocation
    (cf_jwt_max_lifetime config / 1000).
End keys.

(** * The requests of the process *)
Record HostReadiness := {
  hr_host_id : HostId;
  hr_session_id : string;
  hr_route : string;
  hr_canonical_region : string;
  hr_owner_epoch : Z;
  hr_lease : HostLease }.

(** What ended a turn of [wait_for_host_stop]; the last two branches are there only
    while an actor is being evicted, and while the host may become idle. *)
Inductive stop_event (evicting idle : bool) :=
| ActorStoppedChanged (open : bool)
| ServerEnded (result : Result unit)
| ExecutorEnded (result : Result unit)
| JavascriptExited (status : Result string)
| ShutdownRequested
| LeaseChanged (open lost : bool)
| SocketsChanged (open : bool)
| ActivityChanged (open : bool)
| EvictionEnded (enabled : evicting = true) (result : Result unit)
| IdleReached (enabled : idle = true).
Arguments ActorStoppedChanged {_ _}.
Arguments ServerEnded {_ _}.
Arguments ExecutorEnded {_ _}.
Arguments JavascriptExited {_ _}.
Arguments ShutdownRequested {_ _}.
Arguments LeaseChanged {_ _}.
Arguments SocketsChanged {_ _}.
Arguments ActivityChanged {_ _}.
Arguments EvictionEnded {_ _}.
Arguments IdleReached {_ _}.

(** What ends the waiting of a spare process *)
Inductive spare_event :=
| Assigned (environment : gmap string string)
| AssignmentLost
| AssignmentsEnded
| GenericExited (status : Result string)
| SpareShutdown.

Definition is_some {A} (o : option A) : bool := match o with Some _ => true | None => false end.

Inductive process_request : Type -> Type :=
| ConnectControlPlane (url token : string) : process_request (Result unit)
| BindListener (address : string) : process_request (Result unit)
| LocalAddr : process_request (Result string)
| WriteTemporary (path document : string) : process_request (Result unit)
| RenameTemporary (path : string) : process_request (Result unit)
| StartInitialReplication (scope : ReplicaScope) (enabled : bool) : process_request unit
| OpenStorage (actor : option ActorKey) (new_actor : bool) : process_request (Result unit)
| StartRenewal (mt : HostLeaseMaintainer) : process_request (Result unit)
| BindExecutor (socket : string) : process_request (Result unit)
| SpawnJavascript (generic : bool) (socket : string) : process_request (Result unit)
| AcceptExecutor : process_request (Result unit)
| LoadExecutor (entrypoint : string) : process_request (Result unit)
| StartActorHost (scope : ReplicaScope) : process_request unit
| MarkReady : process_request (Result unit)
| ActivateActor (actor : ActorKey) : process_request (Result Z)
| CurrentLease : process_request (Result HostLease)
| ObserveInventory : process_request unit
| SendReadiness (ready : HostReadiness) : process_request unit
| BorrowActorStopped : process_request bool
| BorrowActivity : process_request ActorActivity
| BorrowSockets : process_request Z
| HasActivityChanged : process_request (Result bool)
| StartEviction (last_active : Z) : process_request unit
| SelectStop (evicting : bool) (idle_at : option Z) : process_request (stop_event evicting (is_some idle_at))
| CancelSockets : process_request unit
| DrainActors (timeout : Z) : process_request (Result unit)
| CancelTasks : process_request unit
| JoinTasks (timeout : Z) : process_request unit
| DropJavascript : process_request unit
| ShutdownRenewal : process_request (Result unit)
| UnregisterLease : process_request (Result unit)
| BindControl (address : string) : process_request (Result unit)
| ServeAssignments (token : string) : process_request unit
| AcceptWarm : process_request (Result unit)
| WarmStorage : process_request (Result unit)
| WriteFile (path content : string) : process_request (Result unit)
| RemoveFile (path : string) : process_request (Result unit)
| SelectSpare : process_request spare_event.
Abbreviation process := (calls process_request).

(** * Starting *)
Section process.
Context `{Jwks, Json Value, Json HostReadiness}.
Variable config : ActorHostConfig.
(** The entrypoint of the module to load, and a caller to tell when ready, in a
    process that was kept warm *)
Record WarmHost := { wm_entrypoint : string; wm_readiness : bool }.
Variable warm : option WarmHost.

Definition write_host_metadata (route : string) : process unit :=
  match cf_metadata config with
  | None => mret tt
  | Some metadata =>
      let document := to_vec (Object [("hostId", Str (cf_host_id config)); ("sessionId", Str (cf_session_id config));
                                      ("route", Str route); ("canonicalRegion", Str (mf_canonical_region metadata))]) in
      await_ok (WriteTemporary (mf_path metadata) document);;
      await_ok (RenameTemporary (mf_path metadata))
  end.
(** A warm process has bound its listener already. *)
Definition bind_host_listener : process HostEndpoint :=
  match warm with Some _ => mret tt | None => await_ok (BindListener (cf_host_bind config)) end;;
  bound ← await_ok LocalAddr;
  let route := default ("http://" +:+ bound) (cf_host_route config) in
  write_host_metadata route;;
  mret {| ep_id := cf_host_id config; ep_route := route |}.

Definition prepare_storage (endpoint : HostEndpoint) : process unit :=
  await_ok (OpenStorage (cf_actor config) (cf_new_actor config));;
  mt ← try (HostLeaseMaintainer_new endpoint (cf_session_id config) (cf_lease_duration config) (cf_renew_every config));
  await_ok (StartRenewal mt).

Definition connect_executor (socket : string) : process unit :=
  await_ok (BindExecutor socket);;
  await_ok (SpawnJavascript false socket);;
  await_ok AcceptExecutor.

Definition prepare_actor_host : process HostEndpoint :=
  try (invocation_auth config);;
  await_ok (ConnectControlPlane (cf_control_plane_url config) (cf_host_token config));;
  endpoint ← bind_host_listener;
  actor ← try (with_context (cf_actor config) "actor identity missing");
  let scope := {| scope_actor := actor; scope_host := cf_host_id config; scope_session := cf_session_id config;
                  scope_region := hs_region (cf_runtime_config config) |} in
  await (StartInitialReplication scope (negb (is_nil (hs_replica_regions (cf_runtime_config config)))));;
  storage ← outcome (prepare_storage endpoint);
  executor ← outcome (match warm with
                      | Some w => await_ok (LoadExecutor (wm_entrypoint w))
                      | None => connect_executor (cf_executor_socket config)
                      end);
  try storage;;
  match executor with
  | Ok _ => mret tt
  | Err error => await_ok ShutdownRenewal;; await_ok UnregisterLease;; try (Err error)
  end;;
  await (StartActorHost scope);;
  mret endpoint.

Definition initialize_executor : process Z :=
  try (parse_jwks (cf_jwt_public_keys config));;
  await_ok MarkReady;;
  match cf_actor config with
  | Some actor => await_ok (ActivateActor actor)
  | None => mret 0
  end.

Definition initialized (route : string) : process HostReadiness :=
  owner_epoch ← initialize_executor;
  lease ← await_ok CurrentLease;
  let ready := {| hr_host_id := cf_host_id config; hr_session_id := cf_session_id config; hr_route := route;
                  hr_canonical_region := hs_region (cf_runtime_config config); hr_owner_epoch := owner_epoch;
                  hr_lease := lease |} in
  match cf_ready_file config with
  | Some path => await_ok (WriteTemporary path (to_vec ready));; await_ok (RenameTemporary path)
  | None => mret tt
  end;;
  mret ready.

(** * Serving *)
(** What a turn decides: to go on, with the state of the eviction, or to end *)
Definition on_stop_event {evicting idle} (current : ActorActivity) (ev : stop_event evicting idle)
  : process (bool + Result unit) :=
  match ev with
  | ActorStoppedChanged open => mret (if open then inl evicting else inr (Err "actor lifecycle tracker stopped"))
  | ServerEnded result => mret (inr (match result with Ok _ => Ok tt | Err _ => Err "serve actor host network endpoints" end))
  | ExecutorEnded result => mret (inr (match result with Ok _ => Ok tt | Err _ => Err "run JavaScript actor executor" end))
  | JavascriptExited (Ok status) => mret (inr (Err ("JavaScript actor executor exited with " +:+ status)))
  | JavascriptExited (Err e) => mret (inr (Err e))
  | ShutdownRequested => mret (inr (Ok tt))
  | LeaseChanged open lost => mret (if negb open || lost then inr (Err "host lease expired; host self-fenced") else inl evicting)
  | SocketsChanged open => mret (if open then inl evicting else inr (Err "socket activity tracker stopped"))
  | ActivityChanged open => mret (if open then inl evicting else inr (Err "actor activity tracker stopped"))
  | EvictionEnded _ (Ok _) => mret (inl false)
  | EvictionEnded _ (Err _) => mret (inr (Err "evict idle actor"))
  | IdleReached _ =>
      changed ← outcome (await_ok HasActivityChanged);
      match changed with
      | Err e => mret (inr (Err e))
      | Ok true => mret (inl evicting)
      | Ok false =>
          sockets ← await BorrowSockets;
          if sockets =? 0 then mret (inr (Ok tt))
          else await (StartEviction (ac_last_active current));; mret (inl true)
      end
  end.

(** [None]: it still runs after so many turns *)
Fixpoint wait_for_host_stop (turns : nat) (evicting : bool) : process (option (Result unit)) :=
  match turns with
  | O => mret None
  | S turns =>
      stopped ← await BorrowActorStopped;
      if (stopped : bool) then mret (Some (Err "actor activation stopped; host self-fenced"))
      else
        current ← await BorrowActivity;
        sockets ← await BorrowSockets;
        let idle_at := if (ac_active current =? 0) && negb evicting && (ac_resident current || (sockets =? 0))
                       then Some (ac_last_active current + cf_host_idle_timeout config * NS) else None in
        ev ← await (SelectStop evicting idle_at);
        next ← on_stop_event current ev;
        match next with
        | inl evicting => wait_for_host_stop turns evicting
        | inr result => mret (Some result)
        end
  end.

Definition stop_host_tasks : process unit :=
  await (DrainActors HOST_ACTOR_DRAIN_TIMEOUT);;
  await CancelTasks;;
  await (JoinTasks HOST_TASK_SHUTDOWN_TIMEOUT).

(** The end of [serve_assigned_host] *)
Definition stop_host (stop_result : Result unit) : process bool :=
  await CancelSockets;;
  stop_host_tasks;;
  await DropJavascript;;
  renewal_result ← await ShutdownRenewal;
  unregister_result ← await UnregisterLease;
  try stop_result;; try renewal_result;; try unregister_result;; mret true.

(** [false]: it still serves *)
Definition serve_assigned_host (turns : nat) : process bool :=
  endpoint ← prepare_actor_host;
  ready ← outcome (initialized (ep_route endpoint));
  match ready with
  | Err error => await ShutdownRenewal;; await UnregisterLease;; try (Err error)
  | Ok ready =>
      await ObserveInventory;;
      match warm with
      | Some w => if wm_readiness w then await (SendReadiness ready) else mret tt
      | None => mret tt
      end;;
      stop_result ← wait_for_host_stop turns false;
      match stop_result with
      | None => mret false
      | Some stop_result => stop_host stop_result
      end
  end.
End process.

(** * Spare processes *)
Record HostAssignment := { as_authorization : string; as_pending : bool }.
Definition router_state (token : string) : HostAssignment := {| as_authorization := "Bearer " +:+ token; as_pending := true |}.
(** The status that [assign] answers with, or that it waits for the process to be
    ready; the environment goes to the process, which listens while [listening]. *)
Inductive assign_reply := AssignStatus (code : Z) | AssignWaits.
Definition assign_host (listening : bool) (authorization : option string) (environment : gmap string string)
    (s : HostAssignment) : assign_reply * option (gmap string string) * HostAssignment :=
  match authorization with
  | None => (AssignStatus 401, None, s)
  | Some supplied =>
      if negb (String.eqb (as_authorization s) supplied) then (AssignStatus 401, None, s)
      else if negb (as_pending s) then (AssignStatus 409, None, s)
      else
        let s := {| as_authorization := as_authorization s; as_pending := false |} in
        if listening then (AssignWaits, Some environment, s) else (AssignStatus 503, None, s)
  end.

Definition customer_entrypoint (entrypoint : string) : bool :=
  starts_with "/customer/" entrypoint && is_some (strip_suffix ".mjs" entrypoint)
  && negb (existsb (String.eqb "..") (split_on "/" entrypoint)).

Section spare.
Context `{Jwks, Json Value, Json HostReadiness, HostParsers, Json HostStorageConfig, Json ActorKey}.
(** The environment of the process *)
Variable var : environment.

Definition serve_spare (turns : nat) : process bool :=
  let socket := default "/tmp/durable-actors-executor.sock" (var "DURABLE_ACTORS_EXECUTOR_SOCKET") in
  token ← try (with_context (var "DURABLE_ACTORS_SPARE_TOKEN") "spare token missing");
  check_that (32 <=? len token) "spare token is too short";;
  await_ok (BindControl (default "0.0.0.0:7102" (var "DURABLE_ACTORS_SPARE_BIND")));;
  await (ServeAssignments token);;
  let ready := default "/tmp/durable-actors-spare-ready" (var "DURABLE_ACTORS_SPARE_READY_FILE") in
  await_ok (BindListener (default "0.0.0.0:7101" (var "DURABLE_ACTORS_HOST_BIND")));;
  await_ok (BindExecutor socket);;
  await_ok (SpawnJavascript true socket);;
  await_ok AcceptWarm;;
  await_ok WarmStorage;;
  await_ok (WriteFile ready ("ready" +:+ newline));;
  ev ← await SelectSpare;
  match ev with
  | AssignmentLost => try (Err "channel closed")
  | AssignmentsEnded => try (Err "spare assignment server stopped")
  | GenericExited (Ok status) => try (Err ("generic Bun executor exited: " +:+ status))
  | GenericExited (Err e) => try (Err e)
  | SpareShutdown => mret true
  | Assigned environment =>
      await_ok (RemoveFile ready);;
      config ← try (from_lookup (fun name => environment !! name));
      check_that (is_some (cf_actor config)) "spare assignment must name exactly one actor";;
      entrypoint ← try (with_context (environment !! "DURABLE_ACTORS_ENTRYPOINT") "missing customer entrypoint");
      check_that (customer_entrypoint entrypoint) "customer entrypoint must be a compiled module under /customer";;
      serve_assigned_host config (Some {| wm_entrypoint := entrypoint; wm_readiness := true |}) turns
  end.
End spare.

(** * The first replicas *)
Inductive initial_request : Type -> Type :=
| PrepareInitial (scope : ReplicaScope) : initial_request (Result ReplicaMembership)
| PublishMembership (m : ReplicaMembership) : initial_request unit
| SleepSeconds (n : Z) : initial_request unit
| InitialTargets (scope : ReplicaScope) : initial_request (Result (list ReplicaTarget))
| Preconnect (url : string) : initial_request (Result unit)
| BorrowMembership : initial_request (option ReplicaMembership)
| MembershipChanged : initial_request (Result unit).

(** The task, for a number of attempts *)
Fixpoint prepare_initial (turns : nat) (scope : ReplicaScope) : calls initial_request unit :=
  match turns with
  | O => mret tt
  | S turns =>
      prepared ← outcome (await_ok (PrepareInitial scope));
      match prepared with
      | Ok membership => await (PublishMembership membership)
      | Err _ => await (SleepSeconds 5);; prepare_initial turns scope
      end
  end.
Definition preconnect (scope : ReplicaScope) : calls initial_request unit :=
  replicas ← outcome (await_ok (InitialTargets scope));
  match replicas with
  | Ok replicas => each (fun r => await (Preconnect (url r))) replicas;; mret tt
  | Err _ => mret tt
  end.
(** [InitialReplication::ready]; [None]: nothing was published after so many changes *)
Fixpoint initial_ready (turns : nat) : calls initial_request (option ReplicaMembership) :=
  match turns with
  | O => mret None
  | S turns =>
      current ← await BorrowMembership;
      match current with
      | Some membership => mret (Some membership)
      | None => await_ok MembershipChanged;; initial_ready turns
      end
  end.
