(* ===== verification/HostLifecycle.v ===== *)
(** The life of a host process ([host/process.rs], [host/assignment.rs]): an accepted
    configuration is one that its parts accept, the process stops only for a reason
    it can name, its steps keep their order, and the lease is given back. *)

From S2P Require Import Prelude.
From S2P Require Import Calls.
From S2P Require Import Actors.
From S2P Require Import StoragePaths.
From S2P Require Import Snapshots.
From S2P Require Import RuntimeStorage.
From S2P Require Import HostDispatcher.
From S2P Require Import Tokens.
From S2P Require Import LeaseMaintenance.
From S2P Require Import HostProcess.
Local Open Scope string_scope.
Local Open Scope Z_scope.

(** * Configuration *)
Lemma required_ok get name v : required get name = Ok v -> get name = Some v /\ is_empty v = false.
Proof. unfold required. intros Hr. res_inv. bools. done. Qed.
Lemma duration_of_ok unit_name get name d v : duration_of unit_name get name d = Ok v -> 0 < v.
Proof. unfold duration_of. intros Hr. res_inv. bools. done. Qed.

(** Decides the comparisons that the context settles. *)
Ltac settle :=
  repeat match goal with
  | |- context [?a <=? ?b] => replace (a <=? b) with true by lia
  | |- context [?a <? ?b] => replace (a <? b) with true by lia
  | |- context [negb (?a =? ?b)] => replace (negb (a =? b)) with true by lia
  end.

Section configuration.
Context `{HostParsers, Json HostStorageConfig, Json ActorKey}.

(** A configuration that the process accepts is accepted by all of its parts: the
    lease maintainer can be built from it, every registration it makes has an
    admissible duration, the lease can be renewed before it ends, the idle timeout
    is between a millisecond and a day, and the actor, the host and the session are
    named properly. *)
Theorem accepted_configuration_works get c endpoint : from_lookup get = Ok c ->
  (exists mt, HostLeaseMaintainer_new endpoint (cf_session_id c) (cf_lease_duration c) (cf_renew_every c) = Ok mt /\
     forall route, validate_duration {| req_id := cf_host_id c; req_session_id := cf_session_id c; req_route := route;
                                        Actors.duration_ms := mt_lease_duration_ms mt |} = Ok tt) /\
  0 < cf_renew_every c < cf_lease_duration c /\ cf_lease_duration c <= MAX_HOST_LEASE_DURATION_MS /\
  0 < cf_host_idle_timeout c <= MAX_IDLE_TIMEOUT_MS /\ 0 < cf_jwt_max_lifetime c /\
  starts_with "host.v3." (cf_host_id c) = true /\ uuid_accepts (cf_session_id c) = true /\
  (forall a, cf_actor c = Some a -> ActorKey_validate a = Ok tt) /\
  (forall m, cf_metadata c = Some m -> validate_region (mf_canonical_region m) = Ok tt).
Proof.
  unfold from_lookup. intros Hc. res_inv. unfold host_idle_timeout_ms, duration_seconds, duration_ms in *. res_inv. bools.
  repeat match goal with Hd : duration_of _ _ _ _ = Ok _ |- _ => apply duration_of_ok in Hd end.
  match goal with Hr : required get "DURABLE_ACTORS_SESSION_ID" = Ok _ |- _ => apply required_ok in Hr as [_ Hses] end.
  split; [|repeat (split; [done || lia|])].
  - eexists. unfold HostLeaseMaintainer_new, validate_duration. rewrite Hses.
    unfold U64_MAX, MAX_HOST_LEASE_DURATION_MS in *. split.
    + settle. reflexivity.
    + intros route. cbn. settle. done.
  - split.
    + intros actor ->. by res_inv.
    + unfold HostMetadataFile_from_lookup in *. intros m ->. destruct (get "DURABLE_ACTORS_HOST_METADATA_FILE"); res_inv; done.
Qed.
End configuration.

(** * Why a host stops *)
Section stopping.
Variable config : ActorHostConfig.

(** The reads at the start of a turn *)
Definition turn_reads (current : ActorActivity) (sockets : Z) : list (event process_request) :=
  [Ev BorrowActorStopped false; Ev BorrowActivity current; Ev BorrowSockets sockets].

(** The branches that end the loop at once *)
Inductive ends {evicting idle} : stop_event evicting idle -> Result unit -> Prop :=
| ends_tracker : ends (ActorStoppedChanged false) (Err "actor lifecycle tracker stopped")
| ends_served u : ends (ServerEnded (Ok u)) (Ok tt)
| ends_serving e : ends (ServerEnded (Err e)) (Err "serve actor host network endpoints")
| ends_executed u : ends (ExecutorEnded (Ok u)) (Ok tt)
| ends_executing e : ends (ExecutorEnded (Err e)) (Err "run JavaScript actor executor")
| ends_exited status : ends (JavascriptExited (Ok status)) (Err ("JavaScript actor executor exited with " +:+ status))
| ends_unwaited e : ends (JavascriptExited (Err e)) (Err e)
| ends_shutdown : ends ShutdownRequested (Ok tt)
| ends_fenced open lost : open = false \/ lost = true ->
    ends (LeaseChanged open lost) (Err "host lease expired; host self-fenced")
| ends_sockets : ends (SocketsChanged false) (Err "socket activity tracker stopped")
| ends_activity : ends (ActivityChanged false) (Err "actor activity tracker stopped")
| ends_evicting H e : ends (EvictionEnded H (Err e)) (Err "evict idle actor").

(** The last turn, and the result it has *)
Inductive last_turn : list (event process_request) -> Result unit -> Prop :=
| last_stopped : last_turn [Ev BorrowActorStopped true] (Err "actor activation stopped; host self-fenced")
| last_ended current sockets evicting idle_at ev r : ends ev r ->
    last_turn (turn_reads current sockets ++ [Ev (SelectStop evicting idle_at) ev]) r
| last_unknown current sockets evicting idle_at H e :
    last_turn (turn_reads current sockets ++ [Ev (SelectStop evicting idle_at) (IdleReached H); Ev HasActivityChanged (Err e)])
      (Err e)
| last_idle current sockets H : ac_active current = 0 -> (ac_resident current = true \/ sockets = 0) ->
    last_turn (turn_reads current sockets ++
               [Ev (SelectStop false (Some (ac_last_active current + cf_host_idle_timeout config * NS))) (IdleReached H);
                Ev HasActivityChanged (Ok false); Ev BorrowSockets 0]) (Ok tt).

(** A turn that may not be the last: neither the actor nor the lease ended, and an
    eviction begins only for an idle actor with sockets. *)
Inductive earlier_turn : bool -> list (event process_request) -> bool -> Prop :=
| turn_noticed current sockets evicting idle_at ev :
    (forall r, ~ ends ev r) -> (forall H r, ev <> EvictionEnded H r) -> (forall H, ev <> IdleReached H) ->
    earlier_turn evicting (turn_reads current sockets ++ [Ev (SelectStop evicting idle_at) ev]) evicting
| turn_evicted current sockets idle_at H u :
    earlier_turn true (turn_reads current sockets ++ [Ev (SelectStop true idle_at) (EvictionEnded H (Ok u))]) false
| turn_changed current sockets idle_at H :
    earlier_turn false (turn_reads current sockets ++
      [Ev (SelectStop false idle_at) (IdleReached H); Ev HasActivityChanged (Ok true)]) false
| turn_evicts current sockets sockets' H : ac_active current = 0 -> sockets' <> 0 ->
    earlier_turn false (turn_reads current sockets ++
      [Ev (SelectStop false (Some (ac_last_active current + cf_host_idle_timeout config * NS))) (IdleReached H);
       Ev HasActivityChanged (Ok false); Ev BorrowSockets sockets'; Ev (StartEviction (ac_last_active current)) tt]) true.
Inductive turns_until : bool -> list (event process_request) -> bool -> Prop :=
| turns_none evicting : turns_until evicting [] evicting
| turns_more a b c t1 t2 : earlier_turn a t1 b -> turns_until b t2 c -> turns_until a (t1 ++ t2) c.

Lemma turn_cases current sockets evicting t next :
  let idle_at := if (ac_active current =? 0) && negb evicting && (ac_resident current || (sockets =? 0))
                 then Some (ac_last_active current + cf_host_idle_timeout config * NS) else None in
  runs (ev ← await (SelectStop evicting idle_at); on_stop_event current ev) t (Ok next) ->
  match next with
  | inl evicting' => earlier_turn evicting (turn_reads current sockets ++ t) evicting'
  | inr r => last_turn (turn_reads current sockets ++ t) r
  end.
Proof.
  intros idle_at Hr. run_step. run_step. cbn [app].
  assert (Hidle : is_some idle_at = true -> evicting = false /\ ac_active current = 0 /\
    idle_at = Some (ac_last_active current + cf_host_idle_timeout config * NS) /\ (ac_resident current = true \/ sockets = 0)).
  { unfold idle_at. destruct ((ac_active current =? 0) && _ && _) eqn:E; [|done]. bools. intros _.
    split; [done|]. split; [done|]. split; [done|].
    destruct (ac_resident current); [by left|right]. cbn in *. by bools. }
  match goal with ev : stop_event _ _ |- _ => destruct ev as [[]|[]|[]|[]| |[] []|[]|[]|Hev []|Hid] end; cbn in Hr.
  all: try (apply runs_inv in Hr as [-> [= <-]]; try (constructor; [by inversion 1|done|done]); by apply last_ended; constructor; auto).
  - apply runs_inv in Hr as [-> [= <-]]. constructor; [inversion 1; naive_solver|done|done].
  - apply runs_inv in Hr as [-> [= <-]]. clearbody idle_at. destruct evicting; [constructor|done].
  - destruct (Hidle Hid) as (Ee & Ha & Ei & Hs). clearbody idle_at. subst evicting idle_at.
    apply runs_inv in Hr as (changed & t' & -> & Hr). destruct changed as [[]|e].
    + apply runs_inv in Hr as [-> [= <-]]. constructor.
    + apply runs_inv in Hr as (n & t'' & -> & Hr). destruct (n =? 0) eqn:En; bools.
      * apply runs_inv in Hr as [-> [= <-]]. subst. by constructor.
      * apply runs_inv in Hr as ([] & t3 & -> & Hr). apply runs_inv in Hr as [-> [= <-]]. by constructor.
    + apply runs_inv in Hr as [-> [= <-]]. constructor.
Qed.

(** A host stops serving only for a reason that it names: every turn before the
    last left the lease and the actor alone, started an eviction only when the actor
    was idle and none was running, and the loop ended successfully only because it
    was asked to, a server ended by itself, or the last activity it read showed no
    request, was older than the idle timeout and had not changed since, with no
    socket open.  Losing the lease or the actor ends it with an error at once. *)
Theorem host_stops_for_a_reason turns evicting t r :
  runs (wait_for_host_stop config turns evicting) t (Ok (Some r)) ->
  exists t1 t2 now_evicting, t = (t1 ++ t2)%list /\ turns_until evicting t1 now_evicting /\ last_turn t2 r.
Proof.
  revert evicting t. induction turns as [|turns IH]; intros evicting t Hr; cbn [wait_for_host_stop] in Hr; [by run_inv|].
  apply runs_bind_ok in Hr as (stopped & ? & t0 & -> & Ha & Hr). apply runs_await in Ha as (? & -> & [= <-]).
  destruct stopped.
  { apply runs_inv in Hr as [-> [= <-]]. exists [], [Ev BorrowActorStopped true], evicting. split; [done|]. split; constructor. }
  apply runs_bind_ok in Hr as (current & ? & t1 & -> & Ha & Hr). apply runs_await in Ha as (? & -> & [= <-]).
  apply runs_bind_ok in Hr as (sockets & ? & t2 & -> & Ha & Hr). apply runs_await in Ha as (? & -> & [= <-]).
  apply runs_bind_ok in Hr as (ev & ? & t3 & -> & Ha & Hr). apply runs_await in Ha as (? & -> & [= <-]).
  apply runs_bind_ok in Hr as (next & t4 & t5 & -> & Ha & Hr).
  pose proof (turn_cases current sockets evicting (Ev (SelectStop evicting _) ev :: t4) next (runs_vis _ _ ev _ _ Ha)) as Hturn.
  destruct next as [evicting'|r'].
  - destruct (IH _ _ Hr) as (u1 & u2 & now_evicting & -> & Hu & Hl).
    exists ((turn_reads current sockets ++ Ev (SelectStop evicting _) ev :: t4) ++ u1)%list, u2, now_evicting.
    split; [cbn; by rewrite <- app_assoc|]. split; [by eapply turns_more|done].
  - apply runs_inv in Hr as [-> [= <-]]. exists [], (turn_reads current sockets ++ Ev (SelectStop evicting _) ev :: t4)%list, evicting.
    split; [cbn; by rewrite app_nil_r|]. split; [constructor|done].
Qed.
End stopping.

(** * The order of a life *)
Section lifecycle.
Context `{Jwks, Json Value, Json HostReadiness}.
Variable config : ActorHostConfig.
Variable warm : option WarmHost.
Implicit Types (t : list (event process_request)).

(** Whether a run has an event of some kind *)
Definition has (f : forall X, process_request X -> X -> bool) t : Prop :=
  existsb (fun ev => match ev with @Ev _ X e x => f X e x end) t = true.
Definition renewal_started X (e : process_request X) : X -> bool :=
  match e with StartRenewal _ => fun r => match r with Ok _ => true | Err _ => false end | _ => fun _ => false end.
Definition turn_taken X (e : process_request X) : X -> bool :=
  match e with SelectStop _ _ => fun _ => true | _ => fun _ => false end.
Abbreviation renewing := (has renewal_started).
Abbreviation served := (has turn_taken).
Definition executor_failure X (e : process_request X) : X -> bool :=
  match e with
  | LoadExecutor _ | BindExecutor _ | SpawnJavascript _ _ | AcceptExecutor => fun r => negb (is_ok r)
  | _ => fun _ => false
  end.
Definition host_started X (e : process_request X) : X -> bool :=
  match e with StartActorHost _ => fun _ => true | _ => fun _ => false end.
Abbreviation started := (has host_started).

Definition drained t : Prop :=
  (exists r, Ev (DrainActors HOST_ACTOR_DRAIN_TIMEOUT) r ∈ t) /\ Ev CancelSockets tt ∈ t /\ Ev CancelTasks tt ∈ t /\
  Ev (JoinTasks HOST_TASK_SHUTDOWN_TIMEOUT) tt ∈ t.
(** The actor is activated, and [ready] says how. *)
Definition activated t (ready : HostReadiness) : Prop :=
  renewing t /\ Ev MarkReady (Ok tt) ∈ t /\ Ev CurrentLease (Ok (hr_lease ready)) ∈ t /\
  exists actor, cf_actor config = Some actor /\ Ev (ActivateActor actor) (Ok (hr_owner_epoch ready)) ∈ t.

Definition in_order X (e : process_request X) t : Prop :=
  match e with
  | ActivateActor _ => renewing t /\ Ev MarkReady (Ok tt) ∈ t
  | SendReadiness ready => activated t ready
  | SelectStop _ _ => exists ready, activated t ready
  | ShutdownRenewal => renewing t /\ (served t -> drained t)
  | UnregisterLease => (exists r, Ev ShutdownRenewal r ∈ t) /\ (served t -> drained t)
  | _ => True
  end.

Lemma has_app f t1 t2 : has f (t1 ++ t2) <-> has f t1 \/ has f t2.
Proof. unfold has. by rewrite existsb_app, orb_true_iff. Qed.
Lemma has_cons f ev t : has f (ev :: t) <-> has f [ev] \/ has f t.
Proof. exact (has_app f [ev] t). Qed.
Lemma has_none f {A} (p : process A) t r : all_calls (fun X e => forall x, f X e x = false) p -> runs p t r -> ~ has f t.
Proof.
  intros Hp Hr Hf. apply (all_calls_runs _ _ _ _ Hp) in Hr. apply existsb_exists in Hf as ([X e x] & Hin & Hf).
  rewrite Forall_forall in Hr. specialize (Hr (Ev e x)). cbn in Hr. rewrite Hr in Hf; [done|by apply list_elem_of_In].
Qed.

Lemma prepare_storage_renews endpoint t r : runs (prepare_storage config endpoint) t r -> renewing t <-> r = Ok tt.
Proof.
  unfold prepare_storage. intros Hr. apply runs_bind in Hr as [(u & t1 & t2 & -> & Ha & Hr)|(e & Hr & ->)].
  - apply runs_await_ok in Ha as ->. apply runs_bind in Hr as [(mt & t3 & t4 & -> & Hb & Hr)|(e & Hr & ->)].
    + apply runs_try in Hb as [-> _]. apply runs_await_ok in Hr as ->. by destruct r as [[]|e].
    + by apply runs_try in Hr as [-> _].
  - by apply runs_await_ok in Hr as ->.
Qed.

(** Requests that need nothing before them and start nothing *)
Definition plain X (e : process_request X) : Prop :=
  match e with
  | ActivateActor _ | SendReadiness _ | SelectStop _ _ | ShutdownRenewal | UnregisterLease | StartRenewal _
  | StartActorHost _ => False
  | _ => True
  end.
Lemma plain_guarded {A} (p : process A) t : all_calls plain p -> guarded in_order p t.
Proof. apply all_calls_guarded. intros X e t'. by destruct e. Qed.
Lemma plain_none f {A} (p : process A) t r : (forall X (e : process_request X), plain X e -> forall x, f X e x = false) ->
  all_calls plain p -> runs p t r -> ~ has f t.
Proof.
  intros Hf Hp. apply has_none. induction p as [r'|X e k IH]; cbn in *; [done|]. destruct Hp. split; [by apply Hf|auto].
Qed.
Lemma plain_quiet {A} (p : process A) t r : all_calls plain p -> runs p t r -> ~ renewing t /\ ~ served t.
Proof. intros Hp Hr. split; (eapply plain_none; [|done..]); by intros X []. Qed.
Lemma plain_unstarted {A} (p : process A) t r : all_calls plain p -> runs p t r -> ~ started t.
Proof. apply plain_none. by intros X []. Qed.

Lemma bind_listener_plain : all_calls plain (bind_host_listener config warm).
Proof. unfold bind_host_listener, write_host_metadata. each_call. Qed.
Lemma executor_plain : all_calls plain (match warm with
  | Some w => await_ok (LoadExecutor (wm_entrypoint w)) | None => connect_executor (cf_executor_socket config) end).
Proof. unfold connect_executor. each_call. Qed.

Lemma executor_fails t e : runs (match warm with
  | Some w => await_ok (LoadExecutor (wm_entrypoint w)) | None => connect_executor (cf_executor_socket config) end) t (Err e) ->
  has executor_failure t.
Proof.
  destruct warm as [w|]; [by intros ->%runs_await_ok|]. unfold connect_executor. intros Hr.
  apply runs_bind in Hr as [([] & t1 & t2 & -> & _ & Hr)|(e' & Hr & [= <-])]; [|by apply runs_await_ok in Hr as ->].
  apply has_app. right. apply runs_bind in Hr as [([] & t3 & t4 & -> & _ & Hr)|(e' & Hr & [= <-])]; [|by apply runs_await_ok in Hr as ->].
  apply has_app. right. by apply runs_await_ok in Hr as ->.
Qed.

(** The lease was given back; or the last that happened is that its renewal could not be
    stopped, after the executor had failed and before any host was started. *)
Definition given_back t : Prop :=
  (exists r, Ev UnregisterLease r ∈ t) \/
  (exists t' e, t = (t' ++ [Ev ShutdownRenewal (Err e)])%list /\ has executor_failure t' /\ ~ started t').

Lemma storage_guarded endpoint t : guarded in_order (prepare_storage config endpoint) t.
Proof. unfold prepare_storage. split; [done|]. intros [|]; cbn; [|done]. destruct (HostLeaseMaintainer_new _ _ _ _); cbn; done. Qed.
Lemma storage_unserved endpoint t r : runs (prepare_storage config endpoint) t r -> ~ served t /\ ~ started t.
Proof.
  intros Hr. split; revert Hr; apply has_none; unfold prepare_storage; (apply all_calls_bind; [done|]); intros [];
    (apply all_calls_bind; [done|]); by intros mt.
Qed.

Lemma prepared_in_order : guarded in_order (prepare_actor_host config warm) [].
Proof.
  unfold prepare_actor_host. apply guarded_bind; [done|]. intros t1 vf R1. apply plain_quiet in R1 as [_ R1]; [|done].
  apply guarded_bind; [done|]. intros t2 [] R2. apply plain_quiet in R2 as [_ R2]; [|done].
  apply guarded_bind; [by apply plain_guarded, bind_listener_plain|]. intros t3 endpoint R3.
  apply plain_quiet in R3 as [_ R3]; [|apply bind_listener_plain].
  apply guarded_bind; [done|]. intros t4 actor R4. apply plain_quiet in R4 as [_ R4]; [|done].
  apply guarded_bind; [done|]. intros t5 [] R5. apply plain_quiet in R5 as [_ R5]; [|done].
  apply guarded_bind; [by apply guarded_outcome, storage_guarded|]. intros t6 storage R6.
  apply runs_outcome in R6 as (? & [= <-] & R6).
  apply guarded_bind; [by apply guarded_outcome, plain_guarded, executor_plain|]. intros t7 executor R7.
  apply runs_outcome in R7 as (? & [= <-] & R7). apply plain_quiet in R7 as [_ R7]; [|apply executor_plain].
  apply guarded_bind; [done|]. intros t8 [] Ht. apply runs_try in Ht as [-> <-].
  pose proof (proj1 (storage_unserved _ _ _ R6)) as U6. apply prepare_storage_renews in R6.
  apply guarded_bind; [|done]. destruct executor as [|error]; [done|]. split; [split|].
  - apply has_app. left. apply has_app. left. apply has_app. right. by apply R6.
  - assert (N : ~ served []) by done. rewrite !has_app. tauto.
  - intros []; [|done]. split; [split; [set_solver|]|by intros []].
    assert (N : ~ served []) by done. assert (N' : forall x, ~ served [Ev ShutdownRenewal x]) by done.
    rewrite !has_app. specialize (N' (Ok a)). tauto.
Qed.

Lemma plain_bind {A B} (p : process A) (f : A -> process B) t r : all_calls plain p -> runs (p ≫= f) t r ->
  (exists a t1 t2, t = (t1 ++ t2)%list /\ ~ renewing t1 /\ ~ served t1 /\ ~ started t1 /\ runs (f a) t2 r) \/
  (~ renewing t /\ exists e, r = Err e).
Proof.
  intros Hp [(a & t1 & t2 & -> & R1 & Hr)|(e & Hr & ->)]%runs_bind; [left|right].
  - destruct (plain_quiet _ _ _ Hp R1). pose proof (plain_unstarted _ _ _ Hp R1). by exists a, t1, t2.
  - split; [by eapply plain_quiet|by exists e].
Qed.

(** What a run shows if the rest of it, after [t0], does *)
Definition ends_well {A} t (r : Result A) : Prop :=
  match r with Ok _ => renewing t /\ ~ served t | Err _ => renewing t -> given_back t end.
Lemma ends_well_after {A} t0 t (r : Result A) : ~ renewing t0 -> ~ served t0 -> ~ started t0 -> ends_well t r ->
  ends_well (t0 ++ t) r.
Proof.
  unfold ends_well, given_back. destruct r; rewrite !has_app; [tauto|]. intros ? ? ? Hg Hor.
  destruct Hg as [[r' Hr]|(t' & e' & -> & Hf & Hs)]; [tauto|left; exists r'; set_solver|right; exists (t0 ++ t')%list, e'].
  rewrite <- app_assoc, !has_app. tauto.
Qed.
Lemma plain_ends_well {A B} (p : process A) (f : A -> process B) t r : all_calls plain p ->
  (forall a t2, runs (f a) t2 r -> ends_well t2 r) -> runs (p ≫= f) t r -> ends_well t r.
Proof.
  intros Hp Hf Hr. apply (plain_bind _ _ _ _ Hp) in Hr as [(a & t1 & t2 & -> & N1 & N2 & N3 & Hr)|(N & e & ->)]; [|by intros ?].
  apply ends_well_after; eauto.
Qed.

Lemma prepared_ends t r : runs (prepare_actor_host config warm) t r -> ends_well t r.
Proof.
  unfold prepare_actor_host. apply plain_ends_well; [done|]. intros _ t1. apply plain_ends_well; [done|]. intros _ t2.
  apply plain_ends_well; [apply bind_listener_plain|]. intros endpoint t3. apply plain_ends_well; [done|]. intros actor t4.
  apply plain_ends_well; [done|]. intros _ t5 Hr.
  apply runs_bind in Hr as [(storage & u1 & u2 & -> & R1 & Hr)|(e & R1 & ->)];
    [|apply runs_outcome in R1 as (? & ? & ?); done].
  apply runs_outcome in R1 as (? & [= <-] & R1). pose proof (storage_unserved _ _ _ R1) as [U1 S1]. apply prepare_storage_renews in R1.
  apply runs_bind in Hr as [(executor & u3 & u4 & -> & R2 & Hr)|(e & R2 & ->)];
    [|apply runs_outcome in R2 as (? & ? & ?); done].
  apply runs_outcome in R2 as (? & [= <-] & R2). pose proof (plain_unstarted _ _ _ executor_plain R2) as S2.
  assert (F2 : forall e, executor = Err e -> has executor_failure u3) by (intros e ->; by eapply executor_fails).
  apply plain_quiet in R2 as [N2 U2]; [|apply executor_plain].
  destruct storage as [[]|e]; cbn in Hr.
  2:{ apply runs_inv in Hr as [-> <-]. cbn. rewrite !has_app. unfold has at 3. cbn. intros Hre. exfalso.
      destruct Hre as [Hre|[Hre|Hre]]; [by apply R1 in Hre|done|done]. }
  destruct executor as [[]|error]; cbn in Hr.
  - apply runs_inv in Hr as ([] & u5 & -> & Hr). apply runs_inv in Hr as [-> <-]. cbn. rewrite !has_app.
    assert (renewing u1) by by apply R1. assert (N3 : forall s, ~ served [Ev (StartActorHost s) tt]) by done.
    split; [tauto|]. intros [?|[?|Hs]]; [done|done|by apply N3 in Hs].
  - apply runs_inv in Hr as (x & u5 & -> & Hr). destruct x as [[]|e]; cbn in Hr.
    + apply runs_inv in Hr as (y & u6 & -> & Hr). destruct y; cbn in Hr; apply runs_inv in Hr as [-> <-]; cbn; intros _; left;
        eexists; rewrite !elem_of_app, !elem_of_cons; eauto.
    + apply runs_inv in Hr as [-> <-]. cbn. intros _. right. exists (u1 ++ u3)%list, e. rewrite <- app_assoc, !has_app.
      split; [done|]. split; [right; by eapply F2|tauto].
Qed.

Lemma prepared_actor t endpoint : runs (prepare_actor_host config warm) t (Ok endpoint) -> exists actor, cf_actor config = Some actor.
Proof.
  unfold prepare_actor_host. intros Hr. apply runs_bind_ok in Hr as (? & ? & ? & _ & _ & Hr).
  apply runs_bind_ok in Hr as (? & ? & ? & _ & _ & Hr). apply runs_bind_ok in Hr as (? & ? & ? & _ & _ & Hr).
  apply runs_bind_ok in Hr as (actor & ? & ? & _ & Ha & _). apply runs_try in Ha as [_ Ha].
  destruct (cf_actor config) as [a|]; [by exists a|done].
Qed.

Lemma activated_mono t t' ready : activated t ready -> activated (t ++ t') ready.
Proof.
  intros (Hr & Hm & Hl & actor & Ha & Hact). split; [apply has_app; by left|]. split; [set_solver|]. split; [set_solver|].
  exists actor. split; [done|set_solver].
Qed.

Lemma initialized_in_order route t : renewing t -> guarded in_order (initialized config route) t.
Proof.
  intros Hre. unfold initialized, initialize_executor. apply guarded_bind.
  - apply guarded_bind; [done|]. intros t1 keys _. apply guarded_bind; [done|]. intros t2 [] R2. apply runs_await_ok in R2 as ->.
    destruct (cf_actor config); [|done]. split; [split; [rewrite !has_app; tauto|set_solver]|done].
  - intros t1 epoch _. apply plain_guarded. each_call.
Qed.
Lemma initialized_activates route t t' ready : renewing t -> is_some (cf_actor config) = true ->
  runs (initialized config route) t' (Ok ready) -> activated (t ++ t') ready.
Proof.
  intros Hre Hsome Hr. unfold initialized, initialize_executor in Hr.
  apply runs_bind_ok in Hr as (epoch & t1 & t2 & -> & Ha & Hr). apply runs_bind_ok in Ha as (keys & u1 & u2 & -> & _ & Ha).
  apply runs_bind_ok in Ha as ([] & u3 & u4 & -> & Hm & Ha). apply runs_await_ok in Hm as ->.
  destruct (cf_actor config) as [actor|] eqn:Ea; [|done]. apply runs_await_ok in Ha as ->.
  apply runs_bind_ok in Hr as (lease & u5 & u6 & -> & Hl & Hr). apply runs_await_ok in Hl as ->.
  apply runs_bind_ok in Hr as ([] & u7 & u8 & -> & _ & Hr). apply runs_inv in Hr as [-> [= <-]].
  split; [apply has_app; by left|]. cbn. split; [set_solver|]. split; [set_solver|]. exists actor. split; [done|set_solver].
Qed.

Lemma waiting_in_order turns : forall evicting t, (exists ready, activated t ready) ->
  guarded in_order (wait_for_host_stop config turns evicting) t.
Proof.
  induction turns as [|turns IH]; intros evicting t [ready Hact]; cbn [wait_for_host_stop]; [done|].
  apply guarded_bind; [done|]. intros t1 stopped _. destruct stopped; [done|].
  apply guarded_bind; [done|]. intros t2 current _. apply guarded_bind; [done|]. intros t3 sockets _.
  apply guarded_bind; [split; [exists ready; by repeat apply activated_mono|done]|]. intros t4 ev _.
  apply guarded_bind; [apply plain_guarded; unfold on_stop_event; each_call|]. intros t5 next _.
  destruct next; [|done]. apply IH. exists ready. by repeat apply activated_mono.
Qed.

Lemma initialized_unserved route t r : runs (initialized config route) t r -> ~ served t.
Proof. apply has_none. unfold initialized, initialize_executor. each_call. Qed.

(** The end of a life that served *)
Lemma stopping_in_order t r : renewing t ->
  guarded in_order (stop_host r) t.
Proof.
  intros Hre. unfold stop_host, stop_host_tasks. cbn. split; [done|]. intros []. split; [done|]. intros d. split; [done|]. intros [].
  split; [done|]. intros []. split; [done|]. intros []. rewrite <- !app_assoc. cbn.
  assert (Hd : forall t', drained (t ++ [Ev CancelSockets tt; Ev (DrainActors HOST_ACTOR_DRAIN_TIMEOUT) d; Ev CancelTasks tt;
                                         Ev (JoinTasks HOST_TASK_SHUTDOWN_TIMEOUT) tt; Ev DropJavascript tt] ++ t')).
  { intros t'. unfold drained. split; [exists d; set_solver|]. split; [set_solver|]. split; set_solver. }
  split.
  - split; [apply has_app; by left|]. intros _. specialize (Hd []). by rewrite app_nil_r in Hd.
  - intros renewal. split; [split|].
    + exists renewal. set_solver.
    + intros _. rewrite <- app_assoc. apply Hd.
    + intros unregistered. destruct r as [[]|]; cbn; [|done]. destruct renewal as [[]|]; cbn; [|done].
      destruct unregistered as [[]|]; done.
Qed.

(** The steps of a host process keep their order, in every run: the actor is
    activated only while the lease is being renewed and after the executor is ready;
    the process announces itself, and serves, only after the actor was activated, and
    it announces the epoch and the lease that it then had; once it has served, it
    gives up the renewal and the lease only after sockets were closed, actors drained
    and its tasks ended; and it unregisters only after the renewal was stopped. *)
Theorem host_lives_in_order turns t r t1 X (e : process_request X) x t2 :
  runs (serve_assigned_host config warm turns) t r -> t = (t1 ++ Ev e x :: t2)%list -> in_order X e t1.
Proof.
  intros Hr Ht. refine (guarded_runs in_order _ [] t r _ Hr t1 X e x t2 Ht). clear Hr Ht. unfold serve_assigned_host.
  apply guarded_bind; [apply prepared_in_order|]. intros p endpoint Hp. pose proof (prepared_actor _ _ Hp) as [actor Ha].
  apply prepared_ends in Hp as [Hre Hns]. cbn [app].
  apply guarded_bind; [by apply guarded_outcome, initialized_in_order|]. intros u ready Hu.
  apply runs_outcome in Hu as (? & [= <-] & Hu). pose proof (initialized_unserved _ _ _ Hu) as Hnu.
  assert (Hre' : renewing (p ++ u)) by (apply has_app; by left).
  destruct ready as [ready|error].
  - apply (initialized_activates _ p) in Hu; [|done|by rewrite Ha].
    apply guarded_bind; [done|]. intros t3 [] _. apply guarded_bind.
    { destruct warm as [w|]; [|done]. destruct (wm_readiness w); [|done]. split; [by apply activated_mono|done]. }
    intros t4 [] _. apply guarded_bind; [apply waiting_in_order; exists ready; do 2 apply activated_mono; done|].
    intros t5 [stop|] _; [|done]. apply stopping_in_order. rewrite !has_app in *. tauto.
  - assert (Hns' : ~ served (p ++ u)) by (rewrite has_app; tauto). split; [split; [done|tauto]|].
    intros renewal. split; [split; [exists renewal; set_solver|]|by intros [[]|]].
    assert (N : ~ served [Ev ShutdownRenewal renewal]) by done. rewrite has_app. tauto.
Qed.

(** Programs that do not fail *)
Fixpoint total {A} (p : process A) : Prop :=
  match p with CRet r => match r with Ok _ => True | Err _ => False end | CVis _ k => forall x, total (k x) end.
Lemma total_runs {A} (p : process A) t e : total p -> ~ runs p t (Err e).
Proof. intros Hp Hr. remember (Err e) as r eqn:E. induction Hr as [r|X e' k x t r Hr IH]; subst; [done|]. by apply IH. Qed.
Lemma total_bind {A B} (p : process A) (f : A -> process B) : total p -> (forall a, total (f a)) -> total (p ≫= f).
Proof. intros Hp Hf. induction p as [[a|e]|X e k IH]; cbn in *; [apply Hf|done|]. auto. Qed.
Lemma wait_total turns : forall evicting, total (wait_for_host_stop config turns evicting).
Proof.
  induction turns as [|turns IH]; intros evicting; cbn [wait_for_host_stop]; [done|].
  apply total_bind; [done|]. intros []; [done|]. apply total_bind; [done|]. intros current. apply total_bind; [done|].
  intros sockets. apply total_bind; [done|]. intros ev. apply total_bind; [|by intros []].
  destruct ev as [| | |[]| | | | |? []|]; cbn; try done. intros [[]|]; cbn; try done. intros n. by destruct (n =? 0); cbn.
Qed.

(** C36: a host whose lease was registered and is being renewed gives it back, however
    its life ends, as long as it ends: it asks for the lease to be unregistered.  The one
    exception is a host that was never started because its executor failed, and whose
    task that renews the lease could not be stopped either: that failure is then the last
    event.  (A start of the maintainer that fails, even after its registration reached
    storage, is not given back; that lease runs out.) *)
Theorem host_gives_its_lease_back turns t r :
  runs (serve_assigned_host config warm turns) t r -> r <> Ok false -> renewing t -> given_back t.
Proof.
  intros Hr Hend Hre. unfold serve_assigned_host in Hr.
  apply runs_bind in Hr as [(endpoint & t1 & t2 & -> & Hp & Hr)|(e & Hp & ->)]; [|by apply prepared_ends in Hp; apply Hp].
  assert (Hgo : forall t0 t', (exists x, Ev UnregisterLease x ∈ t') -> given_back (t0 ++ t')).
  { intros t0 t' [x Hx]. left. exists x. set_solver. }
  apply Hgo. clear Hre Hp Hgo.
  apply runs_bind in Hr as [(ready & u1 & u2 & -> & Hi & Hr)|(e & Hi & ->)]; [|by apply runs_outcome in Hi as (? & ? & _)].
  destruct ready as [ready|error].
  - apply runs_bind in Hr as [([] & u3 & u4 & -> & _ & Hr)|(e & Hi' & ->)]; [|by apply runs_await in Hi' as (? & _ & ?)].
    apply runs_bind in Hr as [([] & u5 & u6 & -> & _ & Hr)|(e & Hi' & ->)].
    2:{ destruct warm as [w|]; [|by apply runs_inv in Hi' as [_ ?]]. destruct (wm_readiness w);
          [by apply runs_await in Hi' as (? & _ & ?)|by apply runs_inv in Hi' as [_ ?]]. }
    apply runs_bind in Hr as [(stop & u7 & u8 & -> & _ & Hr)|(e & Hi' & ->)]; [|by apply (total_runs _ _ _ (wait_total _ _)) in Hi'].
    destruct stop as [stop|]; [|by apply runs_inv in Hr as [_ <-]].
    unfold stop_host, stop_host_tasks in Hr. cbn in Hr.
    do 5 (apply runs_inv in Hr as (? & ? & -> & Hr)). apply runs_inv in Hr as (renewal & ? & -> & Hr).
    apply runs_inv in Hr as (unregistered & ? & -> & Hr). exists unregistered. set_solver.
  - apply runs_inv in Hr as (renewal & u3 & -> & Hr). apply runs_inv in Hr as (unregistered & u4 & -> & Hr).
    exists unregistered. set_solver.
Qed.
End lifecycle.

(** * Spare processes *)
(** The environments that a spare process is given by a sequence of requests; a
    request carries whether the process still listens. *)
Fixpoint assignments (s : HostAssignment) (requests : list (bool * option string * gmap string string))
  : list (gmap string string) :=
  match requests with
  | [] => []
  | (listening, authorization, environment) :: requests =>
      let '(_, given, s) := assign_host listening authorization environment s in
      (option_list given ++ assignments s requests)%list
  end.
Definition authorizes (token : string) (request : bool * option string * gmap string string) : Prop :=
  request.1.2 = Some ("Bearer " +:+ token).
#[global] Instance authorizes_dec token r : Decision (authorizes token r).
Proof. unfold authorizes. apply _. Defined.

Lemma assigned_already token rs :
  assignments {| as_authorization := "Bearer " +:+ token; as_pending := false |} rs = [].
Proof.
  induction rs as [|[[l a] env] rs IH]; [done|]. cbn [assignments]. unfold assign_host. destruct a as [a|]; [|exact IH].
  cbn [as_authorization as_pending negb]. destruct (String.eqb _ a); exact IH.
Qed.
(** Only the first request with the right token is given the process; others leave
    it as it is. *)
Lemma spare_is_assigned_once token rs :
  assignments (router_state token) rs =
  match list_find (authorizes token) rs with
  | Some (_, (true, _, environment)) => [environment]
  | _ => []
  end.
Proof.
  induction rs as [|[[l a] env] rs IH]; [done|]. cbn [assignments list_find]. unfold assign_host. case_decide as Hd.
  - unfold authorizes in Hd. cbn [fst snd] in Hd. subst a. unfold router_state. cbn [as_authorization as_pending negb].
    rewrite String.eqb_refl. cbn [negb]. destruct l; by rewrite assigned_already.
  - assert (E : match a with Some supplied => String.eqb ("Bearer " +:+ token) supplied | None => false end = false).
    { destruct a as [a|]; [|done]. apply String.eqb_neq. intros <-. by apply Hd. }
    destruct a as [a|]; [change (as_authorization (router_state token)) with ("Bearer " +:+ token); rewrite E|];
      cbn [negb option_list app]; rewrite IH; by destruct (list_find (authorizes token) rs) as [[? [[[] ?] ?]]|].
Qed.

Section spare.
Context `{Jwks, Json Value, Json HostReadiness, HostParsers, Json HostStorageConfig, Json ActorKey}.

(** A spare process loads only compiled modules of the customer. *)
Lemma spare_loads_customer_code var turns :
  all_calls (fun X e => match e with LoadExecutor p => customer_entrypoint p = true | _ => True end) (serve_spare var turns).
Proof.
  assert (Hwait : forall config n evicting,
    all_calls (fun X e => match e with LoadExecutor p => customer_entrypoint p = true | _ => True end)
      (wait_for_host_stop config n evicting)).
  { intros config n. induction n as [|n IH]; intros evicting; cbn [wait_for_host_stop]; [done|].
    unfold on_stop_event. each_call. }
  unfold serve_spare, serve_assigned_host, prepare_actor_host, bind_host_listener, write_host_metadata, prepare_storage,
    connect_executor, initialized, initialize_executor, stop_host, stop_host_tasks.
  repeat first
    [ match goal with |- all_calls _ (check_that (customer_entrypoint ?p) _ ≫= _) =>
        destruct (customer_entrypoint p) eqn:?; [change (check_that true ?m ≫= ?f) with (f tt); cbv beta|done] end
    | done | apply Hwait | apply all_calls_outcome | apply all_calls_bind; intros | case_match | split; [done|]; intros ].
Qed.

(** A membership is published only if it was prepared. *)
Lemma published_was_prepared turns scope t :
  guarded (fun X e t => match e with PublishMembership m => Ev (PrepareInitial scope) (Ok m) ∈ t | _ => True end)
    (prepare_initial turns scope) t.
Proof.
  revert t. induction turns as [|turns IH]; intros t; cbn [prepare_initial]; [done|].
  split; [done|]. intros [m|e]; cbn.
  - split; [set_solver|done].
  - split; [done|]. intros []. apply IH.
Qed.
End spare.

(** * Examples *)
From S2P Require Import Samples.
Module HostSamples.
#[export] Instance sample_parsers : HostParsers :=
  {| uuid_accepts s := len s =? 36; endpoint_accepts := starts_with "http"; socket_addr_accepts s := negb (is_empty s) |}.
#[export] Instance sample_jwks : Jwks :=
  {| parse_jwks s := Ok [{| jwk_key_id := Some "k"; jwk_eddsa := true; jwk_material := s |}]; from_jwk k := Ok (jwk_material k) |}.
#[export] Instance sample_actor_text : Text ActorKey.
Proof.
  refine (via (fun a => (project_id a, (actor_name a, actor_id a))) (fun '(a, (b, c)) => Some (Build_ActorKey a b c)) _). by intros [].
Defined.
#[export] Instance sample_bucket_text : Text BucketLocation.
Proof.
  refine (via (fun b => match b with GcsBucket s => (true, s) | FileDirectory s => (false, s) end)
    (fun '(b, s) => Some (if b : bool then GcsBucket s else FileDirectory s)) _). by intros [].
Defined.
#[export] Instance sample_token_text : Text StorageToken.
Proof.
  refine (via (fun t => (tok_access_token t, tok_expires_at_ms t)) (fun '(a, b) => Some (Build_StorageToken a b)) _). by intros [].
Defined.
#[export] Instance sample_storage_text : Text HostStorageConfig.
Proof.
  refine (via (fun c => (hs_bucket c, (hs_region c, (hs_replica_secret c, (hs_replica_regions c, hs_token c)))))
    (fun '(a, (b, (c, (d, e)))) => Some (Build_HostStorageConfig a b c d e)) _). by intros [].
Defined.
#[export] Instance sample_lease_text : Text HostLease.
Proof.
  refine (via (fun l => (lease_id l, (lease_session_id l, (lease_route l, expires_at_ms l))))
    (fun '(a, (b, (c, d))) => Some (Build_HostLease a b c d)) _). by intros [].
Defined.
#[export] Instance sample_readiness_text : Text HostReadiness.
Proof.
  refine (via (fun r => (hr_host_id r, (hr_session_id r, (hr_route r, (hr_canonical_region r, (hr_owner_epoch r, hr_lease r))))))
    (fun '(a, (b, (c, (d, (e, f))))) => Some (Build_HostReadiness a b c d e f)) _). by intros [].
Defined.
Definition sample_storage : HostStorageConfig :=
  {| hs_bucket := FileDirectory "/data"; hs_region := "north"; hs_replica_secret := "s"; hs_replica_regions := ["south"];
     hs_token := None |}.
Definition sample_actor : ActorKey := {| project_id := "p"; actor_name := "Room"; actor_id := "one" |}.
Definition sample_environment : gmap string string := list_to_map
  [("DURABLE_ACTORS_CONTROL_PLANE_URL", "http://c"); ("DURABLE_ACTORS_HOST_TOKEN", "t"); ("DURABLE_ACTORS_JWT_PUBLIC_KEYS", "k");
   ("DURABLE_ACTORS_HOST_ID", "host.v3.a"); ("DURABLE_ACTORS_SESSION_ID", "00000000-0000-4000-8000-000000000000");
   ("DURABLE_ACTORS_RUNTIME_CONFIG", to_vec sample_storage); ("DURABLE_ACTORS_ACTOR", to_vec sample_actor);
   ("DURABLE_ACTORS_RENEW_MS", "4000"); ("DURABLE_ACTORS_ENTRYPOINT", "/customer/main.mjs")].
Definition sample_config : ActorHostConfig :=
  match from_lookup (fun name => sample_environment !! name) with
  | Ok c => c
  | Err _ => {| cf_runtime_config := sample_storage; cf_actor := None; cf_new_actor := false; cf_ready_file := None;
                cf_control_plane_url := ""; cf_host_token := ""; cf_jwt_public_keys := ""; cf_host_id := ""; cf_session_id := "";
                cf_executor_socket := ""; cf_host_bind := ""; cf_host_route := None; cf_jwt_issuer := "";
                cf_invocation_jwt_audience := ""; cf_socket_jwt_audience := ""; cf_jwt_max_lifetime := 0; cf_lease_duration := 0;
                cf_renew_every := 0; cf_host_idle_timeout := 0; cf_metadata := None |}
  end.
(** Everything succeeds, and the host is found idle after its first eviction. *)
Definition sample_answer X (e : process_request X) : X :=
  match e in process_request X return X with
  | ConnectControlPlane _ _ | BindListener _ | WriteTemporary _ _ | RenameTemporary _ | OpenStorage _ _ | StartRenewal _
  | BindExecutor _ | SpawnJavascript _ _ | AcceptExecutor | LoadExecutor _ | MarkReady | DrainActors _ | ShutdownRenewal
  | UnregisterLease | BindControl _ | AcceptWarm | WarmStorage | WriteFile _ _ | RemoveFile _ => Ok tt
  | LocalAddr => Ok "127.0.0.1:1"
  | StartInitialReplication _ _ | StartActorHost _ | ObserveInventory | SendReadiness _ | StartEviction _ | CancelSockets
  | CancelTasks | JoinTasks _ | DropJavascript | ServeAssignments _ => tt
  | ActivateActor _ => Ok 3
  | CurrentLease => Ok {| lease_id := "host.v3.a"; lease_session_id := "s"; lease_route := "r"; expires_at_ms := 9 |}
  | BorrowActorStopped => false
  | BorrowActivity => {| ac_active := 0; ac_resident := true; ac_last_active := 5 |}
  | BorrowSockets => 0
  | HasActivityChanged => Ok false
  | SelectStop evicting idle_at =>
      match idle_at return stop_event evicting (is_some idle_at) with
      | Some _ => IdleReached eq_refl
      | None => ShutdownRequested
      end
  | SelectSpare => Assigned sample_environment
  end.
End HostSamples.
Import HostSamples.

Lemma sample_lookup : from_lookup (fun name => sample_environment !! name) = Ok sample_config.
Proof. vm_compute. reflexivity. Qed.
Lemma accepted_configuration_works_witness :
  0 < cf_renew_every sample_config < cf_lease_duration sample_config /\ cf_lease_duration sample_config <= 60000.
Proof.
  destruct (accepted_configuration_works _ sample_config {| ep_id := "h"; ep_route := "r" |} sample_lookup)
    as (_ & Hr & Hl & _). split; [exact Hr|exact Hl].
Defined.

Abbreviation sample_warm := (Some {| wm_entrypoint := "/customer/main.mjs"; wm_readiness := true |}).
Abbreviation sample_life := (serve_assigned_host sample_config sample_warm 2).
Abbreviation sample_run := (follow sample_answer sample_life).
Lemma host_stops_for_a_reason_witness :
  exists t1 t2 now_evicting, (follow sample_answer (wait_for_host_stop sample_config 1 false)).1 = (t1 ++ t2)%list /\
    turns_until sample_config false t1 now_evicting /\ last_turn sample_config t2 (Ok tt).
Proof.
  apply (host_stops_for_a_reason sample_config 1 false).
  exact (follow_runs sample_answer (wait_for_host_stop sample_config 1 false)).
Defined.
Lemma host_lives_in_order_witness :
  in_order sample_config (Result unit) UnregisterLease (take (pred (length sample_run.1)) sample_run.1).
Proof.
  apply (host_lives_in_order sample_config sample_warm 2 sample_run.1 sample_run.2 _ _ UnregisterLease (Ok tt) [] ).
  - apply follow_runs.
  - vm_compute. reflexivity.
Defined.
Lemma host_gives_its_lease_back_witness : given_back sample_run.1.
Proof.
  apply (host_gives_its_lease_back sample_config sample_warm 2 sample_run.1 sample_run.2).
  - apply follow_runs.
  - vm_compute. discriminate.
  - vm_compute. reflexivity.
Defined.
(** The maintainer registered the lease, but the response came too late: the process
    ends without giving the lease back. *)
Definition late_answer X (e : process_request X) : X :=
  match e in process_request X return X -> X with
  | StartRenewal _ => fun _ => Err "host lease expired before its registration response arrived"
  | _ => fun x => x
  end (sample_answer X e).
Example late_registration_is_kept :
  (follow late_answer sample_life).2 = Err "host lease expired before its registration response arrived" /\
  existsb (fun ev => match ev with @Ev _ X e _ => match e with UnregisterLease => true | _ => false end end)
    (follow late_answer sample_life).1 = false.
Proof. vm_compute. done. Qed.
Lemma spare_life_ends : (follow sample_answer (serve_spare (fun _ => Some "01234567890123456789012345678901") 2)).2 = Ok true.
Proof. vm_compute. reflexivity. Qed.
