(* ===== verification/StorageAccess.v ===== *)
(** What hosts may do in the bucket, and the credentials for it ([bucket/access.rs],
    [host/replica_provisioner.rs]).

    The control plane hands a host a token whose boundary restricts it to prefixes of
    object names.  Caches ([moka]) are requests: [try_get_with] answers with a value
    that is there or that another caller is computing, or leaves it to the caller to
    compute and store one. *)

From S2P Require Import Prelude.
From S2P Require Import Calls.
From S2P Require Import Actors.
From S2P Require Import StoragePaths.
From S2P Require Import Snapshots.
From S2P Require Import RuntimeStorage.
From S2P Require Import Tokens.
From S2P Require Import HostProcess.
Local Open Scope string_scope.
Local Open Scope Z_scope.

(** * Tokens *)
Record ExchangedToken := { et_access_token : string; et_expires_in : Z }.

Inductive access_request : Type -> Type :=
| CachedToken : access_request (option StorageToken)
| InvalidateToken : access_request unit
| JoinExchange : access_request (option (Result StorageToken))
| StoreToken (token : StorageToken) : access_request unit
| AccessNow : access_request (Result Z)
| SourceToken : access_request (Result string)
| PostExchange (form : list (string * string)) : access_request (Result ExchangedToken)
| JoinInitial (identity : string) : access_request (option (Result ReplicaMembership))
| StoreInitial (identity : string) (m : ReplicaMembership) : access_request unit
| JoinTargets (identity : string) : access_request (option (Result (list ReplicaTarget)))
| StoreTargets (identity : string) (l : list ReplicaTarget) : access_request unit
| FleetEnsure (scope : ReplicaScope) : access_request (Result (list ReplicaTarget))
| FleetRepair (scope : ReplicaScope) (failed : list string) : access_request (Result (list ReplicaTarget))
| RegisterInitial (scope : ReplicaScope) (l : list ReplicaTarget) : access_request (Result ReplicaMembership).
Abbreviation access := (calls access_request).

(** [cache.try_get_with(key, compute)]: errors are not stored *)
Definition try_get_with {A} (join : access_request (option (Result A))) (store : A -> access_request unit)
    (compute : access A) : access A :=
  joined ← await join;
  match joined with
  | Some r => try r
  | None => value ← compute; await (store value);; mret value
  end.

(** [u64] arithmetic as compiled without overflow checks *)
Definition u64_wrap (n : Z) : Z := n mod (U64_MAX + 1).

(** ** The boundary *)
Definition rule (bucket : string) (prefixes roles : list string) : Value :=
  let condition prefix :=
    "resource.name.startsWith('projects/_/buckets/" +:+ bucket +:+ "/objects/" +:+ prefix
    +:+ "') || api.getAttribute('storage.googleapis.com/objectListPrefix', '').startsWith('" +:+ prefix +:+ "')" in
  Object [("availableResource", Str ("//storage.googleapis.com/projects/_/buckets/" +:+ bucket));
          ("availablePermissions", Array (map (fun role => Str ("inRole:roles/" +:+ role)) roles));
          ("availabilityCondition", Object [("expression", Str (String.concat " || " (map condition prefixes)))])].
Definition boundary_rules : list (list string * list string) :=
  [([ROOT +:+ "owners/"; ROOT +:+ "hosts/"], ["storage.objectUser"]);
   ([ROOT +:+ "snapshots/"], ["storage.objectViewer"; "storage.objectCreator"])].
Definition boundary (bucket : string) : Value :=
  Object [("accessBoundary", Object [("accessBoundaryRules",
    Array (map (fun r => rule bucket r.1 r.2) boundary_rules))])].

Section access.
Context `{Json Value, Base64Url}.
Variable location : BucketLocation.

Definition exchange_form (bucket source : string) : list (string * string) :=
  [("grant_type", "urn:ietf:params:oauth:grant-type:token-exchange");
   ("subject_token_type", "urn:ietf:params:oauth:token-type:access_token");
   ("requested_token_type", "urn:ietf:params:oauth:token-type:access_token");
   ("subject_token", source);
   ("options", to_vec (boundary bucket))].
Definition exchange : access StorageToken :=
  match location with
  | FileDirectory _ => try (Err "local buckets do not need credentials")
  | GcsBucket bucket =>
      source ← await_ok SourceToken;
      started ← await_ok AccessNow;
      token ← await_ok (PostExchange (exchange_form bucket source));
      check_that (60 <? et_expires_in token) "GCS credential lifetime is too short";;
      mret {| tok_access_token := et_access_token token;
              tok_expires_at_ms := u64_wrap (started + (et_expires_in token - 30) * 1000) |}
  end.
Definition exchange_cached : access (option StorageToken) :=
  token ← try_get_with JoinExchange StoreToken exchange;
  mret (Some token).
Definition issue : access (option StorageToken) :=
  match location with
  | FileDirectory _ => mret None
  | GcsBucket _ =>
      cached ← await CachedToken;
      match cached with
      | Some token =>
          now ← await_ok AccessNow;
          if u64_wrap (now + 60000) <? tok_expires_at_ms token then mret (Some token)
          else await InvalidateToken;; exchange_cached
      | None => exchange_cached
      end
  end.

(** ** Replicas for a starting actor *)
Variable replica_regions : list string.
Variable replica_secret : string.

Definition bootstrap (region : string) : access HostStorageConfig :=
  token ← issue;
  mret {| hs_bucket := location; hs_region := region; hs_replica_secret := replica_secret;
          hs_replica_regions := replica_regions; hs_token := token |}.
Definition initial_replica_targets (scope : ReplicaScope) : access (list ReplicaTarget) :=
  try_get_with (JoinTargets (identity scope)) (StoreTargets (identity scope)) (await_ok (FleetEnsure scope)).
Definition initial_replicas (scope : ReplicaScope) : access ReplicaMembership :=
  try_get_with (JoinInitial (identity scope)) (StoreInitial (identity scope))
    (replicas ← initial_replica_targets scope; await_ok (RegisterInitial scope replicas)).
(** The task that [prewarm] spawns; its outcome is only logged. *)
Definition prewarm (scope : ReplicaScope) : access unit :=
  if is_nil replica_regions then mret tt else outcome (initial_replicas scope);; mret tt.
Definition access_replicas (scope : ReplicaScope) (failed : list string) : access (list ReplicaTarget) :=
  await_ok (FleetRepair scope failed).
End access.

(** [HostReplicaProvisioner]; [EnsureReplicas] is the call to the control plane. *)
Inductive provision_request : Type -> Type :=
| EnsureReplicas (failed : list string) : provision_request (Result (list ReplicaTarget)).
Definition provisioner_repair (regions failed : list string) : calls provision_request (list ReplicaTarget) :=
  if is_nil regions then mret [] else await_ok (EnsureReplicas failed).
Definition provisioner_ensure (regions : list string) : calls provision_request (list ReplicaTarget) :=
  provisioner_repair regions [].

(** * What the boundary grants *)
(** The roles on an object of some name *)
Definition grants (name : string) : list string :=
  concat (map (fun r => if existsb (fun prefix => starts_with prefix name) r.1 then r.2 else []) boundary_rules).

Section boundary.
Context `{Base64Url, Sha256}.

Lemma grants_owner rest : grants (ROOT +:+ "owners/" +:+ rest) = ["storage.objectUser"].
Proof. reflexivity. Qed.
Lemma grants_host rest : grants (ROOT +:+ "hosts/" +:+ rest) = ["storage.objectUser"].
Proof. reflexivity. Qed.
Lemma grants_snapshot rest : grants (ROOT +:+ "snapshots/" +:+ rest) = ["storage.objectViewer"; "storage.objectCreator"].
Proof. reflexivity. Qed.

(** The boundary of a host's token fits the objects that the storage protocol
    uses: owner records and session records may be replaced, snapshots may be read and
    created but never replaced or deleted, and every name outside the three areas is
    out of reach. *)
Theorem boundary_fits_the_objects key a version nonce h ses :
  (forall name, owner key = Ok name -> grants name = ["storage.objectUser"]) /\
  grants (session h ses) = ["storage.objectUser"] /\
  (forall name, snapshot_object_name a version nonce = Ok name ->
     grants name = ["storage.objectViewer"; "storage.objectCreator"]) /\
  (forall name role, role ∈ grants name ->
     exists area, area ∈ ["owners/"; "hosts/"; "snapshots/"] /\ starts_with (ROOT +:+ area) name = true).
Proof.
  split; [|split; [|split]].
  - unfold owner. intros name Hn. res_inv. apply grants_owner.
  - unfold session, host. rewrite <- !sapp_assoc. apply grants_host.
  - unfold snapshot_object_name, snapshot_prefix. intros name Hn. res_inv.
    match goal with Hs : StoragePaths.snapshots a = Ok _ |- _ => apply snapshots_ok in Hs as [_ ->] end.
    rewrite <- !sapp_assoc. apply grants_snapshot.
  - intros name role. unfold grants. cbn [boundary_rules map concat existsb fst snd]. rewrite !elem_of_app.
    intros [Hr|[Hr|Hr]]; [| |by apply elem_of_nil in Hr].
    + destruct (starts_with (ROOT +:+ "owners/") name) eqn:Eo; [exists "owners/"; split; [set_solver|done]|].
      destruct (starts_with (ROOT +:+ "hosts/") name) eqn:Eh; [exists "hosts/"; split; [set_solver|done]|].
      by apply elem_of_nil in Hr.
    + destruct (starts_with (ROOT +:+ "snapshots/") name) eqn:Es; [exists "snapshots/"; split; [set_solver|done]|].
      by apply elem_of_nil in Hr.
Qed.
End boundary.

(** * How long a token lasts *)
Section issuing.
Context `{Json Value, Base64Url}.
Variable location : BucketLocation.

(** A token that is handed out was kept and is good for another minute, was obtained
    by another caller, or comes from an exchange that this caller made, less half a
    minute of its lifetime. *)
Lemma issued_token_lasts t token : runs (issue location) t (Ok (Some token)) ->
  (exists now, Ev CachedToken (Some token) ∈ t /\ Ev AccessNow (Ok now) ∈ t /\
     u64_wrap (now + 60000) < tok_expires_at_ms token) \/
  Ev JoinExchange (Some (Ok token)) ∈ t \/
  (exists started form et, Ev AccessNow (Ok started) ∈ t /\ Ev (PostExchange form) (Ok et) ∈ t /\ 60 < et_expires_in et /\
     token = {| tok_access_token := et_access_token et;
                tok_expires_at_ms := u64_wrap (started + (et_expires_in et - 30) * 1000) |}).
Proof.
  assert (Hex : forall t, runs (exchange_cached location) t (Ok (Some token)) ->
    Ev JoinExchange (Some (Ok token)) ∈ t \/
    (exists started form et, Ev AccessNow (Ok started) ∈ t /\ Ev (PostExchange form) (Ok et) ∈ t /\ 60 < et_expires_in et /\
       token = {| tok_access_token := et_access_token et;
                  tok_expires_at_ms := u64_wrap (started + (et_expires_in et - 30) * 1000) |})).
  { clear t. intros t Hr. unfold exchange_cached, try_get_with in Hr.
    apply runs_bind_ok in Hr as (token' & t1 & t2 & -> & Hr & Hret). apply runs_inv in Hret as [-> [= <-]].
    apply runs_bind_ok in Hr as (joined & t3 & t4 & -> & Hj & Hr). apply runs_await in Hj as (? & -> & [= <-]).
    destruct joined as [r|]; [apply runs_try in Hr as [-> <-]; left; set_solver|].
    apply runs_bind_ok in Hr as (value & t5 & t6 & -> & Hx & Hr). apply runs_bind_ok in Hr as ([] & t7 & t8 & -> & _ & Hr).
    apply runs_inv in Hr as [-> [= <-]]. right. unfold exchange in Hx. destruct location; [|by apply runs_try in Hx as [_ ?]].
    apply runs_bind_ok in Hx as (source & ? & ? & -> & _ & Hx).
    apply runs_bind_ok in Hx as (started & ? & ? & -> & Hs & Hx). apply runs_await_ok in Hs as ->.
    apply runs_bind_ok in Hx as (et & ? & ? & -> & He & Hx). apply runs_await_ok in He as ->.
    apply runs_bind_ok in Hx as ([] & ? & ? & -> & Hc & Hx). apply runs_check in Hc as [-> [[Hc _]|[_ ?]]]; [|done].
    apply runs_inv in Hx as [-> [= <-]]. bools. eexists started, (exchange_form bucket source), et. split; [set_solver|]. split; [set_solver|]. done. }
  unfold issue. destruct location as [bucket|]; [|intros Hr; by apply runs_inv in Hr as [_ ?]]. intros Hr.
  apply runs_bind_ok in Hr as (cached & t1 & t2 & -> & Hc & Hr). apply runs_await in Hc as (? & -> & [= <-]).
  destruct cached as [c|].
  - apply runs_bind_ok in Hr as (now & t3 & t4 & -> & Hn & Hr). apply runs_await_ok in Hn as ->.
    destruct (_ <? _) eqn:El.
    + apply runs_inv in Hr as [-> [= <-]]. bools. left. exists now. split; [set_solver|]. split; [set_solver|done].
    + apply runs_bind_ok in Hr as ([] & t5 & t6 & -> & _ & Hr). right.
      destruct (Hex _ Hr) as [Hj|(started & form & et & Hs & He & Hrest)]; [left; set_solver|right].
      exists started, form, et. split; [set_solver|]. split; [set_solver|done].
  - right. destruct (Hex _ Hr) as [Hj|(started & form & et & Hs & He & Hrest)]; [left; set_solver|right].
    exists started, form, et. split; [set_solver|]. split; [set_solver|done].
Qed.
End issuing.
