(* ===== verification/PublicApi.v ===== *)
(** The HTTP interface of the control plane ([control_plane/public_api.rs],
    [contract_api.rs], [issue_direct_socket] of [admin.rs]).

    A handler is a program over the requests of [ControlPlane] that ends with an
    answer or an error document.  The extractors of [axum] are arguments: the path,
    the text of the authorization header, and the decoded body or its rejection. *)

From S2P Require Import Prelude.
From S2P Require Import Calls.
From S2P Require Import Actors.
From S2P Require Import StoragePaths.
From S2P Require Import Snapshots.
From S2P Require Import ReplicaServer.
From S2P Require Import Deployments.
From S2P Require Import SparePool.
From S2P Require Import Contracts.
From S2P Require Import Tokens.
From S2P Require Import ControlPlane.
Local Open Scope string_scope.
Local Open Scope Z_scope.

(** * Errors *)
Record ApiError := { api_status : Z; api_code : string; api_message : string }.
Record JsonRejection := { jr_status : Z; jr_body_text : string }.

Definition bad_request (message : string) : ApiError := {| api_status := 400; api_code := "invalid_request"; api_message := message |}.
Definition unauthorized (message : string) : ApiError :=
  {| api_status := 401; api_code := "unauthenticated"; api_message := message |}.
Definition not_found (message : string) : ApiError := {| api_status := 404; api_code := "not_found"; api_message := message |}.
Definition conflict (message : string) : ApiError := {| api_status := 409; api_code := "conflict"; api_message := message |}.
Definition unavailable (message : string) : ApiError := {| api_status := 503; api_code := "unavailable"; api_message := message |}.
Definition internal (message : string) : ApiError := {| api_status := 500; api_code := "internal"; api_message := message |}.
Definition json_error (rejection : JsonRejection) : ApiError :=
  if jr_status rejection =? 413
  then {| api_status := 413; api_code := "payload_too_large"; api_message := jr_body_text rejection |}
  else bad_request (jr_body_text rejection).
(** [error.is::<RegionConflict>()] *)
Definition is_region_conflict (error : string) : bool := String.eqb error REGION_CONFLICT.
Definition assignment_error (error : string) : ApiError :=
  if is_region_conflict error then conflict error else bad_request error.
Definition routing_error (error : string) : ApiError :=
  if is_region_conflict error then conflict error else unavailable ("actor host is unavailable: " +:+ error).

Inductive Reply (A : Type) := Answer (a : A) | Refuse (e : ApiError).
Arguments Answer {A} a.
Arguments Refuse {A} e.

(** [result.map_err(f)?] of a computed and of an awaited result *)
Definition or_refuse {E : Type -> Type} {A B} (r : Result A) (f : string -> ApiError) (k : A -> calls E (Reply B))
  : calls E (Reply B) :=
  match r with Ok a => k a | Err e => mret (Refuse (f e)) end.
Definition await_or_refuse {A B} (p : cprog A) (f : string -> ApiError) (k : A -> cprog (Reply B)) : cprog (Reply B) :=
  r ← outcome p; or_refuse r f k.
Definition body {A B} (request : A + JsonRejection) (k : A -> cprog (Reply B)) : cprog (Reply B) :=
  match request with inl a => k a | inr rejection => mret (Refuse (json_error rejection)) end.

(** * Requests and replies *)
Record FindWebSocketRequest := {
  fw_home_region : option string;
  fw_metadata : Value;
  fw_authorization_lifetime_ms : Z }.
Definition socket_authorization_lifetime : Z := 900000.
Record RegisterDeploymentRequest := {
  rd_contract : option Value;
  rd_image_ref : string;
  rd_working_directory : string;
  rd_actor_entrypoint : option string;
  rd_secret_refs : list string }.

Definition authorized_admin (api_key : option string) (authorization : option string) : Result unit :=
  admin_authenticate api_key (default "" authorization).
Definition checked_project (project : string) : Result string :=
  admin_component "project ID" project 64;; Ok project.

(** [Url::set_path], [Url::set_scheme] and [append_pair]: the address that results *)
Class UrlPrinter := { edit_url : Url -> string -> string -> list (string * string) -> Result string }.
Record IssuedSocket := {
  is_home_region : string;
  is_websocket_url : string;
  is_connect_by_ms : Z;
  is_authorized_until_ms : Z }.

Section api.
Context `{Base64Url, Sha256, UrlParser, UrlPrinter, Json Value, Json HostIdentity, Json SpareHandle, Json PoolKey, JwtKeys,
          Jwt ActorJwtClaims, Jwt SocketTicket}.
Context (cp : ControlPlaneConfig) (polls : nat) (api_key : option string).

Definition issue_direct_socket (grant : SocketGrant) (credentials : SocketCredentials) (now_ms : Z) : Result IssuedSocket :=
  url ← parse_url (sc_url credentials);
  ensure ((String.eqb (scheme url) "http" || String.eqb (scheme url) "https") && negb (is_none (host_str url))
          && is_empty (username url) && is_none (password url)) "invalid socket endpoint";;
  let scheme := if String.eqb (scheme url) "https" then "wss" else "ws" in
  '(key, connect_by_ms, authorized_until_ms) ← issue_socket_at (cp_issuer cp) grant now_ms;
  websocket_url ← match edit_url url "/v1/socket" scheme
                          ((if is_empty (sc_token credentials) then [] else [("_modal_connect_token", sc_token credentials)])
                           ++ [("key", key)]) with
                  | Ok u => Ok u
                  | Err _ => Err "invalid socket endpoint"
                  end;
  Ok {| is_home_region := sg_region grant; is_websocket_url := websocket_url; is_connect_by_ms := connect_by_ms;
        is_authorized_until_ms := authorized_until_ms |}.

(** Every handler checks the administrator's credential first. *)
Definition as_admin {B} (authorization : option string) (k : cprog (Reply B)) : cprog (Reply B) :=
  or_refuse (authorized_admin api_key authorization) (fun _ => unauthorized "admin credential was rejected") (fun _ => k).

Definition find_websocket (actor : ActorKey) (authorization : option string) (request : FindWebSocketRequest + JsonRejection)
  : cprog (Reply IssuedSocket) :=
  as_admin authorization (
  body request (fun request =>
  or_refuse (validate_home_region cp (fw_home_region request)) assignment_error (fun _ =>
  let grant := {| sg_actor := actor; sg_region := default (default_region cp) (fw_home_region request); sg_target := None;
                  sg_metadata := fw_metadata request; sg_authorization_lifetime_ms := fw_authorization_lifetime_ms request |} in
  or_refuse (SocketGrant_validate grant) bad_request (fun _ =>
  await_or_refuse (socket_destination cp polls (sg_actor grant) (sg_region grant) (fw_home_region request)) routing_error
    (fun '(region, target, credentials) =>
  let grant := {| sg_actor := sg_actor grant; sg_region := region; sg_target := Some target; sg_metadata := sg_metadata grant;
                  sg_authorization_lifetime_ms := sg_authorization_lifetime_ms grant |} in
  await_or_refuse (now ← await_ok UnixMillis; try (issue_direct_socket grant credentials now)) internal (fun issued =>
  mret (Answer issued))))))).

Definition find_actor (actor : ActorKey) (authorization : option string) (request : option string + JsonRejection)
  : cprog (Reply ActorTarget) :=
  as_admin authorization (
  body request (fun home_region =>
  or_refuse (ActorKey_validate actor) bad_request (fun _ =>
  or_refuse (validate_home_region cp home_region) assignment_error (fun _ =>
  await_or_refuse (resolve_actor_route cp polls actor home_region) routing_error (fun target =>
  mret (Answer target)))))).

Definition get_deployment (project : string) (authorization : option string) : cprog (Reply RegisterDeploymentRequest) :=
  as_admin authorization (
  or_refuse (checked_project project) bad_request (fun project =>
  await_or_refuse (await_ok (RegistryLaunchSpec project)) internal (fun spec =>
  match spec with
  | None => mret (Refuse (not_found "deployment not found"))
  | Some spec =>
      let source := default (source_of spec) (spec_source spec) in
      mret (Answer {| rd_contract := None; rd_image_ref := src_image_ref source;
                      rd_working_directory := src_working_directory source; rd_actor_entrypoint := src_actor_entrypoint source;
                      rd_secret_refs := secret_refs spec |})
  end))).

Definition api_delete_deployment (project : string) (authorization : option string) : cprog (Reply bool) :=
  as_admin authorization (
  or_refuse (checked_project project) bad_request (fun project =>
  await_or_refuse (delete_deployment cp project) internal (fun changed => mret (Answer changed)))).

Definition api_register_deployment (project : string) (authorization : option string)
    (request : RegisterDeploymentRequest + JsonRejection) : cprog (Reply bool) :=
  as_admin authorization (
  body request (fun request =>
  or_refuse (match rd_contract request with Some c => p ← PublicActorContract_new c; Ok (Some p) | None => Ok None end) bad_request
    (fun contract =>
  or_refuse (checked_project project) bad_request (fun project =>
  let spec := {| spec_project_id := project; spec_source := None; code_snapshot := None; image_ref := rd_image_ref request;
                 working_directory := rd_working_directory request; actor_entrypoint := rd_actor_entrypoint request;
                 secret_refs := rd_secret_refs request |} in
  await_or_refuse (deploy_source cp spec contract) bad_request (fun changed => mret (Answer changed)))))).

Definition get_contract (project : string) (authorization : option string) : cprog (Reply PublishedContract) :=
  as_admin authorization (
  or_refuse (checked_project project) bad_request (fun project =>
  await_or_refuse (await_ok (RegistryContract project)) internal (fun contract =>
  match contract with
  | None => mret (Refuse (not_found "no public actor contract is published for this deployment"))
  | Some contract => mret (Answer contract)
  end))).
End api.

(** * What the interface promises *)
Section promises.
Context `{Base64Url, Sha256, UrlParser, UrlPrinter, Json Value, Json HostIdentity, Json SpareHandle, Json PoolKey, JwtKeys,
          Jwt ActorJwtClaims, Jwt SocketTicket}.
Context (cp : ControlPlaneConfig) (polls : nat) (api_key : option string).

Abbreviation rejected := (mret (Refuse (unauthorized "admin credential was rejected"))).

(** Without the administrator's credential no handler does anything: it answers at
    once, before it looks at the body or asks for anything. *)
Theorem api_needs_the_administrator authorization e :
  authorized_admin api_key authorization = Err e ->
  (forall actor request, find_websocket cp polls api_key actor authorization request = rejected) /\
  (forall actor request, find_actor cp polls api_key actor authorization request = rejected) /\
  (forall project, get_deployment api_key project authorization = rejected) /\
  (forall project, api_delete_deployment cp api_key project authorization = rejected) /\
  (forall project request, api_register_deployment cp api_key project authorization request = rejected) /\
  (forall project, get_contract api_key project authorization = rejected).
Proof.
  intros He.
  unfold find_websocket, find_actor, get_deployment, api_delete_deployment, api_register_deployment, get_contract, as_admin.
  rewrite He. done.
Qed.

(** The replies of a handler satisfy [P]. *)
Definition replies {A} (P : Reply A -> Prop) (p : cprog (Reply A)) : Prop :=
  forall t r, runs p t r -> exists reply, r = Ok reply /\ P reply.
Lemma replies_ret {A} (P : Reply A -> Prop) reply : P reply -> replies P (mret reply).
Proof. intros Hp t r [-> <-]%runs_inv. by exists reply. Qed.
Lemma replies_or_refuse {A B} (P : Reply B -> Prop) (r : Result A) f k :
  (forall e, r = Err e -> P (Refuse (f e))) -> (forall a, r = Ok a -> replies P (k a)) -> replies P (or_refuse r f k).
Proof. intros Hf Hk. destruct r as [a|e]; cbn; [by apply Hk|]. by apply replies_ret, Hf. Qed.
Lemma replies_await {A B} (P : Reply B -> Prop) (p : cprog A) f k :
  (forall t e, runs p t (Err e) -> P (Refuse (f e))) -> (forall t a, runs p t (Ok a) -> replies P (k a)) ->
  replies P (await_or_refuse p f k).
Proof.
  intros Hf Hk t r Hr. unfold await_or_refuse in Hr.
  apply runs_bind in Hr as [(x & t1 & t2 & -> & Ho & Hr)|(e & Ho & ->)]; apply runs_outcome in Ho as (y & Hy & Ho); [|done].
  injection Hy as ->. revert Hr. destruct y as [a|e]; cbn.
  - intros Hr. exact (Hk _ _ Ho _ _ Hr).
  - intros [-> <-]%runs_inv. eexists. split; [done|]. by eapply Hf.
Qed.
Lemma replies_body {A B} (P : Reply B -> Prop) (request : A + JsonRejection) k :
  (forall rejection, P (Refuse (json_error rejection))) -> (forall a, replies P (k a)) -> replies P (body request k).
Proof. intros Hf Hk. destruct request; cbn; [apply Hk|by apply replies_ret]. Qed.
Lemma replies_admin {B} (P : Reply B -> Prop) authorization k :
  P (Refuse (unauthorized "admin credential was rejected")) -> replies P k -> replies P (as_admin api_key authorization k).
Proof. intros Hu Hk. apply replies_or_refuse; [done|]. done. Qed.

(** An error document, by what went wrong *)
Definition told_apart {A} (reply : Reply A) : Prop :=
  match reply with
  | Answer _ => True
  | Refuse e => (api_status e = 409 <-> api_code e = "conflict") /\ (api_code e = "conflict" -> api_message e = REGION_CONFLICT) /\
                api_status e ∈ [400; 401; 409; 413; 500; 503]
  end.

Lemma told_assignment {A} e : told_apart (@Refuse A (assignment_error e)).
Proof.
  unfold assignment_error, is_region_conflict. destruct (String.eqb e REGION_CONFLICT) eqn:E; cbn.
  - apply String.eqb_eq in E as ->. split; [done|]. split; [done|set_solver].
  - split; [done|]. split; [done|set_solver].
Qed.
Lemma told_routing {A} e : told_apart (@Refuse A (routing_error e)).
Proof.
  unfold routing_error, is_region_conflict. destruct (String.eqb e REGION_CONFLICT) eqn:E; cbn.
  - apply String.eqb_eq in E as ->. split; [done|]. split; [done|set_solver].
  - split; [done|]. split; [done|set_solver].
Qed.
Lemma told_json {A} rejection : told_apart (@Refuse A (json_error rejection)).
Proof. unfold json_error. destruct (_ =? 413); cbn; (split; [done|]; split; [done|set_solver]). Qed.
Lemma told_bad_request {A} e : told_apart (@Refuse A (bad_request e)).
Proof. cbn. split; [done|]. split; [done|set_solver]. Qed.
Lemma told_internal {A} e : told_apart (@Refuse A (internal e)).
Proof. cbn. split; [done|]. split; [done|set_solver]. Qed.
Lemma told_unauthorized {A} e : told_apart (@Refuse A (unauthorized e)).
Proof. cbn. split; [done|]. split; [done|set_solver]. Qed.

(** Looking for an actor or for a socket always ends with an answer or an error
    document, and a conflict of regions is the only thing reported as a conflict. *)
Theorem lookups_are_answered actor authorization :
  (forall request, replies told_apart (find_actor cp polls api_key actor authorization request)) /\
  (forall request, replies told_apart (find_websocket cp polls api_key actor authorization request)).
Proof.
  split; intros request.
  - unfold find_actor. apply replies_admin; [apply told_unauthorized|]. apply replies_body; [intros; apply told_json|]. intros home.
    apply replies_or_refuse; [intros; apply told_bad_request|]. intros _ _.
    apply replies_or_refuse; [intros; apply told_assignment|]. intros _ _.
    apply replies_await; [intros; apply told_routing|]. intros t target _. by apply replies_ret.
  - unfold find_websocket. apply replies_admin; [apply told_unauthorized|]. apply replies_body; [intros; apply told_json|].
    intros body. apply replies_or_refuse; [intros; apply told_assignment|]. intros _ _.
    apply replies_or_refuse; [intros; apply told_bad_request|]. intros _ _.
    apply replies_await; [intros; apply told_routing|]. intros t [[region target] credentials] _.
    apply replies_await; [intros; apply told_internal|]. intros t' issued _. by apply replies_ret.
Qed.
End promises.

(** * Sockets that are handed out *)
Section socket_addresses.
Context `{Base64Url, Sha256, UrlParser, UrlPrinter, Json Value, Json HostIdentity, Json SpareHandle, Json PoolKey, JwtKeys,
          Jwt ActorJwtClaims, Jwt SocketTicket, !JwtLaws SocketTicket}.
Context (cp : ControlPlaneConfig) (polls : nat) (api_key : option string).

(** A verifier of the issuer's socket tickets *)
Definition verifies_sockets (v : SocketTicketVerifier) (s : ActorJwtIssuer) : Prop :=
  sv_keys v !! is_key_id s = Some (verifying_key (is_encoding_key s)) /\ sv_issuer v = is_issuer s /\
  sv_audience v = socket_audience s.

Lemma find_websocket_answer actor authorization request t issued :
  runs (find_websocket cp polls api_key actor authorization request) t (Ok (Answer issued)) ->
  exists fw region target credentials now key t1, request = inl fw /\ t1 ⊆ t /\ Ev UnixMillis (Ok now) ∈ t /\
    runs (socket_destination cp polls actor (default (default_region cp) (fw_home_region fw)) (fw_home_region fw)) t1
      (Ok (region, target, credentials)) /\
    issue_socket_at (cp_issuer cp)
      {| sg_actor := actor; sg_region := region; sg_target := Some target; sg_metadata := fw_metadata fw;
         sg_authorization_lifetime_ms := fw_authorization_lifetime_ms fw |} now
    = Ok (key, is_connect_by_ms issued, is_authorized_until_ms issued) /\ is_home_region issued = region /\
    exists url scheme pairs, edit_url url "/v1/socket" scheme (pairs ++ [("key", key)]) = Ok (is_websocket_url issued).
Proof.
  unfold find_websocket, as_admin. intros Hr.
  destruct (authorized_admin api_key authorization); cbn [or_refuse] in Hr; [|by apply runs_inv in Hr as [_ ?]].
  destruct request as [fw|]; cbn [body] in Hr; [|by apply runs_inv in Hr as [_ ?]].
  destruct (validate_home_region cp _); cbn [or_refuse] in Hr; [|by apply runs_inv in Hr as [_ ?]].
  destruct (SocketGrant_validate _); cbn [or_refuse] in Hr; [|by apply runs_inv in Hr as [_ ?]].
  unfold await_or_refuse at 1 in Hr. apply runs_bind_ok in Hr as (dest & t1 & t2 & -> & Hd & Hr).
  apply runs_outcome in Hd as (? & [= <-] & Hd). destruct dest as [[[region target] credentials]|]; cbn [or_refuse] in Hr;
    [|by apply runs_inv in Hr as [_ ?]].
  unfold await_or_refuse in Hr. apply runs_bind_ok in Hr as (made & t3 & t4 & -> & Hi & Hr).
  apply runs_outcome in Hi as (? & [= <-] & Hi). destruct made as [made|]; cbn [or_refuse] in Hr;
    [|by apply runs_inv in Hr as [_ ?]].
  apply runs_inv in Hr as [-> [= <-]]. apply runs_bind_ok in Hi as (now & t5 & t6 & -> & Hn & Hi).
  apply runs_await_ok in Hn as ->. apply runs_try in Hi as [-> Hi]. symmetry in Hi. unfold issue_direct_socket in Hi.
  apply bind_ok in Hi as (url & _ & Hi). apply bind_ok in Hi as ([] & _ & Hi).
  apply bind_ok in Hi as ([[key connect] until] & Hs & Hi). apply bind_ok in Hi as (address & Ha & Hi). injection Hi as <-.
  exists fw, region, target, credentials, now, key, t1. split; [done|]. split; [set_solver|]. split; [set_solver|].
  split; [done|]. split; [done|]. split; [done|]. eexists url, _, _. destruct (edit_url _ _ _ _) eqn:Ee in Ha; [|done].
  injection Ha as <-. exact Ee.
Qed.

(** C37: A socket address that the control plane hands out leads to where the actor
    lives: it carries a ticket that every verifier of the issuer accepts until the
    admission deadline of the reply, for the actor that was asked for, the host,
    session and epoch that the actor was routed to, and the region that the reply
    names. *)
Theorem socket_address_fits_its_route actor authorization request t issued :
  runs (find_websocket cp polls api_key actor authorization request) t (Ok (Answer issued)) ->
  exists fw target credentials now key t1, request = inl fw /\ t1 ⊆ t /\ Ev UnixMillis (Ok now) ∈ t /\
    runs (socket_destination cp polls actor (default (default_region cp) (fw_home_region fw)) (fw_home_region fw)) t1
      (Ok (is_home_region issued, target, credentials)) /\
    (exists url scheme pairs, edit_url url "/v1/socket" scheme (pairs ++ [("key", key)]) = Ok (is_websocket_url issued)) /\
    forall v library_now later, verifies_sockets v (cp_issuer cp) -> len key <= 128 * 1024 ->
      0 <= now <= I64_MAX - 86500000 -> now <= later < is_connect_by_ms issued ->
      exists ticket, verify_at v key library_now later = Ok ticket /\ tk_actor ticket = actor /\ tk_target ticket = Some target /\
        tk_region ticket = is_home_region issued /\ tk_authorized_until_ms ticket = is_authorized_until_ms issued.
Proof.
  intros Hr. destruct (find_websocket_answer _ _ _ _ _ Hr)
    as (fw & region & target & credentials & now & key & t1 & -> & Hsub & Hnow & Hd & Hs & Hreg & Hurl).
  subst region. exists fw, target, credentials, now, key, t1. do 5 (split; [done|]).
  intros v library_now later (Hk & Hi & Ha) Hlen Hn Hl. eexists.
  split; [|split; [|split; [|split]]].
  - destruct (socket_ticket_roundtrip _ _ v now key _ _ library_now later Hn Hs Hk Hi Ha Hlen) as [-> _]; [lia|].
    rewrite (proj2 (Z.ltb_lt _ _)) by lia. reflexivity.
  - done.
  - done.
  - done.
  - done.
Qed.
End socket_addresses.

(** * A run *)
From S2P Require Import ControlPlaneSafety.
From S2P Require Import Samples.
#[local] Existing Instances Hex.hex_base64 Hex.tag_sha256 run_identity_json run_handle_json run_key_json run_url.
#[local] Existing Instances Tokens.ticket_text Tokens.claims_text text_jwt_keys.
#[local] Instance run_printer : UrlPrinter :=
  {| edit_url url path scheme pairs :=
       Ok (scheme +:+ "://" +:+ default "" (host_str url) +:+ path +:+ "?" +:+ String.concat "&" (map (fun p => p.1 +:+ "=" +:+ p.2) pairs)) |}.
Definition api_answer X (e : CEff X) : X :=
  match e in CEff X return X with
  | ProviderSocketCredentials _ => Ok {| sc_url := "h.example"; sc_token := "" |}
  | e => run_answer None _ e
  end.
Abbreviation api_request :=
  (inl {| fw_home_region := Some "europe-west"; fw_metadata := Null; fw_authorization_lifetime_ms := 60000 |} : FindWebSocketRequest + JsonRejection).
Abbreviation api_run :=
  (follow api_answer (find_websocket (run_control_plane None) 1 (Some "secret") sample_actor (Some "Bearer secret") api_request)).
Definition api_issued : IssuedSocket :=
  match api_run.2 with
  | Ok (Answer issued) => issued
  | _ => {| is_home_region := ""; is_websocket_url := ""; is_connect_by_ms := 0; is_authorized_until_ms := 0 |}
  end.
Lemma api_run_answers : api_run.2 = Ok (Answer api_issued).
Proof. vm_compute. reflexivity. Qed.
Lemma socket_address_fits_its_route_witness :
  is_home_region api_issued = "europe-west" /\
  exists fw target credentials now key t1, api_request = inl fw /\ t1 ⊆ api_run.1 /\ Ev UnixMillis (Ok now) ∈ api_run.1 /\
    runs (socket_destination (run_control_plane None) 1 sample_actor
            (default (default_region (run_control_plane None)) (fw_home_region fw)) (fw_home_region fw)) t1
      (Ok (is_home_region api_issued, target, credentials)) /\
    (exists url scheme pairs, edit_url url "/v1/socket" scheme (pairs ++ [("key", key)]) = Ok (is_websocket_url api_issued)) /\
    forall v library_now later, verifies_sockets v sample_issuer -> len key <= 128 * 1024 ->
      0 <= now <= I64_MAX - 86500000 -> now <= later < is_connect_by_ms api_issued ->
      exists ticket, verify_at v key library_now later = Ok ticket /\ tk_actor ticket = sample_actor /\
        tk_target ticket = Some target /\ tk_region ticket = is_home_region api_issued /\
        tk_authorized_until_ms ticket = is_authorized_until_ms api_issued.
Proof.
  split; [vm_compute; reflexivity|].
  apply (socket_address_fits_its_route (run_control_plane None) 1 (Some "secret") sample_actor (Some "Bearer secret") api_request).
  rewrite <- api_run_answers. apply follow_runs.
Defined.
