(* ===== verification/Inspection.v ===== *)
(** Inspection of actors and their requests ([control_plane/inspection.rs]): the
    inventory of actors, the states of an actor, and the stream of request traces.

    A handler is a program over requests, as in [PublicApi].  The task that streams
    traces to a browser is a machine whose steps interleave with those of the trace
    store ([TraceStores]): batches are committed, and readers notified, between any
    two of its steps.  Shows that the stream misses no trace without saying so and
    that it never waits while there is something to send. *)

From S2P Require Import Prelude.
From S2P Require Import Calls.
From S2P Require Import Actors.
From S2P Require Import StoragePaths.
From S2P Require Import Snapshots.
From S2P Require Import RuntimeStorage.
From S2P Require Import Deployments.
From S2P Require Import Contracts.
From S2P Require Import PublicApi.
From S2P Require Import RequestTraces.
From S2P Require Import TraceHistory.
From S2P Require Import TracePaging.
From S2P Require Import TraceStores.
Local Open Scope string_scope.
Local Open Scope Z_scope.

(** * Requests *)
(** [timeout], and in a stream the [select!] with [sender.closed()]: what ended the
    wait.  Outside a stream [S] is empty. *)
Inductive Waited (S A : Type) :=
| Done (a : A)
| Elapsed
| Closed (s : S).
Arguments Done {S A} a.
Arguments Elapsed {S A}.
Arguments Closed {S A} s.
Inductive Wake := ReceiverClosed | TimerFired | Changed.

Inductive IEff : Type -> Type :=
| InventoryOf (S : Type) (project : string) : IEff (Waited S (Result (list ActorInventory)))
| ContractOf (S : Type) (project : string) : IEff (Waited S (Result (option PublishedContract)))
| DeploymentContract (project : string) : IEff (Result (option PublishedContract))
| InspectState (actor : ActorKey) (version : option Z) : IEff (Waited Empty_set (Result (option InspectedState)))
| StateHistory (actor : ActorKey) (before : option Z) (limit : nat) : IEff (Waited Empty_set (Result StateHistoryPage))
| SendInventory (data : string) : IEff bool
| SendError (data : string) : IEff unit
| NextChange : IEff Wake.
Abbreviation iprog := (calls IEff).

(** * The inventory *)
Definition no_instances (name : string) : ActorInventory :=
  {| row_actor_name := name; row_live := 0; row_dormant := 0; row_unknown := 0; row_instances := [] |}.
Definition rows_by_name (rows : list ActorInventory) : gmap string ActorInventory :=
  foldl (fun m row => <[row_actor_name row := row]> m) ∅ rows.
(** [rows.entry(name).or_insert_with(..)] for each actor of the contract *)
Definition contract_names (contract : PublishedContract) : list string :=
  omap (fun actor => as_str (index_of actor "actorName")) (default [] (as_array (index_of (Deployments.contract contract) "actors"))).
Definition or_insert_name (m : gmap string ActorInventory) (name : string) : gmap string ActorInventory :=
  match m !! name with Some _ => m | None => <[name := no_instances name]> m end.
Definition merged_inventory (rows : list ActorInventory) (contract : option PublishedContract) : list ActorInventory :=
  let rows := rows_by_name rows in
  let rows := match contract with Some c => foldl or_insert_name rows (contract_names c) | None => rows end in
  merge_sort row_leb (map_to_list rows).*2.

Definition read_inventory (S : Type) (project : string) : iprog (Waited S (Result (list ActorInventory))) :=
  rows ← await (InventoryOf S project);
  match rows with
  | Done (Ok rows) =>
      contract ← await (ContractOf S project);
      match contract with
      | Done (Ok contract) => mret (Done (Ok (merged_inventory rows contract)))
      | Done (Err e) => mret (Done (Err e))
      | Elapsed => mret Elapsed
      | Closed s => mret (Closed s)
      end
  | Done (Err e) => mret (Done (Err e))
  | Elapsed => mret Elapsed
  | Closed s => mret (Closed s)
  end.

(** [timeout(..).await.map_err(unavailable)?.map_err(internal)?] *)
Definition within {A B} (w : Waited Empty_set (Result A)) (late : string) (k : A -> iprog (Reply B)) : iprog (Reply B) :=
  match w with
  | Done r => or_refuse r internal k
  | Elapsed => mret (Refuse (unavailable late))
  | Closed s => match s with end
  end.

Definition actor_inventory (project : string) : iprog (Reply (list ActorInventory)) :=
  or_refuse (checked_project project) bad_request (fun project =>
  w ← read_inventory Empty_set project;
  within w "Actor inventory timed out" (fun inventory => mret (Answer inventory))).

(** [json!({"actors": actors}).to_string()] *)
Class InventoryText := { inventory_text : list ActorInventory -> string }.

Section inventory_stream.
Context `{InventoryText}.
(** The task of [actor_events], for at most [turns] turns of its loop *)
Fixpoint inventory_events (turns : nat) (project : string) (previous : option string) : iprog unit :=
  match turns with
  | O => mret tt
  | S turns =>
      result ← read_inventory unit project;
      match result with
      | Closed _ => mret tt
      | Done (Ok actors) =>
          let data := inventory_text actors in
          let next previous :=
            wake ← await NextChange;
            match wake with
            | ReceiverClosed => mret tt
            | TimerFired | Changed => inventory_events turns project previous
            end in
          if decide (previous = Some data) then next previous
          else
            sent ← await (SendInventory data);
            if (sent : bool) then next (Some data) else mret tt
      | _ => await (SendError "Inventory unavailable")
      end
  end.
Definition actor_events (turns : nat) (project : string) : iprog (Reply unit) :=
  or_refuse (checked_project project) bad_request (fun project =>
  inventory_events turns project None;; mret (Answer tt)).
End inventory_stream.

(** * States *)
Record StateQuery := {
  sq_actor_name : string;
  sq_actor_id : string;
  sq_version : option Z;
  sq_before : option Z;
  sq_limit : option nat }.
Definition StateQuery_actor (q : StateQuery) (project : string) : Reply ActorKey :=
  let actor := {| project_id := project; actor_name := sq_actor_name q; actor_id := sq_actor_id q |} in
  match ActorKey_validate actor with
  | Err e => Refuse (bad_request e)
  | Ok _ =>
      if bool_decide (sq_version q = Some 0) || bool_decide (sq_before q = Some 0)
         || match sq_limit q with Some n => (n =? 0)%nat || (100 <? n)%nat | None => false end
      then Refuse (bad_request "invalid state version or history limit")
      else Answer actor
  end.

(** [query.map_err(bad_request)?] and [query.actor(project_id(path)?)?] *)
Definition for_actor {B} (project : string) (query : StateQuery + string) (k : StateQuery -> ActorKey -> iprog (Reply B))
  : iprog (Reply B) :=
  match query with
  | inr rejection => mret (Refuse (bad_request rejection))
  | inl query =>
      or_refuse (checked_project project) bad_request (fun project =>
      match StateQuery_actor query project with
      | Refuse e => mret (Refuse e)
      | Answer actor => k query actor
      end)
  end.
(** The schema of the socket of the actor, if the contract has one *)
Definition socket_schema (contract : option PublishedContract) (name : string) : option Value :=
  contract ← contract;
  actors ← as_array (index_of (Deployments.contract contract) "actors");
  actor ← List.find (fun item => bool_decide (index_of item "actorName" = Str name)) actors;
  socket ← get_field actor "socket";
  get_field socket "schema".
Definition actor_state (project : string) (query : StateQuery + string) : iprog (Reply (option InspectedState * option Value)) :=
  for_actor project query (fun query actor =>
  w ← await (InspectState actor (sq_version query));
  within w "State inspection timed out" (fun snapshot =>
  contract ← await (DeploymentContract (project_id actor));
  or_refuse contract internal (fun contract =>
  mret (Answer (snapshot, socket_schema contract (actor_name actor)))))).
Definition api_state_history (project : string) (query : StateQuery + string) : iprog (Reply StateHistoryPage) :=
  for_actor project query (fun query actor =>
  w ← await (StateHistory actor (sq_before query) (default 25%nat (sq_limit query)));
  within w "State history timed out" (fun page => mret (Answer page))).

(** * Queries of the trace store *)
Definition trace_query_error (error : string) : ApiError :=
  if String.eqb error INVALID_QUERY then bad_request error else internal error.
Record QueueWaitQuery := { qw_from_ms : option Z; qw_to_ms : option Z; qw_actor_name : option string }.
Definition QueueWaitQuery_validate (q : QueueWaitQuery) : Result unit :=
  let d := HistoryQuery_default in
  HistoryQuery_validate
    {| hq_request_id := hq_request_id d; hq_connection_id := hq_connection_id d; hq_actor_name := qw_actor_name q;
       hq_actor_id := hq_actor_id d; hq_outcome := hq_outcome d; hq_from_ms := qw_from_ms q; hq_to_ms := qw_to_ms q;
       hq_limit := hq_limit d; hq_cursor := hq_cursor d |}.

(** The answers of the database to the queries for metrics are arguments. *)
Definition TraceStore_metrics {A} (project : string) (q : TimeRange) (answer : Result A) : Result A :=
  valid_query (admin_component "project ID" project 64);;
  valid_query (TimeRange_validate q);;
  answer.
Definition TraceStore_queue_waits {A} (project : string) (q : QueueWaitQuery) (answer : Result A) : Result A :=
  valid_query (admin_component "project ID" project 64);;
  valid_query (QueueWaitQuery_validate q);;
  answer.
Definition TraceStore_websockets {A} (project : string) (q : TimeRange) (answer : Result A) : Result A :=
  valid_query (admin_component "project ID" project 64);;
  valid_query (TimeRange_validate q);;
  answer.

Definition trace_reply {Q A} (query : Q + string) (run : Q -> Result A) : Reply A :=
  match query with
  | inr rejection => Refuse (bad_request rejection)
  | inl query => match run query with Ok a => Answer a | Err e => Refuse (trace_query_error e) end
  end.
Definition overview_metrics {A} (project : string) (query : TimeRange + string) (answer : TimeRange -> Result A) : Reply A :=
  trace_reply query (fun q => TraceStore_metrics project q (answer q)).
Definition queue_waits {A} (project : string) (query : QueueWaitQuery + string) (answer : QueueWaitQuery -> Result A) : Reply A :=
  trace_reply query (fun q => TraceStore_queue_waits project q (answer q)).
Definition websocket_history {A} (project : string) (query : TimeRange + string) (answer : TimeRange -> Result A) : Reply A :=
  trace_reply query (fun q => TraceStore_websockets project q (answer q)).

Section traces.
Context `{Base64Url, Json HistoryCursor, Json ReplayCursor, Json filter_tuple, Json TraceEvent, SqliteJson, SqliteRowids}.
Definition request_history (project : string) (query : HistoryQuery + string) (s : TraceStore) : Reply TracePage :=
  trace_reply query (fun q => TraceStore_history project q s).

(** * The stream of request traces *)
(** [ReplayQuery { cursor, ..Default::default() }] *)
Definition replay_from (cursor : option string) : ReplayQuery := {| rq_cursor := cursor; rq_limit := TRACE_CAPACITY |}.

Inductive stream_event :=
| Requests (id : string) (page : TracePage)
| StreamFailed (data : string).
Inductive stream_phase :=
| Opening (cursor : option string)
| Sending (page : TracePage)
| Waiting (cursor : string)
| Reading (cursor : string)
| Failing
| Ended
| Refused (e : ApiError).
(** A reader of the traces of one project.  [sr_seen] is the notification that its
    receiver has seen; [sr_events] what the browser was sent. *)
Record StreamedRequests := {
  sr_store : TraceStore;
  sr_seen : Z;
  sr_phase : stream_phase;
  sr_events : list stream_event }.

(** [request_events] up to the first read: it subscribes before it reads. *)
Definition request_events (after : option string + string) (last_event_id : option string) (s : TraceStore) : StreamedRequests :=
  {| sr_store := s; sr_seen := st_changes s; sr_events := [];
     sr_phase := match after with
                 | inr rejection => Refused (bad_request rejection)
                 | inl after => Opening (match after with Some c => Some c | None => last_event_id end)
                 end |}.

Inductive stream_input :=
| StoreStep (i : store_input)
| Replayed (disk : bool)
| Delivered (received : bool)
| Woken (wake : Wake).

Definition to_phase (p : stream_phase) (w : StreamedRequests) : StreamedRequests :=
  {| sr_store := sr_store w; sr_seen := sr_seen w; sr_phase := p; sr_events := sr_events w |}.
Definition push_event (e : stream_event) (w : StreamedRequests) : StreamedRequests :=
  {| sr_store := sr_store w; sr_seen := sr_seen w; sr_phase := sr_phase w; sr_events := sr_events w ++ [e] |}%list.
(** A query of the database, which may fail to read *)
Definition try_replay (project : string) (cursor : option string) (disk : bool) (s : TraceStore) : Result TracePage :=
  if disk then TraceStore_replay project (replay_from cursor) s
  else valid_query (admin_component "project ID" project 64);;
       valid_query (ReplayQuery_validate (replay_from cursor));;
       Err "disk I/O error".

(** [request_events] and [stream_requests], one await at a time.  The phases are the
    awaits: [Sending] is [sender.send], [Waiting] the [select!], [Reading] the query. *)
Definition stream_step (project : string) (i : stream_input) (w : StreamedRequests) : StreamedRequests :=
  match i, sr_phase w with
  | StoreStep i, _ => {| sr_store := store_step i (sr_store w); sr_seen := sr_seen w; sr_phase := sr_phase w;
                         sr_events := sr_events w |}
  | Replayed disk, Opening cursor =>
      match try_replay project cursor disk (sr_store w) with
      | Ok page => to_phase (Sending page) w
      | Err e => to_phase (Refused (trace_query_error e)) w
      end
  | Delivered true, Sending page =>
      let more := match pg_next_cursor page with Some _ => true | None => false end in
      let w := push_event (Requests (pg_resume_cursor page) page) w in
      if more then to_phase (Reading (pg_resume_cursor page)) w else to_phase (Waiting (pg_resume_cursor page)) w
  | Delivered false, Sending _ => to_phase Ended w
  | Woken ReceiverClosed, Waiting _ => to_phase Ended w
  | Woken Changed, Waiting cursor =>
      if sr_seen w =? st_changes (sr_store w) then w
      else {| sr_store := sr_store w; sr_seen := st_changes (sr_store w); sr_phase := Reading cursor; sr_events := sr_events w |}
  | Woken TimerFired, Waiting cursor => to_phase (Reading cursor) w
  | Replayed disk, Reading cursor =>
      match try_replay project (Some cursor) disk (sr_store w) with
      | Ok page => to_phase (Sending page) w
      | Err _ => to_phase Failing w
      end
  | Delivered received, Failing =>
      to_phase Ended (if received then push_event (StreamFailed "Request history unavailable") w else w)
  | _, _ => w
  end.
Definition stream_run (project : string) (inputs : list stream_input) (w : StreamedRequests) : StreamedRequests :=
  foldl (fun w i => stream_step project i w) w inputs.
Definition sent_pages (w : StreamedRequests) : list TracePage :=
  omap (fun e => match e with Requests _ page => Some page | StreamFailed _ => None end) (sr_events w).
End traces.

(** * What the stream promises *)
Section stream.
Context `{Base64Url, Json HistoryCursor, Json ReplayCursor, Json filter_tuple, Json TraceEvent, SqliteJson, SqliteRowids}.
Context `{!Base64UrlLaws, !JsonLaws HistoryCursor, !JsonLaws ReplayCursor, !JsonLaws TraceEvent}.

Lemma follow_snoc dbs db project limit cursor cursor' reset records page :
  TracePaging.follow dbs project limit cursor = Ok (reset, records, cursor') ->
  replay db project {| rq_cursor := Some cursor'; rq_limit := limit |} = Ok page ->
  TracePaging.follow (dbs ++ [db])%list project limit cursor
    = Ok (reset || pg_reset page, (records ++ pg_records page)%list, pg_resume_cursor page).
Proof.
  revert cursor reset records. induction dbs as [|d dbs IH]; intros cursor reset records; cbn.
  - intros [= <- <- <-] ->. cbn. by rewrite orb_false_r, app_nil_r.
  - intros Hf Hr. apply bind_ok in Hf as (p & -> & Hf). apply bind_ok in Hf as ([[r recs] c] & E & [= <- <- <-]).
    cbn. rewrite (IH _ _ _ E Hr). cbn. by rewrite orb_assoc, app_assoc.
Qed.
(** The last database of a reader that started with [b] *)
Definition newest (b : TraceDb) (dbs : list TraceDb) : TraceDb := default b (last dbs).
Lemma newest_cons b d dbs : newest b (d :: dbs) = newest d dbs.
Proof. unfold newest. destruct dbs; [done|]. rewrite last_cons. by destruct (last _). Qed.
Lemma newest_snoc b dbs d : newest b (dbs ++ [d])%list = d.
Proof. unfold newest. by rewrite last_snoc. Qed.
Lemma growing_snoc b dbs d : growing b dbs -> grows (newest b dbs) d -> growing b (dbs ++ [d])%list.
Proof.
  revert b. induction dbs as [|d' dbs IH]; intros b; [by cbn|]. rewrite newest_cons. cbn. intros [Hg Hc] Hd. split; [done|].
  by apply IH.
Qed.
Lemma newest_in b dbs : newest b dbs ∈ b :: dbs.
Proof. unfold newest. destruct (last dbs) eqn:E; cbn; [|by left]. right. by apply last_Some_elem_of in E. Qed.
Lemma grows_trans a b c : grows a b -> grows b c -> grows a c.
Proof. intros Hab Hbc. induction Hbc as [|b d c ret events _ IH Ha]; [done|]. eapply grows_append; [by apply IH|done]. Qed.
Lemma growing_newest b dbs : growing b dbs -> grows b (newest b dbs).
Proof.
  revert b. induction dbs as [|d dbs IH]; intros b; [intros _; apply grows_refl|]. rewrite newest_cons. intros [Hg Hc].
  eapply grows_trans; [done|]. by apply IH.
Qed.

(** A step of the store extends the database; one that does not notify leaves it as it
    is, or commits a batch whose task has yet to notify. *)
Definition unannounced (d : TraceDb) (s : TraceStore) : Prop :=
  exists events, st_writing s = Some (Appended events true) /\ append LOCAL_RETENTION events d = Ok (st_db s).
Lemma store_step_notifies i s : grows (st_db s) (st_db (store_step i s)) /\ st_changes s <= st_changes (store_step i s) /\
  (st_changes (store_step i s) = st_changes s ->
     st_db (store_step i s) = st_db s /\ (forall d, unannounced d s -> unannounced d (store_step i s)) \/
     (forall d, ~ unannounced d s) /\ unannounced (st_db s) (store_step i s)).
Proof.
  assert (Hsame : grows (st_db s) (st_db s) /\ st_changes s <= st_changes s /\ (st_changes s = st_changes s ->
     st_db s = st_db s /\ (forall d, unannounced d s -> unannounced d s) \/
     (forall d, ~ unannounced d s) /\ unannounced (st_db s) s)) by (split; [apply grows_refl|split; [done|by left]]).
  destruct i as [project host session traces dropped ids|i|disk|]; cbn [store_step].
  - destruct (record_traces project host session traces dropped ids s) as [[events s']|e] eqn:E; [|done].
    unfold record_traces in E. res_inv. unfold persist_detached, report_persistence_failure, count_dropped.
    repeat case_match; cbn; (split; [apply grows_refl|split; [lia|by left]]).
  - unfold begin_write. destruct (st_writing s) as [w|] eqn:Ew; [done|]. case_match; [|done]. cbn.
    split; [apply grows_refl|]. split; [done|]. intros _. left. split; [done|]. intros d (? & E & _). by rewrite Ew in E.
  - unfold append_write. destruct (st_writing s) as [[events|events ok]|] eqn:Ew; [|done..].
    assert (Hnot : forall d, ~ unannounced d s) by (intros d (? & E & _); by rewrite Ew in E).
    destruct (if disk then _ else _) as [db|e] eqn:E; cbn.
    + destruct disk; [|done]. split; [eapply grows_append; [apply grows_refl|exact E]|]. split; [done|]. intros _. right.
      split; [done|]. by exists events.
    + split; [apply grows_refl|]. split; [done|]. intros _. left. split; [done|]. intros d Hd. by apply Hnot in Hd.
  - unfold end_write. destruct (st_writing s) as [[events|events ok]|] eqn:Ew; [done| |done].
    destruct ok; cbn; (split; [apply grows_refl|]; split; lia).
Qed.

(** A page that was read from [d] *)
Definition read_from (d : TraceDb) (project : string) (cursor : option string) (page : TracePage) : Prop :=
  exists page0 s, replay d project (replay_from cursor) = Ok page0 /\ page = with_losses project s page0.
Lemma try_replay_ok project cursor disk s page :
  try_replay project cursor disk s = Ok page -> read_from (st_db s) project cursor page.
Proof.
  unfold try_replay. destruct disk; intros E.
  - unfold TraceStore_replay in E. apply bind_ok in E as ([] & _ & E). apply bind_ok in E as ([] & _ & E).
    apply bind_ok in E as (page0 & Ep & [= <-]). by exists page0, s.
  - apply bind_ok in E as ([] & _ & E). by apply bind_ok in E as ([] & _ & E).
Qed.
(** A reader without a cursor starts at the end. *)
Lemma replay_first db project page : db_ok db -> read_from db project None page ->
  pg_resume_cursor page = resume_cursor project (db_generation db) (pg_cursor page) /\
  pg_cursor page = md_head (metadata db project) /\ pg_next_cursor page = None.
Proof.
  intros Hok (page0 & s & E & ->). unfold replay in E. apply bind_ok in E as (rp & Erp & E). cbn in Erp.
  injection Erp as <-. apply bind_ok in E as (records & _ & E). cbn in E. injection E as <-. done.
Qed.
Lemma replay_next db project p page : db_ok db -> project <> "" -> p <= md_head (metadata db project) ->
  read_from db project (Some (resume_cursor project (db_generation db) p)) page ->
  pg_resume_cursor page = resume_cursor project (db_generation db) (pg_cursor page) /\
  pg_cursor page <= md_head (metadata db project) /\
  (pg_next_cursor page = None -> pg_cursor page = md_head (metadata db project)).
Proof.
  intros Hok Hne Hp (page0 & s & E & ->).
  destruct (replay_page db project TRACE_CAPACITY p) as (page & Ep & ? & ? & _ & _ & ?); [done|done|unfold TRACE_CAPACITY; lia|done|].
  unfold replay_from in E. rewrite Ep in E. injection E as <-. cbn [with_losses pg_cursor pg_resume_cursor pg_next_cursor].
  split; [done|]. split; [lia|done].
Qed.

Lemma resume_cursor_inj project generation p q : resume_cursor project generation p = resume_cursor project generation q -> p = q.
Proof.
  unfold resume_cursor, encode. intros E. apply (f_equal b64_decode) in E. rewrite !b64_roundtrip in E.
  injection E as E. apply (f_equal (from_slice : string -> Result ReplayCursor)) in E. rewrite !json_roundtrip in E. by injection E.
Qed.

Context (project : string) (start : option Z) (db0 : TraceDb).
Hypothesis Hne : project <> "".
Hypothesis Hok0 : db_ok db0.
Hypothesis Hstart : forall p, start = Some p -> p <= md_head (metadata db0 project).
Abbreviation cursor_at p := (resume_cursor project (db_generation db0) p).

Definition resets (pages : list TracePage) : bool := existsb pg_reset pages.
Definition all_records (pages : list TracePage) : list TraceRecord := concat (pg_records <$> pages).
(** The reader counts from [p]: from its own cursor, or from the end of the page that
    it was given first. *)
Definition counts_from (p : Z) (skipped : list TracePage) : Prop :=
  match start with
  | Some p0 => p = p0 /\ skipped = []
  | None => exists page, skipped = [page] /\ pg_cursor page = p
  end.
Definition up_to_date (w : StreamedRequests) (d : TraceDb) : Prop :=
  st_changes (sr_store w) = sr_seen w -> st_db (sr_store w) = d \/ unannounced d (sr_store w).
(** What was read and is being sent *)
Definition in_hand (w : StreamedRequests) (from : TraceDb) (cursor : option string) (page : TracePage) : Prop :=
  exists d, grows from d /\ grows d (st_db (sr_store w)) /\ read_from d project cursor page /\ up_to_date w d.

Record delivering (w : StreamedRequests) (b : TraceDb) (dbs : list TraceDb) (p p' : Z) (skipped counted : list TracePage) : Prop := {
  de_base : grows db0 b /\ p <= md_head (metadata b project);
  de_growing : growing b dbs /\ grows (newest b dbs) (st_db (sr_store w));
  de_pages : sent_pages w = (skipped ++ counted)%list /\ counts_from p skipped;
  de_follow : TracePaging.follow dbs project TRACE_CAPACITY (cursor_at p)
                = Ok (resets counted, all_records counted, cursor_at p');
  de_position : p' <= md_head (metadata (newest b dbs) project);
  de_phase : match sr_phase w with
             | Sending page => in_hand w (newest b dbs) (Some (cursor_at p')) page
             | Waiting c => c = cursor_at p' /\ p' = md_head (metadata (newest b dbs) project) /\ up_to_date w (newest b dbs)
             | Reading c => c = cursor_at p'
             | Failing | Ended => True
             | Opening _ | Refused _ => False
             end }.
Record stream_ok (w : StreamedRequests) : Prop := {
  so_grows : grows db0 (st_db (sr_store w));
  so_seen : sr_seen w <= st_changes (sr_store w);
  so_phase : sent_pages w = [] /\ match sr_phase w with
                                | Opening c => c = (fun p => cursor_at p) <$> start
                                | Sending page => in_hand w db0 ((fun p => cursor_at p) <$> start) page
                                | Ended | Refused _ => True
                                | _ => False
                                end
             \/ exists b dbs p p' skipped counted, delivering w b dbs p p' skipped counted }.

Lemma grown d : grows db0 d -> db_ok d /\ db_generation d = db_generation db0 /\
  md_head (metadata db0 project) <= md_head (metadata d project).
Proof.
  intros Hg. destruct (grows_follows project db0 d Hok0 Hne Hg) as [Hd Hf]. split; [done|].
  split; [apply (fo_generation _ _ _ Hf)|apply (fo_head _ _ _ Hf)].
Qed.
Lemma head_grows a d : grows db0 a -> grows a d -> md_head (metadata a project) <= md_head (metadata d project).
Proof. intros Ha Hd. destruct (grown a Ha) as [Hok _]. by destruct (grows_follows project a d Hok Hne Hd) as [_ Hf%fo_head]. Qed.

Lemma up_to_date_store i w d : sr_seen w <= st_changes (sr_store w) -> up_to_date w d ->
  up_to_date (stream_step project (StoreStep i) w) d.
Proof.
  unfold up_to_date. cbn. intros Hs Hu Hc. destruct (store_step_notifies i (sr_store w)) as (_ & Hle & Heq).
  destruct (Hu ltac:(lia)) as [Ed|Hd], (Heq ltac:(lia)) as [[Es Hk]|[Hno Hn]]; [left; congruence|right; by rewrite <-Ed|auto|].
  by apply Hno in Hd.
Qed.
Lemma stream_ok_store i w : stream_ok w -> stream_ok (stream_step project (StoreStep i) w).
Proof.
  intros [Hg Hs Hp]. destruct (store_step_notifies i (sr_store w)) as (Hg' & Hle & _).
  assert (Hh : forall from c page, in_hand w from c page -> in_hand (stream_step project (StoreStep i) w) from c page).
  { intros from c page (d & ? & ? & ? & ?). exists d. split; [done|]. split; [by eapply grows_trans|].
    split; [done|]. by apply up_to_date_store. }
  constructor; [by eapply grows_trans|cbn; lia|]. destruct Hp as [[He Hp]|(b & dbs & p & p' & skipped & counted & [Hb Hgr Hpg Hf Hpos Hph])].
  - left. split; [done|]. change (sr_phase (stream_step project (StoreStep i) w)) with (sr_phase w). destruct (sr_phase w); auto.
  - right. exists b, dbs, p, p', skipped, counted. constructor; try done.
    + destruct Hgr. split; [done|]. by eapply grows_trans.
    + change (sr_phase (stream_step project (StoreStep i) w)) with (sr_phase w). destruct (sr_phase w); auto.
      destruct Hph as (? & ? & ?). split; [done|]. split; [done|]. by apply up_to_date_store.
Qed.

(** The phase after the page was sent *)
Definition after_page (page : TracePage) : stream_phase :=
  match pg_next_cursor page with Some _ => Reading (pg_resume_cursor page) | None => Waiting (pg_resume_cursor page) end.
Abbreviation sent_page page w := (to_phase (after_page page) (push_event (Requests (pg_resume_cursor page) page) w)).
Lemma delivered_eq page w : sr_phase w = Sending page ->
  stream_step project (Delivered true) w = sent_page page w.
Proof. intros E. unfold stream_step, after_page. rewrite E. by destruct (pg_next_cursor page). Qed.
Lemma sent_pages_push page w : sent_pages (sent_page page w) = (sent_pages w ++ [page])%list.
Proof. unfold sent_pages. cbn. by rewrite omap_app. Qed.
Lemma resets_app a b : resets (a ++ b)%list = resets a || resets b.
Proof. apply existsb_app. Qed.
Lemma all_records_snoc a page : all_records (a ++ [page])%list = (all_records a ++ pg_records page)%list.
Proof. unfold all_records. rewrite fmap_app, concat_app. cbn. by rewrite app_nil_r. Qed.

(** The page that a reader at [q] gets from [d] moves it on. *)
Lemma page_moves d q page : grows db0 d -> q <= md_head (metadata d project) -> read_from d project (Some (cursor_at q)) page ->
  pg_resume_cursor page = cursor_at (pg_cursor page) /\ pg_cursor page <= md_head (metadata d project) /\
  (pg_next_cursor page = None -> pg_cursor page = md_head (metadata d project)).
Proof.
  intros Hd Hq Hr. destruct (grown d Hd) as (Hok & Eg & _). rewrite <- Eg in *. by eapply replay_next.
Qed.
Lemma after_page_ok w b dbs d p page skipped counted :
  grows db0 b -> p <= md_head (metadata b project) -> growing b dbs -> newest b dbs = d ->
  grows d (st_db (sr_store w)) -> up_to_date w d ->
  (sent_pages w ++ [page])%list = (skipped ++ counted)%list -> counts_from p skipped ->
  TracePaging.follow dbs project TRACE_CAPACITY (cursor_at p) = Ok (resets counted, all_records counted, cursor_at (pg_cursor page)) ->
  pg_resume_cursor page = cursor_at (pg_cursor page) -> pg_cursor page <= md_head (metadata d project) ->
  (pg_next_cursor page = None -> pg_cursor page = md_head (metadata d project)) ->
  delivering (sent_page page w) b dbs p (pg_cursor page) skipped counted.
Proof.
  intros Hb Hp Hg <- Hn Hu Hs Hc Hf Hr Hh Hend. constructor; try done.
  - by rewrite sent_pages_push.
  - cbn [sr_phase to_phase]. unfold after_page. destruct (pg_next_cursor page) eqn:E; [done|]. split; [done|]. auto.
Qed.
Lemma first_page_sent w page : stream_ok w -> sent_pages w = [] -> in_hand w db0 ((fun p => cursor_at p) <$> start) page ->
  exists b dbs p p' skipped counted, delivering (sent_page page w) b dbs p p' skipped counted.
Proof.
  intros [Hg Hs _] He (d & Hd & Hd' & Hr & Hu). destruct (grown d Hd) as (Hok & Eg & Hh). destruct start as [p|] eqn:Es.
  - cbn in Hr. specialize (Hstart p eq_refl). destruct (page_moves d p page Hd) as (E & Hb & Hend); [lia|done|].
    exists db0, [d], p, (pg_cursor page), [], [page]. apply (after_page_ok _ _ _ d); try done.
    + apply grows_refl.
    + by rewrite He.
    + unfold counts_from. by rewrite Es.
    + destruct Hr as (page0 & s & Er & Epage). cbn [TracePaging.follow]. unfold replay_from in Er. rewrite Er.
      assert (Ec : pg_resume_cursor page0 = cursor_at (pg_cursor page)) by (rewrite <- E, Epage; done).
      cbn [mbind Result_bind]. rewrite Ec, Epage. cbn. by rewrite orb_false_r.
  - cbn in Hr. destruct (replay_first d project page Hok Hr) as (E & Eh & En).
    exists d, [], (pg_cursor page), (pg_cursor page), [page], []. rewrite Eg in E. apply (after_page_ok _ _ _ d); try done.
    + lia.
    + by rewrite He.
    + unfold counts_from. rewrite Es. by exists page.
    + lia.
Qed.
Lemma next_page_sent w b dbs p p' skipped counted page : stream_ok w -> sr_phase w = Sending page ->
  delivering w b dbs p p' skipped counted ->
  exists b dbs p p' skipped counted, delivering (sent_page page w) b dbs p p' skipped counted.
Proof.
  intros [Hg Hs _] Ep [[Hb Hp] [Hgr Hn] [Hpg Hc] Hf Hpos Hph]. rewrite Ep in Hph. destruct Hph as (d & Hd & Hd' & Hr & Hu).
  pose proof (grows_trans _ _ _ Hb (growing_newest _ _ Hgr)) as Hbn. pose proof (head_grows _ _ Hbn Hd) as Hh.
  destruct (page_moves d p' page) as (E & Hle & Hend); [by eapply grows_trans|lia|done|].
  exists b, (dbs ++ [d])%list, p, (pg_cursor page), skipped, (counted ++ [page])%list.
  apply (after_page_ok _ _ _ d); try done.
  - by apply growing_snoc.
  - apply newest_snoc.
  - by rewrite Hpg, app_assoc.
  - destruct Hr as (page0 & s & Er & Epage). unfold replay_from in Er. rewrite (follow_snoc _ _ _ _ _ _ _ _ _ Hf Er).
    rewrite resets_app, all_records_snoc. replace (cursor_at (pg_cursor page)) with (pg_resume_cursor page) by done.
    rewrite Epage. cbn. by rewrite orb_false_r.
Qed.

Lemma stream_ok_end w e : stream_ok w -> stream_ok (to_phase Ended w) /\
  (sr_phase w = Failing -> stream_ok (to_phase Ended (push_event (StreamFailed e) w))).
Proof.
  intros [Hg Hs Hp]. split.
  - constructor; [done|done|]. destruct Hp as [[He _]|(b & dbs & p & p' & skipped & counted & [])]; [by left|].
    right. exists b, dbs, p, p', skipped, counted. by constructor.
  - intros Ef. constructor; [done|done|]. rewrite Ef in Hp. destruct Hp as [[_ []]|(b & dbs & p & p' & skipped & counted & [])].
    right. exists b, dbs, p, p', skipped, counted. constructor; try done. unfold sent_pages in *. cbn.
    by rewrite omap_app, app_nil_r.
Qed.
Lemma in_hand_now w disk cursor page from p : grows from (st_db (sr_store w)) ->
  try_replay project cursor disk (sr_store w) = Ok page -> in_hand (to_phase p w) from cursor page.
Proof. intros Hg Hr%try_replay_ok. exists (st_db (sr_store w)). split; [done|]. split; [apply grows_refl|]. split; [done|]. intros _. by left. Qed.
Lemma stream_ok_read disk w : stream_ok w -> stream_ok (stream_step project (Replayed disk) w).
Proof.
  intros Hw. pose proof Hw as [Hg Hs Hp]. unfold stream_step. destruct (sr_phase w) as [c|page|c|c| | |e] eqn:Ep; try done.
  - destruct Hp as [[He Hc]|(? & ? & ? & ? & ? & ? & [])]; [|by rewrite Ep in *].
    destruct (try_replay project c disk (sr_store w)) eqn:E; (constructor; [done|done|left; split; [done|cbn; try done]]).
    subst c. by eapply in_hand_now.
  - destruct Hp as [[_ []]|(b & dbs & p & p' & skipped & counted & [])]. rewrite Ep in *. subst c.
    destruct (try_replay project (Some (cursor_at p')) disk (sr_store w)) eqn:E;
      (constructor; [done|done|right; exists b, dbs, p, p', skipped, counted; constructor; try done]).
    cbn. eapply in_hand_now; [apply de_growing0|done].
Qed.
Lemma stream_ok_wake wake w : stream_ok w -> stream_ok (stream_step project (Woken wake) w).
Proof.
  intros Hw. pose proof Hw as [Hg Hs Hp]. unfold stream_step. destruct (sr_phase w) as [c|page|c|c| | |e] eqn:Ep;
    destruct wake; try done; try by apply (stream_ok_end w "").
  all: destruct Hp as [[_ []]|(b & dbs & p & p' & skipped & counted & [])]; rewrite Ep in *; destruct de_phase0 as (-> & _ & _).
  - constructor; [done|done|]. right. exists b, dbs, p, p', skipped, counted. by constructor.
  - destruct (sr_seen w =? st_changes (sr_store w)); [done|]. constructor; [done|cbn; lia|].
    right. exists b, dbs, p, p', skipped, counted. by constructor.
Qed.
Lemma stream_ok_step i w : stream_ok w -> stream_ok (stream_step project i w).
Proof.
  intros Hw. destruct i as [i|disk|received|wake]; [by apply stream_ok_store|by apply stream_ok_read| |by apply stream_ok_wake].
  destruct (sr_phase w) as [c|page|c|c| | |e] eqn:Ep; try by (unfold stream_step; rewrite Ep; destruct received).
  - destruct received; [|unfold stream_step; rewrite Ep; by apply (stream_ok_end w "")].
    rewrite (delivered_eq page w Ep). pose proof Hw as [Hg Hs Hp]. constructor; [done|done|]. right. rewrite Ep in Hp.
    destruct Hp as [[He Hh]|(? & ? & ? & ? & ? & ? & Hd)]; [by apply first_page_sent|by eapply next_page_sent].
  - unfold stream_step. rewrite Ep. destruct received; by apply (stream_ok_end w "Request history unavailable").
Qed.
Lemma stream_run_ok inputs w : stream_ok w -> stream_ok (stream_run project inputs w).
Proof. revert w. induction inputs as [|i inputs IH]; intros w Hw; [done|]. apply IH. by apply stream_ok_step. Qed.
Lemma stream_ok_opening s after last_event_id : st_db s = db0 ->
  match after with Some c => Some c | None => last_event_id end = (fun p => cursor_at p) <$> start ->
  stream_ok (request_events (inl after) last_event_id s).
Proof. intros Es Ec. constructor; [cbn; rewrite Es; apply grows_refl|done|]. left. split; [done|]. exact Ec. Qed.

(** What the pages sent so far amount to *)
Lemma delivering_followed w b dbs p p' skipped counted : delivering w b dbs p p' skipped counted -> resets counted = false ->
  followed project (b :: dbs) p p' (all_records counted).
Proof.
  intros [[Hb Hp] [Hgr Hn] [Hpg Hc] Hf Hpos Hph] Hr. destruct (grown b Hb) as (Hok & Eg & Hh).
  destruct (following_misses_nothing_silently project TRACE_CAPACITY b dbs p) as (reset & records & q & Ef & Hfw);
    [done|unfold TRACE_CAPACITY; lia|done|done|done|].
  rewrite Eg, Hf in Ef. injection Ef as E1 E2 E3. rewrite <- E1, <- E2 in Hfw.
  apply resume_cursor_inj in E3. subst q. by apply Hfw.
Qed.

(** The writer has committed the batch of [r]; what it does next wakes the readers. *)
Definition about_to_notify (r : row) (s : TraceStore) : Prop :=
  st_changes s < st_changes (end_write s) /\
  exists events e, st_writing s = Some (Appended events true) /\ e ∈ events /\ stores e r.

(** C38: The stream of request traces misses nothing without saying so, and does not
    wait while there is something to send.  However commits of the trace store
    interleave with its steps, the pages that were sent hold, in ascending order and
    once each, every trace of the project between the place where the reader started
    and the last page, unless one of them told the reader to start over.  And whenever
    the stream waits with no notification pending, they hold every later trace that the
    database has, except for those of a batch that was just committed, whose writer still
    has the lock and is about to notify. *)
Theorem stream_misses_nothing s after last_event_id inputs w : st_db s = db0 ->
  match after with Some c => Some c | None => last_event_id end = (fun p => cursor_at p) <$> start ->
  w = stream_run project inputs (request_events (inl after) last_event_id s) ->
  sent_pages w = [] /\ (forall c, sr_phase w <> Waiting c) \/
  exists b dbs p p' skipped counted, sent_pages w = (skipped ++ counted)%list /\ counts_from p skipped /\
    growing db0 (b :: dbs) /\ grows (newest b dbs) (st_db (sr_store w)) /\
    (resets counted = false -> followed project (b :: dbs) p p' (all_records counted)) /\
    (resets counted = false -> forall c, sr_phase w = Waiting c -> st_changes (sr_store w) = sr_seen w ->
       forall r, r ∈ of_project project (st_db (sr_store w)) -> p < r_position r ->
       record_of r ∈ all_records counted \/ about_to_notify r (sr_store w)).
Proof.
  intros Es Ec ->. pose proof (stream_run_ok inputs _ (stream_ok_opening s after last_event_id Es Ec)) as Hw.
  set (w := stream_run _ _ _) in *. destruct Hw as [Hg Hs [[He Hp]|(b & dbs & p & p' & skipped & counted & Hd)]].
  - left. split; [done|]. intros c E. by rewrite E in Hp.
  - right. exists b, dbs, p, p', skipped, counted. pose proof (delivering_followed _ _ _ _ _ _ _ Hd) as Hfw.
    destruct Hd as [[Hb _] [Hgr Hn] [Hpg Hc] _ _ Hph]. do 2 (split; [done|]). split; [by split|]. do 2 (split; [done|]).
    intros Hr c Ew Hch r Hin Hpos. rewrite Ew in Hph. destruct Hph as (_ & Ep' & Hu).
    pose proof (grows_trans _ _ _ Hb (growing_newest _ _ Hgr)) as Hbn. destruct (grown _ Hbn) as (Hok & _ & _).
    assert (Hsent : r ∈ of_project project (newest b dbs) -> record_of r ∈ all_records counted).
    { intros Hi. pose proof (in_metadata _ _ _ Hok Hne Hi) as Hm.
      apply (fw_complete _ _ _ _ _ (Hfw Hr) (newest b dbs)); [apply newest_in|done|lia]. }
    destruct (Hu Hch) as [Ed|(events & Ewr & Ea)]; [left; apply Hsent; by rewrite <- Ed|].
    apply list_elem_of_filter in Hin as [Epr Hin]. destruct (appended_rows _ _ _ _ _ Hok Ea Hin) as [Hi|(e & He & Hst)].
    + left. by apply Hsent, list_elem_of_filter.
    + right. split; [unfold end_write; rewrite Ewr; cbn; lia|by exists events, e].
Qed.
End stream.

(** * What the inventory shows *)
Definition keyed (m : gmap string ActorInventory) : Prop := forall k row, m !! k = Some row -> row_actor_name row = k.
Lemma rows_by_name_spec rows : keyed (rows_by_name rows) /\
  (forall k, is_Some (rows_by_name rows !! k) <-> k ∈ row_actor_name <$> rows) /\
  (forall k row, rows_by_name rows !! k = Some row -> row ∈ rows).
Proof.
  unfold rows_by_name. induction rows as [|r rows IH] using rev_ind.
  - split; [by intros k row|]. split; [|by intros k row]. intros k. split; [by intros []|by intros ?%elem_of_nil].
  - rewrite foldl_snoc. destruct IH as (Hk & Hd & Hi). split; [|split].
    + intros k row [[<- <-]|[_ Hr]]%lookup_insert_Some; [done|by apply Hk].
    + intros k. rewrite fmap_app, elem_of_app, lookup_insert_is_Some, Hd. cbn [fmap list_fmap].
      rewrite elem_of_cons, elem_of_nil. destruct (decide (row_actor_name r = k)); naive_solver.
    + intros k row [[_ <-]|[_ Hr]]%lookup_insert_Some; apply elem_of_app; [right; by left|left; by eapply Hi].
Qed.
Lemma or_insert_names names m : keyed m ->
  keyed (foldl or_insert_name m names) /\
  (forall k, is_Some (foldl or_insert_name m names !! k) <-> is_Some (m !! k) \/ k ∈ names) /\
  (forall k row, foldl or_insert_name m names !! k = Some row -> m !! k = Some row \/ m !! k = None /\ row = no_instances k).
Proof.
  revert m. induction names as [|n names IH]; intros m Hm; cbn [foldl].
  { split; [done|]. split; [|auto]. intros k. rewrite elem_of_nil. naive_solver. }
  assert (Hm' : keyed (or_insert_name m n)).
  { unfold or_insert_name. destruct (m !! n) eqn:E; [done|]. intros k row [[<- <-]|[_ Hr]]%lookup_insert_Some; [done|by apply Hm]. }
  destruct (IH _ Hm') as (Hk & Hd & Hi). split; [done|]. split.
  - intros k. rewrite Hd, elem_of_cons. unfold or_insert_name. destruct (m !! n) eqn:E.
    + split; [naive_solver|]. intros [?|[->|?]]; [by left|left; by eexists|by right].
    + rewrite lookup_insert_is_Some. destruct (decide (n = k)); naive_solver.
  - intros k row Hr. specialize (Hi k row Hr). revert Hi. unfold or_insert_name. destruct (m !! n) eqn:E; [done|].
    destruct (decide (n = k)) as [->|Hne]; [rewrite lookup_insert_eq; intros [[= <-]|[? _]]; [by right|done]|].
    by rewrite lookup_insert_ne.
Qed.

#[local] Instance row_leb_trans : Transitive row_leb.
Proof. intros a b c. unfold row_leb. apply string_leb_trans. Qed.
#[local] Instance row_leb_total : Total row_leb.
Proof. intros a b. unfold row_leb. destruct (String.leb_total (row_actor_name a) (row_actor_name b)); auto. Qed.

(** The inventory lists each actor once and by name: those that have instances, as
    storage reports them, and those that the published contract names. *)
Theorem inventory_lists_every_actor rows contract :
  let names := row_actor_name <$> merged_inventory rows contract in
  NoDup names /\ StronglySorted row_leb (merged_inventory rows contract) /\
  (forall name, name ∈ names <-> name ∈ row_actor_name <$> rows \/ exists c, contract = Some c /\ name ∈ contract_names c) /\
  (forall row, row ∈ merged_inventory rows contract ->
     row ∈ rows \/ row_actor_name row ∉ row_actor_name <$> rows /\ row = no_instances (row_actor_name row)).
Proof.
  intros names. subst names. unfold merged_inventory. destruct (rows_by_name_spec rows) as (Hk & Hd & Hi).
  set (m := match contract with Some c => _ | None => _ end).
  assert (keyed m /\ (forall k, is_Some (m !! k) <-> k ∈ row_actor_name <$> rows \/ exists c, contract = Some c /\ k ∈ contract_names c) /\
    (forall k row, m !! k = Some row -> row ∈ rows \/ k ∉ row_actor_name <$> rows /\ row = no_instances k)) as (Hmk & Hmd & Hmi).
  { unfold m. destruct contract as [c|].
    - destruct (or_insert_names (contract_names c) _ Hk) as (A1 & A2 & A3). split; [done|]. split.
      + intros k. rewrite A2, Hd. naive_solver.
      + intros k row [?|[Hn ->]]%A3; [left; by eapply Hi|right]. split; [|done]. rewrite <- Hd, Hn. by intros [].
    - split; [done|]. split; [|intros; left; by eapply Hi]. intros k. rewrite Hd. naive_solver. }
  assert (Hnames : row_actor_name <$> (map_to_list m).*2 = (map_to_list m).*1).
  { rewrite <- list_fmap_compose. apply list_fmap_ext. intros i [k row] Hr. cbn. apply Hmk.
    apply elem_of_map_to_list. by eapply list_elem_of_lookup_2. }
  split; [|split; [by apply (StronglySorted_merge_sort _)|split]].
  - rewrite merge_sort_Permutation, Hnames. apply NoDup_fst_map_to_list.
  - intros name. rewrite merge_sort_Permutation, Hnames, <- Hmd. rewrite list_elem_of_fmap. split.
    + intros ([k row] & -> & Hr%elem_of_map_to_list). by eexists.
    + intros [row Hr]. exists (name, row). by rewrite elem_of_map_to_list.
  - intros row. rewrite merge_sort_Permutation. intros ([k row'] & -> & Hr%elem_of_map_to_list)%list_elem_of_fmap. cbn.
    rewrite (Hmk _ _ Hr). by apply Hmi.
Qed.

(** * A run *)
Import TraceSamples.
Abbreviation stream_inputs :=
  [Replayed true; Delivered true; StoreStep (Recorded "p" "host" "session" [empty_trace "a"] 0 (fun _ => "a"));
   StoreStep (BeginWrite 0); StoreStep (AppendWrite true); StoreStep EndWrite; Woken Changed; Replayed true; Delivered true].
Abbreviation stream_final :=
  (stream_run "p" stream_inputs (request_events (inl (Some (resume_cursor "p" "generation" 0))) None (TraceStore_new db_start))).
Lemma stream_final_waits : (length <$> (pg_records <$> sent_pages stream_final), st_changes (sr_store stream_final),
  sr_seen stream_final, match sr_phase stream_final with Waiting _ => true | _ => false end) = ([0%nat; 1%nat], 1, 1, true).
Proof. vm_compute. reflexivity. Qed.
(** Between the commit and the notification the stream waits with a trace unsent. *)
Abbreviation stream_window :=
  (stream_run "p" (take 5 stream_inputs) (request_events (inl (Some (resume_cursor "p" "generation" 0))) None (TraceStore_new db_start))).
Example window_before_notification : (length (of_project "p" (st_db (sr_store stream_window))),
  length <$> (pg_records <$> sent_pages stream_window), st_changes (sr_store stream_window) =? sr_seen stream_window,
  match sr_phase stream_window with Waiting _ => true | _ => false end) = (1%nat, [0%nat], true, true).
Proof. vm_compute. reflexivity. Qed.
Lemma stream_misses_nothing_witness :
  sent_pages stream_final = [] /\ (forall c, sr_phase stream_final <> Waiting c) \/
  exists b dbs p p' skipped counted, sent_pages stream_final = (skipped ++ counted)%list /\ counts_from (Some 0) p skipped /\
    growing db_start (b :: dbs) /\ grows (newest b dbs) (st_db (sr_store stream_final)) /\
    (resets counted = false -> followed "p" (b :: dbs) p p' (all_records counted)) /\
    (resets counted = false -> forall c, sr_phase stream_final = Waiting c -> st_changes (sr_store stream_final) = sr_seen stream_final ->
       forall r, r ∈ of_project "p" (st_db (sr_store stream_final)) -> p < r_position r ->
       record_of r ∈ all_records counted \/ about_to_notify r (sr_store stream_final)).
Proof.
  apply (stream_misses_nothing "p" (Some 0) db_start) with (s := TraceStore_new db_start)
    (after := Some (resume_cursor "p" "generation" 0)) (last_event_id := None) (inputs := stream_inputs).
  - discriminate.
  - exact db_start_ok.
  - intros p [= <-]. vm_compute. discriminate.
  - reflexivity.
  - reflexivity.
  - reflexivity.
Defined.
