(* ===== verification/LocalHosts.v ===== *)
(** Hosts of the local development mode ([sandbox/local_store.rs],
    [sandbox/local.rs]): the SQLite table of reservations and the runtime that keeps
    one process per reservation.

    The statements are functions on the tables, under the mutex of the connection.
    The runtime is a machine: callers of [ensure_host], terminations, the shutdown and
    one task per reservation take their steps in any order, each step up to the next
    await; a statement may fail, and replies of storage and processes are inputs.
    Shows that an actor has at most one process per configuration and region, and none
    once its configuration was terminated or the runtime was shut down. *)

From S2P Require Import Prelude.
From S2P Require Import Actors.
From S2P Require Import StoragePaths.
From S2P Require Import Snapshots.
From S2P Require Import Deployments.
From S2P Require Import SparePool.
From S2P Require Import ControlPlane.
Local Open Scope string_scope.
Local Open Scope Z_scope.

(** * The tables *)
Inductive local_status := Starting | Ready | Retiring | Failed.
#[global] Instance local_status_eq_dec : EqDecision local_status.
Proof. solve_decision. Defined.
Record host_row := {
  hr_token : string;
  hr_host_id : string;
  hr_config : string;
  hr_region : string;
  hr_actor : string;
  hr_status : local_status;
  hr_lease : option string;
  hr_epoch : string;
  hr_error : option string }.
(** [UNIQUE(config, region, actor)] *)
Definition row_key (r : host_row) : string * string * string := (hr_config r, hr_region r, hr_actor r).
Record LocalHostStore := {
  lh_stopping : bool;
  lh_deployments : gmap string bool;
  lh_hosts : list host_row }.
(** [open] drops the records of an earlier process. *)
Definition LocalHostStore_open : LocalHostStore := {| lh_stopping := false; lh_deployments := ∅; lh_hosts := [] |}.

Record Reservation := { rv_token : string; rv_created : bool }.
Record HostRecord := {
  rc_actor : ActorKey;
  rc_region : string;
  rc_status : local_status;
  rc_lease : option HostLease;
  rc_epoch : Z;
  rc_error : option string }.

(** [UPDATE hosts SET .. WHERE p] and [DELETE FROM hosts WHERE p] *)
Definition update_hosts (p : host_row -> bool) (f : host_row -> host_row) (hosts : list host_row) : list host_row :=
  (fun r => if p r then f r else r) <$> hosts.
Definition delete_hosts (p : host_row -> bool) (hosts : list host_row) : list host_row := filter (fun r => p r = false) hosts.
Definition has_status (status : local_status) (r : host_row) : bool := bool_decide (hr_status r = status).
Definition set_hosts (hosts : list host_row) (s : LocalHostStore) : LocalHostStore :=
  {| lh_stopping := lh_stopping s; lh_deployments := lh_deployments s; lh_hosts := hosts |}.
Definition retiring (r : host_row) : host_row :=
  {| hr_token := hr_token r; hr_host_id := hr_host_id r; hr_config := hr_config r; hr_region := hr_region r;
     hr_actor := hr_actor r; hr_status := Retiring; hr_lease := hr_lease r; hr_epoch := hr_epoch r; hr_error := hr_error r |}.

Section store.
Context `{Json ActorKey, Json HostLease}.

(** [new_token] is the identifier that [Uuid::new_v4] makes.  An error rolls the
    transaction back. *)
Definition local_reserve (request : EnsureHostRequest) (new_token : string) (s : LocalHostStore)
  : Result (Reservation * LocalHostStore) :=
  let config := eh_host_config_key request in
  actor ← with_context (to_vec <$> eh_actor request) "local actor identity missing";
  let key := (config, eh_canonical_region request, actor) in
  ensure (negb (lh_stopping s)) "local runtime is shutting down";;
  let deployments := match lh_deployments s !! config with
                     | Some _ => lh_deployments s
                     | None => <[config := false]> (lh_deployments s)
                     end in
  ensure (negb (default false (deployments !! config))) "local deployment is restarting";;
  let hosts := delete_hosts (fun r => bool_decide (row_key r = key) && has_status Failed r) (lh_hosts s) in
  match List.find (fun r => bool_decide (row_key r = key)) hosts with
  | Some r => Ok ({| rv_token := hr_token r; rv_created := false |},
                  {| lh_stopping := lh_stopping s; lh_deployments := deployments; lh_hosts := hosts |})
  | None =>
      ensure (forallb (fun r => negb (String.eqb (hr_token r) new_token) && negb (String.eqb (hr_host_id r) (eh_host_id request)))
                hosts) "UNIQUE constraint failed";;
      Ok ({| rv_token := new_token; rv_created := true |},
          {| lh_stopping := lh_stopping s; lh_deployments := deployments;
             lh_hosts := hosts ++ [{| hr_token := new_token; hr_host_id := eh_host_id request; hr_config := config;
                                      hr_region := eh_canonical_region request; hr_actor := actor; hr_status := Starting;
                                      hr_lease := None; hr_epoch := "0"; hr_error := None |}] |}%list)
  end.

Definition local_lookup (p : host_row -> bool) (s : LocalHostStore) : Result (option HostRecord) :=
  match List.find p (lh_hosts s) with
  | None => Ok None
  | Some r =>
      actor ← from_slice (hr_actor r);
      lease ← match hr_lease r with Some text => l ← from_slice text; Ok (Some l) | None => Ok None end;
      epoch ← with_context (parse_u64 (hr_epoch r)) "invalid digit found in string";
      Ok (Some {| rc_actor := actor; rc_region := hr_region r; rc_status := hr_status r; rc_lease := lease; rc_epoch := epoch;
                  rc_error := hr_error r |})
  end.
Definition local_get (token : string) : LocalHostStore -> Result (option HostRecord) :=
  local_lookup (fun r => String.eqb (hr_token r) token).
Definition local_host (host : string) : LocalHostStore -> Result (option HostRecord) :=
  local_lookup (fun r => String.eqb (hr_host_id r) host).

Definition is_starting (token : string) (r : host_row) : bool := String.eqb (hr_token r) token && has_status Starting r.
Definition local_publish (token : string) (lease : HostLease) (epoch : Z) (s : LocalHostStore) : bool * LocalHostStore :=
  (existsb (is_starting token) (lh_hosts s),
   set_hosts (update_hosts (is_starting token)
     (fun r => {| hr_token := hr_token r; hr_host_id := hr_host_id r; hr_config := hr_config r; hr_region := hr_region r;
                  hr_actor := hr_actor r; hr_status := Ready; hr_lease := Some (to_vec lease); hr_epoch := show_u64 epoch;
                  hr_error := hr_error r |}) (lh_hosts s)) s).
Definition local_finish (token error : string) (s : LocalHostStore) : LocalHostStore :=
  let hosts := delete_hosts (fun r => String.eqb (hr_token r) token && has_status Retiring r) (lh_hosts s) in
  set_hosts (update_hosts (fun r => String.eqb (hr_token r) token)
    (fun r => {| hr_token := hr_token r; hr_host_id := hr_host_id r; hr_config := hr_config r; hr_region := hr_region r;
                 hr_actor := hr_actor r; hr_status := Failed; hr_lease := None; hr_epoch := hr_epoch r;
                 hr_error := Some error |}) hosts) s.
Definition local_retire (token : string) (s : LocalHostStore) : LocalHostStore :=
  set_hosts (update_hosts (fun r => String.eqb (hr_token r) token && (has_status Starting r || has_status Ready r)) retiring
    (lh_hosts s)) s.
Definition local_retire_config (config : string) (s : LocalHostStore) : list (string * string) * LocalHostStore :=
  let of_config r := String.eqb (hr_config r) config in
  let hosts := delete_hosts (fun r => of_config r && has_status Failed r) (lh_hosts s) in
  ((fun r => (hr_token r, hr_host_id r)) <$> filter (fun r => of_config r = true) hosts,
   {| lh_stopping := lh_stopping s; lh_deployments := <[config := true]> (lh_deployments s);
      lh_hosts := update_hosts of_config retiring hosts |}).
Definition local_shutdown (s : LocalHostStore) : LocalHostStore :=
  {| lh_stopping := true; lh_deployments := lh_deployments s;
     lh_hosts := update_hosts (fun _ => true) retiring (delete_hosts (has_status Failed) (lh_hosts s)) |}.
End store.

(** * The runtime *)
(** The task of a reservation, [run_host]: where it waits.  From [AwaitReady] to
    [StoppingHost] its process may run. *)
Inductive task_phase :=
| Spawning
| AwaitReady
| Publishing (lease : HostLease) (epoch : Z)
| Serving
| StoppingHost (error : string)
| Finishing (error : string)
| Over.
Record host_task := { ht_request : EnsureHostRequest; ht_token : string; ht_phase : task_phase }.

(** A caller of [ensure_host] *)
Inductive caller_phase :=
| CallStart
| CallReserving
| CallAwaitHost (token : string)
| CallLease (token : string) (record : HostRecord)
| CallRetiring (token : string)
| CallAwaitGone (token : string)
| CallReturned (r : Result ActorHostHandle).
Record caller := { ca_request : EnsureHostRequest; ca_phase : caller_phase }.

(** A call of [terminate_hosts]: the hosts that it retired and those it still waits for *)
Inductive termination_phase :=
| TermStart
| TermWaiting (hosts remaining : list (string * string))
| TermReturned (r : Result (list string)).
Record termination := { te_config : string; te_phase : termination_phase }.

Inductive shutdown_phase := Running | Cancelled | Draining | Down.
Record LocalRuntime := {
  lr_project : string;
  lr_store : LocalHostStore;
  lr_shutdown : shutdown_phase;
  lr_tasks : list host_task;
  lr_callers : list caller;
  lr_terminations : list termination }.
Definition LocalRuntime_new (project : string) : LocalRuntime :=
  {| lr_project := project; lr_store := LocalHostStore_open; lr_shutdown := Running; lr_tasks := []; lr_callers := [];
     lr_terminations := [] |}.
(** [stop.is_cancelled()] *)
Definition stop_cancelled (w : LocalRuntime) : bool := match lr_shutdown w with Running => false | _ => true end.

Inductive local_input :=
(* callers *)
| Ensure (request : EnsureHostRequest)
| CallSpawned (i : nat)
| CallReserved (i : nat) (disk : bool) (new_token : string)
| CallPolled (i : nat) (disk : bool)
| CallOwner (i : nat) (owner : Result (option ObjectPlacement)) (now : option Z)
| CallRetired (i : nat) (disk : bool)
| CallStopped (i : nat)
(* terminations *)
| Terminate (config : string)
| TermRetired (i : nat) (disk : bool)
| TermChecked (i : nat) (disk : bool)
(* tasks of hosts *)
| TaskSpawned (i : nat) (r : Result unit)
| TaskRetired (i : nat) (disk : bool)
| TaskReady (i : nat) (r : Result (HostLease * Z))
| TaskPublished (i : nat) (disk : bool)
| TaskExited (i : nat) (status : string)
| TaskStopped (i : nat)
| TaskFinished (i : nat) (disk : bool)
(* shutdown *)
| Cancel
| ShutStore (disk : bool)
| ShutWaited.

Definition set_store (s : LocalHostStore) (w : LocalRuntime) : LocalRuntime :=
  {| lr_project := lr_project w; lr_store := s; lr_shutdown := lr_shutdown w; lr_tasks := lr_tasks w;
     lr_callers := lr_callers w; lr_terminations := lr_terminations w |}.
Definition set_shutdown (p : shutdown_phase) (w : LocalRuntime) : LocalRuntime :=
  {| lr_project := lr_project w; lr_store := lr_store w; lr_shutdown := p; lr_tasks := lr_tasks w;
     lr_callers := lr_callers w; lr_terminations := lr_terminations w |}.
Definition set_host_tasks (tasks : list host_task) (w : LocalRuntime) : LocalRuntime :=
  {| lr_project := lr_project w; lr_store := lr_store w; lr_shutdown := lr_shutdown w; lr_tasks := tasks;
     lr_callers := lr_callers w; lr_terminations := lr_terminations w |}.
Definition set_callers (callers : list caller) (w : LocalRuntime) : LocalRuntime :=
  {| lr_project := lr_project w; lr_store := lr_store w; lr_shutdown := lr_shutdown w; lr_tasks := lr_tasks w;
     lr_callers := callers; lr_terminations := lr_terminations w |}.
Definition set_terminations (terminations : list termination) (w : LocalRuntime) : LocalRuntime :=
  {| lr_project := lr_project w; lr_store := lr_store w; lr_shutdown := lr_shutdown w; lr_tasks := lr_tasks w;
     lr_callers := lr_callers w; lr_terminations := terminations |}.
Definition to_call (i : nat) (c : caller) (p : caller_phase) (w : LocalRuntime) : LocalRuntime :=
  set_callers (<[i := {| ca_request := ca_request c; ca_phase := p |}]> (lr_callers w)) w.
Definition to_termination (i : nat) (t : termination) (p : termination_phase) (w : LocalRuntime) : LocalRuntime :=
  set_terminations (<[i := {| te_config := te_config t; te_phase := p |}]> (lr_terminations w)) w.
Definition to_task (i : nat) (t : host_task) (p : task_phase) (w : LocalRuntime) : LocalRuntime :=
  set_host_tasks (<[i := {| ht_request := ht_request t; ht_token := ht_token t; ht_phase := p |}]> (lr_tasks w)) w.
Definition DISK_ERROR : string := "disk I/O error".
Definition SHUTTING_DOWN : string := "local runtime is shutting down".
Definition STARTUP_RETIRED : string := "local actor startup was retired".

(** Equality of [PathBuf]s, which compares components *)
Class PathEq := { path_eqb : string -> string -> bool }.

Section runtime.
Context `{Json ActorKey, Json HostLease, PathEq}.

(** A query that may fail to read *)
Definition read_row (disk : bool) (token : string) (s : LocalHostStore) : Result (option HostRecord) :=
  if disk then local_get token s else Err DISK_ERROR.

(** [active_lease]; [now] is [SystemClock.now_ms()]. *)
Definition active_lease (record : HostRecord) (owner : Result (option ObjectPlacement)) (now : option Z) : Result (option HostLease) :=
  expected ← with_context (rc_lease record) "local readiness omitted lease";
  placement ← owner;
  Ok (match pl_lease <$> placement with
      | Some lease => if String.eqb (lease_id lease) (lease_id expected)
                         && String.eqb (lease_session_id lease) (lease_session_id expected)
                         && (default U64_MAX now <? expires_at_ms lease)
                      then Some lease else None
      | None => None
      end).
(** [handle] *)
Definition local_handle (lease : HostLease) (region : string) (owner_epoch : Z) : ActorHostHandle :=
  {| hh_lease := Some lease; hh_owner_epoch := owner_epoch; hh_host_id := lease_id lease; hh_route := lease_route lease;
     hh_canonical_region := region; hh_provisioning := None |}.

(** ** Callers *)
(** [ensure_host] before its loop *)
Definition check_request (w : LocalRuntime) (request : EnsureHostRequest) : Result unit :=
  ensure (negb (stop_cancelled w)) SHUTTING_DOWN;;
  ensure (path_eqb (eh_working_directory request) (lr_project w)) "local deployments must use the current project directory";;
  ensure (is_nil (eh_secret_refs request)) "Modal secret references are unavailable in local mode";;
  actor ← with_context (eh_actor request) "local actor identity missing";
  ActorKey_validate actor.

(** [wait_for_host] at its query *)
Definition poll_host (i : nat) (c : caller) (token : string) (disk : bool) (w : LocalRuntime) : LocalRuntime :=
  if stop_cancelled w then to_call i c (CallReturned (Err SHUTTING_DOWN)) w
  else match read_row disk token (lr_store w) with
       | Err e => to_call i c (CallReturned (Err e)) w
       | Ok None => to_call i c (CallReturned (Err STARTUP_RETIRED)) w
       | Ok (Some record) =>
           match rc_status record with
           | Ready => to_call i c (CallLease token record) w
           | Failed => to_call i c (CallReturned (Err (default "local actor startup failed" (rc_error record)))) w
           | Retiring => to_call i c (CallReturned (Err STARTUP_RETIRED)) w
           | Starting => w
           end
       end.
Definition caller_step (w : LocalRuntime) (i : nat) (c : caller) (input : local_input) : LocalRuntime :=
  match input, ca_phase c with
  | CallSpawned _, CallStart =>
      if stop_cancelled w then to_call i c (CallReturned (Err SHUTTING_DOWN)) w else to_call i c CallReserving w
  | CallReserved _ disk new_token, CallReserving =>
      match (if disk then local_reserve (ca_request c) new_token (lr_store w) else Err DISK_ERROR) with
      | Err e => to_call i c (CallReturned (Err e)) w
      | Ok (reservation, store) =>
          let w := set_store store (to_call i c (CallAwaitHost (rv_token reservation)) w) in
          if rv_created reservation
          then set_host_tasks (lr_tasks w ++ [{| ht_request := ca_request c; ht_token := rv_token reservation; ht_phase := Spawning |}]) w
          else w
      end
  | CallPolled _ disk, CallAwaitHost token => poll_host i c token disk w
  | CallOwner _ owner now, CallLease token record =>
      match active_lease record owner now with
      | Err e => to_call i c (CallReturned (Err e)) w
      | Ok (Some lease) => to_call i c (CallReturned (Ok (local_handle lease (rc_region record) (rc_epoch record)))) w
      | Ok None => to_call i c (CallRetiring token) w
      end
  | CallRetired _ disk, CallRetiring token =>
      if (disk : bool) then set_store (local_retire token (lr_store w)) (to_call i c (CallAwaitGone token) w)
      else to_call i c (CallReturned (Err DISK_ERROR)) w
  | CallPolled _ disk, CallAwaitGone token =>
      match read_row disk token (lr_store w) with
      | Err e => to_call i c (CallReturned (Err e)) w
      | Ok (Some record) => if bool_decide (rc_status record = Retiring) then w else to_call i c CallStart w
      | Ok None => to_call i c CallStart w
      end
  | CallStopped _, (CallAwaitHost _ | CallAwaitGone _) =>
      (* [changed] *)
      if stop_cancelled w then to_call i c (CallReturned (Err SHUTTING_DOWN)) w else w
  | _, _ => w
  end%list.

(** ** Terminations: [retire_config] *)
Definition termination_step (w : LocalRuntime) (i : nat) (t : termination) (input : local_input) : LocalRuntime :=
  match input, te_phase t with
  | TermRetired _ disk, TermStart =>
      if (disk : bool) then
        let '(hosts, store) := local_retire_config (te_config t) (lr_store w) in
        set_store store (to_termination i t (TermWaiting hosts hosts) w)
      else to_termination i t (TermReturned (Err DISK_ERROR)) w
  | TermChecked _ disk, TermWaiting hosts remaining =>
      match remaining with
      | [] => to_termination i t (TermReturned (Ok hosts.*2)) w
      | (token, _) :: rest =>
          match read_row disk token (lr_store w) with
          | Err e => to_termination i t (TermReturned (Err e)) w
          | Ok (Some _) => w
          | Ok None => to_termination i t (TermWaiting hosts rest) w
          end
      end
  | _, _ => w
  end.

(** ** The task of a host *)
(** [retired] has something to report: the runtime stops, or the row is gone or
    retiring. *)
Definition is_retired (disk : bool) (token : string) (w : LocalRuntime) : option (Result unit) :=
  if stop_cancelled w then Some (Ok ())
  else match read_row disk token (lr_store w) with
       | Err e => Some (Err e)
       | Ok None => Some (Ok ())
       | Ok (Some record) => if bool_decide (rc_status record = Retiring) then Some (Ok ()) else None
       end.
Definition STOPPED : string := "local actor host stopped".
Definition task_step (w : LocalRuntime) (i : nat) (t : host_task) (input : local_input) : LocalRuntime :=
  match input, ht_phase t with
  | TaskSpawned _ r, Spawning =>
      match r with Ok _ => to_task i t AwaitReady w | Err e => to_task i t (Finishing e) w end
  | TaskRetired _ disk, AwaitReady =>
      match is_retired disk (ht_token t) w with
      | Some (Ok _) => to_task i t (StoppingHost STARTUP_RETIRED) w
      | Some (Err e) => to_task i t (StoppingHost e) w
      | None => w
      end
  | TaskReady _ r, AwaitReady =>
      match r with
      | Ok (lease, epoch) => to_task i t (Publishing lease epoch) w
      | Err e => to_task i t (StoppingHost e) w
      end
  | TaskPublished _ disk, Publishing lease epoch =>
      if (disk : bool) then
        let '(published, store) := local_publish (ht_token t) lease epoch (lr_store w) in
        set_store store (to_task i t (if (published : bool) then Serving else StoppingHost STARTUP_RETIRED) w)
      else to_task i t (StoppingHost DISK_ERROR) w
  | TaskRetired _ disk, Serving =>
      match is_retired disk (ht_token t) w with
      | Some (Ok _) => to_task i t (StoppingHost STOPPED) w
      | Some (Err e) => to_task i t (StoppingHost e) w
      | None => w
      end
  | TaskExited _ status, Serving => to_task i t (StoppingHost ("local actor host exited with " +:+ status)) w
  | TaskStopped _, StoppingHost error => to_task i t (Finishing error) w
  | TaskFinished _ disk, Finishing error =>
      let w := to_task i t Over w in
      if (disk : bool) then set_store (local_finish (ht_token t) error (lr_store w)) w else w
  | _, _ => w
  end.

(** ** Shutdown *)
Definition is_over (t : host_task) : bool := match ht_phase t with Over => true | _ => false end.
Definition is_reserving (c : caller) : bool := match ca_phase c with CallReserving => true | _ => false end.
Definition has_returned (t : termination) : bool := match te_phase t with TermReturned _ => true | _ => false end.
(** [tasks.wait()]: reservations and terminations run in tracked tasks too. *)
Definition all_tasks_done (w : LocalRuntime) : bool :=
  forallb is_over (lr_tasks w) && forallb (fun c => negb (is_reserving c)) (lr_callers w)
  && forallb has_returned (lr_terminations w).

Definition local_step (input : local_input) (w : LocalRuntime) : LocalRuntime :=
  match input with
  | Ensure request =>
      set_callers (lr_callers w ++ [{| ca_request := request;
        ca_phase := match check_request w request with Ok _ => CallStart | Err e => CallReturned (Err e) end |}]) w
  | CallSpawned i | CallReserved i _ _ | CallPolled i _ | CallOwner i _ _ | CallRetired i _ | CallStopped i =>
      match lr_callers w !! i with Some c => caller_step w i c input | None => w end
  | Terminate config => set_terminations (lr_terminations w ++ [{| te_config := config; te_phase := TermStart |}]) w
  | TermRetired i _ | TermChecked i _ =>
      match lr_terminations w !! i with Some t => termination_step w i t input | None => w end
  | TaskSpawned i _ | TaskRetired i _ | TaskReady i _ | TaskPublished i _ | TaskExited i _ | TaskStopped i | TaskFinished i _ =>
      match lr_tasks w !! i with Some t => task_step w i t input | None => w end
  | Cancel => match lr_shutdown w with Running => set_shutdown Cancelled w | _ => w end
  | ShutStore disk =>
      match lr_shutdown w with
      | Cancelled => set_shutdown Draining (if (disk : bool) then set_store (local_shutdown (lr_store w)) w else w)
      | _ => w
      end
  | ShutWaited =>
      match lr_shutdown w with Draining => if all_tasks_done w then set_shutdown Down w else w | _ => w end
  end%list.
Definition local_run (inputs : list local_input) (w : LocalRuntime) : LocalRuntime :=
  foldl (fun w i => local_step i w) w inputs.

(** ** Readers *)
(** [wait_ready] at its query: it returns, or waits for a change *)
Definition poll_ready (host : HostId) (s : LocalHostStore) : option (Result unit) :=
  match local_host host s with
  | Err e => Some (Err e)
  | Ok None => Some (Err "local host missing")
  | Ok (Some record) =>
      match rc_status record with
      | Ready => Some (Ok ())
      | Starting => None
      | _ => Some (Err "local actor is not ready")
      end
  end.
Definition local_socket_credentials (request : SocketCredentialsRequest) (owner : Result (option ObjectPlacement)) (now : option Z)
    (s : LocalHostStore) : Result SocketCredentials :=
  record ← local_host (cr_host_id request) s;
  record ← with_context record "local host missing";
  ensure (bool_decide (rc_status record = Ready)) "local actor is not ready";;
  lease ← active_lease record owner now;
  lease ← with_context lease "socket host lease expired";
  ensure (String.eqb (lease_session_id lease) (cr_session_id request)) "socket host session replaced";;
  Ok {| sc_url := lease_route lease; sc_token := "" |}.
End runtime.

(** * One process per configuration, region and actor *)
Section safety.
Context `{Json ActorKey, Json HostLease, PathEq}.

Definition has_process (t : host_task) : bool :=
  match ht_phase t with AwaitReady | Publishing _ _ | Serving | StoppingHost _ => true | _ => false end.
(** What a task was started for, as the table names it: [UNIQUE (config, region, actor)] *)
Definition task_key (t : host_task) : option (string * string * string) :=
  (fun actor => (eh_host_config_key (ht_request t), eh_canonical_region (ht_request t), to_vec actor)) <$> eh_actor (ht_request t).
Definition active (w : LocalRuntime) (i : nat) (t : host_task) : Prop := lr_tasks w !! i = Some t /\ is_over t = false.
(** The row of a task *)
Definition backs (r : host_row) (t : host_task) : Prop :=
  hr_token r = ht_token t /\ task_key t = Some (row_key r) /\ hr_status r <> Failed.

Definition rows_ok (hosts : list host_row) : Prop := NoDup (hr_token <$> hosts) /\ NoDup (row_key <$> hosts).
Definition termination_ok (w : LocalRuntime) (t : termination) : Prop :=
  match te_phase t with
  | TermWaiting _ remaining => lh_deployments (lr_store w) !! te_config t = Some true /\
      forall i u, active w i u -> eh_host_config_key (ht_request u) = te_config t -> ht_token u ∈ remaining.*1
  | TermReturned (Ok _) => lh_deployments (lr_store w) !! te_config t = Some true /\
      forall i u, active w i u -> eh_host_config_key (ht_request u) <> te_config t
  | _ => True
  end.
Record local_ok (w : LocalRuntime) : Prop := {
  lo_rows : rows_ok (lh_hosts (lr_store w));
  lo_backed : forall i t, active w i t -> exists r, r ∈ lh_hosts (lr_store w) /\ backs r t;
  lo_tokens : forall i j t u, active w i t -> active w j u -> ht_token t = ht_token u -> i = j;
  lo_terminations : forall k t, lr_terminations w !! k = Some t -> termination_ok w t;
  lo_down : lr_shutdown w = Down -> (forall i t, ~ active w i t) /\ (forall k c, lr_callers w !! k = Some c -> is_reserving c = false) }.

(** ** Statements *)
Lemma rows_ok_token hosts a b : rows_ok hosts -> a ∈ hosts -> b ∈ hosts -> hr_token a = hr_token b -> a = b.
Proof.
  intros [Ht _] (i & Hi)%list_elem_of_lookup (j & Hj)%list_elem_of_lookup E.
  assert (i = j) as ->; [|congruence].
  eapply NoDup_lookup; [exact Ht|by rewrite list_lookup_fmap, Hi|by rewrite list_lookup_fmap, Hj, E].
Qed.
Lemma rows_ok_key hosts a b : rows_ok hosts -> a ∈ hosts -> b ∈ hosts -> row_key a = row_key b -> a = b.
Proof.
  intros [_ Hk] (i & Hi)%list_elem_of_lookup (j & Hj)%list_elem_of_lookup E.
  assert (i = j) as ->; [|congruence].
  eapply NoDup_lookup; [exact Hk|by rewrite list_lookup_fmap, Hi|by rewrite list_lookup_fmap, Hj, E].
Qed.
(** An update that keeps the identity of rows, and a deletion *)
Lemma rows_ok_update p f hosts : (forall r, hr_token (f r) = hr_token r /\ row_key (f r) = row_key r) ->
  rows_ok hosts -> rows_ok (update_hosts p f hosts).
Proof.
  intros Hf [Ht Hk]. unfold rows_ok, update_hosts. rewrite <- !list_fmap_compose.
  assert (E1 : (hr_token ∘ (fun r => if p r then f r else r)) <$> hosts = hr_token <$> hosts).
  { apply list_fmap_ext. intros i r _. cbn. destruct (p r); [apply Hf|done]. }
  assert (E2 : (row_key ∘ (fun r => if p r then f r else r)) <$> hosts = row_key <$> hosts).
  { apply list_fmap_ext. intros i r _. cbn. destruct (p r); [apply Hf|done]. }
  by rewrite E1, E2.
Qed.
Lemma rows_ok_delete p hosts : rows_ok hosts -> rows_ok (delete_hosts p hosts).
Proof.
  intros [Ht Hk]. unfold rows_ok, delete_hosts. split.
  - eapply sublist_NoDup; [exact Ht|]. apply fmap_sublist, sublist_filter.
  - eapply sublist_NoDup; [exact Hk|]. apply fmap_sublist, sublist_filter.
Qed.

(** The rows of the tasks that satisfy [P] survive. *)
Definition keeps (P : string -> Prop) (hosts hosts' : list host_row) : Prop :=
  forall r, r ∈ hosts -> hr_status r <> Failed -> P (hr_token r) ->
  exists r', r' ∈ hosts' /\ hr_token r' = hr_token r /\ row_key r' = row_key r /\ hr_status r' <> Failed.
Lemma keeps_trans P a b c : keeps P a b -> keeps P b c -> keeps P a c.
Proof.
  intros Hab Hbc r Hr Hf HP. destruct (Hab r Hr Hf HP) as (r1 & H1r & E1 & K1 & F1).
  destruct (Hbc r1 H1r F1) as (r2 & H2r & E2 & K2 & F2); [by rewrite E1|]. exists r2. split; [done|]. split; [congruence|].
  split; [congruence|done].
Qed.
Lemma keeps_update P p f hosts : (forall r, hr_token (f r) = hr_token r /\ row_key (f r) = row_key r) ->
  (forall r, r ∈ hosts -> p r = true -> P (hr_token r) -> hr_status (f r) <> Failed) -> keeps P hosts (update_hosts p f hosts).
Proof.
  intros Hf Hs r Hr Hst HP. exists (if p r then f r else r). split.
  { unfold update_hosts. by apply (list_elem_of_fmap_2 (fun r => if p r then f r else r)). }
  destruct (p r) eqn:E; [|done]. destruct (Hf r). split; [done|]. split; [done|]. by apply Hs.
Qed.
Lemma keeps_delete P p hosts : (forall r, r ∈ hosts -> p r = true -> hr_status r <> Failed -> ~ P (hr_token r)) ->
  keeps P hosts (delete_hosts p hosts).
Proof.
  intros Hp r Hr Hst HP. exists r. split; [|done]. apply list_elem_of_filter. split; [|done].
  destruct (p r) eqn:E; [|done]. by destruct (Hp r Hr E Hst).
Qed.
Lemma not_failed r : has_status Failed r = true -> hr_status r = Failed.
Proof. apply bool_decide_eq_true_1. Qed.

Lemma retiring_same r : hr_token (retiring r) = hr_token r /\ row_key (retiring r) = row_key r.
Proof. done. Qed.
Lemma publish_rows token lease epoch s : rows_ok (lh_hosts s) ->
  rows_ok (lh_hosts (local_publish token lease epoch s).2) /\ keeps (fun _ => True) (lh_hosts s) (lh_hosts (local_publish token lease epoch s).2).
Proof. intros Hok. split; [by apply rows_ok_update|by apply keeps_update]. Qed.
Lemma retire_rows token s : rows_ok (lh_hosts s) ->
  rows_ok (lh_hosts (local_retire token s)) /\ keeps (fun _ => True) (lh_hosts s) (lh_hosts (local_retire token s)).
Proof. intros Hok. split; [by apply rows_ok_update|by apply keeps_update]. Qed.
Lemma finish_rows token error s : rows_ok (lh_hosts s) ->
  rows_ok (lh_hosts (local_finish token error s)) /\ keeps (fun t => t <> token) (lh_hosts s) (lh_hosts (local_finish token error s)).
Proof.
  intros Hok. split; [by apply rows_ok_update, rows_ok_delete|]. eapply keeps_trans.
  - apply keeps_delete. intros r _ [E _]%andb_true_iff _ Hne. by apply String.eqb_eq in E.
  - apply keeps_update; [done|]. intros r _ E Hne. by apply String.eqb_eq in E.
Qed.
Lemma retire_config_rows config s : rows_ok (lh_hosts s) ->
  rows_ok (lh_hosts (local_retire_config config s).2) /\
  keeps (fun _ => True) (lh_hosts s) (lh_hosts (local_retire_config config s).2) /\
  (forall r, r ∈ lh_hosts s -> hr_status r <> Failed -> hr_config r = config -> hr_token r ∈ (local_retire_config config s).1.*1).
Proof.
  intros Hok. split; [by apply rows_ok_update, rows_ok_delete|]. split.
  - eapply keeps_trans; [|by apply keeps_update]. apply keeps_delete. intros r _ [_ E%not_failed]%andb_true_iff Hne. done.
  - intros r Hr Hf <-. cbn. apply list_elem_of_fmap. exists (hr_token r, hr_host_id r). split; [done|].
    apply list_elem_of_fmap. exists r. split; [done|]. apply list_elem_of_filter. rewrite String.eqb_refl. split; [done|].
    apply list_elem_of_filter. split; [|done]. rewrite String.eqb_refl. cbn. by apply bool_decide_eq_false_2.
Qed.
Lemma shutdown_rows s : rows_ok (lh_hosts s) ->
  rows_ok (lh_hosts (local_shutdown s)) /\ keeps (fun _ => True) (lh_hosts s) (lh_hosts (local_shutdown s)).
Proof.
  intros Hok. split; [by apply rows_ok_update, rows_ok_delete|]. eapply keeps_trans; [|by apply keeps_update].
  apply keeps_delete. intros r _ E%not_failed Hne. done.
Qed.
(** A reservation keeps the rows of tasks; a new one has a row, a token and a key that
    no other row has, and is for a configuration that is not being retired. *)
Lemma reserve_rows request token s reservation s' : rows_ok (lh_hosts s) -> local_reserve request token s = Ok (reservation, s') ->
  rows_ok (lh_hosts s') /\ keeps (fun _ => True) (lh_hosts s) (lh_hosts s') /\
  (forall c, lh_deployments s !! c = Some true -> lh_deployments s' !! c = Some true) /\
  (rv_created reservation = true -> lh_deployments s' !! eh_host_config_key request <> Some true /\
     (forall r, r ∈ lh_hosts s -> hr_status r <> Failed -> hr_token r <> rv_token reservation) /\
     exists r, r ∈ lh_hosts s' /\ backs r {| ht_request := request; ht_token := rv_token reservation; ht_phase := Spawning |}).
Proof.
  intros Hok E. unfold local_reserve in E. apply bind_ok in E as (actor & Ha & E). apply bind_ok in E as ([] & _ & E).
  apply bind_ok in E as ([] & Hd & E). set (deployments := match lh_deployments s !! _ with Some _ => _ | None => _ end) in *.
  set (key := (eh_host_config_key request, eh_canonical_region request, actor)) in *.
  set (hosts := delete_hosts _ (lh_hosts s)) in *.
  assert (Hrows : rows_ok hosts) by by apply rows_ok_delete.
  assert (Hkeep : keeps (fun _ => True) (lh_hosts s) hosts).
  { apply keeps_delete. intros r _ [_ Ef%not_failed]%andb_true_iff Hne. done. }
  assert (Hdep : forall c, lh_deployments s !! c = Some true -> deployments !! c = Some true).
  { intros c Hc. unfold deployments. destruct (lh_deployments s !! eh_host_config_key request) eqn:E'; [done|].
    rewrite lookup_insert_ne; [done|]. congruence. }
  destruct (List.find _ hosts) as [r|] eqn:Ef.
  { injection E as <- <-. by split. }
  apply bind_ok in E as ([] & Hu & [= <- <-]). pose proof (find_none _ _ Ef) as Hnone. apply ensure_ok in Hu. rewrite forallb_forall in Hu.
  assert (Hnew : forall r, r ∈ hosts -> hr_token r <> token /\ row_key r <> key).
  { intros r Hr. split.
    - apply list_elem_of_In in Hr. specialize (Hu r Hr). intros Et. by rewrite Et, String.eqb_refl in Hu.
    - intros Ek. apply list_elem_of_In in Hr. specialize (Hnone r Hr). by apply bool_decide_eq_false in Hnone. }
  split; [|split; [|split]].
  - destruct Hrows as [Ht Hk]. split; cbn; rewrite fmap_app; apply NoDup_app; (split; [done|]; split; [|apply NoDup_singleton]);
      intros x (r & -> & Hr)%list_elem_of_fmap ?%list_elem_of_singleton; by destruct (Hnew r Hr).
  - eapply keeps_trans; [exact Hkeep|]. intros r Hr Hf _. exists r. split; [|done]. apply elem_of_app. by left.
  - done.
  - intros _. split; [|split].
    + apply ensure_ok in Hd. cbn. intros Hc. by rewrite Hc in Hd.
    + intros r Hr Hf. destruct (Hkeep r Hr Hf I) as (r' & Hr' & <- & _). by apply Hnew.
    + eexists. split; [apply elem_of_app; right; by apply list_elem_of_singleton|]. split; [done|]. split; [|done].
      unfold task_key. cbn. destruct (eh_actor request); [|done]. cbn in *. by injection Ha as <-.
Qed.

(** ** Steps *)
(** The tasks of [w'] are tasks of [w], and the store keeps what they need. *)
Record calmer (w w' : LocalRuntime) : Prop := {
  cm_tasks : forall i t', active w' i t' -> exists t, active w i t /\ ht_token t = ht_token t' /\ ht_request t = ht_request t';
  cm_rows : rows_ok (lh_hosts (lr_store w'));
  cm_keeps : keeps (fun token => exists i t, active w' i t /\ ht_token t = token) (lh_hosts (lr_store w)) (lh_hosts (lr_store w'));
  cm_deployments : forall c, lh_deployments (lr_store w) !! c = Some true -> lh_deployments (lr_store w') !! c = Some true }.
Lemma calmer_termination w w' t : calmer w w' -> termination_ok w t -> termination_ok w' t.
Proof.
  intros [Ht _ _ Hd]. unfold termination_ok. destruct (te_phase t) as [|hosts remaining|[ids|e]]; [done| | |done];
    intros [Hc Ha]; (split; [by apply Hd|]); intros i u Hu; destruct (Ht i u Hu) as (u0 & Hu0 & Etok & Ereq); rewrite <- ?Etok, <- Ereq; by eapply Ha.
Qed.
Lemma calmer_ok w w' : local_ok w -> calmer w w' -> lr_terminations w' = lr_terminations w ->
  (lr_shutdown w' = Down -> (forall i t, ~ active w' i t) /\ (forall k c, lr_callers w' !! k = Some c -> is_reserving c = false)) ->
  local_ok w'.
Proof.
  intros [Hr Hb Htok Hterm Hdown] Hc Et Hd. constructor.
  - apply Hc.
  - intros i t Hi. destruct (cm_tasks _ _ Hc i t Hi) as (t' & Hi' & Etok & Ereq).
    destruct (Hb i t' Hi') as (r & Hin & E & K & F). destruct (cm_keeps _ _ Hc r Hin F) as (r' & Hin' & E' & K' & F').
    { exists i, t. split; [done|congruence]. }
    exists r'. split; [done|]. split; [congruence|]. split; [|done]. rewrite K', <- K. unfold task_key. by rewrite Ereq.
  - intros i j t u Hi Hj E. destruct (cm_tasks _ _ Hc i t Hi) as (t' & Hi' & Et' & _).
    destruct (cm_tasks _ _ Hc j u Hj) as (u' & Hj' & Eu' & _). apply (Htok i j t' u'); [done|done|congruence].
  - intros k t Hk. rewrite Et in Hk. apply (calmer_termination w); [done|]. by eapply Hterm.
  - exact Hd.
Qed.

Lemma keeps_refl P hosts : keeps P hosts hosts.
Proof. intros r Hr Hf _. by exists r. Qed.
Lemma keeps_weaken P Q hosts hosts' : (forall t, Q t -> P t) -> keeps P hosts hosts' -> keeps Q hosts hosts'.
Proof. intros HPQ Hk r Hr Hf HQ. apply Hk; auto. Qed.
(** Only the store changes, or nothing but callers *)
Lemma calmer_store w w' : lr_tasks w' = lr_tasks w -> rows_ok (lh_hosts (lr_store w')) ->
  keeps (fun _ => True) (lh_hosts (lr_store w)) (lh_hosts (lr_store w')) ->
  (forall c, lh_deployments (lr_store w) !! c = Some true -> lh_deployments (lr_store w') !! c = Some true) -> calmer w w'.
Proof.
  intros Et Hr Hk Hd. constructor; [|done|by eapply keeps_weaken; [|exact Hk]|done]. intros i t [Hi Ho]. rewrite Et in Hi. by exists t.
Qed.
Lemma calmer_same w w' : local_ok w -> lr_tasks w' = lr_tasks w -> lr_store w' = lr_store w -> calmer w w'.
Proof. intros Hok Et Es. apply calmer_store; rewrite ?Es; [done|apply Hok|apply keeps_refl|done]. Qed.

Lemma active_same w w' i t : lr_tasks w' = lr_tasks w -> active w' i t -> active w i t.
Proof. unfold active. by intros ->. Qed.
(** A caller that is not reserving afterwards *)
Lemma to_call_ok w i c p : local_ok w -> (stop_cancelled w = true -> is_reserving {| ca_request := ca_request c; ca_phase := p |} = false) ->
  local_ok (to_call i c p w).
Proof.
  intros Hok Hp. apply (calmer_ok w); [done|by apply calmer_same|done|]. intros Hd. destruct (lo_down _ Hok Hd) as [Ht Hc].
  split; [intros k t [Hk Ho]; by apply (Ht k t)|]. intros k c' Hk. cbn in Hk.
  apply list_lookup_insert_Some in Hk as [(_ & <- & _)|[_ Hk]]; [|by eapply Hc]. apply Hp. unfold stop_cancelled. cbn in Hd. by rewrite Hd.
Qed.
Lemma set_store_ok w s : local_ok w -> rows_ok (lh_hosts s) -> keeps (fun _ => True) (lh_hosts (lr_store w)) (lh_hosts s) ->
  (forall c, lh_deployments (lr_store w) !! c = Some true -> lh_deployments s !! c = Some true) -> local_ok (set_store s w).
Proof.
  intros Hok Hr Hk Hd. apply (calmer_ok w); [done|by apply calmer_store|done|]. apply Hok.
Qed.
(** A task goes on, or is over *)
Lemma calmer_task w s i t p : local_ok w -> active w i t -> rows_ok (lh_hosts s) ->
  keeps (fun token => token <> ht_token t \/ p <> Over) (lh_hosts (lr_store w)) (lh_hosts s) ->
  (forall c, lh_deployments (lr_store w) !! c = Some true -> lh_deployments s !! c = Some true) ->
  calmer w (set_store s (to_task i t p w)).
Proof.
  intros Hok [Hi Ho] Hr Hk Hd.
  assert (Htasks : forall j u, active (set_store s (to_task i t p w)) j u ->
    (j = i /\ u = {| ht_request := ht_request t; ht_token := ht_token t; ht_phase := p |} /\ p <> Over) \/ (j <> i /\ active w j u)).
  { intros j u [Hj Hu]. cbn in Hj. apply list_lookup_insert_Some in Hj as [(<- & <- & _)|[Hne Hj]]; [left|by right].
    split; [done|]. split; [done|]. intros ->. done. }
  constructor; [|done| |done].
  - intros j u [(-> & -> & _)|[_ Hj]]%Htasks; [by exists t|by exists u].
  - eapply keeps_weaken; [|exact Hk]. intros token (j & u & [(-> & -> & Hp)|[Hne Hj]]%Htasks & <-); [by right|left].
    intros E. apply Hne. by apply (lo_tokens _ Hok j i u t).
Qed.
Lemma to_task_ok w s i t p : local_ok w -> active w i t -> rows_ok (lh_hosts s) ->
  keeps (fun token => token <> ht_token t \/ p <> Over) (lh_hosts (lr_store w)) (lh_hosts s) ->
  (forall c, lh_deployments (lr_store w) !! c = Some true -> lh_deployments s !! c = Some true) ->
  local_ok (set_store s (to_task i t p w)).
Proof.
  intros Hok Ha Hr Hk Hd. apply (calmer_ok w); [done|by apply calmer_task|done|]. intros Hdown.
  destruct (lo_down _ Hok Hdown) as [Ht _]. by destruct (Ht i t).
Qed.
Lemma to_task_only w i t p : local_ok w -> active w i t -> local_ok (to_task i t p w).
Proof. intros Hok Ha. apply (to_task_ok w (lr_store w)); [done|done|apply Hok|apply keeps_refl|done]. Qed.

Lemma task_step_ok w i t input : local_ok w -> lr_tasks w !! i = Some t -> local_ok (task_step w i t input).
Proof.
  intros Hok Hi. destruct (is_over t) eqn:Ho.
  { unfold task_step. unfold is_over in Ho. destruct (ht_phase t); try done. by destruct input. }
  assert (Ha : active w i t) by done. unfold task_step.
  destruct input; try done; destruct (ht_phase t) as [| |lease epoch| |error|error|]; try done; repeat case_match; simplify_eq;
    try done; try by apply to_task_only.
  all: try (match goal with Hp : local_publish ?k ?l ?e ?s = (_, ?x) |- _ =>
    destruct (publish_rows k l e s (lo_rows _ Hok)) as [Hr Hk]; rewrite Hp in Hr, Hk;
    assert (lh_deployments x = lh_deployments (lr_store w)) as Ed by (unfold local_publish in Hp; by injection Hp as _ <-);
    apply to_task_ok; [done|done|done|by eapply keeps_weaken; [|exact Hk]|by rewrite Ed] end).
  destruct (finish_rows (ht_token t) error (lr_store w) (lo_rows _ Hok)) as [Hr Hk].
  apply to_task_ok; [done|done|done| |done]. eapply keeps_weaken; [|exact Hk]. by intros token [?|?].
Qed.

Lemma add_task_ok w t r : local_ok w -> lr_shutdown w <> Down -> r ∈ lh_hosts (lr_store w) -> backs r t ->
  (forall i u, active w i u -> ht_token u <> ht_token t) ->
  lh_deployments (lr_store w) !! eh_host_config_key (ht_request t) <> Some true ->
  local_ok (set_host_tasks (lr_tasks w ++ [t])%list w).
Proof.
  intros [Hr Hb Htok Hterm Hdown] Hs Hin Hbk Hnew Hc.
  assert (Htasks : forall j u, active (set_host_tasks (lr_tasks w ++ [t])%list w) j u ->
    active w j u \/ j = length (lr_tasks w) /\ u = t).
  { intros j u [Hj Hu]. cbn in Hj. apply lookup_snoc_Some in Hj as [[_ Hj]|[-> <-]]; [by left|by right]. }
  constructor; [done| | | |done].
  - intros j u [Hj|[_ ->]]%Htasks; [by eapply Hb|by exists r].
  - intros j k u v [Hj|[-> ->]]%Htasks [Hk|[-> ->]]%Htasks E; [by eapply Htok| | |done].
    + by destruct (Hnew j u Hj).
    + by destruct (Hnew k v Hk).
  - intros k te Hk. specialize (Hterm k te Hk). unfold termination_ok in *. destruct (te_phase te) as [|hosts remaining|[ids|e]]; try done;
      destruct Hterm as [Hd Ha]; (split; [done|]); (intros j u [Hj|[_ ->]]%Htasks; [by eapply Ha|cbn in *; congruence]).
Qed.
Lemma reserved_ok w i c disk token : local_ok w -> lr_callers w !! i = Some c -> ca_phase c = CallReserving ->
  local_ok (caller_step w i c (CallReserved i disk token)).
Proof.
  intros Hok Hi Ep. unfold caller_step. rewrite Ep.
  destruct (if disk then _ else _) as [[reservation s']|e] eqn:E; [|by apply to_call_ok].
  destruct disk; [|done]. destruct (reserve_rows _ _ _ _ _ (lo_rows _ Hok) E) as (Hr & Hk & Hd & Hnew).
  assert (Hok' : local_ok (set_store s' (to_call i c (CallAwaitHost (rv_token reservation)) w))).
  { apply set_store_ok; [by apply to_call_ok|done|done|done]. }
  destruct (rv_created reservation) eqn:Ec; [|done]. destruct (Hnew eq_refl) as (Hc & Hfresh & r & Hin & Hbk).
  apply (add_task_ok _ _ r); try done.
  - intros Hdown. destruct (lo_down _ Hok Hdown) as [_ Hcall]. specialize (Hcall i c Hi). unfold is_reserving in Hcall.
    by rewrite Ep in Hcall.
  - intros j u Hj. assert (Hj' : active w j u) by done. destruct (lo_backed _ Hok j u Hj') as (r' & Hr' & <- & _ & Hf). by apply Hfresh.
Qed.
Lemma caller_step_ok w i c input : local_ok w -> lr_callers w !! i = Some c ->
  match input with CallReserved j _ _ => j = i | _ => True end -> local_ok (caller_step w i c input).
Proof.
  intros Hok Hi Hj. destruct input; try done; try subst i0;
    destruct (ca_phase c) eqn:Ep; try (by apply reserved_ok); unfold caller_step, poll_host; rewrite Ep; try done;
    repeat case_match; try done; try (apply to_call_ok; [done|cbn; congruence]).
  apply set_store_ok; [by apply to_call_ok| | |done]; by apply retire_rows, Hok.
Qed.

Lemma to_termination_ok w i t p : local_ok w -> termination_ok w {| te_config := te_config t; te_phase := p |} ->
  local_ok (to_termination i t p w).
Proof.
  intros [Hr Hb Htok Hterm Hdown] Ht. constructor; try done. intros k t' Hk. cbn in Hk.
  apply list_lookup_insert_Some in Hk as [(_ & <- & _)|[_ Hk]]; [done|by apply (Hterm k)].
Qed.
Lemma row_missing disk token s : read_row disk token s = Ok None -> forall r, r ∈ lh_hosts s -> hr_token r <> token.
Proof.
  unfold read_row, local_get, local_lookup. destruct disk; [|done]. destruct (List.find _ _) eqn:E; [intros E'; by res_inv|].
  intros _ r Hr Et. apply list_elem_of_In in Hr. pose proof (find_none _ _ E r Hr) as Hn. cbn in Hn. by rewrite Et, String.eqb_refl in Hn.
Qed.
Lemma termination_step_ok w i t input : local_ok w -> lr_terminations w !! i = Some t -> local_ok (termination_step w i t input).
Proof.
  intros Hok Hi. pose proof (lo_terminations _ Hok i t Hi) as Ht. unfold termination_step, termination_ok in *.
  destruct input as [| | | | | | | |j disk|j disk| | | | | | | | | | ]; try done;
    destruct (te_phase t) as [|hosts remaining|r] eqn:Ep; try done.
  - destruct disk; [|by apply to_termination_ok].
    destruct (retire_config_rows (te_config t) (lr_store w) (lo_rows _ Hok)) as (Hr & Hk & Hin).
    destruct (local_retire_config (te_config t) (lr_store w)) as [hosts s] eqn:E. cbn in *.
    assert (Ed : lh_deployments s = <[te_config t := true]> (lh_deployments (lr_store w))) by by injection E as _ <-.
    apply (to_termination_ok (set_store s w)).
    { apply set_store_ok; try done. rewrite Ed. intros c Hc. destruct (decide (te_config t = c)) as [->|];
        [by rewrite lookup_insert_eq|by rewrite lookup_insert_ne]. }
    split; [cbn; by rewrite Ed, lookup_insert_eq|]. intros k u Hu Ec. destruct (lo_backed _ Hok k u Hu) as (r & Hrow & <- & Ekey & Hf).
    apply Hin; [done|done|]. unfold task_key in Ekey. destruct (eh_actor (ht_request u)); [|done]. cbn in *. unfold row_key in Ekey.
    congruence.
  - destruct Ht as [Hd Ha]. destruct remaining as [|[token id] rest].
    { apply to_termination_ok; [done|]. split; [done|]. intros k u Hu Ec. by apply (Ha k u Hu), elem_of_nil in Ec. }
    destruct (read_row disk token (lr_store w)) as [[record|]|e] eqn:E; [done| |by apply to_termination_ok].
    apply to_termination_ok; [done|]. split; [done|]. intros k u Hu Ec. specialize (Ha k u Hu Ec).
    apply elem_of_cons in Ha as [Etok|Hrest]; [|done]. destruct (lo_backed _ Hok k u Hu) as (r & Hrow & Er & _).
    destruct (row_missing _ _ _ E r Hrow). cbn in Etok. congruence.
Qed.

Lemma local_step_ok input w : local_ok w -> local_ok (local_step input w).
Proof.
  intros Hok. destruct input; cbn [local_step];
    try (destruct (lr_callers w !! i) eqn:E; [by apply caller_step_ok|done]);
    try (destruct (lr_terminations w !! i) eqn:E; [by apply termination_step_ok|done]);
    try (destruct (lr_tasks w !! i) eqn:E; [by apply task_step_ok|done]).
  - apply (calmer_ok w); [done|by apply calmer_same|done|]. intros Hd. destruct (lo_down _ Hok Hd) as [Ht Hc]. split; [done|].
    intros k c Hk. cbn in Hk. apply lookup_snoc_Some in Hk as [[_ Hk]|[_ <-]]; [by eapply Hc|]. unfold is_reserving. cbn.
    by destruct (check_request w request).
  - destruct Hok as [Hr Hb Htok Hterm Hdown]. constructor; try done. intros k t Hk. cbn in Hk.
    apply lookup_snoc_Some in Hk as [[_ Hk]|[_ <-]]; [by apply (Hterm k)|done].
  - destruct (lr_shutdown w); try done. apply (calmer_ok w); [done|by apply calmer_same|done|done].
  - destruct (lr_shutdown w); try done. destruct disk; [|by apply (calmer_ok w); [|apply calmer_same| |]].
    destruct (shutdown_rows (lr_store w) (lo_rows _ Hok)) as [Hr Hk]. apply (calmer_ok w); [done|by apply calmer_store|done|done].
  - destruct (lr_shutdown w); try done. destruct (all_tasks_done w) eqn:E; [|done].
    unfold all_tasks_done in E. apply andb_true_iff in E as [[Ht Hc]%andb_true_iff _]. rewrite forallb_forall in Ht, Hc.
    apply (calmer_ok w); [done|by apply calmer_same|done|]. intros _. split.
    + intros k t [Hk Ho]. apply list_elem_of_lookup_2, list_elem_of_In, Ht in Hk. by rewrite Hk in Ho.
    + intros k c Hk. apply list_elem_of_lookup_2, list_elem_of_In, Hc in Hk. by apply negb_true_iff in Hk.
Qed.
Lemma local_run_ok inputs w : local_ok w -> local_ok (local_run inputs w).
Proof. revert w. induction inputs as [|i inputs IH]; intros w Hw; [done|]. by apply IH, local_step_ok. Qed.
Lemma LocalRuntime_new_ok project : local_ok (LocalRuntime_new project).
Proof.
  constructor; try done.
  - split; constructor.
  - by intros i t [Hi _].
  - by intros i j t u [Hi _].
Qed.

(** C39: in local mode an actor has at most one process per configuration and region.
    However callers, terminations, the shutdown and the tasks of hosts interleave, and
    whichever statements fail: two tasks that may have a process run for different
    configurations, regions or actors (an actor that is asked for under two configurations
    or in two regions may have two); once the termination of a configuration has
    returned its hosts, no process of it runs, and once the shutdown has returned, none
    at all. *)
Theorem one_process_per_local_key project inputs w : w = local_run inputs (LocalRuntime_new project) ->
  (forall i j t u, lr_tasks w !! i = Some t -> lr_tasks w !! j = Some u -> has_process t = true -> has_process u = true ->
     task_key t = task_key u -> i = j) /\
  (forall k te ids, lr_terminations w !! k = Some te -> te_phase te = TermReturned (Ok ids) ->
     forall i t, lr_tasks w !! i = Some t -> has_process t = true -> eh_host_config_key (ht_request t) <> te_config te) /\
  (lr_shutdown w = Down -> forall i t, lr_tasks w !! i = Some t -> has_process t = false).
Proof.
  intros ->. pose proof (local_run_ok inputs _ (LocalRuntime_new_ok project)) as Hok. set (w := local_run _ _) in *.
  assert (Hact : forall i t, lr_tasks w !! i = Some t -> has_process t = true -> active w i t).
  { intros i t Hi Hp. split; [done|]. unfold has_process in Hp. unfold is_over. by destruct (ht_phase t). }
  split; [|split].
  - intros i j t u Hi Hj Hpt Hpu Ek. apply (Hact i t) in Hpt; [|done]. apply (Hact j u) in Hpu; [|done].
    destruct (lo_backed _ Hok i t Hpt) as (r & Hr & Er & Kr & _). destruct (lo_backed _ Hok j u Hpu) as (r' & Hr' & Er' & Kr' & _).
    assert (r = r') as <- by (apply (rows_ok_key _ _ _ (lo_rows _ Hok)); congruence).
    apply (lo_tokens _ Hok i j t u); congruence.
  - intros k te ids Hk Ep i t Hi Hp. pose proof (lo_terminations _ Hok k te Hk) as Ht. unfold termination_ok in Ht. rewrite Ep in Ht.
    eapply Ht. by apply Hact.
  - intros Hd i t Hi. destruct (has_process t) eqn:Hp; [|done]. destruct (lo_down _ Hok Hd) as [Hn _].
    by destruct (Hn i t (Hact i t Hi Hp)).
Qed.
End safety.

(** * A run *)
From S2P Require Import Samples.
#[local] Instance run_actor_json : Json ActorKey := {| to_vec a := actor_id a; from_slice _ := Ok sample_actor |}.
#[local] Instance run_lease_json : Json HostLease :=
  {| to_vec l := lease_id l;
     from_slice s := Ok {| lease_id := s; lease_session_id := "session"; lease_route := "http://h"; expires_at_ms := 9 |} |}.
#[local] Instance run_paths : PathEq := {| path_eqb := String.eqb |}.
Abbreviation run_request host := {| eh_actor_is_new := true; eh_actor := Some sample_actor; eh_code_snapshot := None; eh_spare := None;
  eh_resources := {| cpu_millis := 1; memory_mib := 1 |}; eh_runtime_config := None; eh_host_config_key := "config";
  eh_canonical_region := "europe-west"; eh_host_id := host; eh_session_id := "session"; eh_host_token := ""; eh_image_ref := "local";
  eh_working_directory := "/project"; eh_actor_entrypoint := None; eh_secret_refs := [] |}.
Abbreviation run_lease := {| lease_id := "h1"; lease_session_id := "session"; lease_route := "http://h"; expires_at_ms := 9 |}.
(** Two callers for one actor share its process; a termination waits for it. *)
Abbreviation local_inputs :=
  [Ensure (run_request "h1"); Ensure (run_request "h2"); CallSpawned 0; CallSpawned 1; CallReserved 0 true "t1"; CallReserved 1 true "t2";
   TaskSpawned 0 (Ok ()); TaskReady 0 (Ok (run_lease, 1)); TaskPublished 0 true; CallPolled 1 true; Terminate "config";
   TermRetired 0 true; TermChecked 0 true; TaskRetired 0 true; TaskStopped 0].
Lemma one_process_per_local_key_witness :
  let w := local_run (local_inputs ++ [TaskFinished 0 true; TermChecked 0 true; TermChecked 0 true])%list (LocalRuntime_new "/project") in
  te_phase <$> lr_terminations w = [TermReturned (Ok ["h1"])] /\ length (lr_tasks w) = 1%nat /\
  forall i t, lr_tasks w !! i = Some t -> has_process t = true -> eh_host_config_key (ht_request t) <> "config".
Proof.
  intros w. assert (Hte : lr_terminations w = [{| te_config := "config"; te_phase := TermReturned (Ok ["h1"]) |}])
    by (vm_compute; reflexivity).
  split; [by rewrite Hte|]. split; [vm_compute; reflexivity|].
  destruct (one_process_per_local_key "/project" _ w eq_refl) as (_ & Ht & _).
  exact (Ht 0%nat {| te_config := "config"; te_phase := TermReturned (Ok ["h1"]) |} ["h1"] ltac:(by rewrite Hte) eq_refl).
Defined.
(** The process is still there when the termination looks for the first time. *)
Lemma termination_waits :
  let w := local_run local_inputs (LocalRuntime_new "/project") in
  (length (lr_tasks w), te_phase <$> lr_terminations w) = (1%nat, [TermWaiting [("t1", "h1")] [("t1", "h1")]]).
Proof. vm_compute. reflexivity. Qed.
