(* ===== verification/ControlPlaneProcess.v ===== *)
(** The process of the control plane ([control_plane/process.rs]): its configuration
    from the environment, the parts that it starts with ([issuer.rs], [admin.rs],
    [sandbox.rs]) and the delivery of socket messages ([event_sink.rs]).

    Shows that an accepted configuration suits the parts that take it, and that the
    control plane and its hosts accept the tokens that it issues. *)

From S2P Require Import Prelude.
From S2P Require Import Calls.
From S2P Require Import Actors.
From S2P Require Import StoragePaths.
From S2P Require Import Snapshots.
From S2P Require Import ReplicaServer.
From S2P Require Import Deployments.
From S2P Require Import SparePool.
From S2P Require Import Tokens.
From S2P Require Import HostProcess.
Local Open Scope string_scope.
Local Open Scope Z_scope.

(** * Configuration *)
Definition DEFAULT_JWT_ISSUER : string := "durable-actors-control-plane".
Definition DEFAULT_AUTHORITY_AUDIENCE : string := "durable-actors-authority".
Definition DEFAULT_INVOCATION_AUDIENCE : string := "durable-actors-invoke".
Definition DEFAULT_JWT_TTL_SECONDS : Z := 86400.

Record HostSandboxRuntimeConfig := {
  hr_control_plane_url : string;
  hr_jwt_issuer : string;
  hr_invocation_jwt_audience : string;
  hr_host_idle_timeout_ms : Z }.
Record SandboxProviderConfig := {
  sp_runtime_image : string;
  sp_pool : PoolConfig;
  sp_provider_name : string;
  sp_command : string;
  sp_environment : gmap string string;
  sp_runtime : HostSandboxRuntimeConfig }.
(** [sg_trace_retention] in seconds *)
Record ControlPlaneStorageConfig := {
  cs_postgres_url : string;
  cs_trace_retention : Z;
  cs_bucket : string;
  cs_replica_regions : list string }.
(** [pp_jwt_max_lifetime] in seconds; of the event sink, its URL *)
Record ControlPlaneProcessConfig := {
  pp_bind : string;
  pp_jwt_signing_key : string;
  pp_jwt_key_id : string;
  pp_jwt_issuer : string;
  pp_authority_audience : string;
  pp_invocation_audience : string;
  pp_jwt_max_lifetime : Z;
  pp_api_key : option string;
  pp_storage : ControlPlaneStorageConfig;
  pp_sandbox_provider : SandboxProviderConfig;
  pp_socket_event_sink : option string;
  pp_region : option string }.

(** [storage::validate_bucket] *)
Definition validate_bucket (bucket : string) : Result unit :=
  ensure (negb (is_empty bucket) && is_trimmed bucket && (len bucket <=? 222) && negb (contains_char "/" bucket))
    "invalid storage bucket".
(** [str::trim], for the white space that [is_trimmed] knows *)
Fixpoint trim_start (s : string) : string :=
  match s with String c s' => if is_whitespace c then trim_start s' else s | EmptyString => "" end.
Fixpoint trim_end (s : string) : string :=
  match s with
  | EmptyString => ""
  | String c s' => match trim_end s' with
                   | EmptyString => if is_whitespace c then "" else String c ""
                   | t => String c t
                   end
  end.
Definition trim_string (s : string) : string := trim_end (trim_start s).
(** [str::parse::<u32>] *)
Definition parse_u32 (s : string) : option Z := n ← parse_u64 s; if n <=? U32_MAX then Some n else None.

Definition pool_number (get : environment) (name : string) (default min max : Z) : Result Z :=
  value ← match get name with Some s => with_context (parse_u32 s) ("invalid " +:+ name) | None => Ok default end;
  ensure ((min <=? value) && (value <=? max)) (name +:+ " must be between " +:+ show_u64 min +:+ " and " +:+ show_u64 max);;
  Ok value.
Definition provider_credential (get : environment) (name : string) : Result string :=
  value ← required get name;
  ensure (is_trimmed value) (name +:+ " has surrounding whitespace");;
  Ok value.
Definition trace_retention (get : environment) : Result Z :=
  days ← match get "DURABLE_ACTORS_ANALYTICS_RETENTION_DAYS" with
         | Some s => with_context (parse_u64 s) "DURABLE_ACTORS_ANALYTICS_RETENTION_DAYS must be an integer"
         | None => Ok 30
         end;
  ensure ((1 <=? days) && (days <=? 3650)) "DURABLE_ACTORS_ANALYTICS_RETENTION_DAYS must be between 1 and 3650";;
  Ok (days * 86400).

(** [Url::to_string] *)
Class UrlText := { url_text : Url -> string }.

Section configuration.
Context `{HostParsers, UrlParser, UrlText, Json (list string)}.

Definition is_http (url : Url) : bool := String.eqb (scheme url) "http" || String.eqb (scheme url) "https".
Definition validated_http_url (value name : string) : Result string :=
  url ← match parse_url value with Ok u => Ok u | Err _ => Err (name +:+ " must be a URL") end;
  ensure (is_http url && negb (is_none (host_str url))) (name +:+ " must be HTTP or HTTPS");;
  Ok (url_text url).
Definition socket_event_sink_config (get : environment) : Result (option string) :=
  match get "DURABLE_ACTORS_SOCKET_EVENT_URL" with
  | None => Ok None
  | Some url => url ← validated_http_url url "DURABLE_ACTORS_SOCKET_EVENT_URL"; Ok (Some url)
  end.
Definition sandbox_provider_config (get : environment) (jwt_issuer invocation_audience : string) : Result SandboxProviderConfig :=
  provider_name ← required get "DURABLE_ACTORS_SANDBOX_PROVIDER";
  ensure (String.eqb provider_name "modal") ("unsupported sandbox provider " +:+ provider_name);;
  token_id ← provider_credential get "MODAL_TOKEN_ID";
  token_secret ← provider_credential get "MODAL_TOKEN_SECRET";
  let environment := <["MODAL_TOKEN_SECRET" := token_secret]> (<["MODAL_TOKEN_ID" := token_id]> ∅) in
  environment ← match get "DURABLE_ACTORS_MODAL_MUTABLE_NETWORK" with
                | None => Ok environment
                | Some value =>
                    enabled ← with_context (parse_bool value) "DURABLE_ACTORS_MODAL_MUTABLE_NETWORK must be true or false";
                    Ok (<["DURABLE_ACTORS_MODAL_MUTABLE_NETWORK" := if (enabled : bool) then "true" else "false"]> environment)
                end;
  url ← required get "DURABLE_ACTORS_CONTROL_PLANE_URL";
  control_plane_url ← validated_http_url url "DURABLE_ACTORS_CONTROL_PLANE_URL";
  idle ← pool_number get "DURABLE_ACTORS_SPARE_IDLE" 5 0 32;
  fleet_maximum ← pool_number get "DURABLE_ACTORS_SPARE_FLEET_MAX" 64 0 4096;
  ensure (idle <=? fleet_maximum) "DURABLE_ACTORS_SPARE_IDLE must not exceed DURABLE_ACTORS_SPARE_FLEET_MAX";;
  let regions := trim_string <$> split_on "," (default "north-america-east" (get "DURABLE_ACTORS_SPARE_REGIONS")) in
  collect storage_region regions;;
  image ← required get "DURABLE_ACTORS_RUNTIME_IMAGE";
  ensure (starts_with "im-" image && (3 <? len image) && (len image <=? 255))
    "DURABLE_ACTORS_RUNTIME_IMAGE must be a published Modal runtime image ID";;
  max_starting ← pool_number get "DURABLE_ACTORS_SPARE_MAX_STARTING" 8 1 128;
  idle_ttl_seconds ← pool_number get "DURABLE_ACTORS_SPARE_TTL_SECONDS" 600 30 3600;
  cpu ← pool_number get "DURABLE_ACTORS_HOST_CPU_MILLIS" 1000 100 64000;
  memory ← pool_number get "DURABLE_ACTORS_HOST_MEMORY_MIB" 1024 128 262144;
  idle_timeout ← host_idle_timeout_ms get;
  Ok {| sp_runtime_image := image;
        sp_pool := {| pc_kind := Actor; pc_idle := idle; pc_fleet_maximum := fleet_maximum; pc_max_starting := max_starting;
                      pc_idle_ttl_seconds := idle_ttl_seconds; pc_regions := regions;
                      pc_resources := {| cpu_millis := cpu; memory_mib := memory |} |};
        sp_provider_name := provider_name;
        sp_command := default "durable-actors-modal-go" (get "DURABLE_ACTORS_SANDBOX_COMMAND");
        sp_environment := environment;
        sp_runtime := {| hr_control_plane_url := control_plane_url; hr_jwt_issuer := jwt_issuer;
                         hr_invocation_jwt_audience := invocation_audience; hr_host_idle_timeout_ms := idle_timeout |} |}.

Definition check_api_key (api_key : option string) : Result unit :=
  match api_key with
  | None => Ok ()
  | Some key =>
      ensure (negb (is_empty key)) "DURABLE_ACTORS_SECRET must not be empty";;
      ensure (is_trimmed key) "DURABLE_ACTORS_SECRET has surrounding whitespace"
  end.
(** [ControlPlaneProcessConfig::from_lookup] *)
Definition control_plane_from_lookup (get : environment) : Result ControlPlaneProcessConfig :=
  let bind := default "127.0.0.1:7100" (get "DURABLE_ACTORS_CONTROL_PLANE_BIND") in
  ensure (socket_addr_accepts bind) "DURABLE_ACTORS_CONTROL_PLANE_BIND must be a socket address";;
  jwt_signing_key ← required get "DURABLE_ACTORS_JWT_SIGNING_KEY";
  let jwt_issuer := default DEFAULT_JWT_ISSUER (get "DURABLE_ACTORS_JWT_ISSUER") in
  let invocation_audience := default DEFAULT_INVOCATION_AUDIENCE (get "DURABLE_ACTORS_INVOKE_JWT_AUDIENCE") in
  jwt_max_lifetime ← match get "DURABLE_ACTORS_JWT_MAX_TTL_SECONDS" with
                     | Some s => with_context (parse_u64 s) "DURABLE_ACTORS_JWT_MAX_TTL_SECONDS must be an integer"
                     | None => Ok DEFAULT_JWT_TTL_SECONDS
                     end;
  ensure (negb (jwt_max_lifetime =? 0)) "DURABLE_ACTORS_JWT_MAX_TTL_SECONDS must be positive";;
  let api_key := get "DURABLE_ACTORS_SECRET" in
  check_api_key api_key;;
  bucket ← required get "DURABLE_ACTORS_BUCKET";
  validate_bucket bucket;;
  replica_regions ← replica_regions get;
  let region := get "DURABLE_ACTORS_REGION" in
  match region with Some r => validate_region r | None => Ok () end;;
  postgres_url ← required get "DURABLE_ACTORS_POSTGRES_URL";
  retention ← trace_retention get;
  sandbox_provider ← sandbox_provider_config get jwt_issuer invocation_audience;
  socket_event_sink ← socket_event_sink_config get;
  Ok {| pp_bind := bind; pp_jwt_signing_key := jwt_signing_key;
        pp_jwt_key_id := default "primary" (get "DURABLE_ACTORS_JWT_KEY_ID"); pp_jwt_issuer := jwt_issuer;
        pp_authority_audience := default DEFAULT_AUTHORITY_AUDIENCE (get "DURABLE_ACTORS_AUTHORITY_JWT_AUDIENCE");
        pp_invocation_audience := invocation_audience; pp_jwt_max_lifetime := jwt_max_lifetime; pp_api_key := api_key;
        pp_storage := {| cs_postgres_url := postgres_url; cs_trace_retention := retention; cs_bucket := bucket;
                         cs_replica_regions := replica_regions |};
        pp_sandbox_provider := sandbox_provider; pp_socket_event_sink := socket_event_sink; pp_region := region |}.
End configuration.

(** * Parts *)
(** [AdminService::new], of the key *)
Definition check_admin_key (api_key : option string) : Result unit :=
  match api_key with
  | None => Ok ()
  | Some key => ensure (negb (is_empty key) && is_trimmed key) "API key is invalid"
  end.
(** [GcsBucket]: the name of the bucket *)
Definition bucket_name (bucket : string) : Result string :=
  ensure (negb (is_empty bucket) && negb (contains_char "/" bucket)) "invalid storage bucket";;
  Ok ("projects/_/buckets/" +:+ bucket).
(** [CommandSandboxProvider::new]; [path] is the variable [PATH]. *)
Definition CommandSandboxProvider_new (provider_name command : string) (environment : gmap string string) (path : option string)
  : Result (gmap string string) :=
  ensure (negb (is_empty provider_name) && is_trimmed provider_name)
    "sandbox provider name must be non-empty without surrounding whitespace";;
  ensure (negb (is_empty command) && is_trimmed command)
    "DURABLE_ACTORS_SANDBOX_COMMAND must be non-empty without surrounding whitespace";;
  Ok (match path, environment !! "PATH" with Some path, None => <["PATH" := path]> environment | _, _ => environment end).
(** [RuntimeStorage::new] *)
Definition check_replica_regions (regions : list string) : Result unit :=
  ensure (length regions <=? MAX_REPLICAS)%nat "invalid runtime storage configuration".

(** ** Socket messages for an HTTP service *)
Record SocketMessageEvent := {
  sm_event_id : string;
  sm_actor_name : string;
  sm_actor_id : string;
  sm_trigger_id : option string;
  sm_connection_id : string;
  sm_message : ActorSocketMessage }.
Definition SocketMessageEvent_new (new_id : string) (actor : ActorKey) (trigger_id : option string) (connection_id : string)
    (message : ActorSocketMessage) : SocketMessageEvent :=
  {| sm_event_id := new_id; sm_actor_name := actor_name actor; sm_actor_id := actor_id actor; sm_trigger_id := trigger_id;
     sm_connection_id := connection_id; sm_message := message |}.
Record HttpSocketMessageEventSink := { sk_url : string; sk_token : option string }.
Definition HttpSocketMessageEventSink_new `{UrlParser} (url : string) (token : option string) : Result HttpSocketMessageEventSink :=
  parsed ← match parse_url url with Ok u => Ok u | Err _ => Err "socket event sink URL is invalid" end;
  ensure (is_http parsed) "socket event sink URL must use HTTP or HTTPS";;
  match token with
  | Some token => ensure (negb (is_empty token)) "socket event sink token must not be empty"
  | None => Ok ()
  end;;
  Ok {| sk_url := url; sk_token := token |}.
(** A POST with a bearer token; the reply is the status. *)
Inductive SinkEff : Type -> Type :=
| SinkPost (url : string) (bearer : option string) (event : SocketMessageEvent) : SinkEff (Result Z).
Definition sink_deliver (sink : HttpSocketMessageEventSink) (event : SocketMessageEvent) : calls SinkEff unit :=
  status ← await_ok (SinkPost (sk_url sink) (sk_token sink) event);
  check_that (status <? 400) "socket event sink rejected the event".

(** ** Keys *)
(** Decoding of a PKCS#8 document in base64, and the set of one public key as JSON *)
Class SigningKeys := {
  decode_signing_key : string -> Result string;
  jwks_text : string -> string -> string }.
Class SigningKeysLaws `{SigningKeys, Jwks, JwtKeys} : Prop := {
  jwks_roundtrip : forall key_id key, exists jwk, parse_jwks (jwks_text key_id key) = Ok [jwk] /\
    jwk_key_id jwk = Some key_id /\ jwk_eddsa jwk = true /\ from_jwk jwk = Ok (verifying_key key) }.

Section keys.
Context `{SigningKeys, Jwks}.
Definition from_base64_pkcs8 (encoded_key key_id issuer authority_audience invocation_audience : string) (max_lifetime : Z)
  : Result ActorJwtIssuer :=
  ensure (negb (is_empty key_id)) "DURABLE_ACTORS_JWT_KEY_ID must not be empty";;
  ensure (negb (max_lifetime =? 0)) "actor JWT lifetime must be positive";;
  ensure (negb (is_empty issuer)) "actor JWT issuer must not be empty";;
  ensure (negb (is_empty authority_audience)) "actor authority JWT audience must not be empty";;
  ensure (negb (is_empty invocation_audience)) "actor invocation JWT audience must not be empty";;
  key ← decode_signing_key encoded_key;
  Ok {| is_encoding_key := key; is_key_id := key_id; is_issuer := issuer; is_authority_audience := authority_audience;
        is_invocation_audience := invocation_audience; is_max_lifetime := max_lifetime |}.
Definition verifier_keys_json (s : ActorJwtIssuer) : string := jwks_text (is_key_id s) (is_encoding_key s).

(** [control_plane_routes], of the tokens *)
Definition control_plane_tokens (config : ControlPlaneProcessConfig) : Result (ActorJwtIssuer * ActorJwtVerifier) :=
  issuer ← from_base64_pkcs8 (pp_jwt_signing_key config) (pp_jwt_key_id config) (pp_jwt_issuer config)
             (pp_authority_audience config) (pp_invocation_audience config) (pp_jwt_max_lifetime config);
  auth ← for_scope (verifier_keys_json issuer) (pp_jwt_issuer config) (pp_authority_audience config) Tokens.ControlPlane
           (pp_jwt_max_lifetime config);
  Ok (issuer, auth).
End keys.

(** * What an accepted configuration gives *)
Section accepted.
Context `{HostParsers, UrlParser, UrlText, Json (list string)}.
(** The text of a URL reads back as that URL. *)
Hypothesis url_roundtrip : forall text url, parse_url text = Ok url -> parse_url (url_text url) = Ok url.

Lemma collect_all {A B} (f : A -> Result B) l r : collect f l = Ok r -> Forall (fun x => exists y, f x = Ok y) l.
Proof.
  revert r. induction l as [|x l IH]; intros r E; [constructor|]. cbn in E. apply bind_ok in E as (y & Ey & E).
  apply bind_ok in E as (ys & Eys & _). constructor; [by exists y|by eapply IH].
Qed.
Lemma pool_number_ok get name d min max n : pool_number get name d min max = Ok n -> min <= n <= max.
Proof. unfold pool_number. intros E. res_inv. bools. lia. Qed.
Lemma validated_url_http value name text : validated_http_url value name = Ok text -> exists url, parse_url text = Ok url /\ is_http url = true.
Proof.
  unfold validated_http_url. intros E. apply bind_ok in E as (url & Eu & E). apply bind_ok in E as ([] & Hh & [= <-]).
  apply ensure_ok, andb_true_iff in Hh as [Hh _]. exists url. split; [|done]. destruct (parse_url value) eqn:Ep; [|done].
  injection Eu as <-. by eapply url_roundtrip.
Qed.

(** Every part that takes its settings from an accepted configuration accepts them:
    the administrator's key, the event sink, the number of replicas and the bucket.
    The pool of spares can be filled, and its regions exist. *)
Theorem accepted_control_plane_works get c : control_plane_from_lookup get = Ok c ->
  check_admin_key (pp_api_key c) = Ok () /\
  (forall url, pp_socket_event_sink c = Some url -> exists sink, HttpSocketMessageEventSink_new url (pp_api_key c) = Ok sink) /\
  check_replica_regions (cs_replica_regions (pp_storage c)) = Ok () /\
  (exists name, bucket_name (cs_bucket (pp_storage c)) = Ok name) /\
  86400 <= cs_trace_retention (pp_storage c) <= 315360000 /\
  (let pool := sp_pool (pp_sandbox_provider c) in
   0 <= pc_idle pool <= pc_fleet_maximum pool /\ pc_fleet_maximum pool <= 4096 /\ 1 <= pc_max_starting pool <= 128 /\
   pc_regions pool <> [] /\ Forall (fun region => exists r, storage_region region = Ok r) (pc_regions pool)).
Proof.
  unfold control_plane_from_lookup. intros E.
  apply bind_ok in E as ([] & _ & E). apply bind_ok in E as (key & _ & E). apply bind_ok in E as (ttl & _ & E).
  apply bind_ok in E as ([] & _ & E). apply bind_ok in E as ([] & Hkey & E). apply bind_ok in E as (bucket & _ & E).
  apply bind_ok in E as ([] & Hb & E). apply bind_ok in E as (regions & Hr & E). apply bind_ok in E as ([] & _ & E).
  apply bind_ok in E as (postgres & _ & E). apply bind_ok in E as (retention & Ht & E). apply bind_ok in E as (sp & Hs & E).
  apply bind_ok in E as (sink & Hsink & [= <-]). cbn.
  split; [|split; [|split; [|split; [|split]]]].
  - unfold check_api_key, check_admin_key in *. destruct (get "DURABLE_ACTORS_SECRET"); [|done].
    apply bind_ok in Hkey as ([] & H1k%ensure_ok & H2k%ensure_ok). by rewrite H1k, H2k.
  - intros url ->. unfold socket_event_sink_config in Hsink. destruct (get "DURABLE_ACTORS_SOCKET_EVENT_URL"); [|done].
    apply bind_ok in Hsink as (text & Hv & [= ->]). destruct (validated_url_http _ _ _ Hv) as (u & Eu & Hu).
    unfold HttpSocketMessageEventSink_new. rewrite Eu. cbn. rewrite Hu. cbn. unfold check_api_key in Hkey.
    destruct (get "DURABLE_ACTORS_SECRET") as [k|]; [|by eexists]. apply bind_ok in Hkey as ([] & H1k%ensure_ok & _).
    rewrite H1k. by eexists.
  - unfold replica_regions in Hr. apply bind_ok in Hr as (l & _ & Hr). apply bind_ok in Hr as ([] & Hl & Hr).
    apply bind_ok in Hr as (? & _ & [= <-]). apply ensure_ok in Hl. unfold check_replica_regions. by rewrite Hl.
  - unfold validate_bucket in Hb. apply ensure_ok in Hb. bools. unfold bucket_name. eexists.
    match goal with Hc : contains_char _ _ = false |- _ => rewrite Hc end.
    match goal with He : is_empty _ = false |- _ => rewrite He end. done.
  - unfold trace_retention in Ht. apply bind_ok in Ht as (days & _ & Ht). apply bind_ok in Ht as ([] & Hd%ensure_ok & [= <-]).
    bools. lia.
  - unfold sandbox_provider_config in Hs. do 2 (apply bind_ok in Hs as (? & _ & Hs)).
    do 5 (apply bind_ok in Hs as (? & _ & Hs)). apply bind_ok in Hs as (idle & Hi%pool_number_ok & Hs).
    apply bind_ok in Hs as (most & Hm%pool_number_ok & Hs). apply bind_ok in Hs as ([] & Hle%ensure_ok & Hs).
    apply bind_ok in Hs as (? & Hreg & Hs). do 2 (apply bind_ok in Hs as (? & _ & Hs)).
    apply bind_ok in Hs as (starting & Hst%pool_number_ok & Hs). do 4 (apply bind_ok in Hs as (? & _ & Hs)).
    injection Hs as <-. cbn. bools. split; [lia|]. split; [lia|]. split; [lia|]. split.
    + destruct (default "north-america-east" (get "DURABLE_ACTORS_SPARE_REGIONS")) as [|ch rest]; [done|]. cbn.
      destruct (ascii_dec ch ","); [done|]. by destruct (split_on "," rest).
    + by eapply collect_all.
Qed.
End accepted.

(** * Tokens of the control plane and its hosts *)
Section trust.
Context (uuid_ok : string -> bool) `{SigningKeys, Jwks, JwtKeys, Jwt ActorJwtClaims, !SigningKeysLaws, !JwtLaws ActorJwtClaims}.

Lemma for_scope_trusts s audience purpose lifetime : lifetime <> 0 -> is_empty (is_issuer s) = false -> is_empty audience = false ->
  exists vf, for_scope (verifier_keys_json s) (is_issuer s) audience purpose lifetime = Ok vf /\ trusts vf s audience /\
    vf_purpose vf = purpose /\ vf_max_lifetime vf = lifetime.
Proof.
  intros Hl Hi Ha. unfold for_scope, decode_public_keys, verifier_keys_json.
  destruct (jwks_roundtrip (is_key_id s) (is_encoding_key s)) as (jwk & -> & Eid & Eed & Ek).
  cbn. unfold decode_public_key. rewrite Eid. cbn. rewrite Eed. cbn. rewrite Ek. cbn.
  unfold ActorJwtVerifier_new. rewrite (proj2 (Z.eqb_neq _ _) Hl). cbn.
  rewrite bool_decide_eq_false_2 by apply insert_non_empty. cbn. rewrite Hi. cbn. rewrite Ha. cbn.
  eexists. split; [done|]. split; [|done]. constructor; [|done]. cbn. by rewrite lookup_insert_eq.
Qed.
Lemma tokens_inv config issuer auth : control_plane_tokens config = Ok (issuer, auth) ->
  trusts auth issuer (is_authority_audience issuer) /\ vf_purpose auth = Tokens.ControlPlane /\
  vf_max_lifetime auth = is_max_lifetime issuer /\ is_max_lifetime issuer <> 0 /\
  is_empty (is_issuer issuer) = false /\ is_empty (is_invocation_audience issuer) = false.
Proof.
  unfold control_plane_tokens. intros E. apply bind_ok in E as (s & Es & E). apply bind_ok in E as (vf & Ev & [= -> ->]).
  unfold from_base64_pkcs8 in Es. apply bind_ok in Es as ([] & _ & Es). apply bind_ok in Es as ([] & Hl%ensure_ok & Es).
  apply bind_ok in Es as ([] & Hi%ensure_ok & Es). apply bind_ok in Es as ([] & Ha%ensure_ok & Es).
  apply bind_ok in Es as ([] & Hv%ensure_ok & Es). apply bind_ok in Es as (key & _ & [= <-]).
  apply negb_true_iff in Hl, Hi, Ha, Hv. apply Z.eqb_neq in Hl. cbn in *.
  set (s := Build_ActorJwtIssuer _ _ _ _ _ _) in *.
  destruct (for_scope_trusts s (pp_authority_audience config) Tokens.ControlPlane (pp_jwt_max_lifetime config) Hl Hi Ha)
    as (vf' & Ef & Ht & Hp & Hm). cbn in Ef. rewrite Ef in Ev. injection Ev as <-. done.
Qed.

(** The claims of a host token *)
Lemma host_claims_validated vf s now_ms h ses key region actor t now ln :
  trusts vf s (is_authority_audience s) -> vf_purpose vf = Tokens.ControlPlane -> vf_max_lifetime vf = is_max_lifetime s ->
  0 < is_max_lifetime s -> 0 <= now_ms <= I64_MAX - 1800000 ->
  issue_host s now_ms h ses key region actor = Ok t ->
  starts_with "host.v3." h = true -> uuid_ok ses = true -> validate_region region = Ok () ->
  now_ms / 1000 <= ln -> now_ms / 1000 <= now -> ln * 1000 < it_expires_at_ms t -> now * 1000 < it_expires_at_ms t ->
  authenticate_authorization uuid_ok vf ln now ("Bearer " +:+ it_token t)
    = Ok {| pr_actor := actor; pr_host_id := h; pr_session_id := ses; pr_region := region; pr_host_config_key := Some key;
            pr_invocation := None |}.
Proof.
  intros Htr Hp Hm Hlife Hms E Hh Hu Hr Hln Hnow Hexpl Hexp. unfold issue_host in E. apply bind_ok in E as ([] & Ha & E).
  apply bind_ok in E as (lifetime & Hd & E). apply i64_try_from_ok in Hd. subst lifetime. apply issue_ok in E as [He Et].
  cbn [cl_exp] in Et. set (L := Z.min (is_max_lifetime s) HOST_TOKEN_TTL) in *.
  assert (HL : 0 < L <= 1800 /\ L <= is_max_lifetime s) by (unfold L, HOST_TOKEN_TTL; lia).
  assert (Eexp : i64_saturating_add now_ms (L * 1000) / 1000 = now_ms / 1000 + L).
  { unfold i64_saturating_add, I64_MAX in *. replace (Z.max _ _) with (now_ms + L * 1000) by lia. by rewrite Z.div_add by lia. }
  unfold I64_MAX in Hms.
  rewrite Eexp in He, Et. pose proof (seconds_bound now_ms ltac:(unfold I64_MAX; lia)) as Hsec.
  rewrite (authenticate_accepted uuid_ok vf s _ _ _ ln now Htr He).
  2:{ destruct Htr as [_ ->]. unfold accepts. cbn. split; [done|]. split; [by left|]. unfold CLOCK_SKEW. split; intros; lia. }
  unfold validate_claims. cbn [cl_scope cl_sub cl_process_id cl_session_id cl_iat cl_exp cl_actor cl_region cl_invocation]. rewrite Hp.
  change (existsb _ (split_ascii_whitespace "actor:authority actor:invoke")) with true. cbn [ensure mbind Result_bind].
  assert (is_empty h = false) as -> by (by destruct h). rewrite String.eqb_refl, Hu. cbn [negb ensure mbind Result_bind].
  rewrite (proj2 (Z.ltb_lt (now_ms / 1000) _)) by lia. cbn [ensure mbind Result_bind]. unfold i64_checked_sub, I64_MAX.
  match goal with |- context [if ?b then Some _ else None] => assert (b = true) as -> by lia end.
  cbn [with_context mbind Result_bind]. rewrite (proj2 (Z.leb_le 0 _)), (proj2 (Z.leb_le _ (vf_max_lifetime vf))) by lia.
  cbn [ensure mbind Result_bind].
  rewrite (proj2 (Z.ltb_lt now _)) by lia. cbn [ensure mbind Result_bind]. unfold i64_saturating_add, CLOCK_SKEW, I64_MAX.
  rewrite (proj2 (Z.leb_le (now_ms / 1000) _)) by lia. cbn [ensure mbind Result_bind]. rewrite Ha, Hh, (validate_region_ok _ Hr). done.
Qed.

(** The tokens of a control plane work wherever they are meant to: it recognizes the
    hosts that it gave tokens to until these expire, and a host that was started with
    the public keys and names of the control plane trusts its invocation tokens. *)
Theorem own_tokens_are_trusted config issuer auth : 0 <= pp_jwt_max_lifetime config ->
  control_plane_tokens config = Ok (issuer, auth) ->
  (forall now_ms h ses key region actor t now ln, 0 <= now_ms <= I64_MAX - 1800000 ->
     issue_host issuer now_ms h ses key region actor = Ok t ->
     starts_with "host.v3." h = true -> uuid_ok ses = true -> validate_region region = Ok () ->
     now_ms / 1000 <= ln -> now_ms / 1000 <= now -> ln * 1000 < it_expires_at_ms t -> now * 1000 < it_expires_at_ms t ->
     authenticate_authorization uuid_ok auth ln now ("Bearer " +:+ it_token t)
       = Ok {| pr_actor := actor; pr_host_id := h; pr_session_id := ses; pr_region := region; pr_host_config_key := Some key;
               pr_invocation := None |}) /\
  (forall host, cf_jwt_public_keys host = verifier_keys_json issuer -> cf_jwt_issuer host = is_issuer issuer ->
     cf_invocation_jwt_audience host = is_invocation_audience issuer -> 1000 <= cf_jwt_max_lifetime host ->
     exists vf, invocation_auth host = Ok vf /\ trusts vf issuer (is_invocation_audience issuer) /\ vf_purpose vf = Invocation).
Proof.
  intros Hpos E. pose proof (tokens_inv _ _ _ E) as (Ht & Hp & Hm & Hl & Hi & Hv).
  assert (is_max_lifetime issuer = pp_jwt_max_lifetime config) as Elife.
  { unfold control_plane_tokens, from_base64_pkcs8 in E. res_inv. done. }
  split.
  - intros now_ms h ses key region actor t now ln. intros. eapply host_claims_validated; try done. lia.
  - intros host Ek Ei Ea Hlife. unfold invocation_auth. rewrite Ek, Ei, Ea.
    destruct (for_scope_trusts issuer (is_invocation_audience issuer) Invocation (cf_jwt_max_lifetime host / 1000))
      as (vf & Ef & Hvt & Hvp & _); [|done|done|by exists vf].
    pose proof (Z.div_le_lower_bound (cf_jwt_max_lifetime host) 1000 1). lia.
Qed.
End trust.

(** * A run *)
From S2P Require Import Samples.
#[local] Existing Instances text_jwt_keys Tokens.claims_text.
#[local] Instance run_signing : SigningKeys :=
  {| decode_signing_key text := Ok text; jwks_text key_id key := to_vec (key_id, key) |}.
#[local] Instance run_jwks : Jwks :=
  {| parse_jwks text := match from_slice text with
                        | Ok (key_id, key) => Ok [{| jwk_key_id := Some key_id; jwk_eddsa := true; jwk_material := key |}]
                        | Err e => Err e
                        end;
     from_jwk jwk := Ok (verifying_key (jwk_material jwk)) |}.
#[local] Instance run_signing_laws : SigningKeysLaws.
Proof.
  split. intros key_id key. cbn [parse_jwks run_jwks jwks_text run_signing]. rewrite json_roundtrip. eexists.
  split; [reflexivity|]. done.
Qed.
Abbreviation run_environment := (list_to_map
  [("DURABLE_ACTORS_JWT_SIGNING_KEY", "key"); ("DURABLE_ACTORS_BUCKET", "bucket"); ("DURABLE_ACTORS_POSTGRES_URL", "postgres://d");
   ("DURABLE_ACTORS_SANDBOX_PROVIDER", "modal"); ("MODAL_TOKEN_ID", "id"); ("MODAL_TOKEN_SECRET", "secret");
   ("DURABLE_ACTORS_CONTROL_PLANE_URL", "http://c"); ("DURABLE_ACTORS_RUNTIME_IMAGE", "im-1");
   ("DURABLE_ACTORS_SPARE_REGIONS", "europe-west, north-america-east"); ("DURABLE_ACTORS_SECRET", "s")] : gmap string string).
#[local] Instance run_parsers : HostParsers :=
  {| uuid_accepts s := len s =? 36; endpoint_accepts := starts_with "http"; socket_addr_accepts s := negb (is_empty s) |}.
#[local] Instance run_url_parser : UrlParser :=
  {| parse_url s := Ok {| scheme := "http"; host_str := Some s; username := ""; password := None; url_path := ""; query := None;
                          fragment := None; ascii_serialization := s |} |}.
#[local] Instance run_url_text : UrlText := {| url_text url := default "" (host_str url) |}.
#[local] Instance run_list_json : Json (list string) := {| to_vec _ := "[]"; from_slice _ := Ok [] |}.
Lemma run_configuration : exists c, control_plane_from_lookup (fun name => run_environment !! name) = Ok c /\
  pc_regions (sp_pool (pp_sandbox_provider c)) = ["europe-west"; "north-america-east"] /\
  exists issuer auth t, control_plane_tokens c = Ok (issuer, auth) /\
    issue_host issuer 5000 "host.v3.a" "00000000-0000-4000-8000-000000000000" "config" "europe-west" sample_actor = Ok t /\
    exists p, authenticate_authorization uuid_accepts auth 6 6 ("Bearer " +:+ it_token t) = Ok p /\ pr_host_id p = "host.v3.a".
Proof.
  eexists. split; [vm_compute; reflexivity|]. split; [reflexivity|]. eexists _, _, _. split; [vm_compute; reflexivity|].
  split; [vm_compute; reflexivity|]. eexists. split; [vm_compute; reflexivity|]. reflexivity.
Qed.
