(* ===== verification/GoogleBucket.v ===== *)
(** The bucket in Google Cloud Storage ([bucket/gcs.rs]).

    The operations are programs over requests to the client library.  What the service
    does with a request is a relation with the documented preconditions on
    generations; a request may fail at any point, also after it was applied.  Shows
    that every operation is a step of the bucket that [Interleaving] assumes.  A
    listing comes in pages, so this holds of it as long as the bucket does not
    change between them. *)

From S2P Require Import Prelude.
From S2P Require Import Calls.
From S2P Require Import Actors.
From S2P Require Import StoragePaths.
From S2P Require Import Snapshots.
From S2P Require Import RuntimeStorage.
From S2P Require Import Interleaving.
From S2P Require Import ControlPlaneProcess.
Local Open Scope string_scope.
Local Open Scope Z_scope.

(** * Requests *)
(** An error of the library: its HTTP status and the name of its status code *)
Record gcs_error := { ge_http_status : option Z; ge_status : option string; ge_message : string }.
Inductive gcs_reply (A : Type) := GcsDone (a : A) | GcsFailed (e : gcs_error).
Arguments GcsDone {A} a.
Arguments GcsFailed {A} e.
Inductive GcsEff : Type -> Type :=
(* the generation, and the chunks as they arrive *)
| ReadObject (bucket key : string) : GcsEff (gcs_reply (Z * list (Result string)))
| WriteObject (bucket key bytes : string) (if_generation_match : Z) : GcsEff (gcs_reply unit)
(* the names of a page and the token of the next *)
| ListObjects (bucket pre token : string) : GcsEff (Result (list string * string)).

Definition is_status (http : Z) (name : string) (e : gcs_error) : bool :=
  bool_decide (ge_http_status e = Some http) || bool_decide (ge_status e = Some name).
Definition not_found_error : gcs_error -> bool := is_status 404 "NOT_FOUND".
Definition precondition_error : gcs_error -> bool := is_status 412 "FAILED_PRECONDITION".

(** * Operations *)
(** [Self::with_credentials] and [WarmGcs::bind]: the name of the bucket, and the
    credentials that may be set once *)
Record WarmGcs (C : Type) := { wg_credentials : option C }.
Arguments wg_credentials {C} w.
Definition WarmGcs_bind {C} (w : WarmGcs C) (bucket : string) (credentials : C) : Result (string * WarmGcs C) :=
  name ← bucket_name bucket;
  ensure (match wg_credentials w with None => true | Some _ => false end) "storage already assigned";;
  Ok (name, {| wg_credentials := Some credentials |}).
(** [PendingCredentials::headers]: none until credentials are set *)
Definition pending_headers {C H} (w : WarmGcs C) (headers : C -> Result H) (no_headers : H) : Result H :=
  match wg_credentials w with Some c => headers c | None => Ok no_headers end.

Definition gcs_get (bucket key : string) : calls GcsEff (option BucketObject) :=
  response ← await (ReadObject bucket key);
  match response with
  | GcsDone (generation, chunks) =>
      bytes ← try (collect id chunks);
      mret (Some {| generation := generation; bytes_of := String.concat "" bytes |})
  | GcsFailed e => if not_found_error e then mret None else try (Err (ge_message e))
  end.
Definition gcs_compare_and_swap (bucket key : string) (expected : option Z) (bytes : string) : calls GcsEff bool :=
  response ← await (WriteObject bucket key bytes (default 0 expected));
  match response with
  | GcsDone _ => mret true
  | GcsFailed e => if precondition_error e then mret false else try (Err (ge_message e))
  end.
(** [list] with its keys so far; [None] if it is not through after [pages] pages *)
Fixpoint gcs_list_from (pages : nat) (bucket pre token : string) (keys : list string) : calls GcsEff (option (list string)) :=
  match pages with
  | O => mret None
  | S pages =>
      '(names, next) ← await_ok (ListObjects bucket pre token);
      if is_empty next then mret (Some (keys ++ names)%list) else gcs_list_from pages bucket pre next (keys ++ names)%list
  end.
Definition gcs_list (pages : nat) (bucket pre : string) : calls GcsEff (option (list string)) :=
  gcs_list_from pages bucket pre "" [].

(** * The service *)
(** The pages of a listing from [token] on *)
Inductive pages_of (page : string -> list string * string) : string -> list string -> Prop :=
| last_page token names : page token = (names, "") -> pages_of page token names
| next_page token names next rest : page token = (names, next) -> is_empty next = false -> pages_of page next rest ->
    pages_of page token (names ++ rest)%list.

Section service.
(** How the service splits a listing into pages: they end, and name each matching
    object once. *)
Context (page : gmap string BucketObject -> string -> string -> list string * string).
Hypothesis listing : forall objects pre, exists l, pages_of (page objects pre) "" l /\ NoDup l /\
  forall k, k ∈ l <-> is_Some (objects !! k) /\ starts_with pre k = true.

(** What the service may reply to a request and do to the bucket: reads are of the
    current object; a write is applied if its precondition holds, zero meaning that
    there is no object, and gives a larger generation.  Any request may fail. *)
Definition gcs_serves (w : World) {X} (e : GcsEff X) : X -> World -> Prop :=
  match e in GcsEff X return X -> World -> Prop with
  | ReadObject _ key => fun reply w' => w' = w /\
      match reply with
      | GcsDone (g, chunks) => exists o, bucket w !! key = Some o /\ generation o = g /\
          forall bytes, collect id chunks = Ok bytes -> String.concat "" bytes = bytes_of o
      | GcsFailed e => not_found_error e = true -> bucket w !! key = None
      end
  | WriteObject _ key bytes g => fun reply w' =>
      (w' = w /\ reply <> GcsDone tt) \/
      exists g', match bucket w !! key with Some o => g <> 0 /\ generation o = g | None => g = 0 end /\
        (forall o, bucket w !! key = Some o -> generation o < g') /\ w' = write_object key g' bytes w
  | ListObjects _ pre token => fun reply w' => w' = w /\
      (reply = Ok (page (bucket w) pre token) \/ exists msg, reply = Err msg)
  end.
(** A run of an operation against the service, with no other requests between its own *)
Fixpoint executes {A} (p : calls GcsEff A) (w : World) (r : Result A) (w' : World) : Prop :=
  match p with
  | CRet r' => r' = r /\ w' = w
  | CVis e k => exists x w1, gcs_serves w e x w1 /\ executes (k x) w1 r w'
  end.

(** ** Every operation is a step of the bucket *)
Context (possible : World -> forall X, Eff X -> X -> Prop) (node : nat) (name : string).

Lemma gcs_get_refines key w r w' : executes (gcs_get name key) w r w' -> step possible node w (BGet key) r w'.
Proof.
  intros (reply & w1 & [-> Hs] & Hr). destruct reply as [[g chunks]|e].
  - destruct Hs as (o & Ho & Hg & Hb). cbn in Hr. unfold try in Hr.
    destruct (collect id chunks) as [bytes|msg] eqn:Ec; cbn in Hr; destruct Hr as [<- ->].
    + split; [done|]. left. rewrite Ho, <- Hg, (Hb bytes) by done. by destruct o.
    + split; [done|]. right. by exists msg.
  - cbn in Hr. destruct (not_found_error e) eqn:E; cbn in Hr; destruct Hr as [<- ->]; (split; [done|]).
    + left. by rewrite Hs.
    + right. by eexists.
Qed.
Lemma gcs_cas_refines key expected bytes w r w' : expected <> Some 0 ->
  executes (gcs_compare_and_swap name key expected bytes) w r w' -> step possible node w (BCas key expected bytes) r w'.
Proof.
  intros Hne (reply & w1 & Hs & Hr). assert (w' = w1 /\ (r = Ok true -> reply = GcsDone tt)) as [-> Htrue].
  { destruct reply as [[]|e]; cbn in Hr; [|destruct (precondition_error e)]; cbn in Hr; destruct Hr as [<- ->]; done. }
  destruct Hs as [[-> Hd]|(g' & Hp & Hlt & ->)]; [left; split; [done|]; intros E; auto|].
  right. exists g'. split; [|done]. destruct (bucket w !! key) as [o|].
  - destruct Hp as [Hz Hg]. destruct expected as [g|]; cbn in *; [by rewrite Hg|done].
  - destruct expected as [g|]; [|done]. cbn in Hp. subst g. done.
Qed.
Lemma list_pages_unique p token l : pages_of p token l -> forall l', pages_of p token l' -> l = l'.
Proof.
  induction 1 as [token names E|token names next rest E En Hp IH]; intros l' Hl';
    inversion Hl' as [? names' E'|? names' next' rest' E' En' Hp']; subst; rewrite E in E'; simplify_eq; try done.
  f_equal. by apply IH.
Qed.
Lemma gcs_list_spec pages pre w token keys r w' : executes (gcs_list_from pages name pre token keys) w r w' ->
  w' = w /\ match r with
            | Ok (Some l) => exists rest, pages_of (page (bucket w) pre) token rest /\ l = (keys ++ rest)%list
            | _ => True
            end.
Proof.
  revert token keys. induction pages as [|pages IH]; intros token keys; cbn [gcs_list_from].
  - by intros [<- ->].
  - intros (reply & w1 & [-> Hs] & Hr). destruct Hs as [->|[msg ->]]; [|cbn in Hr; by destruct Hr as [<- ->]].
    destruct (page (bucket w) pre token) as [names next] eqn:Ep. cbn in Hr. destruct (is_empty next) eqn:En.
    + destruct Hr as [<- ->]. split; [done|]. exists names. split; [|done]. apply last_page. destruct next; [done|done].
    + destruct (IH _ _ Hr) as [-> Hl]. split; [done|]. destruct r as [[l|]|]; [|done|done].
      destruct Hl as (rest & Hp & ->). exists (names ++ rest)%list. split; [by eapply next_page|by rewrite app_assoc].
Qed.
Lemma gcs_list_refines pages pre w l w' : executes (gcs_list pages name pre) w (Ok (Some l)) w' ->
  step possible node w (BList pre) (Ok l) w'.
Proof.
  intros [-> (rest & Hp & ->)]%gcs_list_spec. split; [done|]. left. destruct (listing (bucket w) pre) as (l & Hl & Hn & Hk).
  rewrite (list_pages_unique _ _ _ Hp _ Hl). exists l. split; [done|]. by apply (lists_exact pre w).
Qed.
(** A listing that no request of which fails comes to its end. *)
Lemma gcs_list_ends pre w token rest : pages_of (page (bucket w) pre) token rest ->
  exists pages, forall keys, executes (gcs_list_from pages name pre token keys) w (Ok (Some (keys ++ rest)%list)) w.
Proof.
  induction 1 as [token names E|token names next rest E En _ (pages & IH)].
  - exists 1%nat. intros keys. exists (Ok (names, "")), w. split; [split; [done|left; by rewrite E]|]. by split.
  - exists (S pages). intros keys. exists (Ok (names, next)), w. split; [split; [done|left; by rewrite E]|]. cbn.
    rewrite En, app_assoc. apply IH.
Qed.

(** The bucket in Google Cloud Storage is a bucket: whatever the service replies, a
    read and a compare-and-swap are steps that the storage protocol assumes; a listing
    is one if nothing changes between its pages, and it ends. *)
Theorem gcs_bucket_refines key expected bytes pre w : expected <> Some 0 ->
  (forall r w', executes (gcs_get name key) w r w' -> step possible node w (BGet key) r w') /\
  (forall r w', executes (gcs_compare_and_swap name key expected bytes) w r w' ->
     step possible node w (BCas key expected bytes) r w') /\
  (forall pages l w', executes (gcs_list pages name pre) w (Ok (Some l)) w' -> step possible node w (BList pre) (Ok l) w') /\
  (exists pages l, executes (gcs_list pages name pre) w (Ok (Some l)) w).
Proof.
  intros Hne. split; [apply gcs_get_refines|]. split; [by intros r w'; apply gcs_cas_refines|].
  split; [intros pages l w'; apply gcs_list_refines|]. destruct (listing (bucket w) pre) as (l & Hl & _).
  destruct (gcs_list_ends _ _ _ _ Hl) as (pages & Hp). exists pages, l. apply (Hp []).
Qed.
End service.

(** A service that lists everything in one page *)
Definition one_page (objects : gmap string BucketObject) (pre _ : string) : list string * string :=
  (filter (fun k => starts_with pre k = true) (map_to_list objects).*1, "").
Lemma one_page_lists objects pre : exists l, pages_of (one_page objects pre) "" l /\ NoDup l /\
  forall k, k ∈ l <-> is_Some (objects !! k) /\ starts_with pre k = true.
Proof.
  eexists. split; [by apply last_page|]. split; [apply NoDup_filter, NoDup_fst_map_to_list|]. intros k.
  rewrite list_elem_of_filter, list_elem_of_fmap. split.
  - intros [Hs ([k' o] & -> & Ho%elem_of_map_to_list)]. split; [by eexists|done].
  - intros [[o Ho] Hs]. split; [done|]. exists (k, o). by rewrite elem_of_map_to_list.
Qed.
Lemma one_page_bucket_refines w key : (forall r w', executes one_page (gcs_get "b" key) w r w' ->
  step (fun _ _ _ _ => True) 0 w (BGet key) r w').
Proof. intros r w'. exact (proj1 (gcs_bucket_refines one_page one_page_lists _ 0 "b" key None "" "" w ltac:(done)) r w'). Qed.
