(* ===== verification/PostgresRegistry.v ===== *)
(** The registry of deployments in PostgreSQL, and what every registry promises
    ([AdminRegistry], [PostgresAdminRegistry] and the calls of [AdminService] in
    control_plane/admin.rs).

    [AdminRegistry] is the interface with its laws: a registry holds a catalog, the
    specification and the contract of each project.  The registry in memory
    ([Deployments]) and the tables of PostgreSQL both discharge the laws, and the
    theorem on [AdminService] is proved against the interface.  Statements are
    functions on the tables; every round trip to the database can fail before or
    after it took effect. *)

From S2P Require Import Prelude.
From S2P Require Import Actors.
From S2P Require Import StoragePaths.
From S2P Require Import Snapshots.
From S2P Require Import Deployments.
From S2P Require Import Contracts.
Local Open Scope string_scope.
Local Open Scope Z_scope.

(** * The interface *)
(** How one round trip ends: answered, failed without effect, or with its effect
    but without the answer. *)
Inductive trip := Answered | Failed (e : string) | Unanswered (e : string).

Class AdminRegistry (S : Type) := {
  register_deployment : HostLaunchSpec -> option PublishedContract -> list trip -> S -> Result bool * S;
  deployment_contract : string -> list trip -> S -> Result (option PublishedContract);
  launch_spec : string -> list trip -> S -> Result (option HostLaunchSpec);
  launch_specs : list trip -> S -> Result (list HostLaunchSpec);
  remove_deployment : string -> list trip -> S -> Result unit * S }.

(** ** The specification: a catalog *)
Abbreviation Catalog := (gmap string (HostLaunchSpec * option PublishedContract)) (only parsing).

(** The hash of a contract is the one that [PublicActorContract::new] computes. *)
Definition well_hashed `{Sha256, Json Value} (c : PublishedContract) : Prop :=
  contract_hash c = "sha256:" +:+ hex_bytes (sha256 (to_vec (contract c))).
Definition catalog_ok `{Sha256, Json Value} (c : Catalog) : Prop :=
  forall p spec k, c !! p = Some (spec, k) -> spec_project_id spec = p /\ from_option well_hashed True k.

(** A registry answers as the catalog it holds does.  An operation that fails leaves
    the catalog, or changes it as if it had been answered. *)
Class AdminRegistryLaws (S : Type) `{AdminRegistry S, Sha256, Json Value} (catalog_of : S -> Catalog -> Prop) : Prop := {
  catalog_wf : forall s c, catalog_of s c -> catalog_ok c;
  register_spec : forall s c spec k trips r s', catalog_of s c -> from_option well_hashed True k ->
    register_deployment spec k trips s = (r, s') ->
    let c' := <[spec_project_id spec := (spec, k)]> c in
    match HostLaunchSpec_validate spec, r with
    | Err e, _ => r = Err e /\ catalog_of s' c
    | Ok _, Ok changed => catalog_of s' c' /\ changed = bool_decide (c !! spec_project_id spec <> Some (spec, k))
    | Ok _, Err _ => catalog_of s' c \/ catalog_of s' c'
    end;
  remove_spec : forall s c p trips r s', catalog_of s c -> remove_deployment p trips s = (r, s') ->
    match r with
    | Ok _ => catalog_of s' (delete p c)
    | Err _ => catalog_of s' c \/ catalog_of s' (delete p c)
    end;
  contract_spec : forall s c p trips k, catalog_of s c -> deployment_contract p trips s = Ok k ->
    k = c !! p ≫= snd;
  launch_spec_spec : forall s c p trips o, catalog_of s c -> launch_spec p trips s = Ok o -> o = fst <$> c !! p;
  launch_specs_spec : forall s c trips l, catalog_of s c -> launch_specs trips s = Ok l ->
    l ≡ₚ (fun kv => kv.2.1) <$> map_to_list c;
  register_answers : forall s c spec k, catalog_of s c ->
    is_ok (register_deployment spec k [] s).1 = is_ok (HostLaunchSpec_validate spec);
  reads_answer : forall s c p, catalog_of s c ->
    is_ok (deployment_contract p [] s) = true /\ is_ok (launch_spec p [] s) = true /\
    is_ok (launch_specs [] s) = true /\ is_ok (remove_deployment p [] s).1 = true }.

(** * In memory *)
#[export] Instance local_registry : AdminRegistry LocalAdminRegistry := {|
  register_deployment spec k _ r := registry_register r spec k;
  deployment_contract p _ r := Ok (registry_contract r p);
  launch_spec p _ r := Ok (registry_launch_spec r p);
  launch_specs _ r := Ok (registry_launch_specs r);
  remove_deployment p _ r := (Ok (), registry_remove r p) |}.

(** * In PostgreSQL *)
(** The row of a project, without [updated_at], which nothing reads *)
Record deployment_row := {
  dr_image_ref : string;
  dr_working_directory : string;
  dr_actor_entrypoint : option string;
  dr_secret_refs : list string;
  dr_code_snapshot : option string;
  dr_source_json : option string }.
#[global] Instance deployment_row_eq_dec : EqDecision deployment_row.
Proof. solve_decision. Defined.
Record contract_row := { cr_contract_hash : string; cr_contract_json : string }.
Record Tables := { deployments : gmap string deployment_row; contracts : gmap string contract_row }.
Definition empty_tables : Tables := {| deployments := ∅; contracts := ∅ |}.

(** ** Sessions: round trips that can fail *)
Definition db_session (A : Type) : Type := list trip -> Tables -> Result A * Tables * list trip.
#[global] Instance session_ret : MRet db_session := fun A a trips db => (Ok a, db, trips).
#[global] Instance session_bind : MBind db_session := fun A B f m trips db =>
  match m trips db with
  | (Ok a, db', rest) => f a rest db'
  | (Err e, db', rest) => (Err e, db', rest)
  end.
Definition settled {A} (r : Result A) : db_session A := fun trips db => (r, db, trips).

(** One statement.  Without further trips the database answers. *)
Definition statement {A} (f : Tables -> Result A * Tables) : db_session A := fun trips db =>
  match trips with
  | Failed e :: rest => (Err e, db, rest)
  | Unanswered e :: rest => (Err e, (f db).2, rest)
  | Answered :: rest => (f db, rest)
  | [] => (f db, [])
  end.
(** [self.database.connection()]: the migrations, once, and a connection of the pool *)
Definition connection : db_session unit := statement (fun db => (Ok (), db)).
(** [client.transaction()] .. [commit()]: an error rolls back, and so does a commit
    that failed.  Two registrations of a project do not overlap: the first statement
    locks its row until the end of the transaction. *)
Definition transaction {A} (body : db_session A) : db_session A := fun trips db =>
  match statement (fun db => (Ok (), db)) trips db with
  | (Err e, _, rest) => (Err e, db, rest)
  | (Ok _, _, rest) =>
      match body rest db with
      | (Err e, _, rest') => (Err e, db, rest')
      | (Ok a, view, rest') =>
          match statement (fun _ => (Ok (), view)) rest' db with
          | (Ok _, db', rest'') => (Ok a, db', rest'')
          | (Err e, db', rest'') => (Err e, db', rest'')
          end
      end
  end.
(** [result.context(msg)] *)
Definition context {A} (msg : string) (m : db_session A) : db_session A := fun trips db =>
  match m trips db with
  | (Err _, db', rest) => (Err msg, db', rest)
  | answered => answered
  end.

(** [database.query_opt(..)] and [database.execute(..)]: a connection, the prepared
    statement, the statement *)
Definition query_opt {A} (f : Tables -> option A) : db_session (option A) :=
  connection;; statement (fun db => (Ok (), db));; statement (fun db => (Ok (f db), db)).
Definition database_execute (f : Tables -> Z * Tables) : db_session Z :=
  connection;; statement (fun db => (Ok (), db));; statement (fun db => let '(n, db') := f db in (Ok n, db')).

(** ** The statements *)
(** [INSERT .. ON CONFLICT (project_id) DO UPDATE .. WHERE .. IS DISTINCT FROM ..] *)
Definition upsert_deployment (p : string) (row : deployment_row) (db : Tables) : Z * Tables :=
  if bool_decide (deployments db !! p = Some row) then (0, db)
  else (1, {| deployments := <[p := row]> (deployments db); contracts := contracts db |}).
(** [project_id] of a contract refers to a deployment. *)
Definition upsert_contract (p : string) (row : contract_row) (db : Tables) : Result Z * Tables :=
  match deployments db !! p with
  | None => (Err "insert or update on table durable_actors_contracts violates foreign key constraint", db)
  | Some _ =>
      if bool_decide (cr_contract_hash <$> contracts db !! p = Some (cr_contract_hash row)) then (Ok 0, db)
      else (Ok 1, {| deployments := deployments db; contracts := <[p := row]> (contracts db) |})
  end.
Definition count {A} (o : option A) : Z := match o with Some _ => 1 | None => 0 end.
Definition delete_contract (p : string) (db : Tables) : Z * Tables :=
  (count (contracts db !! p), {| deployments := deployments db; contracts := delete p (contracts db) |}).
(** [ON DELETE CASCADE] *)
Definition delete_deployment_row (p : string) (db : Tables) : Z * Tables :=
  (count (deployments db !! p), {| deployments := delete p (deployments db); contracts := delete p (contracts db) |}).

(** ** The operations *)
Section operations.
Context `{Json Value, Json DeploymentSource}.

Definition row_of (spec : HostLaunchSpec) : deployment_row :=
  {| dr_image_ref := image_ref spec; dr_working_directory := working_directory spec;
     dr_actor_entrypoint := actor_entrypoint spec; dr_secret_refs := secret_refs spec;
     dr_code_snapshot := code_snapshot spec; dr_source_json := to_vec <$> spec_source spec |}.
Definition contract_row_of (k : PublishedContract) : contract_row :=
  {| cr_contract_hash := contract_hash k; cr_contract_json := to_vec (contract k) |}.

Definition publish_contract (p : string) (k : option PublishedContract) : db_session bool :=
  updated ← match k with
            | Some k => statement (upsert_contract p (contract_row_of k))
            | None => statement (fun db => let '(n, db') := delete_contract p db in (Ok n, db'))
            end;
  mret (0 <? updated).

Definition postgres_register_deployment (spec : HostLaunchSpec) (k : option PublishedContract) : db_session bool :=
  settled (HostLaunchSpec_validate spec);;
  connection;;
  transaction (
    rows ← context "register PostgreSQL deployment"
             (statement (fun db => let '(n, db') := upsert_deployment (spec_project_id spec) (row_of spec) db in (Ok n, db')));
    published ← publish_contract (spec_project_id spec) k;
    mret ((0 <? rows) || published)).

Definition postgres_remove_deployment (p : string) : db_session unit :=
  database_execute (delete_deployment_row p);; mret ().

Definition postgres_deployment_contract (p : string) : db_session (option PublishedContract) :=
  row ← query_opt (fun db => contracts db !! p);
  settled (match row with
           | None => Ok None
           | Some row =>
               document ← from_slice (cr_contract_json row);
               Ok (Some {| contract_hash := cr_contract_hash row; contract := document |})
           end).

Definition launch_spec_from_row (row : string * deployment_row) : Result HostLaunchSpec :=
  source ← match dr_source_json row.2 with
           | None => Ok None
           | Some text => source ← from_slice text; Ok (Some source)
           end;
  Ok {| spec_project_id := row.1; spec_source := source; image_ref := dr_image_ref row.2;
        code_snapshot := dr_code_snapshot row.2; working_directory := dr_working_directory row.2;
        actor_entrypoint := dr_actor_entrypoint row.2; secret_refs := dr_secret_refs row.2 |}.

(** The database returns the rows in an order of its own. *)
Definition postgres_launch_specs : db_session (list HostLaunchSpec) :=
  connection;;
  rows ← context "load PostgreSQL host launch specs"
           (statement (fun db => (Ok (map_to_list (deployments db)), db)));
  settled (collect launch_spec_from_row rows).

Definition postgres_launch_spec (p : string) : db_session (option HostLaunchSpec) :=
  row ← context "load PostgreSQL host launch spec" (query_opt (fun db => pair p <$> deployments db !! p));
  settled (match row with
           | None => Ok None
           | Some row => spec ← launch_spec_from_row row; Ok (Some spec)
           end).
End operations.

#[export] Instance postgres_registry `{Json Value, Json DeploymentSource} : AdminRegistry Tables := {|
  register_deployment spec k trips db := (postgres_register_deployment spec k trips db).1;
  deployment_contract p trips db := (postgres_deployment_contract p trips db).1.1;
  launch_spec p trips db := (postgres_launch_spec p trips db).1.1;
  launch_specs trips db := (postgres_launch_specs trips db).1.1;
  remove_deployment p trips db := (postgres_remove_deployment p trips db).1 |}.

(** * [AdminService] *)
Section service.
Context {S : Type} `{AdminRegistry S}.
Definition current_deployment (p : string) (trips : list trip) (s : S) : Result (option HostLaunchSpec) :=
  launch_spec p trips s.
Definition service_register_deployment (spec : HostLaunchSpec) (k : option PublishedContract) (trips : list trip) (s : S)
  : Result bool * S := register_deployment spec k trips s.
Definition service_deployment_contract (p : string) (trips : list trip) (s : S) : Result (option PublishedContract) :=
  deployment_contract p trips s.
Definition service_remove_deployment (p : string) (trips : list trip) (s : S) : Result unit * S :=
  remove_deployment p trips s.

(** A history of calls, with the trips of each, and the answers to them *)
Inductive admin_call :=
| RegisterCall (spec : HostLaunchSpec) (k : option PublishedContract)
| RemoveCall (p : string)
| ContractCall (p : string)
| CurrentCall (p : string).
Inductive admin_answer :=
| Changed (r : Result bool)
| Removed (r : Result unit)
| ContractIs (r : Result (option PublishedContract))
| CurrentIs (r : Result (option HostLaunchSpec)).
Definition admin_step (c : admin_call) (trips : list trip) (s : S) : admin_answer * S :=
  match c with
  | RegisterCall spec k => let '(r, s') := service_register_deployment spec k trips s in (Changed r, s')
  | RemoveCall p => let '(r, s') := service_remove_deployment p trips s in (Removed r, s')
  | ContractCall p => (ContractIs (service_deployment_contract p trips s), s)
  | CurrentCall p => (CurrentIs (current_deployment p trips s), s)
  end.
Fixpoint admin_run (cs : list (admin_call * list trip)) (s : S) : list admin_answer * S :=
  match cs with
  | [] => ([], s)
  | (c, trips) :: cs' =>
      let '(a, s') := admin_step c trips s in
      let '(l, s'') := admin_run cs' s' in (a :: l, s'')
  end.
End service.

(** ** What the specification allows *)
Definition catalog_step (c : admin_call) (m : Catalog) : admin_answer * Catalog :=
  match c with
  | RegisterCall spec k =>
      match HostLaunchSpec_validate spec with
      | Err e => (Changed (Err e), m)
      | Ok _ => (Changed (Ok (bool_decide (m !! spec_project_id spec <> Some (spec, k)))),
                 <[spec_project_id spec := (spec, k)]> m)
      end
  | RemoveCall p => (Removed (Ok ()), delete p m)
  | ContractCall p => (ContractIs (Ok (m !! p ≫= snd)), m)
  | CurrentCall p => (CurrentIs (Ok (fst <$> m !! p)), m)
  end.
Definition is_failure (a : admin_answer) : bool :=
  match a with
  | Changed r => negb (is_ok r)
  | Removed r => negb (is_ok r)
  | ContractIs r => negb (is_ok r)
  | CurrentIs r => negb (is_ok r)
  end.
Definition well_hashed_call `{Sha256, Json Value} (c : admin_call) : Prop :=
  match c with RegisterCall _ (Some k) => well_hashed k | _ => True end.

(** Each call is answered as the catalog says, or fails and has its effect or none. *)
Inductive catalog_runs : list admin_call -> Catalog -> list admin_answer -> Catalog -> Prop :=
| runs_end m : catalog_runs [] m [] m
| runs_answered c cs m a m' l m'' : catalog_step c m = (a, m') -> catalog_runs cs m' l m'' ->
    catalog_runs (c :: cs) m (a :: l) m''
| runs_failed c cs m a m' l m'' : is_failure a = true -> m' = m \/ m' = (catalog_step c m).2 ->
    catalog_runs cs m' l m'' -> catalog_runs (c :: cs) m (a :: l) m''.

Fixpoint catalog_answers (cs : list admin_call) (m : Catalog) : list admin_answer :=
  match cs with
  | [] => []
  | c :: cs' => let '(a, m') := catalog_step c m in a :: catalog_answers cs' m'
  end.

(** * How sessions end *)
Lemma session_bind_cases {A B} (m : db_session A) (f : A -> db_session B) trips db r db' rest :
  (m ≫= f) trips db = (r, db', rest) ->
  (exists a db1 rest1, m trips db = (Ok a, db1, rest1) /\ f a rest1 db1 = (r, db', rest)) \/
  (exists e, m trips db = (Err e, db', rest) /\ r = Err e).
Proof. unfold mbind, session_bind. destruct (m trips db) as [[[a|e] db1] rest1]; intros Hr; simplify_eq; eauto 10. Qed.
Lemma statement_cases {A} (f : Tables -> Result A * Tables) trips db r db' rest :
  statement f trips db = (r, db', rest) ->
  f db = (r, db') \/ exists e, r = Err e /\ (db' = db \/ db' = (f db).2).
Proof.
  unfold statement. destruct (f db) as [x y] eqn:Ef. destruct trips as [|[|e|e] trips]; intros Hr; simplify_eq/=; eauto.
Qed.
Lemma context_cases {A} msg (m : db_session A) trips db r db' rest : context msg m trips db = (r, db', rest) ->
  exists r0, m trips db = (r0, db', rest) /\ (forall a, r = Ok a -> r0 = Ok a) /\ (r0 = r \/ r = Err msg).
Proof. unfold context. destruct (m trips db) as [[[a|e] db1] rest1]; intros Hr; simplify_eq; naive_solver. Qed.
Lemma transaction_cases {A} (body : db_session A) trips db r db' rest : transaction body trips db = (r, db', rest) ->
  (exists e, r = Err e /\ db' = db) \/
  (exists t0 a view t1, body t0 db = (Ok a, view, t1) /\ (r = Ok a /\ db' = view \/ exists e, r = Err e /\ (db' = db \/ db' = view))).
Proof.
  unfold transaction. destruct (statement _ trips db) as [[[[]|e] d0] t0]; [|intros Hr; simplify_eq; eauto].
  destruct (body t0 db) as [[[a|e] view] t1] eqn:Eb; [|intros Hr; simplify_eq; eauto]. intros Hr. right.
  exists t0, a, view, t1. split; [done|].
  destruct (statement _ t1 db) as [[[[]|e] d1] t2] eqn:Es; apply statement_cases in Es; simplify_eq; naive_solver.
Qed.
(** What only reads leaves the tables. *)
Lemma connection_cases trips db r db' rest : connection trips db = (r, db', rest) -> db' = db.
Proof. intros Hs%statement_cases. naive_solver. Qed.
Lemma prepare_cases trips db r db' rest :
  statement (fun db => (Ok (), db)) trips db = (r, db', rest) -> db' = db.
Proof. apply connection_cases. Qed.
Lemma query_opt_cases {A} (f : Tables -> option A) trips db o db' rest :
  query_opt f trips db = (Ok o, db', rest) -> o = f db /\ db' = db.
Proof.
  unfold query_opt. intros [(? & d1 & t1 & ->%connection_cases & Hs)|(? & ? & ?)]%session_bind_cases; [|done].
  apply session_bind_cases in Hs as [(? & d2 & t2 & ->%prepare_cases & Hs)|(? & ? & ?)]; [|done].
  apply statement_cases in Hs. naive_solver.
Qed.
Lemma database_execute_cases (f : Tables -> Z * Tables) trips db r db' rest :
  database_execute f trips db = (r, db', rest) ->
  r = Ok (f db).1 /\ db' = (f db).2 \/ exists e, r = Err e /\ (db' = db \/ db' = (f db).2).
Proof.
  unfold database_execute. intros [(? & d1 & t1 & ->%connection_cases & Hs)|(e & ->%connection_cases & ->)]%session_bind_cases;
    [|by eauto 10].
  apply session_bind_cases in Hs as [(? & d2 & t2 & ->%prepare_cases & Hs)|(e & ->%prepare_cases & ->)]; [|by eauto 10].
  apply statement_cases in Hs. destruct (f db). naive_solver.
Qed.

(** * Hashes of contracts *)
Section hashes.
Context `{Sha256, !Sha256Laws, Json Value, !JsonLaws Value}.

Lemma byte_bounds c : 0 <= byte c <= 255.
Proof. unfold byte. pose proof (Ascii.nat_ascii_bounded c). lia. Qed.
Lemma hex2_injective a b : hex2 (byte a) = hex2 (byte b) -> a = b.
Proof.
  assert (Hp : forall c, parse_digits 16 0 (hex2 (byte c)) = Some (byte c)).
  { intros c. unfold hex2. rewrite parse_digits_zeros by lia. apply show_radix_parse; [lia|].
    pose proof (byte_bounds c). unfold u64_ok, U64_MAX. lia. }
  intros Hh. pose proof (Hp a) as Ha. rewrite Hh, Hp in Ha. injection Ha as Ha. unfold byte in Ha.
  apply Nat2Z.inj in Ha. rewrite <- (Ascii.ascii_nat_embedding a), <- (Ascii.ascii_nat_embedding b). congruence.
Qed.
Lemma hex_bytes_injective a : forall b, hex_bytes a = hex_bytes b -> a = b.
Proof.
  assert (Hl : forall c, exists x y, hex2 (byte c) = String x (String y "")).
  { intros c. pose proof (hex2_length (byte c) (byte_bounds c)) as Hl.
    destruct (hex2 (byte c)) as [|x [|y [|z t]]]; try discriminate Hl. eauto. }
  induction a as [|c a IH]; intros [|d b]; cbn [hex_bytes]; [done| | |].
  - destruct (Hl d) as (x & y & ->). by intros.
  - destruct (Hl c) as (x & y & ->). by intros.
  - destruct (Hl c) as (x & y & Ex), (Hl d) as (x' & y' & Ey). rewrite Ex, Ey. intros [= -> -> Hab].
    f_equal; [apply hex2_injective; congruence|by apply IH].
Qed.

(** Contracts with the same hash are the same contract. *)
Lemma hash_names_contract k k' : well_hashed k -> well_hashed k' -> contract_hash k = contract_hash k' -> k = k'.
Proof.
  unfold well_hashed. destruct k as [h c], k' as [h' c']. cbn. intros -> -> [= Hh]. f_equal; [by rewrite Hh|].
  apply hex_bytes_injective, sha256_collision_free in Hh.
  pose proof (json_roundtrip c) as Hc. rewrite Hh, json_roundtrip in Hc. congruence.
Qed.
Lemma published_well_hashed v k : PublicActorContract_new v = Ok k -> well_hashed k.
Proof.
  unfold PublicActorContract_new. intros Hk. apply bind_ok in Hk as (? & _ & Hk). apply bind_ok in Hk as ([] & _ & Hk).
  apply bind_ok in Hk as ([] & _ & Hk). by injection Hk as <-.
Qed.
End hashes.

(** * The registry in memory holds a catalog *)
Section local_laws.
Context `{Sha256, Json Value}.

Definition local_state_of (sk : HostLaunchSpec * option PublishedContract) : LocalAdminState :=
  {| las_deployment := Some sk.1; las_contract := sk.2 |}.
Definition local_holds (r : LocalAdminRegistry) (c : Catalog) : Prop := r = local_state_of <$> c /\ catalog_ok c.

Lemma catalog_ok_insert c spec k : catalog_ok c -> from_option well_hashed True k ->
  catalog_ok (<[spec_project_id spec := (spec, k)]> c).
Proof. intros Hc Hk p s' k' [[<- [= <- <-]]|[_ Hp]]%lookup_insert_Some; [done|by eapply Hc]. Qed.
Lemma catalog_ok_delete c p : catalog_ok c -> catalog_ok (delete p c).
Proof. intros Hc q s k [_ Hq]%lookup_delete_Some. by eapply Hc. Qed.

Lemma local_changed (o : option (HostLaunchSpec * option PublishedContract)) spec k :
  let state := default LocalAdminState_default (local_state_of <$> o) in
  bool_decide (las_deployment state <> Some spec) || bool_decide (las_contract state <> k)
  = bool_decide (o <> Some (spec, k)).
Proof.
  destruct o as [[s k0]|]; cbn; [|by rewrite bool_decide_eq_true_2].
  rewrite <- bool_decide_or. apply bool_decide_ext. destruct (decide (s = spec)), (decide (k0 = k)); naive_solver.
Qed.

#[export] Instance local_registry_laws : AdminRegistryLaws LocalAdminRegistry local_holds.
Proof.
  split.
  - by intros s c [_ ?].
  - intros s c spec k trips r s' [-> Hok] Hk Hr. cbn in Hr. unfold registry_register in Hr.
    destruct (HostLaunchSpec_validate spec); [|by simplify_eq]. rewrite lookup_fmap, local_changed in Hr. simplify_eq.
    split; [|done]. split; [|by apply catalog_ok_insert]. by rewrite fmap_insert.
  - intros s c p trips r s' [-> Hok] Hr. cbn in Hr. injection Hr as <- <-.
    split; [|by apply catalog_ok_delete]. by rewrite fmap_delete.
  - intros s c p trips k [-> _] Hr. cbn in Hr. injection Hr as <-. unfold registry_contract.
    rewrite lookup_fmap. by destruct (c !! p).
  - intros s c p trips o [-> _] Hr. cbn in Hr. injection Hr as <-. unfold registry_launch_spec.
    rewrite lookup_fmap. by destruct (c !! p).
  - intros s c trips l [-> _] Hr. cbn in Hr. injection Hr as <-. unfold registry_launch_specs.
    rewrite map_to_list_fmap. induction (map_to_list c) as [|[p [s k]] l' IH]; [done|]. cbn. by constructor.
  - intros s c spec k _. cbn. unfold registry_register. by destruct (HostLaunchSpec_validate spec).
  - done.
Qed.
End local_laws.

(** * The tables hold a catalog *)
Section postgres_laws.
Context `{Sha256, !Sha256Laws, Json Value, !JsonLaws Value, Json DeploymentSource, !JsonLaws DeploymentSource}.

Definition tables_hold (db : Tables) (c : Catalog) : Prop :=
  deployments db = (fun sk => row_of sk.1) <$> c /\ contracts db = contract_row_of <$> omap snd c /\ catalog_ok c.

#[local] Arguments launch_spec_from_row : simpl never.
Lemma row_roundtrip spec : launch_spec_from_row (spec_project_id spec, row_of spec) = Ok spec.
Proof.
  unfold launch_spec_from_row. destruct spec as [p [src|] i cs w a l]; cbn; [by rewrite json_roundtrip|done].
Qed.
Lemma row_of_injective a b : spec_project_id a = spec_project_id b -> row_of a = row_of b -> a = b.
Proof. intros Hp Hr. pose proof (row_roundtrip a) as Ha. rewrite Hp, Hr, row_roundtrip in Ha. congruence. Qed.

(** The tables after the two statements of a registration *)
Definition registered (p : string) (spec : HostLaunchSpec) (k : option PublishedContract) (db : Tables) : Tables :=
  {| deployments := <[p := row_of spec]> (deployments db);
     contracts := match k with
                  | Some k => <[p := contract_row_of k]> (contracts db)
                  | None => delete p (contracts db)
                  end |}.
Lemma registered_holds db c spec k : tables_hold db c -> from_option well_hashed True k ->
  tables_hold (registered (spec_project_id spec) spec k db) (<[spec_project_id spec := (spec, k)]> c).
Proof.
  intros (Hd & Hc & Hok) Hk. split_and!; cbn; [by rewrite fmap_insert, Hd| |by apply catalog_ok_insert].
  destruct k as [k|].
  - by rewrite (omap_insert_Some snd c _ (spec, Some k) k eq_refl), fmap_insert, Hc.
  - by rewrite (omap_insert_None snd c _ (spec, None) eq_refl), fmap_delete, Hc.
Qed.

(** The upsert of the row says whether the specification differs. *)
Lemma upsert_deployment_spec db c spec : tables_hold db c ->
  upsert_deployment (spec_project_id spec) (row_of spec) db =
  (if bool_decide (fst <$> c !! spec_project_id spec = Some spec) then 0 else 1,
   {| deployments := <[spec_project_id spec := row_of spec]> (deployments db); contracts := contracts db |}).
Proof.
  destruct db as [ds cs]. intros (Hd & _ & Hok). cbn in Hd. subst ds. unfold upsert_deployment. cbn [deployments contracts].
  rewrite lookup_fmap. destruct (c !! spec_project_id spec) as [[s k]|] eqn:Ec; cbn; [|done].
  destruct (Hok _ _ _ Ec) as [Hp _]. destruct (decide (s = spec)) as [->|Hn].
  - rewrite !bool_decide_eq_true_2 by done. f_equal. f_equal. rewrite insert_id; [done|]. by rewrite lookup_fmap, Ec.
  - rewrite !bool_decide_eq_false_2; [done|congruence|]. intros Hr%(inj Some). by apply Hn, row_of_injective.
Qed.
(** The upsert of the contract compares the hashes only. *)
Lemma upsert_contract_spec db c spec k : tables_hold db c -> well_hashed k ->
  let db1 := {| deployments := <[spec_project_id spec := row_of spec]> (deployments db); contracts := contracts db |} in
  upsert_contract (spec_project_id spec) (contract_row_of k) db1 =
  (Ok (if bool_decide (c !! spec_project_id spec ≫= snd = Some k) then 0 else 1),
   registered (spec_project_id spec) spec (Some k) db).
Proof.
  destruct db as [ds cs]. intros (_ & Hc & Hok) Hk. cbn in Hc. subst cs. unfold upsert_contract, registered. cbn.
  rewrite lookup_insert_eq, lookup_fmap, lookup_omap.
  destruct (c !! spec_project_id spec) as [[s [k0|]]|] eqn:Ec; cbn; [|done|done].
  destruct (Hok _ _ _ Ec) as [_ Hk0]. destruct (decide (k0 = k)) as [->|Hn].
  - rewrite !bool_decide_eq_true_2 by done. f_equal. f_equal. rewrite insert_id; [done|].
    by rewrite lookup_fmap, lookup_omap, Ec.
  - rewrite !bool_decide_eq_false_2; [done|congruence|]. intros Hr%(inj Some). by apply Hn, hash_names_contract.
Qed.
Lemma delete_contract_spec db c spec : tables_hold db c ->
  let db1 := {| deployments := <[spec_project_id spec := row_of spec]> (deployments db); contracts := contracts db |} in
  delete_contract (spec_project_id spec) db1 =
  (count (c !! spec_project_id spec ≫= snd), registered (spec_project_id spec) spec None db).
Proof.
  destruct db as [ds cs]. intros (_ & Hc & _). cbn in Hc. subst cs. unfold delete_contract, registered. cbn.
  f_equal. rewrite lookup_fmap, lookup_omap. by destruct (c !! _) as [[s [k|]]|].
Qed.

(** The statements of a registration, when they are all answered *)
Lemma publish_contract_spec db c spec k trips published view rest : tables_hold db c -> from_option well_hashed True k ->
  publish_contract (spec_project_id spec) k trips
    {| deployments := <[spec_project_id spec := row_of spec]> (deployments db); contracts := contracts db |}
    = (Ok published, view, rest) ->
  view = registered (spec_project_id spec) spec k db /\
  published = bool_decide (c !! spec_project_id spec ≫= snd <> k).
Proof.
  intros Hdb Hk [(n & d1 & t1 & Hu & Hb)|(? & _ & ?)]%session_bind_cases; [|done].
  unfold mret, session_ret in Hb. simplify_eq. destruct k as [k|]; apply statement_cases in Hu as [Hu|(? & ? & _)]; try done.
  - rewrite (upsert_contract_spec _ _ _ _ Hdb Hk) in Hu. simplify_eq. split; [done|].
    by destruct (decide (c !! spec_project_id spec ≫= snd = Some k)); repeat case_bool_decide.
  - rewrite (delete_contract_spec _ _ _ Hdb) in Hu. simplify_eq. split; [done|].
    by destruct (c !! spec_project_id spec ≫= snd).
Qed.
Lemma registration_body db c spec k trips changed view rest : tables_hold db c -> from_option well_hashed True k ->
  (rows ← context "register PostgreSQL deployment"
             (statement (fun db => let '(n, db') := upsert_deployment (spec_project_id spec) (row_of spec) db in (Ok n, db')));
   published ← publish_contract (spec_project_id spec) k;
   mret ((0 <? rows) || published)) trips db = (Ok changed, view, rest) ->
  view = registered (spec_project_id spec) spec k db /\
  changed = bool_decide (c !! spec_project_id spec <> Some (spec, k)).
Proof.
  intros Hdb Hk [(n & d1 & t1 & Hu & Hb)|(? & _ & ?)]%session_bind_cases; [|done].
  apply context_cases in Hu as (r0 & Hu & Hr0 & _). rewrite (Hr0 _ eq_refl) in Hu. clear r0 Hr0.
  apply statement_cases in Hu as [Hu|(? & ? & _)]; [|done]. rewrite (upsert_deployment_spec _ _ _ Hdb) in Hu. simplify_eq.
  apply session_bind_cases in Hb as [(published & d2 & t2 & Hp & Hb)|(? & _ & ?)]; [|done].
  apply (publish_contract_spec _ c) in Hp as [-> ->]; [|done|done]. unfold mret, session_ret in Hb. simplify_eq.
  split; [done|]. destruct (c !! spec_project_id spec) as [[s k0]|]; cbn; [|by rewrite bool_decide_eq_false_2].
  destruct (decide (s = spec)), (decide (k0 = k)); repeat case_bool_decide; naive_solver.
Qed.

Lemma postgres_register_spec db c spec k trips r db' rest : tables_hold db c -> from_option well_hashed True k ->
  postgres_register_deployment spec k trips db = (r, db', rest) ->
  match HostLaunchSpec_validate spec, r with
  | Err e, _ => r = Err e /\ db' = db
  | Ok _, Ok changed => db' = registered (spec_project_id spec) spec k db /\
                        changed = bool_decide (c !! spec_project_id spec <> Some (spec, k))
  | Ok _, Err _ => db' = db \/ db' = registered (spec_project_id spec) spec k db
  end.
Proof.
  intros Hdb Hk. unfold postgres_register_deployment. destruct (HostLaunchSpec_validate spec) as [[]|e].
  2: { intros [(? & ? & ? & ? & _)|(? & Hs & ->)]%session_bind_cases; unfold settled in *; by simplify_eq. }
  intros [(? & d1 & t1 & Hs & Hb)|(? & Hs & ->)]%session_bind_cases; unfold settled in Hs; simplify_eq.
  apply session_bind_cases in Hb as [(? & d2 & t2 & ->%connection_cases & Hb)|(? & ->%connection_cases & ->)]; [|by left].
  apply transaction_cases in Hb as [(? & -> & ->)|(t3 & a & view & t4 & Hbody & Hend)]; [by left|].
  apply (registration_body _ c) in Hbody as [-> ->]; [|done|done]. naive_solver.
Qed.
Lemma delete_deployment_holds db c p : tables_hold db c -> tables_hold (delete_deployment_row p db).2 (delete p c).
Proof.
  intros (Hd & Hc & Hok). split_and!; cbn; [by rewrite fmap_delete, Hd|by rewrite omap_delete, fmap_delete, Hc|].
  by apply catalog_ok_delete.
Qed.

(** What is stored can be read back. *)
Lemma stored_specs c : catalog_ok c ->
  collect launch_spec_from_row (map_to_list ((fun sk => row_of sk.1) <$> c)) = Ok ((fun kv => kv.2.1) <$> map_to_list c).
Proof.
  intros Hok. rewrite map_to_list_fmap. assert (Hl : forall p sk, (p, sk) ∈ map_to_list c -> spec_project_id sk.1 = p).
  { intros p [s k] Hp%elem_of_map_to_list. by apply (Hok _ _ _ Hp). }
  induction (map_to_list c) as [|[p [s k]] l IH]; [done|]. cbn [fmap list_fmap collect prod_map].
  pose proof (Hl p (s, k) ltac:(left)) as Hp. cbn in Hp. subst p.
  cbn. rewrite row_roundtrip. cbn.
  rewrite IH; [done|]. intros q sk Hq. apply Hl. by right.
Qed.
Lemma stored_contract (k : PublishedContract) :
  (document ← from_slice (cr_contract_json (contract_row_of k));
   Ok (Some {| contract_hash := cr_contract_hash (contract_row_of k); contract := document |})) = Ok (Some k).
Proof. cbn. rewrite json_roundtrip. by destruct k. Qed.
Lemma stored_contract_of db c p : tables_hold db c -> contracts db !! p = contract_row_of <$> (c !! p ≫= snd).
Proof. intros (_ & -> & _). by rewrite lookup_fmap, lookup_omap. Qed.
Lemma stored_row_of db c p : tables_hold db c -> deployments db !! p = (fun sk => row_of sk.1) <$> c !! p.
Proof. intros (-> & _). by rewrite lookup_fmap. Qed.
Lemma stored_spec_of c p s k : catalog_ok c -> c !! p = Some (s, k) -> launch_spec_from_row (p, row_of s) = Ok s.
Proof. intros Hok Hp. destruct (Hok _ _ _ Hp) as [<- _]. apply row_roundtrip. Qed.

Lemma read_contract db c p trips k : tables_hold db c ->
  (postgres_deployment_contract p trips db).1.1 = Ok k -> k = c !! p ≫= snd.
Proof.
  intros Hdb Hr. destruct (postgres_deployment_contract p trips db) as [[r d] t] eqn:E. cbn in Hr. subst r.
  unfold postgres_deployment_contract in E. apply session_bind_cases in E as [(o & d1 & t1 & Hq & Hs)|(? & _ & ?)]; [|done].
  apply query_opt_cases in Hq as [-> ->]. rewrite (stored_contract_of _ _ _ Hdb) in Hs. unfold settled in Hs.
  destruct (c !! p ≫= snd) as [k0|]; cbn [fmap option_fmap option_map] in Hs; [rewrite stored_contract in Hs|];
    injection Hs as <- _ _; done.
Qed.
Lemma read_spec db c p trips o : tables_hold db c ->
  (postgres_launch_spec p trips db).1.1 = Ok o -> o = fst <$> c !! p.
Proof.
  intros Hdb Hr. destruct (postgres_launch_spec p trips db) as [[r d] t] eqn:E. cbn in Hr. subst r.
  unfold postgres_launch_spec in E. apply session_bind_cases in E as [(row & d1 & t1 & Hq & Hs)|(? & _ & ?)]; [|done].
  apply context_cases in Hq as (r0 & Hq & Hr0 & _). rewrite (Hr0 _ eq_refl) in Hq.
  apply query_opt_cases in Hq as [-> ->]. rewrite (stored_row_of _ _ _ Hdb) in Hs. unfold settled in Hs.
  destruct Hdb as (_ & _ & Hok). destruct (c !! p) as [[s k]|] eqn:Ec; cbn [fmap option_fmap option_map] in Hs.
  - cbn in Hs. rewrite (stored_spec_of _ _ _ _ Hok Ec) in Hs. by injection Hs as <- _ _.
  - by injection Hs as <- _ _.
Qed.
Lemma read_specs db c trips l : tables_hold db c ->
  (postgres_launch_specs trips db).1.1 = Ok l -> l = (fun kv => kv.2.1) <$> map_to_list c.
Proof.
  intros Hdb Hr. destruct (postgres_launch_specs trips db) as [[r d] t] eqn:E. cbn in Hr. subst r.
  unfold postgres_launch_specs in E. apply session_bind_cases in E as [(? & d1 & t1 & ->%connection_cases & E)|(? & _ & ?)]; [|done].
  apply session_bind_cases in E as [(rows & d2 & t2 & Hq & Hs)|(? & _ & ?)]; [|done].
  apply context_cases in Hq as (r0 & Hq & Hr0 & _). rewrite (Hr0 _ eq_refl) in Hq.
  apply statement_cases in Hq as [Hq|(? & ? & _)]; [|done]. injection Hq as <- <-. unfold settled in Hs.
  destruct Hdb as (Hd & _ & Hok). rewrite Hd, (stored_specs _ Hok) in Hs. by injection Hs as <- _ _.
Qed.

(** A database that answers every trip *)
Lemma register_is_answered db c spec k : tables_hold db c ->
  is_ok (postgres_register_deployment spec k [] db).1.1 = is_ok (HostLaunchSpec_validate spec).
Proof.
  intros Hdb. unfold postgres_register_deployment, mbind, session_bind, settled.
  destruct (HostLaunchSpec_validate spec); [|done].
  unfold connection, transaction, context, statement, publish_contract, mret, session_ret, mbind, session_bind.
  rewrite (upsert_deployment_spec _ _ _ Hdb). destruct k as [k|]; [|done].
  unfold statement, upsert_contract. cbn [deployments contracts]. rewrite lookup_insert_eq. by case_bool_decide.
Qed.
Lemma reads_are_answered db c p : tables_hold db c ->
  is_ok (postgres_deployment_contract p [] db).1.1 = true /\ is_ok (postgres_launch_spec p [] db).1.1 = true /\
  is_ok (postgres_launch_specs [] db).1.1 = true /\ is_ok (postgres_remove_deployment p [] db).1.1 = true.
Proof.
  intros Hdb. split_and!; [| | |done];
    unfold postgres_deployment_contract, postgres_launch_spec, postgres_launch_specs, context, query_opt, connection,
      statement, settled, mbind, session_bind.
  - rewrite (stored_contract_of _ _ _ Hdb). destruct (c !! p ≫= snd) as [k|]; [|done]. cbn. by rewrite json_roundtrip.
  - rewrite (stored_row_of _ _ _ Hdb). destruct Hdb as (_ & _ & Hok).
    destruct (c !! p) as [[s k]|] eqn:Ec; [|done]. cbn. by rewrite (stored_spec_of _ _ _ _ Hok Ec).
  - destruct Hdb as (Hd & _ & Hok). by rewrite Hd, (stored_specs _ Hok).
Qed.

#[export] Instance postgres_registry_laws : AdminRegistryLaws Tables tables_hold.
Proof.
  split.
  - by intros s c (_ & _ & ?).
  - intros s c spec k trips r s' Hdb Hk Hr. cbn in Hr. destruct (postgres_register_deployment spec k trips s) as [[r0 d] t] eqn:E.
    cbn in Hr. simplify_eq. apply (postgres_register_spec _ c) in E; [|done|done].
    destruct (HostLaunchSpec_validate spec); [|naive_solver]. pose proof (registered_holds _ _ spec k Hdb Hk).
    destruct r; naive_solver.
  - intros s c p trips r s' Hdb Hr. cbn in Hr.
    pose proof (delete_deployment_holds _ _ p Hdb) as Hd.
    destruct (postgres_remove_deployment p trips s) as [[r0 d] t] eqn:E. cbn in Hr. simplify_eq.
    apply session_bind_cases in E as [(n & d1 & t1 & E & Hs)|(e & E & ->)]; apply database_execute_cases in E.
    + unfold mret, session_ret in Hs. simplify_eq. naive_solver.
    + naive_solver.
  - intros s c p trips k. apply read_contract.
  - intros s c p trips o. apply read_spec.
  - intros s c trips l Hdb Hl. by rewrite (read_specs _ _ _ _ Hdb Hl).
  - intros s c spec k. apply register_is_answered.
  - intros s c p. apply reads_are_answered.
Qed.
End postgres_laws.

(** * Every registry refines the catalog *)
Section clients.
Context {S : Type} `{AdminRegistry S, Sha256, Json Value} {holds : S -> Catalog -> Prop} {laws : AdminRegistryLaws S holds}.

Lemma admin_step_refines c trips s m a s' : holds s m -> well_hashed_call c -> admin_step c trips s = (a, s') ->
  exists m', holds s' m' /\
    (catalog_step c m = (a, m') \/ is_failure a = true /\ (m' = m \/ m' = (catalog_step c m).2)).
Proof.
  intros Hs Hc Ha. destruct c as [spec k|p|p|p]; cbn in Ha; cbn [catalog_step].
  - unfold service_register_deployment in Ha. destruct (register_deployment spec k trips s) as [r s1] eqn:E. simplify_eq.
    pose proof (register_spec s m spec k trips r s' Hs ltac:(by destruct k) E) as Hr. cbn in Hr.
    destruct (HostLaunchSpec_validate spec); [destruct r|]; naive_solver.
  - unfold service_remove_deployment in Ha. destruct (remove_deployment p trips s) as [r s1] eqn:E. simplify_eq.
    pose proof (remove_spec s m p trips r s' Hs E) as Hr. destruct r as [[]|e]; naive_solver.
  - simplify_eq. exists m. split; [done|]. unfold service_deployment_contract.
    destruct (deployment_contract p trips s') as [k|e] eqn:E; [|by right; auto].
    left. by rewrite (contract_spec s' m p trips k Hs E).
  - simplify_eq. exists m. split; [done|]. unfold current_deployment.
    destruct (launch_spec p trips s') as [o|e] eqn:E; [|by right; auto].
    left. by rewrite (launch_spec_spec s' m p trips o Hs E).
Qed.

Lemma admin_run_refines cs : forall s m l s', holds s m -> Forall well_hashed_call cs.*1 -> admin_run cs s = (l, s') ->
  exists m', catalog_runs cs.*1 m l m' /\ holds s' m'.
Proof.
  induction cs as [|[c trips] cs IH]; intros s m l s' Hs Hw Hr; cbn in *.
  - simplify_eq. exists m. by split; [constructor|].
  - destruct (admin_step c trips s) as [a s1] eqn:Ea, (admin_run cs s1) as [l1 s2] eqn:Er. simplify_eq.
    apply Forall_cons in Hw as [Hc Hw]. destruct (admin_step_refines c trips s m a s1 Hs Hc Ea) as (m1 & Hm1 & Hstep).
    destruct (IH s1 m1 l1 s' Hm1 Hw Er) as (m' & Hruns & Hm'). exists m'. split; [|done].
    destruct Hstep as [Hstep|[Hf Hstep]]; [by eapply runs_answered|by eapply runs_failed].
Qed.


(** A registry that answers every trip gives the answers of the catalog. *)
Lemma admin_step_answered c s m a s' : holds s m -> well_hashed_call c -> admin_step c [] s = (a, s') ->
  exists m', holds s' m' /\ catalog_step c m = (a, m').
Proof.
  intros Hs Hc Ha. destruct (admin_step_refines c [] s m a s' Hs Hc Ha) as (m' & Hm' & [Hstep|[Hf _]]); [by eauto|].
  destruct c as [spec k|p|p|p]; cbn in Ha; [|destruct (reads_answer s m p Hs) as (Hk & Hl & _ & Hd)..].
  - pose proof (register_answers s m spec k Hs) as Hok. unfold service_register_deployment in Ha.
    destruct (register_deployment spec k [] s) as [r s1] eqn:E. simplify_eq. cbn in *.
    pose proof (register_spec s m spec k [] r s' Hs ltac:(by destruct k) E) as Hr. cbn in Hr.
    destruct r; [done|]. destruct (HostLaunchSpec_validate spec); [done|]. exists m. naive_solver.
  - unfold service_remove_deployment in Ha. destruct (remove_deployment p [] s) as [r s1]. simplify_eq. cbn in *.
    by destruct r.
  - simplify_eq. cbn in Hf. unfold service_deployment_contract in Hf. by rewrite Hk in Hf.
  - simplify_eq. cbn in Hf. unfold current_deployment in Hf. by rewrite Hl in Hf.
Qed.
Lemma admin_run_answered cs : forall s m, holds s m -> Forall well_hashed_call cs.*1 -> Forall (fun t => t = []) cs.*2 ->
  (admin_run cs s).1 = catalog_answers cs.*1 m.
Proof.
  induction cs as [|[c trips] cs IH]; intros s m Hs Hw Ht; cbn in *; [done|].
  apply Forall_cons in Hw as [Hc Hw]. apply Forall_cons in Ht as [-> Ht].
  destruct (admin_step c [] s) as [a s1] eqn:Ea. destruct (admin_step_answered c s m a s1 Hs Hc Ea) as (m' & Hm' & ->).
  rewrite <- (IH s1 m' Hm' Hw Ht). by destruct (admin_run cs s1).
Qed.
End clients.

(** C40: The registry in PostgreSQL refines the catalog of deployments: in every history of
    calls and failures, from empty tables, each call is answered as the catalog says, or
    fails and then had its whole effect or none (the row of the deployment and that of its
    contract never disagree).  When the database answers every round trip, the answers are
    those of the registry in memory, so that both registries can serve the same clients. *)
Theorem postgres_registry_refines `{Sha256, !Sha256Laws, Json Value, !JsonLaws Value, Json DeploymentSource,
    !JsonLaws DeploymentSource} cs l db :
  Forall well_hashed_call cs.*1 -> admin_run cs empty_tables = (l, db) ->
  (exists m, catalog_runs cs.*1 ∅ l m /\ tables_hold db m) /\
  (Forall (fun trips => trips = []) cs.*2 -> l = (admin_run cs (∅ : LocalAdminRegistry)).1).
Proof.
  intros Hw Hr.
  assert (Hp : tables_hold empty_tables ∅) by (split_and!; [by rewrite fmap_empty|by rewrite omap_empty, fmap_empty|done]).
  assert (Hl : local_holds ∅ ∅) by (split; [by rewrite fmap_empty|done]).
  split; [by eapply admin_run_refines|]. intros Ht.
  rewrite (admin_run_answered cs _ _ Hl Hw Ht), <- (admin_run_answered cs _ _ Hp Hw Ht). by rewrite Hr.
Qed.

(** * Example *)
From S2P Require Import Samples.
Import Hex.
#[local] Instance source_text : Text DeploymentSource.
Proof.
  refine (via (fun d => (src_image_ref d, (src_working_directory d, src_actor_entrypoint d)))
    (fun '(a, (b, c)) => Some (Build_DeploymentSource a b c)) _). by intros [].
Defined.

Definition team_spec : HostLaunchSpec :=
  {| spec_project_id := "team"; spec_source := Some {| src_image_ref := "image"; src_working_directory := "/app"; src_actor_entrypoint := None |};
     image_ref := "image"; code_snapshot := None; working_directory := "/app"; actor_entrypoint := None; secret_refs := ["key"] |}.
(** The first registration fails half way, its commit is lost the second time, and the
    third finds nothing to change. *)
Definition team_calls : list (admin_call * list trip) :=
  [(RegisterCall team_spec (Some published_once), [Answered; Answered; Answered; Unanswered "connection reset"]);
   (CurrentCall "team", []);
   (RegisterCall team_spec (Some published_once), [Answered; Answered; Answered; Answered; Unanswered "connection reset"]);
   (RegisterCall team_spec (Some published_once), []);
   (ContractCall "team", [])].
Definition team_answers : list admin_answer :=
  [Changed (Err "connection reset"); CurrentIs (Ok None); Changed (Err "connection reset"); Changed (Ok false);
   ContractIs (Ok (Some published_once))].
Lemma team_runs : (admin_run team_calls empty_tables).1 = team_answers.
Proof. by vm_compute. Qed.

Lemma postgres_registry_refines_witness :
  exists m, catalog_runs team_calls.*1 ∅ team_answers m /\ tables_hold (admin_run team_calls empty_tables).2 m.
Proof.
  refine (proj1 (postgres_registry_refines team_calls team_answers (admin_run team_calls empty_tables).2 _ _)).
  - repeat constructor.
  - rewrite <- team_runs. by destruct (admin_run team_calls empty_tables).
Defined.
