(* ===== verification/PostgresTraces.v ===== *)
(** Request traces in PostgreSQL ([request_traces/persistence/postgres.rs] and its
    [retention.rs]).

    Every project has a row with its head, and its traces are numbered from there on.
    A transaction locks the rows of the projects that it writes, in one order, so its
    statements work on the tables as they are when it commits; a transaction that
    fails changes nothing.  Traces expire by the time they were received, whatever
    their position, in batches: the expired traces are looked up before the projects
    are locked.

    Shows that the positions of a project are never used twice, that a batch of
    traces is stored once, that the expired ones and only they are deleted, and that a
    reader who follows a project misses nothing without being told. *)

From S2P Require Import Prelude.
From S2P Require Import Actors.
From S2P Require Import StoragePaths.
From S2P Require Import Snapshots.
From S2P Require Import RequestTraces.
From S2P Require Import TraceHistory.
From S2P Require Import TracePaging.
Local Open Scope string_scope.
Local Open Scope Z_scope.

(** * The tables *)
(** [pg_base] are the columns that the table in SQLite has too. *)
Record pg_row := {
  pg_base : row;
  pg_request_id : string;
  pg_received_at : Z;
  pg_duration_ms : f64;
  pg_queue_wait_ms : option f64;
  pg_kind : string;
  pg_operation : string;
  pg_connection_id : option string;
  pg_host_id : string }.
Record pg_project := { pp_head : Z; pp_evicted : Z; pp_pruned : Z }.
Definition new_project : pg_project := {| pp_head := 0; pp_evicted := 0; pp_pruned := 0 |}.
Record PgTraces := { pg_projects : gmap string pg_project; pg_rows : list pg_row }.
Definition PgTraces_new : PgTraces := {| pg_projects := ∅; pg_rows := [] |}.

Abbreviation pg_position r := (r_position (pg_base r)).
Abbreviation pg_project_id r := (r_project_id (pg_base r)).

(** [n as u64] of an [i64] *)
Definition as_u64 (n : Z) : Z := n mod (U64_MAX + 1).

(** The keys of a [BTreeMap] built with [entry(key).or_default().push(..)], in order *)
Definition grouped {A} (key : A -> string) (l : list A) : list (string * list A) :=
  (fun k => (k, filter (fun a => key a = k) l)) <$> set_extend (key <$> l) [].

Section append.
Context `{Json TraceEvent}.

Definition lock_project (project : string) (db : PgTraces) : Z * PgTraces :=
  match pg_projects db !! project with
  | Some p => (pp_head p, db)
  | None => (pp_head new_project,
             {| pg_projects := <[project := new_project]> (pg_projects db); pg_rows := pg_rows db |})
  end.

(** The rows that the statement of append.sql inserts: ordinals count all events of
    the batch, an event that is stored already is passed over. *)
Fixpoint insert_batch (project : string) (position : Z) (clock : Z -> Z) (events : list TraceEvent) (rows : list pg_row)
  : Result (list pg_row) :=
  match events with
  | [] => Ok []
  | e :: events =>
      ensure (position <=? I64_MAX) "bigint out of range";;
      if existsb (fun r => String.eqb (r_event_id (pg_base r)) (ev_event_id e)) rows then
        insert_batch project (position + 1) clock events rows
      else if existsb (fun r => String.eqb (pg_project_id r) project && (pg_position r =? position)) rows then
        Err "duplicate key value violates unique constraint durable_actors_traces_pkey"
      else
        let r := {| pg_base := {| r_position := position; r_event_id := ev_event_id e; r_event := to_vec e;
                                  r_started_at_ms := tr_started_at_ms (ev_trace e);
                                  r_actor_name := tr_actor_name (ev_trace e); r_actor_id := tr_actor_id (ev_trace e);
                                  r_outcome := outcome_str (tr_outcome (ev_trace e)); r_project_id := project |};
                    pg_request_id := tr_request_id (ev_trace e); pg_received_at := clock position;
                    pg_duration_ms := tr_duration_ms (ev_trace e); pg_queue_wait_ms := tr_queue_wait_ms (ev_trace e);
                    pg_kind := kind_str (tr_kind (ev_trace e)); pg_operation := tr_operation (ev_trace e);
                    pg_connection_id := tr_connection_id (ev_trace e); pg_host_id := ev_host_id e |} in
        new ← insert_batch project (position + 1) clock events (rows ++ [r]);
        Ok (r :: new)
  end.
(** [MAX(position)] *)
Definition max_position (rows : list pg_row) : option Z :=
  foldr (fun r m => Some (match m with Some n => Z.max (pg_position r) n | None => pg_position r end)) None rows.

Definition pg_insert_events (project : string) (head : Z) (events : list TraceEvent) (clock : Z -> Z) (db : PgTraces)
  : Result PgTraces :=
  collect (fun e => i64_try_from (tr_started_at_ms (ev_trace e))) events;;
  new ← insert_batch project (head + 1) clock events (pg_rows db);
  Ok {| pg_projects := alter (fun p => {| pp_head := default (pp_head p) (max_position new); pp_evicted := pp_evicted p;
                                          pp_pruned := pp_pruned p |}) project (pg_projects db);
        pg_rows := pg_rows db ++ new |}.

Definition append_project (clock : string -> Z -> Z) (db : PgTraces) (batch : string * list TraceEvent) : Result PgTraces :=
  let '(head, db) := lock_project batch.1 db in
  pg_insert_events batch.1 head batch.2 (clock batch.1) db.
Fixpoint try_fold {A B} (f : B -> A -> Result B) (b : B) (l : list A) : Result B :=
  match l with
  | [] => Ok b
  | a :: l => b ← f b a; try_fold f b l
  end.
(** [clock project position] is the time at which a row is inserted. *)
Definition pg_append (events : list TraceEvent) (clock : string -> Z -> Z) (db : PgTraces) : Result PgTraces :=
  try_fold (append_project clock) db (grouped (fun e => tr_project_id (ev_trace e)) events).
End append.

(** * Reading *)
Definition pg_metadata (db : PgTraces) (project : string) : Metadata :=
  let p := pg_projects db !! project in
  {| md_generation := "postgres";
     md_head := default 0 (as_u64 ∘ pp_head <$> p);
     md_pruned := default 0 (as_u64 ∘ pp_pruned <$> p);
     md_evicted := default 0 (as_u64 ∘ pp_evicted <$> p) |}.

Definition by_position (a b : pg_row) : Prop := pg_position a <= pg_position b.
#[global] Instance by_position_dec a b : Decision (by_position a b).
Proof. unfold by_position. apply _. Defined.
Definition pg_newer (a b : pg_row) : Prop := newer (pg_base a) (pg_base b).
#[global] Instance pg_newer_dec a b : Decision (pg_newer a b).
Proof. unfold pg_newer. apply _. Defined.

Section reading.
Context `{Base64Url, Json HistoryCursor, Json ReplayCursor, Json filter_tuple, Json TraceEvent}.

Definition records (rows : list pg_row) : Result (list TraceRecord) :=
  collect (fun r => event ← from_slice (r_event (pg_base r));
                    Ok {| rec_sequence := as_u64 (pg_position r); rec_event := event |}) rows.

(** The conditions of history.sql *)
Definition pg_matches (q : HistoryQuery) (r : pg_row) : bool :=
  eq_text (hq_actor_name q) (Some (r_actor_name (pg_base r)))
  && eq_text (hq_actor_id q) (Some (r_actor_id (pg_base r)))
  && eq_text (outcome_str <$> hq_outcome q) (Some (r_outcome (pg_base r)))
  && is_none_or (fun from => from <=? r_started_at_ms (pg_base r)) (hq_from_ms q)
  && is_none_or (fun to => r_started_at_ms (pg_base r) <=? to) (hq_to_ms q)
  && eq_text (hq_request_id q) (Some (pg_request_id r))
  && eq_text (hq_connection_id q) (pg_connection_id r).
Definition pg_select_history (db : PgTraces) (project : string) (q : HistoryQuery) (watermark : Z)
    (after : option HistoryCursor) : list pg_row :=
  take (S (hq_limit q)) (merge_sort pg_newer
    (filter (fun r => pg_project_id r = project /\ pg_position r <= watermark /\ pg_matches q r /\
                      is_none_or (fun c => before (hc_time c) (hc_sequence c) (pg_base r)) after) (pg_rows db))).
Definition pg_history (db : PgTraces) (project : string) (q : HistoryQuery) : Result TracePage :=
  page ← HistoryPage_new project q (pg_metadata db project);
  found ← records (pg_select_history db project q (hp_watermark page) (hp_after page));
  HistoryPage_finish page (hq_limit q) found.

Definition pg_select_replay (db : PgTraces) (project : string) (limit : nat) (after : option Z) (head : Z) : list pg_row :=
  let rows := filter (fun r => pg_project_id r = project /\ default 0 after < pg_position r <= head) (pg_rows db) in
  take (S limit) (match after with Some _ => merge_sort by_position rows | None => merge_sort pg_newer rows end).
Definition pg_replay (db : PgTraces) (project : string) (q : ReplayQuery) : Result TracePage :=
  page ← ReplayPage_new project q (pg_metadata db project);
  found ← records (pg_select_replay db project (rq_limit q) (rp_after page) (md_head (rp_metadata page)));
  ReplayPage_finish page (rq_limit q) found.
End reading.

(** * Retention *)
Definition PRUNE_BATCH_SIZE : nat := Z.to_nat 1000.
Definition by_received (a b : pg_row) : Prop := pg_received_at a <= pg_received_at b.
#[global] Instance by_received_dec a b : Decision (by_received a b).
Proof. unfold by_received. apply _. Defined.

(** The expired rows; [limit] is when the oldest row that is kept was received. *)
Definition expired (limit : Z) (db : PgTraces) : list pg_row := filter (fun r => pg_received_at r < limit) (pg_rows db).
Definition select_expired (limit : Z) (db : PgTraces) : list (string * Z) :=
  (fun r => (pg_project_id r, pg_position r)) <$> take PRUNE_BATCH_SIZE (merge_sort by_received (expired limit db)).

Definition prune_project (state : nat * PgTraces) (batch : string * list (string * Z)) : Result (nat * PgTraces) :=
  let '(deleted, db) := state in
  let '(project, positions) := batch in
  p ← with_context (pg_projects db !! project) "query returned an unexpected number of rows";
  let gone r := bool_decide (pg_project_id r = project /\ pg_position r ∈ snd <$> positions) in
  let removed := filter (fun r => gone r = true) (pg_rows db) in
  let pruned := match max_position removed with Some n => Z.max (pp_pruned p) n | None => pp_pruned p end in
  Ok ((deleted + length removed)%nat,
      {| pg_projects := <[project := {| pp_head := pp_head p; pp_evicted := pp_evicted p + Z.of_nat (length removed);
                                        pp_pruned := pruned |}]> (pg_projects db);
         pg_rows := filter (fun r => gone r = false) (pg_rows db) |}).
(** The rest of the transaction, on the tables that it finds when it locks the projects *)
Definition prune_selected (positions : list (string * Z)) (db : PgTraces) : Result (nat * PgTraces) :=
  try_fold prune_project (O, db) (grouped fst positions).
Definition prune_batch (limit : Z) (db : PgTraces) : Result (nat * PgTraces) := prune_selected (select_expired limit db) db.

(** [clock i] is the limit of the [i]-th batch. *)
Fixpoint prune_expired (fuel : nat) (clock : nat -> Z) (db : PgTraces) : option (Result unit * PgTraces) :=
  match fuel with
  | O => None
  | S fuel =>
      match prune_batch (clock O) db with
      | Err e => Some (Err e, db)
      | Ok (deleted, db) =>
          if (deleted =? PRUNE_BATCH_SIZE)%nat then prune_expired fuel (fun i => clock (S i)) db else Some (Ok (), db)
      end
  end.

(** * Groups *)
Lemma set_insert_elem x h l : x ∈ set_insert h l <-> x = h \/ x ∈ l.
Proof.
  induction l as [|y l IH]; cbn; [set_solver|]. destruct (String.compare h y) eqn:E; [|set_solver..].
  apply String.compare_eq_iff in E as ->. set_solver.
Qed.
Lemma set_extend_elem x hs : forall l, x ∈ set_extend hs l <-> x ∈ hs \/ x ∈ l.
Proof.
  unfold set_extend. induction hs as [|h hs IH]; intros l; cbn; [set_solver|]. rewrite IH, set_insert_elem. set_solver.
Qed.
Lemma grouped_elem {A} (key : A -> string) l k g : (k, g) ∈ grouped key l <-> k ∈ key <$> l /\ g = filter (fun a => key a = k) l.
Proof.
  unfold grouped. rewrite list_elem_of_fmap. setoid_rewrite set_extend_elem. split.
  - intros (k' & [= -> ->] & Hk). split; [|done]. destruct Hk as [Hk|Hk]; [done|by apply elem_of_nil in Hk].
  - intros [Hk ->]. eauto.
Qed.

(** * The invariant *)
Definition pg_earlier (a b : pg_row) : Prop := pg_position a < pg_position b.
Lemma pg_earlier_asym a b : pg_earlier a b -> ~ pg_earlier b a.
Proof. unfold pg_earlier. lia. Qed.
Definition rows_of (project : string) (rows : list pg_row) : list pg_row := filter (fun r => pg_project_id r = project) rows.
Definition head_of (db : PgTraces) (project : string) : Z := default 0 (pp_head <$> pg_projects db !! project).
Definition pruned_of (db : PgTraces) (project : string) : Z := default 0 (pp_pruned <$> pg_projects db !! project).

Section invariant.
Context `{Json TraceEvent}.

(** The columns of a row are those of the event that it stores. *)
Definition pg_stores (e : TraceEvent) (r : pg_row) : Prop :=
  stores e (pg_base r) /\ pg_request_id r = tr_request_id (ev_trace e) /\ pg_duration_ms r = tr_duration_ms (ev_trace e) /\
  pg_queue_wait_ms r = tr_queue_wait_ms (ev_trace e) /\ pg_kind r = kind_str (tr_kind (ev_trace e)) /\
  pg_operation r = tr_operation (ev_trace e) /\ pg_connection_id r = tr_connection_id (ev_trace e) /\
  pg_host_id r = ev_host_id e.

Record pg_ok (db : PgTraces) : Prop := {
  pk_sorted : forall project, StronglySorted pg_earlier (rows_of project (pg_rows db));
  pk_rows : Forall (fun r => 1 <= pg_position r <= head_of db (pg_project_id r) /\ exists e, pg_stores e r) (pg_rows db);
  pk_ids : NoDup (r_event_id ∘ pg_base <$> pg_rows db);
  pk_known : Forall (fun r => is_Some (pg_projects db !! pg_project_id r)) (pg_rows db);
  pk_projects : map_Forall (fun _ p => 0 <= pp_pruned p <= pp_head p /\ pp_head p <= I64_MAX) (pg_projects db) }.

Lemma PgTraces_new_ok : pg_ok PgTraces_new.
Proof. split; [intros project; apply SSorted_nil|apply Forall_nil_2|apply NoDup_nil_2|apply Forall_nil_2|apply map_Forall_empty]. Qed.

Lemma project_bounds db project : pg_ok db -> 0 <= pruned_of db project <= head_of db project /\ head_of db project <= I64_MAX.
Proof.
  intros Hok. unfold pruned_of, head_of. destruct (pg_projects db !! project) as [p|] eqn:E; cbn.
  - apply (pk_projects _ Hok project p E).
  - unfold I64_MAX. lia.
Qed.
Lemma as_u64_id n : 0 <= n <= I64_MAX -> as_u64 n = n.
Proof. intros Hn. unfold as_u64, U64_MAX, I64_MAX in *. apply Z.mod_small. lia. Qed.
Lemma pg_metadata_ok db project : pg_ok db ->
  md_head (pg_metadata db project) = head_of db project /\ md_pruned (pg_metadata db project) = pruned_of db project.
Proof.
  intros Hok. pose proof (project_bounds db project Hok) as Hb. unfold pruned_of, head_of in Hb |- *. cbn.
  destruct (pg_projects db !! project) as [p|]; cbn in *; [|done]. split; apply as_u64_id; lia.
Qed.

(** ** Appending *)
Lemma insert_batch_ok project clock events : forall position rows new,
  Forall (fun e => tr_project_id (ev_trace e) = project) events ->
  (forall r, r ∈ rows -> pg_project_id r = project -> pg_position r < position) ->
  NoDup (r_event_id ∘ pg_base <$> rows) -> insert_batch project position clock events rows = Ok new ->
  Forall (fun r => pg_project_id r = project /\ position <= pg_position r <= I64_MAX /\ exists e, e ∈ events /\ pg_stores e r) new /\
  StronglySorted pg_earlier new /\ NoDup (r_event_id ∘ pg_base <$> (rows ++ new)%list) /\
  (forall e, e ∈ events -> exists r, r ∈ (rows ++ new)%list /\ r_event_id (pg_base r) = ev_event_id e).
Proof.
  induction events as [|e events IH]; intros position rows new Hev Hpos Hid; cbn [insert_batch].
  - intros [= <-]. rewrite app_nil_r. split_and!; [constructor|constructor|done|]. intros e He. by apply elem_of_nil in He.
  - apply Forall_cons in Hev as [He Hev]. destruct (position <=? I64_MAX) eqn:Eb; [|done]. bools. cbn [ensure mbind Result_bind].
    destruct (existsb (fun r => String.eqb (r_event_id (pg_base r)) (ev_event_id e)) rows) eqn:Ex.
    + intros Hi. destruct (IH (position + 1) rows new Hev) as (Hn & Hs & Hd & Hf); [|done|done|].
      { intros r Hr Hp. specialize (Hpos r Hr Hp). lia. }
      split_and!; [|done|done|].
      * eapply Forall_impl; [exact Hn|]. cbn. intros r (? & ? & e' & ? & ?). split_and!; [done|lia|lia|]. exists e'. by split; [right|].
      * intros e' [->|He']%elem_of_cons; [|by apply Hf]. apply existsb_exists in Ex as (r & Hr & Er%String.eqb_eq).
        exists r. split; [|done]. apply elem_of_app. left. by apply list_elem_of_In.
    + destruct (existsb _ rows) in |- *; [done|].
      match goal with |- context [insert_batch _ _ _ _ (rows ++ [?x])] => set (r := x) end.
      destruct (insert_batch project (position + 1) clock events (rows ++ [r])) as [new'|] eqn:Ei; [|done].
      cbn. intros [= <-].
      destruct (IH (position + 1) (rows ++ [r])%list new' Hev) as (Hn & Hs & Hd & Hf); [| |done|].
      { intros r' [Hr'| ->%list_elem_of_singleton]%elem_of_app Hp; [specialize (Hpos r' Hr' Hp); lia|cbn; lia]. }
      { rewrite fmap_app. apply NoDup_app. split; [done|]. split; [|apply NoDup_singleton].
        intros id (r' & -> & Hr')%list_elem_of_fmap Hr%list_elem_of_singleton. cbn in Hr.
        rewrite <- not_true_iff_false, existsb_exists in Ex. apply Ex. exists r'.
        by rewrite <- list_elem_of_In, String.eqb_eq. }
      rewrite <- app_assoc in Hd, Hf. split_and!; [| |done|].
      * constructor.
        -- cbn. split_and!; [done|lia|lia|]. exists e. by split; [left|repeat split].
        -- eapply Forall_impl; [exact Hn|]. cbn. intros r' (? & ? & e' & ? & ?). split_and!; [done|lia|lia|].
           exists e'. by split; [right|].
      * constructor; [done|]. eapply Forall_impl; [exact Hn|]. cbn. intros r' (_ & ? & _). unfold pg_earlier. cbn. lia.
      * intros e' [->|He']%elem_of_cons; [|by apply Hf]. exists r. split; [set_solver|done].
Qed.

Lemma max_position_spec rows :
  match max_position rows with
  | None => rows = []
  | Some n => (exists r, r ∈ rows /\ n = pg_position r) /\ forall r, r ∈ rows -> pg_position r <= n
  end.
Proof.
  induction rows as [|r rows IH]; [done|]. cbn [max_position foldr]. fold (max_position rows).
  destruct (max_position rows) as [n|].
  - destruct IH as ((r' & Hr' & ->) & Hmax). split.
    + destruct (Z.le_gt_cases (pg_position r) (pg_position r')); [exists r'|exists r]; split; [set_solver|lia|set_solver|lia].
    + intros r0 [->|Hr0]%elem_of_cons; [lia|]. specialize (Hmax r0 Hr0). lia.
  - subst rows. split; [exists r; set_solver|]. intros r0 ->%list_elem_of_singleton. lia.
Qed.

(** What a project sees of a transaction: its head and the positions that it pruned
    only grow, nothing appears up to its head, and nothing that was there is lost above
    the pruned positions. *)
Record kept (project : string) (db db' : PgTraces) : Prop := {
  kp_head : head_of db project <= head_of db' project;
  kp_pruned : pruned_of db project <= pruned_of db' project;
  kp_old : forall r, pg_project_id r = project -> pg_position r <= head_of db project -> r ∈ pg_rows db' -> r ∈ pg_rows db;
  kp_stays : forall r, pg_project_id r = project -> pruned_of db' project < pg_position r -> r ∈ pg_rows db -> r ∈ pg_rows db' }.
Lemma kept_refl project db : kept project db db.
Proof. by constructor. Qed.
Lemma kept_trans project a b c : kept project a b -> kept project b c -> kept project a c.
Proof.
  intros [A1 A2 A3 A4] [B1 B2 B3 B4]. constructor; [lia|lia| |]; intros r Hr Hp Hin.
  - apply A3; [done..|]. apply B3; [done|lia|done].
  - apply B4; [done..|]. apply A4; [done|lia|done].
Qed.

Lemma lock_project_ok project db head db1 : pg_ok db -> lock_project project db = (head, db1) ->
  pg_ok db1 /\ pg_rows db1 = pg_rows db /\ head = head_of db project /\
  is_Some (pg_projects db1 !! project) /\
  (forall k, head_of db1 k = head_of db k /\ pruned_of db1 k = pruned_of db k) /\
  (forall k, is_Some (pg_projects db !! k) -> is_Some (pg_projects db1 !! k)).
Proof.
  intros Hok. unfold lock_project, head_of. destruct (pg_projects db !! project) as [p|] eqn:E; intros [= <- <-].
  - split_and!; try done.
  - assert (Hk : forall k, default 0 (pp_head <$> <[project:=new_project]> (pg_projects db) !! k)
                           = default 0 (pp_head <$> pg_projects db !! k) /\
                         default 0 (pp_pruned <$> <[project:=new_project]> (pg_projects db) !! k)
                           = default 0 (pp_pruned <$> pg_projects db !! k)).
    { intros k. destruct (decide (k = project)) as [->|Hn]; [by rewrite lookup_insert_eq, E|by rewrite lookup_insert_ne]. }
    destruct Hok as [Hs Hr Hi Hn Hp]. split_and!; try done; cbn.
    + constructor; cbn; try done.
      * eapply Forall_impl; [exact Hr|]. cbn. intros r [Hb He]. split; [|done]. unfold head_of in *. cbn.
        by rewrite (proj1 (Hk _)).
      * eapply Forall_impl; [exact Hn|]. cbn. intros r [x Hx]. destruct (decide (pg_project_id r = project)) as [->|Hne];
          [by rewrite lookup_insert_eq|by rewrite lookup_insert_ne].
      * apply map_Forall_insert_2; [cbn; unfold I64_MAX; lia|done].
    + by rewrite lookup_insert_eq.
    + intros k Hx. destruct (decide (k = project)) as [->|Hne]; [by rewrite lookup_insert_eq|by rewrite lookup_insert_ne].
Qed.

(** A statement that adds [new] above the head of a project *)
Definition with_rows (project : string) (new : list pg_row) (db : PgTraces) : PgTraces :=
  {| pg_projects := alter (fun p => {| pp_head := default (pp_head p) (max_position new); pp_evicted := pp_evicted p;
                                       pp_pruned := pp_pruned p |}) project (pg_projects db);
     pg_rows := pg_rows db ++ new |}.
Lemma with_rows_head project new db k : is_Some (pg_projects db !! project) ->
  head_of (with_rows project new db) k
    = (if decide (k = project) then default (head_of db k) (max_position new) else head_of db k) /\
  pruned_of (with_rows project new db) k = pruned_of db k.
Proof.
  intros [p Hp]. unfold head_of, pruned_of, with_rows. cbn. case_decide as Hk.
  - subst k. rewrite lookup_alter_eq, Hp. cbn. by destruct (max_position new).
  - by rewrite lookup_alter_ne.
Qed.

Lemma with_rows_ok project new db (events : list TraceEvent) : pg_ok db -> is_Some (pg_projects db !! project) ->
  Forall (fun r => pg_project_id r = project /\ head_of db project < pg_position r <= I64_MAX /\
                   exists e, e ∈ events /\ pg_stores e r) new ->
  StronglySorted pg_earlier new -> NoDup (r_event_id ∘ pg_base <$> (pg_rows db ++ new)%list) ->
  pg_ok (with_rows project new db) /\ forall k, kept k db (with_rows project new db).
Proof.
  intros Hok Hp Hnew Hs Hids. pose proof (with_rows_head project new db) as Hwh.
  rewrite Forall_forall in Hnew. pose proof (max_position_spec new) as Hmax.
  assert (Hle : forall k, head_of db k <= head_of (with_rows project new db) k).
  { intros k. rewrite (proj1 (Hwh k Hp)). case_decide; [subst k|lia]. destruct (max_position new) as [n|]; cbn; [|lia].
    destruct Hmax as ((r & Hr & ->) & _). destruct (Hnew r Hr) as (_ & ? & _). lia. }
  assert (Hrow : forall r, r ∈ new -> pg_position r <= head_of (with_rows project new db) project).
  { intros r Hr. rewrite (proj1 (Hwh project Hp)), decide_True by done. destruct (max_position new) as [n|]; cbn.
    - by apply Hmax.
    - subst new. by apply elem_of_nil in Hr. }
  split.
  - destruct Hok as [Hso Hro _ Hkn Hpr]. rewrite Forall_forall in Hro, Hkn. constructor; [| |done| |].
    + intros k. unfold rows_of. cbn [with_rows pg_rows]. rewrite filter_app. apply StronglySorted_app.
      split; [|split; [apply Hso|by apply sorted_filter]].
      intros a b [Ea Ha]%list_elem_of_filter [Eb Hb]%list_elem_of_filter. destruct (Hnew b Hb) as (Epb & ? & _).
      destruct (Hro a Ha) as [Hpa _]. unfold pg_earlier. rewrite Ea, <- Eb, Epb in Hpa. lia.
    + apply Forall_forall. intros r [Hr|Hr]%elem_of_app.
      * destruct (Hro r Hr) as [? ?]. split; [|done]. specialize (Hle (pg_project_id r)). lia.
      * destruct (Hnew r Hr) as (Er & ? & e & _ & He). split; [|by exists e]. rewrite Er. specialize (Hrow r Hr).
        pose proof (project_bounds db project). assert (0 <= head_of db project); [|lia].
        unfold head_of. destruct Hp as [p Hp]. rewrite Hp. cbn. specialize (Hpr _ _ Hp). cbn in Hpr. lia.
    + apply Forall_forall. intros r Hr. cbn. assert (is_Some (pg_projects db !! pg_project_id r)) as [p Ep].
      { apply elem_of_app in Hr as [Hr|Hr]; [by apply Hkn|]. by destruct (Hnew r Hr) as (-> & _). }
      destruct (decide (project = pg_project_id r)) as [->|Hne];
        [by rewrite lookup_alter_eq, Ep|by rewrite lookup_alter_ne, Ep].
    + intros k p' Hk. cbn in Hk. destruct (decide (project = k)) as [->|Hne].
      * rewrite lookup_alter_eq in Hk. destruct (pg_projects db !! k) as [p|] eqn:Ep; [|done]. cbn in Hk. injection Hk as <-.
        specialize (Hpr k p Ep). cbn in *. destruct (max_position new) as [n|]; cbn; [|lia].
        destruct Hmax as ((r & Hr & ->) & _). destruct (Hnew r Hr) as (_ & ? & _). unfold head_of in *.
        rewrite Ep in *. cbn in *. lia.
      * rewrite lookup_alter_ne in Hk by done. by apply (Hpr k).
  - intros k. constructor; [apply Hle|rewrite (proj2 (Hwh k Hp)); lia| |]; intros r Hr Hb; cbn; [|set_solver].
    intros [?|Hin]%elem_of_app; [done|]. destruct (Hnew r Hin) as (Er & ? & _). rewrite <- Hr, Er in Hb. lia.
Qed.

Lemma append_project_ok clock db project events db' : pg_ok db ->
  Forall (fun e => tr_project_id (ev_trace e) = project) events -> append_project clock db (project, events) = Ok db' ->
  pg_ok db' /\ (forall k, kept k db db') /\ pg_rows db ⊆ pg_rows db' /\
  (forall e, e ∈ events -> exists r, r ∈ pg_rows db' /\ r_event_id (pg_base r) = ev_event_id e) /\
  (forall r, r ∈ pg_rows db' -> r ∈ pg_rows db \/ exists e, e ∈ events /\ pg_stores e r).
Proof.
  intros Hok Hev. unfold append_project. cbn. destruct (lock_project project db) as [head db1] eqn:El.
  destruct (lock_project_ok _ _ _ _ Hok El) as (Hok1 & Er1 & -> & Hsome & Hsame & _). unfold pg_insert_events.
  intros (? & _ & Ha)%bind_ok. apply bind_ok in Ha as (new & Hi & [= <-]).
  apply insert_batch_ok in Hi as (Hn & Hs & Hd & Hf); [|done| |exact (pk_ids _ Hok1)].
  2: { intros r Hr Hp. pose proof (pk_rows _ Hok1) as Hro. rewrite Forall_forall in Hro. destruct (Hro r Hr) as [Hb _].
       rewrite Hp, (proj1 (Hsame project)) in Hb. lia. }
  fold (with_rows project new db1). destruct (with_rows_ok project new db1 events Hok1 Hsome) as [Hok' Hk]; [|done|done|].
  { eapply Forall_impl; [exact Hn|]. cbn. intros r (? & ? & ?). rewrite (proj1 (Hsame project)). split_and!; [done|lia|lia|done]. }
  split; [done|]. split.
  { intros k. eapply kept_trans; [|apply Hk]. destruct (Hsame k) as [Eh Ep]. constructor; [by rewrite Eh|by rewrite Ep|..]; by rewrite Er1. }
  cbn. rewrite Er1 in *. split_and!; [set_solver|done|]. intros r [?|Hr]%elem_of_app; [by left|right].
  rewrite Forall_forall in Hn. by destruct (Hn r Hr) as (_ & _ & ?).
Qed.

(** A batch is stored once, whole or not at all, and the tables stay consistent. *)
Lemma pg_append_ok events clock db db' : pg_ok db -> pg_append events clock db = Ok db' ->
  pg_ok db' /\ (forall k, kept k db db') /\ pg_rows db ⊆ pg_rows db' /\
  (forall e, e ∈ events -> exists r, r ∈ pg_rows db' /\ r_event_id (pg_base r) = ev_event_id e) /\
  (forall r, r ∈ pg_rows db' -> r ∈ pg_rows db \/ exists e, e ∈ events /\ pg_stores e r).
Proof.
  intros Hok. unfold pg_append.
  assert (Hg : forall l db db', pg_ok db -> l ⊆ grouped (fun e => tr_project_id (ev_trace e)) events ->
    try_fold (append_project clock) db l = Ok db' ->
    pg_ok db' /\ (forall k, kept k db db') /\ pg_rows db ⊆ pg_rows db' /\
    (forall e g, g ∈ l -> e ∈ g.2 -> exists r, r ∈ pg_rows db' /\ r_event_id (pg_base r) = ev_event_id e) /\
    (forall r, r ∈ pg_rows db' -> r ∈ pg_rows db \/ exists e, e ∈ events /\ pg_stores e r)).
  { clear db db' Hok. intros l. induction l as [|[k g] l IH]; intros db db' Hok Hsub; cbn [try_fold].
    - intros [= <-]. split_and!; [done|intros; apply kept_refl|done|intros e g Hg; by apply elem_of_nil in Hg|by left].
    - intros (db1 & H1 & H2)%bind_ok. assert (Hin : (k, g) ∈ grouped (fun e => tr_project_id (ev_trace e)) events) by set_solver.
      apply grouped_elem in Hin as [_ ->]. apply append_project_ok in H1 as (Hok1 & K1 & S1 & F1 & N1); [|done|].
      2: { apply Forall_forall. by intros e [? _]%list_elem_of_filter. }
      destruct (IH db1 db' Hok1) as (Hok' & K2 & S2 & F2 & N2); [set_solver|done|].
      split_and!; [done|intros q; by eapply kept_trans|set_solver| |].
      + intros e g [->|Hg]%elem_of_cons He; [|by eapply F2]. destruct (F1 e He) as (r & Hr & ?). exists r. by split; [apply S2|].
      + intros r Hr. destruct (N2 r Hr) as [Hr1|?]; [|by right]. destruct (N1 r Hr1) as [?|(e & He & ?)]; [by left|].
        right. exists e. split; [|done]. by apply list_elem_of_filter in He as [_ ?]. }
  intros Ha. destruct (Hg _ _ _ Hok ltac:(done) Ha) as (? & ? & ? & F & ?). split_and!; try done.
  intros e He. eapply (F e (_, _)); [|].
  - apply grouped_elem. split; [|done]. apply list_elem_of_fmap. by exists e.
  - cbn. by apply list_elem_of_filter.
Qed.

(** ** Pruning *)
Definition key_of (r : pg_row) : string * Z := (pg_project_id r, pg_position r).

Lemma pg_ok_filter P `{forall r, Decision (P r)} projects db : pg_ok db ->
  (forall k, is_Some (pg_projects db !! k) -> is_Some (projects !! k)) ->
  (forall k, head_of {| pg_projects := projects; pg_rows := [] |} k = head_of db k) ->
  map_Forall (fun _ p => 0 <= pp_pruned p <= pp_head p /\ pp_head p <= I64_MAX) projects ->
  pg_ok {| pg_projects := projects; pg_rows := filter P (pg_rows db) |}.
Proof.
  intros [Hs Hr Hi Hk Hp] Hsome Hhead Hpr. rewrite Forall_forall in Hr, Hk. constructor; cbn; [| | | |done].
  - intros k. unfold rows_of. rewrite list_filter_filter.
    replace (filter _ (pg_rows db)) with (filter P (rows_of k (pg_rows db))); [by apply sorted_filter|].
    unfold rows_of. rewrite list_filter_filter. apply list_filter_iff. naive_solver.
  - apply Forall_forall. intros r [_ Hin]%list_elem_of_filter. destruct (Hr r Hin) as [? ?]. split; [|done].
    specialize (Hhead (pg_project_id r)). unfold head_of in *. cbn in *. lia.
  - eapply sublist_NoDup; [exact Hi|]. apply fmap_sublist, sublist_filter.
  - apply Forall_forall. intros r [_ Hin]%list_elem_of_filter. by apply Hsome, Hk.
Qed.

Lemma prune_project_ok deleted db project positions : pg_ok db -> is_Some (pg_projects db !! project) ->
  exists db', prune_project (deleted, db) (project, positions)
      = Ok ((deleted + (length (pg_rows db) - length (pg_rows db')))%nat, db') /\
    pg_ok db' /\ (forall k, kept k db db') /\ (length (pg_rows db') <= length (pg_rows db))%nat /\
    (forall k, is_Some (pg_projects db !! k) -> is_Some (pg_projects db' !! k)) /\
    pg_rows db' = filter (fun r => ~ (pg_project_id r = project /\ pg_position r ∈ snd <$> positions)) (pg_rows db).
Proof.
  intros Hok [p Hp]. cbn [prune_project]. rewrite Hp. cbn [with_context mbind Result_bind].
  set (gone r := bool_decide (pg_project_id r = project /\ pg_position r ∈ snd <$> positions)).
  set (removed := filter (fun r => gone r = true) (pg_rows db)).
  set (pruned := match max_position removed with Some n => Z.max (pp_pruned p) n | None => pp_pruned p end).
  set (p' := {| pp_head := pp_head p; pp_evicted := pp_evicted p + Z.of_nat (length removed); pp_pruned := pruned |}).
  assert (Hlen : (length removed + length (filter (fun r => gone r = false) (pg_rows db)) = length (pg_rows db))%nat).
  { unfold removed. clear. induction (pg_rows db) as [|r l IH]; [done|]. rewrite !filter_cons.
    repeat case_decide; cbn [length]; destruct (gone r); try congruence; lia. }
  assert (Hgone : forall r, r ∈ removed -> pg_project_id r = project /\ r ∈ pg_rows db).
  { intros r [Hg Hr]%list_elem_of_filter. split; [|done]. unfold gone in Hg. bools. tauto. }
  assert (Hb : pp_pruned p <= pruned <= pp_head p /\ (forall r, r ∈ removed -> pg_position r <= pruned)).
  { pose proof (pk_projects _ Hok project p Hp) as Hpp. cbn in Hpp. pose proof (max_position_spec removed) as Hm. unfold pruned.
    destruct (max_position removed) as [n|].
    - destruct Hm as ((r & Hr & ->) & Hmax). destruct (Hgone r Hr) as [Er Hin]. pose proof (pk_rows _ Hok) as Hro.
      rewrite Forall_forall in Hro. destruct (Hro r Hin) as [Hb _]. unfold head_of in Hb. rewrite Er, Hp in Hb. cbn in Hb.
      split; [lia|]. intros r' Hr'. specialize (Hmax r' Hr'). lia.
    - rewrite Hm. split; [lia|]. intros r Hr. by apply elem_of_nil in Hr. }
  assert (Hsame : forall k, default 0 (pp_head <$> <[project:=p']> (pg_projects db) !! k) = head_of db k).
  { intros k. unfold head_of. destruct (decide (k = project)) as [->|Hne]; [by rewrite lookup_insert_eq, Hp|by rewrite lookup_insert_ne]. }
  assert (Hsome : forall k, is_Some (pg_projects db !! k) -> is_Some (<[project:=p']> (pg_projects db) !! k)).
  { intros k Hk. destruct (decide (k = project)) as [->|Hne]; [by rewrite lookup_insert_eq|by rewrite lookup_insert_ne]. }
  exists {| pg_projects := <[project := p']> (pg_projects db); pg_rows := filter (fun r => gone r = false) (pg_rows db) |}.
  split; [|split; [|split; [|split; [|split]]]]; cycle 1.
  - apply pg_ok_filter; [done|exact Hsome|exact Hsame|]. apply map_Forall_insert_2; [|exact (pk_projects _ Hok)].
    pose proof (pk_projects _ Hok project p Hp) as Hpp. cbn in *. lia.
  - intros k. constructor.
    + unfold head_of at 2. cbn [pg_projects]. rewrite Hsame. lia.
    + unfold pruned_of. cbn [pg_projects]. destruct (decide (k = project)) as [->|Hne];
        [rewrite lookup_insert_eq, Hp; cbn; lia|by rewrite lookup_insert_ne].
    + by intros r Hr Hpos [_ ?]%list_elem_of_filter.
    + intros r Hr Hpos Hin. cbn [pg_rows]. rewrite list_elem_of_filter. split; [|done].
      destruct (gone r) eqn:Eg; [|done]. exfalso. assert (Hrem : r ∈ removed) by (by apply list_elem_of_filter).
      destruct (Hgone r Hrem) as [Er _]. rewrite <- Hr, Er in Hpos. unfold pruned_of in Hpos. cbn [pg_projects] in Hpos.
      rewrite lookup_insert_eq in Hpos. cbn in Hpos. pose proof (proj2 Hb r Hrem). lia.
  - cbn [pg_rows]. apply length_filter.
  - exact Hsome.
  - cbn [pg_rows]. apply list_filter_iff. intros r. unfold gone. by rewrite bool_decide_eq_false.
  - cbn [pg_rows]. by replace (length (pg_rows db) - _)%nat with (length removed) by lia.
Qed.

(** The whole transaction deletes the rows that were selected and are still there. *)
Definition in_group (r : pg_row) (kg : string * list (string * Z)) : Prop :=
  pg_project_id r = kg.1 /\ pg_position r ∈ snd <$> kg.2.
Lemma prune_grouped_ok l : forall deleted db, pg_ok db -> Forall (fun kg => is_Some (pg_projects db !! kg.1)) l ->
  exists db', try_fold prune_project (deleted, db) l = Ok ((deleted + (length (pg_rows db) - length (pg_rows db')))%nat, db') /\
    pg_ok db' /\ (forall k, kept k db db') /\ (length (pg_rows db') <= length (pg_rows db))%nat /\
    pg_rows db' = filter (fun r => Forall (fun kg => ~ in_group r kg) l) (pg_rows db).
Proof.
  induction l as [|[k g] l IH]; intros deleted db Hok Hl; cbn [try_fold].
  - exists db. rewrite Nat.sub_diag, Nat.add_0_r. split_and!; [done|done|intros; apply kept_refl|done|].
    symmetry. apply filter_all, Forall_forall. intros r _. constructor.
  - apply Forall_cons in Hl as [Hk Hl].
    destruct (prune_project_ok deleted db k g Hok Hk) as (db1 & -> & Hok1 & K1 & L1 & Hs1 & E1).
    cbn [mbind Result_bind]. destruct (IH (deleted + (length (pg_rows db) - length (pg_rows db1)))%nat db1 Hok1)
      as (db' & -> & Hok' & K' & L' & E').
    { eapply Forall_impl; [exact Hl|]. intros kg. apply Hs1. }
    exists db'. split_and!; [do 2 f_equal; lia|done|intros q; by eapply kept_trans|lia|].
    rewrite E', E1, list_filter_filter. apply list_filter_iff. intros r. rewrite Forall_cons. unfold in_group. cbn. tauto.
Qed.
Lemma in_grouped r positions : Forall (fun kg => ~ in_group r kg) (grouped fst positions) <-> key_of r ∉ positions.
Proof.
  rewrite Forall_forall. split.
  - intros Hg Hin. apply (Hg (pg_project_id r, filter (fun kp => kp.1 = pg_project_id r) positions)).
    + apply grouped_elem. split; [|done]. apply list_elem_of_fmap. by exists (key_of r).
    + split; [done|]. cbn. apply list_elem_of_fmap. exists (key_of r). split; [done|]. by apply list_elem_of_filter.
  - intros Hn [k g] [_ ->]%grouped_elem [Hk Hp]. cbn in Hk, Hp. apply list_elem_of_fmap in Hp as ([k' p] & Ep & [Ek Hin]%list_elem_of_filter).
    cbn in Ep, Ek. subst. by apply Hn.
Qed.
Lemma prune_selected_ok positions db : pg_ok db -> Forall (fun kp => is_Some (pg_projects db !! kp.1)) positions ->
  exists db', prune_selected positions db = Ok ((length (pg_rows db) - length (pg_rows db'))%nat, db') /\
    pg_ok db' /\ (forall k, kept k db db') /\ pg_rows db' = filter (fun r => key_of r ∉ positions) (pg_rows db).
Proof.
  intros Hok Hknown. rewrite Forall_forall in Hknown.
  destruct (prune_grouped_ok (grouped fst positions) 0 db Hok) as (db' & E & Hok' & K' & _ & Er).
  { apply Forall_forall. intros [k g] [Hk _]%grouped_elem. apply list_elem_of_fmap in Hk as (kp & -> & Hin). by apply Hknown. }
  exists db'. split_and!; [exact E|done|done|]. rewrite Er. apply list_filter_iff. intros r. apply in_grouped.
Qed.

(** ** A batch of expired rows *)
Lemma rows_NoDup db : pg_ok db -> NoDup (pg_rows db).
Proof. intros Hok. eapply NoDup_fmap_1, pk_ids, Hok. Qed.
Lemma key_injective db r r' : pg_ok db -> r ∈ pg_rows db -> r' ∈ pg_rows db -> key_of r = key_of r' -> r = r'.
Proof.
  intros Hok Hr Hr' [= Ep En]. pose proof (pk_sorted _ Hok (pg_project_id r')) as Hs.
  assert (H1 : r ∈ rows_of (pg_project_id r') (pg_rows db)) by (by apply list_elem_of_filter).
  assert (H2 : r' ∈ rows_of (pg_project_id r') (pg_rows db)) by (by apply list_elem_of_filter).
  induction Hs as [|x l Hs IH Hx]; [by apply elem_of_nil in H1|]. rewrite Forall_forall in Hx. unfold pg_earlier in Hx.
  apply elem_of_cons in H1 as [->|H1], H2 as [->|H2]; [done|specialize (Hx _ H2); lia|specialize (Hx _ H1); lia|by apply IH].
Qed.

(** The oldest of the expired rows are deleted, at most a batch of them. *)
Lemma prune_batch_ok limit db : pg_ok db -> exists gone db', prune_batch limit db = Ok (length gone, db') /\
  pg_ok db' /\ (forall k, kept k db db') /\ gone ⊆ expired limit db /\
  (length gone <= PRUNE_BATCH_SIZE)%nat /\ ((length gone < PRUNE_BATCH_SIZE)%nat -> expired limit db ⊆ gone) /\
  pg_rows db' = filter (fun r => key_of r ∉ (key_of <$> gone)) (pg_rows db) /\
  (length (pg_rows db') + length gone = length (pg_rows db))%nat.
Proof.
  intros Hok. set (gone := take PRUNE_BATCH_SIZE (merge_sort by_received (expired limit db))).
  assert (Hsub : gone ⊆ expired limit db).
  { intros r Hr%subseteq_take. by rewrite merge_sort_Permutation in Hr. }
  assert (Hin : forall r, r ∈ gone -> r ∈ pg_rows db) by (intros r [_ Hr]%Hsub%list_elem_of_filter; done).
  destruct (prune_selected_ok (key_of <$> gone) db Hok) as (db' & E & Hok' & K' & Er).
  { apply Forall_forall. intros kp (r & -> & Hr)%list_elem_of_fmap. pose proof (pk_known _ Hok) as Hk.
    rewrite Forall_forall in Hk. apply Hk. by apply Hin. }
  assert (Hperm : filter (fun r => key_of r ∈ (key_of <$> gone)) (pg_rows db) ≡ₚ gone).
  { apply NoDup_Permutation.
    - apply NoDup_filter, rows_NoDup, Hok.
    - apply (sublist_NoDup _ (merge_sort by_received (expired limit db))); [|apply sublist_take].
      rewrite merge_sort_Permutation. apply NoDup_filter, rows_NoDup, Hok.
    - intros r. rewrite list_elem_of_filter. split.
      + intros [(r' & Ek & Hr')%list_elem_of_fmap Hr]. by rewrite (key_injective db r r' Hok Hr (Hin r' Hr') Ek).
      + intros Hr. split; [by apply list_elem_of_fmap_2|by apply Hin]. }
  assert (Hlen : (length (pg_rows db') + length gone = length (pg_rows db))%nat).
  { rewrite Er, <- Hperm. clear. induction (pg_rows db) as [|r l IH]; [done|]. rewrite !filter_cons.
    repeat case_decide; cbn [length]; try lia; tauto. }
  exists gone, db'. split_and!; try done.
  - unfold prune_batch, select_expired. fold gone. change (fun r => (pg_project_id r, pg_position r)) with key_of.
    rewrite E. do 2 f_equal. lia.
  - unfold gone. rewrite length_take. lia.
  - intros Hl r Hr. unfold gone in Hl |- *. rewrite length_take in Hl. rewrite take_ge by lia. by rewrite merge_sort_Permutation.
Qed.

(** The retention loop ends, whatever the time, after it deleted exactly the rows that
    had expired at its last batch. *)
Theorem retention_deletes_the_expired db : forall fuel clock, pg_ok db -> (length (pg_rows db) < fuel)%nat ->
  (forall i, clock i <= clock (S i)) ->
  exists n db', prune_expired fuel clock db = Some (Ok (), db') /\ pg_ok db' /\ (forall k, kept k db db') /\
    pg_rows db' = filter (fun r => clock n <= pg_received_at r) (pg_rows db).
Proof.
  intros fuel. revert db. induction fuel as [|fuel IH]; intros db clock Hok Hf Hc; [lia|]. cbn [prune_expired].
  assert (Hmono : forall n, clock O <= clock n) by (induction n as [|n IHn]; [lia|specialize (Hc n); lia]).
  destruct (prune_batch_ok (clock O) db Hok) as (gone & db1 & -> & Hok1 & K1 & Hsub & Hle & Hall & Er & Hl).
  assert (Hold : forall r, r ∈ pg_rows db -> key_of r ∈ key_of <$> gone -> pg_received_at r < clock O).
  { intros r Hr (r' & Ek & Hr')%list_elem_of_fmap. apply Hsub, list_elem_of_filter in Hr' as [? Hr'].
    by rewrite (key_injective db r r' Hok Hr Hr' Ek). }
  destruct (length gone =? PRUNE_BATCH_SIZE)%nat eqn:Eb.
  - apply Nat.eqb_eq in Eb. assert (0 < PRUNE_BATCH_SIZE)%nat by (apply Nat.ltb_lt; by vm_compute).
    destruct (IH db1 (fun i => clock (S i)) Hok1) as (n & db' & -> & Hok' & K' & Er'); [lia|intros i; apply Hc|].
    exists (S n), db'. split_and!; [done|done|intros k; by eapply kept_trans|]. rewrite Er', Er, list_filter_filter.
    apply filter_ext_in. intros r Hr. split; [by intros [? _]|]. intros Hn. split; [done|]. intros Hk.
    specialize (Hold r Hr Hk). specialize (Hmono (S n)). lia.
  - apply Nat.eqb_neq in Eb. exists O, db1. split_and!; try done. rewrite Er. apply filter_ext_in. intros r Hr. split.
    + intros Hk. apply Z.nlt_ge. intros Hlt. apply Hk, list_elem_of_fmap_2.
      apply Hall; [lia|]. by apply list_elem_of_filter.
    + intros Hn Hk. specialize (Hold r Hr Hk). lia.
Qed.

(** ** Tables over time *)
Lemma prune_kept positions db n db' : pg_ok db -> prune_selected positions db = Ok (n, db') ->
  pg_ok db' /\ forall k, kept k db db'.
Proof.
  unfold prune_selected. generalize 0%nat. generalize (grouped fst positions). intros l.
  revert db. induction l as [|[k g] l IH]; intros db d Hok; cbn [try_fold].
  - intros [= <- <-]. split; [done|]. intros k. apply kept_refl.
  - intros ([d1 db1] & H1 & H2)%bind_ok. destruct (pg_projects db !! k) as [p|] eqn:Ek; [|cbn in H1; by rewrite Ek in H1].
    destruct (prune_project_ok d db k g Hok) as (db2 & E & Hok2 & K2 & _); [by rewrite Ek|].
    rewrite E in H1. injection H1 as <- <-. destruct (IH db2 _ Hok2 H2) as [Hok' K']. split; [done|].
    intros q. by eapply kept_trans.
Qed.

(** A batch is appended, or a batch of positions pruned that was selected earlier. *)
Inductive pg_step (db db' : PgTraces) : Prop :=
| step_append events clock : pg_append events clock db = Ok db' -> pg_step db db'
| step_prune older limit n : prune_selected (select_expired limit older) db = Ok (n, db') -> pg_step db db'.
Lemma pg_steps_kept db db' : pg_ok db -> rtc pg_step db db' -> pg_ok db' /\ forall k, kept k db db'.
Proof.
  intros Hok Hs. induction Hs as [db|db db1 db' Hs _ IH]; [split; [done|]; intros k; apply kept_refl|].
  assert (pg_ok db1 /\ forall k, kept k db db1) as [Hok1 K1].
  { destruct Hs as [events clock Ha|older limit n Hp]; [|by eapply prune_kept].
    by destruct (pg_append_ok _ _ _ _ Hok Ha) as (? & ? & _). }
  destruct (IH Hok1) as [Hok' K']. split; [done|]. intros k. by eapply kept_trans.
Qed.
End invariant.

(** * Following a project *)
Section following.
Context `{Base64Url, Json HistoryCursor, Json ReplayCursor, Json filter_tuple, !Base64UrlLaws,
  !JsonLaws ReplayCursor, Json TraceEvent, !JsonLaws TraceEvent}.
Abbreviation cursor_at project p := (resume_cursor project "postgres" p).
Abbreviation pg_record r := (record_of (pg_base r)).

Definition pg_between (db : PgTraces) (project : string) (a b : Z) : list pg_row :=
  filter (fun r => pg_project_id r = project /\ a < pg_position r <= b) (pg_rows db).
Lemma pg_between_sorted db project a b : pg_ok db -> StronglySorted pg_earlier (pg_between db project a b).
Proof.
  intros Hok. replace (pg_between db project a b)
    with (filter (fun r => a < pg_position r <= b) (rows_of project (pg_rows db))).
  - apply sorted_filter, pk_sorted, Hok.
  - unfold rows_of, pg_between. rewrite list_filter_filter. apply list_filter_iff. naive_solver.
Qed.
Lemma pg_between_ordered db project a b : pg_ok db ->
  merge_sort by_position (pg_between db project a b) = pg_between db project a b.
Proof.
  intros Hok. pose proof (pg_between_sorted db project a b Hok) as Hs.
  assert (Transitive by_position) by (intros x y z; unfold by_position; lia).
  assert (Total by_position) by (intros x y; unfold by_position; lia).
  apply (StronglySorted_unique_strong by_position).
  - intros r r' Hr Hr' ? ?. rewrite merge_sort_Permutation in Hr.
    apply list_elem_of_filter in Hr as [[Hp _] Hr], Hr' as [[Hp' _] Hr'].
    apply (key_injective db); [done..|]. unfold key_of, by_position in *. f_equal; [congruence|lia].
  - by apply StronglySorted_merge_sort.
  - clear -Hs. induction Hs as [|x l _ IH Hx]; constructor; [done|]. eapply Forall_impl; [exact Hx|].
    unfold pg_earlier, by_position. lia.
  - apply merge_sort_Permutation.
Qed.
Lemma pg_between_trim db project a b n r : pg_ok db -> last (take n (pg_between db project a b)) = Some r ->
  pg_between db project a (pg_position r) = take n (pg_between db project a b) /\ a < pg_position r <= b.
Proof.
  intros Hok Hl. pose proof (pg_between_sorted db project a b Hok) as Hs.
  assert (Hin : r ∈ pg_between db project a b) by (apply last_Some_elem_of in Hl; by eapply subseteq_take).
  apply list_elem_of_filter in Hin as [[_ Hr] _]. split; [|done].
  apply last_Some in Hl as [pre Hpre]. pose proof (take_drop n (pg_between db project a b)) as Htd.
  rewrite Hpre, <- app_assoc in Htd. cbn in Htd.
  transitivity (filter (fun y => pg_position y <= pg_position r) (pg_between db project a b)).
  - unfold pg_between. rewrite list_filter_filter. apply list_filter_iff. intros y. naive_solver lia.
  - rewrite Hpre, <- Htd. rewrite <- Htd in Hs. apply (filter_until pg_earlier); [exact pg_earlier_asym|done|].
    intros y _. unfold pg_earlier. lia.
Qed.

Lemma records_decode db rows : pg_ok db -> rows ⊆ pg_rows db -> records rows = Ok (map (fun r => pg_record r) rows).
Proof.
  intros Hok Hsub. apply collect_ok_total. intros r Hr%Hsub. pose proof (pk_rows _ Hok) as Hrows. rewrite Forall_forall in Hrows.
  destruct (Hrows r Hr) as (Hb & e & (_ & Eev & _) & _). unfold record_of. rewrite Eev, json_roundtrip. cbn.
  rewrite as_u64_id; [done|]. pose proof (project_bounds db (pg_project_id r) Hok). lia.
Qed.

(** A page of a reader at position [p] *)
Lemma pg_replay_page db project limit p : pg_ok db -> (1 <= limit)%nat -> p <= head_of db project ->
  exists page, pg_replay db project {| rq_cursor := Some (cursor_at project p); rq_limit := limit |} = Ok page /\
    pg_resume_cursor page = cursor_at project (pg_cursor page) /\ p <= pg_cursor page <= head_of db project /\
    pg_reset page = (p <? pruned_of db project) /\
    (pg_reset page = false -> pg_records page = map (fun r => pg_record r) (pg_between db project p (pg_cursor page))).
Proof.
  intros Hok Hlim Hp. destruct (pg_metadata_ok db project Hok) as [Ehead Epruned].
  pose proof (project_bounds db project Hok) as Hb. unfold pg_replay, ReplayPage_new. cbn [rq_cursor rq_limit transpose].
  unfold decode, resume_cursor at 1, encode at 1. rewrite b64_roundtrip, json_roundtrip.
  cbn [mbind Result_bind rc_project_id rc_position rc_generation].
  change (md_generation (pg_metadata db project)) with "postgres". rewrite !String.eqb_refl. cbn [negb orb andb].
  rewrite Ehead, Epruned. rewrite (proj2 (Z.ltb_ge I64_MAX p)), (proj2 (Z.ltb_ge (head_of db project) p)) by lia.
  cbn [orb mbind Result_bind rc_position fmap option_fmap option_map rp_metadata rp_after rp_reset rp_project_id negb].
  cbn [rc_generation rc_position]. rewrite String.eqb_refl. cbn [negb orb]. unfold pg_select_replay. rewrite Ehead.
  assert (Hin : forall a b, pg_between db project a b ⊆ pg_rows db) by (intros a b r [_ Hr]%list_elem_of_filter; done).
  destruct (p <? pruned_of db project) eqn:Er.
  - cbn [default from_option]. fold (pg_between db project 0 (head_of db project)). rewrite (records_decode db); [|done|].
    2:{ intros r Hr%subseteq_take. rewrite merge_sort_Permutation in Hr. by eapply Hin. }
    cbn [mbind Result_bind]. unfold ReplayPage_finish. cbn [rp_after rp_metadata rp_project_id rp_reset mbind Result_bind].
    rewrite Ehead. eexists. split; [done|]. cbn [pg_resume_cursor pg_cursor pg_reset pg_records]. split; [done|]. split; [lia|]. done.
  - cbn [default from_option id]. fold (pg_between db project p (head_of db project)). rewrite pg_between_ordered by done.
    rewrite (records_decode db); [|done|intros r Hr%subseteq_take; by eapply Hin].
    cbn [mbind Result_bind]. unfold ReplayPage_finish. cbn [rp_after rp_metadata rp_project_id rp_reset].
    rewrite length_map, length_take, <- firstn_map, take_take. replace (limit `min` S limit)%nat with limit by lia.
    set (rows := pg_between db project p (head_of db project)).
    destruct (limit <? S limit `min` length rows)%nat eqn:Em.
    + apply Nat.ltb_lt in Em. destruct (last (take limit rows)) as [r|] eqn:El;
        [|apply last_None in El; apply (f_equal length) in El; rewrite length_take in El; cbn in El; lia].
      destruct (pg_between_trim _ _ _ _ _ _ Hok El) as [Et Hr].
      rewrite firstn_map. change (map ?f ?l) with (f <$> l). rewrite fmap_last, El.
      cbn [fmap option_fmap option_map with_context mbind Result_bind]. eexists. split; [done|].
      cbn [pg_resume_cursor pg_cursor pg_reset pg_records record_of rec_sequence].
      split; [done|]. split; [lia|]. split; [done|]. intros _. rewrite Et. done.
    + apply Nat.ltb_ge in Em. cbn [mbind Result_bind]. rewrite Ehead. eexists. split; [done|].
      cbn [pg_resume_cursor pg_cursor pg_reset pg_records].
      split; [done|]. split; [lia|]. split; [done|]. intros _. rewrite firstn_map, take_ge by lia. done.
Qed.

(** A reader who keeps asking for what came after its last page; whether a page told
    it to start over, what it got, and its cursor at the end *)
Fixpoint pg_follow (dbs : list PgTraces) (project : string) (limit : nat) (cursor : string)
  : Result (bool * list TraceRecord * string) :=
  match dbs with
  | [] => Ok (false, [], cursor)
  | db :: dbs =>
      page ← pg_replay db project {| rq_cursor := Some cursor; rq_limit := limit |};
      '(reset, found, cursor) ← pg_follow dbs project limit (pg_resume_cursor page);
      Ok (pg_reset page || reset, (pg_records page ++ found)%list, cursor)
  end.
(** Each state of the tables comes after the one before. *)
Fixpoint pg_growing (db : PgTraces) (dbs : list PgTraces) : Prop :=
  match dbs with
  | [] => True
  | db' :: dbs => rtc pg_step db db' /\ pg_growing db' dbs
  end.

(** What a reader who was at [p] and is at [p'] may count on *)
Record pg_followed (project : string) (dbs : list PgTraces) (p p' : Z) (found : list TraceRecord) : Prop := {
  pf_position : p <= p';
  pf_ascending : StronglySorted Z.lt (sequences found);
  pf_within : Forall (fun n => p < n <= p') (sequences found);
  pf_complete : forall db r, db ∈ dbs -> r ∈ pg_rows db -> pg_project_id r = project -> p < pg_position r <= p' ->
    pg_record r ∈ found;
  pf_sound : forall x, x ∈ found -> exists db r, db ∈ dbs /\ r ∈ pg_rows db /\ pg_project_id r = project /\ x = pg_record r }.

Lemma pg_growth_later db dbs : pg_ok db -> pg_growing db dbs -> forall db', db' ∈ dbs ->
  pg_ok db' /\ forall k, kept k db db'.
Proof.
  revert db. induction dbs as [|d dbs IH]; intros db Hok Hc db' Hin; [by apply elem_of_nil in Hin|].
  destruct Hc as [Hg Hc]. destruct (pg_steps_kept db d Hok Hg) as [Hd Hf].
  apply elem_of_cons in Hin as [->|Hin]; [done|]. destruct (IH d Hd Hc db' Hin) as [Hd' Hf'].
  split; [done|]. intros k. by eapply kept_trans.
Qed.
Lemma pg_sequences rows : StronglySorted pg_earlier rows -> StronglySorted Z.lt (sequences (map (fun r => pg_record r) rows)).
Proof.
  induction 1 as [|r rows _ IH Hr]; [constructor|]. cbn. constructor; [done|]. rewrite Forall_forall in Hr. apply Forall_forall.
  intros n (x & -> & (r' & <- & Hr')%list_elem_of_In%in_map_iff)%list_elem_of_fmap. rewrite <- list_elem_of_In in Hr'.
  by apply Hr.
Qed.
Lemma in_between_records db project a b x : x ∈ map (fun r => pg_record r) (pg_between db project a b) <->
  exists r, x = pg_record r /\ r ∈ pg_rows db /\ pg_project_id r = project /\ a < pg_position r <= b.
Proof.
  rewrite list_elem_of_In, in_map_iff. split.
  - intros (r & <- & Hr). rewrite <- list_elem_of_In in Hr. apply list_elem_of_filter in Hr as [[? ?] ?]. by exists r.
  - intros (r & -> & ? & ? & ?). exists r. split; [done|]. apply list_elem_of_In, list_elem_of_filter. done.
Qed.

(** One page and what follows it *)
Lemma pg_followed_cons project db d dbs p p1 p2 found : pg_ok db -> pg_growing db (d :: dbs) ->
  pruned_of d project <= p <= p1 -> p1 <= head_of d project -> p <= head_of db project ->
  pg_followed project (d :: dbs) p1 p2 found ->
  pg_followed project (db :: d :: dbs) p p2 (map (fun r => pg_record r) (pg_between d project p p1) ++ found).
Proof.
  intros Hok [Hg Hc] Hp Hh Hpd [Hle Has Hw Hcomp Hsound]. destruct (pg_steps_kept db d Hok Hg) as [Hd Hf].
  assert (Hfirst : Forall (fun n => p < n <= p1) (sequences (map (fun r => pg_record r) (pg_between d project p p1)))).
  { apply Forall_forall. intros n (x & -> & (r & -> & _ & _ & Hr)%in_between_records)%list_elem_of_fmap. done. }
  rewrite Forall_forall in Hfirst, Hw. constructor.
  - lia.
  - unfold sequences in *. rewrite fmap_app. apply StronglySorted_app.
    split; [|split; [by apply pg_sequences, pg_between_sorted|done]].
    intros a b Ha Hb. specialize (Hfirst a Ha). specialize (Hw b Hb). lia.
  - unfold sequences in *. rewrite fmap_app. apply Forall_app. split; apply Forall_forall; intros n Hn;
      [specialize (Hfirst n Hn)|specialize (Hw n Hn)]; lia.
  - assert (Hlater : forall db' r, db' ∈ d :: dbs -> r ∈ pg_rows db' -> pg_project_id r = project -> p < pg_position r <= p2 ->
      pg_record r ∈ (map (fun r => pg_record r) (pg_between d project p p1) ++ found)%list).
    { intros db' r Hin Hr Epr Hpos. apply elem_of_app. destruct (Z.le_gt_cases (pg_position r) p1) as [Hlow|Hhigh];
        [left|right; apply (Hcomp db'); try done; lia].
      apply in_between_records. exists r. split_and!; try done; [|lia]. apply elem_of_cons in Hin as [->|Hin]; [done|].
      destruct (pg_growth_later d dbs Hd Hc db' Hin) as [_ Hk]. apply (kp_old _ _ _ (Hk project)); [done|lia|done]. }
    intros db' r [->|Hin]%elem_of_cons Hr Epr Hpos; [|by apply (Hlater db')].
    apply (Hlater d); try done; [by left|]. apply (kp_stays _ _ _ (Hf project)); [done|lia|done].
  - intros x [Hx|Hx]%elem_of_app.
    + apply in_between_records in Hx as (r & -> & ? & ? & _). exists d, r. split_and!; [set_solver|done..].
    + destruct (Hsound x Hx) as (db' & r & ? & ?). exists db', r. split; [set_solver|done].
Qed.

(** Traces in PostgreSQL: a reader that keeps asking for what came after its last page
    misses nothing without being told, although traces expire by the time they were
    received and not by position: whatever batches are appended and pruned in between,
    either one of its pages says to start over, or it received, in ascending order and
    once each, every trace of its project that the tables held at any of those times
    between its first and its last position. *)
Theorem postgres_reader_misses_nothing project limit db dbs p :
  (1 <= limit)%nat -> pg_ok db -> pg_growing db dbs -> p <= head_of db project ->
  exists reset found p', pg_follow dbs project limit (cursor_at project p) = Ok (reset, found, cursor_at project p') /\
    (reset = false -> pg_followed project (db :: dbs) p p' found).
Proof.
  intros Hlim. revert db p. induction dbs as [|d dbs IH]; intros db p Hok Hc Hp; cbn [pg_follow].
  - exists false, [], p. split; [done|]. intros _. constructor; try done; try constructor; try lia.
    intros x Hx. by apply elem_of_nil in Hx.
  - pose proof Hc as [Hg Hc']. destruct (pg_steps_kept db d Hok Hg) as [Hd Hf].
    pose proof (kp_head _ _ _ (Hf project)) as Hh.
    destruct (pg_replay_page d project limit p Hd Hlim) as (page & -> & Ec & Hb & Er & Hrec); [lia|].
    cbn [mbind Result_bind]. rewrite Ec. destruct (IH d (pg_cursor page) Hd Hc') as (reset & found & p' & -> & Hfw); [lia|].
    cbn [mbind Result_bind]. exists (pg_reset page || reset), (pg_records page ++ found)%list, p'. split; [done|].
    intros [Hr ->]%orb_false_iff. rewrite (Hrec Hr). rewrite Hr in Er. symmetry in Er. bools.
    apply pg_followed_cons; try done; try lia. by apply Hfw.
Qed.
End following.

(** * Example *)
From S2P Require Import Samples.
Import TraceSamples.

(** A trace is received at the time of its position. *)
Definition pg_appended (ids : list string) (db : PgTraces) : PgTraces :=
  match pg_append (sample_event <$> ids) (fun _ n => n) db with Ok db => db | Err _ => db end.
Definition pg_pruned (limit : Z) (db : PgTraces) : PgTraces :=
  match prune_batch limit db with Ok (_, db) => db | Err _ => db end.
Definition pg_three : PgTraces := pg_appended ["a"; "b"; "c"] PgTraces_new.
(** [b] is sent again, [a] and [b] expire. *)
Definition pg_later : PgTraces := pg_pruned 3 (pg_appended ["b"; "d"] pg_three).

Lemma pg_three_reached : pg_step PgTraces_new pg_three.
Proof. eapply (step_append _ _ (sample_event <$> ["a"; "b"; "c"]) (fun _ n => n)). vm_compute. reflexivity. Qed.
Lemma pg_later_reached : rtc pg_step pg_three pg_later.
Proof.
  eapply rtc_l; [eapply (step_append _ (pg_appended ["b"; "d"] pg_three) (sample_event <$> ["b"; "d"]) (fun _ n => n));
                 vm_compute; reflexivity|].
  eapply rtc_once, (step_prune _ _ (pg_appended ["b"; "d"] pg_three) 3 2). vm_compute. reflexivity.
Qed.
Lemma pg_later_rows : (fun r => (r_event_id (pg_base r), pg_position r)) <$> pg_rows pg_later = [("c", 3); ("d", 5)].
Proof. vm_compute. reflexivity. Qed.

Lemma postgres_reader_misses_nothing_witness :
  exists reset found p', pg_follow [pg_three; pg_later] "p" 2 (resume_cursor "p" "postgres" 0)
      = Ok (reset, found, resume_cursor "p" "postgres" p') /\
    (reset = false -> pg_followed "p" [PgTraces_new; pg_three; pg_later] 0 p' found).
Proof.
  apply (postgres_reader_misses_nothing "p" 2 PgTraces_new [pg_three; pg_later] 0).
  - lia.
  - exact PgTraces_new_ok.
  - split; [apply rtc_once, pg_three_reached|]. split; [exact pg_later_reached|exact I].
  - vm_compute. discriminate.
Defined.
(** The reader has read [a] and [b] when they expire, and goes on. *)
Lemma reader_goes_on :
  match pg_follow [pg_three; pg_later] "p" 2 (resume_cursor "p" "postgres" 0) with
  | Ok (reset, found, _) => reset = false /\ sequences found = [1; 2; 3; 5]
  | Err _ => False
  end.
Proof. vm_compute. split; reflexivity. Qed.
