(* ===== verification/TraceMetrics.v ===== *)
(** The aggregates over request traces: the overview of a project, the waits in its
    queues and its WebSocket sessions ([request_traces/metrics.rs],
    [request_traces/persistence/sqlite/metrics.rs] and the queries of
    [request_traces/persistence/postgres.rs]).

    A statement is a function on the rows that it reads; both databases are brought to
    the same columns ([sample], [socket_row]): in PostgreSQL they are columns of the table, in SQLite
    most are extracted from the text of the event.  How a quotient or an average is
    rounded is a parameter ([F64Arithmetic]).

    Shows that the two overviews, which are written differently, agree, and that the
    95th percentile is the one of the nearest-rank method. *)

From Stdlib Require Import QArith_base.
From S2P Require Import Prelude.
From S2P Require Import Actors.
From S2P Require Import StoragePaths.
From S2P Require Import Snapshots.
From S2P Require Import Inspection.
From S2P Require Import RequestTraces.
From S2P Require Import TraceHistory.
From S2P Require Import TracePaging.
From S2P Require Import PostgresTraces.
Local Open Scope string_scope.
Local Open Scope Z_scope.

(** * Data *)
Record ClassMetrics := {
  cm_actor_name : string;
  cm_count : Z;
  cm_success : option f64;
  cm_p95 : option f64;
  cm_queue_p95 : option f64 }.
Definition ClassMetrics_default : ClassMetrics :=
  {| cm_actor_name := ""; cm_count := 0; cm_success := None; cm_p95 := None; cm_queue_p95 := None |}.
Record OverviewMetrics := { om_total : ClassMetrics; om_classes : list ClassMetrics }.
Record QueueWaitRow := {
  qr_actor_name : string;
  qr_actor_id : string;
  qr_admitted : Z;
  qr_average_ms : f64;
  qr_max_ms : f64 }.
Record SocketSession := {
  so_connection_id : string;
  so_actor_name : string;
  so_actor_id : string;
  so_host_id : option string;
  so_opened_at_ms : option Z;
  so_closed_at_ms : option Z;
  so_last_seen_ms : option Z;
  so_messages : Z;
  so_failures : Z;
  so_metadata : option Value }.

(** What the statements on requests read of a row, and what those on sockets do *)
Record sample := {
  sa_actor_name : string;
  sa_actor_id : string;
  sa_outcome : string;
  sa_started_at_ms : Z;
  sa_duration_ms : f64;
  sa_queue_wait_ms : option f64 }.
Record socket_row := {
  sr_connection_id : option string;
  sr_actor_name : string;
  sr_actor_id : string;
  sr_kind : string;
  sr_operation : string;
  sr_outcome : string;
  sr_started_at_ms : Z;
  sr_position : Z;
  sr_host_id : option string;
  sr_event : string }.

(** ['$.durationMs'], ['$.queueWaitMs'], ['$.kind'], ['$.operation'] and ['$.hostId'] *)
Class SqliteColumns := {
  extract_duration : string -> f64;
  extract_wait : string -> option f64;
  extract_kind : string -> string;
  extract_operation : string -> string;
  extract_host : string -> option string }.
Class SqliteColumnsLaws `{SqliteColumns, Json TraceEvent} : Prop := {
  extracted_duration : forall e, extract_duration (to_vec e) = tr_duration_ms (ev_trace e);
  extracted_wait : forall e, extract_wait (to_vec e) = tr_queue_wait_ms (ev_trace e);
  extracted_kind : forall e, extract_kind (to_vec e) = kind_str (tr_kind (ev_trace e));
  extracted_operation : forall e, extract_operation (to_vec e) = tr_operation (ev_trace e);
  extracted_host : forall e, extract_host (to_vec e) = Some (ev_host_id e) }.

Section columns.
Context `{SqliteJson, SqliteColumns}.
Definition sqlite_sample (r : row) : sample :=
  {| sa_actor_name := r_actor_name r; sa_actor_id := r_actor_id r; sa_outcome := r_outcome r;
     sa_started_at_ms := r_started_at_ms r; sa_duration_ms := extract_duration (r_event r);
     sa_queue_wait_ms := extract_wait (r_event r) |}.
Definition pg_sample (r : pg_row) : sample :=
  {| sa_actor_name := r_actor_name (pg_base r); sa_actor_id := r_actor_id (pg_base r); sa_outcome := r_outcome (pg_base r);
     sa_started_at_ms := r_started_at_ms (pg_base r); sa_duration_ms := pg_duration_ms r;
     sa_queue_wait_ms := pg_queue_wait_ms r |}.
Definition sqlite_socket_row (r : row) : socket_row :=
  {| sr_connection_id := extract_connection_id (r_event r); sr_actor_name := r_actor_name r; sr_actor_id := r_actor_id r;
     sr_kind := extract_kind (r_event r); sr_operation := extract_operation (r_event r); sr_outcome := r_outcome r;
     sr_started_at_ms := r_started_at_ms r; sr_position := r_position r; sr_host_id := extract_host (r_event r);
     sr_event := r_event r |}.
Definition pg_socket_row (r : pg_row) : socket_row :=
  {| sr_connection_id := pg_connection_id r; sr_actor_name := r_actor_name (pg_base r); sr_actor_id := r_actor_id (pg_base r);
     sr_kind := pg_kind r; sr_operation := pg_operation r; sr_outcome := r_outcome (pg_base r);
     sr_started_at_ms := r_started_at_ms (pg_base r); sr_position := pg_position r; sr_host_id := Some (pg_host_id r);
     sr_event := r_event (pg_base r) |}.
End columns.

(** [100.0 * a as f64 / b as f64], and [AVG] *)
Class F64Arithmetic := { percentage : Z -> Z -> f64; average : list f64 -> f64 }.

(** * SQL *)
Definition in_range (from to : option Z) (r : sample) : bool :=
  is_none_or (fun ms => ms <=? sa_started_at_ms r) from && is_none_or (fun ms => sa_started_at_ms r <=? ms) to.
Definition rerouted (r : sample) : bool := String.eqb (sa_outcome r) "rerouted".
Definition completed (r : sample) : bool := String.eqb (sa_outcome r) "completed".
Definition count_if {A} (p : A -> bool) (l : list A) : Z := Z.of_nat (length (filter (fun a => p a = true) l)).
(** [NaN], which no trace holds, comes last. *)
Definition f64_order (a b : f64) : Prop := f64_le a b || negb (f64_le b b) = true.
#[global] Instance f64_order_dec a b : Decision (f64_order a b).
Proof. unfold f64_order. apply _. Defined.
Definition f64_max (a b : f64) : f64 := if f64_le a b then b else a.
(** [MAX(x)], which passes over [NULL] *)
Definition sql_max {A} (greater : A -> A -> A) (l : list (option A)) : option A :=
  foldr (fun x m => match x, m with Some a, Some b => Some (greater a b) | Some a, None => Some a | None, _ => m end) None l.

(** ** The overview in SQLite *)
(** [(n * 95 + 99) / 100] *)
Definition rank95 (n : nat) : nat := ((n * 95 + 99) / 100)%nat.
(** [MAX(CASE WHEN rank = MAX(1, ..) THEN value END)] over the rows in their order *)
Definition ranked95 (n : nat) (ordered : list (option f64)) : option f64 :=
  sql_max f64_max (imap (fun i v => if (S i =? Nat.max 1 (rank95 n))%nat then v else None) ordered).
Definition waits (l : list sample) : list f64 := omap sa_queue_wait_ms l.
Definition sqlite_p95 (l : list sample) : option f64 :=
  ranked95 (length l) (Some <$> merge_sort f64_order (sa_duration_ms <$> l)).
(** Rows that did not wait come last. *)
Definition sqlite_queue_p95 (l : list sample) : option f64 :=
  let queued := length (waits l) in
  if (0 <? queued)%nat
  then ranked95 queued ((Some <$> merge_sort f64_order (waits l)) ++ replicate (length l - queued) None)
  else None.

Definition renamed (r : sample) : sample :=
  {| sa_actor_name := ""; sa_actor_id := sa_actor_id r; sa_outcome := sa_outcome r; sa_started_at_ms := sa_started_at_ms r;
     sa_duration_ms := sa_duration_ms r; sa_queue_wait_ms := sa_queue_wait_ms r |}.
Definition of_actor (name : string) (l : list sample) : list sample := filter (fun r => sa_actor_name r = name) l.
Definition attempts (l : list sample) : list sample := filter (fun r => rerouted r = false) l.
Definition ROW_LIMIT : nat := 500.

Section overview.
Context `{F64Arithmetic}.

(** [(attempts > 0).then(..)] *)
Definition success_of (completed attempts : Z) : option f64 :=
  if 0 <? attempts then Some (percentage completed attempts) else None.

Definition sqlite_metric (events : list sample) (name : string) : ClassMetrics :=
  let l := of_actor name events in
  let tried := attempts l in
  {| cm_actor_name := name; cm_count := Z.of_nat (length l);
     cm_success := success_of (count_if completed tried) (Z.of_nat (length tried));
     cm_p95 := sqlite_p95 tried; cm_queue_p95 := sqlite_queue_p95 tried |}.
(** The loop over the rows *)
Definition add_metric (m : OverviewMetrics) (row : bool * ClassMetrics) : OverviewMetrics :=
  if row.1 then {| om_total := row.2; om_classes := om_classes m |}
  else {| om_total := om_total m; om_classes := om_classes m ++ [row.2] |}.
Definition add_metrics (rows : list (bool * ClassMetrics)) : OverviewMetrics :=
  foldl add_metric {| om_total := ClassMetrics_default; om_classes := [] |} rows.
Definition sqlite_overview_of (scoped : list sample) : OverviewMetrics :=
  let events := (scoped ++ (renamed <$> scoped))%list in
  add_metrics ((fun name => (is_empty name, sqlite_metric events name))
                 <$> take ROW_LIMIT (set_extend (sa_actor_name <$> events) [])).

(** ** The overview in PostgreSQL *)
(** [percentile_disc(0.95) WITHIN GROUP (ORDER BY x)] *)
Definition percentile_disc95 (l : list f64) : option f64 := merge_sort f64_order l !! (rank95 (length l) - 1)%nat.
Definition pg_metric (name : string) (l : list sample) : ClassMetrics :=
  {| cm_actor_name := name; cm_count := Z.of_nat (length l);
     cm_success := success_of (count_if completed l) (count_if (fun r => negb (rerouted r)) l);
     cm_p95 := percentile_disc95 (sa_duration_ms <$> attempts l);
     cm_queue_p95 := percentile_disc95 (waits (attempts l)) |}.
(** [GROUP BY GROUPING SETS ((actor_name), ())], the total first *)
Definition pg_overview_of (scoped : list sample) : OverviewMetrics :=
  add_metrics (take ROW_LIMIT
    ((true, pg_metric "" scoped)
     :: ((fun name => (false, pg_metric name (of_actor name scoped))) <$> set_extend (sa_actor_name <$> scoped) []))).

(** ** Waits in the queues, in both *)
Definition longer (a b : QueueWaitRow) : Prop :=
  qr_admitted b < qr_admitted a \/ qr_admitted b = qr_admitted a /\
    (String.compare (qr_actor_name a) (qr_actor_name b) = Lt \/
     qr_actor_name a = qr_actor_name b /\ String.leb (qr_actor_id a) (qr_actor_id b) = true).
#[global] Instance longer_dec a b : Decision (longer a b).
Proof. unfold longer. apply _. Defined.
Definition queue_key (r : sample) : string * string := (sa_actor_name r, sa_actor_id r).
(** A group has a wait, so its [MAX] is not [NULL]. *)
Definition queue_row (l : list sample) (key : string * string) : QueueWaitRow :=
  let w := waits (filter (fun r => queue_key r = key) l) in
  {| qr_actor_name := key.1; qr_actor_id := key.2; qr_admitted := Z.of_nat (length w); qr_average_ms := average w;
     qr_max_ms := default NaN (sql_max f64_max (Some <$> w)) |}.
Definition queue_waits_of (q : QueueWaitQuery) (rows : list sample) : list QueueWaitRow :=
  let l := filter (fun r => is_Some (sa_queue_wait_ms r) /\ rerouted r = false /\
                            in_range (qw_from_ms q) (qw_to_ms q) r = true /\
                            eq_text (qw_actor_name q) (Some (sa_actor_name r)) = true) rows in
  take ROW_LIMIT (merge_sort longer (queue_row l <$> remove_dups (queue_key <$> l))).
End overview.

Definition scope (range : TimeRange) (rows : list sample) : list sample :=
  filter (fun r => in_range (rg_from_ms range) (rg_to_ms range) r = true) rows.
Section requests.
Context `{F64Arithmetic, SqliteColumns}.
Definition sqlite_overview (db : TraceDb) (project : string) (range : TimeRange) : OverviewMetrics :=
  sqlite_overview_of (scope range (sqlite_sample <$> of_project project db)).
Definition pg_overview (db : PgTraces) (project : string) (range : TimeRange) : OverviewMetrics :=
  pg_overview_of (scope range (pg_sample <$> rows_of project (pg_rows db))).
Definition sqlite_queue_waits (db : TraceDb) (project : string) (q : QueueWaitQuery) : list QueueWaitRow :=
  queue_waits_of q (sqlite_sample <$> of_project project db).
Definition pg_queue_waits (db : PgTraces) (project : string) (q : QueueWaitQuery) : list QueueWaitRow :=
  queue_waits_of q (pg_sample <$> rows_of project (pg_rows db)).
End requests.

(** ** WebSocket sessions, in both *)
Abbreviation socket_session_key := (string * string * string)%type.
Definition socket_key (r : socket_row) : option socket_session_key :=
  (fun c => (c, sr_actor_name r, sr_actor_id r)) <$> sr_connection_id r.
Definition is_operation (name : string) (r : socket_row) : bool := String.eqb (sr_operation r) name.
(** [ORDER BY (operation = 'onConnect') DESC, started_at_ms, position] *)
Definition first_order (a b : socket_row) : Prop :=
  (is_operation "onConnect" a = true /\ is_operation "onConnect" b = false) \/
  (is_operation "onConnect" a = is_operation "onConnect" b /\
   (sr_started_at_ms a < sr_started_at_ms b \/
    sr_started_at_ms a = sr_started_at_ms b /\ sr_position a <= sr_position b)).
#[global] Instance first_order_dec a b : Decision (first_order a b).
Proof. unfold first_order. apply _. Defined.
Definition minimum (l : list Z) : option Z := sql_max Z.min (Some <$> l).
Definition maximum (l : list Z) : option Z := sql_max Z.max (Some <$> l).
Definition times (p : socket_row -> bool) (l : list socket_row) : list Z :=
  sr_started_at_ms <$> filter (fun r => p r = true) l.

(** [event.as_object_mut()?.remove("metadata")] of the parsed event *)
Definition connect_metadata `{Json Value} (event : option string) : Result (option Value) :=
  match event with
  | None => Ok None
  | Some text => v ← from_slice text; Ok (get_field v "metadata")
  end.

Section sockets.
Context `{Json Value}.

Definition session_rows (rows : list socket_row) (key : socket_session_key) : list socket_row :=
  filter (fun r => sr_kind r = "websocket" /\ socket_key r = Some key) rows.
Definition session_of (l : list socket_row) (key : socket_session_key) : Result SocketSession :=
  let first := head (merge_sort first_order l) in
  metadata ← connect_metadata (first ≫= fun r => if is_operation "onConnect" r then Some (sr_event r) else None);
  Ok {| so_connection_id := key.1.1; so_actor_name := key.1.2; so_actor_id := key.2;
        so_host_id := first ≫= sr_host_id;
        so_opened_at_ms := as_u64 <$> minimum (times (is_operation "onConnect") l);
        so_closed_at_ms := as_u64 <$> maximum (times (is_operation "onDisconnect") l);
        so_last_seen_ms := as_u64 <$> maximum (times (fun _ => true) l);
        so_messages := count_if (is_operation "onMessage") l;
        so_failures := count_if (fun r => negb (String.eqb (sr_outcome r) "completed" || String.eqb (sr_outcome r) "rerouted")) l;
        so_metadata := metadata |}.
(** [HAVING]: the session's span meets the range. *)
Definition in_span (range : TimeRange) (l : list socket_row) : bool :=
  match minimum (times (fun _ => true) l), maximum (times (fun _ => true) l) with
  | Some lo, Some hi => is_none_or (fun from => from <=? hi) (rg_from_ms range) && is_none_or (fun to => lo <=? to) (rg_to_ms range)
  | _, _ => false
  end.
(** [ORDER BY COALESCE(opened_at_ms, last_seen_ms) DESC, connection_id] *)
Definition session_time (l : list socket_row) : Z :=
  default 0 (match minimum (times (is_operation "onConnect") l) with
             | Some ms => Some ms
             | None => maximum (times (fun _ => true) l)
             end).
Definition session_order (rows : list socket_row) (a b : socket_session_key) : Prop :=
  session_time (session_rows rows b) < session_time (session_rows rows a) \/
  session_time (session_rows rows b) = session_time (session_rows rows a) /\ String.leb a.1.1 b.1.1 = true.
#[global] Instance session_order_dec rows a b : Decision (session_order rows a b).
Proof. unfold session_order. apply _. Defined.
Definition session_keys (range : TimeRange) (rows : list socket_row) : list socket_session_key :=
  let keys := remove_dups (omap socket_key (filter (fun r => sr_kind r = "websocket") rows)) in
  take ROW_LIMIT (merge_sort (session_order rows) (filter (fun key => in_span range (session_rows rows key) = true) keys)).
Definition websockets_of (range : TimeRange) (rows : list socket_row) : Result (list SocketSession) :=
  collect (fun key => session_of (session_rows rows key) key) (session_keys range rows).

Context `{SqliteJson, SqliteColumns}.
Definition sqlite_websockets (db : TraceDb) (project : string) (range : TimeRange) : Result (list SocketSession) :=
  websockets_of range (sqlite_socket_row <$> of_project project db).
Definition pg_websockets (db : PgTraces) (project : string) (range : TimeRange) : Result (list SocketSession) :=
  websockets_of range (pg_socket_row <$> rows_of project (pg_rows db)).
End sockets.

(** * The two overviews agree *)
Lemma sql_max_none {A} (greater : A -> A -> A) l : Forall (fun x => x = None) l -> sql_max greater l = None.
Proof. induction 1 as [|x l -> _ IH]; [done|]. exact IH. Qed.
Lemma sql_max_cons {A} (greater : A -> A -> A) x l : sql_max greater (x :: l) =
  match x, sql_max greater l with Some a, Some b => Some (greater a b) | Some a, None => Some a | None, m => m end.
Proof. done. Qed.
(** Only one row has the rank. *)
Lemma ranked_at l : forall k, sql_max f64_max (imap (fun i v => if (S i =? S k)%nat then v else None) l) = mjoin (l !! k).
Proof.
  induction l as [|x l IH]; intros k; [done|]. rewrite imap_cons. destruct k as [|k].
  - rewrite sql_max_cons, sql_max_none; [by destruct x|].
    apply Forall_forall. intros y (i & v & -> & _)%elem_of_lookup_imap. done.
  - rewrite sql_max_cons. cbn [lookup list_lookup Nat.eqb]. rewrite <- IH. done.
Qed.
Lemma rank95_bounds n : (0 < n)%nat -> (1 <= rank95 n <= n)%nat.
Proof.
  intros Hn. unfold rank95. split.
  - apply Nat.div_le_lower_bound; lia.
  - apply Nat.lt_succ_r, Nat.Div0.div_lt_upper_bound. lia.
Qed.
Lemma ranked95_percentile l k : ranked95 (length l) ((Some <$> merge_sort f64_order l) ++ replicate k None)
  = if (0 <? length l)%nat then percentile_disc95 l else None.
Proof.
  unfold ranked95, percentile_disc95. destruct (0 <? length l)%nat eqn:E.
  - apply Nat.ltb_lt in E. pose proof (rank95_bounds _ E) as Hr. rewrite Nat.max_r by lia.
    destruct (rank95 (length l)) as [|n] eqn:En; [lia|]. rewrite ranked_at. replace (S n - 1)%nat with n by lia.
    assert (Hlt : (n < length (merge_sort f64_order l))%nat) by (rewrite merge_sort_Permutation; lia).
    rewrite lookup_app_l by (by rewrite length_fmap). rewrite list_lookup_fmap.
    destruct (lookup_lt_is_Some_2 _ _ Hlt) as [x ->]. done.
  - apply Nat.ltb_ge in E. destruct l; [|cbn in E; lia]. apply sql_max_none, Forall_forall.
    intros x (i & v & -> & Hv)%elem_of_lookup_imap. cbn in Hv. apply list_elem_of_lookup_2, elem_of_replicate in Hv as [-> _].
    by case_match.
Qed.

(** The names with the empty one added: it comes first, once. *)
Lemma names_with_total names k : Forall (fun n => n <> "") names -> (0 < k)%nat ->
  set_extend (names ++ replicate k "") [] = "" :: set_extend names [].
Proof.
  intros Hn Hk. unfold set_extend. rewrite fold_left_app.
  assert (Hs : Forall (fun n => n <> "") (fold_left (fun s h => set_insert h s) names [])).
  { apply Forall_forall. intros x Hx. fold (set_extend names []) in Hx. rewrite Forall_forall in Hn.
    apply set_extend_elem in Hx as [Hx|Hx]; [by apply Hn|by apply elem_of_nil in Hx]. }
  destruct k as [|k]; [lia|]. cbn [replicate fold_left]. set (s := fold_left _ names []) in *.
  replace (set_insert "" s) with ("" :: s) by (destruct s as [|[|c x] s']; [done|by inversion Hs|done]).
  clearbody s. clear. induction k as [|k IH]; [done|]. exact IH.
Qed.

Section agreement.
Context `{F64Arithmetic}.

Lemma completed_attempts l : count_if completed (attempts l) = count_if completed l.
Proof.
  unfold count_if, attempts. rewrite list_filter_filter. do 2 f_equal. apply list_filter_iff. intros r.
  unfold completed, rerouted. split; [by intros [? _]|]. intros Hc. split; [done|].
  apply String.eqb_eq in Hc. by rewrite Hc.
Qed.
Lemma attempts_count l : Z.of_nat (length (attempts l)) = count_if (fun r => negb (rerouted r)) l.
Proof.
  unfold count_if, attempts. do 2 f_equal. apply list_filter_iff. intros r. by rewrite negb_true_iff.
Qed.
Lemma sqlite_metric_pg events name l : of_actor name events = l -> sqlite_metric events name = pg_metric name l.
Proof.
  intros <-. unfold sqlite_metric, pg_metric. cbn zeta. set (l := of_actor name events). f_equal.
  - by rewrite completed_attempts, attempts_count.
  - unfold sqlite_p95. pose proof (ranked95_percentile (sa_duration_ms <$> attempts l) 0) as Hr.
    rewrite length_fmap in Hr. cbn [replicate] in Hr. rewrite app_nil_r in Hr. rewrite Hr.
    destruct (attempts l); [done|]. done.
  - unfold sqlite_queue_p95. rewrite ranked95_percentile. destruct (0 <? length (waits (attempts l)))%nat eqn:E; [done|].
    apply Nat.ltb_ge in E. destruct (waits (attempts l)); [done|cbn in E; lia].
Qed.
Lemma filter_renamed P `{forall r, Decision (P r)} (l : list sample) : (forall r, P (renamed r) <-> P r) ->
  filter P (renamed <$> l) = renamed <$> filter P l.
Proof.
  intros Hp. induction l as [|r l IH]; [done|]. cbn [fmap list_fmap]. rewrite !filter_cons.
  pose proof (Hp r). repeat case_decide; try tauto; cbn; by rewrite IH.
Qed.
Lemma attempts_renamed l : attempts (renamed <$> l) = renamed <$> attempts l.
Proof. by apply filter_renamed. Qed.
Lemma count_renamed p l : (forall r, p (renamed r) = p r) -> count_if p (renamed <$> l) = count_if p l.
Proof.
  intros Hp. unfold count_if. rewrite filter_renamed, length_fmap; [done|]. intros r. by rewrite Hp.
Qed.
Lemma waits_renamed l : waits (renamed <$> l) = waits l.
Proof. induction l as [|r l IH]; [done|]. cbn. unfold waits in IH. by rewrite IH. Qed.
Lemma metric_renamed name l : pg_metric name (renamed <$> l) = pg_metric name l.
Proof.
  unfold pg_metric. rewrite !count_renamed by done. rewrite attempts_renamed, waits_renamed, length_fmap.
  by rewrite <- list_fmap_compose.
Qed.

(** The total and the classes *)
Lemma of_actor_total scoped : Forall (fun r => sa_actor_name r <> "") scoped ->
  of_actor "" (scoped ++ (renamed <$> scoped)) = renamed <$> scoped.
Proof.
  intros Hn. unfold of_actor. rewrite filter_app, (filter_none _ scoped) by done.
  rewrite filter_all; [done|]. apply Forall_fmap, Forall_forall. done.
Qed.
Lemma of_actor_class scoped name : name <> "" -> of_actor name (scoped ++ (renamed <$> scoped)) = of_actor name scoped.
Proof.
  intros Hn. unfold of_actor. rewrite filter_app, (filter_none _ (renamed <$> scoped)), app_nil_r; [done|].
  apply Forall_fmap, Forall_forall. intros r _ Hr. by apply Hn.
Qed.
Lemma overview_of_agrees scoped : Forall (fun r => sa_actor_name r <> "") scoped ->
  sqlite_overview_of scoped = pg_overview_of scoped.
Proof.
  intros Hn. unfold sqlite_overview_of, pg_overview_of. cbn zeta. destruct (decide (scoped = [])) as [->|Hne]; [done|].
  assert (Hnames : Forall (fun n => n <> "") (sa_actor_name <$> scoped)) by (by apply Forall_fmap).
  replace (sa_actor_name <$> (scoped ++ (renamed <$> scoped))%list)
    with ((sa_actor_name <$> scoped) ++ replicate (length scoped) "")%list.
  2: { rewrite fmap_app, <- list_fmap_compose. f_equal. clear. induction scoped as [|r l IH]; [done|]. cbn. by rewrite IH. }
  rewrite names_with_total; [|done|destruct scoped; [done|cbn; lia]].
  change ROW_LIMIT with (S 499). rewrite !firstn_cons. f_equal. cbn [fmap list_fmap]. f_equal.
  - f_equal. rewrite (sqlite_metric_pg _ "" _ (of_actor_total _ Hn)). apply metric_renamed.
  - rewrite <- firstn_map. f_equal. apply list_fmap_ext.
    intros i name Hi. assert (name <> "") as Hname.
    { rewrite Forall_forall in Hnames. apply list_elem_of_lookup_2, set_extend_elem in Hi as [Hi|Hi];
        [by apply Hnames|by apply elem_of_nil in Hi]. }
    f_equal; [by destruct name|]. apply sqlite_metric_pg. by apply of_actor_class.
Qed.
End agreement.

Section stored.
Context `{F64Arithmetic, Json TraceEvent, SqliteJson, SqliteColumns, !SqliteColumnsLaws}.

Lemma stored_sample e r pr : stores e r -> pg_stores e pr -> sqlite_sample r = pg_sample pr.
Proof.
  intros (_ & Ee & Es & En & Ei & Eo & _) ((_ & _ & Es' & En' & Ei' & Eo' & _) & _ & Ed & Ew & _).
  unfold sqlite_sample, pg_sample. rewrite Ee, extracted_duration, extracted_wait. congruence.
Qed.
(** The overview and the waits of a project do not depend on the database: tables that
    store the same events in the same order give the same answers. *)
Theorem overviews_agree project range q (events : list TraceEvent) db pg :
  Forall2 stores events (of_project project db) -> Forall2 pg_stores events (rows_of project (pg_rows pg)) ->
  Forall (fun e => tr_actor_name (ev_trace e) <> "") events ->
  sqlite_overview db project range = pg_overview pg project range /\
  sqlite_queue_waits db project q = pg_queue_waits pg project q.
Proof.
  intros Hs Hp Hn.
  assert (Hrows : sqlite_sample <$> of_project project db = pg_sample <$> rows_of project (pg_rows pg)).
  { clear Hn. revert Hp. generalize (rows_of project (pg_rows pg)). induction Hs as [|e r es rs He Hs IH]; intros l Hp.
    - apply Forall2_nil_inv_l in Hp as ->. done.
    - apply Forall2_cons_inv_l in Hp as (pr & l' & Hpr & Hl & ->). cbn. by rewrite (stored_sample e r pr), (IH l'). }
  unfold sqlite_overview, pg_overview, sqlite_queue_waits, pg_queue_waits. rewrite Hrows. split; [|done].
  apply overview_of_agrees. apply Forall_forall. intros x [_ (pr & -> & Hpr)%list_elem_of_fmap]%list_elem_of_filter.
  apply (Forall2_Forall_r _ (fun pr => r_actor_name (pg_base pr) <> "")) in Hp.
  - rewrite Forall_forall in Hp. by apply Hp.
  - eapply Forall_impl; [exact Hn|]. cbn. intros e He pr' ((_ & _ & _ & En & _) & _). congruence.
Qed.
End stored.

(** * The percentile *)
#[global] Instance f64_order_total : Total f64_order.
Proof.
  intros [p|[]|] [q|[]|]; unfold f64_order; cbn; rewrite ?orb_true_r; auto.
  destruct (Qle_bool p q) eqn:E; [by left|right]. apply orb_true_iff. left. apply Qle_bool_iff.
  apply Qlt_le_weak, Qnot_le_lt. by rewrite <- Qle_bool_iff, E.
Qed.
Lemma Qle_bool_refl q : Qle_bool q q = true.
Proof. apply Qle_bool_iff, Qle_refl. Qed.
#[global] Instance f64_order_trans : Transitive f64_order.
Proof.
  intros [p|[]|] [q|[]|] [r|[]|]; unfold f64_order; cbn; rewrite ?Qle_bool_refl; cbn; rewrite ?orb_false_r; try done.
  rewrite !Qle_bool_iff. apply Qle_trans.
Qed.

(** At least 95 of 100 values are up to it, and fewer than 95 of 100 below. *)
Theorem percentile_is_nearest_rank l : l <> [] -> exists v, percentile_disc95 l = Some v /\ v ∈ l /\
  (95 * length l <= 100 * length (filter (fun x => f64_order x v) l))%nat /\
  (100 * length (filter (fun x => ~ f64_order v x) l) < 95 * length l)%nat.
Proof.
  intros Hne. assert (Hn : (0 < length l)%nat) by (destruct l; [done|cbn; lia]).
  pose proof (rank95_bounds _ Hn) as Hr. unfold percentile_disc95. set (s := merge_sort f64_order l).
  assert (Hperm : s ≡ₚ l) by apply merge_sort_Permutation.
  assert (Hs : StronglySorted f64_order s) by (apply StronglySorted_merge_sort; apply _).
  set (k := (rank95 (length l) - 1)%nat). assert (Hk : (k < length s)%nat) by (rewrite Hperm; unfold k; lia).
  destruct (lookup_lt_is_Some_2 _ _ Hk) as [v Hv]. exists v. split; [done|].
  split; [rewrite <- Hperm; by eapply list_elem_of_lookup_2|].
  rewrite <- (Permutation_length (filter_Permutation (fun x => f64_order x v) _ _ Hperm)),
    <- (Permutation_length (filter_Permutation (fun x => ~ f64_order v x) _ _ Hperm)).
  assert (Hlen : length (take k s) = k) by (rewrite length_take; lia). rewrite <- (take_drop_middle _ _ _ Hv) in Hs |- *.
  apply StronglySorted_app in Hs as (Hbelow & _ & [Habove _]%StronglySorted_cons).
  assert (Hrefl : f64_order v v) by (by destruct (total f64_order v v)).
  pose proof (Nat.div_mod (length l * 95 + 99) 100 ltac:(lia)) as Hdiv.
  pose proof (Nat.mod_upper_bound (length l * 95 + 99) 100 ltac:(lia)) as Hmod. fold (rank95 (length l)) in Hdiv.
  rewrite !filter_app, !length_app. split.
  - rewrite (filter_all _ (take k s)), filter_cons_True by (done || (apply Forall_forall; intros x Hx; apply Hbelow; [done|by left])).
    cbn [length]. unfold k in *. lia.
  - rewrite (filter_none _ (v :: _)).
    + pose proof (length_filter (fun x => ~ f64_order v x) (take k s)). cbn [length]. unfold k in *. lia.
    + constructor; [tauto|]. eapply Forall_impl; [exact Habove|]. cbn. tauto.
Qed.

(** * The sessions *)
#[global] Instance session_order_total rows : Total (session_order rows).
Proof.
  intros a b. unfold session_order.
  destruct (Z.lt_trichotomy (session_time (session_rows rows a)) (session_time (session_rows rows b))) as [H|[H|H]];
    [right; by left| |left; by left].
  destruct (String.leb_total a.1.1 b.1.1); [left; right|right; right]; auto.
Qed.
(** Every session that meets the range is listed once, newest first, up to the limit of
    the answer. *)
Theorem sessions_are_listed_once range rows : NoDup (session_keys range rows) /\
  (forall key, key ∈ session_keys range rows -> session_rows rows key <> [] /\ in_span range (session_rows rows key) = true) /\
  ((length (session_keys range rows) < ROW_LIMIT)%nat -> forall r key, r ∈ rows -> sr_kind r = "websocket" ->
     socket_key r = Some key -> in_span range (session_rows rows key) = true -> key ∈ session_keys range rows).
Proof.
  unfold session_keys. set (keys := remove_dups _). set (listed := filter _ keys).
  assert (Hkeys : forall key, key ∈ keys <-> exists r, r ∈ rows /\ sr_kind r = "websocket" /\ socket_key r = Some key).
  { intros key. unfold keys. rewrite elem_of_remove_dups, list_elem_of_omap. setoid_rewrite list_elem_of_filter. naive_solver. }
  split_and!.
  - apply (sublist_NoDup _ (merge_sort (session_order rows) listed)); [|apply sublist_take].
    rewrite merge_sort_Permutation. apply NoDup_filter, NoDup_remove_dups.
  - intros key Hin%subseteq_take. rewrite merge_sort_Permutation in Hin. apply list_elem_of_filter in Hin as [Hs Hin].
    split; [|done]. apply Hkeys in Hin as (r & Hr & Hk & Es). intros He.
    assert (Hr' : r ∈ session_rows rows key) by (by apply list_elem_of_filter). rewrite He in Hr'. by apply elem_of_nil in Hr'.
  - rewrite length_take. intros Hlen r key Hr Hk Es Hs. rewrite take_ge by lia. rewrite merge_sort_Permutation.
    apply list_elem_of_filter. split; [done|]. apply Hkeys. by exists r.
Qed.

(** * Example *)
From S2P Require Import Samples.
Import TraceSamples.
#[local] Instance exact_arithmetic : F64Arithmetic := {|
  percentage a b := Finite (Qmake (100 * a) (Z.to_pos b));
  average l := Finite (Qmake 0 1) |}.
#[local] Instance sample_columns : SqliteColumns := {|
  extract_duration s := match from_slice s with Ok e => tr_duration_ms (ev_trace e) | Err _ => NaN end;
  extract_wait s := match from_slice s with Ok e => tr_queue_wait_ms (ev_trace e) | Err _ => None end;
  extract_kind s := match from_slice s with Ok e => kind_str (tr_kind (ev_trace e)) | Err _ => "" end;
  extract_operation s := match from_slice s with Ok e => tr_operation (ev_trace e) | Err _ => "" end;
  extract_host s := match from_slice s with Ok e => Some (ev_host_id e) | Err _ => None end |}.
#[local] Instance sample_columns_laws : SqliteColumnsLaws.
Proof. split; intros e; cbn [extract_duration extract_wait extract_kind extract_operation extract_host sample_columns]; by rewrite json_roundtrip. Qed.

(** Three completed requests of one actor, in both databases *)
Definition everything : TimeRange := {| rg_from_ms := None; rg_to_ms := None |}.
Lemma three_requests :
  sqlite_overview (appended 3 ["a"; "b"; "c"] (TraceDb_new "generation")) "p" everything = pg_overview pg_three "p" everything /\
  cm_count (om_total (pg_overview pg_three "p" everything)) = 3 /\
  cm_success (om_total (pg_overview pg_three "p" everything)) = Some (Finite (Qmake 300 3)).
Proof. vm_compute. split_and!; reflexivity. Qed.
