(* ===== verification/ProviderProcess.v ===== *)
(** The process of the sandbox provider ([sandbox/command_process.rs], and
    [CommandSandboxProvider] of sandbox.rs).

    The control plane keeps one worker process of the provider and sends it requests
    over its socket.  Calls run concurrently: the cell of the worker is behind a mutex
    that a call holds while it starts a worker; every await can be the last one of a
    call, since a call is dropped when its time is up.  The machine takes the steps of
    the calls in any order, each step up to the next await; dropping a worker kills its
    process.

    Shows that at most one process runs, that a request is sent at most once, that a
    worker is dropped only when its process has ended or a request to it was lost, and
    that a call always ends. *)

From S2P Require Import Prelude.
From S2P Require Import Actors.
From S2P Require Import StoragePaths.
From S2P Require Import Snapshots.
From S2P Require Import Deployments.
From S2P Require Import SparePool.
From S2P Require Import ControlPlane.
From S2P Require Import ExecutorConnection.
Local Open Scope string_scope.
Local Open Scope Z_scope.

Definition MAX_PROVIDER_OUTPUT_BYTES : Z := 5 * 1024 * 1024.
Definition PROVIDER_REQUEST_TIMEOUT_SECONDS : Z := 120.

(** * Data *)
Record Readiness := { rd_protocol : Z }.
Inductive ProviderResponse (R : Type) :=
| Success (result : R)
| Failure (error : string).
Arguments Success {R} result.
Arguments Failure {R} error.
Record ProviderCommand (Q : Type) := { pc_operation : string; pc_request : Q }.
Arguments pc_operation {Q} _.
Arguments pc_request {Q} _.

Record ProviderCommandTimings := {
  pt_spawned_at_ms : option Z;
  pt_request_written_at_ms : option Z;
  pt_process_completed_at_ms : option Z;
  pt_response_decoded_at_ms : option Z }.
Definition ProviderCommandTimings_default : ProviderCommandTimings :=
  {| pt_spawned_at_ms := None; pt_request_written_at_ms := None; pt_process_completed_at_ms := None;
     pt_response_decoded_at_ms := None |}.
Definition set_spawned (ms : Z) (t : ProviderCommandTimings) : ProviderCommandTimings :=
  {| pt_spawned_at_ms := Some ms; pt_request_written_at_ms := pt_request_written_at_ms t;
     pt_process_completed_at_ms := pt_process_completed_at_ms t; pt_response_decoded_at_ms := pt_response_decoded_at_ms t |}.
Definition set_decoded (ms : Z) (t : ProviderCommandTimings) : ProviderCommandTimings :=
  {| pt_spawned_at_ms := pt_spawned_at_ms t; pt_request_written_at_ms := pt_request_written_at_ms t;
     pt_process_completed_at_ms := pt_process_completed_at_ms t; pt_response_decoded_at_ms := Some ms |}.
(** [elapsed_ms] *)
Definition elapsed_ms (started now : Z) : Z := Z.min (now - started) U64_MAX.

(** * What is computed between awaits *)
Section exchange.
Context `{Json Readiness}.

(** The document of a request *)
Definition request_document {Q} `{Json (ProviderCommand Q)} (operation : string) (request : Q) : Result string :=
  let document := to_vec {| pc_operation := operation; pc_request := request |} in
  ensure (len document <=? MAX_PROVIDER_OUTPUT_BYTES) "sandbox provider command is too large";;
  Ok document.

(** [Worker::start], from what the process has written when the line or the stream ends *)
Definition check_readiness (output : string) : Result unit :=
  let document := (read_until 1025 output).1 in
  ensure ((len document <=? 1024) && bool_decide (is_Some (strip_suffix (String newline_byte "") document)))
    "sandbox provider did not become ready";;
  ready ← match from_slice document with Ok r => Ok r | Err _ => Err "decode provider readiness" end;
  ensure (rd_protocol ready =? 1) "unsupported sandbox provider protocol".

(** [read_response]: chunks, of which the last may be a failure to read *)
Fixpoint read_chunks (document : string) (chunks : list (Result string)) : Result string + string :=
  match chunks with
  | [] => inl (Ok document)
  | Err e :: _ => inr e
  | Ok chunk :: chunks =>
      if len document + len chunk <=? MAX_PROVIDER_OUTPUT_BYTES then read_chunks (document +:+ chunk) chunks
      else inl (Err "provider response exceeds 5242880 bytes")
  end.
(** What came back of a request *)
Inductive reply :=
| NoReply (e : string)
| Replied (status : Z) (chunks : list (Result string)).
(** [send_request]: a failure of the transport is on the right, another one on the left. *)
Definition send_request (r : reply) : Result string + string :=
  match r with
  | NoReply _ => inr "sandbox provider request failed; outcome may be unknown"
  | Replied status chunks =>
      if (200 <=? status) && (status <? 300) then
        match read_chunks "" chunks with
        | inr _ => inr "read provider response; outcome may be unknown"
        | answered => answered
        end
      else inl (Err ("sandbox provider returned HTTP " +:+ show_u64 status +:+ "; outcome may be unknown"))
  end.
(** The rest of [exchange] *)
Definition decode_response {R} `{Json (ProviderResponse R)} (response : Result string) : Result R :=
  document ← response;
  match from_slice document with
  | Err _ => Err "decode provider response"
  | Ok (Success result) => Ok result
  | Ok (Failure error) => Err ("sandbox provider failed: " +:+ error)
  end.
End exchange.

(** * The machine *)
(** Where a call is; [w] is the worker whose client it has. *)
Inductive call_phase :=
| Waiting
| Starting (w : nat)
| Sending (w : nat)
| Discarding (w : nat) (e : string)
| Done (r : Result string).
Abbreviation call_id := nat (only parsing).
Record provider_call := { ca_document : string; ca_phase : call_phase; ca_timings : ProviderCommandTimings; ca_started : Z }.
Definition with_phase (p : call_phase) (c : provider_call) : provider_call :=
  {| ca_document := ca_document c; ca_phase := p; ca_timings := ca_timings c; ca_started := ca_started c |}.
Definition with_timings (f : ProviderCommandTimings -> ProviderCommandTimings) (c : provider_call) : provider_call :=
  {| ca_document := ca_document c; ca_phase := ca_phase c; ca_timings := f (ca_timings c); ca_started := ca_started c |}.

(** [pr_worker] is the cell, [pr_lock] the call that holds its mutex, [pr_alive] the
    processes that run, [pr_sent] the requests that were sent, and [pr_next] the number
    of processes that were started. *)
Record Process := {
  pr_worker : option nat;
  pr_lock : option call_id;
  pr_alive : gset nat;
  pr_next : nat;
  pr_calls : gmap call_id provider_call;
  pr_sent : list (call_id * nat) }.
Definition Process_default : Process :=
  {| pr_worker := None; pr_lock := None; pr_alive := ∅; pr_next := 0; pr_calls := ∅; pr_sent := [] |}.

Inductive provider_input :=
| Call (t : call_id) (document : Result string) (now : Z)
| Lock (t : call_id) (try_wait : Result unit) (spawn : Result unit) (now : Z)
| ReadyLine (t : call_id) (output : Result string)
| Reply (t : call_id) (r : reply)
| Discard (t : call_id)
| Timeout (t : call_id)
| Exit (w : nat).

Definition set_call (t : call_id) (c : provider_call) (s : Process) : Process :=
  {| pr_worker := pr_worker s; pr_lock := pr_lock s; pr_alive := pr_alive s; pr_next := pr_next s;
     pr_calls := <[t := c]> (pr_calls s); pr_sent := pr_sent s |}.
Definition set_cell (worker : option nat) (lock : option call_id) (s : Process) : Process :=
  {| pr_worker := worker; pr_lock := lock; pr_alive := pr_alive s; pr_next := pr_next s; pr_calls := pr_calls s;
     pr_sent := pr_sent s |}.
(** [kill_on_drop] *)
Definition kill (w : option nat) (s : Process) : Process :=
  {| pr_worker := pr_worker s; pr_lock := pr_lock s;
     pr_alive := match w with Some w => pr_alive s ∖ {[ w ]} | None => pr_alive s end;
     pr_next := pr_next s; pr_calls := pr_calls s; pr_sent := pr_sent s |}.
Definition send (t : call_id) (w : nat) (s : Process) : Process :=
  {| pr_worker := pr_worker s; pr_lock := pr_lock s; pr_alive := pr_alive s; pr_next := pr_next s; pr_calls := pr_calls s;
     pr_sent := pr_sent s ++ [(t, w)] |}.
Definition spawned (s : Process) : Process :=
  {| pr_worker := pr_worker s; pr_lock := pr_lock s; pr_alive := pr_alive s ∪ {[ pr_next s ]}; pr_next := S (pr_next s);
     pr_calls := pr_calls s; pr_sent := pr_sent s |}.
Definition ended (t : call_id) (c : provider_call) (r : Result string) (s : Process) : Process := set_call t (with_phase (Done r) c) s.

Section machine.
Context `{Json Readiness}.

(** [client] from the lock on: the worker that runs, or a new process *)
Definition lock_worker (t : call_id) (c : provider_call) (try_wait spawn : Result unit) (now : Z) (s : Process) : Process :=
  let start s :=
    let s := set_cell None (Some t) (kill (pr_worker s) s) in
    match spawn with
    | Err e => set_cell None None (ended t c (Err e) s)
    | Ok _ => set_call t (with_phase (Starting (pr_next s)) (with_timings (set_spawned (elapsed_ms (ca_started c) now)) c)) (spawned s)
    end in
  match pr_worker s with
  | None => start s
  | Some w =>
      match try_wait with
      | Err e => ended t c (Err e) s
      | Ok _ =>
          if decide (w ∈ pr_alive s) then set_call t (with_phase (Sending w) c) (send t w s)
          else start s
      end
  end.
Definition start_ends (t : call_id) (c : provider_call) (w : nat) (output : Result string) (s : Process) : Process :=
  match (match output with Ok output => check_readiness output | Err _ => Err "read provider readiness" end) with
  | Err e => set_cell None None (ended t c (Err e) (kill (Some w) s))
  | Ok _ => set_call t (with_phase (Sending w) c) (send t w (set_cell (Some w) None s))
  end.
Definition reply_arrives (t : call_id) (c : provider_call) (w : nat) (r : reply) (s : Process) : Process :=
  match send_request r with
  | inl answered => ended t c answered s
  | inr e => set_call t (with_phase (Discarding w e) c) s
  end.
(** [Arc::ptr_eq]: only the worker whose request failed is dropped. *)
Definition discard (t : call_id) (c : provider_call) (w : nat) (e : string) (s : Process) : Process :=
  let s := ended t c (Err e) s in
  if decide (pr_worker s = Some w) then set_cell None (pr_lock s) (kill (Some w) s) else s.
(** The call is dropped, with the mutex and the worker that it was starting. *)
Definition time_out (t : call_id) (c : provider_call) (s : Process) : Process :=
  let s := ended t c (Err "sandbox provider command timed out; outcome may be unknown") s in
  match ca_phase c with
  | Starting w => set_cell (pr_worker s) None (kill (Some w) s)
  | _ => s
  end.

Definition provider_step (s : Process) (i : provider_input) : Process :=
  match i with
  | Call t document now =>
      match pr_calls s !! t with
      | Some _ => s
      | None =>
          let c := {| ca_document := default "" (match document with Ok d => Some d | Err _ => None end); ca_phase := Waiting;
                      ca_timings := ProviderCommandTimings_default; ca_started := now |} in
          match document with
          | Ok _ => set_call t c s
          | Err e => ended t c (Err e) s
          end
      end
  | Lock t try_wait spawn now =>
      match pr_calls s !! t, pr_lock s with
      | Some c, None => match ca_phase c with Waiting => lock_worker t c try_wait spawn now s | _ => s end
      | _, _ => s
      end
  | ReadyLine t output =>
      match pr_calls s !! t with
      | Some c => match ca_phase c with Starting w => start_ends t c w output s | _ => s end
      | None => s
      end
  | Reply t r =>
      match pr_calls s !! t with
      | Some c => match ca_phase c with Sending w => reply_arrives t c w r s | _ => s end
      | None => s
      end
  | Discard t =>
      match pr_calls s !! t, pr_lock s with
      | Some c, None => match ca_phase c with Discarding w e => discard t c w e s | _ => s end
      | _, _ => s
      end
  | Timeout t =>
      match pr_calls s !! t with
      | Some c => match ca_phase c with Done _ => s | _ => time_out t c s end
      | None => s
      end
  | Exit w => kill (Some w) s
  end.
(** How [exchange] ends once the response is there *)
Definition exchange_result {R} `{Json (ProviderResponse R)} (c : provider_call) (response : Result string) (now : Z)
  : Result R * ProviderCommandTimings :=
  let parsed := match response with Ok d => is_ok (from_slice (A := ProviderResponse R) d) | Err _ => false end in
  (decode_response response,
   if parsed then set_decoded (elapsed_ms (ca_started c) now) (ca_timings c) else ca_timings c).
Definition provider_run (inputs : list provider_input) : Process := foldl provider_step Process_default inputs.
End machine.

(** * The provider *)
(** Without the times that the provider reports about itself *)
Record ActorHostProvisioning := {
  ap_provider : string;
  ap_resource_id : string;
  ap_reused : bool;
  ap_command_spawned_at_ms : option Z;
  ap_request_written_at_ms : option Z;
  ap_process_completed_at_ms : option Z;
  ap_response_decoded_at_ms : option Z }.
(** The handle as the provider's command answers it *)
Record CommandHandle := {
  ch_lease : option HostLease;
  ch_owner_epoch : Z;
  ch_host_id : HostId;
  ch_route : string;
  ch_canonical_region : string;
  ch_provisioning : option ActorHostProvisioning }.
Record ProviderCommandFailure := { pf_source : string; pf_timings : ProviderCommandTimings }.

(** [execute_timed]: a failure carries the timings. *)
Definition execute_timed {R} (outcome : Result R * ProviderCommandTimings) : R * ProviderCommandTimings + ProviderCommandFailure :=
  match outcome.1 with
  | Ok response => inl (response, outcome.2)
  | Err source => inr {| pf_source := source; pf_timings := outcome.2 |}
  end.
Definition execute {R} (outcome : Result R * ProviderCommandTimings) : Result R :=
  match execute_timed outcome with inl (response, _) => Ok response | inr failure => Err (pf_source failure) end.

Definition provider_build_code {R} (outcome : Result R * ProviderCommandTimings) : Result R := execute outcome.
Definition provider_create_spare (outcome : Result SpareHandle * ProviderCommandTimings) : Result SpareHandle := execute outcome.
Definition provider_retire_spare (outcome : Result Value * ProviderCommandTimings) : Result unit := execute outcome;; Ok ().
Definition provider_socket_credentials (outcome : Result SocketCredentials * ProviderCommandTimings) : Result SocketCredentials :=
  execute outcome.
Definition with_command (t : ProviderCommandTimings) (p : ActorHostProvisioning) : ActorHostProvisioning :=
  {| ap_provider := ap_provider p; ap_resource_id := ap_resource_id p; ap_reused := ap_reused p;
     ap_command_spawned_at_ms := pt_spawned_at_ms t; ap_request_written_at_ms := pt_request_written_at_ms t;
     ap_process_completed_at_ms := pt_process_completed_at_ms t; ap_response_decoded_at_ms := pt_response_decoded_at_ms t |}.
Definition provider_ensure_host (provider_name : string) (request : EnsureHostRequest)
    (outcome : Result CommandHandle * ProviderCommandTimings) : Result CommandHandle :=
  match execute_timed outcome with
  | inr failure => Err (pf_source failure)
  | inl (response, command) =>
      ensure (String.eqb (ch_canonical_region response) (eh_canonical_region request))
        (provider_name +:+ " sandbox command returned a host in the wrong canonical region");;
      ensure (negb (is_empty (ch_host_id response)) && negb (is_empty (ch_route response)))
        (provider_name +:+ " sandbox command returned an invalid host");;
      Ok {| ch_lease := ch_lease response; ch_owner_epoch := ch_owner_epoch response; ch_host_id := ch_host_id response;
            ch_route := ch_route response; ch_canonical_region := ch_canonical_region response;
            ch_provisioning := with_command command <$> ch_provisioning response |}
  end.
Definition provider_terminate_hosts : Result unit := Err "cloud hosts must be retired through the spare registry".
(** What the control plane goes on with *)
Definition handle_of (h : CommandHandle) : ActorHostHandle :=
  {| hh_lease := ch_lease h; hh_owner_epoch := ch_owner_epoch h; hh_host_id := ch_host_id h; hh_route := ch_route h;
     hh_canonical_region := ch_canonical_region h; hh_provisioning := ap_resource_id <$> ch_provisioning h |}.

(** * The invariant *)
Section invariant.
Context `{Json Readiness}.

Definition phase_of (s : Process) (t : call_id) : option call_phase := ca_phase <$> pr_calls s !! t.
(** The worker of which a call has the client *)
Definition client_of (p : call_phase) : option nat :=
  match p with Sending w | Discarding w _ => Some w | _ => None end.
Definition unsent (p : call_phase) : bool := match p with Waiting | Starting _ => true | _ => false end.

Record process_ok (s : Process) : Prop := {
  ok_alive : forall w, w ∈ pr_alive s -> (pr_worker s = Some w /\ pr_lock s = None) \/
    exists t, pr_lock s = Some t /\ phase_of s t = Some (Starting w);
  ok_starting : forall t w, phase_of s t = Some (Starting w) -> pr_lock s = Some t;
  ok_lock : forall t, pr_lock s = Some t -> pr_worker s = None /\ exists w, phase_of s t = Some (Starting w);
  ok_sent : NoDup (pr_sent s).*1;
  ok_unsent : forall t w, (t, w) ∈ pr_sent s -> exists p, phase_of s t = Some p /\ unsent p = false;
  ok_client : forall t p w, phase_of s t = Some p -> client_of p = Some w -> (t, w) ∈ pr_sent s }.

Lemma Process_default_ok : process_ok Process_default.
Proof. split; cbn; try done; try set_solver. constructor. Qed.

Lemma phase_set t c s u : phase_of (set_call t c s) u = if decide (u = t) then Some (ca_phase c) else phase_of s u.
Proof.
  unfold phase_of. cbn. case_decide as Hu; [subst; by rewrite lookup_insert_eq|by rewrite lookup_insert_ne].
Qed.

(** The phases after a step that sets one *)
Ltac phases :=
  unfold ended in *;
  repeat match goal with
  | |- context [phase_of (set_cell ?a ?b ?x) ?u] => change (phase_of (set_cell a b x) u) with (phase_of x u)
  | |- context [phase_of (kill ?a ?x) ?u] => change (phase_of (kill a x) u) with (phase_of x u)
  | H : context [phase_of (set_cell ?a ?b ?x) ?u] |- _ => change (phase_of (set_cell a b x) u) with (phase_of x u) in H
  | H : context [phase_of (kill ?a ?x) ?u] |- _ => change (phase_of (kill a x) u) with (phase_of x u) in H
  end.

(** A call goes on without the cell *)
Lemma set_call_ok s t c p : process_ok s -> (phase_of s t = None \/ exists q, phase_of s t = Some q /\ ~ (exists w, q = Starting w) /\
    (forall w, client_of p = Some w -> client_of q = Some w) /\ (unsent q = false -> unsent p = false)) ->
  (phase_of s t = None -> client_of p = None) ->
  ca_phase c = p -> ~ (exists w, p = Starting w) -> process_ok (set_call t c s).
Proof.
  intros [A S L D U C] Hq Hnone Ep Hp. assert (Hold : forall w, phase_of s t <> Some (Starting w)).
  { intros w Hw. destruct Hq as [Hq|(q & Hq & Hn & _)]; [congruence|]. apply Hn. exists w. congruence. }
  constructor.
  - intros w Hw. destruct (A w Hw) as [?|(u & Hu & Hph)]; [by left|right]. exists u. split; [done|].
    rewrite phase_set. case_decide as Hut; [|done]. subst u. by apply Hold in Hph.
  - intros u w. rewrite phase_set. case_decide as Hut; [|apply S]. intros [= Hc]. exfalso. apply Hp. exists w. congruence.
  - intros u Hu. destruct (L u Hu) as [? [w Hw]]. split; [done|]. exists w. rewrite phase_set. case_decide as Hut; [|done].
    subst u. by apply Hold in Hw.
  - done.
  - intros u w Hin. rewrite phase_set. destruct (U u w Hin) as (q & Hu & Hun). case_decide as Hut; [|by exists q]. subst u.
    exists (ca_phase c). split; [done|]. rewrite Ep. destruct Hq as [Hq|(q' & Hq & _ & _ & Hmono)]; [congruence|].
    apply Hmono. congruence.
  - intros u q w. rewrite phase_set. case_decide as Hut; [|apply C]. subst u. intros [= <-] Hcl. rewrite Ep in Hcl.
    destruct Hq as [Hq|(q' & Hq & _ & Hkeep & _)]; [by rewrite (Hnone Hq) in Hcl|]. by apply (C t q'); [|apply Hkeep].
Qed.
Lemma ended_ok s t c q r : process_ok s -> phase_of s t = Some q -> ~ (exists w, q = Starting w) -> process_ok (ended t c r s).
Proof.
  intros Hok Hq Hn. apply (set_call_ok s t _ (Done r)); [done| |by rewrite Hq|done|by intros [? ?]].
  right. exists q. split_and!; done.
Qed.
Lemma kill_ok s w : process_ok s -> process_ok (kill (Some w) s).
Proof. intros [A S L D U C]. constructor; try done. intros w' Hw'. apply A. set_solver. Qed.

(** The cell is free: what runs is its worker, and nobody is starting one. *)
Lemma free_cell s : process_ok s -> pr_lock s = None ->
  (forall w, w ∈ pr_alive s -> pr_worker s = Some w) /\ (forall t w, phase_of s t <> Some (Starting w)).
Proof.
  intros [A S _ _ _ _] Hl. split.
  - intros w [[? _]|(t & Ht & _)]%A; [done|congruence].
  - intros t w Ht%S. congruence.
Qed.
Lemma empty_cell_ok s lock : process_ok s -> pr_lock s = None -> lock = None ->
  process_ok (set_cell None lock (kill (pr_worker s) s)).
Proof.
  intros Hok Hl ->. destruct (free_cell s Hok Hl) as [Ha Hs]. destruct Hok as [A S L D U C]. constructor; try done.
  - cbn. intros w Hw. exfalso. destruct (pr_worker s) as [w'|] eqn:Ew.
    + apply elem_of_difference in Hw as [Hw Hn]. specialize (Ha w Hw). set_solver.
    + specialize (Ha w Hw). congruence.
  - intros t w Ht. by apply Hs in Ht.
Qed.
Lemma killed_alive s w : process_ok s -> pr_lock s = None -> w ∈ pr_alive (kill (pr_worker s) s) -> False.
Proof.
  intros Hok Hl. destruct (free_cell s Hok Hl) as [Ha _]. cbn. destruct (pr_worker s) as [w'|] eqn:Ew.
  - intros [Hw Hn]%elem_of_difference. specialize (Ha w Hw). set_solver.
  - intros Hw. specialize (Ha w Hw). congruence.
Qed.
(** A new process, with the mutex *)
Lemma start_ok s t c : process_ok s -> pr_lock s = None -> phase_of s t = Some Waiting ->
  let s1 := set_cell None (Some t) (kill (pr_worker s) s) in
  ca_phase c = Starting (pr_next s1) -> process_ok (set_call t c (spawned s1)).
Proof.
  intros Hok Hl Hw s1 Ec. destruct (free_cell s Hok Hl) as [_ Hs]. pose proof (killed_alive s) as Hk.
  destruct Hok as [A S L D U C]. constructor; try done.
  - intros w Hin. right. exists t. split; [done|]. rewrite phase_set, decide_True by done. rewrite Ec. do 2 f_equal.
    cbn [spawned pr_alive set_call] in Hin. apply elem_of_union in Hin as [Hin|Hin]; [|set_solver].
    exfalso. by apply (Hk w).
  - intros u w. rewrite phase_set. case_decide as Hu; [by subst|]. intros Hph. by apply (Hs u w) in Hph.
  - intros u [= <-]. split; [done|]. exists (pr_next s1). rewrite phase_set, decide_True by done. by rewrite Ec.
  - intros u w Hin. destruct (U u w Hin) as (p & Hp & Hun). rewrite phase_set. case_decide as Hu; [|by exists p].
    subst u. rewrite Hw in Hp. injection Hp as <-. done.
  - intros u p w. rewrite phase_set. case_decide as Hu; [|apply C]. intros [= <-]. by rewrite Ec.
Qed.
(** A request goes to the worker of the cell. *)
Lemma command_sent_ok s t c p w : process_ok s -> phase_of s t = Some p -> unsent p = true ->
  (forall w', phase_of s t = Some (Starting w') -> w' = w) -> ca_phase c = Sending w ->
  pr_worker s = Some w \/ p = Starting w ->
  (pr_worker s = Some w -> pr_lock s = None) ->
  process_ok (set_call t c (send t w (set_cell (Some w) None s))).
Proof.
  intros [A S L D U C] Hp Hun Hst Ec Hor Hfree.
  assert (Hlock : pr_lock s = None \/ pr_lock s = Some t).
  { destruct Hor as [Hw| ->]; [left; by apply Hfree|right; by apply (S t w)]. }
  assert (Halive : forall w', w' ∈ pr_alive s -> w' = w).
  { intros w' [[Hw' _]|(u & Hu & Hph)]%A.
    - destruct Hor as [Hw| ->]; [congruence|]. destruct (L t) as [Hn _]; [by apply (S t w)|congruence].
    - destruct Hlock as [|Hlt]; [congruence|]. assert (u = t) as -> by congruence. by apply Hst. }
  constructor.
  - intros w' Hw'. left. split; [|done]. cbn. f_equal. symmetry. by apply Halive.
  - intros u w'. rewrite phase_set. case_decide as Hu; [intros [= Hc]; congruence|]. intros Hph.
    pose proof (S u w' Hph) as Hl. destruct Hlock; congruence.
  - intros u. by cbn.
  - cbn. rewrite fmap_app. apply NoDup_app. split; [done|]. split; [|apply NoDup_singleton].
    intros u ([u' w'] & -> & Hin)%list_elem_of_fmap Hu%list_elem_of_singleton. cbn in Hu. subst u'.
    destruct (U t w' Hin) as (q & Hq & Hf). congruence.
  - cbn. intros u w' [Hin|[= -> ->]%list_elem_of_singleton]%elem_of_app; rewrite phase_set.
    + case_decide as Hu; [exists (Sending w); by rewrite Ec|by apply (U u w')].
    + rewrite decide_True by done. exists (Sending w). by rewrite Ec.
  - intros u q w'. rewrite phase_set. cbn. rewrite elem_of_app. case_decide as Hu; [|intros; left; by eapply C].
    subst u. intros [= <-]. rewrite Ec. intros [= <-]. right. by left.
Qed.

Lemma set_cell_same s : set_cell (pr_worker s) (pr_lock s) s = s.
Proof. by destruct s. Qed.
Lemma lock_worker_ok t c try_wait spawn now s : process_ok s -> pr_lock s = None -> pr_calls s !! t = Some c ->
  ca_phase c = Waiting -> process_ok (lock_worker t c try_wait spawn now s).
Proof.
  intros Hok Hl Hc Hw. assert (Hph : phase_of s t = Some Waiting) by (unfold phase_of; rewrite Hc; cbn; congruence).
  assert (Hstart : process_ok
    (let s := set_cell None (Some t) (kill (pr_worker s) s) in
     match spawn with
     | Err e => set_cell None None (ended t c (Err e) s)
     | Ok _ => set_call t (with_phase (Starting (pr_next s)) (with_timings (set_spawned (elapsed_ms (ca_started c) now)) c)) (spawned s)
     end)).
  { cbn zeta. destruct spawn as [[]|e].
    - apply start_ok; done.
    - pose proof (empty_cell_ok s None Hok Hl eq_refl) as He. apply (ended_ok _ t c Waiting (Err e)) in He; [exact He|done|].
      by intros [? ?]. }
  unfold lock_worker. destruct (pr_worker s) as [w|] eqn:Ew; [|exact Hstart].
  destruct try_wait as [[]|e]; [|apply (ended_ok s t c Waiting); [done..|by intros [? ?]]].
  case_decide as Ha; [|exact Hstart]. rewrite <- (set_cell_same s), Ew, Hl at 1.
  apply (command_sent_ok s t _ Waiting); try done; [|by left]. intros w'. by rewrite Hph.
Qed.
Lemma start_ends_ok t c w output s : process_ok s -> pr_calls s !! t = Some c -> ca_phase c = Starting w ->
  process_ok (start_ends t c w output s).
Proof.
  intros Hok Hc Hw. assert (Hph : phase_of s t = Some (Starting w)) by (unfold phase_of; rewrite Hc; cbn; congruence).
  pose proof (ok_starting _ Hok t w Hph) as Hl. destruct (ok_lock _ Hok t Hl) as [Hn _].
  unfold start_ends. destruct (match output with Ok _ => _ | Err _ => _ end) as [[]|e].
  - apply (command_sent_ok s t _ (Starting w)); try done; [|by right|congruence]. intros w'. rewrite Hph. congruence.
  - destruct Hok as [A S L D U C]. constructor; try done.
    + cbn. intros w' [Hin Hne]%elem_of_difference. exfalso. destruct (A w' Hin) as [[? _]|(u & Hu & Hpu)]; [congruence|].
      assert (u = t) as -> by congruence. rewrite Hph in Hpu. injection Hpu as ->. set_solver.
    + intros u w'. phases. rewrite phase_set. case_decide as Hu; [done|]. intros Hpu. specialize (S u w' Hpu). congruence.
    + intros u w' Hin. phases. rewrite phase_set. case_decide as Hu; [by exists (Done (Err e))|by apply (U u w')].
    + intros u p w'. phases. rewrite phase_set. case_decide as Hu; [|apply C]. by intros [= <-].
Qed.
Lemma discard_ok t c w e s : process_ok s -> pr_lock s = None -> pr_calls s !! t = Some c -> ca_phase c = Discarding w e ->
  process_ok (discard t c w e s).
Proof.
  intros Hok Hl Hc Hw. assert (Hph : phase_of s t = Some (Discarding w e)) by (unfold phase_of; rewrite Hc; cbn; congruence).
  unfold discard. assert (Hok1 : process_ok (ended t c (Err e) s)) by (apply (ended_ok s t c (Discarding w e)); [done..|by intros [? ?]]).
  case_decide as Hd; [|done]. rewrite <- Hd. by apply empty_cell_ok.
Qed.
Lemma time_out_ok t c s : process_ok s -> pr_calls s !! t = Some c -> process_ok (time_out t c s).
Proof.
  intros Hok Hc. assert (Hph : phase_of s t = Some (ca_phase c)) by (unfold phase_of; by rewrite Hc).
  unfold time_out. destruct (ca_phase c) as [|w| | |] eqn:Ep; try (eapply ended_ok; [done|exact Hph|by intros [? ?]]).
  pose proof (ok_starting _ Hok t w Hph) as Hl. destruct (ok_lock _ Hok t Hl) as [Hn _].
  pose proof (start_ends_ok t c w (Err "") s Hok Hc Ep) as Hk. unfold start_ends in Hk.
  destruct Hk as [A S L D U C]. change (pr_worker (ended t c ?r s)) with (pr_worker s). rewrite Hn. constructor; try done.
  - intros w' Hin. destruct (A w' Hin) as [?|(u & Hu & _)]; [by left|done].
  - intros u w'. specialize (S u w'). phases. rewrite phase_set in S |- *. case_decide as Hu; [done|]. exact S.
  - intros u w' Hin. specialize (U u w' Hin). phases. rewrite phase_set in U |- *. case_decide as Hu; [by eexists|done].
  - intros u p w'. specialize (C u p w'). phases. rewrite phase_set in C |- *. case_decide as Hu; [by intros [= <-]|done].
Qed.

Lemma provider_step_ok s i : process_ok s -> process_ok (provider_step s i).
Proof.
  intros Hok. destruct i as [t document now|t try_wait spawn now|t output|t r|t|t|w]; cbn [provider_step].
  - destruct (pr_calls s !! t) as [c|] eqn:Ec; [done|]. assert (Hn : phase_of s t = None) by (unfold phase_of; by rewrite Ec).
    destruct document as [d|e]; [apply (set_call_ok s t _ Waiting)|apply (set_call_ok s t _ (Done (Err e)))];
      first [done|by left|by intros [? ?]].
  - destruct (pr_calls s !! t) as [c|] eqn:Ec; [|done]. destruct (pr_lock s) eqn:El; [done|].
    destruct (ca_phase c) eqn:Ep; try done. by apply lock_worker_ok.
  - destruct (pr_calls s !! t) as [c|] eqn:Ec; [|done]. destruct (ca_phase c) eqn:Ep; try done. by apply start_ends_ok.
  - destruct (pr_calls s !! t) as [c|] eqn:Ec; [|done]. destruct (ca_phase c) as [| |w| |] eqn:Ep; try done.
    assert (Hph : phase_of s t = Some (Sending w)) by (unfold phase_of; rewrite Ec; cbn; congruence).
    unfold reply_arrives. destruct (send_request r) as [answered|e].
    + apply (ended_ok s t c (Sending w)); [done..|by intros [? ?]].
    + eapply (set_call_ok s t _ (Discarding w e)); try done; [|by rewrite Hph|by intros [? ?]]. right. exists (Sending w).
      split_and!; [done|by intros [? ?]|done|done].
  - destruct (pr_calls s !! t) as [c|] eqn:Ec; [|done]. destruct (pr_lock s) eqn:El; [done|].
    destruct (ca_phase c) eqn:Ep; try done. by apply discard_ok.
  - destruct (pr_calls s !! t) as [c|] eqn:Ec; [|done]. destruct (ca_phase c) eqn:Ep; try done; by apply time_out_ok.
  - by apply kill_ok.
Qed.
Lemma provider_run_ok inputs : process_ok (provider_run inputs).
Proof.
  unfold provider_run. generalize Process_default_ok. generalize Process_default.
  induction inputs as [|i inputs IH]; intros s Hs; [done|]. cbn. by apply IH, provider_step_ok.
Qed.

(** A worker leaves the cell only when its process has ended, or when a request that was
    sent to it was lost. *)
Lemma worker_leaves s i w : pr_worker s = Some w -> pr_worker (provider_step s i) <> Some w -> process_ok s ->
  w ∉ pr_alive s \/ exists t e, i = Discard t /\ phase_of s t = Some (Discarding w e).
Proof.
  intros Hw Hn Hok. destruct i as [t document now|t try_wait spawn now|t output|t r|t|t|w']; cbn [provider_step] in Hn.
  - by destruct (pr_calls s !! t), document.
  - destruct (pr_calls s !! t) as [c|]; [|done]. destruct (pr_lock s); [done|]. destruct (ca_phase c); try done.
    unfold lock_worker in Hn. rewrite Hw in Hn. destruct try_wait; [|done]. case_decide; [done|by left].
  - destruct (pr_calls s !! t) as [c|] eqn:Ec; [|done]. destruct (ca_phase c) as [|w0| | |] eqn:Ep; try done.
    destruct (ok_lock _ Hok t) as [Hnone _]; [|congruence]. apply (ok_starting _ Hok t w0). unfold phase_of. rewrite Ec. cbn. congruence.
  - destruct (pr_calls s !! t) as [c|]; [|done]. destruct (ca_phase c); try done. unfold reply_arrives in Hn.
    by destruct (send_request r).
  - right. destruct (pr_calls s !! t) as [c|] eqn:Ec; [|done]. destruct (pr_lock s); [done|].
    destruct (ca_phase c) as [| | |w0 e|] eqn:Ep; try done. unfold discard in Hn. case_decide as Hd; [|done].
    exists t, e. split; [done|]. unfold phase_of. rewrite Ec. cbn in *. congruence.
  - destruct (pr_calls s !! t) as [c|]; [|done]. unfold time_out in Hn. by destruct (ca_phase c).
  - done.
Qed.

(** What a call returns was the answer to its own request. *)
Lemma answers_are_replies inputs : forall t c d, pr_calls (provider_run inputs) !! t = Some c -> ca_phase c = Done (Ok d) ->
  exists r, Reply t r ∈ inputs /\ send_request r = inl (Ok d).
Proof.
  induction inputs as [|i inputs IH] using rev_ind; intros t c d Hc Hd; [done|].
  assert (Hold : forall c', pr_calls (provider_run inputs) !! t = Some c' -> ca_phase c' = Done (Ok d) ->
            exists r, Reply t r ∈ (inputs ++ [i])%list /\ send_request r = inl (Ok d)).
  { intros c' Hc' Hd'. destruct (IH t c' d Hc' Hd') as (r & ? & ?). exists r. split; [set_solver|done]. }
  unfold provider_run in Hc. rewrite foldl_app in Hc. fold (provider_run inputs) in Hc. set (s := provider_run inputs) in *.
  cbn [foldl] in Hc.
  assert (Hgo : exists c', pr_calls s !! t = Some c' /\ ca_phase c' = Done (Ok d) \/
                  exists r, i = Reply t r /\ send_request r = inl (Ok d)).
  { destruct i as [u document now|u try_wait spawn now|u output|u r|u|u|w]; cbn [provider_step] in Hc; cycle 3.
    1: { destruct (pr_calls s !! u) as [c0|] eqn:Eu; [|eauto]. destruct (ca_phase c0) as [| |w| |] eqn:Ep; eauto.
         unfold reply_arrives in Hc. destruct (decide (u = t)) as [->|Hu].
         - destruct (send_request r) as [answered|e] eqn:Es; cbn in Hc; rewrite lookup_insert_eq in Hc; injection Hc as <-; [|done].
           cbn in Hd. injection Hd as ->. exists c0. right. eauto.
         - destruct (send_request r); cbn in Hc; rewrite lookup_insert_ne in Hc by done; eauto. }
    all: unfold lock_worker, start_ends, discard, time_out, ended in Hc; repeat case_match; cbn in Hc;
      first [by eauto
            |destruct (decide (u = t)) as [->|Hu];
               [rewrite lookup_insert_eq in Hc; injection Hc as <-; cbn in Hd; congruence
               |rewrite lookup_insert_ne in Hc by done; by eauto]]. }
  destruct Hgo as (c' & [[Hc' Hd']|(r & -> & Hr)]); [by apply (Hold c')|]. exists r. split; [set_solver|done].
Qed.

(** At most one process of the provider runs, however calls, failures and timeouts
    interleave; a request is sent at most once; a call returns what was replied to its
    own request; a worker is given up only when its process has ended or a request to
    it was lost, and never because of a request to another one; and when its time is up
    a call ends and holds up no other. *)
Theorem provider_has_one_process inputs :
  let s := provider_run inputs in
  (size (pr_alive s) <= 1)%nat /\ NoDup (pr_sent s).*1 /\
  (forall t c d, pr_calls s !! t = Some c -> ca_phase c = Done (Ok d) ->
     exists r, Reply t r ∈ inputs /\ send_request r = inl (Ok d)) /\
  (forall i w, pr_worker s = Some w -> pr_worker (provider_step s i) <> Some w ->
     w ∉ pr_alive s \/ exists t e, i = Discard t /\ phase_of s t = Some (Discarding w e)) /\
  (forall t p, phase_of s t = Some p -> exists r, phase_of (provider_step s (Timeout t)) t = Some (Done r) /\
     pr_lock (provider_step s (Timeout t)) <> Some t).
Proof.
  intros s. pose proof (provider_run_ok inputs) as Hok. fold s in Hok. split_and!.
  - destruct (decide (size (pr_alive s) <= 1)%nat) as [?|Hn]; [done|]. exfalso. apply Hn.
    assert (Hone : forall w w', w ∈ pr_alive s -> w' ∈ pr_alive s -> w = w').
    { intros w w' [[Hw Hl]|(t & Ht & Hp)]%(ok_alive _ Hok) [[Hw' Hl']|(t' & Ht' & Hp')]%(ok_alive _ Hok); congruence. }
    destruct (decide (pr_alive s = ∅)) as [->|[w Hw]%set_choose_L]; [by rewrite size_empty; lia|].
    assert (pr_alive s = {[ w ]}) as -> by (apply set_eq; set_solver). rewrite size_singleton. lia.
  - apply (ok_sent _ Hok).
  - apply answers_are_replies.
  - intros i w Hw Hn. by apply worker_leaves.
  - intros t p Hp. unfold phase_of in Hp. destruct (pr_calls s !! t) as [c|] eqn:Ec; [|done]. cbn [provider_step]. rewrite Ec.
    assert (Hph : phase_of s t = Some (ca_phase c)) by (unfold phase_of; by rewrite Ec).
    destruct (ca_phase c) as [|w|w|w e|r] eqn:Ep; unfold time_out; rewrite ?Ep; try (eexists; split;
      [phases; rewrite phase_set, decide_True by done; done|cbn; try done; intros Hl; destruct (ok_lock _ Hok t Hl) as [_ [w' ?]]; congruence]).
    exists r. split; [done|]. intros Hl. destruct (ok_lock _ Hok t Hl) as [_ [w' ?]]. congruence.
Qed.

(** When the request was written and when the process completed is never measured: both
    stay unknown in every report. *)
Theorem two_timings_are_never_set inputs : forall t c, pr_calls (provider_run inputs) !! t = Some c ->
  pt_request_written_at_ms (ca_timings c) = None /\ pt_process_completed_at_ms (ca_timings c) = None.
Proof.
  assert (Hall : map_Forall (fun _ c => pt_request_written_at_ms (ca_timings c) = None /\
                                        pt_process_completed_at_ms (ca_timings c) = None) (pr_calls (provider_run inputs))).
  { induction inputs as [|i inputs IH] using rev_ind; [apply map_Forall_empty|].
    unfold provider_run. rewrite foldl_app. fold (provider_run inputs). set (s := provider_run inputs) in *. cbn [foldl].
    assert (Hc : forall t c, pr_calls s !! t = Some c -> pt_request_written_at_ms (ca_timings c) = None /\
                               pt_process_completed_at_ms (ca_timings c) = None) by (intros t c; apply (IH t)).
    destruct i as [u document now|u try_wait spawn now|u output|u r|u|u|w]; cbn [provider_step]; [| | | | | |exact IH];
      unfold lock_worker, start_ends, reply_arrives, discard, time_out, ended; repeat case_match;
      first [exact IH | apply map_Forall_insert_2; [cbn; by eauto|exact IH]]. }
  intros t c Hc. by apply (Hall t).
Qed.
End invariant.

(** * Example *)
From S2P Require Import ReplicaStore.
From S2P Require Import Samples.
#[local] Instance readiness_text : Text Readiness.
Proof. refine (via rd_protocol (fun n => Some (Build_Readiness n)) _). by intros []. Defined.
(** Two calls share a worker; the request of one is lost, and the next call starts
    another worker. *)
Definition provider_example : list provider_input :=
  [Call 0 (Ok "a") 0; Lock 0 (Ok ()) (Ok ()) 5; Call 1 (Ok "b") 6; Lock 1 (Ok ()) (Ok ()) 7;
   ReadyLine 0 (Ok (to_vec {| rd_protocol := 1 |} +:+ newline)); Lock 1 (Ok ()) (Ok ()) 8;
   Reply 0 (NoReply "reset"); Reply 1 (Replied 200 [Ok "x"; Ok "y"]); Discard 0; Call 2 (Ok "c") 9; Lock 2 (Ok ()) (Ok ()) 10].
Lemma provider_example_runs : let s := provider_run provider_example in
  (elements (pr_alive s), pr_sent s, ca_phase <$> pr_calls s !! 1%nat, ca_phase <$> pr_calls s !! 2%nat)
  = ([1%nat], [(0%nat, 0%nat); (1%nat, 0%nat)], Some (Done (Ok "xy")), Some (Starting 1)).
Proof. vm_compute. reflexivity. Qed.
