(* ===== verification/LocalMode.v ===== *)
(** The local development mode: builds of local code ([control_plane/local_build.rs])
    and the server that a developer runs ([control_plane/local.rs]).

    A build gets a directory of its own, which is removed again unless the deployment
    is published; publishing removes the directories of earlier builds.  The disk is the
    set of entries in the directory of each project, and the results of file operations
    and of the compiler are inputs.  The control plane's [deploy_source] runs in a world
    with the registry in memory and that disk ([local_executes]).  The server's life is a
    program over requests.

    Shows that the code of every registered deployment stays on disk, and in which order
    the server starts and ends. *)

From S2P Require Import Prelude.
From S2P Require Import Actors.
From S2P Require Import StoragePaths.
From S2P Require Import Snapshots.
From S2P Require Import Calls.
From S2P Require Import ReplicaServer.
From S2P Require Import RuntimeStorage.
From S2P Require Import Deployments.
From S2P Require Import SparePool.
From S2P Require Import Contracts.
From S2P Require Import Tokens.
From S2P Require Import ControlPlane.
From S2P Require Import ControlPlaneSafety.
From S2P Require Import HostProcess.
From S2P Require Import ControlPlaneProcess.
Local Open Scope string_scope.
Local Open Scope Z_scope.

(** * Paths *)
(** [Path::join] *)
Definition path_join (base part : string) : string :=
  if starts_with "/" part then part
  else if is_empty base || bool_decide (is_Some (strip_suffix "/" base)) then base +:+ part
  else base +:+ "/" +:+ part.
(** [Path::components], on which the equality of paths is defined *)
Definition path_components (path : string) : list string :=
  let parts := split_on "/" path in
  let plain := filter (fun c => c <> "" /\ c <> ".") parts in
  if starts_with "/" path then "/" :: plain
  else match parts with "." :: _ => "." :: plain | _ => plain end.
Definition path_eqb (a b : string) : bool := bool_decide (path_components a = path_components b).

(** * Builds *)
Record LocalBuilds := { lb_project : string; lb_directory : string }.
Record PreparedLocalBuild := {
  pb_spec : HostLaunchSpec;
  pb_contract : PublishedContract;
  pb_project : string;
  pb_name : string }.
(** The entries in the directory of each project *)
Abbreviation Disk := (gmap string (gset string)) (only parsing).
Definition entries (disk : Disk) (project : string) : gset string := default ∅ (disk !! project).
Definition add_entry (project name : string) (disk : Disk) : Disk := <[project := entries disk project ∪ {[ name ]}]> disk.
Definition remove_entry (project name : string) (disk : Disk) : Disk := <[project := entries disk project ∖ {[ name ]}]> disk.

(** What [tempdir_in] may make: a new name *)
Definition fresh_build (disk : Disk) (project name : string) : Prop :=
  starts_with "build-" name = true /\ name ∉ entries disk project.

Section builds.
Context (builds : LocalBuilds).
Definition build_path (project name : string) : string :=
  path_join (path_join (lb_directory builds) project) name.

(** [prepare]: [mkdir] and [tempdir] are the results of the file operations, [compiled]
    is the compiler's.  A directory that was made is removed when the compiler fails. *)
Definition local_prepare (source : HostLaunchSpec) (mkdir : Result unit) (tempdir : Result string)
    (compiled : Result PublishedContract) (disk : Disk) : Result PreparedLocalBuild * Disk :=
  let refused :=
    ensure (String.eqb (image_ref source) "local") "local control plane requires a local deployment";;
    ensure (path_eqb (working_directory source) (lb_project builds)) "local deployments must use the current project directory";;
    ensure (is_nil (secret_refs source)) "Modal secret references are unavailable in local mode";;
    mkdir in
  match refused, tempdir, compiled with
  | Err e, _, _ => (Err e, disk)
  | Ok _, Err e, _ => (Err e, disk)
  | Ok _, Ok name, Err e => (Err e, remove_entry (spec_project_id source) name (add_entry (spec_project_id source) name disk))
  | Ok _, Ok name, Ok contract =>
      (Ok {| pb_spec := {| spec_project_id := spec_project_id source; spec_source := Some (source_of source);
                           image_ref := image_ref source; code_snapshot := code_snapshot source;
                           working_directory := working_directory source;
                           actor_entrypoint := Some (path_join (build_path (spec_project_id source) name) "actors.mjs");
                           secret_refs := secret_refs source |};
             pb_contract := contract; pb_project := spec_project_id source; pb_name := name |},
       add_entry (spec_project_id source) name disk)
  end.
(** [BunCodeCompiler::compile]: the command's exit and output *)
Definition bun_compile `{Sha256, Json Value} (output : Result (bool * string * string)) : Result PublishedContract :=
  match output with
  | Err _ => Err "run local actor build"
  | Ok (success, stdout, stderr) =>
      ensure success ("local actor build failed: " +:+ stderr);;
      document ← match from_slice stdout with Ok v => Ok v | Err _ => Err "read compiled actor contract" end;
      PublicActorContract_new document
  end.

(** [commit]: the entries in the order they are listed, until one cannot be removed *)
Fixpoint clean_up (current project : string) (listing : list (string * bool)) (disk : Disk) : Disk :=
  match listing with
  | [] => disk
  | (name, removable) :: listing =>
      if negb (String.eqb name current) && starts_with "build-" name then
        if removable then clean_up current project listing (remove_entry project name disk) else disk
      else clean_up current project listing disk
  end.
Definition local_commit (b : PreparedLocalBuild) (listing : list (string * bool)) (disk : Disk) : Disk :=
  clean_up (pb_name b) (pb_project b) listing disk.
(** [Drop for TempDir] of a build that was not committed *)
Definition local_abandon (b : PreparedLocalBuild) (disk : Disk) : Disk := remove_entry (pb_project b) (pb_name b) disk.

(** * Deploying with local builds *)
Record LocalWorld := {
  lw_registry : LocalAdminRegistry;
  lw_disk : Disk;
  lw_pending : option PreparedLocalBuild }.
Definition set_registry (r : LocalAdminRegistry) (w : LocalWorld) : LocalWorld :=
  {| lw_registry := r; lw_disk := lw_disk w; lw_pending := lw_pending w |}.

(** What the requests of the control plane do to the world *)
Definition local_serves (w : LocalWorld) {X} (e : CEff X) : X -> LocalWorld -> Prop :=
  match e in CEff X return X -> LocalWorld -> Prop with
  | RegistryLaunchSpec project => fun x w' => x = Ok (registry_launch_spec (lw_registry w) project) /\ w' = w
  | RegistryRegister spec k => fun x w' => exists r, registry_register (lw_registry w) spec k = (x, r) /\ w' = set_registry r w
  | RegistryRemove project => fun x w' => x = Ok () /\ w' = set_registry (registry_remove (lw_registry w) project) w
  | LocalBuildPrepare source => fun x w' => exists mkdir tempdir compiled,
      (forall name, tempdir = Ok name -> fresh_build (lw_disk w) (spec_project_id source) name) /\
      let '(r, disk) := local_prepare source mkdir tempdir compiled (lw_disk w) in
      x = ((fun b => (pb_spec b, pb_contract b)) <$> r) /\
      w' = {| lw_registry := lw_registry w; lw_disk := disk;
              lw_pending := match r with Ok b => Some b | Err _ => lw_pending w end |}
  | LocalBuildCommit => fun _ w' => exists listing,
      w' = {| lw_registry := lw_registry w;
              lw_disk := match lw_pending w with Some b => local_commit b listing (lw_disk w) | None => lw_disk w end;
              lw_pending := None |}
  (* the build of a deployment that failed is dropped with the lock *)
  | UnlockDeployments => fun _ w' =>
      w' = {| lw_registry := lw_registry w;
              lw_disk := match lw_pending w with Some b => local_abandon b (lw_disk w) | None => lw_disk w end;
              lw_pending := None |}
  | _ => fun _ w' => w' = w
  end.
Fixpoint local_executes {A} (p : cprog A) (w : LocalWorld) (r : Result A) (w' : LocalWorld) : Prop :=
  match p with
  | CRet r' => r' = r /\ w' = w
  | CVis e k => exists x w1, local_serves w e x w1 /\ local_executes (k x) w1 r w'
  end.

(** ** The code of a deployment is on disk *)
Definition has_code (disk : Disk) (spec : HostLaunchSpec) : Prop :=
  exists name, name ∈ entries disk (spec_project_id spec) /\
    actor_entrypoint spec = Some (path_join (build_path (spec_project_id spec) name) "actors.mjs").
Definition world_ok (w : LocalWorld) : Prop :=
  lw_pending w = None /\ forall project spec, registry_launch_spec (lw_registry w) project = Some spec ->
    spec_project_id spec = project /\ has_code (lw_disk w) spec.

(** ** Runs *)
Lemma local_executes_bind {A B} (p : cprog A) (f : A -> cprog B) w r w' : local_executes (p ≫= f) w r w' ->
  (exists a w1, local_executes p w (Ok a) w1 /\ local_executes (f a) w1 r w') \/
  (exists e, local_executes p w (Err e) w' /\ r = Err e).
Proof.
  revert w. induction p as [[a|e]|X e k IH]; intros w.
  - intros Hf. left. by exists a, w.
  - intros [<- ->]. right. by exists e.
  - intros (x & w1 & Hs & [(a & w2 & H1 & H2)|(e' & H1 & ->)]%IH).
    + left. exists a, w2. split; [by exists x, w1|done].
    + right. exists e'. split; [by exists x, w1|done].
Qed.
Lemma local_executes_unlock {A} (p : cprog A) w r w' : local_executes (then_unlock p) w r w' ->
  exists w1, local_executes p w r w1 /\ local_serves w1 UnlockDeployments () w'.
Proof.
  revert w. induction p as [r0|X e k IH]; intros w.
  - intros ([] & w1 & Hs & <- & ->). exists w. by split.
  - intros (x & w1 & Hs & (w2 & H1 & H2)%IH). exists w2. split; [by exists x, w1|done].
Qed.
(** Requests that leave the registry and the disk *)
Definition neutral {X} (e : CEff X) : bool :=
  match e with
  | RegistryRegister _ _ | RegistryRemove _ | LocalBuildPrepare _ | LocalBuildCommit | UnlockDeployments => false
  | _ => true
  end.
Lemma neutral_executes {A} (p : cprog A) w r w' : all_calls (fun _ e => neutral e = true) p -> local_executes p w r w' -> w' = w.
Proof.
  revert w. induction p as [r0|X e k IH]; intros w Hp; [by intros [_ ->]|]. destruct Hp as [He Hk].
  intros (x & w1 & Hs & Hr). assert (w1 = w) as ->; [|by eapply IH].
  destruct e; try discriminate He; cbn in Hs; try exact Hs. by destruct Hs.
Qed.
#[local] Hint Extern 1 (all_calls _ (of_pool _)) => apply all_calls_of_pool; done : calls.

(** ** The disk *)
Lemma entries_add disk p n q : entries (add_entry p n disk) q = if decide (q = p) then entries disk p ∪ {[ n ]} else entries disk q.
Proof.
  unfold add_entry, entries at 1. case_decide as Hq; [subst; by rewrite lookup_insert_eq|by rewrite lookup_insert_ne].
Qed.
Lemma entries_remove disk p n q :
  entries (remove_entry p n disk) q = if decide (q = p) then entries disk p ∖ {[ n ]} else entries disk q.
Proof.
  unfold remove_entry, entries at 1. case_decide as Hq; [subst; by rewrite lookup_insert_eq|by rewrite lookup_insert_ne].
Qed.
Lemma clean_up_entries current project listing : forall disk q n, n ∈ entries disk q -> q <> project \/ n = current ->
  n ∈ entries (clean_up current project listing disk) q.
Proof.
  induction listing as [|[name removable] listing IH]; intros disk q n Hn Hq; cbn [clean_up]; [done|].
  destruct (negb (String.eqb name current) && starts_with "build-" name) eqn:E; [|by apply IH]. destruct removable; [|done].
  apply IH; [|done]. rewrite entries_remove. case_decide as Hd; [|done]. subst q. bools. destruct Hq as [Hq| ->]; [done|].
  apply elem_of_difference. split; [done|]. rewrite elem_of_singleton. congruence.
Qed.

(** A build is prepared: what is registered has its code in another directory. *)
Definition prepared_ok (w : LocalWorld) (b : PreparedLocalBuild) : Prop :=
  lw_pending w = Some b /\ pb_name b ∈ entries (lw_disk w) (pb_project b) /\ spec_project_id (pb_spec b) = pb_project b /\
  actor_entrypoint (pb_spec b) = Some (path_join (build_path (pb_project b) (pb_name b)) "actors.mjs") /\
  forall project spec, registry_launch_spec (lw_registry w) project = Some spec -> spec_project_id spec = project /\
    exists name, name ∈ entries (lw_disk w) project /\ (project = pb_project b -> name <> pb_name b) /\
      actor_entrypoint spec = Some (path_join (build_path project name) "actors.mjs").

Lemma prepare_executes source w r w' : world_ok w -> local_executes (await_ok (LocalBuildPrepare source)) w r w' ->
  match r with
  | Ok built => exists b, built = (pb_spec b, pb_contract b) /\ prepared_ok w' b /\ pb_project b = spec_project_id source /\
                spec_source (pb_spec b) = Some (source_of source)
  | Err _ => world_ok w'
  end.
Proof.
  intros [Hp Hall] (x & w1 & (mkdir & tempdir & compiled & Hfresh & Hs) & Hr). cbn in Hr. destruct Hr as [<- ->].
  unfold local_prepare in Hs.
  assert (Hkept : forall disk', (forall q n, n ∈ entries (lw_disk w) q -> n ∈ entries disk' q) ->
            world_ok {| lw_registry := lw_registry w; lw_disk := disk'; lw_pending := lw_pending w |}).
  { intros disk' Hd. split; [done|]. intros project spec Hspec. destruct (Hall project spec Hspec) as [Hid (n & Hn & He)].
    split; [done|]. exists n. by split; [apply Hd|]. }
  destruct (ensure _ _;; _) as [[]|e]; [|destruct Hs as [-> ->]; by apply Hkept].
  destruct tempdir as [name|e]; [|destruct Hs as [-> ->]; by apply Hkept].
  destruct (Hfresh name eq_refl) as [_ Hnew]. destruct compiled as [k|e]; destruct Hs as [-> ->]; cbn [fmap Result_fmap].
  - eexists. split; [done|]. split; [|done]. unfold prepared_ok. cbn [lw_pending lw_disk lw_registry pb_name pb_project pb_spec spec_project_id actor_entrypoint].
    split_and!; [done|rewrite entries_add, decide_True by done; set_solver|done|done|].
    intros project spec Hspec. destruct (Hall project spec Hspec) as [Hid (n & Hn & He)]. subst project. split; [done|]. exists n.
    split; [rewrite entries_add; case_decide as Hd; [rewrite <- Hd; set_solver|done]|]. split; [|done].
    intros Heq ->. by rewrite Heq in Hn.
  - apply Hkept. intros q n Hn. rewrite entries_remove, entries_add. case_decide as Hd; [|rewrite entries_add; by rewrite decide_False].
    subst q. rewrite decide_True by done. assert (n <> name) by (by intros ->). set_solver.
Qed.

Lemma unlock_ok w w' : world_ok w -> local_serves w UnlockDeployments () w' -> world_ok w' /\ lw_registry w' = lw_registry w.
Proof. intros [Hp Hall]. cbn. rewrite Hp. intros ->. by split; [split|]. Qed.
Lemma unlock_prepared w b w' : prepared_ok w b -> local_serves w UnlockDeployments () w' -> world_ok w'.
Proof.
  intros (Hp & _ & _ & _ & Hall). cbn. rewrite Hp. intros ->. split; [done|]. intros project spec Hspec.
  destruct (Hall project spec Hspec) as [Hid (n & Hn & Hne & He)]. split; [done|]. subst project. exists n. split; [|done].
  cbn. unfold local_abandon. rewrite entries_remove. case_decide as Hd; [|done].
  apply elem_of_difference. rewrite <- Hd. split; [done|]. rewrite elem_of_singleton. auto.
Qed.
(** The build is registered, and then committed. *)
Lemma commit_ok w b k w' : prepared_ok w b ->
  local_serves (set_registry (<[pb_project b := {| las_deployment := Some (pb_spec b); las_contract := k |}]> (lw_registry w)) w)
    LocalBuildCommit () w' ->
  world_ok w' /\ registry_launch_spec (lw_registry w') (pb_project b) = Some (pb_spec b).
Proof.
  intros (Hp & Hb & Hid & He & Hall) (listing & ->). cbn. rewrite Hp.
  assert (Hnew : registry_launch_spec (<[pb_project b := {| las_deployment := Some (pb_spec b); las_contract := k |}]> (lw_registry w))
                   (pb_project b) = Some (pb_spec b)) by (unfold registry_launch_spec; by rewrite lookup_insert_eq).
  split; [|exact Hnew]. split; [done|]. intros project spec. cbn. destruct (decide (project = pb_project b)) as [->|Hne].
  - rewrite Hnew. intros [= <-]. split; [done|]. exists (pb_name b). rewrite Hid. split; [|done].
    apply clean_up_entries; [done|by right].
  - unfold registry_launch_spec. rewrite lookup_insert_ne by done. intros Hspec.
    destruct (Hall project spec Hspec) as [Hs (n & Hn & _ & Hen)]. split; [done|]. subst project. exists n. split; [|done].
    apply clean_up_entries; [done|by left].
Qed.

Section deploying.
Context `{Base64Url, Sha256, UrlParser, Json Value, Json HostIdentity, Json SpareHandle, Json PoolKey, JwtKeys,
          Jwt ActorJwtClaims}.
Context (cp : ControlPlaneConfig).

Lemma register_executes spec k w r w' : local_executes (register_deployment cp spec k) w r w' ->
  match r with
  | Err _ => w' = w
  | Ok _ => w' = set_registry (<[spec_project_id spec := {| las_deployment := Some spec; las_contract := k |}]> (lw_registry w)) w
  end.
Proof.
  unfold register_deployment. intros [(previous & w1 & Hp & Hr)|(e & Hp & ->)]%local_executes_bind;
    apply neutral_executes in Hp as ->; [|each_call|done|each_call].
  apply local_executes_bind in Hr as [([] & w1 & Hv & Hr)|(e & Hv & ->)]; apply neutral_executes in Hv as ->; [|each_call|done|each_call].
  assert (Hterm : all_calls (fun _ e => neutral e = true)
            (match previous with Some previous => terminate_deployment_hosts cp previous | None => mret () end)).
  { destruct previous; [|done]. unfold terminate_deployment_hosts, terminate_hosts. each_call. }
  apply local_executes_bind in Hr as [([] & w1 & Ht & Hr)|(e & Ht & ->)]; apply neutral_executes in Ht as ->; [|done|done|done].
  apply local_executes_bind in Hr as [(changed & w1 & Hreg & Hr)|(e & Hreg & ->)];
    destruct Hreg as (x & w2 & (reg & Ereg & ->) & -> & ->); unfold registry_register in Ereg;
    destruct (HostLaunchSpec_validate spec) as [[]|] in Ereg; simplify_eq.
  - apply neutral_executes in Hr as Hw; [|each_call]. subst w'. destruct r as [b|e]; [done|].
    cbn in Hr. destruct Hr as (y & w2 & -> & Hr). by destruct Hr.
  - destruct w. done.
Qed.

(** A deployment ends with the code of every registered deployment on disk, whether it
    succeeds or fails and whatever the disk, the compiler and the providers do; one that
    succeeds has registered the code that it built. *)
Theorem registered_code_stays source supplied w r w' : cp_local_builds cp = true -> world_ok w ->
  local_executes (deploy_source cp source supplied) w r w' ->
  world_ok w' /\ forall changed, r = Ok changed -> exists spec,
    registry_launch_spec (lw_registry w') (spec_project_id source) = Some spec /\ has_code (lw_disk w') spec /\
    spec_source spec = Some (source_of source).
Proof.
  intros Hlocal Hok (x & w0 & Hlock & Hr). cbn in Hlock. subst w0. apply local_executes_unlock in Hr as (w1 & Hr & Hu).
  destruct x. rewrite Hlocal in Hr.
  apply local_executes_bind in Hr as [([] & w2 & Hv & Hr)|(e & Hv & ->)]; apply neutral_executes in Hv as ->;
    [|each_call|split; [exact (proj1 (unlock_ok _ _ Hok Hu))|done]|each_call].
  apply local_executes_bind in Hr as [(previous & w2 & Hv & Hr)|(e & Hv & ->)]; apply neutral_executes in Hv as ->;
    [|each_call|split; [exact (proj1 (unlock_ok _ _ Hok Hu))|done]|each_call].
  apply local_executes_bind in Hr as [([prepared compiled] & w2 & Hb & Hr)|(e & Hb & ->)].
  2: { apply local_executes_bind in Hb as [(built & w2 & _ & Hb)|(e' & Hb & _)]; [by destruct Hb|].
       apply (prepare_executes _ _ _ _ Hok) in Hb. split; [exact (proj1 (unlock_ok _ _ Hb Hu))|done]. }
  apply local_executes_bind in Hb as [(built & w3 & Hb & Hret)|(e' & _ & ?)]; [|done]. destruct Hret as [[= <- <-] <-].
  apply (prepare_executes _ _ _ _ Hok) in Hb as (b & -> & Hprep & Hproj & Hsrc).
  apply local_executes_bind in Hr as [(final & w3 & Hv & Hr)|(e & Hv & ->)]; apply neutral_executes in Hv as ->;
    [|each_call|split; [by eapply unlock_prepared|done]|each_call].
  apply local_executes_bind in Hr as [([] & w3 & Hv & Hr)|(e & Hv & ->)]; apply neutral_executes in Hv as ->;
    [|each_call|split; [by eapply unlock_prepared|done]|each_call].
  apply local_executes_bind in Hr as [(changed & w3 & Hreg & Hr)|(e & Hreg & ->)]; apply register_executes in Hreg as ->;
    [|split; [by eapply unlock_prepared|done]].
  destruct Hr as (y & w3 & Hcommit & Hr). cbn in Hr. destruct Hr as [<- ->]. destruct y.
  destruct Hprep as (Hpend & Hin & Hid & Hentry & Hall). cbn [fst] in Hcommit. rewrite Hid in Hcommit.
  destruct (commit_ok w2 b _ w3 ltac:(done) Hcommit) as [Hok3 Hspec].
  destruct (unlock_ok _ _ Hok3 Hu) as [Hok' Ereg]. split; [done|]. intros _ _. exists (pb_spec b).
  rewrite Ereg, <- Hproj. split; [done|]. split; [|done]. rewrite <- Ereg in Hspec. apply (proj2 Hok' _ _ Hspec).
Qed.
End deploying.
End builds.

(** * The server *)
Inductive DevStorage := StorageLocal | StorageGcs.
Record DevOptions := {
  dv_project_id : string;
  dv_api_key : option string;
  dv_project : string;
  dv_port : Z;
  dv_data_dir : option string;
  dv_entrypoint : string;
  dv_storage : DevStorage;
  dv_ready_fd : option Z;
  dv_sdk_host : option string }.

(** What the server asks for; [StartServer] spawns the task that serves. *)
Inductive ServerEff : Type -> Type :=
| CanonicalizeProject (path : string) : ServerEff (Result string)
| IsFile (path : string) : ServerEff bool
| CreateDirAll (directory : string) : ServerEff (Result unit)
| OpenLock (path : string) : ServerEff (Result unit)
| TryLock (path : string) : ServerEff (Result unit)
| WriteFile (path text : string) : ServerEff (Result unit)
| BindLocal (port : Z) : ServerEff (Result string)
| CanonicalizeDirectory (path : string) : ServerEff (Result string)
| BucketVariable : ServerEff (option string)
| OpenStorage (location : BucketLocation) (origin traces : string) : ServerEff (Result unit)
| NewLocalProvider (project hosts : string) : ServerEff (Result unit)
| LocalRoutes (spec : HostLaunchSpec) (code : string) : ServerEff (Result unit)
| StartServer : ServerEff unit
| NotifyLauncher (fd : Z) (origin : string) (api_key : option string) (region project : string) : ServerEff (Result unit)
| PrintReady (origin directory project : string) : ServerEff unit
| ShutdownOrServer : ServerEff (option (Result (Result unit)))
| ProviderShutdown : ServerEff unit
| CancelServer : ServerEff unit
| ServerIsFinished : ServerEff bool
| AwaitServer (seconds : Z) : ServerEff bool
| AbortServer : ServerEff unit.
Abbreviation lprog := (calls ServerEff).

Definition prepare_directory (directory : string) : lprog unit :=
  await_ok (CreateDirAll directory);;
  await_ok (OpenLock (path_join directory "runtime.lock"));;
  locked ← await (TryLock (path_join directory "runtime.lock"));
  try (match locked with Ok _ => Ok () | Err _ => Err "another local runtime is already using this data directory" end);;
  await_ok (WriteFile (path_join directory ".gitignore") (String "*" (String (ascii_of_nat 10) ""))).

Definition local_location (options : DevOptions) (directory : string) : lprog BucketLocation :=
  match dv_storage options with
  | StorageLocal => absolute ← await_ok (CanonicalizeDirectory directory); mret (FileDirectory (path_join absolute "objects"))
  | StorageGcs =>
      bucket ← await BucketVariable;
      try (GcsBucket <$> with_context bucket "DURABLE_ACTORS_STORAGE=gcs requires DURABLE_ACTORS_BUCKET")
  end.
Definition local_storage (options : DevOptions) (directory origin : string) : lprog string :=
  location ← local_location options directory;
  await_ok (OpenStorage location origin (path_join directory "request-traces.sqlite3"));;
  mret "north-america-east".

(** What the server deploys when it starts *)
Definition local_spec (options : DevOptions) (project : string) : HostLaunchSpec :=
  {| spec_project_id := dv_project_id options; spec_source := None; image_ref := "local"; code_snapshot := None;
     working_directory := project; actor_entrypoint := Some (dv_entrypoint options); secret_refs := [] |}.

Definition notify_launcher (options : DevOptions) (origin region : string) : lprog unit :=
  match dv_ready_fd options with
  | Some fd => await_ok (NotifyLauncher fd origin (dv_api_key options) region (dv_project_id options))
  | None => mret ()
  end.

(** [LocalServer::run_until] *)
Definition run_until (ready : Result unit) : lprog unit :=
  result ← match ready with
           | Ok _ =>
               ended ← await ShutdownOrServer;
               mret (match ended with
                     | None => Ok ()
                     | Some (Err _) => Err "local server task failed"
                     | Some (Ok (Err _)) => Err "local server failed"
                     | Some (Ok (Ok _)) => Ok ()
                     end)
           | Err error => mret (Err error)
           end;
  await ProviderShutdown;;
  await CancelServer;;
  finished ← await ServerIsFinished;
  (if finished : bool then mret ()
   else in_time ← await (AwaitServer 5);
        if in_time : bool then mret () else await AbortServer);;
  try result.

Definition serve_local (options : DevOptions) : lprog unit :=
  try (admin_component "project ID" (dv_project_id options) 64);;
  canonical ← await (CanonicalizeProject (dv_project options));
  project ← try (match canonical with Ok p => Ok p | Err _ => Err "find actor project directory" end);
  present ← await (IsFile (path_join project (dv_entrypoint options)));
  check_that present ("actor file " +:+ dv_entrypoint options +:+ " is missing; create it before starting the demo");;
  let directory := default (path_join project ".durable-actors") (dv_data_dir options) in
  prepare_directory directory;;
  bound ← await (BindLocal (dv_port options));
  origin ← try (match bound with Ok o => Ok o | Err _ => Err "bind local runtime; use --port to select another port" end);
  region ← local_storage options directory origin;
  await_ok (NewLocalProvider project (path_join directory "local-hosts.sqlite3"));;
  absolute ← await_ok (CanonicalizeDirectory directory);
  await_ok (LocalRoutes (local_spec options project) (path_join absolute "code"));;
  await StartServer;;
  ready ← outcome (notify_launcher options origin region);
  (if is_ok ready then await (PrintReady origin directory (dv_project_id options)) else mret ());;
  run_until ready.

(** [local_issuer], for the key that was generated *)
Definition local_issuer `{SigningKeys} (encoded_key : string) : Result ActorJwtIssuer :=
  from_base64_pkcs8 encoded_key "local" "durable-actors-control-plane" "durable-actors-authority"
    "durable-actors-invoke" 86400.
(** The issuer of [local_routes] with its verifier *)
Definition local_tokens `{SigningKeys, Jwks, JwtKeys} (encoded_key : string) : Result (ActorJwtIssuer * ActorJwtVerifier) :=
  issuer ← local_issuer encoded_key;
  auth ← for_scope (verifier_keys_json issuer) "durable-actors-control-plane" "durable-actors-authority" Tokens.ControlPlane 86400;
  Ok (issuer, auth).

(** ** In which order *)
(** The data directory is only used under its lock, the server is only stopped after
    the hosts were, and aborted only when it did not end in time. *)
Definition local_guard (X : Type) (e : ServerEff X) (t : list (event ServerEff)) : Prop :=
  match e with
  | WriteFile _ _ | OpenStorage _ _ _ | NewLocalProvider _ _ | LocalRoutes _ _ | StartServer =>
      exists path, Ev (TryLock path) (Ok ()) ∈ t
  | CancelServer => Ev ProviderShutdown () ∈ t
  | AbortServer => Ev CancelServer () ∈ t /\ Ev (AwaitServer 5) false ∈ t
  | _ => True
  end.
Definition unguarded {X} (e : ServerEff X) : bool :=
  match e with
  | WriteFile _ _ | OpenStorage _ _ _ | NewLocalProvider _ _ | LocalRoutes _ _ | StartServer | CancelServer | AbortServer => false
  | _ => true
  end.
Lemma unguarded_guard {A} (p : lprog A) t : all_calls (fun _ e => unguarded e = true) p -> guarded local_guard p t.
Proof. apply all_calls_guarded. by intros X []. Qed.

Lemma prepare_directory_guarded directory t : guarded local_guard (prepare_directory directory) t.
Proof.
  apply guarded_bind; [apply unguarded_guard; each_call|]. intros t1 [] _.
  apply guarded_bind; [apply unguarded_guard; each_call|]. intros t2 [] _.
  apply guarded_bind; [apply unguarded_guard; each_call|]. intros t3 locked Hl. apply runs_await in Hl as (x & -> & [= <-]).
  apply guarded_bind; [apply unguarded_guard; each_call|]. intros t4 [] Ht. apply runs_try in Ht as [-> Ht].
  destruct locked as [[]|]; [|done]. split; [|done]. eexists. rewrite !app_nil_r. apply elem_of_app. right. by left.
Qed.
Lemma prepare_directory_locks directory t : runs (prepare_directory directory) t (Ok ()) -> exists path, Ev (TryLock path) (Ok ()) ∈ t.
Proof.
  unfold prepare_directory. intros Hr. apply runs_bind_ok in Hr as ([] & t1 & t2 & -> & _ & Hr).
  apply runs_bind_ok in Hr as ([] & t3 & t4 & -> & _ & Hr). apply runs_bind_ok in Hr as (l & t5 & t6 & -> & Hl & Hr).
  apply runs_await in Hl as (x & -> & [= <-]). apply runs_bind_ok in Hr as ([] & t7 & t8 & -> & Ht & _).
  apply runs_try in Ht as [-> Ht]. destruct l as [[]|]; [|done]. exists (path_join directory "runtime.lock"). set_solver.
Qed.

Lemma run_until_guarded ready t : guarded local_guard (run_until ready) t.
Proof.
  apply guarded_bind; [apply unguarded_guard; each_call|]. intros t1 result _.
  apply guarded_bind; [apply unguarded_guard; each_call|]. intros t2 [] Hs. apply runs_await in Hs as ([] & -> & _).
  apply guarded_bind; [split; [cbn; set_solver|done]|]. intros t3 [] Hc. apply runs_await in Hc as ([] & -> & _).
  apply guarded_bind; [apply unguarded_guard; each_call|]. intros t4 finished _.
  apply guarded_bind; [|intros; apply unguarded_guard; each_call]. destruct finished; [done|].
  apply guarded_bind; [apply unguarded_guard; each_call|]. intros t5 in_time Ha. apply runs_await in Ha as (x & -> & [= <-]).
  destruct in_time; [done|]. split; [|done]. cbn. set_solver.
Qed.
Lemma serve_local_guarded options : guarded local_guard (serve_local options) [].
Proof.
  unfold serve_local. apply guarded_bind; [done|]. intros t0 [] _.
  apply guarded_bind; [apply unguarded_guard; each_call|]. intros t1 canonical _.
  apply guarded_bind; [apply unguarded_guard; each_call|]. intros t2 project _.
  apply guarded_bind; [apply unguarded_guard; each_call|]. intros t3 present _.
  apply guarded_bind; [apply unguarded_guard; each_call|]. intros t4 [] _. cbn zeta.
  set (directory := default _ _).
  apply guarded_bind; [apply prepare_directory_guarded|]. intros t5 [] (path & Hlock)%prepare_directory_locks.
  apply guarded_bind; [apply unguarded_guard; each_call|]. intros t6 bound _.
  apply guarded_bind; [apply unguarded_guard; each_call|]. intros t7 origin _.
  assert (Hl : forall t, exists path, Ev (TryLock path) (Ok ()) ∈ ((((((((([] ++ t0) ++ t1) ++ t2) ++ t3) ++ t4) ++ t5) ++ t6) ++ t7) ++ t)%list)
    by (intros t; exists path; set_solver).
  set (before := ((((((((([] ++ t0) ++ t1) ++ t2) ++ t3) ++ t4) ++ t5) ++ t6) ++ t7))%list) in *. clearbody before.
  apply guarded_bind.
  { apply guarded_bind; [apply unguarded_guard; unfold local_location; each_call|]. intros t8 location _.
    apply guarded_bind; [split; [apply Hl|done]|intros; done]. }
  intros t8 region _. apply guarded_bind; [split; [apply Hl|done]|]. intros t9 [] _. rewrite <- app_assoc.
  apply guarded_bind; [apply unguarded_guard; each_call|]. intros t10 absolute _. rewrite <- app_assoc.
  apply guarded_bind; [split; [apply Hl|done]|]. intros t11 [] _. rewrite <- app_assoc.
  apply guarded_bind; [split; [apply Hl|done]|]. intros t12 [] _.
  apply guarded_bind; [apply unguarded_guard; unfold notify_launcher; each_call|]. intros t13 ready _.
  apply guarded_bind; [apply unguarded_guard; each_call|]. intros t14 [] _. apply run_until_guarded.
Qed.
(** However it ends, a server that was started is stopped, after the hosts. *)
Lemma run_until_stops ready t r : runs (run_until ready) t r -> Ev ProviderShutdown () ∈ t /\ Ev CancelServer () ∈ t.
Proof.
  assert (Hstop : forall result t, runs (await ProviderShutdown;; await CancelServer;;
              finished ← await ServerIsFinished;
              (if finished : bool then mret ()
               else in_time ← await (AwaitServer 5); if in_time : bool then mret () else await AbortServer);;
              try result) t r -> Ev ProviderShutdown () ∈ t /\ Ev CancelServer () ∈ t).
  { intros result t' ([] & t1 & -> & Hr)%runs_inv. cbn in Hr. apply runs_inv in Hr as ([] & t2 & -> & _). set_solver. }
  unfold run_until. intros [(result & t1 & t2 & -> & _ & Hr)|(e & Hr & ->)]%runs_bind.
  - apply Hstop in Hr as [? ?]. set_solver.
  - exfalso. destruct ready as [[]|e']; [|by apply runs_inv in Hr as [_ ?]].
    apply runs_inv in Hr as (x & t1 & -> & Hr). cbn in Hr. apply runs_inv in Hr as [_ Hr]. done.
Qed.
Lemma started_server_stops options t r : runs (serve_local options) t r -> Ev StartServer () ∈ t ->
  Ev ProviderShutdown () ∈ t /\ Ev CancelServer () ∈ t.
Proof.
  assert (Hskip : forall {A B} (p : lprog A) (f : A -> lprog B) t r,
            all_calls (fun X (e : ServerEff X) => match e with StartServer => False | _ => True end) p ->
            runs (p ≫= f) t r -> Ev StartServer () ∈ t ->
            exists a t1 t2, t = (t1 ++ t2)%list /\ runs (f a) t2 r /\ Ev StartServer () ∈ t2).
  { intros A B p f t0 r0 Hp Hr Hin.
    assert (Hnot : forall t1 r1, runs p t1 r1 -> Ev StartServer () ∉ t1).
    { intros t1 r1 H1 Hin1. pose proof (all_calls_runs _ _ _ _ Hp H1) as Hall. rewrite Forall_forall in Hall.
      exact (Hall _ Hin1). }
    apply runs_bind in Hr as [(a & t1 & t2 & -> & H1 & H2)|(e & H1 & ->)]; [|by apply Hnot in H1].
    exists a, t1, t2. split_and!; [done..|]. apply elem_of_app in Hin as [Hin|]; [by apply Hnot in H1|done]. }
  unfold serve_local. intros Hr Hin. cbn zeta in Hr.
  repeat (eapply Hskip in Hr as (? & ? & ? & -> & Hr & Hin'); [|solve [unfold prepare_directory, local_storage, local_location; each_call]|exact Hin];
          clear Hin; rename Hin' into Hin; cbn beta in Hr).
  apply runs_bind in Hr as [([] & t1 & t2 & -> & _ & Hr)|(e & Hr & ->)].
  2: { apply runs_inv in Hr as (? & ? & -> & Hr). by apply runs_inv in Hr as [_ ?]. }
  apply runs_bind in Hr as [(ready & t3 & t4 & -> & _ & Hr)|(e & Hr & ->)].
  2: { apply runs_outcome in Hr as (? & ? & _). done. }
  apply runs_bind in Hr as [([] & t5 & t6 & -> & _ & Hr)|(e & Hr & ->)].
  2: { destruct (is_ok ready); [apply runs_inv in Hr as (y & t5 & -> & Hr)|]; by apply runs_inv in Hr as [_ ?]. }
  apply run_until_stops in Hr as [? ?]. set_solver.
Qed.

(** The local server uses its data directory only under the directory's lock, stops its
    hosts before it stops serving them, aborts only what did not end in time, and once
    started always stops, whether it was told to, failed, or could not announce itself. *)
Theorem local_server_lives_in_order options t r : runs (serve_local options) t r ->
  (forall t1 X (e : ServerEff X) x t2, t = (t1 ++ Ev e x :: t2)%list -> local_guard X e t1) /\
  (Ev StartServer () ∈ t -> Ev ProviderShutdown () ∈ t /\ Ev CancelServer () ∈ t).
Proof.
  intros Hr. split; [|by eapply started_server_stops]. exact (guarded_runs _ _ _ _ _ (serve_local_guarded options) Hr).
Qed.

(** What the server deploys first is what local builds accept: it fails only if the disk
    or the compiler does. *)
Lemma local_spec_builds options builds project name contract disk : lb_project builds = project ->
  exists b, local_prepare builds (local_spec options project) (Ok ()) (Ok name) (Ok contract) disk
      = (Ok b, add_entry (dv_project_id options) name disk) /\ pb_contract b = contract /\
    spec_source (pb_spec b) = Some (source_of (local_spec options project)).
Proof.
  intros <-. unfold local_prepare. cbn [image_ref local_spec working_directory secret_refs].
  unfold path_eqb. rewrite bool_decide_eq_true_2 by done. cbn. by eexists.
Qed.

(** The control plane of a local server trusts the tokens that it gives to its hosts. *)
Lemma local_tokens_trusted `{SigningKeys, Jwks, JwtKeys, !SigningKeysLaws} key issuer auth :
  local_tokens key = Ok (issuer, auth) ->
  trusts auth issuer "durable-actors-authority" /\ vf_purpose auth = Tokens.ControlPlane /\
  is_invocation_audience issuer = "durable-actors-invoke".
Proof.
  unfold local_tokens. intros (s & Es & E)%bind_ok. apply bind_ok in E as (vf & Ev & [= -> ->]).
  assert (is_issuer issuer = "durable-actors-control-plane" /\ is_invocation_audience issuer = "durable-actors-invoke") as [Ei Ea].
  { unfold from_base64_pkcs8 in Es. cbn in Es. apply bind_ok in Es as (k & _ & [= <-]). done. }
  destruct (for_scope_trusts issuer "durable-actors-authority" Tokens.ControlPlane 86400) as (vf' & Ef & Ht & Hp & _);
    [done|by rewrite Ei|done|]. rewrite Ei, Ev in Ef. injection Ef as <-. done.
Qed.

(** * Which process to run: [run] of main.rs *)
Inductive process_role := RunDev (options : DevOptions) | RunControlPlane | RunSpare | RunHost | RunReplica.
(** [{role:?}], of a text without characters to escape *)
Definition quoted (s : string) : string := String (ascii_of_nat 34) (s +:+ String (ascii_of_nat 34) "").
Definition select_process (command : option DevOptions) (role : option string) : Result process_role :=
  match command with
  | Some options => Ok (RunDev options)
  | None =>
      let role := default "host" role in
      if String.eqb role "control_plane" then Ok RunControlPlane
      else if String.eqb role "spare" then Ok RunSpare
      else if String.eqb role "host" then Ok RunHost
      else if String.eqb role "replica" then Ok RunReplica
      else Err ("unsupported DURABLE_ACTORS_PROCESS_ROLE " +:+ quoted role)
  end.

(** * Example *)
(** A second build of a project replaces the first, and leaves other entries. *)
Definition demo_builds : LocalBuilds := {| lb_project := "/home/demo"; lb_directory := "/home/demo/.durable-actors/code" |}.
Definition demo_options : DevOptions :=
  {| dv_project_id := "local"; dv_api_key := None; dv_project := "."; dv_port := 7100; dv_data_dir := None;
     dv_entrypoint := "src/actors.ts"; dv_storage := StorageLocal; dv_ready_fd := None; dv_sdk_host := None |}.
Definition demo_contract : PublishedContract := {| contract_hash := "sha256:00"; contract := Null |}.
Definition demo_build (name : string) (listing : list (string * bool)) (disk : Disk) : option string * Disk :=
  match local_prepare demo_builds (local_spec demo_options "/home/demo/") (Ok ()) (Ok name) (Ok demo_contract) disk with
  | (Ok b, disk) => (actor_entrypoint (pb_spec b), local_commit b listing disk)
  | (Err _, disk) => (None, disk)
  end.
Lemma demo_runs :
  let disk := (demo_build "build-1" [] (add_entry "local" "notes" ∅)).2 in
  let second := demo_build "build-2" [("notes", true); ("build-1", true); ("build-2", true)] disk in
  second.1 = Some "/home/demo/.durable-actors/code/local/build-2/actors.mjs" /\
  elements (entries second.2 "local") = ["notes"; "build-2"].
Proof. vm_compute. split; reflexivity. Qed.
