(* ===== verification/HostHttp.v ===== *)
(** The HTTP interface of a host ([host/http.rs]) and the handle through which its
    tasks talk to the dispatcher ([ActorHost] of [host/actor_host.rs]).

    A handler is a program over [http_request]: commands to the dispatcher and the
    replies on their channels, the clocks that the check of a token reads, and the
    requests of [SocketSessions] for socket effects.  The extractors of [axum] are
    arguments: the actor of the path, the text of the authorization header, and the
    decoded body or its rejection.

    Shows that nothing is asked of the host without a token for exactly that request,
    and that a client never takes an invocation that completed for one that did not. *)

From S2P Require Import Prelude.
From S2P Require Import Actors.
From S2P Require Import StoragePaths.
From S2P Require Import Snapshots.
From S2P Require Import SocketEffects.
From S2P Require Import ActorRuntime.
From S2P Require Import HostRequests.
From S2P Require Import HostDispatcher.
From S2P Require Import Tokens.
From S2P Require Import RequestTraces.
From S2P Require Import SocketRegistry.
From S2P Require Import SocketSessions.
From S2P Require Import Calls.
Local Open Scope string_scope.
Local Open Scope Z_scope.

Inductive http_request : Type -> Type :=
| OnHost {X} (e : host_request X) : http_request X
| TokenClocks : http_request (Z * Z)
| ReplyChannel : http_request HostRequests.channel
(* whether the dispatcher still receives *)
| SendCommand (c : HostCommand) : http_request bool
(* [None], [false]: the other end was dropped *)
| RecvExecution (reply : HostRequests.channel) : http_request (option (Result ActorExecutionResult))
| RecvActivation (reply : HostRequests.channel) : http_request (option (Result ActorActivation))
| RecvEviction (reply : HostRequests.channel) : http_request (option (Result unit))
| RecvPong (reply : HostRequests.channel) : http_request bool
| RecvDrained (reply : HostRequests.channel) : http_request bool
| DrainElapsed (limit : Z) : http_request bool.
Abbreviation http := (calls http_request) (only parsing).

Fixpoint on_host {A} (p : calls host_request A) : http A :=
  match p with
  | CRet r => CRet r
  | CVis e k => CVis (OnHost e) (fun x => on_host (k x))
  end.

(** * [ActorHost] *)
Definition send_command (c : HostCommand) : http unit :=
  sent ← await (SendCommand c);
  check_that sent "actor dispatcher stopped".

Definition submit_since (op : ActorOperation) (owner_epoch : Z) : http ActorExecutionResult :=
  reply ← await ReplyChannel;
  send_command (Invoke {| rq_waiting := None; rq_operation := op; rq_owner_epoch := owner_epoch; rq_reply := reply |});;
  result ← await (RecvExecution reply);
  try (submitted result).
Definition host_invoke (i : ActorInvocation) (owner_epoch : Z) : http ActorExecutionResult :=
  submit_since (Method i) owner_epoch.
Definition host_socket_event (i : ActorSocketInvocation) (owner_epoch : Z) : http ActorExecutionResult :=
  submit_since (Socket i) owner_epoch.
Definition host_activate (actor : ActorKey) : http ActorActivation :=
  reply ← await ReplyChannel;
  submit_since (HostRequests.Activate actor reply) 0;;
  result ← await (RecvActivation reply);
  match result with Some r => try r | None => try (Err "actor activation was not completed") end.
Definition host_ping : http unit :=
  reply ← await ReplyChannel;
  send_command (Ping reply);;
  answered ← await (RecvPong reply);
  check_that answered "actor ping was not completed".
Definition host_evict_idle (last_active : Z) : http unit :=
  reply ← await ReplyChannel;
  send_command (EvictIdle last_active reply);;
  result ← await (RecvEviction reply);
  match result with Some r => try r | None => try (Err "idle actor eviction was not completed") end.

(** [tokio::time::timeout]: the program may be dropped between any two requests *)
Fixpoint within {A} (limit : Z) (p : http A) : http (option (Result A)) :=
  elapsed ← await (DrainElapsed limit);
  if (elapsed : bool) then mret None
  else match p with
       | CRet r => mret (Some r)
       | CVis e k => CVis e (fun x => within limit (k x))
       end.
Definition host_drain (limit : Z) : http unit :=
  drained ← within limit (
    reply ← await ReplyChannel;
    send_command (Drain reply);;
    done ← await (RecvDrained reply);
    check_that done "actor dispatcher stopped while draining");
  match drained with
  | Some r => try r
  | None => try (Err "actor invocations did not drain before shutdown")
  end.

(** [trace]: what a span records about an operation, if the host has a sender *)
Definition trace_kind (op : ActorOperation) : option (RequestKind * option string * option Value) :=
  match op with
  | HostRequests.Activate _ _ => None
  | Method _ => Some (KindMethod, None, None)
  | Socket i =>
      match sock_event i with
      | Connect connection => Some (KindWebsocket, Some (conn_id connection), Some (conn_metadata connection))
      | Disconnect connection _ _ _ => Some (KindWebsocket, Some (conn_id connection), None)
      | Message connection_id _ => Some (KindWebsocket, Some connection_id, None)
      end
  end.
Definition host_trace `{Json Value} (traced : bool) (op : ActorOperation) (now elapsed_ms : Z) : option RequestTrace :=
  if traced then
    '(kind, connection, metadata) ← trace_kind op;
    RequestSpan_new (operation_invocation op) kind connection metadata now elapsed_ms
  else None.
(** What is sent about an event that was not handled *)
Definition discard_socket_event `{Json Value} (traced : bool) (i : ActorSocketInvocation) (now elapsed_ms : Z)
    (result : RequestOutcome) (elapsed : f64) : list RequestTrace :=
  (span_finish result elapsed (host_trace traced (Socket i) now elapsed_ms)).2.

(** * [host/http.rs] *)
Record InvokeRequest := { iv_request_id : string; iv_owner_epoch : Z; iv_method : string; iv_args : list Value }.
Record PublishRequest := { pq_owner_epoch : Z; pq_effects : list ActorSocketEffect }.
Inductive InvocationReply :=
| ReplyCompleted (result : Value)
| ReplyFailed (code message : string)
| ReplyReroute.
(** A body that the extractor refused: its status and text *)
Record Rejection := { rj_status : Z; rj_text : string }.

Record ActorHostHttpService := { hh_host : HostId; hh_session_id : string; hh_auth : ActorJwtVerifier }.

(** [?] on a result of HTTP, and on a result with [map_err] *)
Definition or_http {A B} (r : HttpResult A) (k : A -> http (HttpResult B)) : http (HttpResult B) :=
  match r with HttpOk a => k a | HttpError status message => mret (HttpError status message) end.
Definition bad_request {A} (r : Result A) : HttpResult A :=
  match r with Ok a => HttpOk a | Err e => HttpError 400 e end.
Definition json_body {A} (body : A + Rejection) : HttpResult A :=
  match body with inl a => HttpOk a | inr rejection => HttpError (rj_status rejection) (rj_text rejection) end.

Section http.
Context (uuid_ok : string -> bool) `{JwtKeys, Jwt ActorJwtClaims, Json Value, Json ActorSocketEffect, Base64Std}.
Context (service : ActorHostHttpService).

Definition authenticated {A} (authorization : option string) (k : ActorPrincipal -> http (HttpResult A))
  : http (HttpResult A) :=
  clocks ← await TokenClocks;
  or_http (http_authenticate uuid_ok (hh_auth service) clocks.1 clocks.2 authorization) k.
Definition authorized {A} (p : ActorPrincipal) (actor : ActorKey) (epoch : Z) (k : http (HttpResult A))
  : http (HttpResult A) :=
  or_http (http_authorize (hh_host service) (hh_session_id service) p actor epoch) (fun _ => k).

Definition http_execute (i : ActorInvocation) (owner_epoch : Z) : http InvocationReply :=
  result ← outcome (host_invoke i owner_epoch);
  match result with
  | Ok (Completed result effects) =>
      if is_nil effects then mret (ReplyCompleted result)
      else
        delivered ← outcome (on_host (publish_authorized (inv_actor i) (hh_host service) owner_epoch effects));
        mret (match delivered with
              | Ok _ => ReplyCompleted result
              | Err _ => ReplyFailed "outcome_unknown" "actor completed but socket effects could not be delivered"
              end)
  | Ok (Failed failure) => mret (ReplyFailed (code failure) (message failure))
  | Ok Reroute => mret ReplyReroute
  | Ok HostUnavailable => mret (ReplyFailed "unavailable" "actor host is draining")
  | Err _ => mret (ReplyFailed "unavailable" "actor could not start because its state was unavailable")
  end.

Definition http_ping (actor : ActorKey) (authorization : option string) : http (HttpResult Z) :=
  authenticated authorization (fun principal =>
  let owner_epoch := match pr_invocation principal with Some c => cap_owner_epoch c | None => 0 end in
  authorized principal actor owner_epoch (
  answered ← outcome host_ping;
  mret (match answered with Ok _ => HttpOk 204 | Err _ => HttpError 503 "actor host unavailable" end))).

Definition http_invoke (actor : ActorKey) (authorization : option string) (body : InvokeRequest + Rejection)
  : http (HttpResult InvocationReply) :=
  authenticated authorization (fun principal =>
  or_http (json_body body) (fun request =>
  authorized principal actor (iv_owner_epoch request) (
  let i := {| inv_actor := actor; request_id := iv_request_id request; method := iv_method request; args := iv_args request |} in
  or_http (bad_request (ActorInvocation_validate i)) (fun _ =>
  reply ← http_execute i (iv_owner_epoch request);
  mret (HttpOk reply))))).

Definition http_publish (actor : ActorKey) (authorization : option string) (body : PublishRequest + Rejection)
  : http (HttpResult Z) :=
  authenticated authorization (fun principal =>
  or_http (json_body body) (fun request =>
  authorized principal actor (pq_owner_epoch request) (
  or_http (bad_request (validate_socket_effects (pq_effects request))) (fun _ =>
  delivered ← outcome (on_host (publish_authorized actor (hh_host service) (pq_owner_epoch request) (pq_effects request)));
  mret (match delivered with Ok _ => HttpOk 204 | Err _ => HttpError 503 "socket effects could not be delivered" end))))).

(** * What a request needs *)
Inductive http_call :=
| PingCall (actor : ActorKey) (authorization : option string)
| InvokeCall (actor : ActorKey) (authorization : option string) (body : InvokeRequest + Rejection)
| PublishCall (actor : ActorKey) (authorization : option string) (body : PublishRequest + Rejection).
Definition call_actor (c : http_call) : ActorKey :=
  match c with PingCall actor _ | InvokeCall actor _ _ | PublishCall actor _ _ => actor end.
Definition call_authorization (c : http_call) : option string :=
  match c with PingCall _ a | InvokeCall _ a _ | PublishCall _ a _ => a end.
Definition discarding {A} (p : http A) : http unit := p;; mret ().
Definition http_handle (c : http_call) : http unit :=
  match c with
  | PingCall actor a => discarding (http_ping actor a)
  | InvokeCall actor a body => discarding (http_invoke actor a body)
  | PublishCall actor a body => discarding (http_publish actor a body)
  end.

(** The header was accepted for the actor and the epoch, by the clocks that were read. *)
Definition admitted (c : http_call) (epoch : Z) (t : list (event http_request)) : Prop :=
  exists library_now now, Ev TokenClocks (library_now, now) ∈ t /\
    http_admits uuid_ok (hh_auth service) library_now now (call_authorization c) (hh_host service) (hh_session_id service)
      (call_actor c) epoch = HttpOk ().
Definition needs_capability (c : http_call) (X : Type) (e : http_request X) (t : list (event http_request)) : Prop :=
  match e with
  | SendCommand (Ping _) => exists epoch, admitted c epoch t
  | SendCommand (Invoke r) => admitted c (rq_owner_epoch r) t /\ exists i, rq_operation r = Method i /\
      inv_actor i = call_actor c /\ ActorInvocation_validate i = Ok ()
  | SendCommand _ => False
  | OnHost (Registry _) => exists epoch state, admitted c epoch t /\ Ev (OnHost StorageAuthority) (Ok ()) ∈ t /\
      Ev (OnHost (LoadActorState (call_actor c) (hh_host service) epoch)) (Ok state) ∈ t
  | _ => True
  end.
Definition needs_nothing {X} (e : http_request X) : bool :=
  match e with SendCommand _ | OnHost (Registry _) => false | _ => true end.
Lemma needs_nothing_guarded c {A} (p : http A) t :
  all_calls (fun _ e => needs_nothing e = true) p -> guarded (needs_capability c) p t.
Proof. apply all_calls_guarded. intros X e t' He. destruct e as [X e| | | | | | | | |]; try discriminate He; try done. by destruct e. Qed.

Lemma admitted_more c epoch t t' : admitted c epoch t -> admitted c epoch (t ++ t')%list.
Proof. intros (l & n & Hin & Ha). exists l, n. split; [set_solver|done]. Qed.
#[local] Hint Resolve admitted_more : core.

Lemma on_host_guarded c epoch state {A} (p : calls host_request A) t :
  admitted c epoch t -> Ev (OnHost StorageAuthority) (Ok ()) ∈ t ->
  Ev (OnHost (LoadActorState (call_actor c) (hh_host service) epoch)) (Ok state) ∈ t -> guarded (needs_capability c) (on_host p) t.
Proof.
  revert t. induction p as [r|X e k IH]; intros t Ha Hauth Hload; cbn; [done|].
  split; [destruct e; eauto 6|]. intros x. apply IH; [auto|set_solver..].
Qed.
Lemma publish_guarded c epoch effects t : admitted c epoch t ->
  guarded (needs_capability c) (on_host (publish_authorized (call_actor c) (hh_host service) epoch effects)) t.
Proof.
  intros Ha. split; [done|]. intros [[]|]; [|done]. split; [done|]. intros [state|]; [|done]. split; [done|].
  intros [[]|]; [|done]. apply (on_host_guarded c epoch state); [auto|set_solver..].
Qed.
Lemma submit_guarded c op epoch t : admitted c epoch t ->
  (exists i, op = Method i /\ inv_actor i = call_actor c /\ ActorInvocation_validate i = Ok ()) ->
  guarded (needs_capability c) (submit_since op epoch) t.
Proof.
  intros Ha Hi. split; [done|]. intros reply. split; [by split; [auto|]|]. intros []; [|done]. split; [done|]. by intros x.
Qed.
Lemma authenticated_guarded {A} c (k : ActorPrincipal -> http (HttpResult A)) :
  (forall p ln now, http_authenticate uuid_ok (hh_auth service) ln now (call_authorization c) = HttpOk p ->
     guarded (needs_capability c) (k p) [Ev TokenClocks (ln, now)]) ->
  guarded (needs_capability c) (authenticated (call_authorization c) k) [].
Proof.
  intros Hk. split; [done|]. intros [ln now]. cbn. specialize (fun p => Hk p ln now). destruct (http_authenticate _ _ _ _ _); [by apply Hk|done].
Qed.
Lemma authorized_guarded {A} c p ln now epoch (k : http (HttpResult A)) :
  http_authenticate uuid_ok (hh_auth service) ln now (call_authorization c) = HttpOk p ->
  (admitted c epoch [Ev TokenClocks (ln, now)] -> guarded (needs_capability c) k [Ev TokenClocks (ln, now)]) ->
  guarded (needs_capability c) (authorized p (call_actor c) epoch k) [Ev TokenClocks (ln, now)].
Proof.
  intros Hp Hk. unfold authorized. destruct (http_authorize _ _ _ _ _) as [[]|] eqn:E; [|done]. apply Hk.
  exists ln, now. split; [set_solver|]. unfold http_admits. by rewrite Hp.
Qed.

(** Nothing is asked of the host for a request before its token was checked, by the
    clocks of that moment, against the actor of the path and the epoch of the request:
    an invocation is submitted for that actor and epoch and only when it is valid, and
    sockets are reached only after storage confirmed that the host owns the actor at
    that epoch. *)
Theorem http_requests_need_a_capability c t r t1 X (e : http_request X) x t2 :
  runs (http_handle c) t r -> t = (t1 ++ Ev e x :: t2)%list -> needs_capability c X e t1.
Proof.
  intros Hr Et. cut (guarded (needs_capability c) (http_handle c) []).
  { intros Hg. exact (guarded_runs _ _ _ _ _ Hg Hr t1 _ e x t2 Et). }
  destruct c as [actor a|actor a body|actor a body]; (apply guarded_bind; [|done]);
    (match goal with |- guarded (needs_capability ?c) _ _ => apply (authenticated_guarded c) end); intros p ln now Hp.
  - apply (authorized_guarded (PingCall actor a)); [done|]. intros Ha. apply guarded_bind; [|done]. apply guarded_outcome.
    split; [done|]. intros reply. split; [eexists; apply admitted_more, Ha|]. intros []; [|done]. split; [done|]. by intros [].
  - destruct body as [request|]; [|done]. apply (authorized_guarded (InvokeCall actor a (inl request))); [done|]. intros Ha.
    cbn zeta. destruct (ActorInvocation_validate _) as [[]|] eqn:Ei; [|done]. apply guarded_bind; [|done].
    apply guarded_bind; [apply guarded_outcome, submit_guarded; eauto|]. intros t' result _.
    destruct result as [[result effects| | |]|]; try done. destruct (is_nil effects); [done|].
    apply guarded_bind; [|done]. apply guarded_outcome, (publish_guarded (InvokeCall actor a (inl request))). auto.
  - destruct body as [request|]; [|done]. apply (authorized_guarded (PublishCall actor a (inl request))); [done|]. intros Ha.
    cbn [or_http json_body]. destruct (bad_request _); [|done]. apply guarded_bind; [|done].
    apply guarded_outcome, (publish_guarded (PublishCall actor a (inl request))). auto.
Qed.
(** * What a reply means *)
Definition answered (result : option (Result ActorExecutionResult)) (t : list (event http_request)) : Prop :=
  exists reply, Ev (RecvExecution reply) result ∈ t.
(** An invocation was not sent, or sent and then answered by one result. *)
Lemma submit_runs op epoch t r : runs (submit_since op epoch) t r ->
  (exists reply request, t = [Ev ReplyChannel reply; Ev (SendCommand (Invoke request)) false] /\ r = Err "actor dispatcher stopped") \/
  (exists reply request result, t = [Ev ReplyChannel reply; Ev (SendCommand (Invoke request)) true; Ev (RecvExecution reply) result] /\
     r = submitted result).
Proof.
  intros (reply & t1 & -> & Hr)%runs_inv. apply runs_inv in Hr as (sent & t2 & -> & Hr). destruct sent.
  - right. apply runs_inv in Hr as (result & t3 & -> & Hr). apply runs_inv in Hr as [-> <-]. eauto.
  - apply runs_inv in Hr as [-> <-]. left. eauto.
Qed.
(** The requests for socket effects do not read the reply of an invocation. *)
Lemma on_host_answers {A} (p : calls host_request A) t r result : runs (on_host p) t r -> ~ answered result t.
Proof.
  revert t. induction p as [r'|X e k IH]; intros t Hr [reply Hin].
  - apply runs_inv in Hr as [-> _]. set_solver.
  - apply runs_inv in Hr as (x & t' & -> & Hr). apply elem_of_cons in Hin as [E|Hin]; [discriminate E|]. eapply IH; [done|by eexists].
Qed.

(** What a client may conclude from the reply to an invocation *)
Definition reply_meaning (i : ActorInvocation) (epoch : Z) (reply : InvocationReply) (t : list (event http_request)) : Prop :=
  (forall v effects, answered (Some (Ok (Completed v effects))) t ->
     reply = ReplyCompleted v \/ exists m, reply = ReplyFailed "outcome_unknown" m) /\
  (answered None t -> exists m, reply = ReplyFailed "outcome_unknown" m) /\
  (forall v, reply = ReplyCompleted v -> exists effects, answered (Some (Ok (Completed v effects))) t /\
     (effects = [] \/ exists t', runs (on_host (publish_authorized (inv_actor i) (hh_host service) epoch effects)) t' (Ok ()) /\ t' ⊆ t)) /\
  (reply = ReplyReroute -> answered (Some (Ok Reroute)) t).

Lemma one_answer reply request result result' : answered result'
    [Ev ReplyChannel reply; Ev (SendCommand (Invoke request)) true; Ev (RecvExecution reply) result] -> result' = result.
Proof.
  intros [reply' Hin]. rewrite !elem_of_cons, elem_of_nil in Hin. destruct Hin as [E|[E|[E|[]]]]; [discriminate E..|].
  set (f := fun ev : event http_request => match ev with
              | @Ev _ X e x => match e in http_request X return X -> _ with RecvExecution _ => fun x => Some x | _ => fun _ => None end x
              end).
  by injection (f_equal f E).
Qed.
Lemma no_answer reply request result : ~ answered result [Ev ReplyChannel reply; Ev (SendCommand (Invoke request)) false].
Proof. intros [reply' Hin]. rewrite !elem_of_cons, elem_of_nil in Hin. destruct Hin as [E|[E|[]]]; discriminate E. Qed.

Lemma execute_meaning i epoch t reply : runs (http_execute i epoch) t (Ok reply) -> reply_meaning i epoch reply t.
Proof.
  unfold http_execute. intros (result & t1 & t2 & -> & Hs & Hr)%runs_bind_ok. apply runs_outcome in Hs as (r & [= <-] & Hs).
  apply submit_runs in Hs as [(ch & rq & -> & ->)|(ch & rq & result' & -> & ->)].
  - apply runs_inv in Hr as [-> [= <-]]. rewrite app_nil_r.
    split_and!; [intros v effects Ha|intros Ha|done|done]; by apply no_answer in Ha.
  - assert (Hin : answered result' ([Ev ReplyChannel ch; Ev (SendCommand (Invoke rq)) true; Ev (RecvExecution ch) result'] ++ t2)%list)
      by (exists ch; set_solver).
    assert (Honly : forall result'', (~ answered result'' t2) ->
              answered result'' ([Ev ReplyChannel ch; Ev (SendCommand (Invoke rq)) true; Ev (RecvExecution ch) result'] ++ t2)%list ->
              result'' = result').
    { intros result'' Hno [ch' [Hi|Hi]%elem_of_app]; [apply (one_answer ch rq); by exists ch'|]. destruct Hno. by exists ch'. }
    destruct result' as [[[v effects|failure| |]|e]|]; cbn [submitted] in Hr.
    1: destruct (is_nil effects) eqn:En.
    2: { apply runs_bind_ok in Hr as (d & t3 & t4 & -> & Hd & Hr). apply runs_outcome in Hd as (d' & [= <-] & Hd).
         apply runs_inv in Hr as [-> [= <-]]. rewrite app_nil_r in *.
         assert (Hno : forall result'', ~ answered result'' t3) by (intros result''; by eapply on_host_answers).
         split_and!.
         - intros v' effects' Ha. apply Honly in Ha as [= -> ->]; [|done]. destruct d as [[]|]; eauto.
         - intros Ha. by apply Honly in Ha.
         - intros v'. destruct d as [[]|]; [|done]. intros [= <-]. exists effects. split; [done|]. right. exists t3. set_solver.
         - by destruct d. }
    all: apply runs_inv in Hr as [-> [= <-]]; rewrite app_nil_r in *;
      assert (Hno : forall result'', ~ answered result'' []) by (intros ? [? ?]; set_solver).
    all: unfold reply_meaning; refine (conj _ (conj _ (conj _ _))).
    all: try (intros v' effects' Ha; apply Honly in Ha; [|done]; try done; injection Ha as -> ->; by left).
    all: try (intros Ha; apply Honly in Ha; [|done]; try done; by eexists).
    all: try done.
    intros v' [= <-]. exists effects. split; [done|]. left. by destruct effects.
Qed.

(** C33: a client never takes an invocation that completed for one that did not: when the
    host answered that it completed, or lost the answer, the reply is its result or
    says that the outcome is unknown; a result is only reported if the host answered with
    it and its socket effects, if any, were delivered.  A request that is refused with
    an error never reached the host. *)
Theorem completed_is_never_denied actor a body t reply : runs (http_invoke actor a body) t (Ok reply) ->
  match reply with
  | HttpOk reply => exists request, body = inl request /\ reply_meaning
      {| inv_actor := actor; request_id := iv_request_id request; method := iv_method request; args := iv_args request |}
      (iv_owner_epoch request) reply t
  | HttpError _ _ => forall c x, Ev (SendCommand c) x ∉ t
  end.
Proof.
  unfold http_invoke, authenticated. intros ([ln now] & t1 & t2 & -> & Hc & Hr)%runs_bind_ok. apply runs_await in Hc as (x & -> & _).
  assert (Hsent : forall c y, Ev (SendCommand c) y ∉ [Ev TokenClocks x]).
  { intros c y [E|Hin]%elem_of_cons; [discriminate E|set_solver]. }
  destruct (http_authenticate _ _ _ _ _) as [p|]; [|apply runs_inv in Hr as [-> [= <-]]; by rewrite app_nil_r].
  destruct body as [request|]; [|apply runs_inv in Hr as [-> [= <-]]; by rewrite app_nil_r]. cbn [or_http json_body] in Hr.
  unfold authorized in Hr. destruct (http_authorize _ _ _ _ _) as [[]|]; [|apply runs_inv in Hr as [-> [= <-]]; by rewrite app_nil_r].
  cbn [or_http] in Hr. destruct (bad_request _) as [[]|]; [|apply runs_inv in Hr as [-> [= <-]]; by rewrite app_nil_r].
  cbn [or_http] in Hr. apply runs_bind_ok in Hr as (rep & t3 & t4 & -> & He & Hr). apply runs_inv in Hr as [-> [= <-]].
  exists request. split; [done|]. apply execute_meaning in He as (H1' & H2' & H3' & H4'). rewrite app_nil_r.
  assert (Hans : forall result, answered result ([Ev TokenClocks x] ++ t3)%list -> answered result t3).
  { intros result [ch [E|Hin]%elem_of_cons]; [discriminate E|]. by exists ch. }
  assert (Hmore : forall result, answered result t3 -> answered result ([Ev TokenClocks x] ++ t3)%list).
  { intros result [ch Hin]. exists ch. set_solver. }
  split_and!; [intros v effects Ha; eauto|eauto| |auto].
  intros v Ev'. destruct (H3' v Ev') as (effects & Ha & Hd). exists effects. split; [auto|].
  destruct Hd as [?|(t' & Ht & Hsub)]; [by left|]. right. exists t'. split; [done|set_solver].
Qed.
End http.

(** * A run *)
From S2P Require Import Samples.
#[local] Existing Instances text_jwt_keys Tokens.claims_text.
#[local] Instance run_value_json : Json Value := {| to_vec _ := "null"; from_slice _ := Ok Null |}.
#[local] Instance run_effect_json : Json ActorSocketEffect := {| to_vec _ := "null"; from_slice _ := Err "no effect" |}.
#[local] Instance run_base64 : Base64Std := {| std_decode s := Ok s |}.
Definition run_service : ActorHostHttpService :=
  {| hh_host := "host.v3.a"; hh_session_id := "session"; hh_auth := sample_verifier Invocation "hosts" |}.
(** The host completes every invocation, while its storage has no authority. *)
Definition run_answers X (e : http_request X) : X :=
  match e in http_request X return X with
  | OnHost e => match e in host_request X return X with
                | Registry e => match e in registry_request X return X with
                                | Register _ _ => (false, 0%nat) | Remove _ _ => None | Connections _ => [] | Inventory => []
                                | SocketRegistry.Activate _ _ => () | PushSnapshot _ _ _ _ => [] | PushUpdate _ _ _ _ _ => []
                                | SetMetadata _ _ _ => () | SetTags _ _ _ => () | Recipients _ _ _ _ => [] | Sender _ _ => None
                                | PushMessage _ _ => false | PushClose _ _ _ => false | CancelOverflow _ => () | Recv _ _ => None | DropReceiver _ => ()
                                end
                | StopCancelled => false
                | StorageAuthority => Err "lease expired"
                | LoadActorState _ _ _ => Err "lease expired"
                | HandleSocketEvent _ _ _ => Ok HostUnavailable
                | DiscardSocketEvent _ _ _ => ()
                | TrySendEvent _ _ => false
                | SocketSessions.NewUuid => "id"
                | NowMs => 0 | InstantNow => 0
                | SendFrame _ _ => Sent
                | Select _ => Stopped
                | Spawn _ _ _ => ()
                | AwaitHandler _ => ()
                | Elapsed _ => false
                end
  | TokenClocks => (1010, 1010)
  | ReplyChannel => 7%nat
  | SendCommand _ => true
  | RecvExecution _ => Some (Ok (Completed Null [CloseEffect "c" 1000 ""]))
  | RecvActivation _ => None
  | RecvEviction _ => None
  | RecvPong _ => true
  | RecvDrained _ => true
  | DrainElapsed _ => false
  end.

Definition run_call : InvokeRequest + Rejection :=
  inl {| iv_request_id := "r"; iv_owner_epoch := 3; iv_method := "add"; iv_args := [] |}.
Definition run_http := follow run_answers (http_invoke (fun _ => true) run_service sample_actor
                                             (Some ("Bearer " +:+ it_token sample_token)) run_call).
(** The invocation completed, but its effects were not delivered. *)
Lemma run_http_result : run_http.2 =
  Ok (HttpOk (ReplyFailed "outcome_unknown" "actor completed but socket effects could not be delivered")).
Proof. vm_compute. reflexivity. Qed.
Lemma completed_is_never_denied_witness :
  reply_meaning run_service {| inv_actor := sample_actor; request_id := "r"; method := "add"; args := [] |} 3
    (ReplyFailed "outcome_unknown" "actor completed but socket effects could not be delivered") run_http.1.
Proof.
  assert (Hr : runs (http_invoke (fun _ => true) run_service sample_actor (Some ("Bearer " +:+ it_token sample_token)) run_call)
                 run_http.1 run_http.2) by apply follow_runs.
  rewrite run_http_result in Hr.
  destruct (completed_is_never_denied _ _ _ _ _ _ _ Hr) as (request & E & Hm). injection E as <-. exact Hm.
Defined.
