(* ===== verification/ControlPlaneClient.v ===== *)
(** The client of the control plane on a host ([control_plane/client.rs]), the service
    that answers it ([ActorControlPlaneService::execute] of [control_plane/service.rs],
    [authenticate] of [auth.rs], [protocol.rs]), and the credentials that a host renews
    through it ([HostCredentials] of [host/storage.rs]).

    Client and service are programs; a call is a request of the client that carries the
    header and the encoded command.  It is answered by any run of the service on that
    header and command, or lost ([from_service]).

    Shows that client and service understand each other, and that a host that renews its
    token stays known to the control plane under the same identity, in time. *)

From S2P Require Import Prelude.
From S2P Require Import Actors.
From S2P Require Import StoragePaths.
From S2P Require Import Snapshots.
From S2P Require Import ReplicaServer.
From S2P Require Import RuntimeStorage.
From S2P Require Import Deployments.
From S2P Require Import SparePool.
From S2P Require Import Tokens.
From S2P Require Import ControlPlane.
From S2P Require Import ControlPlaneProcess.
From S2P Require Import Calls.
Local Open Scope string_scope.
Local Open Scope Z_scope.

(** * The client *)
(** What [tonic] accepts as the value of a header *)
Class MetadataText := { metadata_accepts : string -> bool }.

Inductive client_request : Type -> Type :=
(* the lock of [authorization], which may be poisoned *)
| ReadAuthorization : client_request (Result string)
| WriteAuthorization (authorization : string) : client_request (Result unit)
| GrpcExecute (authorization command_json : string) : client_request (Result string).
Abbreviation client := (calls client_request) (only parsing).

(** [value.as_u64()] *)
Definition value_u64 (v : Value) : option Z := match v with Number repr => parse_u64 repr | _ => None end.
Definition u64_checked_mul (a b : Z) : option Z := if a * b <=? U64_MAX then Some (a * b) else None.

Section client.
Context `{MetadataText, Json ControlPlaneCommand, Json ControlPlaneCommandReply}.

Definition bearer_authorization (token : string) : Result string :=
  ensure (negb (is_empty token) && is_trimmed token) "actor token is invalid";;
  ensure (metadata_accepts ("Bearer " +:+ token)) "actor token is not valid gRPC metadata";;
  Ok ("Bearer " +:+ token).

Definition client_execute (command : ControlPlaneCommand) : client ControlPlaneCommandReply :=
  authorization ← await ReadAuthorization;
  authorization ← try (match authorization with Ok a => Ok a | Err _ => Err "actor authorization lock poisoned" end);
  reply ← await (GrpcExecute authorization (to_vec command));
  reply ← try (match reply with Ok r => Ok r | Err _ => Err "execute actor control-plane command" end);
  try (match from_slice reply with Ok r => Ok r | Err _ => Err "decode actor control-plane reply" end).

Definition prepare_replica_connections : client (list ReplicaTarget) :=
  reply ← client_execute PrepareReplicaConnections;
  match reply with ReplicasReply targets => mret targets | _ => try (Err "unexpected replica connection response") end.
Definition prepare_initial_replicas : client ReplicaMembership :=
  reply ← client_execute PrepareInitialReplicas;
  match reply with InitialReplicasReply membership => mret membership | _ => try (Err "unexpected initial replica response") end.
Definition ensure_replicas (failed : list string) : client (list ReplicaTarget) :=
  reply ← client_execute (EnsureReplicas failed);
  match reply with ReplicasReply targets => mret targets | _ => try (Err "unexpected replica response") end.
Definition report_traces (traces : list (Result unit)) (dropped : Z) : client unit :=
  client_execute (RequestTraces traces dropped);; mret ().
Definition notify_inventory_changed : client unit :=
  reply ← client_execute InventoryChanged;
  match reply with UnitReply => mret () | _ => try (Err "unexpected inventory notification response") end.
Definition notify_socket_message (actor : ActorKey) (event : ActorSocketEvent) : client unit :=
  client_execute (SocketMessage actor event);; mret ().

Definition replace_token (token : string) : client unit :=
  authorization ← try (bearer_authorization token);
  written ← await (WriteAuthorization authorization);
  try (match written with Ok _ => Ok () | Err _ => Err "actor authorization lock poisoned" end).
Definition refresh_storage_access : client (option StorageToken) :=
  reply ← client_execute RefreshStorageAccess;
  match reply with
  | StorageAccessReply token replacement => replace_token replacement;; mret token
  | _ => try (Err "unexpected storage credentials response")
  end.

(** What a client is made of: the endpoint is connected to when it is used. *)
Definition client_connect (endpoint_ok : bool) (token : string) : Result string :=
  ensure endpoint_ok "parse actor control-plane endpoint";;
  bearer_authorization token.
End client.

(** The expiry that the payload of the held token tells *)
Definition token_expiry `{Base64Url, Json Value} (authorization : string) : Result Z :=
  payload ← with_context (split_on "." authorization !! 1%nat) "host JWT has no payload";
  text ← b64_decode payload;
  claims ← from_slice text;
  with_context (exp ← get_field claims "exp" ≫= value_u64; u64_checked_mul exp 1000) "host JWT has no expiration".
Definition token_expires_at_ms `{Base64Url, Json Value} : client Z :=
  authorization ← await ReadAuthorization;
  authorization ← try (match authorization with Ok a => Ok a | Err _ => Err "authorization lock poisoned" end);
  try (token_expiry authorization).

(** * The service *)
Inductive Status := Unauthenticated (m : string) | InvalidArgument (m : string) | FailedPrecondition (m : string).

Section service.
Context (uuid_ok : string -> bool).
Context `{Base64Url, Sha256, UrlParser, Json Value, Json HostIdentity, Json SpareHandle, Json PoolKey, JwtKeys,
          Jwt ActorJwtClaims, Json ControlPlaneCommand, Json ControlPlaneCommandReply}.
Context (cp : ControlPlaneConfig) (auth : ActorJwtVerifier).

(** [authenticate]; [None]: the request has no such header *)
Definition grpc_authenticate (library_now now : Z) (authorization : option string) : ActorPrincipal + Status :=
  match authorization with
  | None => inr (Unauthenticated "actor token is required")
  | Some a => match authenticate_authorization uuid_ok auth library_now now a with
              | Ok p => inl p
              | Err e => inr (Unauthenticated e)
              end
  end.
Definition grpc_execute (library_now now : Z) (authorization : option string) (command_json : string) : cprog (string + Status) :=
  match grpc_authenticate library_now now authorization with
  | inr status => mret (inr status)
  | inl principal =>
      match from_slice command_json with
      | Err e => mret (inr (InvalidArgument ("invalid command: " +:+ e)))
      | Ok command =>
          reply ← outcome (execute_command cp principal command);
          mret (match reply with Ok reply => inl (to_vec reply) | Err e => inr (FailedPrecondition e) end)
      end
  end.

(** * Client and service together *)
(** A call is answered by a run of the service, at some time, or lost on the way. *)
Definition from_service (ev : event client_request) : Prop :=
  match ev with
  | @Ev _ X e x =>
      match e in client_request X return X -> Prop with
      | GrpcExecute authorization command => fun reply => forall text, reply = Ok text ->
          exists library_now now t, runs (grpc_execute library_now now (Some authorization) command) t (Ok (inl text))
      | _ => fun _ => True
      end x
  end.
Definition served (t : list (event client_request)) : Prop := Forall from_service t.

Lemma execute_served `{!JsonLaws ControlPlaneCommand, !JsonLaws ControlPlaneCommandReply} command t reply :
  served t -> runs (client_execute command) t (Ok reply) ->
  exists authorization library_now now p t', Ev ReadAuthorization (Ok authorization) ∈ t /\
    authenticate_authorization uuid_ok auth library_now now authorization = Ok p /\
    runs (execute_command cp p command) t' (Ok reply).
Proof.
  intros Hs. unfold client_execute. intros (a & t1 & t2 & -> & Ha & Hr)%runs_bind_ok. apply runs_await in Ha as (x & -> & [= <-]).
  apply runs_bind_ok in Hr as (a' & t3 & t4 & -> & Ha & Hr). apply runs_try in Ha as [-> Ea]. destruct a as [a|]; [|done].
  injection Ea as ->. apply runs_bind_ok in Hr as (r & t5 & t6 & -> & Hg & Hr). apply runs_await in Hg as (x & -> & [= <-]).
  apply runs_bind_ok in Hr as (text & t7 & t8 & -> & Ht & Hr). apply runs_try in Ht as [-> Et]. destruct r as [r|]; [|done].
  injection Et as ->. apply runs_try in Hr as [-> Hr].
  unfold served in Hs. cbn [app] in Hs. rewrite !Forall_cons in Hs. destruct Hs as (_ & Hserv & _).
  destruct (Hserv r eq_refl) as (ln & now & ts & Hrun). unfold grpc_execute, grpc_authenticate in Hrun.
  destruct (authenticate_authorization _ _ _ _ _) as [p|] eqn:Ep; [|by apply runs_inv in Hrun as [_ [=]]].
  rewrite json_roundtrip in Hrun. apply runs_bind_ok in Hrun as (o & u1 & u2 & -> & Ho & Hrun).
  apply runs_outcome in Ho as (r' & [= <-] & Ho). apply runs_inv in Hrun as [-> Hrun]. destruct o as [o|]; [|discriminate Hrun].
  injection Hrun as <-. rewrite json_roundtrip in Hr. injection Hr as <-. exists a, ln, now, p, u1. split_and!; [set_solver|done|done].
Qed.

(** What the service does for a renewal: it issues a token to the host that asked. *)
Lemma refresh_issues p t token replacement : runs (execute_command cp p RefreshStorageAccess) t (Ok (StorageAccessReply token replacement)) ->
  exists now_ms key issued, Ev UnixMillis (Ok now_ms) ∈ t /\ pr_host_config_key p = Some key /\
    issue_host (cp_issuer cp) now_ms (pr_host_id p) (pr_session_id p) key (pr_region p) (pr_actor p) = Ok issued /\
    replacement = it_token issued.
Proof.
  cbn [execute_command]. intros Hr. do 3 apply runs_bind_ok in Hr as (? & ? & ? & -> & _ & Hr).
  apply runs_bind_ok in Hr as (key & ? & ? & -> & Hk & Hr). apply runs_try in Hk as [-> Hk].
  apply runs_bind_ok in Hr as (now_ms & ? & ? & -> & Hn & Hr). apply runs_await_ok in Hn as ->.
  apply runs_bind_ok in Hr as (issued & ? & ? & -> & Hi & Hr). apply runs_try in Hi as [-> Hi]. apply runs_inv in Hr as [-> [= _ <-]].
  exists now_ms, key, issued. split_and!; [set_solver| |done|done]. destruct (pr_host_config_key p); [by injection Hk as ->|discriminate Hk].
Qed.

(** Whoever is let in has a well-formed identity. *)
Lemma authenticated_principal library_now now a p : authenticate_authorization uuid_ok auth library_now now a = Ok p ->
  starts_with "host.v3." (pr_host_id p) = true /\ uuid_ok (pr_session_id p) = true /\ validate_region (pr_region p) = Ok ().
Proof.
  unfold authenticate_authorization, verify_with_header, validate_claims. intros E. res_inv. cbn. split_and!; try done.
  unfold validate_region. by match goal with H : _ && all_bytes region_byte _ = true |- _ => rewrite H end.
Qed.

(** The compact serialization of a token, whose payload is the base64 text of its
    claims as JSON *)
Class JwtCompact : Prop := jwt_compact : forall id key c token, 0 <= cl_exp c -> jwt_encode id key c = Ok token ->
  exists head payload signature claims, token = head +:+ "." +:+ b64_encode payload +:+ "." +:+ signature /\
    contains_char "." head = false /\ from_slice payload = Ok claims /\ get_field claims "exp" = Some (Number (show_u64 (cl_exp c))).

Lemma issued_expiry `{!Base64UrlLaws, !JwtCompact} s now_ms h ses key region actor t : 0 <= now_ms <= I64_MAX - 1800000 ->
  0 < is_max_lifetime s -> issue_host s now_ms h ses key region actor = Ok t ->
  token_expiry ("Bearer " +:+ it_token t) = Ok (it_expires_at_ms t).
Proof.
  intros Hnow Hlife E. unfold issue_host in E. apply bind_ok in E as ([] & Ha & E). apply bind_ok in E as (l & Hl & E).
  apply i64_try_from_ok in Hl. subst l. apply issue_ok in E as [He Et]. cbn [cl_exp] in Et.
  assert (Hexp : 0 <= it_expires_at_ms t / 1000 <= 9223372036854775).
  { rewrite Et, Z.div_mul by done. apply seconds_bound. unfold i64_saturating_add, HOST_TOKEN_TTL, I64_MAX in *. lia. }
  rewrite Et, Z.div_mul in Hexp by done.
  apply jwt_compact in He as (head & payload & signature & claims & -> & Hd & Hp & Hf); [|exact (proj1 Hexp)].
  cbn [cl_exp] in Hf. unfold token_expiry. rewrite (sapp_assoc "Bearer " head).
  change ("." +:+ b64_encode payload +:+ "." +:+ signature) with (String "." (b64_encode payload +:+ String "." signature)).
  rewrite split_on_app by (rewrite contains_char_app; by rewrite Hd).
  rewrite split_on_app by (apply (contains_char_class _ b64_byte); [done|apply b64_alphabet]).
  cbn [list_lookup lookup with_context mbind Result_bind]. rewrite b64_roundtrip. cbn [mbind Result_bind]. rewrite Hp. cbn [mbind Result_bind].
  rewrite Hf. cbn [mbind option_bind value_u64]. rewrite parse_show_u64 by (unfold u64_ok, U64_MAX; lia). cbn [mbind option_bind].
  unfold u64_checked_mul. rewrite (proj2 (Z.leb_le _ _)) by (unfold U64_MAX; lia). cbn. by rewrite Et.
Qed.

(** A host that renews its credentials stays known to the control plane.  The token it
    then holds was issued to the host, session, actor and region of the one it held, it
    is recognized as such until it expires, and the host reads its expiry correctly. *)
Theorem renewed_host_stays_known `{MetadataText, !JwtLaws ActorJwtClaims, !Base64UrlLaws, !JwtCompact,
    !JsonLaws ControlPlaneCommand, !JsonLaws ControlPlaneCommandReply} t token :
  trusts auth (cp_issuer cp) (is_authority_audience (cp_issuer cp)) -> vf_purpose auth = Tokens.ControlPlane ->
  vf_max_lifetime auth = is_max_lifetime (cp_issuer cp) -> 0 < is_max_lifetime (cp_issuer cp) ->
  served t -> runs refresh_storage_access t (Ok token) ->
  exists held ln0 now0 p now_ms issued, Ev ReadAuthorization (Ok held) ∈ t /\
    authenticate_authorization uuid_ok auth ln0 now0 held = Ok p /\
    Ev (WriteAuthorization ("Bearer " +:+ it_token issued)) (Ok ()) ∈ t /\
    (0 <= now_ms <= I64_MAX - 1800000 ->
       token_expiry ("Bearer " +:+ it_token issued) = Ok (it_expires_at_ms issued) /\
       forall ln now, now_ms / 1000 <= ln -> now_ms / 1000 <= now ->
         ln * 1000 < it_expires_at_ms issued -> now * 1000 < it_expires_at_ms issued ->
         authenticate_authorization uuid_ok auth ln now ("Bearer " +:+ it_token issued)
           = Ok {| pr_actor := pr_actor p; pr_host_id := pr_host_id p; pr_session_id := pr_session_id p; pr_region := pr_region p;
                   pr_host_config_key := pr_host_config_key p; pr_invocation := None |}).
Proof.
  intros Htr Hpur Hmax Hlife Hs. unfold refresh_storage_access. intros (reply & t1 & t2 & -> & He & Hr)%runs_bind_ok.
  apply Forall_app in Hs as [Hs1 _]. apply (execute_served _ _ _ Hs1) in He as (held & ln0 & now0 & p & ts & Hin & Hp & He).
  destruct reply as [|m|tk replacement|]; [by apply runs_inv in Hr as [_ [=]]..| |by apply runs_inv in Hr as [_ [=]]].
  apply refresh_issues in He as (now_ms & key & issued & _ & Hk & Hi & ->).
  apply runs_bind_ok in Hr as ([] & t3 & t4 & -> & Hw & _).
  unfold replace_token in Hw. apply runs_bind_ok in Hw as (a & t5 & t6 & -> & Hb & Hw). apply runs_try in Hb as [-> Hb].
  unfold bearer_authorization in Hb. symmetry in Hb. apply bind_ok in Hb as ([] & _ & Hb). apply bind_ok in Hb as ([] & _ & [= <-]).
  apply runs_bind_ok in Hw as (w & t7 & t8 & -> & Hw & Hend). apply runs_await in Hw as (x & -> & [= <-]).
  apply runs_try in Hend as [-> Hend]. destruct w as [[]|]; [|done].
  exists held, ln0, now0, p, now_ms, issued. split; [set_solver|]. split; [done|]. split; [set_solver|].
  intros Hnow. split; [by eapply issued_expiry|]. intros ln now Hl1 Hl2 Hl3 Hl4.
  destruct (authenticated_principal _ _ _ _ Hp) as (Hh & Hu & Hreg). rewrite Hk. by eapply host_claims_validated.
Qed.
End service.

(** * [HostCredentials] *)
(** What [HeaderValue::from_str] accepts *)
Class HeaderText := { header_accepts : string -> bool }.

Inductive credential_request : Type -> Type :=
| OnClient {X} (e : client_request X) : credential_request X
| SystemNow : credential_request (Result Z)
| StoredToken : credential_request (option StorageToken)
| StoreToken (token : option StorageToken) : credential_request unit
(* whether the host stopped before the time was over *)
| StopOrSleep (delay_ms : Z) : credential_request bool.
Abbreviation credentials := (calls credential_request) (only parsing).

Fixpoint on_client {A} (p : calls client_request A) : credentials A :=
  match p with
  | CRet r => CRet r
  | CVis e k => CVis (OnClient e) (fun x => on_client (k x))
  end.

(** [expires.saturating_sub(now.saturating_add(30_000)).clamp(1_000, 600_000)] *)
Definition refresh_delay (expires now : Z) : Z :=
  Z.min 600000 (Z.max 1000 (saturating_sub expires (saturating_add now 30000))).

Section credentials.
Context `{MetadataText, Json ControlPlaneCommand, Json ControlPlaneCommandReply, Base64Url, Json Value}.

(** A turn of the task after it read the clock and the expiry of the host's token;
    [false]: it returned *)
Definition sleep_and_refresh (now host_expiry : Z) : credentials bool :=
  stored ← await StoredToken;
  let expires := match stored with Some token => Z.min (tok_expires_at_ms token) host_expiry | None => host_expiry end in
  stopped ← await (StopOrSleep (refresh_delay expires now));
  if (stopped : bool) then mret false
  else
    refreshed ← outcome (on_client refresh_storage_access);
    match refreshed with
    | Ok token => await (StoreToken token);; mret true
    | Err _ => mret true
    end.
Definition refresh_turn : credentials bool :=
  now ← await SystemNow;
  let now := match now with Ok now => now | Err _ => U64_MAX end in
  host_expiry ← outcome (on_client token_expires_at_ms);
  sleep_and_refresh now (match host_expiry with Ok expiry => expiry | Err _ => now end).
Fixpoint refresh_credentials (turns : nat) : credentials unit :=
  match turns with
  | O => mret ()
  | S turns => again ← refresh_turn; if (again : bool) then refresh_credentials turns else mret ()
  end.

(** [headers]: what the client of the bucket sends *)
Definition credential_headers `{HeaderText} : credentials string :=
  stored ← await StoredToken;
  token ← try (with_context stored "GCS credentials missing");
  check_that (header_accepts ("Bearer " +:+ tok_access_token token)) "invalid storage credential";;
  mret ("Bearer " +:+ tok_access_token token).

(** Before each sleep the clock, the host's token and the token for the bucket were read. *)
Definition timely (X : Type) (e : credential_request X) (t : list (event credential_request)) : Prop :=
  match e with
  | StopOrSleep d => exists t0 now held stored,
      t = (t0 ++ [Ev SystemNow now; Ev (OnClient ReadAuthorization) held; Ev StoredToken stored])%list /\
      1000 <= d <= 600000 /\
      forall n a expiry, now = Ok n -> held = Ok a -> token_expiry a = Ok expiry -> 0 <= n -> expiry <= U64_MAX ->
        n + 31000 <= expiry -> (forall token, stored = Some token -> n + 31000 <= tok_expires_at_ms token) ->
        n + d + 30000 <= expiry /\ forall token, stored = Some token -> n + d + 30000 <= tok_expires_at_ms token
  | _ => True
  end.
Lemma refresh_delay_bounds expires now : 1000 <= refresh_delay expires now <= 600000.
Proof. unfold refresh_delay. lia. Qed.
Lemma refresh_delay_early expires now : 0 <= now -> now + 31000 <= expires <= U64_MAX -> now + refresh_delay expires now + 30000 <= expires.
Proof. unfold refresh_delay, saturating_sub, saturating_add. lia. Qed.
Lemma on_client_timely {A} (p : calls client_request A) t : guarded timely (on_client p) t.
Proof. revert t. induction p as [r|X e k IH]; intros t; cbn; [done|]. by split. Qed.

Lemma refresh_turn_timely t : guarded timely refresh_turn t.
Proof.
  split; [done|]. intros now. apply guarded_bind; [apply guarded_outcome, on_client_timely|]. intros t' host_expiry Hr.
  apply runs_outcome in Hr as (r & [= <-] & Hr). apply runs_inv in Hr as (held & t'' & -> & Hr).
  assert (Hread : host_expiry = match held with Ok a => token_expiry a | Err _ => Err "authorization lock poisoned" end /\ t'' = []).
  { destruct held; cbn in Hr; by apply runs_inv in Hr as [-> <-]. }
  destruct Hread as [Eh ->]. split; [done|]. intros stored. split.
  - exists t, now, held, stored. split; [by rewrite <-!app_assoc|]. split; [apply refresh_delay_bounds|].
    intros n a expiry -> -> Ea Hn Hmax Hh Hs. rewrite Ea in Eh. subst host_expiry. destruct stored as [token|].
    + specialize (Hs token eq_refl). pose proof (refresh_delay_early (Z.min (tok_expires_at_ms token) expiry) n Hn ltac:(lia)).
      split; [lia|]. intros ? [= <-]. lia.
    + pose proof (refresh_delay_early expiry n Hn ltac:(lia)). split; [lia|done].
  - intros []; [done|]. apply guarded_bind; [apply guarded_outcome, on_client_timely|]. by intros t' [].
Qed.

(** The task renews the credentials of a host in time: as long as the token that it
    holds and the one for the bucket are good for another 31 seconds when it looks, it
    wakes up at least 30 seconds before either expires, and it never sleeps for less
    than a second or for more than ten minutes. *)
Theorem renewals_come_in_time turns t r t1 d x t2 :
  runs (refresh_credentials turns) t r -> t = (t1 ++ Ev (StopOrSleep d) x :: t2)%list -> timely _ (StopOrSleep d) t1.
Proof.
  intros Hr Et. cut (forall t0, guarded timely (refresh_credentials turns) t0).
  { intros Hg. exact (guarded_runs _ _ _ _ _ (Hg []) Hr t1 _ (StopOrSleep d) x t2 Et). }
  clear. induction turns as [|turns IH]; intros t0; [done|].
  apply guarded_bind; [apply refresh_turn_timely|]. intros t' [] _; [apply IH|done].
Qed.
End credentials.

(** * Compact tokens: the laws hold together *)
From S2P Require Import Samples.
Import Hex.
#[local] Existing Instances Tokens.claims_text Tokens.accepts_dec.

Definition compact_payload (c : ActorJwtClaims) : Value := Object [("exp", Number (show_u64 (cl_exp c)))].
Definition compact_token (id key : string) (c : ActorJwtClaims) : string :=
  ("h" +:+ b64_encode (put_text (id, (key, c)) "")) +:+ "." +:+ b64_encode (to_vec (compact_payload c)) +:+ "." +:+ "s".
Definition compact_head {A} `{Text A} (token : string) : option A :=
  '(head, _) ← split_once "." token;
  head ← strip_prefix "h" head;
  text ← match b64_decode head with Ok text => Some text | Err _ => None end;
  '(a, _) ← get_text text; Some a.
#[local] Instance compact_jwt : Jwt ActorJwtClaims := {|
  jwt_encode id key c := Ok (compact_token id key c);
  jwt_decode v now k token :=
    with_context ('((_, (key, c)) : string * (string * ActorJwtClaims)) ← compact_head token;
                  if bool_decide (k = key /\ accepts v now c) then Some c else None) "invalid token" |}.
#[local] Instance compact_jwt_keys : JwtKeys := {|
  verifying_key key := key;
  decode_header token :=
    with_context ('((id, _) : string * (string * ActorJwtClaims)) ← compact_head token;
                  Some {| typ := Some "JWT"; kid := Some id; eddsa := true |}) "invalid header" |}.
Lemma compact_dots s : contains_char "." ("h" +:+ b64_encode s) = false.
Proof. rewrite contains_char_app. by rewrite (contains_char_class "." b64_byte (b64_encode s)) by (done || apply b64_alphabet). Qed.
Lemma compact_head_of id key c : compact_head (compact_token id key c) = Some (id, (key, c)).
Proof.
  unfold compact_head, compact_token. change ("." +:+ ?rest) with (String "." rest). rewrite (split_once_app ".") by apply compact_dots.
  cbn [mbind option_bind]. rewrite strip_prefix_app. cbn [mbind option_bind]. rewrite b64_roundtrip. cbn [mbind option_bind]. by rewrite text_roundtrip.
Qed.
#[local] Instance compact_jwt_laws : JwtLaws ActorJwtClaims.
Proof.
  split; cbn [jwt_encode jwt_decode compact_jwt compact_jwt_keys decode_header verifying_key].
  - intros id key c token <-%Ok_inj. by rewrite compact_head_of.
  - intros id key c token v now <-%Ok_inj Ha. rewrite compact_head_of. cbn [mbind option_bind]. by rewrite bool_decide_eq_true_2.
  - intros id key c c' token v now k <-%Ok_inj. rewrite compact_head_of. cbn [mbind option_bind].
    case_bool_decide as Hd; [|done]. intros [= <-]. naive_solver.
  - intros id key c token <-%Ok_inj. split; [done|]. unfold is_trimmed, compact_token. rewrite !sapp_assoc, last_char_app. done.
Qed.
#[local] Instance compact_jwt_compact : JwtCompact.
Proof.
  intros id key c token Hc <-%Ok_inj. eexists _, _, _, (compact_payload c). split; [reflexivity|]. split_and!.
  - apply compact_dots.
  - apply json_roundtrip.
  - done.
Qed.
