(* ===== verification/PeerTransport.v ===== *)
(** Calls between the processes of an actor: channels and capability addresses
    ([grpc/transport.rs]), reading and writing of snapshots by address
    ([state_transport.rs]), and the calls of a host to its replicas ([bucket/peers.rs]).

    The calls are programs; the requests for the wire carry the origin that the channel
    leads to and the request with its header.  URLs are those of a URL library, with the
    laws of an origin and of a query that consists of plain characters.

    Shows that a capability address leads to the origin and the token that it was made
    from, and that what a host asks of a replica is what the replica's store does. *)

From S2P Require Import Prelude.
From S2P Require Import Actors.
From S2P Require Import StoragePaths.
From S2P Require Import Snapshots.
From S2P Require Import ReplicaStore.
From S2P Require Import ReplicaServer.
From S2P Require Import RuntimeStorage.
From S2P Require Import ControlPlaneProcess.
From S2P Require Import ControlPlaneClient.
From S2P Require Import Calls.
Local Open Scope string_scope.
Local Open Scope Z_scope.

(** * Addresses *)
(** [url.query_pairs()], of the text of the query *)
Class UrlQueries := { query_pairs : string -> list (string * string) }.
(** [url.set_query(None)] *)
Definition no_query (u : Url) : Url :=
  {| username := username u; password := password u; query := None; fragment := fragment u; url_path := url_path u;
     host_str := host_str u; scheme := scheme u; ascii_serialization := ascii_serialization u |}.

Section addresses.
Context `{UrlParser, UrlText, UrlQueries}.

(** [endpoint]: whether it uses TLS *)
Definition endpoint (origin : string) : Result bool :=
  url ← parse_url origin;
  ensure ((String.eqb (scheme url) "http" || String.eqb (scheme url) "https") && negb (is_none (host_str url))
          && is_empty (username url) && is_none (password url) && is_none (query url) && is_none (fragment url)
          && String.eqb (url_path url) "/") "invalid gRPC origin";;
  Ok (String.eqb (scheme url) "https").

Definition capability_origin (address : string) : Result (string * string) :=
  url ← parse_url address;
  scheme ← (if String.eqb (scheme url) "grpc" then Ok "http"
            else if String.eqb (scheme url) "grpcs" then Ok "https"
            else Err "storage capability must use grpc or grpcs");
  token ← match (match query url with Some q => query_pairs q | None => [] end) with
          | [(name, value)] =>
              ensure (String.eqb name "token" && negb (is_empty value)) "storage capability requires one token";; Ok value
          | _ => Err "storage capability requires one token"
          end;
  '(_, rest) ← with_context (split_once ":" (url_text (no_query url))) "missing capability scheme";
  origin ← parse_url (scheme +:+ ":" +:+ rest);
  ensure (is_empty (username url) && is_none (password url) && is_none (fragment url)) "invalid storage capability authority";;
  Ok (url_text origin, token).
End addresses.

(** [request] *)
Definition bearer_request `{MetadataText} {T} (value : T) (token : string) : Result (Request T) :=
  ensure (metadata_accepts ("Bearer " +:+ token)) "invalid gRPC credential";;
  Ok {| authorization := Some ("Bearer " +:+ token); payload_of := value |}.

(** * Calls *)
Inductive wire_request : Type -> Type :=
| GrantNow : wire_request (Result Z)
(* the cache of channels *)
| CachedChannel (origin : string) : wire_request bool
| ConnectLazy (origin : string) : wire_request unit
| Connect (origin : string) : wire_request (Result unit)
| PreconnectElapsed : wire_request bool
(* the services *)
| CallRead (origin : string) (r : Request unit) : wire_request (Reply string)
| CallWrite (origin : string) (r : Request string) : wire_request (Reply bool)
| CallInitialize (origin : string) (r : Request unit) : wire_request (Reply unit)
| CallHead (origin : string) (r : Request unit) : wire_request (Reply ReplicaStreamHead)
| CallSeal (origin : string) (r : Request unit) : wire_request (Reply ReplicaSessionHead).
Abbreviation wire := (calls wire_request) (only parsing).

Definition of_reply {A} (r : Reply A) : Result A :=
  match r with Accepted a => Ok a | Refused s => Err (status_message s) end.

Section transport.
Context `{UrlParser, UrlText, UrlQueries, MetadataText}.

(** [Channels::capability] *)
Definition capability (address : string) : wire (string * string) :=
  '(origin, token) ← try (capability_origin address);
  cached ← await (CachedChannel origin);
  (if (cached : bool) then mret ()
   else match endpoint origin with
        | Ok _ => await (ConnectLazy origin)
        | Err e => try (Err ("connect storage endpoint: " +:+ e))
        end);;
  mret (origin, token).
(** [preconnect], within 250 milliseconds *)
Definition preconnect (origin : string) : wire unit :=
  url ← try (parse_url origin);
  let origin := url_text url in
  try (endpoint origin);;
  cached ← await (CachedChannel origin);
  if (cached : bool) then mret ()
  else
    elapsed ← await PreconnectElapsed;
    if (elapsed : bool) then try (Err "deadline has elapsed")
    else
      connected ← await (Connect origin);
      try (match connected with Ok _ => Ok () | Err e => Err ("connect storage endpoint: " +:+ e) end).

Definition transport_read (address : string) : wire string :=
  '(origin, token) ← capability address;
  r ← try (bearer_request () token);
  reply ← await (CallRead origin r);
  try (of_reply reply).
Definition transport_write (address bytes : string) : wire StateWrite :=
  '(origin, token) ← capability address;
  r ← try (bearer_request bytes token);
  reply ← await (CallWrite origin r);
  already_exists ← try (of_reply reply);
  mret (if (already_exists : bool) then AlreadyExists else Written).

(** * [GrpcReplicaPeers] *)
Section peers.
Context `{Base64Url, Hmac, Json ReplicaGrant}.
Context (key : string).

Definition peer_grant (operation reg obj : string) (duration_ms : Z) : wire ReplicaGrant :=
  now ← await_ok GrantNow;
  mret {| grant_stream := None; grant_operation := operation; grant_object := obj; grant_region := reg;
          grant_host_id := ""; grant_expires_at_ms := saturating_add now duration_ms |}.
Definition peer_client (peer : ReplicaTarget) (g : ReplicaGrant) : wire (string * Request unit) :=
  address ← try (capability_url key (url peer) (for_host (host_id peer) g));
  '(origin, token) ← capability address;
  r ← try (bearer_request () token);
  mret (origin, r).

Definition peer_initialize (peer : ReplicaTarget) (session : string) : wire unit :=
  g ← peer_grant "INITIALIZE_SESSION" (target_region peer) session 60000;
  '(origin, r) ← peer_client peer g;
  reply ← await (CallInitialize origin r);
  try (of_reply reply).
Definition peer_head (peer : ReplicaTarget) (stream : ReplicaStream) : wire StreamHead :=
  g ← peer_grant "HEAD" (target_region peer) (prefix stream) 60000;
  '(origin, r) ← peer_client peer (for_stream stream g);
  reply ← await (CallHead origin r);
  try (of_reply reply ≫= head_from_proto).
Definition peer_seal (peer : ReplicaTarget) (session : string) : wire SessionHead :=
  g ← peer_grant "SEAL_SESSION" (target_region peer) session 60000;
  '(origin, r) ← peer_client peer g;
  reply ← await (CallSeal origin r);
  try (of_reply reply ≫= session_from_proto).
Definition peer_read (peer : ReplicaTarget) (object : string) : wire string :=
  g ← peer_grant "GET" (target_region peer) object 60000;
  address ← try (capability_url key (url peer) (for_host (host_id peer) g));
  transport_read address.
End peers.
End transport.

(** * What the library does with these addresses *)
Definition plain_byte (c : ascii) : bool := b64_byte c || (byte c =? 46).
(** The authority in the serialized origin of some HTTP address *)
Definition serialized `{UrlParser} (s authority : string) : Prop :=
  exists text u, parse_url text = Ok u /\ scheme u = s /\ is_Some (host_str u) /\ ascii_serialization u = s +:+ "://" +:+ authority.
Class OriginLaws `{UrlParser, UrlText, UrlQueries} : Prop := {
  origin_serialized : forall text u, parse_url text = Ok u -> scheme u = "http" \/ scheme u = "https" -> is_Some (host_str u) ->
    exists authority, ascii_serialization u = scheme u +:+ "://" +:+ authority;
  capability_parsed : forall s s' authority token, (s, s') ∈ [("http", "grpc"); ("https", "grpcs")] -> serialized s authority ->
    all_bytes plain_byte token = true ->
    exists u, parse_url (s' +:+ "://" +:+ authority +:+ "?token=" +:+ token) = Ok u /\ scheme u = s' /\ username u = "" /\
      password u = None /\ fragment u = None /\ query u = Some ("token=" +:+ token) /\
      url_text (no_query u) = s' +:+ "://" +:+ authority;
  origin_parsed : forall s authority, s = "http" \/ s = "https" -> serialized s authority ->
    exists u, parse_url (s +:+ "://" +:+ authority) = Ok u /\ scheme u = s /\ is_Some (host_str u) /\ username u = "" /\ password u = None /\
      query u = None /\ fragment u = None /\ url_path u = "/" /\ parse_url (url_text u) = Ok u;
  plain_pair : forall token, all_bytes plain_byte token = true -> query_pairs ("token=" +:+ token) = [("token", token)] }.

Section laws.
Context `{UrlParser, UrlText, UrlQueries, !OriginLaws, Base64Url, !Base64UrlLaws, Hmac, Json ReplicaGrant, MetadataText}.

Lemma plain_token key g : all_bytes plain_byte (capability_token key g) = true /\ is_empty (capability_token key g) = false.
Proof.
  assert (Hb : forall s, all_bytes plain_byte (b64_encode s) = true).
  { intros s. eapply all_bytes_impl; [|apply b64_alphabet]. intros c Hc. unfold plain_byte. by rewrite Hc. }
  unfold capability_token. split; [by rewrite !all_bytes_app, !Hb|]. by destruct (b64_encode (to_vec g)).
Qed.
Lemma replace_scheme s s' rest : replace_first s s' (s +:+ rest) = s' +:+ rest.
Proof. destruct s as [|c s]; [by destruct rest|]. pose proof (strip_prefix_app (String c s) rest) as Hp. rewrite sapp_cons in *.
  cbn [replace_first]. by rewrite Hp. Qed.

(** A capability address leads back to where and what it was made for: its origin is
    the one of the replica, in a form that channels can be made for, and its token is
    the signed grant. *)
Theorem capability_address_roundtrip key origin g address : capability_url key origin g = Ok address ->
  exists u o, parse_url origin = Ok u /\ parse_url (ascii_serialization u) = Ok o /\
    capability_origin address = Ok (url_text o, capability_token key g) /\
    endpoint (url_text o) = Ok (String.eqb (scheme u) "https").
Proof.
  unfold capability_url. intros (u & Hu & E)%bind_ok. apply bind_ok in E as ([] & Hc%ensure_ok & E).
  apply bind_ok in E as (s' & Hs & <-%Tokens.Ok_inj). bools.
  assert (Hh : is_Some (host_str u)) by (destruct (host_str u); [by eexists|done]).
  assert (Hpair : (scheme u, s') ∈ [("http", "grpc"); ("https", "grpcs")] /\ (scheme u = "http" \/ scheme u = "https")).
  { destruct (String.eqb_spec (scheme u) "http") as [->|_]; [injection Hs as <-; split; [left|by left]|].
    destruct (String.eqb_spec (scheme u) "https") as [->|_]; [|done]. injection Hs as <-. split; [by right; left|by right]. }
  destruct Hpair as [Hpair Hhttp]. destruct (origin_serialized origin u Hu Hhttp Hh) as (authority & Ea).
  assert (Hser : serialized (scheme u) authority) by (by exists origin, u).
  destruct (plain_token key g) as [Hplain Hne].
  destruct (capability_parsed _ _ authority (capability_token key g) Hpair Hser Hplain) as (c & Hp & Esc & Eu & Ep & Ef & Eq & Et).
  destruct (origin_parsed _ authority Hhttp Hser) as (o & Ho & Eos & Hoh & Eou & Eop & Eoq & Eof & Eopath & Eoagain).
  exists u, o. split; [done|]. split; [by rewrite Ea|]. rewrite Ea, replace_scheme. split.
  - unfold capability_origin. rewrite <-(sapp_assoc s' ("://" +:+ authority)), <-(sapp_assoc "://" authority), Hp. cbn [mbind Result_bind].
    assert (Esch : (if String.eqb (scheme c) "grpc" then Ok "http" else if String.eqb (scheme c) "grpcs" then Ok "https"
              else Err "storage capability must use grpc or grpcs") = Ok (scheme u)).
    { rewrite Esc. rewrite !elem_of_cons, elem_of_nil in Hpair. by destruct Hpair as [[= -> ->]|[[= -> ->]|[]]]. }
    rewrite Esch, Eq. cbn [mbind Result_bind]. rewrite plain_pair, Hne by done. cbn [String.eqb negb andb].
    cbn [ensure mbind Result_bind]. rewrite Et.
    assert (Hcolon : contains_char ":" s' = false).
    { rewrite !elem_of_cons, elem_of_nil in Hpair. by destruct Hpair as [[= _ ->]|[[= _ ->]|[]]]. }
    change ("://" +:+ authority) with (String ":" ("//" +:+ authority)). rewrite split_once_app by done.
    cbn [with_context mbind Result_bind]. change (":" +:+ "//" +:+ authority) with ("://" +:+ authority). rewrite Ho.
    cbn [mbind Result_bind]. by rewrite Eu, Ep, Ef.
  - unfold endpoint. rewrite Eoagain. cbn [mbind Result_bind]. rewrite Eos, Eou, Eop, Eoq, Eof, Eopath.
    destruct Hoh as [h ->]. by destruct Hhttp as [-> | ->].
Qed.

(** ** Calls to a replica *)
Context (key : string).
Definition peer_token (peer : ReplicaTarget) (g : ReplicaGrant) : string := capability_token key (for_host (host_id peer) g).
Definition peer_header (peer : ReplicaTarget) (g : ReplicaGrant) : Request unit :=
  {| authorization := Some ("Bearer " +:+ peer_token peer g); payload_of := () |}.
Definition makes_no_call {X} (e : wire_request X) : bool :=
  match e with CallRead _ _ | CallWrite _ _ | CallInitialize _ _ | CallHead _ _ | CallSeal _ _ => false | _ => true end.
Definition no_calls (t : list (event wire_request)) : Prop := Forall (fun ev => match ev with @Ev _ X e _ => makes_no_call e = true end) t.

(** The request goes to the origin of the replica and carries the token of the grant. *)
Lemma client_runs peer g t o r : runs (peer_client key peer g) t (Ok (o, r)) -> r = peer_header peer g /\ no_calls t /\
  exists u origin, parse_url (url peer) = Ok u /\ parse_url (ascii_serialization u) = Ok origin /\ o = url_text origin.
Proof.
  intros Hr. assert (Hn : no_calls t).
  { eapply (all_calls_runs (fun X e => makes_no_call e = true)); [|exact Hr]. unfold peer_client, capability. each_call. }
  unfold peer_client in Hr. apply runs_bind_ok in Hr as (address & t1 & t2 & -> & Ha & Hr). apply runs_try in Ha as [-> Ha]. symmetry in Ha.
  apply capability_address_roundtrip in Ha as (u & origin & Hu & Ho & Hc & _).
  apply runs_bind_ok in Hr as ([o' token] & t3 & t4 & -> & Hcap & Hr). unfold capability in Hcap. rewrite Hc in Hcap. cbn [try] in Hcap.
  apply runs_bind_ok in Hcap as ([o1 tok1] & t5 & t6 & -> & E & Hcap). apply runs_inv in E as [-> [= <- <-]].
  do 2 apply runs_bind_ok in Hcap as (? & ? & ? & -> & _ & Hcap). apply runs_inv in Hcap as [-> [= <- <-]].
  apply runs_bind_ok in Hr as (r' & t7 & t8 & -> & Hb & Hr). apply runs_try in Hb as [-> Hb]. apply runs_inv in Hr as [-> [= <- <-]].
  unfold bearer_request in Hb. symmetry in Hb. apply bind_ok in Hb as ([] & _ & <-%Tokens.Ok_inj). split; [done|]. split; [done|].
  by exists u, origin.
Qed.

Context `{Sha256, !JsonLaws ReplicaGrant, Json StateSnapshot, Json Metadata, Json StreamHead, Json SessionHead}.
(** A grant that suits the replica it is for *)
Record suits (b : ReplicaBinding) (peer : ReplicaTarget) (g : ReplicaGrant) : Prop := {
  su_key : binding_key b = key;
  su_host : binding_host_id b = host_id peer;
  su_size : len (peer_token peer g) <= 16 * 1024;
  su_root : starts_with ROOT (grant_object g) = true;
  su_object : len (grant_object g) <= 1024;
  su_region : validate_region (grant_region g) = Ok ();
  su_stream : forall s, grant_stream g = Some s -> prefix s = grant_object g /\
    starts_with (ROOT +:+ "hosts/") (rs_session s) = true /\ 0 < rs_owner_epoch s;
  su_scope :
    if bool_decide (grant_operation g = "INITIALIZE_SESSION" \/ grant_operation g = "SEAL_SESSION")
    then grant_object g = identity (binding_scope b)
    else exists p, StoragePaths.snapshots (scope_actor (binding_scope b)) = Ok p /\ starts_with p (grant_object g) = true /\
      forall s, grant_stream g = Some s -> rs_session s = identity (binding_scope b) }.

Lemma peer_accepted b peer g now : suits b peer g -> now < grant_expires_at_ms g ->
  authorize (Some b) (Ok now) (peer_header peer g) [grant_operation g] = Accepted (for_host (host_id peer) g).
Proof.
  intros [Hk Hh Hsz Hroot Hlen Hreg Hst Hsc] Hnow. unfold authorize. cbn [ok_or mbind Reply_bind].
  destruct (plain_token key (for_host (host_id peer) g)) as [_ Hne]. fold (peer_token peer g) in Hne.
  assert (Ht : token (peer_header peer g) = Accepted (peer_token peer g)).
  { unfold token. change (authorization (peer_header peer g)) with (Some ("Bearer " +:+ peer_token peer g)).
    change (Some ?x ≫= ?f) with (f x). cbv beta. rewrite strip_prefix_app. cbn [mbind option_bind]. by rewrite Hne. }
  rewrite Ht. cbn [mbind Reply_bind].
  rewrite Hk. unfold peer_token. rewrite capability_roundtrip; [|done|by left|done..]. cbn [map_err mbind Reply_bind].
  cbn [grant_host_id for_host grant_operation grant_object grant_stream]. rewrite Hh, String.eqb_refl. cbn [negb].
  case_bool_decide as Hop.
  - rewrite Hsc, String.eqb_refl. done.
  - destruct Hsc as (p & -> & Hp & Hs). cbn [map_err mbind Reply_bind]. rewrite Hp.
    assert (Hstream : is_none_or (fun s => String.eqb (rs_session s) (identity (binding_scope b)) && starts_with p (prefix s)) (grant_stream g) = true).
    { destruct (grant_stream g) as [s|]; [|done]. cbn. rewrite (Hs s eq_refl), String.eqb_refl. by rewrite (proj1 (Hst s eq_refl)), Hp. }
    by rewrite Hstream.
Qed.

(** What a host gets for an operation of the store *)
Definition store_result {A} (r : Result A) : Result A := match r with Ok a => Ok a | Err _ => Err "storage operation failed" end.

(** The grant of a call that was prepared at [issued] *)
Definition call_grant (op obj reg : string) (stream : option ReplicaStream) (issued : Z) : ReplicaGrant :=
  {| grant_stream := stream; grant_operation := op; grant_object := obj; grant_region := reg; grant_host_id := "";
     grant_expires_at_ms := saturating_add issued 60000 |}.

(** A call fails before it is made, or is made once, at its end. *)
Lemma call_runs peer op obj (F : ReplicaGrant -> ReplicaGrant) {Y B} (C : string -> Request unit -> wire_request Y) (k : Y -> Result B) t res :
  runs (g ← peer_grant op (target_region peer) obj 60000; '(origin, r) ← peer_client key peer (F g);
        reply ← await (C origin r); try (k reply)) t res ->
  no_calls t \/ exists issued t1 o x, res = k x /\
    t = (Ev GrantNow (Ok issued) :: t1 ++ [Ev (C o (peer_header peer (F (call_grant op obj (target_region peer) None issued)))) x])%list.
Proof.
  assert (Hclient : forall g t' r, runs (peer_client key peer g) t' r -> no_calls t').
  { intros g t' r. apply (all_calls_runs (fun X e => makes_no_call e = true)). unfold peer_client, capability. each_call. }
  intros [(g & t1 & t2 & -> & Hg & Hr)|(e & Hg & ->)]%runs_bind.
  2: { left. eapply (all_calls_runs (fun X e => makes_no_call e = true)); [|exact Hg]. unfold peer_grant. each_call. }
  unfold peer_grant in Hg. apply runs_bind_ok in Hg as (issued & t3 & t4 & -> & Ha & Hg). apply runs_await_ok in Ha as ->.
  apply runs_inv in Hg as [-> <-%Tokens.Ok_inj]. cbn [app].
  apply runs_bind in Hr as [([o r] & t5 & t6 & -> & Hc & Hr)|(e & Hc & ->)]; [|left; constructor; [done|by eapply Hclient]].
  apply client_runs in Hc as [-> [_ _]]. right. apply runs_bind in Hr as [(x & t7 & t8 & -> & Hx & Hr)|(e & Hx & ->)].
  - apply runs_await in Hx as (y & -> & [= ->]). apply runs_try in Hr as [-> ->]. by exists issued, t5, o, y.
  - by apply runs_await in Hx as (y & _ & ?).
Qed.

Lemma no_calls_last {X} t1 (e : wire_request X) x ev0 : makes_no_call e = false -> ~ no_calls (ev0 :: t1 ++ [Ev e x])%list.
Proof. intros He Hn. apply Forall_cons in Hn as [_ [_ Hn]%Forall_app]. apply Forall_cons in Hn as [Hn _]. congruence. Qed.
(** Two accounts of one call agree. *)
Definition grant_time (ev : event wire_request) : option (Result Z) :=
  match ev with @Ev _ X e x => match e in wire_request X return X -> _ with GrantNow => Some | _ => fun _ => None end x end.
Lemma same_call issued issued' t1 t1' (ev ev' : event wire_request) :
  (Ev GrantNow (Ok issued) :: t1 ++ [ev])%list = (Ev GrantNow (Ok issued') :: t1' ++ [ev'])%list -> issued = issued' /\ ev = ev'.
Proof.
  intros E. assert (E1 := f_equal (fun l => List.hd_error l ≫= grant_time) E). cbn in E1. injection E1 as ->.
  assert (E2 := f_equal tail E). cbn in E2. by apply app_inj_tail in E2 as [_ ->].
Qed.

(** Sealing and asking for a stream through the network is sealing and asking in the
    store of the replica: a call that reaches the replica while its grant is good is
    accepted, and its outcome is the one of the store, whatever state that is in. *)
Theorem peers_reach_the_store b peer now st issued t t1 o r :
  now < saturating_add issued 60000 ->
  (forall session res x, runs (peer_seal key peer session) t res -> t = (Ev GrantNow (Ok issued) :: t1 ++ [Ev (CallSeal o r) x])%list ->
     x = (seal_handler (Some b) (Ok now) r st).1 ->
     suits b peer (call_grant "SEAL_SESSION" session (target_region peer) None issued) ->
     res = store_result (seal_session session st).1) /\
  (forall stream res x, runs (peer_head key peer stream) t res -> t = (Ev GrantNow (Ok issued) :: t1 ++ [Ev (CallHead o r) x])%list ->
     x = (head_handler (Some b) (Ok now) r st).1 ->
     suits b peer (call_grant "HEAD" (prefix stream) (target_region peer) (Some stream) issued) ->
     res = store_result (stream_head stream st).1).
Proof.
  intros Hnow. split.
  - intros session res x Hr Et Ex Hs. apply (call_runs peer "SEAL_SESSION" session (fun g => g)) in Hr as [Hn|(i & t2 & o' & y & -> & Et')].
    { rewrite Et in Hn. by apply no_calls_last in Hn. }
    rewrite Et in Et'. apply same_call in Et' as [-> Ecall].
    set (f := fun ev : event wire_request => match ev with
                | @Ev _ X e x => match e in wire_request X return X -> _ with CallSeal o r => fun x => Some (r, x) | _ => fun _ => None end x end).
    injection (f_equal f Ecall) as -> ->. rewrite Ex. unfold seal_handler, session_grant.
    pose proof (peer_accepted b peer _ now Hs Hnow) as Ha. cbn [grant_operation call_grant] in Ha. rewrite Ha. cbn [mbind Reply_bind grant_stream for_host call_grant handle grant_object].
    unfold with_store. destruct (seal_session session st).1 as [h|e]; [|done]. cbn. apply session_head_wire_roundtrip.
  - intros stream res x Hr Et Ex Hs. apply (call_runs peer "HEAD" (prefix stream) (for_stream stream)) in Hr as [Hn|(i & t2 & o' & y & -> & Et')].
    { rewrite Et in Hn. by apply no_calls_last in Hn. }
    rewrite Et in Et'. apply same_call in Et' as [-> Ecall].
    set (f := fun ev : event wire_request => match ev with
                | @Ev _ X e x => match e in wire_request X return X -> _ with CallHead o r => fun x => Some (r, x) | _ => fun _ => None end x end).
    injection (f_equal f Ecall) as -> ->. rewrite Ex. unfold head_handler.
    assert (Eg : for_stream stream (call_grant "HEAD" (prefix stream) (target_region peer) None i)
                 = call_grant "HEAD" (prefix stream) (target_region peer) (Some stream) i) by done.
    rewrite Eg. pose proof (peer_accepted b peer _ now Hs Hnow) as Ha. cbn [grant_operation call_grant] in Ha. rewrite Ha. cbn [mbind Reply_bind grant_stream for_host call_grant handle ok_or].
    unfold with_store. destruct (stream_head stream st).1 as [h|e]; [|done]. cbn. apply head_wire.
Qed.
End laws.

(** * A library of plain addresses: the laws hold together *)
From S2P Require Import Samples.
Import Hex.
Definition is_http (s : string) : bool := String.eqb s "http" || String.eqb s "https".
(** Addresses that consist of a scheme, an authority, and possibly a root path and a query *)
Definition plain_url (text : string) : Result Url :=
  '(s, rest) ← with_context (split_once ":" text) "relative URL without a base";
  rest ← with_context (strip_prefix "//" rest) "no authority";
  let '(main, q) := match split_once "?" rest with Some (main, q) => (main, Some q) | None => (rest, None) end in
  let authority := default main (strip_suffix "/" main) in
  ensure (negb (contains_char "/" authority) && negb (is_empty authority) && negb (contains_char "?" authority)) "unsupported URL";;
  Ok {| username := ""; password := None; query := q; fragment := None; url_path := if is_http s then "/" else "";
        host_str := Some authority; scheme := s; ascii_serialization := s +:+ "://" +:+ authority |}.
#[local] Instance plain_parser : UrlParser := {| parse_url := plain_url |}.
#[local] Instance plain_text : UrlText := {|
  url_text u := ascii_serialization u +:+ url_path u +:+ match query u with Some q => "?" +:+ q | None => "" end |}.
#[local] Instance plain_queries : UrlQueries := {|
  query_pairs q := match split_once "=" q with Some (name, value) => [(name, value)] | None => [(q, "")] end |}.

Lemma split_once_none c s : contains_char c s = false -> split_once c s = None.
Proof.
  rewrite contains_char_false. induction s as [|d s IH]; [done|]. cbn. rewrite andb_true_iff. intros [Hd Hs].
  destruct (ascii_dec d c) as [->|]; [by rewrite bool_decide_eq_true_2 in Hd|]. by rewrite IH.
Qed.
Lemma plain_inv text u : plain_url text = Ok u -> exists authority, ascii_serialization u = scheme u +:+ "://" +:+ authority /\
  contains_char "/" authority = false /\ contains_char "?" authority = false /\ is_empty authority = false.
Proof.
  unfold plain_url. intros ([s rest] & _ & E)%bind_ok. apply bind_ok in E as (rest' & _ & E).
  destruct (match split_once "?" rest' with Some _ => _ | None => _ end) as [main q].
  apply bind_ok in E as ([] & Hc%ensure_ok & <-%Tokens.Ok_inj). bools. by eexists.
Qed.
Lemma no_suffix a : contains_char "/" a = false -> strip_suffix "/" a = None.
Proof.
  rewrite contains_char_false. induction a as [|d a IH]; [done|]. cbn. rewrite andb_true_iff. intros [Hd Ha]. rewrite (IH Ha).
  destruct (Ascii.eqb_spec d "/") as [->|]; [|done]. by rewrite bool_decide_eq_true_2 in Hd.
Qed.
(** What the parser makes of an authority with one of the endings that occur *)
Lemma plain_parses s authority tail : contains_char ":" s = false -> contains_char "/" authority = false ->
  contains_char "?" authority = false -> is_empty authority = false ->
  (tail = "" \/ tail = "/" \/ exists q, tail = "?" +:+ q) ->
  plain_url (s +:+ "://" +:+ authority +:+ tail) =
    Ok {| username := ""; password := None; query := match split_once "?" tail with Some (_, q) => Some q | None => None end; fragment := None;
          url_path := if is_http s then "/" else ""; host_str := Some authority; scheme := s;
          ascii_serialization := s +:+ "://" +:+ authority |}.
Proof.
  intros Hs Hsl Hq Hne Htail. unfold plain_url. change ("://" +:+ authority +:+ tail) with (String ":" ("//" +:+ authority +:+ tail)).
  rewrite split_once_app by done. cbn [with_context mbind Result_bind]. rewrite strip_prefix_app. cbn [with_context mbind Result_bind].
  destruct Htail as [-> |[-> |(q & ->)]].
  - rewrite sapp_nil_r, split_once_none by done. cbn [split_once]. rewrite no_suffix by done. cbn [default from_option].
    by rewrite Hsl, Hq, Hne.
  - rewrite split_once_none by (rewrite contains_char_app; by rewrite Hq). rewrite strip_suffix_app. cbn [default from_option id].
    by rewrite Hsl, Hq, Hne.
  - change ("?" +:+ q) with (String "?" q). rewrite split_once_app by done. rewrite no_suffix by done. cbn [default from_option split_once].
    by rewrite Hsl, Hq, Hne.
Qed.
#[local] Instance plain_laws : OriginLaws.
Proof.
  assert (Hser : forall s authority, serialized s authority -> contains_char "/" authority = false /\ contains_char "?" authority = false /\ is_empty authority = false).
  { intros s authority (text & u & (a & Ea & H1 & H2 & H3)%plain_inv & Hs & _ & E). rewrite Ea, Hs in E.
    assert (a = authority) as <-; [|done]. apply sapp_inj_l in E. by apply sapp_inj_l in E. }
  split.
  - intros text u (authority & E & _)%plain_inv _ _. by exists authority.
  - intros s s' authority token Hp (Hsl & Hq & Hne)%Hser _. eexists.
    assert (Hcolon : contains_char ":" s' = false /\ is_http s' = false).
    { rewrite !elem_of_cons, elem_of_nil in Hp. by destruct Hp as [[= _ ->]|[[= _ ->]|[]]]. }
    destruct Hcolon as [Hcolon Hhttp]. split; [apply (plain_parses s' authority ("?token=" +:+ token)); try done; right; right; by exists ("token=" +:+ token)|].
    cbn -[String.append]. rewrite Hhttp. split_and!; try done. cbn. by rewrite sapp_nil_r.
  - intros s authority Hs (Hsl & Hq & Hne)%Hser. assert (Hcolon : contains_char ":" s = false /\ is_http s = true) by (by destruct Hs as [-> | ->]).
    destruct Hcolon as [Hcolon Hhttp]. eexists.
    split; [rewrite <-(sapp_nil_r authority) at 1; apply (plain_parses s authority ""); try done; by left|].
    cbn [split_once scheme host_str username password query fragment url_path]. rewrite Hhttp. split_and!; try done.
    cbn [url_text plain_text ascii_serialization url_path query]. rewrite <-(sapp_assoc s), <-(sapp_assoc "://").
    change ("/" +:+ "") with "/". cbn [parse_url plain_parser]. rewrite (plain_parses s authority "/"); try done; [by rewrite Hhttp|by right; left].
  - intros token _. done.
Qed.

#[local] Instance plain_metadata : MetadataText := {| metadata_accepts _ := true |}.
Definition run_peer : ReplicaTarget := {| host_id := "r1"; url := "http://10.0.0.1:70"; target_region := "eu" |}.
(** A replica bound to the activation, with nothing in its store yet *)
Definition run_replica X (e : wire_request X) : X :=
  match e in wire_request X return X with
  | GrantNow => Ok 5
  | CachedChannel _ => false
  | ConnectLazy _ => ()
  | Connect _ => Ok ()
  | PreconnectElapsed => false
  | CallRead _ r => (read_handler (Some sample_binding) (Ok 7) r empty_store).1
  | CallWrite _ r => (write_handler (Some sample_binding) (Ok 7) r empty_store).1
  | CallInitialize _ r => (initialize_handler (Some sample_binding) (Ok 7) r empty_store).1
  | CallHead _ r => (head_handler (Some sample_binding) (Ok 7) r empty_store).1
  | CallSeal _ r => (seal_handler (Some sample_binding) (Ok 7) r empty_store).1
  end.
Definition run_seal := follow run_replica (peer_seal "k" run_peer (identity sample_scope)).
Definition run_header : Request unit :=
  peer_header "k" run_peer (call_grant "SEAL_SESSION" (identity sample_scope) "eu" None 5).
Lemma run_suits : suits "k" sample_binding run_peer (call_grant "SEAL_SESSION" (identity sample_scope) "eu" None 5).
Proof. split; try done; vm_compute; (discriminate || reflexivity). Qed.
Lemma peers_reach_the_store_witness : run_seal.2 = store_result (seal_session (identity sample_scope) empty_store).1 /\
  exists head, run_seal.2 = Ok head /\ sealed head = true.
Proof.
  split; [|eexists; split; [vm_compute; reflexivity|reflexivity]].
  apply (proj1 (peers_reach_the_store "k" sample_binding run_peer 7 empty_store 5 run_seal.1
                  [Ev (CachedChannel "http://10.0.0.1:70/") false; Ev (ConnectLazy "http://10.0.0.1:70/") ()]
                  "http://10.0.0.1:70/" run_header ltac:(reflexivity)))
    with (x := (seal_handler (Some sample_binding) (Ok 7) run_header empty_store).1).
  - apply follow_runs.
  - vm_compute. reflexivity.
  - reflexivity.
  - apply run_suits.
Defined.
